(* ===== verification/_CoqProject ===== *)
-Q . S2P
Prelude.v
Lts.v
Contract.v
Machine.v
BoundedRing.v
BoundedRingLin.v
BoundedRingSpec.v
StreamGate.v
SpscRing.v
SpscRingLin.v
SpscRingSpec.v
Spmc.v
SpmcLin.v
SpmcSpec.v
Hazard.v
Segment.v
SegmentLin.v
SegmentSpec.v
CQueue.v
CQueueSpec.v
Waiter.v
WaiterSpec.v
Text.v
Cir.v
WtcOps.v
Utils.v
Asm.v
Blocking.v
BlockingSpec.v
LiftLower.v
Mutex.v
Slots.v
Loops.v
Specialize.v
LibraryQueue.v
WorkEstimate.v
WorkEstimateSpec.v
Batch.v
Frames.v
Exec.v
Graph.v
Threads.v
ThreadsSpec.v
Exclusive.v
ThreadRuns.v
Ownership.v
OwnershipSpec.v
Runs.v
BatchSpec.v
LockBatchSpec.v
Borrow.v
BorrowSpec.v
Places.v
AlignByOwner.v
FalseSharing.v
FalseSharingSpec.v
Shim.v
