(* ===== verification/Prelude.v ===== *)
(** * WTC: a verification development for the runtime queues and the compiler

    WTC teaches a compiler what a concurrent queue is.  A program is written
    against a thin shim (src/shim); calls into it are lifted to operations
    of an MLIR dialect (src/mlir); analyses prove which threads touch each
    queue; the constructor's tag is rewritten to the implementation the
    program needs (src/runtime); and the operations are lowered back to
    calls.  This development models the runtime's queues and the waiting
    and reclamation under them, and the compiler from the dialect's
    operations to the specialisation of a queue, and proves what each
    promises.

    ** The runtime (src/runtime)

    Every concurrent component is a step machine ([Machine.v]): a program
    counter whose constructors are the points between two accesses to
    shared memory, and an executable step function that makes one access.
    [Lts.v] interleaves any number of threads, one access at a time;
    [Contract.v] is the contract, linearisability to a sequential object,
    with the two simulation arguments.

    - [BoundedRing.v], [BoundedRingLin.v], [BoundedRingSpec.v]:
      bounded_ring.hpp.  Both counter layouts, the tickets and sequence
      words at 32 bits with their wrap-around.  Linearisable to a queue of
      exactly the capacity, no access to a dead or live cell out of turn,
      what the destructor destroys, the least power of two.
    - [StreamGate.v]: stream_gate.hpp.  The consumer's estimate of whether
      its producer streams: its arithmetic over any number of catch-ups, the
      rate test exact, when it waits and when it probes.
    - [SpscRing.v], [SpscRingLin.v], [SpscRingSpec.v]: spsc_ring.hpp.  The
      ring of blocks for one producer and one consumer, deferred pushes, the
      slip and the lent element.  Linearisable, wait-free, the lent element
      alive until the next pop, memory bounded, every block freed once.
    - [Spmc.v], [SpmcLin.v], [SpmcSpec.v]: spmc_queue.hpp and hazard.hpp.
      Segments with reused addresses, consumers that come and go, and the
      hazard-pointer records they free through.  Linearisable, no freed
      segment touched or freed twice, a push in five steps.
    - [Hazard.v]: hazard.hpp on its own.  Every operation, one access at a
      time, for any queue that frees through it, with what it promises one:
      nothing in a validated slot is freed.
    - [Segment.v], [SegmentLin.v], [SegmentSpec.v]: segment_queue.hpp in its
      multi-consumer form, over [Hazard.v].  Runs of pushes take their cells
      with one fetch-and-add, a pop may give up a cell before or while a
      push fills it.  Linearisable (a run one element at a time), no freed
      segment touched, what the destructor destroys.
    - [CQueue.v], [CQueueSpec.v]: src/shim/c_queue.cpp.  The queue the
      compiler puts in place of a C program's own, with the terminations of
      its producers, the batches to and from a caller's ring and its
      destruction.  Linearisable to the queue the program wrote, and freed
      under no operation.
    - [Shim.v]: src/shim/queue.hpp, bounded.hpp, lifted.hpp.  The queue a
      program is written against: which implementation its tag names, the
      calls each operation makes, and a producer's batches, over an
      interface ([Implementation]) that the sequential object of each
      runtime queue is an instance of.
    - [Waiter.v], [WaiterSpec.v]: waiter.hpp.  The three wait policies over
      a Linux futex, with limits.  Linearisable to a queue that may be
      closed, no wake-up lost, tick conversions exact.

    ** The compiler (src/mlir)

    [Cir.v] is the intermediate representation (operations, blocks,
    regions, values, attributes) with the queries of the MLIR API the
    passes are written in; [Text.v] the string operations, with regular
    expressions matched by derivatives.  A pass is a function on modules;
    its remarks and errors are values.

    - [WtcOps.v]: lib/WTC/WTCOps.cpp and the operation definitions.  The
      verifiers and the progress table.
    - [Utils.v], [Slots.v], [Loops.v], [LibraryQueue.v]: Utils.cpp (and
      constantTripCount of WorkEstimate.cpp).  Callees, semantic kinds,
      tracing; private slots and allocations; counted loops; the library
      queues read by name.
    - [Asm.v], [Blocking.v], [BlockingSpec.v]: Blocking.cpp and
      WTCCheckProgress.cpp.  The inline-assembly reader, the blocking query
      over the call graph with its memo and its provisional answers, and
      the progress check.
    - [WorkEstimate.v], [WorkEstimateSpec.v]: WorkEstimate.cpp.  The units
      of work of an operation, with memo, stack and depth limit.
    - [LiftLower.v]: LiftCIRToWTC.cpp and LowerWTCToCIR.cpp.
    - [Specialize.v]: WTCSpecialize.cpp.  Which tag a constructor gets,
      statically or chosen when the queue is built.
    - [Batch.v], [BatchSpec.v], [LockBatchSpec.v]: WTCBatchPushes.cpp.  Both
      batching passes: what keeps a loop from being batched, the cost model,
      the rewriting.  [Runs.v] gives the loops a meaning, the traces of
      operations a run may make, and [Frames.v] relates an operation's place
      in the module to the walks; [Mutex.v] is src/shim/mutex.hpp, which the
      batched critical sections call.
    - [Borrow.v], [BorrowSpec.v]: WTCBorrowAnalysis.cpp.  Whether a consumer
      only borrows what it pops, with the two optimistic memos.
    - [Threads.v], [ThreadsSpec.v], [Exclusive.v], [ThreadRuns.v]: the walk of
      ThreadInstances.cpp, from main, the constructors and the roots through
      calls and spawns to function instances with their threads and
      multiplicities, and what is asked of it.  [Exec.v] gives a function's
      body a meaning (the traces of operations a call may execute), against
      which the answers are proved; [Graph.v] has the two work lists over
      the call graph.
    - [Ownership.v], [OwnershipSpec.v]: the counting of
      QueueOwnershipAnalysis.cpp, from the record of each queue operation on
      its sides to the verdict.
    - [Places.v]: reachesOp, singleStoredGlobalValue and resolveRoot of
      ThreadInstances.cpp: which functions are worth an instance, and the
      one object an address points into.
    - [AlignByOwner.v]: WTCAlignByOwner.cpp, the pass that gives globals of
      different threads lines of their own.
    - [FalseSharing.v], [FalseSharingSpec.v]: WTCFalseSharingDiagnose.cpp.
      The record of accesses, the geometry of a cache line and the
      judgement of every pair of fields.

    The walk is the interface between the passes: [Threads.run] is the
    finished walk, and [Ownership], [AlignByOwner] and [FalseSharing] take it
    as their argument and ask it what the code asks it ([instances],
    [exclusive], [siteMult], [inStartupPhase], [runsOnce], [siteRunsOnce]).

    ** What the theorems show

    Refinement: each runtime queue is linearisable to its sequential queue
    ([packed_linearisable], [split_linearisable], [spsc_linearisable],
    [spmc_linearisable], [seg_linearisable], [c_linearisable],
    [wait_linearisable]).  Safety of memory and of wake-ups ([never_bad], [spsc_safe], [spmc_safe],
    [seg_safe], [c_destroy_safe], [borrow_valid], [no_lost_wakeup]).  A
    batch of pushes arrives as the pushes would on any of them
    ([batch_arrives]).  Termination and progress ([spsc_wait_free],
    [spmc_push_wait_free], [probes_within]; the thread walk visits every
    instance it makes, [walk_visits_all]).  Arithmetic at machine width
    ([ringSize_least], [gate_exact], [limit_exact], [trip_count_exact]).
    For the compiler: exactness of the analyses against reference
    definitions that have no memo, stack or work list ([query_exact],
    [progress_check_exact], [estimate_exact], [asm_cleared_iff]); the round
    trip of lifting and lowering and the well-formedness of what each
    produces ([lift_lower_roundtrip], [lift_well_formed]);
    that a batched loop makes the same runs, with its elements published
    later, or not at all when a push fails ([push_batched]), or its one
    mutex held longer ([locks_batched]), which no other thread can tell from
    a run of the original ([batch_interleavings]);
    that a chosen implementation admits the threads that run it, the loop's
    bound being the one read and the loop not one that cannot end
    ([run_time_tag_admits]); and that what a borrowed pop hands out is kept
    nowhere, where the slots it passes through are read back whole
    ([borrow_sound], [borrow_answers]).

    Of the thread analyses, against the runs of a program (activations of
    functions, each started by an operation an earlier one executed): a
    function answered to run once runs once ([runs_once_sound]); threads
    called exclusive are never both there ([exclusive_sound]); a queue called
    spsc has one pushing and one popping thread ([verdict_sound]).  The
    theorems ask that the walk met no recursion and, where the answer does
    not give up by itself, was not cut short.  The code does not always ask
    it: the ownership analysis poisons what it meets under recursion but
    does not see what a second recurrence starts ([rec_module]), and
    AlignByOwner and FalseSharing pass an empty recursion callback to the
    walk and go on.  Of the layout passes: a definite pair is two
    fields that two threads touch and that may land on one line
    ([definite_sound], over the exact geometry [geometry_exact]); a pair
    touched repeatedly, by accesses that do not overlap, is not passed over
    ([no_pair_missed]); a raised global ends up on lines its partner does not
    share ([align_separates]).

    ** Choices of the model, bounds and fuel

    - Memory is sequentially consistent: acquire, release and relaxed
      accesses interleave as single steps, and fences are no-ops.  A weak
      compare-and-swap may fail for no reason.
    - Counters keep their width.  Where the code relies on a counter not
      coming round within one operation, the theorem says so as a condition
      on runs ([restrict]); segment and block sizes are any in the ranges
      the files state (a segment has between 2, or 1, and 2^63 cells).
    - Operations of the IR are known by numbers; a theorem that needs them
      distinct assumes [wf_ids].  A rewritten operation keeps its number.
      Linkage questions ClangIR answers are fields of a function.
    - Parameters: the demangler, dominance, the size, alignment and member
      offsets of a type, how many threads take a mutex; of the thread walk
      the functions whose address is taken, the callables of a std::thread
      and what its invokers run, and the functions an entry field holds; of
      the ownership analysis which queues an operation may act on ([keysOf])
      and the constructors seen; of the layout passes the several places a
      pointer may name ([resolvePlaces]) and what ClangIR answers of a
      global (linkage, section, comdat, thread-local).
    - A run of a loop is any path its regions allow: conditions are not
      evaluated, any branch may be taken, any iteration may be the last; any
      queue operation that moves elements may fail with an exception.
    - Fuel: the blocking query takes one more than the number of functions
      (proved enough in [BlockingSpec.v]); the work estimate the depth limit
      plus one, the stack being refused at the limit (proved enough in
      [WorkEstimateSpec.v]); chains of definitions the number of operations
      ([traceToLocalRoot_stops]); budgets the code itself has (512 values of
      an escaping slot, 8 hops, depth 4 of a wrapper) are kept as they are;
      the thread walk the cap on its instances plus one (proved enough,
      [walk_visits_all]); [resolve_root] its depth limit plus two.
    - Work is counted in exact eighths of a unit; the code counts in
      doubles, which are exact for these amounts below 2^53 eighths.
    - The stream gate's sums are exact for a clock rate and a number of
      elements between two catch-ups whose products stay below 2^64
      ([StreamGate.fits]), over any number of catch-ups.

    ** Not modelled

    Of the runtime: the WTC_CHECK assertions (a debug build option);
    exceptions thrown by an element; the condition-variable fallback of the
    waiter off Linux; the single-consumer form of segment_queue.hpp (pop_one
    and what it calls); the shim's WTC_CHECK guard on lent elements.

    Of the compiler: in the specialisation pass the rewriting of the module
    once the tag is decided (operands set, passTagThrough's copy of a
    function); in ThreadInstances.cpp what names a std::thread's callable,
    the entry fields, bothConditional, and the form of resolveRootImpl that
    gives offsets and several places with the stores into fields; in
    QueueOwnershipAnalysis.cpp which queues an operation may act on, the
    scoping of recursion, escapes, memory pools, labels, remarks and the
    check of declared topologies; the passes that recognise queues a program
    wrote itself (LiftCQueues.cpp, LiftLockedQueues.cpp, LiftedBounded.cpp);
    the census pass and tools; registration of passes, ODS-generated parsing
    and printing; tests, benchmarks, examples and the Python and shell
    tools, which are not part of the compiled program. *)

From Stdlib Require Export ZArith Lia.
From stdpp Require Export base tactics numbers option decidable functions sets list.

Declare Scope wtc_scope.
Delimit Scope wtc_scope with wtc.

(** ** Machine integers

    A C++ unsigned integer of [w] bits is a [Z] in [0 .. 2^w); the
    conversions below are C++'s: reduction modulo [2^w]. *)

Definition u32 (x : Z) : Z := x mod 2 ^ 32.
Definition u64 (x : Z) : Z := x mod 2 ^ 64.

(** [static_cast<std::int32_t>] of an unsigned value, two's complement. *)
Definition i32 (x : Z) : Z := let y := u32 x in if (y <? 2 ^ 31)%Z then y else (y - 2 ^ 32)%Z.

(** [static_cast<std::int64_t>] of an unsigned value, two's complement. *)
Definition i64 (x : Z) : Z := let y := u64 x in if (y <? 2 ^ 63)%Z then y else (y - 2 ^ 64)%Z.

Notation "x '⊖₃₂' y" := (u32 (x - y)) (at level 50, left associativity) : wtc_scope.
Notation "x '⊕₃₂' y" := (u32 (x + y)) (at level 50, left associativity) : wtc_scope.
Notation "x '⊖₆₄' y" := (u64 (x - y)) (at level 50, left associativity) : wtc_scope.
Notation "x '⊕₆₄' y" := (u64 (x + y)) (at level 50, left associativity) : wtc_scope.

#[global] Arguments Z.pow : simpl never.
#[global] Arguments Z.modulo : simpl never.
#[global] Arguments Z.div : simpl never.
#[global] Arguments Z.mul : simpl never.

Create HintDb wtc.
Create Rewrite HintDb wtc.

Section words.
Local Open Scope Z_scope.

Lemma u32_range x : 0 ≤ u32 x < 2 ^ 32.
Proof. unfold u32. apply Z.mod_pos_bound. lia. Qed.

Lemma u64_range x : 0 ≤ u64 x < 2 ^ 64.
Proof. unfold u64. apply Z.mod_pos_bound. lia. Qed.

Lemma u32_small x : 0 ≤ x < 2 ^ 32 → u32 x = x.
Proof. apply Z.mod_small. Qed.

Lemma u64_small x : 0 ≤ x < 2 ^ 64 → u64 x = x.
Proof. apply Z.mod_small. Qed.

Lemma u32_idemp x : u32 (u32 x) = u32 x.
Proof. apply u32_small, u32_range. Qed.

Lemma u32_add_l x y : u32 (u32 x + y) = u32 (x + y).
Proof. unfold u32. apply Zplus_mod_idemp_l. Qed.

Lemma u32_sub x y : u32 (u32 x - u32 y) = u32 (x - y).
Proof. unfold u32. rewrite Zminus_mod_idemp_l, Zminus_mod_idemp_r. done. Qed.

(** The difference of two wrapped counters is the true difference
    when that is in range: what every comparison of tickets uses. *)
Lemma u32_sub_small x y : 0 ≤ x - y < 2 ^ 32 → u32 (u32 x - u32 y) = x - y.
Proof. intros. rewrite u32_sub. by apply u32_small. Qed.

(** Congruent numbers less than the modulus apart are equal. *)
Lemma mod_eq_near x y m : 0 < m → Z.abs (x - y) < m → x mod m = y mod m → x = y.
Proof.
  intros Hm Hd He. pose proof (Z.div_mod x m ltac:(lia)). pose proof (Z.div_mod y m ltac:(lia)).
  assert (x - y = m * (x / m - y / m)) as E by lia.
  destruct (Z.eq_dec (x / m - y / m) 0) as [E0|]; [rewrite E0 in E; lia|].
  assert (m ≤ Z.abs (x - y)); [|lia]. rewrite E, Z.abs_mul. nia.
Qed.

(** Two counters less than [2^32] apart are equal when their words are. *)
Lemma u32_inj_near x y : Z.abs (x - y) < 2 ^ 32 → u32 x = u32 y → x = y.
Proof.
  unfold u32. intros Hd He. by apply (mod_eq_near x y (2 ^ 32)).
Qed.

(** The signed reading of a difference of words. *)
Lemma i32_sub_near x y : - 2 ^ 31 ≤ x - y < 2 ^ 31 → i32 (u32 x - u32 y) = x - y.
Proof.
  intros Hd. unfold i32. rewrite u32_sub. unfold u32.
  destruct (Z.ltb_spec ((x - y) mod 2 ^ 32) (2 ^ 31)) as [Hlt|Hge].
  - destruct (decide (0 ≤ x - y)); [rewrite Z.mod_small; lia|].
    rewrite <-(Z_mod_plus_full _ 1) in Hlt. rewrite Z.mod_small in Hlt; lia.
  - destruct (decide (0 ≤ x - y)); [rewrite Z.mod_small in Hge; lia|].
    rewrite <-(Z_mod_plus_full _ 1). rewrite Z.mod_small; lia.
Qed.
End words.

#[export] Hint Resolve u32_range u64_range : wtc.
#[export] Hint Rewrite u32_idemp u32_add_l : wtc.

(** ** Maps from thread identifiers

    [<[t:=x]> f] on functions is stdpp's [fn_insert]. *)

Lemma fn_insert_eq {A} (f : nat → A) t x : <[t:=x]> f t = x.
Proof. apply fn_lookup_insert. Qed.

Lemma fn_insert_ne {A} (f : nat → A) t u x : t ≠ u → <[t:=x]> f u = f u.
Proof. intros. by apply fn_lookup_insert_ne. Qed.

(** Case analysis on "the thread that moved, or another one". *)
Ltac by_thread t u :=
  destruct (decide (t = u)) as [->|];
  [rewrite ?fn_insert_eq in * | rewrite ?fn_insert_ne in * by done].

(** Splits conjunctions and existentials of the context, and substitutes. *)
Ltac crush := try progress simplify_eq/=; repeat (match goal with
  | H : _ ∧ _ |- _ => destruct H
  | H : ∃ _, _ |- _ => destruct H
  | H : Some _ = Some _ |- _ => injection H as H
  | H : (_, _) = (_, _) |- _ => injection H as H
  | H : None = Some _ |- _ => discriminate H
  | H : Some _ = None |- _ => discriminate H
  end; simplify_eq/=).

(** ** Lists *)

Section lists.
Context {A : Type}.
Implicit Types l : list A.

Lemma drop_lookup_cons l n x : l !! n = Some x → drop n l = x :: drop (S n) l.
Proof. intros. by apply drop_S. Qed.

Lemma drop_app_snoc l n x : n ≤ length l → drop n (l ++ [x]) = drop n l ++ [x].
Proof. intros. by rewrite drop_app_le. Qed.

Lemma lookup_snoc_Some l i x y : (l ++ [x]) !! i = Some y ↔ (i < length l ∧ l !! i = Some y) ∨ (i = length l ∧ x = y).
Proof.
  rewrite lookup_app_Some. split.
  - intros [H|[Hi H]]; [left; split; [eapply lookup_lt_Some; eauto|done]|].
    right. destruct (i - length l) eqn:E; [|by rewrite lookup_cons in H]. simpl in H. simplify_eq. split; [lia|done].
  - intros [[? ?]|[-> ->]]; [by left|right]. split; [lia|]. by rewrite Nat.sub_diag.
Qed.
End lists.

(** Distinct items, each owned by one of [N] owners and no owner with two of
    them, are at most [N]. *)
Lemma pigeonhole {A} (own : nat → A → Prop) (js : list A) (N : nat) :
  NoDup js → (∀ j, j ∈ js → ∃ u, u < N ∧ own u j) →
  (∀ u j j', j ∈ js → j' ∈ js → own u j → own u j' → j = j') → length js ≤ N.
Proof.
  intros Hnd Hown Hinj.
  assert (∃ us, Forall2 (λ j u, u < N ∧ own u j) js us) as [us Hus].
  { clear Hnd Hinj. induction js as [|j js IH]; [by exists []|].
    destruct IH as [us ?]; [intros; apply Hown; by right|].
    destruct (Hown j) as [u ?]; [by left|]. exists (u :: us). by constructor. }
  rewrite (Forall2_length _ _ _ Hus), <-(length_seq N 0).
  apply submseteq_length, NoDup_submseteq.
  - apply NoDup_alt. intros a b u Ha Hb.
    destruct (Forall2_lookup_r _ _ _ _ _ Hus Ha) as (j & Hj & _ & Hoj).
    destruct (Forall2_lookup_r _ _ _ _ _ Hus Hb) as (j' & Hj' & _ & Hoj').
    assert (j = j') as <- by (eapply Hinj; eauto using list_elem_of_lookup_2).
    by eapply NoDup_lookup.
  - intros u [n Hu]%list_elem_of_lookup. destruct (Forall2_lookup_r _ _ _ _ _ Hus Hu) as (j & _ & ? & _).
    apply elem_of_seq. lia.
Qed.

(** ** Sums over the threads below [N] *)

Fixpoint tsum (N : nat) (f : nat → Z) : Z :=
  match N with O => 0%Z | S n => (tsum n f + f n)%Z end.

Section tsum.
Local Open Scope Z_scope.

Lemma tsum_ext N f f' : (∀ t, (t < N)%nat → f t = f' t) → tsum N f = tsum N f'.
Proof. induction N as [|N IH]; simpl; intros H; [done|]. rewrite IH, H by auto with lia. done. Qed.

Lemma tsum_le N f f' : (∀ t, (t < N)%nat → f t ≤ f' t) → tsum N f ≤ tsum N f'.
Proof.
  induction N as [|N IH]; simpl; intros H; [lia|]. pose proof (H N ltac:(lia)).
  assert (tsum N f ≤ tsum N f') by (apply IH; auto with lia). lia.
Qed.

Lemma tsum_add N f f' : tsum N (λ t, f t + f' t) = tsum N f + tsum N f'.
Proof. induction N as [|N IH]; simpl; [done|]. rewrite IH. lia. Qed.

Lemma tsum_nonneg N f : (∀ t, (t < N)%nat → 0 ≤ f t) → 0 ≤ tsum N f.
Proof. induction N as [|N IH]; simpl; intros H; [lia|]. pose proof (H N ltac:(lia)). assert (0 ≤ tsum N f) by (apply IH; auto with lia). lia. Qed.

Lemma tsum_one N f t : (∀ u, (u < N)%nat → 0 ≤ f u) → (t < N)%nat → f t ≤ tsum N f.
Proof.
  induction N as [|N IH]; simpl; intros H Ht; [lia|]. destruct (decide (t = N)) as [->|].
  - assert (0 ≤ tsum N f) by (apply tsum_nonneg; auto with lia). lia.
  - assert (f t ≤ tsum N f) by (apply IH; auto with lia). pose proof (H N ltac:(lia)). lia.
Qed.

Lemma tsum_update N f f' t : (t < N)%nat → (∀ u, (u < N)%nat → u ≠ t → f' u = f u) → tsum N f' = tsum N f - f t + f' t.
Proof.
  induction N as [|N IH]; simpl; intros Ht H; [lia|]. destruct (decide (t = N)) as [->|].
  - rewrite (tsum_ext N f' f) by (intros; apply H; lia). lia.
  - rewrite IH by (done || lia || (intros; apply H; lia)). rewrite (H N) by lia. lia.
Qed.

(** The members of a set of threads, counted. *)
Lemma tsum_mem N (l : list nat) : NoDup l → (∀ t, t ∈ l → (t < N)%nat) →
  tsum N (λ t, if decide (t ∈ l) then 1 else 0) = Z.of_nat (length l).
Proof.
  induction l as [|x l IH]; intros Hnd Hl.
  - assert (∀ n, tsum n (λ _, 0) = 0) as E by (intros n; induction n; simpl; lia). rewrite (tsum_ext _ _ (λ _, 0)), E; [done|].
    intros t _. case_decide as H; [by apply not_elem_of_nil in H|done].
  - apply NoDup_cons in Hnd as [Hx Hnd]. rewrite (tsum_update _ (λ t, if decide (t ∈ l) then 1 else 0) _ x).
    + rewrite IH by (auto; intros; apply Hl; by right). rewrite decide_False, decide_True by (done || by left). simpl. lia.
    + apply Hl. by left.
    + intros u _ Hu. destruct (decide (u ∈ l)); [rewrite decide_True by (by right)|rewrite decide_False]; [done..|].
      intros [?|?]%elem_of_cons; done.
Qed.
End tsum.
