(* ===== verification/Lts.v ===== *)
(** * Labelled transition systems

    Interleaving semantics shared by every concurrent component: runs,
    histories, invariants by rule induction, and the two simulation
    arguments (forward and backward) with their history-inclusion
    theorems. *)

From S2P Require Import Prelude.

Record lts (L : Type) := Lts {
  lstate : Type;
  linit : lstate → Prop;
  lstep : lstate → option L → lstate → Prop
}.
Arguments Lts {L} _ _ _.
Arguments lstate {L} _.
Arguments linit {L} _ _.
Arguments lstep {L} _ _ _ _.

(** A run: its events are the labels of its visible steps. *)
Inductive steps {L} (M : lts L) : lstate M → list L → lstate M → Prop :=
| steps_nil s : steps M s [] s
| steps_tau s s' s'' tr : lstep M s None s' → steps M s' tr s'' → steps M s tr s''
| steps_event s a s' s'' tr : lstep M s (Some a) s' → steps M s' tr s'' → steps M s (a :: tr) s''.

Definition history {L} (M : lts L) (tr : list L) : Prop := ∃ s0 s, linit M s0 ∧ steps M s0 tr s.
Definition reachable {L} (M : lts L) (s : lstate M) : Prop := ∃ s0 tr, linit M s0 ∧ steps M s0 tr s.

(** The system [M] with the runs that stay in [P]: how an assumption about a
    run (and not about its start only) is stated. *)
Definition restrict {L} (M : lts L) (P : lstate M → Prop) : lts L :=
  Lts (lstate M) (λ s, linit M s ∧ P s) (λ s l s', lstep M s l s' ∧ P s').

#[export] Hint Constructors steps : wtc.

Section lts_theory.
Context {L : Type}.
Implicit Types M N : lts L.

Lemma steps_app M s tr s' tr' s'' : steps M s tr s' → steps M s' tr' s'' → steps M s (tr ++ tr') s''.
Proof. induction 1; simpl; eauto with wtc. Qed.

Lemma steps_one M s l s' : lstep M s l s' → steps M s (option_list l) s'.
Proof. destruct l; simpl; eauto with wtc. Qed.

(** Rule induction: what holds initially and is kept by every step holds
    in every reachable state. *)
Lemma invariant_reachable M (P : lstate M → Prop) :
  (∀ s, linit M s → P s) →
  (∀ s l s', P s → lstep M s l s' → P s') →
  ∀ s, reachable M s → P s.
Proof.
  intros Hi Hs s (s0 & tr & H0 & Hrun). apply Hi in H0. revert H0. induction Hrun; eauto.
Qed.

Lemma reachable_step M s l s' : reachable M s → lstep M s l s' → reachable M s'.
Proof.
  intros (s0 & tr & H0 & Hrun) Hstep. exists s0, (tr ++ option_list l). split; [done|].
  eapply steps_app; [done|]. by apply steps_one.
Qed.

(** Forward simulation: every step of [M] is matched by steps of [N]. *)
Definition forward_sim M N (R : lstate M → lstate N → Prop) : Prop :=
  (∀ s, linit M s → ∃ a, linit N a ∧ R s a) ∧
  (∀ s l s' a, R s a → lstep M s l s' → ∃ a', steps N a (option_list l) a' ∧ R s' a').

Lemma forward_sim_steps M N R : forward_sim M N R →
  ∀ s tr s', steps M s tr s' → ∀ a, R s a → ∃ a', steps N a tr a' ∧ R s' a'.
Proof.
  intros [_ Hs] s tr s' Hrun. induction Hrun as [|??? tr Hst ? IH|? e ?? tr Hst ? IH]; intros a Ha.
  - eauto with wtc.
  - destruct (Hs _ _ _ _ Ha Hst) as (a1 & H1 & HR1). destruct (IH _ HR1) as (a2 & H2 & HR2).
    exists a2. split; [|done]. by apply (steps_app N a [] a1 tr a2).
  - destruct (Hs _ _ _ _ Ha Hst) as (a1 & H1 & HR1). destruct (IH _ HR1) as (a2 & H2 & HR2).
    exists a2. split; [|done]. by apply (steps_app N a [e] a1 tr a2).
Qed.

Lemma forward_sim_history M N R : forward_sim M N R → ∀ tr, history M tr → history N tr.
Proof.
  intros HR tr (s0 & s & H0 & Hrun). destruct (proj1 HR s0 H0) as (a0 & Ha0 & HR0).
  destruct (forward_sim_steps _ _ _ HR _ _ _ Hrun _ HR0) as (a & Ha & _). by exists a0, a.
Qed.

(** Backward simulation: choices of [N] may depend on what [M] does later. *)
Definition backward_sim M N (R : lstate M → lstate N → Prop) : Prop :=
  (∀ s a, linit M s → R s a → linit N a) ∧
  (∀ s, ∃ a, R s a) ∧
  (∀ s l s' a', lstep M s l s' → R s' a' → ∃ a, R s a ∧ steps N a (option_list l) a').

Lemma backward_sim_steps M N R : backward_sim M N R →
  ∀ s0 tr s, steps M s0 tr s → ∀ a, R s a → ∃ a0, R s0 a0 ∧ steps N a0 tr a.
Proof.
  intros (_ & _ & Hs) s0 tr s Hrun. induction Hrun as [|? ? ? tr Hst ? IH|? e ? ? tr Hst ? IH]; intros a Ha; [eauto with wtc| |];
    destruct (IH _ Ha) as (a1 & HR1 & H1); destruct (Hs _ _ _ _ Hst HR1) as (a2 & HR2 & H2); exists a2; split; try done.
  - by apply (steps_app N a2 [] a1 tr a).
  - by apply (steps_app N a2 [e] a1 tr a).
Qed.

(** The restricted system has fewer histories, and its states are in [P]. *)
Lemma restrict_history M P tr : history (restrict M P) tr → history M tr.
Proof.
  intros (s0 & s & [H0 _] & Hrun). exists s0, s. split; [done|]. clear H0.
  induction Hrun as [|? ? ? ? [? _]|? ? ? ? ? [? _]]; eauto with wtc.
Qed.

Lemma steps_restrict M (P : lstate M → Prop) s tr s' :
  (∀ s, P s) → steps M s tr s' → steps (restrict M P) s tr s'.
Proof.
  intros HP. induction 1 as [| | ]; [constructor| |].
  - eapply (steps_tau (restrict M P)); [|done]. split; auto.
  - eapply (steps_event (restrict M P)); [|done]. split; auto.
Qed.

(** A condition that holds before a step whenever it holds after it holds
    all along a run that ends in it: how a choice made from the end of a
    run is carried back to its start. *)
Lemma steps_back M (P : lstate M → Prop) s tr s' :
  (∀ s l s', lstep M s l s' → P s' → P s) → steps M s tr s' → P s' → P s ∧ steps (restrict M P) s tr s'.
Proof.
  intros HP. induction 1 as [|? ? ? tr Hst ? IH|? e ? ? tr Hst ? IH]; intros Hend; [by split; [|constructor]| |];
    destruct (IH Hend) as [H1 H2]; split; eauto.
  - eapply (steps_tau (restrict M P)); [|done]. by split.
  - eapply (steps_event (restrict M P)); [|done]. by split.
Qed.

Lemma restrict_both M (P Q : lstate M → Prop) s tr s' :
  steps (restrict (restrict M P) Q) s tr s' → steps (restrict M (λ s, P s ∧ Q s)) s tr s'.
Proof.
  induction 1 as [|? ? ? ? [[? ?] ?] ? IH|? ? ? ? ? [[? ?] ?] ? IH]; [constructor| |].
  - eapply (steps_tau (restrict M (λ s, P s ∧ Q s))); [|done]. by split.
  - eapply (steps_event (restrict M (λ s, P s ∧ Q s))); [|done]. by split.
Qed.

Lemma restrict_all M (P : lstate M → Prop) tr : (∀ s, P s) → history M tr → history (restrict M P) tr.
Proof. intros HP (s0 & s & H0 & Hrun). exists s0, s. split; [by split|by apply steps_restrict]. Qed.

Lemma reachable_all M (P : lstate M → Prop) s : (∀ s, P s) → reachable M s → reachable (restrict M P) s.
Proof. intros HP (s0 & tr & H0 & Hrun). exists s0, tr. split; [by split|by apply steps_restrict]. Qed.
End lts_theory.
