(* ===== verification/Contract.v ===== *)
(** * The queue contract (decisions/0003, docs/correctness.md section 1)

    What an implementation promises: its operations are linearisable with
    respect to a sequential object.  The sequential object is a [seqspec];
    linearisability is inclusion of histories in those of the [atomic]
    object, in which every call takes effect at one instant between its
    call and its return.  A call that the contract does not ask to be
    atomic (a batch) may take effect in parts ([sp_part]), one instant each,
    in the order the object gives.  [interval] is an equivalent presentation
    for operations that answer without changing the object (a refused push,
    an empty pop): they need only name an instant inside the call at which
    the answer was right. *)

From S2P Require Import Prelude Lts.

Inductive event (Op Res : Type) : Type :=
| Call (t : nat) (o : Op)
| Ret (t : nat) (r : Res).
Arguments Call {Op Res} _ _.
Arguments Ret {Op Res} _ _.

Record seqspec (Op Res : Type) := PartSpec {
  sp_state : Type;
  sp_init : sp_state;
  sp_step : sp_state → Op → Res → sp_state → Prop;
  sp_part : sp_state → Op → Op → sp_state → Prop    (* what is left of the call *)
}.
Arguments PartSpec {Op Res} _ _ _ _.
Arguments sp_state {Op Res} _.
Arguments sp_init {Op Res} _.
Arguments sp_step {Op Res} _ _ _ _ _.
Arguments sp_part {Op Res} _ _ _ _ _.

(** An object whose calls are all atomic. *)
Definition SeqSpec {Op Res} (st : Type) (init : st) (step : st → Op → Res → st → Prop) : seqspec Op Res :=
  PartSpec st init step (λ _ _ _ _, False).

Section objects.
Context {Op Res : Type} (S : seqspec Op Res).

(** ** The atomic object *)

Inductive status : Type := Idle | Called (o : Op) | Done (r : Res).
Record astate := AState { a_abs : sp_state S; a_pend : nat → status }.

Inductive astep : astate → option (event Op Res) → astate → Prop :=
| astep_call s s' t o :
    a_pend s t = Idle → a_abs s' = a_abs s →
    (∀ u, a_pend s' u = <[t:=Called o]> (a_pend s) u) →
    astep s (Some (Call t o)) s'
| astep_lin s s' t o r :
    a_pend s t = Called o → sp_step S (a_abs s) o r (a_abs s') →
    (∀ u, a_pend s' u = <[t:=Done r]> (a_pend s) u) →
    astep s None s'
| astep_part s s' t o o' :
    a_pend s t = Called o → sp_part S (a_abs s) o o' (a_abs s') →
    (∀ u, a_pend s' u = <[t:=Called o']> (a_pend s) u) →
    astep s None s'
| astep_ret s s' t r :
    a_pend s t = Done r → a_abs s' = a_abs s →
    (∀ u, a_pend s' u = <[t:=Idle]> (a_pend s) u) →
    astep s (Some (Ret t r)) s'.

Definition atomic : lts (event Op Res) :=
  Lts astate (λ s, a_abs s = sp_init S ∧ ∀ t, a_pend s t = Idle) astep.

(** ** The interval object

    As the atomic one, but a call also collects ([istep_see]) the answers
    that would have been right, without changing the object, at instants
    since it began, and may return any of them. *)

Inductive istatus : Type := IIdle | ICalled (o : Op) (ws : list Res) | IDone (r : Res).
Record istate := IState { i_abs : sp_state S; i_pend : nat → istatus }.

Inductive istep : istate → option (event Op Res) → istate → Prop :=
| istep_call s s' t o :
    i_pend s t = IIdle → i_abs s' = i_abs s →
    (∀ u, i_pend s' u = <[t:=ICalled o []]> (i_pend s) u) →
    istep s (Some (Call t o)) s'
| istep_see s s' t o ws r :
    i_pend s t = ICalled o ws → i_abs s' = i_abs s → sp_step S (i_abs s) o r (i_abs s) →
    (∀ u, i_pend s' u = <[t:=ICalled o (r :: ws)]> (i_pend s) u) →
    istep s None s'
| istep_commit s s' t o ws r :
    i_pend s t = ICalled o ws → r ∈ ws → i_abs s' = i_abs s →
    (∀ u, i_pend s' u = <[t:=IDone r]> (i_pend s) u) →
    istep s None s'
| istep_lin s s' t o ws r :
    i_pend s t = ICalled o ws → sp_step S (i_abs s) o r (i_abs s') →
    (∀ u, i_pend s' u = <[t:=IDone r]> (i_pend s) u) →
    istep s None s'
| istep_part s s' t o ws o' :
    i_pend s t = ICalled o ws → sp_part S (i_abs s) o o' (i_abs s') →
    (∀ u, i_pend s' u = <[t:=ICalled o' []]> (i_pend s) u) →
    istep s None s'
| istep_ret s s' t r :
    i_pend s t = IDone r → i_abs s' = i_abs s →
    (∀ u, i_pend s' u = <[t:=IIdle]> (i_pend s) u) →
    istep s (Some (Ret t r)) s'.

Definition interval : lts (event Op Res) :=
  Lts istate (λ s, i_abs s = sp_init S ∧ ∀ t, i_pend s t = IIdle) istep.

(** A status of the interval object and what the atomic object may be doing. *)
Definition status_rel (i : istatus) (a : status) : Prop :=
  match i with
  | IIdle => a = Idle
  | ICalled o ws => a = Called o ∨ ∃ r, r ∈ ws ∧ a = Done r
  | IDone r => a = Done r
  end.

Definition interval_rel (i : istate) (a : astate) : Prop :=
  i_abs i = a_abs a ∧ ∀ t, status_rel (i_pend i t) (a_pend a t).

Definition some_status (i : istatus) : status :=
  match i with IIdle => Idle | ICalled o _ => Called o | IDone r => Done r end.

(** Rebuilds the atomic state before a step of thread [t], which left it in
    the state [a'], from the status [x] thread [t] had. *)
Definition before (a' : astate) (abs : sp_state S) (t : nat) (x : status) : astate :=
  AState abs (<[t:=x]> (a_pend a')).

Lemma before_rel i i' a' t x y :
  interval_rel i' a' → (∀ u, i_pend i' u = <[t:=y]> (i_pend i) u) → status_rel (i_pend i t) x →
  interval_rel i (before a' (i_abs i) t x).
Proof.
  intros [_ Hp] Hi Hx. split; [done|]. intros u. specialize (Hp u). rewrite Hi in Hp. simpl. by_thread t u; done.
Qed.

Lemma before_back a' t x y u : a_pend a' t = y → a_pend a' u = <[t:=y]> (<[t:=x]> (a_pend a')) u.
Proof. intros Hy. by_thread t u; done. Qed.

Lemma interval_backward : backward_sim interval atomic interval_rel.
Proof.
  split_and!.
  - intros s a [Hs Hp] [Ha Hr]. split; [by rewrite <-Ha|]. intros t. specialize (Hr t). by rewrite Hp in Hr.
  - intros s. exists (AState (i_abs s) (λ t, some_status (i_pend s t))). split; [done|].
    intros t. simpl. destruct (i_pend s t); simpl; eauto.
  - intros s l s' a' Hst HR. pose proof HR as [Habs Hp].
    destruct Hst as [s s' t o H1 H2 H3|s s' t o ws r H1 H2 H3 H4|s s' t o ws r H1 H2 H3 H4|s s' t o ws r H1 H2 H3|s s' t o ws o' H1 H2 H3|s s' t r H1 H2 H3];
      pose proof (Hp t) as Hpt; rewrite ?H3, ?H4, fn_insert_eq in Hpt; simpl in Hpt.
    + exists (before a' (i_abs s) t Idle). split; [eapply before_rel; eauto; by rewrite H1|].
      destruct Hpt as [Hpt|(? & []%not_elem_of_nil & _)].
      eapply (steps_one atomic _ (Some _)), astep_call; simpl; [by rewrite fn_insert_eq|congruence|].
      intros u. by apply before_back.
    + destruct Hpt as [Hpt|(r' & Hin & Hpt)]; [|apply elem_of_cons in Hin as [->|Hin]].
      * exists a'. split; [|constructor]. split; [congruence|]. intros u. specialize (Hp u). rewrite H4 in Hp.
        by_thread t u; [rewrite H1; simpl; auto|done].
      * exists (before a' (i_abs s) t (Called o)). split; [eapply before_rel; eauto; rewrite H1; simpl; auto|].
        eapply (steps_one atomic _ None), astep_lin with (t := t); simpl; [by rewrite fn_insert_eq| |].
        -- rewrite <-Habs, H2. done.
        -- intros u. by apply before_back.
      * exists a'. split; [|constructor]. split; [congruence|]. intros u. specialize (Hp u). rewrite H4 in Hp.
        by_thread t u; [rewrite H1; simpl; eauto|done].
    + exists a'. split; [|constructor]. split; [congruence|]. intros u. specialize (Hp u). rewrite H4 in Hp.
      by_thread t u; [rewrite H1; simpl in *; eauto|done].
    + exists (before a' (i_abs s) t (Called o)). split; [eapply before_rel; eauto; rewrite H1; simpl; auto|].
      eapply (steps_one atomic _ None), astep_lin with (t := t); simpl; [by rewrite fn_insert_eq| |].
      * rewrite <-Habs. done.
      * intros u. by apply before_back.
    + destruct Hpt as [Hpt|(? & []%not_elem_of_nil & _)].
      exists (before a' (i_abs s) t (Called o)). split; [eapply before_rel; eauto; rewrite H1; simpl; auto|].
      eapply (steps_one atomic _ None), astep_part with (t := t); simpl; [by rewrite fn_insert_eq| |].
      * rewrite <-Habs. done.
      * intros u. by apply before_back.
    + exists (before a' (i_abs s) t (Done r)). split; [eapply before_rel; eauto; by rewrite H1|].
      eapply (steps_one atomic _ (Some _)), astep_ret; simpl; [by rewrite fn_insert_eq|congruence|].
      intros u. by apply before_back.
Qed.

(** An answer that was right at some instant inside the call may be given
    that instant as its linearisation point. *)
Lemma interval_atomic tr i0 i : linit interval i0 → steps interval i0 tr i →
  ∃ a0 a, linit atomic a0 ∧ steps atomic a0 tr a ∧ a_abs a = i_abs i.
Proof.
  intros H0 Hrun. destruct interval_backward as (Hi & Ht & _). destruct (Ht i) as [a Ha].
  destruct (backward_sim_steps _ _ _ interval_backward _ _ _ Hrun a Ha) as (a0 & HR0 & Hrun').
  exists a0, a. split; [by eapply Hi|]. split; [done|]. by destruct Ha.
Qed.
End objects.
Arguments Idle {Op Res}.
Arguments Called {Op Res} _.
Arguments Done {Op Res} _.
Arguments IIdle {Op Res}.
Arguments ICalled {Op Res} _ _.
Arguments IDone {Op Res} _.
Arguments IState {Op Res S} _ _.
Arguments i_abs {Op Res S} _.
Arguments i_pend {Op Res S} _ _.
Arguments AState {Op Res S} _ _.
Arguments a_abs {Op Res S} _.
Arguments a_pend {Op Res S} _ _.
