(* ===== verification/Machine.v ===== *)
(** * Concurrent objects as interleaved step machines

    A component with atomic shared state is a [machine]: one program
    counter type whose constructors are the points between two accesses to
    shared memory, and one executable step function that makes the access
    at a program counter.  [mlts] interleaves any number of threads, each
    step one access, in any order (sequential consistency of the atomics;
    a weak compare-and-swap may fail for no reason: that, and what a clock
    reads, is the step's [choice]).

    [linearisable] is the proof rule the queues use: a relation with
    ghost state between the machine and the interval object of [Contract],
    checked one step of one thread at a time. *)

From S2P Require Import Prelude Lts Contract.

Record machine (Op Res : Type) := Machine {
  m_shared : Type;
  m_pc : Type;
  m_choice : Type;
  m_init : m_shared;
  m_idle : m_pc;
  m_is_idle : m_pc → bool;
  m_may : nat → Op → bool;
  m_enter : Op → m_pc;
  m_step : m_choice → m_shared → m_pc → option (m_shared * m_pc);
  m_result : m_pc → option Res
}.
Arguments m_shared {Op Res} _.
Arguments m_pc {Op Res} _.
Arguments m_choice {Op Res} _.
Arguments m_init {Op Res} _.
Arguments m_idle {Op Res} _.
Arguments m_is_idle {Op Res} _ _.
Arguments m_may {Op Res} _ _ _.
Arguments m_enter {Op Res} _ _.
Arguments m_step {Op Res} _ _ _ _.
Arguments m_result {Op Res} _ _.

(** A schedule: which thread calls, steps (with which choice) or returns next. *)
Inductive action (Op Choice : Type) : Type :=
| ACall (t : nat) (o : Op)
| AStep (t : nat) (c : Choice)
| ARet (t : nat).
Arguments ACall {Op Choice} _ _.
Arguments AStep {Op Choice} _ _.
Arguments ARet {Op Choice} _.

Section machines.
Context {Op Res : Type} (M : machine Op Res).

Record mstate := MState { ms_shared : m_shared M; ms_pcs : nat → m_pc M }.

Definition m_start : mstate := MState (m_init M) (λ _, m_idle M).

Inductive mlstep : mstate → option (event Op Res) → mstate → Prop :=
| mlstep_call sh pcs t o :
    m_is_idle M (pcs t) = true → m_may M t o = true →
    mlstep (MState sh pcs) (Some (Call t o)) (MState sh (<[t:=m_enter M o]> pcs))
| mlstep_step sh pcs t c sh' pc' :
    m_step M c sh (pcs t) = Some (sh', pc') →
    mlstep (MState sh pcs) None (MState sh' (<[t:=pc']> pcs))
| mlstep_ret sh pcs t r :
    m_result M (pcs t) = Some r →
    mlstep (MState sh pcs) (Some (Ret t r)) (MState sh (<[t:=m_idle M]> pcs)).

Definition mlts : lts (event Op Res) := Lts mstate (λ s, s = m_start) mlstep.

(** A schedule, executed. *)
Definition exec1 (a : action Op (m_choice M)) (s : mstate) : option (mstate * list (event Op Res)) :=
  match a with
  | ACall t o =>
      if m_is_idle M (ms_pcs s t) && m_may M t o
      then Some (MState (ms_shared s) (<[t:=m_enter M o]> (ms_pcs s)), [Call t o]) else None
  | AStep t c =>
      match m_step M c (ms_shared s) (ms_pcs s t) with
      | Some (sh', pc') => Some (MState sh' (<[t:=pc']> (ms_pcs s)), [])
      | None => None
      end
  | ARet t =>
      match m_result M (ms_pcs s t) with
      | Some r => Some (MState (ms_shared s) (<[t:=m_idle M]> (ms_pcs s)), [Ret t r])
      | None => None
      end
  end.

Fixpoint exec (l : list (action Op (m_choice M))) (s : mstate) : option (mstate * list (event Op Res)) :=
  match l with
  | [] => Some (s, [])
  | a :: l =>
      match exec1 a s with
      | Some (s', e) => match exec l s' with Some (s'', e') => Some (s'', e ++ e') | None => None end
      | None => None
      end
  end.

Lemma exec1_lstep a s s' e : exec1 a s = Some (s', e) → ∃ l, e = option_list l ∧ mlstep s l s'.
Proof.
  destruct s as [sh pcs], a as [t o|t c|t]; simpl; intros H.
  - destruct (m_is_idle M (pcs t)) eqn:E1, (m_may M t o) eqn:E2; crush. exists (Some (Call t o)). split; [done|by constructor].
  - destruct (m_step M c sh (pcs t)) as [[sh' pc']|] eqn:E; crush. exists None. split; [done|by econstructor].
  - destruct (m_result M (pcs t)) eqn:E; crush. eexists (Some (Ret t _)). split; [done|by constructor].
Qed.

(** An executed schedule is a run. *)
Lemma exec_steps l : ∀ s s' e, exec l s = Some (s', e) → steps mlts s e s'.
Proof.
  induction l as [|a l IH]; simpl; intros s s' e H; crush; [constructor|].
  destruct (exec1 a s) as [[s1 e1]|] eqn:E1; crush.
  destruct (exec l s1) as [[s2 e2]|] eqn:E2; crush.
  eapply steps_app; [|eauto]. destruct (exec1_lstep _ _ _ _ E1) as (x & -> & Hx). by apply (steps_one mlts).
Qed.

(** The events of a schedule, and the state it ends in. *)
Definition exec_events (l : list (action Op (m_choice M))) : option (list (event Op Res)) := snd <$> exec l m_start.
Definition exec_final (l : list (action Op (m_choice M))) : mstate := default m_start (fst <$> exec l m_start).

Lemma exec_history l e : exec_events l = Some e → history mlts e.
Proof.
  unfold exec_events. destruct (exec l m_start) as [[s e']|] eqn:E; simpl; intros H; simplify_eq.
  exists m_start, s. split; [done|]. by apply (exec_steps l).
Qed.

Lemma exec_steps_final l e : exec_events l = Some e → steps mlts m_start e (exec_final l).
Proof.
  unfold exec_events, exec_final. destruct (exec l m_start) as [[s e']|] eqn:E; simpl; intros H; simplify_eq.
  by apply (exec_steps l).
Qed.

Lemma exec_reachable l : reachable mlts (exec_final l).
Proof.
  unfold exec_final. destruct (exec l m_start) as [[s e]|] eqn:E; simpl.
  - exists m_start, e. split; [done|]. by apply (exec_steps l).
  - exists m_start, []. split; [done|constructor].
Qed.

(** [P] holds in every state a schedule goes through. *)
Fixpoint along (P : mstate → Prop) (l : list (action Op (m_choice M))) (s : mstate) : Prop :=
  P s ∧ match l with
        | [] => True
        | a :: l => match exec1 a s with Some (s', _) => along P l s' | None => False end
        end.

Lemma along_start P l s : along P l s → P s.
Proof. destruct l; by intros []. Qed.

Lemma exec_along P l : ∀ s s' e, exec l s = Some (s', e) → along P l s → steps (restrict mlts P) s e s'.
Proof.
  induction l as [|a l IH]; simpl; intros s s' e H Hal; crush; [constructor|].
  destruct (exec1 a s) as [[s1 e1]|] eqn:E1; crush.
  destruct (exec l s1) as [[s2 e2]|] eqn:E2; crush.
  eapply steps_app; [|eauto]. destruct (exec1_lstep _ _ _ _ E1) as (x & -> & Hx).
  apply (steps_one (restrict mlts P)). split; [done|by eapply along_start].
Qed.

Lemma exec_final_along P l e : exec_events l = Some e → along P l m_start → steps (restrict mlts P) m_start e (exec_final l).
Proof.
  unfold exec_events, exec_final. destruct (exec l m_start) as [[s e']|] eqn:E; simpl; intros H Hal; simplify_eq.
  by apply (exec_along P l).
Qed.

Lemma exec_history_along P l e : exec_events l = Some e → along P l m_start → history (restrict mlts P) e.
Proof.
  unfold exec_events. destruct (exec l m_start) as [[s e']|] eqn:E; simpl; intros H Hal; simplify_eq.
  exists m_start, s. split; [split; [done|by eapply along_start]|]. by apply (exec_along P l).
Qed.

(** A condition on the state, checked along a schedule. *)
Fixpoint along_check (q : mstate → bool) (l : list (action Op (m_choice M))) (s : mstate) : bool :=
  q s && match l with
         | [] => true
         | a :: l => match exec1 a s with Some (s', _) => along_check q l s' | None => false end
         end.

Lemma along_check_along q (P : mstate → Prop) l : (∀ s, q s = true → P s) → ∀ s, along_check q l s = true → along P l s.
Proof.
  intros HP. induction l as [|a l IH]; simpl; intros s H; apply andb_prop in H as [Hq H]; (split; [auto|]); [done|].
  destruct (exec1 a s) as [[s1 e1]|]; [auto|done].
Qed.

(** A condition on each thread's program counter, checked along a schedule
    of the threads below [n]: the others stay idle. *)
Fixpoint alongb (n : nat) (q : m_shared M → m_pc M → bool) (l : list (action Op (m_choice M))) (s : mstate) : bool :=
  forallb (λ t, q (ms_shared s) (ms_pcs s t)) (seq 0 n) &&
  match l with
  | [] => true
  | a :: l =>
      match a with ACall t _ | AStep t _ | ARet t => (t <? n)%nat end &&
      match exec1 a s with Some (s', _) => alongb n q l s' | None => false end
  end.

Lemma exec1_other a s s' e n u : exec1 a s = Some (s', e) →
  match a with ACall t _ | AStep t _ | ARet t => (t <? n)%nat end = true → (n ≤ u)%nat → ms_pcs s' u = ms_pcs s u.
Proof.
  destruct a as [t o|t c|t]; simpl; intros H Ht%Nat.ltb_lt Hu.
  - destruct (_ && _); simplify_eq/=. apply fn_insert_ne. lia.
  - destruct (m_step _ _ _ _) as [[]|]; simplify_eq/=. apply fn_insert_ne. lia.
  - destruct (m_result _ _); simplify_eq/=. apply fn_insert_ne. lia.
Qed.

Lemma alongb_along n q (P : mstate → Prop) l :
  (∀ s, (∀ t, q (ms_shared s) (ms_pcs s t) = true) → P s) → (∀ sh, q sh (m_idle M) = true) →
  ∀ s, (∀ u, (n ≤ u)%nat → ms_pcs s u = m_idle M) → alongb n q l s = true → along P l s.
Proof.
  intros HP Hid. induction l as [|a l IH]; simpl; intros s Hs H; apply andb_prop in H as [Hall H];
    (split; [|try done]).
  1,2: apply HP; intros t; destruct (decide (n ≤ t)%nat); [rewrite Hs by done; auto|];
    rewrite forallb_forall in Hall; apply Hall, in_seq; lia.
  apply andb_prop in H as [Ha H]. destruct (exec1 a s) as [[s1 e1]|] eqn:E1; [|done].
  apply IH; [|done]. intros u Hu. rewrite (exec1_other _ _ _ _ _ _ E1 Ha Hu). auto.
Qed.

(** All threads are idle at the end of a schedule of the threads below [n]
    that leaves those idle. *)
Lemma exec_quiescent n l : alongb n (λ _ _, true) l m_start = true →
  (∀ t, (t < n)%nat → ms_pcs (exec_final l) t = m_idle M) → ∀ t, ms_pcs (exec_final l) t = m_idle M.
Proof.
  intros Hal Hn t. destruct (decide (t < n)%nat) as [|Ht]; [auto|]. clear Hn. unfold exec_final.
  assert (ms_pcs m_start t = m_idle M) as Ht0 by done. revert Hal Ht0. generalize m_start at 1 2 4 as s.
  induction l as [|a l IH]; simpl; intros s Hal Ht0; [done|]. apply andb_prop in Hal as [_ Hal].
  apply andb_prop in Hal as [Ha Hal]. destruct (exec1 a s) as [[s1 e1]|] eqn:E1; [|done].
  rewrite <-(exec1_other _ _ _ _ _ t E1 Ha) in Ht0 by lia. specialize (IH s1 Hal Ht0).
  by destruct (exec l s1) as [[s2 e2]|].
Qed.

(** ** The linearisability rule *)

Context (S : seqspec Op Res).

(** What one step of a thread may do to the object and to its own status. *)
Inductive lmove : sp_state S → istatus → sp_state S → istatus → Prop :=
| lmove_stay a st : lmove a st a st
| lmove_see a o ws r a' st' :
    sp_step S a o r a → lmove a (ICalled o (r :: ws)) a' st' → lmove a (ICalled o ws) a' st'
| lmove_part a o ws o' a1 a' st' :
    sp_part S a o o' a1 → lmove a1 (ICalled o' []) a' st' → lmove a (ICalled o ws) a' st'
| lmove_commit a o ws r : r ∈ ws → lmove a (ICalled o ws) a (IDone r)
| lmove_lin a o ws r a' : sp_step S a o r a' → lmove a (ICalled o ws) a' (IDone r).

Lemma lmove_steps a st a' st' : lmove a st a' st' →
  ∀ pend t, pend t = st →
  ∃ pend', steps (interval S) (IState a pend) [] (IState a' pend') ∧ (∀ u, pend' u = <[t:=st']> pend u).
Proof.
  induction 1 as [a st|a o ws r a' st' Hs _ IH|a o ws o' a1 a' st' Hs _ IH|a o ws r Hin|a o ws r a' Hs]; intros pend t Ht.
  - exists pend. split; [constructor|]. intros u. by_thread t u; done.
  - destruct (IH (<[t:=ICalled o (r :: ws)]> pend) t) as (pend' & Hst & Hp); [apply fn_insert_eq|].
    exists pend'. split.
    + eapply (steps_tau (interval S)); [|exact Hst]. by eapply istep_see with (t := t).
    + intros u. rewrite Hp. by_thread t u; done.
  - destruct (IH (<[t:=ICalled o' []]> pend) t) as (pend' & Hst & Hp); [apply fn_insert_eq|].
    exists pend'. split.
    + eapply (steps_tau (interval S)); [|exact Hst]. by eapply istep_part with (t := t).
    + intros u. rewrite Hp. by_thread t u; done.
  - exists (<[t:=IDone r]> pend). split; [|done].
    eapply (steps_one (interval S) _ None). by eapply istep_commit with (t := t).
  - exists (<[t:=IDone r]> pend). split; [|done].
    eapply (steps_one (interval S) _ None). by eapply istep_lin with (t := t).
Qed.

(** The runs the proof is about: those that stay in [P].  [P] is where an
    assumption on the execution goes (the queue's precondition on
    the program); for most objects it is [True]. *)
Context (P : mstate → Prop).
Context {G : Type}.
Context (Inv : G → m_shared M → (nat → m_pc M) → sp_state S → Prop).
Context (stat : G → m_pc M → @istatus Op Res → Prop).

(** The proof rule.  A step of one thread may move others too (a push that
    completes a pop which waits for it): [pend] is the status of every
    thread, before and after. *)
Record help_proof : Prop := HelpProof {
  help_init : ∃ g, Inv g (m_init M) (λ _, m_idle M) (sp_init S) ∧ stat g (m_idle M) IIdle;
  help_call g sh pcs a t o :
    Inv g sh pcs a → m_is_idle M (pcs t) = true → m_may M t o = true →
    (∀ st, stat g (pcs t) st → st = IIdle) ∧
    Inv g sh (<[t:=m_enter M o]> pcs) a ∧ stat g (m_enter M o) (ICalled o []);
  help_ret g sh pcs a t r :
    Inv g sh pcs a → m_result M (pcs t) = Some r →
    (∀ st, stat g (pcs t) st → st = IDone r) ∧
    Inv g sh (<[t:=m_idle M]> pcs) a ∧ stat g (m_idle M) IIdle;
  help_step g sh pcs a pend t c sh' pc' :
    P (MState sh pcs) → P (MState sh' (<[t:=pc']> pcs)) →
    Inv g sh pcs a → (∀ u, stat g (pcs u) (pend u)) → m_step M c sh (pcs t) = Some (sh', pc') →
    ∃ g' a' pend', steps (interval S) (IState a pend) [] (IState a' pend') ∧ Inv g' sh' (<[t:=pc']> pcs) a' ∧
      ∀ u, stat g' (<[t:=pc']> pcs u) (pend' u)
}.

(** The rule for objects whose threads move only themselves. *)
Record lin_proof : Prop := LinProof {
  lin_init : ∃ g, Inv g (m_init M) (λ _, m_idle M) (sp_init S) ∧ stat g (m_idle M) IIdle;
  lin_call g sh pcs a t o :
    Inv g sh pcs a → m_is_idle M (pcs t) = true → m_may M t o = true →
    (∀ st, stat g (pcs t) st → st = IIdle) ∧
    Inv g sh (<[t:=m_enter M o]> pcs) a ∧ stat g (m_enter M o) (ICalled o []);
  lin_ret g sh pcs a t r :
    Inv g sh pcs a → m_result M (pcs t) = Some r →
    (∀ st, stat g (pcs t) st → st = IDone r) ∧
    Inv g sh (<[t:=m_idle M]> pcs) a ∧ stat g (m_idle M) IIdle;
  lin_step g sh pcs a t c sh' pc' st :
    P (MState sh pcs) → Inv g sh pcs a → stat g (pcs t) st → m_step M c sh (pcs t) = Some (sh', pc') →
    ∃ g' a' st', lmove a st a' st' ∧ Inv g' sh' (<[t:=pc']> pcs) a' ∧ stat g' pc' st' ∧
      (∀ u st, u ≠ t → stat g (pcs u) st → stat g' (pcs u) st)
}.

Lemma lin_help : lin_proof → help_proof.
Proof.
  intros [Hi Hc Hr Hs]. split; [done|done|done|].
  intros g sh pcs a pend t c sh' pc' HP _ HI Hst H.
  destruct (Hs _ _ _ _ _ _ _ _ _ HP HI (Hst t) H) as (g' & a' & st' & Hm & HI' & Hst' & Hoth).
  destruct (lmove_steps _ _ _ _ Hm pend t eq_refl) as (pend' & Hrun & Hp).
  exists g', a', pend'. split; [done|]. split; [done|]. intros u. rewrite Hp. by_thread t u; auto.
Qed.

Definition lin_rel (s : mstate) (i : @istate Op Res S) : Prop :=
  P s ∧ ∃ g, Inv g (ms_shared s) (ms_pcs s) (i_abs i) ∧ ∀ t, stat g (ms_pcs s t) (i_pend i t).

Lemma help_forward : help_proof → forward_sim (restrict mlts P) (interval S) lin_rel.
Proof.
  intros [Hi Hc Hr Hs]. split.
  - intros s [Hs0 HP]. simpl in Hs0, HP. subst s. destruct Hi as (g & H1 & H2). exists (IState (sp_init S) (λ _, IIdle)).
    split; [done|]. split; [exact HP|]. by exists g.
  - intros s l s' [a pend] (HP & g & HI & Hst) [Hstep HP']. simpl in *.
    destruct Hstep as [sh pcs t o H1 H2|sh pcs t c sh' pc' H|sh pcs t r H]; simpl in *.
    + destruct (Hc _ _ _ _ _ _ HI H1 H2) as (Hidle & HI' & Hst').
      exists (IState a (<[t:=ICalled o []]> pend)). split.
      * apply (steps_one (interval S) _ (Some _)). econstructor; simpl; eauto.
      * split; [exact HP'|]. exists g. split; [done|]. intros u. simpl. by_thread t u; eauto.
    + destruct (Hs _ _ _ _ pend _ _ _ _ HP HP' HI Hst H) as (g' & a' & pend' & Hrun & HI' & Hst').
      exists (IState a' pend'). split; [done|]. split; [exact HP'|]. by exists g'.
    + destruct (Hr _ _ _ _ _ _ HI H) as (Hdone & HI' & Hst').
      exists (IState a (<[t:=IIdle]> pend)). split.
      * apply (steps_one (interval S) _ (Some _)). econstructor; simpl; eauto.
      * split; [exact HP'|]. exists g. split; [done|]. intros u. simpl. by_thread t u; eauto.
Qed.

(** Every run of the machine is one of the atomic object, which ends in a
    state the invariant relates to the machine's. *)
Lemma help_run : help_proof → ∀ s0 tr s, linit (restrict mlts P) s0 → steps (restrict mlts P) s0 tr s →
  ∃ a0 a, linit (atomic S) a0 ∧ steps (atomic S) a0 tr a ∧ ∃ g, Inv g (ms_shared s) (ms_pcs s) (a_abs a).
Proof.
  intros H s0 tr s H0 Hrun. destruct (proj1 (help_forward H) s0 H0) as (i0 & Hi0 & HR0).
  destruct (forward_sim_steps _ _ _ (help_forward H) _ _ _ Hrun _ HR0) as (i & Hi & _ & g & HI & _).
  destruct (interval_atomic S tr i0 i Hi0 Hi) as (a0 & a & Ha0 & Ha & Habs).
  exists a0, a. split_and!; try done. exists g. by rewrite Habs.
Qed.

Lemma lin_run : lin_proof → ∀ s0 tr s, linit (restrict mlts P) s0 → steps (restrict mlts P) s0 tr s →
  ∃ a0 a, linit (atomic S) a0 ∧ steps (atomic S) a0 tr a ∧ ∃ g, Inv g (ms_shared s) (ms_pcs s) (a_abs a).
Proof. intros H. by apply help_run, lin_help. Qed.

(** Every history of the machine is one of the atomic object. *)
Lemma linearisable : lin_proof → ∀ tr, history (restrict mlts P) tr → history (atomic S) tr.
Proof.
  intros H tr (s0 & s & H0 & Hrun). destruct (lin_run H _ _ _ H0 Hrun) as (a0 & a & ? & ? & _). by exists a0, a.
Qed.

(** The relation's invariant holds in every reachable state. *)
Lemma lin_reachable : lin_proof → ∀ s, reachable (restrict mlts P) s → ∃ g a, Inv g (ms_shared s) (ms_pcs s) a.
Proof.
  intros H s (s0 & tr & H0 & Hrun). destruct (lin_run H _ _ _ H0 Hrun) as (a0 & a & _ & _ & g & HI). eauto.
Qed.
End machines.
Arguments MState {Op Res M} _ _.
Arguments ms_shared {Op Res M} _.
Arguments ms_pcs {Op Res M} _ _.
