(* ===== verification/BoundedRing.v ===== *)
(** * The bounded ring (src/runtime/bounded_ring.hpp)

    A step machine for [wtc::rt::bounded_ring]: both layouts of the
    counters (split, packed), the per-cell sequence numbers, the pushes
    (try, overrun, batch), the pops (one, batch) and [size], at the
    granularity of one access to an atomic per step.  Tickets and sequence
    numbers are 32-bit words that wrap; the state also carries, as history,
    the number of pushes and pops that have taken a ticket, and a program
    counter the number behind a ticket word it holds.  No test of a step
    reads history.

    Shown: the machine is linearisable to a sequential bounded queue of
    exactly [cap] elements, and no step constructs over a live element or
    moves out of a dead cell. *)

From S2P Require Import Prelude Lts Contract Machine.

Module BoundedRing.
Local Open Scope Z_scope.
Local Open Scope wtc_scope.

Definition kMaxCapacity : Z := 2 ^ 30.

(** [ringSize]: the least power of two at or above the capacity, at least two.
    The loop doubles a word that stays at or below [2^30], so 32 rounds are
    more than it can take. *)
Fixpoint ringSize_loop (fuel : nat) (capacity r : Z) : Z :=
  match fuel with
  | O => r
  | S fuel =>
      if (r <? capacity) && (r <? kMaxCapacity)
      then ringSize_loop fuel capacity (u32 (Z.shiftl r 1)) else r
  end.
Definition ringSize (capacity : Z) : Z := ringSize_loop 32 capacity 2.

Definition headOf (s : Z) : Z := u32 (Z.shiftr s 32).
Definition tailOf (s : Z) : Z := u32 s.
Definition pack (h t : Z) : Z := Z.lor (u64 (Z.shiftl h 32)) t.

(** The members that are read-only after construction. *)
Record config := Config { cap : Z; mask : Z; packed : bool; overrun : bool; mp : bool; mc : bool }.

Definition config_of (capacity : Z) (manyProducers manyConsumers overrun batches : bool) : config :=
  Config (u32 capacity) (ringSize capacity - 1) (overrun || batches) overrun
    (manyProducers || overrun) (manyConsumers || overrun).

Section ring.
Context {T : Type}.

Record cell := Cell { seq : Z; raw : option T }.

Record ring := Ring {
  cells : list cell;
  head_ : Z; tail_seen_ : Z; tail_ : Z;   (* the split layout's words *)
  state_ : Z;                             (* the packed layout's word *)
  overruns_ : Z;
  pops : Z; pushes : Z; seen : Z;         (* history: tickets taken, and the tail [tail_seen_] was read from *)
  bad : bool                              (* an access the language leaves undefined was made *)
}.

(** The constructor: [None] when it ends the program. *)
Definition bounded_ring (capacity : Z) (manyProducers manyConsumers overrun batches : bool) : option (config * ring) :=
  if kMaxCapacity <? capacity then None
  else
    let cf := config_of capacity manyProducers manyConsumers overrun batches in
    Some (cf, Ring ((λ i, Cell (Z.of_nat i) None) <$> List.seq 0 (Z.to_nat (mask cf + 1))) 0 0 0 0 0 0 0 0 false).

(** Field updates. *)
Definition set_cell (s : ring) (i : nat) (c : cell) : ring :=
  Ring (<[i:=c]> (cells s)) (head_ s) (tail_seen_ s) (tail_ s) (state_ s) (overruns_ s) (pops s) (pushes s) (seen s) (bad s).
Definition set_bad (s : ring) : ring :=
  Ring (cells s) (head_ s) (tail_seen_ s) (tail_ s) (state_ s) (overruns_ s) (pops s) (pushes s) (seen s) true.
Definition set_overruns (s : ring) (n : Z) : ring :=
  Ring (cells s) (head_ s) (tail_seen_ s) (tail_ s) (state_ s) n (pops s) (pushes s) (seen s) (bad s).
Definition set_tail (s : ring) (w : Z) : ring :=
  Ring (cells s) (head_ s) (tail_seen_ s) w (state_ s) (overruns_ s) (pops s) (pushes s + 1) (seen s) (bad s).
Definition set_head (s : ring) (w : Z) : ring :=
  Ring (cells s) w (tail_seen_ s) (tail_ s) (state_ s) (overruns_ s) (pops s + 1) (pushes s) (seen s) (bad s).
Definition set_tail_seen (s : ring) (w i : Z) : ring :=
  Ring (cells s) (head_ s) w (tail_ s) (state_ s) (overruns_ s) (pops s) (pushes s) i (bad s).
(** The packed word, written by a claim of [dh] pops and [dt] pushes. *)
Definition set_state (s : ring) (w dh dt : Z) : ring :=
  Ring (cells s) (head_ s) (tail_seen_ s) (tail_ s) w (overruns_ s) (pops s + dh) (pushes s + dt) (seen s) (bad s).

Inductive op : Type :=
| TryPush (v : T)
| PushOverrun (v : T)
| Consume
| TryPushN (vs : list T)      (* the [n] elements [src(0)], [src(1)], ... *)
| ConsumeN (n : nat)
| Size
| OverrunCounter
| ResetOverrunCounter.

Inductive res : Type :=
| RBool (b : bool)            (* try_push, push_overrun *)
| RPop (o : option T)         (* consume: the element handed to the taker *)
| RNum (n : Z)                (* try_push_n, size, overrun_counter *)
| RPops (l : list T)          (* consume_n: the elements handed to the taker *)
| RUnit.

(** What follows the last [take] of an operation. *)
Inductive after_take : Type := ThenPop | ThenPops | ThenFill (v : T) (t i : Z).

(** Program counters.  A ticket word is followed by the history number behind it. *)
Inductive pc : Type :=
| PcIdle
| PcAbort
| PcNow (r : res)                            (* returns without touching shared memory *)
| PcDone (r : res)
(* try_push, packed *)
| PushLoad (v : T)
| PushCas (v : T) (s : Z)
(* try_push, split *)
| SplitTail (v : T)
| SplitHead (v : T) (t i : Z)
| SplitFull (v : T) (t i : Z)
| SplitTake (v : T) (t i : Z)
(* push_overrun *)
| OverZero
| OverLoad (v : T)
| OverCas (v : T) (s : Z)
| OverCount (v : T) (t i : Z)
(* try_push_n *)
| BatchLoad (vs : list T)
| BatchCas (vs : list T) (s k : Z)
(* fill: wait for the cell, construct, publish; then the next of the run *)
| Fill (t i : Z) (v : T) (vs : list T) (r : res)
| FillWrite (t i : Z) (v : T) (vs : list T) (r : res)
| FillStore (t i : Z) (v : T) (vs : list T) (r : res)
(* consume, packed *)
| PopLoad
| PopCas (s : Z)
(* consume, split *)
| PopHead
| PopSeen (h i : Z)
| PopTail (h i : Z)
| PopTailStore (h i t j : Z)
| PopTake (h i : Z)
(* consume_n *)
| BatchPopLoad (n : nat)
| BatchPopCas (n : nat) (s k : Z)
(* take: wait for the cell, hand the element out, free the cell; [k] more after it *)
| Take (h i : Z) (k : nat) (acc : list T) (a : after_take)
| TakeMove (h i : Z) (k : nat) (acc : list T) (a : after_take)
| TakeStore (h i : Z) (k : nat) (acc : list T) (a : after_take)
(* size *)
| SizeLoad
| SizeHead
| SizeTail (h i : Z)
| SizeHead2 (h i t j : Z)
(* the count of overruns *)
| CounterLoad
| CounterReset.

Section steps.
Context (cf : config).

(** The entry of each operation, up to its first access to shared memory. *)
Definition enter (o : op) : pc :=
  match o with
  | TryPush v => if packed cf then PushLoad v else SplitTail v
  | PushOverrun v => if negb (overrun cf) then PcAbort else if cap cf =? 0 then OverZero else OverLoad v
  | Consume => if packed cf then PopLoad else PopHead
  | TryPushN vs => if negb (packed cf) then PcAbort else if decide (vs = []) then PcNow (RNum 0) else BatchLoad vs
  | ConsumeN n => if negb (packed cf) then PcAbort else if decide (n = 0%nat) then PcNow (RPops []) else BatchPopLoad n
  | Size => if packed cf then SizeLoad else SizeHead
  | OverrunCounter => CounterLoad
  | ResetOverrunCounter => CounterReset
  end.

(** What a push decides from the packed word it has loaded. *)
Definition push_decide (v : T) (s : Z) : pc :=
  if cap cf <=? (tailOf s ⊖₃₂ headOf s) then PcDone (RBool false) else PushCas v s.
Definition pop_decide (s : Z) : pc :=
  if headOf s =? tailOf s then PcDone (RPop None) else PopCas s.
Definition batch_decide (vs : list T) (s : Z) : pc :=
  let used := tailOf s ⊖₃₂ headOf s in
  if cap cf <=? used then PcDone (RNum 0)
  else BatchCas vs s (u32 (if Z.of_nat (length vs) <? (cap cf ⊖₃₂ used) then Z.of_nat (length vs) else (cap cf ⊖₃₂ used))).
Definition batch_pop_decide (n : nat) (s : Z) : pc :=
  let held := tailOf s ⊖₃₂ headOf s in
  if held =? 0 then PcDone (RPops [])
  else BatchPopCas n s (u32 (if Z.of_nat n <? held then Z.of_nat n else held)).

(** The fills of a run of tickets from [t] on. *)
Definition fill_all (t i : Z) (vs : list T) (r : res) : pc :=
  match vs with [] => PcDone r | v :: vs => Fill t i v vs r end.

(** What follows the take that made [acc] the elements handed out. *)
Definition taken (a : after_take) (acc : list T) : pc :=
  match a with
  | ThenPop => PcDone (RPop (head acc))
  | ThenPops => PcDone (RPops acc)
  | ThenFill v t i => OverCount v t i
  end.

Definition cell_index (t : Z) : nat := Z.to_nat (Z.land t (mask cf)).

(** One access to shared memory, and the local code up to the next one, for
    each operation.  [spurious]: a weak compare-and-swap fails although it
    could succeed. *)
Definition try_push_step (spurious : bool) (s : ring) (p : pc) : option (ring * pc) :=
  match p with
  | PushLoad v => Some (s, push_decide v (state_ s))
  | PushCas v w =>
      if negb spurious && (state_ s =? w)
      then Some (set_state s (pack (headOf w) (tailOf w ⊕₃₂ 1)) 0 1, Fill (tailOf w) (pushes s) v [] (RBool true))
      else Some (s, push_decide v (state_ s))
  | SplitTail v => Some (s, SplitHead v (tail_ s) (pushes s))
  | SplitHead v t i => Some (s, if cap cf <=? (t ⊖₃₂ head_ s) then SplitFull v t i else SplitTake v t i)
  | SplitFull v t i => Some (s, if negb (tail_ s =? t) then SplitTail v else PcDone (RBool false))
  | SplitTake v t i =>
      if negb (mp cf) then Some (set_tail s (t ⊕₃₂ 1), Fill t (pushes s) v [] (RBool true))
      else if negb spurious && (tail_ s =? t)
      then Some (set_tail s (t ⊕₃₂ 1), Fill t (pushes s) v [] (RBool true))
      else Some (s, SplitTail v)
  | _ => None
  end.

Definition push_overrun_step (spurious : bool) (s : ring) (p : pc) : option (ring * pc) :=
  match p with
  | OverZero => Some (set_overruns s (u64 (overruns_ s + 1)), PcDone (RBool true))
  | OverLoad v => Some (s, OverCas v (state_ s))
  | OverCas v w =>
      let h := headOf w in
      let t := tailOf w in
      let full := cap cf <=? (t ⊖₃₂ h) in
      if negb spurious && (state_ s =? w)
      then Some (set_state s (pack (if full then h ⊕₃₂ 1 else h) (t ⊕₃₂ 1)) (if full then 1 else 0) 1,
                 if full then Take h (pops s) 0 [] (ThenFill v t (pushes s)) else Fill t (pushes s) v [] (RBool false))
      else Some (s, OverCas v (state_ s))
  | OverCount v t i => Some (set_overruns s (u64 (overruns_ s + 1)), Fill t i v [] (RBool true))
  | _ => None
  end.

Definition try_push_n_step (spurious : bool) (s : ring) (p : pc) : option (ring * pc) :=
  match p with
  | BatchLoad vs => Some (s, batch_decide vs (state_ s))
  | BatchCas vs w k =>
      if negb spurious && (state_ s =? w)
      then Some (set_state s (pack (headOf w) (tailOf w ⊕₃₂ k)) 0 k,
                 fill_all (tailOf w) (pushes s) (take (Z.to_nat k) vs) (RNum k))
      else Some (s, batch_decide vs (state_ s))
  | _ => None
  end.

Definition fill_step (s : ring) (p : pc) : option (ring * pc) :=
  match p with
  | Fill t i v vs r =>
      match cells s !! cell_index t with
      | Some c => Some (s, if seq c =? t then FillWrite t i v vs r else p)
      | None => None
      end
  | FillWrite t i v vs r =>
      match cells s !! cell_index t with
      | Some (Cell q None) => Some (set_cell s (cell_index t) (Cell q (Some v)), FillStore t i v vs r)
      | Some (Cell _ (Some _)) => Some (set_bad s, PcAbort)
      | None => None
      end
  | FillStore t i v vs r =>
      match cells s !! cell_index t with
      | Some c => Some (set_cell s (cell_index t) (Cell (t ⊕₃₂ 1) (raw c)), fill_all (t ⊕₃₂ 1) (i + 1) vs r)
      | None => None
      end
  | _ => None
  end.

Definition consume_step (spurious : bool) (s : ring) (p : pc) : option (ring * pc) :=
  match p with
  | PopLoad => Some (s, pop_decide (state_ s))
  | PopCas w =>
      if negb spurious && (state_ s =? w)
      then Some (set_state s (pack (headOf w ⊕₃₂ 1) (tailOf w)) 1 0, Take (headOf w) (pops s) 0 [] ThenPop)
      else Some (s, pop_decide (state_ s))
  | PopHead => Some (s, PopSeen (head_ s) (pops s))
  | PopSeen h i => Some (s, if i32 (tail_seen_ s - h) <=? 0 then PopTail h i else PopTake h i)
  | PopTail h i => Some (s, PopTailStore h i (tail_ s) (pushes s))
  | PopTailStore h i t j =>
      Some (set_tail_seen s t j, if h =? t then PcDone (RPop None) else PopTake h i)
  | PopTake h i =>
      if negb (mc cf) then Some (set_head s (h ⊕₃₂ 1), Take h (pops s) 0 [] ThenPop)
      else if negb spurious && (head_ s =? h)
      then Some (set_head s (h ⊕₃₂ 1), Take h (pops s) 0 [] ThenPop)
      else Some (s, PopHead)
  | _ => None
  end.

Definition consume_n_step (spurious : bool) (s : ring) (p : pc) : option (ring * pc) :=
  match p with
  | BatchPopLoad n => Some (s, batch_pop_decide n (state_ s))
  | BatchPopCas n w k =>
      if negb spurious && (state_ s =? w)
      then Some (set_state s (pack (headOf w ⊕₃₂ k) (tailOf w)) k 0,
                 Take (headOf w) (pops s) (Z.to_nat k - 1) [] ThenPops)
      else Some (s, batch_pop_decide n (state_ s))
  | _ => None
  end.

Definition take_step (s : ring) (p : pc) : option (ring * pc) :=
  match p with
  | Take h i k acc a =>
      match cells s !! cell_index h with
      | Some c => Some (s, if seq c =? (h ⊕₃₂ 1) then TakeMove h i k acc a else p)
      | None => None
      end
  | TakeMove h i k acc a =>
      match cells s !! cell_index h with
      | Some (Cell q (Some v)) => Some (set_cell s (cell_index h) (Cell q None), TakeStore h i k (acc ++ [v]) a)
      | Some (Cell _ None) => Some (set_bad s, PcAbort)
      | None => None
      end
  | TakeStore h i k acc a =>
      match cells s !! cell_index h with
      | Some c =>
          Some (set_cell s (cell_index h) (Cell (u32 (h + mask cf + 1)) (raw c)),
                match k with O => taken a acc | S k => Take (h ⊕₃₂ 1) (i + 1) k acc a end)
      | None => None
      end
  | _ => None
  end.

Definition size_step (s : ring) (p : pc) : option (ring * pc) :=
  match p with
  | SizeLoad => Some (s, PcDone (RNum (tailOf (state_ s) ⊖₃₂ headOf (state_ s))))
  | SizeHead => Some (s, SizeTail (head_ s) (pops s))
  | SizeTail h i => Some (s, SizeHead2 h i (tail_ s) (pushes s))
  | SizeHead2 h i t j => Some (s, if head_ s =? h then PcDone (RNum (t ⊖₃₂ h)) else SizeHead)
  | _ => None
  end.

Definition overrun_counter_step (s : ring) (p : pc) : option (ring * pc) :=
  match p with
  | CounterLoad => Some (s, PcDone (RNum (overruns_ s)))
  | CounterReset => Some (set_overruns s 0, PcDone RUnit)
  | _ => None
  end.

(** The next access of a thread at [p]. *)
Definition step (spurious : bool) (s : ring) (p : pc) : option (ring * pc) :=
  match p with
  | PcIdle | PcAbort | PcDone _ => None
  | PcNow r => Some (s, PcDone r)
  | PushLoad _ | PushCas _ _ | SplitTail _ | SplitHead _ _ _ | SplitFull _ _ _ | SplitTake _ _ _ => try_push_step spurious s p
  | OverZero | OverLoad _ | OverCas _ _ | OverCount _ _ _ => push_overrun_step spurious s p
  | BatchLoad _ | BatchCas _ _ _ => try_push_n_step spurious s p
  | Fill _ _ _ _ _ | FillWrite _ _ _ _ _ | FillStore _ _ _ _ _ => fill_step s p
  | PopLoad | PopCas _ | PopHead | PopSeen _ _ | PopTail _ _ | PopTailStore _ _ _ _ | PopTake _ _ => consume_step spurious s p
  | BatchPopLoad _ | BatchPopCas _ _ _ => consume_n_step spurious s p
  | Take _ _ _ _ _ | TakeMove _ _ _ _ _ | TakeStore _ _ _ _ _ => take_step s p
  | SizeLoad | SizeHead | SizeTail _ _ | SizeHead2 _ _ _ _ => size_step s p
  | CounterLoad | CounterReset => overrun_counter_step s p
  end.

Definition result (p : pc) : option res := match p with PcDone r => Some r | _ => None end.
Definition is_idle (p : pc) : bool := match p with PcIdle => true | _ => false end.

(** The destructor: the elements it destroys, in order ([None]: a destructor
    run on a cell with no element).  The loop runs once per ticket between
    the two words, fewer than [2^32]. *)
Fixpoint destroy_loop (fuel : nat) (s : ring) (h t : Z) : list (option T) :=
  match fuel with
  | O => []
  | S fuel =>
      if h =? t then []
      else (cells s !! cell_index h ≫= raw) :: destroy_loop fuel s (h ⊕₃₂ 1) t
  end.
Definition destroy (fuel : nat) (s : ring) : list (option T) :=
  if packed cf then destroy_loop fuel s (headOf (state_ s)) (tailOf (state_ s))
  else destroy_loop fuel s (head_ s) (tail_ s).
End steps.
End ring.
End BoundedRing.
