(* ===== verification/BoundedRingLin.v ===== *)
(** * The bounded ring is a bounded queue

    The sequential bounded queue, the ring as a concurrent [machine], the
    invariant that ties ticket words, cell sequence numbers and elements
    together, and the theorems: linearisability (with exact capacity),
    absence of undefined accesses, and what the destructor destroys. *)

From S2P Require Import Prelude Lts Contract Machine BoundedRing.

Module BoundedRingLin.
Import BoundedRing.
Local Open Scope Z_scope.
Local Open Scope wtc_scope.

(** ** Facts about the words *)

Lemma pack_head h t : 0 ≤ h < 2 ^ 32 → 0 ≤ t < 2 ^ 32 → headOf (pack h t) = h.
Proof.
  intros Hh Ht. unfold headOf, pack, u64. rewrite Z.shiftl_mul_pow2 by lia.
  rewrite (Z.mod_small (h * 2 ^ 32)) by lia. rewrite Z.shiftr_lor, <-Z.shiftl_mul_pow2 by lia.
  rewrite Z.shiftr_shiftl_l, Z.shiftl_0_r by lia. rewrite (Z.shiftr_div_pow2 t) by lia.
  rewrite Z.div_small, Z.lor_0_r by lia. by apply u32_small.
Qed.

Lemma pack_tail h t : 0 ≤ h < 2 ^ 32 → 0 ≤ t < 2 ^ 32 → tailOf (pack h t) = t.
Proof.
  intros Hh Ht. unfold tailOf, pack, u64, u32. rewrite Z.shiftl_mul_pow2 by lia.
  rewrite (Z.mod_small (h * 2 ^ 32)) by lia. rewrite <-Z.shiftl_mul_pow2 by lia.
  rewrite <-Z.land_ones, Z.land_lor_distr_l, !Z.land_ones by lia.
  rewrite Z.shiftl_mul_pow2, Z.mod_mul, Z.lor_0_l by lia. by apply Z.mod_small.
Qed.

(** ** The sequential bounded queue *)

Section spec.
Context {T : Type}.

(** The queue of at most [cap] elements the original program kept under its
    mutex.  The count of overruns is not part of it: its reads may return
    anything. *)
Definition bq_step (cap : Z) (q : list T) (o : op) : option (res * list T) :=
  let n := Z.of_nat (length q) in
  match o with
  | TryPush v => Some (if n <? cap then (RBool true, q ++ [v]) else (RBool false, q))
  | PushOverrun v =>
      Some (if cap =? 0 then (RBool true, q)
            else if n <? cap then (RBool false, q ++ [v]) else (RBool true, tail q ++ [v]))
  | Consume => Some (RPop (head q), tail q)
  | TryPushN vs =>
      let k := Z.min (Z.of_nat (length vs)) (cap - n) in
      Some (RNum k, q ++ take (Z.to_nat k) vs)
  | ConsumeN m => Some (RPops (take m q), drop m q)
  | Size => Some (RNum n, q)
  | OverrunCounter | ResetOverrunCounter => None
  end.

Definition bounded_queue (cap : Z) : seqspec (@op T) res :=
  SeqSpec (list T) []
    (λ q o r q', match bq_step cap q o with
                 | Some (r0, q0) => r = r0 ∧ q' = q0
                 | None => q' = q
                 end).

(** The ring as a machine: [N] threads; with one producer (consumer), thread
    [P] ([C]) is the only one that pushes (pops). *)
Definition may (cf : config) (N P C : nat) (t : nat) (o : @op T) : bool :=
  (t <? N)%nat &&
  match o with
  | TryPush _ | TryPushN _ => mp cf || (t =? P)%nat
  | Consume | ConsumeN _ => mc cf || (t =? C)%nat
  | _ => true
  end.

Definition ring_machine (cf : config) (s0 : ring) (N P C : nat) : machine (@op T) res :=
  Machine op res ring pc bool s0 PcIdle is_idle (may cf N P C) (enter cf) (step cf) result.
End spec.

(** ** The invariant *)

Section proof.
Context {T : Type} (cf : config) (N P C : nat) (k : Z).

(** What the constructor establishes about the read-only members. *)
Record config_ok : Prop := {
  ok_mask : mask cf + 1 = 2 ^ k;
  ok_k : 1 ≤ k ≤ 30;
  ok_cap : 0 ≤ cap cf ≤ 2 ^ k;
  ok_overrun : overrun cf = true → packed cf = true;
  ok_threads : Z.of_nat N * 2 ^ k + 2 ≤ 2 ^ 32
}.
Context (Hok : config_ok).

Definition R : Z := 2 ^ k.
Definition idx (i : Z) : nat := Z.to_nat (i mod R).

Lemma R_bounds : 2 ≤ R ≤ 2 ^ 30.
Proof.
  unfold R. pose proof (ok_k Hok). split.
  - change 2 with (2 ^ 1) at 1. apply Z.pow_le_mono_r; lia.
  - apply Z.pow_le_mono_r; lia.
Qed.

Lemma idx_lt i : (idx i < Z.to_nat R)%nat.
Proof. pose proof R_bounds. unfold idx. pose proof (Z.mod_pos_bound i R ltac:(lia)). lia. Qed.

Lemma idx_inj i j : idx i = idx j → i mod R = j mod R.
Proof.
  pose proof R_bounds. unfold idx. pose proof (Z.mod_pos_bound i R ltac:(lia)).
  pose proof (Z.mod_pos_bound j R ltac:(lia)). lia.
Qed.

Lemma cell_index_u32 i : cell_index cf (u32 i) = idx i.
Proof.
  pose proof R_bounds. pose proof (ok_mask Hok). pose proof (ok_k Hok). unfold cell_index, idx, u32.
  replace (mask cf) with (Z.ones k) by (rewrite Z.ones_equiv; lia).
  rewrite Z.land_ones by lia. fold R. f_equal. apply Z.mod_mod_divide.
  exists (2 ^ (32 - k)). unfold R. rewrite <-Z.pow_add_r by lia. f_equal. lia.
Qed.

(** Where a cell is in the life of the ticket it is at. *)
Inductive phase : Type := Free | Written | Full | Emptied.

Record ghost := Ghost { vals : list T; npop : Z; gcell : nat → Z * phase }.
Definition npush (g : ghost) : Z := Z.of_nat (length (vals g)).

(** The tickets a program counter still has to fill (with what) or to take. *)
Definition fstart (p : @pc T) : Z :=
  match p with
  | Fill _ i _ _ _ | FillWrite _ i _ _ _ | FillStore _ i _ _ _ | OverCount _ _ i => i
  | Take _ _ _ _ (ThenFill _ _ i) | TakeMove _ _ _ _ (ThenFill _ _ i) | TakeStore _ _ _ _ (ThenFill _ _ i) => i
  | _ => 0
  end.
Definition fvals (p : @pc T) : list T :=
  match p with
  | Fill _ _ v vs _ | FillWrite _ _ v vs _ | FillStore _ _ v vs _ => v :: vs
  | OverCount v _ _ => [v]
  | Take _ _ _ _ (ThenFill v _ _) | TakeMove _ _ _ _ (ThenFill v _ _) | TakeStore _ _ _ _ (ThenFill v _ _) => [v]
  | _ => []
  end.
Definition tstart (p : @pc T) : Z :=
  match p with Take _ i _ _ _ | TakeMove _ i _ _ _ | TakeStore _ i _ _ _ => i | _ => 0 end.
Definition tcount (p : @pc T) : Z :=
  match p with Take _ _ k _ _ | TakeMove _ _ k _ _ | TakeStore _ _ k _ _ => Z.of_nat k + 1 | _ => 0 end.

Definition fill_at (p : @pc T) (i : Z) (v : T) : Prop :=
  fstart p ≤ i ∧ fvals p !! Z.to_nat (i - fstart p) = Some v.
Definition take_at (p : @pc T) (i : Z) : Prop := tstart p ≤ i < tstart p + tcount p.

(** The cell a program counter is at work in, and the phase it has put it in. *)
Definition cur (p : @pc T) : option (Z * phase) :=
  match p with
  | FillWrite _ i _ _ _ => Some (i, Free)
  | FillStore _ i _ _ _ => Some (i, Written)
  | TakeMove _ i _ _ _ => Some (i, Full)
  | TakeStore _ i _ _ _ => Some (i, Emptied)
  | _ => None
  end.

(** The words a program counter holds, and what it has decided from them. *)
Definition words_of (p : @pc T) : Prop :=
  match p with
  | PushCas _ w => (tailOf w ⊖₃₂ headOf w) < cap cf ∧ packed cf = true
  | BatchCas vs w k => (tailOf w ⊖₃₂ headOf w) < cap cf ∧
      k = Z.min (Z.of_nat (length vs)) (cap cf - (tailOf w ⊖₃₂ headOf w)) ∧ vs ≠ [] ∧ packed cf = true
  | PopCas w => headOf w ≠ tailOf w ∧ packed cf = true
  | BatchPopCas n w k => k = Z.min (Z.of_nat n) (tailOf w ⊖₃₂ headOf w) ∧ (tailOf w ⊖₃₂ headOf w) ≠ 0 ∧
      n ≠ 0%nat ∧ packed cf = true
  | PushLoad _ | PopLoad | SizeLoad => packed cf = true
  | OverLoad _ | OverCas _ _ => packed cf = true ∧ cap cf ≠ 0
  | OverZero => cap cf = 0
  | BatchLoad vs => packed cf = true ∧ vs ≠ []
  | BatchPopLoad n => packed cf = true ∧ n ≠ 0%nat
  | SplitTail _ | PopHead | SizeHead => packed cf = false
  | SplitHead _ t i | SplitFull _ t i | SplitTake _ t i => t = u32 i ∧ packed cf = false
  | PopSeen h i | PopTail h i | PopTake h i | SizeTail h i => h = u32 i ∧ packed cf = false
  | PopTailStore h i t j | SizeHead2 h i t j => h = u32 i ∧ t = u32 j ∧ packed cf = false
  | Fill t i _ _ _ | FillWrite t i _ _ _ | FillStore t i _ _ _ | OverCount _ t i => t = u32 i
  | Take h i _ _ a | TakeMove h i _ _ a | TakeStore h i _ _ a =>
      h = u32 i ∧ match a with ThenFill _ t j => t = u32 j | _ => True end
  | _ => True
  end.

(** What the split layout's program counters know of the counters. *)
Definition split_ok (g : ghost) (t : nat) (p : @pc T) : Prop :=
  match p with
  | SplitTail _ => mp cf = true ∨ t = P
  | SplitHead _ _ i | SplitFull _ _ i => i ≤ npush g ∧ (mp cf = true ∨ (t = P ∧ i = npush g))
  | SplitTake _ _ i => i ≤ npush g ∧ (mp cf = true ∨ (t = P ∧ i = npush g)) ∧ i - npop g < cap cf
  | PopHead => mc cf = true ∨ t = C
  | PopSeen _ i | PopTail _ i => i ≤ npop g ∧ (mc cf = true ∨ (t = C ∧ i = npop g))
  | PopTailStore _ i _ j => i ≤ npop g ∧ i ≤ j ≤ npush g ∧ (mc cf = true ∨ (t = C ∧ i = npop g))
  | PopTake _ i => i ≤ npop g ∧ i < npush g ∧ (mc cf = true ∨ (t = C ∧ i = npop g))
  | SizeTail _ i => i ≤ npop g
  | SizeHead2 _ i _ j => i ≤ npop g ∧ i ≤ j ≤ npush g
  | _ => True
  end.

Record pc_ok (g : ghost) (t : nat) (p : @pc T) : Prop := {
  pk_words : words_of p;
  pk_split : split_ok g t p;
  pk_cur x : cur p = Some x → gcell g (idx (fst x)) = x;
  pk_fill i v : fill_at p i v → 0 ≤ i < npush g ∧ vals g !! Z.to_nat i = Some v ∧
    fst (gcell g (idx i)) ≤ i ∧ (fst (gcell g (idx i)) = i → snd (gcell g (idx i)) = Free ∨ cur p = Some (i, Written));
  pk_take i : take_at p i → 0 ≤ i < npop g ∧
    fst (gcell g (idx i)) ≤ i ∧ (fst (gcell g (idx i)) = i → snd (gcell g (idx i)) ≠ Emptied ∨ cur p = Some (i, Emptied));
  pk_run : Z.of_nat (length (fvals p)) ≤ R ∧ tcount p ≤ R
}.

(** Ticket [i] is not filled yet, as its cell tells. *)
Definition unfilled (g : ghost) (i : Z) : Prop :=
  fst (gcell g (idx i)) ≤ i ∧ (fst (gcell g (idx i)) = i → snd (gcell g (idx i)) = Free ∨ snd (gcell g (idx i)) = Written).

Record threads_ok (g : ghost) (pcs : nat → @pc T) : Prop := {
  th_pc t : pc_ok g t (pcs t);
  th_fill t u i v w : t ≠ u → fill_at (pcs t) i v → fill_at (pcs u) i w → False;
  th_take t u i : t ≠ u → take_at (pcs t) i → take_at (pcs u) i → False;
  th_cover i : 0 ≤ i < npush g → unfilled g i → ∃ u v, fill_at (pcs u) i v;
  th_idle t : (N ≤ t)%nat → pcs t = PcIdle
}.

(** The cells of the ring and the phases of their tickets. *)
Definition cell_of (g : ghost) (x : Z * phase) : cell :=
  match snd x with
  | Free => Cell (u32 (fst x)) None
  | Written => Cell (u32 (fst x)) (vals g !! Z.to_nat (fst x))
  | Full => Cell (u32 (fst x + 1)) (vals g !! Z.to_nat (fst x))
  | Emptied => Cell (u32 (fst x + 1)) None
  end.

Record cells_ok (g : ghost) (cs : list cell) : Prop := {
  ce_len : length cs = Z.to_nat R;
  ce_cell c : (c < Z.to_nat R)%nat → cs !! c = Some (cell_of g (gcell g c));
  ce_mod c : (c < Z.to_nat R)%nat → idx (fst (gcell g c)) = c ∧ 0 ≤ fst (gcell g c) < npop g + R;
  ce_phase c : (c < Z.to_nat R)%nat →
    (snd (gcell g c) ≠ Free → fst (gcell g c) < npush g) ∧ (snd (gcell g c) = Emptied → fst (gcell g c) < npop g)
}.

Record words_ok (g : ghost) (s : @ring T) : Prop := {
  wo_pops : pops s = npop g;
  wo_pushes : pushes s = npush g;
  wo_range : 0 ≤ npop g ≤ npush g ∧ npush g - npop g ≤ cap cf;
  wo_packed : packed cf = true → state_ s = pack (u32 (npop g)) (u32 (npush g));
  wo_split : packed cf = false → head_ s = u32 (npop g) ∧ tail_ s = u32 (npush g) ∧
               tail_seen_ s = u32 (seen s) ∧ seen s ≤ npush g;
  wo_bad : bad s = false
}.

Definition Inv (g : ghost) (s : @ring T) (pcs : nat → @pc T) (q : list T) : Prop :=
  words_ok g s ∧ cells_ok g (cells s) ∧ threads_ok g pcs ∧ q = drop (Z.to_nat (npop g)) (vals g).

(** The elements a run of takes still has to hand out. *)
Definition rest (g : ghost) (i : Z) (n : nat) : list T := take n (drop (Z.to_nat i) (vals g)).
Definition take_result (a : @after_take T) (l : list T) : @res T :=
  match a with ThenPop => RPop (head l) | ThenPops => RPops l | ThenFill _ _ _ => RBool true end.

(** The status of a thread's call in the interval object. *)
Definition stat (g : ghost) (p : @pc T) (st : @istatus (@op T) res) : Prop :=
  match p with
  | PcIdle => st = IIdle
  | PcAbort => True
  | PcNow r => ∃ o, st = ICalled o [] ∧ ∀ q, Z.of_nat (length q) ≤ cap cf → sp_step (bounded_queue (cap cf)) q o r q
  | PcDone r => st = IDone r
  | PushLoad v | PushCas v _ | SplitTail v | SplitHead v _ _ | SplitTake v _ _ => ∃ ws, st = ICalled (TryPush v) ws
  | SplitFull v _ i => ∃ ws, st = ICalled (TryPush v) ws ∧ i ≤ npush g ∧ (i = npush g → RBool false ∈ ws)
  | OverZero => ∃ v, st = ICalled (PushOverrun v) []
  | OverLoad v | OverCas v _ => ∃ ws, st = ICalled (PushOverrun v) ws
  | OverCount _ _ _ => st = IDone (RBool true)
  | BatchLoad vs | BatchCas vs _ _ => ∃ ws, st = ICalled (TryPushN vs) ws
  | Fill _ _ _ _ r | FillWrite _ _ _ _ r | FillStore _ _ _ _ r => st = IDone r
  | PopLoad | PopCas _ | PopHead | PopSeen _ _ | PopTail _ _ | PopTake _ _ => ∃ ws, st = ICalled Consume ws
  | PopTailStore _ i _ j => ∃ ws, st = ICalled Consume ws ∧ (i = j → RPop None ∈ ws)
  | BatchPopLoad n | BatchPopCas n _ _ => ∃ ws, st = ICalled (ConsumeN n) ws
  | Take _ i n acc a | TakeMove _ i n acc a => st = IDone (take_result a (acc ++ rest g i (S n)))
  | TakeStore _ i n acc a => st = IDone (take_result a (acc ++ rest g (i + 1) n))
  | SizeLoad | SizeHead | SizeTail _ _ => ∃ ws, st = ICalled Size ws
  | SizeHead2 _ i _ j => ∃ ws, st = ICalled Size ws ∧ i ≤ npop g ∧ (i = npop g → RNum (j - i) ∈ ws ∧ 0 ≤ j - i ≤ cap cf)
  | CounterLoad => ∃ ws, st = ICalled OverrunCounter ws
  | CounterReset => ∃ ws, st = ICalled ResetOverrunCounter ws
  end.

(** ** Threads *)

Lemma fill_at_nil p i v : fvals p = [] → ¬ fill_at p i v.
Proof. intros E [_ H]. by rewrite E in H. Qed.

Lemma take_at_nil p i : tcount p = 0 → ¬ take_at p i.
Proof. intros E [H1 H2]. lia. Qed.

Lemma fill_at_near p i j v w : Z.of_nat (length (fvals p)) ≤ R → fill_at p i v → fill_at p j w → Z.abs (i - j) < R.
Proof. intros HR [Hi Hi'%lookup_lt_Some] [Hj Hj'%lookup_lt_Some]. lia. Qed.

Lemma th_lt g pcs t : threads_ok g pcs → pcs t ≠ PcIdle → (t < N)%nat.
Proof. intros H Hn. destruct (decide (t < N)%nat); [done|]. destruct Hn. eapply th_idle; [done|lia]. Qed.

(** Case analysis on which of two distinct threads moved, if any. *)
Ltac two_threads t a b :=
  destruct (decide (t = a)) as [->|];
  [rewrite fn_insert_eq, fn_insert_ne by done
  |destruct (decide (t = b)) as [->|];
   [rewrite fn_insert_eq, fn_insert_ne by done|rewrite !fn_insert_ne by done]].

Lemma threads_upd g g' pcs t p' :
  threads_ok g pcs → pc_ok g' t p' → (∀ u, u ≠ t → pc_ok g' u (pcs u)) →
  (∀ u i v w, u ≠ t → fill_at p' i v → fill_at (pcs u) i w → False) →
  (∀ u i, u ≠ t → take_at p' i → take_at (pcs u) i → False) →
  (∀ i, 0 ≤ i < npush g' → unfilled g' i → (∃ v, fill_at p' i v) ∨ ∃ u v, u ≠ t ∧ fill_at (pcs u) i v) →
  ((t < N)%nat ∨ p' = PcIdle) → threads_ok g' (<[t:=p']> pcs).
Proof.
  intros H Hp Ho Hf Ht Hc HN. split.
  - intros u. by_thread t u; auto.
  - intros a b i v w Hab. two_threads t a b; eauto using th_fill.
  - intros a b i Hab. two_threads t a b; eauto using th_take.
  - intros i Hi Hu. destruct (Hc i Hi Hu) as [[v Hv]|(u & v & Hut & Hv)].
    + exists t, v. by rewrite fn_insert_eq.
    + exists u, v. by rewrite fn_insert_ne.
  - intros u Hu. by_thread t u; [|by eapply th_idle]. by destruct HN; [lia|].
Qed.

Lemma threads_local g pcs t p' :
  threads_ok g pcs → pc_ok g t p' →
  (∀ i v, fill_at p' i v ↔ fill_at (pcs t) i v) → (∀ i, take_at p' i ↔ take_at (pcs t) i) →
  ((t < N)%nat ∨ p' = PcIdle) → threads_ok g (<[t:=p']> pcs).
Proof.
  intros H Hp Hf Ht HN. apply (threads_upd g g); try done.
  - intros u _. by apply th_pc.
  - intros u i v w Hu Hv Hw. apply Hf in Hv. by eapply th_fill.
  - intros u i Hu Hv Hw. apply Ht in Hv. by eapply th_take.
  - intros i Hi Hu. destruct (th_cover _ _ H i Hi Hu) as (u & v & Hv).
    destruct (decide (u = t)) as [->|]; [left; exists v; by apply Hf|right; eauto].
Qed.

(** ** Claims: tickets taken, cells untouched *)

Definition claim (g : ghost) (ws : list T) (dh : Z) : ghost := Ghost (vals g ++ ws) (npop g + dh) (gcell g).

Lemma npush_claim g ws dh : npush (claim g ws dh) = npush g + Z.of_nat (length ws).
Proof. unfold npush. simpl. rewrite length_app. lia. Qed.

Lemma vals_claim g ws dh i v : vals g !! i = Some v → vals (claim g ws dh) !! i = Some v.
Proof. simpl. intros. by apply lookup_app_l_Some. Qed.

Lemma pc_ok_claim g ws dh t p : 0 ≤ dh → pc_ok g t p → split_ok (claim g ws dh) t p → pc_ok (claim g ws dh) t p.
Proof.
  intros Hdh [Hw Hs Hcur Hf Ht Hr] Hs'. split; try done.
  - intros i v Hi. destruct (Hf i v Hi) as (H1 & H2 & H3). rewrite npush_claim. split_and!; [lia..|by apply vals_claim|apply H3|apply H3].
  - intros i Hi. destruct (Ht i Hi) as (H1 & H3). simpl. split_and!; [lia..|apply H3|apply H3].
Qed.

Lemma cells_claim g ws dh cs : 0 ≤ dh → cells_ok g cs → cells_ok (claim g ws dh) cs.
Proof.
  intros Hdh [H1 H2 H3 H4]. split; [done|..]; intros c Hc; rewrite ?npush_claim; simpl.
  - rewrite (H2 c Hc). f_equal. destruct (H4 c Hc) as [Hp _]. unfold cell_of. simpl.
    destruct (H3 c Hc) as [_ Hi]. destruct (gcell g c) as [i ph]. simpl in *. unfold npush in Hp.
    destruct ph; try done; (assert (i < Z.of_nat (length (vals g))) by (by apply Hp)); rewrite lookup_app_l; try done; lia.
  - destruct (H3 c Hc). split; [done|lia].
  - destruct (H4 c Hc) as [Ha Hb]. split; intros Hx; [specialize (Ha Hx)|specialize (Hb Hx)]; lia.
Qed.

Lemma rest_claim g ws dh i n : (Z.to_nat i + n ≤ length (vals g))%nat → rest (claim g ws dh) i n = rest g i n.
Proof. intros H. unfold rest. simpl. rewrite drop_app_le by lia. rewrite take_app_le; [done|]. rewrite length_drop. lia. Qed.

Lemma stat_claim g ws dh t p st : 0 ≤ dh → npop g ≤ npush g → pc_ok g t p → stat g p st → stat (claim g ws dh) p st.
Proof.
  intros Hdh Hle [_ Hs _ _ Ht _] Hst.
  assert (∀ i n, tstart p = i → tcount p = Z.of_nat n + 1 → (Z.to_nat i + S n ≤ length (vals g))%nat) as Hn.
  { intros i n <- Hc. destruct (Ht (tstart p + Z.of_nat n)) as [H _]; [split; lia|].
    destruct (Ht (tstart p)) as [H' _]; [split; lia|]. unfold npush in Hle. lia. }
  destruct p; simpl in *; try done; try (destruct Hst as (ws' & -> & Hst); exists ws');
    rewrite ?rest_claim by (pose proof (Hn _ _ eq_refl eq_refl); lia); try done; rewrite ?npush_claim; simpl.
  - destruct Hst as [H1 H2]. split_and!; [done|lia|]. intros ->. apply H2. lia.
  - destruct Hst as [H1 H2]. split_and!; [done|lia|]. intros ->. apply H2. lia.
Qed.

Lemma threads_claim g pcs t ws dh p' :
  threads_ok g pcs → 0 ≤ dh → npop g ≤ npush g →
  fvals (pcs t) = [] → pc_ok (claim g ws dh) t p' → (∀ u, u ≠ t → split_ok (claim g ws dh) u (pcs u)) →
  (∀ i v, fill_at p' i v ↔ npush g ≤ i ∧ ws !! Z.to_nat (i - npush g) = Some v) →
  (∀ i, take_at p' i → npop g ≤ i) → (t < N)%nat →
  threads_ok (claim g ws dh) (<[t:=p']> pcs).
Proof.
  intros H Hdh Hle He Hp Hs Hf Ht HN. apply (threads_upd g); try done; [..|by left].
  - intros u Hu. apply pc_ok_claim; [done|by apply th_pc|by apply Hs].
  - intros u i v w Hu [Hi _]%Hf Hw. destruct (pk_fill _ _ _ (th_pc _ _ H u) _ _ Hw) as [? _]. lia.
  - intros u i Hu Hi%Ht Hw. destruct (pk_take _ _ _ (th_pc _ _ H u) _ Hw) as [? _]. lia.
  - intros i Hi Hu. rewrite npush_claim in Hi. destruct (decide (npush g ≤ i)) as [Hge|Hlt].
    + left. destruct (lookup_lt_is_Some_2 ws (Z.to_nat (i - npush g))) as [v Hv]; [lia|]. exists v. by apply Hf.
    + destruct (th_cover _ _ H i) as (u & v & Hv); [lia|done|]. right. exists u, v. split; [|done].
      intros ->. by apply fill_at_nil in Hv.
Qed.

(** A cell at ticket [T] (or [H]) is not past it. *)
Lemma cell_not_past g cs i : cells_ok g cs → npop g ≤ i < npop g + R → fst (gcell g (idx i)) ≤ i.
Proof.
  intros Hc Hi. destruct (ce_mod _ _ Hc _ (idx_lt i)) as [Hm Hr]. pose proof R_bounds.
  apply idx_inj in Hm. destruct (Z_le_gt_dec (fst (gcell g (idx i))) i); [done|].
  apply mod_eq_near in Hm; lia.
Qed.

(** ** One cell changes phase *)

Definition phase_to (g : ghost) (x : Z * phase) : ghost := Ghost (vals g) (npop g) (<[idx (fst x):=x]> (gcell g)).

(** The tickets of a program counter, in the cell that moves to [x], may see it there. *)
Definition sees (p : @pc T) (x : Z * phase) : Prop :=
  (∀ i v, fill_at p i v → idx i = idx (fst x) → fst x ≤ i ∧ (fst x = i → snd x = Free ∨ cur p = Some (i, Written))) ∧
  (∀ i, take_at p i → idx i = idx (fst x) → fst x ≤ i ∧ (fst x = i → snd x ≠ Emptied ∨ cur p = Some (i, Emptied))) ∧
  (∀ y, cur p = Some y → idx (fst y) = idx (fst x) → y = x).

(** Case analysis on "the cell that moved, or another one". *)
Ltac by_cell c d :=
  let E := fresh "E" in
  destruct (decide (c = d)) as [E|E];
  [rewrite <-?E, ?fn_insert_eq | rewrite ?fn_insert_ne by done].

Lemma pc_ok_phase g t p x : pc_ok g t p → sees p x → pc_ok (phase_to g x) t p.
Proof.
  intros [Hw Hs Hcur Hf Ht Hr] (H1 & H2 & H3). split; try done; simpl.
  - intros y Hy. by_cell (idx (fst x)) (idx (fst y)); [|by apply Hcur]. symmetry. by apply H3.
  - intros i v Hi. destruct (Hf i v Hi) as (A & B & D). split; [done|]. split; [done|].
    by_cell (idx (fst x)) (idx i); [by eapply H1|done].
  - intros i Hi. destruct (Ht i Hi) as (A & D). split; [done|]. by_cell (idx (fst x)) (idx i); [by apply H2|done].
Qed.

Lemma cells_phase g cs x :
  cells_ok g cs → 0 ≤ fst x < npop g + R → (snd x ≠ Free → fst x < npush g) → (snd x = Emptied → fst x < npop g) →
  cells_ok (phase_to g x) (<[idx (fst x):=cell_of g x]> cs).
Proof.
  intros [H1 H2 H3 H4] Hr Hp He. split; simpl.
  - by rewrite length_insert.
  - intros c Hc. by_cell (idx (fst x)) c.
    + by rewrite list_lookup_insert_eq by lia.
    + by rewrite list_lookup_insert_ne, (H2 c Hc) by done.
  - intros c Hc. by_cell (idx (fst x)) c; [|by apply H3]. split; [done|lia].
  - intros c Hc. by_cell (idx (fst x)) c; [|by apply H4]. done.
Qed.

(** The lag of a cell behind a ticket taken is at most one ring per thread. *)
Lemma lag_bound g pcs cs i :
  threads_ok g pcs → cells_ok g cs → npop g ≤ npush g → 0 ≤ i < npush g → fst (gcell g (idx i)) ≤ i →
  i - fst (gcell g (idx i)) ≤ Z.of_nat N * R.
Proof.
  intros H Hc Hle Hi Hlo. pose proof R_bounds as HR. set (c0 := fst (gcell g (idx i))) in *.
  destruct (ce_mod _ _ Hc _ (idx_lt i)) as [Hm Hr]. fold c0 in Hm, Hr. apply idx_inj in Hm.
  set (m := Z.to_nat ((i - c0) / R)).
  assert (i - c0 = Z.of_nat m * R) as Hd.
  { unfold m. rewrite Z2Nat.id by (apply Z.div_pos; lia).
    pose proof (Z.div_mod i R ltac:(lia)). pose proof (Z.div_mod c0 R ltac:(lia)).
    assert (i - c0 = R * (i / R - c0 / R)) as E by lia. rewrite E, Z.mul_comm, Z.div_mul by lia. lia. }
  set (js := (λ n, c0 + R * Z.of_nat (S n)) <$> List.seq 0 m).
  assert (length js ≤ N)%nat as Hlen; [|unfold js in Hlen; rewrite length_fmap, length_seq in Hlen; nia].
  assert (∀ j, j ∈ js → c0 < j ≤ i ∧ idx j = idx i) as Hjs.
  { intros j [n [-> Hn%elem_of_seq]]%list_elem_of_fmap. split; [nia|]. unfold idx. f_equal.
    rewrite Z.add_comm, (Z.mul_comm R), Z.add_comm, Z_mod_plus_full. done. }
  apply (pigeonhole (λ u j, ∃ v, fill_at (pcs u) j v)).
  - apply NoDup_fmap_2; [intros a b; nia|apply NoDup_seq].
  - intros j [Hj Hx]%Hjs. destruct (th_cover _ _ H j) as (u & v & Hv).
    + lia.
    + unfold unfilled. rewrite Hx. fold c0. split; [lia|]. intros ?. lia.
    + exists u. split; [|eauto]. eapply th_lt; [done|]. intros E. rewrite E in Hv. by apply fill_at_nil in Hv.
  - intros u j j' [_ Hj]%Hjs [_ Hj']%Hjs [v Hv] [w Hw].
    pose proof (fill_at_near _ _ _ _ _ (proj1 (pk_run _ _ _ (th_pc _ _ H u))) Hv Hw) as Hn.
    rewrite <-Hj' in Hj. apply idx_inj, mod_eq_near in Hj; lia.
Qed.

(** A cell moves under the thread at work in it. *)
Lemma pc_ok_phase_self g t p p' x :
  pc_ok g t p → words_of p' → split_ok g t p' → sees p' x → (∀ y, cur p = Some y → idx (fst y) = idx (fst x)) →
  (∀ y, cur p' = Some y → y = x) →
  (∀ i v, fill_at p' i v → fill_at p i v) → (∀ i, take_at p' i → take_at p i) →
  (length (fvals p') ≤ length (fvals p))%nat → tcount p' ≤ tcount p → pc_ok (phase_to g x) t p'.
Proof.
  intros [Hw Hs Hcur Hf Ht Hr] Hw' Hs' (H1 & H2 & H3) Hc Hc' Hf' Ht' Hl1 Hl2. split; try done; simpl.
  - intros y Hy. rewrite (Hc' _ Hy). by rewrite fn_insert_eq.
  - intros i v Hi. destruct (Hf i v (Hf' _ _ Hi)) as (A & B & D1 & D2). split; [done|]. split; [done|].
    by_cell (idx (fst x)) (idx i); [by eapply H1|]. split; [done|]. intros Hx. destruct (D2 Hx) as [|Hy]; [by left|].
    by specialize (Hc _ Hy).
  - intros i Hi. destruct (Ht i (Ht' _ Hi)) as (A & D1 & D2). split; [done|].
    by_cell (idx (fst x)) (idx i); [by apply H2|]. split; [done|]. intros Hx. destruct (D2 Hx) as [|Hy]; [by left|].
    by specialize (Hc _ Hy).
  - lia.
Qed.

Lemma cur_fill p i ph : cur p = Some (i, ph) → ph = Free ∨ ph = Written → ∃ v, fill_at p i v.
Proof.
  intros E Hp. destruct p; simplify_eq/=; try (by destruct Hp); (eexists; split; [done|]); simpl; by rewrite Z.sub_diag.
Qed.

Lemma cur_take p i ph : cur p = Some (i, ph) → ph = Full ∨ ph = Emptied → take_at p i.
Proof. intros E Hp. destruct p; simplify_eq/=; try (by destruct Hp); unfold take_at; simpl; lia. Qed.

(** Another thread, while [t] moves the cell of a ticket it fills. *)
Lemma sees_fill g pcs t u i v ph ph' :
  threads_ok g pcs → u ≠ t → fill_at (pcs t) i v → gcell g (idx i) = (i, ph) → ph = Free ∨ ph = Written →
  ph' = Written ∨ ph' = Full → sees (pcs u) (i, ph').
Proof.
  intros H Hu Hv Hg Hph Hph'. pose proof (th_pc _ _ H u) as Hpc. split_and!; simpl.
  - intros j w Hj E. destruct (pk_fill _ _ _ Hpc _ _ Hj) as (_ & _ & D & _). rewrite E, Hg in D. simpl in D.
    split; [done|]. intros ->. by destruct (th_fill _ _ H u t j w v).
  - intros j Hj E. destruct (pk_take _ _ _ Hpc _ Hj) as (_ & D & _). rewrite E, Hg in D. simpl in D.
    split; [done|]. intros _. left. by destruct Hph' as [->| ->].
  - intros [j ph0] Hy E. simpl in E. pose proof (pk_cur _ _ _ Hpc _ Hy) as Hx. simpl in Hx. rewrite E, Hg in Hx.
    simplify_eq. destruct (cur_fill _ _ _ Hy) as [w Hw]; [done|]. by destruct (th_fill _ _ H u t j w v).
Qed.

Lemma idx_R i : idx (i + R) = idx i.
Proof. unfold idx. f_equal. rewrite <-(Z_mod_plus_full i 1 R). f_equal. lia. Qed.

Lemma past_R i j : idx i = idx j → i ≤ j → i ≠ j → i + R ≤ j.
Proof.
  intros E%idx_inj Hle Hne. pose proof R_bounds. destruct (Z_le_gt_dec (i + R) j); [done|].
  apply mod_eq_near in E; lia.
Qed.

(** Another thread, while [t] moves the cell of a ticket it takes. *)
Lemma sees_take g pcs t u i ph x :
  threads_ok g pcs → u ≠ t → take_at (pcs t) i → gcell g (idx i) = (i, ph) →
  (ph = Full ∧ x = (i, Emptied)) ∨ (ph = Emptied ∧ x = (i + R, Free)) → sees (pcs u) x.
Proof.
  intros H Hu Hv Hg Hph. pose proof (th_pc _ _ H u) as Hpc.
  assert (∀ z, cur (pcs u) = Some z → idx (fst z) = idx i → False) as Hcur.
  { intros [j ph0] Hy E. simpl in E. pose proof (pk_cur _ _ _ Hpc _ Hy) as Hx. simpl in Hx. rewrite E, Hg in Hx. simplify_eq.
    apply (th_take _ _ H u t j); [done| |done]. apply (cur_take _ _ _ Hy). destruct Hph as [[-> _]|[-> _]]; auto. }
  assert (∀ j w, fill_at (pcs u) j w → idx j = idx i → i ≤ j ∧ i ≠ j) as HF.
  { intros j w Hj E. destruct (pk_fill _ _ _ Hpc _ _ Hj) as (_ & _ & D1 & D2). rewrite E, Hg in D1, D2. simpl in *.
    split; [done|]. intros Hx. destruct (D2 Hx) as [->|Hy]; [by destruct Hph as [[? _]|[? _]]|]. by eapply Hcur. }
  assert (∀ j, take_at (pcs u) j → idx j = idx i → i ≤ j ∧ i ≠ j) as HT.
  { intros j Hj E. destruct (pk_take _ _ _ Hpc _ Hj) as (_ & D1 & _). rewrite E, Hg in D1. simpl in *.
    split; [done|]. intros ->. by apply (th_take _ _ H u t j). }
  destruct Hph as [[-> ->]|[-> ->]]; unfold sees; simpl; rewrite ?idx_R; split_and!.
  - intros j w Hj E. destruct (HF _ _ Hj E). split; [done|]. by intros ->.
  - intros j Hj E. destruct (HT _ Hj E). split; [done|]. by intros ->.
  - intros z Hz E. by destruct (Hcur z).
  - intros j w Hj E. destruct (HF _ _ Hj E). split; [by apply past_R|]. by left.
  - intros j Hj E. destruct (HT _ Hj E). split; [by apply past_R|]. by left.
  - intros z Hz E. by destruct (Hcur z).
Qed.

(** ** The obligation of one step *)

Definition good (g : ghost) (pcs : nat → @pc T) (q : list T) (t : nat) (st : @istatus (@op T) res) (s' : @ring T) (p' : @pc T) : Prop :=
  ∃ g' q' st', lmove (bounded_queue (cap cf)) q st q' st' ∧ Inv g' s' (<[t:=p']> pcs) q' ∧ stat g' p' st' ∧
    (∀ u st, u ≠ t → stat g (pcs u) st → stat g' (pcs u) st).

Lemma pc_ok_quiet g t p :
  fvals p = [] → tcount p = 0 → cur p = None → words_of p → split_ok g t p → pc_ok g t p.
Proof.
  intros Hf Ht Hc Hw Hs. pose proof R_bounds. split; try done.
  - by rewrite Hc.
  - intros i v Hi. by apply fill_at_nil in Hi.
  - intros i Hi. by apply take_at_nil in Hi.
  - rewrite Hf, Ht. simpl. lia.
Qed.

(** A step that changes neither tickets nor cells. *)
Lemma good_local g s pcs q t st s' p' st' :
  Inv g s pcs q → pcs t ≠ PcIdle → words_ok g s' → cells s' = cells s → pc_ok g t p' →
  (∀ i v, fill_at p' i v ↔ fill_at (pcs t) i v) → (∀ i, take_at p' i ↔ take_at (pcs t) i) →
  lmove (bounded_queue (cap cf)) q st q st' → stat g p' st' → good g pcs q t st s' p'.
Proof.
  intros (Hw & Hc & Ht & Hq) Hn Hw' Hc' Hp Hf Hk Hm Hst. exists g, q, st'.
  split; [done|]. split; [|by split]. split; [done|]. rewrite Hc'. split; [done|]. split; [|done].
  apply threads_local; try done. left. by eapply th_lt.
Qed.

Lemma good_quiet g s pcs q t st s' p' st' :
  Inv g s pcs q → pcs t ≠ PcIdle → words_ok g s' → cells s' = cells s →
  fvals (pcs t) = [] → tcount (pcs t) = 0 → fvals p' = [] → tcount p' = 0 → cur p' = None →
  words_of p' → split_ok g t p' →
  lmove (bounded_queue (cap cf)) q st q st' → stat g p' st' → good g pcs q t st s' p'.
Proof.
  intros HI Hn Hw' Hc' Hf Hk Hf' Hk' Hcur Hwo Hsp Hm Hst. eapply good_local; try done.
  - by apply pc_ok_quiet.
  - intros i v. split; intros Hx; by apply fill_at_nil in Hx.
  - intros i. split; intros Hx; by apply take_at_nil in Hx.
Qed.

(** A step that takes [dh] tickets to pop and one to push for each of [ws]. *)
Lemma claim_ok g t ws dh p' cs :
  cells_ok g cs → 0 ≤ npop g → 0 ≤ dh → npop g + dh ≤ npush g → npush g - npop g ≤ cap cf →
  npush g + Z.of_nat (length ws) - (npop g + dh) ≤ cap cf →
  words_of p' → cur p' = None → split_ok (claim g ws dh) t p' →
  fvals p' = ws → (ws ≠ [] → fstart p' = npush g) → tcount p' = dh → (dh ≠ 0 → tstart p' = npop g) →
  pc_ok (claim g ws dh) t p'.
Proof.
  intros Hc H0 Hdh Hle Hcap Hcap' Hw Hcur Hs Hf Hf' Ht Ht'. pose proof R_bounds as HR. pose proof (ok_cap Hok) as Hok1. fold R in Hok1.
  split; try done.
  - by rewrite Hcur.
  - intros i v [Hi Hv]. assert (fstart p' = npush g) as Hfs by (apply Hf'; intros ->; by rewrite Hf in Hv).
    rewrite Hf, Hfs in *. rewrite npush_claim. pose proof (lookup_lt_Some _ _ _ Hv).
    split; [lia|]. split; [simpl; rewrite lookup_app_r; [rewrite <-Hv; f_equal|]; unfold npush in *; lia|].
    simpl. split.
    + apply (cell_not_past (claim g ws dh) cs); [by apply cells_claim|]. simpl. lia.
    + intros Hx. left. destruct (snd (gcell g (idx i))) eqn:E; try done;
        destruct (ce_phase _ _ Hc _ (idx_lt i)) as [Hy _]; rewrite Hx, E in Hy; exfalso; (assert (i < npush g) by (by apply Hy)); lia.
  - intros i [Hi Hi']. rewrite Ht in Hi'. assert (tstart p' = npop g) as Hts by (apply Ht'; lia). rewrite Hts in *. simpl. split; [lia|]. split.
    + apply (cell_not_past g cs); [done|]. lia.
    + intros Hx. left. intros E. destruct (ce_phase _ _ Hc _ (idx_lt i)) as [_ Hy]. rewrite Hx in Hy. specialize (Hy E). lia.
  - rewrite Hf, Ht. lia.
Qed.

Lemma good_claim g s pcs q t st s' p' st' ws dh :
  Inv g s pcs q → pcs t ≠ PcIdle → fvals (pcs t) = [] → words_ok (claim g ws dh) s' → cells s' = cells s →
  0 ≤ dh → npop g + dh ≤ npush g → words_of p' → cur p' = None →
  (∀ u, split_ok (claim g ws dh) u (<[t:=p']> pcs u)) →
  fvals p' = ws → (ws ≠ [] → fstart p' = npush g) → tcount p' = dh → (dh ≠ 0 → tstart p' = npop g) →
  lmove (bounded_queue (cap cf)) q st (drop (Z.to_nat (npop g + dh)) (vals g ++ ws)) st' →
  stat (claim g ws dh) p' st' → good g pcs q t st s' p'.
Proof.
  intros (Hw & Hc & Ht & Hq) Hn Hf Hw' Hc' Hdh Hle Hwo Hcur Hsp Hf' Hfs Hk Hks Hm Hst.
  pose proof (wo_range _ _ Hw) as Hr. pose proof (wo_range _ _ Hw') as Hr'. rewrite npush_claim in Hr'. simpl in Hr'.
  pose proof (Hsp t) as Hspt. rewrite fn_insert_eq in Hspt.
  assert (pc_ok (claim g ws dh) t p') as Hpc by (apply (claim_ok _ _ _ _ p' (cells s)); try done; lia).
  exists (claim g ws dh), (drop (Z.to_nat (npop g + dh)) (vals g ++ ws)), st'. split; [done|].
  split; [split; [done|rewrite Hc'; split; [by apply cells_claim|split; [|done]]]|split; [done|]].
  - apply (threads_claim g); try done; [lia|..|by eapply th_lt].
    + intros u Hu. specialize (Hsp u). by rewrite fn_insert_ne in Hsp.
    + intros i v. unfold fill_at. rewrite Hf'. destruct (decide (ws = [])) as [->|Hne]; [split; by intros [_ ?]|]. by rewrite Hfs.
    + intros i [Hi Hi']. rewrite Hk in Hi'. rewrite Hks in Hi by lia. lia.
  - intros u st0 Hu. apply (stat_claim _ _ _ u); [done|lia|by apply th_pc].
Qed.

(** A step that moves the cell of a ticket it holds. *)
Lemma good_phase g s pcs q t st s' p' x :
  Inv g s pcs q → pcs t ≠ PcIdle → words_ok g s' → cells s' = <[idx (fst x):=cell_of g x]> (cells s) →
  0 ≤ fst x < npop g + R → (snd x ≠ Free → fst x < npush g) → (snd x = Emptied → fst x < npop g) →
  (∀ u, u ≠ t → sees (pcs u) x) → pc_ok (phase_to g x) t p' →
  (∀ i v, fill_at p' i v → fill_at (pcs t) i v) → (∀ i, take_at p' i → take_at (pcs t) i) →
  (∀ i, 0 ≤ i < npush g → unfilled (phase_to g x) i → unfilled g i) →
  (∀ i v, unfilled (phase_to g x) i → fill_at (pcs t) i v → fill_at p' i v) →
  stat g p' st → good g pcs q t st s' p'.
Proof.
  intros (Hw & Hc & Ht & Hq) Hn Hw' Hc' Hx1 Hx2 Hx3 Hsee Hpc Hf Hk Hu Hu' Hst.
  exists (phase_to g x), q, st. split; [constructor|].
  split; [split; [by destruct Hw'; split|rewrite Hc'; split; [by apply cells_phase|split; [|done]]]|split; [|]].
  - apply (threads_upd g); try done; [..|left; by eapply th_lt].
    + intros u Hne. apply pc_ok_phase; [by apply th_pc|by apply Hsee].
    + intros u i v w Hne Hv Hv'. apply Hf in Hv. by eapply th_fill.
    + intros u i Hne Hv Hv'. apply Hk in Hv. by eapply th_take.
    + intros i Hi Hun. destruct (th_cover _ _ Ht i Hi (Hu i Hi Hun)) as (u & v & Hv).
      destruct (decide (u = t)) as [->|]; [left; eauto|right; eauto].
  - by destruct p'.
  - intros u st0 _. by destruct (pcs u).
Qed.

(** ** The packed layout *)

Lemma packed_words g s : words_ok g s → packed cf = true →
  headOf (state_ s) = u32 (npop g) ∧ tailOf (state_ s) = u32 (npush g) ∧
  (tailOf (state_ s) ⊖₃₂ headOf (state_ s)) = npush g - npop g.
Proof.
  intros [_ _ Hr Hp _ _] E. rewrite (Hp E). rewrite pack_head, pack_tail by auto with wtc. split_and!; try done.
  pose proof R_bounds. pose proof (ok_cap Hok). fold R in *. apply u32_sub_small. lia.
Qed.

Lemma q_length g s pcs q : Inv g s pcs q → Z.of_nat (length q) = npush g - npop g.
Proof. intros (Hw & _ & _ & ->). pose proof (wo_range _ _ Hw). rewrite length_drop. unfold npush in *. lia. Qed.

Lemma words_claim_packed g s ws dh w' :
  words_ok g s → packed cf = true → 0 ≤ dh → npop g + dh ≤ npush g →
  npush g + Z.of_nat (length ws) - (npop g + dh) ≤ cap cf →
  w' = pack (u32 (npop g + dh)) (u32 (npush g + Z.of_nat (length ws))) →
  words_ok (claim g ws dh) (set_state s w' dh (Z.of_nat (length ws))).
Proof.
  intros [H1 H2 H3 H4 H5 H6] E Hdh Hle Hcap ->. split; rewrite ?npush_claim; simpl; try done; try lia. by rewrite E.
Qed.

Lemma split_ok_packed g t p : packed cf = true → words_of p → split_ok g t p.
Proof. intros E. destruct p; simpl; try done; rewrite E; intros; by destruct_and?. Qed.

Lemma split_ok_claim g ws dh t p' pcs : packed cf = true → threads_ok g pcs → words_of p' →
  ∀ u, split_ok (claim g ws dh) u (<[t:=p']> pcs u).
Proof.
  intros E H Hw u. apply split_ok_packed; [done|]. by_thread t u; [done|]. apply (pk_words _ _ _ (th_pc _ _ H u)).
Qed.

Section one_step.
Context (g : ghost) (s : @ring T) (pcs : nat → @pc T) (q : list T) (t : nat).
Context (HI : Inv g s pcs q) (Hn : pcs t ≠ PcIdle).

Lemma good_done (o : @op T) ws r :
  fvals (pcs t) = [] → tcount (pcs t) = 0 → sp_step (bounded_queue (cap cf)) q o r q →
  good g pcs q t (ICalled o ws) s (PcDone r).
Proof.
  intros Hf Ht Hs. pose proof HI as (Hw & _). eapply good_quiet; try done. by apply lmove_lin.
Qed.

Lemma step_push_decide v ws : packed cf = true → fvals (pcs t) = [] → tcount (pcs t) = 0 →
  good g pcs q t (ICalled (TryPush v) ws) s (push_decide cf v (state_ s)).
Proof.
  intros E Hf Ht. pose proof HI as (Hw & _). destruct (packed_words _ _ Hw E) as (H1 & H2 & H3).
  pose proof (q_length _ _ _ _ HI) as Hl. unfold push_decide. destruct (Z.leb_spec (cap cf) (tailOf (state_ s) ⊖₃₂ headOf (state_ s))).
  - apply good_done; try done. simpl. destruct (Z.ltb_spec (Z.of_nat (length q)) (cap cf)); [lia|done].
  - eapply good_quiet; try done; [constructor|]. by eexists.
Qed.

Lemma step_push_claim v ws w : words_of (PushCas v w) → fvals (pcs t) = [] → state_ s = w →
  good g pcs q t (ICalled (TryPush v) ws) (set_state s (pack (headOf w) (tailOf w ⊕₃₂ 1)) 0 1)
    (Fill (tailOf w) (pushes s) v [] (RBool true)).
Proof.
  intros [Hlt E] Hf <-. pose proof HI as (Hw & _ & Ht & Hq). destruct (packed_words _ _ Hw E) as (H1 & H2 & H3).
  pose proof (q_length _ _ _ _ HI) as Hl. pose proof (wo_range _ _ Hw). rewrite H3 in Hlt.
  rewrite (wo_pushes _ _ Hw). eapply (good_claim _ _ _ _ _ _ _ _ _ [v] 0); try done.
  - apply (words_claim_packed g s [v] 0); try done; simpl; try lia. rewrite H1, H2, u32_add_l. f_equal; f_equal; lia.
  - lia.
  - apply split_ok_claim; try done.
  - eapply lmove_lin. simpl. destruct (Z.ltb_spec (Z.of_nat (length q)) (cap cf)); [|lia]. split; [done|].
    rewrite Hq, Z.add_0_r, drop_app_snoc; [done|]. unfold npush in *. lia.
Qed.

Lemma step_pop_decide ws : packed cf = true → fvals (pcs t) = [] → tcount (pcs t) = 0 →
  good g pcs q t (ICalled Consume ws) s (pop_decide (state_ s)).
Proof.
  intros E Hf Ht. pose proof HI as (Hw & _). destruct (packed_words _ _ Hw E) as (H1 & H2 & H3).
  pose proof (q_length _ _ _ _ HI) as Hl. unfold pop_decide. destruct (Z.eqb_spec (headOf (state_ s)) (tailOf (state_ s))) as [Ee|].
  - apply good_done; try done. simpl. rewrite Ee, Z.sub_diag in H3. destruct q; [done|]. simpl in Hl. unfold u32 in H3. rewrite Z.mod_0_l in H3; lia.
  - eapply good_quiet; try done; [constructor|]. by eexists.
Qed.

(** A claim of [n] pops hands out the [n] oldest elements. *)
Lemma rest_head dh n : Z.to_nat dh = n → 0 ≤ dh → rest (claim g [] dh) (npop g) n = take n q.
Proof. intros <- Hd. destruct HI as (_ & _ & _ & ->). unfold rest. simpl. by rewrite app_nil_r. Qed.

Lemma drop_claim dh : 0 ≤ dh → drop (Z.to_nat (npop g + dh)) (vals g ++ []) = drop (Z.to_nat dh) q.
Proof.
  intros Hd. destruct HI as (Hw & _ & _ & ->). pose proof (wo_range _ _ Hw).
  rewrite app_nil_r, drop_drop. f_equal. lia.
Qed.

Lemma drop_claim1 : drop (Z.to_nat (npop g + 1)) (vals g) = tail q.
Proof. pose proof (drop_claim 1 ltac:(lia)) as E. rewrite app_nil_r in E. rewrite E. by destruct q. Qed.

Lemma step_pop_claim ws w : words_of (PopCas w) → fvals (pcs t) = [] → state_ s = w →
  good g pcs q t (ICalled Consume ws) (set_state s (pack (headOf w ⊕₃₂ 1) (tailOf w)) 1 0) (Take (headOf w) (pops s) 0 [] ThenPop).
Proof.
  intros [Hne E] Hf <-. pose proof HI as (Hw & _ & Ht & Hq). destruct (packed_words _ _ Hw E) as (H1 & H2 & H3).
  pose proof (wo_range _ _ Hw). rewrite H1, H2 in Hne. assert (npop g < npush g) by (destruct (Z.eq_dec (npop g) (npush g)); [congruence|lia]).
  rewrite (wo_pops _ _ Hw). eapply (good_claim _ _ _ _ _ _ _ _ _ [] 1); try done.
  - apply (words_claim_packed g s [] 1); try done; simpl; try lia. rewrite H1, H2, u32_add_l. f_equal; f_equal; lia.
  - lia.
  - apply split_ok_claim; try done.
  - rewrite app_nil_r, drop_claim1. eapply lmove_lin. simpl.
    rewrite (rest_head 1) by done. by destruct q.
Qed.

Lemma step_over_claim v ws w : packed cf = true → cap cf ≠ 0 → fvals (pcs t) = [] → state_ s = w →
  let full := cap cf <=? (tailOf w ⊖₃₂ headOf w) in
  good g pcs q t (ICalled (PushOverrun v) ws)
    (set_state s (pack (if full then headOf w ⊕₃₂ 1 else headOf w) (tailOf w ⊕₃₂ 1)) (if full then 1 else 0) 1)
    (if full then Take (headOf w) (pops s) 0 [] (ThenFill v (tailOf w) (pushes s)) else Fill (tailOf w) (pushes s) v [] (RBool false)).
Proof.
  intros E Hcap Hf <- full. pose proof HI as (Hw & _ & Ht & Hq). destruct (packed_words _ _ Hw E) as (H1 & H2 & H3).
  pose proof (q_length _ _ _ _ HI) as Hl. pose proof (wo_range _ _ Hw) as Hr. pose proof (ok_cap Hok).
  unfold full. rewrite H3. destruct (Z.leb_spec (cap cf) (npush g - npop g)) as [Hfu|Hfu].
  - rewrite (wo_pops _ _ Hw), (wo_pushes _ _ Hw). eapply (good_claim _ _ _ _ _ _ _ _ _ [v] 1); try done.
    + apply (words_claim_packed g s [v] 1); try done; simpl; try lia. by rewrite H1, H2, !u32_add_l.
    + lia.
    + apply split_ok_claim; try done.
    + eapply lmove_lin. simpl. destruct (Z.eqb_spec (cap cf) 0); [lia|].
      destruct (Z.ltb_spec (Z.of_nat (length q)) (cap cf)); [lia|]. split; [done|].
      rewrite drop_app_snoc by (unfold npush in *; lia). f_equal. apply drop_claim1.
  - rewrite (wo_pushes _ _ Hw). eapply (good_claim _ _ _ _ _ _ _ _ _ [v] 0); try done.
    + apply (words_claim_packed g s [v] 0); try done; simpl; try lia. rewrite H1, H2, u32_add_l. f_equal; f_equal; lia.
    + lia.
    + apply split_ok_claim; try done.
    + eapply lmove_lin. simpl. destruct (Z.eqb_spec (cap cf) 0); [lia|].
      destruct (Z.ltb_spec (Z.of_nat (length q)) (cap cf)); [|lia]. split; [done|].
      rewrite Hq, Z.add_0_r, drop_app_snoc; [done|]. unfold npush in *. lia.
Qed.

Lemma step_batch_decide vs ws : packed cf = true → vs ≠ [] → fvals (pcs t) = [] → tcount (pcs t) = 0 →
  good g pcs q t (ICalled (TryPushN vs) ws) s (batch_decide cf vs (state_ s)).
Proof.
  intros E Hvs Hf Ht. pose proof HI as (Hw & _). destruct (packed_words _ _ Hw E) as (H1 & H2 & H3).
  pose proof (q_length _ _ _ _ HI) as Hl. pose proof (wo_range _ _ Hw). pose proof (ok_cap Hok). pose proof R_bounds. fold R in *.
  unfold batch_decide. rewrite H3. destruct (Z.leb_spec (cap cf) (npush g - npop g)).
  - apply good_done; try done. simpl. rewrite Z.min_r by lia. rewrite Z2Nat.nonpos, take_0, app_nil_r by lia.
    split; [f_equal; lia|done].
  - assert (u32 (cap cf - (npush g - npop g)) = cap cf - (npush g - npop g)) as Hu by (apply u32_small; lia). rewrite Hu.
    eapply good_quiet; try done; [|constructor|by eexists]. simpl. rewrite H3. split_and!; try done.
    destruct (Z.ltb_spec (Z.of_nat (length vs)) (cap cf - (npush g - npop g))); rewrite u32_small; lia.
Qed.

Lemma step_batch_claim vs ws w n : words_of (BatchCas vs w n) → fvals (pcs t) = [] → state_ s = w →
  good g pcs q t (ICalled (TryPushN vs) ws) (set_state s (pack (headOf w) (tailOf w ⊕₃₂ n)) 0 n)
    (fill_all (tailOf w) (pushes s) (take (Z.to_nat n) vs) (RNum n)).
Proof.
  intros (Hlt & Hk & Hne & E) Hf <-. pose proof HI as (Hw & _ & Ht & Hq). destruct (packed_words _ _ Hw E) as (H1 & H2 & H3).
  pose proof (q_length _ _ _ _ HI) as Hl. pose proof (wo_range _ _ Hw). rewrite H3 in *.
  assert (Z.of_nat (length (take (Z.to_nat n) vs)) = n) as Hn1 by (rewrite length_take; destruct vs; [done|simpl in *; lia]).
  assert (sp_step (bounded_queue (cap cf)) q (TryPushN vs) (RNum n) (q ++ take (Z.to_nat n) vs)) as Hstep.
  { simpl. rewrite Hl, <-Hk. done. }
  rewrite (wo_pushes _ _ Hw). unfold fill_all. destruct (take (Z.to_nat n) vs) as [|v vs'] eqn:Et; [simpl in Hn1; destruct vs; [done|simpl in *; lia]|].
  eapply (good_claim _ _ _ _ _ _ _ _ _ (v :: vs') 0); try done.
  - rewrite <-Hn1. apply (words_claim_packed g s (v :: vs') 0); try done; try lia. rewrite Hn1, H1, H2, u32_add_l. f_equal; f_equal; lia.
  - lia.
  - apply split_ok_claim; try done.
  - eapply lmove_lin. rewrite Z.add_0_r, drop_app_le, <-Hq; [done|]. unfold npush in *. lia.
Qed.

Lemma step_batch_pop_decide n ws : packed cf = true → n ≠ 0%nat → fvals (pcs t) = [] → tcount (pcs t) = 0 →
  good g pcs q t (ICalled (ConsumeN n) ws) s (batch_pop_decide n (state_ s)).
Proof.
  intros E Hn0 Hf Ht. pose proof HI as (Hw & _). destruct (packed_words _ _ Hw E) as (H1 & H2 & H3).
  pose proof (q_length _ _ _ _ HI) as Hl. pose proof (wo_range _ _ Hw). pose proof (ok_cap Hok). pose proof R_bounds. fold R in *.
  unfold batch_pop_decide. rewrite H3. destruct (Z.eqb_spec (npush g - npop g) 0).
  - apply good_done; try done. simpl. destruct q; [|simpl in Hl; lia]. by rewrite take_nil, drop_nil.
  - eapply good_quiet; try done; [|constructor|by eexists]. simpl. rewrite H3. split_and!; try done.
    destruct (Z.ltb_spec (Z.of_nat n) (npush g - npop g)); rewrite u32_small; lia.
Qed.

Lemma step_batch_pop_claim n ws w m : words_of (BatchPopCas n w m) → fvals (pcs t) = [] → state_ s = w →
  good g pcs q t (ICalled (ConsumeN n) ws) (set_state s (pack (headOf w ⊕₃₂ m) (tailOf w)) m 0)
    (Take (headOf w) (pops s) (Z.to_nat m - 1) [] ThenPops).
Proof.
  intros (Hk & Hne & Hn0 & E) Hf <-. pose proof HI as (Hw & _ & Ht & Hq). destruct (packed_words _ _ Hw E) as (H1 & H2 & H3).
  pose proof (q_length _ _ _ _ HI) as Hl. pose proof (wo_range _ _ Hw). rewrite H3 in *.
  rewrite (wo_pops _ _ Hw). eapply (good_claim _ _ _ _ _ _ _ _ _ [] m); try done.
  - apply (words_claim_packed g s [] m); try done; simpl; try lia. rewrite H1, H2, u32_add_l. f_equal; f_equal; lia.
  - lia.
  - lia.
  - apply split_ok_claim; try done.
  - simpl. lia.
  - rewrite drop_claim by lia. eapply lmove_lin. simpl.
    replace (S (Z.to_nat m - 1)) with (Z.to_nat m) by lia. rewrite (rest_head m) by lia.
    destruct (Z_le_gt_dec (Z.of_nat n) (Z.of_nat (length q))).
    + replace (Z.to_nat m) with n by lia. done.
    + rewrite !take_ge, !drop_ge by lia. done.
Qed.

(** ** The split layout *)

Lemma split_ok_push v u p : (mp cf = true ∨ t = P) → u ≠ t → split_ok g u p → split_ok (claim g [v] 0) u p.
Proof.
  intros Hmp Hu. destruct p; simpl; rewrite ?npush_claim; simpl; try done; intros; destruct_and?; split_and?; try done; try lia;
    repeat match goal with H : _ ∨ _ |- _ => destruct H; destruct_and? end; try (left; done); try (by subst); try (right; split; [done|lia]).
Qed.

Lemma split_ok_pop u p : (mc cf = true ∨ t = C) → u ≠ t → split_ok g u p → split_ok (claim g [] 1) u p.
Proof.
  intros Hmp Hu. destruct p; simpl; rewrite ?npush_claim; simpl; try done; intros; destruct_and?; split_and?; try done; try lia;
    repeat match goal with H : _ ∨ _ |- _ => destruct H; destruct_and? end; try (left; done); try (by subst); try (right; split; [done|lia]).
Qed.

Lemma step_split_claim v ws w i : pcs t = SplitTake v w i → (mp cf = false ∨ (tail_ s = w ∧ pushes s - i < 2 ^ 32)) →
  good g pcs q t (ICalled (TryPush v) ws) (set_tail s (w ⊕₃₂ 1)) (Fill w (pushes s) v [] (RBool true)).
Proof.
  intros Hp Hcas. pose proof HI as (Hw & _ & Ht & Hq). pose proof (th_pc _ _ Ht t) as Hpc. rewrite Hp in Hpc.
  destruct (pk_words _ _ _ Hpc) as [-> E]. destruct (pk_split _ _ _ Hpc) as (Hi & Hmp & Hlt). simpl in Hi, Hmp, Hlt.
  destruct (wo_split _ _ Hw E) as (W1 & W2 & W3 & W4). pose proof (wo_pushes _ _ Hw) as Hpu. pose proof (q_length _ _ _ _ HI) as Hl. pose proof (wo_range _ _ Hw).
  assert (i = npush g) as ->.
  { destruct Hmp as [Hmp|[_ ?]]; [|done]. destruct Hcas as [?|[Hx Hy]]; [congruence|]. apply u32_inj_near; [lia|congruence]. }
  rewrite Hpu. eapply (good_claim _ _ _ _ _ _ _ _ _ [v] 0); try done; [by rewrite Hp|..].
  - split; rewrite ?npush_claim; simpl; try lia; [apply (wo_pops _ _ Hw) || (rewrite (wo_pops _ _ Hw); lia)|by rewrite E| |apply (wo_bad _ _ Hw)].
    intros _. rewrite W1, u32_add_l. split_and!; [f_equal; lia|done|done|lia].
  - lia.
  - intros u. by_thread t u; [done|]. apply split_ok_push; [destruct Hmp as [|[-> _]]; auto|done|]. apply (pk_split _ _ _ (th_pc _ _ Ht u)).
  - eapply lmove_lin. simpl. destruct (Z.ltb_spec (Z.of_nat (length q)) (cap cf)); [|lia]. split; [done|].
    rewrite Hq, Z.add_0_r, drop_app_snoc; [done|]. unfold npush in *. lia.
Qed.

Lemma step_split_pop_claim ws w i : pcs t = PopTake w i → (mc cf = false ∨ (head_ s = w ∧ pops s - i < 2 ^ 32)) →
  good g pcs q t (ICalled Consume ws) (set_head s (w ⊕₃₂ 1)) (Take w (pops s) 0 [] ThenPop).
Proof.
  intros Hp Hcas. pose proof HI as (Hw & _ & Ht & Hq). pose proof (th_pc _ _ Ht t) as Hpc. rewrite Hp in Hpc.
  destruct (pk_words _ _ _ Hpc) as [-> E]. destruct (pk_split _ _ _ Hpc) as (Hi & Hlt & Hmc). simpl in Hi, Hmc, Hlt.
  destruct (wo_split _ _ Hw E) as (W1 & W2 & W3 & W4). pose proof (wo_pops _ _ Hw) as Hpo. pose proof (wo_range _ _ Hw).
  assert (i = npop g) as ->.
  { destruct Hmc as [Hmc|[_ ?]]; [|done]. destruct Hcas as [?|[Hx Hy]]; [congruence|]. apply u32_inj_near; [lia|congruence]. }
  rewrite Hpo. eapply (good_claim _ _ _ _ _ _ _ _ _ [] 1); try done; [by rewrite Hp|..].
  - split; rewrite ?npush_claim; simpl; try lia; [rewrite (wo_pushes _ _ Hw); lia|by rewrite E| |apply (wo_bad _ _ Hw)].
    intros _. rewrite u32_add_l. split_and!; [done|rewrite W2; f_equal; lia|done|lia].
  - lia.
  - intros u. by_thread t u; [done|]. apply split_ok_pop; [destruct Hmc as [|[-> _]]; auto|done|]. apply (pk_split _ _ _ (th_pc _ _ Ht u)).
  - rewrite app_nil_r, drop_claim1. eapply lmove_lin. simpl. rewrite (rest_head 1) by done. by destruct q.
Qed.

(** ** Cells *)

Lemma cell_read i : cells s !! cell_index cf (u32 i) = Some (cell_of g (gcell g (idx i))).
Proof. destruct HI as (_ & Hc & _). rewrite cell_index_u32. apply (ce_cell _ _ Hc), idx_lt. Qed.

Lemma lag_small i : 0 ≤ i < npush g → fst (gcell g (idx i)) ≤ i → i - fst (gcell g (idx i)) ≤ 2 ^ 32 - 2.
Proof.
  intros Hi Hl. destruct HI as (Hw & Hc & Ht & _). pose proof (wo_range _ _ Hw).
  pose proof (lag_bound _ _ _ i Ht Hc ltac:(lia) Hi Hl). pose proof (ok_threads Hok). fold R in *. lia.
Qed.

(** A push that finds its ticket in the cell's word has the cell. *)
Lemma fill_turn w i v vs r : pcs t = Fill w i v vs r → seq (cell_of g (gcell g (idx i))) = w → gcell g (idx i) = (i, Free).
Proof.
  intros Hp Hs. destruct HI as (Hw & Hc & Ht & _). pose proof (th_pc _ _ Ht t) as Hpc. rewrite Hp in Hpc.
  pose proof (pk_words _ _ _ Hpc) as Hwd. simpl in Hwd. subst w.
  destruct (pk_fill _ _ _ Hpc i v) as (Hi & _ & Hle & Hfr); [split; [done|by rewrite Z.sub_diag]|].
  pose proof (lag_small i Hi Hle) as Hlag. destruct (ce_mod _ _ Hc _ (idx_lt i)) as [Hm _].
  pose proof R_bounds. destruct (gcell g (idx i)) as [c ph]. simpl in *.
  assert (ph = Free ∨ ph = Written → c = i) as Hsame.
  { intros Hph. apply u32_inj_near; [lia|]. by destruct Hph as [->| ->]. }
  assert (ph = Full ∨ ph = Emptied → False) as Hdiff.
  { intros Hph. assert (c + 1 = i) as <- by (apply u32_inj_near; [lia|]; by destruct Hph as [->| ->]).
    apply idx_inj, mod_eq_near in Hm; lia. }
  destruct ph; [|..|by destruct Hdiff; auto|by destruct Hdiff; auto]; rewrite Hsame in * by auto; [done|].
  by destruct (Hfr eq_refl).
Qed.

(** A pop that finds its ticket's successor in the cell's word has the element. *)
Lemma take_turn h i n acc a : pcs t = Take h i n acc a → seq (cell_of g (gcell g (idx i))) = (h ⊕₃₂ 1) → gcell g (idx i) = (i, Full).
Proof.
  intros Hp Hs. destruct HI as (Hw & Hc & Ht & _). pose proof (th_pc _ _ Ht t) as Hpc. rewrite Hp in Hpc.
  destruct (pk_words _ _ _ Hpc) as [Hwd _]. simpl in Hwd. subst h. rewrite u32_add_l in Hs.
  destruct (pk_take _ _ _ Hpc i) as (Hi & Hle & Hfr); [unfold take_at; simpl; lia|].
  pose proof (wo_range _ _ Hw). pose proof (lag_small i ltac:(lia) Hle) as Hlag.
  destruct (gcell g (idx i)) as [c ph]. simpl in *.
  destruct ph; simpl in Hs; apply u32_inj_near in Hs; try lia.
  - f_equal. lia.
  - destruct Hfr as [?|?]; try done. lia.
Qed.

Lemma words_set_cell c x : words_ok g s → words_ok g (set_cell s c x).
Proof. intros [? ? ? ? ? ?]. by split. Qed.

Lemma pc_lookup p : pcs t = p → pc_ok g t p.
Proof. intros <-. destruct HI as (_ & _ & Ht & _). apply th_pc, Ht. Qed.

Lemma unfilled_past x j : gcell g (idx (fst x)) = (fst x, snd (gcell g (idx (fst x)))) → snd x = Written ∨ snd x = Full →
  (snd x = Written → snd (gcell g (idx (fst x))) = Free) →
  unfilled (phase_to g x) j → unfilled g j.
Proof.
  intros Hg Hx Hx' [H1 H2]. simpl in *. unfold unfilled. by_cell (idx (fst x)) (idx j); [|by rewrite !fn_insert_ne in * by done].
  rewrite <-E, fn_insert_eq in H1, H2. rewrite Hg. simpl. split; [done|]. intros Hj. destruct (H2 Hj) as [Ha|Ha]; rewrite Ha in Hx, Hx'.
  - by destruct Hx.
  - left. by apply Hx'.
Qed.

Lemma step_fill w i v vs r st c : pcs t = Fill w i v vs r → stat g (pcs t) st → cells s !! cell_index cf w = Some c →
  good g pcs q t st s (if seq c =? w then FillWrite w i v vs r else Fill w i v vs r).
Proof.
  intros Hp Hst Hc. pose proof HI as (Hw & _). pose proof (pc_lookup _ Hp) as Hpc. rewrite Hp in Hst.
  pose proof (pk_words _ _ _ Hpc) as Hwd. simpl in Hwd. rewrite Hwd, cell_read in Hc. simplify_eq.
  destruct (Z.eqb_spec (seq (cell_of g (gcell g (idx i)))) (u32 i)) as [E|E].
  - pose proof (fill_turn _ _ _ _ _ Hp E) as Hg. eapply good_local; try done; rewrite ?Hp; try done; [|constructor].
    destruct Hpc as [P1 P2 P3 P4 P5 P6]. split; try done; simpl.
    + by intros x [= <-].
    + intros j u Hj. destruct (P4 j u Hj) as (A & B & D1 & D2). split_and!; try done; try lia. intros Hx. destruct (D2 Hx); [by left|done].
    + intros j Hj. exfalso. unfold take_at in Hj. simpl in Hj. lia.
  - eapply good_local; try done; rewrite ?Hp; try done. constructor.
Qed.

Lemma fill_run_near p i j v w : fill_at p i v → fill_at p j w → idx j = idx i → pc_ok g t p → j = i.
Proof.
  intros Hi Hj E%idx_inj Hpc. pose proof R_bounds. pose proof (fill_at_near _ _ _ _ _ (proj1 (pk_run _ _ _ Hpc)) Hi Hj).
  apply mod_eq_near in E; lia.
Qed.

Lemma take_run_near p i j : take_at p i → take_at p j → idx j = idx i → pc_ok g t p → j = i.
Proof.
  intros [Hi Hi'] [Hj Hj'] E%idx_inj Hpc. pose proof R_bounds. pose proof (proj2 (pk_run _ _ _ Hpc)).
  apply mod_eq_near in E; lia.
Qed.

Lemma step_fill_write w i v vs r st : pcs t = FillWrite w i v vs r → stat g (pcs t) st →
  cells s !! cell_index cf w = Some (Cell (u32 i) None) ∧
  good g pcs q t st (set_cell s (cell_index cf w) (Cell (u32 i) (Some v))) (FillStore w i v vs r).
Proof.
  intros Hp Hst. pose proof HI as (Hw & Hce & Ht & _). pose proof (pc_lookup _ Hp) as Hpc. rewrite Hp in Hst.
  pose proof (pk_words _ _ _ Hpc) as Hwd. simpl in Hwd. subst w.
  pose proof (pk_cur _ _ _ Hpc _ eq_refl) as Hg. simpl in Hg.
  assert (fill_at (FillWrite (u32 i) i v vs r) i v) as Hfi by (split; [done|by rewrite Z.sub_diag]).
  destruct (pk_fill _ _ _ Hpc i v Hfi) as (Hi & Hvi & _). destruct (ce_mod _ _ Hce _ (idx_lt i)) as [_ Hr]. rewrite Hg in Hr. simpl in Hr.
  split; [rewrite cell_read, Hg; done|].
  eapply (good_phase _ _ _ _ _ _ _ _ (i, Written)); try done; rewrite ?Hp; try done.
  - by apply words_set_cell.
  - simpl. unfold cell_of. simpl. by rewrite cell_index_u32, Hvi.
  - intros _. simpl. lia.
  - intros u Hu. eapply (sees_fill g pcs t); eauto. by rewrite Hp.
  - eapply pc_ok_phase_self; try done; simpl; try lia; [..|by intros y [= <-]].
    + split_and!; simpl.
      * intros j u Hj E. assert (j = i) as -> by (by eapply (fill_run_near (FillWrite (u32 i) i v vs r))). split; [done|]. auto.
      * intros j Hj. exfalso. unfold take_at in Hj. simpl in Hj. lia.
      * by intros y [= <-].
    + by intros y [= <-].
  - intros j _ Hu. eapply (unfilled_past (i, Written)); simpl; rewrite ?Hg; auto.
Qed.

Lemma step_fill_store w i v vs r st c : pcs t = FillStore w i v vs r → stat g (pcs t) st → cells s !! cell_index cf w = Some c →
  good g pcs q t st (set_cell s (cell_index cf w) (Cell (w ⊕₃₂ 1) (raw c))) (fill_all (w ⊕₃₂ 1) (i + 1) vs r).
Proof.
  intros Hp Hst Hc. pose proof HI as (Hw & Hce & Ht & _). pose proof (pc_lookup _ Hp) as Hpc. rewrite Hp in Hst.
  pose proof (pk_words _ _ _ Hpc) as Hwd. simpl in Hwd. subst w. rewrite u32_add_l.
  pose proof (pk_cur _ _ _ Hpc _ eq_refl) as Hg. simpl in Hg. rewrite cell_read, Hg in Hc. simplify_eq/=.
  set (p0 := FillStore (u32 i) i v vs r) in *.
  assert (fill_at p0 i v) as Hfi by (split; [done|simpl; by rewrite Z.sub_diag]).
  destruct (pk_fill _ _ _ Hpc i v Hfi) as (Hi & Hvi & _). destruct (ce_mod _ _ Hce _ (idx_lt i)) as [_ Hr]. rewrite Hg in Hr. simpl in Hr.
  set (p' := fill_all (u32 (i + 1)) (i + 1) vs r).
  assert (fvals p' = vs ∧ tcount p' = 0 ∧ cur p' = None ∧ words_of p' ∧ (vs ≠ [] → fstart p' = i + 1) ∧ split_ok g t p' ∧ stat g p' (IDone r)) as (F1 & F2 & F3 & F4 & F5 & F6 & F7)
    by (unfold p', fill_all; destruct vs; simpl; split_and!; done).
  assert (∀ j u, fill_at p' j u ↔ fill_at p0 j u ∧ j ≠ i) as Hf.
  { intros j u. unfold fill_at. rewrite F1. destruct (decide (vs = [])) as [->|Hne].
    - split; [by intros [_ ?]|]. intros [[Hj Hu] Hji]. simpl in *. destruct (Z.to_nat (j - i)) eqn:E; [lia|done].
    - rewrite F5 by done. simpl. split.
      + intros [Hj Hu]. split; [|lia]. split; [lia|]. replace (Z.to_nat (j - i)) with (S (Z.to_nat (j - (i + 1)))) by lia. done.
      + intros [[Hj Hu] Hji]. split; [lia|]. replace (Z.to_nat (j - i)) with (S (Z.to_nat (j - (i + 1)))) in Hu by lia. done. }
  eapply (good_phase _ _ _ _ _ _ _ _ (i, Full)); try done; rewrite ?Hp; fold p0.
  - by apply words_set_cell.
  - simpl. unfold cell_of. simpl. by rewrite cell_index_u32.
  - simpl. lia.
  - intros u Hu. eapply (sees_fill g pcs t); eauto. by rewrite Hp.
  - eapply pc_ok_phase_self; try done; simpl; try lia.
    + split_and!; simpl.
      * intros j u [Hj Hji]%Hf E. exfalso. apply Hji. by eapply (fill_run_near p0).
      * intros j Hj. by apply take_at_nil in Hj.
      * by rewrite F3.
    + by intros y [= <-].
    + by rewrite F3.
    + intros j u Hj. by apply Hf.
    + intros j Hj. by apply take_at_nil in Hj.
    + rewrite F1. lia.
  - intros j u Hj. by apply Hf.
  - intros j Hj. by apply take_at_nil in Hj.
  - intros j _ Hu. eapply (unfilled_past (i, Full)); simpl; rewrite ?Hg; auto. done.
  - intros j u [Hu1 Hu2] Hj. apply Hf. split; [done|]. intros ->. simpl in *. rewrite fn_insert_eq in Hu2. simpl in Hu2. by destruct Hu2.
Qed.

Lemma step_take h i n acc a st c : pcs t = Take h i n acc a → stat g (pcs t) st → cells s !! cell_index cf h = Some c →
  good g pcs q t st s (if seq c =? (h ⊕₃₂ 1) then TakeMove h i n acc a else Take h i n acc a).
Proof.
  intros Hp Hst Hc. pose proof HI as (Hw & _). pose proof (pc_lookup _ Hp) as Hpc. rewrite Hp in Hst.
  destruct (pk_words _ _ _ Hpc) as [Hwd Hwd']. simpl in Hwd. pose proof Hc as Hc0. rewrite Hwd, cell_read in Hc. simplify_eq.
  destruct (Z.eqb_spec (seq (cell_of g (gcell g (idx i)))) (u32 i ⊕₃₂ 1)) as [E|E].
  - pose proof (take_turn _ _ _ _ _ Hp E) as Hg. eapply good_local; try done; rewrite ?Hp; try done; [|constructor].
    destruct Hpc as [P1 P2 P3 P4 P5 P6]. split; try done; simpl.
    + by intros x [= <-].
    + intros j u Hj. destruct (P4 j u Hj) as (A & B & D1 & D2). split_and!; try done; try lia. intros Hx. destruct (D2 Hx); [by left|done].
    + intros j Hj. destruct (P5 j Hj) as (A & D1 & D2). split_and!; try done; try lia. intros Hx. destruct (D2 Hx); [by left|done].
  - eapply good_local; try done; rewrite ?Hp; try done. constructor.
Qed.

Lemma step_take_move h i n acc a st : pcs t = TakeMove h i n acc a → stat g (pcs t) st →
  ∃ v, cells s !! cell_index cf h = Some (Cell (u32 (i + 1)) (Some v)) ∧
  good g pcs q t st (set_cell s (cell_index cf h) (Cell (u32 (i + 1)) None)) (TakeStore h i n (acc ++ [v]) a).
Proof.
  intros Hp Hst. pose proof HI as (Hw & Hce & Ht & _). pose proof (pc_lookup _ Hp) as Hpc. rewrite Hp in Hst.
  destruct (pk_words _ _ _ Hpc) as [Hwd Hwd']. simpl in Hwd. subst h. set (p0 := TakeMove (u32 i) i n acc a) in *.
  pose proof (pk_cur _ _ _ Hpc _ eq_refl) as Hg. simpl in Hg. pose proof (wo_range _ _ Hw).
  assert (take_at p0 i) as Hti by (unfold take_at; simpl; lia).
  destruct (pk_take _ _ _ Hpc i Hti) as (Hi & _). destruct (ce_mod _ _ Hce _ (idx_lt i)) as [_ Hr]. rewrite Hg in Hr. simpl in Hr.
  destruct (lookup_lt_is_Some_2 (vals g) (Z.to_nat i)) as [v Hv]; [unfold npush in *; lia|].
  exists v. split; [rewrite cell_read, Hg; unfold cell_of; simpl; by rewrite Hv|].
  eapply (good_phase _ _ _ _ _ _ _ _ (i, Emptied)); try done; rewrite ?Hp; fold p0.
  - by apply words_set_cell.
  - simpl. unfold cell_of. simpl. by rewrite cell_index_u32.
  - simpl. lia.
  - simpl. lia.
  - intros u Hu. eapply (sees_take g pcs t); eauto. by rewrite Hp.
  - eapply pc_ok_phase_self; try done; simpl; try lia; [..|by intros y [= <-]].
    + split_and!; simpl.
      * intros j u Hj E. change (fill_at p0 j u) in Hj. destruct (pk_fill _ _ _ Hpc j u Hj) as (_ & _ & D1 & D2). rewrite E, Hg in D1, D2. simpl in *.
        split; [done|]. intros Hx. by destruct (D2 Hx).
      * intros j Hj E. change (take_at p0 j) in Hj. assert (j = i) as -> by (by eapply (take_run_near p0)). split; [done|]. auto.
      * by intros y [= <-].
    + by intros y [= <-].
  - done.
  - done.
  - intros j _ [H1 H2]. simpl in *. unfold unfilled. by_cell (idx i) (idx j); [|by rewrite !fn_insert_ne in * by done].
    rewrite <-E, fn_insert_eq in H1, H2. simpl in *. rewrite Hg. simpl. split; [done|]. intros Hx. by destruct (H2 Hx).
  - done.
  - simpl in *. rewrite Hst. unfold rest. rewrite (drop_S _ _ _ Hv). simpl. rewrite <-app_assoc. simpl. do 5 f_equal. f_equal. lia.
Qed.

Lemma step_take_store h i n acc a st c : pcs t = TakeStore h i n acc a → stat g (pcs t) st → cells s !! cell_index cf h = Some c →
  good g pcs q t st (set_cell s (cell_index cf h) (Cell (u32 (h + mask cf + 1)) (raw c)))
    (match n with O => taken a acc | S n => Take (h ⊕₃₂ 1) (i + 1) n acc a end).
Proof.
  intros Hp Hst Hc. pose proof HI as (Hw & Hce & Ht & _). pose proof (pc_lookup _ Hp) as Hpc. rewrite Hp in Hst.
  destruct (pk_words _ _ _ Hpc) as [Hwd Hwd']. simpl in Hwd. subst h.
  pose proof (pk_cur _ _ _ Hpc _ eq_refl) as Hg. simpl in Hg. rewrite cell_read, Hg in Hc. simplify_eq/=.
  set (p0 := TakeStore (u32 i) i n acc a) in *.
  pose proof (wo_range _ _ Hw). pose proof R_bounds. pose proof (ok_mask Hok) as Hmask. fold R in Hmask.
  assert (take_at p0 i) as Hti by (unfold take_at; simpl; lia).
  destruct (pk_take _ _ _ Hpc i Hti) as (Hi & _).
  rewrite u32_add_l. set (p' := match n with O => taken a acc | S n0 => Take (u32 (i + 1)) (i + 1) n0 acc a end).
  assert (fvals p' = fvals p0 ∧ (fvals p0 ≠ [] → fstart p' = fstart p0) ∧ cur p' = None ∧ words_of p' ∧ split_ok g t p' ∧ tcount p' = Z.of_nat n ∧ (n ≠ 0%nat → tstart p' = i + 1) ∧
    stat g p' (IDone (take_result a (acc ++ rest g (i + 1) n)))) as (F1 & F2 & F3 & F4 & F5 & F6 & F7 & F8).
  { unfold p'. destruct n as [|n]; [|simpl; destruct a; simpl in *; split_and!; try done; lia].
    unfold rest. rewrite take_0, app_nil_r. destruct a; simpl in *; split_and!; try done. }
  assert (∀ j u, fill_at p' j u ↔ fill_at p0 j u) as Hf.
  { intros j u. unfold fill_at. rewrite F1. destruct (decide (fvals p0 = [])) as [->|Hne]; [split; by intros [_ ?]|]. by rewrite F2. }
  assert (∀ j, take_at p' j ↔ take_at p0 j ∧ j ≠ i) as Hk.
  { intros j. unfold take_at. rewrite F6. simpl. destruct (decide (n = 0%nat)) as [->|Hne]; [|rewrite F7 by done]; lia. }
  assert (∀ j u, fill_at p0 j u → idx j = idx i → i + R ≤ j) as Hpast.
  { intros j u Hj E. destruct (pk_fill _ _ _ Hpc j u Hj) as (_ & _ & D1 & D2). rewrite E, Hg in D1, D2. simpl in *.
    apply past_R; [done..|]. intros Hx. by destruct (D2 Hx). }
  eapply (good_phase _ _ _ _ _ _ _ _ (i + R, Free)); try done; rewrite ?Hp; fold p0.
  - by apply words_set_cell.
  - simpl. unfold cell_of. simpl. rewrite cell_index_u32, idx_R, <-Z.add_assoc, Hmask, u32_add_l. done.
  - simpl. lia.
  - intros u Hu. eapply (sees_take g pcs t); eauto. by rewrite Hp.
  - eapply pc_ok_phase_self; try done; simpl; rewrite ?idx_R; try lia.
    + split_and!; simpl; rewrite ?idx_R.
      * intros j u Hj%Hf E. split; [by eapply Hpast|]. auto.
      * intros j [Hj Hji]%Hk E. exfalso. apply Hji. by eapply (take_run_near p0).
      * by rewrite F3.
    + intros y [= <-]. by rewrite ?idx_R.
    + by rewrite F3.
    + intros j u. apply Hf.
    + intros j. apply Hk.
    + by rewrite F1.
  - intros j u. apply Hf.
  - intros j. apply Hk.
  - intros j _ [H1 H2]. simpl in *. rewrite idx_R in *. unfold unfilled. by_cell (idx i) (idx j); [|by rewrite !fn_insert_ne in * by done].
    rewrite <-E, fn_insert_eq in H1, H2. simpl in *. rewrite Hg. simpl. split; [lia|]. intros. lia.
  - intros j u _. apply Hf.
Qed.

(** ** Every step *)

(** The split layout's assumption on the run: while an operation is under way
    the counters it has read do not come round (section "Tickets" of the
    header).  The packed layout needs none. *)
Definition near (p : @pc T) : Prop :=
  match p with
  | SplitFull _ _ i | SplitTake _ _ i => pushes s - i < 2 ^ 32
  | PopSeen _ i => - 2 ^ 31 ≤ seen s - i < 2 ^ 31
  | PopTailStore _ i _ j => j - i < 2 ^ 32
  | PopTake _ i | SizeHead2 _ i _ _ => pops s - i < 2 ^ 32
  | _ => True
  end.

Ltac quiet Hp := eapply good_quiet; eauto; try rewrite Hp; try done; try (by constructor).

Lemma step_split_push v st p' : near (pcs t) → stat g (pcs t) st →
  (pcs t = SplitTail v ∧ p' = SplitHead v (tail_ s) (pushes s)) ∨
  (∃ w i, pcs t = SplitHead v w i ∧ p' = (if cap cf <=? (w ⊖₃₂ head_ s) then SplitFull v w i else SplitTake v w i)) ∨
  (∃ w i, pcs t = SplitFull v w i ∧ p' = (if negb (tail_ s =? w) then SplitTail v else PcDone (RBool false))) ∨
  (∃ w i, pcs t = SplitTake v w i ∧ p' = SplitTail v) →
  good g pcs q t st s p'.
Proof.
  intros Hnear Hst Hcase. pose proof HI as (Hw & _). pose proof (wo_range _ _ Hw) as Hr. pose proof (q_length _ _ _ _ HI) as Hl.
  pose proof R_bounds. pose proof (ok_cap Hok) as Hcap. fold R in Hcap.
  destruct Hcase as [[Hp ->]|[(w & i & Hp & ->)|[(w & i & Hp & ->)|(w & i & Hp & ->)]]];
    pose proof (pc_lookup _ Hp) as Hpc; pose proof (pk_words _ _ _ Hpc) as Hwd; pose proof (pk_split _ _ _ Hpc) as Hsp;
    rewrite Hp in Hst, Hnear; simpl in Hst, Hnear, Hwd, Hsp.
  - destruct Hst as [ws ->]. destruct (wo_split _ _ Hw Hwd) as (W1 & W2 & _). pose proof (wo_pushes _ _ Hw). quiet Hp.
    + simpl. split; [congruence|done].
    + simpl. split; [lia|]. destruct Hsp; [by left|right; split; [done|lia]].
    + by eexists.
  - destruct Hst as [ws ->], Hwd as [-> E], Hsp as [Hi Hmp]. destruct (wo_split _ _ Hw E) as (W1 & W2 & _). rewrite W1, u32_sub.
    destruct (Z.leb_spec (cap cf) (u32 (i - npop g))) as [Hfull|Hroom].
    + destruct (decide (i = npush g)) as [->|Hne].
      * eapply (good_quiet _ _ _ _ _ _ _ _ (ICalled (TryPush v) (RBool false :: ws))); eauto; try rewrite Hp; try done.
        -- eapply lmove_see; [|constructor]. simpl. rewrite u32_small in Hfull by lia.
           destruct (Z.ltb_spec (Z.of_nat (length q)) (cap cf)); [lia|done].
        -- simpl. eexists. split_and!; [done|done|]. intros. by left.
      * quiet Hp. simpl. exists ws. split_and!; [done|done|]. by intros ->.
    + quiet Hp; [|by eexists]. simpl. split_and!; [done|done|].
      destruct (Z_lt_ge_dec (i - npop g) (cap cf)); [done|]. rewrite u32_small in Hroom; lia.
  - destruct Hst as (ws & -> & Hi & Hsee), Hwd as [-> E], Hsp as [_ Hmp]. destruct (wo_split _ _ Hw E) as (W1 & W2 & _). rewrite W2.
    destruct (Z.eqb_spec (u32 (npush g)) (u32 i)) as [Eq|Ne]; simpl.
    + pose proof (wo_pushes _ _ Hw). assert (npush g = i) by (apply u32_inj_near; [lia|done]).
      quiet Hp. apply lmove_commit. by apply Hsee.
    + quiet Hp; [|by eexists]. simpl. destruct Hmp as [|[? _]]; auto.
  - destruct Hst as [ws ->], Hwd as [-> E], Hsp as (_ & Hmp & _). quiet Hp; [|by eexists]. simpl. destruct Hmp as [|[? _]]; auto.
Qed.

Lemma step_split_pop st s' p' : near (pcs t) → stat g (pcs t) st →
  (pcs t = PopHead ∧ s' = s ∧ p' = PopSeen (head_ s) (pops s)) ∨
  (∃ h i, pcs t = PopSeen h i ∧ s' = s ∧ p' = (if i32 (tail_seen_ s - h) <=? 0 then PopTail h i else PopTake h i)) ∨
  (∃ h i, pcs t = PopTail h i ∧ s' = s ∧ p' = PopTailStore h i (tail_ s) (pushes s)) ∨
  (∃ h i w j, pcs t = PopTailStore h i w j ∧ s' = set_tail_seen s w j ∧ p' = (if h =? w then PcDone (RPop None) else PopTake h i)) ∨
  (∃ h i, pcs t = PopTake h i ∧ s' = s ∧ p' = PopHead) →
  good g pcs q t st s' p'.
Proof.
  intros Hnear Hst Hcase. pose proof HI as (Hw & _). pose proof (wo_range _ _ Hw) as Hr. pose proof (q_length _ _ _ _ HI) as Hl.
  pose proof (wo_pops _ _ Hw). pose proof (wo_pushes _ _ Hw).
  destruct Hcase as [(Hp & -> & ->)|[(h & i & Hp & -> & ->)|[(h & i & Hp & -> & ->)|[(h & i & w & j & Hp & -> & ->)|(h & i & Hp & -> & ->)]]]];
    pose proof (pc_lookup _ Hp) as Hpc; pose proof (pk_words _ _ _ Hpc) as Hwd; pose proof (pk_split _ _ _ Hpc) as Hsp;
    rewrite Hp in Hst, Hnear; simpl in Hst, Hnear, Hwd, Hsp.
  - destruct Hst as [ws ->]. destruct (wo_split _ _ Hw Hwd) as (W1 & W2 & _). quiet Hp.
    + simpl. split; [congruence|done].
    + simpl. split; [lia|]. destruct Hsp; [by left|right; split; [done|lia]].
    + by eexists.
  - destruct Hst as [ws ->], Hwd as [-> E], Hsp as [Hi Hmc]. destruct (wo_split _ _ Hw E) as (_ & _ & W3 & W4).
    rewrite W3, i32_sub_near by lia. destruct (Z.leb_spec (seen s - i) 0).
    + quiet Hp. by eexists.
    + quiet Hp; [|by eexists]. simpl. split_and!; [done|lia|done].
  - destruct Hst as [ws ->], Hwd as [-> E], Hsp as [Hi Hmc]. destruct (wo_split _ _ Hw E) as (_ & W2 & _).
    destruct (decide (i = npush g)) as [->|Hne].
    + eapply (good_quiet _ _ _ _ _ _ _ _ (ICalled Consume (RPop None :: ws))); eauto; try rewrite Hp; try done.
      * simpl. split_and!; [done|congruence|done].
      * simpl. split_and!; [done|lia..|done].
      * eapply lmove_see; [|constructor]. simpl. destruct q; [done|simpl in Hl; lia].
      * simpl. exists (RPop None :: ws). split; [done|]. intros. by left.
    + quiet Hp.
      * simpl. split_and!; [done|congruence|done].
      * simpl. split_and!; [done|lia..|done].
      * simpl. exists ws. split; [done|]. intros. lia.
  - destruct Hst as (ws & -> & Hsee), Hwd as (-> & -> & E), Hsp as (Hi & Hj & Hmc). destruct (wo_split _ _ Hw E) as (W1 & W2 & _).
    assert (words_ok g (set_tail_seen s (u32 j) j)) as Hw'. { destruct Hw. split; simpl; try done. intros _. split_and!; try done. lia. }
    destruct (Z.eqb_spec (u32 i) (u32 j)) as [Eq|Ne].
    + assert (i = j) as -> by (apply u32_inj_near; [lia|done]). eapply good_quiet; eauto; try rewrite Hp; try done.
      apply lmove_commit. by apply Hsee.
    + eapply good_quiet; eauto; try rewrite Hp; try done; [|constructor|by eexists]. simpl. split_and!; [done| |done].
      destruct (decide (i = j)) as [->|]; [done|lia].
  - destruct Hst as [ws ->], Hwd as [-> E], Hsp as (_ & _ & Hmc). quiet Hp; [|by eexists]. simpl. destruct Hmc as [|[? _]]; auto.
Qed.

Lemma step_size st p' : near (pcs t) → stat g (pcs t) st →
  (pcs t = SizeLoad ∧ p' = PcDone (RNum (tailOf (state_ s) ⊖₃₂ headOf (state_ s)))) ∨
  (pcs t = SizeHead ∧ p' = SizeTail (head_ s) (pops s)) ∨
  (∃ h i, pcs t = SizeTail h i ∧ p' = SizeHead2 h i (tail_ s) (pushes s)) ∨
  (∃ h i w j, pcs t = SizeHead2 h i w j ∧ p' = (if head_ s =? h then PcDone (RNum (w ⊖₃₂ h)) else SizeHead)) →
  good g pcs q t st s p'.
Proof.
  intros Hnear Hst Hcase. pose proof HI as (Hw & _). pose proof (wo_range _ _ Hw) as Hr. pose proof (q_length _ _ _ _ HI) as Hl.
  pose proof (wo_pops _ _ Hw). pose proof (wo_pushes _ _ Hw). pose proof R_bounds. pose proof (ok_cap Hok) as Hcap. fold R in Hcap.
  destruct Hcase as [(Hp & ->)|[(Hp & ->)|[(h & i & Hp & ->)|(h & i & w & j & Hp & ->)]]];
    pose proof (pc_lookup _ Hp) as Hpc; pose proof (pk_words _ _ _ Hpc) as Hwd; pose proof (pk_split _ _ _ Hpc) as Hsp;
    rewrite Hp in Hst, Hnear; simpl in Hst, Hnear, Hwd, Hsp.
  - destruct Hst as [ws ->]. destruct (packed_words _ _ Hw Hwd) as (_ & _ & ->). apply good_done; try (by rewrite Hp). simpl. by rewrite Hl.
  - destruct Hst as [ws ->]. destruct (wo_split _ _ Hw Hwd) as (W1 & W2 & _). quiet Hp; [|simpl; lia|by eexists]. simpl. split; [congruence|done].
  - destruct Hst as [ws ->], Hwd as [-> E]. destruct (wo_split _ _ Hw E) as (_ & W2 & _). destruct (decide (i = npop g)) as [->|Hne].
    + eapply (good_quiet _ _ _ _ _ _ _ _ (ICalled Size (RNum (Z.of_nat (length q)) :: ws))); eauto; try rewrite Hp; try done.
      * simpl. split_and!; [done|congruence|done].
      * simpl. lia.
      * eapply lmove_see; [|constructor]. done.
      * simpl. eexists. split; [done|]. split; [done|]. intros _. split; [|lia]. rewrite H0, <-Hl. by left.
    + quiet Hp.
      * simpl. split_and!; [done|congruence|done].
      * simpl. lia.
      * simpl. exists ws. split_and!; [done|done|]. by intros.
  - destruct Hst as (ws & -> & Hi & Hsee), Hwd as (-> & -> & E). destruct (wo_split _ _ Hw E) as (W1 & _). rewrite W1.
    destruct (Z.eqb_spec (u32 (npop g)) (u32 i)) as [Eq|Ne]; [|quiet Hp; by eexists].
    assert (npop g = i) by (apply u32_inj_near; [lia|done]). destruct Hsee as [Hin Hrange]; [done|].
    rewrite u32_sub, u32_small by lia. by quiet Hp.
Qed.

Lemma words_set_overruns n : words_ok g (set_overruns s n).
Proof. destruct HI as ([? ? ? ? ? ?] & _). by split. Qed.

Lemma step_over_count v w i st : pcs t = OverCount v w i → stat g (pcs t) st →
  good g pcs q t st (set_overruns s (u64 (overruns_ s + 1))) (Fill w i v [] (RBool true)).
Proof.
  intros Hp Hst. pose proof (pc_lookup _ Hp) as [P1 P2 P3 P4 P5 P6]. rewrite Hp in Hst.
  assert (pc_ok g t (Fill w i v [] (RBool true))) as Hpc by (split; try done; intros j Hj; by apply take_at_nil in Hj).
  eapply good_local; eauto using words_set_overruns, lmove_stay; by rewrite Hp.
Qed.

Lemma step_good sp s' p' st : (packed cf = true ∨ near (pcs t)) → stat g (pcs t) st → step cf sp s (pcs t) = Some (s', p') →
  good g pcs q t st s' p'.
Proof.
  intros Hnear Hst Hstep. pose proof HI as (Hw & _). pose proof (wo_range _ _ Hw) as Hrange. pose proof (q_length _ _ _ _ HI) as Hl.
  assert (near (pcs t)) as Hn'.
  { destruct Hnear as [E|]; [|done]. pose proof (pc_lookup _ eq_refl) as Hpc. pose proof (pk_words _ _ _ Hpc) as Hwd.
    destruct (pcs t); simpl in *; try done; rewrite E in Hwd; by destruct_and?. }
  clear Hnear. remember (pcs t) as p eqn:Hp in Hst, Hn', Hstep. symmetry in Hp. destruct p as [| |r|r|v|v w|v|v w i|v w i|v w i| |v|v w|v w i|vs|vs w n|w i v vs r|w i v vs r|w i v vs r| |w| |h i|h i|h i w j|h i|n|n w m|h i n acc a|h i n acc a|h i n acc a| | |h i|h i w j| |];
    pose proof (pc_lookup _ Hp) as Hpc; pose proof (pk_words _ _ _ Hpc) as Hwd; simpl in Hstep; try done.
  - destruct Hst as (o & -> & Hs). simplify_eq. apply good_done; try (by rewrite Hp). apply Hs. lia.
  - destruct Hst as [ws ->]. simplify_eq. apply step_push_decide; try (by rewrite Hp). done.
  - destruct Hst as [ws ->]. destruct (negb sp && (state_ s =? w)) eqn:E; simplify_eq.
    + apply andb_prop in E as [_ E%Z.eqb_eq]. apply step_push_claim; try done. by rewrite Hp.
    + apply step_push_decide; try (by rewrite Hp). by destruct Hwd.
  - simplify_eq. rewrite <-Hp in Hst, Hn'. eapply step_split_push; eauto.
  - simplify_eq. rewrite <-Hp in Hst, Hn'. eapply step_split_push; eauto 10.
  - simplify_eq. rewrite <-Hp in Hst, Hn'. eapply step_split_push; eauto 10.
  - destruct (negb (mp cf)) eqn:Em; [|destruct (negb sp && (tail_ s =? w)) eqn:E]; simplify_eq.
    + destruct Hst as [ws ->]. apply (step_split_claim _ _ _ i); [done|]. left. by apply negb_true_iff.
    + destruct Hst as [ws ->]. apply andb_prop in E as [_ E%Z.eqb_eq]. apply (step_split_claim _ _ _ i); [done|]. right. done.
    + rewrite <-Hp in Hst, Hn'. eapply step_split_push; eauto 10.
  - destruct Hst as [v ->]. simplify_eq. simpl in Hwd. eapply good_quiet; eauto; try rewrite Hp; try done; [apply words_set_overruns|].
    apply lmove_lin. simpl. by rewrite Hwd.
  - destruct Hst as [ws ->]. simplify_eq. quiet Hp. by eexists.
  - destruct Hst as [ws ->]. destruct (negb sp && (state_ s =? w)) eqn:E; simplify_eq.
    + apply andb_prop in E as [_ E%Z.eqb_eq]. destruct Hwd. apply step_over_claim; try done. by rewrite Hp.
    + quiet Hp. by eexists.
  - simplify_eq. rewrite <-Hp in Hst. by apply step_over_count.
  - destruct Hst as [ws ->], Hwd. simplify_eq. apply step_batch_decide; try (by rewrite Hp); done.
  - destruct Hst as [ws ->]. destruct (negb sp && (state_ s =? w)) eqn:E; simplify_eq.
    + apply andb_prop in E as [_ E%Z.eqb_eq]. apply step_batch_claim; try done. by rewrite Hp.
    + destruct Hwd as (_ & _ & ? & ?). apply step_batch_decide; try (by rewrite Hp); done.
  - destruct (cells s !! cell_index cf w) eqn:E; simplify_eq. rewrite <-Hp in Hst. by eapply step_fill.
  - rewrite <-Hp in Hst. destruct (step_fill_write _ _ _ _ _ _ Hp Hst) as [Hc Hg]. rewrite Hc in Hstep. by simplify_eq.
  - destruct (cells s !! cell_index cf w) eqn:E; simplify_eq. rewrite <-Hp in Hst. by eapply step_fill_store.
  - destruct Hst as [ws ->]. simplify_eq. apply step_pop_decide; try (by rewrite Hp). done.
  - destruct Hst as [ws ->]. destruct (negb sp && (state_ s =? w)) eqn:E; simplify_eq.
    + apply andb_prop in E as [_ E%Z.eqb_eq]. apply step_pop_claim; try done. by rewrite Hp.
    + apply step_pop_decide; try (by rewrite Hp). by destruct Hwd.
  - simplify_eq. rewrite <-Hp in Hst, Hn'. eapply step_split_pop; eauto.
  - simplify_eq. rewrite <-Hp in Hst, Hn'. eapply step_split_pop; eauto 10.
  - simplify_eq. rewrite <-Hp in Hst, Hn'. eapply step_split_pop; eauto 10.
  - simplify_eq. rewrite <-Hp in Hst, Hn'. eapply step_split_pop; eauto 20.
  - destruct (negb (mc cf)) eqn:Em; [|destruct (negb sp && (head_ s =? h)) eqn:E]; simplify_eq.
    + destruct Hst as [ws ->]. apply (step_split_pop_claim _ _ i); [done|]. left. by apply negb_true_iff.
    + destruct Hst as [ws ->]. apply andb_prop in E as [_ E%Z.eqb_eq]. apply (step_split_pop_claim _ _ i); [done|]. right. done.
    + rewrite <-Hp in Hst, Hn'. eapply step_split_pop; eauto 20.
  - destruct Hst as [ws ->], Hwd. simplify_eq. apply step_batch_pop_decide; try (by rewrite Hp); done.
  - destruct Hst as [ws ->]. destruct (negb sp && (state_ s =? w)) eqn:E; simplify_eq.
    + apply andb_prop in E as [_ E%Z.eqb_eq]. apply step_batch_pop_claim; try done. by rewrite Hp.
    + destruct Hwd as (_ & _ & ? & ?). apply step_batch_pop_decide; try (by rewrite Hp); done.
  - destruct (cells s !! cell_index cf h) eqn:E; simplify_eq. rewrite <-Hp in Hst. by eapply step_take.
  - rewrite <-Hp in Hst. destruct (step_take_move _ _ _ _ _ _ Hp Hst) as (v & Hc & Hg). rewrite Hc in Hstep. by simplify_eq.
  - destruct (cells s !! cell_index cf h) eqn:E; simplify_eq. rewrite <-Hp in Hst. by eapply step_take_store.
  - simplify_eq. rewrite <-Hp in Hst, Hn'. eapply step_size; eauto.
  - simplify_eq. rewrite <-Hp in Hst, Hn'. eapply step_size; eauto.
  - simplify_eq. rewrite <-Hp in Hst, Hn'. eapply step_size; eauto 10.
  - simplify_eq. rewrite <-Hp in Hst, Hn'. eapply step_size; eauto 20.
  - destruct Hst as [ws ->]. simplify_eq. apply good_done; by rewrite ?Hp.
  - destruct Hst as [ws ->]. simplify_eq. eapply good_quiet; eauto; try rewrite Hp; try done; [apply words_set_overruns|]. by apply lmove_lin.
Qed.
End one_step.

(** ** The machine *)

Section whole.
Context (s0 : @ring T).
Context (Hcells : cells s0 = (λ i, Cell (Z.of_nat i) None) <$> List.seq 0 (Z.to_nat R)).
Context (Hzero : head_ s0 = 0 ∧ tail_ s0 = 0 ∧ tail_seen_ s0 = 0 ∧ state_ s0 = 0 ∧ pops s0 = 0 ∧ pushes s0 = 0 ∧ seen s0 = 0 ∧ bad s0 = false).

Abbreviation M := (ring_machine cf s0 N P C).

(** The runs of the split layout in which no counter an operation has read
    comes round while the operation is under way; every run of the packed one. *)
Definition window (s : mstate M) : Prop := packed cf = true ∨ ∀ t, near (ms_shared s) (ms_pcs s t).

Definition ghost0 : ghost := Ghost [] 0 (λ c, (Z.of_nat c, Free)).

Lemma inv_init : Inv ghost0 s0 (λ _, PcIdle) [].
Proof.
  destruct Hzero as (Z1 & Z2 & Z3 & Z4 & Z5 & Z6 & Z7 & Z8). pose proof R_bounds. pose proof (ok_cap Hok).
  split; [|split; [|split; [|done]]].
  - split; simpl; rewrite ?Z1, ?Z2, ?Z3, ?Z4, ?Z7; try done; unfold npush; simpl; lia.
  - rewrite Hcells. split; simpl.
    + by rewrite length_fmap, length_seq.
    + intros c Hc. rewrite list_lookup_fmap, lookup_seq_lt by done. simpl. unfold cell_of. simpl. rewrite u32_small by lia. done.
    + intros c Hc. split; [|lia]. unfold idx. rewrite Z.mod_small by lia. lia.
    + intros c Hc. done.
  - split; try done.
    + intros t. by apply pc_ok_quiet.
    + intros t u i v w _ Hx. by apply fill_at_nil in Hx.
    + intros t u i _ Hx. by apply take_at_nil in Hx.
    + intros i Hi. unfold npush in Hi. simpl in Hi. lia.
Qed.

Lemma enter_ok g t o : may cf N P C t o = true →
  pc_ok g t (enter cf o) ∧ fvals (enter cf o) = [] ∧ tcount (enter cf o) = 0 ∧ stat g (enter cf o) (ICalled o []).
Proof.
  intros Hm. apply andb_prop in Hm as [_ Hm].
  assert (fvals (enter cf o) = [] ∧ tcount (enter cf o) = 0 ∧ cur (enter cf o) = None ∧ words_of (enter cf o) ∧
          split_ok g t (enter cf o) ∧ stat g (enter cf o) (ICalled o [])) as (A & B & D & E & F & G).
  { pose proof (ok_overrun Hok) as Ho. destruct o as [v|v| |vs|n| | |]; simpl in *.
    - destruct (packed cf) eqn:Ep; simpl; split_and!; eauto. apply orb_prop in Hm as [?|?%Nat.eqb_eq]; auto.
    - destruct (overrun cf); simpl; [|done]. destruct (Z.eqb_spec (cap cf) 0); simpl; split_and!; eauto.
    - destruct (packed cf) eqn:Ep; simpl; split_and!; eauto. apply orb_prop in Hm as [?|?%Nat.eqb_eq]; auto.
    - destruct (packed cf) eqn:Ep; simpl; [|done]. case_decide; simpl; split_and!; eauto. subst.
      eexists. split; [done|]. intros q Hq. simpl. rewrite Z.min_l by lia. by rewrite take_0, app_nil_r.
    - destruct (packed cf) eqn:Ep; simpl; [|done]. case_decide; simpl; split_and!; eauto. subst.
      eexists. split; [done|]. intros q Hq. simpl. by rewrite take_0.
    - destruct (packed cf) eqn:Ep; simpl; split_and!; eauto.
    - split_and!; eauto.
    - split_and!; eauto. }
  split_and!; try done. by apply pc_ok_quiet.
Qed.

Lemma ring_lin_proof : lin_proof M (bounded_queue (cap cf)) window Inv stat.
Proof.
  split.
  - exists ghost0. split; [apply inv_init|done].
  - intros g sh pcs q t o HI Hid Hm. simpl in *. destruct (enter_ok g t o Hm) as (A & B & D & E).
    destruct (pcs t) eqn:Hp; try done. split; [by intros st ->|]. split; [|done].
    destruct HI as (Hw & Hc & Ht & Hq). split_and!; try done. apply threads_local; try done.
    + rewrite Hp. intros i v. split; intros Hx; by apply fill_at_nil in Hx.
    + rewrite Hp. intros i. split; intros Hx; by apply take_at_nil in Hx.
    + left. apply andb_prop in Hm as [Hm _]. by apply Nat.ltb_lt.
  - intros g sh pcs q t r HI Hr. simpl in *. destruct (pcs t) eqn:Hp; simplify_eq/=. split; [by intros st ->|]. split; [|done].
    destruct HI as (Hw & Hc & Ht & Hq). split_and!; try done. apply threads_local; try done; [by apply pc_ok_quiet|..|by right].
    + rewrite Hp. intros i v. split; intros Hx; by apply fill_at_nil in Hx.
    + rewrite Hp. intros i. split; intros Hx; by apply take_at_nil in Hx.
  - intros g sh pcs q t c sh' pc' st HP HI Hst Hstep. simpl in *.
    eapply (step_good g sh pcs q t HI); [|destruct HP as [|Hn]; [by left|right; apply (Hn t)]|done|done].
    intros E. by rewrite E in Hstep.
Qed.

(** The destructor, once no operation is under way, destroys the elements
    still queued, oldest first, each once. *)
Lemma destroy_quiescent g s pcs q fuel :
  Inv g s pcs q → (∀ t, pcs t = PcIdle) → (length q < fuel)%nat → destroy cf fuel s = Some <$> q.
Proof.
  intros HI Hidle Hfuel. pose proof HI as (Hw & Hc & Ht & Hq). pose proof (q_length _ _ _ _ HI) as Hl.
  pose proof (wo_range _ _ Hw) as Hr. pose proof R_bounds. pose proof (ok_cap Hok) as Hcap. fold R in Hcap.
  assert (∀ f h, npop g ≤ h ≤ npush g → npush g - h < Z.of_nat f →
    destroy_loop cf f s (u32 h) (u32 (npush g)) = Some <$> drop (Z.to_nat h) (vals g)) as Hloop.
  { induction f as [|f IH]; intros h Hh Hf; [lia|]. simpl. destruct (Z.eqb_spec (u32 h) (u32 (npush g))) as [E|E].
    - apply u32_inj_near in E; [|lia]. rewrite drop_ge; [done|]. unfold npush in E. lia.
    - assert (h < npush g) by (destruct (decide (h = npush g)) as [->|]; [done|lia]).
      destruct (lookup_lt_is_Some_2 (vals g) (Z.to_nat h)) as [v Hv]; [unfold npush in *; lia|].
      rewrite (drop_S _ _ _ Hv). simpl. f_equal.
      + rewrite (cell_read g s pcs q HI). simpl.
        pose proof (cell_not_past _ _ h Hc ltac:(lia)) as Hle.
        destruct (ce_phase _ _ Hc _ (idx_lt h)) as [_ He].
        assert (¬ unfilled g h) as Hnu. { intros Hu. destruct (th_cover _ _ Ht h ltac:(lia) Hu) as (u & w & Hx). rewrite Hidle in Hx. by apply fill_at_nil in Hx. }
        unfold unfilled in Hnu. destruct (gcell g (idx h)) as [c ph] eqn:Eg. simpl in *.
        destruct (decide (c = h)) as [->|]; [|destruct Hnu; split; [done|by intros]].
        destruct ph; try (by destruct Hnu; split; auto); [unfold cell_of; simpl; by rewrite Hv|]. specialize (He eq_refl). lia.
      + rewrite u32_add_l. rewrite IH by lia. f_equal. f_equal. lia. }
  unfold destroy. rewrite Hq. destruct (packed cf) eqn:E.
  - destruct (packed_words _ _ Hw E) as (-> & -> & _). apply Hloop; lia.
  - destruct (wo_split _ _ Hw E) as (-> & -> & _). apply Hloop; lia.
Qed.
End whole.
End proof.
End BoundedRingLin.
