(* ===== verification/BoundedRingSpec.v ===== *)
(** * What the bounded ring promises

    The theorems about [wtc::rt::bounded_ring] a client uses, from the
    constructor's arguments on, each with a run of the machine it applies to. *)

From S2P Require Import Prelude Lts Contract Machine BoundedRing BoundedRingLin.

Module BoundedRingSpec.
Import BoundedRing BoundedRingLin.
Local Open Scope Z_scope.

(** ** The constructor *)

Lemma ringSize_loop_spec capacity : 0 ≤ capacity ≤ 2 ^ 30 → ∀ fuel k,
  1 ≤ k ≤ 30 → 30 - k < Z.of_nat fuel → (k = 1 ∨ 2 ^ (k - 1) < capacity) →
  ∃ m, k ≤ m ≤ 30 ∧ ringSize_loop fuel capacity (2 ^ k) = 2 ^ m ∧ capacity ≤ 2 ^ m ∧ (m = 1 ∨ 2 ^ (m - 1) < capacity).
Proof.
  intros Hc fuel. induction fuel as [|fuel IH]; intros k Hk Hf Hl; [lia|]. simpl. unfold kMaxCapacity.
  assert (2 ^ k ≤ 2 ^ 30) by (apply Z.pow_le_mono_r; lia).
  destruct (Z.ltb_spec (2 ^ k) capacity) as [H1|H1]; simpl; [|exists k; split_and!; [lia..|done|lia|done]].
  destruct (Z.ltb_spec (2 ^ k) (2 ^ 30)) as [H2|H2]; simpl; [|lia].
  assert (k < 30) by (apply (Z.pow_lt_mono_r_iff 2); lia).
  assert (2 ^ (k + 1) ≤ 2 ^ 30) by (apply Z.pow_le_mono_r; lia).
  rewrite Z.shiftl_mul_pow2 by lia. replace (2 ^ k * 2 ^ 1) with (2 ^ (k + 1)) by (rewrite Z.pow_add_r; lia).
  rewrite u32_small by lia.
  destruct (IH (k + 1)) as (m & ? & ? & ? & ?); try lia; [right; by replace (k + 1 - 1) with k by lia|].
  exists m. split_and!; try done; lia.
Qed.

Lemma ringSize_pow capacity : 0 ≤ capacity ≤ kMaxCapacity →
  ∃ m, 1 ≤ m ≤ 30 ∧ ringSize capacity = 2 ^ m ∧ capacity ≤ 2 ^ m ∧ (m = 1 ∨ 2 ^ (m - 1) < capacity).
Proof. intros Hc. apply (ringSize_loop_spec capacity Hc 32 1); unfold kMaxCapacity in *; simpl; lia. Qed.

(** The ring has a power of two of cells, at least the capacity and at
    least two (so no two consecutive tickets share a cell), and is the
    smallest such: [ringSize] rounds up and does not overflow its word. *)
Theorem ringSize_least capacity : 0 ≤ capacity ≤ kMaxCapacity →
  (∃ m, 1 ≤ m ≤ 30 ∧ ringSize capacity = 2 ^ m) ∧
  Z.max 2 capacity ≤ ringSize capacity ∧
  ∀ m, 1 ≤ m → capacity ≤ 2 ^ m → ringSize capacity ≤ 2 ^ m.
Proof.
  intros Hc. destruct (ringSize_pow capacity Hc) as (m & Hm & -> & Hle & Hl). split_and!; [eauto| |].
  - assert (2 ^ 1 ≤ 2 ^ m) by (apply Z.pow_le_mono_r; lia). lia.
  - intros j Hj Hcj. apply Z.pow_le_mono_r; [lia|]. destruct Hl as [->|Hl]; [lia|].
    destruct (Z.le_gt_cases m j); [done|]. assert (2 ^ j ≤ 2 ^ (m - 1)) by (apply Z.pow_le_mono_r; lia). lia.
Qed.

Lemma ringSize_least_witness : ringSize 1000 = 1024 ∧ ringSize 1000 ≤ 2 ^ 10.
Proof.
  split; [vm_compute; reflexivity|].
  destruct (ringSize_least 1000) as (_ & _ & H); [vm_compute; split; intros E; discriminate E|].
  apply (H 10); vm_compute; intros E; discriminate E.
Defined.

Section client.
Context {T : Type} (capacity : Z) (manyProducers manyConsumers over batches : bool).
Context (cf : config) (s0 : @ring T) (N P C : nat).

(** What a client of the ring establishes: the constructor returned, and the
    threads are few enough that a cell's sequence number cannot be mistaken
    for the one of [2^32] tickets before it. *)
Record client_ok : Prop := {
  cl_capacity : 0 ≤ capacity;
  cl_made : bounded_ring capacity manyProducers manyConsumers over batches = Some (cf, s0);
  cl_threads : Z.of_nat N * ringSize capacity + 2 ≤ 2 ^ 32
}.

Abbreviation ring := (ring_machine cf s0 N P C).

Lemma made_ok : client_ok → ∃ k, config_ok cf N k ∧ cap cf = capacity ∧
  cells s0 = (λ i, Cell (Z.of_nat i) None) <$> List.seq 0 (Z.to_nat (R k)) ∧
  (head_ s0 = 0 ∧ tail_ s0 = 0 ∧ tail_seen_ s0 = 0 ∧ state_ s0 = 0 ∧ pops s0 = 0 ∧ pushes s0 = 0 ∧ seen s0 = 0 ∧ bad s0 = false).
Proof.
  intros [H0 Hm Hn]. unfold bounded_ring in Hm. destruct (Z.ltb_spec kMaxCapacity capacity) as [|Hle]; [done|].
  simplify_eq/=. destruct (ringSize_pow capacity) as (k & Hk & Hr & Hc & _); [lia|]. exists k.
  rewrite Hr in *. unfold R. replace (2 ^ k - 1 + 1) with (2 ^ k) by lia.
  unfold kMaxCapacity in Hle. assert (u32 capacity = capacity) as Eu by (apply u32_small; lia).
  split; [split; simpl; rewrite ?Hr, ?Eu; try lia; by intros ->|]. by split.
Qed.

Lemma client_lin : client_ok → ∃ k, config_ok cf N k ∧ cap cf = capacity ∧
  lin_proof ring (bounded_queue capacity) (window cf N P C s0) (Inv cf N P C k) (stat cf).
Proof.
  intros H. destruct (made_ok H) as (k & Hk & Hcap & Hcells & Hz). exists k. split_and!; try done.
  rewrite <-Hcap. by apply ring_lin_proof.
Qed.

(** C13: The ring with packed counters (an overrun or batch push or pop
    exists) is linearisable to a first-in first-out queue of exactly
    [capacity] elements: every history of calls and returns of its
    operations (push, overrun, batch, pop, size) by [N] threads, under any
    interleaving of its atomic accesses and any spurious failure of its
    compare-and-swaps, is a history of the atomic queue.  A batch takes
    effect at one instant, so a run of elements is contiguous. *)
Theorem packed_linearisable (Hok : client_ok) (Hpacked : over || batches = true) tr :
  history (mlts ring) tr → history (atomic (bounded_queue capacity)) tr.
Proof.
  intros Hh. destruct (client_lin Hok) as (k & _ & _ & Hlin). eapply (linearisable _ _ _ _ _ Hlin).
  apply restrict_all; [|done]. intros s. left. pose proof (cl_made Hok) as Hm. unfold bounded_ring in Hm.
  destruct (kMaxCapacity <? capacity); [done|]. injection Hm as <- _. done.
Qed.

(** C14: The ring with split counters (each end's on a line of its own; no
    overrun, no batch) is linearisable to the same queue, with one producer
    or many and one consumer or many, in the runs in which no counter an
    operation has read comes round (2^32 tickets, 2^31 for the consumers'
    copy of the tail) before the operation ends.  A refused push and an
    empty pop were right at an instant inside the call. *)
Theorem split_linearisable (Hok : client_ok) tr :
  history (restrict (mlts ring) (window cf N P C s0)) tr → history (atomic (bounded_queue capacity)) tr.
Proof. intros Hh. destruct (client_lin Hok) as (k & _ & _ & Hlin). by eapply (linearisable _ _ _ _ _ Hlin). Qed.

(** C15: In no such run is an element constructed over a live one or moved
    out of a cell that holds none, and never are more than [capacity]
    elements queued, however the operations overlap. *)
Theorem never_bad (Hok : client_ok) s :
  reachable (restrict (mlts ring) (window cf N P C s0)) s →
  bad (ms_shared s) = false ∧ 0 ≤ pushes (ms_shared s) - pops (ms_shared s) ≤ capacity.
Proof.
  intros Hr. destruct (client_lin Hok) as (k & _ & Hcap & Hlin).
  destruct (lin_reachable _ _ _ _ _ Hlin _ Hr) as (g & q & Hw & _). split; [by eapply wo_bad|].
  rewrite (wo_pops _ _ _ Hw), (wo_pushes _ _ _ Hw), <-Hcap. destruct (wo_range _ _ _ Hw). lia.
Qed.

(** The destructor, run when no operation is under way, destroys
    exactly the elements the atomic queue holds after the same history,
    oldest first, each once: nothing leaks and nothing is destroyed twice. *)
Theorem destroy_remaining (Hok : client_ok) tr s s1 :
  linit (restrict (mlts ring) (window cf N P C s0)) s → steps (restrict (mlts ring) (window cf N P C s0)) s tr s1 →
  (∀ t, ms_pcs s1 t = PcIdle) →
  ∃ a0 a, linit (atomic (bounded_queue capacity)) a0 ∧ steps (atomic (bounded_queue capacity)) a0 tr a ∧
    ∀ fuel, capacity < Z.of_nat fuel → destroy cf fuel (ms_shared s1) = Some <$> a_abs a.
Proof.
  intros H0 Hrun Hidle. destruct (client_lin Hok) as (k & Hk & Hcap & Hlin).
  destruct (lin_run _ _ _ _ _ Hlin _ _ _ H0 Hrun) as (a0 & a & Ha0 & Ha & g & HI). exists a0, a. split_and!; try done.
  intros fuel Hf. eapply (destroy_quiescent cf N P C k Hk); try done.
  pose proof (q_length _ _ _ _ _ _ _ _ _ HI) as Hl. destruct HI as (Hw & _). pose proof (wo_range _ _ _ Hw). lia.
Qed.
End client.

(** ** Runs the theorems apply to *)

Definition demo (packed : bool) : config * @ring Z :=
  default (Config 0 0 false false false false, Ring [] 0 0 0 0 0 0 0 0 true) (bounded_ring 1 true true packed false).

Lemma demo_ok packed : client_ok 1 true true packed false (fst (demo packed)) (snd (demo packed)) 2.
Proof. destruct packed; (split; [done|reflexivity|vm_compute; by intros]). Qed.

Abbreviation demo_machine packed := (ring_machine (fst (demo packed)) (snd (demo packed)) 2 0 0).

(** Thread 0 pushes 7 (its first compare-and-swap fails) while thread 1's pop
    waits for the element; then thread 0 pushes again, overrunning 7. *)
Definition demo_packed : list (action (@op Z) bool) :=
  [ACall 0 (TryPush 5); AStep 0 false; AStep 0 true; AStep 0 false; ACall 1 Consume; AStep 1 false; AStep 1 false;
   AStep 1 false; AStep 0 false; AStep 0 false; AStep 0 false; AStep 1 false; AStep 1 false; AStep 1 false; ARet 1; ARet 0;
   ACall 0 (TryPush 7); AStep 0 false; AStep 0 false; AStep 0 false; AStep 0 false; AStep 0 false; ARet 0;
   ACall 1 (PushOverrun 9); AStep 1 false; AStep 1 false; AStep 1 false; AStep 1 false; AStep 1 false; AStep 1 false;
   AStep 1 false; AStep 1 false; AStep 1 false; ARet 1].
Definition demo_packed_history : list (event (@op Z) res) :=
  [Call 0 (TryPush 5); Call 1 Consume; Ret 1 (RPop (Some 5)); Ret 0 (RBool true);
   Call 0 (TryPush 7); Ret 0 (RBool true); Call 1 (PushOverrun 9); Ret 1 (RBool true)].

Lemma packed_linearisable_witness : history (atomic (bounded_queue 1)) demo_packed_history.
Proof.
  apply (packed_linearisable 1 true true true false (fst (demo true)) (snd (demo true)) 2 0 0 (demo_ok true)); [reflexivity|].
  apply (exec_history (demo_machine true) demo_packed). vm_compute. reflexivity.
Defined.

(** Split counters: the push of thread 0 is under way when thread 1 pushes
    and finds the queue full; then thread 1 pops what thread 0 published. *)
Definition demo_split : list (action (@op Z) bool) :=
  [ACall 0 (TryPush 5); AStep 0 false; AStep 0 false; AStep 0 false;
   ACall 1 (TryPush 6); AStep 1 false; AStep 1 false; AStep 1 false; ARet 1;
   AStep 0 false; AStep 0 false; AStep 0 false; ARet 0;
   ACall 1 Consume; AStep 1 false; AStep 1 false; AStep 1 false; AStep 1 false; AStep 1 false; AStep 1 false; AStep 1 false;
   AStep 1 false; ARet 1].
Definition demo_split_history : list (event (@op Z) res) :=
  [Call 0 (TryPush 5); Call 1 (TryPush 6); Ret 1 (RBool false); Ret 0 (RBool true); Call 1 Consume; Ret 1 (RPop (Some 5))].

Definition nearb (s : @ring Z) (p : @pc Z) : bool :=
  match p with
  | SplitFull _ _ i | SplitTake _ _ i => pushes s - i <? 2 ^ 32
  | PopSeen _ i => (- 2 ^ 31 <=? seen s - i) && (seen s - i <? 2 ^ 31)
  | PopTailStore _ i _ j => j - i <? 2 ^ 32
  | PopTake _ i | SizeHead2 _ i _ _ => pops s - i <? 2 ^ 32
  | _ => true
  end.

Lemma demo_split_along : along (demo_machine false) (window (fst (demo false)) 2 0 0 (snd (demo false))) demo_split (m_start _).
Proof.
  apply (alongb_along (demo_machine false) 2 nearb); [|done..]. intros s H. right. intros t. specialize (H t).
  destruct (ms_pcs s t); simpl in *; lia || done.
Qed.

Lemma split_linearisable_witness : history (atomic (bounded_queue 1)) demo_split_history.
Proof.
  apply (split_linearisable 1 true true false false (fst (demo false)) (snd (demo false)) 2 0 0 (demo_ok false)).
  apply (exec_history_along (demo_machine false) _ demo_split); [vm_compute; reflexivity|apply demo_split_along].
Defined.

Lemma never_bad_witness : bad (ms_shared (exec_final (demo_machine true) demo_packed)) = false ∧
  0 ≤ pushes (ms_shared (exec_final (demo_machine true) demo_packed)) - pops (ms_shared (exec_final (demo_machine true) demo_packed)) ≤ 1.
Proof.
  apply (never_bad 1 true true true false (fst (demo true)) (snd (demo true)) 2 0 0 (demo_ok true)).
  apply reachable_all; [by left|apply exec_reachable].
Defined.

(** After the last run the destructor finds the element that overran the other. *)
Lemma destroy_remaining_witness :
  ∃ a0 a, linit (atomic (bounded_queue 1)) a0 ∧ steps (atomic (bounded_queue 1)) a0 demo_packed_history a ∧
    ∀ fuel, 1 < Z.of_nat fuel → destroy (fst (demo true)) fuel (ms_shared (exec_final (demo_machine true) demo_packed)) = Some <$> a_abs a.
Proof.
  apply (destroy_remaining 1 true true true false (fst (demo true)) (snd (demo true)) 2 0 0 (demo_ok true)) with (s := m_start _).
  - split; [reflexivity|by left].
  - apply steps_restrict; [by left|]. apply exec_steps_final. vm_compute. reflexivity.
  - apply (exec_quiescent (demo_machine true) 2 demo_packed); [vm_compute; reflexivity|]. intros [|[|t]] Ht; [vm_compute; reflexivity..|lia].
Defined.

End BoundedRingSpec.
