(* ===== verification/StreamGate.v ===== *)
(** * The stream gate (src/runtime/stream_gate.hpp)

    [stream_gate]: the consumer's estimate of whether its producer streams,
    and the probes that get it out of a wrong estimate.  [catch_up] is how
    its callers use it: one [should_wait_at] per catch-up, and one [waited]
    for each wait.  The processor's counter rate is the parameter
    [tpm] (ticks per millisecond); [measure_ticks_per_ms] is modelled as a
    function of the clock and counter readings it takes.

    Shown: for a rate and a number of elements between two catch-ups in the
    range [fits] gives, and any number of catch-ups, the running sums do not
    overflow and the rate test is the exact comparison; a paced producer is waited for at the probes only, whose
    number is given exactly; a streaming one at every catch-up; a closed
    gate probes within [kProbeMax] catch-ups. *)

From S2P Require Import Prelude.

Module StreamGate.
Local Open Scope Z_scope.
Local Open Scope wtc_scope.

Definition kStreamNs : Z := 100.
Definition kProbeEvery : Z := 256.
Definition kProbeMax : Z := 65536.
Definition kStayOpen : Z := 8.
Definition kProbeSeed : Z := 4.
Definition kMaxInterval : Z := 2 ^ 32.
Definition kFrac : Z := 4.

Record stream_gate := Gate {
  thr_ : Z; t_ : Z; started_ : bool; t_sum_ : Z; a_sum_ : Z; streams_ : Z; probes_ : Z;
  probe_ : Z; probe_every_ : Z; open_run_ : Z; probing_ : bool
}.

Definition gate0 : stream_gate := Gate 0 0 false 0 0 0 0 0 kProbeEvery 0 false.
(** The constructor tests use, with a given counter rate. *)
Definition gate_at (tpm : Z) : stream_gate := Gate (u64 (kStreamNs * tpm)) 0 false 0 0 0 0 0 kProbeEvery 0 false.

(** The threshold, computed on first use. *)
Definition set_thr (tpm : Z) (g : stream_gate) : stream_gate :=
  if thr_ g =? 0
  then Gate (u64 (kStreamNs * tpm)) (t_ g) (started_ g) (t_sum_ g) (a_sum_ g) (streams_ g) (probes_ g)
         (probe_ g) (probe_every_ g) (open_run_ g) (probing_ g)
  else g.

(** The sums, when there is an earlier catch-up and the counter did not go back. *)
Definition sample (g : stream_gate) (arrived now : Z) : Z * Z :=
  if started_ g && (t_ g <=? now)
  then
    let dt := now ⊖₆₄ t_ g in
    let dt := if kMaxInterval <? dt then kMaxInterval else dt in
    (u64 (t_sum_ g - Z.shiftr (t_sum_ g) 2 + u64 (Z.shiftl dt kFrac)),
     u64 (a_sum_ g - Z.shiftr (a_sum_ g) 2 + u64 (Z.shiftl arrived kFrac)))
  else (t_sum_ g, a_sum_ g).

(** Under [kStreamNs] an element, compared without dividing. *)
Definition reads_as_stream (g : stream_gate) : bool :=
  negb (a_sum_ g =? 0) && (u64 (t_sum_ g * 1000000) <=? u64 (thr_ g * a_sum_ g)).

Definition set_sample (g : stream_gate) (arrived now : Z) : stream_gate :=
  let '(ts, a) := sample g arrived now in
  Gate (thr_ g) now true ts a (streams_ g) (probes_ g) (probe_ g) (probe_every_ g) (open_run_ g) false.

Definition should_wait_at (tpm : Z) (g : stream_gate) (arrived now : Z) : stream_gate * bool :=
  let g := set_sample (set_thr tpm g) arrived now in
  if reads_as_stream g
  then
    let run := if open_run_ g <? kStayOpen then open_run_ g ⊕₃₂ 1 else open_run_ g in
    let every := if (open_run_ g <? kStayOpen) && (run =? kStayOpen) then kProbeEvery else probe_every_ g in
    (Gate (thr_ g) (t_ g) (started_ g) (t_sum_ g) (a_sum_ g) (streams_ g ⊕₆₄ 1) (probes_ g) 0 every run false, true)
  else
    let probe := probe_ g ⊕₃₂ 1 in
    if probe_every_ g <=? probe
    then (Gate (thr_ g) (t_ g) (started_ g) (t_sum_ g) (a_sum_ g) (streams_ g) (probes_ g ⊕₆₄ 1) 0
            (if probe_every_ g <? kProbeMax then u32 (probe_every_ g * 2) else probe_every_ g) 0 true, true)
    else (Gate (thr_ g) (t_ g) (started_ g) (t_sum_ g) (a_sum_ g) (streams_ g) (probes_ g) probe
            (probe_every_ g) 0 false, false).

Definition waited (g : stream_gate) (filled : bool) : stream_gate :=
  let '(ts, a) := if probing_ g && filled then (0, a_sum_ g ⊕₆₄ u64 (Z.shiftl kProbeSeed kFrac)) else (t_sum_ g, a_sum_ g) in
  Gate (thr_ g) (t_ g) (started_ g) ts a (streams_ g) (probes_ g) (probe_ g) (probe_every_ g) (open_run_ g) false.

(** A catch-up of a consumer: [arrived] elements since the last, counter at
    [now]; if it waits, whether the batch filled. *)
Record sighting := Sighting { arrived : Z; now : Z; filled : bool }.

Definition catch_up (tpm : Z) (g : stream_gate) (e : sighting) : stream_gate * bool :=
  let '(g', wait) := should_wait_at tpm g (arrived e) (now e) in
  (if wait then waited g' (filled e) else g', wait).

(** A sequence of catch-ups: the gate at the end, and which of them waited. *)
Fixpoint run (tpm : Z) (g : stream_gate) (es : list sighting) : stream_gate * list bool :=
  match es with
  | [] => (g, [])
  | e :: es => let '(g', w) := catch_up tpm g e in let '(g'', ws) := run tpm g' es in (g'', w :: ws)
  end.

(** ** The counter's rate

    [paired]: of sixteen readings of the counter, the steady clock and the
    counter again, the one with the narrowest bracket: the middle of the
    bracket and the clock (in nanoseconds). *)
Fixpoint paired_loop (readings : list (Z * Z * Z)) (width tick at_ : Z) : Z * Z :=
  match readings with
  | [] => (tick, at_)
  | (a, c, b) :: rest =>
      if (a <=? b) && (b ⊖₆₄ a <? width)
      then paired_loop rest (b ⊖₆₄ a) (u64 (a + (b ⊖₆₄ a) / 2)) c
      else paired_loop rest width tick at_
  end.
Definition paired (readings : list (Z * Z * Z)) : Z * Z := paired_loop readings (2 ^ 64 - 1) 0 0.

(** The rate from the readings at the two ends of the interval. *)
Definition measure_ticks_per_ms (r0 r1 : list (Z * Z * Z)) : Z :=
  let '(t0, c0) := paired r0 in
  let '(t1, c1) := paired r1 in
  let ns := c1 - c0 in
  let r := if (0 <? ns) && (t0 <? t1) then u64 ((t1 ⊖₆₄ t0) * 1000000) / ns else 0 in
  if r =? 0 then 1 else r.

(** ** The sums *)

Lemma decay_bounds x : 0 ≤ x → 3 * x ≤ 4 * (x - Z.shiftr x 2) ≤ 3 * x + 3.
Proof. intros Hx. rewrite Z.shiftr_div_pow2 by lia. change (2 ^ 2) with 4. pose proof (Z.div_mod x 4). pose proof (Z.mod_pos_bound x 4). lia. Qed.

(** The interval a catch-up adds. *)
Definition interval (g : stream_gate) (now : Z) : Z := Z.min (now - t_ g) kMaxInterval.

Section gate.
Context (tpm A : Z).

(** The rate and the largest number of arrivals between two catch-ups are
    such that the test's products do not overflow; at three million ticks a
    millisecond that is [A] up to 9.6 * 10^8.  The number of catch-ups does
    not matter. *)
Definition fits : Prop := 1 ≤ tpm ∧ 0 ≤ A ∧ kStreamNs * tpm * (64 * A + 260) < 2 ^ 64.

Definition sighting_ok (e : sighting) : Prop := 0 ≤ arrived e ≤ A ∧ 0 ≤ now e < 2 ^ 64.

(** A probe that fills adds to the arrivals and clears the time; the gate
    then reads as a stream until a sample decays the arrivals again, so that
    no two of them add up. *)
Record gate_ok (g : stream_gate) : Prop := {
  go_thr : thr_ g = 0 ∨ thr_ g = kStreamNs * tpm;
  go_t : 0 ≤ t_ g < 2 ^ 64;
  go_tsum : 0 ≤ t_sum_ g ≤ 2 ^ 38 + 3;
  go_asum : 0 ≤ a_sum_ g ≤ 64 * A + 260;
  go_seed : 64 * A + 196 < a_sum_ g → t_sum_ g = 0
}.

(** The probe counter and interval: powers of two from [kProbeEvery] to
    [kProbeMax]; after [kStayOpen] streams in a row the interval is the first. *)
Record probe_ok (g : stream_gate) : Prop := {
  po_every : ∃ j, 0 ≤ j ≤ 8 ∧ probe_every_ g = kProbeEvery * 2 ^ j;
  po_probe : 0 ≤ probe_ g < probe_every_ g;
  po_open : 0 ≤ open_run_ g ≤ kStayOpen ∧ (open_run_ g = kStayOpen → probe_every_ g = kProbeEvery)
}.

Lemma fits_thr : fits → u64 (kStreamNs * tpm) = kStreamNs * tpm.
Proof. intros (? & ? & ?). apply u64_small. unfold kStreamNs in *. nia. Qed.

Lemma fits_asum : fits → 64 * A + 260 < 2 ^ 64.
Proof. intros (? & ? & ?). unfold kStreamNs in *. nia. Qed.

Lemma sample_exact g e : fits → gate_ok g → sighting_ok e →
  sample g (arrived e) (now e) =
    if started_ g && (t_ g <=? now e)
    then (t_sum_ g - Z.shiftr (t_sum_ g) 2 + 16 * interval g (now e), a_sum_ g - Z.shiftr (a_sum_ g) 2 + 16 * arrived e)
    else (t_sum_ g, a_sum_ g).
Proof.
  intros Hf [_ Ht Hts Has _] [Ha Hn]. pose proof (fits_asum Hf). unfold sample, interval, kFrac, kMaxInterval.
  destruct (started_ g); simpl; [|done]. destruct (Z.leb_spec (t_ g) (now e)); [|done].
  pose proof (decay_bounds (t_sum_ g) ltac:(lia)). pose proof (decay_bounds (a_sum_ g) ltac:(lia)).
  rewrite (u64_small (now e - t_ g)) by lia. rewrite !Z.shiftl_mul_pow2 by lia.
  pose proof Hf as (_ & ? & _).
  f_equal.
  - replace (if 2 ^ 32 <? now e - t_ g then 2 ^ 32 else now e - t_ g) with (Z.min (now e - t_ g) (2 ^ 32))
      by (destruct (Z.ltb_spec (2 ^ 32) (now e - t_ g)); lia).
    rewrite (u64_small (_ * 2 ^ 4)) by lia. rewrite u64_small by lia. lia.
  - rewrite (u64_small (_ * 2 ^ 4)) by lia. rewrite u64_small by lia. lia.
Qed.

Lemma set_sample_fields g a w : set_sample g a w =
  Gate (thr_ g) w true (fst (sample g a w)) (snd (sample g a w)) (streams_ g) (probes_ g) (probe_ g) (probe_every_ g) (open_run_ g) false.
Proof. unfold set_sample. by destruct (sample g a w). Qed.

(** The gate [should_wait_at] decides on. *)
Definition seen (g : stream_gate) (e : sighting) : stream_gate := set_sample (set_thr tpm g) (arrived e) (now e).

Lemma set_thr_ok g : fits → gate_ok g → gate_ok (set_thr tpm g) ∧ thr_ (set_thr tpm g) = kStreamNs * tpm.
Proof.
  intros Hf Hg. pose proof (fits_thr Hf) as Hthr. unfold set_thr. destruct (Z.eqb_spec (thr_ g) 0) as [E|E].
  - destruct Hg. split; [split; [right; exact Hthr|done..]|exact Hthr].
  - pose proof (go_thr _ Hg) as [?|?]; [done|]. by split.
Qed.

Lemma set_thr_same g : t_ (set_thr tpm g) = t_ g ∧ started_ (set_thr tpm g) = started_ g ∧
  t_sum_ (set_thr tpm g) = t_sum_ g ∧ a_sum_ (set_thr tpm g) = a_sum_ g.
Proof. unfold set_thr. by destruct (_ =? _). Qed.

(** The sums after a catch-up, exactly. *)
Lemma seen_sums g e : fits → gate_ok g → sighting_ok e →
  thr_ (seen g e) = kStreamNs * tpm ∧
  if started_ g && (t_ g <=? now e)
  then t_sum_ (seen g e) = t_sum_ g - Z.shiftr (t_sum_ g) 2 + 16 * interval g (now e) ∧
       a_sum_ (seen g e) = a_sum_ g - Z.shiftr (a_sum_ g) 2 + 16 * arrived e
  else t_sum_ (seen g e) = t_sum_ g ∧ a_sum_ (seen g e) = a_sum_ g.
Proof.
  intros Hf Hg He. destruct (set_thr_ok g Hf Hg) as [Hg' Hthr]. unfold seen. rewrite set_sample_fields. simpl.
  rewrite (sample_exact _ _ Hf Hg' He). unfold interval. destruct (set_thr_same g) as (-> & -> & -> & ->).
  by destruct (started_ g && (t_ g <=? now e)).
Qed.

Lemma seen_ok g e : fits → gate_ok g → sighting_ok e → gate_ok (seen g e).
Proof.
  intros Hf Hg He. destruct (seen_sums g e Hf Hg He) as [Hthr Hs]. pose proof Hf as (? & ? & _).
  destruct Hg as [_ Ht Hts Has Hse], He as [Ha Hn]. pose proof (decay_bounds (t_sum_ g) ltac:(lia)). pose proof (decay_bounds (a_sum_ g) ltac:(lia)).
  split; [by right| |..].
  - unfold seen. by rewrite set_sample_fields.
  - unfold interval, kMaxInterval in Hs. destruct (started_ g); simpl in Hs; [|lia]. destruct (Z.leb_spec (t_ g) (now e)); lia.
  - unfold interval, kMaxInterval in Hs. destruct (started_ g); simpl in Hs; [|lia]. destruct (Z.leb_spec (t_ g) (now e)); lia.
  - intros Hgt. destruct (started_ g); simpl in Hs; [destruct (Z.leb_spec (t_ g) (now e))|]; destruct Hs as [E1 E2]; rewrite ?E1; lia.
Qed.

(** The rate test is the comparison of the exact products. *)
Lemma reads_exact g : fits → gate_ok g → thr_ g = kStreamNs * tpm →
  reads_as_stream g = true ↔ a_sum_ g ≠ 0 ∧ t_sum_ g * 1000000 ≤ kStreamNs * tpm * a_sum_ g.
Proof.
  intros (H1 & HA & Hf) [_ _ Hts Has _] Hthr. unfold reads_as_stream. rewrite Hthr.
  rewrite !u64_small; [|unfold kStreamNs in *; nia|lia].
  destruct (Z.eqb_spec (a_sum_ g) 0); simpl; [split; [done|lia]|]. rewrite Z.leb_le. lia.
Qed.

(** What a catch-up does to the fields of the gate it has sampled, by case. *)
Lemma catch_up_cases g e : let s := seen g e in let '(g', w) := catch_up tpm g e in
  thr_ g' = thr_ s ∧ t_ g' = t_ s ∧ started_ g' = true ∧ probing_ g' = false ∧
  ((reads_as_stream s = true ∧ w = true ∧ t_sum_ g' = t_sum_ s ∧ a_sum_ g' = a_sum_ s ∧ probe_ g' = 0 ∧
    open_run_ g' = (if open_run_ s <? kStayOpen then u32 (open_run_ s + 1) else open_run_ s) ∧
    probe_every_ g' = (if (open_run_ s <? kStayOpen) && (open_run_ g' =? kStayOpen) then kProbeEvery else probe_every_ s)) ∨
   (reads_as_stream s = false ∧ w = true ∧ probe_every_ s ≤ u32 (probe_ s + 1) ∧ probe_ g' = 0 ∧ open_run_ g' = 0 ∧
    probe_every_ g' = (if probe_every_ s <? kProbeMax then u32 (probe_every_ s * 2) else probe_every_ s) ∧
    (t_sum_ g', a_sum_ g') = (if filled e then (0, u64 (a_sum_ s + 64)) else (t_sum_ s, a_sum_ s))) ∨
   (reads_as_stream s = false ∧ w = false ∧ u32 (probe_ s + 1) < probe_every_ s ∧ probe_ g' = u32 (probe_ s + 1) ∧
    open_run_ g' = 0 ∧ probe_every_ g' = probe_every_ s ∧ t_sum_ g' = t_sum_ s ∧ a_sum_ g' = a_sum_ s)).
Proof.
  simpl. unfold catch_up, should_wait_at. fold (seen g e).
  assert (started_ (seen g e) = true) as Hst by (unfold seen; by rewrite set_sample_fields).
  revert Hst. generalize (seen g e) as s. intros s Hst.
  destruct (reads_as_stream s) eqn:E; simpl.
  { do 4 (split; [done|]). left. by split_and!. }
  destruct (Z.leb_spec (probe_every_ s) (u32 (probe_ s + 1))) as [Hp|Hp]; simpl.
  - unfold waited. simpl. destruct (filled e); simpl; do 4 (split; [done|]); right; left; by split_and!.
  - do 4 (split; [done|]). right; right. by split_and!.
Qed.

Lemma seen_probe g e : probe_ (seen g e) = probe_ g ∧ probe_every_ (seen g e) = probe_every_ g ∧ open_run_ (seen g e) = open_run_ g ∧ t_ (seen g e) = now e.
Proof. unfold seen. rewrite set_sample_fields. simpl. unfold set_thr. by destruct (_ =? _). Qed.

(** Case analysis on a catch-up: [Hs] the sampled gate's fields, [g'] the gate after. *)
Ltac by_case g e g' w :=
  let Hc := fresh "Hc" in
  pose proof (catch_up_cases g e) as Hc; cbv zeta in Hc; destruct (seen_probe g e) as (Hpr & Hev & Hop & Hnow);
  destruct (catch_up tpm g e) as [g' w]; cbv beta iota in Hc; cbn [fst snd];
  rewrite ?Hpr, ?Hev, ?Hop, ?Hnow in Hc; destruct Hc as (Hthr' & Ht' & Hst' & Hpg' & Hc);
  destruct Hc as [(Hrd & -> & Hts' & Has' & Hpr' & Hop' & Hev')
                 |[(Hrd & -> & Hdue & Hpr' & Hop' & Hev' & Hsums')
                  |(Hrd & -> & Hdue & Hpr' & Hop' & Hev' & Hts' & Has')]].

Lemma catch_up_ok g e : fits → gate_ok g → sighting_ok e → gate_ok (fst (catch_up tpm g e)).
Proof.
  intros Hf Hg He. pose proof (seen_ok g e Hf Hg He) as Hs. pose proof (proj1 (seen_sums g e Hf Hg He)) as Hthr.
  pose proof (reads_exact _ Hf Hs Hthr) as Hr. pose proof (fits_asum Hf). pose proof Hf as (H1 & HA & _). destruct Hs as [_ Ht Hts Has Hse].
  assert (reads_as_stream (seen g e) = false → a_sum_ (seen g e) ≤ 64 * A + 196) as Hlow.
  { intros E. destruct (Z.le_gt_cases (a_sum_ (seen g e)) (64 * A + 196)) as [|Hgt]; [done|]. specialize (Hse ltac:(lia)).
    rewrite (proj2 Hr) in E; [done|]. rewrite Hse. unfold kStreamNs. split; nia. }
  by_case g e g' w.
  - split; [right; congruence|lia|lia|lia|]. by rewrite Hts', Has'.
  - specialize (Hlow Hrd). destruct (filled e); injection Hsums' as E1 E2.
    + rewrite u64_small in E2 by lia. split; [right; congruence|lia..].
    + split; [right; congruence|lia|lia|lia|]. by rewrite E1, E2.
  - split; [right; congruence|lia|lia|lia|]. by rewrite Hts', Has'.
Qed.

Lemma pow2_every j : 0 ≤ j ≤ 8 → 256 ≤ kProbeEvery * 2 ^ j ≤ 65536 ∧ (j < 8 → kProbeEvery * 2 ^ j < kProbeMax) ∧ (j = 8 → kProbeEvery * 2 ^ j = kProbeMax).
Proof.
  intros Hj. unfold kProbeEvery, kProbeMax. assert (2 ^ 0 ≤ 2 ^ j ≤ 2 ^ 8) by (split; apply Z.pow_le_mono_r; lia).
  split; [lia|]. split; intros E; [assert (2 ^ j ≤ 2 ^ 7) by (apply Z.pow_le_mono_r; lia); lia|subst; lia].
Qed.

(** The next interval: doubled, up to [kProbeMax]. *)
Lemma every_next j : 0 ≤ j ≤ 8 →
  (if kProbeEvery * 2 ^ j <? kProbeMax then u32 (kProbeEvery * 2 ^ j * 2) else kProbeEvery * 2 ^ j) = kProbeEvery * 2 ^ (Z.min (j + 1) 8).
Proof.
  intros Hj. destruct (pow2_every j Hj) as (? & Hlt & Heq). unfold kProbeMax in *. destruct (decide (j = 8)) as [->|].
  - done.
  - specialize (Hlt ltac:(lia)). rewrite (proj2 (Z.ltb_lt _ _) Hlt). rewrite u32_small by lia.
    rewrite Z.min_l, Z.pow_add_r by lia. lia.
Qed.

Lemma catch_up_probe g e : probe_ok g → probe_ok (fst (catch_up tpm g e)).
Proof.
  intros [(j & Hj & Hje) Hpo [Hor Hopen]]. destruct (pow2_every j Hj) as (Hb & _).
  by_case g e g' w; unfold kStayOpen in *.
  - rewrite Hop' in Hev'. destruct (Z.ltb_spec (open_run_ g) 8); simpl in Hev'.
    + rewrite u32_small in Hev', Hop' by lia. destruct (Z.eqb_spec (open_run_ g + 1) 8); simpl in Hev'.
      * split; [exists 0; split; [lia|by rewrite Hev']|unfold kProbeEvery in *; lia|unfold kStayOpen; lia].
      * split; [exists j; split; [lia|congruence]|lia|unfold kStayOpen; lia].
    + split; [exists j; split; [lia|congruence]|lia|]. split; [unfold kStayOpen; lia|]. intros _. rewrite Hev'. apply Hopen. lia.
  - rewrite Hje, every_next in Hev' by done. destruct (pow2_every (Z.min (j + 1) 8)) as (? & _); [lia|].
    split; [exists (Z.min (j + 1) 8); split; [lia|done]|lia|unfold kStayOpen; lia].
  - rewrite u32_small in * by lia. split; [exists j; split; [lia|congruence]|lia|unfold kStayOpen; lia].
Qed.

(** The gates of a run. *)
Lemma run_cons g e es : run tpm g (e :: es) =
  (fst (run tpm (fst (catch_up tpm g e)) es), snd (catch_up tpm g e) :: snd (run tpm (fst (catch_up tpm g e)) es)).
Proof. simpl. destruct (catch_up tpm g e) as [g' w]. simpl. by destruct (run tpm g' es). Qed.

Lemma run_ok es : ∀ g, fits → gate_ok g → Forall sighting_ok es → gate_ok (fst (run tpm g es)).
Proof.
  induction es as [|e es IH]; intros g Hf Hg Hes; [done|]. rewrite run_cons. apply Forall_cons_1 in Hes as [He Hes]. simpl fst.
  apply IH; [done|by apply catch_up_ok|done].
Qed.

Lemma run_probe es : ∀ g, probe_ok g → probe_ok (fst (run tpm g es)).
Proof. induction es as [|e es IH]; intros g Hg; [done|]. rewrite run_cons. apply IH. by apply catch_up_probe. Qed.

Lemma gate0_ok : 0 ≤ A → gate_ok gate0.
Proof. split; simpl; lia. Qed.

Lemma gate0_probe : probe_ok gate0.
Proof. split; simpl; [exists 0; split; [lia|done]|unfold kProbeEvery; lia|unfold kStayOpen; lia]. Qed.

(** ** A paced producer, and one that streams *)

(** From a catch-up at [t] on, every interval is longer than [kStreamNs] for
    each element that arrived in it, and one more. *)
Fixpoint paced (t : Z) (es : list sighting) : Prop :=
  match es with
  | [] => True
  | e :: es =>
      filled e = false ∧ (t ≤ now e → kStreamNs * tpm * (arrived e + 1) ≤ Z.min (now e - t) kMaxInterval * 1000000) ∧
      paced (now e) es
  end.

(** From a catch-up at [t] on, every interval is shorter than [kStreamNs] for
    each element that arrived in it, by a tick at least. *)
Fixpoint streaming (t : Z) (es : list sighting) : Prop :=
  match es with
  | [] => True
  | e :: es => t ≤ now e ∧ (now e - t + 1) * 1000000 ≤ kStreamNs * tpm * arrived e ∧ streaming (now e) es
  end.

(** The sums of a gate that has only seen a paced producer. *)
Definition slow (g : stream_gate) : Prop :=
  0 ≤ t_sum_ g ∧ 0 ≤ a_sum_ g ∧ (a_sum_ g = 0 ∨ kStreamNs * tpm * a_sum_ g < t_sum_ g * 1000000) ∧
  kStreamNs * tpm * a_sum_ g ≤ t_sum_ g * 1000000.

Lemma slow_seen g e : fits → gate_ok g → sighting_ok e → slow g →
  (started_ g = true → t_ g ≤ now e → kStreamNs * tpm * (arrived e + 1) ≤ interval g (now e) * 1000000) →
  slow (seen g e) ∧ reads_as_stream (seen g e) = false.
Proof.
  intros Hf Hg He (Hs1 & Hs2 & Hs3 & Hs4) Hp. destruct (seen_sums g e Hf Hg He) as [Hthr Hs].
  pose proof (decay_bounds (t_sum_ g) Hs1) as D1. pose proof (decay_bounds (a_sum_ g) Hs2) as D2. pose proof Hf as (? & ? & _).
  assert (slow (seen g e)) as Hslow.
  { destruct (started_ g); simpl in Hs; [destruct (Z.leb_spec (t_ g) (now e))|]; destruct Hs as [E1 E2];
      unfold slow; rewrite E1, E2; [|done|done].
    specialize (Hp eq_refl ltac:(done)). destruct He as [Ha _]. unfold kStreamNs in *.
    assert (0 ≤ interval g (now e)) by (unfold interval, kMaxInterval; lia).
    split_and!; [lia|lia|right; nia|nia]. }
  split; [done|]. destruct (reads_as_stream (seen g e)) eqn:E; [|done].
  apply (reads_exact _ Hf (seen_ok g e Hf Hg He) Hthr) in E as [E1 E2]. destruct Hslow as (_ & _ & [?|?] & _); lia.
Qed.

(** The probes among the first [m] catch-ups none of which reads as a stream:
    at the 256th, the 768th, and so on with doubling distances up to
    [kProbeMax], and then one every [kProbeMax]. *)
Definition probes_in (m : Z) : Z :=
  if m <? 65280 then Z.log2 (m / 256 + 1) else 8 + (m - 65280) / 65536.

Definition probes_at (m w : Z) (g : stream_gate) : Prop :=
  ∃ j q, 0 ≤ j ≤ 8 ∧ 0 ≤ q ∧ probe_every_ g = kProbeEvery * 2 ^ j ∧ w = j + q ∧ (q = 0 ∨ j = 8) ∧
    m = 256 * (2 ^ j - 1) + 65536 * q + probe_ g ∧ 0 ≤ probe_ g < probe_every_ g.

Lemma probes_at_in m w g : probes_at m w g → w = probes_in m.
Proof.
  intros (j & q & Hj & Hq & He & -> & Hqj & -> & Hp). unfold probes_in. rewrite He in Hp. unfold kProbeEvery in *.
  destruct (pow2_every j Hj) as (Hb & _). unfold kProbeEvery in *.
  destruct (Z.ltb_spec (256 * (2 ^ j - 1) + 65536 * q + probe_ g) 65280) as [Hlt|Hge].
  - assert (q = 0) as -> by lia. rewrite Z.add_0_r. symmetry. apply Z.log2_unique; [lia|].
    rewrite Z.pow_succ_r by lia. pose proof (Z.div_mod (256 * (2 ^ j - 1) + 65536 * 0 + probe_ g) 256).
    pose proof (Z.mod_pos_bound (256 * (2 ^ j - 1) + 65536 * 0 + probe_ g) 256). lia.
  - assert (j = 8) as ->.
    { destruct (decide (j = 8)) as [|]; [done|]. assert (2 ^ j ≤ 2 ^ 7) by (apply Z.pow_le_mono_r; lia). lia. }
    change (2 ^ 8) with 256 in *. f_equal. apply Z.div_unique with (r := probe_ g); lia.
Qed.

Lemma probes_at_step m w g e : probes_at m w g → reads_as_stream (seen g e) = false →
  probes_at (m + 1) (w + Z.b2z (snd (catch_up tpm g e))) (fst (catch_up tpm g e)).
Proof.
  intros (j & q & Hj & Hq & He & -> & Hqj & -> & Hp) Hr. destruct (pow2_every j Hj) as (Hb & _).
  by_case g e g' w; [congruence|..].
  - rewrite u32_small in Hdue by lia. rewrite He, every_next in Hev' by done. exists (Z.min (j + 1) 8), (if decide (j = 8) then q + 1 else q).
    destruct (pow2_every (Z.min (j + 1) 8)) as (? & _); [lia|]. unfold kProbeEvery in *.
    destruct (decide (j = 8)) as [->|].
    + change (Z.min (8 + 1) 8) with 8 in *. simpl Z.b2z. change (2 ^ 8) with 256 in *. split_and!; try lia.
    + rewrite Z.min_l in * by lia. rewrite Z.pow_add_r in * by lia. change (2 ^ 1) with 2 in *. simpl Z.b2z. split_and!; lia.
  - rewrite u32_small in * by lia. exists j, q. simpl. split_and!; try lia; congruence.
Qed.

(** The waits of a run, counted. *)
Definition waits (ws : list bool) : Z := Z.of_nat (length (filter (λ b, b = true) ws)).

Lemma waits_cons b ws : waits (b :: ws) = Z.b2z b + waits ws.
Proof. unfold waits. rewrite filter_cons. destruct b; case_decide; simpl; lia || done. Qed.

Lemma paced_run es : ∀ m w g, fits → gate_ok g → Forall sighting_ok es → slow g →
  probes_at m w g → (if started_ g then paced (t_ g) es else match es with [] => True | e :: es => filled e = false ∧ paced (now e) es end) →
  probes_at (m + Z.of_nat (length es)) (w + waits (snd (run tpm g es))) (fst (run tpm g es)).
Proof.
  induction es as [|e es IH]; intros m w g Hf Hg Hes Hsl Hpr Hpa; [simpl; unfold waits; simpl; by rewrite !Z.add_0_r|].
  rewrite run_cons. apply Forall_cons_1 in Hes as [He Hes]. simpl length in *. cbn [fst snd]. rewrite waits_cons.
  assert (filled e = false ∧ paced (now e) es ∧ (started_ g = true → t_ g ≤ now e → kStreamNs * tpm * (arrived e + 1) ≤ interval g (now e) * 1000000))
    as (Hfl & Hpa' & Hin) by (destruct (started_ g); [destruct Hpa as (? & ? & ?)|destruct Hpa]; done).
  destruct (slow_seen g e Hf Hg He Hsl Hin) as [Hsl' Hr].
  pose proof (probes_at_step m w g e Hpr Hr) as Hpr'.
  pose proof (catch_up_ok g e Hf Hg He) as Hg'.
  replace (m + Z.of_nat (S (length es))) with (m + 1 + Z.of_nat (length es)) by lia. rewrite Z.add_assoc.
  apply IH; try done.
  - clear -Hsl' Hfl Hr. by_case g e g' w; [congruence| |unfold slow; by rewrite Hts', Has'].
    rewrite Hfl in Hsums'. injection Hsums' as E1 E2. unfold slow. by rewrite E1, E2.
  - clear -Hpa'. by_case g e g' w; by rewrite Hst', Ht'.
Qed.

(** The sums of a gate whose producer has been streaming. *)
Definition fast (g : stream_gate) : Prop := t_sum_ g * 1000000 ≤ kStreamNs * tpm * a_sum_ g.

Lemma fast_seen g e : fits → gate_ok g → sighting_ok e → fast g → started_ g = true → t_ g ≤ now e →
  (now e - t_ g + 1) * 1000000 ≤ kStreamNs * tpm * arrived e →
  fast (seen g e) ∧ reads_as_stream (seen g e) = true.
Proof.
  intros Hf Hg He Hfa Hst Ht Hr. destruct (seen_sums g e Hf Hg He) as [Hthr Hs].
  rewrite Hst, (proj2 (Z.leb_le _ _) Ht) in Hs. simpl in Hs. destruct Hs as [E1 E2].
  pose proof (decay_bounds (t_sum_ g) ltac:(destruct Hg; lia)) as D1.
  pose proof (decay_bounds (a_sum_ g) ltac:(destruct Hg; lia)) as D2. pose proof Hf as (? & ? & _).
  assert (interval g (now e) ≤ now e - t_ g) by (unfold interval; lia). destruct He as [Ha Hno].
  assert (fast (seen g e)) as Hfa' by (unfold fast, kStreamNs in *; rewrite E1, E2; nia).
  split; [done|]. apply (reads_exact _ Hf (seen_ok g e Hf Hg (conj Ha Hno)) Hthr). split; [|done].
  assert (0 < arrived e) by (unfold kStreamNs in *; nia). pose proof (go_asum _ Hg). lia.
Qed.

Lemma streaming_run es : ∀ g, fits → gate_ok g → probe_ok g → Forall sighting_ok es →
  started_ g = true → fast g → streaming (t_ g) es →
  Forall (λ w, w = true) (snd (run tpm g es)) ∧
  open_run_ (fst (run tpm g es)) = Z.min kStayOpen (open_run_ g + Z.of_nat (length es)).
Proof.
  induction es as [|e es IH]; intros g Hf Hg Hp Hes Hst Hfa Hs.
  { simpl. split; [done|]. destruct (po_open _ Hp). lia. }
  rewrite run_cons. apply Forall_cons_1 in Hes as [He Hes]. simpl length in *. cbn [fst snd]. destruct Hs as (Ht & Hr & Hs).
  destruct (fast_seen g e Hf Hg He Hfa Hst Ht Hr) as [Hfa' Hrd'].
  assert (snd (catch_up tpm g e) = true ∧ started_ (fst (catch_up tpm g e)) = true ∧ fast (fst (catch_up tpm g e)) ∧
    t_ (fst (catch_up tpm g e)) = now e ∧ open_run_ (fst (catch_up tpm g e)) = Z.min kStayOpen (open_run_ g + 1)) as (Ew & Es & Ef & Et & Eo).
  { pose proof (po_open _ Hp). unfold kStayOpen in *. by_case g e g' w; [|congruence..]. split_and!; try done.
    - unfold fast. by rewrite Hts', Has'.
    - rewrite Hop'. unfold kStayOpen in *. destruct (Z.ltb_spec (open_run_ g) 8); [rewrite u32_small|]; lia. }
  destruct (IH (fst (catch_up tpm g e))) as [IHw IHo]; try done; [..|by rewrite Et|].
  - by apply catch_up_ok.
  - by apply catch_up_probe.
  - split; [by constructor|]. rewrite IHo, Eo. pose proof (po_open _ Hp). lia.
Qed.

(** ** The properties *)

(** C19: The gate's arithmetic is exact.  Let [A] bound the elements that
    arrive between two catch-ups and [tpm] be the counter's rate, with
    [100 * tpm * (64 * A + 260)] below [2^64] (at 3 GHz, [A] up to 9.6 * 10^8).
    Then over any sequence of catch-ups, of any length, with the counter
    reading anything each time, and after it any one more: the decayed sums
    are the exact ones and do not wrap, the interval sum stays below
    [2^38 + 4], and the catch-up waits exactly when the sums, as integers, say
    at most [kStreamNs] per element, or a probe is due. *)
Theorem gate_exact es e : fits → Forall sighting_ok es → sighting_ok e →
  let g := fst (run tpm gate0 es) in
  let sums := if started_ g && (t_ g <=? now e)
    then (t_sum_ g - t_sum_ g / 4 + 16 * interval g (now e), a_sum_ g - a_sum_ g / 4 + 16 * arrived e)
    else (t_sum_ g, a_sum_ g) in
  (t_sum_ (seen g e), a_sum_ (seen g e)) = sums ∧ 0 ≤ fst sums < 2 ^ 38 + 4 ∧ 0 ≤ snd sums ≤ 64 * A + 260 ∧
  (snd (catch_up tpm g e) = true ↔
     (snd sums ≠ 0 ∧ fst sums * 1000000 ≤ kStreamNs * tpm * snd sums) ∨ probe_every_ g ≤ probe_ g + 1).
Proof.
  intros Hf Hes He g. pose proof Hf as (_ & HA & _).
  pose proof (run_ok es gate0 Hf (gate0_ok HA) Hes) as Hg. fold g in Hg.
  pose proof (run_probe es gate0 gate0_probe) as Hp. fold g in Hp. clearbody g.
  destruct (seen_sums g e Hf Hg He) as [Hthr Hs]. pose proof (seen_ok g e Hf Hg He) as Hso.
  pose proof (reads_exact _ Hf Hso Hthr) as Hr. rewrite !Z.shiftr_div_pow2 in Hs by lia. change (2 ^ 2) with 4 in Hs.
  assert (u32 (probe_ g + 1) = probe_ g + 1) as Hu.
  { destruct (po_every _ Hp) as (j & Hj & Ej). destruct (pow2_every j Hj). pose proof (po_probe _ Hp). apply u32_small. lia. }
  intros sums. assert ((t_sum_ (seen g e), a_sum_ (seen g e)) = sums) as Hsums.
  { unfold sums. destruct (started_ g && (t_ g <=? now e)); by destruct Hs as [-> ->]. }
  split; [exact Hsums|]. rewrite <-Hsums. clear Hsums sums.
  cbn [fst snd]. split; [pose proof (go_tsum _ Hso); lia|]. split; [apply (go_asum _ Hso)|]. rewrite <-Hr. clear Hs.
  by_case g e g' w; rewrite ?Hu in *; rewrite Hrd; split; try tauto; try done. intros [?|?]; [done|lia].
Qed.

(** A paced producer (every interval longer than [kStreamNs] per element,
    probes that do not fill) never reads as a stream: the consumer waits at
    the probes only, [probes_in m] of them in [m] catch-ups, eight in the
    first 65280 and then one every [kProbeMax]. *)
Theorem paced_waits e es : fits → Forall sighting_ok (e :: es) →
  filled e = false → paced (now e) es →
  waits (snd (run tpm gate0 (e :: es))) = probes_in (Z.of_nat (length (e :: es))).
Proof.
  intros Hf Hes Hfl Hpa. pose proof Hf as (_ & HA & _). apply (probes_at_in _ _ (fst (run tpm gate0 (e :: es)))).
  apply (paced_run (e :: es) 0 0 gate0); try done; [by apply gate0_ok| |].
  - split_and!; simpl; solve [lia|by left].
  - exists 0, 0. unfold kProbeEvery. split_and!; simpl; solve [done|lia|by left|unfold kProbeEvery; lia].
Qed.

(** A producer that streams (every interval shorter than [kStreamNs] per
    element) is waited for at every catch-up after the first, and after
    [kStayOpen] of them the next probe would again be [kProbeEvery] away. *)
Theorem streaming_waits e es : fits → Forall sighting_ok (e :: es) →
  streaming (now e) es →
  Forall (λ w, w = true) (tail (snd (run tpm gate0 (e :: es)))) ∧
  (kStayOpen ≤ Z.of_nat (length es) → probe_every_ (fst (run tpm gate0 (e :: es))) = kProbeEvery).
Proof.
  intros Hf Hes Hs. pose proof Hf as (_ & HA & _). rewrite run_cons. cbn [fst snd tail].
  apply Forall_cons_1 in Hes as [He Hes].
  assert (gate_ok (fst (catch_up tpm gate0 e))) as Hg by (apply catch_up_ok; [done|by apply gate0_ok|done]).
  pose proof (catch_up_probe gate0 e gate0_probe) as Hp.
  destruct (streaming_run es (fst (catch_up tpm gate0 e))) as [Hw Ho]; try done.
  - unfold fast. destruct (seen_sums gate0 e) as [_ [E1 E2]]; try done; [by apply gate0_ok|].
    assert (reads_as_stream (seen gate0 e) = false) as Hno by (unfold reads_as_stream; by rewrite E2).
    by_case gate0 e g' w; [congruence| |rewrite Hts', Has', E1, E2; simpl; lia]. exfalso. by vm_compute in Hdue.
  - split; [done|]. intros Hk. pose proof (run_probe es _ Hp) as Hp'. destruct (po_open _ Hp') as [_ Hop8]. apply Hop8.
    rewrite Ho. destruct (po_open _ Hp). lia.
Qed.

(** C20: Whatever the clock and the producer do, a consumer that is never told
    to wait is told to within [kProbeMax] catch-ups: a gate cannot stay shut. *)
Theorem probes_within es0 es : kProbeMax ≤ Z.of_nat (length es) → true ∈ snd (run tpm (fst (run tpm gate0 es0)) es).
Proof.
  pose proof (run_probe es0 gate0 gate0_probe) as Hp. revert Hp. generalize (fst (run tpm gate0 es0)) as g. intros g Hp Hlen.
  assert (∀ es g, probe_ok g → true ∉ snd (run tpm g es) →
    probe_ (fst (run tpm g es)) = probe_ g + Z.of_nat (length es) ∧ probe_ok (fst (run tpm g es))) as Hmain.
  { clear. induction es as [|e es IH]; intros g Hp Hno; [simpl; split; [lia|done]|].
    rewrite run_cons in *. cbn [fst snd length] in *. apply not_elem_of_cons in Hno as [Hw Hno].
    pose proof (catch_up_probe g e Hp) as Hp'. destruct (IH _ Hp' Hno) as [-> ?]. split; [|done].
    destruct (po_every _ Hp) as (j & Hj & Ej). destruct (pow2_every j Hj). pose proof (po_probe _ Hp).
    clear IH Hp' Hno. revert Hw. by_case g e g' w; try done. intros _. rewrite u32_small in Hpr' by lia. lia. }
  destruct (decide (true ∈ snd (run tpm g es))) as [|Hno]; [done|]. destruct (Hmain es g Hp Hno) as [E Hp'].
  destruct (po_every _ Hp') as (j & Hj & Ej). destruct (pow2_every j Hj) as [? _]. pose proof (po_probe _ Hp'). pose proof (po_probe _ Hp).
  unfold kProbeMax in *. lia.
Qed.
End gate.

(** ** The rate *)

Definition bracket_ok (x : Z * Z * Z) : Prop := let '(a, _, b) := x in 0 ≤ a < 2 ^ 64 ∧ 0 ≤ b < 2 ^ 64.

(** Every bracket seen is at least as wide as the one kept. *)
Lemma paired_loop_spec readings : ∀ width tick at_, Forall bracket_ok readings →
  let '(tick', at_') := paired_loop readings width tick at_ in
  ∃ w, w ≤ width ∧ (∀ a c b, (a, c, b) ∈ readings → a ≤ b → w ≤ b - a) ∧
    ((w = width ∧ tick' = tick ∧ at_' = at_) ∨ ∃ a c b, (a, c, b) ∈ readings ∧ w = b - a ∧ a ≤ tick' ≤ b ∧ at_' = c).
Proof.
  induction readings as [|[[a c] b] rest IH]; intros width tick at_ Hok; simpl.
  { exists width. split_and!; [done| |by left]. intros ? ? ? []%not_elem_of_nil. }
  apply Forall_cons_1 in Hok as [[Ha Hb] Hok].
  destruct (Z.leb_spec a b) as [Hab|Hab]; simpl; [rewrite u64_small by lia; destruct (Z.ltb_spec (b - a) width) as [Hw|Hw]|].
  - specialize (IH (b - a) (u64 (a + (b - a) / 2)) c Hok). destruct (paired_loop _ _ _ _) as [tick' at'].
    destruct IH as (w & Hle & Hall & Hor). exists w. split_and!; [lia|..].
    + intros a' c' b' [E|Hin]%elem_of_cons Hab'; [simplify_eq; lia|by eapply Hall].
    + right. destruct Hor as [(-> & -> & ->)|(a' & c' & b' & Hin & ?)]; [exists a, c, b|exists a', c', b'; split; [by right|done]].
      pose proof (Z.div_mod (b - a) 2 ltac:(lia)). pose proof (Z.mod_pos_bound (b - a) 2). rewrite u64_small by lia.
      split_and!; try done; [by left|lia..].
  - specialize (IH width tick at_ Hok). destruct (paired_loop _ _ _ _) as [tick' at'].
    destruct IH as (w & Hle & Hall & Hor). exists w. split_and!; [lia|..].
    + intros a' c' b' [E|Hin]%elem_of_cons Hab'; [simplify_eq; lia|by eapply Hall].
    + destruct Hor as [?|(a' & c' & b' & Hin & ?)]; [by left|right; exists a', c', b'; split; [by right|done]].
  - specialize (IH width tick at_ Hok). destruct (paired_loop _ _ _ _) as [tick' at'].
    destruct IH as (w & Hle & Hall & Hor). exists w. split_and!; [lia|..].
    + intros a' c' b' [E|Hin]%elem_of_cons Hab'; [simplify_eq; lia|by eapply Hall].
    + destruct Hor as [?|(a' & c' & b' & Hin & ?)]; [by left|right; exists a', c', b'; split; [by right|done]].
Qed.

(** The clock read used for the counter's rate is one bracketed by two
    counter reads, the counter value paired with it lies inside that
    bracket, and no other usable bracket of the sixteen is narrower: a
    preemption between clock and counter widens its bracket and is left out. *)
Theorem paired_narrowest readings a0 c0 b0 : Forall bracket_ok readings →
  (a0, c0, b0) ∈ readings → a0 ≤ b0 → b0 - a0 < 2 ^ 64 - 1 →
  ∃ a c b, (a, c, b) ∈ readings ∧ a ≤ fst (paired readings) ≤ b ∧ snd (paired readings) = c ∧
    ∀ a' c' b', (a', c', b') ∈ readings → a' ≤ b' → b - a ≤ b' - a'.
Proof.
  intros Hok Hin Hab Hw. pose proof (paired_loop_spec readings (2 ^ 64 - 1) 0 0 Hok) as H. unfold paired.
  destruct (paired_loop _ _ _ _) as [tick at_]. destruct H as (w & Hle & Hall & Hor).
  destruct Hor as [(-> & _)|(a & c & b & Hi & -> & Ht & ->)].
  - specialize (Hall _ _ _ Hin Hab). lia.
  - exists a, c, b. split; [exact Hi|]. split; [exact Ht|]. split; [reflexivity|exact Hall].
Qed.

Definition demo_readings : list (Z * Z * Z) := [(100, 7, 190); (200, 40, 220); (300, 70, 500); (600, 90, 590)].

Lemma paired_narrowest_witness : paired demo_readings = (210, 40) ∧
  ∃ a c b, (a, c, b) ∈ demo_readings ∧ a ≤ 210 ≤ b ∧ 40 = c ∧ ∀ a' c' b', (a', c', b') ∈ demo_readings → a' ≤ b' → b - a ≤ b' - a'.
Proof.
  split; [reflexivity|]. apply (paired_narrowest demo_readings 200 40 220); [|right; left|lia|lia].
  repeat constructor; vm_compute; done.
Defined.

(** ** Sequences the theorems apply to

    A counter of three million ticks a millisecond: [kStreamNs] is 300 ticks. *)

Definition tpm0 : Z := 3000000.
Definition every_ticks (dt a : Z) (n : nat) : list sighting := (λ i, Sighting a (Z.of_nat i * dt) false) <$> seq 1 n.

Lemma gate_exact_witness : snd (catch_up tpm0 (fst (run tpm0 gate0 (every_ticks 100 2 3))) (Sighting 2 400 true)) = true.
Proof.
  apply (gate_exact tpm0 2 (every_ticks 100 2 3) (Sighting 2 400 true)).
  - vm_compute. split_and!; done.
  - repeat constructor; vm_compute; done.
  - split; vm_compute; done.
  - left. vm_compute. split; done.
Defined.

Lemma paced_waits_witness : waits (snd (run tpm0 gate0 (every_ticks 3000 1 300))) = 1.
Proof.
  change (every_ticks 3000 1 300) with (Sighting 1 3000 false :: tail (every_ticks 3000 1 300)).
  rewrite (paced_waits tpm0 1); [vm_compute; reflexivity|..].
  - vm_compute. split_and!; done.
  - change (Forall (sighting_ok 1) (every_ticks 3000 1 300)). unfold every_ticks. apply Forall_fmap, Forall_seq. intros i Hi. split; simpl; lia.
  - reflexivity.
  - vm_compute. repeat (split; [reflexivity|split; [intros _ E; discriminate E|]]). exact I.
Defined.

Lemma streaming_waits_witness : probe_every_ (fst (run tpm0 gate0 (every_ticks 100 2 10))) = kProbeEvery.
Proof.
  change (every_ticks 100 2 10) with (Sighting 2 100 false :: tail (every_ticks 100 2 10)).
  apply (streaming_waits tpm0 2).
  - vm_compute. split_and!; done.
  - repeat constructor; vm_compute; done.
  - vm_compute. repeat (split; [done|split; [done|]]). exact I.
  - vm_compute. done.
Defined.

Lemma probes_within_witness : true ∈ snd (run tpm0 (fst (run tpm0 gate0 [])) (replicate (Z.to_nat kProbeMax) (Sighting 0 5 false))).
Proof. apply (probes_within tpm0 []). rewrite length_replicate, Z2Nat.id; vm_compute; intros E; discriminate E. Defined.
End StreamGate.
