(* ===== verification/SpscRing.v ===== *)
(** * The single-producer single-consumer ring (src/runtime/spsc_ring.hpp)

    A step machine for [wtc::rt::spsc_ring]: blocks of [kSlots] slots linked
    in a ring, the producer's and the consumer's private state, the two
    published counters, and every operation (push, push_deferred, publish,
    consume, try_pop_borrow, the destructor), one access to shared memory
    per step.  A block is its index in the list of blocks allocated.  The
    state carries two items of history no step reads: the largest number of
    elements in flight ([high]) and the element lent out ([lent_val]); [bad]
    records an access the language leaves undefined. *)

From S2P Require Import Prelude Lts Contract Machine StreamGate.

Module SpscRing.
Import StreamGate.
Local Open Scope Z_scope.
Local Open Scope wtc_scope.

Definition kBlockBytes : Z := 128 * 1024.
Definition default_slots (sizeof_slot : Z) : Z :=
  let n := kBlockBytes / sizeof_slot in if n <? 2 then 2 else n.

Definition kSlipPauses : Z := 64.
Definition kSlipGapMax : Z := 32.
Definition kRateScale : Z := 16.

Definition kSlipMax (sizeof_slot kSlots kLine : Z) : Z :=
  let n := 32 * kLine / sizeof_slot in
  let n := if kSlots / 4 <? n then kSlots / 4 else n in
  if n <? 2 then 2 else n.

(** The template's parameters, and the counter's rate. *)
Record params := Params { sizeof_slot : Z; kSlots : Z; kLine : Z; tpm : Z }.
Definition slipMax (cf : params) : Z := kSlipMax (sizeof_slot cf) (kSlots cf) (kLine cf).

Section ring.
Context {T : Type}.

Record block := Block { next : nat; end_ : Z; slots : list (option T) }.

Record producer_state := Producer { p_blk : nat; p_count : Z; p_off : Z; cached_pop : Z }.
Record consumer_state := Consumer {
  c_blk : nat; c_count : Z; c_off : Z; cached_push : Z; lent : option (nat * Z);
  batch : Z; rate : Z; slips : Z; at_catch : Z; gate : stream_gate
}.
Record ring := Ring {
  blocks : list block; p_ : producer_state; push_pub_ : Z; c_ : consumer_state; pop_pub_ : Z;
  high : Z; lent_val : option T; bad : bool
}.

Inductive op : Type := Push (v : T) | PushDeferred (v : T) | Publish | Consume | TryPopBorrow.
Inductive res : Type := RUnit | RPop (o : option T) | RBorrow (o : option (nat * Z)).

Inductive pc : Type :=
| PcIdle
| PcBad
| PcDone (r : res)
(* push, push_deferred ([pub]: push) *)
| PushStart (v : T) (pub : bool)
| TurnPop (v : T) (pub : bool) (cand : nat)      (* turn_over: reads pop_pub_ *)
| TurnLink (v : T) (pub : bool) (nb : nat)       (* turn_over: links the new block *)
| PushWrite (v : T) (pub : bool)
| PubStore
(* consume, try_pop_borrow ([b]: borrow) *)
| PopStart (b : bool)
| PopCheck (b : bool)                            (* advance *)
| PopSlip (b : bool) (delta waits : Z)           (* slip: a poll *)
| PopNext (b : bool)                             (* advance: leaves the block if it is done *)
| PopAnnounce (b : bool)
| PopGet (b : bool).

Section ops.
Context (cf : params).

Definition make_block : block := Block 0 0 (replicate (Z.to_nat (kSlots cf)) None).

Definition spsc_ring : ring :=
  Ring [Block 1 (kSlots cf) (slots make_block); Block 0 0 (slots make_block)]
    (Producer 0 0 0 0) 0 (Consumer 0 0 0 0 None 1 kRateScale 0 0 gate0) 0 0 None false.

Definition enter (o : op) : pc :=
  match o with
  | Push v => PushStart v true
  | PushDeferred v => PushStart v false
  | Publish => PubStore
  | Consume => PopStart false
  | TryPopBorrow => PopStart true
  end.

(** Slot [i] of block [b]. *)
Definition at_ (s : ring) (b : nat) (i : Z) : option (option T) :=
  blocks s !! b ≫= λ k, slots k !! Z.to_nat i.
Definition set_slot (s : ring) (b : nat) (i : Z) (x : option T) : ring :=
  Ring (alter (λ k, Block (next k) (end_ k) (<[Z.to_nat i:=x]> (slots k))) b (blocks s))
    (p_ s) (push_pub_ s) (c_ s) (pop_pub_ s) (high s) (lent_val s) (bad s).
Definition set_p (s : ring) (p : producer_state) : ring :=
  Ring (blocks s) p (push_pub_ s) (c_ s) (pop_pub_ s) (high s) (lent_val s) (bad s).
Definition set_c (s : ring) (c : consumer_state) : ring :=
  Ring (blocks s) (p_ s) (push_pub_ s) c (pop_pub_ s) (high s) (lent_val s) (bad s).
Definition set_blocks (s : ring) (bs : list block) : ring :=
  Ring bs (p_ s) (push_pub_ s) (c_ s) (pop_pub_ s) (high s) (lent_val s) (bad s).
Definition set_push_pub (s : ring) (n : Z) : ring :=
  Ring (blocks s) (p_ s) n (c_ s) (pop_pub_ s) (high s) (lent_val s) (bad s).
Definition set_pop_pub (s : ring) (n : Z) : ring :=
  Ring (blocks s) (p_ s) (push_pub_ s) (c_ s) n (high s) (lent_val s) (bad s).
Definition set_history (s : ring) (h : Z) (l : option T) : ring :=
  Ring (blocks s) (p_ s) (push_pub_ s) (c_ s) (pop_pub_ s) h l (bad s).
Definition set_bad (s : ring) : ring :=
  Ring (blocks s) (p_ s) (push_pub_ s) (c_ s) (pop_pub_ s) (high s) (lent_val s) true.

Definition set_end (e : Z) (k : block) : block := Block (next k) e (slots k).
Definition set_next (n : nat) (k : block) : block := Block n (end_ k) (slots k).

(** ** The producer *)

(** [turn_over] once the candidate is known to be drained: take it. *)
Definition reuse (s : ring) (cand : nat) (cached : Z) : ring :=
  set_p (set_blocks s (alter (set_end (p_count (p_ s) ⊕₆₄ kSlots cf)) cand (blocks s)))
    (Producer cand (p_count (p_ s)) 0 cached).

Definition turn_over_step (s : ring) (p : pc) : option (ring * pc) :=
  match p with
  | PushStart v pub =>
      match blocks s !! p_blk (p_ s) with
      | Some k =>
          match blocks s !! next k with
          | Some cand =>
              if end_ cand <=? cached_pop (p_ s)
              then Some (reuse s (next k) (cached_pop (p_ s)), PushWrite v pub)
              else Some (s, TurnPop v pub (next k))
          | None => None
          end
      | None => None
      end
  | TurnPop v pub cand =>
      match blocks s !! cand with
      | Some k =>
          if end_ k <=? pop_pub_ s then Some (reuse s cand (pop_pub_ s), PushWrite v pub)
          else
            Some (set_p (set_blocks s (blocks s ++ [Block cand (p_count (p_ s) ⊕₆₄ kSlots cf) (slots make_block)]))
                    (Producer (p_blk (p_ s)) (p_count (p_ s)) (p_off (p_ s)) (pop_pub_ s)),
                  TurnLink v pub (length (blocks s)))
      | None => None
      end
  | TurnLink v pub nb =>
      Some (set_p (set_blocks s (alter (set_next nb) (p_blk (p_ s)) (blocks s)))
              (Producer nb (p_count (p_ s)) 0 (cached_pop (p_ s))), PushWrite v pub)
  | _ => None
  end.

Definition push_step (s : ring) (p : pc) : option (ring * pc) :=
  match p with
  | PushStart v pub =>
      if p_off (p_ s) =? kSlots cf then turn_over_step s p else Some (s, PushWrite v pub)
  | TurnPop _ _ _ | TurnLink _ _ _ => turn_over_step s p
  | PushWrite v pub =>
      match at_ s (p_blk (p_ s)) (p_off (p_ s)) with
      | Some None =>
          let s := set_slot s (p_blk (p_ s)) (p_off (p_ s)) (Some v) in
          let s := set_p s (Producer (p_blk (p_ s)) (p_count (p_ s) ⊕₆₄ 1) (p_off (p_ s) ⊕₃₂ 1) (cached_pop (p_ s))) in
          Some (set_history s (Z.max (high s) (p_count (p_ s) - c_count (c_ s))) (lent_val s),
                if pub then PubStore else PcDone RUnit)
      | Some (Some _) => Some (set_bad s, PcBad)
      | None => None
      end
  | PubStore => Some (set_push_pub s (p_count (p_ s)), PcDone RUnit)
  | _ => None
  end.

(** ** The consumer *)

Definition set_slip (c : consumer_state) (cached batch rate slips at_catch : Z) (g : stream_gate) : consumer_state :=
  Consumer (c_blk c) (c_count c) (c_off c) cached (lent c) batch rate slips at_catch g.

(** [slip] up to its first poll; [now]: the tick counter.  [None]: no wait. *)
Definition slip (c : consumer_state) (now : Z) : consumer_state * option (Z * Z) :=
  let arrived := cached_push c ⊖₆₄ at_catch c in
  let at_catch := cached_push c in
  let '(g, wait) := should_wait_at (tpm cf) (gate c) arrived now in
  if negb wait then (set_slip c (cached_push c) 1 (rate c) (slips c) at_catch g, None)
  else
    let b := if probing_ g && (batch c <? 2) then 2 else batch c in
    let delta := cached_push c ⊖₆₄ c_count c in
    if b <=? delta
    then
      let b := if (u32 (2 * b) <=? delta) && (b <? slipMax cf)
               then let b2 := u32 (b * 2) in if slipMax cf <? b2 then slipMax cf else b2
               else b in
      (set_slip c (cached_push c) b (rate c) (slips c) at_catch (waited g true), None)
    else (set_slip c (cached_push c) b (rate c) (slips c ⊕₆₄ 1) at_catch g, Some (delta, 0)).

(** The pauses before the next poll. *)
Definition slip_gap (c : consumer_state) (delta : Z) : Z :=
  let need := u32 (batch c - delta) in
  let gap := u32 (need * kRateScale + rate c - 1) / rate c in
  let gap := if gap <? 1 then 1 else gap in
  if kSlipGapMax <? gap then kSlipGapMax else gap.

(** One round of the loop, with the counter just read. *)
Definition slip_poll (c : consumer_state) (pub delta waits : Z) : consumer_state * option (Z * Z) :=
  let gap := slip_gap c delta in
  let waits := waits ⊕₃₂ gap in
  let delta' := pub ⊖₆₄ c_count c in
  let seen := u32 (u64 ((delta' ⊖₆₄ delta) * kRateScale) / gap) in
  let r := u32 (3 * rate c + seen) / 4 in
  let r := if r <? 1 then 1 else r in
  let c := set_slip c pub (batch c) r (slips c) (at_catch c) (gate c) in
  if batch c <=? delta' then (set_slip c pub (batch c) r (slips c) (at_catch c) (waited (gate c) true), None)
  else if waits <? kSlipPauses then (c, Some (delta', waits))
  else (set_slip c pub (if 1 <? batch c then batch c / 2 else batch c) r (slips c) (at_catch c) (waited (gate c) false), None).

Definition advance_step (now : Z) (s : ring) (p : pc) : option (ring * pc) :=
  let c := c_ s in
  match p with
  | PopCheck b =>
      if c_count c =? cached_push c
      then
        let c := set_slip c (push_pub_ s) (batch c) (rate c) (slips c) (at_catch c) (gate c) in
        if c_count c =? cached_push c
        then Some (set_c s c, PcDone (if b then RBorrow None else RPop None))
        else
          let '(c, w) := slip c now in
          Some (set_c s c, match w with Some (d, n) => PopSlip b d n | None => PopNext b end)
      else Some (s, PopNext b)
  | PopSlip b d n =>
      let '(c, w) := slip_poll c (push_pub_ s) d n in
      Some (set_c s c, match w with Some (d, n) => PopSlip b d n | None => PopNext b end)
  | PopNext b =>
      if c_off c =? kSlots cf
      then
        match blocks s !! c_blk c with
        | Some k =>
            Some (set_c s (Consumer (next k) (c_count c) 0 (cached_push c) (lent c) (batch c) (rate c) (slips c) (at_catch c) (gate c)),
                  PopAnnounce b)
        | None => None
        end
      else Some (s, PopGet b)
  | PopAnnounce b => Some (set_pop_pub s (c_count c), PopGet b)
  | _ => None
  end.

(** Past the element at the consumer's position. *)
Definition skip (c : consumer_state) (l : option (nat * Z)) : consumer_state :=
  Consumer (c_blk c) (c_count c ⊕₆₄ 1) (c_off c ⊕₃₂ 1) (cached_push c) l (batch c) (rate c) (slips c) (at_catch c) (gate c).

(** [release_lent]. *)
Definition release_lent (s : ring) : option ring :=
  let c := c_ s in
  match lent c with
  | None => Some s
  | Some (b, i) =>
      match at_ s b i with
      | Some (Some _) =>
          Some (set_history (set_c (set_slot s b i None)
            (Consumer (c_blk c) (c_count c) (c_off c) (cached_push c) None (batch c) (rate c) (slips c) (at_catch c) (gate c)))
            (high s) None)
      | _ => None
      end
  end.

Definition pop_step (now : Z) (s : ring) (p : pc) : option (ring * pc) :=
  let c := c_ s in
  match p with
  | PopStart b =>
      match release_lent s with
      | Some s' => Some (s', PopCheck b)
      | None => Some (set_bad s, PcBad)
      end
  | PopCheck _ | PopSlip _ _ _ | PopNext _ | PopAnnounce _ => advance_step now s p
  | PopGet b =>
      match at_ s (c_blk c) (c_off c) with
      | Some (Some v) =>
          if b
          then Some (set_history (set_c s (skip c (Some (c_blk c, c_off c)))) (high s) (Some v), PcDone (RBorrow (Some (c_blk c, c_off c))))
          else Some (set_c (set_slot s (c_blk c) (c_off c) None) (skip c (lent c)), PcDone (RPop (Some v)))
      | Some None => Some (set_bad s, PcBad)
      | None => None
      end
  | _ => None
  end.

Definition step (now : Z) (s : ring) (p : pc) : option (ring * pc) :=
  match p with
  | PcIdle | PcBad | PcDone _ => None
  | PushStart _ _ | TurnPop _ _ _ | TurnLink _ _ _ | PushWrite _ _ | PubStore => push_step s p
  | _ => pop_step now s p
  end.

Definition result (p : pc) : option res := match p with PcDone r => Some r | _ => None end.
Definition is_idle (p : pc) : bool := match p with PcIdle => true | _ => false end.

(** ** The destructor *)

(** Destroys the elements from the consumer's position on, along its path;
    [n] of them are left ([None]: no live element there). *)
Fixpoint destroy_elems (n : nat) (s : ring) (b : nat) (off : Z) : list (option T) :=
  match n with
  | O => []
  | S n =>
      let '(b, off) := if off =? kSlots cf then (match blocks s !! b with Some k => next k | None => b end, 0) else (b, off) in
      (at_ s b off ≫= id) :: destroy_elems n s b (off + 1)
  end.

(** Frees the blocks around the ring; [fuel] bounds the walk. *)
Fixpoint free_blocks (fuel : nat) (s : ring) (start b : nat) : option (list nat) :=
  match fuel with
  | O => None
  | S fuel =>
      match blocks s !! b with
      | Some k => if decide (next k = start) then Some [b] else (b ::.) <$> free_blocks fuel s start (next k)
      | None => None
      end
  end.

(** The elements destroyed, in order, and the blocks freed. *)
Definition destroy (s : ring) : option (list (option T) * list nat) :=
  match release_lent s with
  | Some s' =>
      let c := c_ s' in
      let es := destroy_elems (Z.to_nat (p_count (p_ s') - c_count c)) s' (c_blk c) (c_off c) in
      let l := match lent (c_ s) with Some (b, i) => [at_ s b i ≫= id] | None => [] end in
      (λ bs, (l ++ es, bs)) <$> free_blocks (S (length (blocks s'))) s' (c_blk c) (c_blk c)
  | None => None
  end.
End ops.
End ring.
End SpscRing.
