(* ===== verification/SpscRingLin.v ===== *)
(** * The single-producer single-consumer ring is a queue

    The sequential queue (published and deferred elements), the ring as a
    [machine] of two threads, the invariant of the block ring, and the
    theorems: linearisability, validity of the lent element, the bound on
    memory, wait-freedom, and what the destructor destroys and frees. *)

From S2P Require Import Prelude Lts Contract Machine StreamGate SpscRing.

Module SpscRingLin.
Import SpscRing.
Local Open Scope Z_scope.
Local Open Scope wtc_scope.

(** ** Linked segments

    [seg f l z]: following [f] from each block of [l] leads to the next one of
    [l], and from the last to [z]. *)

Definition hd_or (z : nat) (l : list nat) : nat := default z (head l).

Fixpoint seg (f : nat → nat) (l : list nat) (z : nat) : Prop :=
  match l with
  | [] => True
  | a :: l => f a = hd_or z l ∧ seg f l z
  end.

Lemma hd_or_app z l1 l2 : hd_or z (l1 ++ l2) = hd_or (hd_or z l2) l1.
Proof. by destruct l1. Qed.

Lemma seg_app f l1 l2 z : seg f (l1 ++ l2) z ↔ seg f l1 (hd_or z l2) ∧ seg f l2 z.
Proof. induction l1 as [|a l1 IH]; simpl; [tauto|]. rewrite hd_or_app, IH. tauto. Qed.

Lemma seg_ext f g l z : (∀ b, b ∈ l → f b = g b) → seg f l z → seg g l z.
Proof.
  induction l as [|a l IH]; simpl; [done|]. intros Hfg [Ha Hl]. split; [rewrite <-Hfg; [done|by left]|].
  apply IH; [|done]. intros b Hb. apply Hfg. by right.
Qed.

(** A ring: a list of blocks whose last leads back to the first. *)
Definition cycle (f : nat → nat) (l : list nat) : Prop := seg f l (hd_or 0 l).

Lemma cycle_rotate f b l : cycle f (b :: l) → cycle f (l ++ [b]).
Proof.
  unfold cycle. simpl. intros [Hb Hl]. rewrite seg_app, hd_or_app. simpl. split; [done|]. split; [|done].
  rewrite Hb. by destruct l.
Qed.

(** A new block [n] after [b]. *)
Lemma cycle_insert f g l1 b l2 n : NoDup (l1 ++ b :: l2) → n ∉ l1 ++ b :: l2 →
  (∀ x, x ≠ b → x ≠ n → g x = f x) → g b = n → g n = f b → cycle f (l1 ++ b :: l2) → cycle g (l1 ++ b :: n :: l2).
Proof.
  unfold cycle. intros Hnd Hn Hg Hb Hgn Hc.
  assert (hd_or 0 (l1 ++ b :: n :: l2) = hd_or 0 (l1 ++ b :: l2)) as -> by (by destruct l1).
  revert Hc. generalize (hd_or 0 (l1 ++ b :: l2)) as z. intros z. rewrite !seg_app. simpl. intros (H1 & H2 & H3).
  apply NoDup_app in Hnd as (_ & Hd & [Hb2 _]%NoDup_cons).
  split_and!; [|done|by rewrite Hgn|].
  - eapply seg_ext; [|done]. intros x Hx. symmetry. apply Hg; intros ->; [apply (Hd b Hx); by left|set_solver].
  - eapply seg_ext; [|done]. intros x Hx. symmetry. apply Hg; intros ->; set_solver.
Qed.

(** ** The sequential queue *)

Section spec.
Context {T : Type}.

(** Elements published and not yet popped, elements pushed and not yet
    published, each oldest first, and the element lent to the consumer. *)
Record squeue := SQueue { vis : list T; dfr : list T; lnt : option T }.

Definition spsc_queue : seqspec (@op T) (@res T) :=
  SeqSpec squeue (SQueue [] [] None)
    (λ q o r q', match o with
                 | Push v => r = RUnit ∧ q' = SQueue (vis q ++ dfr q ++ [v]) [] (lnt q)
                 | PushDeferred v => r = RUnit ∧ q' = SQueue (vis q) (dfr q ++ [v]) (lnt q)
                 | Publish => r = RUnit ∧ q' = SQueue (vis q ++ dfr q) [] (lnt q)
                 | Consume => r = RPop (head (vis q)) ∧ q' = SQueue (tail (vis q)) (dfr q) None
                 | TryPopBorrow => (∃ a, r = RBorrow a ∧ (a = None ↔ vis q = [])) ∧ q' = SQueue (tail (vis q)) (dfr q) (head (vis q))
                 end).

(** Thread [P] pushes, thread [C] pops; they may be the same. *)
Definition may (P C : nat) (t : nat) (o : @op T) : bool :=
  match o with
  | Push _ | PushDeferred _ | Publish => (t =? P)%nat
  | Consume | TryPopBorrow => (t =? C)%nat
  end.

Definition spsc_machine (cf : params) (P C : nat) : machine (@op T) (@res T) :=
  Machine op res ring pc Z (spsc_ring cf) PcIdle is_idle (may P C) enter (step cf) result.
End spec.

(** ** The block ring *)

Section blocks.
Context {T : Type} (K : Z) (HK : 0 < K).
Implicit Types bs : list (@block T).
Implicit Types vals : list T.

Definition nxt bs (b : nat) : nat := match bs !! b with Some k => next k | None => 0%nat end.

(** The slot of element [e]: live from [lo] on. *)
Definition content vals (lo e : Z) : option T := if decide (lo ≤ e) then vals !! Z.to_nat e else None.

Definition busy_block vals (base lo : Z) (i : nat) (k : @block T) : Prop :=
  end_ k = base + K * (Z.of_nat i + 1) ∧ length (slots k) = Z.to_nat K ∧
  ∀ j, 0 ≤ j < K → slots k !! Z.to_nat j = Some (content vals lo (base + K * Z.of_nat i + j)).

Definition empty_slots : list (option T) := replicate (Z.to_nat K) None.

Record blocks_ok bs vals (base lo : Z) (busy rest extra : list nat) : Prop := {
  bk_perm : busy ++ rest ++ extra ≡ₚ seq 0 (length bs);
  bk_cycle : cycle (nxt bs) (busy ++ rest);
  bk_ne : busy ≠ [];
  bk_busy i b : busy !! i = Some b → ∃ k, bs !! b = Some k ∧ busy_block vals base lo i k;
  bk_rest i b : rest !! i = Some b → ∃ k, bs !! b = Some k ∧ slots k = empty_slots ∧ end_ k ≤ base ∧
                 ((S i < length rest)%nat → end_ k ≤ base - K);
  bk_extra b : b ∈ extra → ∃ k, bs !! b = Some k ∧ slots k = empty_slots ∧
                 end_ k = base + K * (Z.of_nat (length busy) + 1) ∧ next k = nxt bs (default 0%nat (last busy))
}.

Lemma bk_nodup bs vals base lo busy rest extra : blocks_ok bs vals base lo busy rest extra → NoDup (busy ++ rest ++ extra).
Proof. intros H. rewrite (bk_perm _ _ _ _ _ _ _ H). apply NoDup_seq. Qed.

Lemma bk_lt bs vals base lo busy rest extra b : blocks_ok bs vals base lo busy rest extra →
  b ∈ busy ++ rest ++ extra → (b < length bs)%nat.
Proof. intros H Hb. rewrite (bk_perm _ _ _ _ _ _ _ H) in Hb. apply elem_of_seq in Hb. lia. Qed.

(** Changing a slot changes no link. *)
Definition put (i : Z) (x : option T) (k : @block T) : @block T := Block (next k) (end_ k) (<[Z.to_nat i:=x]> (slots k)).

Lemma nxt_alter bs f b c : (∀ k, next (f k) = next k) → nxt (alter f b bs) c = nxt bs c.
Proof.
  intros Hf. unfold nxt. destruct (decide (b = c)) as [->|].
  - rewrite list_lookup_alter_eq. destruct (bs !! c); simpl; auto.
  - by rewrite list_lookup_alter_ne.
Qed.

(** The slot of an element of a busy block. *)
Lemma busy_slot bs vals base lo busy rest extra i b j : blocks_ok bs vals base lo busy rest extra →
  busy !! i = Some b → 0 ≤ j < K →
  bs !! b ≫= (λ k, slots k !! Z.to_nat j) = Some (content vals lo (base + K * Z.of_nat i + j)).
Proof. intros H Hb Hj. destruct (bk_busy _ _ _ _ _ _ _ H _ _ Hb) as (k & -> & _ & _ & Hs). by apply Hs. Qed.

(** A slot of a busy block is rewritten, and the live elements change to match. *)
Lemma blocks_put bs vals base lo busy rest extra i b j x vals' lo' :
  blocks_ok bs vals base lo busy rest extra → busy !! i = Some b → 0 ≤ j < K →
  content vals' lo' (base + K * Z.of_nat i + j) = x →
  (∀ e, e ≠ base + K * Z.of_nat i + j → content vals' lo' e = content vals lo e ∨ e < base) →
  blocks_ok (alter (put j x) b bs) vals' base lo' busy rest extra.
Proof.
  intros H Hb Hj Hx Hne. pose proof (bk_nodup _ _ _ _ _ _ _ H) as Hnd.
  assert (∀ c, nxt (alter (put j x) b bs) c = nxt bs c) as Hnx by (intros; by apply nxt_alter).
  assert (∀ c, c ≠ b → alter (put j x) b bs !! c = bs !! c) as Ho by (intros; by rewrite list_lookup_alter_ne).
  assert (b ∈ busy) as Hbin by (by eapply list_elem_of_lookup_2).
  apply NoDup_app in Hnd as (Hnb & Hdis & _).
  destruct H as [Hperm Hcyc Hnn Hbusy Hrest Hextra]. split.
  - by rewrite length_alter.
  - eapply seg_ext; [|done]. intros. symmetry. apply Hnx.
  - done.
  - intros i' b' Hb'. destruct (Hbusy _ _ Hb') as (k & Hk & He & Hl & Hs).
    destruct (decide (b' = b)) as [->|Hbb].
    + assert (i' = i) as -> by (by eapply NoDup_lookup). exists (put j x k). rewrite list_lookup_alter_eq, Hk. split; [done|].
      split_and!; [done|simpl; by rewrite length_insert|]. intros j' Hj'. simpl. destruct (decide (j' = j)) as [->|].
      * rewrite list_lookup_insert_eq by (rewrite Hl; lia). by rewrite Hx.
      * rewrite list_lookup_insert_ne by lia. rewrite Hs by done. destruct (Hne (base + K * Z.of_nat i + j')) as [->|]; [lia|done|nia].
    + exists k. rewrite Ho by done. split; [done|]. split_and!; [done..|]. intros j' Hj'. rewrite Hs by done.
      destruct (Hne (base + K * Z.of_nat i' + j')) as [->|]; [|done|nia].
      intros E. assert (Z.of_nat i' = Z.of_nat i) as Ei by nia. apply Hbb. assert (i' = i) as -> by lia. congruence.
  - intros i' b' Hb'. destruct (Hrest _ _ Hb') as (k & Hk & ?). exists k. rewrite Ho; [done|].
    intros ->. apply (Hdis b Hbin), elem_of_app. left. by eapply list_elem_of_lookup_2.
  - intros b' Hb'. destruct (Hextra _ Hb') as (k & Hk & ? & ? & ?). exists k. rewrite Ho, Hnx; [done|].
    intros ->. apply (Hdis b Hbin), elem_of_app. by right.
Qed.

(** The next block of the producer's. *)
Lemma last_next bs vals base lo busy rest extra : blocks_ok bs vals base lo busy rest extra →
  nxt bs (default 0%nat (last busy)) = hd_or (hd_or 0 busy) rest.
Proof.
  intros H. pose proof (bk_cycle _ _ _ _ _ _ _ H) as Hc. pose proof (bk_ne _ _ _ _ _ _ _ H) as Hne. unfold cycle in Hc.
  destruct busy as [|b l _] using rev_ind; [done|]. rewrite last_snoc. simpl.
  rewrite <-app_assoc, seg_app in Hc. simpl in Hc. destruct Hc as (_ & -> & _).
  rewrite hd_or_app. simpl. destruct rest; [|done]. simpl. rewrite hd_or_app. by destruct l.
Qed.

(** The consumer leaves its block, all of whose elements are gone. *)
Lemma blocks_rotate bs vals base lo b busy rest extra : blocks_ok bs vals base lo (b :: busy) rest extra →
  busy ≠ [] → base + K ≤ lo → blocks_ok bs vals (base + K) lo busy (rest ++ [b]) extra.
Proof.
  intros [Hperm Hcyc _ Hbusy Hrest Hextra] Hne Hlo. split.
  - rewrite <-Hperm, <-!app_assoc. simpl. rewrite !app_assoc. symmetry. apply Permutation_middle.
  - rewrite app_assoc. by apply cycle_rotate.
  - done.
  - intros i c Hc. destruct (Hbusy (S i) c Hc) as (k & Hk & He & Hl & Hs). exists k. split; [done|].
    split_and!; [lia|done|]. intros j Hj. rewrite Hs by done. do 2 f_equal. lia.
  - intros i c Hc. apply lookup_snoc_Some in Hc as [[Hi Hc]|[-> <-]].
    + destruct (Hrest _ _ Hc) as (k & Hk & Hs & He & _). exists k. split_and!; try done; lia.
    + destruct (Hbusy 0%nat b eq_refl) as (k & Hk & He & Hl & Hs). exists k. split_and!; try done; [|lia|rewrite length_app; simpl; lia].
      apply (list_eq_same_length _ _ (Z.to_nat K)); [unfold empty_slots; by rewrite length_replicate|done|].
      intros i x y Hi Hx Hy. apply lookup_replicate in Hy as [-> _].
      specialize (Hs (Z.of_nat i) ltac:(lia)). rewrite Nat2Z.id, Hx in Hs. injection Hs as ->.
      unfold content. case_decide; [lia|done].
  - intros c Hc. destruct (Hextra c Hc) as (k & Hk & Hs & He & Hn). exists k. simpl length in He. split_and!; try done; [lia|].
    rewrite Hn. by destruct busy.
Qed.

(** The producer takes over the first block left behind. *)
Lemma blocks_reuse bs vals base lo busy cand rest : blocks_ok bs vals base lo busy (cand :: rest) [] →
  Z.of_nat (length vals) = base + K * Z.of_nat (length busy) →
  blocks_ok (alter (set_end (base + K * (Z.of_nat (length busy) + 1))) cand bs) vals base lo (busy ++ [cand]) rest [].
Proof.
  intros H Hlen. pose proof (bk_nodup _ _ _ _ _ _ _ H) as Hnd. rewrite app_nil_r in Hnd.
  destruct H as [Hperm Hcyc Hne Hbusy Hrest _]. set (f := set_end _).
  assert (∀ c, c ≠ cand → alter f cand bs !! c = bs !! c) as Ho by (intros; by rewrite list_lookup_alter_ne).
  apply NoDup_app in Hnd as (_ & Hdis & [Hc2 _]%NoDup_cons). split.
  - rewrite length_alter, <-Hperm. by rewrite <-!app_assoc.
  - rewrite <-app_assoc. eapply seg_ext; [|done]. intros c _. symmetry. by apply nxt_alter.
  - by destruct busy.
  - intros i c Hc. apply lookup_snoc_Some in Hc as [[Hi Hc]|[-> <-]].
    + destruct (Hbusy _ _ Hc) as (k & Hk & Hb). exists k. rewrite Ho; [done|]. intros ->.
      apply (Hdis cand); [by eapply list_elem_of_lookup_2|by left].
    + destruct (Hrest 0%nat cand eq_refl) as (k & Hk & Hs & He & _). exists (f k).
      rewrite list_lookup_alter_eq, Hk. split; [done|]. split_and!; simpl; [done|rewrite Hs; apply length_replicate|].
      intros j Hj. rewrite Hs. unfold empty_slots. rewrite lookup_replicate_2 by lia. f_equal. unfold content.
      case_decide; [|done]. symmetry. apply lookup_ge_None_2. lia.
  - intros i c Hc. destruct (Hrest (S i) c Hc) as (k & Hk & ? & ? & ?). exists k. rewrite Ho.
    + split_and!; try done. simpl in *. lia.
    + intros ->. apply Hc2. by eapply list_elem_of_lookup_2.
  - by intros c ?%not_elem_of_nil.
Qed.

(** The producer allocates a block, not yet linked. *)
Lemma blocks_alloc bs vals base lo busy rest : blocks_ok bs vals base lo busy rest [] →
  blocks_ok (bs ++ [Block (nxt bs (default 0%nat (last busy))) (base + K * (Z.of_nat (length busy) + 1)) empty_slots])
    vals base lo busy rest [length bs].
Proof.
  intros H. pose proof (λ b, bk_lt _ _ _ _ _ _ _ b H) as Hlt. pose proof (bk_ne _ _ _ _ _ _ _ H) as Hne.
  set (nb := Block _ _ _).
  assert (∀ c, (c < length bs)%nat → (bs ++ [nb]) !! c = bs !! c) as Ho by (intros; by apply lookup_app_l).
  destruct H as [Hperm Hcyc _ Hbusy Hrest _]. rewrite app_nil_r in Hperm, Hlt. split.
  - rewrite length_app. simpl. rewrite seq_app, <-Hperm, app_assoc. done.
  - eapply seg_ext; [|done]. intros c Hc. unfold nxt. by rewrite Ho by (by apply Hlt).
  - done.
  - intros i c Hc. destruct (Hbusy i c Hc) as (k & Hk & ?). exists k. rewrite Ho; [done|]. apply Hlt, elem_of_app. left. by eapply list_elem_of_lookup_2.
  - intros i c Hc. destruct (Hrest i c Hc) as (k & Hk & ?). exists k. rewrite Ho; [done|]. apply Hlt, elem_of_app. right. by eapply list_elem_of_lookup_2.
  - intros c ->%list_elem_of_singleton. exists nb. rewrite lookup_app_r, Nat.sub_diag by lia. split_and!; try done. simpl. unfold nxt.
    rewrite Ho; [done|]. apply Hlt, elem_of_app. left. destruct busy as [|b l _] using rev_ind; [done|]. rewrite last_snoc. simpl. apply elem_of_app. right. by left.
Qed.

(** The producer links it after its block, and moves there. *)
Lemma blocks_link bs vals base lo busy rest nb : blocks_ok bs vals base lo busy rest [nb] →
  Z.of_nat (length vals) = base + K * Z.of_nat (length busy) →
  blocks_ok (alter (set_next nb) (default 0%nat (last busy)) bs) vals base lo (busy ++ [nb]) rest [].
Proof.
  intros H Hlen. pose proof (bk_nodup _ _ _ _ _ _ _ H) as Hnd. pose proof (λ b, bk_lt _ _ _ _ _ _ _ b H) as Hlt.
  destruct H as [Hperm Hcyc Hne Hbusy Hrest Hextra]. destruct (Hextra nb) as (kn & Hkn & Hsn & Hen & Hnn); [by left|].
  destruct busy as [|bp l _] using rev_ind; [done|]. clear Hne. rewrite last_snoc in *. simpl in *.
  set (f := set_next nb).
  assert (bp ≠ nb) as Hneq. { apply NoDup_app in Hnd as (_ & Hd & _). intros ->. apply (Hd nb); apply elem_of_app; [right|right]; by left. }
  assert (∀ c, (∃ k, bs !! c = Some k) → ∃ k', alter f bp bs !! c = Some k' ∧ ∀ k, bs !! c = Some k → end_ k' = end_ k ∧ slots k' = slots k ∧ (c ≠ bp → k' = k)) as Hal.
  { intros c [k Hk]. destruct (decide (c = bp)) as [->|].
    - exists (f k). rewrite list_lookup_alter_eq, Hk. split; [done|]. intros k' E. simplify_eq. done.
    - exists k. rewrite list_lookup_alter_ne by done. split; [done|]. intros k' E. by simplify_eq. }
  split.
  - rewrite length_alter, <-Hperm, app_nil_r, <-!app_assoc. by rewrite (Permutation_app_comm rest).
  - rewrite <-!app_assoc in *. apply (cycle_insert (nxt bs)); simpl in *; try done.
    + rewrite (cons_middle bp l), app_assoc, app_assoc in Hnd. apply NoDup_app in Hnd as (Hnd & _). by rewrite <-!app_assoc in Hnd.
    + rewrite (cons_middle bp l), app_assoc, app_assoc in Hnd. apply NoDup_app in Hnd as (_ & Hd & _). intros Hin. apply (Hd nb); [|by left].
      by rewrite <-!app_assoc.
    + intros x Hx _. unfold nxt. by rewrite list_lookup_alter_ne.
    + unfold nxt. rewrite list_lookup_alter_eq. destruct (lookup_lt_is_Some_2 bs bp) as [k ->]; [|done]. apply Hlt. apply elem_of_app. right. by left.
    + unfold nxt at 1. rewrite list_lookup_alter_ne, Hkn by done. done.
  - by destruct l.
  - intros i c Hc. apply lookup_snoc_Some in Hc as [[Hi Hc]|[-> <-]].
    + destruct (Hbusy _ _ Hc) as (k & Hk & E1 & E2 & E3). destruct (Hal c) as (k' & Hk' & Hsame); [eauto|]. exists k'.
      destruct (Hsame k Hk) as (F1 & F2 & _). split; [done|]. unfold busy_block. by rewrite F1, F2.
    + exists kn. rewrite list_lookup_alter_ne by done. split; [done|]. split_and!; [lia|rewrite Hsn; apply length_replicate|].
      intros j Hj. rewrite Hsn. unfold empty_slots. rewrite lookup_replicate_2 by lia. f_equal. unfold content.
      case_decide; [|done]. symmetry. apply lookup_ge_None_2. lia.
  - intros i c Hc. destruct (Hrest i c Hc) as (k & Hk & E1 & E2 & E3). destruct (Hal c) as (k' & Hk' & Hsame); [eauto|]. exists k'.
    destruct (Hsame k Hk) as (F1 & F2 & _). rewrite F1, F2. done.
  - by intros c ?%not_elem_of_nil.
Qed.
End blocks.

(** ** The slip *)

Section slip.
Context (cf : params) (Hslots : 0 < kSlots cf < 2 ^ 32).

(** The bounds of the slip's fields: the rate divides, and a batch is between
    one and the most it may be. *)
Definition slip_ok (c : consumer_state) : Prop := 1 ≤ batch c ≤ slipMax cf ∧ 1 ≤ rate c.

(** The fields of the consumer the slip leaves alone. *)
Definition same_pos (c c' : consumer_state) : Prop :=
  c_blk c' = c_blk c ∧ c_count c' = c_count c ∧ c_off c' = c_off c ∧ lent c' = lent c.

Lemma slipMax_bounds : 2 ≤ slipMax cf < 2 ^ 30.
Proof.
  unfold slipMax, kSlipMax. assert (kSlots cf / 4 < 2 ^ 30) by (apply Z.div_lt_upper_bound; lia).
  repeat case_match; lia.
Qed.

Lemma slip_spec c now c' w : slip cf c now = (c', w) → slip_ok c →
  slip_ok c' ∧ same_pos c c' ∧ cached_push c' = cached_push c ∧ (∀ d n, w = Some (d, n) → n = 0).
Proof.
  unfold slip. pose proof slipMax_bounds. destruct (StreamGate.should_wait_at _ _ _ _) as [g wait].
  destruct wait; simpl; intros E [Hb Hr].
  2:{ simplify_eq. unfold slip_ok, same_pos; split_and!; try done; simpl; lia. }
  set (b := if StreamGate.probing_ g && (batch c <? 2) then 2 else batch c) in *.
  assert (1 ≤ b ≤ slipMax cf) as Hb' by (unfold b; destruct (_ && _); lia). clearbody b.
  destruct (b <=? _).
  - simplify_eq. unfold slip_ok, same_pos; split_and!; try done; simpl; (destruct ((_ <=? _) && (b <? slipMax cf)) eqn:Eb; [|lia]);
      apply andb_prop in Eb as [_ Eb%Z.ltb_lt]; rewrite u32_small by lia; destruct (Z.ltb_spec (slipMax cf) (b * 2)); lia.
  - simplify_eq. unfold slip_ok, same_pos; split_and!; simpl; try done; try lia. intros d n E. by simplify_eq.
Qed.

Lemma at_least_one x : 1 ≤ (if x <? 1 then 1 else x).
Proof. destruct (Z.ltb_spec x 1); lia. Qed.

Lemma slip_gap_bounds c d : 1 ≤ slip_gap c d ≤ kSlipGapMax.
Proof.
  unfold slip_gap. set (x := _ / _). clearbody x. unfold kSlipGapMax. destruct (Z.ltb_spec x 1); [done|].
  destruct (Z.ltb_spec 32 x); lia.
Qed.

(** A poll either ends the wait or has paused longer, still below the bound. *)
Lemma slip_poll_spec c pub d n c' w : slip_poll c pub d n = (c', w) → slip_ok c → 0 ≤ n < kSlipPauses →
  slip_ok c' ∧ same_pos c c' ∧ cached_push c' = pub ∧ (∀ d' n', w = Some (d', n') → n < n' < kSlipPauses).
Proof.
  unfold slip_poll. pose proof (slip_gap_bounds c d) as Hgap. unfold kSlipGapMax, kSlipPauses in *. intros E [Hb Hr] Hn.
  set (r := if _ <? 1 then 1 else _) in E.
  assert (1 ≤ r) as Hr' by apply at_least_one.
  clearbody r. simpl in E. rewrite (u32_small (n + slip_gap c d)) in E by lia.
  destruct (batch c <=? _); [|destruct (Z.ltb_spec (n + slip_gap c d) 64)]; simplify_eq; unfold slip_ok, same_pos; split_and!; try done; simpl; try lia.
  - intros d' n' E. simplify_eq. lia.
  - destruct (Z.ltb_spec 1 (batch c)); [|lia]. pose proof (Z.div_mod (batch c) 2). pose proof (Z.mod_pos_bound (batch c) 2). lia.
  - destruct (Z.ltb_spec 1 (batch c)); [|lia]. pose proof (Z.div_mod (batch c) 2). pose proof (Z.mod_pos_bound (batch c) 2). lia.
Qed.
End slip.

(** ** The invariant *)

Section proof.
Context {T : Type} (cf : params) (P C : nat) (Hslots : 2 ≤ kSlots cf < 2 ^ 31).
Local Abbreviation K := (kSlots cf).
Local Abbreviation M := (@spsc_machine T cf P C).

(** All elements pushed; the number of the first slot of the consumer's
    block; the ring in two parts, the blocks from the consumer's to the
    producer's and those left behind; a block allocated and not yet linked;
    and an element written by a push that has not published it yet. *)
Record ghost := Ghost { vals : list T; base : Z; busy : list nat; rest : list nat; extra : list nat; pend : option T }.
Implicit Types g : ghost.
Implicit Types s : @ring T.

Definition npush g : Z := Z.of_nat (length (vals g)).

(** The first live element: the lent one, if any. *)
Definition lo (c : consumer_state) : Z := c_count c - match lent c with Some _ => 1 | None => 0 end.

Definition lent_ok g s : Prop :=
  match lent (c_ s) with
  | None => lent_val s = None
  | Some (b, i) => b = c_blk (c_ s) ∧ i = c_off (c_ s) - 1 ∧ 1 ≤ c_off (c_ s) ∧
      ∃ v, lent_val s = Some v ∧ vals g !! Z.to_nat (c_count (c_ s) - 1) = Some v
  end.

Record words_ok g s (q : @squeue T) : Prop := {
  wo_count : p_count (p_ s) = npush g;
  wo_c : c_count (c_ s) = base g + c_off (c_ s) ∧ 0 ≤ c_off (c_ s) ≤ K ∧ 0 ≤ base g;
  wo_p : npush g = base g + K * (Z.of_nat (length (busy g)) - 1) + p_off (p_ s) ∧ 0 ≤ p_off (p_ s) ≤ K;
  wo_range : c_count (c_ s) ≤ cached_push (c_ s) ≤ push_pub_ s ∧ push_pub_ s ≤ npush g;
  wo_pop : cached_pop (p_ s) ≤ pop_pub_ s ≤ base g ∧ base g - K ≤ pop_pub_ s;
  wo_cblk : c_blk (c_ s) = hd_or 0 (busy g);
  wo_pblk : p_blk (p_ s) = default 0%nat (last (busy g));
  wo_lent : lent_ok g s;
  wo_high : npush g - c_count (c_ s) ≤ high s ∧ (Z.of_nat (length (blocks s)) - 2) * K ≤ high s;
  wo_slip : slip_ok cf (c_ s);
  wo_bad : bad s = false;
  wo_vis : (vis q) = take (Z.to_nat (push_pub_ s - c_count (c_ s))) (drop (Z.to_nat (c_count (c_ s))) (vals g));
  wo_def : (dfr q) ++ option_list (pend g) = drop (Z.to_nat (push_pub_ s)) (vals g)
}.

Definition is_push (p : @pc T) : bool :=
  match p with PushStart _ _ | TurnPop _ _ _ | TurnLink _ _ _ | PushWrite _ _ | PubStore => true | _ => false end.
Definition is_pop (p : @pc T) : bool :=
  match p with PopStart _ | PopCheck _ | PopSlip _ _ _ | PopNext _ | PopAnnounce _ | PopGet _ => true | _ => false end.

Definition prod_ok g s (p : @pc T) : Prop :=
  match p with
  | TurnPop _ _ cand => p_off (p_ s) = K ∧ nxt (blocks s) (p_blk (p_ s)) = cand ∧ extra g = [] ∧ pend g = None
  | TurnLink _ _ nb => p_off (p_ s) = K ∧ extra g = [nb] ∧ pend g = None
  | PushWrite _ _ => p_off (p_ s) < K ∧ extra g = [] ∧ pend g = None
  | PubStore => extra g = []
  | _ => extra g = [] ∧ pend g = None
  end.

Definition cons_ok g s (q : @squeue T) (p : @pc T) : Prop :=
  match p with
  | PopCheck _ => lent (c_ s) = None ∧ pop_pub_ s = base g
  | PopSlip _ _ n => lent (c_ s) = None ∧ pop_pub_ s = base g ∧ c_count (c_ s) < cached_push (c_ s) ∧ 0 ≤ n < kSlipPauses
  | PopNext _ => lent (c_ s) = None ∧ pop_pub_ s = base g ∧ c_count (c_ s) < cached_push (c_ s)
  | PopAnnounce _ => lent (c_ s) = None ∧ c_off (c_ s) = 0 ∧ c_count (c_ s) < cached_push (c_ s)
  | PopGet _ => lent (c_ s) = None ∧ pop_pub_ s = base g ∧ c_off (c_ s) < K ∧ c_count (c_ s) < cached_push (c_ s)
  | _ => pop_pub_ s = base g ∧ lnt q = lent_val s
  end.

Record threads_ok g s (q : @squeue T) (pcs : nat → @pc T) : Prop := {
  th_push t : is_push (pcs t) = true → t = P;
  th_pop t : is_pop (pcs t) = true → t = C;
  th_bad t : pcs t ≠ PcBad;
  th_prod : prod_ok g s (pcs P);
  th_cons : cons_ok g s q (pcs C)
}.

Definition Inv g s (pcs : nat → @pc T) (q : @squeue T) : Prop :=
  words_ok g s q ∧ blocks_ok K (blocks s) (vals g) (base g) (lo (c_ s)) (busy g) (rest g) (extra g) ∧ threads_ok g s q pcs.

Definition stat g (p : @pc T) (st : @istatus (@op T) (@res T)) : Prop :=
  match p with
  | PcIdle => st = IIdle
  | PcBad => False
  | PcDone r => st = IDone r
  | PushStart v pub | TurnPop v pub _ | TurnLink v pub _ | PushWrite v pub => st = ICalled (if pub then Push v else PushDeferred v) []
  | PubStore => st = ICalled (match pend g with Some v => Push v | None => Publish end) []
  | PopStart b | PopCheck b | PopSlip b _ _ | PopNext b | PopAnnounce b | PopGet b =>
      st = ICalled (if b then TryPopBorrow else Consume) []
  end.

(** The runs in which the element count does not reach the end of its word. *)
Definition window (m : mstate M) : Prop := p_count (p_ (ms_shared m)) + K < 2 ^ 64.

(** ** One step of one thread *)

Definition good g (pcs : nat → @pc T) (q : @squeue T) (t : nat) (st : @istatus (@op T) (@res T)) (s' : @ring T) (p' : @pc T) : Prop :=
  ∃ g' q' st', lmove spsc_queue q st q' st' ∧ Inv g' s' (<[t:=p']> pcs) q' ∧ stat g' p' st' ∧
    (∀ u st, u ≠ t → stat g (pcs u) st → stat g' (pcs u) st).

(** A step of the consumer. *)
Lemma threads_cons g s q pcs g' s' q' p' : threads_ok g s q pcs → is_pop (pcs C) = true → is_push p' = false → p' ≠ PcBad →
  extra g' = extra g → pend g' = pend g → p_ s' = p_ s → (∀ b, nxt (blocks s') b = nxt (blocks s) b) → cons_ok g' s' q' p' →
  threads_ok g' s' q' (<[C:=p']> pcs).
Proof.
  intros [H1 H2 H3 H4 H5] Hp Hp' Hb He Hpe Hps Hnx Hc. split.
  - intros t. by_thread C t; [by rewrite Hp'|auto].
  - intros t. by_thread C t; [done|auto].
  - intros t. by_thread C t; auto.
  - by_thread C P; [|unfold prod_ok in *; by rewrite He, Hpe, Hps, Hnx].
    assert (extra g = [] ∧ pend g = None) as [E1 E2] by (destruct (pcs P); simpl in *; try done; tauto).
    unfold prod_ok. rewrite He, Hpe. by destruct p'.
  - by rewrite fn_insert_eq.
Qed.

(** A step of the producer. *)
Lemma threads_prod g s q pcs g' s' q' p' : threads_ok g s q pcs → is_push (pcs P) = true → is_pop p' = false → p' ≠ PcBad →
  base g' = base g → c_ s' = c_ s → pop_pub_ s' = pop_pub_ s → lent_val s' = lent_val s → lnt q' = lnt q → prod_ok g' s' p' →
  threads_ok g' s' q' (<[P:=p']> pcs).
Proof.
  intros [H1 H2 H3 H4 H5] Hp Hp' Hb Hba Hcs Hpo Hlv Hln Hc. split.
  - intros t. by_thread P t; [done|auto].
  - intros t. by_thread P t; [by rewrite Hp'|auto].
  - intros t. by_thread P t; auto.
  - by rewrite fn_insert_eq.
  - by_thread P C; [|unfold cons_ok in *; by rewrite Hba, Hcs, Hpo, Hlv, Hln].
    assert (pop_pub_ s = base g ∧ lnt q = lent_val s) as E by (destruct (pcs C); simpl in *; done).
    unfold cons_ok. rewrite Hpo, Hba, Hlv, Hln. by destruct p'.
Qed.

(** The other threads' status: only the producer's depends on the ghost state. *)
Lemma stat_others g g' pcs s q t u st : threads_ok g s q pcs → u ≠ t → (pend g' = pend g ∨ t = P) →
  stat g (pcs u) st → stat g' (pcs u) st.
Proof.
  intros Ht Hu [E| ->] Hst; unfold stat in *; [by rewrite E|].
  destruct (pcs u) eqn:Ep; try done. destruct Hu. apply (th_push _ _ _ _ Ht). by rewrite Ep.
Qed.

Section one_step.
Context (g : ghost) (s : @ring T) (pcs : nat → @pc T) (q : @squeue T).
Context (Hw : words_ok g s q).
Context (Hbk : blocks_ok K (blocks s) (vals g) (base g) (lo (c_ s)) (busy g) (rest g) (extra g)).
Context (Hth : threads_ok g s q pcs) (Hwin : p_count (p_ s) + K < 2 ^ 64).

Ltac prod_step Hp := apply (threads_prod g s q); rewrite ?Hp; simpl; split_and?; solve [done|lia].
Ltac others := intros ? ? ?; eapply stat_others; eauto.

(** *** The producer *)

Lemma push_start v pub st : pcs P = PushStart v pub → stat g (pcs P) st → p_off (p_ s) ≠ K → good g pcs q P st s (PushWrite v pub).
Proof.
  intros Hp Hst Hoff. exists g, q, st. rewrite Hp in Hst. pose proof (th_prod _ _ _ _ Hth) as Hpr. rewrite Hp in Hpr. destruct Hpr.
  destruct (wo_p _ _ _ Hw) as [_ ?].
  split; [constructor|]. split; [|split; [done|others]].
  split; [done|]. split; [done|]. prod_step Hp.
Qed.

(** A full block, and the number of blocks in use. *)
Lemma full_len : p_off (p_ s) = K → npush g = base g + K * Z.of_nat (length (busy g)).
Proof. intros E. destruct (wo_p _ _ _ Hw). lia. Qed.

(** The candidate, when it is drained, is a block left behind. *)
Lemma cand_rest cand k : nxt (blocks s) (p_blk (p_ s)) = cand → blocks s !! cand = Some k → end_ k ≤ pop_pub_ s →
  ∃ rest', rest g = cand :: rest'.
Proof.
  intros Hc Hk He. rewrite (wo_pblk _ _ _ Hw), (last_next _ _ _ _ _ _ _ _ Hbk) in Hc.
  destruct (rest g) as [|c rest'] eqn:Er; [|unfold hd_or in Hc; simpl in Hc; subst; by eexists].
  exfalso. pose proof (bk_ne _ _ _ _ _ _ _ _ Hbk) as Hne. destruct (busy g) as [|b l] eqn:Eb; [done|]. unfold hd_or in Hc. simpl in Hc. subst b.
  destruct (bk_busy _ _ _ _ _ _ _ _ Hbk 0%nat cand) as (k' & Hk' & He' & _); [done|].
  rewrite Hk in Hk'. injection Hk' as <-. destruct (wo_pop _ _ _ Hw). lia.
Qed.

Lemma push_reuse v pub cand k cached st : is_push (pcs P) = true → prod_ok g s (pcs P) → extra g = [] → pend g = None → p_off (p_ s) = K →
  stat g (PushWrite v pub) st →
  nxt (blocks s) (p_blk (p_ s)) = cand → blocks s !! cand = Some k → end_ k ≤ cached → cached_pop (p_ s) ≤ cached ≤ pop_pub_ s →
  good g pcs q P st (reuse cf s cand cached) (PushWrite v pub).
Proof.
  intros Hp Hpr Hex Hpe Hoff Hst Hc Hk He Hca. destruct (cand_rest cand k Hc Hk ltac:(lia)) as [rest' Hr].
  pose proof (full_len Hoff) as Hlen. pose proof (wo_count _ _ _ Hw) as Hcnt.
  exists (Ghost (vals g) (base g) (busy g ++ [cand]) rest' [] None), q, st.
  split; [constructor|]. split; [|split; [done|others]].
  unfold reuse. rewrite (u64_small (p_count (p_ s) + K)) by (destruct (wo_p _ _ _ Hw), (wo_c _ _ _ Hw); nia).
  split; [|split].
  - destruct Hw as [W1 W2 W3 W4 W5 W6 W7 W8 W9 W10 W11 W12 W13]. split; unfold npush in *; simpl; try done.
    + rewrite length_app. simpl. split; lia.
    + lia.
    + rewrite W6. pose proof (bk_ne _ _ _ _ _ _ _ _ Hbk). by destruct (busy g).
    + by rewrite last_snoc.
    + by rewrite length_alter.
    + by rewrite Hpe in W13.
  - simpl. rewrite Hr, Hex in Hbk. rewrite Hcnt. unfold npush in *. rewrite Hlen.
    replace (base g + K * Z.of_nat (length (busy g)) + K) with (base g + K * (Z.of_nat (length (busy g)) + 1)) by lia.
    apply blocks_reuse; [lia|done|lia].
  - apply (threads_prod g s q); try done. simpl. split_and!; try done. lia.
Qed.

Lemma cand_is v pub cand : pcs P = TurnPop v pub cand → p_off (p_ s) = K ∧ nxt (blocks s) (p_blk (p_ s)) = cand ∧ extra g = [] ∧ pend g = None.
Proof. intros Hp. pose proof (th_prod _ _ _ _ Hth) as H. by rewrite Hp in H. Qed.

(** A new block is allocated only when what is in flight fills all but one. *)
Lemma alloc_high v pub cand k : pcs P = TurnPop v pub cand → blocks s !! cand = Some k → pop_pub_ s < end_ k →
  (Z.of_nat (length (blocks s) + 1) - 2) * K ≤ npush g - c_count (c_ s).
Proof.
  intros Hp Hk He. destruct (cand_is _ _ _ Hp) as (Hoff & Hc & Hex & _). pose proof (full_len Hoff) as Hlen.
  destruct (wo_c _ _ _ Hw) as (E1 & E2 & _). destruct (wo_pop _ _ _ Hw) as [E3 E4].
  assert (length (blocks s) = (length (busy g) + length (rest g))%nat) as Hn.
  { rewrite <-(length_seq (length (blocks s)) 0), <-(bk_perm _ _ _ _ _ _ _ _ Hbk), Hex, !length_app. simpl. lia. }
  destruct (rest g) as [|r rest'] eqn:Er; simpl in Hn; [nia|].
  rewrite (wo_pblk _ _ _ Hw), (last_next _ _ _ _ _ _ _ _ Hbk) in Hc. unfold hd_or in Hc. simpl in Hc. subst r.
  destruct (bk_rest _ _ _ _ _ _ _ _ Hbk 0%nat cand) as (k' & Hk' & _ & He1 & He2); [done|].
  rewrite Hk in Hk'. injection Hk' as <-. destruct rest' as [|r rest']; simpl in *; [|specialize (He2 ltac:(lia)); lia].
  assert (c_off (c_ s) = 0); [|nia]. pose proof (th_cons _ _ _ _ Hth) as Hco.
  destruct (pcs C); simpl in Hco; lia || tauto.
Qed.

Lemma push_alloc v pub cand k st : pcs P = TurnPop v pub cand → blocks s !! cand = Some k → pop_pub_ s < end_ k → stat g (pcs P) st →
  good g pcs q P st
    (set_p (set_blocks s (blocks s ++ [Block cand (p_count (p_ s) ⊕₆₄ K) (slots (make_block cf))]))
       (Producer (p_blk (p_ s)) (p_count (p_ s)) (p_off (p_ s)) (pop_pub_ s)))
    (TurnLink v pub (length (blocks s))).
Proof.
  intros Hp Hk He Hst. pose proof (alloc_high _ _ _ _ Hp Hk He) as Hhigh. destruct (cand_is _ _ _ Hp) as (Hoff & Hc & Hex & Hpe).
  pose proof (full_len Hoff) as Hlen. pose proof (wo_count _ _ _ Hw) as Hcnt. rewrite Hp in Hst.
  exists (Ghost (vals g) (base g) (busy g) (rest g) [length (blocks s)] None), q, st.
  split; [constructor|]. split; [|split; [done|others]].
  rewrite (u64_small (p_count (p_ s) + K)) by (destruct (wo_p _ _ _ Hw), (wo_c _ _ _ Hw); nia).
  split; [|split].
  - destruct Hw as [W1 W2 W3 W4 W5 W6 W7 W8 W9 W10 W11 W12 W13]. split; unfold npush in *; simpl; try done.
    + lia.
    + rewrite length_app. simpl. lia.
    + by rewrite Hpe in W13.
  - simpl. rewrite Hex in Hbk. rewrite Hcnt, Hlen, <-Hc, (wo_pblk _ _ _ Hw).
    replace (base g + K * Z.of_nat (length (busy g)) + K) with (base g + K * (Z.of_nat (length (busy g)) + 1)) by lia.
    by apply blocks_alloc.
  - prod_step Hp.
Qed.

Lemma push_link v pub nb st : pcs P = TurnLink v pub nb → stat g (pcs P) st →
  good g pcs q P st
    (set_p (set_blocks s (alter (set_next nb) (p_blk (p_ s)) (blocks s))) (Producer nb (p_count (p_ s)) 0 (cached_pop (p_ s))))
    (PushWrite v pub).
Proof.
  intros Hp Hst. pose proof (th_prod _ _ _ _ Hth) as Hpr. rewrite Hp in Hpr, Hst. destruct Hpr as (Hoff & Hex & Hpe).
  pose proof (full_len Hoff) as Hlen.
  exists (Ghost (vals g) (base g) (busy g ++ [nb]) (rest g) [] None), q, st.
  split; [constructor|]. split; [|split; [done|others]]. split; [|split].
  - destruct Hw as [W1 W2 W3 W4 W5 W6 W7 W8 W9 W10 W11 W12 W13]. split; unfold npush in *; simpl; try done.
    + rewrite length_app. simpl. split; lia.
    + rewrite W6. pose proof (bk_ne _ _ _ _ _ _ _ _ Hbk). by destruct (busy g).
    + by rewrite last_snoc.
    + by rewrite length_alter.
    + by rewrite Hpe in W13.
  - simpl. rewrite Hex in Hbk. rewrite (wo_pblk _ _ _ Hw). apply blocks_link; try done; try lia.
  - prod_step Hp.
Qed.

(** The producer's block is the last of those in use. *)
Lemma p_index : busy g !! (length (busy g) - 1)%nat = Some (p_blk (p_ s)).
Proof.
  rewrite (wo_pblk _ _ _ Hw). pose proof (bk_ne _ _ _ _ _ _ _ _ Hbk). rewrite last_lookup, Nat.sub_1_r.
  destruct (lookup_lt_is_Some_2 (busy g) (Nat.pred (length (busy g)))) as [b ->]; [destruct (busy g); simpl; [done|lia]|done].
Qed.

Lemma push_write v pub st : pcs P = PushWrite v pub → stat g (pcs P) st →
  at_ s (p_blk (p_ s)) (p_off (p_ s)) = Some None ∧
  (let s1 := set_slot s (p_blk (p_ s)) (p_off (p_ s)) (Some v) in
   let s2 := set_p s1 (Producer (p_blk (p_ s)) (p_count (p_ s) ⊕₆₄ 1) (p_off (p_ s) ⊕₃₂ 1) (cached_pop (p_ s))) in
   good g pcs q P st (set_history s2 (Z.max (high s) (p_count (p_ s2) - c_count (c_ s))) (lent_val s)) (if pub then PubStore else PcDone RUnit)).
Proof.
  intros Hp Hst. pose proof (th_prod _ _ _ _ Hth) as Hpr. rewrite Hp in Hpr, Hst. destruct Hpr as (Hoff & Hex & Hpe).
  destruct (wo_p _ _ _ Hw) as [Hn Hr]. destruct (wo_c _ _ _ Hw) as (Hc & Hcr & Hb0). pose proof (wo_count _ _ _ Hw) as Hcnt.
  pose proof (wo_range _ _ _ Hw) as Hrg. pose proof p_index as Hpi. unfold npush in *.
  assert (length (busy g) ≠ 0%nat) as Hl by (pose proof (bk_ne _ _ _ _ _ _ _ _ Hbk); by destruct (busy g)).
  assert (base g + K * Z.of_nat (length (busy g) - 1) + p_off (p_ s) = Z.of_nat (length (vals g))) as He
    by (replace (Z.of_nat (length (busy g) - 1)) with (Z.of_nat (length (busy g)) - 1) by lia; lia).
  split.
  - unfold at_. rewrite (busy_slot _ _ _ _ _ _ _ _ _ _ (p_off (p_ s)) Hbk Hpi) by lia. f_equal. rewrite He. unfold content.
    case_decide; [|done]. apply lookup_ge_None_2. lia.
  - simpl.
    assert (blocks_ok K (alter (put (p_off (p_ s)) (Some v)) (p_blk (p_ s)) (blocks s)) (vals g ++ [v]) (base g) (lo (c_ s)) (busy g) (rest g) (extra g)) as Hbk'.
    { apply (blocks_put K ltac:(lia) _ _ _ _ _ _ _ _ _ (p_off (p_ s)) _ _ _ Hbk Hpi ltac:(lia)).
      - rewrite He. unfold content, lo. rewrite decide_True by (destruct (lent (c_ s)); lia).
        rewrite Nat2Z.id. by rewrite lookup_app_r, Nat.sub_diag by lia.
      - intros e Hne. rewrite He in Hne. destruct (decide (e < base g)); [by right|left]. unfold content. case_decide; [|done].
        destruct (decide (e < Z.of_nat (length (vals g)))); [by rewrite lookup_app_l by lia|].
        rewrite lookup_app_r by lia. rewrite (lookup_ge_None_2 (vals g)) by lia. destruct (Z.to_nat e - length (vals g))%nat eqn:E; [lia|done]. }
    assert (u64 (p_count (p_ s) + 1) = p_count (p_ s) + 1) as -> by (apply u64_small; lia).
    assert (u32 (p_off (p_ s) + 1) = p_off (p_ s) + 1) as -> by (apply u32_small; lia).
    assert (option_list (pend g) = []) as Hpn by (by rewrite Hpe).
    set (g' := Ghost (vals g ++ [v]) (base g) (busy g) (rest g) (extra g) (if pub then Some v else None)).
    exists g', (if pub then q else SQueue (vis q) (dfr q ++ [v]) (lnt q)), (if pub then st else IDone RUnit).
    split; [|split; [split; [|split]|split]].
    + destruct pub; [constructor|]. rewrite Hst. by apply lmove_lin.
    + destruct Hw as [W1 W2 W3 W4 W5 W6 W7 W8 W9 W10 W11 W12 W13]. split; unfold npush in *; simpl; rewrite ?length_app; simpl; try done; try lia.
      * unfold lent_ok in *. simpl. destruct (lent (c_ s)) as [[b i]|]; [|done]. destruct W8 as (? & ? & ? & w & ? & ?).
        split_and!; try done. exists w. split; [done|]. by apply lookup_app_l_Some.
      * rewrite length_alter. lia.
      * rewrite drop_app_le by lia. rewrite take_app_le by (rewrite length_drop; lia). by destruct pub.
      * rewrite drop_app_le by lia. rewrite <-W13, Hpn, app_nil_r. destruct pub; simpl; by rewrite ?app_nil_r.
    + done.
    + by destruct pub; prod_step Hp.
    + destruct pub; simpl; by rewrite ?Hst.
    + others.
Qed.

Lemma push_pub st : pcs P = PubStore → stat g (pcs P) st → good g pcs q P st (set_push_pub s (p_count (p_ s))) (PcDone RUnit).
Proof.
  intros Hp Hst. pose proof (th_prod _ _ _ _ Hth) as Hpr. rewrite Hp in Hpr, Hst. simpl in Hpr. pose proof (wo_count _ _ _ Hw) as Hcnt.
  pose proof (wo_range _ _ _ Hw) as Hrg. destruct (wo_c _ _ _ Hw) as (Hc & Hcr & Hb0).
  exists (Ghost (vals g) (base g) (busy g) (rest g) (extra g) None), (SQueue (vis q ++ dfr q ++ option_list (pend g)) [] (lnt q)), (IDone RUnit).
  split; [|split; [split; [|split]|split]].
  - rewrite Hst. apply lmove_lin. simpl. destruct (pend g); simpl; by rewrite ?app_nil_r.
  - rewrite (wo_def _ _ _ Hw), (wo_vis _ _ _ Hw).
    destruct Hw as [W1 W2 W3 W4 W5 W6 W7 W8 W9 W10 W11 W12 W13]. split; unfold npush in *; simpl; try done; try lia.
    + rewrite W1. replace (Z.to_nat (push_pub_ s)) with (Z.to_nat (c_count (c_ s)) + Z.to_nat (push_pub_ s - c_count (c_ s)))%nat by lia.
      rewrite <-drop_drop, take_drop. rewrite take_ge; [done|]. rewrite length_drop. lia.
    + rewrite W1, Nat2Z.id. by rewrite drop_all.
  - done.
  - prod_step Hp.
  - done.
  - others.
Qed.

(** *** The consumer *)

Ltac cons_step Hp := apply (threads_cons g s q); rewrite ?Hp; simpl; split_and?; solve [done|lia|auto].

Lemma set_c_same : set_c s (c_ s) = s.
Proof. by destruct s. Qed.

(** A step that moves no element and stays at its position. *)
Lemma pop_quiet c' p' st q' st' : is_pop (pcs C) = true → same_pos (c_ s) c' → slip_ok cf c' →
  c_count c' ≤ cached_push c' ≤ push_pub_ s → is_push p' = false → p' ≠ PcBad → cons_ok g (set_c s c') q' p' →
  vis q' = vis q → dfr q' = dfr q → lmove spsc_queue q st q' st' → stat g p' st' → good g pcs q C st (set_c s c') p'.
Proof.
  intros Hp (S1 & S2 & S3 & S4) Hsl Hca Hp' Hb Hco Hv Hd Hm Hst. exists g, q', st'. split; [done|]. split; [|split; [done|others]].
  split; [|split].
  - destruct Hw as [W1 W2 W3 W4 W5 W6 W7 W8 W9 W10 W11 W12 W13]. split; simpl; rewrite ?S1, ?S2, ?S3, ?Hv, ?Hd; try done; [split; [by rewrite S2 in Hca|by destruct W4]|].
    unfold lent_ok in *. simpl. by rewrite S4, S1, S3, S2.
  - simpl. unfold lo. by rewrite S2, S4.
  - apply (threads_cons g s q); done.
Qed.

(** The consumer's block is the first of those in use. *)
Lemma c_index : busy g !! 0%nat = Some (c_blk (c_ s)).
Proof. rewrite (wo_cblk _ _ _ Hw). pose proof (bk_ne _ _ _ _ _ _ _ _ Hbk). by destruct (busy g). Qed.

Lemma c_slot j : 0 ≤ j < K → at_ s (c_blk (c_ s)) j = Some (content (vals g) (lo (c_ s)) (base g + j)).
Proof.
  intros Hj. unfold at_. rewrite (busy_slot _ _ _ _ _ _ _ _ _ _ j Hbk c_index) by lia. do 2 f_equal. lia.
Qed.

(** The first live element of the consumer's block is destroyed. *)
Lemma c_put : lo (c_ s) < npush g → base g ≤ lo (c_ s) < base g + K →
  blocks_ok K (alter (put (lo (c_ s) - base g) None) (c_blk (c_ s)) (blocks s)) (vals g) (base g) (lo (c_ s) + 1) (busy g) (rest g) (extra g).
Proof.
  intros Hn Hl. apply (blocks_put K ltac:(lia) _ _ _ _ _ _ _ _ _ (lo (c_ s) - base g) _ _ _ Hbk c_index ltac:(lia)).
  - unfold content. rewrite decide_False by lia. done.
  - intros e He. left. unfold content. do 2 case_decide; try done; lia.
Qed.

Lemma pop_start b st : pcs C = PopStart b → stat g (pcs C) st → ∃ s', release_lent s = Some s' ∧ good g pcs q C st s' (PopCheck b).
Proof.
  intros Hp Hst. pose proof (th_cons _ _ _ _ Hth) as Hco. rewrite Hp in Hco, Hst. simpl in Hco. destruct Hco as [Hco _].
  pose proof (wo_lent _ _ _ Hw) as Hl. unfold lent_ok in Hl. unfold release_lent.
  destruct (lent (c_ s)) as [[lb li]|] eqn:El.
  - destruct Hl as (-> & -> & Hoff & v & Hlv & Hv). destruct (wo_c _ _ _ Hw) as (Hc & Hcr & Hb0).
    assert (lo (c_ s) = c_count (c_ s) - 1) as Hlo by (unfold lo; by rewrite El).
    rewrite c_slot by lia. unfold content. rewrite decide_True by lia.
    replace (base g + (c_off (c_ s) - 1)) with (c_count (c_ s) - 1) by lia. rewrite Hv. eexists. split; [done|].
    pose proof (lookup_lt_Some _ _ _ Hv) as Hlt.
    pose proof (c_put ltac:(unfold npush; lia) ltac:(lia)) as Hbk'. rewrite Hlo in Hbk'.
    replace (c_count (c_ s) - 1 - base g) with (c_off (c_ s) - 1) in Hbk' by lia.
    exists g, q, st. split; [constructor|]. split; [|split; [done|others]]. split; [|split].
    + destruct Hw as [W1 W2 W3 W4 W5 W6 W7 W8 W9 W10 W11 W12 W13]. split; simpl; try done. by rewrite length_alter.
    + simpl. unfold lo. simpl. by replace (c_count (c_ s) - 0) with (c_count (c_ s) - 1 + 1) by lia.
    + apply (threads_cons g s q); try done; solve [by rewrite Hp|by intros d; apply nxt_alter|by split].
  - eexists. split; [done|]. rewrite <-set_c_same at 1. apply pop_quiet with (q' := q) (st' := st); try done; [by rewrite Hp|apply (wo_slip _ _ _ Hw)|..].
    + apply (wo_range _ _ _ Hw).
    + constructor.
Qed.

(** Nothing is visible when the counter says so. *)
Lemma vis_empty : push_pub_ s = c_count (c_ s) → (vis q) = [].
Proof. intros E. rewrite (wo_vis _ _ _ Hw), E, Z.sub_diag. done. Qed.

Lemma pop_check b now s' p' st : pcs C = PopCheck b → stat g (pcs C) st → advance_step cf now s (PopCheck b) = Some (s', p') →
  good g pcs q C st s' p'.
Proof.
  intros Hp Hst. pose proof (th_cons _ _ _ _ Hth) as Hco. rewrite Hp in Hco, Hst. simpl in Hco. destruct Hco as [Hl Hpp].
  pose proof (wo_range _ _ _ Hw) as Hrg. pose proof (wo_slip _ _ _ Hw) as Hsl. unfold advance_step.
  destruct (Z.eqb_spec (c_count (c_ s)) (cached_push (c_ s))) as [Ec|Ec].
  - simpl. destruct (Z.eqb_spec (c_count (c_ s)) (push_pub_ s)) as [Ep|Ep].
    + intros E. injection E as <- <-. apply pop_quiet with (q' := SQueue (vis q) (dfr q) None) (st' := IDone (if b then RBorrow None else RPop None)); try done; [by rewrite Hp|simpl; lia|simpl; split; [done|]|].
      { pose proof (wo_lent _ _ _ Hw) as Hle. unfold lent_ok in Hle. by rewrite Hl in Hle. }
      rewrite Hst. apply lmove_lin. pose proof (vis_empty ltac:(done)) as Hq. simpl. rewrite Hq.
      destruct b; simpl; [|done]. split; [|done]. by exists None.
    + destruct (slip cf _ now) as [c w] eqn:Es. apply (slip_spec cf ltac:(lia)) in Es as (Hsl' & Hpos & Hca & Hww); [|done]. simpl in Hca.
      intros E. destruct w as [[d n]|]; injection E as <- <-; (apply pop_quiet with (q' := q) (st' := st); [..|constructor|done]); try done; try (by rewrite Hp).
      * destruct Hpos as (_ & -> & _). rewrite Hca. simpl. lia.
      * destruct Hpos as (_ & H2 & _ & H4). simpl in H2, H4. simpl. rewrite H2, H4, Hca, (Hww d n eq_refl). unfold kSlipPauses. split_and!; try done; lia.
      * destruct Hpos as (_ & -> & _). rewrite Hca. simpl. lia.
      * destruct Hpos as (_ & H2 & _ & H4). simpl in H2, H4. simpl. rewrite H2, H4, Hca. split_and!; try done; lia.
  - intros E. injection E as <- <-. rewrite <-set_c_same at 1.
    apply pop_quiet with (q' := q) (st' := st); try done; solve [by rewrite Hp|simpl; split_and?; first [done|lia]|constructor].
Qed.

Lemma pop_slip b d n s' p' st : pcs C = PopSlip b d n → stat g (pcs C) st → advance_step cf 0 s (PopSlip b d n) = Some (s', p') →
  good g pcs q C st s' p'.
Proof.
  intros Hp Hst. pose proof (th_cons _ _ _ _ Hth) as Hco. rewrite Hp in Hco, Hst. simpl in Hco. destruct Hco as (Hl & Hpp & Hlt & Hn).
  pose proof (wo_range _ _ _ Hw) as Hrg. unfold advance_step.
  destruct (slip_poll (c_ s) (push_pub_ s) d n) as [c w] eqn:Es.
  apply (slip_poll_spec cf) in Es as (Hsl' & (H1 & H2 & H3 & H4) & Hca & Hww); [|apply (wo_slip _ _ _ Hw)|done].
  intros E. destruct w as [[d' n']|]; injection E as <- <-; (apply pop_quiet with (q' := q) (st' := st); [..|constructor|done]); try done; try (by rewrite Hp); simpl;
    rewrite ?H2, ?H4, ?Hca; split_and?; try done; try lia; by destruct (Hww _ _ eq_refl); lia.
Qed.

Lemma pop_next b s' p' st : pcs C = PopNext b → stat g (pcs C) st → advance_step cf 0 s (PopNext b) = Some (s', p') →
  good g pcs q C st s' p'.
Proof.
  intros Hp Hst. pose proof (th_cons _ _ _ _ Hth) as Hco. rewrite Hp in Hco, Hst. simpl in Hco. destruct Hco as (Hl & Hpp & Hlt).
  pose proof (wo_range _ _ _ Hw) as Hrg. destruct (wo_c _ _ _ Hw) as (Hc & Hcr & Hb0). destruct (wo_p _ _ _ Hw) as [Hn Hpr]. unfold advance_step.
  destruct (Z.eqb_spec (c_off (c_ s)) K) as [Eo|Eo].
  - pose proof c_index as Hci. destruct (busy g) as [|b0 [|b1 bs]] eqn:Eb; [done|simpl in *; lia|]. injection Hci as Hci.
    destruct (bk_busy _ _ _ _ _ _ _ _ Hbk 0%nat b0 eq_refl) as (k & Hk & _). rewrite <-Hci, Hk.
    assert (next k = b1) as Hk1. { destruct (bk_cycle _ _ _ _ _ _ _ _ Hbk) as [E _]. unfold nxt in E. by rewrite Hk in E. }
    intros E. injection E as <- <-. rewrite Hk1. cbn [length] in Hn.
    assert (npush g = base g + K + K * (Z.of_nat (length (b1 :: bs)) - 1) + p_off (p_ s)) as Hn' by (cbn [length]; lia).
    exists (Ghost (vals g) (base g + K) (b1 :: bs) (rest g ++ [b0]) (extra g) (pend g)), q, st.
    split; [constructor|]. split; [|split; [done|others]]. split; [|split].
    + destruct Hw as [W1 W2 W3 W4 W5 W6 W7 W8 W9 W10 W11 W12 W13]. split; unfold npush in *; cbn [vals base busy pend blocks p_ push_pub_ c_ pop_pub_ high lent_val bad set_c c_blk c_count c_off cached_push batch rate]; try done; try lia.
      * rewrite W7, Eb. done.
      * unfold lent_ok in *. simpl. by rewrite Hl in *.
    + simpl. apply blocks_rotate; try done; [lia|]. unfold lo. simpl. rewrite Hl. lia.
    + cons_step Hp.
  - intros E. injection E as <- <-. rewrite <-set_c_same at 1.
    apply pop_quiet with (q' := q) (st' := st); try done; solve [by rewrite Hp|apply (wo_slip _ _ _ Hw)|simpl; split_and?; first [done|lia]|constructor].
Qed.

Lemma pop_announce b st : pcs C = PopAnnounce b → stat g (pcs C) st → good g pcs q C st (set_pop_pub s (c_count (c_ s))) (PopGet b).
Proof.
  intros Hp Hst. pose proof (th_cons _ _ _ _ Hth) as Hco. rewrite Hp in Hco, Hst. simpl in Hco. destruct Hco as (Hl & Hoff & Hlt).
  destruct (wo_c _ _ _ Hw) as (Hc & Hcr & Hb0).
  exists g, q, st. split; [constructor|]. split; [|split; [done|others]]. split; [|split].
  - destruct Hw as [W1 W2 W3 W4 W5 W6 W7 W8 W9 W10 W11 W12 W13]. split; simpl; try done. lia.
  - done.
  - cons_step Hp.
Qed.

Lemma pop_get b st : pcs C = PopGet b → stat g (pcs C) st →
  ∃ v, at_ s (c_blk (c_ s)) (c_off (c_ s)) = Some (Some v) ∧
    (b = true → good g pcs q C st (set_history (set_c s (skip (c_ s) (Some (c_blk (c_ s), c_off (c_ s))))) (high s) (Some v))
                  (PcDone (RBorrow (Some (c_blk (c_ s), c_off (c_ s)))))) ∧
    (b = false → good g pcs q C st (set_c (set_slot s (c_blk (c_ s)) (c_off (c_ s)) None) (skip (c_ s) (lent (c_ s)))) (PcDone (RPop (Some v)))).
Proof.
  intros Hp Hst. pose proof (th_cons _ _ _ _ Hth) as Hco. rewrite Hp in Hco, Hst. simpl in Hco. destruct Hco as (Hl & Hpp & Hoff & Hlt).
  pose proof (wo_range _ _ _ Hw) as Hrg. destruct (wo_c _ _ _ Hw) as (Hc & Hcr & Hb0). pose proof (wo_count _ _ _ Hw) as Hcnt.
  unfold npush in *. destruct (lookup_lt_is_Some_2 (vals g) (Z.to_nat (c_count (c_ s)))) as [v Hv]; [lia|].
  assert (lo (c_ s) = c_count (c_ s)) as Hlo by (unfold lo; rewrite Hl; lia).
  assert ((vis q) = v :: take (Z.to_nat (push_pub_ s - (c_count (c_ s) + 1))) (drop (Z.to_nat (c_count (c_ s) + 1)) (vals g))) as Hq.
  { rewrite (wo_vis _ _ _ Hw), (drop_S _ _ _ Hv).
    replace (Z.to_nat (push_pub_ s - c_count (c_ s))) with (S (Z.to_nat (push_pub_ s - (c_count (c_ s) + 1)))) by lia.
    simpl. do 2 f_equal. f_equal. lia. }
  assert (u64 (c_count (c_ s) + 1) = c_count (c_ s) + 1) as Eu by (apply u64_small; lia).
  assert (u32 (c_off (c_ s) + 1) = c_off (c_ s) + 1) as Ev by (apply u32_small; lia).
  assert (lent_val s = None) as Hlv by (pose proof (wo_lent _ _ _ Hw) as Hle; unfold lent_ok in Hle; by rewrite Hl in Hle).
  exists v. split; [|split].
  - rewrite c_slot by lia. unfold content. rewrite decide_True by lia. by rewrite <-Hc, Hv.
  - intros ->. exists g, (SQueue (tail (vis q)) (dfr q) (Some v)), (IDone (RBorrow (Some (c_blk (c_ s), c_off (c_ s))))).
    split; [|split; [split; [|split]|split]]; [| | | |done|others].
    + rewrite Hst. apply lmove_lin. simpl. rewrite Hq. split; [|done]. by eexists.
    + destruct Hw as [W1 W2 W3 W4 W5 W6 W7 W8 W9 W10 W11 W12 W13]. split; unfold npush; simpl; rewrite ?Eu, ?Ev; try done; try lia.
      * unfold lent_ok. simpl. rewrite Eu, Ev. split_and!; try done; try lia. exists v. split; [done|]. by replace (c_count (c_ s) + 1 - 1) with (c_count (c_ s)) by lia.
      * by rewrite Hq.
    + simpl. unfold lo. simpl. rewrite Eu. by replace (c_count (c_ s) + 1 - 1) with (lo (c_ s)) by lia.
    + cons_step Hp.
  - intros ->. exists g, (SQueue (tail (vis q)) (dfr q) None), (IDone (RPop (Some v))).
    split; [|split; [split; [|split]|split]]; [| | | |done|others].
    + rewrite Hst. apply lmove_lin. simpl. split; [|done]. by rewrite Hq.
    + destruct Hw as [W1 W2 W3 W4 W5 W6 W7 W8 W9 W10 W11 W12 W13]. split; unfold npush; simpl; rewrite ?Eu, ?Ev, ?length_alter; try done; try lia.
      * unfold lent_ok in *. simpl. by rewrite Hl in *.
      * by rewrite Hq.
    + simpl. unfold lo at 1. simpl. rewrite Eu, Hl. pose proof (c_put ltac:(unfold npush; lia) ltac:(lia)) as H. rewrite Hlo in H.
      replace (c_count (c_ s) - base g) with (c_off (c_ s)) in H by lia. by replace (c_count (c_ s) + 1 - 0) with (c_count (c_ s) + 1) by lia.
    + apply (threads_cons g s q); try done; solve [by rewrite Hp|by intros d; apply nxt_alter|by split].
Qed.

Lemma step_push p st s' p' : pcs P = p → is_push p = true → stat g (pcs P) st → push_step cf s p = Some (s', p') → good g pcs q P st s' p'.
Proof.
  intros Hp Hpush Hst Hstep. pose proof (th_prod _ _ _ _ Hth) as Hpr. rewrite Hp in Hpr.
  destruct p as [| |r|v pub|v pub cand|v pub nb|v pub| | | | | | |]; try done; simpl in Hstep.
  - destruct Hpr as [Hex Hpe]. destruct (Z.eqb_spec (p_off (p_ s)) K) as [E|E]; [|injection Hstep as <- <-; by apply push_start].
    destruct (blocks s !! p_blk (p_ s)) as [k|] eqn:Ek; [|done]. destruct (blocks s !! next k) as [cand|] eqn:Ec; [|done].
    assert (nxt (blocks s) (p_blk (p_ s)) = next k) as Hn by (unfold nxt; by rewrite Ek).
    destruct (wo_pop _ _ _ Hw). destruct (Z.leb_spec (end_ cand) (cached_pop (p_ s))); injection Hstep as <- <-.
    + apply (push_reuse v pub (next k) cand (cached_pop (p_ s))); rewrite ?Hp; solve [done|by rewrite Hp in Hst|lia].
    + exists g, q, st. split; [constructor|]. split; [|split; [by rewrite Hp in Hst|others]]. split; [done|]. split; [done|]. prod_step Hp.
  - destruct Hpr as (Hoff & Hn & Hex & Hpe). destruct (blocks s !! cand) as [k|] eqn:Ek; [|done].
    destruct (wo_pop _ _ _ Hw). destruct (Z.leb_spec (end_ k) (pop_pub_ s)); injection Hstep as <- <-.
    + apply (push_reuse v pub cand k (pop_pub_ s)); rewrite ?Hp; solve [done|by rewrite Hp in Hst|lia].
    + by eapply push_alloc.
  - injection Hstep as <- <-. by apply push_link.
  - destruct (push_write v pub st Hp Hst) as [Ha Hg]. rewrite Ha in Hstep. by injection Hstep as <- <-.
  - injection Hstep as <- <-. by apply push_pub.
Qed.

Lemma step_pop p now st s' p' : pcs C = p → is_pop p = true → stat g (pcs C) st → pop_step cf now s p = Some (s', p') → good g pcs q C st s' p'.
Proof.
  intros Hp Hpop Hst Hstep. destruct p; try done; cbn [pop_step] in Hstep.
  - destruct (pop_start _ _ Hp Hst) as (s1 & E & Hg). rewrite E in Hstep. by injection Hstep as <- <-.
  - by eapply pop_check.
  - by eapply pop_slip.
  - by eapply pop_next.
  - injection Hstep as <- <-. by apply pop_announce.
  - destruct (pop_get _ _ Hp Hst) as (v & E & Hg1 & Hg2). rewrite E in Hstep. destruct b; injection Hstep as <- <-; auto.
Qed.

Lemma spsc_step_good t now st s' p' : stat g (pcs t) st → step cf now s (pcs t) = Some (s', p') → good g pcs q t st s' p'.
Proof.
  intros Hst Hstep. remember (pcs t) as p eqn:Hp in Hstep.
  assert (is_push p = true ∨ is_pop p = true) as [Hk|Hk] by (destruct p; solve [by left|by right|done]).
  - assert (t = P) as -> by (apply (th_push _ _ _ _ Hth); by rewrite <-Hp). eapply (step_push p); eauto. by destruct p.
  - assert (t = C) as -> by (apply (th_pop _ _ _ _ Hth); by rewrite <-Hp). eapply (step_pop p now); eauto. by destruct p.
Qed.
End one_step.

(** ** The machine *)

Definition ghost0 : ghost := Ghost [] 0 [0%nat] [1%nat] [] None.

Lemma content_nil lo e : @content T [] lo e = None.
Proof. unfold content. case_decide; done. Qed.

Lemma spsc_inv_init : Inv ghost0 (spsc_ring cf) (λ _, PcIdle) (SQueue [] [] None).
Proof.
  split; [|split].
  - pose proof (slipMax_bounds cf ltac:(lia)). split; unfold npush; simpl; try done; try lia. split; simpl; [lia|unfold kRateScale; lia].
  - simpl. split; try done.
    + intros [|i] b Hb; [|by destruct i]. injection Hb as <-. eexists. split; [done|]. split_and!; simpl; [lia|apply length_replicate|].
      intros j Hj. rewrite lookup_replicate_2 by lia. by rewrite content_nil.
    + intros [|i] b Hb; [|by destruct i]. injection Hb as <-. eexists. split; [done|]. split_and!; simpl; [done|lia|lia].
    + by intros b ?%not_elem_of_nil.
  - split; try done.
Qed.

Lemma spsc_lin_proof : lin_proof M spsc_queue window Inv stat.
Proof.
  split.
  - exists ghost0. split; [apply spsc_inv_init|done].
  - intros g s pcs q t o (Hw & Hbk & Hth) Hid Hm. simpl in *. destruct (pcs t) eqn:Hp; try done. split; [by intros st ->|].
    split.
    2:{ destruct o; try done. apply Nat.eqb_eq in Hm as ->. pose proof (th_prod _ _ _ _ Hth) as H4. rewrite Hp in H4. destruct H4 as [_ E]. simpl. by rewrite E. }
    split; [done|]. split; [done|].
    assert ((is_push (enter o) = true → t = P) ∧ (is_pop (enter o) = true → t = C)) as [Ho1 Ho2]
      by (destruct o; simpl in *; split; try done; by intros _; apply Nat.eqb_eq).
    destruct Hth as [H1 H2 H3 H4 H5]. split.
    + intros u. by_thread t u; auto.
    + intros u. by_thread t u; auto.
    + intros u. by_thread t u; [by destruct o|auto].
    + by_thread t P; [|done]. rewrite Hp in H4. by destruct o; destruct H4.
    + by_thread t C; [|done]. rewrite Hp in H5. by destruct o.
  - intros g s pcs q t r (Hw & Hbk & Hth) Hr. simpl in *. destruct (pcs t) eqn:Hp; simplify_eq/=. split; [by intros st ->|].
    split; [|done]. split; [done|]. split; [done|]. destruct Hth as [H1 H2 H3 H4 H5]. split.
    + intros u. by_thread t u; auto. done.
    + intros u. by_thread t u; auto. done.
    + intros u. by_thread t u; auto.
    + by_thread t P; [|done]. by rewrite Hp in H4.
    + by_thread t C; [|done]. by rewrite Hp in H5.
  - intros g s pcs q t now s' p' st HP (Hw & Hbk & Hth) Hst Hstep. exact (spsc_step_good g s pcs q Hw Hbk Hth HP t now st s' p' Hst Hstep).
Qed.
End proof.
End SpscRingLin.
