(* ===== verification/SpscRingSpec.v ===== *)
(** * What the single-producer single-consumer ring promises

    The theorems about [wtc::rt::spsc_ring] a client uses, for a ring of
    [kSlots] slots a block ([2 <= kSlots < 2^31]) and fewer than
    [2^64 - kSlots] elements over its life, each with a run it applies to. *)

From S2P Require Import Prelude Lts Contract Machine StreamGate SpscRing SpscRingLin.

Module SpscRingSpec.
Import SpscRing SpscRingLin.
Local Open Scope Z_scope.

(** ** Walking the ring *)

Lemma seg_lookup f l z i a b : seg f l z → l !! i = Some a → l !! S i = Some b → f a = b.
Proof.
  revert i. induction l as [|c l IH]; intros i; simpl; [done|]. intros [Hc Hl] Ha Hb.
  destruct i as [|i]; [|by eapply IH]. simplify_eq/=. destruct l; [done|]. by simplify_eq/=.
Qed.

Section client.
Context {T : Type} (cf : params) (P C : nat) (Hslots : 2 ≤ kSlots cf < 2 ^ 31).
Local Abbreviation K := (kSlots cf).
Local Abbreviation M := (@spsc_machine T cf P C).
Local Abbreviation runs := (restrict (mlts M) (window cf P C)).

Lemma free_blocks_seg (s : @ring T) start l : ∀ a fuel,
  seg (nxt (blocks s)) (a :: l) start → start ∉ l → (∀ b, b ∈ a :: l → is_Some (blocks s !! b)) → (length l < fuel)%nat →
  free_blocks fuel s start a = Some (a :: l).
Proof.
  induction l as [|b l IH]; intros a fuel [Ha Hseg] Hst Hin Hf; (destruct fuel as [|fuel]; [simpl in Hf; lia|]); simpl;
    (destruct (Hin a) as [k Hk]; [by left|]); unfold nxt in Ha; rewrite Hk in *; unfold hd_or in Ha; simpl in Ha.
  - by rewrite decide_True.
  - apply not_elem_of_cons in Hst as [Hb Hst]. rewrite decide_False by congruence. rewrite Ha, IH; try done; [|simpl in Hf; lia].
    intros c Hc. apply Hin. by right.
Qed.

Section state.
Context (g : ghost) (s : @ring T) (pcs : nat → @pc T) (q : @squeue T) (HI : Inv cf P C g s pcs q).

Lemma in_range b : b ∈ busy g ++ rest g → is_Some (blocks s !! b).
Proof.
  intros Hb. apply lookup_lt_is_Some_2. destruct HI as (_ & Hbk & _). eapply bk_lt; [done|].
  rewrite app_assoc. apply elem_of_app. by left.
Qed.

(** [release_lent] finds the lent element alive, and keeps the ring. *)
Lemma release_ok : ∃ s', release_lent s = Some s' ∧ p_ s' = p_ s ∧ c_blk (c_ s') = c_blk (c_ s) ∧ c_count (c_ s') = c_count (c_ s) ∧
  c_off (c_ s') = c_off (c_ s) ∧ length (blocks s') = length (blocks s) ∧ (∀ b, nxt (blocks s') b = nxt (blocks s) b) ∧
  (∀ b i, lent (c_ s) = Some (b, i) → at_ s b i = Some (lent_val s)) ∧
  blocks_ok K (blocks s') (vals g) (base g) (c_count (c_ s)) (busy g) (rest g) (extra g).
Proof.
  destruct HI as (Hw & Hbk & Hth). pose proof (wo_lent _ _ _ _ Hw) as Hl. unfold lent_ok in Hl. unfold release_lent.
  destruct (lent (c_ s)) as [[lb li]|] eqn:El.
  - destruct Hl as (-> & -> & Hoff & v & Hlv & Hv). destruct (wo_c _ _ _ _ Hw) as (Hc & Hcr & Hb0).
    assert (lo (c_ s) = c_count (c_ s) - 1) as Hlo by (unfold lo; by rewrite El).
    assert (at_ s (c_blk (c_ s)) (c_off (c_ s) - 1) = Some (Some v)) as Hat.
    { rewrite (c_slot cf g s q Hw Hbk) by lia. unfold content. rewrite decide_True by lia.
      replace (base g + (c_off (c_ s) - 1)) with (c_count (c_ s) - 1) by lia. by rewrite Hv. }
    rewrite Hat. eexists. split; [done|]. pose proof (lookup_lt_Some _ _ _ Hv) as Hlt.
    pose proof (c_put cf Hslots g s q Hw Hbk ltac:(unfold npush; lia) ltac:(lia)) as Hbk'. rewrite Hlo in Hbk'.
    replace (c_count (c_ s) - 1 - base g) with (c_off (c_ s) - 1) in Hbk' by lia.
    replace (c_count (c_ s) - 1 + 1) with (c_count (c_ s)) in Hbk' by lia.
    simpl. split_and!; try done; [by rewrite length_alter|intros b; by apply nxt_alter|].
    intros b i E. injection E as <- <-. by rewrite Hat, Hlv.
  - exists s. split_and!; try done. unfold lo in Hbk. rewrite El in Hbk. by rewrite Z.sub_0_r in Hbk.
Qed.

(** The elements the destructor's first loop visits. *)
Lemma destroy_elems_ok s' : blocks_ok K (blocks s') (vals g) (base g) (c_count (c_ s)) (busy g) (rest g) (extra g) →
  ∀ n i b off, busy g !! i = Some b → 0 ≤ off ≤ K → c_count (c_ s) ≤ base g + K * Z.of_nat i + off →
  base g + K * Z.of_nat i + off + Z.of_nat n = npush g →
  destroy_elems cf n s' b off = Some <$> drop (Z.to_nat (base g + K * Z.of_nat i + off)) (vals g).
Proof.
  intros Hbk n. destruct HI as (Hw & _ & _). destruct (wo_c _ _ _ _ Hw) as (_ & _ & Hb0). destruct (wo_p _ _ _ _ Hw) as [Hn Hpo].
  assert (∀ n i b off, busy g !! i = Some b → 0 ≤ off < K → c_count (c_ s) ≤ base g + K * Z.of_nat i + off →
    base g + K * Z.of_nat i + off + Z.of_nat (S n) = npush g →
    ∃ v, at_ s' b off = Some (Some v) ∧ drop (Z.to_nat (base g + K * Z.of_nat i + off)) (vals g) = v :: drop (Z.to_nat (base g + K * Z.of_nat i + (off + 1))) (vals g)) as Hhead.
  { clear n. intros n i b off Hb Hoff Hc He. unfold npush in *.
    destruct (lookup_lt_is_Some_2 (vals g) (Z.to_nat (base g + K * Z.of_nat i + off))) as [v Hv]; [nia|]. exists v. split.
    - unfold at_. rewrite (busy_slot _ _ _ _ _ _ _ _ _ _ off Hbk Hb) by lia. unfold content. rewrite decide_True by lia. by rewrite Hv.
    - rewrite (drop_S _ _ _ Hv). do 2 f_equal. nia. }
  induction n as [|n IH]; intros i b off Hb Hoff Hc He.
  { simpl. rewrite drop_ge; [done|]. unfold npush in He. lia. }
  simpl. destruct (Z.eqb_spec off K) as [->|Hne].
  - assert (S i < length (busy g))%nat as Hsi by nia. destruct (lookup_lt_is_Some_2 (busy g) (S i) Hsi) as [b' Hb'].
    assert (nxt (blocks s') b = b') as Hnx.
    { eapply (seg_lookup _ (busy g ++ rest g)); [apply (bk_cycle _ _ _ _ _ _ _ _ Hbk)|..]; by apply lookup_app_l_Some. }
    unfold nxt in Hnx. destruct (bk_busy _ _ _ _ _ _ _ _ Hbk i b Hb) as (k & Hk & _). rewrite Hk in *. rewrite Hnx.
    destruct (Hhead n (S i) b' 0) as (v & Ha & Hd); [done|lia|lia|lia|].
    rewrite Ha, (IH (S i) b' (0 + 1)) by (done || lia).
    replace (base g + K * Z.of_nat i + K) with (base g + K * Z.of_nat (S i) + 0) by lia. rewrite Hd. simpl. done.
  - destruct (Hhead n i b off) as (v & Ha & Hd); [done|lia|lia|lia|]. rewrite Ha, (IH i b (off + 1)) by (done || lia). by rewrite Hd.
Qed.

(** The destructor, once both threads are done. *)
Lemma spsc_destroy_quiescent : (∀ t, pcs t = PcIdle) →
  ∃ freed, destroy cf s = Some (Some <$> option_list (lnt q) ++ vis q ++ dfr q, freed) ∧ freed ≡ₚ seq 0 (length (blocks s)).
Proof.
  intros Hidle. destruct release_ok as (s' & Hrel & Ep & E1 & E2 & E3 & E4 & Enx & Hlent & Hbk'). pose proof HI as (Hw & Hbk & Hth).
  pose proof (th_cons _ _ _ _ _ _ _ Hth) as Hco. rewrite Hidle in Hco. destruct Hco as [_ Hln].
  pose proof (th_prod _ _ _ _ _ _ _ Hth) as Hpr. rewrite Hidle in Hpr. destruct Hpr as [Hex Hpe].
  pose proof (wo_def _ _ _ _ Hw) as Hd. rewrite Hpe, app_nil_r in Hd.
  destruct (wo_c _ _ _ _ Hw) as (Hc & Hcr & Hb0). pose proof (wo_range _ _ _ _ Hw) as Hrg. pose proof (wo_count _ _ _ _ Hw) as Hcnt.
  assert (vis q ++ dfr q = drop (Z.to_nat (c_count (c_ s))) (vals g)) as Hq.
  { rewrite Hd, (wo_vis _ _ _ _ Hw). replace (Z.to_nat (push_pub_ s)) with (Z.to_nat (c_count (c_ s)) + Z.to_nat (push_pub_ s - c_count (c_ s)))%nat by lia.
    by rewrite <-drop_drop, take_drop. }
  exists (busy g ++ rest g). unfold destroy. rewrite Hrel, Ep, E1, E2, E3. split.
  - rewrite (destroy_elems_ok s' Hbk' _ 0 (c_blk (c_ s)) (c_off (c_ s))); [|by eapply c_index|done|lia|lia].
    replace (base g + K * Z.of_nat 0 + c_off (c_ s)) with (c_count (c_ s)) by lia. rewrite <-Hq.
    pose proof (c_index cf g s q Hw Hbk) as Hci. pose proof (bk_nodup _ _ _ _ _ _ _ _ Hbk') as Hnd. rewrite Hex, app_nil_r in Hnd.
    pose proof (bk_cycle _ _ _ _ _ _ _ _ Hbk') as Hcyc. unfold cycle in Hcyc.
    destruct (busy g) as [|b bs] eqn:Eb; [done|]. simpl in Hci. injection Hci as <-.
    apply NoDup_cons in Hnd as [Hnb Hnd]. rewrite (free_blocks_seg s' b (bs ++ rest g)); [|exact Hcyc|done|..].
    + simpl. do 2 f_equal. rewrite !fmap_app. f_equal. destruct (lent (c_ s)) as [[lb li]|] eqn:El.
      * rewrite (Hlent lb li eq_refl), Hln. simpl. pose proof (wo_lent _ _ _ _ Hw) as Hl. unfold lent_ok in Hl. rewrite El in Hl.
        destruct Hl as (_ & _ & _ & v & -> & _). done.
      * pose proof (wo_lent _ _ _ _ Hw) as Hl. unfold lent_ok in Hl. rewrite El in Hl. by rewrite Hln, Hl.
    + intros c Hin. apply lookup_lt_is_Some_2. rewrite E4. eapply bk_lt; [exact Hbk|]. rewrite app_assoc. apply elem_of_app. by left.
    + assert (length ((b :: bs) ++ rest g ++ extra g) = length (blocks s')) as Hlen.
      { rewrite (bk_perm _ _ _ _ _ _ _ _ Hbk'). apply length_seq. }
      rewrite Hex, app_nil_r in Hlen. simpl in Hlen. lia.
  - pose proof (bk_perm _ _ _ _ _ _ _ _ Hbk) as Hp. by rewrite Hex, app_nil_r in Hp.
Qed.

(** ** Progress *)

(** An upper bound on the steps a thread still takes to its return. *)
Definition rank (p : @pc T) : Z :=
  match p with
  | PcIdle | PcBad | PcDone _ => 0
  | PubStore => 1
  | PushWrite _ _ => 2
  | TurnLink _ _ _ => 3
  | TurnPop _ _ _ => 4
  | PushStart _ _ => 5
  | PopGet _ => 1
  | PopAnnounce _ => 2
  | PopNext _ => 3
  | PopSlip _ _ n => 3 + (kSlipPauses - n)
  | PopCheck _ => 4 + kSlipPauses
  | PopStart _ => 5 + kSlipPauses
  end.

Lemma push_rank s1 p s' p' : push_step cf s1 p = Some (s', p') → rank p' < rank p.
Proof.
  unfold push_step, turn_over_step. intros H. destruct p; simpl; try done; repeat case_match; simplify_eq/=; repeat case_match; simpl; try done; lia.
Qed.

Lemma pop_rank s1 now p s' p' : pop_step cf now s1 p = Some (s', p') → slip_ok cf (c_ s1) → (∀ b d n, p = PopSlip b d n → 0 ≤ n < kSlipPauses) →
  rank p' < rank p.
Proof.
  unfold pop_step, advance_step. intros H Hs Hn. destruct p as [| |r|v pub|v pub cand|v pub nb|v pub| |b|b|b d n|b|b|b]; simpl; try done.
  - repeat (case_match; simplify_eq/=; try (unfold kSlipPauses; lia)).
  - destruct (_ =? _); [|simplify_eq/=; unfold kSlipPauses; lia]. destruct (_ =? _); [simplify_eq/=; unfold kSlipPauses; lia|].
    destruct (slip cf _ now) as [c w] eqn:E. apply (slip_spec cf ltac:(lia)) in E as (_ & _ & _ & Hw); [|done].
    destruct w as [[d n]|]; simplify_eq/=; [rewrite (Hw d n eq_refl); lia|unfold kSlipPauses; lia].
  - destruct (slip_poll _ _ d n) as [c w] eqn:E. apply (slip_poll_spec cf) in E as (_ & _ & _ & Hw); [|done|by eapply Hn].
    specialize (Hn b d n eq_refl). destruct w as [[d' n']|]; simplify_eq/=; [specialize (Hw d' n' eq_refl); lia|lia].
  - repeat (case_match; simplify_eq/=; try lia).
  - simplify_eq/=. lia.
  - repeat (case_match; simplify_eq/=; try lia).
Qed.

Lemma step_rank t now s' p' : step cf now s (pcs t) = Some (s', p') → rank p' < rank (pcs t).
Proof.
  intros H. pose proof HI as (Hw & _ & Hth). pose proof (th_cons _ _ _ _ _ _ _ Hth) as Hco.
  destruct (is_push (pcs t)) eqn:E1; [by destruct (pcs t); try done; eapply push_rank|].
  destruct (is_pop (pcs t)) eqn:E2; [|by destruct (pcs t)].
  assert (t = C) as -> by (by apply (th_pop _ _ _ _ _ _ _ Hth)).
  apply (pop_rank s now _ s'); [by destruct (pcs C)|apply (wo_slip _ _ _ _ Hw)|].
  intros b d n E. rewrite E in Hco. by destruct Hco as (_ & _ & _ & ?).
Qed.

(** The block after the producer's is a block. *)
Lemma next_some : is_Some (blocks s !! p_blk (p_ s)) ∧ is_Some (blocks s !! nxt (blocks s) (p_blk (p_ s))).
Proof.
  pose proof HI as (Hw & Hbk & _). pose proof (p_index cf g s q Hw Hbk) as Hp. split.
  - apply in_range, elem_of_app. left. by eapply list_elem_of_lookup_2.
  - apply in_range. rewrite (wo_pblk _ _ _ _ Hw), (last_next _ _ _ _ _ _ _ _ Hbk). apply elem_of_app.
    unfold hd_or. destruct (rest g); simpl; [left|right; by left].
    pose proof (bk_ne _ _ _ _ _ _ _ _ Hbk). destruct (busy g); [done|by left].
Qed.

Lemma step_some t now : pcs t ≠ PcIdle → (∀ r, pcs t ≠ PcDone r) → is_Some (step cf now s (pcs t)).
Proof.
  intros H1 H2. pose proof HI as (Hw & Hbk & Hth). pose proof next_some as [[kp Hkp] [kn Hkn]].
  pose proof (th_cons _ _ _ _ _ _ _ Hth) as Hco. pose proof (th_prod _ _ _ _ _ _ _ Hth) as Hpr.
  pose proof (th_bad _ _ _ _ _ _ _ Hth t) as Hb.
  assert (is_push (pcs t) = true → t = P) as HP by apply (th_push _ _ _ _ _ _ _ Hth).
  assert (is_pop (pcs t) = true → t = C) as HC by apply (th_pop _ _ _ _ _ _ _ Hth).
  assert (nxt (blocks s) (p_blk (p_ s)) = next kp) as Hn by (unfold nxt; by rewrite Hkp). rewrite Hn in Hkn.
  destruct (pcs t) as [| |r|v pub|v pub cand|v pub nb|v pub| |b|b|b d n|b|b|b] eqn:Hp; try done; simpl.
  - by destruct (H2 r).
  - destruct (_ =? _); [|done]. rewrite Hkp, Hkn. by destruct (_ <=? _).
  - rewrite <-(HP eq_refl), Hp in Hpr. destruct Hpr as (_ & E & _). rewrite Hn in E. subst. rewrite Hkn. by destruct (_ <=? _).
  - rewrite <-(HP eq_refl), Hp in Hpr. destruct (wo_p _ _ _ _ Hw) as [_ Hr].
    unfold at_. rewrite (busy_slot _ _ _ _ _ _ _ _ _ _ (p_off (p_ s)) Hbk (p_index cf g s q Hw Hbk)) by (destruct Hpr; lia).
    by destruct (content _ _ _).
  - by destruct (release_lent s).
  - repeat case_match; done.
  - by destruct (slip_poll _ _ d n).
  - destruct (_ =? _); [|done]. destruct (in_range (c_blk (c_ s))) as [k ->]; [|done]. apply elem_of_app. left.
    eapply list_elem_of_lookup_2. by apply (c_index cf g s q Hw Hbk).
  - rewrite <-(HC eq_refl), Hp in Hco. destruct Hco as (_ & _ & Ho & _). destruct (wo_c _ _ _ _ Hw) as (_ & ? & _).
    rewrite (c_slot cf g s q Hw Hbk) by lia. destruct (content _ _ _); [by destruct b|done].
Qed.
End state.

Lemma reach_inv m : reachable runs m → ∃ g q, Inv cf P C g (ms_shared m) (ms_pcs m) q.
Proof. intros H. by apply (lin_reachable _ _ _ _ _ (spsc_lin_proof cf P C Hslots)). Qed.

(** ** The properties *)

(** C12: The ring is linearisable to an unbounded first-in first-out queue:
    every history of pushes, deferred pushes and publications by one thread
    and of pops and borrows by one (maybe the same), under any interleaving
    of their accesses, is a history of the atomic queue.  A deferred
    element becomes visible, with all before it, at the next publication;
    a pop finds nothing only when nothing is published at an instant inside
    the call. *)
Theorem spsc_linearisable tr : history runs tr → history (atomic spsc_queue) tr.
Proof. apply (linearisable _ _ _ _ _ (spsc_lin_proof cf P C Hslots)). Qed.

(** C16: An element lent by [try_pop_borrow] stays alive in its slot: until the
    consumer's next pop, the address the consumer holds still refers to the
    element it was given, whatever the producer does meanwhile. *)
Theorem borrow_valid m b i : reachable runs m → lent (c_ (ms_shared m)) = Some (b, i) →
  ∃ v, at_ (ms_shared m) b i = Some (Some v) ∧ lent_val (ms_shared m) = Some v.
Proof.
  intros (g & q & HI)%reach_inv El. destruct (release_ok g _ _ q HI) as (s' & _ & _ & _ & _ & _ & _ & _ & Hl & _).
  rewrite (Hl b i El). destruct HI as (Hw & _). pose proof (wo_lent _ _ _ _ Hw) as Hle. unfold lent_ok in Hle. rewrite El in Hle.
  destruct Hle as (_ & _ & _ & v & Hv & _). exists v. by rewrite Hv.
Qed.

(** C17: No push constructs over a live element and no pop reads or destroys a
    dead one; the slip never divides by zero and its batch stays between one
    and [kSlipMax]; and memory follows the demand: the blocks allocated
    beyond the first two are full with what was once in flight. *)
Theorem spsc_safe m : reachable runs m →
  bad (ms_shared m) = false ∧ 1 ≤ rate (c_ (ms_shared m)) ∧ 1 ≤ batch (c_ (ms_shared m)) ≤ slipMax cf ∧
  (Z.of_nat (length (blocks (ms_shared m))) - 2) * K ≤ high (ms_shared m).
Proof.
  intros (g & q & Hw & _)%reach_inv. destruct (wo_slip _ _ _ _ Hw), (wo_high _ _ _ _ Hw). split_and!; try done; try lia.
  by apply (wo_bad _ _ _ _ Hw).
Qed.

(** C18: Every operation is wait-free: a thread inside one can always take its
    next step, whatever the other thread is doing, and each of its steps
    brings it closer to its return, so a push takes at most 5 and a pop at
    most 69 (64 of them the polls of the bounded wait). *)
Theorem spsc_wait_free m t now : reachable runs m →
  rank (ms_pcs m t) ≤ 69 ∧
  (ms_pcs m t ≠ PcIdle → (∀ r, ms_pcs m t ≠ PcDone r) →
   ∃ s' p', step cf now (ms_shared m) (ms_pcs m t) = Some (s', p') ∧ rank p' < rank (ms_pcs m t)).
Proof.
  intros (g & q & HI)%reach_inv. split.
  - pose proof HI as (_ & _ & Hth). pose proof (th_cons _ _ _ _ _ _ _ Hth) as Hco. pose proof (th_pop _ _ _ _ _ _ _ Hth t) as Hpop.
    destruct (ms_pcs m t) eqn:Hp; simpl; unfold kSlipPauses; try lia.
    specialize (Hpop eq_refl). subst t. rewrite Hp in Hco. destruct Hco as (_ & _ & _ & ?). lia.
  - intros H1 H2. destruct (step_some g _ _ q HI t now H1 H2) as [[s' p'] Hs]. exists s', p'. split; [done|]. by eapply step_rank.
Qed.

(** The destructor, run when both threads have returned, destroys exactly
    the lent element, the published ones and the deferred ones, in order,
    each once, and then frees every block allocated, each once. *)
Theorem spsc_destroy tr m0 m : linit runs m0 → steps runs m0 tr m → (∀ t, ms_pcs m t = PcIdle) →
  ∃ a0 a, linit (atomic spsc_queue) a0 ∧ steps (atomic spsc_queue) a0 tr a ∧
    ∃ freed, destroy cf (ms_shared m) = Some (Some <$> option_list (lnt (a_abs a)) ++ vis (a_abs a) ++ dfr (a_abs a), freed) ∧
      freed ≡ₚ seq 0 (length (blocks (ms_shared m))).
Proof.
  intros H0 Hrun Hidle. destruct (lin_run _ _ _ _ _ (spsc_lin_proof cf P C Hslots) _ _ _ H0 Hrun) as (a0 & a & Ha0 & Ha & g & HI).
  exists a0, a. split_and!; try done. by eapply spsc_destroy_quiescent.
Qed.
End client.

(** ** A run the theorems apply to

    Blocks of two slots; thread 0 pushes 1, 2 (deferred), 3, 4, 5, which takes
    a third block, while thread 1's pop is under way; thread 1 pops 1 and 2,
    and borrows 3 from the second block. *)

Definition demo_cf : params := Params 8 2 64 3000000.
Abbreviation demo_machine := (@spsc_machine Z demo_cf 0 1).
Definition go (t n : nat) : list (action (@op Z) Z) := replicate n (AStep t 100).
Definition demo : list (action (@op Z) Z) :=
  [ACall 0 (Push 1)] ++ go 0 3 ++ [ARet 0%nat; ACall 0 (PushDeferred 2)] ++ go 0 2 ++ [ARet 0%nat; ACall 0 (Push 3)] ++ go 0 3 ++
  [ARet 0%nat; ACall 1 Consume; AStep 1 100; ACall 0 (Push 4)] ++ go 0 3 ++ [ARet 0%nat; ACall 0 (Push 5)] ++ go 0 5 ++
  [ARet 0%nat] ++ go 1 3 ++ [ARet 1%nat; ACall 1 Consume] ++ go 1 4 ++ [ARet 1%nat; ACall 1 TryPopBorrow] ++ go 1 5 ++ [ARet 1%nat].
Definition demo_history : list (event (@op Z) (@res Z)) :=
  [Call 0 (Push 1); Ret 0 RUnit; Call 0 (PushDeferred 2); Ret 0 RUnit; Call 0 (Push 3); Ret 0 RUnit;
   Call 1 Consume; Call 0 (Push 4); Ret 0 RUnit; Call 0 (Push 5); Ret 0 RUnit; Ret 1 (RPop (Some 1));
   Call 1 Consume; Ret 1 (RPop (Some 2)); Call 1 TryPopBorrow; Ret 1 (RBorrow (Some (1%nat, 0)))].
Definition demo_end : mstate demo_machine := exec_final demo_machine demo.


Lemma demo_steps : steps (restrict (mlts demo_machine) (window demo_cf 0 1)) (m_start demo_machine) demo_history demo_end.
Proof.
  apply exec_final_along; [vm_compute; reflexivity|].
  apply (along_check_along demo_machine (λ m, p_count (p_ (ms_shared m)) + 2 <? 2 ^ 64)); [|vm_compute; reflexivity].
  intros m H. apply Z.ltb_lt in H. exact H.
Qed.

Lemma demo_init : linit (restrict (mlts demo_machine) (window demo_cf 0 1)) (m_start demo_machine).
Proof. split; [done|]. vm_compute. done. Qed.

Lemma demo_slots : 2 ≤ kSlots demo_cf < 2 ^ 31.
Proof. vm_compute. done. Qed.

Lemma demo_reachable : reachable (restrict (mlts demo_machine) (window demo_cf 0 1)) demo_end.
Proof. exists (m_start demo_machine), demo_history. split; [apply demo_init|apply demo_steps]. Qed.

Lemma spsc_linearisable_witness : history (atomic spsc_queue) demo_history.
Proof.
  apply (spsc_linearisable demo_cf 0 1 demo_slots). exists (m_start demo_machine), demo_end. split; [apply demo_init|apply demo_steps].
Defined.

Lemma borrow_valid_witness : lent (c_ (ms_shared demo_end)) = Some (1%nat, 0) ∧
  ∃ v, at_ (ms_shared demo_end) 1 0 = Some (Some v) ∧ lent_val (ms_shared demo_end) = Some v.
Proof.
  split; [vm_compute; reflexivity|].
  apply (borrow_valid demo_cf 0 1 demo_slots demo_end); [apply demo_reachable|vm_compute; reflexivity].
Defined.

Lemma spsc_safe_witness : length (blocks (ms_shared demo_end)) = 3%nat ∧ bad (ms_shared demo_end) = false.
Proof. split; [vm_compute; reflexivity|]. apply (spsc_safe demo_cf 0 1 demo_slots demo_end demo_reachable). Defined.

Lemma spsc_wait_free_witness : rank (ms_pcs demo_end 1%nat) ≤ 69.
Proof. apply (spsc_wait_free demo_cf 0 1 demo_slots demo_end 1 0 demo_reachable). Defined.

Lemma spsc_destroy_witness :
  ∃ a0 a, linit (atomic spsc_queue) a0 ∧ steps (atomic spsc_queue) a0 demo_history a ∧
    ∃ freed, destroy demo_cf (ms_shared demo_end) = Some (Some <$> option_list (lnt (a_abs a)) ++ vis (a_abs a) ++ dfr (a_abs a), freed) ∧
      freed ≡ₚ seq 0 (length (blocks (ms_shared demo_end))).
Proof.
  apply (spsc_destroy demo_cf 0 1 demo_slots demo_history _ demo_end demo_init demo_steps).
  apply (exec_quiescent demo_machine 2 demo); [vm_compute; reflexivity|]. intros [|[|t]] Ht; [vm_compute; reflexivity..|lia].
Defined.

Example demo_destroy : destroy demo_cf (ms_shared demo_end) = Some ([Some 3; Some 4; Some 5], [1; 2; 0]%nat).
Proof. vm_compute. reflexivity. Qed.
End SpscRingSpec.
