(* ===== verification/Spmc.v ===== *)
(** * The single-producer multi-consumer queue and its hazard pointers
    (src/runtime/spmc_queue.hpp, src/runtime/hazard.hpp)

    A step machine for [wtc::rt::spmc_queue] together with the hazard-pointer
    domain it frees its segments through: every operation of the queue,
    [acquire] (a thread's first use), [protect], [retire], [scan] and a
    thread's exit, one access to shared memory per step.  Memory is a map
    from addresses to segments; an allocation takes any address that is not
    in use, so a freed segment's address may come back.  [bad] records an
    access to freed memory, to a dead cell, or the deletion of a segment that
    still holds an element.  A segment carries, as history no step reads, its
    number in the order of allocation. *)

From S2P Require Import Prelude Lts Contract Machine.

Module Spmc.
Local Open Scope Z_scope.
Local Open Scope wtc_scope.

Definition kScanAt : Z := 8.

Section queue.
Context {T : Type}.

Record segment := Segment { deq : Z; seen : Z; enq : Z; next : option nat; cells : list (option T); num : Z }.

(** A hazard record; the nodes this queue retires are all freed by [free_segment]. *)
Record record := Rec { slot0 : option nat; slot1 : option nat; active : bool; retired : list nat }.

(** [g_records] is the list of records, the most recently added last. *)
Record queue := Queue {
  heap : nat → option segment;
  head_ : nat; tail_ : nat; filled_ : Z;
  recs : list record;
  own : nat → option nat;        (* the thread_local owner of each thread *)
  bad : bool
}.

(** [Pop] and [Exit] carry the identity of the calling thread, which its
    thread_local storage is found by. *)
Inductive op : Type := Push (v : T) | PushDeferred (v : T) | Publish | Pop (me : nat) | Exit (me : nat).
Inductive res : Type := RUnit | RPop (o : option T).

(** A step's choices: whether a weak compare-and-swap fails for no reason, and
    the address an allocation returns. *)
Record choice := Choice { spurious : bool; addr : nat }.

Inductive after_scan : Type := ThenPop | ThenExit (me : nat).

Inductive pc : Type :=
| PcIdle
| PcBad
| PcDone (r : res)
(* push, push_deferred ([pub]: push), publish *)
| PushStart (v : T) (pub : bool)
| PushSeal (v : T) (pub : bool) (fresh : nat)
| PushLink (v : T) (pub : bool) (fresh : nat)
| PushWrite (v : T) (pub : bool)
| PubStore
(* hazard::mine, acquire *)
| PopOwn (me : nat)
| AcqLoad (me : nat)
| AcqWalk (me i : nat)             (* records below [i] are left to look at *)
| AcqClaim (me i : nat)
| AcqNew (me : nat)
| AcqPush (me n : nat)
(* held_head, protect *)
| PopHead (r : nat)
| ProtLoad (r : nat)
| ProtStore (r p : nat)
| ProtCheck (r p : nat)
(* pop *)
| PopDeq (r h : nat)
| PopSeen (r h : nat) (d : Z)
| PopEnq (r h : nat) (d : Z)
| PopSeenStore (r h : nat) (d e : Z)
| PopCas (r h : nat) (d e : Z)
| PopTake (r h : nat) (d i : Z)     (* [i]: history, the number of the element claimed *)
| PopNext (r h : nat)
| PopSwing (r h n : nat)
(* retire, scan *)
| PopRetire (r h : nat)
| ScanStart (r : nat) (a : after_scan)
| ScanRead (r i : nat) (j : bool) (held : list nat) (a : after_scan)   (* next: slot [j] of record [i - 1] *)
| ScanFree (r : nat) (held : list nat) (a : after_scan)
(* ~owner *)
| ExitOwn (me : nat)
| ExitClear0 (r me : nat)
| ExitClear1 (r me : nat)
| ExitActive (r me : nat).

(** Field updates. *)
Definition set_heap (s : queue) (m : nat → option segment) : queue := Queue m (head_ s) (tail_ s) (filled_ s) (recs s) (own s) (bad s).
Definition set_head (s : queue) (h : nat) : queue := Queue (heap s) h (tail_ s) (filled_ s) (recs s) (own s) (bad s).
Definition set_tail (s : queue) (t : nat) (f : Z) : queue := Queue (heap s) (head_ s) t f (recs s) (own s) (bad s).
Definition set_recs (s : queue) (rs : list record) : queue := Queue (heap s) (head_ s) (tail_ s) (filled_ s) rs (own s) (bad s).
Definition set_own (s : queue) (o : nat → option nat) : queue := Queue (heap s) (head_ s) (tail_ s) (filled_ s) (recs s) o (bad s).
Definition set_bad (s : queue) : queue := Queue (heap s) (head_ s) (tail_ s) (filled_ s) (recs s) (own s) true.

Definition set_deq (d : Z) (g : segment) : segment := Segment d (seen g) (enq g) (next g) (cells g) (num g).
Definition set_seen (e : Z) (g : segment) : segment := Segment (deq g) e (enq g) (next g) (cells g) (num g).
Definition set_enq (e : Z) (g : segment) : segment := Segment (deq g) (seen g) e (next g) (cells g) (num g).
Definition set_next (n : nat) (g : segment) : segment := Segment (deq g) (seen g) (enq g) (Some n) (cells g) (num g).
Definition set_cell (i : Z) (x : option T) (g : segment) : segment :=
  Segment (deq g) (seen g) (enq g) (next g) (<[Z.to_nat i:=x]> (cells g)) (num g).

Definition set_slot0 (x : option nat) (r : record) : record := Rec x (slot1 r) (active r) (retired r).
Definition set_slot1 (x : option nat) (r : record) : record := Rec (slot0 r) x (active r) (retired r).
Definition set_active (b : bool) (r : record) : record := Rec (slot0 r) (slot1 r) b (retired r).
Definition set_retired (l : list nat) (r : record) : record := Rec (slot0 r) (slot1 r) (active r) l.

(** The segment at an address: reading freed memory is recorded. *)
Definition at_seg (s : queue) (a : nat) (k : segment → option (queue * pc)) : option (queue * pc) :=
  match heap s a with Some g => k g | None => Some (set_bad s, PcBad) end.
(** The segment at an address is changed. *)
Definition put_seg (s : queue) (a : nat) (g : segment) : queue := set_heap s (<[a:=Some g]> (heap s)).

Section ops.
Context (kSegment : Z).

Definition new_segment (n : Z) : segment := Segment 0 0 0 None (replicate (Z.to_nat kSegment) None) n.

Definition spmc_queue : queue :=
  Queue (λ a, if decide (a = 0%nat) then Some (new_segment 0) else None) 0 0 0 [] (λ _, None) false.

Definition enter (o : op) : pc :=
  match o with
  | Push v => PushStart v true
  | PushDeferred v => PushStart v false
  | Publish => PubStore
  | Pop me => PopOwn me
  | Exit me => ExitOwn me
  end.

(** ** The producer *)

Definition push_step (c : choice) (s : queue) (p : pc) : option (queue * pc) :=
  match p with
  | PushStart v pub =>
      if filled_ s =? kSegment
      then
        match heap s (addr c), heap s (tail_ s) with
        | None, Some g => Some (put_seg s (addr c) (new_segment (num g + 1)), PushSeal v pub (addr c))
        | _, _ => None
        end
      else Some (s, PushWrite v pub)
  | PushSeal v pub a => at_seg s (tail_ s) (λ g, Some (put_seg s (tail_ s) (set_enq kSegment g), PushLink v pub a))
  | PushLink v pub a => at_seg s (tail_ s) (λ g, Some (set_tail (put_seg s (tail_ s) (set_next a g)) a 0, PushWrite v pub))
  | PushWrite v pub =>
      at_seg s (tail_ s) (λ g,
        match cells g !! Z.to_nat (filled_ s) with
        | Some None =>
            Some (set_tail (put_seg s (tail_ s) (set_cell (filled_ s) (Some v) g)) (tail_ s) (filled_ s ⊕₆₄ 1),
                  if pub then PubStore else PcDone RUnit)
        | _ => Some (set_bad s, PcBad)
        end)
  | PubStore => at_seg s (tail_ s) (λ g, Some (put_seg s (tail_ s) (set_enq (filled_ s) g), PcDone RUnit))
  | _ => None
  end.

(** ** Hazard records *)

Definition acquire_step (c : choice) (s : queue) (p : pc) : option (queue * pc) :=
  match p with
  | AcqLoad me => Some (s, AcqWalk me (length (recs s)))
  | AcqWalk me O => Some (s, AcqNew me)
  | AcqWalk me (S i) =>
      match recs s !! i with
      | Some r => Some (s, if active r then AcqWalk me i else AcqClaim me i)
      | None => None
      end
  | AcqClaim me i =>
      match recs s !! i with
      | Some r =>
          if active r then Some (s, AcqWalk me i)
          else Some (set_own (set_recs s (alter (set_active true) i (recs s))) (<[me:=Some i]> (own s)), PopHead i)
      | None => None
      end
  | AcqNew me => Some (s, AcqPush me (length (recs s)))
  | AcqPush me n =>
      if negb (spurious c) && (length (recs s) =? n)%nat
      then Some (set_own (set_recs s (recs s ++ [Rec None None true []])) (<[me:=Some n]> (own s)), PopHead n)
      else Some (s, AcqPush me (length (recs s)))
  | _ => None
  end.

Definition protect_step (s : queue) (p : pc) : option (queue * pc) :=
  match p with
  | ProtLoad r => Some (s, ProtStore r (head_ s))
  | ProtStore r p => Some (set_recs s (alter (set_slot1 (Some p)) r (recs s)), ProtCheck r p)
  | ProtCheck r p => Some (s, if decide (head_ s = p) then PopDeq r p else ProtStore r (head_ s))
  | _ => None
  end.

(** [scan]'s last loop: the nodes not held are freed; a freed segment must
    hold no element. *)
Definition has_element (s : queue) (a : nat) : bool :=
  match heap s a with Some g => existsb (λ x, match x with Some _ => true | None => false end) (cells g) | None => true end.

Fixpoint free_all (s : queue) (l : list nat) : queue :=
  match l with
  | [] => s
  | a :: l => free_all (if has_element s a then set_bad s else set_heap s (<[a:=None]> (heap s))) l
  end.

Definition scan_step (s : queue) (p : pc) : option (queue * pc) :=
  match p with
  | ScanStart r a => Some (s, ScanRead r (length (recs s)) false [] a)
  | ScanRead r O j held a => Some (s, ScanFree r held a)
  | ScanRead r (S i) j held a =>
      match recs s !! i with
      | Some x =>
          let p := if j then slot1 x else slot0 x in
          let held := match p with Some n => n :: held | None => held end in
          Some (s, if j then ScanRead r i false held a else ScanRead r (S i) true held a)
      | None => None
      end
  | ScanFree r held a =>
      match recs s !! r with
      | Some x =>
          let keep := filter (λ n, n ∈ held) (retired x) in
          let s' := free_all s (filter (λ n, n ∉ held) (retired x)) in
          Some (set_recs s' (alter (set_retired keep) r (recs s')), match a with ThenPop => PopHead r | ThenExit me => ExitActive r me end)
      | None => None
      end
  | _ => None
  end.

Definition retire_step (s : queue) (p : pc) : option (queue * pc) :=
  match p with
  | PopRetire r h =>
      match recs s !! r with
      | Some x =>
          let l := retired x ++ [h] in
          Some (set_recs s (alter (set_retired l) r (recs s)),
                if kScanAt <=? Z.of_nat (length l) then ScanStart r ThenPop else PopHead r)
      | None => None
      end
  | _ => None
  end.

Definition exit_step (s : queue) (p : pc) : option (queue * pc) :=
  match p with
  | ExitOwn me => Some (s, match own s me with Some r => ExitClear0 r me | None => PcDone RUnit end)
  | ExitClear0 r me => Some (set_recs s (alter (set_slot0 None) r (recs s)), ExitClear1 r me)
  | ExitClear1 r me => Some (set_recs s (alter (set_slot1 None) r (recs s)), ScanStart r (ThenExit me))
  | ExitActive r me => Some (set_own (set_recs s (alter (set_active false) r (recs s))) (<[me:=None]> (own s)), PcDone RUnit)
  | _ => None
  end.

(** ** The consumer *)

Definition pop_step (c : choice) (s : queue) (p : pc) : option (queue * pc) :=
  match p with
  | PopOwn me => Some (s, match own s me with Some r => PopHead r | None => AcqLoad me end)
  | PopHead r =>
      match recs s !! r with
      | Some x => Some (s, if decide (slot1 x = Some (head_ s)) then PopDeq r (head_ s) else ProtLoad r)
      | None => None
      end
  | PopDeq r h => at_seg s h (λ g, Some (s, PopSeen r h (deq g)))
  | PopSeen r h d => at_seg s h (λ g, Some (s, if seen g <=? d then PopEnq r h d else PopCas r h d (seen g)))
  | PopEnq r h d =>
      at_seg s h (λ g,
        Some (s, if enq g <=? d then (if enq g <? kSegment then PcDone (RPop None) else PopNext r h) else PopSeenStore r h d (enq g)))
  | PopSeenStore r h d e => at_seg s h (λ g, Some (put_seg s h (set_seen e g), PopCas r h d e))
  | PopCas r h d e =>
      at_seg s h (λ g,
        if negb (spurious c) && (deq g =? d) then Some (put_seg s h (set_deq (d ⊕₆₄ 1) g), PopTake r h d (num g * kSegment + d))
        else Some (s, if e <=? deq g then PopEnq r h (deq g) else PopCas r h (deq g) e))
  | PopTake r h d i =>
      at_seg s h (λ g,
        match cells g !! Z.to_nat d with
        | Some (Some v) => Some (put_seg s h (set_cell d None g), PcDone (RPop (Some v)))
        | _ => Some (set_bad s, PcBad)
        end)
  | PopNext r h => at_seg s h (λ g, Some (s, match next g with None => PcDone (RPop None) | Some n => PopSwing r h n end))
  | PopSwing r h n => Some (if decide (head_ s = h) then (set_head s n, PopRetire r h) else (s, PopHead r))
  | _ => None
  end.

Definition step (c : choice) (s : queue) (p : pc) : option (queue * pc) :=
  match p with
  | PcIdle | PcBad | PcDone _ => None
  | PushStart _ _ | PushSeal _ _ _ | PushLink _ _ _ | PushWrite _ _ | PubStore => push_step c s p
  | AcqLoad _ | AcqWalk _ _ | AcqClaim _ _ | AcqNew _ | AcqPush _ _ => acquire_step c s p
  | ProtLoad _ | ProtStore _ _ | ProtCheck _ _ => protect_step s p
  | PopRetire _ _ => retire_step s p
  | ScanStart _ _ | ScanRead _ _ _ _ _ | ScanFree _ _ _ => scan_step s p
  | ExitOwn _ | ExitClear0 _ _ | ExitClear1 _ _ | ExitActive _ _ => exit_step s p
  | _ => pop_step c s p
  end.

Definition result (p : pc) : option res := match p with PcDone r => Some r | _ => None end.
Definition is_idle (p : pc) : bool := match p with PcIdle => true | _ => false end.

(** ** The destructor

    The elements destroyed, in order ([None]: no live element there), and the
    segments deleted; [fuel] bounds the walk. *)
Definition destroy_cells (g : segment) (from to : Z) : list (option T) :=
  (λ i, cells g !! i ≫= id) <$> seq (Z.to_nat from) (Z.to_nat (to - from)).

Fixpoint destroy_from (fuel : nat) (s : queue) (a : nat) (from : Z) : option (list (option T) * list nat) :=
  match fuel with
  | O => None
  | S fuel =>
      match heap s a with
      | None => None
      | Some g =>
          let to := if decide (a = tail_ s) then filled_ s else enq g in
          let es := destroy_cells g from to in
          match next g with
          | None => Some (es, [a])
          | Some n => '(es', l) ← destroy_from fuel s n 0; Some (es ++ es', a :: l)
          end
      end
  end.

Definition destroy (fuel : nat) (s : queue) : option (list (option T) * list nat) :=
  match heap s (head_ s) with Some g => destroy_from fuel s (head_ s) (deq g) | None => None end.
End ops.
End queue.
End Spmc.
