(* ===== verification/SpmcLin.v ===== *)
(** * The single-producer multi-consumer queue is a queue

    The sequential queue (as for the ring, but deferred elements may become
    visible before they are published, always in order), the machine with
    any number of consumer threads that come and go, and the invariant: the
    chain of segments, the cells claimed, and the hazard-pointer argument. *)

From S2P Require Import Prelude Lts Contract Machine Spmc.

Module SpmcLin.
Import Spmc.
Local Open Scope Z_scope.
Local Open Scope wtc_scope.

Section spec.
Context {T : Type}.

Record mqueue := MQueue { vis : list T; dfr : list T }.

(** A pop may find a prefix [d] of the deferred elements already visible. *)
Definition mq_step (q : mqueue) (o : @op T) (r : @res T) (q' : mqueue) : Prop :=
  match o with
  | Push v => r = RUnit ∧ q' = MQueue (vis q ++ dfr q ++ [v]) []
  | PushDeferred v => r = RUnit ∧ q' = MQueue (vis q) (dfr q ++ [v])
  | Publish => r = RUnit ∧ q' = MQueue (vis q ++ dfr q) []
  | Pop _ => ∃ d d', dfr q = d ++ d' ∧ r = RPop (head (vis q ++ d)) ∧ q' = MQueue (tail (vis q ++ d)) d'
  | Exit _ => r = RUnit ∧ q' = q
  end.

Definition spmc_spec : seqspec (@op T) (@res T) := SeqSpec mqueue (MQueue [] []) mq_step.

(** Thread [P] pushes; any thread pops, and exits. *)
Definition may (P : nat) (t : nat) (o : @op T) : bool :=
  match o with
  | Push _ | PushDeferred _ | Publish => (t =? P)%nat
  | Pop me | Exit me => (t =? me)%nat
  end.

Definition spmc_machine (K : Z) (P : nat) : machine (@op T) (@res T) :=
  Machine op res queue pc choice (spmc_queue K) PcIdle is_idle (may P) enter (step K) result.
End spec.

(** ** The invariant *)

Section proof.
Context {T : Type} (K : Z) (P : nat) (HK : 2 ≤ K < 2 ^ 63).
Local Abbreviation M := (@spmc_machine T K P).
Implicit Types s : @queue T.
Implicit Types sg : @segment T.

(** All elements written, in order; the number of the head segment; the
    segments from head to tail; a segment allocated and not yet linked; an
    element written by a push that has not published it yet. *)
Record ghost := Ghost { vals : list T; hn : Z; chain : list nat; fresh : option nat; pend : option T }.
Implicit Types g : ghost.

(** The cells of a segment that have been filled. *)
Definition fillof g s (a : nat) : Z :=
  if decide (a = tail_ s) then filled_ s else if decide (fresh g = Some a) then 0 else K.

Record seg_ok g (f : Z) sg : Prop := {
  so_len : length (cells sg) = Z.to_nat K;
  so_range : 0 ≤ seen sg ≤ enq sg ∧ 0 ≤ deq sg ≤ enq sg ∧ enq sg ≤ f ∧ f ≤ K;
  so_num : 0 ≤ num sg;
  so_live j : deq sg ≤ j < f → ∃ v, cells sg !! Z.to_nat j = Some (Some v) ∧ vals g !! Z.to_nat (num sg * K + j) = Some v;
  so_dead j : f ≤ j < K → cells sg !! Z.to_nat j = Some None
}.

Record chain_ok g s : Prop := {
  co_chain i a : chain g !! i = Some a → ∃ sg, heap s a = Some sg ∧ num sg = hn g + Z.of_nat i ∧ next sg = chain g !! S i ∧
                   ((S i < length (chain g))%nat → enq sg = K) ∧ ((0 < i)%nat → deq sg = 0);
  co_fresh a : fresh g = Some a → heap s a = Some (new_segment K (hn g + Z.of_nat (length (chain g)))) ∧ a ∉ chain g;
  co_old a sg : heap s a = Some sg → a ∈ chain g ∨ fresh g = Some a ∨ (num sg < hn g ∧ deq sg = K ∧ enq sg = K ∧ is_Some (next sg));
  co_seg a sg : heap s a = Some sg → seg_ok g (fillof g s a) sg;
  co_head : head (chain g) = Some (head_ s);
  co_tail : last (chain g) = Some (tail_ s);
  co_count : Z.of_nat (length (vals g)) = (hn g + Z.of_nat (length (chain g)) - 1) * K + filled_ s ∧ 0 ≤ filled_ s ≤ K ∧ 0 ≤ hn g
}.

Definition abs_ok g s (q : @mqueue T) : Prop :=
  ∀ sh st, heap s (head_ s) = Some sh → heap s (tail_ s) = Some st →
    vis q ++ dfr q ++ option_list (pend g) = drop (Z.to_nat (hn g * K + deq sh)) (vals g) ∧
    hn g * K + deq sh + Z.of_nat (length (vis q)) ≤ (hn g + Z.of_nat (length (chain g)) - 1) * K + enq st.

Record take_ok g s (pcs : nat → @pc T) : Prop := {
  to_cell t r h d i : pcs t = PopTake r h d i → ∃ sg v, heap s h = Some sg ∧ 0 ≤ d < deq sg ∧ i = num sg * K + d ∧
                        cells sg !! Z.to_nat d = Some (Some v) ∧ vals g !! Z.to_nat i = Some v;
  to_uniq t u r r' h d i i' : pcs t = PopTake r h d i → pcs u = PopTake r' h d i' → t = u;
  to_taken a sg j : heap s a = Some sg → 0 ≤ j < deq sg → cells sg !! Z.to_nat j = Some None ∨ ∃ t r i, pcs t = PopTake r a j i
}.

(** The record a program counter uses, the thread it names, and whether it is
    in the middle of protecting. *)
Definition rec_of (p : @pc T) : option nat :=
  match p with
  | PopHead r | ProtLoad r | ProtStore r _ | ProtCheck r _ | PopDeq r _ | PopSeen r _ _ | PopEnq r _ _ | PopSeenStore r _ _ _
  | PopCas r _ _ _ | PopTake r _ _ _ | PopNext r _ | PopSwing r _ _ | PopRetire r _ | ScanStart r _ | ScanRead r _ _ _ _
  | ScanFree r _ _ | ExitClear0 r _ | ExitClear1 r _ | ExitActive r _ => Some r
  | _ => None
  end.
Definition me_of (p : @pc T) : option nat :=
  match p with
  | PopOwn me | AcqLoad me | AcqWalk me _ | AcqClaim me _ | AcqNew me | AcqPush me _ | ExitOwn me | ExitClear0 _ me | ExitClear1 _ me
  | ExitActive _ me | ScanStart _ (ThenExit me) | ScanRead _ _ _ _ (ThenExit me) | ScanFree _ _ (ThenExit me) => Some me
  | _ => None
  end.
Definition in_prot (p : @pc T) (r : nat) : Prop :=
  match p with ProtLoad r' | ProtStore r' _ | ProtCheck r' _ => r' = r | _ => False end.
Definition acquiring (p : @pc T) : bool :=
  match p with AcqLoad _ | AcqWalk _ _ | AcqClaim _ _ | AcqNew _ | AcqPush _ _ => true | _ => false end.
Definition is_push (p : @pc T) : bool :=
  match p with PushStart _ _ | PushSeal _ _ _ | PushLink _ _ _ | PushWrite _ _ | PubStore => true | _ => false end.
(** The segment a program counter reads, under its record's protection. *)
Definition hold (p : @pc T) : option (nat * nat) :=
  match p with
  | PopDeq r h | PopSeen r h _ | PopEnq r h _ | PopSeenStore r h _ _ | PopCas r h _ _ | PopTake r h _ _ | PopNext r h | PopSwing r h _
  | PopRetire r h => Some (r, h)
  | _ => None
  end.
Definition seg_pc g (p : @pc T) sg : Prop :=
  match p with
  | PopSeen _ _ d | PopEnq _ _ d => 0 ≤ d ≤ deq sg
  | PopSeenStore _ _ d e | PopCas _ _ d e => 0 ≤ d ≤ deq sg ∧ d < e ≤ enq sg
  | PopTake _ _ d _ => 0 ≤ d < deq sg
  | PopNext _ _ => K ≤ deq sg
  | PopSwing _ _ n => K ≤ deq sg ∧ next sg = Some n
  | PopRetire _ _ => num sg < hn g
  | _ => True
  end.
(** A thread on its way out has cleared its slot. *)
Definition exiting (p : @pc T) : bool :=
  match p with ScanStart _ (ThenExit _) | ScanRead _ _ _ _ (ThenExit _) | ScanFree _ _ (ThenExit _) | ExitActive _ _ => true | _ => false end.

Record thread_ok g s (t : nat) (p : @pc T) : Prop := {
  tk_rec r : rec_of p = Some r → own s t = Some r;
  tk_me me : me_of p = Some me → me = t;
  tk_acq : acquiring p = true → own s t = None;
  tk_hold r h : hold p = Some (r, h) → (∃ x, recs s !! r = Some x ∧ slot1 x = Some h) ∧ ∃ sg, heap s h = Some sg ∧ num sg ≤ hn g ∧ seg_pc g p sg;
  tk_check r h : p = ProtCheck r h → ∃ x, recs s !! r = Some x ∧ slot1 x = Some h;
  tk_exit r : exiting p = true → rec_of p = Some r → ∃ x, recs s !! r = Some x ∧ slot1 x = None;
  tk_push : is_push p = true → t = P;
  tk_bad : p ≠ PcBad
}.

Record recs_ok g s (pcs : nat → @pc T) : Prop := {
  ro_own t r : own s t = Some r → ∃ x, recs s !! r = Some x ∧ active x = true;
  ro_inj t u r : own s t = Some r → own s u = Some r → t = u;
  ro_idle r x : recs s !! r = Some x → active x = false → slot1 x = None;
  ro_prot r x n : recs s !! r = Some x → slot1 x = Some n → (∀ t, ¬ in_prot (pcs t) r) → ∃ sg, heap s n = Some sg ∧ num sg ≤ hn g;
  ro_ret r x a : recs s !! r = Some x → a ∈ retired x → ∃ sg, heap s a = Some sg ∧ num sg < hn g;
  ro_nodup r x : recs s !! r = Some x → NoDup (retired x);
  ro_disj r r' x x' a : r ≠ r' → recs s !! r = Some x → recs s !! r' = Some x' → a ∈ retired x → a ∈ retired x' → False;
  ro_retire t r h : pcs t = PopRetire r h →
    (∀ r' x, recs s !! r' = Some x → h ∉ retired x) ∧ ∀ u r', pcs u = PopRetire r' h → u = t;
  ro_scan t r i held : (∃ j a, pcs t = ScanRead r i j held a) ∨ (i = 0%nat ∧ ∃ a, pcs t = ScanFree r held a) →
    ∀ x n r' x', recs s !! r = Some x → n ∈ retired x → n ∉ held → (i ≤ r')%nat → recs s !! r' = Some x' → slot1 x' = Some n →
    ∃ u, in_prot (pcs u) r'
}.

Definition prod_ok g s (p : @pc T) : Prop :=
  match p with
  | PushSeal _ _ a => fresh g = Some a ∧ pend g = None ∧ filled_ s = K
  | PushLink _ _ a => fresh g = Some a ∧ pend g = None ∧ filled_ s = K ∧ ∀ sg, heap s (tail_ s) = Some sg → enq sg = K
  | PushWrite _ _ => fresh g = None ∧ pend g = None ∧ filled_ s < K
  | PubStore => fresh g = None ∧ (is_Some (pend g) → ∀ sg, heap s (tail_ s) = Some sg → enq sg < filled_ s)
  | _ => fresh g = None ∧ pend g = None
  end.

Record Inv g s (pcs : nat → @pc T) (q : @mqueue T) : Prop := {
  iv_chain : chain_ok g s;
  iv_abs : abs_ok g s q;
  iv_take : take_ok g s pcs;
  iv_recs : recs_ok g s pcs;
  iv_thread t : thread_ok g s t (pcs t);
  iv_prod : prod_ok g s (pcs P);
  iv_bad : bad s = false
}.

Definition stat g (p : @pc T) (st : @istatus (@op T) (@res T)) : Prop :=
  match p with
  | PcIdle => st = IIdle
  | PcBad => False
  | PcDone r => st = IDone r
  | PushStart v pub | PushSeal v pub _ | PushLink v pub _ | PushWrite v pub => st = ICalled (if pub then Push v else PushDeferred v) []
  | PubStore => st = ICalled (match pend g with Some v => Push v | None => Publish end) []
  | PopTake _ _ _ i => st = IDone (RPop (vals g !! Z.to_nat i))
  | ExitOwn me | ExitClear0 _ me | ExitClear1 _ me | ExitActive _ me
  | ScanStart _ (ThenExit me) | ScanRead _ _ _ _ (ThenExit me) | ScanFree _ _ (ThenExit me) => st = ICalled (Exit me) []
  | _ => ∃ me, st = ICalled (Pop me) []
  end.

(** ** The chain of segments *)

Section chain.
Context (g : ghost) (s : @queue T) (Hc : chain_ok g s).

Lemma chain_inj i j a : chain g !! i = Some a → chain g !! j = Some a → i = j.
Proof.
  intros Hi Hj. destruct (co_chain _ _ Hc _ _ Hi) as (sg & Hs & Hn & _). destruct (co_chain _ _ Hc _ _ Hj) as (sg' & Hs' & Hn' & _).
  rewrite Hs in Hs'. simplify_eq. lia.
Qed.

Lemma head_seg : chain g !! 0%nat = Some (head_ s) ∧ ∃ sg, heap s (head_ s) = Some sg ∧ num sg = hn g.
Proof.
  assert (chain g !! 0%nat = Some (head_ s)) as H0 by (rewrite <-head_lookup; apply (co_head _ _ Hc)). split; [done|].
  destruct (co_chain _ _ Hc _ _ H0) as (sg & Hs & Hn & _). exists sg. split; [done|lia].
Qed.

Lemma chain_len : (0 < length (chain g))%nat.
Proof. pose proof (proj1 head_seg). by eapply lookup_lt_Some. Qed.

Lemma tail_seg : chain g !! (length (chain g) - 1)%nat = Some (tail_ s) ∧
  ∃ sg, heap s (tail_ s) = Some sg ∧ num sg = hn g + Z.of_nat (length (chain g)) - 1 ∧ next sg = None.
Proof.
  pose proof chain_len as Hlen. assert (chain g !! (length (chain g) - 1)%nat = Some (tail_ s)) as H1.
  { rewrite Nat.sub_1_r, <-last_lookup. apply (co_tail _ _ Hc). }
  split; [done|]. destruct (co_chain _ _ Hc _ _ H1) as (sg & Hs & Hn & Hx & _). exists sg. split_and!; [done|lia|].
  rewrite Hx. apply lookup_ge_None_2. lia.
Qed.

(** A segment that was once the head and is not drained is the head. *)
Lemma undrained_head a sg : heap s a = Some sg → num sg ≤ hn g → deq sg < K → a = head_ s.
Proof.
  intros Ha Hn Hd. pose proof chain_len as Hlen. destruct (co_old _ _ Hc _ _ Ha) as [Hin|[Hf|(_ & ? & _)]]; [| |lia].
  - apply list_elem_of_lookup in Hin as [i Hi]. destruct (co_chain _ _ Hc _ _ Hi) as (sg' & Hs & Hn' & _).
    rewrite Ha in Hs. simplify_eq. assert (i = 0%nat) as -> by lia. destruct head_seg as [Hh0 _]. congruence.
  - destruct (co_fresh _ _ Hc _ Hf) as [Hs _]. rewrite Ha in Hs. simplify_eq. simpl in Hn. lia.
Qed.

(** A segment with no successor is the tail, or not linked yet. *)
Lemma no_next_tail a sg : heap s a = Some sg → num sg ≤ hn g → next sg = None → a = head_ s ∧ a = tail_ s.
Proof.
  intros Ha Hn Hx. pose proof chain_len as Hlen. destruct (co_old _ _ Hc _ _ Ha) as [Hin|[Hf|(_ & _ & _ & [? ?])]]; [| |congruence].
  - apply list_elem_of_lookup in Hin as [i Hi]. destruct (co_chain _ _ Hc _ _ Hi) as (sg' & Hs & Hn' & Hx' & _).
    rewrite Ha in Hs. simplify_eq. rewrite Hx in Hx'. symmetry in Hx'. apply lookup_ge_None_1 in Hx'.
    pose proof (lookup_lt_Some _ _ _ Hi). assert (i = 0%nat) as -> by lia. destruct head_seg as [Hh0 _], tail_seg as [Ht1 _].
    assert (length (chain g) - 1 = 0)%nat as E by lia. rewrite E in Ht1. split; congruence.
  - destruct (co_fresh _ _ Hc _ Hf) as [Hs _]. rewrite Ha in Hs. simplify_eq. simpl in Hn. lia.
Qed.

(** A segment that is not full is the tail. *)
Lemma unfull_tail a sg : heap s a = Some sg → num sg ≤ hn g → enq sg < K → a = head_ s ∧ a = tail_ s.
Proof.
  intros Ha Hn He. pose proof chain_len as Hlen. destruct (co_old _ _ Hc _ _ Ha) as [Hin|[Hf|(_ & _ & ? & _)]]; [| |lia].
  - apply list_elem_of_lookup in Hin as [i Hi]. destruct (co_chain _ _ Hc _ _ Hi) as (sg' & Hs & Hn' & _ & He' & _).
    rewrite Ha in Hs. simplify_eq. pose proof (lookup_lt_Some _ _ _ Hi).
    assert (i = 0%nat ∧ length (chain g) = 1%nat) as [-> El].
    { destruct (decide (S i < length (chain g))%nat) as [Hlt|]; [rewrite He' in He by done; lia|]. lia. }
    destruct head_seg as [Hh0 _], tail_seg as [Ht1 _]. rewrite El in Ht1. simpl in Ht1. split; congruence.
  - destruct (co_fresh _ _ Hc _ Hf) as [Hs _]. rewrite Ha in Hs. simplify_eq. simpl in Hn. lia.
Qed.

Lemma fresh_num a sg : fresh g = Some a → heap s a = Some sg → hn g < num sg.
Proof. intros Hf Ha. pose proof chain_len as Hlen. destruct (co_fresh _ _ Hc _ Hf) as [Hs _]. rewrite Ha in Hs. simplify_eq. simpl. lia. Qed.

(** One segment is rewritten in place. *)
Lemma chain_put a sg sg' : heap s a = Some sg → fresh g ≠ Some a → num sg' = num sg → next sg' = next sg →
  (enq sg = K → enq sg' = K) → (deq sg = K → deq sg' = K) → (deq sg' = deq sg ∨ head_ s = a) → seg_ok g (fillof g s a) sg' →
  chain_ok g (put_seg s a sg').
Proof.
  intros Ha Hf Hn Hx He Hd Hdh Hok.
  assert (∀ b, b ≠ a → heap (put_seg s a sg') b = heap s b) as Ho by (intros; simpl; by rewrite fn_insert_ne).
  assert (heap (put_seg s a sg') a = Some sg') as Hs by (simpl; by rewrite fn_insert_eq).
  pose proof head_seg as [H0 _]. destruct Hc as [C1 C2 C3 C4 C5 C6 C7]. split; try done.
  - intros i b Hb. destruct (C1 _ _ Hb) as (sb & Hsb & N1 & N2 & N3 & N4). destruct (decide (b = a)) as [->|Hne].
    + rewrite Ha in Hsb. injection Hsb as <-. exists sg'. rewrite Hs. split_and!; try done; [congruence|congruence|auto|].
      intros Hi. destruct Hdh as [->|Hdh]; [auto|]. subst. assert (0%nat = i) by (by eapply chain_inj). lia.
    + exists sb. by rewrite Ho.
  - intros b Hb. destruct (C2 _ Hb). rewrite Ho by congruence. done.
  - intros b sb Hb. destruct (decide (b = a)) as [->|Hne].
    + rewrite Hs in Hb. injection Hb as <-. destruct (C3 _ _ Ha) as [?|[?|(? & ? & ? & ?)]]; [by left|done|].
      right; right. rewrite Hn, Hx. auto.
    + rewrite Ho in Hb by done. eauto.
  - intros b sb Hb. destruct (decide (b = a)) as [->|Hne].
    + rewrite Hs in Hb. by injection Hb as <-.
    + rewrite Ho in Hb by done. by apply C4.
Qed.
End chain.

(** ** Frames *)

Definition grow sg sg' : Prop :=
  num sg' = num sg ∧ deq sg ≤ deq sg' ∧ enq sg ≤ enq sg' ∧ ∀ n, next sg = Some n → next sg' = Some n.

Lemma grow_refl sg : grow sg sg.
Proof. done. Qed.

Lemma seg_pc_grow g g' p sg sg' : grow sg sg' → hn g ≤ hn g' → seg_pc g p sg → seg_pc g' p sg'.
Proof. intros (E & H1 & H2 & H3) Hh. destruct p; simpl; try done; rewrite ?E; try lia. intros [? ?]. split; [lia|auto]. Qed.

Lemma thread_frame g s g' s' u p : thread_ok g s u p → own s' u = own s u →
  (∀ r x, own s u = Some r → recs s !! r = Some x → ∃ x', recs s' !! r = Some x' ∧ slot1 x' = slot1 x) → hn g ≤ hn g' →
  (∀ r h sg, hold p = Some (r, h) → heap s h = Some sg → num sg ≤ hn g → ∃ sg', heap s' h = Some sg' ∧ grow sg sg') →
  thread_ok g' s' u p.
Proof.
  intros [H1 H2 H3 H4 H5 H6 H7 H8] Ho Hr Hh Hg.
  assert (∀ r h, hold p = Some (r, h) → rec_of p = Some r) as Hrec by (by destruct p; simpl; intros; simplify_eq).
  split; try done.
  - intros r E. rewrite Ho. auto.
  - intros E. rewrite Ho. auto.
  - intros r h E. destruct (H4 r h E) as [(x & Hx & Hs) (sg & Hsg & Hn & Hp)].
    destruct (Hr r x (H1 _ (Hrec _ _ E)) Hx) as (x' & Hx' & E'). destruct (Hg r h sg E Hsg Hn) as (sg' & Hsg' & Hgr).
    split; [exists x'; split; [done|congruence]|]. exists sg'. split_and!; [done|destruct Hgr as (-> & _); lia|by eapply seg_pc_grow].
  - intros r h E. destruct (H5 r h E) as (x & Hx & Hs). assert (rec_of p = Some r) as Er by (by subst).
    destruct (Hr r x (H1 _ Er) Hx) as (x' & Hx' & E'). exists x'. split; [done|congruence].
  - intros r E Er. destruct (H6 r E Er) as (x & Hx & Hs). destruct (Hr r x (H1 _ Er) Hx) as (x' & Hx' & E'). exists x'. split; [done|congruence].
Qed.

(** A thread whose records and own are untouched. *)
Lemma thread_heap g s g' s' u p : thread_ok g s u p → own s' = own s → recs s' = recs s → hn g ≤ hn g' →
  (∀ h sg, heap s h = Some sg → num sg ≤ hn g → ∃ sg', heap s' h = Some sg' ∧ grow sg sg') → thread_ok g' s' u p.
Proof. intros H Ho Hr Hh Hg. eapply thread_frame; eauto; [by rewrite Ho|]. intros r x _. rewrite Hr. eauto. Qed.

(** What a scan at a program counter has established: a retired node it has
    not seen held is held by no record it has already read. *)
Definition scan_ok s (pcs : nat → @pc T) (p : @pc T) : Prop :=
  ∀ r i held, (∃ j a, p = ScanRead r i j held a) ∨ (i = 0%nat ∧ ∃ a, p = ScanFree r held a) →
    ∀ x n r' x', recs s !! r = Some x → n ∈ retired x → n ∉ held → (i ≤ r')%nat → recs s !! r' = Some x' → slot1 x' = Some n →
    ∃ u, in_prot (pcs u) r'.

Lemma scan_ok_other s pcs p : match p with ScanRead _ _ _ _ _ | ScanFree _ _ _ => False | _ => True end → scan_ok s pcs p.
Proof. intros Hp r i held [(j & a & ->)|(_ & a & ->)]; done. Qed.

Lemma recs_frame g s pcs g' s' t p' : recs_ok g s pcs → recs s' = recs s → own s' = own s → hn g ≤ hn g' →
  (∀ n sg, heap s n = Some sg → num sg ≤ hn g → ∃ sg', heap s' n = Some sg' ∧ num sg' = num sg) →
  (∀ r, in_prot (pcs t) r → in_prot p' r) →
  (∀ r h, p' = PopRetire r h → (∀ r' x, recs s !! r' = Some x → h ∉ retired x) ∧ ∀ u r', u ≠ t → pcs u ≠ PopRetire r' h) →
  scan_ok s (<[t:=p']> pcs) p' → recs_ok g' s' (<[t:=p']> pcs).
Proof.
  intros [R1 R2 R3 R4 R5 R6 R7 R8 R9] Hr Ho Hh Hg Hin Hp' Hsc.
  assert (∀ u r, in_prot (pcs u) r → in_prot (<[t:=p']> pcs u) r) as Hin' by (intros u r; by_thread t u; [apply Hin|done]).
  split; rewrite ?Hr, ?Ho; try done.
  - intros r x n Hx Hs Hno. destruct (R4 r x n Hx Hs) as (sg & Hsg & Hn); [intros u Hu; by apply (Hno u), Hin'|].
    destruct (Hg _ _ Hsg Hn) as (sg' & ? & E). exists sg'. split; [done|lia].
  - intros r x a Hx Ha. destruct (R5 r x a Hx Ha) as (sg & Hsg & Hn). destruct (Hg _ _ Hsg ltac:(lia)) as (sg' & ? & E). exists sg'. split; [done|lia].
  - intros u r h. by_thread t u.
    + intros E. destruct (Hp' r h E) as [H1 H2]. split; [done|]. intros v r'. by_thread u v; [done|]. intros Ev. by apply H2 in Ev.
    + intros Hu. destruct (R8 u r h Hu) as [H1 H2]. split; [done|].
      intros v r'. by_thread t v; [|apply H2]. intros E. destruct (Hp' r' h E) as [_ H3]. by apply H3 in Hu.
  - intros u r i held. by_thread t u; [intros Hu; by apply (Hsc r i held)|].
    intros Hu x m r' x' Hx Hn1 Hn2 Hi Hx' Hs. destruct (R9 u r i held Hu x m r' x' Hx Hn1 Hn2 Hi Hx' Hs) as [w Hw].
    exists w. by apply Hin'.
Qed.

Lemma take_pcs g s pcs t p' : take_ok g s pcs → (∀ r h d i, p' ≠ PopTake r h d i) → (∀ r h d i, pcs t ≠ PopTake r h d i) →
  take_ok g s (<[t:=p']> pcs).
Proof.
  intros [H1 H2 H3] Hp' Hp. split.
  - intros u r h d i. by_thread t u; [intros E; by apply Hp' in E|eauto].
  - intros u v r r' h d i i'. by_thread t u; [intros E; by apply Hp' in E|]. by_thread t v; [intros _ E; by apply Hp' in E|]. eauto.
  - intros a sg j Ha Hj. destruct (H3 a sg j Ha Hj) as [?|(u & r & i & Hu)]; [by left|right]. exists u, r, i. by_thread t u; [|done]. by apply Hp in Hu.
Qed.

(** The state may change where no claimed cell is concerned. *)
Lemma take_heap g s pcs g' s' : take_ok g s pcs → (∀ i v, vals g !! i = Some v → vals g' !! i = Some v) →
  (∀ a sg', heap s' a = Some sg' → (deq sg' = 0 ∨ ∃ sg, heap s a = Some sg ∧ num sg' = num sg ∧ deq sg' = deq sg ∧
     ∀ j, 0 ≤ j < deq sg → cells sg' !! Z.to_nat j = cells sg !! Z.to_nat j)) →
  (∀ t r h d i sg, pcs t = PopTake r h d i → heap s h = Some sg → is_Some (heap s' h) ∧ 0 < deq sg) →
  (∀ a sg', heap s' a = Some sg' → deq sg' = 0 → ∀ sg, heap s a = Some sg → deq sg = 0) →
  take_ok g' s' pcs.
Proof.
  intros [H1 H2 H3] Hv Hh Hk Hz. split.
  - intros t r h d i Hp. destruct (H1 t r h d i Hp) as (sg & v & Hsg & Hd & Hi & Hcell & Hval).
    destruct (Hk _ _ _ _ _ _ Hp Hsg) as [[sg' Hsg'] _]. exists sg', v.
    destruct (Hh _ _ Hsg') as [E|(sg2 & Hsg2 & E1 & E2 & E3)]; [by rewrite (Hz _ _ Hsg' E _ Hsg) in Hd; lia|].
    rewrite Hsg in Hsg2. injection Hsg2 as <-. rewrite E1, E2, E3 by done. split_and!; eauto; lia.
  - done.
  - intros a sg' j Ha Hj. destruct (Hh _ _ Ha) as [E|(sg & Hsg & E1 & E2 & E3)]; [lia|].
    rewrite E2 in Hj. rewrite E3 by done. by eapply H3.
Qed.

(** ** One step of one thread *)

Definition good g (pcs : nat → @pc T) (q : @mqueue T) (t : nat) (st : @istatus (@op T) (@res T)) (s' : @queue T) (p' : @pc T) : Prop :=
  ∃ g' q' st', lmove spmc_spec q st q' st' ∧ Inv g' s' (<[t:=p']> pcs) q' ∧ stat g' p' st' ∧
    (∀ u st, u ≠ t → stat g (pcs u) st → stat g' (pcs u) st).

Definition is_take (p : @pc T) : bool := match p with PopTake _ _ _ _ => true | _ => false end.
Definition is_retire (p : @pc T) : bool := match p with PopRetire _ _ => true | _ => false end.

Section one_step.
Context (g : ghost) (s : @queue T) (pcs : nat → @pc T) (q : @mqueue T) (t : nat).
Context (HI : Inv g s pcs q).

Lemma not_take p : is_take p = false → ∀ r h d i, p ≠ PopTake r h d i.
Proof. by intros H r h d i ->. Qed.

(** The producer's part is untouched when a thread moves between program
    counters that are not a push's. *)
Lemma prod_pop g' s' p' : is_push (pcs t) = false → is_push p' = false → fresh g' = fresh g → pend g' = pend g → tail_ s' = tail_ s →
  filled_ s' = filled_ s → (∀ sg', heap s' (tail_ s) = Some sg' → ∃ sg, heap s (tail_ s) = Some sg ∧ enq sg' = enq sg) →
  prod_ok g' s' (<[t:=p']> pcs P).
Proof.
  intros Hp Hp' Hf Hpe Ht Hfi Hen. pose proof (iv_prod _ _ _ _ HI) as Hpr. by_thread t P.
  - assert (fresh g = None ∧ pend g = None) as [E1 E2] by (destruct (pcs P); simpl in *; try done; tauto).
    unfold prod_ok. rewrite Hf, Hpe. by destruct p'.
  - unfold prod_ok in *. rewrite Hf, Hpe, Ht, Hfi. destruct (pcs P); try done.
    + destruct Hpr as (? & ? & ? & He). split_and!; try done. intros sg' Hs'. destruct (Hen _ Hs') as (sg & Hs & ->). auto.
    + destruct Hpr as [? He]. split; [done|]. intros Hpn sg' Hs'. destruct (Hen _ Hs') as (sg & Hs & ->). auto.
Qed.

(** A step that changes nothing shared. *)
Lemma local_step p' st st' q' : is_push (pcs t) = false → is_push p' = false → is_take (pcs t) = false → is_take p' = false → is_retire p' = false →
  (∀ r, in_prot (pcs t) r → in_prot p' r) → scan_ok s (<[t:=p']> pcs) p' → thread_ok g s t p' →
  lmove spmc_spec q st q' st' → abs_ok g s q' → stat g p' st' → good g pcs q t st s p'.
Proof.
  intros H1 H2 H3 H4 H5 Hin Hsc Hth Hm Habs Hst. exists g, q', st'. split; [done|]. split; [|done].
  destruct HI as [I1 I2 I3 I4 I5 I6 I7]. split; try done.
  - apply take_pcs; try done; by apply not_take.
  - eapply recs_frame; eauto; [lia|]. intros r h ->. done.
  - intros u. by_thread t u; done.
  - eapply prod_pop; try done. eauto.
Qed.

Lemma quiet_step p' st : is_push (pcs t) = false → is_push p' = false → is_take (pcs t) = false → is_take p' = false → is_retire p' = false →
  (∀ r, in_prot (pcs t) r → in_prot p' r) → scan_ok s (<[t:=p']> pcs) p' → thread_ok g s t p' → stat g p' st → good g pcs q t st s p'.
Proof. intros. eapply local_step; eauto; [constructor|apply (iv_abs _ _ _ _ HI)]. Qed.

(** The records protect what they hold, unless their owner is protecting. *)
Lemma own_prot r h x : own s t = Some r → recs s !! r = Some x → slot1 x = Some h → ¬ in_prot (pcs t) r → ∃ sg, heap s h = Some sg ∧ num sg ≤ hn g.
Proof.
  intros Ho Hx Hs Hno. eapply (ro_prot _ _ _ (iv_recs _ _ _ _ HI)); eauto. intros u Hu.
  assert (rec_of (pcs u) = Some r) as Hr by (destruct (pcs u); simpl in *; try done; by f_equal).
  apply (tk_rec _ _ _ _ (iv_thread _ _ _ _ HI u)) in Hr. assert (u = t) as -> by (by eapply (ro_inj _ _ _ (iv_recs _ _ _ _ HI))). done.
Qed.

(** One record changes, but not what it has retired. *)
Lemma recs_alter r x f own' p' : recs s !! r = Some x → retired (f x) = retired x →
  (∀ u r', own' u = Some r' → if decide (r' = r) then active (f x) = true else own s u = Some r') →
  (∀ u v, own' u = Some r → own' v = Some r → u = v) → (active (f x) = false → slot1 (f x) = None) →
  (slot1 (f x) = slot1 x ∨ slot1 (f x) = None ∨ in_prot p' r) →
  (∀ r, in_prot (pcs t) r → in_prot p' r) → is_retire p' = false → match p' with ScanRead _ _ _ _ _ | ScanFree _ _ _ => False | _ => True end →
  recs_ok g (set_own (set_recs s (alter f r (recs s))) own') (<[t:=p']> pcs).
Proof.
  intros Hx Hret Hown Hinj Hidle Hslot Hin Hp' Hsc. pose proof (iv_recs _ _ _ _ HI) as [R1 R2 R3 R4 R5 R6 R7 R8 R9].
  assert (∀ r' y', alter f r (recs s) !! r' = Some y' →
    ∃ y, recs s !! r' = Some y ∧ retired y' = retired y ∧ (r' = r → y = x ∧ y' = f x) ∧ (r' ≠ r → y' = y)) as Hal.
  { intros r' y'. destruct (decide (r' = r)) as [->|].
    - rewrite list_lookup_alter_eq, Hx. intros E. simplify_eq/=. exists x. done.
    - rewrite list_lookup_alter_ne by done. intros E. exists y'. done. }
  assert (∀ u r', in_prot (pcs u) r' → in_prot (<[t:=p']> pcs u) r') as Hin' by (intros u r'; by_thread t u; [apply Hin|done]).
  split; simpl.
  - intros u r' Hu. specialize (Hown u r' Hu). case_decide as E.
    + subst. exists (f x). rewrite list_lookup_alter_eq, Hx. done.
    + rewrite list_lookup_alter_ne by done. eauto.
  - intros u v r' Hu Hv. pose proof (Hown u r' Hu) as Hu'. pose proof (Hown v r' Hv) as Hv'. case_decide; [subst; eauto|eauto].
  - intros r' y' Hy. destruct (Hal r' y' Hy) as (y & Hy0 & _ & E1 & E2). destruct (decide (r' = r)) as [->|]; [destruct E1 as [-> ->]; done|].
    rewrite E2 by done. eauto.
  - intros r' y' n Hy Hs Hno. destruct (Hal r' y' Hy) as (y & Hy0 & _ & E1 & E2).
    assert (∀ u, ¬ in_prot (pcs u) r') as Hno' by (intros u Hu; by apply (Hno u), Hin').
    destruct (decide (r' = r)) as [->|]; [|rewrite E2 in Hs by done; eauto]. destruct E1 as [-> ->]; [done|].
    destruct Hslot as [E|[E|E]]; [rewrite E in Hs; eauto|congruence|]. destruct (Hno t). by rewrite fn_insert_eq.
  - intros r' y' a Hy Ha. destruct (Hal r' y' Hy) as (y & Hy0 & E & _). rewrite E in Ha. eauto.
  - intros r' y' Hy. destruct (Hal r' y' Hy) as (y & Hy0 & E & _). rewrite E. eauto.
  - intros r1 r2 y1 y2 a Hne Hy1 Hy2. destruct (Hal r1 y1 Hy1) as (z1 & Hz1 & -> & _). destruct (Hal r2 y2 Hy2) as (z2 & Hz2 & -> & _). eauto.
  - intros u r' h. by_thread t u; [intros E; by rewrite E in Hp'|]. intros Hu. destruct (R8 u r' h Hu) as [H1 H2]. split.
    + intros r2 y' Hy. destruct (Hal r2 y' Hy) as (y & Hy0 & -> & _). eauto.
    + intros v r2. by_thread t v; [intros E; by rewrite E in Hp'|]. apply H2.
  - intros u r' i held. by_thread t u; [intros [(j & a & ->)|(_ & a & ->)]; done|].
    intros Hu y' m r2 y2' Hy Hn1 Hn2 Hi Hy2 Hs. destruct (Hal r' y' Hy) as (y & Hy0 & E & _). rewrite E in Hn1.
    destruct (Hal r2 y2' Hy2) as (y2 & Hy20 & _ & E1 & E2).
    destruct (decide (r2 = r)) as [->|].
    + destruct E1 as [-> ->]; [done|]. destruct Hslot as [F|[F|F]]; [|congruence|exists t; by rewrite fn_insert_eq].
      rewrite F in Hs. destruct (R9 u r' i held Hu y m r x Hy0 Hn1 Hn2 Hi Hx Hs) as [w Hw]. exists w. by apply Hin'.
    + rewrite E2 in Hs by done. destruct (R9 u r' i held Hu y m r2 y2 Hy0 Hn1 Hn2 Hi Hy20 Hs) as [w Hw]. exists w. by apply Hin'.
Qed.

(** The other threads, when one record changes that none of them owns. *)
Lemma threads_alter r f own' u : u ≠ t → own' u = own s u → own s u ≠ Some r →
  thread_ok g (set_own (set_recs s (alter f r (recs s))) own') u (pcs u).
Proof.
  intros Hu Ho Hr. apply (thread_frame g s); try done; [apply (iv_thread _ _ _ _ HI)| |eauto using grow_refl].
  intros r' x Hx Hl. exists x. simpl. rewrite list_lookup_alter_ne by congruence. done.
Qed.

(** A step that changes one record: the whole invariant. *)
Lemma rec_step r x f own' p' st : recs s !! r = Some x → retired (f x) = retired x →
  (∀ u r', own' u = Some r' → if decide (r' = r) then active (f x) = true else own s u = Some r') →
  (∀ u v, own' u = Some r → own' v = Some r → u = v) → (active (f x) = false → slot1 (f x) = None) →
  (slot1 (f x) = slot1 x ∨ slot1 (f x) = None ∨ in_prot p' r) →
  (∀ r, in_prot (pcs t) r → in_prot p' r) → is_retire p' = false → match p' with ScanRead _ _ _ _ _ | ScanFree _ _ _ => False | _ => True end →
  is_push (pcs t) = false → is_push p' = false → is_take (pcs t) = false → is_take p' = false →
  (∀ u, u ≠ t → own' u = own s u ∧ own s u ≠ Some r) →
  thread_ok g (set_own (set_recs s (alter f r (recs s))) own') t p' →
  (∃ st', lmove spmc_spec q st q st' ∧ stat g p' st') → good g pcs q t st (set_own (set_recs s (alter f r (recs s))) own') p'.
Proof.
  intros Hx Hret Hown Hinj Hidle Hslot Hin Hp' Hsc H1 H2 H3 H4 Hoth Hth (st' & Hm & Hst).
  exists g, q, st'. split; [done|]. split; [|done]. pose proof HI as [I1 I2 I3 I4 I5 I6 I7]. split; try done.
  - by destruct I1.
  - destruct (take_pcs g s pcs t p' I3 ltac:(by apply not_take) ltac:(by apply not_take)). done.
  - by eapply recs_alter.
  - intros u. by_thread t u; [done|]. destruct (Hoth u); [done|]. by apply threads_alter.
  - eapply prod_pop; try done. eauto.
Qed.

Lemma tk p : pcs t = p → thread_ok g s t p.
Proof. intros <-. apply (iv_thread _ _ _ _ HI). Qed.

Ltac quiet Hp := apply quiet_step; rewrite ?Hp; try done; try (by apply scan_ok_other).
Ltac thread := split; simpl; intros; simplify_eq/=; try done; eauto.

Lemma others_own r u : own s t = Some r → u ≠ t → own s u ≠ Some r.
Proof. intros Ho Hu E. apply Hu. by eapply (ro_inj _ _ _ (iv_recs _ _ _ _ HI)). Qed.

(** *** [acquire] *)

(** A new record. *)
Lemma recs_snoc n : own s t = None → length (recs s) = n → acquiring (pcs t) = true →
  recs_ok g (set_own (set_recs s (recs s ++ [Rec None None true []])) (<[t:=Some n]> (own s))) (<[t:=PopHead n]> pcs).
Proof.
  intros Hno Hn Hpl. pose proof (iv_recs _ _ _ _ HI) as [R1 R2 R3 R4 R5 R6 R7 R8 R9].
  assert (∀ u r, own s u = Some r → (r < n)%nat) as Hlt by (intros u r E; destruct (R1 u r E) as (x & Hx & _); apply lookup_lt_Some in Hx; lia).
  assert (∀ r x, (recs s ++ [Rec None None true []]) !! r = Some x → recs s !! r = Some x ∨ x = Rec None None true []) as Hl.
  { intros r x [[_ H]|[_ <-]]%lookup_snoc_Some; auto. }
  assert (∀ u r, in_prot (pcs u) r → in_prot (<[t:=PopHead n]> pcs u) r) as Hin.
  { intros u r. by_thread t u; [|done]. destruct (pcs u); done. }
  split; simpl.
  - intros u r. destruct (decide (u = t)) as [->|]; rewrite ?fn_insert_eq, ?fn_insert_ne by done.
    + intros E. simplify_eq. eexists. rewrite lookup_app_r, Nat.sub_diag by lia. done.
    + intros E. destruct (R1 u r E) as (x & Hx & ?). exists x. split; [by apply lookup_app_l_Some|done].
  - intros u v r. destruct (decide (u = t)) as [->|]; destruct (decide (v = t)) as [->|]; rewrite ?fn_insert_eq, ?fn_insert_ne by done; eauto.
    + intros E1 E2. simplify_eq. apply Hlt in E2. lia.
    + intros E1 E2. simplify_eq. apply Hlt in E1. lia.
  - intros r x [Hx| ->]%Hl; eauto.
  - intros r x m [Hx| ->]%Hl Hs Hpr; [|done]. eapply R4; eauto. intros u Hu. by apply (Hpr u), Hin.
  - intros r x a [Hx| ->]%Hl Ha; eauto. by apply not_elem_of_nil in Ha.
  - intros r x [Hx| ->]%Hl; eauto. constructor.
  - intros r r' x x' a Hne [Hx| ->]%Hl [Hx'| ->]%Hl Ha Ha'; eauto; by apply not_elem_of_nil in Ha || by apply not_elem_of_nil in Ha'.
  - intros u r h. by_thread t u; [done|]. intros Hu. destruct (R8 u r h Hu) as [H1 H2]. split.
    + intros r' x [Hx| ->]%Hl; eauto. apply not_elem_of_nil.
    + intros v r'. by_thread t v; [done|]. apply H2.
  - intros u r i held. by_thread t u; [intros [(j & a & ?)|(_ & a & ?)]; done|].
    intros Hu x m r' x' [Hx| ->]%Hl Hn1 Hn2 Hi [Hx'| ->]%Hl Hs; try done; [|by apply not_elem_of_nil in Hn1].
    destruct (R9 u r i held Hu x m r' x' Hx Hn1 Hn2 Hi Hx' Hs) as [w Hw]. exists w. by apply Hin.
Qed.

Lemma step_acquire c p st s' p' : pcs t = p → acquiring p = true → stat g p st → acquire_step c s p = Some (s', p') → good g pcs q t st s' p'.
Proof.
  intros Hp Ha Hst Hstep. pose proof (tk _ Hp) as Ht. pose proof (tk_acq _ _ _ _ Ht Ha) as Hno. pose proof (iv_recs _ _ _ _ HI) as Hr.
  assert (∀ p', acquiring p' = true → me_of p' = me_of p → thread_ok g s t p') as Hacq.
  { intros p2 H1 H2. split; try (by destruct p2); try done. intros me E. apply (tk_me _ _ _ _ Ht). congruence. }
  destruct p; try done; simpl in Hstep.
  - injection Hstep as <- <-. quiet Hp. by apply Hacq.
  - destruct i as [|i]; [injection Hstep as <- <-; quiet Hp; by apply Hacq|]. destruct (recs s !! i) as [x|]; [|done].
    injection Hstep as <- <-. destruct (active x); quiet Hp; by apply Hacq.
  - destruct (recs s !! i) as [x|] eqn:Ex; [|done]. destruct (active x) eqn:Eac; injection Hstep as <- <-; [quiet Hp; by apply Hacq|].
    assert (me = t) as -> by (by apply (tk_me _ _ _ _ Ht)).
    assert (∀ u, own s u ≠ Some i) as Hfree by (intros u E; destruct (ro_own _ _ _ Hr u i E) as (y & Hy & Ey); congruence).
    eapply rec_step; rewrite ?Hp; try done; [|..].
    + intros u r'. destruct (decide (u = t)) as [->|]; [rewrite fn_insert_eq; intros; simplify_eq; by rewrite decide_True|].
      rewrite fn_insert_ne by done. intros E. rewrite decide_False; [done|]. intros ->. by apply Hfree in E.
    + intros u v. destruct (decide (u = t)) as [->|]; destruct (decide (v = t)) as [->|]; rewrite ?fn_insert_eq, ?fn_insert_ne by done; try done;
        intros E1 E2; by apply Hfree in E1 || by apply Hfree in E2.
    + by left.
    + intros u Hu. rewrite fn_insert_ne by done. done.
    + thread. by rewrite fn_insert_eq.
    + exists st. split; [constructor|done].
  - injection Hstep as <- <-. quiet Hp. by apply Hacq.
  - destruct (negb (spurious c) && (length (recs s) =? n)%nat) eqn:E; injection Hstep as <- <-; [|quiet Hp; by apply Hacq].
    apply andb_prop in E as [_ <-%Nat.eqb_eq]. assert (me = t) as -> by (by apply (tk_me _ _ _ _ Ht)).
    exists g, q, st. split; [constructor|]. split; [|done]. pose proof HI as [I1 I2 I3 I4 I5 I6 I7]. split; try done.
    + by destruct I1.
    + destruct (take_pcs g s pcs t (PopHead (length (recs s))) I3 ltac:(done) ltac:(by rewrite Hp)). done.
    + apply recs_snoc; try done. by rewrite Hp.
    + intros u. by_thread t u; [thread; by rewrite fn_insert_eq|]. apply (thread_frame g s); try done; [| |eauto using grow_refl].
      * simpl. by rewrite fn_insert_ne.
      * intros r x _ Hx. exists x. split; [by apply lookup_app_l_Some|done].
    + apply prod_pop; try done; [by rewrite Hp|]. eauto.
Qed.

(** *** [held_head], [protect] *)

(** A step of the owner of record [r] on that record. *)
Lemma own_rec_step r x f p' st : own s t = Some r → recs s !! r = Some x → retired (f x) = retired x → active (f x) = active x →
  (slot1 (f x) = slot1 x ∨ slot1 (f x) = None ∨ in_prot p' r) →
  (∀ r, in_prot (pcs t) r → in_prot p' r) → is_retire p' = false → match p' with ScanRead _ _ _ _ _ | ScanFree _ _ _ => False | _ => True end →
  is_push (pcs t) = false → is_push p' = false → is_take (pcs t) = false → is_take p' = false →
  thread_ok g (set_recs s (alter f r (recs s))) t p' → stat g p' st → good g pcs q t st (set_recs s (alter f r (recs s))) p'.
Proof.
  intros Ho Hx Hret Hact Hslot Hin H1 H2 H3 H4 H5 H6 Hth Hst. pose proof (iv_recs _ _ _ _ HI) as Hr.
  destruct (ro_own _ _ _ Hr t r Ho) as (x0 & Hx0 & Hac). rewrite Hx in Hx0. injection Hx0 as <-.
  change (good g pcs q t st (set_own (set_recs s (alter f r (recs s))) (own s)) p').
  eapply rec_step; try done.
  - intros u r' Hu. case_decide; [congruence|done].
  - intros u v. by apply (ro_inj _ _ _ Hr).
  - intros E. congruence.
  - intros u Hu. split; [done|by apply others_own].
  - exists st. split; [constructor|done].
Qed.

Lemma step_protect p st s' p' : pcs t = p → (∃ r, in_prot p r) → stat g p st → protect_step s p = Some (s', p') → good g pcs q t st s' p'.
Proof.
  intros Hp [r0 Hpr] Hst Hstep. pose proof (tk _ Hp) as Ht. pose proof (iv_recs _ _ _ _ HI) as Hr.
  destruct p as [| | | | | | | | | | | | | | |r|r h|r h| | | | | | | | | | | | | | | |]; try done; simpl in Hstep; pose proof (tk_rec _ _ _ _ Ht r eq_refl) as Ho;
    destruct (ro_own _ _ _ Hr t r Ho) as (x & Hx & Hac).
  - injection Hstep as <- <-. quiet Hp. thread.
  - injection Hstep as <- <-. eapply own_rec_step; rewrite ?Hp; try done; [by right; right|]. thread.
    eexists. rewrite list_lookup_alter_eq, Hx. done.
  - destruct (tk_check _ _ _ _ Ht r h eq_refl) as (x' & Hx' & Hs). rewrite Hx in Hx'. injection Hx' as <-.
    injection Hstep as <- <-. case_decide as E; [|quiet Hp; thread].
    exists g, q, st. split; [constructor|]. split; [|done]. pose proof HI as [I1 I2 I3 I4 I5 I6 I7].
    destruct (head_seg _ _ I1) as (_ & sg & Hsg & Hnum). rewrite E in Hsg. split; try done.
    + apply take_pcs; try done; by rewrite Hp.
    + destruct I4 as [R1 R2 R3 R4 R5 R6 R7 R8 R9].
      assert (∀ u r', r' ≠ r → in_prot (pcs u) r' → in_prot (<[t:=PopDeq r h]> pcs u) r') as Hin.
      { intros u r' Hne. by_thread t u; [|done]. rewrite Hp. simpl. done. }
      split; try done.
      * intros r' y n Hy Hsy Hno. destruct (decide (r' = r)) as [->|]; [|eapply R4; eauto; intros u Hu; by apply (Hno u), Hin].
        assert (y = x) by congruence. assert (n = h) by congruence. subst. exists sg. split; [done|lia].
      * intros u r' m. by_thread t u; [done|]. intros Hu. destruct (R8 u r' m Hu) as [A B]. split; [done|]. intros v r''. by_thread t v; [done|]. apply B.
      * intros u r' i held. by_thread t u; [intros [(j & a & ?)|(_ & a & ?)]; done|].
        intros Hu y m r2 y2 Hy Hm1 Hm2 Hi Hy2 Hs2. destruct (R9 u r' i held Hu y m r2 y2 Hy Hm1 Hm2 Hi Hy2 Hs2) as [w Hw].
        destruct (decide (r2 = r)) as [->|]; [|exists w; by apply Hin].
        assert (y2 = x) by congruence. assert (m = h) by congruence. subst. destruct (R5 r' y _ Hy Hm1) as (sg' & Hsg' & Hlt).
        rewrite Hsg in Hsg'. simplify_eq. lia.
    + intros u. by_thread t u; [|done]. thread. split; [by exists x|]. exists sg. split_and!; [done|lia|done].
    + apply prod_pop; try done; [by rewrite Hp|]. eauto.
Qed.

(** *** Exit *)

Lemma step_exit p st s' p' : pcs t = p → match p with ExitOwn _ | ExitClear0 _ _ | ExitClear1 _ _ | ExitActive _ _ => True | _ => False end →
  stat g p st → exit_step s p = Some (s', p') → good g pcs q t st s' p'.
Proof.
  intros Hp Hk Hst Hstep. pose proof (tk _ Hp) as Ht. pose proof (iv_recs _ _ _ _ HI) as Hr.
  assert (∀ me, me_of p = Some me → me = t) as Hme by apply (tk_me _ _ _ _ Ht).
  destruct p; try done; simpl in Hstep; pose proof (Hme _ eq_refl) as Hme'; subst me.
  - injection Hstep as <- <-. destruct (own s t) as [r|] eqn:Eo.
    + quiet Hp. thread.
    + eapply local_step with (q' := q) (st' := IDone RUnit); rewrite ?Hp; try done; solve [by apply scan_ok_other|thread|rewrite Hst; by apply lmove_lin|apply (iv_abs _ _ _ _ HI)].
  - injection Hstep as <- <-. pose proof (tk_rec _ _ _ _ Ht r eq_refl) as Ho. destruct (ro_own _ _ _ Hr t r Ho) as (x & Hx & Hac).
    eapply own_rec_step; rewrite ?Hp; try done; [by left|]. thread.
  - injection Hstep as <- <-. pose proof (tk_rec _ _ _ _ Ht r eq_refl) as Ho. destruct (ro_own _ _ _ Hr t r Ho) as (x & Hx & Hac).
    eapply own_rec_step; rewrite ?Hp; try done; [by right; left|]. thread.
    eexists. rewrite list_lookup_alter_eq, Hx. done.
  - injection Hstep as <- <-. pose proof (tk_rec _ _ _ _ Ht r eq_refl) as Ho. destruct (tk_exit _ _ _ _ Ht r eq_refl eq_refl) as (x & Hx & Hs).
    apply (rec_step r x (set_active false)); rewrite ?Hp; try done.
    + intros u r'. destruct (decide (u = t)) as [->|]; rewrite ?fn_insert_eq, ?fn_insert_ne by done; [done|]. intros E.
      rewrite decide_False; [done|]. intros ->. by eapply others_own in E.
    + intros u v. destruct (decide (u = t)) as [->|]; rewrite ?fn_insert_eq, ?fn_insert_ne by done; [done|]. intros E. by eapply others_own in E.
    + by left.
    + intros u Hu. rewrite fn_insert_ne by done. split; [done|by apply others_own].
    + exists (IDone RUnit). split; [|done]. rewrite Hst. by apply lmove_lin.
Qed.

(** *** [scan], [retire] *)

(** A segment a scan is about to free is held by nobody. *)
Lemma unheld r held a x n : pcs t = ScanFree r held a → recs s !! r = Some x → n ∈ retired x → n ∉ held →
  ∀ u r', hold (pcs u) ≠ Some (r', n).
Proof.
  intros Hp Hx Hn Hh u r' Hu. destruct (tk_hold _ _ _ _ (iv_thread _ _ _ _ HI u) _ _ Hu) as [(y & Hy & Hs) _].
  pose proof (iv_recs _ _ _ _ HI) as Hr.
  destruct (ro_scan _ _ _ Hr t r 0 held) with (x := x) (n := n) (r' := r') (x' := y) as [w Hw]; try done; [eauto|lia|].
  assert (rec_of (pcs w) = Some r') as Ew by (destruct (pcs w); simpl in *; try done; by f_equal).
  assert (rec_of (pcs u) = Some r') as Eu by (destruct (pcs u); simpl in *; try done; by simplify_eq).
  assert (w = u) as -> by (eapply (ro_inj _ _ _ Hr); [by apply (tk_rec _ _ _ _ (iv_thread _ _ _ _ HI w))|by apply (tk_rec _ _ _ _ (iv_thread _ _ _ _ HI u))]).
  by destruct (pcs u).
Qed.

(** A retired segment is out of the chain, and drained. *)
Lemma retired_old r x n : recs s !! r = Some x → n ∈ retired x →
  (n ∉ chain g) ∧ fresh g ≠ Some n ∧ n ≠ head_ s ∧ n ≠ tail_ s ∧ ∃ sg, heap s n = Some sg ∧ num sg < hn g ∧ deq sg = K.
Proof.
  intros Hx Hn. destruct (ro_ret _ _ _ (iv_recs _ _ _ _ HI) _ _ _ Hx Hn) as (sg & Hsg & Hlt). pose proof (iv_chain _ _ _ _ HI) as Hc.
  assert (n ∉ chain g) as Hnc.
  { intros [i Hi]%list_elem_of_lookup. destruct (co_chain _ _ Hc _ _ Hi) as (sg' & Hsg' & ? & _). rewrite Hsg in Hsg'. simplify_eq. lia. }
  assert (fresh g ≠ Some n) as Hnf by (intros E; pose proof (fresh_num _ _ Hc _ _ E Hsg); lia).
  split_and!; try done.
  - intros ->. apply Hnc. destruct (head_seg _ _ Hc) as [H0 _]. by eapply list_elem_of_lookup_2.
  - intros ->. apply Hnc. destruct (tail_seg _ _ Hc) as [H0 _]. by eapply list_elem_of_lookup_2.
  - exists sg. split_and!; try done. by destruct (co_old _ _ Hc _ _ Hsg) as [?|[?|(_ & ? & _)]].
Qed.

Lemma free_all_spec (l : list nat) : ∀ s0 : @queue T, NoDup l → (∀ a, a ∈ l → has_element s0 a = false) →
  (∀ b, heap (free_all s0 l) b = if decide (b ∈ l) then None else heap s0 b) ∧ head_ (free_all s0 l) = head_ s0 ∧ tail_ (free_all s0 l) = tail_ s0 ∧
  filled_ (free_all s0 l) = filled_ s0 ∧ recs (free_all s0 l) = recs s0 ∧ own (free_all s0 l) = own s0 ∧ bad (free_all s0 l) = bad s0.
Proof.
  induction l as [|a l IH]; intros s0 Hnd Hel; simpl; [done|]. apply NoDup_cons in Hnd as [Ha Hnd].
  rewrite (Hel a) by (by left). set (s1 := set_heap s0 (<[a:=None]> (heap s0))).
  assert (∀ b, b ≠ a → heap s1 b = heap s0 b) as Ho by (intros; simpl; by rewrite fn_insert_ne).
  destruct (IH s1 Hnd) as (H1 & H2 & H3 & H4 & H5 & H6 & H7).
  { intros b Hb. unfold has_element. rewrite Ho by (by intros ->). apply Hel. by right. }
  split_and!; try done. intros b. rewrite H1. destruct (decide (b = a)) as [->|].
  - rewrite decide_False by done. simpl. rewrite fn_insert_eq. rewrite decide_True by (by left). done.
  - rewrite Ho by done. destruct (decide (b ∈ l)); [rewrite decide_True by (by right)|rewrite decide_False by (by intros [?|?]%elem_of_cons)]; done.
Qed.

Lemma step_scan_free r held a st x : pcs t = ScanFree r held a → stat g (pcs t) st → recs s !! r = Some x →
  let keep := filter (λ n, n ∈ held) (retired x) in
  let s1 := free_all s (filter (λ n, n ∉ held) (retired x)) in
  good g pcs q t st (set_recs s1 (alter (set_retired keep) r (recs s1))) (match a with ThenPop => PopHead r | ThenExit me => ExitActive r me end).
Proof.
  intros Hp Hst Hx keep s1. pose proof (tk _ Hp) as Ht. pose proof (tk_rec _ _ _ _ Ht r eq_refl) as Hown.
  set (fr := filter (λ n, n ∉ held) (retired x)) in *. set (p' := match a with ThenPop => PopHead r | ThenExit me => ExitActive r me end).
  assert (∀ n, n ∈ fr → n ∈ retired x ∧ n ∉ held) as Hfr by (intros n [? ?]%list_elem_of_filter; done).
  assert (∀ n, n ∈ fr → has_element s n = false) as Hel.
  { intros n [Hn Hh]%Hfr. destruct (retired_old r x n Hx Hn) as (_ & _ & _ & _ & sg & Hsg & _ & Hd).
    unfold has_element. rewrite Hsg. apply not_true_iff_false. rewrite existsb_exists. intros (c & [j Hj]%list_elem_of_In%list_elem_of_lookup & Hc).
    destruct c as [v|]; [|done]. pose proof (co_seg _ _ (iv_chain _ _ _ _ HI) _ _ Hsg) as Hso. pose proof (lookup_lt_Some _ _ _ Hj) as Hlt.
    rewrite (so_len _ _ _ Hso) in Hlt.
    destruct (to_taken _ _ _ (iv_take _ _ _ _ HI) n sg (Z.of_nat j) Hsg ltac:(lia)) as [E|(u & r' & i & Hu)]; [rewrite Nat2Z.id in E; congruence|].
    eapply (unheld r held a x n Hp Hx Hn Hh u r'). by rewrite Hu. }
  destruct (free_all_spec fr s) as (F1 & F2 & F3 & F4 & F5 & F6 & F7); [apply NoDup_filter; eapply (ro_nodup _ _ _ (iv_recs _ _ _ _ HI)); eauto|done|]. fold s1 in F1, F2, F3, F4, F5, F6, F7.
  assert (∀ b, b ∉ fr → heap s1 b = heap s b) as Hkeep by (intros b Hb; rewrite F1, decide_False; done).
  assert (∀ b sg, heap s1 b = Some sg → heap s b = Some sg ∧ b ∉ fr) as Hsub.
  { intros b sg. rewrite F1. case_decide; [done|]. done. }
  assert (∀ n, n ∈ fr → (n ∉ chain g) ∧ fresh g ≠ Some n ∧ n ≠ head_ s ∧ n ≠ tail_ s) as Hout.
  { intros n [Hn _]%Hfr. destruct (retired_old r x n Hx Hn) as (? & ? & ? & ? & _). done. }
  assert (is_push p' = false ∧ is_take p' = false ∧ is_retire p' = false ∧ (∀ r, ¬ in_prot p' r)) as (P1 & P2 & P3 & P4)
    by (subst p'; destruct a; split_and!; try done; by intros ? ?).
  exists g, q, st. split; [constructor|]. split; [|split; [rewrite Hp in Hst; subst p'; by destruct a|done]].
  pose proof HI as [I1 I2 I3 I4 I5 I6 I7]. split.
  - destruct I1 as [C1 C2 C3 C4 C5 C6 C7]. split; simpl; rewrite ?F2, ?F3, ?F4; try done.
    + intros i b Hb. destruct (C1 i b Hb) as (sg & ? & ?). exists sg. rewrite Hkeep; [done|].
      intros Hin. apply (proj1 (Hout b Hin)). by eapply list_elem_of_lookup_2.
    + intros b Hb. destruct (C2 b Hb). rewrite Hkeep; [done|]. intros Hin. by destruct (Hout b Hin) as (_ & ? & _).
    + intros b sg [Hb _]%Hsub. eauto.
    + intros b sg [Hb _]%Hsub. unfold fillof. simpl. rewrite F3, F4. by apply C4.
  - intros sh stl. simpl. rewrite F2, F3, !Hkeep; [apply I2| |]; intros Hin; by destruct (Hout _ Hin) as (_ & _ & ? & ?).
  - assert (take_ok g s (<[t:=p']> pcs)) as [A1 A2 A3] by (apply take_pcs; try done; [by apply not_take|by rewrite Hp]). split; simpl; try done.
    + intros u r' h d i Hu. destruct (A1 u r' h d i Hu) as (sg & v & Hsg & ?). exists sg, v. rewrite Hkeep; [done|].
      intros Hin. destruct (Hfr h Hin) as [Hn Hh]. revert Hu. by_thread t u; [intros E; by rewrite E in P2|]. intros Hu.
      eapply (unheld r held a x h Hp Hx Hn Hh u r'). by rewrite Hu.
    + intros b sg j [Hb _]%Hsub. eauto.
  - destruct I4 as [R1 R2 R3 R4 R5 R6 R7 R8 R9].
    assert (∀ r' y', alter (set_retired keep) r (recs s) !! r' = Some y' → ∃ y, recs s !! r' = Some y ∧ slot1 y' = slot1 y ∧ active y' = active y ∧
      (∀ n, n ∈ retired y' → n ∈ retired y ∧ n ∉ fr) ∧ NoDup (retired y')) as Hal.
    { intros r' y'. destruct (decide (r' = r)) as [->|Hne].
      - rewrite list_lookup_alter_eq, Hx. intros E. simplify_eq/=. exists x. split_and!; try done.
        + intros n [Hh Hn]%list_elem_of_filter. split; [done|]. intros [_ ?]%Hfr. done.
        + apply NoDup_filter. eauto.
      - rewrite list_lookup_alter_ne by done. intros E. exists y'. split_and!; try done; [|eauto]. intros n Hn. split; [done|]. intros [Hn' _]%Hfr.
        by apply (R7 r' r y' x n). }
    assert (∀ u r', in_prot (pcs u) r' → in_prot (<[t:=p']> pcs u) r') as Hin by (intros u r'; by_thread t u; [by rewrite Hp|done]).
    split; simpl; rewrite ?F5, ?F6.
    + intros u r' Hu. destruct (R1 u r' Hu) as (y & Hy & Hac). destruct (decide (r' = r)) as [->|].
      * rewrite list_lookup_alter_eq, Hx. eexists. split; [done|]. simpl. congruence.
      * rewrite list_lookup_alter_ne by done. eauto.
    + done.
    + intros r' y' Hy Hac. destruct (Hal r' y' Hy) as (y & Hy0 & -> & E & _). rewrite E in Hac. eauto.
    + intros r' y' n Hy Hs Hno. destruct (Hal r' y' Hy) as (y & Hy0 & E & _). rewrite E in Hs.
      assert (∀ u, ¬ in_prot (pcs u) r') as Hno' by (intros u Hu; by apply (Hno u), Hin).
      destruct (R4 r' y n Hy0 Hs Hno') as (sg & Hsg & ?). exists sg. rewrite Hkeep; [done|]. intros [Hn Hh]%Hfr.
      destruct (R9 t r 0%nat held) with (x := x) (n := n) (r' := r') (x' := y) as [w Hw]; try done; [eauto|lia|]. by apply (Hno' w).
    + intros r' y' b Hy Hb. destruct (Hal r' y' Hy) as (y & Hy0 & _ & _ & Hsu & _). destruct (Hsu b Hb) as [Hb1 Hb2].
      rewrite Hkeep by done. eauto.
    + intros r' y' Hy. by destruct (Hal r' y' Hy) as (y & Hy0 & _ & _ & _ & ?).
    + intros r1 r2 y1 y2 b Hne Hy1 Hy2 Hb1 Hb2. destruct (Hal r1 y1 Hy1) as (z1 & Hz1 & _ & _ & S1 & _). destruct (Hal r2 y2 Hy2) as (z2 & Hz2 & _ & _ & S2 & _).
      destruct (S1 b Hb1), (S2 b Hb2). by apply (R7 r1 r2 z1 z2 b).
    + intros u r' h. by_thread t u; [intros E; by rewrite E in P3|]. intros Hu. destruct (R8 u r' h Hu) as [B1 B2]. split.
      * intros r2 y' Hy Hh. destruct (Hal r2 y' Hy) as (y & Hy0 & _ & _ & Hsu & _). destruct (Hsu h Hh). by apply (B1 r2 y).
      * intros v r2. by_thread t v; [intros E; by rewrite E in P3|]. apply B2.
    + intros u r' i hl. by_thread t u; [subst p'; intros [(j & b & E)|(_ & b & E)]; by destruct a|].
      intros Hu y' m r2 y2' Hy Hm1 Hm2 Hi Hy2 Hs2. destruct (Hal r' y' Hy) as (y & Hy0 & _ & _ & Hsu & _). destruct (Hsu m Hm1) as [Hm1' _].
      destruct (Hal r2 y2' Hy2) as (y2 & Hy20 & E2 & _). rewrite E2 in Hs2.
      destruct (R9 u r' i hl Hu y m r2 y2 Hy0 Hm1' Hm2 Hi Hy20 Hs2) as [w Hw]. exists w. by apply Hin.
  - assert (∀ r' y, recs s !! r' = Some y → ∃ y', recs (set_recs s1 (alter (set_retired keep) r (recs s1))) !! r' = Some y' ∧ slot1 y' = slot1 y) as Hsl.
    { intros r' y Hy. simpl. rewrite F5. destruct (decide (r' = r)) as [->|]; [rewrite list_lookup_alter_eq, Hy; by eexists|rewrite list_lookup_alter_ne by done; by exists y]. }
    intros u. by_thread t u.
    + subst p'. destruct a as [|me]; simpl.
      * split; simpl; try done. rewrite F6. intros r' E. by simplify_eq.
      * pose proof (tk_me _ _ _ _ Ht me eq_refl) as ->. destruct (tk_exit _ _ _ _ Ht r eq_refl eq_refl) as (y & Hy & Hs).
        split; simpl; try done; [rewrite F6; intros r' E; by simplify_eq|intros me E; by simplify_eq|].
        intros r' _ E. injection E as <-. destruct (Hsl _ _ Hy) as (y' & Hy' & E'). exists y'. split; [done|congruence].
    + apply (thread_frame g s); [done|simpl; by rewrite F6|by intros; apply Hsl|lia|].
      intros r' h sg Hh Hsg _. exists sg. split; [|done]. simpl. rewrite Hkeep; [done|]. intros [Hn Hhe]%Hfr. by apply (unheld r held a x h Hp Hx Hn Hhe u r').
  - apply prod_pop; try done; simpl; rewrite ?F3, ?F4; try done; [by rewrite Hp|]. intros sg [Hsg _]%Hsub. eauto.
  - simpl. by rewrite F7.
Qed.

(** A program counter with the same record, name and exit as the last. *)
Lemma thread_same p p' : pcs t = p → rec_of p' = rec_of p → me_of p' = me_of p → acquiring p' = false → hold p' = None →
  (∀ r h, p' ≠ ProtCheck r h) → (exiting p' = true → exiting p = true) → is_push p' = false → p' ≠ PcBad → thread_ok g s t p'.
Proof.
  intros Hp E1 E2 E3 E4 E5 E6 E7 E8. pose proof (tk _ Hp) as [H1 H2 H3 H4 H5 H6 H7 H8]. split.
  - intros r. rewrite E1. apply H1.
  - intros me. rewrite E2. apply H2.
  - congruence.
  - intros r h E. congruence.
  - intros r h E. by apply E5 in E.
  - intros r Hex. rewrite E1. auto.
  - congruence.
  - done.
Qed.

Lemma step_scan p st s' p' : pcs t = p → match p with ScanStart _ _ | ScanRead _ _ _ _ _ | ScanFree _ _ _ => True | _ => False end →
  stat g p st → scan_step s p = Some (s', p') → good g pcs q t st s' p'.
Proof.
  intros Hp Hk Hst Hstep. pose proof (iv_recs _ _ _ _ HI) as Hr.
  destruct p as [| | | | | | | | | | | | | | | | | | | | | | | | | | |r a|r i j held a|r held a| | | |]; try done; simpl in Hstep.
  - injection Hstep as <- <-. apply quiet_step; rewrite ?Hp; try done; try (by eapply thread_same); try (by destruct a).
    intros r0 i held [(j & b & E)|(_ & b & E)] x n r' x' _ _ _ Hi Hx' _; simplify_eq. apply lookup_lt_Some in Hx'. lia.
  - destruct i as [|i].
    + injection Hstep as <- <-. apply quiet_step; rewrite ?Hp; try done; try (by eapply thread_same); try (by destruct a).
      intros r0 i0 held0 [(j0 & b & E)|(-> & b & E)]; simplify_eq. intros x n r' x' Hx Hn Hh Hi Hx' Hs.
      destruct (ro_scan _ _ _ Hr t r0 0 held0) with (x := x) (n := n) (r' := r') (x' := x') as [w Hw]; try done; [by left; eauto|].
      exists w. by_thread t w; [by rewrite Hp in Hw|done].
    + destruct (recs s !! i) as [y|] eqn:Ey; [|done]. injection Hstep as <- <-.
      assert (∀ i' held' j', (i' = S i ∨ (i' = i ∧ j = true)) →
        held' = (match (if j then slot1 y else slot0 y) with Some n => n :: held | None => held end) →
        scan_ok s (<[t:=ScanRead r i' j' held' a]> pcs) (ScanRead r i' j' held' a)) as Hsc.
      { intros i' held' j' Hi' Hh' r0 i0 held0 [(j0 & b & E)|(-> & b & E)]; simplify_eq. intros x n r' x' Hx Hn Hh Hi Hx' Hs.
        destruct (decide (i0 = i ∧ r' = i)) as [[-> ->]|Hne].
        - exfalso. destruct Hi' as [?|[_ ->]]; [lia|]. simplify_eq. rewrite Hs in Hh. apply Hh. by left.
        - destruct (ro_scan _ _ _ Hr t r0 (S i) held) with (x := x) (n := n) (r' := r') (x' := x') as [w Hw]; try done; [by left; eauto| |lia|].
          + intros Hin. apply Hh. destruct (if j then slot1 y else slot0 y); [by right|done].
          + exists w. by_thread t w; [by rewrite Hp in Hw|done]. }
      destruct j; (apply quiet_step; rewrite ?Hp; try done; solve [by apply Hsc; auto|by eapply thread_same|by destruct a]).
  - destruct (recs s !! r) as [x|] eqn:Ex; [|done]. injection Hstep as <- <-. eapply (step_scan_free r held a); eauto. by rewrite Hp.
Qed.

Lemma step_retire p st s' p' : pcs t = p → is_retire p = true → stat g p st → retire_step s p = Some (s', p') → good g pcs q t st s' p'.
Proof.
  intros Hp Hk Hst Hstep. pose proof (tk _ Hp) as Ht. destruct p as [| | | | | | | | | | | | | | | | | | | | | | | | | |r h| | | | | | |]; try done. simpl in Hstep.
  pose proof (tk_rec _ _ _ _ Ht r eq_refl) as Ho. destruct (tk_hold _ _ _ _ Ht r h eq_refl) as [(x & Hx & Hs) (sg & Hsg & _ & Hn)]. simpl in Hn.
  rewrite Hx in Hstep. injection Hstep as <- <-. set (p' := if _ : bool then _ else _).
  assert (is_push p' = false ∧ is_take p' = false ∧ is_retire p' = false ∧ rec_of p' = Some r ∧ me_of p' = None ∧ hold p' = None ∧ (∀ r, ¬ in_prot p' r) ∧
    exiting p' = false ∧ acquiring p' = false) as (P1 & P2 & P3 & P4 & P5 & P6 & P7 & P8 & P9) by (subst p'; case_match; split_and!; try done; by intros ? ?).
  exists g, q, st. split; [constructor|]. split; [|split; [subst p'; by case_match|done]]. pose proof HI as [I1 I2 I3 I4 I5 I6 I7].
  destruct (ro_retire _ _ _ I4 t r h Hp) as [Hnr Huniq]. split; try done.
  - by destruct I1.
  - destruct (take_pcs g s pcs t p' I3 ltac:(by apply not_take) ltac:(by rewrite Hp)). done.
  - destruct I4 as [R1 R2 R3 R4 R5 R6 R7 R8 R9].
    assert (∀ r' y', alter (set_retired (retired x ++ [h])) r (recs s) !! r' = Some y' → ∃ y, recs s !! r' = Some y ∧ slot1 y' = slot1 y ∧ active y' = active y ∧
      (∀ n, n ∈ retired y' ↔ n ∈ retired y ∨ (r' = r ∧ n = h)) ∧ NoDup (retired y')) as Hal.
    { intros r' y'. destruct (decide (r' = r)) as [->|Hne].
      - rewrite list_lookup_alter_eq, Hx. intros E. simplify_eq/=. exists x. split_and!; try done; [intros n; rewrite elem_of_app, list_elem_of_singleton; tauto|].
        apply NoDup_app. split_and!; [eauto| |apply NoDup_singleton]. intros b Hb ->%list_elem_of_singleton. by apply (Hnr r x).
      - rewrite list_lookup_alter_ne by done. intros E. exists y'. split_and!; try done; [|eauto]. intros n. split; [auto|intros [?|[? _]]; done]. }
    assert (∀ u r', in_prot (pcs u) r' → in_prot (<[t:=p']> pcs u) r') as Hin by (intros u r'; by_thread t u; [by rewrite Hp|done]).
    split; simpl.
    + intros u r' Hu. destruct (R1 u r' Hu) as (y & Hy & Hac). destruct (decide (r' = r)) as [->|].
      * rewrite list_lookup_alter_eq, Hx. eexists. split; [done|]. simpl. congruence.
      * rewrite list_lookup_alter_ne by done. eauto.
    + done.
    + intros r' y' Hy Hac. destruct (Hal r' y' Hy) as (y & Hy0 & -> & E & _). rewrite E in Hac. eauto.
    + intros r' y' n Hy Hs' Hno. destruct (Hal r' y' Hy) as (y & Hy0 & E & _). rewrite E in Hs'. eapply R4; eauto. intros u Hu. by apply (Hno u), Hin.
    + intros r' y' b Hy Hb. destruct (Hal r' y' Hy) as (y & Hy0 & _ & _ & Hsu & _). destruct (proj1 (Hsu b) Hb) as [Hb'|[_ Eb]]; [eauto|rewrite Eb; eauto].
    + intros r' y' Hy. by destruct (Hal r' y' Hy) as (y & Hy0 & _ & _ & _ & ?).
    + intros r1 r2 y1 y2 b Hne Hy1 Hy2 Hb1 Hb2. destruct (Hal r1 y1 Hy1) as (z1 & Hz1 & _ & _ & S1 & _). destruct (Hal r2 y2 Hy2) as (z2 & Hz2 & _ & _ & S2 & _).
      destruct (proj1 (S1 b) Hb1) as [Hc1|[F1 G1]]; destruct (proj1 (S2 b) Hb2) as [Hc2|[F2 G2]]; subst; [by apply (R7 r1 r2 z1 z2 b)|by apply (Hnr r1 z1)|by apply (Hnr r2 z2)|done].
    + intros u r' m. by_thread t u; [intros E; by rewrite E in P3|]. intros Hu. destruct (R8 u r' m Hu) as [B1 B2]. split.
      * intros r2 y' Hy Hm. destruct (Hal r2 y' Hy) as (y & Hy0 & _ & _ & Hsu & _). destruct (proj1 (Hsu m) Hm) as [Hm'|[_ Em]]; [by apply (B1 r2 y)|].
        rewrite Em in Hu. by apply Huniq in Hu.
      * intros v r2. by_thread t v; [intros E; by rewrite E in P3|]. apply B2.
    + intros u r' i hl. by_thread t u; [subst p'; intros [(j & b & E)|(_ & b & E)]; by case_match|].
      intros Hu y' m r2 y2' Hy Hm1 Hm2 Hi Hy2 Hs2. destruct (Hal r' y' Hy) as (y & Hy0 & _ & _ & Hsu & _).
      assert (r' ≠ r) as Hrr.
      { intros ->. assert (rec_of (pcs u) = Some r) as Eu by (destruct Hu as [(j & b & ->)|(_ & b & ->)]; done).
        apply (tk_rec _ _ _ _ (I5 u)) in Eu. by eapply others_own in Eu. }
      destruct (proj1 (Hsu m) Hm1) as [Hm1'|[? _]]; [|done]. destruct (Hal r2 y2' Hy2) as (y2 & Hy20 & E2 & _). rewrite E2 in Hs2.
      destruct (R9 u r' i hl Hu y m r2 y2 Hy0 Hm1' Hm2 Hi Hy20 Hs2) as [w Hw]. exists w. by apply Hin.
  - intros u. by_thread t u.
    + split; try congruence; [intros r'; rewrite P4; simpl; congruence|subst p'; intros r' h' E; by case_match|subst p'; by case_match].
    + apply (thread_frame g s); try done; [|eauto using grow_refl]. intros r' y Ho' Hy. simpl. exists y.
      rewrite list_lookup_alter_ne; [done|]. intros ->. by eapply others_own in Ho'.
  - apply prod_pop; try done; [by rewrite Hp|]. eauto.
Qed.

(** *** [pop] *)

(** The next program counter on the same protected segment. *)
Lemma thread_hold p p' r h : pcs t = p → hold p = Some (r, h) → hold p' = Some (r, h) → rec_of p' = Some r →
  (∀ sg, heap s h = Some sg → num sg ≤ hn g → seg_pc g p sg → seg_pc g p' sg) → thread_ok g s t p'.
Proof.
  intros Hp Hh Hh' Hr' Hseg. pose proof (tk _ Hp) as Ht. destruct (tk_hold _ _ _ _ Ht r h Hh) as [Hx (sg & Hsg & Hn & Hs)].
  assert (rec_of p = Some r) as Hr by (destruct p; simpl in *; try done; by simplify_eq).
  split; try (by destruct p').
  - intros r' E. apply (tk_rec _ _ _ _ Ht). congruence.
  - intros r' h' E. rewrite Hh' in E. injection E as <- <-. split; [done|]. exists sg. eauto.
Qed.

(** The segment a pop reads. *)
Lemma held_seg p r h : pcs t = p → hold p = Some (r, h) → ∃ sg, heap s h = Some sg ∧ num sg ≤ hn g ∧ seg_pc g p sg ∧ seg_ok g (fillof g s h) sg ∧ fresh g ≠ Some h.
Proof.
  intros Hp Hh. destruct (tk_hold _ _ _ _ (tk _ Hp) r h Hh) as [_ (sg & Hsg & Hn & Hs)]. exists sg.
  pose proof (iv_chain _ _ _ _ HI) as Hc. split_and!; try done; [by apply (co_seg _ _ Hc)|].
  intros Hf. pose proof (fresh_num _ _ Hc _ _ Hf Hsg). lia.
Qed.

(** Nothing is visible when the head, also the tail, is claimed up to its count. *)
Lemma empty_vis sg : heap s (head_ s) = Some sg → head_ s = tail_ s → deq sg = enq sg → vis q = [].
Proof.
  intros Hsg Ht He. destruct (iv_abs _ _ _ _ HI sg sg Hsg) as [_ Hle]; [by rewrite <-Ht|].
  pose proof (iv_chain _ _ _ _ HI) as Hc. destruct (head_seg _ _ Hc) as [H0 _], (tail_seg _ _ Hc) as [H1 _]. rewrite Ht in H0.
  pose proof (chain_inj _ _ Hc _ _ _ H0 H1). pose proof (chain_len _ _ Hc). apply nil_length_inv. nia.
Qed.

Lemma pop_none p r h sg st : pcs t = p → hold p = Some (r, h) → is_take p = false → stat g p st → (∃ me, st = ICalled (Pop me) []) →
  heap s h = Some sg → h = head_ s → h = tail_ s → deq sg = enq sg → good g pcs q t st s (PcDone (RPop None)).
Proof.
  intros Hp Hh Htk Hst [me ->] Hsg Hhd Htl He. subst h. pose proof (empty_vis sg Hsg ltac:(congruence) He) as Hv.
  eapply local_step with (q' := q) (st' := IDone (RPop None)); rewrite ?Hp; try done.
  - by destruct p.
  - intros r' Hin. by destruct p.
  - by apply scan_ok_other.
  - apply lmove_lin. simpl. exists [], (dfr q). rewrite app_nil_r, Hv. split_and!; try done. destruct q; simpl in *; by subst.
  - apply (iv_abs _ _ _ _ HI).
Qed.

Lemma step_pop_local p st p' c : pcs t = p → match p with PopOwn _ | PopHead _ | PopDeq _ _ | PopSeen _ _ _ | PopEnq _ _ _ | PopNext _ _ => True | _ => False end →
  stat g p st → pop_step K c s p = Some (s, p') → good g pcs q t st s p'.
Proof.
  intros Hp Hk Hst Hstep. pose proof (tk _ Hp) as Ht. pose proof (iv_recs _ _ _ _ HI) as Hr. pose proof (iv_chain _ _ _ _ HI) as Hc.
  destruct p as [| | | | | | | |me| | | | | |r| | | |r h|r h d|r h d| | | |r h| | | | | | | | |]; try done; simpl in Hstep.
  - injection Hstep as <-. pose proof (tk_me _ _ _ _ Ht me eq_refl) as Hme. subst me. destruct (own s t) as [r|] eqn:Eo; quiet Hp; thread.
  - pose proof (tk_rec _ _ _ _ Ht r eq_refl) as Ho. destruct (ro_own _ _ _ Hr t r Ho) as (x & Hx & _). rewrite Hx in Hstep. injection Hstep as <-.
    case_decide as Es; [|quiet Hp; thread]. quiet Hp.
    destruct (head_seg _ _ Hc) as (_ & sg & Hsg & Hn). thread. split; [by exists x|]. exists sg. split_and!; [done|lia|done].
  - destruct (held_seg _ r h Hp eq_refl) as (sg & Hsg & Hn & _ & Hso & _). unfold at_seg in Hstep. rewrite Hsg in Hstep. injection Hstep as <-.
    quiet Hp. eapply thread_hold; try done. intros sg' Hsg' _ _. rewrite Hsg in Hsg'. injection Hsg' as <-. simpl. pose proof (so_range _ _ _ Hso). lia.
  - destruct (held_seg _ r h Hp eq_refl) as (sg & Hsg & Hn & Hs & Hso & _). unfold at_seg in Hstep. rewrite Hsg in Hstep. injection Hstep as <-.
    pose proof (so_range _ _ _ Hso). simpl in Hs.
    destruct (Z.leb_spec (seen sg) d); quiet Hp; (eapply thread_hold; try done); intros sg' Hsg' _ _; rewrite Hsg in Hsg'; injection Hsg' as <-; simpl; lia.
  - destruct (held_seg _ r h Hp eq_refl) as (sg & Hsg & Hn & Hs & Hso & _). unfold at_seg in Hstep. rewrite Hsg in Hstep. injection Hstep as <-.
    pose proof (so_range _ _ _ Hso). simpl in Hs. destruct (Z.leb_spec (enq sg) d).
    + destruct (Z.ltb_spec (enq sg) K).
      * destruct (unfull_tail _ _ Hc h sg Hsg Hn ltac:(done)) as [E1 E2]. eapply pop_none; eauto; lia.
      * quiet Hp. eapply thread_hold; try done. intros sg' Hsg' _ _. rewrite Hsg in Hsg'. injection Hsg' as <-. simpl. lia.
    + quiet Hp. eapply thread_hold; try done. intros sg' Hsg' _ _. rewrite Hsg in Hsg'. injection Hsg' as <-. simpl. lia.
  - destruct (held_seg _ r h Hp eq_refl) as (sg & Hsg & Hn & Hs & Hso & _). unfold at_seg in Hstep. rewrite Hsg in Hstep. injection Hstep as <-.
    pose proof (so_range _ _ _ Hso). simpl in Hs. destruct (next sg) as [n|] eqn:En.
    + quiet Hp. eapply thread_hold; try done. intros sg' Hsg' _ _. rewrite Hsg in Hsg'. injection Hsg' as <-. done.
    + destruct (no_next_tail _ _ Hc h sg Hsg Hn En) as [E1 E2]. eapply pop_none; eauto. lia.
Qed.

(** A step that rewrites the protected segment in place. *)
Lemma put_step p p' r h sg sg' q' st st' : pcs t = p → hold p = Some (r, h) → heap s h = Some sg → num sg ≤ hn g →
  num sg' = num sg → next sg' = next sg → enq sg' = enq sg → deq sg ≤ deq sg' → (deq sg' = deq sg ∨ head_ s = h) → deq sg' ≤ K →
  seg_ok g (fillof g s h) sg' → is_push p' = false → is_retire p' = false → (∀ r, ¬ in_prot p r) → scan_ok s (<[t:=p']> pcs) p' →
  take_ok g (put_seg s h sg') (<[t:=p']> pcs) → abs_ok g (put_seg s h sg') q' → thread_ok g (put_seg s h sg') t p' →
  lmove spmc_spec q st q' st' → stat g p' st' → good g pcs q t st (put_seg s h sg') p'.
Proof.
  intros Hp Hh Hsg Hn E1 E2 E3 E4 E5 E6 Hso P1 P2 P3 Hsc Htk Habs Hth Hm Hst. exists g, q', st'. split; [done|]. split; [|done].
  pose proof HI as [I1 I2 I3 I4 I5 I6 I7].
  assert (fresh g ≠ Some h) as Hnf by (intros E; pose proof (fresh_num _ _ I1 _ _ E Hsg); lia).
  assert (∀ b sb, heap s b = Some sb → ∃ sb', heap (put_seg s h sg') b = Some sb' ∧ grow sb sb') as Hgrow.
  { intros b sb Hb. simpl. destruct (decide (b = h)) as [->|].
    - rewrite fn_insert_eq. exists sg'. split; [done|]. rewrite Hsg in Hb. injection Hb as <-. unfold grow. rewrite E1, E2, E3. split_and!; try done; lia.
    - rewrite fn_insert_ne by done. exists sb. split; [done|apply grow_refl]. }
  split; try done.
  - eapply chain_put; eauto; solve [congruence|intros; pose proof (so_range _ _ _ (co_seg _ _ I1 _ _ Hsg)); lia].
  - apply (recs_frame g s); [done|done|done|lia| |by rewrite Hp; intros r' Hin; apply P3 in Hin|by intros r' h' ->|done].
    intros n sb Hb _. destruct (Hgrow n sb Hb) as (sb' & ? & ? & _). eauto.
  - intros u. by_thread t u; [done|]. apply (thread_heap g s); [apply I5|done|done|lia|]. intros b sb Hb _. by apply Hgrow.
  - apply prod_pop; try done; [rewrite Hp; by destruct p|]. intros sb. simpl. destruct (decide (tail_ s = h)) as [E|].
    + rewrite E, fn_insert_eq. intros F. injection F as <-. eauto.
    + rewrite fn_insert_ne by done. eauto.
Qed.

(** The abstract queue is unchanged when the claim and publication counts are. *)
Lemma abs_put h sg sg' : heap s h = Some sg → deq sg' = deq sg → enq sg' = enq sg → abs_ok g (put_seg s h sg') q.
Proof.
  intros Hsg E1 E2 sh stl. simpl. intros Hsh Hstl.
  assert (∀ b sb', <[h:=Some sg']> (heap s) b = Some sb' → ∃ sb, heap s b = Some sb ∧ deq sb' = deq sb ∧ enq sb' = enq sb) as Hb.
  { intros b sb'. destruct (decide (b = h)) as [->|]; [rewrite fn_insert_eq; intros F; injection F as <-; eauto|rewrite fn_insert_ne by done; eauto]. }
  destruct (Hb _ _ Hsh) as (sh0 & Hsh0 & -> & _). destruct (Hb _ _ Hstl) as (st0 & Hst0 & _ & ->). by apply (iv_abs _ _ _ _ HI).
Qed.
Lemma thread_put p p' r h sg sg' : pcs t = p → hold p = Some (r, h) → hold p' = Some (r, h) → rec_of p' = Some r → heap s h = Some sg →
  num sg ≤ hn g → num sg' = num sg → seg_pc g p' sg' → thread_ok g (put_seg s h sg') t p'.
Proof.
  intros Hp Hh Hh' Hr' Hsg Hn E Hs. pose proof (tk _ Hp) as Ht. destruct (tk_hold _ _ _ _ Ht r h Hh) as [Hx _].
  assert (rec_of p = Some r) as Hr by (destruct p; simpl in *; try done; by simplify_eq).
  split; try (by destruct p').
  - intros r' E'. apply (tk_rec _ _ _ _ Ht). congruence.
  - intros r' h' E'. rewrite Hh' in E'. injection E' as <- <-. split; [done|]. exists sg'. simpl. rewrite fn_insert_eq. split_and!; [done|lia|done].
Qed.

Lemma pop_seen_store r h d e sg st : pcs t = PopSeenStore r h d e → heap s h = Some sg → stat g (PopSeenStore r h d e) st →
  good g pcs q t st (put_seg s h (set_seen e sg)) (PopCas r h d e).
Proof.
  intros Hp Hsg0 Hst. destruct (held_seg _ r h Hp eq_refl) as (sg1 & Hsg & Hn & Hs & Hso & _). rewrite Hsg0 in Hsg. injection Hsg as <-. simpl in Hs.
  destruct (so_range _ _ _ Hso) as (R1 & R2 & R3 & R4).
  eapply put_step with (q' := q) (st' := st); eauto; simpl; try done; try lia.
  - destruct Hso as [S1 S2 S3 S4 S5]. split; try done. simpl. lia.
  - by apply scan_ok_other.
  - pose proof (iv_take _ _ _ _ HI) as Htk. apply take_pcs; [|done|by rewrite Hp].
    apply (take_heap g s); try done.
    + intros b sb Hb. right. simpl in Hb. destruct (decide (b = h)) as [->|]; [rewrite fn_insert_eq in Hb; injection Hb as <-; by exists sg|].
      rewrite fn_insert_ne in Hb by done. by exists sb.
    + intros u r' h' d' i sb Hu Hb. destruct (to_cell _ _ _ Htk u r' h' d' i Hu) as (sb' & v & Hb' & Hd & _). rewrite Hb in Hb'. injection Hb' as <-.
      split; [|lia]. simpl. destruct (decide (h' = h)) as [->|]; [by rewrite fn_insert_eq|by rewrite fn_insert_ne].
    + intros b sb Hb Hd sb' Hb'. simpl in Hb. destruct (decide (b = h)) as [->|]; [rewrite fn_insert_eq in Hb; injection Hb as <-; simpl in Hd; congruence|].
      rewrite fn_insert_ne in Hb by done. congruence.
  - by eapply abs_put.
  - eapply thread_put; eauto.
  - constructor.
Qed.

(** An element written and not published is past the published count. *)
Lemma prod_pend g0 s0 p w stl : prod_ok g0 s0 p → pend g0 = Some w → heap s0 (tail_ s0) = Some stl → enq stl < filled_ s0.
Proof.
  intros Hpr Hw Hs. assert (pend g0 = None ∨ p = PubStore) as [E| ->] by (destruct p; simpl in Hpr; tauto); [congruence|].
  destruct Hpr as [_ H]. apply H; [by rewrite Hw|done].
Qed.

(** The next element to claim and the abstract queue. *)
Lemma next_elem sg d v : heap s (head_ s) = Some sg → deq sg = d → d < enq sg → vals g !! Z.to_nat (hn g * K + d) = Some v →
  ∃ q', mq_step q (Pop t) (RPop (Some v)) q' ∧ vis q' ++ dfr q' ++ option_list (pend g) = drop (Z.to_nat (hn g * K + d + 1)) (vals g) ∧
    ∀ stl, heap s (tail_ s) = Some stl → hn g * K + d + 1 + Z.of_nat (length (vis q')) ≤ (hn g + Z.of_nat (length (chain g)) - 1) * K + enq stl.
Proof.
  intros Hsg Hd Hlt Hv. pose proof (iv_chain _ _ _ _ HI) as Hc. destruct (tail_seg _ _ Hc) as (Ht1 & stl & Hstl & _).
  pose proof (so_range _ _ _ (co_seg _ _ Hc _ _ Hsg)) as Hr1. pose proof (so_range _ _ _ (co_seg _ _ Hc _ _ Hstl)) as Hr2.
  destruct (co_count _ _ Hc) as (Hcnt & Hfl & Hhn). pose proof (chain_len _ _ Hc) as Hlen.
  destruct (iv_abs _ _ _ _ HI sg stl Hsg Hstl) as [Ha Hb]. rewrite Hd in Ha, Hb.
  rewrite (drop_lookup_cons _ _ _ Hv) in Ha. replace (S (Z.to_nat (hn g * K + d))) with (Z.to_nat (hn g * K + d + 1)) in Ha by nia.
  assert (length (chain g) = 1%nat → stl = sg) as Hone.
  { intros E. rewrite E in Ht1. destruct (head_seg _ _ Hc) as [H0 _]. simpl in Ht1. assert (tail_ s = head_ s) by congruence. congruence. }
  assert (d + 1 ≤ (Z.of_nat (length (chain g)) - 1) * K + enq stl) as Hle.
  { destruct (decide (length (chain g) = 1%nat)) as [E|]; [rewrite E, (Hone E); lia|nia]. }
  destruct (vis q) as [|x vq] eqn:Ev.
  - destruct (dfr q) as [|x dq] eqn:Ed; simpl in Ha.
    + exfalso. pose proof (iv_prod _ _ _ _ HI) as Hpr.
      assert (∃ w, pend g = Some w) as [w Hw] by (destruct (pend g); [eauto|done]). rewrite Hw in Ha. simpl in Ha. injection Ha as _ Ha.
      pose proof (prod_pend _ _ _ _ _ Hpr Hw Hstl) as Hef.
      assert (length (vals g) = Z.to_nat (hn g * K + d + 1)) as El.
      { apply (f_equal length) in Ha. rewrite length_drop in Ha. simpl in Ha. apply lookup_lt_Some in Hv. nia. }
      destruct (decide (length (chain g) = 1%nat)) as [E|]; [rewrite (Hone E) in *; rewrite E in Hcnt; nia|nia].
    + injection Ha as -> Ha. exists (MQueue [] dq). split_and!; [exists [v], dq; by rewrite Ev, Ed|done|]. intros stl' E. rewrite Hstl in E. injection E as <-. simpl. nia.
  - simpl in Ha. injection Ha as -> Ha. exists (MQueue vq (dfr q)). split_and!; [exists [], (dfr q); by rewrite Ev, app_nil_r|done|].
    intros stl' E. rewrite Hstl in E. injection E as <-. simpl in *. lia.
Qed.

Lemma take_claim r h d e sg v : pcs t = PopCas r h d e → heap s h = Some sg → deq sg = d → 0 ≤ d → cells sg !! Z.to_nat d = Some (Some v) →
  vals g !! Z.to_nat (num sg * K + d) = Some v →
  take_ok g (put_seg s h (set_deq (d + 1) sg)) (<[t:=PopTake r h d (num sg * K + d)]> pcs).
Proof.
  intros Hp Hsg Hd Hd0 Hcell Hval. pose proof (iv_take _ _ _ _ HI) as [T1 T2 T3].
  assert (∀ u r' h' d' i, pcs u = PopTake r' h' d' i → h' = h → d' < d) as Hlt.
  { intros u r' h' d' i Hu ->. destruct (T1 u r' h d' i Hu) as (sb & w & Hb & Hr & _). rewrite Hsg in Hb. injection Hb as <-. lia. }
  split; simpl.
  - intros u r' h' d' i. by_thread t u.
    + intros E. injection E as <- <- <- <-. rewrite fn_insert_eq. exists (set_deq (d + 1) sg), v. split_and!; try done; simpl; lia.
    + intros Hu. destruct (T1 u r' h' d' i Hu) as (sb & w & Hb & Hr & Hi & Hc1 & Hc2). destruct (decide (h' = h)) as [->|].
      * rewrite fn_insert_eq. rewrite Hsg in Hb. injection Hb as <-. exists (set_deq (d + 1) sg), w. split_and!; try done; simpl; lia.
      * rewrite fn_insert_ne by done. exists sb, w. done.
  - intros u w r1 r2 h' d' i i'. destruct (decide (u = t)) as [->|]; destruct (decide (w = t)) as [->|]; rewrite ?fn_insert_eq, ?fn_insert_ne by done; eauto.
    + intros E Hw. injection E as <- <- <- <-. pose proof (Hlt _ _ _ _ _ Hw eq_refl). lia.
    + intros Hu E. injection E as <- <- <- <-. pose proof (Hlt _ _ _ _ _ Hu eq_refl). lia.
  - intros a sb j Hb Hj.
    assert ((∃ sb0, heap s a = Some sb0 ∧ cells sb = cells sb0 ∧ 0 ≤ j < deq sb0) ∨ (a = h ∧ j = d)) as [(sb0 & Hb0 & Ec & Hj0)|[-> ->]].
    { destruct (decide (a = h)) as [->|]; [rewrite fn_insert_eq in Hb; injection Hb as <-; simpl in Hj|rewrite fn_insert_ne in Hb by done; left; by exists sb].
      destruct (decide (j = d)) as [->|]; [by right|left]. exists sg. split_and!; try done; lia. }
    + rewrite Ec. destruct (T3 a sb0 j Hb0 Hj0) as [?|(u & r' & i & Hu)]; [by left|right]. exists u, r', i.
      rewrite fn_insert_ne; [done|]. intros <-. by rewrite Hp in Hu.
    + right. exists t, r, (num sg * K + d). by rewrite fn_insert_eq.
Qed.

Lemma pop_cas r h d e sg st : pcs t = PopCas r h d e → heap s h = Some sg → deq sg = d → stat g (PopCas r h d e) st →
  good g pcs q t st (put_seg s h (set_deq (d ⊕₆₄ 1) sg)) (PopTake r h d (num sg * K + d)).
Proof.
  intros Hp Hsg0 Hd [me ->]. destruct (held_seg _ r h Hp eq_refl) as (sg1 & Hsg & Hn & Hs & Hso & _). rewrite Hsg0 in Hsg. injection Hsg as <-. simpl in Hs.
  destruct (so_range _ _ _ Hso) as (R1 & R2 & R3 & R4). pose proof (iv_chain _ _ _ _ HI) as Hc.
  assert (h = head_ s) as Hh by (eapply undrained_head; eauto; lia). rewrite u64_small by lia.
  destruct (so_live _ _ _ Hso d ltac:(lia)) as (v & Hcell & Hval).
  assert (num sg = hn g) as Hnum by (destruct (head_seg _ _ Hc) as (_ & sg2 & E & ?); congruence).
  assert (heap s (head_ s) = Some sg) as Hsgh by (by rewrite <-Hh). rewrite Hnum in Hval.
  destruct (next_elem sg d v Hsgh Hd ltac:(lia) Hval) as (q' & Hq & Habs & Hbd). rewrite <-Hnum in Hval.
  eapply put_step with (q' := q') (st' := IDone (RPop (Some v))); eauto; simpl; try done; try lia.
  - destruct Hso as [S1 S2 S3 S4 S5]. split; try done; simpl; [lia|]. intros j Hj. apply S4. lia.
  - by apply scan_ok_other.
  - eapply take_claim; eauto; lia.
  - intros sh stl. simpl. rewrite <-Hh, fn_insert_eq. intros E. injection E as <-. simpl. intros Hstl. rewrite Z.add_assoc. split; [done|].
    destruct (decide (tail_ s = h)) as [E|]; [|rewrite fn_insert_ne in Hstl by done; by apply Hbd].
    rewrite E, fn_insert_eq in Hstl. injection Hstl as <-. simpl. apply Hbd. congruence.
  - eapply thread_put; eauto. simpl. lia.
  - apply lmove_lin. exact Hq.
  - simpl. by rewrite Hval.
Qed.
Lemma take_done r h d i sg : pcs t = PopTake r h d i → heap s h = Some sg → length (cells sg) = Z.to_nat K → deq sg ≤ K →
  take_ok g (put_seg s h (set_cell d None sg)) (<[t:=PcDone (RPop (vals g !! Z.to_nat i))]> pcs).
Proof.
  intros Hp Hsg Hlen HdK. pose proof (iv_take _ _ _ _ HI) as [T1 T2 T3].
  destruct (T1 t r h d i Hp) as (sg1 & v & Hsg1 & Hd & _). rewrite Hsg in Hsg1. injection Hsg1 as <-.
  split; simpl.
  - intros u r' h' d' i'. destruct (decide (u = t)) as [->|]; rewrite ?fn_insert_eq, ?fn_insert_ne by done; [done|].
    intros Hu. destruct (T1 u r' h' d' i' Hu) as (sb & w & Hb & Hr & Hi & Hc1 & Hc2). destruct (decide (h' = h)) as [->|].
    + rewrite fn_insert_eq. rewrite Hsg in Hb. injection Hb as <-. exists (set_cell d None sg), w. split_and!; try done; simpl; try lia.
      rewrite list_lookup_insert_ne; [done|]. intros E. assert (d' = d) as -> by lia. by assert (u = t) by eauto.
    + rewrite fn_insert_ne by done. exists sb, w. done.
  - intros u w r1 r2 h' d' j j'. destruct (decide (u = t)) as [->|]; destruct (decide (w = t)) as [->|]; rewrite ?fn_insert_eq, ?fn_insert_ne by done; solve [done|by intros ??|eauto].
  - intros a sb j Hb Hj.
    assert (∃ sb0, heap s a = Some sb0 ∧ 0 ≤ j < deq sb0 ∧ (cells sb !! Z.to_nat j = cells sb0 !! Z.to_nat j ∨ cells sb !! Z.to_nat j = Some None) ∧
      (a = h → j = d → cells sb !! Z.to_nat j = Some None)) as (sb0 & Hb0 & Hj0 & Hc1 & Hc2).
    { destruct (decide (a = h)) as [->|]; [rewrite fn_insert_eq in Hb; injection Hb as <-|rewrite fn_insert_ne in Hb by done; exists sb; split; [done|]; split; [done|]; split; [by left|by intros Ea]].
      exists sg. simpl in *. split_and!; try done; [lia|lia| |].
      - destruct (decide (j = d)) as [->|]; [right; rewrite list_lookup_insert_eq; [done|lia]|left; rewrite list_lookup_insert_ne; [done|lia]].
      - intros _ ->. rewrite list_lookup_insert_eq; [done|lia]. }
    destruct (decide (a = h ∧ j = d)) as [[Ea Ej]|Hne]; [by left; apply Hc2|].
    destruct Hc1 as [->|Hc1]; [|by left]. destruct (T3 a sb0 j Hb0 Hj0) as [?|(u & r' & i' & Hu)]; [by left|right]. exists u, r', i'.
    rewrite fn_insert_ne; [done|]. intros <-. rewrite Hp in Hu. injection Hu as _ ? ? _. by destruct Hne.
Qed.

Lemma pop_take r h d i sg v st : pcs t = PopTake r h d i → heap s h = Some sg → stat g (PopTake r h d i) st → vals g !! Z.to_nat i = Some v →
  good g pcs q t st (put_seg s h (set_cell d None sg)) (PcDone (RPop (Some v))).
Proof.
  intros Hp Hsg0 Hst Hval. simpl in Hst. destruct (held_seg _ r h Hp eq_refl) as (sg1 & Hsg & Hn & Hs & Hso & _). rewrite Hsg0 in Hsg. injection Hsg as <-. simpl in Hs.
  destruct (so_range _ _ _ Hso) as (R1 & R2 & R3 & R4).
  eapply put_step with (q' := q) (st' := st); eauto; simpl; try done; try lia.
  - destruct Hso as [S1 S2 S3 S4 S5]. split; simpl; try done.
    + by rewrite length_insert.
    + intros j Hj. rewrite list_lookup_insert_ne by lia. auto.
    + intros j Hj. rewrite list_lookup_insert_ne by lia. auto.
  - by apply scan_ok_other.
  - rewrite <-Hval. eapply take_done; eauto; [apply (so_len _ _ _ Hso)|lia].
  - by eapply abs_put.
  - constructor.
  - congruence.
Qed.

(** The head moves to the next segment. *)
Definition behead g : ghost := Ghost (vals g) (hn g + 1) (tail (chain g)) (fresh g) (pend g).

Lemma chain_behead n sg : heap s (head_ s) = Some sg → K ≤ deq sg → next sg = Some n → chain_ok (behead g) (set_head s n).
Proof.
  intros Hsg Hd Hx. pose proof (iv_chain _ _ _ _ HI) as Hc. destruct (head_seg _ _ Hc) as (H0 & sg1 & E & Hnum). rewrite Hsg in E. injection E as <-.
  pose proof (so_range _ _ _ (co_seg _ _ Hc _ _ Hsg)) as Hr. destruct (co_chain _ _ Hc _ _ H0) as (sg1 & E & _ & Hx1 & He1 & _). rewrite Hsg in E. injection E as <-.
  rewrite Hx in Hx1. pose proof Hc as [C1 C2 C3 C4 C5 C6 C7]. symmetry in Hx1. pose proof (lookup_lt_Some _ _ _ Hx1) as Hlen.
  destruct (chain g) as [|h0 l] eqn:El; [done|]. injection H0 as ->. simpl in Hlen, Hx1.
  assert (Z.of_nat (length (head_ s :: l)) = Z.of_nat (length l) + 1) as Elen by (simpl; lia).
  split; simpl; rewrite ?El; simpl.
  - intros i a Hi. destruct (C1 (S i) a Hi) as (sa & Ha & N1 & N2 & N3 & N4). exists sa. split_and!; try done; [lia| |].
    + intros Hl. apply N3. simpl. lia.
    + intros Hl. apply N4. lia.
  - intros a Ha. destruct (C2 a Ha) as [N1 N2]. rewrite Elen in N1. split; [|intros Hin; apply N2; by right].
    rewrite N1. do 2 f_equal. lia.
  - intros a sa Ha. destruct (C3 a sa Ha) as [[->|Hin]%elem_of_cons|[?|(? & ? & ? & ?)]]; [|by left|by right; left|right; right; split_and!; try done; lia].
    rewrite Hsg in Ha. injection Ha as <-. right; right. rewrite Hx. split_and!; try done; lia.
  - intros a sa Ha. destruct (C4 a sa Ha) as [S1 S2 S3 S4 S5]. by split.
  - by rewrite head_lookup.
  - rewrite <-C6. by destruct l.
  - rewrite Elen in C7. nia.
Qed.

Lemma pop_swing r h n st : pcs t = PopSwing r h n → head_ s = h → stat g (PopSwing r h n) st → good g pcs q t st (set_head s n) (PopRetire r h).
Proof.
  intros Hp Hh Hst. destruct (held_seg _ r h Hp eq_refl) as (sg & Hsg & Hn & [Hs Hx] & Hso & Hnf). rewrite <-Hh in Hsg.
  pose proof (chain_behead n sg Hsg Hs Hx) as Hcb. pose proof HI as [I1 I2 I3 I4 I5 I6 I7].
  destruct (head_seg _ _ I1) as (H0 & sg1 & E & Hnum). rewrite Hsg in E. injection E as <-.
  exists (behead g), q, st. split; [constructor|]. split; [|done]. split; try done.
  - intros sh stl. simpl. intros Hsh Hstl. destruct (I2 sg stl Hsg Hstl) as [A1 A2].
    destruct (co_chain _ _ I1 _ _ H0) as (sg1 & E & _ & Hx1 & _). rewrite Hsg in E. injection E as <-. rewrite Hx in Hx1. symmetry in Hx1.
    destruct (co_chain _ _ I1 _ _ Hx1) as (sn & E & _ & _ & _ & Hd0). rewrite Hsh in E. injection E as <-. rewrite (Hd0 ltac:(lia)).
    pose proof (so_range _ _ _ (co_seg _ _ I1 _ _ Hsg)). assert (deq sg = K) as Ed by lia. rewrite Ed in A1, A2.
    assert (Z.of_nat (length (tail (chain g))) = Z.of_nat (length (chain g)) - 1) as -> by (pose proof (chain_len _ _ I1); destruct (chain g); simpl in *; lia).
    replace ((hn g + 1) * K + 0) with (hn g * K + K) by lia. split; [done|]. lia.
  - destruct (take_pcs g s pcs t (PopRetire r h) I3 ltac:(done) ltac:(by rewrite Hp)). done.
  - apply (recs_frame g s); simpl; try done; [lia|by eauto|by rewrite Hp| |by apply scan_ok_other].
    intros r' h' E. injection E as <- <-. split.
    + intros r' x Hx' Hin. destruct (ro_ret _ _ _ I4 r' x h Hx' Hin) as (sb & Hb & Hlt). rewrite <-Hh, Hsg in Hb. injection Hb as <-. lia.
    + intros u r' Hu E. pose proof (I5 u) as Ht. rewrite E in Ht. destruct (tk_hold _ _ _ _ Ht r' h eq_refl) as [_ (sb & Hb & _ & Hlt)].
      rewrite <-Hh, Hsg in Hb. injection Hb as <-. simpl in Hlt. lia.
  - pose proof (tk_hold _ _ _ _ (tk _ Hp) r h eq_refl) as [Hrx _]. pose proof (tk_rec _ _ _ _ (tk _ Hp) r eq_refl) as Hro. intros u. by_thread t u.
    + thread.
      split; [done|]. exists sg. simpl. split_and!; [done|lia|lia].
    + apply (thread_heap g s); try done; simpl; [lia|]. eauto using grow_refl.
  - apply prod_pop; try done; [by rewrite Hp|]. eauto.
Qed.

Definition is_pop (p : @pc T) : bool :=
  match p with PopOwn _ | PopHead _ | PopDeq _ _ | PopSeen _ _ _ | PopEnq _ _ _ | PopNext _ _ | PopSeenStore _ _ _ _ | PopCas _ _ _ _ | PopTake _ _ _ _ | PopSwing _ _ _ => true | _ => false end.

Lemma spmc_step_pop p st s' p' c : pcs t = p → is_pop p = true → stat g p st → pop_step K c s p = Some (s', p') → good g pcs q t st s' p'.
Proof.
  intros Hp Hk Hst Hstep. destruct p as [| | | | | | | |me| | | | | |r| | | |r h|r h d|r h d|r h d e|r h d e|r h d i|r h|r h n| | | | | | | |] eqn:Ep; try done.
  all: try (assert (s' = s) as -> by (simpl in Hstep; repeat case_match; congruence); by eapply step_pop_local).
  all: try (destruct (held_seg _ r h Hp eq_refl) as (sg & Hsg & _); assert (s' = s) as ->
    by (simpl in Hstep; unfold at_seg in Hstep; rewrite Hsg in Hstep; repeat case_match; congruence); by eapply step_pop_local).
  - destruct (held_seg _ r h Hp eq_refl) as (sg & Hsg & _). simpl in Hstep. unfold at_seg in Hstep. rewrite Hsg in Hstep. injection Hstep as <- <-.
    by eapply pop_seen_store.
  - destruct (held_seg _ r h Hp eq_refl) as (sg & Hsg & Hn & Hs & Hso & _). simpl in Hstep, Hs. unfold at_seg in Hstep. rewrite Hsg in Hstep.
    destruct (negb (spurious c) && (deq sg =? d)) eqn:E.
    + apply andb_prop in E as [_ E%Z.eqb_eq]. injection Hstep as <- <-. by eapply pop_cas.
    + injection Hstep as <- <-. pose proof (so_range _ _ _ Hso).
      destruct (Z.leb_spec e (deq sg)); quiet Hp; (eapply thread_hold; try done); intros sg' Hsg' _ _; rewrite Hsg in Hsg'; injection Hsg' as <-; simpl; lia.
  - destruct (to_cell _ _ _ (iv_take _ _ _ _ HI) t r h d i Hp) as (sg & v & Hsg & _ & _ & Hcell & Hval). simpl in Hstep. unfold at_seg in Hstep.
    rewrite Hsg, Hcell in Hstep. injection Hstep as <- <-. by eapply pop_take.
  - simpl in Hstep. case_decide as E; injection Hstep as <- <-; [by apply pop_swing|].
    quiet Hp. pose proof (tk_rec _ _ _ _ (tk _ Hp) r eq_refl). thread.
Qed.
(** *** [push], [push_deferred], [publish] *)

(** A step of the producer: what it changes in memory, and that this leaves
    the consumers and the records alone. *)
Record prod_heap g' s' : Prop := {
  ph_hn : hn g' = hn g;
  ph_own : own s' = own s;
  ph_recs : recs s' = recs s;
  ph_old b sb : heap s b = Some sb → ∃ sb', heap s' b = Some sb' ∧ grow sb sb' ∧ deq sb' = deq sb ∧
    ∀ j, 0 ≤ j < deq sb → cells sb' !! Z.to_nat j = cells sb !! Z.to_nat j;
  ph_new b sb' : heap s' b = Some sb' → heap s b = None → deq sb' = 0;
  ph_vals i v : vals g !! i = Some v → vals g' !! i = Some v
}.

Lemma prod_good g' s' p' q' st st' : t = P → is_push (pcs t) = true → prod_heap g' s' → bad s' = false → chain_ok g' s' → abs_ok g' s' q' →
  prod_ok g' s' p' → (is_push p' = true ∨ ∃ r, p' = PcDone r) → lmove spmc_spec q st q' st' → stat g' p' st' → good g pcs q t st s' p'.
Proof.
  intros -> Hp [F1 F2 F3 F4 F5 F6] Hbad Hc Ha Hpr Hp' Hm Hst. pose proof HI as [I1 I2 I3 I4 I5 I6 I7]. exists g', q', st'. split; [done|].
  assert (is_take p' = false ∧ hold p' = None ∧ (∀ r h, p' ≠ PopRetire r h) ∧ scan_ok s (<[P:=p']> pcs) p' ∧ (∀ r, ¬ in_prot (pcs P) r)) as (P1 & P2 & P3 & P4 & P5).
  { assert (∀ r, ¬ in_prot (pcs P) r) by (intros r Hin; destruct (pcs P); simpl in *; done).
    destruct Hp' as [Hk|[r0 ->]]; [destruct p'; try done|]; split_and!; try done; by apply scan_ok_other. }
  assert (take_ok g' s' pcs) as Htk.
  { apply (take_heap g s); try done.
    - intros b sb' Hb. destruct (heap s b) as [sb|] eqn:Eb; [|left; eauto]. right. exists sb. destruct (F4 b sb Eb) as (sb2 & E & (G & _) & D & C).
      rewrite Hb in E. injection E as <-. done.
    - intros u r h d i sb Hu Hb. destruct (F4 h sb Hb) as (sb' & -> & _). split; [done|].
      destruct (to_cell _ _ _ I3 u r h d i Hu) as (sb2 & v & E & Hd & _). rewrite Hb in E. injection E as <-. lia.
    - intros b sb' Hb Hd sb Hb0. destruct (F4 b sb Hb0) as (sb2 & E & _ & D & _). congruence. }
  split; [|split; [done|]].
  - split; try done.
    + apply take_pcs; try done; [by apply not_take|]. intros r h d i E. by rewrite E in Hp.
    + apply (recs_frame g s); try done; [lia| |by intros r ?%P5|by intros r h ?%P3].
      intros n sb Hb _. destruct (F4 n sb Hb) as (sb' & ? & [? _] & _). eauto.
    + intros u. by_thread P u; [|apply (thread_heap g s); try done; [lia|]; intros h sb Hb _; destruct (F4 h sb Hb) as (sb' & ? & ? & _); eauto].
      destruct Hp' as [Hk|[r0 ->]]; [destruct p'; try done|]; split; try done.
    + by rewrite fn_insert_eq.
  - intros u st0 Hu. pose proof (tk_push _ _ _ _ (I5 u)) as Hup. destruct (pcs u) eqn:Eu; simpl; try done; [by destruct Hu; apply Hup|].
    destruct (to_cell _ _ _ I3 u _ _ _ _ Eu) as (sb & v & _ & _ & _ & _ & Hv). by rewrite Hv, (F6 _ _ Hv).
Qed.

Lemma prod_put g' s' sg sg' : heap s (tail_ s) = Some sg → hn g' = hn g → own s' = own s → recs s' = recs s → heap s' = <[tail_ s:=Some sg']> (heap s) →
  grow sg sg' → deq sg' = deq sg → (∀ j, 0 ≤ j < deq sg → cells sg' !! Z.to_nat j = cells sg !! Z.to_nat j) →
  (∀ i v, vals g !! i = Some v → vals g' !! i = Some v) → prod_heap g' s'.
Proof.
  intros Hsg E1 E2 E3 E4 Hg Hd Hcells Hv. split; try done; rewrite E4; intros b sb; destruct (decide (b = tail_ s)) as [->|];
    rewrite ?fn_insert_eq, ?fn_insert_ne by done; try congruence.
  - rewrite Hsg. intros E. injection E as <-. by exists sg'.
  - intros Hb. exists sb. split_and!; try done.
Qed.

Lemma fillof_chain a : fresh g = Some a → a ≠ tail_ s ∧ a ≠ head_ s.
Proof.
  intros Hf. pose proof (iv_chain _ _ _ _ HI) as Hc. destruct (co_fresh _ _ Hc a Hf) as [_ Hn].
  destruct (tail_seg _ _ Hc) as [Ht _], (head_seg _ _ Hc) as [Hh _].
  split; intros ->; apply Hn; by eapply list_elem_of_lookup_2.
Qed.

(** A full tail: a segment is allocated. *)
Lemma spmc_push_alloc v pub a sg st : t = P → pcs t = PushStart v pub → heap s a = None → heap s (tail_ s) = Some sg → filled_ s = K →
  stat g (PushStart v pub) st → good g pcs q t st (put_seg s a (new_segment K (num sg + 1))) (PushSeal v pub a).
Proof.
  intros HP Hp Ha Hsg Hf Hst. pose proof HI as [I1 I2 I3 I4 I5 I6 I7]. rewrite <-HP, Hp in I6. destruct I6 as [Ef Ep].
  destruct (tail_seg _ _ I1) as (Ht & sg1 & E & Hn & Hx). rewrite Hsg in E. injection E as <-. destruct (head_seg _ _ I1) as (Hh & sh & Hsh & _).
  assert (∀ b sb, heap s b = Some sb → b ≠ a) as Hne by congruence. set (g' := Ghost (vals g) (hn g) (chain g) (Some a) (pend g)).
  assert (∀ b sb, <[a:=Some (new_segment K (num sg + 1))]> (heap s) b = Some sb → heap s b = Some sb ∨ (b = a ∧ sb = new_segment K (num sg + 1))) as Hcase.
  { intros b sb. destruct (decide (b = a)) as [->|]; rewrite ?fn_insert_eq, ?fn_insert_ne by done; [|by left]. intros E. injection E as <-. by right. }
  assert (a ≠ tail_ s) as Hat by congruence.
  eapply (prod_good g' _ _ q st st); rewrite ?Hp; try done; simpl; try by left.
  - split; try done; simpl.
    + intros b sb Hb. rewrite fn_insert_ne by (symmetry; eauto). exists sb. done.
    + intros b sb [Hb|[-> ->]]%Hcase; [congruence|done].
  - pose proof I1 as [C1 C2 C3 C4 C5 C6 C7]. split; simpl; try done.
    + intros i b Hi. destruct (C1 i b Hi) as (sb & Hb & H). exists sb. by rewrite fn_insert_ne by (symmetry; eauto).
    + intros b E. injection E as <-. rewrite fn_insert_eq, Hn. split; [do 2 f_equal; lia|].
      intros [i Hi]%list_elem_of_lookup. destruct (C1 i a Hi) as (sb & Hb & _). congruence.
    + intros b sb [Hb|[-> ->]]%Hcase; [|by right; left]. destruct (C3 b sb Hb) as [?|[?|?]]; auto. congruence.
    + intros b sb [Hb|[-> ->]]%Hcase.
      * destruct (C4 b sb Hb) as [S1 S2 S3 S4 S5]. assert (fillof g' (put_seg s a (new_segment K (num sg + 1))) b = fillof g s b) as E.
        { unfold fillof. simpl. rewrite Ef. repeat case_decide; congruence. }
        split; rewrite ?E; done.
      * assert (fillof g' (put_seg s a (new_segment K (num sg + 1))) a = 0) as E by (unfold fillof; simpl; by rewrite decide_False, decide_True).
        pose proof (so_num _ _ _ (C4 _ _ Hsg)). split; rewrite ?E; simpl; solve [lia|apply length_replicate|intros j Hj; apply lookup_replicate_2; lia].
  - intros sh' stl. simpl. rewrite !fn_insert_ne by congruence. apply I2.
  - constructor.
Qed.

(** The full segment is published whole. *)
Lemma push_seal v pub a sg st : t = P → pcs t = PushSeal v pub a → heap s (tail_ s) = Some sg →
  stat g (PushSeal v pub a) st → good g pcs q t st (put_seg s (tail_ s) (set_enq K sg)) (PushLink v pub a).
Proof.
  intros HP Hp Hsg Hst. pose proof HI as [I1 I2 I3 I4 I5 I6 I7]. rewrite <-HP, Hp in I6. destruct I6 as (Ef & Ep & Hf).
  destruct (fillof_chain a Ef) as [Hat _]. pose proof (co_seg _ _ I1 _ _ Hsg) as Hso. pose proof (so_range _ _ _ Hso) as Hr.
  eapply (prod_good g _ _ q st st); rewrite ?Hp; try done; simpl; try by left.
  - eapply prod_put; try done. unfold grow. simpl. split_and!; try done; lia.
  - eapply chain_put; eauto; simpl; try done; [congruence|]. destruct Hso as [S1 S2 S3 S4 S5]. split; simpl; try done.
    unfold fillof. rewrite decide_True by done. lia.
  - intros sh stl. simpl. rewrite fn_insert_eq. intros Hsh E. injection E as <-. simpl.
    assert (∃ sh0, heap s (head_ s) = Some sh0 ∧ deq sh = deq sh0) as (sh0 & Hsh0 & ->).
    { destruct (decide (head_ s = tail_ s)) as [E|]; [rewrite E, fn_insert_eq in Hsh; injection Hsh as <-; rewrite E; eauto|rewrite fn_insert_ne in Hsh by done; eauto]. }
    destruct (I2 sh0 sg Hsh0 Hsg). split; [done|lia].
  - split_and!; try done. intros sb. rewrite fn_insert_eq. intros E. by injection E as <-.
  - constructor.
Qed.
(** The allocated segment is linked and becomes the tail. *)
Lemma chain_link a sg : fresh g = Some a → heap s (tail_ s) = Some sg → filled_ s = K → enq sg = K →
  chain_ok (Ghost (vals g) (hn g) (chain g ++ [a]) None (pend g)) (set_tail (put_seg s (tail_ s) (set_next a sg)) a 0).
Proof.
  intros Ef Hsg Hf He. pose proof (iv_chain _ _ _ _ HI) as I1. destruct (fillof_chain a Ef) as [Hat _]. pose proof (chain_len _ _ I1) as Hlen.
  destruct (tail_seg _ _ I1) as (Ht & sg1 & E & Hn & Hx). rewrite Hsg in E. injection E as <-. pose proof I1 as [C1 C2 C3 C4 C5 C6 C7].
  destruct (C2 a Ef) as [Ha Hain].
  assert (∀ b sb, <[tail_ s:=Some (set_next a sg)]> (heap s) b = Some sb →
    ∃ sb0, heap s b = Some sb0 ∧ (b = tail_ s ∧ sb0 = sg ∧ sb = set_next a sg ∨ b ≠ tail_ s ∧ sb0 = sb)) as Hcase.
  { intros b sb. destruct (decide (b = tail_ s)) as [->|]; rewrite ?fn_insert_eq, ?fn_insert_ne by done; intros E; [injection E as <-; exists sg|exists sb]; auto. }
  split; simpl; rewrite ?length_app; simpl; try done.
  - intros i b [[Hl Hb]|[-> <-]]%lookup_snoc_Some.
    + destruct (C1 i b Hb) as (sb & Hsb & N1 & N2 & N3 & N4). destruct (decide (i = length (chain g) - 1)%nat) as [->|].
      * assert (b = tail_ s) as -> by congruence. rewrite fn_insert_eq. exists (set_next a sg). rewrite Hsg in Hsb. injection Hsb as <-. simpl.
        split_and!; try done. rewrite lookup_app_r by lia. by replace (S (length (chain g) - 1) - length (chain g))%nat with 0%nat by lia.
      * assert (b ≠ tail_ s) as Hbt by (intros ->; pose proof (chain_inj _ _ I1 _ _ _ Hb Ht); lia).
        rewrite fn_insert_ne by done. exists sb. split_and!; try done; [rewrite lookup_app_l by lia; done|]. intros _. apply N3. lia.
    + rewrite fn_insert_ne, Ha by done. eexists. split_and!; try done; simpl; [|lia]. symmetry. apply lookup_ge_None_2. rewrite length_app. simpl. lia.
  - intros b sb (sb0 & Hb0 & Hc)%Hcase. destruct (C3 b sb0 Hb0) as [?|[E|(? & ? & ? & ?)]]; [left; apply elem_of_app; by left| |].
    + assert (a = b) as <- by congruence. left. apply elem_of_app. right. by left.
    + destruct Hc as [(-> & -> & ->)|[_ ->]]; [|by right; right]. lia.
  - intros b sb (sb0 & Hb0 & Hc)%Hcase. destruct (C4 b sb0 Hb0) as [S1 S2 S3 S4 S5].
    assert (fillof (Ghost (vals g) (hn g) (chain g ++ [a]) None (pend g)) (set_tail (put_seg s (tail_ s) (set_next a sg)) a 0) b = fillof g s b) as E.
    { unfold fillof. simpl. rewrite Ef. repeat case_decide; congruence. }
    destruct Hc as [(-> & -> & ->)|[_ ->]]; split; rewrite ?E; done.
  - rewrite <-C5. destruct (chain g); done.
  - by rewrite last_snoc.
  - rewrite Hf in C7. nia.
Qed.

Lemma spmc_push_link v pub a sg st : t = P → pcs t = PushLink v pub a → heap s (tail_ s) = Some sg →
  stat g (PushLink v pub a) st → good g pcs q t st (set_tail (put_seg s (tail_ s) (set_next a sg)) a 0) (PushWrite v pub).
Proof.
  intros HP Hp Hsg Hst. pose proof HI as [I1 I2 I3 I4 I5 I6 I7]. rewrite <-HP, Hp in I6. destruct I6 as (Ef & Ep & Hf & He).
  specialize (He sg Hsg). destruct (fillof_chain a Ef) as [Hat Hah]. destruct (co_fresh _ _ I1 a Ef) as [Ha _].
  destruct (tail_seg _ _ I1) as (_ & sg1 & E & _ & Hx). rewrite Hsg in E. injection E as <-.
  eapply (prod_good (Ghost (vals g) (hn g) (chain g ++ [a]) None (pend g)) _ _ q st st); rewrite ?Hp; try done; simpl; try by left.
  - eapply (prod_put _ _ sg); try done. unfold grow. simpl. split_and!; try done. congruence.
  - by apply chain_link.
  - intros sh stl. simpl. rewrite (fn_insert_ne _ _ a), Ha by done. intros Hsh E. injection E as <-. simpl.
    assert (∃ sh0, heap s (head_ s) = Some sh0 ∧ deq sh = deq sh0) as (sh0 & Hsh0 & ->).
    { destruct (decide (head_ s = tail_ s)) as [E|]; [rewrite E, fn_insert_eq in Hsh; injection Hsh as <-; rewrite E; eauto|rewrite fn_insert_ne in Hsh by done; eauto]. }
    destruct (I2 sh0 sg Hsh0 Hsg) as [A1 A2]. split; [done|]. rewrite length_app. simpl. lia.
  - split_and!; try done; lia.
  - constructor.
Qed.

(** The consumed elements are among those written. *)
Lemma deq_bound sh : heap s (head_ s) = Some sh → hn g * K + deq sh ≤ Z.of_nat (length (vals g)).
Proof.
  intros Hsh. pose proof (iv_chain _ _ _ _ HI) as I1. pose proof (so_range _ _ _ (co_seg _ _ I1 _ _ Hsh)) as Hr.
  destruct (co_count _ _ I1) as (E & Hf & _). pose proof (chain_len _ _ I1). rewrite E. destruct (decide (length (chain g) = 1%nat)) as [E1|]; [|nia].
  rewrite E1. destruct (tail_seg _ _ I1) as [Ht _], (head_seg _ _ I1) as [Hh _]. rewrite E1 in Ht. simpl in Ht.
  assert (head_ s = tail_ s) as Eh by congruence. unfold fillof in Hr. rewrite decide_True in Hr by done. lia.
Qed.

Lemma chain_write v pe sg : fresh g = None → heap s (tail_ s) = Some sg → filled_ s < K →
  chain_ok (Ghost (vals g ++ [v]) (hn g) (chain g) None pe) (set_tail (put_seg s (tail_ s) (set_cell (filled_ s) (Some v) sg)) (tail_ s) (filled_ s + 1)).
Proof.
  intros Ef Hsg Hf. pose proof (iv_chain _ _ _ _ HI) as I1. destruct (tail_seg _ _ I1) as (Ht & sg1 & E & Hn & Hx). rewrite Hsg in E. injection E as <-.
  pose proof I1 as [C1 C2 C3 C4 C5 C6 C7].
  assert (∀ b sb, <[tail_ s:=Some (set_cell (filled_ s) (Some v) sg)]> (heap s) b = Some sb →
    ∃ sb0, heap s b = Some sb0 ∧ (b = tail_ s ∧ sb0 = sg ∧ sb = set_cell (filled_ s) (Some v) sg ∨ b ≠ tail_ s ∧ sb0 = sb)) as Hcase.
  { intros b sb. destruct (decide (b = tail_ s)) as [->|]; rewrite ?fn_insert_eq, ?fn_insert_ne by done; intros E; [injection E as <-; exists sg|exists sb]; auto. }
  split; simpl; try done.
  - intros i b Hb. destruct (C1 i b Hb) as (sb & Hsb & N). destruct (decide (b = tail_ s)) as [->|]; rewrite ?fn_insert_eq, ?fn_insert_ne by done; [|eauto].
    rewrite Hsg in Hsb. injection Hsb as <-. eexists. split; [done|]. done.
  - intros b sb (sb0 & Hb0 & Hc)%Hcase. destruct (C3 b sb0 Hb0) as [?|[E|?]]; [by left|congruence|].
    destruct Hc as [(-> & -> & ->)|[_ ->]]; by right; right.
  - intros b sb (sb0 & Hb0 & Hc)%Hcase. destruct (C4 b sb0 Hb0) as [S1 S2 S3 S4 S5]. unfold fillof in *. simpl. rewrite Ef in S2, S4, S5.
    destruct Hc as [(-> & -> & ->)|[Hbt ->]].
    + rewrite decide_True in S2, S4, S5 by done. rewrite decide_True by done. split; simpl; try done.
      * by rewrite length_insert.
      * lia.
      * intros j Hj. destruct (decide (j = filled_ s)) as [->|].
        -- exists v. rewrite list_lookup_insert_eq by lia. split; [done|]. apply lookup_snoc_Some. right. split; [nia|done].
        -- rewrite list_lookup_insert_ne by lia. destruct (S4 j ltac:(lia)) as (w & ? & ?). exists w. split; [done|by apply lookup_app_l_Some].
      * intros j Hj. rewrite list_lookup_insert_ne by lia. apply S5. lia.
    + rewrite (decide_False (P := b = tail_ s)) in * by done. split; simpl; try done. intros j Hj. destruct (S4 j Hj) as (w & ? & ?). exists w. split; [done|by apply lookup_app_l_Some].
  - rewrite length_app. simpl. lia.
Qed.

Lemma spmc_push_write v (pub : bool) sg st : t = P → pcs t = PushWrite v pub → heap s (tail_ s) = Some sg → stat g (PushWrite v pub) st →
  good g pcs q t st (set_tail (put_seg s (tail_ s) (set_cell (filled_ s) (Some v) sg)) (tail_ s) (filled_ s ⊕₆₄ 1)) (if pub then PubStore else PcDone RUnit).
Proof.
  intros HP Hp Hsg Hst. pose proof HI as [I1 I2 I3 I4 I5 I6 I7]. rewrite <-HP, Hp in I6. destruct I6 as (Ef & Ep & Hf). simpl in Hst.
  destruct (co_count _ _ I1) as (_ & Hfl & Hhn). rewrite u64_small by lia. pose proof (co_seg _ _ I1 _ _ Hsg) as Hso. pose proof (so_range _ _ _ Hso) as Hr.
  unfold fillof in Hr. rewrite decide_True in Hr by done.
  assert (∀ pe q', vis q' = vis q → dfr q' ++ option_list pe = dfr q ++ [v] →
    abs_ok (Ghost (vals g ++ [v]) (hn g) (chain g) None pe) (set_tail (put_seg s (tail_ s) (set_cell (filled_ s) (Some v) sg)) (tail_ s) (filled_ s + 1)) q') as Habs.
  { intros pe q' E1 E2 sh stl. simpl. rewrite fn_insert_eq. intros Hsh E. injection E as <-. simpl.
    assert (∃ sh0, heap s (head_ s) = Some sh0 ∧ deq sh = deq sh0) as (sh0 & Hsh0 & ->).
    { destruct (decide (head_ s = tail_ s)) as [E|]; [rewrite E, fn_insert_eq in Hsh; injection Hsh as <-; rewrite E; eauto|rewrite fn_insert_ne in Hsh by done; eauto]. }
    destruct (I2 sh0 sg Hsh0 Hsg) as [A1 A2]. rewrite E1, E2. rewrite Ep in A1. simpl in A1. rewrite app_nil_r in A1. split; [|done].
    pose proof (deq_bound _ Hsh0). pose proof (so_range _ _ _ (co_seg _ _ I1 _ _ Hsh0)). rewrite app_assoc, A1, drop_app_snoc by nia. done. }
  assert (∀ pe, prod_heap (Ghost (vals g ++ [v]) (hn g) (chain g) None pe) (set_tail (put_seg s (tail_ s) (set_cell (filled_ s) (Some v) sg)) (tail_ s) (filled_ s + 1))) as Hph.
  { intros pe. eapply (prod_put _ _ sg); try done; simpl; [|intros; by apply lookup_app_l_Some]. intros j Hj. rewrite list_lookup_insert_ne by lia. done. }
  assert (0 ≤ enq sg ≤ filled_ s) as Hen by lia.
  destruct pub; subst st.
  - eapply (prod_good _ _ _ q); rewrite ?Hp; [done|done|apply (Hph (Some v))|done|by apply chain_write|by apply Habs| |by left|constructor|done].
    split; [done|]. intros _ sb. simpl. rewrite fn_insert_eq. intros E. injection E as <-. simpl. lia.
  - eapply (prod_good _ _ _ (MQueue (vis q) (dfr q ++ [v]))); rewrite ?Hp; [done|done|apply (Hph None)|done|by apply chain_write| |done|by right; eauto|by apply lmove_lin|done].
    apply Habs; [done|]. simpl. by rewrite app_nil_r.
Qed.

Lemma spmc_push_pub sg st : t = P → pcs t = PubStore → heap s (tail_ s) = Some sg → stat g PubStore st →
  good g pcs q t st (put_seg s (tail_ s) (set_enq (filled_ s) sg)) (PcDone RUnit).
Proof.
  intros HP Hp Hsg Hst. pose proof HI as [I1 I2 I3 I4 I5 I6 I7]. rewrite <-HP, Hp in I6. destruct I6 as (Ef & _). simpl in Hst.
  destruct (co_count _ _ I1) as (Hcnt & Hfl & Hhn). pose proof (co_seg _ _ I1 _ _ Hsg) as Hso. pose proof (so_range _ _ _ Hso) as Hr.
  unfold fillof in Hr. rewrite decide_True in Hr by done. assert (0 ≤ enq sg ≤ filled_ s) as Hen by lia.
  eapply (prod_good (Ghost (vals g) (hn g) (chain g) None None) _ _ (MQueue (vis q ++ dfr q ++ option_list (pend g)) [])); rewrite ?Hp; try done; simpl.
  - eapply (prod_put _ _ sg); try done. unfold grow. simpl. split_and!; try done; lia.
  - assert (chain_ok g (put_seg s (tail_ s) (set_enq (filled_ s) sg))) as [C1 C2 C3 C4 C5 C6 C7].
    { eapply chain_put; eauto; simpl; try done; [congruence|lia|]. destruct Hso as [S1 S2 S3 S4 S5]. split; simpl; try done.
      unfold fillof in *. rewrite decide_True in * by done. lia. }
    split; try done; simpl; rewrite ?Ef in *; try done. intros b sb Hb. destruct (C4 b sb Hb) as [S1 S2 S3 S4 S5]. unfold fillof in *. rewrite Ef in *. by split.
  - intros sh stl. simpl. rewrite fn_insert_eq. intros Hsh E. injection E as <-. simpl.
    assert (∃ sh0, heap s (head_ s) = Some sh0 ∧ deq sh = deq sh0) as (sh0 & Hsh0 & ->).
    { destruct (decide (head_ s = tail_ s)) as [E|]; [rewrite E, fn_insert_eq in Hsh; injection Hsh as <-; rewrite E; eauto|rewrite fn_insert_ne in Hsh by done; eauto]. }
    destruct (I2 sh0 sg Hsh0 Hsg) as [A1 A2]. rewrite app_nil_r. split; [done|]. pose proof (deq_bound _ Hsh0).
    pose proof (so_range _ _ _ (co_seg _ _ I1 _ _ Hsh0)). rewrite A1, length_drop. nia.
  - right. eauto.
  - rewrite Hst. apply lmove_lin. destruct (pend g); simpl; [done|by rewrite app_nil_r].
Qed.

Lemma spmc_step_push p st s' p' c : pcs t = p → is_push p = true → stat g p st → push_step K c s p = Some (s', p') → good g pcs q t st s' p'.
Proof.
  intros Hp Hk Hst Hstep. assert (t = P) as HP by (apply (tk_push _ _ _ _ (tk _ Hp)); done). pose proof HI as [I1 I2 I3 I4 I5 I6 I7].
  destruct (tail_seg _ _ I1) as (Ht & sg & Hsg & _). rewrite <-HP, Hp in I6.
  destruct p; try done; simpl in Hstep; unfold at_seg in Hstep; rewrite ?Hsg in Hstep.
  - destruct (Z.eqb_spec (filled_ s) K).
    + destruct (heap s (addr c)) eqn:Ea; [done|]. injection Hstep as <- <-. by eapply spmc_push_alloc.
    + injection Hstep as <- <-. destruct I6 as [Ef Ep]. destruct (co_count _ _ I1) as (_ & Hfl & _).
      eapply (prod_good g _ _ q st st); rewrite ?Hp; try done; [|split_and!; try done; lia|by left|constructor]. split; try done; [eauto using grow_refl|congruence].
  - injection Hstep as <- <-. by apply push_seal.
  - injection Hstep as <- <-. by eapply spmc_push_link.
  - destruct (co_seg _ _ I1 _ _ Hsg) as [S1 S2 S3 S4 S5]. unfold fillof in S2, S5. rewrite decide_True in S2, S5 by done. destruct I6 as (_ & _ & Hf).
    rewrite S5 in Hstep by lia. injection Hstep as <- <-. by eapply spmc_push_write.
  - injection Hstep as <- <-. by eapply spmc_push_pub.
Qed.

Lemma spmc_step_good c st s' p' : stat g (pcs t) st → step K c s (pcs t) = Some (s', p') → good g pcs q t st s' p'.
Proof.
  intros Hst Hstep. remember (pcs t) as p eqn:Hp. symmetry in Hp. destruct p; try done; simpl in Hstep.
  all: first [by eapply (spmc_step_push _ _ _ _ c)|by eapply (step_acquire c)|by eapply step_scan|by eapply step_retire|by eapply step_exit|by eapply (spmc_step_pop _ _ _ _ c)
    |eapply step_protect; [exact Hp|by exists r|exact Hst|exact Hstep]].
Qed.
End one_step.

(** ** The machine *)

Definition ghost0 : ghost := Ghost [] 0 [0%nat] None None.

Lemma spmc_inv_init : Inv ghost0 (spmc_queue K) (λ _, PcIdle) (MQueue [] []).
Proof.
  assert (∀ a sg, heap (@spmc_queue T K) a = Some sg → a = 0%nat ∧ sg = new_segment K 0) as Hh.
  { intros a sg. simpl. case_decide; [|done]. intros E. by injection E as <-. }
  split; try done.
  - split; try done.
    + intros [|i] b Hb; [|by destruct i]. injection Hb as <-. eexists. split; [done|]. split_and!; simpl; try done; lia.
    + intros a sg [-> ->]%Hh. left. by left.
    + intros a sg [-> ->]%Hh. split; simpl; unfold fillof; simpl; try lia; [apply length_replicate|]. intros j Hj. apply lookup_replicate_2. lia.
    + simpl. lia.
  - intros sh stl [_ ->]%Hh [_ ->]%Hh. simpl. split; [done|lia].
  - split; try done. intros a sg j [-> ->]%Hh. simpl. lia.
Qed.

(** A thread that does nothing but start or finish an operation. *)
Lemma inv_enter g s pcs q t p' : Inv g s pcs q → (pcs t = PcIdle ∨ ∃ r, pcs t = PcDone r) → scan_ok s (<[t:=p']> pcs) p' → is_take p' = false → is_retire p' = false →
  thread_ok g s t p' → (t = P → prod_ok g s p') → Inv g s (<[t:=p']> pcs) q.
Proof.
  intros [I1 I2 I3 I4 I5 I6 I7] Hp Hsc Htk Hrt Hth Hpr. split; try done.
  - apply take_pcs; [done|by apply not_take|]. destruct Hp as [->|[? ->]]; done.
  - apply (recs_frame g s); [done|done|done|lia|eauto| |by intros r h ->|done]. intros r. by destruct Hp as [->|[? ->]].
  - intros u. by_thread t u; done.
  - by_thread t P; auto.
Qed.

Lemma spmc_lin_proof : lin_proof M spmc_spec (λ _, True) Inv stat.
Proof.
  split.
  - exists ghost0. split; [apply spmc_inv_init|done].
  - intros g s pcs q t o HI Hid Hm. simpl in *. destruct (pcs t) eqn:Hp; try done. split; [by intros st ->|].
    pose proof (iv_prod _ _ _ _ HI) as Hpr.
    assert (t = P → fresh g = None ∧ pend g = None) as Hfp by (intros <-; by rewrite Hp in Hpr).
    split.
    + apply inv_enter; try done; [by left|by destruct o; apply scan_ok_other|by destruct o|by destruct o| |intros HP; destruct (Hfp HP) as [? Hpe]; destruct o; try done; split; [done|]; rewrite Hpe; by intros []].
      destruct o; simpl in *; apply Nat.eqb_eq in Hm; split; simpl; intros; congruence.
    + destruct o; simpl in *; eauto. apply Nat.eqb_eq in Hm. by destruct (Hfp Hm) as [_ ->].
  - intros g s pcs q t r HI Hr. simpl in *. destruct (pcs t) eqn:Hp; simplify_eq/=. split; [by intros st ->|]. split; [|done].
    apply inv_enter; try done; [by right; eauto|by apply scan_ok_other|]. intros E. pose proof (iv_prod _ _ _ _ HI) as Hpr. by rewrite <-E, Hp in Hpr.
  - intros g s pcs q t c s' p' st _ HI Hst Hstep. exact (spmc_step_good g s pcs q t HI c st s' p' Hst Hstep).
Qed.
End proof.
End SpmcLin.
