(* ===== verification/SpmcSpec.v ===== *)
(** * What the single-producer multi-consumer queue promises

    The properties of src/runtime/spmc_queue.hpp and src/runtime/hazard.hpp,
    and a run they apply to. *)

From S2P Require Import Prelude Lts Contract Machine Spmc SpmcLin.

Module SpmcSpec.
Import Spmc SpmcLin.
Local Open Scope Z_scope.
Local Open Scope wtc_scope.

Section client.
Context {T : Type} (K : Z) (P : nat) (HK : 2 ≤ K < 2 ^ 63).
Local Abbreviation M := (@spmc_machine T K P).
Local Abbreviation runs := (restrict (mlts M) (λ _, True)).

(** Steps left of a push. *)
Definition push_rank (p : @pc T) : nat :=
  match p with
  | PushStart _ true => 5 | PushStart _ false => 4
  | PushSeal _ true _ => 4 | PushSeal _ false _ => 3
  | PushLink _ true _ => 3 | PushLink _ false _ => 2
  | PushWrite _ true => 2 | PushWrite _ false => 1
  | PubStore => 1
  | _ => 0
  end.

Section state.
Context (g : @ghost T) (s : @queue T) (pcs : nat → @pc T) (q : @mqueue T).
Context (HI : Inv K P g s pcs q).
Local Abbreviation Hc := (iv_chain _ _ _ _ _ _ HI).

(** ** The destructor *)

Lemma live_cells sg f from to : seg_ok K g f sg → deq sg ≤ from ≤ to → to ≤ f → 
  destroy_cells sg from to = Some <$> take (Z.to_nat (to - from)) (drop (Z.to_nat (num sg * K + from)) (vals g)).
Proof.
  intros [S1 S2 S3 S4 S5] Hd Hf. apply list_eq. intros i. unfold destroy_cells. rewrite !list_lookup_fmap.
  destruct (decide (i < Z.to_nat (to - from))%nat) as [Hi|Hi].
  - rewrite lookup_seq_lt by done. simpl. rewrite lookup_take_lt by done. rewrite lookup_drop.
    destruct (S4 (from + Z.of_nat i) ltac:(lia)) as (v & Hcell & Hval).
    replace (Z.to_nat from + i)%nat with (Z.to_nat (from + Z.of_nat i)) by lia.
    replace (Z.to_nat (num sg * K + from) + i)%nat with (Z.to_nat (num sg * K + (from + Z.of_nat i))) by nia. by rewrite Hcell, Hval.
  - rewrite lookup_seq_ge, lookup_take_ge by lia. done.
Qed.

Lemma destroy_chain n : ∀ i a from sg fuel, (length (chain g) - i = S n)%nat → chain g !! i = Some a → heap s a = Some sg →
  fresh g = None → deq sg ≤ from ≤ fillof K g s a → (n < fuel)%nat →
  destroy_from fuel s a from = Some (Some <$> drop (Z.to_nat ((hn g + Z.of_nat i) * K + from)) (vals g), drop i (chain g)).
Proof.
  destruct (tail_seg _ _ _ Hc) as (Ht & _). destruct (co_count _ _ _ Hc) as (Hcnt & Hfl & Hhn).
  induction n as [|n IH]; intros i a from sg fuel Hi Ha Hsg Hfr Hfrom Hfuel; (destruct fuel as [|fuel]; [lia|]); simpl; rewrite Hsg;
    destruct (co_chain _ _ _ Hc _ _ Ha) as (sg1 & E & Hn & Hx & He & Hd); rewrite Hsg in E; injection E as <-;
    pose proof (co_seg _ _ _ Hc _ _ Hsg) as Hso; pose proof (so_range _ _ _ _ Hso) as Hr.
  - assert (i = length (chain g) - 1)%nat as Ei by lia. assert (a = tail_ s) as -> by congruence. rewrite decide_True by done.
    unfold fillof in *. rewrite decide_True in Hfrom, Hso by done. rewrite Hx, lookup_ge_None_2 by lia.
    rewrite (live_cells _ _ _ _ Hso), Hn by lia. do 2 f_equal.
    + rewrite take_ge; [done|]. rewrite length_drop. nia.
    + rewrite (drop_S _ _ _ Ha), drop_ge by lia. done.
  - assert (a ≠ tail_ s) as Hat by (intros ->; pose proof (chain_inj _ _ _ Hc _ _ _ Ha Ht); lia).
    rewrite decide_False by done. unfold fillof in Hfrom, Hso, Hr. rewrite Hfr, decide_False in Hfrom, Hso, Hr by done.
    rewrite decide_False in Hfrom, Hso, Hr by done. rewrite He in * by lia.
    destruct (lookup_lt_is_Some_2 (chain g) (S i)) as [b Hb]; [lia|]. rewrite Hx, Hb.
    destruct (co_chain _ _ _ Hc _ _ Hb) as (sb & Hsb & _ & _ & _ & Hdb). specialize (Hdb ltac:(lia)).
    pose proof (so_range _ _ _ _ (co_seg _ _ _ Hc _ _ Hsb)) as Hrb.
    rewrite (IH (S i) b 0 sb fuel ltac:(lia) Hb Hsb Hfr ltac:(lia) ltac:(lia)). simpl.
    rewrite (live_cells _ _ _ _ Hso) by lia. rewrite <-fmap_app, Hn, (drop_S _ _ _ Ha). do 3 f_equal.
    rewrite <-(take_drop (Z.to_nat (K - from)) (drop (Z.to_nat ((hn g + Z.of_nat i) * K + from)) (vals g))) at 2. f_equal.
    rewrite drop_drop. f_equal. nia.
Qed.

Lemma spmc_destroy_quiescent : (∀ t, pcs t = PcIdle) → ∃ sh stl, heap s (head_ s) = Some sh ∧ heap s (tail_ s) = Some stl ∧
  ∀ fuel, num stl - num sh < Z.of_nat fuel → ∃ freed, destroy fuel s = Some (Some <$> vis q ++ dfr q, freed) ∧ NoDup freed ∧
    ∀ a, a ∈ freed → is_Some (heap s a) ∧ ∀ r x, recs s !! r = Some x → a ∉ retired x.
Proof.
  intros Hidle. pose proof (iv_prod _ _ _ _ _ _ HI) as Hpr. rewrite Hidle in Hpr. destruct Hpr as [Hfr Hpe].
  destruct (head_seg _ _ _ Hc) as (H0 & sh & Hsh & Hnh). destruct (tail_seg _ _ _ Hc) as (Ht & stl & Hstl & Hnt & _). exists sh, stl.
  split_and!; try done. intros fuel Hfuel. pose proof (chain_len _ _ _ Hc) as Hlen. exists (chain g).
  pose proof (so_range _ _ _ _ (co_seg _ _ _ Hc _ _ Hsh)) as Hr. split_and!.
  - unfold destroy. rewrite Hsh.
    rewrite (destroy_chain (length (chain g) - 1) 0 _ (deq sh) sh fuel ltac:(lia) H0 Hsh Hfr ltac:(lia) ltac:(lia)). do 2 f_equal.
    destruct (iv_abs _ _ _ _ _ _ HI sh stl Hsh Hstl) as [E _]. rewrite Hpe, app_nil_r in E. rewrite E. do 3 f_equal. lia.
  - apply NoDup_alt. intros i j a. apply (chain_inj _ _ _ Hc).
  - intros a [i Hi]%list_elem_of_lookup. destruct (co_chain _ _ _ Hc _ _ Hi) as (sa & Hsa & Hn & _). split; [by exists sa|].
    intros r x Hx Hin. destruct (ro_ret _ _ _ (iv_recs _ _ _ _ _ _ HI) r x a Hx Hin) as (sb & Hb & Hlt). rewrite Hsa in Hb. injection Hb as <-. lia.
Qed.
End state.

Lemma spmc_reach m : reachable runs m → ∃ g q, Inv K P g (ms_shared m) (ms_pcs m) q.
Proof. intros H. by apply (lin_reachable _ _ _ _ _ (spmc_lin_proof K P HK)). Qed.

(** ** The properties *)

(** C21: The queue is linearisable to a first-in first-out queue: every
    history of pushes by one thread and of pops by any number of threads,
    which may come and go, under any interleaving of their accesses, any
    spurious failure of a weak compare-and-swap and any reuse of freed
    addresses, is a history of the atomic queue. *)
Theorem spmc_linearisable tr : history runs tr → history (atomic spmc_spec) tr.
Proof. apply (linearisable _ _ _ _ _ (spmc_lin_proof K P HK)). Qed.

(** C22: Hazard pointers keep the segments safe: no operation reads or writes a
    freed segment, claims a dead cell or frees a segment that holds an
    element; a segment awaiting its deletion is still in memory and awaits
    it once. *)
Theorem spmc_safe m : reachable runs m →
  bad (ms_shared m) = false ∧ (∀ t, ms_pcs m t ≠ PcBad) ∧
  (∀ t r h, hold (ms_pcs m t) = Some (r, h) → is_Some (heap (ms_shared m) h)) ∧
  (∀ r x a, recs (ms_shared m) !! r = Some x → a ∈ retired x → is_Some (heap (ms_shared m) a) ∧ a ≠ head_ (ms_shared m) ∧ a ≠ tail_ (ms_shared m)) ∧
  (∀ r r' x x' i j a, recs (ms_shared m) !! r = Some x → recs (ms_shared m) !! r' = Some x' →
     retired x !! i = Some a → retired x' !! j = Some a → r = r' ∧ i = j).
Proof.
  intros (g & q & HI)%spmc_reach. pose proof (iv_recs _ _ _ _ _ _ HI) as Hr. pose proof (iv_chain _ _ _ _ _ _ HI) as Hc. split_and!.
  - apply (iv_bad _ _ _ _ _ _ HI).
  - intros t. apply (tk_bad _ _ _ _ _ _ (iv_thread _ _ _ _ _ _ HI t)).
  - intros t r h Hh. destruct (tk_hold _ _ _ _ _ _ (iv_thread _ _ _ _ _ _ HI t) r h Hh) as [_ (sg & Hsg & _)]. by exists sg.
  - intros r x a Hx Ha. destruct (ro_ret _ _ _ Hr r x a Hx Ha) as (sg & Hsg & Hlt). destruct (head_seg _ _ _ Hc) as (_ & sh & Hsh & Hnh).
    destruct (tail_seg _ _ _ Hc) as (_ & stl & Hstl & Hnt & _). pose proof (chain_len _ _ _ Hc).
    split_and!; [by exists sg| |]; intros ->; simplify_eq; lia.
  - intros r r' x x' i j a Hx Hx' Hi Hj. destruct (decide (r = r')) as [<-|Hne].
    + rewrite Hx in Hx'. injection Hx' as <-. split; [done|]. by eapply NoDup_lookup; [apply (ro_nodup _ _ _ Hr r x Hx)|..].
    + destruct (ro_disj _ _ _ Hr r r' x x' a Hne Hx Hx'); by eapply list_elem_of_lookup_2.
Qed.

(** A push is wait-free: whatever the consumers do, the producer's next
    step can be taken (given memory when it needs a segment), and a push
    takes at most five. *)
Theorem spmc_push_wait_free m t c : reachable runs m → heap (ms_shared m) (addr c) = None → (0 < push_rank (ms_pcs m t))%nat →
  (push_rank (ms_pcs m t) ≤ 5)%nat ∧ ∃ s' p', step K c (ms_shared m) (ms_pcs m t) = Some (s', p') ∧
    (push_rank p' < push_rank (ms_pcs m t))%nat ∧ (push_rank p' = 0%nat → p' = PcDone RUnit).
Proof.
  intros (g & q & HI)%spmc_reach Ha Hp. pose proof (iv_chain _ _ _ _ _ _ HI) as Hc. pose proof (iv_prod _ _ _ _ _ _ HI) as Hpr.
  destruct (tail_seg _ _ _ Hc) as (_ & stl & Hstl & _). pose proof (tk_push _ _ _ _ _ _ (iv_thread _ _ _ _ _ _ HI t)) as HP.
  destruct (ms_pcs m t) as [| | |v pub|v pub a|v pub a|v pub| | | | | | | | | | | | | | | | | | | | | | | | | | |] eqn:Et; simpl in Hp; try lia; simpl; unfold at_seg; rewrite ?Hstl, ?Ha.
  - destruct (_ =? _); destruct pub; simpl; split; try lia; eexists _, _; split_and!; solve [done|simpl; lia].
  - destruct pub; simpl; split; try lia; eexists _, _; split_and!; solve [done|simpl; lia].
  - destruct pub; simpl; split; try lia; eexists _, _; split_and!; solve [done|simpl; lia].
  - assert (ms_pcs m P = PushWrite v pub) as EP by (rewrite <-Et; by rewrite (HP eq_refl)). rewrite EP in Hpr. destruct Hpr as (_ & _ & Hf). pose proof (co_seg _ _ _ Hc _ _ Hstl) as [S1 S2 S3 S4 S5].
    unfold fillof in S5. rewrite decide_True in S5 by done. destruct (co_count _ _ _ Hc) as (_ & Hfl & _). rewrite S5 by lia.
    destruct pub; simpl; split; try lia; eexists _, _; split_and!; solve [done|simpl; lia].
  - split; [lia|]. eexists _, _. split_and!; solve [done|simpl; lia].
Qed.

(** The destructor, run when every thread has returned, destroys exactly
    the elements pushed and not popped, published or not, in order, each
    once, and deletes distinct segments that are in memory and that no
    hazard record will delete again.  The walk is bounded by the number of
    segments between head and tail. *)
Theorem spmc_destroy tr m0 m : linit runs m0 → steps runs m0 tr m → (∀ t, ms_pcs m t = PcIdle) →
  ∃ a0 a, linit (atomic spmc_spec) a0 ∧ steps (atomic spmc_spec) a0 tr a ∧
    ∃ sh stl, heap (ms_shared m) (head_ (ms_shared m)) = Some sh ∧ heap (ms_shared m) (tail_ (ms_shared m)) = Some stl ∧
    ∀ fuel, num stl - num sh < Z.of_nat fuel →
      ∃ freed, destroy fuel (ms_shared m) = Some (Some <$> vis (a_abs a) ++ dfr (a_abs a), freed) ∧ NoDup freed ∧
        ∀ b, b ∈ freed → is_Some (heap (ms_shared m) b) ∧ ∀ r x, recs (ms_shared m) !! r = Some x → b ∉ retired x.
Proof.
  intros H0 Hrun Hidle. destruct (lin_run _ _ _ _ _ (spmc_lin_proof K P HK) _ _ _ H0 Hrun) as (a0 & a & Ha0 & Ha & g & HI).
  exists a0, a. split_and!; try done. by eapply spmc_destroy_quiescent.
Qed.
End client.

(** ** A run the theorems apply to

    Segments of two cells; thread 0 pushes; thread 1 pops three elements,
    which retires the first segment, and exits, which frees it; the
    producer's next segment takes its address; thread 2's pop runs
    meanwhile, in the record thread 1 has left. *)

Abbreviation demo_machine := (@spmc_machine Z 2 0).
Definition go (t n a : nat) : list (action (@op Z) choice) := replicate n (AStep t (Choice false a)).
Definition demo1 : list (action (@op Z) choice) :=
  [ACall 0 (Push 1)] ++ go 0 3 0 ++ [ARet 0%nat; ACall 0 (PushDeferred 2)] ++ go 0 2 0 ++ [ARet 0%nat; ACall 0 (Push 3)] ++ go 0 5 1 ++ [ARet 0%nat] ++
  [ACall 1 (Pop 1)] ++ go 1 8 0 ++ [AStep 1 (Choice true 0)] ++ go 1 6 0 ++ [ARet 1%nat; ACall 1 (Pop 1)] ++ go 1 6 0 ++
  [ARet 1%nat; ACall 1 (Pop 1)] ++ go 1 18 0.
Definition demo2 : list (action (@op Z) choice) :=
  [ARet 1%nat; ACall 1 (Exit 1)] ++ go 1 9 0 ++ [ARet 1%nat; ACall 2 (Pop 2)] ++ go 2 4 0 ++
  [ACall 0 (Push 4)] ++ go 0 3 0 ++ [ARet 0%nat; ACall 0 (PushDeferred 5)] ++ go 0 3 0.
Definition demo : list (action (@op Z) choice) := demo1 ++ demo2 ++ go 0 1 0 ++ go 2 10 0 ++ [ARet 0%nat; ARet 2%nat].
Definition demo_history : list (event (@op Z) (@res Z)) :=
  [Call 0 (Push 1); Ret 0 RUnit; Call 0 (PushDeferred 2); Ret 0 RUnit; Call 0 (Push 3); Ret 0 RUnit;
   Call 1 (Pop 1); Ret 1 (RPop (Some 1)); Call 1 (Pop 1); Ret 1 (RPop (Some 2)); Call 1 (Pop 1); Ret 1 (RPop (Some 3));
   Call 1 (Exit 1); Ret 1 RUnit; Call 2 (Pop 2); Call 0 (Push 4); Ret 0 RUnit; Call 0 (PushDeferred 5); Ret 0 RUnit; Ret 2 (RPop (Some 4))].

Lemma demo_segment : 2 ≤ 2 < 2 ^ 63.
Proof. lia. Qed.

Lemma demo_run : steps (restrict (mlts demo_machine) (λ _, True)) (m_start demo_machine) demo_history (exec_final demo_machine demo).
Proof. apply steps_restrict; [done|]. apply exec_steps_final. vm_compute. reflexivity. Qed.

Lemma demo_reach l : reachable (restrict (mlts demo_machine) (λ _, True)) (exec_final demo_machine l).
Proof. apply reachable_all; [done|apply exec_reachable]. Qed.

Lemma spmc_linearisable_witness : history (atomic spmc_spec) demo_history.
Proof.
  apply (spmc_linearisable 2 0 demo_segment). exists (m_start demo_machine), (exec_final demo_machine demo). split; [done|apply demo_run].
Defined.

(** After the first part the first segment is retired; after the run its
    address is in use again. *)
Lemma spmc_safe_witness : (∃ x, recs (ms_shared (exec_final demo_machine demo1)) !! 0%nat = Some x ∧ retired x = [0%nat]) ∧
  bad (ms_shared (exec_final demo_machine demo1)) = false.
Proof.
  split; [eexists; split; vm_compute; reflexivity|]. apply (spmc_safe 2 0 demo_segment (exec_final demo_machine demo1) (demo_reach demo1)).
Defined.

Example demo_freed : heap (ms_shared (exec_final demo_machine (demo1 ++ take 12 demo2))) 0%nat = None ∧
  is_Some (heap (ms_shared (exec_final demo_machine demo)) 0%nat).
Proof. split; [vm_compute; reflexivity|]. eexists. vm_compute. reflexivity. Qed.

Lemma spmc_push_wait_free_witness : ∃ s' p',
  step 2 (Choice false 5) (ms_shared (exec_final demo_machine (demo1 ++ demo2))) (ms_pcs (exec_final demo_machine (demo1 ++ demo2)) 0%nat) = Some (s', p') ∧
  (push_rank p' < 1)%nat.
Proof.
  destruct (spmc_push_wait_free 2 0 demo_segment (exec_final demo_machine (demo1 ++ demo2)) 0 (Choice false 5) (demo_reach (demo1 ++ demo2)))
    as [_ (s' & p' & H1 & H2 & _)]; [vm_compute; reflexivity|vm_compute; lia|].
  exists s', p'. split; [exact H1|]. assert (push_rank (ms_pcs (exec_final demo_machine (demo1 ++ demo2)) 0%nat) = 1%nat) as <- by (vm_compute; reflexivity). exact H2.
Defined.

Lemma spmc_destroy_witness :
  ∃ a0 a, linit (atomic spmc_spec) a0 ∧ steps (atomic spmc_spec) a0 demo_history a ∧
    ∃ sh stl, heap (ms_shared (exec_final demo_machine demo)) (head_ (ms_shared (exec_final demo_machine demo))) = Some sh ∧
      heap (ms_shared (exec_final demo_machine demo)) (tail_ (ms_shared (exec_final demo_machine demo))) = Some stl ∧
    ∀ fuel, num stl - num sh < Z.of_nat fuel →
      ∃ freed, destroy fuel (ms_shared (exec_final demo_machine demo)) = Some (Some <$> vis (a_abs a) ++ dfr (a_abs a), freed) ∧ NoDup freed ∧
        ∀ b, b ∈ freed → is_Some (heap (ms_shared (exec_final demo_machine demo)) b) ∧
          ∀ r x, recs (ms_shared (exec_final demo_machine demo)) !! r = Some x → b ∉ retired x.
Proof.
  apply (spmc_destroy 2 0 demo_segment demo_history (m_start demo_machine) (exec_final demo_machine demo)); [done|apply demo_run|].
  apply (exec_quiescent demo_machine 3 demo); [vm_compute; reflexivity|]. intros [|[|[|t]]] Ht; [vm_compute; reflexivity..|lia].
Defined.

Example demo_destroy_spmc : destroy 2 (ms_shared (exec_final demo_machine demo)) = Some ([Some 5], [1; 0]%nat).
Proof. vm_compute. reflexivity. Qed.
End SpmcSpec.

