(* ===== verification/Hazard.v ===== *)
(** * Hazard: hazard pointers, for any queue that frees through them
      (src/runtime/hazard.hpp)

    The domain (the list of records and each thread's own), and every
    operation of hazard.hpp as a machine of one access at a time: [mine]
    with [acquire], [protect] on either slot, [clear], [retire] with [scan],
    and a thread's exit.  A queue embeds the program counters of this file
    in its own and gives the two pointers a slot may protect ([src]).

    The invariant is stated against two predicates of the queue: [pub], the
    nodes that have been reachable and are not freed, and [gone], those of
    them that are not reachable any more.  [hz_step] is what the hazard
    pointers promise: a node in a validated slot is not freed. *)

From S2P Require Import Prelude.

Module Hazard.

Definition kPushSlot : bool := false.
Definition kPopSlot : bool := true.
Definition kScanAt : nat := 8.

(** ** The domain *)

Record record := Rec { slot0 : option nat; slot1 : option nat; active : bool; retired : list nat }.
Definition new_record : record := Rec None None true [].

Definition slot (j : bool) (x : record) : option nat := if j then slot1 x else slot0 x.
Definition set_slot (j : bool) (v : option nat) (x : record) : record :=
  if j then Rec (slot0 x) v (active x) (retired x) else Rec v (slot1 x) (active x) (retired x).
Definition set_active (b : bool) (x : record) : record := Rec (slot0 x) (slot1 x) b (retired x).
Definition set_retired (l : list nat) (x : record) : record := Rec (slot0 x) (slot1 x) (active x) l.

(** [g_records], the most recently added last, and the thread_local owners. *)
Record domain := Domain { recs : list record; own : nat → option nat }.
Definition domain0 : domain := Domain [] (λ _, None).
Definition on_rec (d : domain) (r : nat) (f : record → record) : domain := Domain (alter f r (recs d)) (own d).

(** [scan] is called by [retire] ([None]) or by a thread's exit. *)
Inductive hpc :=
| Mine (me : nat)
| AcqLoad (me : nat) | AcqWalk (me i : nat) | AcqClaim (me i : nat) | AcqNew (me : nat) | AcqPush (me n : nat)
| ProtLoad (r : nat) (j : bool) | ProtStore (r : nat) (j : bool) (p : nat) | ProtCheck (r : nat) (j : bool) (p : nat)
| Clear (r : nat) (j : bool)
| Retire (r a : nat)
| ScanStart (r : nat) (e : option nat)
| ScanRead (r i : nat) (j : bool) (held : list nat) (e : option nat)
| ScanFree (r : nat) (held : list nat) (e : option nat)
| ExitOwn (me : nat) | ExitClear0 (r me : nat) | ExitClear1 (r me : nat) | ExitActive (r me : nat).

Inductive hout := Got (r : nat) | Protected (r p : nat) | Cleared | Retired (r : nat) | Exited.

(** ** The operations

    A step answers the domain, the nodes it frees, and where it goes on. *)
Definition outcome : Type := option (domain * list nat * (hpc + hout)).
Definition goes (d : domain) (p : hpc) : outcome := Some (d, [], inl p).
Definition answers (d : domain) (o : hout) : outcome := Some (d, [], inr o).

Definition acquire_step (spurious : bool) (d : domain) (p : hpc) : outcome :=
  match p with
  | Mine me => match own d me with Some r => answers d (Got r) | None => goes d (AcqLoad me) end
  | AcqLoad me => goes d (AcqWalk me (length (recs d)))
  | AcqWalk me O => goes d (AcqNew me)
  | AcqWalk me (S i) =>
      match recs d !! i with
      | Some x => goes d (if active x then AcqWalk me i else AcqClaim me i)
      | None => None
      end
  | AcqClaim me i =>
      match recs d !! i with
      | Some x =>
          if active x then goes d (AcqWalk me i)
          else answers (Domain (alter (set_active true) i (recs d)) (<[me:=Some i]> (own d))) (Got i)
      | None => None
      end
  | AcqNew me => goes d (AcqPush me (length (recs d)))
  | AcqPush me n =>
      if negb spurious && (length (recs d) =? n)
      then answers (Domain (recs d ++ [new_record]) (<[me:=Some n]> (own d))) (Got n)
      else goes d (AcqPush me (length (recs d)))
  | _ => None
  end.

Definition protect_step (src : bool → nat) (d : domain) (p : hpc) : outcome :=
  match p with
  | ProtLoad r j => goes d (ProtStore r j (src j))
  | ProtStore r j p => goes (on_rec d r (set_slot j (Some p))) (ProtCheck r j p)
  | ProtCheck r j p => if decide (src j = p) then answers d (Protected r p) else goes d (ProtStore r j (src j))
  | Clear r j => answers (on_rec d r (set_slot j None)) Cleared
  | _ => None
  end.

Definition scan_step (d : domain) (p : hpc) : outcome :=
  match p with
  | Retire r a =>
      match recs d !! r with
      | Some x =>
          let l := retired x ++ [a] in
          let d' := on_rec d r (set_retired l) in
          if kScanAt <=? length l then goes d' (ScanStart r None) else answers d' (Retired r)
      | None => None
      end
  | ScanStart r e => goes d (ScanRead r (length (recs d)) false [] e)
  | ScanRead r O j held e => goes d (ScanFree r held e)
  | ScanRead r (S i) j held e =>
      match recs d !! i with
      | Some x =>
          let held := match slot j x with Some n => n :: held | None => held end in
          goes d (if j then ScanRead r i false held e else ScanRead r (S i) true held e)
      | None => None
      end
  | ScanFree r held e =>
      match recs d !! r with
      | Some x =>
          Some (on_rec d r (set_retired (filter (λ n, n ∈ held) (retired x))), filter (λ n, n ∉ held) (retired x),
                match e with None => inr (Retired r) | Some me => inl (ExitActive r me) end)
      | None => None
      end
  | _ => None
  end.

Definition exit_step (d : domain) (p : hpc) : outcome :=
  match p with
  | ExitOwn me => match own d me with Some r => goes d (ExitClear0 r me) | None => answers d Exited end
  | ExitClear0 r me => goes (on_rec d r (set_slot false None)) (ExitClear1 r me)
  | ExitClear1 r me => goes (on_rec d r (set_slot true None)) (ScanStart r (Some me))
  | ExitActive r me => answers (Domain (alter (set_active false) r (recs d)) (<[me:=None]> (own d))) Exited
  | _ => None
  end.

Definition hstep (spurious : bool) (src : bool → nat) (d : domain) (p : hpc) : outcome :=
  match p with
  | Mine _ | AcqLoad _ | AcqWalk _ _ | AcqClaim _ _ | AcqNew _ | AcqPush _ _ => acquire_step spurious d p
  | ProtLoad _ _ | ProtStore _ _ _ | ProtCheck _ _ _ | Clear _ _ => protect_step src d p
  | Retire _ _ | ScanStart _ _ | ScanRead _ _ _ _ _ | ScanFree _ _ _ => scan_step d p
  | ExitOwn _ | ExitClear0 _ _ | ExitClear1 _ _ | ExitActive _ _ => exit_step d p
  end.

(** ** The invariant *)

Definition rec_of (p : hpc) : option nat :=
  match p with
  | ProtLoad r _ | ProtStore r _ _ | ProtCheck r _ _ | Clear r _ | Retire r _ | ScanStart r _ | ScanRead r _ _ _ _
  | ScanFree r _ _ | ExitClear0 r _ | ExitClear1 r _ | ExitActive r _ => Some r
  | _ => None
  end.
Definition me_of (p : hpc) : option nat :=
  match p with
  | Mine me | AcqLoad me | AcqWalk me _ | AcqClaim me _ | AcqNew me | AcqPush me _ | ExitOwn me | ExitClear0 _ me
  | ExitClear1 _ me | ExitActive _ me | ScanStart _ (Some me) | ScanRead _ _ _ _ (Some me) | ScanFree _ _ (Some me) => Some me
  | _ => None
  end.
Definition acquiring (p : hpc) : bool :=
  match p with AcqLoad _ | AcqWalk _ _ | AcqClaim _ _ | AcqNew _ | AcqPush _ _ => true | _ => false end.
(** A thread on its way out has cleared its slots. *)
Definition exiting (p : hpc) : bool :=
  match p with ScanStart _ (Some _) | ScanRead _ _ _ _ (Some _) | ScanFree _ _ (Some _) | ExitActive _ _ => true | _ => false end.
(** In the middle of protecting through slot [j] of record [r]. *)
Definition in_prot (v : option hpc) (r : nat) (j : bool) : Prop :=
  match v with
  | Some (ProtLoad r' j') | Some (ProtStore r' j' _) | Some (ProtCheck r' j' _) => r' = r ∧ j' = j
  | _ => False
  end.

Definition slot_is (d : domain) (r : nat) (j : bool) (v : option nat) : Prop :=
  ∃ x, recs d !! r = Some x ∧ slot j x = v.

Record thr_ok (d : domain) (t : nat) (p : hpc) : Prop := {
  th_rec r : rec_of p = Some r → own d t = Some r;
  th_me me : me_of p = Some me → me = t;
  th_acq : acquiring p = true → own d t = None;
  th_check r j n : p = ProtCheck r j n → slot_is d r j (Some n);
  th_clear r me : p = ExitClear1 r me → slot_is d r false None;
  th_exit r j : exiting p = true → rec_of p = Some r → slot_is d r j None
}.

(** The slots a scan has read. *)
Definition seen (i : nat) (j : bool) (r' : nat) (j' : bool) : Prop := i ≤ r' ∨ (j = true ∧ S r' = i ∧ j' = false).
Definition scanned (d : domain) (view : nat → option hpc) (r i : nat) (j : bool) (held : list nat) : Prop :=
  ∀ x n r' j', recs d !! r = Some x → n ∈ retired x → n ∉ held → seen i j r' j' → slot_is d r' j' (Some n) →
    ∃ u, in_prot (view u) r' j'.
Definition scan_ok (d : domain) (view : nat → option hpc) (p : hpc) : Prop :=
  match p with
  | ScanRead r i j held _ => scanned d view r i j held
  | ScanFree r held _ => scanned d view r 0 false held
  | _ => True
  end.

Record hz_ok (pub gone : nat → Prop) (d : domain) (view : nat → option hpc) : Prop := {
  hz_own t r : own d t = Some r → ∃ x, recs d !! r = Some x ∧ active x = true;
  hz_inj t u r : own d t = Some r → own d u = Some r → t = u;
  hz_idle r x j : recs d !! r = Some x → active x = false → slot j x = None;
  hz_prot r j n : slot_is d r j (Some n) → (∀ t, ¬ in_prot (view t) r j) → pub n;
  hz_ret r x a : recs d !! r = Some x → a ∈ retired x → gone a;
  hz_gone a : gone a → pub a;
  hz_nodup r x : recs d !! r = Some x → NoDup (retired x);
  hz_disj r r' x x' a : r ≠ r' → recs d !! r = Some x → recs d !! r' = Some x' → a ∈ retired x → a ∈ retired x' → False;
  hz_retire t r a : view t = Some (Retire r a) →
    gone a ∧ (∀ r' x, recs d !! r' = Some x → a ∉ retired x) ∧ ∀ u r', view u = Some (Retire r' a) → u = t;
  hz_scan t p : view t = Some p → scan_ok d view p;
  hz_thread t p : view t = Some p → thr_ok d t p
}.

(** ** Facts *)

Lemma slot_set j j' v x : slot j' (set_slot j v x) = if decide (j' = j) then v else slot j' x.
Proof. by destruct j, j'. Qed.

Lemma in_prot_rec p r j : in_prot (Some p) r j → rec_of p = Some r.
Proof. by destruct p; simpl; intros; destruct_and?; simplify_eq. Qed.

Section facts.
Context {pub gone : nat → Prop} {d : domain} {view : nat → option hpc}.
Context (H : hz_ok pub gone d view).

(** The slot of a thread that is not protecting holds a node not freed. *)
Lemma own_pub t r j n : own d t = Some r → ¬ in_prot (view t) r j → slot_is d r j (Some n) → pub n.
Proof.
  intros Ho Hno Hs. eapply (hz_prot _ _ _ _ H); [done|]. intros u Hu.
  assert (own d u = Some r) as Hu'.
  { destruct (view u) as [p|] eqn:E; [|done]. eapply th_rec; [by eapply hz_thread|]. by eapply in_prot_rec. }
  by rewrite (hz_inj _ _ _ _ H _ _ _ Hu' Ho) in Hu.
Qed.

Lemma own_rec t r : own d t = Some r → ∃ x, recs d !! r = Some x ∧ active x = true.
Proof. apply (hz_own _ _ _ _ H). Qed.
Lemma other_rec t u r r' : own d t = Some r → own d u = Some r' → u ≠ t → r' ≠ r.
Proof. intros H1 H2 Hu ->. apply Hu. by eapply (hz_inj _ _ _ _ H). Qed.
End facts.

Lemma hz_ext pub gone d view view' : (∀ u, view u = view' u) → hz_ok pub gone d view → hz_ok pub gone d view'.
Proof.
  intros E [H1 H2 H3 H4 H5 H6 H7 H8 H9 H10 H11].
  assert (∀ u r j, in_prot (view u) r j ↔ in_prot (view' u) r j) as Hin by (intros; by rewrite E).
  split; try done.
  - intros r j n Hs Hno. apply (H4 r j n Hs). intros u Hu. by apply (Hno u), Hin.
  - intros t r a. rewrite <-E. intros Ht. destruct (H9 t r a Ht) as (A & B & C). split_and!; [done|done|]. intros u r'. rewrite <-E. apply C.
  - intros t p. rewrite <-E. intros Ht. specialize (H10 t p Ht). destruct p; try done; intros x n r' j' A B C D F;
      destruct (H10 x n r' j' A B C D F) as [u Hu]; exists u; by rewrite <-E.
  - intros t p. rewrite <-E. apply H11.
Qed.

(** The queue publishes nodes, or takes some out of reach. *)
Lemma hz_mono (pub gone pub' gone' : nat → Prop) d view : hz_ok pub gone d view →
  (∀ a, pub a → pub' a) → (∀ a, gone a → gone' a) → (∀ a, gone' a → pub' a) → hz_ok pub' gone' d view.
Proof.
  intros [H1 H2 H3 H4 H5 H6 H7 H8 H9 H10 H11] Hp Hg Hgp. split; try done; [eauto|eauto|].
  intros t r a Ht. destruct (H9 t r a Ht) as (? & ? & ?). eauto.
Qed.

(** A thread that is not in the middle of a hazard operation starts one. *)
Definition entry (p : hpc) : bool :=
  match p with Mine _ | ProtLoad _ _ | Clear _ _ | Retire _ _ | ExitOwn _ => true | _ => false end.

Lemma hz_enter pub gone d view t p : hz_ok pub gone d view → view t = None → entry p = true → thr_ok d t p →
  (∀ r a, p = Retire r a → gone a ∧ (∀ r' x, recs d !! r' = Some x → a ∉ retired x) ∧ ∀ u r', view u ≠ Some (Retire r' a)) →
  hz_ok pub gone d (<[t:=Some p]> view).
Proof.
  intros [H1 H2 H3 H4 H5 H6 H7 H8 H9 H10 H11] Hv He Ht Hr.
  assert (∀ u r j, in_prot (view u) r j → in_prot (<[t:=Some p]> view u) r j) as Hin.
  { intros u r j. by_thread t u; [by rewrite Hv|done]. }
  split; try done.
  - intros r j n Hs Hno. apply (H4 r j n Hs). intros u Hu. by apply (Hno u), Hin.
  - intros u r a. by_thread t u.
    + intros [= ->]. destruct (Hr r a eq_refl) as (A & B & C). split_and!; [done|done|]. intros v r'. by_thread u v; [done|]. intros E. by apply C in E.
    + intros Hu. destruct (H9 u r a Hu) as (A & B & C). split_and!; [done|done|]. intros v r'. by_thread t v; [|apply C].
      intros [= ->]. destruct (Hr r' a eq_refl) as (_ & _ & D). by apply D in Hu.
  - intros u q. by_thread t u; [intros [= <-]; by destruct p|]. intros Hu. specialize (H10 u q Hu).
    destruct q; try done; intros x m r' j' A B C D F; destruct (H10 x m r' j' A B C D F) as [w Hw]; exists w; by apply Hin.
  - intros u q. by_thread t u; [by intros [= <-]|]. apply H11.
Qed.

(** ** One step *)

Definition view_of (o : hpc + hout) : option hpc := match o with inl p => Some p | inr _ => None end.

(** What a step leaves alone: the other threads' records. *)
Definition hz_frame (t : nat) (d d' : domain) : Prop :=
  (∀ u, u ≠ t → own d' u = own d u) ∧
  ∀ u r j v, u ≠ t → own d u = Some r → slot_is d r j v → slot_is d' r j v.

Lemma frame_refl t d : hz_frame t d d.
Proof. done. Qed.

Lemma thr_frame t d d' u p : hz_frame t d d' → u ≠ t → thr_ok d u p → thr_ok d' u p.
Proof.
  intros [F1 F2] Hu [H1 H2 H3 H4 H5 H6]. split; rewrite ?F1 by done; try done.
  - intros r j n ->. eapply F2; [done|by apply H1|by apply H4].
  - intros r me ->. eapply F2; [done|by apply H1|by eapply H5].
  - intros r j He Hr. eapply F2; [done|by apply H1|by apply H6].
Qed.

Definition no_scan (v : option hpc) : bool :=
  match v with Some (ScanRead _ _ _ _ _) | Some (ScanFree _ _ _) | Some (Retire _ _) => false | _ => true end.

Section steps.
Context (pub gone : nat → Prop) (d : domain) (view : nat → option hpc) (t : nat).
Context (H : hz_ok pub gone d view).

(** The domain is as it was. *)
Lemma hz_view v' : (∀ r j, in_prot (view t) r j → in_prot v' r j) → (∀ r a, v' ≠ Some (Retire r a)) →
  (∀ p, v' = Some p → scan_ok d (<[t:=v']> view) p ∧ thr_ok d t p) → hz_ok pub gone d (<[t:=v']> view).
Proof.
  destruct H as [H1 H2 H3 H4 H5 H6 H7 H8 H9 H10 H11]. intros Hin Hr Hp.
  assert (∀ u r j, in_prot (view u) r j → in_prot (<[t:=v']> view u) r j) as Hin' by (intros u r j; by_thread t u; [apply Hin|done]).
  split; try done.
  - intros r j n Hs Hno. apply (H4 r j n Hs). intros u Hu. by apply (Hno u), Hin'.
  - intros u r a. by_thread t u; [intros E; by apply Hr in E|]. intros Hu. destruct (H9 u r a Hu) as (A & B & C). split_and!; [done|done|].
    intros v r'. by_thread t v; [intros E; by apply Hr in E|apply C].
  - intros u q. by_thread t u; [intros E; by apply Hp|]. intros Hu. specialize (H10 u q Hu).
    destruct q; try done; intros x m r' j' A B C D F; destruct (H10 x m r' j' A B C D F) as [w Hw]; exists w; by apply Hin'.
  - intros u q. by_thread t u; [intros E; by apply Hp|]. apply H11.
Qed.

(** One record changes, but not what it has retired. *)
Lemma hz_alter r x f own' v' : let d' := Domain (alter f r (recs d)) own' in
  recs d !! r = Some x → retired (f x) = retired x →
  (∀ u r', own' u = Some r' → if decide (r' = r) then active (f x) = true else own d u = Some r') →
  (∀ u v, own' u = Some r → own' v = Some r → u = v) → (∀ j, active (f x) = false → slot j (f x) = None) →
  (∀ j, slot j (f x) = slot j x ∨ slot j (f x) = None ∨ in_prot v' r j) →
  (∀ r j, in_prot (view t) r j → in_prot v' r j) → no_scan v' = true → (∀ p, v' = Some p → thr_ok d' t p) →
  (∀ u, u ≠ t → own' u = own d u ∧ own d u ≠ Some r) →
  hz_ok pub gone d' (<[t:=v']> view) ∧ hz_frame t d d'.
Proof.
  intros d' Hx Hret Hown Hinj Hidle Hslot Hin Hsc Hth Hoth. destruct H as [H1 H2 H3 H4 H5 H6 H7 H8 H9 H10 H11].
  assert (∀ r' y', recs d' !! r' = Some y' →
    ∃ y, recs d !! r' = Some y ∧ retired y' = retired y ∧ (r' = r → y = x ∧ y' = f x) ∧ (r' ≠ r → y' = y)) as Hal.
  { intros r' y'. simpl. destruct (decide (r' = r)) as [->|].
    - rewrite list_lookup_alter_eq, Hx. intros E. simplify_eq/=. exists x. done.
    - rewrite list_lookup_alter_ne by done. intros E. exists y'. done. }
  assert (∀ r' j n, slot_is d' r' j (Some n) → slot_is d r' j (Some n) ∨ r' = r ∧ in_prot v' r j) as Hsl.
  { intros r' j n (y' & Hy' & Hs). destruct (Hal r' y' Hy') as (y & Hy & _ & E1 & E2).
    destruct (decide (r' = r)) as [->|]; [|left; exists y; split; [done|]; by rewrite <-(E2 ltac:(done))].
    destruct E1 as [-> ->]; [done|]. destruct (Hslot j) as [E|[E|E]]; [left; exists x; split; [done|]; by rewrite <-E|congruence|by right]. }
  assert (∀ u r' j, in_prot (view u) r' j → in_prot (<[t:=v']> view u) r' j) as Hin' by (intros u r' j; by_thread t u; [apply Hin|done]).
  assert (hz_frame t d d') as Hfr.
  { split; [intros u Hu; by destruct (Hoth u Hu)|]. intros u r' j v Hu Ho (y & Hy & Hs). exists y. split; [|done]. simpl.
    rewrite list_lookup_alter_ne; [done|]. destruct (Hoth u Hu). congruence. }
  split; [|done]. split; try done.
  - intros u r' Hu. specialize (Hown u r' Hu). simpl. case_decide as E.
    + subst. exists (f x). rewrite list_lookup_alter_eq, Hx. done.
    + rewrite list_lookup_alter_ne by done. eauto.
  - intros u v r' Hu Hv. pose proof (Hown u r' Hu) as Hu'. pose proof (Hown v r' Hv) as Hv'. case_decide; [subst; eauto|eauto].
  - intros r' y' j Hy. destruct (Hal r' y' Hy) as (y & Hy0 & _ & E1 & E2). destruct (decide (r' = r)) as [->|]; [destruct E1 as [-> ->]; auto|].
    rewrite E2 by done. eauto.
  - intros r' j n Hs Hno. destruct (Hsl r' j n Hs) as [Hs'|[-> Hv]].
    + apply (H4 r' j n Hs'). intros u Hu. by apply (Hno u), Hin'.
    + destruct (Hno t). by rewrite fn_insert_eq.
  - intros r' y' a Hy Ha. destruct (Hal r' y' Hy) as (y & Hy0 & E & _). rewrite E in Ha. eauto.
  - intros r' y' Hy. destruct (Hal r' y' Hy) as (y & Hy0 & E & _). rewrite E. eauto.
  - intros r1 r2 y1 y2 a Hne Hy1 Hy2. destruct (Hal r1 y1 Hy1) as (z1 & Hz1 & -> & _). destruct (Hal r2 y2 Hy2) as (z2 & Hz2 & -> & _). eauto.
  - intros u r' a. by_thread t u; [intros E; by rewrite E in Hsc|]. intros Hu. destruct (H9 u r' a Hu) as (A & B & C). split_and!; [done| |].
    + intros r2 y' Hy. destruct (Hal r2 y' Hy) as (y & Hy0 & -> & _). eauto.
    + intros v r2. by_thread t v; [intros E; by rewrite E in Hsc|]. apply C.
  - intros u q. by_thread t u; [intros E; rewrite E in Hsc; by destruct q|]. intros Hu. specialize (H10 u q Hu).
    assert (∀ r i j held, scanned d view r i j held → scanned d' (<[t:=v']> view) r i j held) as Hscan.
    { intros r1 i j held Hs y' m r2 j2 Hy Hm1 Hm2 Hse Hs2. destruct (Hal r1 y' Hy) as (y & Hy0 & E & _). rewrite E in Hm1.
      destruct (Hsl r2 j2 m Hs2) as [Hs3|[-> Hv]]; [|exists t; by rewrite fn_insert_eq].
      destruct (Hs y m r2 j2 Hy0 Hm1 Hm2 Hse Hs3) as [w Hw]. exists w. by apply Hin'. }
    destruct q; simpl in *; auto.
  - intros u q. by_thread t u; [intros E; by apply Hth|]. intros Hu. by eapply thr_frame; [|done|by apply H11].
Qed.

(** The owner of a record changes its slots. *)
Lemma hz_own_slot r x f v' : own d t = Some r → recs d !! r = Some x → retired (f x) = retired x → active (f x) = active x →
  (∀ j, slot j (f x) = slot j x ∨ slot j (f x) = None ∨ in_prot v' r j) →
  (∀ r j, in_prot (view t) r j → in_prot v' r j) → no_scan v' = true → (∀ p, v' = Some p → thr_ok (on_rec d r f) t p) →
  hz_ok pub gone (on_rec d r f) (<[t:=v']> view) ∧ hz_frame t d (on_rec d r f).
Proof.
  intros Ho Hx Hret Hact Hslot Hin Hsc Hth. destruct (own_rec H t r Ho) as (x0 & Hx0 & Hac). rewrite Hx in Hx0. injection Hx0 as <-.
  apply (hz_alter r x); try done.
  - intros u r' Hu. case_decide; [congruence|done].
  - intros u v. apply (hz_inj _ _ _ _ H).
  - intros j E. congruence.
  - intros u Hu. split; [done|]. intros E. by destruct (other_rec H t u r r Ho E Hu).
Qed.

(** A new record. *)
Lemma hz_snoc : own d t = None → acquiring (default (Mine t) (view t)) = true →
  let d' := Domain (recs d ++ [new_record]) (<[t:=Some (length (recs d))]> (own d)) in
  hz_ok pub gone d' (<[t:=None]> view) ∧ hz_frame t d d'.
Proof.
  intros Hno Hacq d'. destruct H as [H1 H2 H3 H4 H5 H6 H7 H8 H9 H10 H11].
  assert (∀ u r, own d u = Some r → (r < length (recs d))%nat) as Hlt.
  { intros u r E. destruct (H1 u r E) as (x & Hx & _). by apply lookup_lt_Some in Hx. }
  assert (∀ r x, recs d' !! r = Some x → recs d !! r = Some x ∨ x = new_record) as Hl.
  { intros r x [[_ Hx]|[_ <-]]%lookup_snoc_Some; auto. }
  assert (∀ r j n, slot_is d' r j (Some n) → slot_is d r j (Some n)) as Hsl.
  { intros r j n (x & [Hx| ->]%Hl & Hs); [by exists x|by destruct j]. }
  assert (∀ u r j, in_prot (view u) r j → in_prot (<[t:=None]> view u) r j) as Hin.
  { intros u r j. by_thread t u; [|done]. destruct (view u) as [[]|]; done. }
  assert (hz_frame t d d') as Hfr.
  { split; [intros u Hu; simpl; by rewrite fn_insert_ne|]. intros u r j v Hu Ho (x & Hx & Hs). exists x. split; [|done]. by apply lookup_app_l_Some. }
  split; [|done]. split; try done.
  - intros u r. simpl. by_thread t u; [intros [= <-]; exists new_record; by rewrite lookup_app_r, Nat.sub_diag by lia|].
    intros E. destruct (H1 u r E) as (x & Hx & ?). exists x. split; [by apply lookup_app_l_Some|done].
  - intros u v r. simpl. destruct (decide (t = u)) as [<-|], (decide (t = v)) as [<-|]; rewrite ?fn_insert_eq, ?fn_insert_ne by done; eauto.
    + intros E1 E2. simplify_eq. apply Hlt in E2. lia.
    + intros E1 E2. simplify_eq. apply Hlt in E1. lia.
  - intros r x j [Hx| ->]%Hl; [eauto|done].
  - intros r j n Hs%Hsl Hpr. apply (H4 r j n Hs). intros u Hu. by apply (Hpr u), Hin.
  - intros r x a [Hx| ->]%Hl Ha; eauto. by apply not_elem_of_nil in Ha.
  - intros r x [Hx| ->]%Hl; eauto. constructor.
  - intros r r' x x' a Hne [Hx| ->]%Hl [Hx'| ->]%Hl Ha Ha'; eauto; by apply not_elem_of_nil in Ha || by apply not_elem_of_nil in Ha'.
  - intros u r a. by_thread t u; [done|]. intros Hu. destruct (H9 u r a Hu) as (A & B & C). split_and!; [done| |].
    + intros r' x [Hx| ->]%Hl; eauto. apply not_elem_of_nil.
    + intros v r'. by_thread t v; [done|]. apply C.
  - intros u q. by_thread t u; [done|]. intros Hu. specialize (H10 u q Hu).
    assert (∀ r i j held, scanned d view r i j held → scanned d' (<[t:=None]> view) r i j held) as Hscan.
    { intros r i j held Hs x m r2 j2 [Hx| ->]%Hl Hm1 Hm2 Hse Hs2%Hsl; [|by apply not_elem_of_nil in Hm1].
      destruct (Hs x m r2 j2 Hx Hm1 Hm2 Hse Hs2) as [w Hw]. exists w. by apply Hin. }
    destruct q; simpl in *; auto.
  - intros u q. by_thread t u; [done|]. intros Hu. by eapply thr_frame; [|done|by apply H11].
Qed.

(** The check of [protect] succeeds: the node is still reachable. *)
Lemma hz_checked r j n : view t = Some (ProtCheck r j n) → pub n → ¬ gone n → hz_ok pub gone d (<[t:=None]> view).
Proof.
  intros Hv Hp Hg. destruct H as [H1 H2 H3 H4 H5 H6 H7 H8 H9 H10 H11].
  pose proof (th_check _ _ _ (H11 t _ Hv) r j n eq_refl) as Hs.
  assert (∀ u r' j', (r' ≠ r ∨ j' ≠ j) → in_prot (view u) r' j' → in_prot (<[t:=None]> view u) r' j') as Hin.
  { intros u r' j' Hne. by_thread t u; [|done]. rewrite Hv. simpl. intros [-> ->]. by destruct Hne. }
  assert (∀ m, slot_is d r j (Some m) → m = n) as Hm.
  { intros m (x & Hx & E). destruct Hs as (x' & Hx' & E'). congruence. }
  split; try done.
  - intros r' j' m Hs' Hno. destruct (decide (r' = r ∧ j' = j)) as [[-> ->]|Hne]; [by rewrite (Hm m Hs')|].
    apply (H4 r' j' m Hs'). intros u Hu. apply (Hno u), Hin; [|done]. destruct (decide (r' = r)); [right|by left]. naive_solver.
  - intros u r' a. by_thread t u; [done|]. intros Hu. destruct (H9 u r' a Hu) as (A & B & C). split_and!; [done|done|].
    intros v r2. by_thread t v; [done|]. apply C.
  - intros u q. by_thread t u; [done|]. intros Hu. specialize (H10 u q Hu).
    assert (∀ r0 i j0 held, scanned d view r0 i j0 held → scanned d (<[t:=None]> view) r0 i j0 held) as Hscan.
    { intros r0 i j0 held Hsc x m r2 j2 Hx Hm1 Hm2 Hse Hs2. destruct (Hsc x m r2 j2 Hx Hm1 Hm2 Hse Hs2) as [w Hw].
      destruct (decide (r2 = r ∧ j2 = j)) as [[-> ->]|Hne].
      - rewrite (Hm m Hs2) in Hm1. by destruct Hg; eauto.
      - exists w. apply Hin; [|done]. destruct (decide (r2 = r)); [right|by left]. naive_solver. }
    destruct q; simpl in *; auto.
  - intros u q. by_thread t u; [done|]. apply H11.
Qed.

(** A node is put on the list of its record. *)
Lemma hz_retired r a x v' : view t = Some (Retire r a) → recs d !! r = Some x →
  v' = None ∨ v' = Some (ScanStart r None) →
  let d' := on_rec d r (set_retired (retired x ++ [a])) in
  hz_ok pub gone d' (<[t:=v']> view) ∧ hz_frame t d d'.
Proof.
  intros Hv Hx Hv' d'. destruct H as [H1 H2 H3 H4 H5 H6 H7 H8 H9 H10 H11].
  destruct (H9 t r a Hv) as (Hga & Hna & Hua). pose proof (th_rec _ _ _ (H11 t _ Hv) r eq_refl) as Ho.
  assert (∀ r' y', recs d' !! r' = Some y' → ∃ y, recs d !! r' = Some y ∧ active y' = active y ∧ (∀ j, slot j y' = slot j y) ∧
    (retired y' = retired y ∨ r' = r ∧ y = x ∧ retired y' = retired x ++ [a])) as Hal.
  { intros r' y'. simpl. destruct (decide (r' = r)) as [->|].
    - rewrite list_lookup_alter_eq, Hx. intros E. simplify_eq/=. exists x. split_and!; auto.
    - rewrite list_lookup_alter_ne by done. intros E. exists y'. split_and!; auto. }
  assert (∀ r' y, recs d !! r' = Some y → ∃ y', recs d' !! r' = Some y' ∧ active y' = active y ∧ ∀ j, slot j y' = slot j y) as Hal2.
  { intros r' y Hy. simpl. destruct (decide (r' = r)) as [->|]; [rewrite list_lookup_alter_eq, Hx|rewrite list_lookup_alter_ne by done; by exists y].
    simplify_eq. by eexists. }
  assert (∀ r' j v, slot_is d' r' j v → slot_is d r' j v) as Hsl.
  { intros r' j v (y' & Hy & Hs). destruct (Hal r' y' Hy) as (y & Hy0 & _ & E & _). exists y. by rewrite <-E. }
  assert (∀ u r' j, in_prot (view u) r' j → in_prot (<[t:=v']> view u) r' j) as Hin by (intros u r' j; by_thread t u; [by rewrite Hv|done]).
  assert (hz_frame t d d') as Hfr.
  { split; [done|]. intros u r' j v _ _ (y & Hy & Hs). destruct (Hal2 r' y Hy) as (y' & ? & _ & E). exists y'. by rewrite E. }
  assert (∀ r' y' b, recs d' !! r' = Some y' → b ∈ retired y' → (r' = r ∧ b = a) ∨ ∃ y, recs d !! r' = Some y ∧ b ∈ retired y) as Hre.
  { intros r' y' b Hy Hb. destruct (Hal r' y' Hy) as (y & Hy0 & _ & _ & [E|(-> & -> & E)]); rewrite E in Hb; [right; eauto|].
    apply elem_of_app in Hb as [Hb|Hb%list_elem_of_singleton]; [right; eauto|by left]. }
  split; [|done]. split; try done.
  - intros u r' Hu. destruct (H1 u r' Hu) as (y & Hy & Ha). destruct (Hal2 r' y Hy) as (y' & ? & E & _). exists y'. by rewrite E.
  - intros r' y' j Hy Ha. destruct (Hal r' y' Hy) as (y & Hy0 & E1 & E2 & _). rewrite E2. eapply H3; [done|congruence].
  - intros r' j n Hs%Hsl Hno. apply (H4 r' j n Hs). intros u Hu. by apply (Hno u), Hin.
  - intros r' y' b Hy Hb. destruct (Hre r' y' b Hy Hb) as [[_ ->]|(y & Hy0 & Hb0)]; eauto.
  - intros r' y' Hy. destruct (Hal r' y' Hy) as (y & Hy0 & _ & _ & [E|(-> & -> & E)]); rewrite E; [eauto|].
    apply NoDup_app. split_and!; [eauto| |apply NoDup_singleton]. intros b Hb ->%list_elem_of_singleton. by eapply Hna.
  - intros r1 r2 y1 y2 b Hne Hy1 Hy2 Hb1 Hb2.
    destruct (Hre r1 y1 b Hy1 Hb1) as [[E1 E1']|(z1 & Hz1 & Hc1)], (Hre r2 y2 b Hy2 Hb2) as [[E2 E2']|(z2 & Hz2 & Hc2)];
      subst; [done|by eapply Hna|by eapply Hna|by eapply H8].
  - intros u r' b. by_thread t u; [by destruct Hv' as [->| ->]|]. intros Hu. destruct (H9 u r' b Hu) as (A & B & C). split_and!; [done| |].
    + intros r2 y2 Hy2 Hb. destruct (Hre r2 y2 b Hy2 Hb) as [[-> ->]|(y & Hy & Hb')]; [|by eapply B]. apply Hua in Hu. congruence.
    + intros v r2. by_thread t v; [by destruct Hv' as [->| ->]|]. apply C.
  - intros u q. by_thread t u; [by destruct Hv' as [->| ->]; intros E; simplify_eq|]. intros Hu. specialize (H10 u q Hu).
    pose proof (H11 u q Hu) as Hthu.
    assert (∀ r1 i j held, rec_of q = Some r1 → scanned d view r1 i j held → scanned d' (<[t:=v']> view) r1 i j held) as Hscan.
    { intros r1 i j held Hr1 Hsc y' m r2 j2 Hy Hm1 Hm2 Hse Hs2%Hsl. destruct (Hre r1 y' m Hy Hm1) as [[-> ->]|(y & Hy0 & Hm1')].
      - apply (th_rec _ _ _ Hthu) in Hr1. by destruct (H2 _ _ _ Hr1 Ho).
      - destruct (Hsc y m r2 j2 Hy0 Hm1' Hm2 Hse Hs2) as [w Hw]. exists w. by apply Hin. }
    destruct q; simpl in *; auto.
  - intros u q. by_thread t u.
    + destruct Hv' as [->| ->]; intros E; simplify_eq/=. split; simpl; intros; simplify_eq; done.
    + intros Hu. by eapply thr_frame; [|done|by apply H11].
Qed.

(** What no slot held is freed. *)
Lemma hz_freed r held e x v' : view t = Some (ScanFree r held e) → recs d !! r = Some x →
  (∀ p, v' = Some p → ∃ me, e = Some me ∧ p = ExitActive r me) →
  let d' := on_rec d r (set_retired (filter (λ n, n ∈ held) (retired x))) in
  let freed := filter (λ n, n ∉ held) (retired x) in
  hz_ok (λ a, pub a ∧ a ∉ freed) (λ a, gone a ∧ a ∉ freed) d' (<[t:=v']> view) ∧ hz_frame t d d' ∧ NoDup freed ∧
  ∀ a, a ∈ freed → gone a ∧ ∀ u r' j, own d u = Some r' → ¬ in_prot (view u) r' j → ¬ slot_is d r' j (Some a).
Proof.
  intros Hv Hx Hv' d' freed. pose proof H as [H1 H2 H3 H4 H5 H6 H7 H8 H9 H10 H11].
  pose proof (H10 t _ Hv) as Hsc. pose proof (H11 t _ Hv) as Htt. pose proof (th_rec _ _ _ Htt r eq_refl) as Ho.
  assert (∀ a, a ∈ freed → a ∈ retired x ∧ a ∉ held) as Hf by (intros a; unfold freed; rewrite list_elem_of_filter; tauto).
  assert (∀ r' y', recs d' !! r' = Some y' → ∃ y, recs d !! r' = Some y ∧ active y' = active y ∧ (∀ j, slot j y' = slot j y) ∧
    (r' ≠ r ∧ retired y' = retired y ∨ r' = r ∧ y = x ∧ retired y' = filter (λ n, n ∈ held) (retired x))) as Hal.
  { intros r' y'. simpl. destruct (decide (r' = r)) as [->|].
    - rewrite list_lookup_alter_eq, Hx. intros E. simplify_eq/=. exists x. split_and!; auto.
    - rewrite list_lookup_alter_ne by done. intros E. exists y'. split_and!; auto. }
  assert (∀ r' y, recs d !! r' = Some y → ∃ y', recs d' !! r' = Some y' ∧ active y' = active y ∧ ∀ j, slot j y' = slot j y) as Hal2.
  { intros r' y Hy. simpl. destruct (decide (r' = r)) as [->|]; [rewrite list_lookup_alter_eq, Hx|rewrite list_lookup_alter_ne by done; by exists y].
    simplify_eq. by eexists. }
  assert (∀ r' j v, slot_is d' r' j v ↔ slot_is d r' j v) as Hsl.
  { intros r' j v. split; intros (y & Hy & Hs).
    - destruct (Hal r' y Hy) as (z & ? & _ & E & _). exists z. by rewrite <-E.
    - destruct (Hal2 r' y Hy) as (z & ? & _ & E). exists z. by rewrite E. }
  assert (∀ u r' j, in_prot (view u) r' j ↔ in_prot (<[t:=v']> view u) r' j) as Hin.
  { intros u r' j. by_thread t u; [|done]. rewrite Hv. simpl. destruct v' as [p|]; [|done]. by destruct (Hv' p eq_refl) as (me & _ & ->). }
  assert (hz_frame t d d') as Hfr by (split; [done|]; intros u r' j v _ _; apply Hsl).
  assert (∀ r' y' b, recs d' !! r' = Some y' → b ∈ retired y' → (b ∉ freed) ∧ ∃ y, recs d !! r' = Some y ∧ b ∈ retired y) as Hre.
  { intros r' y' b Hy Hb. destruct (Hal r' y' Hy) as (y & Hy0 & _ & _ & [[Hne E]|(-> & -> & E)]); rewrite E in Hb.
    - split; [|eauto]. intros [Hb' _]%Hf. by eapply (H8 r' r).
    - apply list_elem_of_filter in Hb as [Hb1 Hb2]. split; [by intros [_ ?]%Hf|eauto]. }
  assert (∀ a r' j, a ∈ freed → slot_is d r' j (Some a) → ∃ u, in_prot (view u) r' j) as Hheld.
  { intros a r' j [Ha Hb]%Hf Hs. eapply Hsc; [done|done|done|left; lia|done]. }
  split; [|split_and!; [done|apply NoDup_filter; eauto|]].
  - split; try done.
    + intros u r' Hu. destruct (H1 u r' Hu) as (y & Hy & Ha). destruct (Hal2 r' y Hy) as (y' & ? & E & _). exists y'. by rewrite E.
    + intros r' y' j Hy Ha. destruct (Hal r' y' Hy) as (y & Hy0 & E1 & E2 & _). rewrite E2. eapply H3; [done|congruence].
    + intros r' j n Hs%Hsl Hno. assert (∀ u, ¬ in_prot (view u) r' j) as Hno' by (intros u Hu; by apply (Hno u), Hin).
      split; [by eapply H4|]. intros Hn. destruct (Hheld n r' j Hn Hs) as [u Hu]. by apply (Hno' u).
    + intros r' y' b Hy Hb. destruct (Hre r' y' b Hy Hb) as (? & y & ? & ?). split; eauto.
    + intros a [? ?]. split; eauto.
    + intros r' y' Hy. destruct (Hal r' y' Hy) as (y & Hy0 & _ & _ & [[_ E]|(-> & -> & E)]); rewrite E; [eauto|]. apply NoDup_filter. eauto.
    + intros r1 r2 y1 y2 b Hne Hy1 Hy2 Hb1 Hb2. destruct (Hre r1 y1 b Hy1 Hb1) as (_ & z1 & ? & ?), (Hre r2 y2 b Hy2 Hb2) as (_ & z2 & ? & ?). by eapply H8.
    + intros u r' b. by_thread t u; [intros E; by destruct (Hv' _ E) as (? & _ & ?)|]. intros Hu. destruct (H9 u r' b Hu) as (A & B & C). split; [|split].
      * split; [done|]. intros [Hb _]%Hf. by eapply B.
      * intros r2 y2 Hy2 Hb. destruct (Hre r2 y2 b Hy2 Hb) as (_ & y & ? & ?). by eapply B.
      * intros v r2. by_thread t v; [intros E; by destruct (Hv' _ E) as (? & _ & ?)|]. apply C.
    + intros u q. by_thread t u; [intros E; by destruct (Hv' _ E) as (? & _ & ->)|]. intros Hu. specialize (H10 u q Hu).
      assert (∀ r1 i j held, scanned d view r1 i j held → scanned d' (<[t:=v']> view) r1 i j held) as Hscan.
      { intros r1 i j h1 Hs1 y' m r2 j2 Hy Hm1 Hm2 Hse Hs2%Hsl. destruct (Hre r1 y' m Hy Hm1) as (_ & y & Hy0 & Hm1').
        destruct (Hs1 y m r2 j2 Hy0 Hm1' Hm2 Hse Hs2) as [w Hw]. exists w. by apply Hin. }
      destruct q; simpl in *; auto.
    + intros u q. by_thread t u.
      * intros E. destruct (Hv' _ E) as (me & -> & ->). split; simpl; intros; simplify_eq; try done; [by apply (th_me _ _ _ Htt)|].
        apply Hsl. by apply (th_exit _ _ _ Htt).
      * intros Hu. by eapply thr_frame; [|done|by apply H11].
  - intros a Ha. split; [destruct (Hf a Ha); eauto|]. intros u r' j Hu Hno Hs. destruct (Hheld a r' j Ha Hs) as [w Hw].
    destruct (view w) as [q|] eqn:Eq; [|done]. pose proof (th_rec _ _ _ (H11 w q Eq) r' (in_prot_rec q r' j Hw)) as Hw'.
    rewrite <-(H2 _ _ _ Hw' Hu), Eq in Hno. done.
Qed.
End steps.

Definition out_ok (src : bool → nat) (t : nat) (p : hpc) (d' : domain) (o : hpc + hout) : Prop :=
  match o with
  | inr (Got r) | inr (Retired r) => own d' t = Some r
  | inr (Protected r n) => own d' t = Some r ∧ ∃ j, p = ProtCheck r j n ∧ slot_is d' r j (Some n) ∧ n = src j
  | _ => True
  end.

(** What one step of a hazard operation promises the queue: the invariant,
    the other threads' slots untouched, and nothing freed that a validated
    slot holds. *)
Definition step_ok pub gone d view t (src : bool → nat) p d' (freed : list nat) o : Prop :=
  hz_ok (λ a, pub a ∧ a ∉ freed) (λ a, gone a ∧ a ∉ freed) d' (<[t:=view_of o]> view) ∧ hz_frame t d d' ∧ NoDup freed ∧
  (∀ a, a ∈ freed → gone a ∧ ∀ u r j, own d u = Some r → ¬ in_prot (view u) r j → ¬ slot_is d r j (Some a)) ∧
  out_ok src t p d' o.

Section hz_step.
Context (pub gone : nat → Prop) (d : domain) (view : nat → option hpc) (t : nat) (src : bool → nat).
Context (H : hz_ok pub gone d view).

Lemma step_ok_nil p d' o : hz_ok pub gone d' (<[t:=view_of o]> view) ∧ hz_frame t d d' → out_ok src t p d' o →
  step_ok pub gone d view t src p d' [] o.
Proof.
  intros [H1 H2] H3. split_and!; try done; [|constructor|by intros a ?%not_elem_of_nil].
  eapply hz_mono; [done|..]; simpl; intros a; [intros ?; split; [done|apply not_elem_of_nil]..|].
  intros [? ?]. split; [by apply (hz_gone _ _ _ _ H1)|done].
Qed.

(** Only the program counter moves. *)
Lemma step_ok_view p o : view t = Some p → (∀ r j, in_prot (Some p) r j → in_prot (view_of o) r j) → (∀ r a, view_of o ≠ Some (Retire r a)) →
  (∀ q, view_of o = Some q → scan_ok d (<[t:=view_of o]> view) q ∧ thr_ok d t q) → out_ok src t p d o →
  step_ok pub gone d view t src p d [] o.
Proof.
  intros Hv Hin Hr Hq Ho. apply step_ok_nil; [|done]. split; [|apply frame_refl]. apply hz_view; rewrite ?Hv; done.
Qed.

End hz_step.

Ltac thread := split; simpl; intros; simplify_eq/=; try done; eauto.

Lemma hz_acquire pub gone d view t src p sp d' freed o : hz_ok pub gone d view → view t = Some p → acquire_step sp d p = Some (d', freed, o) → step_ok pub gone d view t src p d' freed o.
Proof.
  intros H Hv Hst. pose proof (hz_thread _ _ _ _ H t p Hv) as Ht.
  assert (∀ q, acquiring q = true → me_of q = me_of p → acquiring p = true ∨ own d t = None → me_of q ≠ None → step_ok pub gone d view t src p d [] (inl q)) as Hq.
  { intros q Hq Hme Hp Hn. apply step_ok_view; try done; simpl.
    - by destruct p.
    - intros r a [= ->]. done.
    - intros q' [= <-]. split; [by destruct q|]. split; try by destruct q.
      + intros me E. apply (th_me _ _ _ Ht). congruence.
      + intros _. destruct Hp as [Hp|]; [by apply (th_acq _ _ _ Ht)|done]. }
  destruct p; try done; simpl in Hst; unfold goes, answers in Hst.
  - assert (me = t) as -> by by apply (th_me _ _ _ Ht). destruct (own d t) as [r|] eqn:Eo; simplify_eq; [|by apply Hq; auto].
    by apply step_ok_view.
  - simplify_eq. by apply Hq; auto.
  - destruct i as [|i]; simplify_eq; [by apply Hq; auto|]. destruct (recs d !! i) as [x|]; simplify_eq. destruct (active x); by apply Hq; auto.
  - destruct (recs d !! i) as [x|] eqn:Ex; [|done]. destruct (active x) eqn:Eac; simplify_eq; [by apply Hq; auto|].
    assert (me = t) as -> by by apply (th_me _ _ _ Ht). pose proof (th_acq _ _ _ Ht eq_refl) as Hno.
    assert (∀ u, own d u ≠ Some i) as Hfree by (intros u E; destruct (hz_own _ _ _ _ H u i E) as (y & Hy & Ey); congruence).
    apply step_ok_nil; [|simpl; by rewrite fn_insert_eq].
    apply (hz_alter pub gone d view t H i x (set_active true) (<[t:=Some i]> (own d)) None); try done.
    + intros u r'. by_thread t u; [intros [= <-]; by rewrite decide_True|]. intros E. rewrite decide_False; [done|]. intros ->. by apply Hfree in E.
    + intros u v. destruct (decide (u = t)) as [->|], (decide (v = t)) as [->|]; rewrite ?fn_insert_eq, ?fn_insert_ne by done; try done; intros E1 E2; by apply Hfree in E1 || by apply Hfree in E2.
    + intros j. by left.
    + by rewrite Hv.
    + intros u Hu. rewrite fn_insert_ne by done. done.
  - simplify_eq. by apply Hq; auto.
  - destruct (negb sp && (length (recs d) =? n)) eqn:E; simplify_eq; [|by apply Hq; auto].
    apply andb_prop in E as [_ <-%Nat.eqb_eq]. assert (me = t) as -> by by apply (th_me _ _ _ Ht).
    apply step_ok_nil; [|simpl; by rewrite fn_insert_eq]. apply hz_snoc; [done|by apply (th_acq _ _ _ Ht)|by rewrite Hv].
Qed.

Lemma hz_protect pub gone d view t src p d' freed o :
  hz_ok pub gone d view → (∀ j, pub (src j) ∧ ¬ gone (src j)) → view t = Some p → protect_step src d p = Some (d', freed, o) → step_ok pub gone d view t src p d' freed o.
Proof.
  intros H Hsrc Hv Hst. pose proof (hz_thread _ _ _ _ H t p Hv) as Ht.
  destruct p; try done; simpl in Hst; unfold goes, answers in Hst; pose proof (th_rec _ _ _ Ht r eq_refl) as Ho;
    destruct (own_rec H t r Ho) as (x & Hx & Hac).
  - simplify_eq. apply step_ok_view; try done. intros q [= <-]. split; [done|]. thread.
  - simplify_eq. apply step_ok_nil; [|done]. apply (hz_own_slot pub gone d view t H r x); try done.
    + by destruct j.
    + by destruct j.
    + intros j'. rewrite slot_set. case_decide; [subst; by right; right|by left].
    + by rewrite Hv.
    + intros q [= <-]. split; simpl; intros; simplify_eq; try done. eexists. split; [simpl; by rewrite list_lookup_alter_eq, Hx|]. rewrite slot_set. by rewrite decide_True.
  - case_decide as E; simplify_eq.
    + destruct (Hsrc j) as [Hp Hg]. apply step_ok_nil; [split; [by eapply hz_checked|apply frame_refl]|]. simpl. split; [done|].
      exists j. split_and!; [done| |done]. by apply (th_check _ _ _ Ht).
    + apply step_ok_view; try done. intros q [= <-]. split; [done|]. thread.
  - simplify_eq. apply step_ok_nil; [|done]. apply (hz_own_slot pub gone d view t H r x); try done.
    + by destruct j.
    + by destruct j.
    + intros j'. rewrite slot_set. case_decide; [by right; left|by left].
    + by rewrite Hv.
Qed.

(** The points of one scan. *)
Definition scan_of (p : hpc) : option (nat * option nat) :=
  match p with ScanStart r e | ScanRead r _ _ _ e | ScanFree r _ e => Some (r, e) | _ => None end.
Lemma thr_scan d t p q : thr_ok d t p → scan_of q = scan_of p → is_Some (scan_of p) → thr_ok d t q.
Proof.
  intros [H1 H2 H3 H4 H5 H6] E [[r e] Ep]. destruct p, q; simplify_eq/=; (split; simpl; [..|intros; eapply H6; eauto]); try done; naive_solver.
Qed.

Lemma hz_scanning pub gone d view t src p d' freed o :
  hz_ok pub gone d view → view t = Some p → scan_step d p = Some (d', freed, o) → step_ok pub gone d view t src p d' freed o.
Proof.
  intros H Hv Hst. pose proof (hz_thread _ _ _ _ H t p Hv) as Ht. pose proof (hz_scan _ _ _ _ H t p Hv) as Hs.
  destruct p; try done; simpl in Hst; unfold goes, answers in Hst; pose proof (th_rec _ _ _ Ht r eq_refl) as Ho;
    destruct (own_rec H t r Ho) as (x & Hx & Hac).
  - rewrite Hx in Hst. match type of Hst with (if ?b then _ else _) = _ => destruct b end; simplify_eq; (apply step_ok_nil; [|done]);
      (apply (hz_retired pub gone d view t H r a x); [done|done|simpl; auto]).
  - injection Hst as <- <- <-. apply step_ok_view; try done. simpl. intros q [= <-]. split; [|by eapply thr_scan].
    intros y n r' j' _ _ _ [Hle|(? & ? & ?)] (y' & Hy' & _); [|done]. apply lookup_lt_Some in Hy'. lia.
  - destruct i as [|i].
    + injection Hst as <- <- <-. apply step_ok_view; try done. simpl. intros q [= <-]. split; [|by eapply thr_scan]. intros y n r' j' A B C D E. simpl in Hs.
      destruct (Hs y n r' j' A B C ltac:(by left; lia) E) as [w Hw]. exists w. by_thread t w; [by rewrite Hv in Hw|done].
    + destruct (recs d !! i) as [z|] eqn:Ez; [|done]. injection Hst as <- <- <-.
      assert (∀ q, q = (if j then ScanRead r i false (match slot j z with Some n => n :: held | None => held end) e
                        else ScanRead r (S i) true (match slot j z with Some n => n :: held | None => held end) e) →
              scan_ok d (<[t:=Some q]> view) q) as Hq.
      { intros q Eq. assert (∀ y n r' j', recs d !! r = Some y → n ∈ retired y →
          n ∉ (match slot j z with Some n => n :: held | None => held end) → seen (S i) j r' j' ∨ r' = i ∧ j' = j →
          slot_is d r' j' (Some n) → ∃ u, in_prot (<[t:=Some q]> view u) r' j') as Hall.
        { intros y n r' j' A B C D E. destruct D as [D|[-> ->]].
          - destruct (Hs y n r' j' A B) as [w Hw]; [intros Hn; apply C; destruct (slot j z); [by right|done]|done|done|].
            exists w. by_thread t w; [by rewrite Hv in Hw|done].
          - destruct E as (z' & Hz' & Es). rewrite Ez in Hz'. injection Hz' as <-. rewrite Es in C. destruct C. by left. }
        subst q. unfold seen in Hall. destruct j; simpl; intros y n r' j' A B C D E; apply (Hall y n r' j' A B C); try done.
        - destruct D as [D|(? & ? & ?)]; [|done]. destruct (decide (S i ≤ r')); [by left; left|]. assert (r' = i) as -> by lia.
          destruct j'; [by right|by left; right].
        - destruct D as [D|(_ & D & ->)]; [by left; left|]. right. split; [lia|done]. }
      apply step_ok_view; [done|done|done|by destruct j| |done]. simpl. intros q [= <-]. split; [by apply Hq|].
      by destruct j; eapply thr_scan.
  - rewrite Hx in Hst. injection Hst as <- <- <-. split.
    + eapply (hz_freed pub gone d view t H r held e x); [done|done|]. destruct e; simpl; intros p Ep; simplify_eq; eauto.
    + destruct (hz_freed pub gone d view t H r held e x None Hv Hx ltac:(done)) as (_ & A & B & C). split_and!; try done. by destruct e.
Qed.

Lemma hz_exit pub gone d view t src p d' freed o :
  hz_ok pub gone d view → view t = Some p → exit_step d p = Some (d', freed, o) → step_ok pub gone d view t src p d' freed o.
Proof.
  intros H Hv Hst. pose proof (hz_thread _ _ _ _ H t p Hv) as Ht.
  destruct p; try done; simpl in Hst; unfold goes, answers in Hst; pose proof (th_me _ _ _ Ht me eq_refl) as ->.
  - destruct (own d t) as [r|] eqn:Eo; simplify_eq; apply step_ok_view; try done. simpl. intros q [= <-]. split; [done|]. thread.
  - pose proof (th_rec _ _ _ Ht r eq_refl) as Ho. destruct (own_rec H t r Ho) as (x & Hx & Hac). simplify_eq.
    apply step_ok_nil; [|done]. apply (hz_own_slot pub gone d view t H r x); try done.
    + intros [|]; [by left|by right; left].
    + by rewrite Hv.
    + simpl. intros q [= <-]. split; simpl; intros; simplify_eq; try done. eexists. simpl. by rewrite list_lookup_alter_eq, Hx.
  - pose proof (th_rec _ _ _ Ht r eq_refl) as Ho. destruct (own_rec H t r Ho) as (x & Hx & Hac).
    destruct (th_clear _ _ _ Ht r t eq_refl) as (x' & Hx' & Hs). rewrite Hx in Hx'. simplify_eq.
    apply step_ok_nil; [|done]. apply (hz_own_slot pub gone d view t H r x'); try done.
    + intros [|]; [by right; left|by left].
    + by rewrite Hv.
    + simpl. intros q [= <-]. split; simpl; intros; simplify_eq; try done. eexists. simpl. rewrite list_lookup_alter_eq, Hx. split; [done|]. by destruct j.
  - pose proof (th_rec _ _ _ Ht r eq_refl) as Ho. destruct (own_rec H t r Ho) as (x & Hx & Hac). simplify_eq.
    assert (∀ j, slot j x = None) as Hn.
    { intros j. destruct (th_exit _ _ _ Ht r j eq_refl eq_refl) as (x' & Hx' & E). congruence. }
    assert (∀ u, u ≠ t → own d u ≠ Some r) as Hoth by (intros u Hu E; by destruct (other_rec H t u r r Ho E Hu)).
    apply step_ok_nil; [|done]. apply (hz_alter pub gone d view t H r x (set_active false) (<[t:=None]> (own d)) None); try done.
    + intros u r'. by_thread t u; [done|]. intros E. rewrite decide_False; [done|]. intros ->. by apply (Hoth u).
    + intros u v. by_thread t u; [done|]. intros E. by apply Hoth in E.
    + intros j _. apply Hn.
    + intros j. by left.
    + by rewrite Hv.
    + intros u Hu. rewrite fn_insert_ne by done. auto.
Qed.

(** What the hazard pointers promise a queue. *)
Lemma hz_step pub gone d view t src p sp d' freed o :
  hz_ok pub gone d view → (∀ j, pub (src j) ∧ ¬ gone (src j)) → view t = Some p →
  hstep sp src d p = Some (d', freed, o) → step_ok pub gone d view t src p d' freed o.
Proof.
  intros H Hsrc Hv Hst. destruct p; unfold hstep in Hst;
    first [by apply (hz_acquire pub gone d view t src _ sp)|by apply hz_protect|by apply hz_scanning|by apply hz_exit].
Qed.
End Hazard.
