(* ===== verification/Segment.v ===== *)
(** * The segment queue, for any number of producers and consumers
    (src/runtime/segment_queue.hpp)

    A step machine for [wtc::rt::segment_queue] in its multi-consumer form:
    pushes of one element or a batch, [try_pop], and a thread's exit, over
    the hazard pointers of Hazard.v, one access to shared memory per step.
    Memory is a map from addresses to segments; an allocation takes any
    address not in use, so a freed segment's address may come back.  [bad]
    records an access to freed memory, an element constructed over another
    or taken from an empty cell, and the deletion of a segment that still
    holds an element.

    No step reads the history kept beside the state: a segment's number in
    the order of the list, a program counter's copy of it, what a pop saw of
    [next] while it read [enq], and [fates], which records of a cell the
    first decision about it: filled, or given up. *)

From S2P Require Import Prelude Lts Contract Machine Hazard.
From stdpp Require Import gmap.

Module Segment.
Import Hazard.
Local Open Scope Z_scope.
Local Open Scope wtc_scope.

Definition kPatience : Z := 64.
Definition kLinkSpins : Z := 64.

Inductive cstate := kEmpty | kFull | kSkipped | kTaken.
#[export] Instance cstate_eq_dec : EqDecision cstate.
Proof. solve_decision. Defined.

Section queue.
Context {T : Type}.

Record segment := Seg {
  deq : Z; enq : Z; next : option nat;
  state : list cstate; cells : list (option T);
  num : Z
}.

Record queue := Queue {
  heap : nat → option segment;
  head_ : nat; tail_ : nat;
  dom : domain;
  bad : bool;
  fates : gmap (Z * Z) bool
}.

(** [me]: the calling thread, which its thread_local record is found by. *)
Inductive op : Type := PushRun (me : nat) (vs : list T) | Pop (me : nat) | Exit (me : nat).
Inductive res : Type := RUnit | RPop (o : option T).

(** [push(s)] is a run of one. *)
Definition Push (me : nat) (v : T) : op := PushRun me [v].

(** Whether a weak compare-and-swap fails for no reason, and the address an
    allocation returns. *)
Record choice := Choice { spurious : bool; addr : nat }.

(** What to go on with when a hazard operation answers. *)
Inductive cont : Type := KPush (vs : list T) | KPop | KDone (r : res) | KExit.

(** [vs]: the elements of the run not pushed yet, [first[k..n)].  [n]: the
    number of the segment (history). *)
Inductive pc : Type :=
| PcIdle
| PcBad
| PcDone (r : res)
| Hz (p : hpc) (k : cont)
(* push_run *)
| PuFaa (r t : nat) (vs : list T)
| PuWrite (r t : nat) (n j stop end_ : Z) (vs : list T)
| PuCas (r t : nat) (n j stop end_ : Z) (vs : list T)
| PuBack (r t : nat) (n j stop end_ : Z) (vs : list T)
| PuGive (r t : nat) (n q stop end_ : Z) (vs : list T)
| PuNext (r t : nat) (spin : Z) (vs : list T)
| PuNew (r t : nat) (vs : list T)
| PuLink (r t a : nat) (m : nat) (vs : list T)
| PuTail (r t nx : nat) (vs : list T)
(* pop_many *)
| PoDeq (r h : nat)
| PoEnq (r h : nat) (d : Z)
| PoNext0 (r h : nat) (b : bool)      (* [b]: history, [next] was null when [enq] was read *)
| PoFaa (r h : nat)
| PoNext1 (r h : nat)
| PoState (r h : nat) (n i : Z)
| PoSpin (r h : nat) (n i spin : Z)
| PoCheck (r h : nat) (n i : Z)
| PoWait (r h : nat) (n i : Z)
| PoSkip (r h : nat) (n i : Z)
| PoTake (r h : nat) (n i : Z)
(* advance_head *)
| PoSwTail (r h nx : nat)
| PoSwHead (r h nx : nat).

(** Field updates. *)
Definition set_heap (s : queue) (m : nat → option segment) : queue := Queue m (head_ s) (tail_ s) (dom s) (bad s) (fates s).
Definition set_head (s : queue) (h : nat) : queue := Queue (heap s) h (tail_ s) (dom s) (bad s) (fates s).
Definition set_tail (s : queue) (t : nat) : queue := Queue (heap s) (head_ s) t (dom s) (bad s) (fates s).
Definition set_dom (s : queue) (d : domain) : queue := Queue (heap s) (head_ s) (tail_ s) d (bad s) (fates s).
Definition set_bad (s : queue) : queue := Queue (heap s) (head_ s) (tail_ s) (dom s) true (fates s).
Definition set_fates (s : queue) (f : gmap (Z * Z) bool) : queue := Queue (heap s) (head_ s) (tail_ s) (dom s) (bad s) f.

Definition set_deq (d : Z) (g : segment) : segment := Seg d (enq g) (next g) (state g) (cells g) (num g).
Definition set_enq (e : Z) (g : segment) : segment := Seg (deq g) e (next g) (state g) (cells g) (num g).
Definition set_next (a : nat) (g : segment) : segment := Seg (deq g) (enq g) (Some a) (state g) (cells g) (num g).
Definition set_state (i : Z) (x : cstate) (g : segment) : segment :=
  Seg (deq g) (enq g) (next g) (<[Z.to_nat i:=x]> (state g)) (cells g) (num g).
Definition set_cell (i : Z) (x : option T) (g : segment) : segment :=
  Seg (deq g) (enq g) (next g) (state g) (<[Z.to_nat i:=x]> (cells g)) (num g).

(** The segment at an address: reading freed memory is recorded. *)
Definition at_seg (s : queue) (a : nat) (k : segment → option (queue * pc)) : option (queue * pc) :=
  match heap s a with Some g => k g | None => Some (set_bad s, PcBad) end.
Definition put_seg (s : queue) (a : nat) (g : segment) : queue := set_heap s (<[a:=Some g]> (heap s)).
Definition state_at (g : segment) (i : Z) : cstate := default kEmpty (state g !! Z.to_nat i).

(** The first decision about a cell stands. *)
Definition decide_cell (c : Z * Z) (b : bool) (f : gmap (Z * Z) bool) : gmap (Z * Z) bool :=
  match f !! c with Some _ => f | None => <[c:=b]> f end.
Definition forgo (n from to : Z) (f : gmap (Z * Z) bool) : gmap (Z * Z) bool :=
  foldr (λ i, decide_cell (n, i) false) f (seqZ from (to - from)).

Section ops.
Context (kSegment : Z).

(** [segment()], and the fresh segment of a push, with [vs] in it. *)
Definition new_segment (n : Z) (vs : list T) : segment :=
  Seg 0 (Z.of_nat (length vs)) None
    (replicate (length vs) kFull ++ replicate (Z.to_nat kSegment - length vs) kEmpty)
    ((Some <$> vs) ++ replicate (Z.to_nat kSegment - length vs) None) n.

Definition segment_queue : queue :=
  Queue (λ a, if decide (a = 0%nat) then Some (new_segment 0 []) else None) 0 0 domain0 false ∅.

(** The heads of the two loops. *)
Definition push_loop (r : nat) (vs : list T) : pc :=
  match vs with [] => Hz (Clear r kPushSlot) (KDone RUnit) | _ => Hz (ProtLoad r kPushSlot) (KPush vs) end.
Definition pop_loop (r : nat) : pc := Hz (ProtLoad r kPopSlot) KPop.
(** [consume] clears its slot before it returns. *)
Definition pop_done (r : nat) (x : option T) : pc := Hz (Clear r kPopSlot) (KDone (RPop x)).

Definition enter (o : op) : pc :=
  match o with
  | PushRun me vs => Hz (Mine me) (KPush vs)
  | Pop me => Hz (Mine me) KPop
  | Exit me => Hz (ExitOwn me) KExit
  end.

(** ** push_run *)

(** After the cells of a reservation: done, again, or on to the next
    segment. *)
Definition after_run (r t : nat) (end_ : Z) (vs : list T) : pc :=
  match vs with
  | [] => push_loop r []
  | _ => if end_ <=? kSegment then push_loop r vs else PuNext r t 0 vs
  end.

Definition push_step (c : choice) (s : queue) (p : pc) : option (queue * pc) :=
  match p with
  | PuFaa r t vs =>
      at_seg s t (λ g,
        let want := Z.of_nat (length vs) in
        let i := enq g in
        let end_ := i ⊕₆₄ want in
        let stop := if end_ <? kSegment then end_ else kSegment in
        Some (put_seg s t (set_enq (i ⊕₆₄ want) g),
              if i <? kSegment then if i <? stop then PuWrite r t (num g) i stop end_ vs else after_run r t end_ vs
              else PuNext r t 0 vs))
  | PuWrite r t n j stop end_ vs =>
      at_seg s t (λ g,
        match vs, cells g !! Z.to_nat j with
        | v :: _, Some None => Some (put_seg s t (set_cell j (Some v) g), PuCas r t n j stop end_ vs)
        | _, _ => Some (set_bad s, PcBad)
        end)
  | PuCas r t n j stop end_ vs =>
      at_seg s t (λ g,
        if decide (state_at g j = kEmpty)
        then
          let vs' := tail vs in
          Some (set_fates (put_seg s t (set_state j kFull g)) (decide_cell (n, j) true (fates s)),
                if j + 1 <? stop then PuWrite r t n (j + 1) stop end_ vs' else after_run r t end_ vs')
        else Some (set_fates s (forgo n j stop (fates s)), PuBack r t n j stop end_ vs))
  | PuBack r t n j stop end_ vs =>
      at_seg s t (λ g,
        match cells g !! Z.to_nat j with
        | Some (Some _) =>
            Some (put_seg s t (set_cell j None g),
                  if j + 1 <? stop then PuGive r t n (j + 1) stop end_ vs else after_run r t end_ vs)
        | _ => Some (set_bad s, PcBad)
        end)
  | PuGive r t n q stop end_ vs =>
      at_seg s t (λ g,
        Some (if decide (state_at g q = kEmpty) then put_seg s t (set_state q kSkipped g) else s,
              if q + 1 <? stop then PuGive r t n (q + 1) stop end_ vs else after_run r t end_ vs))
  | PuNext r t spin vs =>
      at_seg s t (λ g,
        Some (s, match next g with
                 | Some nx => PuTail r t nx vs
                 | None => if spin <? kLinkSpins then PuNext r t (spin + 1) vs else PuNew r t vs
                 end))
  | PuNew r t vs =>
      match heap s (addr c), heap s t with
      | None, Some g =>
          let m := Nat.min (Z.to_nat kSegment) (length vs) in
          Some (put_seg s (addr c) (new_segment (num g + 1) (take m vs)), PuLink r t (addr c) m vs)
      | _, _ => None
      end
  | PuLink r t a m vs =>
      at_seg s t (λ g,
        match next g with
        | None => Some (put_seg s t (set_next a g), PuTail r t a (drop m vs))
        | Some nx => Some (set_heap s (<[a:=None]> (heap s)), PuTail r t nx vs)
        end)
  | PuTail r t nx vs => Some (if decide (tail_ s = t) then set_tail s nx else s, push_loop r vs)
  | _ => None
  end.

(** ** pop_many *)

(** The state a pop found its cell in, once it is not empty. *)
Definition settle (r h : nat) (n i : Z) (st : cstate) : pc :=
  match st with kSkipped => pop_loop r | _ => PoTake r h n i end.

Definition pop_step (s : queue) (p : pc) : option (queue * pc) :=
  match p with
  | PoDeq r h => at_seg s h (λ g, Some (s, PoEnq r h (deq g)))
  | PoEnq r h d =>
      at_seg s h (λ g,
        Some (s, if enq g <=? d then PoNext0 r h (match next g with None => true | _ => false end) else PoFaa r h))
  | PoNext0 r h b => at_seg s h (λ g, Some (s, match next g with None => pop_done r None | Some _ => PoFaa r h end))
  | PoFaa r h =>
      at_seg s h (λ g,
        let i := deq g in
        Some (put_seg s h (set_deq (i ⊕₆₄ 1) g), if kSegment <=? i then PoNext1 r h else PoState r h (num g) i))
  | PoNext1 r h => at_seg s h (λ g, Some (s, match next g with None => pop_done r None | Some nx => PoSwTail r h nx end))
  | PoState r h n i =>
      at_seg s h (λ g, Some (s, match state_at g i with kEmpty => PoSpin r h n i 0 | st => settle r h n i st end))
  | PoSpin r h n i spin =>
      if spin <? kPatience
      then at_seg s h (λ g, Some (s, if enq g <=? i then PoSpin r h n i (spin + 1) else PoCheck r h n i))
      else Some (s, PoCheck r h n i)
  | PoCheck r h n i => at_seg s h (λ g, Some (s, if i <? enq g then PoWait r h n i else PoSkip r h n i))
  | PoWait r h n i =>
      at_seg s h (λ g, Some (s, match state_at g i with kEmpty => PoWait r h n i | st => settle r h n i st end))
  | PoSkip r h n i =>
      at_seg s h (λ g,
        match state_at g i with
        | kEmpty => Some (set_fates (put_seg s h (set_state i kSkipped g)) (decide_cell (n, i) false (fates s)), pop_loop r)
        | st => Some (s, settle r h n i st)
        end)
  | PoTake r h n i =>
      at_seg s h (λ g,
        match cells g !! Z.to_nat i with
        | Some (Some v) => Some (put_seg s h (set_cell i None g), pop_done r (Some v))
        | _ => Some (set_bad s, PcBad)
        end)
  | PoSwTail r h nx => Some (if decide (tail_ s = h) then set_tail s nx else s, PoSwHead r h nx)
  | PoSwHead r h nx =>
      Some (if decide (head_ s = h) then (set_head s nx, Hz (Retire r h) KPop) else (s, pop_loop r))
  | _ => None
  end.

(** ** The hazard operations, in the queue *)

Definition has_element (s : queue) (a : nat) : bool :=
  match heap s a with Some g => existsb (λ x, match x with Some _ => true | None => false end) (cells g) | None => true end.

(** [free_segment], for each node a scan frees. *)
Fixpoint free_all (s : queue) (l : list nat) : queue :=
  match l with
  | [] => s
  | a :: l => free_all (if has_element s a then set_bad s else set_heap s (<[a:=None]> (heap s))) l
  end.

Definition resume (k : cont) (o : hout) : option pc :=
  match k, o with
  | KPush vs, Got r => Some (push_loop r vs)
  | KPush vs, Protected r t => Some (PuFaa r t vs)
  | KPop, Got r => Some (pop_loop r)
  | KPop, Protected r h => Some (PoDeq r h)
  | KPop, Retired r => Some (pop_loop r)
  | KDone x, Cleared => Some (PcDone x)
  | KExit, Exited => Some (PcDone RUnit)
  | _, _ => None
  end.

(** The pointer a slot protects: [kTail] the tail, [kHead] the head. *)
Definition src_of (s : queue) (j : bool) : nat := if j then head_ s else tail_ s.

Definition hazard_step (c : choice) (s : queue) (p : hpc) (k : cont) : option (queue * pc) :=
  match hstep (spurious c) (src_of s) (dom s) p with
  | Some (d', freed, o) =>
      let s' := free_all (set_dom s d') freed in
      match o with
      | inl p' => Some (s', Hz p' k)
      | inr out => match resume k out with Some p' => Some (s', p') | None => None end
      end
  | None => None
  end.

Definition step (c : choice) (s : queue) (p : pc) : option (queue * pc) :=
  match p with
  | PcIdle | PcBad | PcDone _ => None
  | Hz p k => hazard_step c s p k
  | PuFaa _ _ _ | PuWrite _ _ _ _ _ _ _ | PuCas _ _ _ _ _ _ _ | PuBack _ _ _ _ _ _ _ | PuGive _ _ _ _ _ _ _
  | PuNext _ _ _ _ | PuNew _ _ _ | PuLink _ _ _ _ _ | PuTail _ _ _ _ => push_step c s p
  | _ => pop_step s p
  end.

Definition result (p : pc) : option res := match p with PcDone r => Some r | _ => None end.
Definition is_idle (p : pc) : bool := match p with PcIdle => true | _ => false end.

(** ** The destructor

    The elements destroyed, in order ([None]: no live element there), and
    the segments deleted; [fuel] bounds the walk. *)
Definition destroy_cells (g : segment) (from : Z) : list (option T) :=
  omap (λ i, if decide (state_at g i = kFull) then Some (cells g !! Z.to_nat i ≫= id) else None) (seqZ from (kSegment - from)).

Fixpoint destroy_from (fuel : nat) (s : queue) (a : nat) (from : Z) : option (list (option T) * list nat) :=
  match fuel with
  | O => None
  | S fuel =>
      match heap s a with
      | None => None
      | Some g =>
          match next g with
          | None => Some (destroy_cells g from, [a])
          | Some nx => '(es, l) ← destroy_from fuel s nx 0; Some (destroy_cells g from ++ es, a :: l)
          end
      end
  end.

Definition destroy (fuel : nat) (s : queue) : option (list (option T) * list nat) :=
  match heap s (head_ s) with Some g => destroy_from fuel s (head_ s) (deq g) | None => None end.
End ops.
End queue.
End Segment.
