(* ===== verification/SegmentLin.v ===== *)
(** * The segment queue is a queue

    The sequential queue (a run of elements is pushed one element at a time,
    in order), the machine with any number of producers and consumers that
    come and go, and the invariant.

    The order of the queue is the order of the cells, and a push takes effect
    when it takes its cells.  Whether a cell it takes will be filled is not
    known then: a pop that reached the cell first may still give it up.  So
    the invariant is stated for an oracle [φ] that says of each cell whether
    it is filled, and runs are restricted to those that agree with it
    ([consistent]); every run agrees with what it decided in the end, and a
    run that agrees in its last state agrees all along, because decisions
    stand.  A push that takes a cell a pop already waits at completes that
    pop with its own element. *)

From S2P Require Import Prelude Lts Contract Machine Hazard Segment.
From stdpp Require Import gmap.

Module SegmentLin.
Import Hazard Segment.
Local Open Scope Z_scope.
Local Open Scope wtc_scope.

Section spec.
Context {T : Type}.

Definition sq_step (q : list T) (o : @op T) (r : @res T) (q' : list T) : Prop :=
  match o with
  | PushRun _ vs => vs = [] ∧ r = RUnit ∧ q' = q
  | Pop _ => r = RPop (head q) ∧ q' = tail q
  | Exit _ => r = RUnit ∧ q' = q
  end.

(** One element of a run. *)
Definition sq_part (q : list T) (o o' : @op T) (q' : list T) : Prop :=
  ∃ me v vs, o = PushRun me (v :: vs) ∧ o' = PushRun me vs ∧ q' = q ++ [v].

Definition segment_spec : seqspec (@op T) (@res T) := PartSpec (list T) [] sq_step sq_part.

Definition seg_may (t : nat) (o : @op T) : bool :=
  match o with PushRun me _ | Pop me | Exit me => (t =? me)%nat end.

Definition segment_machine (K : Z) : machine (@op T) (@res T) :=
  Machine op res queue pc choice (segment_queue K) PcIdle is_idle seg_may enter (step K) result.

End spec.

Section proof.
Context {T : Type} (K : Z) (HK : 1 ≤ K < 2 ^ 63).
Local Abbreviation M := (@segment_machine T K).
Implicit Types s : @queue T.
Implicit Types sg : @segment T.
Implicit Types q : list T.

(** The counters of a segment stay below [2^64]. *)
Definition fits (s : @queue T) (p : @pc T) : bool :=
  match p with
  | PoFaa _ a => match heap s a with Some sg => deq sg <? 2 ^ 64 - 1 | None => true end
  | PuFaa _ a vs => match heap s a with Some sg => enq sg + Z.of_nat (length vs) <? 2 ^ 64 | None => true end
  | _ => true
  end.
Definition counters_fit (ms : mstate M) : Prop := ∀ t, fits (ms_shared ms) (ms_pcs ms t) = true.

Context (φ : Z * Z → bool).

Definition consistent s : Prop := ∀ c b, fates s !! c = Some b → φ c = b.
Definition runs_in (ms : mstate M) : Prop := counters_fit ms ∧ consistent (ms_shared ms).

(** How many of the [k] cells from [lo] on are filled before one is given up. *)
Fixpoint filled (n lo : Z) (k : nat) : nat :=
  match k with O => 0%nat | S k => if φ (n, lo) then S (filled n (lo + 1) k) else 0%nat end.
Definition fill_run (n lo stop : Z) : nat := filled n lo (Z.to_nat (stop - lo)).

(** [lin]: the elements whose push has taken effect, by segment number and
    cell; the number of the head segment; the segments from the head on; the
    segments behind the head not freed yet. *)
Record ghost := Ghost { lin : Z → Z → option T; hn : Z; chain : list nat; old : list nat }.
Implicit Types g : ghost.

Definition pub g (a : nat) : Prop := a ∈ chain g ∨ a ∈ old g.
Definition gone g (a : nat) : Prop := a ∈ old g.
Definition end_num g : Z := hn g + Z.of_nat (length (chain g)).

Record seg_ok g s sg : Prop := {
  so_len : length (state sg) = Z.to_nat K ∧ length (cells sg) = Z.to_nat K;
  so_range : 0 ≤ deq sg ∧ 0 ≤ enq sg ∧ 0 ≤ num sg;
  so_unres c : enq sg ≤ c < K → lin g (num sg) c = None ∧ cells sg !! Z.to_nat c = Some None ∧ state_at sg c ≠ kFull;
  so_state c : 0 ≤ c < K → state_at sg c ≠ kTaken;
  so_full c : 0 ≤ c < K → state_at sg c = kFull → is_Some (lin g (num sg) c);
  so_skip c : 0 ≤ c < K → state_at sg c = kSkipped → lin g (num sg) c = None ∧ fates s !! (num sg, c) = Some false;
  so_true c : 0 ≤ c < K → fates s !! (num sg, c) = Some true → state_at sg c = kFull;
  so_oracle c : 0 ≤ c < K → is_Some (lin g (num sg) c) → state_at sg c = kFull ∨ φ (num sg, c) = true
}.

Record chain_ok g s : Prop := {
  co_chain i a : chain g !! i = Some a → ∃ sg, heap s a = Some sg ∧ num sg = hn g + Z.of_nat i ∧ next sg = chain g !! S i ∧
                   ((S i < length (chain g))%nat → K ≤ enq sg) ∧ ((0 < i)%nat → deq sg = 0);
  co_old a : a ∈ old g → ∃ sg, heap s a = Some sg ∧ num sg < hn g ∧ K ≤ deq sg ∧ K ≤ enq sg ∧ is_Some (next sg);
  co_inj a b sga sgb : pub g a → pub g b → heap s a = Some sga → heap s b = Some sgb → num sga = num sgb → a = b;
  co_seg a sg : pub g a → heap s a = Some sg → seg_ok g s sg;
  co_head : head (chain g) = Some (head_ s);
  co_tail : tail_ s ∈ chain g;
  co_hn : 0 ≤ hn g;
  co_lin n c : end_num g ≤ n → lin g n c = None;
  co_fates n c b : fates s !! (n, c) = Some b → n < end_num g
}.

(** The elements of a segment no pop has claimed yet. *)
Definition content g sg : list T := omap (lin g (num sg)) (seqZ (deq sg) (K - deq sg)).
Definition content_at g s (a : nat) : list T := match heap s a with Some sg => content g sg | None => [] end.
Definition abs_ok g s q : Prop := q = flat_map (content_at g s) (chain g).

(** The cell a pop has claimed; the cells a push has taken and not finished
    with, and whether it still fills them; the cell it has its element in. *)
Definition ticket (p : @pc T) : option (Z * Z) :=
  match p with
  | PoState _ _ n i | PoSpin _ _ n i _ | PoCheck _ _ n i | PoWait _ _ n i | PoSkip _ _ n i | PoTake _ _ n i => Some (n, i)
  | _ => None
  end.
Definition range (p : @pc T) : option (Z * Z * Z) :=
  match p with
  | PuWrite _ _ n j stop _ _ | PuCas _ _ n j stop _ _ | PuBack _ _ n j stop _ _ | PuGive _ _ n j stop _ _ => Some (n, j, stop)
  | _ => None
  end.
Definition in_range (p : @pc T) (n c : Z) : Prop := ∃ lo stop, range p = Some (n, lo, stop) ∧ lo ≤ c < stop.
Definition filling (p : @pc T) : bool := match p with PuWrite _ _ _ _ _ _ _ | PuCas _ _ _ _ _ _ _ => true | _ => false end.
Definition mid (p : @pc T) : option (Z * Z) :=
  match p with PuCas _ _ n j _ _ _ | PuBack _ _ n j _ _ _ => Some (n, j) | _ => None end.
Definition fresh_of (p : @pc T) : option nat := match p with PuLink _ _ a _ _ => Some a | _ => None end.

(** Some thread has claimed a cell, has its element in it, fills it or gives
    it up. *)
Definition tick (pcs : nat → @pc T) (n c : Z) : Prop := ∃ t, ticket (pcs t) = Some (n, c).
Definition midp (pcs : nat → @pc T) (n c : Z) : Prop := ∃ t, mid (pcs t) = Some (n, c).
Definition fillp (pcs : nat → @pc T) (n c : Z) : Prop := ∃ t, in_range (pcs t) n c ∧ filling (pcs t) = true.
Definition givep (pcs : nat → @pc T) (n c : Z) : Prop := ∃ t, in_range (pcs t) n c ∧ filling (pcs t) = false.

(** One cell of a segment, and the threads concerned with it. *)
Record cell1 g s (pcs : nat → @pc T) sg (c : Z) : Prop := {
  c1_late : c < deq sg → state_at sg c = kEmpty → tick pcs (num sg) c;
  c1_cell v : cells sg !! Z.to_nat c = Some (Some v) →
    midp pcs (num sg) c ∨ state_at sg c = kFull ∧ (deq sg ≤ c ∨ tick pcs (num sg) c);
  c1_full : state_at sg c = kFull → deq sg ≤ c ∨ tick pcs (num sg) c → cells sg !! Z.to_nat c = Some (lin g (num sg) c);
  c1_pend : is_Some (lin g (num sg) c) → state_at sg c = kFull ∨ fillp pcs (num sg) c;
  c1_lost : fates s !! (num sg, c) = Some false → state_at sg c = kSkipped ∨ givep pcs (num sg) c
}.

Record cell_ok g s (pcs : nat → @pc T) : Prop := {
  cl_uniq t u n c : ticket (pcs t) = Some (n, c) → ticket (pcs u) = Some (n, c) → t = u;
  cl_own t u n c : in_range (pcs t) n c → in_range (pcs u) n c → t = u;
  cl_fresh t u a : fresh_of (pcs t) = Some a → fresh_of (pcs u) = Some a → t = u;
  cl_at a sg c : pub g a → heap s a = Some sg → 0 ≤ c < K → cell1 g s pcs sg c
}.

(** ** Threads *)

(** The record, slot and segment a program counter uses. *)
Definition hold (p : @pc T) : option (nat * bool * nat) :=
  match p with
  | PuFaa r a _ | PuWrite r a _ _ _ _ _ | PuCas r a _ _ _ _ _ | PuBack r a _ _ _ _ _ | PuGive r a _ _ _ _ _ | PuNext r a _ _
  | PuNew r a _ | PuLink r a _ _ _ | PuTail r a _ _ => Some (r, kPushSlot, a)
  | PoDeq r a | PoEnq r a _ | PoNext0 r a _ | PoFaa r a | PoNext1 r a | PoState r a _ _ | PoSpin r a _ _ _ | PoCheck r a _ _
  | PoWait r a _ _ | PoSkip r a _ _ | PoTake r a _ _ | PoSwTail r a _ | PoSwHead r a _ => Some (r, kPopSlot, a)
  | _ => None
  end.

(** Cells [lo .. stop) are this push's: none is filled. *)
Record taken sg (n lo stop end_ : Z) : Prop := {
  tn_num : num sg = n;
  tn_range : 0 ≤ lo < stop ∧ stop ≤ K ∧ stop ≤ enq sg;
  tn_end : end_ ≤ K ∨ stop = K;
  tn_state c : lo ≤ c < stop → state_at sg c ≠ kFull
}.
Definition blank sg (lo stop : Z) : Prop := ∀ c, lo ≤ c < stop → cells sg !! Z.to_nat c = Some None.
(** What the cells will hold: the elements, up to the first cell given up. *)
Definition planned g (n lo stop : Z) (vs : list T) : Prop :=
  stop - lo ≤ Z.of_nat (length vs) ∧
  ∀ c, lo ≤ c < stop → lin g n c = if decide (c - lo < Z.of_nat (fill_run n lo stop)) then vs !! Z.to_nat (c - lo) else None.
Definition forsaken g s (n lo stop : Z) : Prop := ∀ c, lo ≤ c < stop → lin g n c = None ∧ fates s !! (n, c) = Some false.
Definition holds_first sg (j : Z) (vs : list T) : Prop := ∃ v, head vs = Some v ∧ cells sg !! Z.to_nat j = Some (Some v).

Definition seg_pc g s sg (p : @pc T) : Prop :=
  match p with
  | PuFaa _ _ vs => vs ≠ []
  | PuWrite _ _ n j stop end_ vs => taken sg n j stop end_ ∧ blank sg j stop ∧ planned g n j stop vs
  | PuCas _ _ n j stop end_ vs => taken sg n j stop end_ ∧ blank sg (j + 1) stop ∧ planned g n j stop vs ∧ holds_first sg j vs
  | PuBack _ _ n j stop end_ vs =>
      taken sg n j stop end_ ∧ blank sg (j + 1) stop ∧ forsaken g s n j stop ∧ holds_first sg j vs ∧ state_at sg j = kSkipped
  | PuGive _ _ n q stop end_ vs => taken sg n q stop end_ ∧ blank sg q stop ∧ forsaken g s n q stop ∧ vs ≠ []
  | PuNext _ _ _ vs | PuNew _ _ vs => K ≤ enq sg ∧ vs ≠ []
  | PuLink _ _ a m vs =>
      K ≤ enq sg ∧ vs ≠ [] ∧ m = Nat.min (Z.to_nat K) (length vs) ∧
      heap s a = Some (new_segment K (num sg + 1) (take m vs)) ∧ ¬ pub g a
  | PuTail _ _ nx _ => next sg = Some nx
  | PoDeq _ _ | PoFaa _ _ => num sg ≤ hn g
  | PoEnq _ _ d => num sg ≤ hn g ∧ 0 ≤ d ≤ deq sg
  | PoNext0 _ _ b => num sg ≤ hn g ∧ (b = false → next sg ≠ None)
  | PoNext1 _ _ => num sg ≤ hn g ∧ K ≤ deq sg
  | PoState _ _ n i | PoSpin _ _ n i _ | PoCheck _ _ n i | PoSkip _ _ n i => num sg ≤ hn g ∧ num sg = n ∧ 0 ≤ i < K ∧ i < deq sg
  | PoWait _ _ n i => num sg ≤ hn g ∧ num sg = n ∧ 0 ≤ i < K ∧ i < deq sg ∧ i < enq sg
  | PoTake _ _ n i => num sg ≤ hn g ∧ num sg = n ∧ 0 ≤ i < K ∧ i < deq sg ∧ state_at sg i = kFull
  | PoSwTail _ _ nx => num sg ≤ hn g ∧ K ≤ deq sg ∧ next sg = Some nx
  | PoSwHead _ a nx => num sg ≤ hn g ∧ K ≤ deq sg ∧ next sg = Some nx ∧ tail_ s ≠ a
  | _ => True
  end.

(** Which slot an operation protects through. *)
Definition cont_ok (p : hpc) (k : @cont T) : Prop :=
  match p with
  | ProtLoad _ j | ProtStore _ j _ | ProtCheck _ j _ =>
      match k with KPush vs => j = kPushSlot ∧ vs ≠ [] | KPop => j = kPopSlot | _ => False end
  | _ => True
  end.

Record thread_ok g s (t : nat) (p : @pc T) : Prop := {
  tk_hold r j a : hold p = Some (r, j, a) →
    own (dom s) t = Some r ∧ slot_is (dom s) r j (Some a) ∧ ∃ sg, heap s a = Some sg ∧ seg_pc g s sg p;
  tk_cont h k : p = Hz h k → cont_ok h k;
  tk_bad : p ≠ PcBad
}.

Definition view (pcs : nat → @pc T) (t : nat) : option hpc := match pcs t with Hz p _ => Some p | _ => None end.

Record Inv g s (pcs : nat → @pc T) q : Prop := {
  iv_chain : chain_ok g s;
  iv_cell : cell_ok g s pcs;
  iv_thread t : thread_ok g s t (pcs t);
  iv_hz : hz_ok (pub g) (gone g) (dom s) (view pcs);
  iv_abs : abs_ok g s q;
  iv_bad : bad s = false
}.

Definition pushing (st : @istatus (@op T) (@res T)) (vs : list T) : Prop := ∃ me, st = ICalled (PushRun me vs) [].
Definition popping (st : @istatus (@op T) (@res T)) (ws : list res) : Prop := ∃ me, st = ICalled (Pop me) ws.

Definition stat g (p : @pc T) (st : @istatus (@op T) (@res T)) : Prop :=
  match p with
  | PcIdle => st = IIdle
  | PcBad => False
  | PcDone r | Hz _ (KDone r) => st = IDone r
  | Hz _ KExit => ∃ me, st = ICalled (Exit me) []
  | Hz _ (KPush vs) => pushing st vs
  | PuWrite _ _ n j stop _ vs | PuCas _ _ n j stop _ vs => pushing st (drop (fill_run n j stop) vs)
  | PuFaa _ _ vs | PuBack _ _ _ _ _ _ vs | PuGive _ _ _ _ _ _ vs | PuNext _ _ _ vs | PuNew _ _ vs | PuLink _ _ _ _ vs
  | PuTail _ _ _ vs => pushing st vs
  | PoState _ _ n i | PoSpin _ _ n i _ | PoCheck _ _ n i | PoWait _ _ n i | PoSkip _ _ n i | PoTake _ _ n i =>
      match lin g n i with Some v => st = IDone (RPop (Some v)) | None => ∃ ws, popping st ws end
  | PoNext0 _ _ b => ∃ ws, popping st ws ∧ (b = true → RPop None ∈ ws)
  | _ => ∃ ws, popping st ws
  end.

(** ** The chain of segments *)

Section chain.
Context (g : ghost) (s : @queue T) (Hc : chain_ok g s).

Lemma head_segment : chain g !! 0%nat = Some (head_ s) ∧ ∃ sg, heap s (head_ s) = Some sg ∧ num sg = hn g.
Proof.
  assert (chain g !! 0%nat = Some (head_ s)) as H0 by (rewrite <-head_lookup; apply (co_head _ _ Hc)). split; [done|].
  destruct (co_chain _ _ Hc _ _ H0) as (sg & Hs & Hn & _). exists sg. split; [done|lia].
Qed.

Lemma head_pub : pub g (head_ s) ∧ ¬ gone g (head_ s).
Proof.
  destruct head_segment as [H0 (sg & Hs & Hn)]. split; [left; by eapply list_elem_of_lookup_2|].
  intros Ho. destruct (co_old _ _ Hc _ Ho) as (sg' & Hs' & Hlt & _). rewrite Hs in Hs'. simplify_eq. lia.
Qed.

Lemma tail_pub : pub g (tail_ s) ∧ ¬ gone g (tail_ s).
Proof.
  split; [left; apply (co_tail _ _ Hc)|]. intros Ho. destruct (co_old _ _ Hc _ Ho) as (sg' & Hs' & Hlt & _).
  pose proof (co_tail _ _ Hc) as [i Hi]%list_elem_of_lookup. destruct (co_chain _ _ Hc _ _ Hi) as (sg & Hs & Hn & _).
  rewrite Hs in Hs'. simplify_eq. lia.
Qed.

Lemma src_pub j : pub g (src_of s j) ∧ ¬ gone g (src_of s j).
Proof. destruct j; [apply head_pub|apply tail_pub]. Qed.

Lemma pub_seg a : pub g a → ∃ sg, heap s a = Some sg ∧ num sg < end_num g.
Proof.
  intros [Ha|Ha].
  - apply list_elem_of_lookup in Ha as [i Hi]. destruct (co_chain _ _ Hc _ _ Hi) as (sg & Hs & Hn & _).
    apply lookup_lt_Some in Hi. exists sg. unfold end_num. split; [done|lia].
  - destruct (co_old _ _ Hc _ Ha) as (sg & Hs & Hn & _). exists sg. unfold end_num. split; [done|lia].
Qed.

(** A segment that was once the head and is not drained is the head. *)
Lemma undrained_is_head a sg : pub g a → heap s a = Some sg → num sg ≤ hn g → deq sg < K → a = head_ s.
Proof.
  intros [Ha|Ha] Hs Hn Hd.
  - apply list_elem_of_lookup in Ha as [i Hi]. destruct (co_chain _ _ Hc _ _ Hi) as (sg' & Hs' & Hn' & _).
    rewrite Hs in Hs'. simplify_eq. assert (i = 0%nat) as -> by lia. destruct head_segment as [H0 _]. congruence.
  - destruct (co_old _ _ Hc _ Ha) as (sg' & Hs' & _ & Hd' & _). rewrite Hs in Hs'. simplify_eq. lia.
Qed.

(** A segment with no successor, or not full, is the last. *)
Lemma no_next_last a sg : pub g a → heap s a = Some sg → next sg = None ∨ enq sg < K →
  chain g !! (length (chain g) - 1)%nat = Some a ∧ num sg = end_num g - 1.
Proof.
  intros [Ha|Ha] Hs Hx.
  - apply list_elem_of_lookup in Ha as [i Hi]. destruct (co_chain _ _ Hc _ _ Hi) as (sg' & Hs' & Hn & Hx' & He & _).
    rewrite Hs in Hs'. simplify_eq. pose proof (lookup_lt_Some _ _ _ Hi) as Hl.
    assert (¬ (S i < length (chain g))%nat) as Hlast.
    { intros Hlt. destruct Hx as [Hx|Hx]; [|by apply He in Hlt; lia]. rewrite Hx in Hx'. symmetry in Hx'. apply lookup_ge_None_1 in Hx'. lia. }
    assert (i = length (chain g) - 1)%nat as E by lia. rewrite <-E. split; [done|]. unfold end_num. lia.
  - destruct (co_old _ _ Hc _ Ha) as (sg' & Hs' & _ & _ & He & [? Hn]). rewrite Hs in Hs'. simplify_eq.
    destruct Hx as [Hx|Hx]; [congruence|lia].
Qed.

(** If it is also one of the first, it is the only one. *)
Lemma only_segment a sg : pub g a → heap s a = Some sg → num sg ≤ hn g → next sg = None ∨ enq sg < K → chain g = [head_ s] ∧ a = head_ s.
Proof.
  intros Ha Hs Hn Hx. destruct (no_next_last a sg Ha Hs Hx) as [Hl En]. destruct head_segment as [H0 _].
  unfold end_num in En. assert (length (chain g) = 1%nat) as E1 by (apply lookup_lt_Some in H0; lia).
  rewrite E1 in Hl. simpl in Hl. rewrite H0 in Hl. destruct (chain g) as [|x [|]]; simplify_eq/=; done.
Qed.
End chain.

(** ** Frames *)

Lemma stat_frame g g' p st : (∀ n c, ticket p = Some (n, c) → lin g' n c = lin g n c) → stat g p st → stat g' p st.
Proof. destruct p; simpl; try done; intros E; by rewrite (E _ _ eq_refl). Qed.

Lemma seg_pc_mono g g' s s' sg sg' p : num sg' = num sg → hn g ≤ hn g' → deq sg ≤ deq sg' → enq sg ≤ enq sg' →
  (∀ a, next sg = Some a → next sg' = Some a) → fates s ⊆ fates s' →
  (∀ c, in_range p (num sg) c → (state_at sg' c = state_at sg c ∨ state_at sg' c = kSkipped) ∧
     cells sg' !! Z.to_nat c = cells sg !! Z.to_nat c ∧ lin g' (num sg) c = lin g (num sg) c) →
  (∀ c, ticket p = Some (num sg, c) → state_at sg c = kFull → state_at sg' c = kFull) →
  (∀ a, fresh_of p = Some a → heap s' a = heap s a ∧ (pub g' a → pub g a)) →
  (∀ r a nx, p = PoSwHead r a nx → tail_ s ≠ a → tail_ s' ≠ a) →
  seg_pc g s sg p → seg_pc g' s' sg' p.
Proof.
  intros En Hh Hd He Hx Hf Hr Ht Hfr Htl.
  assert (∀ n lo stop end_, range p = Some (n, lo, stop) → taken sg n lo stop end_ → taken sg' n lo stop end_) as Htk.
  { intros n lo stop end_ Ep [A1 A2 A3 A4]. split; [congruence|lia|done|]. intros c Hc. destruct (Hr c) as [[->| ->] _]; auto. exists lo, stop. by rewrite A1. }
  assert (∀ n lo lo' stop, range p = Some (n, lo, stop) → num sg = n → lo ≤ lo' → blank sg lo' stop → blank sg' lo' stop) as Hbl.
  { intros n lo lo' stop Ep <- Hlo A c Hc. destruct (Hr c) as (_ & -> & _); [exists lo, stop; split; [done|lia]|by apply A]. }
  assert (∀ n lo stop vs, range p = Some (n, lo, stop) → num sg = n → planned g n lo stop vs → planned g' n lo stop vs) as Hpl.
  { intros n lo stop vs Ep <- [A1 A2]. split; [done|]. intros c Hc. destruct (Hr c) as (_ & _ & ->); [by exists lo, stop|by apply A2]. }
  assert (∀ n lo stop, range p = Some (n, lo, stop) → num sg = n → forsaken g s n lo stop → forsaken g' s' n lo stop) as Hfo.
  { intros n lo stop Ep <- A c Hc. destruct (Hr c) as (_ & _ & ->); [by exists lo, stop|]. destruct (A c Hc). split; [done|by eapply lookup_weaken]. }
  assert (∀ n lo stop vs, range p = Some (n, lo, stop) → num sg = n → lo < stop → holds_first sg lo vs → holds_first sg' lo vs) as Hho.
  { intros n lo stop vs Ep <- Hlo (v & A1 & A2). exists v. split; [done|]. destruct (Hr lo) as (_ & -> & _); [by exists lo, stop; split; [|lia]|done]. }
  destruct p; simpl in *; try done; try lia; try (intros [A B]; split; [|by auto]; lia).
  - intros (A & B & C). pose proof (tn_num _ _ _ _ _ A). split_and!; eauto.
    eapply Hbl; [done|done| |done]. lia.
  - intros (A & B & C & D). pose proof (tn_num _ _ _ _ _ A). pose proof (tn_range _ _ _ _ _ A). split_and!; eauto.
    + eapply (Hbl n j); [done|done| |done]. lia.
    + eapply (Hho n j stop); try done. lia.
  - intros (A & B & C & D & E). pose proof (tn_num _ _ _ _ _ A). pose proof (tn_range _ _ _ _ _ A). split_and!; eauto.
    + eapply (Hbl n j); [done|done| |done]. lia.
    + eapply (Hho n j stop); try done. lia.
    + destruct (Hr j) as [[->|?] _]; try done. exists j, stop. split; [by subst|lia].
  - intros (A & B & C & D). pose proof (tn_num _ _ _ _ _ A). split_and!; eauto. eapply Hbl; [done|done| |done]. lia.
  - intros (A & B & C & D & E). destruct (Hfr a eq_refl) as [F1 F2]. rewrite F1, En. split_and!; auto; lia.
  - auto.
  - intros [A B]. split; [lia|]. intros E. specialize (B E). destruct (next sg) as [a|] eqn:Ea; [|done]. by rewrite (Hx a eq_refl).
  - intros (A & B & C & D & E). split_and!; try lia. apply Ht; [by rewrite B|done].
  - intros (A & B & C). split_and!; [lia|lia|auto].
  - intros (A & B & C & D). split_and!; [lia|lia|auto|eauto].
Qed.

Definition hv (p : @pc T) : option hpc := match p with Hz h _ => Some h | _ => None end.

Lemma view_insert (pcs : nat → @pc T) t p' u : view (<[t:=p']> pcs) u = <[t:=hv p']> (view pcs) u.
Proof. unfold view. by_thread t u; done. Qed.

(** A thread outside the hazard operations moves on, perhaps into one. *)
Lemma hz_go (P G : nat → Prop) d (pcs : nat → @pc T) (t : nat) p' : hz_ok P G d (view pcs) → hv (pcs t) = None →
  (∀ h, hv p' = Some h → entry h = true ∧ thr_ok d t h ∧ ∀ r a, h = Retire r a →
     G a ∧ (∀ r' x, recs d !! r' = Some x → a ∉ retired x) ∧ ∀ u r', view pcs u ≠ Some (Retire r' a)) →
  hz_ok P G d (view (<[t:=p']> pcs)).
Proof.
  intros H Hv Hp. eapply hz_ext; [intros u; symmetry; apply view_insert|]. destruct (hv p') as [h|] eqn:E.
  - destruct (Hp h eq_refl) as (A & B & C). by apply hz_enter.
  - eapply hz_ext; [|exact H]. intros u. unfold view. by_thread t u; [|done]. unfold hv in Hv. by destruct (pcs u).
Qed.

Lemma thr_entry d t h r : entry h = true → rec_of h = Some r → own d t = Some r → me_of h = None → thr_ok d t h.
Proof. intros He Hr Ho Hm. destruct h; try done; split; simpl in *; intros; simplify_eq; done. Qed.

(** A program counter that has nothing to do with a cell. *)
Definition indiff (p : @pc T) (n c : Z) : Prop := ticket p ≠ Some (n, c) ∧ ¬ in_range p n c ∧ mid p ≠ Some (n, c).

Lemma in_range_none p n c : range p = None → ¬ in_range p n c.
Proof. intros E (lo & stop & E' & _). congruence. Qed.

Lemma indiff_none p n c : ticket p = None → range p = None → indiff p n c.
Proof.
  intros H1 H2. split_and!; [congruence|by apply in_range_none|]. by destruct p.
Qed.

Lemma ex_keep (P : @pc T → Prop) (pcs : nat → @pc T) (t : nat) p' : ¬ P (pcs t) → (∃ u, P (pcs u)) → ∃ u, P (<[t:=p']> pcs u).
Proof. intros H [u Hu]. exists u. by_thread t u; done. Qed.

(** The threads concerned with a cell the moving thread leaves alone. *)
Lemma midp_keep (pcs : nat → @pc T) (t : nat) p' n c : mid (pcs t) ≠ Some (n, c) → midp pcs n c → midp (<[t:=p']> pcs) n c.
Proof. apply (ex_keep (λ p, mid p = Some (n, c))). Qed.
Lemma fillp_keep (pcs : nat → @pc T) (t : nat) p' n c : ¬ in_range (pcs t) n c → fillp pcs n c → fillp (<[t:=p']> pcs) n c.
Proof. intros H. apply (ex_keep (λ p, in_range p n c ∧ filling p = true)). tauto. Qed.
Lemma givep_keep (pcs : nat → @pc T) (t : nat) p' n c : ¬ in_range (pcs t) n c → givep pcs n c → givep (<[t:=p']> pcs) n c.
Proof. intros H. apply (ex_keep (λ p, in_range p n c ∧ filling p = false)). tauto. Qed.
Lemma tick_keep (pcs : nat → @pc T) (t : nat) p' n c : ticket (pcs t) ≠ Some (n, c) → tick pcs n c → tick (<[t:=p']> pcs) n c.
Proof. apply (ex_keep (λ p, ticket p = Some (n, c))). Qed.

Lemma ex_iff (P : @pc T → Prop) (pcs : nat → @pc T) (t : nat) p' : (P p' ↔ P (pcs t)) → (∃ u, P (<[t:=p']> pcs u)) ↔ ∃ u, P (pcs u).
Proof.
  intros HP. split; intros [u Hu]; exists u; destruct (decide (u = t)) as [->|]; rewrite ?fn_insert_eq, ?fn_insert_ne in * by done; tauto.
Qed.

(** What a cell's condition depends on. *)
Lemma cell1_iff g g' s s' (pcs : nat → @pc T) (t : nat) p' sg sg' c : cell1 g s pcs sg c →
  (ticket p' = Some (num sg, c) ↔ ticket (pcs t) = Some (num sg, c)) → (mid p' = Some (num sg, c) ↔ mid (pcs t) = Some (num sg, c)) →
  (in_range p' (num sg) c ↔ in_range (pcs t) (num sg) c) → (in_range p' (num sg) c → filling p' = filling (pcs t)) →
  num sg' = num sg → (c < deq sg' ↔ c < deq sg) → state_at sg' c = state_at sg c → cells sg' !! Z.to_nat c = cells sg !! Z.to_nat c →
  lin g' (num sg) c = lin g (num sg) c → fates s' !! (num sg, c) = fates s !! (num sg, c) → cell1 g' s' (<[t:=p']> pcs) sg' c.
Proof.
  intros [H1 H2 H3 H4 H5] Ht Hm Hr Hf En Ed Es Ec El Ef.
  assert (deq sg' ≤ c ↔ deq sg ≤ c) as Ed' by lia.
  pose proof (ex_iff (λ p, ticket p = Some (num sg, c)) pcs t p' Ht) as Et.
  pose proof (ex_iff (λ p, mid p = Some (num sg, c)) pcs t p' Hm) as Em.
  assert (∀ b, (∃ u, in_range (<[t:=p']> pcs u) (num sg) c ∧ filling (<[t:=p']> pcs u) = b) ↔ ∃ u, in_range (pcs u) (num sg) c ∧ filling (pcs u) = b) as Er.
  { intros b. apply (ex_iff (λ p, in_range p (num sg) c ∧ filling p = b)). split; intros [A B]; (split; [tauto|]); rewrite <-B; [symmetry|]; apply Hf; tauto. }
  split; unfold tick, midp, fillp, givep; rewrite ?En, ?Es, ?Ec, ?El, ?Ef.
  - rewrite Ed, Et. done.
  - intros v. rewrite Em, Ed', Et. apply H2.
  - rewrite Ed', Et. done.
  - rewrite Er. done.
  - rewrite Er. done.
Qed.

Lemma cell1_frame g g' s s' (pcs : nat → @pc T) (t : nat) p' sg sg' c : cell1 g s pcs sg c → indiff (pcs t) (num sg) c → indiff p' (num sg) c →
  num sg' = num sg → (c < deq sg' ↔ c < deq sg) → state_at sg' c = state_at sg c → cells sg' !! Z.to_nat c = cells sg !! Z.to_nat c →
  lin g' (num sg) c = lin g (num sg) c → fates s' !! (num sg, c) = fates s !! (num sg, c) → cell1 g' s' (<[t:=p']> pcs) sg' c.
Proof. intros H (A1 & A2 & A3) (B1 & B2 & B3). by apply cell1_iff; [done|tauto..|]. Qed.

(** ** Cells and fates *)

Lemma state_set sg i x c : length (state sg) = Z.to_nat K → 0 ≤ i < K → 0 ≤ c →
  state_at (set_state i x sg) c = if decide (c = i) then x else state_at sg c.
Proof.
  intros Hl Hi Hc. unfold state_at. simpl. case_decide as E.
  - subst. by rewrite list_lookup_insert_eq by lia.
  - rewrite list_lookup_insert_ne by lia. done.
Qed.

Lemma cell_set sg i x c : length (cells sg) = Z.to_nat K → 0 ≤ i < K → 0 ≤ c →
  cells (set_cell i x sg) !! Z.to_nat c = if decide (c = i) then Some x else cells sg !! Z.to_nat c.
Proof.
  intros Hl Hi Hc. simpl. case_decide as E.
  - subst. by rewrite list_lookup_insert_eq by lia.
  - rewrite list_lookup_insert_ne by lia. done.
Qed.

Lemma decide_cell_sub (c : Z * Z) (b : bool) (f : gmap (Z * Z) bool) : f ⊆ decide_cell c b f.
Proof. unfold decide_cell. destruct (f !! c) eqn:E; [done|]. by apply insert_subseteq. Qed.

Lemma decide_cell_eq (c : Z * Z) (b : bool) (f : gmap (Z * Z) bool) : f !! c ≠ Some (negb b) → decide_cell c b f !! c = Some b.
Proof.
  intros H. unfold decide_cell. destruct (f !! c) as [b'|] eqn:E; [|by rewrite lookup_insert_eq]. rewrite E. by destruct b, b'.
Qed.

Lemma decide_cell_ne (c c' : Z * Z) (b : bool) (f : gmap (Z * Z) bool) : c ≠ c' → decide_cell c b f !! c' = f !! c'.
Proof. intros H. unfold decide_cell. destruct (f !! c); [done|]. by rewrite lookup_insert_ne. Qed.

Lemma forgo_sub (n lo hi : Z) (f : gmap (Z * Z) bool) : f ⊆ forgo n lo hi f.
Proof.
  unfold forgo. generalize (seqZ lo (hi - lo)). intros l. induction l as [|c l IH]; [done|]. simpl. etrans; [done|apply decide_cell_sub].
Qed.

Lemma forgo_out (n lo hi n' c : Z) (f : gmap (Z * Z) bool) : n' ≠ n ∨ ¬ lo ≤ c < hi → forgo n lo hi f !! (n', c) = f !! (n', c).
Proof.
  intros H. unfold forgo. assert (∀ x, x ∈ seqZ lo (hi - lo) → (n, x) ≠ (n', c)) as Hl.
  { intros x Hx%elem_of_seqZ [= -> ->]. lia. }
  revert Hl. generalize (seqZ lo (hi - lo)). intros l. induction l as [|x l IH]; intros Hl; [done|]. simpl.
  rewrite decide_cell_ne by (apply Hl; by left). apply IH. intros; apply Hl; by right.
Qed.

Lemma forgo_in (n lo hi c : Z) (f : gmap (Z * Z) bool) : lo ≤ c < hi → f !! (n, c) ≠ Some true → forgo n lo hi f !! (n, c) = Some false.
Proof.
  intros Hc Hf. unfold forgo. assert (c ∈ seqZ lo (hi - lo)) as Hin by (apply elem_of_seqZ; lia).
  revert Hin. generalize (seqZ lo (hi - lo)). intros l. induction l as [|x l IH]; intros Hin; [by apply not_elem_of_nil in Hin|]. simpl.
  destruct (decide (x = c)) as [->|].
  - apply decide_cell_eq. simpl. clear IH Hin. induction l as [|y l IH]; [done|]. simpl.
    destruct (decide (y = c)) as [->|]; [|rewrite decide_cell_ne by congruence; done].
    unfold decide_cell at 1. destruct (foldr _ f l !! (n, c)) eqn:E; [by rewrite E|by rewrite lookup_insert_eq].
  - rewrite decide_cell_ne by congruence. apply IH. by apply elem_of_cons in Hin as [->|].
Qed.

(** ** One step of one thread *)

Local Abbreviation ist q pend := (@IState (@op T) (@res T) segment_spec q pend).

Definition good g (pcs : nat → @pc T) q (pend : nat → @istatus (@op T) (@res T)) (t : nat) (s' : @queue T) (p' : @pc T) : Prop :=
  ∃ g' q' pend', steps (interval segment_spec) (ist q pend) [] (ist q' pend') ∧
    Inv g' s' (<[t:=p']> pcs) q' ∧ ∀ u, stat g' (<[t:=p']> pcs u) (pend' u).

Section one_step.
Context (g : ghost) (s : @queue T) (pcs : nat → @pc T) (q : list T) (pend : nat → @istatus (@op T) (@res T)) (t : nat).
Context (HI : Inv g s pcs q) (Hst : ∀ u, stat g (pcs u) (pend u)).

(** The thread moves only itself. *)
Lemma good_self g' q' st' s' p' : lmove segment_spec q (pend t) q' st' → Inv g' s' (<[t:=p']> pcs) q' → stat g' p' st' →
  (∀ u, u ≠ t → ∀ n c, ticket (pcs u) = Some (n, c) → lin g' n c = lin g n c) → good g pcs q pend t s' p'.
Proof.
  intros Hm HI' Hs Hoth. destruct (lmove_steps _ _ _ _ _ Hm pend t eq_refl) as (pend' & Hrun & Hp).
  exists g', q', pend'. split; [done|]. split; [done|]. intros u. rewrite Hp. by_thread t u; [done|].
  eapply stat_frame; [|apply Hst]. by apply Hoth.
Qed.

(** A held segment. *)
Lemma held u r j a : hold (pcs u) = Some (r, j, a) →
  pub g a ∧ own (dom s) u = Some r ∧ slot_is (dom s) r j (Some a) ∧ ∃ sg, heap s a = Some sg ∧ seg_pc g s sg (pcs u) ∧ seg_ok g s sg.
Proof.
  intros Hh. destruct (tk_hold _ _ _ _ (iv_thread _ _ _ _ HI u) _ _ _ Hh) as (Ho & Hs & sg & Hsg & Hp).
  assert (pub g a) as Ha.
  { eapply (own_pub (iv_hz _ _ _ _ HI) u r j); [done| |done]. unfold view. destruct (pcs u); done || (simpl; tauto). }
  split_and!; try done. exists sg. split_and!; try done. by eapply (co_seg _ _ (iv_chain _ _ _ _ HI)).
Qed.

(** The segment of a claimed or taken cell. *)
Lemma concern_held u n c : ticket (pcs u) = Some (n, c) ∨ in_range (pcs u) n c →
  ∃ r j a sg, hold (pcs u) = Some (r, j, a) ∧ pub g a ∧ heap s a = Some sg ∧ num sg = n ∧ seg_pc g s sg (pcs u) ∧ seg_ok g s sg.
Proof.
  intros Hc. assert (∃ r j a, hold (pcs u) = Some (r, j, a)) as (r & j & a & Hh).
  { destruct Hc as [Hc|(lo & stop & Hc & _)]; destruct (pcs u); simplify_eq/=; eauto. }
  destruct (held u r j a Hh) as (Ha & _ & _ & sg & Hsg & Hp & Hok). exists r, j, a, sg. split_and!; try done.
  destruct Hc as [Hc|(lo & stop & Hc & _)]; destruct (pcs u); simplify_eq/=; try tauto; destruct Hp as [[] _]; done.
Qed.

(** The other threads, when segment [a] and the history change. *)
Definition other_ok g' s' (a : nat) sg sg' : Prop :=
  ∀ u, u ≠ t → (∀ c, in_range (pcs u) (num sg) c → (state_at sg' c = state_at sg c ∨ state_at sg' c = kSkipped) ∧
     cells sg' !! Z.to_nat c = cells sg !! Z.to_nat c ∧ lin g' (num sg) c = lin g (num sg) c) ∧
   (∀ c, ticket (pcs u) = Some (num sg, c) → state_at sg c = kFull → state_at sg' c = kFull).

(** The moving thread, or not, twice. *)
Ltac two_threads u v :=
  destruct (decide (u = t)) as [?Eu|?Eu], (decide (v = t)) as [?Ev|?Ev];
  [rewrite Eu, Ev|rewrite Eu; rewrite (fn_insert_ne pcs t v) by done|rewrite Ev; rewrite (fn_insert_ne pcs t u) by done
  |rewrite (fn_insert_ne pcs t v), (fn_insert_ne pcs t u) by done]; rewrite ?fn_insert_eq.

(** Segment [a] is rewritten, and the history of its number. *)
Section put.
Context (g' : ghost) (s' : @queue T) (r : nat) (j : bool) (a : nat) (sg sg' : @segment T) (p' : @pc T) (q' : list T).
Context (Hh : hold (pcs t) = Some (r, j, a)) (Hsg : heap s a = Some sg).
Context (Eheap : ∀ b, heap s' b = <[a:=Some sg']> (heap s) b) (Ehd : head_ s' = head_ s) (Etl : tail_ s' = tail_ s)
  (Edom : dom s' = dom s) (Ebad : bad s' = bad s) (Hfat : fates s ⊆ fates s')
  (Efat : ∀ n c, n ≠ num sg → fates s' !! (n, c) = fates s !! (n, c)).
Context (Ehn : hn g' = hn g) (Ech : chain g' = chain g) (Eold : old g' = old g)
  (Elin : ∀ n c, n ≠ num sg → lin g' n c = lin g n c).
Context (En : num sg' = num sg) (Ex : next sg' = next sg) (Hd : deq sg ≤ deq sg') (He : enq sg ≤ enq sg')
  (Hdeq : deq sg' = deq sg ∨ num sg ≤ hn g).
Context (Hok : seg_ok g' s' sg').
Context (Hcell : ∀ c, 0 ≤ c < K → cell1 g' s' (<[t:=p']> pcs) sg' c).
Context (Htick : ∀ u n c, u ≠ t → ticket p' = Some (n, c) → ticket (pcs u) ≠ Some (n, c))
  (Htick' : ∀ n c, ticket p' = Some (n, c) → n = num sg)
  (Hrange : ∀ u n c, u ≠ t → in_range p' n c → ¬ in_range (pcs u) n c)
  (Hrange' : ∀ n c, in_range p' n c → n = num sg) (Hmid' : ∀ n c, mid p' = Some (n, c) → n = num sg).
Context (Hfresh : fresh_of p' = None).
Context (Hoth : other_ok g' s' a sg sg').
Context (Hthr : thread_ok g' s' t p') (Habs : abs_ok g' s' q').
Context (Hhz : ∀ h, hv p' = Some h → entry h = true ∧ thr_ok (dom s) t h ∧ ∀ r a, h ≠ Retire r a).

Lemma put_pub b : pub g' b ↔ pub g b.
Proof. unfold pub. by rewrite Ech, Eold. Qed.

Lemma put_num b sgb : pub g b → b ≠ a → heap s b = Some sgb → num sgb ≠ num sg.
Proof.
  intros Hb Hne Hsb E. destruct (held t r j a Hh) as (Ha & _). by eapply Hne, (co_inj _ _ (iv_chain _ _ _ _ HI)).
Qed.

Lemma put_chain : chain_ok g' s'.
Proof.
  pose proof (iv_chain _ _ _ _ HI) as Hc. destruct (held t r j a Hh) as (Ha & _). pose proof Hc as [C1 C2 C3 C4 C5 C6 C7 C8 C9].
  assert (∀ b sb, heap s' b = Some sb → ∃ sb0, heap s b = Some sb0 ∧ num sb = num sb0 ∧ (b = a ∧ sb = sg' ∧ sb0 = sg ∨ b ≠ a ∧ sb0 = sb)) as Hcase.
  { intros b sb. rewrite Eheap. destruct (decide (b = a)) as [->|]; rewrite ?fn_insert_eq, ?fn_insert_ne by done; intros E; simplify_eq; [exists sg|exists sb]; naive_solver. }
  split; rewrite ?Ehn, ?Ech, ?Eold, ?Ehd, ?Etl; try done; unfold end_num; rewrite ?Ehn, ?Ech.
  - intros i b Hb. destruct (C1 _ _ Hb) as (sb & Hsb & N1 & N2 & N3 & N4). rewrite Eheap. destruct (decide (b = a)) as [->|]; rewrite ?fn_insert_eq, ?fn_insert_ne by done; [|eauto].
    rewrite Hsg in Hsb. simplify_eq. exists sg'. split_and!; [done|congruence|congruence|intros H; specialize (N3 H); lia|].
    intros Hi. destruct Hdeq as [E|E]; [rewrite E; auto|]. lia.
  - intros b Hb. destruct (C2 _ Hb) as (sb & Hsb & N1 & N2 & N3 & N4). rewrite Eheap. destruct (decide (b = a)) as [->|]; rewrite ?fn_insert_eq, ?fn_insert_ne by done; [|eauto 6].
    rewrite Hsg in Hsb. simplify_eq. exists sg'. split_and!; [done|lia|lia|lia|congruence].
  - intros b1 b2 s1 s2 H1%put_pub H2%put_pub (z1 & Hz1 & -> & _)%Hcase (z2 & Hz2 & -> & _)%Hcase. eauto.
  - intros b sb Hb%put_pub (z & Hz & En1 & [(-> & -> & _)|[Hne ->]])%Hcase; [done|]. pose proof (put_num b sb Hb Hne Hz) as Hnn.
    destruct (C4 b sb Hb Hz) as [S1 S2 S3 S4 S5 S6 S7 S8]. split; try done; intros c; rewrite ?Elin, ?Efat by done; eauto.
  - intros n c. intros Hn. destruct (pub_seg _ _ Hc a Ha) as (z & Hz & Hlt). rewrite Hsg in Hz. simplify_eq. unfold end_num in *. rewrite Elin by lia. auto.
  - intros n c b. destruct (decide (n = num sg)) as [->|]; [|rewrite Efat by done; eauto].
    destruct (pub_seg _ _ Hc a Ha) as (z & Hz & Hlt). rewrite Hsg in Hz. simplify_eq. unfold end_num in *. lia.
Qed.

Lemma put_cells : cell_ok g' s' (<[t:=p']> pcs).
Proof.
  pose proof (iv_cell _ _ _ _ HI) as [C1 C2 C3 C4]. split.
  - intros u v n c. two_threads u v; [done|..]; intros E1 E2; [by destruct (Htick v n c ltac:(done) E1)|by destruct (Htick u n c ltac:(done) E2)|by eapply C1].
  - intros u v n c. two_threads u v; [done|..]; intros E1 E2; [by destruct (Hrange v n c ltac:(done) E1)|by destruct (Hrange u n c ltac:(done) E2)|by eapply C2].
  - intros u v b. two_threads u v; rewrite ?Hfresh; [done..|apply C3].
  - intros b sb c Hb%put_pub Hsb Hc. rewrite Eheap in Hsb. destruct (decide (b = a)) as [->|Hne]; rewrite ?fn_insert_eq, ?fn_insert_ne in Hsb by done.
    { simplify_eq. auto. }
    pose proof (put_num b sb Hb Hne Hsb) as Hnn. eapply cell1_frame; [by eapply C4|..]; rewrite ?Elin, ?Efat by done; try done.
    + split_and!.
      * intros E. destruct (concern_held t _ _ (or_introl E)) as (r0 & j0 & a0 & sg0 & Hh0 & _ & Hs0 & En0 & _). rewrite Hh in Hh0; simplify_eq; congruence.
      * intros E. destruct (concern_held t _ _ (or_intror E)) as (r0 & j0 & a0 & sg0 & Hh0 & _ & Hs0 & En0 & _). rewrite Hh in Hh0; simplify_eq; congruence.
      * intros E. destruct (held t r j a Hh) as (_ & _ & _ & sg0 & Hs0 & Hp & _). rewrite Hsg in Hs0. simplify_eq.
        destruct (pcs t); simplify_eq/=; destruct Hp as [[] _]; done.
    + split_and!; [intros E; by apply Htick' in E|intros E; by apply Hrange' in E|intros E; by apply Hmid' in E].
Qed.

Lemma put_threads u : thread_ok g' s' u (<[t:=p']> pcs u).
Proof.
  by_thread t u; [done|]. destruct (iv_thread _ _ _ _ HI u) as [T1 T2 T3]. split; try done. intros r0 j0 b Hb. rewrite Edom.
  destruct (T1 _ _ _ Hb) as (Ho & Hs & sb & Hsb & Hp). split_and!; try done. destruct (held u r0 j0 b Hb) as (Hpb & _ & _ & sb0 & Hsb0 & _ & Hokb).
  rewrite Hsb in Hsb0. simplify_eq. rewrite Eheap. destruct (held t r j a Hh) as (Ha & _).
  assert (∀ f, fresh_of (pcs u) = Some f → heap s' f = heap s f ∧ (pub g' f → pub g f)) as Hfr.
  { intros f Hf. rewrite Eheap. split; [|apply put_pub]. apply fn_insert_ne. intros <-. destruct (pcs u); simplify_eq/=. tauto. }
  destruct (decide (b = a)) as [->|Hne]; rewrite ?fn_insert_eq, ?fn_insert_ne by done.
  - rewrite Hsg in Hsb. simplify_eq. exists sg'. split; [done|]. destruct (Hoth u ltac:(done)) as [O1 O2].
    eapply seg_pc_mono; [..|exact Hp]; try done; rewrite ?Ehn, ?Ex, ?Etl; try done.
  - exists sb0. split; [done|]. pose proof (put_num b sb0 Hpb Hne Hsb) as Hnn. eapply seg_pc_mono; [..|exact Hp]; try done; rewrite ?Ehn, ?Etl; try done.
    intros c Hc. rewrite Elin by done. auto.
Qed.

Lemma put_inv : Inv g' s' (<[t:=p']> pcs) q'.
Proof.
  split; [apply put_chain|apply put_cells|apply put_threads| |done|rewrite Ebad; apply (iv_bad _ _ _ _ HI)].
  rewrite Edom. eapply hz_mono; [apply hz_go; [apply (iv_hz _ _ _ _ HI)|..]|..].
  - destruct (pcs t); done.
  - intros h E. destruct (Hhz h E) as (A & B & C). split_and!; [done|done|]. intros r0 a0 ->. by destruct (C r0 a0).
  - intros b. by rewrite put_pub.
  - unfold gone. by rewrite Eold.
  - intros b. rewrite put_pub. unfold gone. rewrite Eold. by right.
Qed.
End put.

(** The routine conditions of [put_inv]. *)
Ltac no_range := intros; match goal with H : in_range _ _ _ |- _ => destruct H as (? & ? & H & _); discriminate H end.
Ltac put_side := try done; try (by left); try (by apply (iv_abs _ _ _ _ HI)); try no_range.

(** Where a thread may go on to: the same segment, or a hazard operation on
    its record. *)
Definition goes_on g' s' (r : nat) (j : bool) (a : nat) sg' (p' : @pc T) : Prop :=
  (hold p' = Some (r, j, a) ∧ seg_pc g' s' sg' p' ∧ p' ≠ PcBad) ∨
  ∃ h k, p' = Hz h k ∧ entry h = true ∧ rec_of h = Some r ∧ me_of h = None ∧ (∀ r a, h ≠ Retire r a) ∧ cont_ok h k.

Lemma goes_thread g' s' r j a sg' p' : dom s' = dom s → hold (pcs t) = Some (r, j, a) → heap s' a = Some sg' → goes_on g' s' r j a sg' p' → thread_ok g' s' t p'.
Proof.
  intros Ed Hh Hsg Hg. destruct (held t r j a Hh) as (_ & Ho & Hs & _). destruct Hg as [(E & Hp & Hb)|(h & k & -> & _ & _ & _ & _ & Hc)].
  - split; [|by intros h k ->|done]. rewrite E, Ed. intros ? ? ? [= <- <- <-]. eauto.
  - split; [done| |done]. intros ? ? [= <- <-]. done.
Qed.

Lemma goes_hz g' s' r j a sg' p' h : hold (pcs t) = Some (r, j, a) → goes_on g' s' r j a sg' p' → hv p' = Some h →
  entry h = true ∧ thr_ok (dom s) t h ∧ ∀ r a, h ≠ Retire r a.
Proof.
  intros Hh Hg E. destruct (held t r j a Hh) as (_ & Ho & _). destruct Hg as [(E' & _ & _)|(h' & k & -> & H1 & H2 & H3 & H4 & _)]; [by destruct p'|].
  injection E as ->. split_and!; [done| |done]. by eapply thr_entry.
Qed.

Definition same_work (p p' : @pc T) : Prop :=
  ticket p' = ticket p ∧ range p' = range p ∧ mid p' = mid p ∧ filling p' = filling p ∧ fresh_of p' = None.

Lemma cell1_same sg c p' : same_work (pcs t) p' → cell1 g s pcs sg c → cell1 g s (<[t:=p']> pcs) sg c.
Proof. intros (E1 & E2 & E3 & E4 & _) H. by eapply cell1_iff; [done|unfold in_range; rewrite ?E1, ?E2, ?E3, ?E4..]. Qed.

Lemma same_put a sg : heap s a = Some sg → ∀ b, heap s b = <[a:=Some sg]> (heap s) b.
Proof. intros Hsg b. destruct (decide (a = b)) as [<-|]; rewrite ?fn_insert_eq, ?fn_insert_ne by done; done. Qed.

(** Nothing shared changes. *)
Lemma local_inv r j a sg p' : hold (pcs t) = Some (r, j, a) → heap s a = Some sg → same_work (pcs t) p' →
  goes_on g s r j a sg p' → Inv g s (<[t:=p']> pcs) q.
Proof.
  intros Hh Hsg Hw Hg. destruct (held t r j a Hh) as (Ha & _ & _ & sg0 & Hsg0 & Hp & Hok). rewrite Hsg in Hsg0. simplify_eq.
  pose proof (iv_cell _ _ _ _ HI) as [C1 C2 C3 C4]. destruct (Hw) as (E1 & E2 & E3 & E4 & E5).
  eapply (put_inv g s r j a sg0 sg0 p' q); try done.
  - by apply same_put.
  - by left.
  - intros c Hc. apply cell1_same; [done|by eapply C4].
  - intros u n c Hu E E'. rewrite E1 in E. by eapply Hu, (C1 u t).
  - intros n c E. rewrite E1 in E. destruct (concern_held t n c (or_introl E)) as (? & ? & ? & ? & Hh' & _ & Hs' & En & _). rewrite Hh in Hh'. simplify_eq. done.
  - intros u n c Hu (lo & stop & E & Hc) E'. rewrite E2 in E. by eapply Hu, (C2 u t); [done|exists lo, stop].
  - intros n c (lo & stop & E & Hc). rewrite E2 in E. destruct (concern_held t n c (or_intror (ex_intro _ lo (ex_intro _ stop (conj E Hc))))) as (? & ? & ? & ? & Hh' & _ & Hs' & En & _). rewrite Hh in Hh'. simplify_eq. done.
  - intros n c E. rewrite E3 in E. destruct (pcs t); simplify_eq/=; destruct Hp as [[] _]; done.
  - intros u Hu. split; [|done]. auto.
  - by eapply goes_thread.
  - apply (iv_abs _ _ _ _ HI).
  - intros h. by eapply goes_hz.
Qed.

Lemma local_good r j a sg p' st' : hold (pcs t) = Some (r, j, a) → heap s a = Some sg → same_work (pcs t) p' →
  goes_on g s r j a sg p' → lmove segment_spec q (pend t) q st' → stat g p' st' → good g pcs q pend t s p'.
Proof. intros Hh Hsg Hw Hg Hm Hs. eapply good_self; [done|by eapply local_inv|done|done]. Qed.

Lemma stay_good r j a sg p' : hold (pcs t) = Some (r, j, a) → heap s a = Some sg → same_work (pcs t) p' →
  stat g p' (pend t) → goes_on g s r j a sg p' → good g pcs q pend t s p'.
Proof. intros. eapply local_good; try done. apply lmove_stay. Qed.

(** ** Pops *)

Lemma content_none sg : (∀ c, deq sg ≤ c < K → lin g (num sg) c = None) → content g sg = [].
Proof.
  intros H. unfold content. assert (∀ c, c ∈ seqZ (deq sg) (K - deq sg) → lin g (num sg) c = None) as H' by (intros c Hc%elem_of_seqZ; apply H; lia).
  revert H'. generalize (seqZ (deq sg) (K - deq sg)). intros l. induction l as [|c l IH]; intros Hl; [done|]. simpl.
  rewrite Hl by (by left). apply IH. intros; apply Hl; by right.
Qed.

(** The only segment, with no element left in it: the queue is empty. *)
Lemma queue_empty a sg : pub g a → heap s a = Some sg → num sg ≤ hn g → next sg = None → (∀ c, deq sg ≤ c < K → lin g (num sg) c = None) → q = [].
Proof.
  intros Ha Hsg Hn Hx Hl. destruct (only_segment g s (iv_chain _ _ _ _ HI) a sg Ha Hsg Hn (or_introl Hx)) as [Ec ->].
  rewrite (iv_abs _ _ _ _ HI), Ec. simpl. unfold content_at. rewrite Hsg, content_none by done. done.
Qed.

Lemma goes_seg g' s' r j a sg' p' : hold p' = Some (r, j, a) → seg_pc g' s' sg' p' → goes_on g' s' r j a sg' p'.
Proof. intros Hh Hp. left. split_and!; try done. by intros ->. Qed.
Lemma goes_pop_loop g' s' r j a sg' : goes_on g' s' r j a sg' (pop_loop r).
Proof. right. by eexists _, _. Qed.
Lemma goes_pop_done g' s' r j a sg' x : goes_on g' s' r j a sg' (pop_done r x).
Proof. right. by eexists _, _. Qed.
Lemma goes_push_loop g' s' r j a sg' vs : goes_on g' s' r j a sg' (push_loop r vs).
Proof. right. unfold push_loop. destruct vs; by eexists _, _. Qed.

(** A pop gives its cell up: it is skipped. *)
Lemma drop_ticket r a sg n c st' : hold (pcs t) = Some (r, kPopSlot, a) → heap s a = Some sg → ticket (pcs t) = Some (n, c) →
  state_at sg c = kSkipped → lmove segment_spec q (pend t) q st' → (∃ ws, popping st' ws) → good g pcs q pend t s (pop_loop r).
Proof.
  intros Hh Hsg Ht Hsk Hm Hs. destruct (held t _ _ a Hh) as (Ha & _ & _ & sg0 & Hsg0 & Hp & Hok). rewrite Hsg in Hsg0. simplify_eq.
  pose proof (iv_cell _ _ _ _ HI) as [C1 C2 C3 C4].
  assert (num sg0 = n) as <-.
  { destruct (concern_held t n c (or_introl Ht)) as (? & ? & ? & ? & Hh' & _ & Hs' & En & _). rewrite Hh in Hh'. by simplify_eq. }
  assert (range (pcs t) = None ∧ mid (pcs t) = None) as [Er Em] by (by destruct (pcs t)).
  eapply (good_self g q st'); [done|..|done|done].
  apply (put_inv g s r kPopSlot a sg0 sg0 (pop_loop r) q); put_side; [by apply same_put| | |by eapply goes_thread; [..|apply goes_pop_loop]|intros h; by eapply (goes_hz g s _ _ _ sg0); [|apply goes_pop_loop]].
  - intros c' Hc'. pose proof (C4 _ _ c' Ha Hsg Hc') as Hc1. destruct (decide (c' = c)) as [->|Hne].
    + destruct Hc1 as [H1 H2 H3 H4 H5]. rewrite Hsk in *.
      split; rewrite ?Hsk; try done.
      * intros v Hv. destruct (H2 v Hv) as [Hm'|[? _]]; [left|done]. apply midp_keep; [by rewrite Em|done].
      * intros Hl. destruct (H4 Hl) as [?|Hf]; [by left|right]. apply fillp_keep; [by apply in_range_none|done].
      * by left.
    + eapply cell1_frame; try done; [|by apply indiff_none]. split_and!; [congruence|by apply in_range_none|congruence].
  - intros u Hu. split; [|done]. auto.
Qed.

(** What a pop that holds a ticket may find. *)
Lemma pop_settled r a sg n i st : hold (pcs t) = Some (r, kPopSlot, a) → heap s a = Some sg → ticket (pcs t) = Some (n, i) → same_work (pcs t) (PoTake r a n i) →
  num sg ≤ hn g ∧ num sg = n ∧ 0 ≤ i < K ∧ i < deq sg → state_at sg i = st → st ≠ kEmpty →
  stat g (PoTake r a n i) (pend t) → good g pcs q pend t s (settle r a n i st).
Proof.
  intros Hh Hsg Ht Hw Hi <- Hne Hs. destruct (held t _ _ a Hh) as (Ha & _ & _ & sg0 & Hsg0 & Hp & Hok). rewrite Hsg in Hsg0. simplify_eq.
  destruct Hi as (H1 & <- & H2 & H3). destruct (state_at sg0 i) eqn:Es; try done.
  - eapply stay_good; try done. apply goes_seg; [done|]. simpl. split_and!; done || lia.
  - eapply drop_ticket; try done; [constructor|]. simpl in Hs. by rewrite (proj1 (so_skip _ _ _ Hok i H2 Es)) in Hs.
  - by destruct (so_state _ _ _ Hok i H2).
Qed.

(** The steps of a pop that change nothing shared. *)
Lemma pop_local p p' : pcs t = p → match p with PoFaa _ _ | PoSkip _ _ _ _ | PoTake _ _ _ _ | PoSwTail _ _ _ | PoSwHead _ _ _ => False | _ => True end →
  pop_step K s p = Some (s, p') → good g pcs q pend t s p'.
Proof.
  intros Hp Hk Hstep. pose proof (Hst t) as Hs.
  assert (∀ r j a, hold p = Some (r, j, a) → ∃ sg, pub g a ∧ heap s a = Some sg ∧ seg_pc g s sg p ∧ seg_ok g s sg) as Hheld.
  { intros r j a Hh. rewrite <-Hp in Hh. destruct (held t r j a Hh) as (Ha & _ & _ & sg & Hsg & Hpc & Hok). rewrite Hp in Hpc. eauto. }
  destruct p; try done; simpl in Hstep; unfold at_seg in Hstep; destruct (Hheld _ _ _ eq_refl) as (sg & Ha & Hsg & Hpc & Hok); rewrite ?Hsg in Hstep;
    rewrite Hp in Hs; simpl in Hs; pose proof (so_range _ _ _ Hok) as (Hd0 & He0 & Hn0).
  - (* deq *) injection Hstep as <-. eapply stay_good; rewrite ?Hp; try done. apply goes_seg; [done|]. simpl in *. lia.
  - (* enq *) destruct Hs as (ws & me & Hs). simpl in Hpc. destruct (Z.leb_spec (enq sg) d) as [Hle|]; injection Hstep as <-.
    + destruct (next sg) as [nx|] eqn:Ex.
      * eapply stay_good; rewrite ?Hp; [done|done|done|simpl; rewrite Hs; exists ws; split; [by exists me|done]|]. apply goes_seg; [done|]. simpl. rewrite Ex. split; [lia|done].
      * assert (q = []) as Eq. { eapply queue_empty; try done; [lia|]. intros c Hc. apply (so_unres _ _ _ Hok). lia. }
        eapply local_good; rewrite ?Hp; try done; [apply goes_seg; [done|]; simpl; split; [lia|done]| |].
        -- rewrite Hs, Eq. eapply lmove_see with (r := RPop None); [done|constructor].
        -- simpl. exists (RPop None :: ws). split; [by exists me|]. intros _. by left.
    + eapply stay_good; rewrite ?Hp; [done|done|done|simpl; rewrite Hs; exists ws; by exists me|]. apply goes_seg; [done|]. simpl. lia.
  - (* next, before a claim *) destruct Hs as (ws & [me Hs] & Hb). simpl in Hpc. destruct Hpc as [Hn Hbx]. destruct (next sg) as [nx|] eqn:Ex; injection Hstep as <-.
    + eapply stay_good; rewrite ?Hp; [done|done|done|simpl; rewrite Hs; exists ws; by exists me|]. by apply goes_seg.
    + destruct b; [|by destruct Hbx]. eapply (local_good _ _ _ _ _ (IDone (RPop None))); rewrite ?Hp; [done|done|done|apply goes_pop_done|rewrite Hs; by apply lmove_commit, Hb|done].
  - (* next, past the end *) destruct Hs as (ws & me & Hs). simpl in Hpc. destruct (next sg) as [nx|] eqn:Ex; injection Hstep as <-.
    + eapply stay_good; rewrite ?Hp; [done|done|done|simpl; rewrite Hs; exists ws; by exists me|]. apply goes_seg; [done|]. simpl. rewrite Ex. split_and!; [lia|lia|done].
    + assert (q = []) as Eq by (eapply queue_empty; try done; [lia|intros; lia]).
      eapply (local_good _ _ _ _ _ (IDone (RPop None))); rewrite ?Hp; [done|done|done|apply goes_pop_done|rewrite Hs; apply lmove_lin; by rewrite Eq|done].
  - (* the cell's state *) destruct (state_at sg i) as [| | |] eqn:Es; injection Hstep as <-;
      [|by apply (pop_settled r h sg n i kFull); rewrite ?Hp|by apply (pop_settled r h sg n i kSkipped); rewrite ?Hp
       |by apply (pop_settled r h sg n i kTaken); rewrite ?Hp].
    eapply stay_good; rewrite ?Hp; try done. by apply goes_seg.
  - (* patience *) destruct (spin <? kPatience); [destruct (enq sg <=? i)|]; injection Hstep as <-;
      (eapply stay_good; rewrite ?Hp; try done; by apply goes_seg).
  - (* reserved? *) simpl in Hpc. destruct (Z.ltb_spec i (enq sg)); injection Hstep as <-;
      (eapply stay_good; rewrite ?Hp; try done; apply goes_seg; [done|]; simpl; split_and!; done || lia).
  - (* wait *) simpl in Hpc. assert (num sg ≤ hn g ∧ num sg = n ∧ 0 ≤ i < K ∧ i < deq sg) as Hi by lia.
    destruct (state_at sg i) as [| | |] eqn:Es; injection Hstep as <-;
      [|by apply (pop_settled r h sg n i kFull); rewrite ?Hp|by apply (pop_settled r h sg n i kSkipped); rewrite ?Hp
       |by apply (pop_settled r h sg n i kTaken); rewrite ?Hp].
    eapply stay_good; rewrite ?Hp; try done. by apply goes_seg.
Qed.

(** *** The steps of a pop that change something *)

Lemma chain_cons : ∃ rest, chain g = head_ s :: rest ∧ head_ s ∉ rest.
Proof.
  destruct (head_segment _ _ (iv_chain _ _ _ _ HI)) as [H0 (sg & Hsg & Hn)]. destruct (chain g) as [|x rest] eqn:E; [done|]. injection H0 as ->.
  exists rest. split; [done|]. intros [i Hi]%list_elem_of_lookup.
  destruct (co_chain _ _ (iv_chain _ _ _ _ HI) (S i) (head_ s)) as (sg' & Hsg' & Hn' & _); [by rewrite E|]. rewrite Hsg in Hsg'. simplify_eq. lia.
Qed.

Lemma flat_map_ext_in {A B} (f f' : A → list B) l : (∀ x, x ∈ l → f x = f' x) → flat_map f l = flat_map f' l.
Proof. induction l as [|x l IH]; intros H; [done|]. simpl. rewrite H, IH; [done| |by left]. intros; apply H; by right. Qed.

(** The contents are as they were. *)
Lemma abs_same g' s' : chain g' = chain g → (∀ b, b ∈ chain g → content_at g' s' b = content_at g s b) → abs_ok g' s' q.
Proof. intros Ec H. unfold abs_ok. rewrite Ec, (iv_abs _ _ _ _ HI). apply flat_map_ext_in. intros b Hb. by rewrite H. Qed.

Lemma content_put a sg sg' s' : heap s a = Some sg → (∀ b, heap s' b = <[a:=Some sg']> (heap s) b) → content g sg' = content g sg →
  ∀ b, b ∈ chain g → content_at g s' b = content_at g s b.
Proof.
  intros Hsg E Ec b _. unfold content_at. rewrite E. destruct (decide (a = b)) as [<-|]; rewrite ?fn_insert_eq, ?fn_insert_ne by done; [by rewrite Hsg|done].
Qed.

Lemma content_step sg : deq sg < K → content g sg = option_list (lin g (num sg) (deq sg)) ++ omap (lin g (num sg)) (seqZ (deq sg + 1) (K - (deq sg + 1))).
Proof.
  intros H. unfold content. rewrite seqZ_cons by lia. replace (Z.succ (deq sg)) with (deq sg + 1) by lia.
  replace (Z.pred (K - deq sg)) with (K - (deq sg + 1)) by lia. simpl. by destruct (lin g (num sg) (deq sg)).
Qed.

(** Two threads that claim or take the same cell are at the same segment. *)
Lemma ticket_seg u a sg c : pub g a → heap s a = Some sg → ticket (pcs u) = Some (num sg, c) → 0 ≤ c < K ∧ c < deq sg.
Proof.
  intros Ha Hsg Ht. destruct (concern_held u _ _ (or_introl Ht)) as (r & j & b & sg' & Hh & Hb & Hsb & En & Hp & _).
  assert (b = a) as -> by (by eapply (co_inj _ _ (iv_chain _ _ _ _ HI))). rewrite Hsg in Hsb. simplify_eq.
  destruct (pcs u); simplify_eq/=; lia.
Qed.
Lemma range_seg u a sg c : pub g a → heap s a = Some sg → in_range (pcs u) (num sg) c →
  0 ≤ c < K ∧ c < enq sg ∧ state_at sg c ≠ kFull.
Proof.
  intros Ha Hsg Ht. destruct (concern_held u _ _ (or_intror Ht)) as (r & j & b & sg' & Hh & Hb & Hsb & En & Hp & _).
  assert (b = a) as -> by (by eapply (co_inj _ _ (iv_chain _ _ _ _ HI))). rewrite Hsg in Hsb. simplify_eq.
  destruct Ht as (lo & stop & Er & Hc). destruct (pcs u); simplify_eq/=; destruct Hp as [[? ? ? Hs] _]; split_and!; try lia; by apply Hs.
Qed.

Lemma pop_faa r a sg : pcs t = PoFaa r a → heap s a = Some sg → deq sg < 2 ^ 64 - 1 →
  good g pcs q pend t (put_seg s a (set_deq (deq sg ⊕₆₄ 1) sg)) (if K <=? deq sg then PoNext1 r a else PoState r a (num sg) (deq sg)).
Proof.
  intros Hp Hsg Hfit. assert (hold (pcs t) = Some (r, kPopSlot, a)) as Hh by by rewrite Hp.
  destruct (held t _ _ a Hh) as (Ha & _ & _ & sg0 & Hsg0 & Hpc & Hok). rewrite Hsg in Hsg0. simplify_eq. rewrite Hp in Hpc. simpl in Hpc.
  pose proof (iv_cell _ _ _ _ HI) as [C1 C2 C3 C4]. pose proof (so_range _ _ _ Hok) as (Hd0 & He0 & Hn0). rewrite u64_small by lia.
  set (sg' := set_deq (deq sg0 + 1) sg0). pose proof (Hst t) as Hs. rewrite Hp in Hs. destruct Hs as (ws & me & Hs).
  assert (seg_ok g (put_seg s a sg') sg') as Hok' by (destruct Hok; split; try done; simpl; lia).
  assert (heap (put_seg s a sg') a = Some sg') as Hsg' by (simpl; by rewrite fn_insert_eq).
  destruct (Z.leb_spec K (deq sg0)) as [HK1|HK1].
  - (* past the end *) eapply (good_self g q (ICalled (Pop me) ws)); [rewrite Hs; apply lmove_stay| |by exists ws, me|done].
    assert (goes_on g (put_seg s a sg') r kPopSlot a sg' (PoNext1 r a)) as Hg by (apply goes_seg; [done|]; simpl; lia).
    apply (put_inv g (put_seg s a sg') r kPopSlot a sg0 sg' (PoNext1 r a) q); put_side; [simpl; lia|by right|..].
    + intros c Hc. eapply cell1_frame; [by eapply C4|..]; rewrite ?Hp; try done; try (by apply indiff_none). simpl. lia.
    + intros u Hu. split; [|done]. auto.
    + by eapply goes_thread.
    + apply abs_same; [done|]. eapply content_put; [done|done|]. unfold content. simpl. rewrite !seqZ_nil by lia. done.
  - (* a cell *) assert (a = head_ s) as Eh by (by eapply (undrained_is_head g s (iv_chain _ _ _ _ HI) a sg0)).
    destruct chain_cons as (rest & Ec & Hrest). set (p' := PoState r a (num sg0) (deq sg0)).
    assert (q = option_list (lin g (num sg0) (deq sg0)) ++ content g sg' ++ flat_map (content_at g s) rest) as Eq.
    { rewrite (iv_abs _ _ _ _ HI), Ec. simpl. unfold content_at at 1. rewrite <-Eh, Hsg, content_step by done. by rewrite <-app_assoc. }
    assert (∀ u, ticket (pcs u) ≠ Some (num sg0, deq sg0)) as Hno.
    { intros u E. destruct (ticket_seg u a sg0 _ Ha Hsg E). lia. }
    assert (goes_on g (put_seg s a sg') r kPopSlot a sg' p') as Hg by (apply goes_seg; [done|]; simpl; lia).
    assert (∀ q', abs_ok g (put_seg s a sg') q' → Inv g (put_seg s a sg') (<[t:=p']> pcs) q') as Hinv.
    { intros q' Habs. apply (put_inv g (put_seg s a sg') r kPopSlot a sg0 sg' p' q'); put_side; [simpl; lia|by right|..].
      - intros c Hc. destruct (decide (c = deq sg0)) as [->|Hne].
        + assert (tick (<[t:=p']> pcs) (num sg0) (deq sg0)) as Htk by (exists t; by rewrite fn_insert_eq).
          destruct (C4 a sg0 (deq sg0) Ha Hsg ltac:(lia)) as [H1 H2 H3 H4 H5].
          split; simpl; try done.
          * intros v Hv. destruct (H2 v Hv) as [Hm|[Hf _]]; [left|right; by split; [|right]]. apply midp_keep; [by rewrite Hp|done].
          * intros Hf _. apply H3; [done|left; lia].
          * intros Hl. destruct (H4 Hl) as [?|Hf]; [by left|right]. apply fillp_keep; [rewrite Hp; by apply in_range_none|done].
          * intros Hl. destruct (H5 Hl) as [?|Hf]; [by left|right]. apply givep_keep; [rewrite Hp; by apply in_range_none|done].
        + eapply cell1_frame; [by eapply C4|..]; rewrite ?Hp; try done; [by apply indiff_none| |simpl; lia].
          split_and!; [|by apply in_range_none|done]. simpl. congruence.
      - intros u n c Hu [= <- <-]. apply Hno.
      - by intros n c [= <- <-].
      - intros u Hu. split; [|done]. auto.
      - by eapply goes_thread. }
    assert (flat_map (content_at g (put_seg s a sg')) (chain g) = content g sg' ++ flat_map (content_at g s) rest) as Ef.
    { rewrite Ec. simpl. unfold content_at at 1. rewrite <-Eh, Hsg'. f_equal. apply flat_map_ext_in. intros b Hb. unfold content_at. simpl.
      rewrite fn_insert_ne; [done|]. intros <-. rewrite Eh in Hb. done. }
    destruct (lin g (num sg0) (deq sg0)) as [v|] eqn:El; simpl in Eq.
    + eapply (good_self g (content g sg' ++ flat_map (content_at g s) rest) (IDone (RPop (Some v)))); [|by apply Hinv| |done].
      * rewrite Hs. apply lmove_lin. simpl. by rewrite Eq.
      * simpl. by rewrite El.
    + eapply (good_self g q (ICalled (Pop me) ws)); [rewrite Hs; apply lmove_stay|apply Hinv; unfold abs_ok; by rewrite Ef| |done].
      simpl. rewrite El. by exists ws, me.
Qed.

(** A pop gives up a cell no push has filled. *)
Lemma pop_skip r a n i sg : let s' := set_fates (put_seg s a (set_state i kSkipped sg)) (decide_cell (n, i) false (fates s)) in
  pcs t = PoSkip r a n i → heap s a = Some sg → state_at sg i = kEmpty → consistent s' → good g pcs q pend t s' (pop_loop r).
Proof.
  intros s' Hp Hsg Hem Hcon. assert (hold (pcs t) = Some (r, kPopSlot, a)) as Hh by by rewrite Hp.
  destruct (held t _ _ a Hh) as (Ha & _ & _ & sg0 & Hsg0 & Hpc & Hok). rewrite Hsg in Hsg0. simplify_eq. rewrite Hp in Hpc. simpl in Hpc.
  destruct Hpc as (Hn & <- & Hi & Hid). pose proof (iv_cell _ _ _ _ HI) as [C1 C2 C3 C4].
  destruct (so_len _ _ _ Hok) as [Hl1 Hl2]. set (sg' := set_state i kSkipped sg0).
  assert (∀ c, 0 ≤ c → state_at sg' c = if decide (c = i) then kSkipped else state_at sg0 c) as Hst' by (intros; by apply state_set).
  assert (fates s' !! (num sg0, i) = Some false) as Hfi.
  { apply decide_cell_eq. intros E. apply (so_true _ _ _ Hok) in E; [congruence|done]. }
  assert (∀ n c, (n, c) ≠ (num sg0, i) → fates s' !! (n, c) = fates s !! (n, c)) as Hfo by (intros; by apply decide_cell_ne).
  assert (lin g (num sg0) i = None) as Hli.
  { destruct (lin g (num sg0) i) eqn:E; [|done]. destruct (so_oracle _ _ _ Hok i Hi) as [?|E']; [by eexists|congruence|]. by rewrite (Hcon _ _ Hfi) in E'. }
  assert (heap s' a = Some sg') as Hsg' by (simpl; by rewrite fn_insert_eq).
  assert (seg_ok g s' sg') as Hok'.
  { destruct Hok as [S1 S2 S3 S4 S5 S6 S7 S8]. split; try done.
    - simpl. by rewrite length_insert.
    - intros c Hc. rewrite Hst' by (simpl in *; lia). destruct (S3 c Hc) as (? & ? & ?). split_and!; try done. by case_decide.
    - intros c Hc. rewrite Hst' by lia. case_decide; [done|auto].
    - intros c Hc. rewrite Hst' by lia. case_decide; [done|auto].
    - intros c Hc. rewrite Hst' by lia. case_decide as E; [subst; done|]. rewrite Hfo by congruence. auto.
    - intros c Hc. rewrite Hst' by lia. case_decide as E; [subst; simpl in *; congruence|]. rewrite Hfo by congruence. auto.
    - intros c Hc Hl. simpl in Hl. rewrite Hst' by lia. case_decide as E; [subst; rewrite Hli in Hl; by destruct Hl|]. auto. }
  pose proof (Hst t) as Hs. rewrite Hp in Hs. simpl in Hs. rewrite Hli in Hs. destruct Hs as (ws & me & Hs).
  eapply (good_self g q (ICalled (Pop me) ws)); [rewrite Hs; apply lmove_stay| |by exists ws, me|done].
  apply (put_inv g s' r kPopSlot a sg0 sg' (pop_loop r) q); put_side.
  - apply decide_cell_sub.
  - intros n c Hne. apply Hfo. congruence.
  - intros c Hc. pose proof (C4 a sg0 c Ha Hsg Hc) as Hc1. destruct (decide (c = i)) as [->|Hne].
    + destruct Hc1 as [H1 H2 H3 H4 H5]. split; simpl; rewrite ?Hst', ?decide_True by lia; try done.
      * intros v Hv. destruct (H2 v Hv) as [Hm|[Hf _]]; [left|congruence]. apply midp_keep; [by rewrite Hp|done].
      * intros Hl. rewrite Hli in Hl. by destruct Hl.
      * by left.
    + eapply cell1_frame; [done|..]; rewrite ?Hp; try done; [|by apply indiff_none|by rewrite Hst', decide_False by lia|apply Hfo; congruence].
      split_and!; [simpl; congruence|by apply in_range_none|done].
  - intros u Hu. split.
    + intros c Hc. destruct (range_seg u a sg0 c Ha Hsg Hc) as (? & _). rewrite Hst' by lia. case_decide; auto.
    + intros c Hc Hf. destruct (ticket_seg u a sg0 c Ha Hsg Hc) as (? & _). rewrite Hst', decide_False by (lia || congruence). done.
  - eapply goes_thread; [done|done|done|apply goes_pop_loop].
  - apply abs_same; [done|]. by eapply content_put.
  - intros h. eapply (goes_hz g s _ _ _ sg0); [done|apply goes_pop_loop].
Qed.

(** A pop takes its element. *)
Lemma pop_takes r a n i sg v : pcs t = PoTake r a n i → heap s a = Some sg → cells sg !! Z.to_nat i = Some (Some v) →
  good g pcs q pend t (put_seg s a (set_cell i None sg)) (pop_done r (Some v)).
Proof.
  intros Hp Hsg Hv. assert (hold (pcs t) = Some (r, kPopSlot, a)) as Hh by by rewrite Hp.
  destruct (held t _ _ a Hh) as (Ha & _ & _ & sg0 & Hsg0 & Hpc & Hok). rewrite Hsg in Hsg0. simplify_eq. rewrite Hp in Hpc. simpl in Hpc.
  destruct Hpc as (Hn & <- & Hi & Hid & Hfu). pose proof (iv_cell _ _ _ _ HI) as [C1 C2 C3 C4].
  destruct (so_len _ _ _ Hok) as [Hl1 Hl2]. set (sg' := set_cell i None sg0). set (s' := put_seg s a sg').
  assert (∀ c, 0 ≤ c → cells sg' !! Z.to_nat c = if decide (c = i) then Some None else cells sg0 !! Z.to_nat c) as Hce by (intros; by apply cell_set).
  assert (tick pcs (num sg0) i) as Htk by (exists t; by rewrite Hp).
  assert (lin g (num sg0) i = Some v) as Hli.
  { pose proof (c1_full _ _ _ _ _ (C4 a sg0 i Ha Hsg Hi) Hfu (or_intror Htk)). congruence. }
  assert (heap s' a = Some sg') as Hsg' by (simpl; by rewrite fn_insert_eq).
  assert (seg_ok g s' sg') as Hok'.
  { destruct Hok as [S1 S2 S3 S4 S5 S6 S7 S8]. split; try done.
    - simpl. by rewrite length_insert.
    - intros c Hc. simpl in Hc. destruct (S3 c Hc) as (? & ? & ?). split_and!; try done. rewrite Hce by (simpl in *; lia). by case_decide. }
  assert (¬ tick (<[t:=pop_done r (Some v)]> pcs) (num sg0) i) as Hnt.
  { intros [u Hu]. destruct (decide (u = t)) as [->|Hne]; [by rewrite fn_insert_eq in Hu|]. rewrite fn_insert_ne in Hu by done.
    by eapply Hne, C1; [|rewrite Hp]. }
  pose proof (Hst t) as Hs. rewrite Hp in Hs. simpl in Hs. rewrite Hli in Hs.
  eapply (good_self g q (IDone (RPop (Some v)))); [rewrite Hs; apply lmove_stay| |done|done].
  apply (put_inv g s' r kPopSlot a sg0 sg' (pop_done r (Some v)) q); put_side.
  - intros c Hc. pose proof (C4 a sg0 c Ha Hsg Hc) as Hc1. destruct (decide (c = i)) as [->|Hne].
    + destruct Hc1 as [H1 H2 H3 H4 H5]. split; change (state_at sg' i) with (state_at sg0 i).
      * congruence.
      * intros w. rewrite Hce, decide_True by lia. done.
      * intros _ [?|?]; [simpl in *; lia|done].
      * intros _. by left.
      * intros Hl. destruct (H5 Hl) as [?|Hf]; [by left|right]. apply givep_keep; [rewrite Hp; by apply in_range_none|done].
    + eapply cell1_frame; [done|..]; rewrite ?Hp; try done; [|by apply indiff_none|by rewrite Hce, decide_False by lia].
      split_and!; [simpl; congruence|by apply in_range_none|done].
  - intros u Hu. split; [|done]. intros c Hc. destruct (range_seg u a sg0 c Ha Hsg Hc) as (? & _ & Hnf). split_and!; [by left| |done].
    rewrite Hce, decide_False by (lia || congruence). done.
  - eapply goes_thread; [done|done|done|apply goes_pop_done].
  - apply abs_same; [done|]. by eapply content_put.
  - intros h. eapply (goes_hz g s _ _ _ sg0); [done|apply goes_pop_done].
Qed.

Lemma cells_same p' : same_work (pcs t) p' → cell_ok g s (<[t:=p']> pcs).
Proof.
  intros Hw. pose proof (iv_cell _ _ _ _ HI) as [C1 C2 C3 C4]. pose proof Hw as (E1 & E2 & E3 & E4 & E5). split.
  - intros u v n c. two_threads u v; rewrite ?E1; intros; [congruence|..]; (rewrite ?Eu, ?Ev; by eapply C1).
  - intros u v n c. unfold in_range. two_threads u v; rewrite ?E2; intros; [congruence|..]; (rewrite ?Eu, ?Ev; by eapply C2).
  - intros u v a. two_threads u v; rewrite ?E5; [done..|apply C3].
  - intros a sg c Ha Hsg Hc. apply cell1_same; [done|by eapply C4].
Qed.

(** ** The head and the tail move on *)

Lemma chain_at a sg : a ∈ chain g → heap s a = Some sg → hn g ≤ num sg ∧ ∀ nx, next sg = Some nx → nx ∈ chain g ∧ ∃ sgx, heap s nx = Some sgx ∧ num sgx = num sg + 1.
Proof.
  intros [i Hi]%list_elem_of_lookup Hsg. destruct (co_chain _ _ (iv_chain _ _ _ _ HI) _ _ Hi) as (sg' & Hsg' & Hn & Hx & _).
  rewrite Hsg in Hsg'. simplify_eq. split; [lia|]. intros nx Enx. rewrite Hx in Enx.
  destruct (co_chain _ _ (iv_chain _ _ _ _ HI) _ _ Enx) as (sgx & Hsgx & Hnx & _). split; [by eapply list_elem_of_lookup_2|].
  exists sgx. split; [done|lia].
Qed.

Lemma tail_inv sg nx : heap s (tail_ s) = Some sg → next sg = Some nx → Inv g (set_tail s nx) pcs q.
Proof.
  intros Hsg Hx. pose proof HI as [I1 I2 I3 I4 I5 I6]. destruct (chain_at _ _ (co_tail _ _ I1) Hsg) as [Hhn Hnx].
  destruct (Hnx nx Hx) as (Hin & sgx & Hsgx & Hnum). split; try done.
  - destruct I1 as [C1 C2 C3 C4 C5 C6 C7 C8 C9]. split; try done. intros a sga Ha Hsga. by destruct (C4 a sga Ha Hsga).
  - destruct I2 as [C1 C2 C3 C4]. split; try done. intros a sga c Ha Hsga Hc. by destruct (C4 a sga c Ha Hsga Hc).
  - intros u. destruct (I3 u) as [T1 T2 T3]. split; try done. intros r j a Hh. destruct (T1 r j a Hh) as (Ho & Hs & sga & Hsga & Hp). split_and!; try done.
    exists sga. split; [done|]. eapply seg_pc_mono; [..|exact Hp]; try done; [by auto|].
    intros r' a' nx' E _. simpl. rewrite E in Hh, Hp. simplify_eq/=. intros ->. rewrite Hsga in Hsgx. simplify_eq. lia.
Qed.

(** The head moves past a drained segment, which is out of reach then. *)
Lemma head_inv sg nx : heap s (head_ s) = Some sg → next sg = Some nx → K ≤ deq sg → tail_ s ≠ head_ s →
  Inv (Ghost (lin g) (hn g + 1) (tail (chain g)) (head_ s :: old g)) (set_head s nx) pcs q.
Proof.
  intros Hsg Hx Hd Ht. pose proof HI as [I1 I2 I3 I4 I5 I6]. destruct (chain_cons) as (rest & Ec & Hnr).
  set (g' := Ghost (lin g) (hn g + 1) (tail (chain g)) (head_ s :: old g)).
  assert (∀ b, pub g' b ↔ pub g b) as Hpub.
  { intros b. unfold pub. simpl. rewrite Ec. simpl. rewrite !elem_of_cons. tauto. }
  assert (end_num g' = end_num g) as Een by (unfold end_num; simpl; rewrite Ec; simpl; lia).
  destruct (head_segment _ _ I1) as [H0 (sg0 & Hsg0 & Hn0)]. rewrite Hsg in Hsg0. simplify_eq.
  destruct (co_chain _ _ I1 _ _ H0) as (sg1 & Hsg1 & _ & Hx1 & He1 & _). rewrite Hsg in Hsg1. simplify_eq. rewrite Hx in Hx1.
  assert (rest !! 0%nat = Some nx) as Hr0 by (by rewrite Ec in Hx1).
  split; try done.
  - destruct I1 as [C1 C2 C3 C4 C5 C6 C7 C8 C9]. split; rewrite ?Een; try done; simpl.
    + intros i b Hb. rewrite Ec in Hb |- *. simpl in *. destruct (C1 (S i) b) as (sb & Hsb & N1 & N2 & N3 & N4); [by rewrite Ec|].
      rewrite Ec in N2, N3. simpl in *. exists sb. split_and!; try done; [lia|intros; apply N3; lia|intros; apply N4; lia].
    + intros b [->|Hb]%elem_of_cons.
      * exists sg1. split_and!; [done|lia|done| |by eexists]. apply He1. rewrite Ec. simpl. apply lookup_lt_Some in Hr0. lia.
      * destruct (C2 b Hb) as (sb & ? & ? & ? & ? & ?). exists sb. split_and!; try done. lia.
    + intros b1 b2 s1 s2 H1%Hpub H2%Hpub. by apply C3.
    + intros b sb Hb%Hpub Hsb. by destruct (C4 b sb Hb Hsb).
    + rewrite Ec. simpl. by rewrite head_lookup.
    + rewrite Ec in C6 |- *. simpl. by apply elem_of_cons in C6 as [?|].
    + lia.
  - destruct I2 as [C1 C2 C3 C4]. split; try done. intros a sga c Ha%Hpub Hsga Hc. by destruct (C4 a sga c Ha Hsga Hc).
  - intros u. destruct (I3 u) as [T1 T2 T3]. split; try done. intros r j a Hh. destruct (T1 r j a Hh) as (Ho & Hs & sga & Hsga & Hp). split_and!; try done.
    exists sga. split; [done|]. eapply seg_pc_mono; [..|exact Hp]; try done; simpl; [lia|by auto|].
    intros b Hb. split; [done|]. apply Hpub.
  - eapply hz_mono; [done|..].
    + intros b. apply Hpub.
    + intros b Hb. by right.
    + intros b Hb. by right.
  - unfold abs_ok in *. simpl. rewrite I5, Ec. simpl. unfold content_at at 1. rewrite Hsg. unfold content. rewrite seqZ_nil by lia. simpl. done.
Qed.
End one_step.

Section moves.
Context (g : ghost) (s : @queue T) (pcs : nat → @pc T) (q : list T) (pend : nat → @istatus (@op T) (@res T)) (t : nat).
Context (HI : Inv g s pcs q) (Hst : ∀ u, stat g (pcs u) (pend u)).

Lemma pop_swing_tail r a nx : pcs t = PoSwTail r a nx →
  good g pcs q pend t (if decide (tail_ s = a) then set_tail s nx else s) (PoSwHead r a nx).
Proof.
  intros Hp. assert (hold (pcs t) = Some (r, kPopSlot, a)) as Hh by by rewrite Hp.
  destruct (held g s pcs q HI t _ _ a Hh) as (Ha & _ & _ & sg & Hsg & Hpc & Hok). rewrite Hp in Hpc. simpl in Hpc. destruct Hpc as (Hn & Hd & Hx).
  pose proof (Hst t) as Hs. rewrite Hp in Hs. case_decide as E.
  - rewrite <-E in Hsg. pose proof (tail_inv g s pcs q HI sg nx Hsg Hx) as HI'.
    destruct (chain_at g s pcs q HI _ _ (co_tail _ _ (iv_chain _ _ _ _ HI)) Hsg) as [Hhn Hnx]. destruct (Hnx nx Hx) as (_ & sgx & Hsgx & Hnum).
    eapply (stay_good g (set_tail s nx) pcs q pend t HI' Hst); rewrite ?Hp; try done; [by rewrite <-E|]. apply goes_seg; [done|]. simpl. split_and!; try done.
    rewrite <-E. intros Et. rewrite Et in Hsgx. rewrite Hsg in Hsgx. simplify_eq. lia.
  - eapply (stay_good g s pcs q pend t HI Hst); rewrite ?Hp; try done. by apply goes_seg.
Qed.

Lemma pop_swing_head r a nx : pcs t = PoSwHead r a nx → head_ s = a → good g pcs q pend t (set_head s nx) (Hz (Retire r a) KPop).
Proof.
  intros Hp E. assert (hold (pcs t) = Some (r, kPopSlot, a)) as Hh by by rewrite Hp.
  destruct (held g s pcs q HI t _ _ a Hh) as (Ha & Ho & _ & sg & Hsg & Hpc & Hok). rewrite Hp in Hpc. simpl in Hpc. destruct Hpc as (Hn & Hd & Hx & Htl).
  rewrite <-E in Hsg, Htl. pose proof (head_inv g s pcs q HI sg nx Hsg Hx Hd Htl) as HI'.
  pose proof (Hst t) as Hs. rewrite Hp in Hs. destruct Hs as (ws & me & Hs).
  set (g' := Ghost (lin g) (hn g + 1) (tail (chain g)) (head_ s :: old g)) in *.
  eapply (good_self g pcs q pend t Hst g' q (ICalled (Pop me) ws)); [rewrite Hs; apply lmove_stay| |by exists ws, me|done].
  destruct (head_pub g s (iv_chain _ _ _ _ HI)) as [_ Hng]. rewrite E in Hng. split; try apply HI'.
  - apply (cells_same g' (set_head s nx) pcs q t HI'). by rewrite Hp.
  - intros u. destruct (decide (u = t)) as [->|]; rewrite ?fn_insert_eq, ?fn_insert_ne by done; [|apply HI']. split; [done| |done]. by intros h k [= <- <-].
  - apply hz_go; [apply HI'|by rewrite Hp|]. intros h [= <-]. split_and!; [done|by apply (thr_entry _ _ _ r)|]. intros r' a' [= <- <-].
    pose proof (iv_hz _ _ _ _ HI) as Hz. split_and!.
    + unfold gone. simpl. rewrite E. by left.
    + intros r' x Hx' Hin. by apply Hng, (hz_ret _ _ _ _ Hz r' x).
    + intros u r' Hu. apply Hng. by destruct (hz_retire _ _ _ _ Hz u r' a Hu).
Qed.

(** Every step of a pop. *)
Lemma pop_good s' p p' : pcs t = p → counters_fit (@MState _ _ M s pcs) → consistent s' → pop_step K s p = Some (s', p') →
  good g pcs q pend t s' p'.
Proof.
  intros Hp Hfit Hcon Hstep.
  destruct (match p with PoFaa _ _ | PoSkip _ _ _ _ | PoTake _ _ _ _ | PoSwTail _ _ _ | PoSwHead _ _ _ => false | _ => true end) eqn:Ek.
  { assert (s' = s) as ->.
    { pose proof (tk_hold _ _ _ _ (iv_thread _ _ _ _ HI t)) as Ht. rewrite Hp in Ht.
      destruct p; simplify_eq/=; destruct (Ht _ _ _ eq_refl) as (_ & _ & sg & Hsg & _); unfold at_seg in Hstep; rewrite ?Hsg in Hstep; repeat case_match; simplify_eq; done. }
    eapply pop_local; [done|done|done| |done]. by destruct p. }
  assert (∀ r j a, hold p = Some (r, j, a) → ∃ sg, heap s a = Some sg ∧ seg_pc g s sg p ∧ pub g a ∧ seg_ok g s sg) as Hheld.
  { intros r j a Hh. rewrite <-Hp in Hh. destruct (held g s pcs q HI t r j a Hh) as (Ha & _ & _ & sg & Hsg & Hpc & Hok). rewrite Hp in Hpc. eauto 6. }
  pose proof (Hst t) as Hs. rewrite Hp in Hs.
  destruct p; try done; destruct (Hheld _ _ _ eq_refl) as (sg & Hsg & Hpc & Ha & Hok); simpl in Hstep, Hpc; unfold at_seg in Hstep; rewrite ?Hsg in Hstep.
  - injection Hstep as <- <-. eapply pop_faa; try done. specialize (Hfit t). simpl in Hfit. rewrite Hp in Hfit. simpl in Hfit. rewrite Hsg in Hfit. lia.
  - destruct (state_at sg i) eqn:Es; injection Hstep as <- <-; [by eapply pop_skip| | |];
      [by apply (pop_settled g s pcs q pend t HI Hst r h sg n i kFull); rewrite ?Hp
      |by apply (pop_settled g s pcs q pend t HI Hst r h sg n i kSkipped); rewrite ?Hp
      |by apply (pop_settled g s pcs q pend t HI Hst r h sg n i kTaken); rewrite ?Hp].
  - destruct Hpc as (Hn & <- & Hi & Hid & Hf). pose proof (c1_full _ _ _ _ _ (cl_at _ _ _ (iv_cell _ _ _ _ HI) h sg i Ha Hsg Hi) Hf) as Hv.
    specialize (Hv (or_intror (ex_intro _ t (eq_trans (f_equal ticket Hp) eq_refl)))).
    destruct (so_full _ _ _ Hok i Hi Hf) as [v Hl]. rewrite Hl in Hv. rewrite Hv in Hstep. injection Hstep as <- <-. by eapply pop_takes.
  - injection Hstep as <- <-. by eapply pop_swing_tail.
  - case_decide; injection Hstep as <- <-; [by eapply pop_swing_head|]. eapply (stay_good g s pcs q pend t HI Hst); rewrite ?Hp; try done. apply goes_pop_loop.
Qed.

(** ** Pushes *)

Lemma at_pc p r j a : pcs t = p → hold p = Some (r, j, a) →
  hold (pcs t) = Some (r, j, a) ∧ pub g a ∧ ∃ sg, heap s a = Some sg ∧ seg_pc g s sg p ∧ seg_ok g s sg.
Proof. intros <- Hh. split; [done|]. destruct (held g s pcs q HI t r j a Hh) as (Ha & _ & _ & H). done. Qed.

(** A run that has nothing left has taken effect. *)
Lemma push_move (vs : list T) r st : pushing st vs → ∃ st', lmove segment_spec q st q st' ∧ stat g (push_loop r vs) st'.
Proof.
  intros [me ->]. destruct vs as [|v vs].
  - exists (IDone RUnit). split; [by apply lmove_lin|done].
  - exists (ICalled (PushRun me (v :: vs)) []). split; [apply lmove_stay|by exists me].
Qed.

Lemma after_move (vs : list T) r a end_ st : pushing st vs → ∃ st', lmove segment_spec q st q st' ∧ stat g (after_run K r a end_ vs) st'.
Proof.
  intros Hp. destruct (push_move vs r st Hp) as (st' & Hm & Hs). destruct vs as [|v vs]; [by exists st'|]. simpl.
  destruct (end_ <=? K); [by exists st'|]. exists st. split; [apply lmove_stay|done].
Qed.

Lemma goes_after g' s' r a sg' end_ (vs : list T) : end_ ≤ K ∨ K ≤ enq sg' → goes_on g' s' r kPushSlot a sg' (after_run K r a end_ vs).
Proof.
  intros He. destruct vs as [|v vs]; [apply goes_push_loop|]. simpl. destruct (Z.leb_spec end_ K); [apply (goes_push_loop _ _ _ _ _ _ (v :: vs))|].
  apply goes_seg; [done|]. simpl. split; [lia|done].
Qed.

Lemma taken_end sg n lo stop end_ : taken sg n lo stop end_ → end_ ≤ K ∨ K ≤ enq sg.
Proof. intros [_ H1 [H2|H2] _]; [by left|right; lia]. Qed.

Lemma after_idle r a end_ (vs : list T) : let p := after_run K r a end_ vs in
  ticket p = None ∧ range p = None ∧ mid p = None ∧ fresh_of p = None.
Proof. destruct vs; simpl; [done|]. by destruct (end_ <=? K). Qed.

(** A push is done with the cell [lo] it took, or with a part of the work
    there: nothing else changes. *)
Lemma own_put s' r a sg sg' n lo stop p' :
  hold (pcs t) = Some (r, kPushSlot, a) → heap s a = Some sg → range (pcs t) = Some (n, lo, stop) → num sg = n → lo < stop →
  (∀ b, heap s' b = <[a:=Some sg']> (heap s) b) → head_ s' = head_ s → tail_ s' = tail_ s → dom s' = dom s → bad s' = bad s →
  fates s ⊆ fates s' → (∀ n' c, (n', c) ≠ (n, lo) → fates s' !! (n', c) = fates s !! (n', c)) →
  num sg' = n → next sg' = next sg → deq sg' = deq sg → enq sg' = enq sg →
  (∀ c, 0 ≤ c → c ≠ lo → state_at sg' c = state_at sg c ∧ cells sg' !! Z.to_nat c = cells sg !! Z.to_nat c) →
  seg_ok g s' sg' → cell1 g s' (<[t:=p']> pcs) sg' lo →
  ticket p' = None → fresh_of p' = None → (∀ n' c, mid p' = Some (n', c) → (n', c) = (n, lo)) →
  (∀ n' lo' stop', range p' = Some (n', lo', stop') → n' = n ∧ lo ≤ lo' ∧ stop' = stop ∧ filling p' = filling (pcs t)) →
  (∀ c, c ≠ lo → lo ≤ c < stop → in_range p' n c) → goes_on g s' r kPushSlot a sg' p' → Inv g s' (<[t:=p']> pcs) q.
Proof.
  intros Hh Hsg Hr <- Hlt Eheap Ehd Etl Edom Ebad Hfs Hfo En Ex Ed Ee Hc Hok Hlo Ht Hfr Hm Hr1 Hr2 Hg.
  destruct (held g s pcs q HI t _ _ a Hh) as (Ha & _ & _ & sg0 & Hsg0 & Hp & Hok0). rewrite Hsg in Hsg0. simplify_eq.
  pose proof (iv_cell _ _ _ _ HI) as [C1 C2 C3 C4].
  assert (∀ c, in_range p' (num sg0) c → in_range (pcs t) (num sg0) c) as Hin.
  { intros c (lo' & stop' & E & Hcc). destruct (Hr1 _ _ _ E) as (_ & ? & -> & _). exists lo, stop. split; [done|lia]. }
  assert (∀ u c, u ≠ t → in_range (pcs u) (num sg0) c → c ≠ lo) as Hoth.
  { intros u c Hu Hc' ->. apply Hu. eapply C2; [exact Hc'|]. exists lo, stop. split; [done|lia]. }
  assert (in_range (pcs t) (num sg0) lo) as Hint by (exists lo, stop; split; [done|lia]).
  destruct (range_seg g s pcs q HI t a sg0 lo Ha Hsg Hint) as (HloK & _ & Hnf).
  apply (put_inv g s pcs q t HI g s' r kPushSlot a sg0 sg' p' q); try done.
  - intros n' c Hn'. apply Hfo. congruence.
  - lia.
  - lia.
  - by left.
  - intros c HcK. destruct (decide (c = lo)) as [->|Hne]; [done|]. destruct (Hc c ltac:(lia) Hne) as [E1 E2].
    eapply cell1_iff; [by eapply C4|..]; try done.
    + rewrite Ht. split; [done|]. by destruct (pcs t).
    + assert (∀ n' c', mid (pcs t) = Some (n', c') → c' = lo) as Hm'. { intros n' c'. destruct (pcs t); simplify_eq/=; congruence. }
      split; intros E; [apply Hm in E; congruence|]. by apply Hm' in E.
    + split; [apply Hin|]. intros (lo' & stop' & E & Hcc). rewrite Hr in E. simplify_eq. by apply Hr2.
    + intros (lo' & stop' & E & Hcc). by destruct (Hr1 _ _ _ E) as (_ & _ & _ & ?).
    + lia.
    + apply Hfo. congruence.
  - intros u n' c _ E. congruence.
  - intros n' c E. congruence.
  - intros u n' c Hu Hi1 Hi2. assert (n' = num sg0) as ->. { destruct Hi1 as (? & ? & E & _). by destruct (Hr1 _ _ _ E). } by eapply Hu, C2; [|apply Hin].
  - intros n' c (? & ? & E & _). by destruct (Hr1 _ _ _ E).
  - intros n' c E. apply Hm in E. congruence.
  - intros u Hu. split.
    + intros c Hcr. destruct (range_seg g s pcs q HI u a sg0 c Ha Hsg Hcr) as (? & _). destruct (Hc c ltac:(lia)) as [-> ->]; [by eapply Hoth|]. auto.
    + intros c Htk Hf. destruct (ticket_seg g s pcs q HI u a sg0 c Ha Hsg Htk) as (? & _). destruct (decide (c = lo)) as [->|Hne]; [done|]. by destruct (Hc c ltac:(lia) Hne) as [-> _].
  - eapply goes_thread; [done|done|done| |done]. by rewrite Eheap, fn_insert_eq.
  - eapply abs_same; [done|done|]. eapply content_put; [done|done|]. unfold content. by rewrite En, Ed.
  - intros h. eapply (goes_hz g s pcs q t HI); done.
Qed.

Lemma fill_step (n lo stop : Z) : lo < stop → fill_run n lo stop = if φ (n, lo) then S (fill_run n (lo + 1) stop) else 0%nat.
Proof.
  intros H. unfold fill_run. replace (Z.to_nat (stop - lo)) with (S (Z.to_nat (stop - (lo + 1)))) by lia. done.
Qed.

Lemma fill_none (n lo : Z) : fill_run n lo lo = 0%nat.
Proof. unfold fill_run. by rewrite Z.sub_diag. Qed.

(** [taken] and the rest of a reservation, one cell on. *)
Lemma taken_next sg sg' n lo stop end_ : taken sg n lo stop end_ → num sg' = num sg → enq sg' = enq sg →
  (∀ c, 0 ≤ c → c ≠ lo → state_at sg' c = state_at sg c) → lo + 1 < stop → taken sg' n (lo + 1) stop end_.
Proof.
  intros [H1 H2 H3 H4] En Ee Hs Hlt. split; [congruence|lia|done|]. intros c Hc. rewrite Hs by lia. apply H4. lia.
Qed.

Lemma push_writes ch r a n j stop end_ (vs : list T) s' p' : pcs t = PuWrite r a n j stop end_ vs →
  push_step K ch s (PuWrite r a n j stop end_ vs) = Some (s', p') → good g pcs q pend t s' p'.
Proof.
  intros Hp Hstep. destruct (at_pc _ r kPushSlot a Hp eq_refl) as (Hh & Ha & sg & Hsg & (Htk & Hbl & Hpl) & Hok).
  simpl in Hstep. unfold at_seg in Hstep. rewrite Hsg in Hstep. pose proof (tn_range _ _ _ _ _ Htk) as Htr.
  pose proof (tn_num _ _ _ _ _ Htk) as Hn. destruct vs as [|v vs]; [destruct Hpl; simpl in *; lia|]. rewrite (Hbl j) in Hstep by lia. injection Hstep as <- <-.
  destruct (so_len _ _ _ Hok) as [Hl1 Hl2]. set (sg' := set_cell j (Some v) sg). set (p' := PuCas r a n j stop end_ (v :: vs)).
  assert (∀ c, 0 ≤ c → cells sg' !! Z.to_nat c = if decide (c = j) then Some (Some v) else cells sg !! Z.to_nat c) as Hce by (intros; by apply cell_set; [|lia|]).
  pose proof (iv_cell _ _ _ _ HI) as [C1 C2 C3 C4]. pose proof (C4 a sg j Ha Hsg ltac:(lia)) as [H1 H2 H3 H4 H5]. rewrite Hn in *.
  assert (tick pcs n j → tick (<[t:=p']> pcs) n j) as Htick by (apply tick_keep; by rewrite Hp).
  eapply (good_self g pcs q pend t Hst g q (pend t)); [apply lmove_stay| |pose proof (Hst t) as Hs; by rewrite Hp in Hs|done].
  apply (own_put (put_seg s a sg') r a sg sg' n j stop p'); rewrite ?Hp; try done; [lia|..].
  - intros c Hc Hne. by rewrite Hce, decide_False.
  - destruct Hok as [S1 S2 S3 S4 S5 S6 S7 S8]. split; try done; simpl; [by rewrite length_insert|]. intros c Hc.
    destruct (S3 c Hc) as (? & ? & ?). split_and!; try done. change (cells sg' !! Z.to_nat c = Some None). by rewrite Hce, decide_False by lia.
  - change (state_at sg' j) with (state_at sg j). split; change (num sg') with (num sg); rewrite ?Hn; auto.
    + intros w Hw. left. exists t. by rewrite fn_insert_eq.
    + intros Hf. by destruct (tn_state _ _ _ _ _ Htk j ltac:(lia)).
    + intros Hl. right. exists t. rewrite fn_insert_eq. split; [|done]. exists j, stop. split; [done|lia].
    + intros Hl. destruct (H5 Hl) as [?|[u [Hu Hf]]]; [by left|]. right. exists u. destruct (decide (u = t)) as [->|]; [by rewrite Hp in Hf|]. by rewrite fn_insert_ne.
  - by intros n' c [= <- <-].
  - intros n' lo' stop' [= <- <- <-]. split_and!; done || lia.
  - intros c _ Hc. by exists j, stop.
  - apply goes_seg; [done|]. simpl. destruct Htk as [A1 A2 A3 A4]. split; [done|]. split; [|split; [done|]].
    + intros c Hc. change (cells sg' !! Z.to_nat c = Some None). rewrite Hce, decide_False by lia. apply Hbl. lia.
    + exists v. split; [done|]. change (cells sg' !! Z.to_nat j = Some (Some v)). by rewrite Hce, decide_True by lia.
Qed.

(** A push fills a cell it took. *)
Lemma push_fill r a n j stop end_ (vs : list T) sg : let s' := set_fates (put_seg s a (set_state j kFull sg)) (decide_cell (n, j) true (fates s)) in
  pcs t = PuCas r a n j stop end_ vs → heap s a = Some sg → state_at sg j = kEmpty → consistent s' →
  good g pcs q pend t s' (if j + 1 <? stop then PuWrite r a n (j + 1) stop end_ (tail vs) else after_run K r a end_ (tail vs)).
Proof.
  intros s' Hp Hsg Hem Hcon. destruct (at_pc _ r kPushSlot a Hp eq_refl) as (Hh & Ha & sg0 & Hsg0 & (Htk & Hbl & Hpl & Hfi) & Hok).
  rewrite Hsg in Hsg0. injection Hsg0 as <-. pose proof (tn_range _ _ _ _ _ Htk) as Htr. pose proof (tn_num _ _ _ _ _ Htk) as Hn.
  destruct (so_len _ _ _ Hok) as [Hl1 Hl2]. set (sg' := set_state j kFull sg).
  assert (∀ c, 0 ≤ c → state_at sg' c = if decide (c = j) then kFull else state_at sg c) as Hst' by (intros; by apply state_set; [|lia|]).
  pose proof (iv_cell _ _ _ _ HI) as [C1 C2 C3 C4]. pose proof (C4 a sg j Ha Hsg ltac:(lia)) as [H1 H2 H3 H4 H5]. rewrite Hn in *.
  assert (fates s !! (n, j) ≠ Some false) as Hnf.
  { intros E. destruct (H5 E) as [?|[u [Hu Hf]]]; [congruence|]. assert (u = t) as ->; [|by rewrite Hp in Hf].
    eapply C2; [done|]. rewrite Hp. exists j, stop. split; [done|lia]. }
  assert (fates s' !! (n, j) = Some true) as Hft by (by apply decide_cell_eq).
  assert (∀ n' c, (n', c) ≠ (n, j) → fates s' !! (n', c) = fates s !! (n', c)) as Hfo by (intros; by apply decide_cell_ne).
  assert (φ (n, j) = true) as Hφ by (by apply Hcon).
  destruct Hfi as (v & Hv & Hcv). destruct vs as [|v0 vs]; [done|]. injection Hv as ->. simpl.
  assert (fill_run n j stop = S (fill_run n (j + 1) stop)) as Hfr by (rewrite fill_step, Hφ by lia; done).
  destruct Hpl as [Hpl1 Hpl2].
  assert (lin g n j = Some v) as Hlj. { rewrite Hpl2 by lia. rewrite Z.sub_diag, Hfr, decide_True by lia. done. }
  set (p' := if j + 1 <? stop then PuWrite r a n (j + 1) stop end_ vs else after_run K r a end_ vs).
  assert (ticket p' = None ∧ mid p' = None ∧ fresh_of p' = None ∧
    (∀ n' lo' stop', range p' = Some (n', lo', stop') → n' = n ∧ lo' = j + 1 ∧ stop' = stop ∧ filling p' = true) ∧ (∀ c, j + 1 ≤ c < stop → in_range p' n c)) as (Ep1 & Ep2 & Ep3 & Ep4 & Ep5).
  { subst p'. destruct (after_idle r a end_ vs) as (A1 & A2 & A3 & A4). destruct (Z.ltb_spec (j + 1) stop).
    - split_and!; try done. { intros ? ? ? [= <- <- <-]. done. } intros c Hc. by exists (j + 1), stop.
    - split_and!; try done. { intros ? ? ? E. rewrite A2 in E. done. } intros; lia. }
  assert (∃ st', lmove segment_spec q (pend t) q st' ∧ stat g p' st') as (st' & Hmv & Hs').
  { pose proof (Hst t) as Hs. rewrite Hp in Hs. simpl in Hs. rewrite Hfr in Hs. simpl in Hs. subst p'. destruct (Z.ltb_spec (j + 1) stop).
    - exists (pend t). split; [apply lmove_stay|done].
    - assert (j + 1 = stop) as Ej by lia. rewrite <-Ej, fill_none in Hs. by apply after_move. }
  eapply (good_self g pcs q pend t Hst g q st'); [done| |done|done].
  apply (own_put s' r a sg sg' n j stop p'); rewrite ?Hp; try done; [lia|apply decide_cell_sub|..].
  - intros c Hc Hne. by rewrite Hst', decide_False.
  - destruct Hok as [S1 S2 S3 S4 S5 S6 S7 S8]. split; try done; change (num sg') with (num sg); rewrite ?Hn in *.
    + simpl. by rewrite length_insert.
    + intros c Hc. simpl in Hc. rewrite Hst', decide_False by lia. auto.
    + intros c Hc. rewrite Hst' by lia. case_decide; [done|auto].
    + intros c Hc. rewrite Hst' by lia. case_decide; [subst; by eexists|auto].
    + intros c Hc. rewrite Hst' by lia. case_decide as E; [done|]. rewrite Hfo by congruence. auto.
    + intros c Hc. rewrite Hst' by lia. case_decide as E; [done|]. rewrite Hfo by congruence. auto.
    + intros c Hc Hl. rewrite Hst' by lia. case_decide as E; [by left|]. auto.
  - split; change (num sg') with (num sg); rewrite ?Hn, ?Hst', ?decide_True, ?Hlj, ?Hft by lia; try done.
    + intros w Hw. right. split; [done|]. change (deq sg') with (deq sg). destruct (decide (deq sg ≤ j)); [by left|right].
      apply tick_keep; [by rewrite Hp|]. apply H1; [lia|done].
    + by left.
  - intros n' c. by rewrite Ep2.
  - intros n' lo' stop' E. destruct (Ep4 _ _ _ E) as (-> & -> & -> & ->). split_and!; try done. lia.
  - intros c Hne Hc. apply Ep5. lia.
  - subst p'. destruct (Z.ltb_spec (j + 1) stop).
    + apply goes_seg; [done|]. simpl. split; [|split; [exact Hbl|split; [simpl in *; lia|]]].
      * eapply taken_next; try done. intros c Hc Hne. by rewrite Hst', decide_False.
      * intros c Hc. rewrite Hpl2, Hfr by lia. destruct (decide (c - (j + 1) < Z.of_nat (fill_run n (j + 1) stop))).
        -- rewrite decide_True by lia. replace (Z.to_nat (c - j)) with (S (Z.to_nat (c - (j + 1)))) by lia. done.
        -- by rewrite decide_False by lia.
    + apply goes_after. by apply (taken_end sg n j stop).
Qed.

(** A push finds its cell given up: it gives up the rest of its cells. *)
Lemma push_lost r a n j stop end_ (vs : list T) sg : let s' := set_fates s (forgo n j stop (fates s)) in
  pcs t = PuCas r a n j stop end_ vs → heap s a = Some sg → state_at sg j ≠ kEmpty → consistent s' →
  good g pcs q pend t s' (PuBack r a n j stop end_ vs).
Proof.
  intros s' Hp Hsg Hem Hcon. destruct (at_pc _ r kPushSlot a Hp eq_refl) as (Hh & Ha & sg0 & Hsg0 & (Htk & Hbl & Hpl & Hfi) & Hok).
  rewrite Hsg in Hsg0. injection Hsg0 as <-. pose proof (tn_range _ _ _ _ _ Htk) as Htr. pose proof (tn_num _ _ _ _ _ Htk) as Hn.
  assert (state_at sg j = kSkipped) as Hsk.
  { pose proof (so_state _ _ _ Hok j ltac:(lia)). pose proof (tn_state _ _ _ _ _ Htk j ltac:(lia)). by destruct (state_at sg j). }
  assert (φ (n, j) = false) as Hφ.
  { apply Hcon. eapply lookup_weaken; [|apply forgo_sub]. rewrite <-Hn. by apply (so_skip _ _ _ Hok); [lia|]. }
  assert (fill_run n j stop = 0%nat) as Hfr by (rewrite fill_step, Hφ by lia; done).
  assert (∀ c, j ≤ c < stop → lin g n c = None ∧ fates s' !! (n, c) = Some false) as Hgv.
  { intros c Hc. split.
    - destruct Hpl as [_ Hpl]. rewrite Hpl, Hfr, decide_False by lia. done.
    - apply forgo_in; [done|]. rewrite <-Hn. intros E%(so_true _ _ _ Hok); [|lia]. by destruct (tn_state _ _ _ _ _ Htk c Hc). }
  assert (∀ n' c, (n' ≠ n ∨ ¬ j ≤ c < stop) → fates s' !! (n', c) = fates s !! (n', c)) as Hfo by (intros; by apply forgo_out).
  pose proof (iv_cell _ _ _ _ HI) as [C1 C2 C3 C4]. set (p' := PuBack r a n j stop end_ vs).
  eapply (good_self g pcs q pend t Hst g q (pend t)); [apply lmove_stay| |pose proof (Hst t) as Hs; rewrite Hp in Hs; simpl in Hs; by rewrite Hfr in Hs|done].
  assert (goes_on g s' r kPushSlot a sg p') as Hg by (by apply goes_seg).
  apply (put_inv g s pcs q t HI g s' r kPushSlot a sg sg p' q); try done.
  - by apply (same_put s).
  - apply forgo_sub.
  - intros n' c Hn'. apply Hfo. left. congruence.
  - by left.
  - destruct Hok as [S1 S2 S3 S4 S5 S6 S7 S8]. split; try done.
    + intros c Hc Hc'. destruct (S6 c Hc Hc'). split; [done|]. eapply lookup_weaken; [done|apply forgo_sub].
    + intros c Hc. rewrite Hn in *. destruct (decide (j ≤ c < stop)) as [Hr|Hr]; [|rewrite Hfo by (by right); auto]. rewrite (proj2 (Hgv c Hr)). done.
  - intros c Hc. pose proof (C4 a sg c Ha Hsg Hc) as Hc1. destruct (decide (j ≤ c < stop)) as [Hr|Hr].
    + destruct Hc1 as [H1 H2 H3 H4 H5]. destruct (Hgv c Hr) as [Hg1 Hg2]. rewrite Hn in *.
      assert (tick (<[t:=p']> pcs) n c ↔ tick pcs n c) as Et by (apply (ex_iff (λ p, ticket p = Some (n, c))); by rewrite Hp).
      assert (midp (<[t:=p']> pcs) n c ↔ midp pcs n c) as Em by (apply (ex_iff (λ p, mid p = Some (n, c))); by rewrite Hp).
      split; rewrite ?Hn, ?Et, ?Hg1; try done.
      * intros v. rewrite Em, Et. apply H2.
      * intros Hf. by destruct (tn_state _ _ _ _ _ Htk c Hr).
      * intros _. right. exists t. rewrite fn_insert_eq. split; [|done]. by exists j, stop.
    + eapply cell1_frame; [done|..]; try done; [| |rewrite Hn; apply Hfo; by right]; rewrite Hn, ?Hp; split_and!; try done.
      1,3: intros (? & ? & [= <- <-] & ?); lia.
      all: intros [= ->]; lia.
  - intros u n' c Hu (lo' & stop' & [= <- <- <-] & Hc) Hi2. apply Hu. eapply C2; [done|]. rewrite Hp. by exists j, stop.
  - intros n' c (lo' & stop' & [= <- <- <-] & Hc). done.
  - by intros n' c [= <- <-].
  - intros u Hu. split; [|done]. auto.
  - eapply goes_thread; done.
  - apply (iv_abs _ _ _ _ HI).
Qed.

(** A push takes its element back. *)
Lemma push_back ch r a n j stop end_ (vs : list T) s' p' : pcs t = PuBack r a n j stop end_ vs →
  push_step K ch s (PuBack r a n j stop end_ vs) = Some (s', p') → good g pcs q pend t s' p'.
Proof.
  intros Hp Hstep. destruct (at_pc _ r kPushSlot a Hp eq_refl) as (Hh & Ha & sg & Hsg & (Htk & Hbl & Hfo & (v & Hv & Hcv) & Hsk) & Hok).
  simpl in Hstep. unfold at_seg in Hstep. rewrite Hsg, Hcv in Hstep. injection Hstep as <- Ep'. pose proof (tn_range _ _ _ _ _ Htk) as Htr.
  pose proof (tn_num _ _ _ _ _ Htk) as Hn. destruct (so_len _ _ _ Hok) as [Hl1 Hl2]. set (sg' := set_cell j None sg).
  assert (vs ≠ []) as Hvs by (by intros ->).
  assert (∀ c, 0 ≤ c → cells sg' !! Z.to_nat c = if decide (c = j) then Some None else cells sg !! Z.to_nat c) as Hce by (intros; by apply cell_set; [|lia|]).
  pose proof (iv_cell _ _ _ _ HI) as [C1 C2 C3 C4]. pose proof (C4 a sg j Ha Hsg ltac:(lia)) as [H1 H2 H3 H4 H5]. rewrite Hn in *.
  assert (ticket p' = None ∧ mid p' = None ∧ fresh_of p' = None ∧
    (∀ n' lo' stop', range p' = Some (n', lo', stop') → n' = n ∧ lo' = j + 1 ∧ stop' = stop ∧ filling p' = false) ∧ (∀ c, j + 1 ≤ c < stop → in_range p' n c)) as (Ep1 & Ep2 & Ep3 & Ep4 & Ep5).
  { subst p'. destruct (after_idle r a end_ vs) as (A1 & A2 & A3 & A4). destruct (Z.ltb_spec (j + 1) stop).
    - split_and!; try done. { intros ? ? ? [= <- <- <-]. done. } intros c Hc. by exists (j + 1), stop.
    - split_and!; try done. { intros ? ? ? E. rewrite A2 in E. done. } intros; lia. }
  assert (∃ st', lmove segment_spec q (pend t) q st' ∧ stat g p' st') as (st' & Hmv & Hs').
  { pose proof (Hst t) as Hs. rewrite Hp in Hs. simpl in Hs. subst p'. destruct (j + 1 <? stop); [exists (pend t); split; [apply lmove_stay|done]|by apply after_move]. }
  eapply (good_self g pcs q pend t Hst g q st'); [done| |done|done].
  apply (own_put (put_seg s a sg') r a sg sg' n j stop p'); rewrite ?Hp; try done; [lia|..].
  - intros c Hc Hne. by rewrite Hce, decide_False.
  - destruct Hok as [S1 S2 S3 S4 S5 S6 S7 S8]. split; try done; simpl; [by rewrite length_insert|]. intros c Hc.
    destruct (S3 c Hc) as (? & ? & ?). split_and!; try done. change (cells sg' !! Z.to_nat c = Some None). rewrite Hce by lia. by case_decide.
  - change (state_at sg' j) with (state_at sg j). split; change (state_at sg' j) with (state_at sg j); change (num sg') with (num sg); rewrite ?Hn, ?Hsk; try done.
    + intros w. by rewrite Hce, decide_True by lia.
    + rewrite (proj1 (Hfo j ltac:(lia))). by intros [? ?].
    + by left.
  - intros n' c. by rewrite Ep2.
  - intros n' lo' stop' E. destruct (Ep4 _ _ _ E) as (-> & -> & -> & ->). split_and!; try done. lia.
  - intros c Hne Hc. apply Ep5. lia.
  - subst p'. destruct (Z.ltb_spec (j + 1) stop).
    + apply goes_seg; [done|]. simpl. split; [by eapply taken_next|split; [|split; [|done]]].
      * intros c Hc. change (cells sg' !! Z.to_nat c = Some None). rewrite Hce, decide_False by lia. by apply Hbl.
      * intros c Hc. apply Hfo. lia.
    + apply goes_after. by apply (taken_end sg n j stop).
Qed.

(** A push gives up a cell it took after one it lost. *)
Lemma push_give ch r a n j stop end_ (vs : list T) s' p' : pcs t = PuGive r a n j stop end_ vs →
  push_step K ch s (PuGive r a n j stop end_ vs) = Some (s', p') → good g pcs q pend t s' p'.
Proof.
  intros Hp Hstep. destruct (at_pc _ r kPushSlot a Hp eq_refl) as (Hh & Ha & sg & Hsg & (Htk & Hbl & Hfo & Hvs) & Hok).
  simpl in Hstep. unfold at_seg in Hstep. rewrite Hsg in Hstep. injection Hstep as Es' Ep'. pose proof (tn_range _ _ _ _ _ Htk) as Htr.
  pose proof (tn_num _ _ _ _ _ Htk) as Hn. destruct (so_len _ _ _ Hok) as [Hl1 Hl2].
  set (sg' := if decide (state_at sg j = kEmpty) then set_state j kSkipped sg else sg).
  assert (∀ c, 0 ≤ c → state_at sg' c = if decide (c = j) then kSkipped else state_at sg c) as Hst'.
  { intros c Hc. subst sg'. destruct (decide (state_at sg j = kEmpty)) as [E|E]; [by apply state_set; [|lia|]|]. case_decide; [subst c|done].
    pose proof (so_state _ _ _ Hok j ltac:(lia)). pose proof (tn_state _ _ _ _ _ Htk j ltac:(lia)). by destruct (state_at sg j). }
  assert (num sg' = num sg ∧ next sg' = next sg ∧ deq sg' = deq sg ∧ enq sg' = enq sg ∧ cells sg' = cells sg ∧ length (state sg') = length (state sg)) as (E1 & E2 & E3 & E4 & E5 & E6).
  { subst sg'. case_decide; split_and!; try done. simpl. by rewrite length_insert. }
  assert (s' = put_seg s a sg' ∨ s' = s ∧ sg' = sg) as Hs2. { subst s' sg'. case_decide; auto. }
  assert ((∀ b, heap s' b = <[a:=Some sg']> (heap s) b) ∧ head_ s' = head_ s ∧ tail_ s' = tail_ s ∧ dom s' = dom s ∧ bad s' = bad s ∧ fates s' = fates s) as (F1 & F2 & F3 & F4 & F5 & F6).
  { destruct Hs2 as [->|[-> ->]]; [done|]. split_and!; try done. by apply same_put. }
  clear Es' Hs2. clearbody sg'.
  pose proof (iv_cell _ _ _ _ HI) as [C1 C2 C3 C4]. pose proof (C4 a sg j Ha Hsg ltac:(lia)) as [H1 H2 H3 H4 H5]. rewrite Hn in *.
  destruct (Hfo j ltac:(lia)) as [Hlj Hfj].
  assert (ticket p' = None ∧ mid p' = None ∧ fresh_of p' = None ∧
    (∀ n' lo' stop', range p' = Some (n', lo', stop') → n' = n ∧ lo' = j + 1 ∧ stop' = stop ∧ filling p' = false) ∧ (∀ c, j + 1 ≤ c < stop → in_range p' n c)) as (Ep1 & Ep2 & Ep3 & Ep4 & Ep5).
  { subst p'. destruct (after_idle r a end_ vs) as (A1 & A2 & A3 & A4). destruct (Z.ltb_spec (j + 1) stop).
    - split_and!; try done. { intros ? ? ? [= <- <- <-]. done. } intros c Hc. by exists (j + 1), stop.
    - split_and!; try done. { intros ? ? ? E. rewrite A2 in E. done. } intros; lia. }
  assert (∃ st', lmove segment_spec q (pend t) q st' ∧ stat g p' st') as (st' & Hmv & Hs').
  { pose proof (Hst t) as Hs. rewrite Hp in Hs. simpl in Hs. subst p'. destruct (j + 1 <? stop); [exists (pend t); split; [apply lmove_stay|done]|by apply after_move]. }
  eapply (good_self g pcs q pend t Hst g q st'); [done| |done|done].
  apply (own_put s' r a sg sg' n j stop p'); rewrite ?Hp; try done; rewrite ?F6; try done; [lia|..].
  - intros c Hc Hne. by rewrite Hst', decide_False, E5.
  - destruct Hok as [S1 S2 S3 S4 S5 S6 S7 S8]. split; rewrite ?E1, ?E3, ?E4, ?E5, ?E6, ?Hn, ?F6 in *; try done.
    + intros c Hc. destruct (S3 c Hc) as (? & ? & ?). split_and!; try done. rewrite Hst' by lia. by case_decide.
    + intros c Hc. rewrite Hst' by lia. case_decide; [done|auto].
    + intros c Hc. rewrite Hst' by lia. case_decide; [done|auto].
    + intros c Hc. rewrite Hst' by lia. case_decide; [by subst|auto].
    + intros c Hc. rewrite Hst' by lia. case_decide; [subst; congruence|auto].
    + intros c Hc. rewrite Hst' by lia. case_decide; [subst; rewrite Hlj; by intros [? ?]|auto].
  - split; rewrite ?E1, ?E3, ?E5, ?F6, ?Hst', ?decide_True, ?Hlj by lia; try done; rewrite ?Hn.
    + intros v. rewrite (Hbl j) by lia. done.
    + by left.
  - intros n' c. by rewrite Ep2.
  - intros n' lo' stop' E. destruct (Ep4 _ _ _ E) as (-> & -> & -> & ->). split_and!; try done. lia.
  - intros c Hne Hc. apply Ep5. lia.
  - subst p'. destruct (Z.ltb_spec (j + 1) stop).
    + apply goes_seg; [done|]. simpl. split; [|split; [|split; [|done]]].
      * apply (taken_next sg); [done|congruence|done| |done]. intros c Hc Hne. by rewrite Hst', decide_False.
      * intros c Hc. rewrite E5. apply Hbl. lia.
      * intros c Hc. rewrite F6. apply Hfo. lia.
    + apply goes_after. rewrite E4. by apply (taken_end sg n j stop).
Qed.

(** The steps of a push that change nothing shared, and the tail. *)
Lemma push_next ch r a spin (vs : list T) s' p' : pcs t = PuNext r a spin vs →
  push_step K ch s (PuNext r a spin vs) = Some (s', p') → good g pcs q pend t s' p'.
Proof.
  intros Hp Hstep. destruct (at_pc _ r kPushSlot a Hp eq_refl) as (Hh & Ha & sg & Hsg & [He Hvs] & Hok).
  pose proof (Hst t) as Hs. rewrite Hp in Hs. simpl in Hstep. unfold at_seg in Hstep. rewrite Hsg in Hstep. injection Hstep as <- <-.
  destruct (next sg) as [nx|] eqn:Ex; [|destruct (spin <? kLinkSpins)];
    (eapply (stay_good g s pcs q pend t HI Hst); rewrite ?Hp; try done; by apply goes_seg).
Qed.

Lemma push_tail ch r a nx (vs : list T) s' p' : pcs t = PuTail r a nx vs →
  push_step K ch s (PuTail r a nx vs) = Some (s', p') → good g pcs q pend t s' p'.
Proof.
  intros Hp Hstep. destruct (at_pc _ r kPushSlot a Hp eq_refl) as (Hh & Ha & sg & Hsg & Hx & Hok). simpl in Hx.
  pose proof (Hst t) as Hs. rewrite Hp in Hs. simpl in Hs. destruct (push_move vs r _ Hs) as (st' & Hm & Hs').
  assert (same_work (pcs t) (push_loop r vs)) as Hw by (rewrite Hp; by destruct vs).
  simpl in Hstep. injection Hstep as <- <-. case_decide as E.
  - subst a. pose proof (tail_inv g s pcs q HI sg nx Hsg Hx) as HI'.
    eapply (local_good g (set_tail s nx) pcs q pend t HI' Hst); try done. apply goes_push_loop.
  - eapply (local_good g s pcs q pend t HI Hst); try done. apply goes_push_loop.
Qed.

(** Memory no other thread knows of changes: a segment is allocated, or one
    that was not linked is deleted. *)
Lemma off_inv s' f o r a sg p' : ¬ pub g f → (∀ u, u ≠ t → fresh_of (pcs u) ≠ Some f) → (∀ b, heap s' b = <[f:=o]> (heap s) b) →
  head_ s' = head_ s → tail_ s' = tail_ s → dom s' = dom s → bad s' = bad s → fates s' = fates s →
  hold (pcs t) = Some (r, kPushSlot, a) → heap s a = Some sg → ticket (pcs t) = None → range (pcs t) = None →
  ticket p' = None → range p' = None → (∀ f', fresh_of p' = Some f' → f' = f) → goes_on g s' r kPushSlot a sg p' →
  Inv g s' (<[t:=p']> pcs) q.
Proof.
  intros Hnp Hof Eheap Ehd Etl Edom Ebad Efa Hh Hsg Ht Hr Ht' Hr' Hf' Hg. pose proof HI as [I1 I2 I3 I4 I5 I6].
  assert (∀ b, pub g b → heap s' b = heap s b) as Hpub by (intros b Hb; rewrite Eheap; apply fn_insert_ne; congruence).
  assert (∀ b, b ∈ chain g → heap s' b = heap s b) as Hch by (intros b Hb; apply Hpub; by left).
  destruct (held g s pcs q HI t _ _ a Hh) as (Ha & Ho & _ & _). split.
  - destruct I1 as [C1 C2 C3 C4 C5 C6 C7 C8 C9]. split; rewrite ?Ehd, ?Etl, ?Efa; try done.
    + intros i b Hb. rewrite Hch by (by eapply list_elem_of_lookup_2). by apply C1.
    + intros b Hb. rewrite Hpub by (by right). by apply C2.
    + intros b1 b2 s1 s2 H1 H2. rewrite !Hpub by done. by apply C3.
    + intros b sb Hb. rewrite Hpub by done. intros Hsb. destruct (C4 b sb Hb Hsb). split; rewrite ?Efa; done.
  - destruct I2 as [C1 C2 C3 C4]. split.
    + intros u v n c. destruct (decide (u = t)) as [->|], (decide (v = t)) as [->|]; rewrite ?fn_insert_eq, ?fn_insert_ne by done; rewrite ?Ht'; try done. apply C1.
    + intros u v n c. destruct (decide (u = t)) as [->|], (decide (v = t)) as [->|]; rewrite ?fn_insert_eq, ?fn_insert_ne by done; try (by intros; exfalso; eapply (in_range_none p')). apply C2.
    + intros u v b. destruct (decide (u = t)) as [->|], (decide (v = t)) as [->|]; rewrite ?fn_insert_eq, ?fn_insert_ne by done; try done.
      * intros E1%Hf' E2. subst b. by apply Hof in E2.
      * intros E1 E2%Hf'. subst b. by apply Hof in E1.
      * apply C3.
    + intros b sb c Hb Hsb Hc. rewrite Hpub in Hsb by done. eapply cell1_frame; [by eapply C4|by apply indiff_none|by apply indiff_none|..]; try done. by rewrite Efa.
  - intros u. destruct (decide (u = t)) as [->|]; rewrite ?fn_insert_eq, ?fn_insert_ne by done.
    + eapply (goes_thread g s pcs q t HI); [done|done| |done]. by rewrite Hpub.
    + destruct (I3 u) as [T1 T2 T3]. split; try done. intros r0 j0 b Hb. rewrite Edom. destruct (T1 _ _ _ Hb) as (Hob & Hs & sb & Hsb & Hp). split_and!; try done.
      destruct (held g s pcs q HI u r0 j0 b Hb) as (Hpb & _). exists sb. rewrite Hpub by done. split; [done|].
      eapply seg_pc_mono; [..|exact Hp]; rewrite ?Efa, ?Etl; try done; [by auto|]. intros f' Hf. split; [|done]. rewrite Eheap. apply fn_insert_ne.
      intros <-. by apply (Hof u).
  - rewrite Edom. apply hz_go; [done|by destruct (pcs t)|]. intros h E. destruct (goes_hz g s pcs q t HI g s' r kPushSlot a sg p' h Hh Hg E) as (A & B & C).
    split_and!; try done. intros r' a' ->. by destruct (C r' a').
  - unfold abs_ok in *. rewrite I5. apply flat_map_ext_in. intros b Hb. unfold content_at. by rewrite Hch.
  - congruence.
Qed.

Lemma push_new ch r a (vs : list T) s' p' : pcs t = PuNew r a vs →
  push_step K ch s (PuNew r a vs) = Some (s', p') → good g pcs q pend t s' p'.
Proof.
  intros Hp Hstep. destruct (at_pc _ r kPushSlot a Hp eq_refl) as (Hh & Ha & sg & Hsg & [He Hvs] & Hok).
  pose proof (Hst t) as Hs. rewrite Hp in Hs. simpl in Hstep. rewrite Hsg in Hstep. destruct (heap s (addr ch)) as [|] eqn:Ef; [done|]. injection Hstep as <- <-.
  assert (¬ pub g (addr ch)) as Hnp by (intros Hpub; destruct (pub_seg _ _ (iv_chain _ _ _ _ HI) _ Hpub) as (? & ? & _); congruence).
  eapply (good_self g pcs q pend t Hst g q (pend t)); [apply lmove_stay| |done|done].
  set (m := Nat.min (Z.to_nat K) (length vs)).
  apply (off_inv (put_seg s (addr ch) (new_segment K (num sg + 1) (take m vs))) (addr ch) (Some (new_segment K (num sg + 1) (take m vs))) r a sg); rewrite ?Hp; try done.
  - intros u Hu E. destruct (pcs u) eqn:Eu; simplify_eq/=. destruct (tk_hold _ _ _ _ (iv_thread _ _ _ _ HI u) r0 kPushSlot t0) as (_ & _ & sgu & Hsgu & Hpu); [by rewrite Eu|].
    rewrite Eu in Hpu. simpl in Hpu. destruct Hpu as (_ & _ & _ & E & _). congruence.
  - by intros f' [= <-].
  - apply goes_seg; [done|]. simpl. rewrite fn_insert_eq. done.
Qed.

Lemma push_link_lost r a f m (vs : list T) sg nx : pcs t = PuLink r a f m vs → heap s a = Some sg → next sg = Some nx →
  good g pcs q pend t (set_heap s (<[f:=None]> (heap s))) (PuTail r a nx vs).
Proof.
  intros Hp Hsg Hx. destruct (at_pc _ r kPushSlot a Hp eq_refl) as (Hh & Ha & sg0 & Hsg0 & (He & Hvs & Hm & Hf & Hnp) & Hok). rewrite Hsg in Hsg0. injection Hsg0 as <-.
  pose proof (Hst t) as Hs. rewrite Hp in Hs. eapply (good_self g pcs q pend t Hst g q (pend t)); [apply lmove_stay| |done|done].
  apply (off_inv (set_heap s (<[f:=None]> (heap s))) f None r a sg); rewrite ?Hp; try done.
  - intros u Hu E. eapply Hu, (cl_fresh _ _ _ (iv_cell _ _ _ _ HI)); [done|by rewrite Hp].
  - by apply goes_seg.
Qed.

(** *** A push links a segment of its own *)

Lemma parts_move me m : ∀ (q0 vs : list T), (m ≤ length vs)%nat →
  lmove segment_spec q0 (ICalled (PushRun me vs) []) (q0 ++ take m vs) (ICalled (PushRun me (drop m vs)) []).
Proof.
  induction m as [|m IH]; intros q0 vs Hm; [rewrite app_nil_r; apply lmove_stay|]. destruct vs as [|v vs]; [simpl in Hm; lia|]. simpl in *.
  apply (lmove_part segment_spec q0 _ _ (PushRun me vs) (q0 ++ [v])); [by exists me, v, vs|]. rewrite (cons_middle v q0 (take m vs)), app_assoc. apply IH. lia.
Qed.

Lemma omap_none (A B : Type) (h : A → option B) l : (∀ x, x ∈ l → h x = None) → omap h l = [].
Proof.
  induction l as [|x l IH]; intros H; [done|]. simpl. rewrite H by (by left). apply IH. intros; apply H; by right.
Qed.

Lemma omap_first (A B : Type) (h : A → option B) x l : omap h (x :: l) = option_list (h x) ++ omap h l.
Proof. simpl. by destruct (h x). Qed.

Lemma omap_cells (l : list T) : ∀ lo k : Z, Z.of_nat (length l) ≤ k → omap (λ c, l !! Z.to_nat (c - lo)) (seqZ lo k) = l.
Proof.
  induction l as [|v l IH]; intros lo k Hk; [by apply omap_none|]. simpl in Hk. rewrite seqZ_cons by lia. simpl. rewrite Z.sub_diag. simpl. f_equal.
  etrans; [|apply (IH (Z.succ lo) (Z.pred k)); lia]. apply list_omap_ext, Forall_Forall2_diag, Forall_forall. intros c Hc%elem_of_seqZ.
  by replace (Z.to_nat (c - lo)) with (S (Z.to_nat (c - Z.succ lo))) by lia.
Qed.

Lemma new_state n (vs : list T) c : 0 ≤ c → Z.of_nat (length vs) ≤ K → c < K →
  state_at (new_segment K n vs) c = if decide (c < Z.of_nat (length vs)) then kFull else kEmpty.
Proof.
  intros Hc Hl HcK. unfold state_at. simpl. case_decide.
  - rewrite lookup_app_l by (rewrite length_replicate; lia). by rewrite lookup_replicate_2 by lia.
  - rewrite lookup_app_r by (rewrite length_replicate; lia). rewrite length_replicate, lookup_replicate_2 by lia. done.
Qed.

Lemma new_cell n (vs : list T) c : 0 ≤ c → Z.of_nat (length vs) ≤ K → c < K → cells (new_segment K n vs) !! Z.to_nat c = Some (vs !! Z.to_nat c).
Proof.
  intros Hc Hl HcK. simpl. destruct (decide (c < Z.of_nat (length vs))).
  - rewrite lookup_app_l by (rewrite length_fmap; lia). rewrite list_lookup_fmap. destruct (lookup_lt_is_Some_2 vs (Z.to_nat c)) as [v Hv]; [lia|]. by rewrite Hv.
  - rewrite lookup_app_r by (rewrite length_fmap; lia). rewrite length_fmap, lookup_replicate_2 by lia. rewrite (lookup_ge_None_2 vs) by lia. done.
Qed.

Lemma seg_ok_frame g' s' sg sg' : seg_ok g s sg → num sg' = num sg → deq sg' = deq sg → enq sg' = enq sg → state sg' = state sg → cells sg' = cells sg →
  (∀ c, lin g' (num sg) c = lin g (num sg) c) → fates s' = fates s → seg_ok g' s' sg'.
Proof.
  intros [S1 S2 S3 S4 S5 S6 S7 S8] E1 E2 E3 E4 E5 E6 E7. assert (∀ c, state_at sg' c = state_at sg c) as Es by (intros; unfold state_at; by rewrite E4).
  split; rewrite ?E1, ?E2, ?E3, ?E4, ?E5, ?E7; try done; intros c; rewrite ?Es, ?E6; auto.
Qed.

Section link.
Context (r a f m : nat) (vs : list T) (sg : @segment T).
Context (Hp : pcs t = PuLink r a f m vs) (Hsg : heap s a = Some sg) (Hx : next sg = None).

Definition link_ghost : ghost :=
  Ghost (λ n c, if decide (n = end_num g) then take m vs !! Z.to_nat c else lin g n c) (hn g) (chain g ++ [f]) (old g).
Definition link_state : @queue T := put_seg s a (set_next f sg).

Lemma link_facts : pub g a ∧ K ≤ enq sg ∧ ¬ pub g f ∧ f ≠ a ∧ heap s f = Some (new_segment K (end_num g) (take m vs)) ∧
  Z.of_nat (length (take m vs)) ≤ K ∧ (m ≤ length vs)%nat ∧ chain g !! (length (chain g) - 1)%nat = Some a ∧ num sg = end_num g - 1 ∧
  seg_ok g s sg ∧ (0 < length (chain g))%nat.
Proof.
  destruct (at_pc _ r kPushSlot a Hp eq_refl) as (Hh & Ha & sg0 & Hsg0 & (He & Hvs & Hm & Hf & Hnp) & Hok). rewrite Hsg in Hsg0. injection Hsg0 as <-.
  destruct (no_next_last g s (iv_chain _ _ _ _ HI) a sg Ha Hsg (or_introl Hx)) as [Hl Hn].
  pose proof (lookup_lt_Some _ _ _ Hl). rewrite Hn in Hf. replace (end_num g - 1 + 1) with (end_num g) in Hf by lia.
  split_and!; try done; try lia; [congruence|rewrite length_take; lia].
Qed.

Lemma link_pub b : pub link_ghost b ↔ b = f ∨ pub g b.
Proof. unfold pub. simpl. rewrite elem_of_app, list_elem_of_singleton. tauto. Qed.

Lemma link_heap b : heap link_state b = if decide (b = a) then Some (set_next f sg) else heap s b.
Proof. simpl. case_decide; [subst; by rewrite fn_insert_eq|by rewrite fn_insert_ne]. Qed.

Lemma link_old_num b sb : pub g b → heap s b = Some sb → num sb ≠ end_num g.
Proof. intros Hb Hsb. destruct (pub_seg _ _ (iv_chain _ _ _ _ HI) b Hb) as (sb' & Hsb' & ?). rewrite Hsb in Hsb'. simplify_eq. lia. Qed.

(** A published segment before the link, and after it. *)
Lemma link_seg b sb : pub link_ghost b → heap link_state b = Some sb →
  (b = f ∧ sb = new_segment K (end_num g) (take m vs)) ∨
  ∃ sb0, b ≠ f ∧ pub g b ∧ heap s b = Some sb0 ∧ num sb0 ≠ end_num g ∧ (sb = sb0 ∨ b = a ∧ sb0 = sg ∧ sb = set_next f sg).
Proof.
  destruct link_facts as (Ha & He & Hnp & Hfa & Hf & Hl1 & Hm & Hl & Hn & Hok & Hpos). intros [->|Hb]%link_pub Hsb; rewrite link_heap in Hsb.
  - left. rewrite decide_False in Hsb by done. split; [done|congruence].
  - right. case_decide; simplify_eq.
    + exists sg. split_and!; try done; try lia; by right.
    + exists sb. split_and!; try done; [by intros ->|by eapply link_old_num|by left].
Qed.

Lemma link_new_ok : seg_ok link_ghost link_state (new_segment K (end_num g) (take m vs)).
Proof.
  destruct link_facts as (Ha & He & Hnp & Hfa & Hf & Hl1 & Hm & Hl & Hn & Hok & Hpos).
  assert (∀ c, fates s !! (end_num g, c) = None) as Hfn.
  { intros c. destruct (fates s !! (end_num g, c)) eqn:E; [|done]. apply (co_fates _ _ (iv_chain _ _ _ _ HI)) in E. lia. }
  assert (0 ≤ end_num g) as Hen by (pose proof (co_hn _ _ (iv_chain _ _ _ _ HI)); unfold end_num; lia).
  split; change (num (new_segment K (end_num g) (take m vs))) with (end_num g); change (fates link_state) with (fates s);
    change (enq (new_segment K (end_num g) (take m vs))) with (Z.of_nat (length (take m vs)));
    change (lin link_ghost (end_num g)) with (λ c, if decide (end_num g = end_num g) then take m vs !! Z.to_nat c else lin g (end_num g) c); simpl.
  - rewrite !length_app, length_fmap, !length_replicate. lia.
  - lia.
  - intros c Hc. rewrite decide_True by done. split; [apply lookup_ge_None_2; lia|]. split.
    + change (cells (new_segment K (end_num g) (take m vs)) !! Z.to_nat c = Some None). rewrite new_cell by lia. by rewrite lookup_ge_None_2 by lia.
    + rewrite new_state by lia. by rewrite decide_False by lia.
  - intros c Hc. rewrite new_state by lia. by case_decide.
  - intros c Hc. rewrite new_state by lia. case_decide; [|done]. intros _. rewrite decide_True by done. apply lookup_lt_is_Some_2. lia.
  - intros c Hc. rewrite new_state by lia. by case_decide.
  - intros c Hc. by rewrite Hfn.
  - intros c Hc. rewrite decide_True by done. intros Hs%lookup_lt_is_Some_1. left. rewrite new_state, decide_True by lia. done.
Qed.

Lemma link_chain : chain_ok link_ghost link_state.
Proof.
  destruct link_facts as (Ha & He & Hnp & Hfa & Hf & Hl1 & Hm & Hl & Hn & Hok & Hpos).
  pose proof (iv_chain _ _ _ _ HI) as Hc. pose proof Hc as [C1 C2 C3 C4 C5 C6 C7 C8 C9].
  assert (end_num link_ghost = end_num g + 1) as Een by (unfold end_num; simpl; rewrite length_app; simpl; lia).
  split; rewrite ?Een; try done.
  - change (chain link_ghost) with (chain g ++ [f]). change (hn link_ghost) with (hn g). intros i b Hb. rewrite length_app. apply lookup_app_Some in Hb as [Hb|[Hi Hb]].
    + destruct (C1 _ _ Hb) as (sb & Hsb & N1 & N2 & N3 & N4). pose proof (lookup_lt_Some _ _ _ Hb). rewrite link_heap. case_decide as E.
      * subst b. rewrite Hsg in Hsb. simplify_eq. exists (set_next f sb). split_and!; try done. simpl.
        assert (i = length (chain g) - 1)%nat as -> by (unfold end_num in *; lia).
        rewrite lookup_app_r by lia. by replace (S (length (chain g) - 1) - length (chain g))%nat with 0%nat by lia.
      * assert (S i < length (chain g))%nat. { destruct (decide (i = length (chain g) - 1)%nat) as [->|]; [congruence|lia]. }
        exists sb. rewrite lookup_app_l by lia. split_and!; auto.
    + assert (i = length (chain g) ∧ b = f) as [-> ->]. { apply list_lookup_singleton_Some in Hb as [? ->]. split; [lia|done]. }
      rewrite link_heap, decide_False by done. exists (new_segment K (end_num g) (take m vs)). split_and!; try done; [|simpl; lia].
      simpl. symmetry. apply lookup_ge_None_2. rewrite length_app. simpl. lia.
  - intros b Hb. destruct (C2 _ Hb) as (sb & Hsb & N1 & N2 & N3 & N4). rewrite link_heap, decide_False; [eauto 6|]. intros ->. rewrite Hsg in Hsb. simplify_eq. rewrite Hx in N4. by destruct N4.
  - intros b1 b2 s1 s2 H1 H2 Hs1 Hs2 E.
    destruct (link_seg b1 s1 H1 Hs1) as [[-> ->]|(z1 & _ & P1 & Z1 & Y1 & [->|(-> & -> & ->)])], (link_seg b2 s2 H2 Hs2) as [[-> ->]|(z2 & _ & P2 & Z2 & Y2 & [->|(-> & -> & ->)])];
      try done; try (simpl in E; congruence); by eapply C3.
  - intros b sb H1 Hs1. destruct (link_seg b sb H1 Hs1) as [[-> ->]|(z1 & _ & P1 & Z1 & Y1 & D)]; [apply link_new_ok|].
    pose proof (C4 _ _ P1 Z1) as Hok1. eapply seg_ok_frame; [exact Hok1|..]; try done; try (by destruct D as [->|(_ & -> & ->)]).
    intros c. simpl. by rewrite decide_False.
  - simpl. destruct (chain g); [simpl in Hpos; lia|done].
  - simpl. apply elem_of_app. by left.
  - intros n c Hn'. simpl. rewrite decide_False by lia. apply C8. lia.
  - intros n c b E. apply C9 in E. lia.
Qed.

Local Abbreviation link_pcs := (<[t:=PuTail r a f (drop m vs)]> pcs).

Lemma link_cells : cell_ok link_ghost link_state link_pcs.
Proof.
  destruct link_facts as (Ha & He & Hnp & Hfa & Hf & Hl1 & Hm & Hl & Hn & Hok & Hpos). pose proof (iv_cell _ _ _ _ HI) as [C1 C2 C3 C4]. split.
  - intros u v n c. destruct (decide (u = t)) as [->|], (decide (v = t)) as [->|]; rewrite ?fn_insert_eq, ?fn_insert_ne by done; try done. apply C1.
  - intros u v n c. destruct (decide (u = t)) as [->|], (decide (v = t)) as [->|]; rewrite ?fn_insert_eq, ?fn_insert_ne by done; try done;
      try (by intros; exfalso; eapply (in_range_none (PuTail r a f (drop m vs)))). apply C2.
  - intros u v b. destruct (decide (u = t)) as [->|], (decide (v = t)) as [->|]; rewrite ?fn_insert_eq, ?fn_insert_ne by done; try done. apply C3.
  - intros b sb c Hb Hsb Hc. destruct (link_seg b sb Hb Hsb) as [[-> ->]|(sb0 & _ & Pb & Zb & Yb & D)].
    + split; change (num (new_segment K (end_num g) (take m vs))) with (end_num g); rewrite ?new_state, ?new_cell by lia; simpl; rewrite ?(decide_True (P := end_num g = end_num g)) by done; try lia.
      * intros v [= Hv]. right. apply lookup_lt_Some in Hv. rewrite decide_True by lia. split; [done|by left; lia].
      * done.
      * intros Hv%lookup_lt_is_Some_1. rewrite decide_True by lia. by left.
      * intros E. apply (co_fates _ _ (iv_chain _ _ _ _ HI)) in E. lia.
    + eapply (cell1_frame g _ s); [by eapply C4|by apply indiff_none; rewrite Hp|by apply indiff_none|..]; try (by destruct D as [->|(_ & -> & ->)]).
      simpl. by rewrite decide_False.
Qed.

Lemma link_threads u : thread_ok link_ghost link_state u (link_pcs u).
Proof.
  destruct link_facts as (Ha & He & Hnp & Hfa & Hf & Hl1 & Hm & Hl & Hn & Hok & Hpos).
  destruct (decide (u = t)) as [->|]; rewrite ?fn_insert_eq, ?fn_insert_ne by done.
  - eapply (goes_thread g s pcs q t HI); [done|by rewrite Hp|by rewrite link_heap, decide_True|]. by apply goes_seg.
  - destruct (iv_thread _ _ _ _ HI u) as [T1 T2 T3]. split; try done. intros r0 j0 b Hb. destruct (T1 _ _ _ Hb) as (Hob & Hs & sb & Hsb & Hpu). split_and!; try done.
    destruct (held g s pcs q HI u r0 j0 b Hb) as (Hpb & _). pose proof (link_old_num b sb Hpb Hsb) as Hnb.
    assert (∀ f', fresh_of (pcs u) = Some f' → heap link_state f' = heap s f' ∧ (pub link_ghost f' → pub g f')) as Hfr.
    { intros f' Hf'. assert (f' ≠ f). { intros ->. eapply n, (cl_fresh _ _ _ (iv_cell _ _ _ _ HI)); [done|by rewrite Hp]. }
      rewrite link_heap, link_pub. split; [|tauto]. rewrite decide_False; [done|]. intros ->. destruct (pcs u); simplify_eq/=. tauto. }
    exists (if decide (b = a) then set_next f sg else sb). rewrite link_heap. case_decide as E.
    + subst b. rewrite Hsg in Hsb. injection Hsb as <-. split; [done|]. eapply seg_pc_mono; [..|exact Hpu]; try done; simpl; [congruence|]. intros c _. rewrite decide_False by done. auto.
    + split; [done|]. eapply seg_pc_mono; [..|exact Hpu]; try done; simpl. intros c _. rewrite decide_False by done. auto.
Qed.

Lemma link_abs : abs_ok link_ghost link_state (q ++ take m vs).
Proof.
  destruct link_facts as (Ha & He & Hnp & Hfa & Hf & Hl1 & Hm & Hl & Hn & Hok & Hpos).
  unfold abs_ok. change (chain link_ghost) with (chain g ++ [f]). rewrite flat_map_app. rewrite (iv_abs _ _ _ _ HI) at 1. f_equal.
  - apply flat_map_ext_in. intros b Hb. unfold content_at. rewrite link_heap. destruct (pub_seg _ _ (iv_chain _ _ _ _ HI) b (or_introl Hb)) as (sb & Hsb & Hlt).
    assert (num sb ≠ end_num g) as Hne by lia. case_decide; [subst b; rewrite Hsg in *; injection Hsb as <-|rewrite Hsb];
      unfold content; simpl; (apply list_omap_ext, Forall_Forall2_diag, Forall_forall; intros c _; by rewrite decide_False).
  - simpl. unfold content_at. rewrite link_heap, decide_False, Hf by done. rewrite app_nil_r. unfold content. simpl.
    etrans; [symmetry; apply (omap_cells (take m vs) 0 K Hl1)|]. rewrite Z.sub_0_r. apply list_omap_ext, Forall_Forall2_diag, Forall_forall. intros c _.
    by rewrite decide_True, Z.sub_0_r.
Qed.

Lemma push_links : good g pcs q pend t link_state (PuTail r a f (drop m vs)).
Proof.
  destruct link_facts as (Ha & He & Hnp & Hfa & Hf & Hl1 & Hm & Hl & Hn & Hok & Hpos). pose proof (Hst t) as Hs. rewrite Hp in Hs. destruct Hs as [me Hs].
  eapply (good_self g pcs q pend t Hst link_ghost (q ++ take m vs) (ICalled (PushRun me (drop m vs)) [])).
  - rewrite Hs. by apply parts_move.
  - split; [apply link_chain|apply link_cells|apply link_threads| |apply link_abs|apply (iv_bad _ _ _ _ HI)].
    change (dom link_state) with (dom s). eapply hz_mono; [apply hz_go; [apply (iv_hz _ _ _ _ HI)|by rewrite Hp|done]|..].
    + intros b Hb. apply link_pub. by right.
    + done.
    + intros b Hb. by right.
  - by exists me.
  - intros u Hu n c Htk. simpl. rewrite decide_False; [done|]. intros ->. destruct (concern_held g s pcs q HI u _ _ (or_introl Htk)) as (? & ? & b & sb & _ & Hb & Hsb & E & _).
    by apply (link_old_num b sb).
Qed.
End link.

(** *** A push takes its cells *)

Lemma filled_true (n : Z) (k : nat) : ∀ (lo : Z) (i : nat), (i < filled n lo k)%nat → φ (n, lo + Z.of_nat i) = true.
Proof.
  induction k as [|k IH]; intros lo i Hi; simpl in Hi; [lia|]. destruct (φ (n, lo)) eqn:E; [|lia]. destruct i as [|i]; [by rewrite Z.add_0_r|].
  replace (lo + Z.of_nat (S i)) with (lo + 1 + Z.of_nat i) by lia. apply IH. lia.
Qed.
Lemma filled_le (n : Z) (k : nat) : ∀ lo, (filled n lo k ≤ k)%nat.
Proof. induction k as [|k IH]; intros lo; simpl; [done|]. destruct (φ (n, lo)); [|lia]. specialize (IH (lo + 1)). lia. Qed.

Section reserve.
Context (r a : nat) (vs : list T) (sg : @segment T) (me : nat).
Context (Hp : pcs t = PuFaa r a vs) (Hsg : heap s a = Some sg) (Hpend : pend t = ICalled (PushRun me vs) []) (Hlt : enq sg < K) (Hcon : consistent s).
Local Abbreviation n := (num sg).
Local Abbreviation i := (enq sg).
Let end_ : Z := i + Z.of_nat (length vs).
Let stop : Z := if end_ <? K then end_ else K.
Let m : nat := fill_run n i stop.

(** The first [k] elements have taken effect. *)
Definition res_ghost (k : nat) : ghost :=
  Ghost (λ n' c, if decide (n' = n ∧ i ≤ c < i + Z.of_nat k) then vs !! Z.to_nat (c - i) else lin g n' c) (hn g) (chain g) (old g).
Definition res_queue (k : nat) : list T := flat_map (content_at (res_ghost k) s) (chain g).

Lemma res_facts : pub g a ∧ seg_ok g s sg ∧ chain g !! (length (chain g) - 1)%nat = Some a ∧ next sg = None ∧ i < stop ∧ stop ≤ K ∧ stop ≤ end_ ∧ (end_ ≤ K ∨ stop = K) ∧
  Z.of_nat m ≤ stop - i ∧ (m ≤ length vs)%nat ∧ 0 ≤ i.
Proof.
  destruct (at_pc _ r kPushSlot a Hp eq_refl) as (Hh & Ha & sg0 & Hsg0 & Hvs & Hok). rewrite Hsg in Hsg0. injection Hsg0 as <-. simpl in Hvs.
  destruct (no_next_last g s (iv_chain _ _ _ _ HI) a sg Ha Hsg (or_intror Hlt)) as [Hl Hn].
  assert (0 < length vs)%nat as Hpos by (destruct vs; simpl in *; [done|lia]). pose proof (so_range _ _ _ Hok) as (_ & Hi0 & _).
  assert (i < stop ∧ stop ≤ K ∧ stop ≤ end_ ∧ (end_ ≤ K ∨ stop = K)) as Hs by (subst stop end_; destruct (Z.ltb_spec (i + Z.of_nat (length vs)) K); lia).
  pose proof (filled_le n (Z.to_nat (stop - i)) i) as Hm. fold (fill_run n i stop) in Hm. fold m in Hm.
  destruct (co_chain _ _ (iv_chain _ _ _ _ HI) _ _ Hl) as (sg' & Hsg' & _ & Hx & _). rewrite Hsg in Hsg'. injection Hsg' as <-.
  split_and!; try done; try lia. rewrite Hx. apply lookup_ge_None_2. pose proof (lookup_lt_Some _ _ _ Hl). lia.
Qed.

Lemma res_lin k c : i ≤ c < i + Z.of_nat k → lin (res_ghost k) n c = vs !! Z.to_nat (c - i).
Proof. intros H. simpl. by rewrite decide_True. Qed.
Lemma res_lin_out k n' c : ¬ (n' = n ∧ i ≤ c < i + Z.of_nat k) → lin (res_ghost k) n' c = lin g n' c.
Proof. intros H. simpl. by rewrite decide_False. Qed.
Lemma res_lin_step k n' c : (n', c) ≠ (n, i + Z.of_nat k) → lin (res_ghost (S k)) n' c = lin (res_ghost k) n' c.
Proof.
  intros H. destruct (decide (n' = n ∧ i ≤ c < i + Z.of_nat (S k))) as [[-> Hc]|Hc].
  - assert (c ≠ i + Z.of_nat k) by congruence. rewrite !res_lin by lia. done.
  - rewrite !res_lin_out by lia. done.
Qed.

(** The cells taken, and not given up, are empty. *)
Lemma res_cell c : i ≤ c < i + Z.of_nat m → lin g n c = None ∧ state_at sg c = kEmpty ∧ φ (n, c) = true.
Proof.
  intros Hc. destruct res_facts as (Ha & Hok & Hl & Hx & Hs1 & Hs2 & Hs3 & Hs4 & Hm1 & Hm2 & Hi0).
  destruct (so_unres _ _ _ Hok c) as (Hn & _ & Hf); [lia|]. split; [done|].
  assert (φ (n, c) = true) as Hφ by (replace c with (i + Z.of_nat (Z.to_nat (c - i))) by lia; apply (filled_true n (Z.to_nat (stop - i))); fold (fill_run n i stop); fold m; lia).
  split; [|done]. pose proof (so_state _ _ _ Hok c ltac:(lia)) as Ht. destruct (state_at sg c) eqn:E; try done.
  destruct (so_skip _ _ _ Hok c ltac:(lia) E) as [_ Hfa]. apply Hcon in Hfa. congruence.
Qed.

Lemma res_beyond k lo : i + Z.of_nat k ≤ lo → omap (lin (res_ghost k) n) (seqZ lo (K - lo)) = [].
Proof.
  intros Hlo. destruct res_facts as (Ha & Hok & Hl & Hx & Hs1 & Hs2 & Hs3 & Hs4 & Hm1 & Hm2 & Hi0).
  apply omap_none. intros c Hc%elem_of_seqZ. rewrite res_lin_out by lia. apply (so_unres _ _ _ Hok). lia.
Qed.

(** One element more, in a cell no pop has claimed: it is the last of the
    queue. *)
Lemma res_append k v : (k < m)%nat → vs !! k = Some v → deq sg ≤ i + Z.of_nat k → res_queue (S k) = res_queue k ++ [v].
Proof.
  intros Hk Hv Hd. destruct res_facts as (Ha & Hok & Hl & Hx & Hs1 & Hs2 & Hs3 & Hs4 & Hm1 & Hm2 & Hi0). unfold res_queue.
  assert (∃ l, chain g = l ++ [a] ∧ a ∉ l) as (l & El & Hal).
  { destruct (chain g) as [|x l0 _] eqn:E using rev_ind; [done|]. rewrite length_app in Hl. simpl in Hl. rewrite lookup_app_r in Hl by lia.
    replace (length l0 + 1 - 1 - length l0)%nat with 0%nat in Hl by lia. simpl in Hl. injection Hl as ->. exists l0. split; [done|]. intros [j Hj]%list_elem_of_lookup.
    pose proof (lookup_lt_Some _ _ _ Hj). destruct (co_chain _ _ (iv_chain _ _ _ _ HI) j a) as (z1 & Hz1 & N1 & _); [rewrite E; by rewrite lookup_app_l|].
    destruct (co_chain _ _ (iv_chain _ _ _ _ HI) (length l0) a) as (z2 & Hz2 & N2 & _); [rewrite E; rewrite lookup_app_r by lia; by rewrite Nat.sub_diag|].
    rewrite Hz1 in Hz2. simplify_eq. lia. }
  rewrite El, !flat_map_app. simpl. rewrite !app_nil_r. rewrite <-app_assoc. f_equal.
  - apply flat_map_ext_in. intros b Hb. unfold content_at. destruct (heap s b) as [sb|] eqn:Hsb; [|done]. unfold content.
    apply list_omap_ext, Forall_Forall2_diag, Forall_forall. intros c _. apply res_lin_step. intros E. assert (num sb = n) as En by congruence. apply Hal.
    assert (b = a) as <-; [|done]. eapply (co_inj _ _ (iv_chain _ _ _ _ HI)); [left; rewrite El; apply elem_of_app; by left|exact Ha|done|done|done].
  - unfold content_at. rewrite Hsg. unfold content. replace (K - deq sg) with ((i + Z.of_nat k - deq sg) + (K - (i + Z.of_nat k))) by lia.
    rewrite seqZ_app by lia. rewrite !omap_app. replace (deq sg + (i + Z.of_nat k - deq sg)) with (i + Z.of_nat k) by lia. rewrite <-app_assoc. f_equal.
    + apply list_omap_ext, Forall_Forall2_diag, Forall_forall. intros c Hc%elem_of_seqZ. apply res_lin_step. intros [=]. lia.
    + rewrite seqZ_cons by lia. replace (Z.pred (K - (i + Z.of_nat k))) with (K - Z.succ (i + Z.of_nat k)) by lia. rewrite !omap_first, !res_beyond by lia. rewrite res_lin, res_lin_out by lia.
      rewrite (proj1 (so_unres _ _ _ Hok (i + Z.of_nat k) ltac:(lia))). replace (Z.to_nat (i + Z.of_nat k - i)) with k by lia. by rewrite Hv.
Qed.

(** Behind [deq] the queue is empty. *)
Lemma res_empty u k : ticket (pcs u) = Some (n, i + Z.of_nat k) → (k < m)%nat → res_queue k = [] ∧ res_queue (S k) = [].
Proof.
  intros Htk Hk. destruct res_facts as (Ha & Hok & Hl & Hx & Hs1 & Hs2 & Hs3 & Hs4 & Hm1 & Hm2 & Hi0).
  destruct (ticket_seg g s pcs q HI u a sg _ Ha Hsg Htk) as (_ & Hd). assert (n ≤ hn g) as Hn.
  { destruct (concern_held g s pcs q HI u _ _ (or_introl Htk)) as (r' & j' & b & sb & Hh & Hb & Hsb & En & Hpu & _).
    assert (b = a) as -> by (by eapply (co_inj _ _ (iv_chain _ _ _ _ HI))). rewrite Hsg in Hsb. injection Hsb as <-. destruct (pcs u); simplify_eq/=; lia. }
  destruct (only_segment g s (iv_chain _ _ _ _ HI) a sg Ha Hsg Hn (or_introl Hx)) as [Ec Eh]. unfold res_queue. rewrite Ec, <-Eh. simpl.
  unfold content_at. rewrite Hsg. unfold content. rewrite !res_beyond by lia. done.
Qed.

Lemma res_run k : (k ≤ m)%nat → ∃ pend', steps (interval segment_spec) (ist q pend) [] (ist (res_queue k) pend') ∧
  pend' t = ICalled (PushRun me (drop k vs)) [] ∧ ∀ u, u ≠ t → stat (res_ghost k) (pcs u) (pend' u).
Proof.
  destruct res_facts as (Ha & Hok & Hl & Hx & Hs1 & Hs2 & Hs3 & Hs4 & Hm1 & Hm2 & Hi0). induction k as [|k IH]; intros Hk.
  - exists pend. assert (res_queue 0 = q) as ->.
    { rewrite (iv_abs _ _ _ _ HI). apply flat_map_ext_in. intros b _. unfold content_at. destruct (heap s b); [|done]. unfold content.
      apply list_omap_ext, Forall_Forall2_diag, Forall_forall. intros c _. apply res_lin_out. lia. }
    split; [constructor|]. split; [done|]. intros u _. eapply stat_frame; [|apply Hst]. intros; apply res_lin_out. lia.
  - destruct IH as (pend' & Hrun & Ht & Hu); [lia|]. destruct (lookup_lt_is_Some_2 vs k) as [v Hv]; [lia|]. set (c := i + Z.of_nat k).
    rewrite (drop_S vs v k Hv) in Ht. set (pend1 := <[t:=ICalled (PushRun me (drop (S k) vs)) []]> pend').
    assert (∀ q', q' = res_queue k ++ [v] → lstep (interval segment_spec) (ist (res_queue k) pend') None (ist q' pend1)) as Hpart.
    { intros q' ->. eapply istep_part with (t := t); [exact Ht|by exists me, v, (drop (S k) vs)|done]. }
    destruct (decide (deq sg ≤ c)) as [Hd|Hd].
    + exists pend1. split; [|split].
      * rewrite <-(app_nil_r []). eapply steps_app; [exact Hrun|]. apply (steps_one (interval segment_spec) _ None), Hpart. by apply res_append.
      * apply fn_insert_eq.
      * intros u Hut. unfold pend1. rewrite fn_insert_ne by done. eapply stat_frame; [|by apply Hu]. intros n' c' Htk. apply res_lin_step. intros [= -> ->].
        destruct (ticket_seg g s pcs q HI u a sg _ Ha Hsg Htk). lia.
    + destruct (res_cell c ltac:(lia)) as (Hlc & Hem & _).
      destruct (c1_late _ _ _ _ _ (cl_at _ _ _ (iv_cell _ _ _ _ HI) a sg c Ha Hsg ltac:(lia)) ltac:(lia) Hem) as [u Htk].
      assert (u ≠ t) as Hut by (intros ->; by rewrite Hp in Htk). destruct (res_empty u k Htk ltac:(lia)) as [E1 E2].
      pose proof (Hu u Hut) as Hsu. assert (∃ me' ws, pend' u = ICalled (Pop me') ws) as (me' & ws & Hpu).
      { destruct (pcs u); simplify_eq/=; rewrite decide_False in Hsu by lia; rewrite Hlc in Hsu; destruct Hsu as (ws & me' & ?); by exists me', ws. }
      exists (<[u:=IDone (RPop (Some v))]> pend1). split; [|split].
      * rewrite <-(app_nil_r []). eapply steps_app; [exact Hrun|]. eapply (steps_tau (interval segment_spec)); [by apply Hpart|]. rewrite E1, E2.
        apply (steps_one (interval segment_spec) _ None). eapply istep_lin with (t := u) (o := Pop me'); [simpl; unfold pend1; by rewrite fn_insert_ne|done|done].
      * rewrite fn_insert_ne by done. apply fn_insert_eq.
      * intros w Hw. destruct (decide (w = u)) as [->|Hwu].
        -- rewrite fn_insert_eq. destruct (pcs u); simplify_eq/=; rewrite decide_True by lia; replace (Z.to_nat (c - i)) with k by lia; by rewrite Hv.
        -- unfold pend1. rewrite !fn_insert_ne by done. eapply stat_frame; [|by apply Hu]. intros n' c' Htk'. apply res_lin_step. intros [= -> ->].
           by eapply Hwu, (cl_uniq _ _ _ (iv_cell _ _ _ _ HI)).
Qed.

Local Abbreviation res_state := (put_seg s a (set_enq end_ sg)).
Local Abbreviation res_pc := (PuWrite r a n i stop end_ vs).

Lemma res_some k c : is_Some (lin (res_ghost k) n c) → i ≤ c < K → i ≤ c < i + Z.of_nat k.
Proof.
  intros Hl Hc. destruct res_facts as (_ & Hok & _). destruct (decide (c < i + Z.of_nat k)); [lia|]. rewrite res_lin_out in Hl by lia.
  rewrite (proj1 (so_unres _ _ _ Hok c Hc)) in Hl. by destruct Hl.
Qed.

Lemma res_ok : seg_ok (res_ghost m) res_state (set_enq end_ sg).
Proof.
  destruct res_facts as (Ha & Hok & Hl & Hx & Hs1 & Hs2 & Hs3 & Hs4 & Hm1 & Hm2 & Hi0). destruct Hok as [S1 S2 S3 S4 S5 S6 S7 S8].
  assert (∀ c, c < i → lin (res_ghost m) n c = lin g n c) as Hlow by (intros; apply res_lin_out; lia).
  split; change (num (set_enq end_ sg)) with n; change (state_at (set_enq end_ sg)) with (state_at sg); change (fates res_state) with (fates s); try done.
  - simpl. lia.
  - simpl. intros c Hc. assert (lin (res_ghost m) n c = lin g n c) as El by (apply res_lin_out; lia). simpl in El. rewrite El. apply S3. lia.
  - intros c Hc Hf. destruct (decide (c < i)); [rewrite Hlow by done; auto|]. destruct (S3 c ltac:(lia)) as (_ & _ & ?). done.
  - intros c Hc Hf. destruct (S6 c Hc Hf) as [A B]. split; [|done]. destruct (decide (i ≤ c < i + Z.of_nat m)) as [Hr|Hr]; [|rewrite res_lin_out by lia; done].
    destruct (res_cell c Hr) as (_ & E & _). congruence.
  - intros c Hc Hs. destruct (decide (c < i)); [rewrite Hlow in Hs by done; auto|]. right. apply res_some in Hs; [|lia]. by apply res_cell.
Qed.

Lemma res_cell1 c : 0 ≤ c < K → cell1 (res_ghost m) res_state (<[t:=res_pc]> pcs) (set_enq end_ sg) c.
Proof.
  intros Hc. destruct res_facts as (Ha & Hok & Hl & Hx & Hs1 & Hs2 & Hs3 & Hs4 & Hm1 & Hm2 & Hi0).
  pose proof (cl_at _ _ _ (iv_cell _ _ _ _ HI) a sg c Ha Hsg Hc) as Hc1.
  destruct (decide (i ≤ c < stop)) as [Hr|Hr].
  - destruct Hc1 as [H1 H2 H3 H4 H5]. destruct (so_unres _ _ _ Hok c ltac:(lia)) as (U1 & U2 & U3).
    split; change (num (set_enq end_ sg)) with n; change (state_at (set_enq end_ sg)) with (state_at sg); change (fates res_state) with (fates s); change (cells (set_enq end_ sg)) with (cells sg); change (deq (set_enq end_ sg)) with (deq sg).
    + intros Hd He. apply tick_keep; [by rewrite Hp|]. auto.
    + congruence.
    + done.
    + intros _. right. exists t. rewrite fn_insert_eq. split; [|done]. by exists i, stop.
    + intros Hf. destruct (H5 Hf) as [?|Hg]; [by left|]. right. apply givep_keep; [rewrite Hp; by apply in_range_none|done].
  - eapply cell1_frame; [exact Hc1|rewrite Hp; by apply indiff_none| |done..|apply res_lin_out; lia|done].
    split_and!; try done. intros (? & ? & [= <- <-] & ?). lia.
Qed.

Lemma push_reserve : good g pcs q pend t res_state res_pc.
Proof.
  destruct res_facts as (Ha & Hok & Hl & Hx & Hs1 & Hs2 & Hs3 & Hs4 & Hm1 & Hm2 & Hi0).
  assert (hold (pcs t) = Some (r, kPushSlot, a)) as Hh by by rewrite Hp.
  destruct (res_run m ltac:(lia)) as (pend' & Hrun & Ht & Hu). exists (res_ghost m), (res_queue m), pend'. split; [done|]. split.
  - assert (goes_on (res_ghost m) res_state r kPushSlot a (set_enq end_ sg) res_pc) as Hg.
    { apply goes_seg; [done|]. split; [|split; [|split]].
      - split; [done|simpl; lia|done|]. intros c Hc. change (state_at sg c ≠ kFull). apply (so_unres _ _ _ Hok). lia.
      - intros c Hc. apply (so_unres _ _ _ Hok). lia.
      - subst end_. lia.
      - intros c Hc. fold m. case_decide; [apply res_lin; lia|]. rewrite res_lin_out by lia. apply (so_unres _ _ _ Hok). lia. }
    apply (put_inv g s pcs q t HI (res_ghost m) res_state r kPushSlot a sg (set_enq end_ sg) res_pc (res_queue m)); try done.
    + intros n' c Hn'. apply res_lin_out. lia.
    + simpl. lia.
    + by left.
    + apply res_ok.
    + apply res_cell1.
    + intros u n' c Hut (? & ? & [= <- <- <-] & Hc) Hi2. destruct (range_seg g s pcs q HI u a sg c Ha Hsg Hi2) as (_ & ? & _). lia.
    + by intros n' c (? & ? & [= <- <- <-] & Hc).
    + intros u Hut. split; [|done]. intros c Hc. destruct (range_seg g s pcs q HI u a sg c Ha Hsg Hc) as (_ & ? & _). split_and!; [by left|done|]. apply res_lin_out. lia.
    + eapply (goes_thread g s pcs q t HI); [done|done| |exact Hg]. simpl. by rewrite fn_insert_eq.
    + unfold abs_ok, res_queue. apply flat_map_ext_in. intros b Hb. unfold content_at. simpl. destruct (decide (b = a)) as [->|]; rewrite ?fn_insert_eq, ?fn_insert_ne by done; [by rewrite Hsg|done].
  - intros u. destruct (decide (u = t)) as [->|]; rewrite ?fn_insert_eq, ?fn_insert_ne by done; [|by apply Hu]. simpl. exists me. done.
Qed.
End reserve.

(** Past the end of the segment. *)
Lemma push_past r a (vs : list T) sg end_ : pcs t = PuFaa r a vs → heap s a = Some sg → K ≤ enq sg → enq sg ≤ end_ →
  good g pcs q pend t (put_seg s a (set_enq end_ sg)) (PuNext r a 0 vs).
Proof.
  intros Hp Hsg He Hend. destruct (at_pc _ r kPushSlot a Hp eq_refl) as (Hh & Ha & sg0 & Hsg0 & Hvs & Hok). rewrite Hsg in Hsg0. injection Hsg0 as <-. simpl in Hvs.
  pose proof (Hst t) as Hs. rewrite Hp in Hs. pose proof (iv_cell _ _ _ _ HI) as [C1 C2 C3 C4]. set (s' := put_seg s a (set_enq end_ sg)).
  eapply (good_self g pcs q pend t Hst g q (pend t)); [apply lmove_stay| |done|done].
  assert (goes_on g s' r kPushSlot a (set_enq end_ sg) (PuNext r a 0 vs)) as Hg by (apply goes_seg; [done|]; simpl; split; [lia|done]).
  apply (put_inv g s pcs q t HI g s' r kPushSlot a sg (set_enq end_ sg) (PuNext r a 0 vs) q); try done.
  - by left.
  - destruct Hok as [S1 S2 S3 S4 S5 S6 S7 S8]. split; try done; simpl; [lia|]. intros c Hc. lia.
  - intros c Hc. eapply cell1_frame; [by eapply C4|rewrite Hp; by apply indiff_none|by apply indiff_none|done..].
  - intros u n' c _ Hi. by apply in_range_none in Hi.
  - intros n' c Hi. by apply in_range_none in Hi.
  - intros u Hu. split; [|done]. auto.
  - eapply (goes_thread g s pcs q t HI); [done|done| |exact Hg]. simpl. by rewrite fn_insert_eq.
  - eapply abs_same; [done|done|]. by eapply content_put.
Qed.

(** Every step of a push. *)
Lemma push_good ch s' p p' : pcs t = p → runs_in (@MState _ _ M s pcs) → consistent s' → push_step K ch s p = Some (s', p') →
  good g pcs q pend t s' p'.
Proof.
  intros Hp [Hfit Hcon0] Hcon Hstep. destruct p; try done; [..|by eapply push_tail].
  - destruct (at_pc _ r kPushSlot t0 Hp eq_refl) as (Hh & Ha & sg & Hsg & Hvs & Hok). simpl in Hstep, Hvs. unfold at_seg in Hstep. rewrite Hsg in Hstep.
    pose proof (Hfit t) as Hf. simpl in Hf. rewrite Hp in Hf. simpl in Hf. rewrite Hsg in Hf. apply Z.ltb_lt in Hf. pose proof (so_range _ _ _ Hok) as (_ & He0 & _). rewrite u64_small in Hstep by lia.
    pose proof (Hst t) as Hs. rewrite Hp in Hs. destruct Hs as [me Hs]. destruct (Z.ltb_spec (enq sg) K) as [Hlt|Hge]; injection Hstep as <- <-; [|by apply push_past; try lia].
    pose proof (push_reserve r t0 vs sg me Hp Hsg Hs Hlt Hcon0) as Hgood. destruct (res_facts r t0 vs sg me Hp Hsg Hs Hlt) as (_ & _ & _ & _ & Hi & _).
    apply Z.ltb_lt in Hi. by rewrite Hi.
  - by eapply push_writes.
  - destruct (at_pc _ r kPushSlot t0 Hp eq_refl) as (Hh & Ha & sg & Hsg & Hpc & Hok). simpl in Hstep. unfold at_seg in Hstep. rewrite Hsg in Hstep.
    case_decide; injection Hstep as <- <-; [by apply push_fill|by apply (push_lost r t0 n j stop end_ vs sg)].
  - by eapply push_back.
  - by eapply push_give.
  - by eapply push_next.
  - by eapply push_new.
  - destruct (at_pc _ r kPushSlot t0 Hp eq_refl) as (Hh & Ha & sg & Hsg & Hpc & Hok). simpl in Hstep. unfold at_seg in Hstep. rewrite Hsg in Hstep.
    destruct (next sg) as [nx|] eqn:Ex; injection Hstep as <- <-; [by eapply push_link_lost|by eapply push_links].
Qed.

(** ** The hazard operations *)

Lemma free_all_heap (l : list nat) : ∀ s0 : @queue T, NoDup l → (∀ b, b ∈ l → has_element s0 b = false) →
  (∀ b, heap (free_all s0 l) b = if decide (b ∈ l) then None else heap s0 b) ∧ head_ (free_all s0 l) = head_ s0 ∧ tail_ (free_all s0 l) = tail_ s0 ∧
  dom (free_all s0 l) = dom s0 ∧ bad (free_all s0 l) = bad s0 ∧ fates (free_all s0 l) = fates s0.
Proof.
  induction l as [|x l IH]; intros s0 Hnd He; [done|]. simpl.
  apply NoDup_cons in Hnd as [Hx Hnd]. rewrite He by (by left).
  destruct (IH (set_heap s0 (<[x:=None]> (heap s0))) Hnd) as (E1 & E2).
  { intros b Hb. unfold has_element. simpl. rewrite fn_insert_ne by congruence. apply He. by right. }
  split; [|done]. intros b. rewrite E1. simpl. destruct (decide (b = x)) as [->|Hne].
  - rewrite fn_insert_eq. rewrite (decide_True (P := x ∈ x :: l)) by (by left). by case_decide.
  - rewrite fn_insert_ne by done. destruct (decide (b ∈ l)); [rewrite decide_True by (by right); done|]. rewrite decide_False; [done|]. by intros [?|?]%elem_of_cons.
Qed.

Lemma resume_cases (k : @cont T) out p' : resume k out = Some p' →
  (∃ vs r, k = KPush vs ∧ out = Got r ∧ p' = push_loop r vs) ∨ (∃ vs r a, k = KPush vs ∧ out = Protected r a ∧ p' = PuFaa r a vs) ∨
  (∃ r, k = KPop ∧ (out = Got r ∨ out = Retired r) ∧ p' = pop_loop r) ∨ (∃ r a, k = KPop ∧ out = Protected r a ∧ p' = PoDeq r a) ∨
  (∃ x, k = KDone x ∧ out = Cleared ∧ p' = PcDone x) ∨ (k = KExit ∧ out = Exited ∧ p' = PcDone RUnit).
Proof. destruct k, out; simpl; intros [= <-]; naive_solver. Qed.

Section hazard.
Context (hp : hpc) (k : @cont T) (sp : bool) (d' : domain) (freed : list nat) (o : hpc + hout).
Context (Hp : pcs t = Hz hp k) (Hstep : hstep sp (src_of s) (dom s) hp = Some (d', freed, o)).

Local Abbreviation haz_state := (free_all (set_dom s d') freed).
Definition haz_ghost : ghost := Ghost (lin g) (hn g) (chain g) (filter (λ a, a ∉ freed) (old g)).

Lemma haz_ok : step_ok (pub g) (gone g) (dom s) (view pcs) t (src_of s) hp d' freed o.
Proof.
  eapply hz_step; [apply (iv_hz _ _ _ _ HI)|apply (src_pub g s (iv_chain _ _ _ _ HI))|by unfold view; rewrite Hp|done].
Qed.

(** No thread that works on a segment has it freed. *)
Lemma held_kept u r j a : hold (pcs u) = Some (r, j, a) → a ∉ freed.
Proof.
  intros Hh Hf. destruct haz_ok as (_ & _ & _ & Hfr & _). destruct (Hfr a Hf) as [_ Hno]. destruct (held g s pcs q HI u r j a Hh) as (_ & Ho & Hs & _).
  apply (Hno u r j Ho); [|done]. unfold view. destruct (pcs u); done || (simpl; tauto).
Qed.

Lemma freed_old a : a ∈ freed → a ∈ old g ∧ a ∉ chain g.
Proof.
  intros Hf. destruct haz_ok as (_ & _ & _ & Hfr & _). destruct (Hfr a Hf) as [Hg _]. split; [done|]. intros [i Hi]%list_elem_of_lookup.
  destruct (co_chain _ _ (iv_chain _ _ _ _ HI) _ _ Hi) as (sg & Hsg & Hn & _). destruct (co_old _ _ (iv_chain _ _ _ _ HI) _ Hg) as (sg' & Hsg' & Hn' & _).
  rewrite Hsg in Hsg'. simplify_eq. lia.
Qed.

(** A freed segment has no element. *)
Lemma freed_empty a : a ∈ freed → has_element (set_dom s d') a = false.
Proof.
  intros Hf. destruct (freed_old a Hf) as [Ho Hc]. assert (pub g a) as Ha by (by right). destruct (co_old _ _ (iv_chain _ _ _ _ HI) _ Ho) as (sg & Hsg & _ & Hd & _).
  unfold has_element. simpl. rewrite Hsg. apply not_true_is_false. intros (x & Hx & Hv)%existsb_exists. destruct x as [v|]; [|done].
  apply list_elem_of_In, list_elem_of_lookup in Hx as [i Hi]. pose proof (so_len _ _ _ (co_seg _ _ (iv_chain _ _ _ _ HI) a sg Ha Hsg)) as [_ Hl]. pose proof (lookup_lt_Some _ _ _ Hi) as Hlt.
  assert (∀ u c, ticket (pcs u) = Some (num sg, c) ∨ in_range (pcs u) (num sg) c → False) as Hno.
  { intros u c Hcc. destruct (concern_held g s pcs q HI u _ _ Hcc) as (r & j & b & sb & Hh & Hb & Hsb & En & _).
    assert (b = a) as -> by (by eapply (co_inj _ _ (iv_chain _ _ _ _ HI))). by apply (held_kept u r j a). }
  destruct (c1_cell _ _ _ _ _ (cl_at _ _ _ (iv_cell _ _ _ _ HI) a sg (Z.of_nat i) Ha Hsg ltac:(lia)) v) as [[u Hm]|[_ [?|[u Hu]]]].
  - by rewrite Nat2Z.id.
  - apply (Hno u (Z.of_nat i)). right. assert (∃ stop, range (pcs u) = Some (num sg, Z.of_nat i, stop) ∧ Z.of_nat i < stop) as (stop & ? & ?).
    { pose proof (tk_hold _ _ _ _ (iv_thread _ _ _ _ HI u)) as Hh. destruct (pcs u); simplify_eq/=; destruct (Hh _ _ _ eq_refl) as (_ & _ & su & _ & [[_ Hr _ _] _]); eexists; (split; [done|lia]). }
    exists (Z.of_nat i), stop. split; [done|lia].
  - lia.
  - apply (Hno u (Z.of_nat i)). by left.
Qed.

Lemma haz_heap : (∀ b, heap haz_state b = if decide (b ∈ freed) then None else heap s b) ∧ head_ haz_state = head_ s ∧ tail_ haz_state = tail_ s ∧
  dom haz_state = d' ∧ bad haz_state = bad s ∧ fates haz_state = fates s.
Proof. destruct haz_ok as (_ & _ & Hnd & _). apply (free_all_heap freed (set_dom s d') Hnd freed_empty). Qed.

Lemma haz_pub b : pub haz_ghost b ↔ pub g b ∧ b ∉ freed.
Proof.
  unfold pub. simpl. rewrite list_elem_of_filter. pose proof (freed_old b) as H. destruct (decide (b ∈ freed)); [|tauto]. destruct H; tauto.
Qed.

Lemma haz_chain : chain_ok haz_ghost haz_state.
Proof.
  destruct haz_heap as (E1 & E2 & E3 & E4 & E5 & E6). pose proof (iv_chain _ _ _ _ HI) as [C1 C2 C3 C4 C5 C6 C7 C8 C9].
  assert (∀ b, b ∉ freed → heap haz_state b = heap s b) as Hk by (intros b Hb; rewrite E1; by rewrite decide_False).
  split; rewrite ?E2, ?E3; try done.
  - intros i b Hb. simpl in Hb. rewrite Hk; [by apply C1|]. intros Hf%freed_old. by apply (proj2 Hf), (list_elem_of_lookup_2 _ i).
  - intros b [Hb1 Hb2]%list_elem_of_filter. rewrite Hk by done. by apply C2.
  - intros b1 b2 s1 s2 [H1 H1']%haz_pub [H2 H2']%haz_pub. rewrite !Hk by done. by apply C3.
  - intros b sb [Hb Hb']%haz_pub. rewrite Hk by done. intros Hsb. eapply (seg_ok_frame _ _ sb); [by eapply C4|done..].
  - intros n c b. rewrite E6. apply C9.
Qed.

Lemma haz_cells p' : ticket p' = None → range p' = None → fresh_of p' = None → cell_ok haz_ghost haz_state (<[t:=p']> pcs).
Proof.
  intros Ht' Hr' Hf'. destruct haz_heap as (E1 & E2 & E3 & E4 & E5 & E6). pose proof (iv_cell _ _ _ _ HI) as [C1 C2 C3 C4]. split.
  - intros u v n c. destruct (decide (u = t)) as [->|], (decide (v = t)) as [->|]; rewrite ?fn_insert_eq, ?fn_insert_ne by done; rewrite ?Ht'; try done. apply C1.
  - intros u v n c. destruct (decide (u = t)) as [->|], (decide (v = t)) as [->|]; rewrite ?fn_insert_eq, ?fn_insert_ne by done; try done; try (by intros; exfalso; eapply (in_range_none p')). apply C2.
  - intros u v b. destruct (decide (u = t)) as [->|], (decide (v = t)) as [->|]; rewrite ?fn_insert_eq, ?fn_insert_ne by done; rewrite ?Hf'; try done. apply C3.
  - intros b sb c [Hb Hb']%haz_pub Hsb Hc. rewrite E1, decide_False in Hsb by done. eapply (cell1_frame g _ s); [by eapply C4|rewrite Hp; by apply indiff_none|by apply indiff_none|done..|].
    by rewrite E6.
Qed.

Lemma haz_others u : u ≠ t → thread_ok haz_ghost haz_state u (pcs u).
Proof.
  intros Hu. destruct haz_heap as (E1 & E2 & E3 & E4 & E5 & E6). destruct haz_ok as (_ & [F1 F2] & _ & _ & _). destruct (iv_thread _ _ _ _ HI u) as [T1 T2 T3].
  split; try done. intros r j a Hh. destruct (T1 _ _ _ Hh) as (Ho & Hs & sg & Hsg & Hpu). rewrite E4, F1 by done. split; [done|]. split; [by apply (F2 u)|].
  exists sg. rewrite E1, decide_False by (by eapply held_kept). split; [done|]. eapply seg_pc_mono; [..|exact Hpu]; rewrite ?E3, ?E6; try done; [by auto|].
  intros f Hf. rewrite haz_pub. split; [|tauto]. rewrite E1, decide_False; [done|]. intros [Hff _]%freed_old. destruct (pcs u); simplify_eq/=. apply Hpu. by right.
Qed.

Lemma haz_inv p' : ticket p' = None → range p' = None → fresh_of p' = None → thread_ok haz_ghost haz_state t p' →
  hz_ok (pub haz_ghost) (gone haz_ghost) d' (view (<[t:=p']> pcs)) → Inv haz_ghost haz_state (<[t:=p']> pcs) q.
Proof.
  intros Ht' Hr' Hf' Hth Hz. destruct haz_heap as (E1 & E2 & E3 & E4 & E5 & E6). split.
  - apply haz_chain.
  - by apply haz_cells.
  - intros u. destruct (decide (u = t)) as [->|]; rewrite ?fn_insert_eq, ?fn_insert_ne by done; [done|by apply haz_others].
  - by rewrite E4.
  - unfold abs_ok. rewrite (iv_abs _ _ _ _ HI). apply flat_map_ext_in. intros b Hb. unfold content_at. rewrite E1, decide_False; [done|]. intros Hf%freed_old. tauto.
  - rewrite E5. apply (iv_bad _ _ _ _ HI).
Qed.

Lemma haz_hz v' : view_of o = v' → hz_ok (pub haz_ghost) (gone haz_ghost) d' (<[t:=v']> (view pcs)).
Proof.
  intros <-. destruct haz_ok as (Hz & _). eapply hz_mono; [exact Hz|..]; simpl.
  - intros a Ha. by apply haz_pub.
  - intros a [Ha Hn]. unfold gone. simpl. by apply list_elem_of_filter.
  - intros a Ha. by right.
Qed.

(** An operation goes on. *)
Lemma haz_on h : o = inl h → good g pcs q pend t haz_state (Hz h k).
Proof.
  intros Eo. pose proof (Hst t) as Hs. rewrite Hp in Hs.
  eapply (good_self g pcs q pend t Hst haz_ghost q (pend t)); [apply lmove_stay| |done|done].
  apply haz_inv; try done.
  - split; [done| |done]. intros h' k' [= <- <-]. pose proof (tk_cont _ _ _ _ (iv_thread _ _ _ _ HI t) hp k Hp) as Hc. subst o.
    clear -Hc Hstep. destruct hp; simpl in *; unfold goes, answers in *; repeat case_match; simplify_eq/=; done.
  - eapply hz_ext; [intros u; symmetry; apply view_insert|]. apply haz_hz. by subst o.
Qed.

(** An operation answers, and the queue's code takes over: at a segment, at
    the next hazard operation, or done. *)
Lemma haz_next p' out st' : o = inr out → lmove segment_spec q (pend t) q st' → stat g p' st' →
  ticket p' = None → range p' = None → fresh_of p' = None → thread_ok haz_ghost haz_state t p' →
  (∀ h, hv p' = Some h → entry h = true ∧ thr_ok d' t h ∧ ∀ r a, h ≠ Retire r a) → good g pcs q pend t haz_state p'.
Proof.
  intros Eo Hm Hs H1 H2 H3 Hth Hen. eapply (good_self g pcs q pend t Hst haz_ghost q st'); [done| |done|done]. apply haz_inv; try done.
  assert (hz_ok (pub haz_ghost) (gone haz_ghost) d' (view (<[t:=PcIdle]> pcs))) as Hz.
  { eapply hz_ext; [intros u; symmetry; apply view_insert|]. apply haz_hz. by subst o. }
  eapply hz_ext; [|apply (hz_go _ _ _ (<[t:=PcIdle]> pcs) t p' Hz)].
  - intros u. unfold view. destruct (decide (u = t)) as [->|]; rewrite ?fn_insert_eq, ?fn_insert_ne by done; done.
  - by rewrite fn_insert_eq.
  - intros h Eh. destruct (Hen h Eh) as (A & B & C). split_and!; try done. intros r a ->. by destruct (C r a).
Qed.

(** The next hazard operation, on the record the thread owns. *)
Lemma haz_entry h k' out st' : o = inr out → lmove segment_spec q (pend t) q st' → stat g (Hz h k') st' → entry h = true → cont_ok h k' →
  (∀ r a, h ≠ Retire r a) → me_of h = None → (∃ r, rec_of h = Some r ∧ own d' t = Some r) → good g pcs q pend t haz_state (Hz h k').
Proof.
  intros Eo Hm Hs He Hc Hr Hme (r & Er & Ho). eapply (haz_next _ out st'); try done.
  - split; [done| |done]. by intros ? ? [= <- <-].
  - intros h' [= <-]. split_and!; try done. by eapply thr_entry.
Qed.

(** A protected segment. *)
Lemma haz_protected r a j p' st' : o = inr (Protected r a) → lmove segment_spec q (pend t) q st' → stat g p' st' →
  hold p' = Some (r, j, a) → ticket p' = None → range p' = None → fresh_of p' = None → p' ≠ PcBad → (∀ j', hp = ProtCheck r j' a → j' = j) →
  (∀ sg, heap s a = Some sg → a = src_of s j → seg_pc haz_ghost haz_state sg p') → good g pcs q pend t haz_state p'.
Proof.
  intros Eo Hm Hs Hh H1 H2 H3 Hb Hj Hpc. destruct haz_heap as (E1 & E2 & E3 & E4 & E5 & E6). destruct haz_ok as (_ & _ & _ & _ & Hout). rewrite Eo in Hout. simpl in Hout.
  destruct Hout as (Ho & j' & Ep & Hsl & Ea). assert (j' = j) as -> by (by apply Hj).
  destruct (src_pub g s (iv_chain _ _ _ _ HI) j) as [Hpub Hng]. rewrite <-Ea in *. destruct (pub_seg _ _ (iv_chain _ _ _ _ HI) a Hpub) as (sg & Hsg & _).
  eapply (haz_next _ _ st'); try done.
  - split; [|intros h k' ->; done|done]. rewrite Hh. intros ? ? ? [= <- <- <-]. rewrite E4. split; [done|]. split; [done|]. exists sg. rewrite E1, decide_False by (by intros [Hf _]%freed_old).
    split; [done|]. by apply Hpc.
  - intros h. by destruct p'.
Qed.

Lemma haz_answers p' out : o = inr out → resume k out = Some p' → good g pcs q pend t haz_state p'.
Proof.
  intros Eo Hres. pose proof (Hst t) as Hs. rewrite Hp in Hs. destruct haz_ok as (_ & _ & _ & _ & Hout). rewrite Eo in Hout. simpl in Hout.
  pose proof (tk_cont _ _ _ _ (iv_thread _ _ _ _ HI t) hp k Hp) as Hc.
  destruct (resume_cases k out p' Hres) as [(vs & r & Ek & -> & ->)|[(vs & r & a & Ek & -> & ->)|[(r & Ek & Er & ->)|[(r & a & Ek & -> & ->)|[(x & Ek & -> & ->)|(Ek & -> & ->)]]]]];
    rewrite Ek in Hs, Hc.
  - destruct (push_move vs r _ Hs) as (st' & Hm & Hs'). destruct vs as [|v vs]; (eapply (haz_entry _ _ (Got r) st'); try done; by exists r).
  - destruct Hout as (Ho & j' & Ep & _). rewrite Ep in Hc. destruct Hc as [Ej Hvs]. eapply (haz_protected r a kPushSlot _ (pend t)); try done; [constructor|].
    intros j0 E. congruence.
  - eapply (haz_entry _ _ out (pend t)); try done; [constructor|]. exists r. destruct Er as [-> | ->]; done.
  - destruct Hout as (Ho & j' & Ep & _). rewrite Ep in Hc. eapply (haz_protected r a kPopSlot _ (pend t)); try done; [constructor| |].
    + intros j0 E. congruence.
    + intros sg Hsg ->. simpl. destruct (head_segment g s (iv_chain _ _ _ _ HI)) as (_ & sg' & Hsg' & Hn). simpl in Hsg. rewrite Hsg in Hsg'. injection Hsg' as <-. lia.
  - eapply (haz_next _ Cleared (pend t)); try done; constructor.
  - destruct Hs as [me Hs]. eapply (haz_next _ Exited (IDone RUnit)); try done. rewrite Hs. by apply lmove_lin.
Qed.
End hazard.

Lemma hazard_good ch s' hp k p' : pcs t = Hz hp k → hazard_step ch s hp k = Some (s', p') → good g pcs q pend t s' p'.
Proof.
  intros Hp Hstep. unfold hazard_step in Hstep. destruct (hstep (spurious ch) (src_of s) (dom s) hp) as [[[d' freed] [h|out]]|] eqn:E; [..|done].
  - injection Hstep as <- <-. by eapply haz_on.
  - destruct (resume k out) as [p0|] eqn:Er; [|done]. injection Hstep as <- <-. by eapply haz_answers.
Qed.

Lemma any_step_good ch s' p' : runs_in (@MState _ _ M s pcs) → consistent s' → step K ch s (pcs t) = Some (s', p') → good g pcs q pend t s' p'.
Proof.
  intros Hr Hcon Hstep. destruct (pcs t) eqn:Hp; try done; unfold step in Hstep;
    first [by eapply hazard_good|by eapply push_good|by eapply pop_good; [done|apply Hr|..]].
Qed.
End moves.

(** ** The proof *)

Lemma fresh_inv : ∃ g, Inv g (segment_queue K) (λ _, PcIdle) [] ∧ stat g PcIdle IIdle.
Proof.
  exists (Ghost (λ _ _, None) 0 [0%nat] []). split; [|done]. set (g := Ghost (λ _ _, None) 0 [0%nat] []). set (s := @segment_queue T K).
  assert (∀ a sg, pub g a → heap s a = Some sg → a = 0%nat ∧ sg = new_segment K 0 []) as Hpub.
  { intros a sg [->%list_elem_of_singleton|?%not_elem_of_nil]; [|done]. intros [= <-]. done. }
  split; try done.
  - split; try done.
    + intros i a Hi. simpl in Hi. destruct i; [|done]. injection Hi as <-. eexists. split; [reflexivity|]. split_and!; try done. simpl. lia.
    + by intros a ?%not_elem_of_nil.
    + intros a b sa sb Ha Hb Hsa Hsb _. destruct (Hpub a sa Ha Hsa) as [-> _], (Hpub b sb Hb Hsb) as [-> _]. done.
    + intros a sg Ha Hsg. destruct (Hpub a sg Ha Hsg) as [_ ->]. split; try done.
      * simpl. rewrite !length_replicate. lia.
      * intros c Hc. simpl in Hc. split; [done|]. rewrite new_cell, new_state by (simpl; lia). split; [done|]. rewrite decide_False by (simpl; lia). done.
      * intros c Hc. rewrite new_state by (simpl; lia). by case_decide.
      * intros c Hc. rewrite new_state by (simpl; lia). rewrite decide_False by (simpl; lia). done.
      * intros c Hc. rewrite new_state by (simpl; lia). by case_decide.
      * intros c Hc [? ?]. done.
    + simpl. by left.
  - split; try done.
    + intros t u n c (? & ? & ? & _). done.
    + intros a sg c Ha Hsg Hc. destruct (Hpub a sg Ha Hsg) as [_ ->]. split; try (by intros [? ?]); try done.
      * simpl. lia.
      * intros v. rewrite new_cell by (simpl; lia). done.
      * rewrite new_state by (simpl; lia). rewrite decide_False by (simpl; lia). done.
  - split; simpl; intros; try done; [by destruct H as (? & ? & _)|by right].
  - unfold abs_ok. simpl. unfold content_at. simpl. unfold content. simpl. rewrite omap_none by done. done.
Qed.

(** A call begins, or a result is returned. *)
Lemma outside_inv g s (pcs : nat → @pc T) q (t : nat) p' : Inv g s pcs q → hold (pcs t) = None → hold p' = None → hv (pcs t) = None → p' ≠ PcBad →
  (∀ h k, p' = Hz h k → cont_ok h k ∧ entry h = true ∧ thr_ok (dom s) t h ∧ ∀ r a, h ≠ Retire r a) → Inv g s (<[t:=p']> pcs) q.
Proof.
  intros HI Hh Hh' Hv Hb Hp'. assert (same_work (pcs t) p') as Hw by (unfold same_work; destruct (pcs t), p'; done).
  split; try apply HI.
  - by apply (cells_same g s pcs q t HI).
  - intros u. destruct (decide (u = t)) as [->|]; rewrite ?fn_insert_eq, ?fn_insert_ne by done; [|apply HI]. split; [by rewrite Hh'| |done].
    intros h k E. by apply (Hp' h k).
  - apply hz_go; [apply HI|done|]. intros h Eh. destruct p'; try done. injection Eh as <-. destruct (Hp' _ _ eq_refl) as (_ & A & B & C). split_and!; try done.
    intros r a ->. by destruct (C r a).
Qed.

Lemma seg_help : help_proof M segment_spec runs_in Inv stat.
Proof.
  split.
  - apply fresh_inv.
  - intros g s pcs q t o HI Hid Hmay. assert (pcs t = PcIdle) as Et by (simpl in Hid; by destruct (pcs t)). split_and!.
    + by rewrite Et.
    + apply (outside_inv g s pcs q t (enter o)); rewrite ?Et; try done; [by destruct o..|]. intros h k E.
      destruct o as [me vs|me|me]; simpl in *; apply Nat.eqb_eq in Hmay as <-; simplify_eq; (split_and!; try done); split; simpl; intros; by simplify_eq.
    + destruct o as [me vs|me|me]; simpl; [by exists me|by exists [], me|by exists me].
  - intros g s pcs q t r HI Hres. assert (pcs t = PcDone r) as Et by (simpl in Hres; destruct (pcs t); simplify_eq/=; done). split_and!; [by rewrite Et| |done].
    apply (outside_inv g s pcs q t PcIdle); by rewrite ?Et.
  - intros g s pcs q pend t c s' p' HP [_ Hcon] HI Hst Hstep. destruct (any_step_good g s pcs q pend t HI Hst c s' p' HP Hcon Hstep) as (g' & q' & pend' & H1 & H2 & H3).
    by exists g', q', pend'.
Qed.
End proof.
End SegmentLin.
