(* ===== verification/SegmentSpec.v ===== *)
(** * What the segment queue promises

    The properties of src/runtime/segment_queue.hpp in its multi-consumer
    form and of src/runtime/hazard.hpp under it, and runs they apply to. *)

From S2P Require Import Prelude Lts Contract Machine Hazard Segment SegmentLin.
From stdpp Require Import gmap.

Module SegmentSpec.
Import Hazard Segment SegmentLin.
Local Open Scope Z_scope.
Local Open Scope wtc_scope.

Section client.
Context {T : Type} (K : Z) (HK : 1 ≤ K < 2 ^ 63).
Local Abbreviation M := (@segment_machine T K).
Local Abbreviation runs := (restrict (mlts M) (counters_fit K)).

(** ** The oracle

    Decisions about cells stand, so what a run has decided when it ends is
    an oracle every state of it agrees with. *)

Lemma free_all_fates (l : list nat) : ∀ s : @queue T, fates (free_all s l) = fates s.
Proof. induction l as [|a l IH]; intros s; [done|]. simpl. rewrite IH. by destruct (has_element s a). Qed.

Lemma fates_grow c (s s' : @queue T) p p' : step K c s p = Some (s', p') → fates s ⊆ fates s'.
Proof.
  intros Hstep. destruct p; try done; unfold step in Hstep.
  { unfold hazard_step in Hstep. repeat case_match; simplify_eq; by rewrite free_all_fates. }
  all: simpl in Hstep; unfold at_seg in Hstep; repeat case_match; simplify_eq; try done; try apply decide_cell_sub; apply forgo_sub.
Qed.

Lemma consistent_back φ (m : mstate M) l m' : lstep runs m l m' → consistent φ (ms_shared m') → consistent φ (ms_shared m).
Proof.
  intros [Hstep _] Hc. destruct Hstep as [sh pcs t o|sh pcs t c sh' p' H|sh pcs t r]; [done| |done].
  intros x b Hb. apply Hc. eapply lookup_weaken; [exact Hb|]. exact (fates_grow c sh sh' (pcs t) p' H).
Qed.

Lemma seg_run tr m0 m : linit runs m0 → steps runs m0 tr m →
  ∃ a0 a, linit (atomic segment_spec) a0 ∧ steps (atomic segment_spec) a0 tr a ∧ ∃ φ g, Inv K φ g (ms_shared m) (ms_pcs m) (a_abs a).
Proof.
  intros [H0 Hf0] Hrun. set (φ := λ c, default true (fates (ms_shared m) !! c)).
  assert (consistent φ (ms_shared m)) as Hc by (intros c b E; unfold φ; by rewrite E).
  destruct (steps_back runs (λ m, consistent φ (ms_shared m)) m0 tr m (consistent_back φ) Hrun Hc) as [Hc0 Hrun'].
  apply restrict_both in Hrun'.
  destruct (help_run _ _ _ _ _ (seg_help K HK φ) m0 tr m) as (a0 & a & Ha0 & Ha & g & HI); [split; [done|by split]|done|].
  exists a0, a. split_and!; try done. by exists φ, g.
Qed.

(** ** The destructor *)

Section quiescent.
Context (φ : Z * Z → bool) (g : @ghost T) (s : @queue T) (pcs : nat → @pc T) (q : list T).
Context (HI : Inv K φ g s pcs q) (Hidle : ∀ t, pcs t = PcIdle).

(** With no push under way, the elements of a segment are in its cells. *)
Lemma live_segment a sg : pub g a → heap s a = Some sg → destroy_cells K sg (deq sg) = Some <$> content K g sg.
Proof.
  intros Ha Hsg. unfold destroy_cells, content. pose proof (co_seg _ _ _ _ (iv_chain _ _ _ _ _ _ HI) a sg Ha Hsg) as Hok.
  assert (∀ c, c ∈ seqZ (deq sg) (K - deq sg) → (if decide (state_at sg c = kFull) then Some (cells sg !! Z.to_nat c ≫= id) else None) = Some <$> lin g (num sg) c) as Hc.
  { intros c Hc%elem_of_seqZ. pose proof (so_range _ _ _ _ _ Hok) as (Hd & _). pose proof (cl_at _ _ _ _ (iv_cell _ _ _ _ _ _ HI) a sg c Ha Hsg ltac:(lia)) as [H1 H2 H3 H4 H5].
    case_decide as E.
    - rewrite H3 by (done || left; lia). destruct (so_full _ _ _ _ _ Hok c ltac:(lia) E) as [v ->]. done.
    - destruct (lin g (num sg) c) as [v|] eqn:El; [|done]. destruct H4 as [?|(u & (? & ? & Hr & _) & _)]; [by eexists|done|]. by rewrite Hidle in Hr. }
  revert Hc. generalize (seqZ (deq sg) (K - deq sg)). intros l. induction l as [|c l IH]; intros Hc; [done|]. rewrite !omap_first, fmap_app, Hc by (by left).
  rewrite IH by (intros; apply Hc; by right). f_equal. by destruct (lin g (num sg) c).
Qed.

Lemma destroy_walk n : ∀ i a sg fuel, (length (chain g) - i = S n)%nat → chain g !! i = Some a → heap s a = Some sg → (n < fuel)%nat →
  destroy_from K fuel s a (deq sg) = Some (Some <$> flat_map (content_at K g s) (drop i (chain g)), drop i (chain g)).
Proof.
  pose proof (iv_chain _ _ _ _ _ _ HI) as Hc.
  induction n as [|n IH]; intros i a sg fuel Hi Ha Hsg Hfuel; (destruct fuel as [|fuel]; [lia|]); simpl; rewrite Hsg;
    destruct (co_chain _ _ _ _ Hc _ _ Ha) as (sg1 & E & Hn & Hx & _); rewrite Hsg in E; injection E as <-;
    rewrite (live_segment a sg) by (done || (left; by eapply list_elem_of_lookup_2)); rewrite (drop_S _ _ _ Ha); simpl; unfold content_at at 1; rewrite Hsg.
  - rewrite Hx, lookup_ge_None_2 by lia. rewrite drop_ge by lia. simpl. by rewrite app_nil_r.
  - destruct (lookup_lt_is_Some_2 (chain g) (S i)) as [b Hb]; [lia|]. rewrite Hx, Hb.
    destruct (co_chain _ _ _ _ Hc _ _ Hb) as (sb & Hsb & _ & _ & _ & Hdb). pose proof (IH (S i) b sb fuel ltac:(lia) Hb Hsb ltac:(lia)) as IHb. rewrite Hdb in IHb by lia.
    rewrite IHb. simpl. by rewrite fmap_app.
Qed.

Lemma seg_destroy_quiescent : ∃ l, NoDup l ∧ (∀ a, a ∈ l → is_Some (heap s a) ∧ ∀ r x, recs (dom s) !! r = Some x → a ∉ retired x) ∧
  ∀ fuel, (length l ≤ fuel)%nat → destroy K fuel s = Some (Some <$> q, l).
Proof.
  pose proof (iv_chain _ _ _ _ _ _ HI) as Hc. destruct (head_segment _ _ _ _ Hc) as [H0 (sg & Hsg & Hn)]. exists (chain g). split; [|split].
  - apply NoDup_alt. intros i j a Hi Hj. destruct (co_chain _ _ _ _ Hc _ _ Hi) as (s1 & E1 & N1 & _), (co_chain _ _ _ _ Hc _ _ Hj) as (s2 & E2 & N2 & _). simplify_eq. lia.
  - intros a [i Hi]%list_elem_of_lookup. destruct (co_chain _ _ _ _ Hc _ _ Hi) as (s1 & E1 & N1 & _). split; [by exists s1|]. intros r x Hx Hin.
    pose proof (hz_ret _ _ _ _ (iv_hz _ _ _ _ _ _ HI) r x a Hx Hin) as Hg. destruct (co_old _ _ _ _ Hc a Hg) as (s2 & E2 & N2 & _). simplify_eq. lia.
  - intros fuel Hf. unfold destroy. rewrite Hsg. pose proof (lookup_lt_Some _ _ _ H0). rewrite (destroy_walk (length (chain g) - 1) 0 (head_ s) sg fuel) by (done || lia).
    rewrite (iv_abs _ _ _ _ _ _ HI). done.
Qed.
End quiescent.

(** ** The properties *)

(** C10: The segment queue is linearisable to a first-in first-out queue:
    every history of pushes, runs of pushes and pops by any number of
    threads, which may come and go, under any interleaving of their accesses
    and any reuse of freed addresses, is a history of the atomic queue, in
    which a run takes effect one element at a time and in order, as long as
    the 64-bit counters of a segment do not wrap. *)
Theorem seg_linearisable tr : history runs tr → history (atomic segment_spec) tr.
Proof. intros (m0 & m & H0 & Hrun). destruct (seg_run tr m0 m H0 Hrun) as (a0 & a & ? & ? & _). by exists a0, a. Qed.

(** C11: Hazard pointers keep the segments safe with producers and consumers
    in any number: no operation reads or writes a freed segment, no element
    is built over another, taken twice or lost with the segment it is in; a
    thread's segment is in memory and in its slot, and a segment awaiting
    its deletion is out of reach of both pointers. *)
Theorem seg_safe m : reachable runs m →
  bad (ms_shared m) = false ∧ (∀ t, ms_pcs m t ≠ PcBad) ∧
  (∀ t r j a, hold (ms_pcs m t) = Some (r, j, a) → is_Some (heap (ms_shared m) a) ∧ slot_is (dom (ms_shared m)) r j (Some a)) ∧
  (∀ r x a, recs (dom (ms_shared m)) !! r = Some x → a ∈ retired x → is_Some (heap (ms_shared m) a) ∧ a ≠ head_ (ms_shared m) ∧ a ≠ tail_ (ms_shared m)).
Proof.
  intros (m0 & tr & H0 & Hrun). destruct (seg_run tr m0 m H0 Hrun) as (a0 & ab & _ & _ & φ & g & HI). pose proof (iv_chain _ _ _ _ _ _ HI) as Hc. split_and!.
  - apply (iv_bad _ _ _ _ _ _ HI).
  - intros t. apply (tk_bad _ _ _ _ _ _ (iv_thread _ _ _ _ _ _ HI t)).
  - intros t r j a Hh. destruct (tk_hold _ _ _ _ _ _ (iv_thread _ _ _ _ _ _ HI t) r j a Hh) as (_ & Hs & sg & Hsg & _). split; [by exists sg|done].
  - intros r x a Hx Ha. pose proof (hz_ret _ _ _ _ (iv_hz _ _ _ _ _ _ HI) r x a Hx Ha) as Hg.
    destruct (co_old _ _ _ _ Hc a Hg) as (sg & Hsg & _). split_and!; [by exists sg| |]; intros ->; [by apply (proj2 (head_pub _ _ _ _ Hc))|by apply (proj2 (tail_pub _ _ _ _ Hc))].
Qed.

(** The destructor, run when every thread has returned, destroys exactly
    the elements pushed and not popped, in order and each once, and deletes
    distinct segments that are in memory and that no hazard record will
    delete again; its walk ends after as many segments as it deletes. *)
Theorem seg_destroy tr m0 m : linit runs m0 → steps runs m0 tr m → (∀ t, ms_pcs m t = PcIdle) →
  ∃ a0 a, linit (atomic segment_spec) a0 ∧ steps (atomic segment_spec) a0 tr a ∧
    ∃ l, NoDup l ∧ (∀ b, b ∈ l → is_Some (heap (ms_shared m) b) ∧ ∀ r x, recs (dom (ms_shared m)) !! r = Some x → b ∉ retired x) ∧
    ∀ fuel, (length l ≤ fuel)%nat → destroy K fuel (ms_shared m) = Some (Some <$> (a_abs a : list T), l).
Proof.
  intros H0 Hrun Hidle. destruct (seg_run tr m0 m H0 Hrun) as (a0 & a & Ha0 & Ha & φ & g & HI). exists a0, a. split_and!; try done. by eapply seg_destroy_quiescent.
Qed.
End client.

(** ** A run the theorems apply to

    Segments of five cells.  Thread 0 pushes six elements as one run, which
    fills the first segment and links a second; thread 1 pops them and exits,
    which frees the first.  Twice then a pop claims a cell no push has
    taken: the first time a push takes it while the pop waits, and the pop
    gets its element; the second time the pop gives the cell up in the
    middle of the push, which takes its element back and links a segment at
    the freed address. *)

Abbreviation demo_machine := (@segment_machine Z 5).
Definition go (t n a : nat) : list (action (@op Z) choice) := replicate n (AStep t (Choice false a)).
Definition call_all (t : nat) (o : @op Z) (n a : nat) : list (action (@op Z) choice) := [ACall t o] ++ go t n a ++ [ARet t].

Definition demo1 : list (action (@op Z) choice) :=
  call_all 0 (PushRun 0 [1; 2; 3; 4; 5; 6]) 88 1 ++ call_all 1 (Pop 1) 15 9 ++ call_all 1 (Pop 1) 10 9 ++ call_all 1 (Pop 1) 10 9 ++
  call_all 1 (Pop 1) 10 9 ++ call_all 1 (Pop 1) 10 9 ++ [ACall 1 (Pop 1)] ++ go 1 20 9.
Definition demo2 : list (action (@op Z) choice) :=
  [ARet 1%nat] ++ call_all 1 (Exit 1) 11 9 ++ call_all 0 (Push 0 7) 8 9 ++ [ACall 1 (Pop 1)] ++ go 1 9 9 ++ call_all 2 (Pop 2) 16 9 ++ go 1 6 9 ++
  call_all 0 (Push 0 8) 8 9 ++ go 1 5 9 ++ [ARet 1%nat].
Definition demo3 : list (action (@op Z) choice) :=
  call_all 0 (Push 0 9) 8 9 ++ [ACall 1 (Pop 1)] ++ go 1 6 9 ++ call_all 2 (Pop 2) 10 9 ++ go 1 68 9 ++ [ACall 0 (Push 0 10)] ++ go 0 6 0 ++ go 1 1 9 ++ go 0 75 0 ++
  [ARet 0%nat] ++ go 1 19 9 ++ [ARet 1%nat] ++ call_all 0 (Push 0 11) 8 9.
Definition demo : list (action (@op Z) choice) := demo1 ++ demo2 ++ demo3.

Definition demo_history : list (event (@op Z) (@res Z)) :=
  [Call 0 (PushRun 0 [1; 2; 3; 4; 5; 6]); Ret 0 RUnit; Call 1 (Pop 1); Ret 1 (RPop (Some 1)); Call 1 (Pop 1); Ret 1 (RPop (Some 2));
   Call 1 (Pop 1); Ret 1 (RPop (Some 3)); Call 1 (Pop 1); Ret 1 (RPop (Some 4)); Call 1 (Pop 1); Ret 1 (RPop (Some 5));
   Call 1 (Pop 1); Ret 1 (RPop (Some 6)); Call 1 (Exit 1); Ret 1 RUnit; Call 0 (Push 0 7); Ret 0 RUnit;
   Call 1 (Pop 1); Call 2 (Pop 2); Ret 2 (RPop (Some 7)); Call 0 (Push 0 8); Ret 0 RUnit; Ret 1 (RPop (Some 8));
   Call 0 (Push 0 9); Ret 0 RUnit; Call 1 (Pop 1); Call 2 (Pop 2); Ret 2 (RPop (Some 9)); Call 0 (Push 0 10); Ret 0 RUnit;
   Ret 1 (RPop (Some 10)); Call 0 (Push 0 11); Ret 0 RUnit].

Lemma seg_demo_size : 1 ≤ 5 < 2 ^ 63.
Proof. lia. Qed.

Lemma demo_fits l : alongb demo_machine 3 fits l (m_start demo_machine) = true → along demo_machine (counters_fit 5) l (m_start demo_machine).
Proof. apply alongb_along; done. Qed.

Lemma seg_demo_run l e : exec_events demo_machine l = Some e → alongb demo_machine 3 fits l (m_start demo_machine) = true →
  steps (restrict (mlts demo_machine) (counters_fit 5)) (m_start demo_machine) e (exec_final demo_machine l).
Proof.
  intros He Hf%demo_fits. unfold exec_events, exec_final in *. destruct (exec demo_machine l (m_start demo_machine)) as [[m e']|] eqn:E; simpl in He |- *; simplify_eq.
  by apply (exec_along demo_machine (counters_fit 5) l).
Qed.

Lemma seg_linearisable_witness : history (atomic segment_spec) demo_history.
Proof.
  apply (seg_linearisable 5 seg_demo_size). exists (m_start demo_machine), (exec_final demo_machine demo). split; [done|].
  apply seg_demo_run; vm_compute; reflexivity.
Defined.

(** After the first part the first segment is retired, and thread 1 has
    still to return; after the second it is freed; at the end its address is
    in use again. *)
Lemma seg_safe_witness : (∃ x, recs (dom (ms_shared (exec_final demo_machine demo1))) !! 1%nat = Some x ∧ retired x = [0%nat]) ∧
  bad (ms_shared (exec_final demo_machine demo1)) = false.
Proof.
  split; [eexists; split; vm_compute; reflexivity|].
  apply (seg_safe 5 seg_demo_size (exec_final demo_machine demo1)). exists (m_start demo_machine), (default [] (exec_events demo_machine demo1)). split; [done|].
  apply seg_demo_run; vm_compute; reflexivity.
Defined.

Example seg_reused : heap (ms_shared (exec_final demo_machine (demo1 ++ demo2))) 0%nat = None ∧
  is_Some (heap (ms_shared (exec_final demo_machine demo)) 0%nat).
Proof. split; [vm_compute; reflexivity|]. eexists. vm_compute. reflexivity. Qed.

Lemma seg_destroy_witness :
  ∃ a0 a, linit (atomic segment_spec) a0 ∧ steps (atomic segment_spec) a0 demo_history a ∧
    ∃ l, NoDup l ∧ (∀ b, b ∈ l → is_Some (heap (ms_shared (exec_final demo_machine demo)) b) ∧
        ∀ r x, recs (dom (ms_shared (exec_final demo_machine demo))) !! r = Some x → b ∉ retired x) ∧
    ∀ fuel, (length l ≤ fuel)%nat → destroy 5 fuel (ms_shared (exec_final demo_machine demo)) = Some (Some <$> (a_abs a : list Z), l).
Proof.
  apply (seg_destroy 5 seg_demo_size demo_history (m_start demo_machine) (exec_final demo_machine demo)); [done|apply seg_demo_run; vm_compute; reflexivity|].
  apply (exec_quiescent demo_machine 3 demo); [vm_compute; reflexivity|]. intros [|[|[|t]]] Ht; [vm_compute; reflexivity..|lia].
Defined.

Example seg_demo_destroy : destroy 5 3 (ms_shared (exec_final demo_machine demo)) = Some ([Some 11], [0%nat]).
Proof. vm_compute. reflexivity. Qed.
End SegmentSpec.
