(* ===== verification/CQueue.v ===== *)
(** * The queue behind a lifted C queue (src/shim/c_queue.cpp)

    A step machine for the functions the compiler puts in place of a C
    program's own queue: push, pop, termination of a producer, the batches
    moved to and from a ring the caller owns, and destruction.  The bounded
    ring is the bounded queue it is linearisable to ([bq_step]), one instant
    per operation.  A wait is its rounds of [closed] and the look that
    follows; where a thread sleeps between rounds is Waiter.v's subject.  A
    call of [notify] is one step: an access to the queue object, after the
    effect of the operation and before its last access.

    [bad] records an access after the deletion, or to a cell outside the
    caller's ring. *)

From S2P Require Import Prelude Lts Contract Machine BoundedRing BoundedRingLin.

Module CQueue.
Local Open Scope Z_scope.
Local Open Scope wtc_scope.

(** ** Construction *)

(** The numbers of [enum class topology]. *)
Definition spsc : Z := 1.
Definition spsc_inline : Z := 2.
Definition mpsc : Z := 3.
Definition spmc : Z := 4.
Definition manyProducers (t : Z) : bool := negb (t =? spsc) && negb (t =? spsc_inline) && negb (t =? spmc).
Definition manyConsumers (t : Z) : bool := negb (t =? spsc) && negb (t =? spsc_inline) && negb (t =? mpsc).

Definition ends_never : Z := 0.
Definition ends_exactly : Z := 1.
Definition ends_at_least : Z := 2.

(** The members that are read-only after construction; [cap] is the ring's. *)
Record config := Config { cap : Z; producers : Z; ends : Z }.

Section queue.
Context {T : Type}.

(** ** The caller's own ring *)

Record own_ring := Own { data : list T; in_ : Z; out : Z; slots : Z }.

Definition count (o : own_ring) : Z := (u64 (in_ o) ⊕₆₄ slots o ⊖₆₄ u64 (out o)) mod slots o.
Definition room (o : own_ring) : Z := slots o ⊖₆₄ 1 ⊖₆₄ count o.
Definition next_index (o : own_ring) (i : Z) : Z := i32 ((u64 i ⊕₆₄ 1) mod slots o).
(** [None]: a cell outside the ring. *)
Definition insert (v : T) (o : own_ring) : option own_ring :=
  if decide (Z.to_nat (in_ o) < length (data o))%nat
  then Some (Own (<[Z.to_nat (in_ o):=v]> (data o)) (next_index o (in_ o)) (out o) (slots o)) else None.
Definition remove (o : own_ring) : option (T * own_ring) :=
  match data o !! Z.to_nat (out o) with
  | Some v => Some (v, Own (data o) (in_ o) (next_index o (out o)) (slots o))
  | None => None
  end.
Definition least (a limit : Z) : Z := if a <? limit then a else limit.

(** The calls [try_push_n] and [consume_n] make for their elements. *)
Fixpoint removes (k : nat) (o : own_ring) : option (list T * own_ring) :=
  match k with
  | O => Some ([], o)
  | S k =>
      match remove o with
      | Some (v, o1) => match removes k o1 with Some (vs, o2) => Some (v :: vs, o2) | None => None end
      | None => None
      end
  end.
Fixpoint inserts (vs : list T) (o : own_ring) : option own_ring :=
  match vs with
  | [] => Some o
  | v :: vs => match insert v o with Some o1 => inserts vs o1 | None => None end
  end.

(** ** The queue *)

Record c_queue := CQ {
  ring : list T;
  closed : bool;            (* [not_empty]'s; nothing closes [not_full] *)
  ended : Z; pushing : Z; popping : Z;
  freed : bool; bad : bool
}.

Inductive op : Type :=
| PushWait (v : T) | PopWait | Terminate | PushBatch (o : own_ring) (limit : Z) | PopBatch (o : own_ring) (limit : Z) | Destroy.
Inductive res : Type := RUnit | RPop (v : option T) | RBatch (k : Z) (o : own_ring).

Inductive pc : Type :=
| PcIdle
| PcBad
| PcAbort                                   (* [fail] *)
| PcDone (r : res)
| Enter (o : op)                            (* [active]'s constructor *)
| PushLook (v : T)
| BatchLook (o : own_ring) (n : Z)          (* [n = 0]: room for one is enough *)
| PopClosed
| PopLook (was_closed : bool)
| BatchClosed (o : own_ring) (n : Z)
| BatchPop (o : own_ring) (n : Z) (was_closed : bool)
| TermAdd
| TermClose
| Notify (push : bool) (r : res)            (* [notify], or the wake-up of [close] *)
| Leave (push : bool) (r : res)             (* [active]'s destructor *)
| DePush | DePop | DeFree.

Definition set_ring (s : c_queue) (l : list T) : c_queue := CQ l (closed s) (ended s) (pushing s) (popping s) (freed s) (bad s).
Definition set_closed (s : c_queue) : c_queue := CQ (ring s) true (ended s) (pushing s) (popping s) (freed s) (bad s).
Definition set_ended (s : c_queue) (n : Z) : c_queue := CQ (ring s) (closed s) n (pushing s) (popping s) (freed s) (bad s).
Definition set_freed (s : c_queue) : c_queue := CQ (ring s) (closed s) (ended s) (pushing s) (popping s) true (bad s).
Definition set_bad (s : c_queue) : c_queue := CQ (ring s) (closed s) (ended s) (pushing s) (popping s) (freed s) true.
(** The count of a side's operations under way: [push] picks the side. *)
Definition add_active (push : bool) (d : Z) (s : c_queue) : c_queue :=
  if push then CQ (ring s) (closed s) (ended s) (i32 (pushing s + d)) (popping s) (freed s) (bad s)
  else CQ (ring s) (closed s) (ended s) (pushing s) (i32 (popping s + d)) (freed s) (bad s).

(** [wtc_c_queue_init]: [None] when it ends the program. *)
Definition c_queue_of (cf : config) : c_queue :=
  CQ [] (negb (ends cf =? ends_never) && (producers cf <=? 0)) 0 0 0 false false.
Definition wtc_c_queue_init (tag capacity prods end_ : Z) : option (config * BoundedRing.config * c_queue) :=
  if capacity <? -1 then None
  else
    let capacity := if capacity <? 0 then 0 else capacity in
    if (end_ =? ends_exactly) && (prods <? 0) then None
    else
      match @BoundedRing.bounded_ring T capacity (manyProducers tag) (manyConsumers tag) false true with
      | Some (rcf, _) => let cf := Config (BoundedRing.cap rcf) prods end_ in Some (cf, rcf, c_queue_of cf)
      | None => None
      end.

Section steps.
Context (cf : config).

(** An operation of the ring, at its instant. *)
Definition ring_op (s : c_queue) (o : @BoundedRing.op T) : option (@BoundedRing.res T * list T) := BoundedRingLin.bq_step (cap cf) (ring s) o.

(** Once [active] counts it. *)
Definition start (o : op) : pc :=
  match o with
  | PushWait v => PushLook v
  | PopWait => PopClosed
  | Terminate => if ends cf =? ends_never then PcAbort else TermAdd
  | PushBatch src limit => BatchLook src (least (count src) limit)
  | PopBatch dst limit => BatchClosed dst (least (room dst) limit)
  | Destroy => DePush
  end.

Definition push_side (o : op) : bool := match o with PopWait | PopBatch _ _ => false | _ => true end.

Definition enter (o : op) : pc := match o with Destroy => DePush | _ => Enter o end.

(** [wtc_c_queue_push_wait], [wtc_c_queue_push_batch]: a round of the wait
    for room. *)
Definition push_step (s : c_queue) (p : pc) : option (c_queue * pc) :=
  match p with
  | PushLook v =>
      match ring_op s (BoundedRing.TryPush v) with
      | Some (BoundedRing.RBool true, l) => Some (set_ring s l, Notify true RUnit)
      | _ => Some (s, PushLook v)
      end
  | BatchLook src n =>
      if n =? 0 then
        match ring_op s BoundedRing.Size with
        | Some (BoundedRing.RNum k, _) => Some (s, if k <? cap cf then Notify true (RBatch 0 src) else BatchLook src n)
        | _ => None
        end
      else
        (* [try_push_n] takes as many as there is room for, then calls [remove] that often *)
        let k := Z.min n (cap cf - Z.of_nat (length (ring s))) in
        match removes (Z.to_nat k) src with
        | Some (vs, src') =>
            match ring_op s (BoundedRing.TryPushN vs) with
            | Some (BoundedRing.RNum k, l) => Some (set_ring s l, if 0 <? k then Notify true (RBatch (i32 k) src') else BatchLook src' n)
            | _ => None
            end
        | None => Some (set_bad s, PcBad)
        end
  | _ => None
  end.

(** [wtc_c_queue_pop_wait], [wtc_c_queue_pop_batch]: a round of the wait for
    an element. *)
Definition pop_step (s : c_queue) (p : pc) : option (c_queue * pc) :=
  match p with
  | PopClosed => Some (s, PopLook (closed s))
  | PopLook wc =>
      match ring_op s BoundedRing.Consume with
      | Some (BoundedRing.RPop (Some v), l) => Some (set_ring s l, Notify false (RPop (Some v)))
      | _ => Some (s, if wc then Leave false (RPop None) else PopClosed)
      end
  | BatchClosed dst n => Some (s, BatchPop dst n (closed s))
  | BatchPop dst n wc =>
      if n =? 0 then
        match ring_op s BoundedRing.Size with
        | Some (BoundedRing.RNum k, _) =>
            Some (s, if 0 <? k then Notify false (RBatch 0 dst) else if wc then Leave false (RBatch (-1) dst) else BatchClosed dst n)
        | _ => None
        end
      else
        match ring_op s (BoundedRing.ConsumeN (Z.to_nat n)) with
        | Some (BoundedRing.RPops vs, l) =>
            match inserts vs dst with
            | Some dst' =>
                Some (set_ring s l,
                      match vs with
                      | [] => if wc then Leave false (RBatch (-1) dst') else BatchClosed dst' n
                      | _ => Notify false (RBatch (i32 (Z.of_nat (length vs))) dst')
                      end)
            | None => Some (set_bad s, PcBad)
            end
        | _ => None
        end
  | _ => None
  end.

(** [wtc_c_queue_terminate]. *)
Definition terminate_step (s : c_queue) (p : pc) : option (c_queue * pc) :=
  match p with
  | TermAdd =>
      let n := i32 (ended s + 1) in
      Some (set_ended s (i32 (ended s + 1)),
            if producers cf <? n then if ends cf =? ends_exactly then PcAbort else Leave true RUnit
            else if n =? producers cf then TermClose else Leave true RUnit)
  | TermClose => Some (set_closed s, Notify true RUnit)
  | _ => None
  end.

(** [wtc_c_queue_destroy]. *)
Definition destroy_step (s : c_queue) (p : pc) : option (c_queue * pc) :=
  match p with
  | DePush => Some (s, if pushing s =? 0 then DePop else DePush)
  | DePop => Some (s, if popping s =? 0 then DeFree else DePush)
  | DeFree => Some (set_freed s, PcDone RUnit)
  | _ => None
  end.

Definition step (c : unit) (s : c_queue) (p : pc) : option (c_queue * pc) :=
  match p with
  | PcIdle | PcBad | PcAbort | PcDone _ => None
  | _ =>
      if freed s then Some (set_bad s, PcBad)
      else
        match p with
        | Enter o => Some (add_active (push_side o) 1 s, start o)
        | Notify side r => Some (s, Leave side r)
        | Leave side r => Some (add_active side (-1) s, PcDone r)
        | PushLook _ | BatchLook _ _ => push_step s p
        | PopClosed | PopLook _ | BatchClosed _ _ | BatchPop _ _ _ => pop_step s p
        | TermAdd | TermClose => terminate_step s p
        | _ => destroy_step s p
        end
  end.
End steps.

Definition result (p : pc) : option res := match p with PcDone r => Some r | _ => None end.
Definition is_idle (p : pc) : bool := match p with PcIdle => true | _ => false end.
End queue.
End CQueue.
