(* ===== verification/CQueueSpec.v ===== *)
(** * What a lifted C queue promises

    The queue the C program wrote, a ring under a mutex with a count of the
    producers that have finished, as a sequential object; and the theorems:
    the substitute is linearisable to it, and a destruction the program may
    make of its own queue does not free the substitute under an operation
    that still uses it. *)

From S2P Require Import Prelude Lts Contract Machine BoundedRing BoundedRingLin CQueue.

Module CQueueSpec.
Import CQueue.
Local Open Scope Z_scope.
Local Open Scope wtc_scope.

(** ** The caller's own ring *)

Section own.
Context {T : Type}.
Implicit Types o : @own_ring T.

Definition own_okb o : bool :=
  (1 <=? slots o) && (slots o <=? 2 ^ 31) && (0 <=? in_ o) && (in_ o <? slots o) && (0 <=? out o) && (out o <? slots o) &&
  (Z.of_nat (length (data o)) =? slots o).
Definition own_ok o : Prop := own_okb o = true.

Lemma own_range o : own_ok o → 1 ≤ slots o ≤ 2 ^ 31 ∧ 0 ≤ in_ o < slots o ∧ 0 ≤ out o < slots o ∧ length (data o) = Z.to_nat (slots o).
Proof. unfold own_ok, own_okb. rewrite !andb_true_iff. lia. Qed.

Lemma own_intro o : 1 ≤ slots o ≤ 2 ^ 31 → 0 ≤ in_ o < slots o → 0 ≤ out o < slots o → length (data o) = Z.to_nat (slots o) → own_ok o.
Proof. unfold own_ok, own_okb. rewrite !andb_true_iff. lia. Qed.

(** The elements, oldest first. *)
Definition contents o : list T := take (Z.to_nat (count o)) (drop (Z.to_nat (out o)) (data o ++ data o)).

(** Neither the unsigned arithmetic nor the conversion to [int] wraps. *)
Lemma count_exact o : own_ok o → count o = if decide (out o ≤ in_ o) then in_ o - out o else in_ o + slots o - out o.
Proof.
  intros Ho. destruct (own_range o Ho) as (H1 & H2 & H3 & _). unfold count.
  rewrite (u64_small (in_ o)), (u64_small (out o)), (u64_small (in_ o + slots o)), u64_small by lia.
  case_decide.
  - replace (in_ o + slots o - out o) with (in_ o - out o + 1 * slots o) by lia. rewrite Z_mod_plus_full. apply Z.mod_small. lia.
  - apply Z.mod_small. lia.
Qed.

Lemma count_range o : own_ok o → 0 ≤ count o < slots o.
Proof. intros Ho. rewrite count_exact by done. destruct (own_range o Ho) as (H1 & H2 & H3 & _). case_decide; lia. Qed.

Lemma room_exact o : own_ok o → room o = slots o - 1 - count o.
Proof.
  intros Ho. pose proof (count_range o Ho). destruct (own_range o Ho) as (H1 & _). unfold room. rewrite (u64_small (slots o - 1)) by lia. apply u64_small. lia.
Qed.

Lemma next_exact o i : own_ok o → 0 ≤ i < slots o → next_index o i = if decide (i + 1 < slots o) then i + 1 else 0.
Proof.
  intros Ho Hi. destruct (own_range o Ho) as (H1 & _). unfold next_index. rewrite (u64_small i), (u64_small (i + 1)) by lia.
  assert ((i + 1) mod slots o = if decide (i + 1 < slots o) then i + 1 else 0) as ->.
  { case_decide; [apply Z.mod_small; lia|]. assert (i + 1 = slots o) as -> by lia. by apply Z.mod_same, Z.neq_sym, Z.lt_neq; lia. }
  unfold i32. destruct (decide (i + 1 < slots o)).
  - rewrite u32_small by lia. destruct (Z.ltb_spec (i + 1) (2 ^ 31)); lia.
  - rewrite u32_small by lia. by destruct (Z.ltb_spec 0 (2 ^ 31)).
Qed.

Lemma contents_length o : own_ok o → Z.of_nat (length (contents o)) = count o.
Proof.
  intros Ho. pose proof (count_range o Ho). destruct (own_range o Ho) as (H1 & H2 & H3 & H4). unfold contents.
  rewrite length_take, length_drop, length_app. lia.
Qed.

Lemma doubled_lookup (l : list T) j : (j < 2 * length l)%nat → (l ++ l) !! j = l !! (if decide (j < length l) then j else j - length l)%nat.
Proof. intros Hj. case_decide; [by rewrite lookup_app_l|by rewrite lookup_app_r by lia]. Qed.

Lemma remove_ok o v vs : own_ok o → contents o = v :: vs →
  ∃ o', remove o = Some (v, o') ∧ own_ok o' ∧ slots o' = slots o ∧ contents o' = vs.
Proof.
  intros Ho Hc. pose proof (count_range o Ho) as Hr. destruct (own_range o Ho) as (H1 & H2 & H3 & H4). pose proof (contents_length o Ho) as Hl. rewrite Hc in Hl. simpl in Hl.
  unfold contents in Hc. set (n := Z.to_nat (out o)) in *. assert (data o !! n = Some v) as Hv.
  { assert ((data o ++ data o) !! n = Some v) as E.
    { rewrite <-(Nat.add_0_r n), <-lookup_drop. rewrite <-(lookup_take_lt _ (Z.to_nat (count o))) by lia. by rewrite Hc. }
    rewrite lookup_app_l in E by lia. done. }
  unfold remove. fold n. rewrite Hv. set (o' := Own (data o) (in_ o) (next_index o (out o)) (slots o)).
  pose proof (next_exact o (out o) Ho H3) as Hn. assert (own_ok o') as Ho' by (apply own_intro; simpl; try done; rewrite Hn; case_decide; lia).
  exists o'. split_and!; try done.
  assert (count o' = count o - 1) as Hc'.
  { rewrite (count_exact o' Ho'). rewrite (count_exact o Ho) in Hl |- *. subst o'. simpl. rewrite Hn. repeat case_decide; lia. }
  unfold contents. rewrite Hc'. replace (Z.to_nat (count o)) with (S (Z.to_nat (count o - 1))) in Hc by lia.
  rewrite (drop_S _ v) in Hc by (rewrite lookup_app_l by lia; done). simpl in Hc. injection Hc as Hc. simpl. rewrite Hn, <-Hc. case_decide.
  - by replace (Z.to_nat (out o + 1)) with (S n) by lia.
  - change (Z.to_nat 0) with 0%nat. rewrite drop_0. replace (S n) with (length (data o)) by lia. rewrite drop_app_length, take_app_le by lia. done.
Qed.

Lemma insert_ok o v : own_ok o → count o < slots o - 1 →
  ∃ o', CQueue.insert v o = Some o' ∧ own_ok o' ∧ slots o' = slots o ∧ contents o' = contents o ++ [v].
Proof.
  intros Ho Hroom. pose proof (count_range o Ho) as Hr. destruct (own_range o Ho) as (H1 & H2 & H3 & H4). unfold CQueue.insert. rewrite decide_True by lia.
  set (o' := Own _ _ _ _). pose proof (next_exact o (in_ o) Ho H2) as Hn.
  assert (own_ok o') as Ho' by (apply own_intro; simpl; rewrite ?length_insert; try done; rewrite Hn; case_decide; lia).
  exists o'. split_and!; try done.
  pose proof (count_exact o Ho) as E1. assert (count o' = count o + 1) as Hc'.
  { rewrite (count_exact o' Ho'). rewrite E1 in Hroom |- *. subst o'. simpl. rewrite Hn. repeat case_decide; lia. }
  pose proof (contents_length o Ho) as Hl. apply list_eq. intros i. unfold contents at 1. rewrite Hc'. simpl.
  destruct (decide (i < Z.to_nat (count o + 1))%nat) as [Hi|Hi].
  - rewrite lookup_take_lt, lookup_drop by done. rewrite doubled_lookup by (rewrite length_insert; lia). rewrite length_insert.
    destruct (decide (i = Z.to_nat (count o))) as [->|Hne].
    + rewrite lookup_app_r by lia. replace (Z.to_nat (count o) - length (contents o))%nat with 0%nat by lia. simpl.
      assert ((if decide (Z.to_nat (out o) + Z.to_nat (count o) < length (data o))%nat then Z.to_nat (out o) + Z.to_nat (count o) else Z.to_nat (out o) + Z.to_nat (count o) - length (data o))%nat = Z.to_nat (in_ o)) as ->
        by (repeat case_decide; lia). by rewrite list_lookup_insert_eq by lia.
    + rewrite lookup_app_l by lia. unfold contents. rewrite lookup_take_lt, lookup_drop by lia. rewrite doubled_lookup by lia.
      rewrite list_lookup_insert_ne; [done|]. repeat case_decide; lia.
  - rewrite lookup_take_ge by lia. symmetry. apply lookup_ge_None_2. rewrite length_app. simpl. lia.
Qed.

Lemma removes_ok k : ∀ o, own_ok o → (k ≤ length (contents o))%nat →
  ∃ o', removes k o = Some (take k (contents o), o') ∧ own_ok o' ∧ slots o' = slots o ∧ contents o' = drop k (contents o).
Proof.
  induction k as [|k IH]; intros o Ho Hk; [by exists o|]. destruct (contents o) as [|v vs] eqn:E; [simpl in Hk; lia|].
  destruct (remove_ok o v vs Ho E) as (o1 & Hr & Ho1 & Hs1 & Hc1). destruct (IH o1 Ho1) as (o2 & Hr2 & Ho2 & Hs2 & Hc2); [rewrite Hc1; simpl in Hk; lia|].
  exists o2. simpl. rewrite Hr, Hr2, Hc1. split_and!; try done; [congruence|by rewrite Hc2, Hc1].
Qed.

Lemma inserts_ok vs : ∀ o, own_ok o → Z.of_nat (length vs) ≤ slots o - 1 - count o →
  ∃ o', inserts vs o = Some o' ∧ own_ok o' ∧ slots o' = slots o ∧ contents o' = contents o ++ vs.
Proof.
  induction vs as [|v vs IH]; intros o Ho Hk; simpl; [exists o; by rewrite app_nil_r|]. simpl in Hk.
  destruct (insert_ok o v Ho ltac:(lia)) as (o1 & Hr & Ho1 & Hs1 & Hc1). rewrite Hr.
  pose proof (contents_length o Ho) as L0. pose proof (contents_length o1 Ho1) as L1. rewrite Hc1, length_app in L1. simpl in L1.
  destruct (IH o1 Ho1) as (o2 & Hr2 & Ho2 & Hs2 & Hc2); [lia|]. exists o2. split_and!; try done; [congruence|]. by rewrite Hc2, Hc1, <-app_assoc.
Qed.
End own.

(** ** The original *)

Section spec.
Context {T : Type} (cf : config).

(** The C program's queue: its elements and its count of terminations. *)
Record oqueue := OQ { o_elems : list T; o_ended : Z }.

(** The program's test of its count, by the form it was written in. *)
Definition finished (n : Z) : Prop := ends cf ≠ ends_never ∧ if decide (ends cf = ends_exactly) then n = producers cf else producers cf ≤ n.

(** Every operation waits until its condition holds and then takes effect,
    under the mutex. *)
Definition o_step (q : oqueue) (o : @op T) (r : @res T) (q' : oqueue) : Prop :=
  let n := Z.of_nat (length (o_elems q)) in
  match o with
  | PushWait v => n < cap cf ∧ r = RUnit ∧ q' = OQ (o_elems q ++ [v]) (o_ended q)
  | PopWait =>
      (∃ v l, o_elems q = v :: l ∧ r = RPop (Some v) ∧ q' = OQ l (o_ended q)) ∨
      (o_elems q = [] ∧ finished (o_ended q) ∧ r = RPop None ∧ q' = q)
  | Terminate => ends cf ≠ ends_never ∧ (ends cf = ends_exactly → o_ended q < producers cf) ∧ r = RUnit ∧ q' = OQ (o_elems q) (o_ended q + 1)
  | PushBatch src limit =>
      let k := Z.min (Z.min (Z.of_nat (length (contents src))) limit) (cap cf - n) in
      n < cap cf ∧ ∃ src', r = RBatch k src' ∧ own_ok src' ∧ slots src' = slots src ∧ contents src' = drop (Z.to_nat k) (contents src) ∧
        q' = OQ (o_elems q ++ take (Z.to_nat k) (contents src)) (o_ended q)
  | PopBatch dst limit =>
      let k := Z.min (Z.min (slots dst - 1 - Z.of_nat (length (contents dst))) limit) n in
      (o_elems q ≠ [] ∧ ∃ dst', r = RBatch k dst' ∧ own_ok dst' ∧ slots dst' = slots dst ∧ contents dst' = contents dst ++ take (Z.to_nat k) (o_elems q) ∧
         q' = OQ (drop (Z.to_nat k) (o_elems q)) (o_ended q)) ∨
      (o_elems q = [] ∧ finished (o_ended q) ∧ q' = q ∧ ∃ dst', r = RBatch (-1) dst' ∧ own_ok dst' ∧ slots dst' = slots dst ∧ contents dst' = contents dst)
  | Destroy => r = RUnit ∧ q' = q
  end.

Definition original_queue : seqspec (@op T) (@res T) := SeqSpec oqueue (OQ [] 0) o_step.

(** [N] threads; a batch comes with a ring of the form the program keeps. *)
Definition c_may (N : nat) (t : nat) (o : @op T) : bool :=
  (t <? N)%nat && match o with PushBatch r limit | PopBatch r limit => own_okb r && (0 <=? limit) && (limit <? 2 ^ 64) | _ => true end.

Definition c_machine (N : nat) : machine (@op T) (@res T) :=
  Machine op res c_queue pc unit (c_queue_of cf) PcIdle is_idle (c_may N) enter (step cf) result.
End spec.

Lemma i32_small x : 0 ≤ x < 2 ^ 31 → i32 x = x.
Proof. intros H. unfold i32. rewrite u32_small by lia. destruct (Z.ltb_spec x (2 ^ 31)); lia. Qed.

Section proof.
Context {T : Type} (cf : config) (N : nat).
Context (HN : Z.of_nat N < 2 ^ 31) (Hcap : 0 ≤ cap cf < 2 ^ 31) (Hends : ends cf = ends_exactly → 0 ≤ producers cf).
Local Abbreviation M := (@c_machine T cf N).
Implicit Types s : @c_queue T.
Implicit Types p : @pc T.

(** Under way on a side. *)
Definition act (push : bool) p : Z :=
  match p with
  | PushLook _ | BatchLook _ _ | TermAdd | TermClose | PcAbort => if push then 1 else 0
  | PopClosed | PopLook _ | BatchClosed _ _ | BatchPop _ _ _ => if push then 0 else 1
  | Notify b _ | Leave b _ => if decide (b = push) then 1 else 0
  | _ => 0
  end.

(** Its effect is still to come. *)
Definition before p : bool :=
  match p with
  | Enter _ | PushLook _ | BatchLook _ _ | PopClosed | PopLook _ | BatchClosed _ _ | BatchPop _ _ _ | TermAdd | TermClose => true
  | _ => false
  end.
Definition destroying p : bool := match p with DePush | DePop | DeFree => true | _ => false end.

(** How the program uses its queue: it destroys it once, and by then every
    operation it has called has taken effect (its element is in the queue or
    taken, its termination counted and, if it is the last, seen), though it
    may not have returned; it calls none afterwards.  And it terminates
    fewer than 2^31 times. *)
Record disciplined (m : mstate M) : Prop := {
  dc_before t u : destroying (ms_pcs m t) = true ∨ freed (ms_shared m) = true → before (ms_pcs m u) = false;
  dc_once t u : destroying (ms_pcs m t) = true → destroying (ms_pcs m u) = true → t = u;
  dc_dead t : freed (ms_shared m) = true → destroying (ms_pcs m t) = false;
  dc_ended : ended (ms_shared m) < 2 ^ 31 - 1
}.

Definition batch_ok (o : @own_ring T) (n : Z) : Prop := own_ok o ∧ 0 ≤ n.
Definition pc_ok s p : Prop :=
  match p with
  | Enter (PushBatch o l) | Enter (PopBatch o l) => batch_ok o l
  | BatchLook o n => batch_ok o n ∧ n ≤ count o
  | BatchClosed o n => batch_ok o n ∧ n ≤ slots o - 1 - count o
  | BatchPop o n wc => batch_ok o n ∧ n ≤ slots o - 1 - count o ∧ (wc = true → closed s = true)
  | PopLook wc => wc = true → closed s = true
  | Enter Destroy | PcBad => False
  | TermAdd => ends cf ≠ ends_never
  | TermClose => ends cf ≠ ends_never ∧ producers cf ≤ ended s
  | _ => True
  end.

Definition o_count (n : Z) : Z := if decide (ends cf = ends_exactly) then Z.min n (producers cf) else n.

Record Inv (g : unit) s (pcs : nat → @pc T) (q : @oqueue T) : Prop := {
  iv_abs : q = OQ (ring s) (o_count (ended s));
  iv_cap : Z.of_nat (length (ring s)) ≤ cap cf;
  iv_ended : 0 ≤ ended s;
  iv_closed : closed s = true → ends cf ≠ ends_never ∧ producers cf ≤ ended s;
  iv_pushing : pushing s = tsum N (λ t, act true (pcs t));
  iv_popping : popping s = tsum N (λ t, act false (pcs t));
  iv_range t : (N ≤ t)%nat → pcs t = PcIdle;
  iv_pc t : pc_ok s (pcs t);
  iv_pop t u : pcs t = DePop ∨ pcs t = DeFree → act true (pcs u) = 0;
  iv_free t u : pcs t = DeFree → act false (pcs u) = 0;
  iv_freed u b : freed s = true → act b (pcs u) = 0;
  iv_bad : bad s = false
}.

(** What is left of a batch when a round found no room or no element is the
    whole of it. *)
Definition stat (g : unit) p (st : @istatus (@op T) (@res T)) : Prop :=
  match p with
  | PcIdle => st = IIdle
  | PcBad => False
  | PcAbort => True
  | PcDone r | Notify _ r | Leave _ r => st = IDone r
  | Enter o => st = ICalled o []
  | PushLook v => st = ICalled (PushWait v) []
  | PopClosed | PopLook _ => st = ICalled PopWait []
  | TermAdd => st = ICalled Terminate []
  | TermClose => st = IDone RUnit
  | BatchLook src n => ∃ src0 limit, st = ICalled (PushBatch src0 limit) [] ∧ slots src = slots src0 ∧ contents src = contents src0 ∧
      n = Z.min (Z.of_nat (length (contents src0))) limit
  | BatchClosed dst n | BatchPop dst n _ => ∃ dst0 limit, st = ICalled (PopBatch dst0 limit) [] ∧ slots dst = slots dst0 ∧ contents dst = contents dst0 ∧
      n = Z.min (slots dst0 - 1 - Z.of_nat (length (contents dst0))) limit
  | DePush | DePop | DeFree => st = ICalled Destroy []
  end.

Lemma tsum_zero n : tsum n (λ _, 0) = 0.
Proof. induction n as [|n IH]; simpl; [done|]. by rewrite IH. Qed.

Lemma act_range b p : 0 ≤ act b p ≤ 1.
Proof. destruct p; simpl; try lia; try (destruct b; lia); case_decide; lia. Qed.

Lemma sum_zero b (pcs : nat → @pc T) : (∀ t, (N ≤ t)%nat → pcs t = PcIdle) → tsum N (λ t, act b (pcs t)) = 0 → ∀ u, act b (pcs u) = 0.
Proof.
  intros Hr H0 u. destruct (decide (u < N)%nat) as [Hu|]; [|rewrite Hr by lia; done].
  pose proof (tsum_one N (λ t, act b (pcs t)) u (λ v _, proj1 (act_range b (pcs v))) Hu). pose proof (act_range b (pcs u)). simpl in *. lia.
Qed.

Lemma pc_ok_mono s s' p : (closed s = true → closed s' = true) → ended s ≤ ended s' → pc_ok s p → pc_ok s' p.
Proof. intros Hc He. destruct p; simpl; try tauto. intros [? ?]. split; [done|lia]. Qed.

Section step.
Context (s : @c_queue T) (pcs : nat → @pc T) (q : @oqueue T) (t : nat).
Context (HI : Inv tt s pcs q) (HD : disciplined (@MState _ _ M s pcs)) (Ht : pcs t ≠ PcIdle).

Lemma thread_below : (t < N)%nat.
Proof. destruct (decide (t < N)%nat); [done|]. destruct Ht. apply (iv_range _ _ _ _ HI). lia. Qed.

Lemma sum_step b p' : tsum N (λ u, act b (<[t:=p']> pcs u)) = tsum N (λ u, act b (pcs u)) - act b (pcs t) + act b p'.
Proof.
  rewrite (tsum_update N (λ u, act b (pcs u)) _ t thread_below); [by rewrite fn_insert_eq|]. intros u _ Hu. by rewrite fn_insert_ne.
Qed.

(** A step of an operation: the counts move with the program counter, and
    nothing starts while the queue is destroyed. *)
Lemma step_inv s' p' : Z.of_nat (length (ring s')) ≤ cap cf → (closed s' = true → ends cf ≠ ends_never ∧ producers cf ≤ ended s') →
  (closed s = true → closed s' = true) → ended s ≤ ended s' →
  pushing s' = pushing s - act true (pcs t) + act true p' → popping s' = popping s - act false (pcs t) + act false p' →
  freed s' = false → freed s = false → bad s' = false → pc_ok s' p' → destroying p' = false → destroying (pcs t) = false →
  before (pcs t) = true ∨ (∀ b, act b p' ≤ act b (pcs t)) →
  Inv tt s' (<[t:=p']> pcs) (OQ (ring s') (o_count (ended s'))).
Proof.
  intros H1 H2 H3 H4 H5 H6 H7 H8 H9 H10 H11 H12 H13. destruct HI as [I1 I2 I3 I4 I5 I6 I7 I8 I9 I10 I11 I12].
  assert (∀ u v b, destroying (pcs u) = true → act b (pcs v) = 0 → act b (<[t:=p']> pcs v) = 0) as Hact.
  { intros u v b Hu Hv. destruct (decide (v = t)) as [->|]; [|by rewrite fn_insert_ne]. rewrite fn_insert_eq.
    pose proof (dc_before _ HD u t (or_introl Hu)) as Hb. simpl in Hb. destruct H13 as [?|Ha]; [congruence|]. specialize (Ha b). pose proof (act_range b p'). lia. }
  assert (∀ u, <[t:=p']> pcs u = DePop ∨ <[t:=p']> pcs u = DeFree → u ≠ t ∧ pcs u = <[t:=p']> pcs u) as Hde.
  { intros u. destruct (decide (u = t)) as [->|]; rewrite ?fn_insert_eq, ?fn_insert_ne by done; [|done]. intros [-> | ->]; done. }
  split; try done.
  - lia.
  - by rewrite H5, I5, sum_step.
  - by rewrite H6, I6, sum_step.
  - intros u Hu. rewrite fn_insert_ne; [auto|]. pose proof thread_below. lia.
  - intros u. destruct (decide (u = t)) as [->|]; rewrite ?fn_insert_eq, ?fn_insert_ne by done; [done|]. by eapply pc_ok_mono.
  - intros u v Hu. destruct (Hde u Hu) as [_ E]. rewrite <-E in Hu. apply (Hact u); [destruct Hu as [-> | ->]; done|by apply (I9 u)].
  - intros u v Hu. destruct (Hde u (or_intror Hu)) as [_ E]. rewrite <-E in Hu. apply (Hact u); [by rewrite Hu|by apply (I10 u)].
  - congruence.
Qed.

(** A step of a destruction. *)
Lemma destroy_good s' p' : destroying (pcs t) = true → freed s = false → destroy_step s (pcs t) = Some (s', p') →
  Inv tt s' (<[t:=p']> pcs) q ∧ (p' = PcDone RUnit ∨ destroying p' = true).
Proof.
  intros Hd Hfr Hstep. destruct HI as [I1 I2 I3 I4 I5 I6 I7 I8 I9 I10 I11 I12].
  assert (∀ b, act b (pcs t) = 0) as Ha0 by (intros b; by destruct (pcs t)).
  assert (act true p' = 0 ∧ act false p' = 0 ∧ ring s' = ring s ∧ closed s' = closed s ∧ ended s' = ended s ∧ pushing s' = pushing s ∧ popping s' = popping s ∧ bad s' = bad s) as (A1 & A2 & E1 & E2 & E3 & E4 & E5 & E6).
  { destruct (pcs t); simplify_eq/=; repeat case_match; done. }
  assert (∀ u v b, u ≠ t → destroying (pcs u) = true → act b (<[t:=p']> pcs v) = 0) as Hno.
  { intros u v b Hu Hdu. exfalso. apply Hu. by apply (dc_once _ HD). }
  assert (∀ b u, (∀ v, act b (pcs v) = 0) → act b (<[t:=p']> pcs u) = 0) as Hall.
  { intros b u Hz. destruct (decide (u = t)) as [->|]; rewrite ?fn_insert_eq, ?fn_insert_ne by done; [by destruct b|auto]. }
  split; [|destruct (pcs t); simplify_eq/=; repeat case_match; auto]. split; rewrite ?E1, ?E2, ?E3, ?E4, ?E5, ?E6; try done.
  - rewrite I5, sum_step, Ha0, A1. lia.
  - rewrite I6, sum_step, Ha0, A2. lia.
  - intros u Hu. rewrite fn_insert_ne; [auto|]. pose proof thread_below. lia.
  - intros u. destruct (decide (u = t)) as [->|]; rewrite ?fn_insert_eq, ?fn_insert_ne by done; [|apply (pc_ok_mono s); [by rewrite E2|lia|done]].
    destruct (pcs t); simplify_eq/=; repeat case_match; done.
  - intros u v Hu. destruct (decide (u = t)) as [->|Hne]; [|rewrite fn_insert_ne in Hu by done; apply (Hno u); [done|by destruct Hu as [-> | ->]]].
    rewrite fn_insert_eq in Hu. apply Hall. destruct (pcs t) eqn:Et; try discriminate Hd; injection Hstep as _ <-.
    + destruct (Z.eqb_spec (pushing s) 0) as [E|]; [|by destruct Hu]. apply sum_zero; [done|congruence].
    + intros w. apply (I9 t). by left.
    + by destruct Hu.
  - intros u v Hu. destruct (decide (u = t)) as [->|Hne]; [|rewrite fn_insert_ne in Hu by done; apply (Hno u); [done|by rewrite Hu]].
    rewrite fn_insert_eq in Hu. apply Hall. destruct (pcs t) eqn:Et; try discriminate Hd; injection Hstep as _ <-; [by case_match| |done].
    destruct (Z.eqb_spec (popping s) 0) as [E|]; [|done]. apply sum_zero; [done|congruence].
  - intros u b Hf. apply Hall. destruct (pcs t) eqn:Et; try discriminate Hd; injection Hstep as <- _; simpl in Hf; try congruence.
    intros v. destruct b; [apply (I9 t); by right|by apply (I10 t)].
Qed.

(** A step of the queue and the original's move that goes with it. *)
Definition good (s' : @c_queue T) (p' : @pc T) (st : istatus) : Prop :=
  ∃ q' st', lmove (original_queue cf) q st q' st' ∧ Inv tt s' (<[t:=p']> pcs) q' ∧ stat tt p' st'.

Lemma good_intro s' p' st q' st' : q' = OQ (ring s') (o_count (ended s')) → lmove (original_queue cf) q st q' st' → stat tt p' st' →
  Inv tt s' (<[t:=p']> pcs) (OQ (ring s') (o_count (ended s'))) → good s' p' st.
Proof. intros -> Hm Hst Hi. by exists (OQ (ring s') (o_count (ended s'))), st'. Qed.

Lemma live_now s' p' : step cf tt s (pcs t) = Some (s', p') → freed s = false.
Proof.
  intros Hstep. destruct (freed s) eqn:Hf; [|done]. exfalso. pose proof (dc_before _ HD t t (or_intror Hf)) as Hb. pose proof (dc_dead _ HD t Hf) as Hd.
  simpl in Hb, Hd. pose proof (iv_freed _ _ _ _ HI t true Hf) as H1. pose proof (iv_freed _ _ _ _ HI t false Hf) as H2.
  destruct (pcs t) as [| | | | | | | | | | | | |b r|b r| | |]; try done; by destruct b.
Qed.

Lemma sum_bound b p' : 0 ≤ tsum N (λ u, act b (pcs u)) - act b (pcs t) + act b p' < 2 ^ 31.
Proof.
  rewrite <-sum_step. split; [apply tsum_nonneg; intros u _; apply act_range|].
  assert (∀ n, tsum n (λ _, 1) = Z.of_nat n) as H1 by (induction n as [|n IH]; simpl; [done|]; rewrite IH; lia).
  eapply Z.le_lt_trans; [apply (tsum_le N _ (λ _, 1)); intros u _; apply act_range|]. rewrite H1. lia.
Qed.

(** A step that leaves the counts alone. *)
Lemma ring_good l p' st st' : Z.of_nat (length l) ≤ cap cf → (∀ b, act b p' = act b (pcs t)) → freed s = false → pc_ok s p' →
  destroying p' = false → destroying (pcs t) = false →
  lmove (original_queue cf) q st (OQ l (o_count (ended s))) st' → stat tt p' st' → good (set_ring s l) p' st.
Proof.
  intros Hl Ha Hf Hp Hd Hd' Hm Hst. apply (good_intro _ _ _ (OQ l (o_count (ended s))) st'); try done. destruct HI as [I1 I2 I3 I4 I5 I6 I7 I8 I9 I10 I11 I12].
  apply step_inv; simpl; try done; rewrite ?Ha; try lia. right. intros b. rewrite Ha. lia.
Qed.

Lemma same_good p' st st' : (∀ b, act b p' = act b (pcs t)) → freed s = false → pc_ok s p' → destroying p' = false → destroying (pcs t) = false →
  lmove (original_queue cf) q st q st' → stat tt p' st' → good s p' st.
Proof.
  intros Ha Hf Hp Hd Hd' Hm Hst. assert (s = set_ring s (ring s)) as Es by by destruct s. rewrite Es.
  apply (ring_good _ _ _ st'); try done; [apply (iv_cap _ _ _ _ HI)|]. by rewrite <-(iv_abs _ _ _ _ HI).
Qed.

(** Counted, and no longer. *)
Lemma active_good b d p' st : act b p' = act b (pcs t) + d → act (negb b) p' = act (negb b) (pcs t) → freed s = false → pc_ok s p' →
  destroying p' = false → destroying (pcs t) = false → before (pcs t) = true ∨ d ≤ 0 → stat tt p' st → good (add_active b d s) p' st.
Proof.
  intros Ha Hn Hf Hp Hd Hd' Hb Hst. pose proof (sum_bound b p') as Hs. destruct HI as [I1 I2 I3 I4 I5 I6 I7 I8 I9 I10 I11 I12].
  apply (good_intro _ _ _ q st); [by destruct b|apply lmove_stay|done|].
  assert (∀ b', act b' p' = act b' (pcs t) + if decide (b' = b) then d else 0) as Hall.
  { intros b'. destruct b, b'; simpl in *; lia. }
  apply step_inv; destruct b; simpl; try done; rewrite ?Hall; simpl; try lia; try (rewrite i32_small; rewrite ?I5, ?I6; lia).
  all: try (eapply pc_ok_mono; [..|exact Hp]; simpl; done || lia).
  all: destruct Hb as [Hb|Hb]; [by left|right; intros b'; rewrite Hall; case_decide; lia].
Qed.

Lemma least_min a b : least a b = Z.min a b.
Proof. unfold least. destruct (Z.ltb_spec a b); lia. Qed.

Lemma enter_good o st : pcs t = Enter o → freed s = false → stat tt (pcs t) st → good (add_active (push_side o) 1 s) (start cf o) st.
Proof.
  intros Hp Hf Hst. pose proof (iv_pc _ _ _ _ HI t) as Hok. rewrite Hp in Hok, Hst. simpl in Hst.
  apply active_good; rewrite ?Hp; try done; [..|by left|]; destruct o as [v| | |src l|dst l|]; simpl in *; try done; unfold batch_ok in *;
    try (destruct (Z.eqb_spec (ends cf) ends_never); done).
  - destruct Hok as [Ho Hl]. rewrite least_min. pose proof (count_range _ Ho). lia || (split_and!; try done; lia).
  - destruct Hok as [Ho Hl]. rewrite least_min, (room_exact _ Ho). pose proof (count_range _ Ho). split_and!; try done; lia.
  - destruct Hok as [Ho Hl]. exists src, l. split_and!; try done. rewrite least_min. by rewrite <-(contents_length _ Ho).
  - destruct Hok as [Ho Hl]. exists dst, l. split_and!; try done. rewrite least_min, (room_exact _ Ho). by rewrite <-(contents_length _ Ho).
Qed.

Lemma pushed v st : pcs t = PushLook v → freed s = false → stat tt (pcs t) st →
  ∀ s' p', push_step cf s (pcs t) = Some (s', p') → good s' p' st.
Proof.
  intros Hp Hf Hst s' p'. rewrite Hp in Hst |- *. simpl in Hst |- *. pose proof (iv_cap _ _ _ _ HI) as Hc.
  destruct (Z.ltb_spec (Z.of_nat (length (ring s))) (cap cf)) as [Hl|]; intros [= <- <-].
  - apply (ring_good _ _ _ (IDone RUnit)); rewrite ?Hp; try done; [rewrite length_app; simpl; lia|by intros []|].
    rewrite Hst. apply lmove_lin. rewrite (iv_abs _ _ _ _ HI). simpl. done.
  - apply (same_good _ _ st); rewrite ?Hp; try done. apply lmove_stay.
Qed.

(** A batch: what was moved left the caller's ring and is in the queue. *)
Lemma pushed_batch src n st : pcs t = BatchLook src n → freed s = false → stat tt (pcs t) st →
  ∀ s' p', push_step cf s (pcs t) = Some (s', p') → good s' p' st.
Proof.
  intros Hp Hf Hst s' p'. pose proof (iv_cap _ _ _ _ HI) as Hc. pose proof (iv_pc _ _ _ _ HI t) as Hok.
  rewrite Hp in Hst, Hok |- *. destruct Hok as [[Ho Hn0] Hn]. destruct Hst as (src0 & limit & -> & Hs0 & Hc0 & Hnn). simpl.
  pose proof (contents_length src Ho) as Hlen. destruct (own_range _ Ho) as (Hsl & _). pose proof (count_range _ Ho) as Hcr.
  destruct (Z.eqb_spec n 0) as [Hz|Hz].
  { intros [= <- <-]. destruct (Z.ltb_spec (Z.of_nat (length (ring s))) (cap cf)) as [Hl|].
    - apply (same_good _ _ (IDone (RBatch 0 src))); rewrite ?Hp; try done; [by intros []|]. apply lmove_lin. rewrite (iv_abs _ _ _ _ HI). simpl.
      split; [done|]. exists src. rewrite <-Hnn, Hz, Z.min_l by lia. simpl. rewrite drop_0, app_nil_r. done.
    - apply (same_good _ _ (ICalled (PushBatch src0 limit) [])); rewrite ?Hp; try done; [apply lmove_stay|by exists src0, limit]. }
  set (k := Z.min n (cap cf - Z.of_nat (length (ring s)))). destruct (removes_ok (Z.to_nat k) src Ho) as (src' & Hr & Ho' & Hs' & Hc'); [lia|]. rewrite Hr.
  assert (Z.min (Z.of_nat (length (take (Z.to_nat k) (contents src)))) (cap cf - Z.of_nat (length (ring s))) = k) as -> by (rewrite length_take; lia).
  rewrite take_take, Nat.min_id. intros [= <- <-]. destruct (Z.ltb_spec 0 k) as [Hk|Hk].
  - apply (ring_good _ _ _ (IDone (RBatch k src'))); rewrite ?Hp; try done; [rewrite length_app, length_take; lia|by intros []| |].
    + apply lmove_lin. rewrite (iv_abs _ _ _ _ HI). simpl. rewrite <-Hnn. fold k. split; [lia|]. exists src'. rewrite <-Hc0, <-Hs0. done.
    + simpl. by rewrite i32_small by lia.
  - assert (k = 0) as Hk0 by lia. rewrite Hk0 in Hc' |- *. simpl in Hc' |- *. rewrite drop_0 in Hc'. rewrite take_0, app_nil_r.
    apply (ring_good _ _ _ (ICalled (PushBatch src0 limit) [])); rewrite ?Hp; try done.
    + split; [done|]. rewrite <-(contents_length _ Ho'), Hc'. lia.
    + rewrite <-(iv_abs _ _ _ _ HI). apply lmove_stay.
    + exists src0, limit. split_and!; congruence.
Qed.

(** Once closed, the count the original tests has been reached. *)
Lemma closed_finished : closed s = true → finished cf (o_count (ended s)).
Proof.
  intros Hcl. destruct (iv_closed _ _ _ _ HI Hcl) as [He Hp]. split; [done|]. unfold o_count. case_decide; lia.
Qed.

Lemma popped st s' p' : pcs t = PopClosed ∨ (∃ wc, pcs t = PopLook wc) → freed s = false → stat tt (pcs t) st →
  pop_step cf s (pcs t) = Some (s', p') → good s' p' st.
Proof.
  intros Hp Hf Hst. pose proof (iv_cap _ _ _ _ HI) as Hc. pose proof (iv_pc _ _ _ _ HI t) as Hok.
  destruct Hp as [Hp|[wc Hp]]; rewrite Hp in Hst, Hok |- *; simpl in Hst, Hok |- *.
  - intros [= <- <-]. apply (same_good _ _ st); rewrite ?Hp; try done; [by simpl; auto|apply lmove_stay].
  - destruct (ring s) as [|v l] eqn:El; simpl; intros [= <- <-].
    + destruct wc.
      * apply (same_good _ _ (IDone (RPop None))); rewrite ?Hp; try done; [by intros []|]. rewrite Hst. apply lmove_lin. rewrite (iv_abs _ _ _ _ HI), El. simpl.
        right. split_and!; try done. apply closed_finished. auto.
      * apply (same_good _ _ st); rewrite ?Hp; try done. apply lmove_stay.
    + apply (ring_good _ _ _ (IDone (RPop (Some v)))); rewrite ?Hp; try done; [simpl in Hc; lia|by intros []|].
      rewrite Hst. apply lmove_lin. rewrite (iv_abs _ _ _ _ HI), El. left. by exists v, l.
Qed.

Lemma popped_batch dst n wc st s' p' : pcs t = BatchPop dst n wc → freed s = false → stat tt (pcs t) st →
  pop_step cf s (pcs t) = Some (s', p') → good s' p' st.
Proof.
  intros Hp Hf Hst. pose proof (iv_cap _ _ _ _ HI) as Hc. pose proof (iv_pc _ _ _ _ HI t) as Hok. pose proof (iv_abs _ _ _ _ HI) as Hq.
  rewrite Hp in Hst, Hok |- *. destruct Hok as [[Ho Hn0] [Hn Hwc]]. destruct Hst as (dst0 & limit & -> & Hs0 & Hc0 & Hnn). simpl.
  pose proof (contents_length dst Ho) as Hlen. destruct (own_range _ Ho) as (Hsl & _). pose proof (count_range _ Ho) as Hcr.
  assert (∀ r, (∃ d, r = RBatch (-1) d ∧ own_ok d ∧ slots d = slots dst0 ∧ contents d = contents dst0) → ring s = [] → wc = true → good s (Leave false r) (ICalled (PopBatch dst0 limit) [])) as Hend.
  { intros r Hr He Hw. apply (same_good _ _ (IDone r)); rewrite ?Hp; try done; [by intros []|]. apply lmove_lin. rewrite Hq, He. right. simpl.
    split_and!; try done. apply closed_finished. auto. }
  destruct (Z.eqb_spec n 0) as [Hz|Hz].
  { intros [= <- <-]. destruct (Z.ltb_spec 0 (Z.of_nat (length (ring s)))) as [Hl|Hl].
    - apply (same_good _ _ (IDone (RBatch 0 dst))); rewrite ?Hp; try done; [by intros []|]. apply lmove_lin. rewrite Hq. left. simpl.
      split; [by destruct (ring s)|]. exists dst. rewrite <-Hnn, Hz, Z.min_l by lia. simpl. rewrite drop_0, take_0, app_nil_r. done.
    - destruct wc.
      + apply Hend; [by exists dst|by apply nil_length_inv; lia|done].
      + apply (same_good _ _ (ICalled (PopBatch dst0 limit) [])); rewrite ?Hp; try done; [apply lmove_stay|by exists dst0, limit]. }
  set (k := Z.min n (Z.of_nat (length (ring s)))).
  assert (take (Z.to_nat n) (ring s) = take (Z.to_nat k) (ring s) ∧ drop (Z.to_nat n) (ring s) = drop (Z.to_nat k) (ring s)) as [-> ->].
  { destruct (decide (n ≤ Z.of_nat (length (ring s)))); [by replace k with n by lia|]. rewrite !take_ge, !drop_ge by lia. done. }
  destruct (inserts_ok (take (Z.to_nat k) (ring s)) dst Ho) as (dst' & Hr & Ho' & Hs' & Hc'); [rewrite length_take; lia|]. rewrite Hr. intros [= <- <-].
  destruct (ring s) as [|v l] eqn:El.
  - rewrite take_nil, drop_nil in *. rewrite app_nil_r in Hc'. assert (set_ring s [] = s) as -> by (rewrite <-El; by destruct s). destruct wc.
    + apply Hend; [exists dst'; split_and!; congruence|done..].
    + apply (same_good _ _ (ICalled (PopBatch dst0 limit) [])); rewrite ?Hp; try done; [|apply lmove_stay|exists dst0, limit; split_and!; congruence].
      split; [done|]. rewrite <-(contents_length _ Ho'), Hc'. lia.
  - assert (0 < k) as Hk by (unfold k; simpl; lia). assert (i32 (Z.of_nat (length (take (Z.to_nat k) (v :: l)))) = k) as Hik.
    { rewrite length_take. rewrite i32_small; lia. }
    assert (∃ r, RBatch k dst' = r ∧ match take (Z.to_nat k) (v :: l) with
        | [] => if wc then Leave false (RBatch (-1) dst') else BatchClosed dst' n
        | _ => Notify false (RBatch (i32 (Z.of_nat (length (take (Z.to_nat k) (v :: l))))) dst')
      end = Notify false r) as (r & Er & ->).
    { rewrite Hik. eexists. split; [done|]. by replace (Z.to_nat k) with (S (Z.to_nat (k - 1))) by lia. }
    apply (ring_good _ _ _ (IDone r)); rewrite ?Hp; try done; [rewrite length_drop; lia|by intros []|].
    rewrite <-Er. apply lmove_lin. rewrite Hq. left. simpl. split; [done|]. exists dst'. rewrite <-Hnn. fold k. rewrite <-Hc0, <-Hs0. done.
Qed.

Lemma batch_closed dst n st s' p' : pcs t = BatchClosed dst n → freed s = false → stat tt (pcs t) st →
  pop_step cf s (pcs t) = Some (s', p') → good s' p' st.
Proof.
  intros Hp Hf Hst. pose proof (iv_pc _ _ _ _ HI t) as Hok. rewrite Hp in Hst, Hok |- *. intros [= <- <-].
  apply (same_good _ _ st); rewrite ?Hp; try done; [|apply lmove_stay]. destruct Hok. by split_and!.
Qed.

Lemma terminated st s' p' : pcs t = TermAdd ∨ pcs t = TermClose → freed s = false → stat tt (pcs t) st →
  terminate_step cf s (pcs t) = Some (s', p') → good s' p' st.
Proof.
  intros Hp Hf Hst. pose proof (dc_ended _ HD) as He. pose proof (iv_pc _ _ _ _ HI t) as Hok. pose proof (iv_abs _ _ _ _ HI) as Hq.
  pose proof HI as [I1 I2 I3 I4 I5 I6 I7 I8 I9 I10 I11 I12]. simpl in He.
  destruct Hp as [Hp|Hp]; rewrite Hp in Hst, Hok |- *; simpl in Hst, Hok |- *.
  - rewrite i32_small by lia. intros [= <- Hp']. assert (act true p' = 1 ∧ act false p' = 0 ∧ destroying p' = false) as (A1 & A2 & A3).
    { rewrite <-Hp'. by repeat case_match. }
    assert (pc_ok (set_ended s (ended s + 1)) p') as Hpc by (rewrite <-Hp'; repeat case_match; simpl; done || lia).
    assert (Inv tt (set_ended s (ended s + 1)) (<[t:=p']> pcs) (OQ (ring s) (o_count (ended s + 1)))) as Hinv.
    { apply (step_inv (set_ended s (ended s + 1))); rewrite ?Hp, ?A1, ?A2; simpl; try done; try lia; try by left. intros Hcl. destruct (I4 Hcl). split; [done|lia]. }
    destruct (decide (ends cf = ends_exactly ∧ producers cf ≤ ended s)) as [[Hx Hover]|Hin].
    + exists (OQ (ring s) (o_count (ended s + 1))), st. split_and!; [|done|by rewrite <-Hp'; destruct (Z.ltb_spec (producers cf) (ended s + 1)); [|lia]; rewrite (proj2 (Z.eqb_eq _ _) Hx)].
      assert (o_count (ended s + 1) = o_count (ended s)) as -> by (unfold o_count; rewrite !decide_True by done; lia). rewrite Hq. apply lmove_stay.
    + exists (OQ (ring s) (o_count (ended s + 1))), (IDone RUnit). split_and!; [|done|].
      * rewrite Hst. apply lmove_lin. rewrite Hq. simpl. split_and!; try done; [intros Hx|]; unfold o_count.
        -- rewrite decide_True by done. assert (¬ producers cf ≤ ended s) by auto. lia.
        -- case_decide as Hx; [|done]. assert (¬ producers cf ≤ ended s) by auto. f_equal. lia.
      * rewrite <-Hp'. by repeat case_match.
  - intros [= <- <-]. apply (good_intro _ _ _ q st); [done|apply lmove_stay|done|].
    apply (step_inv (set_closed s)); rewrite ?Hp; simpl; try done; try lia; try by left.
Qed.

Lemma destroyed st s' p' : destroying (pcs t) = true → freed s = false → stat tt (pcs t) st → destroy_step s (pcs t) = Some (s', p') → good s' p' st.
Proof.
  intros Hd Hf Hst Hstep. assert (st = ICalled Destroy []) as -> by by destruct (pcs t). destruct (destroy_good s' p' Hd Hf Hstep) as [Hi [->|Hd']].
  - exists q, (IDone RUnit). split_and!; [by apply lmove_lin|done|done].
  - exists q, (ICalled Destroy []). split_and!; [apply lmove_stay|done|by destruct p'].
Qed.

Lemma cq_step_good st s' p' : stat tt (pcs t) st → step cf tt s (pcs t) = Some (s', p') → good s' p' st.
Proof.
  intros Hst Hstep. pose proof (live_now s' p' Hstep) as Hf.
  assert (∃ p, pcs t = p) as [p Hp] by eauto. rewrite Hp in Hstep.
  destruct p as [| | | |o|v|src n| |wc|dst n|dst n wc| | |b r|b r| | |]; try discriminate Hstep; simpl in Hstep; rewrite Hf in Hstep.
  - injection Hstep as <- <-. by apply enter_good.
  - eapply pushed; [done..|]. by rewrite Hp.
  - eapply pushed_batch; [done..|]. by rewrite Hp.
  - apply popped; [by left|done|done|by rewrite Hp].
  - apply popped; [right; by exists wc|done|done|by rewrite Hp].
  - eapply batch_closed; [done..|by rewrite Hp].
  - eapply popped_batch; [done..|by rewrite Hp].
  - apply terminated; [by left|done|done|by rewrite Hp].
  - apply terminated; [by right|done|done|by rewrite Hp].
  - injection Hstep as <- <-. apply (same_good _ _ st); rewrite ?Hp; try done; [apply lmove_stay|]. by rewrite Hp in Hst.
  - injection Hstep as <- <-. apply active_good; rewrite ?Hp; try done; [by destruct b|by destruct b|by right|by rewrite Hp in Hst].
  - apply destroyed; rewrite ?Hp; try done; by rewrite Hp in Hst.
  - apply destroyed; rewrite ?Hp; try done; by rewrite Hp in Hst.
  - apply destroyed; rewrite ?Hp; try done; by rewrite Hp in Hst.
Qed.
End step.

Lemma idle_inv s pcs q t p' : Inv tt s pcs q → (t < N)%nat → (∀ b, act b p' = act b (pcs t)) → pc_ok s p' → (p' ≠ DePop) → (p' ≠ DeFree) → Inv tt s (<[t:=p']> pcs) q.
Proof.
  intros [I1 I2 I3 I4 I5 I6 I7 I8 I9 I10 I11 I12] Ht Ha Hp Hn1 Hn2.
  assert (∀ b u, act b (<[t:=p']> pcs u) = act b (pcs u)) as Hall.
  { intros b u. destruct (decide (u = t)) as [->|]; rewrite ?fn_insert_eq, ?fn_insert_ne by done; auto. }
  split; try done.
  - rewrite I5. apply tsum_ext. intros u _. by rewrite Hall.
  - rewrite I6. apply tsum_ext. intros u _. by rewrite Hall.
  - intros u Hu. rewrite fn_insert_ne by lia. auto.
  - intros u. destruct (decide (u = t)) as [->|]; rewrite ?fn_insert_eq, ?fn_insert_ne by done; auto.
  - intros u v Hu. rewrite Hall. apply (I9 u). destruct (decide (u = t)) as [->|]; rewrite ?fn_insert_eq, ?fn_insert_ne in Hu by done; [by destruct Hu|done].
  - intros u v Hu. rewrite Hall. apply (I10 u). destruct (decide (u = t)) as [->|]; rewrite ?fn_insert_eq, ?fn_insert_ne in Hu by done; done.
  - intros u b Hf. rewrite Hall. by apply I11.
Qed.

Lemma c_queue_proof : lin_proof M (original_queue cf) disciplined Inv stat.
Proof.
  split.
  - exists tt. split; [|done]. split; simpl; try done; try lia; try (by intros; destruct b).
    + f_equal. unfold o_count. case_decide as E; [|done]. specialize (Hends E). lia.
    + symmetry. apply tsum_zero.
    + symmetry. apply tsum_zero.
  - intros [] s pcs q t o HI Hid Hmay. simpl in Hid, Hmay. unfold is_idle in Hid. destruct (pcs t) eqn:Hp; try discriminate Hid.
    unfold c_may in Hmay. apply andb_prop in Hmay as [Ht%Nat.ltb_lt Hmay]. split; [by intros st|]. split; [|by destruct o].
    apply idle_inv; try done; rewrite ?Hp; try (by destruct o).
    destruct o as [v| | |src l|dst l|]; simpl in *; try done; split; [|lia| |lia]; unfold own_ok; by destruct (own_okb _).
  - intros [] s pcs q t r HI Hr. simpl in Hr. unfold result in Hr. destruct (pcs t) as [| | |r'| | | | | | | | | | | | | |] eqn:Hp; simplify_eq. split; [by intros st|]. split; [|done].
    apply idle_inv; try done; [|by rewrite Hp]. eapply thread_below; [done|]. by rewrite Hp.
  - intros [] s pcs q t [] s' p' st HD HI Hst Hstep. assert (pcs t ≠ PcIdle) as Hne by (intros E; rewrite E in Hstep; discriminate Hstep).
    destruct (cq_step_good s pcs q t HI HD Hne st s' p' Hst Hstep) as (q' & st' & Hm & Hi & Hs). by exists tt, q', st'.
Qed.

Abbreviation runs := (restrict (mlts M) disciplined).

(** C5: The substitute is linearisable to the queue the C program wrote:
    every history of pushes, pops, terminations and batches that any number
    of threads make of it, and of the destruction, is one of the original,
    whose operations take effect one at a time under its mutex, each when
    its condition holds: a push when there is room, a pop when there is an
    element, in the order they were pushed, or with nothing once the queue
    is empty and the count of terminations meets the program's test, a batch
    with as many as the caller's ring, the limit and the queue allow. *)
Theorem c_linearisable tr : history runs tr → history (atomic (original_queue cf)) tr.
Proof. exact (linearisable _ _ _ _ _ c_queue_proof tr). Qed.

(** C6: The destruction frees the queue only when no operation uses it: as
    long as the program destroys its queue as it may destroy its own, after
    every operation has taken effect but maybe before it has returned, no
    operation touches the queue after it is freed, no batch leaves the
    caller's ring, and the counts [destroy] waits for are those of the
    operations under way on each side. *)
Theorem c_destroy_safe m : reachable runs m →
  bad (ms_shared m) = false ∧ (∀ t, ms_pcs m t ≠ PcBad) ∧
  (freed (ms_shared m) = true → ∀ t b, act b (ms_pcs m t) = 0) ∧
  pushing (ms_shared m) = tsum N (λ t, act true (ms_pcs m t)) ∧ popping (ms_shared m) = tsum N (λ t, act false (ms_pcs m t)).
Proof.
  intros Hm. destruct (lin_reachable _ _ _ _ _ c_queue_proof m Hm) as ([] & q & HI). split_and!.
  - apply (iv_bad _ _ _ _ HI).
  - intros t E. pose proof (iv_pc _ _ _ _ HI t) as H. by rewrite E in H.
  - intros Hf t b. by apply (iv_freed _ _ _ _ HI).
  - apply (iv_pushing _ _ _ _ HI).
  - apply (iv_popping _ _ _ _ HI).
Qed.
End proof.

(** ** A run the theorems apply to *)

Section demo.
Context (cf : config) (n : nat).
Abbreviation CM := (@c_machine Z cf n).

(** [disciplined], checked. *)
Definition disc_check (m : mstate CM) : bool :=
  let pcs := ms_pcs m in
  let f := freed (ms_shared m) in
  forallb (λ t, forallb (λ u,
    implb (destroying (pcs t) || f) (negb (before (pcs u))) && implb (destroying (pcs t) && destroying (pcs u)) (t =? u)%nat) (seq 0 n) &&
    implb f (negb (destroying (pcs t)))) (seq 0 n) &&
  ((0 <? n)%nat && (ended (ms_shared m) <? 2 ^ 31 - 1)).

Lemma disc_check_ok (m : mstate CM) : (∀ u, (n ≤ u)%nat → ms_pcs m u = PcIdle) → disc_check m = true → disciplined cf n m.
Proof.
  unfold disc_check. intros Hn [Hall [H0%Nat.ltb_lt He]%andb_prop]%andb_prop. rewrite forallb_forall in Hall.
  assert (∀ t, (t < n)%nat → In t (seq 0 n)) as Hin by (intros t Ht; apply in_seq; lia).
  assert (∀ t u, (t < n)%nat → (u < n)%nat → (destroying (ms_pcs m t) = true ∨ freed (ms_shared m) = true → before (ms_pcs m u) = false) ∧
    (destroying (ms_pcs m t) = true → destroying (ms_pcs m u) = true → t = u) ∧ (freed (ms_shared m) = true → destroying (ms_pcs m t) = false)) as H.
  { intros t u Ht Hu. specialize (Hall t (Hin t Ht)). apply andb_prop in Hall as [Hp Hf]. rewrite forallb_forall in Hp. specialize (Hp u (Hin u Hu)).
    apply andb_prop in Hp as [Hp1 Hp2]. destruct (destroying (ms_pcs m t)), (freed (ms_shared m)), (before (ms_pcs m u)), (destroying (ms_pcs m u)); simpl in *; split_and!; try done; try (by intros [|]);
      intros; by apply Nat.eqb_eq. }
  assert (∀ t, destroying (ms_pcs m t) = true → (t < n)%nat) as Hd.
  { intros t Ht. destruct (decide (t < n)%nat); [done|]. by rewrite Hn in Ht by lia. }
  split.
  - intros t u Hc. destruct (decide (u < n)%nat) as [Hu|]; [|by rewrite Hn by lia].
    destruct Hc as [Hc|Hc]; [apply (H t u (Hd t Hc) Hu); by left|apply (H 0%nat u H0 Hu); by right].
  - intros t u Ht Hu. by apply (H t u (Hd t Ht) (Hd u Hu)).
  - intros t Hf. destruct (decide (t < n)%nat) as [Ht|]; [by apply (H t t)|by rewrite Hn by lia].
  - lia.
Qed.

Lemma disc_along l : ∀ m : mstate CM, (∀ u, (n ≤ u)%nat → ms_pcs m u = PcIdle) → alongb CM n (λ _ _, true) l m = true → along_check CM disc_check l m = true →
  along CM (disciplined cf n) l m.
Proof.
  induction l as [|a l IH]; simpl; intros m Hn Hal Hch; (split; [apply disc_check_ok; [done|by apply andb_prop in Hch as []]|]); [done|].
  apply andb_prop in Hal as [_ [Ha Hal]%andb_prop]. apply andb_prop in Hch as [_ Hch]. destruct (exec1 CM a m) as [[m1 e1]|] eqn:E1; [|done].
  apply IH; try done. intros u Hu. rewrite (exec1_other CM _ _ _ _ _ _ E1 Ha Hu). auto.
Qed.
End demo.

(** One producer, two slots.  The producer pushes, moves a batch from its
    own ring, of which one fits, and terminates; the consumer takes the
    element, moves the batch to its own ring, finds the queue finished and
    destroys it while the producer has still to return from its
    termination. *)
Definition demo_config : config := Config 2 1 ends_exactly.
Abbreviation demo_machine := (@c_machine Z demo_config 2).
Definition go (t n : nat) : list (action (@op Z) unit) := replicate n (AStep t ()).
Definition call_all (t : nat) (o : @op Z) (n : nat) : list (action (@op Z) unit) := [ACall t o] ++ go t n ++ [ARet t].
Definition full_ring : @own_ring Z := Own [20; 30; 0; 10] 2 3 4.
Definition empty_ring : @own_ring Z := Own [0; 0; 0] 2 2 3.

Definition demo1 : list (action (@op Z) unit) :=
  call_all 0 (PushWait 7) 4 ++ call_all 0 (PushBatch full_ring 5) 4 ++ call_all 1 PopWait 5 ++ [ACall 0 Terminate] ++ go 0 3 ++
  call_all 1 (PopBatch empty_ring 9) 5 ++ call_all 1 PopWait 4 ++ [ACall 1 Destroy] ++ go 1 2.
Definition demo : list (action (@op Z) unit) := demo1 ++ go 0 2 ++ go 1 3 ++ [ARet 1%nat; ARet 0%nat].
Definition demo_history : list (event (@op Z) (@res Z)) := default [] (exec_events demo_machine demo).

Lemma demo_small : Z.of_nat 2 < 2 ^ 31 ∧ 0 ≤ cap demo_config < 2 ^ 31 ∧ (ends demo_config = ends_exactly → 0 ≤ producers demo_config).
Proof. simpl. lia. Qed.

Lemma cq_demo_along l : alongb demo_machine 2 (λ _ _, true) l (m_start demo_machine) = true → along_check demo_machine (disc_check demo_config 2) l (m_start demo_machine) = true →
  along demo_machine (disciplined demo_config 2) l (m_start demo_machine).
Proof. by apply disc_along. Qed.

(** The run's events: the batch moves the one element there is room for. *)
Example demo_answers : demo_history =
  [Call 0 (PushWait 7); Ret 0 RUnit; Call 0 (PushBatch full_ring 5); Ret 0 (RBatch 1 (Own [20; 30; 0; 10] 2 0 4));
   Call 1 PopWait; Ret 1 (RPop (Some 7)); Call 0 Terminate; Call 1 (PopBatch empty_ring 9); Ret 1 (RBatch 1 (Own [0; 0; 10] 0 2 3));
   Call 1 PopWait; Ret 1 (RPop None); Call 1 Destroy; Ret 1 RUnit; Ret 0 RUnit].
Proof. vm_compute. reflexivity. Qed.

Lemma c_linearisable_witness : history (atomic (original_queue demo_config)) demo_history.
Proof.
  destruct demo_small as (H1 & H2 & H3). apply (c_linearisable demo_config 2 H1 H2 H3).
  apply (exec_history_along demo_machine _ demo); [vm_compute; reflexivity|]. apply cq_demo_along; vm_compute; reflexivity.
Defined.

(** The destruction waits while the termination has still to wake, and the
    queue is then freed. *)
Lemma c_destroy_safe_witness :
  (ms_pcs (exec_final demo_machine demo1) 1%nat = DePush ∧ bad (ms_shared (exec_final demo_machine demo1)) = false) ∧
  freed (ms_shared (exec_final demo_machine demo)) = true ∧ bad (ms_shared (exec_final demo_machine demo)) = false.
Proof.
  destruct demo_small as (H1 & H2 & H3). split; (split; [vm_compute; reflexivity|]).
  - apply (c_destroy_safe demo_config 2 H1 H2 H3 (exec_final demo_machine demo1)).
    exists (m_start demo_machine), (default [] (exec_events demo_machine demo1)). assert (along demo_machine (disciplined demo_config 2) demo1 (m_start demo_machine)) as Hal by (apply cq_demo_along; vm_compute; reflexivity).
    split; [by split; [|eapply along_start]|]. apply (exec_final_along demo_machine _ demo1); [vm_compute; reflexivity|done].
  - apply (c_destroy_safe demo_config 2 H1 H2 H3 (exec_final demo_machine demo)).
    exists (m_start demo_machine), demo_history. assert (along demo_machine (disciplined demo_config 2) demo (m_start demo_machine)) as Hal by (apply cq_demo_along; vm_compute; reflexivity).
    split; [by split; [|eapply along_start]|]. apply (exec_final_along demo_machine _ demo); [vm_compute; reflexivity|done].
Defined.

(** ** Construction *)

(** What [wtc_c_queue_init] builds is as the theorems ask. *)
Lemma init_ok {T : Type} tag capacity prods end_ cf rcf s :
  @wtc_c_queue_init T tag capacity prods end_ = Some (cf, rcf, s) →
  s = c_queue_of cf ∧ 0 ≤ cap cf < 2 ^ 31 ∧ (ends cf = ends_exactly → 0 ≤ producers cf) ∧ cap cf = Z.max 0 capacity.
Proof.
  unfold wtc_c_queue_init. destruct (Z.ltb_spec capacity (-1)); [done|].
  set (c := if capacity <? 0 then 0 else capacity). assert (c = Z.max 0 capacity) as Hc by (unfold c; destruct (Z.ltb_spec capacity 0); lia).
  destruct ((end_ =? ends_exactly) && (prods <? 0)) eqn:E; [done|]. unfold BoundedRing.bounded_ring.
  destruct (Z.ltb_spec BoundedRing.kMaxCapacity c) as [|Hm]; [done|]. intros [= <- <- <-]. simpl. unfold BoundedRing.kMaxCapacity in Hm.
  rewrite (u32_small c) by lia. apply andb_false_iff in E. split_and!; try done; lia.
Qed.
End CQueueSpec.
