(* ===== verification/Waiter.v ===== *)
(** * A consumer's wait for an element (src/runtime/waiter.hpp)

    A step machine for [wtc::rt::waiter] on a queue: the waiting pops with
    and without a time limit under the three policies, [notify] after a
    publish, [close], and the futex they sleep on.  The queue itself is the
    atomic first-in first-out queue its implementations are linearisable to;
    the clock is read from the step's choice.  One step is one access to
    shared memory, one look at the queue, one reading of the clock or one
    system call; the fences add nothing in an interleaving semantics.
    [bumps] is history: the wake-ups so far, of which the futex word
    [epoch_] keeps the low 32 bits. *)

From S2P Require Import Prelude Lts Contract Machine.

Module Waiter.
Local Open Scope Z_scope.
Local Open Scope wtc_scope.

Inductive wait_policy : Type := spin | park | spin_then_park.
#[export] Instance wait_policy_eq_dec : EqDecision wait_policy.
Proof. solve_decision. Defined.

Definition kSpinNs : Z := 4000.
Definition kForeverNs : Z := 100000000 * 1000000000.
Definition INT_MAX : Z := 2 ^ 31 - 1.

(** [ticks_per_ms] is what stream_gate.hpp measured. *)
Record config := Config { policy_ : wait_policy; spin_ns_ : Z; ticks_per_ms : Z }.

Definition passed (until now : Z) : bool := i64 (until - now) <=? 0.

(** Every operation of the two conversions is on 64-bit unsigned words. *)
Definition to_ticks (cf : config) (ns : Z) : Z :=
  u64 (u64 (ns / 1000000 * ticks_per_ms cf) + u64 (ns mod 1000000 * ticks_per_ms cf) / 1000000).
Definition to_ns (cf : config) (t : Z) : Z :=
  u64 (u64 (t / ticks_per_ms cf * 1000000) + u64 (t mod ticks_per_ms cf * 1000000) / ticks_per_ms cf).

Section waiter.
Context {T : Type}.

Record waiter := State {
  elems : list T;            (* the queue *)
  waiters_ : Z; epoch_ : Z; closed_ : bool; parks_ : Z;
  asleep : list nat;         (* the threads the kernel keeps on the futex *)
  bumps : Z
}.

(** [Publish vs]: a push, or a batch's publish, of [vs] and the [notify] that
    follows it.  The waiting pops carry the identity of their thread. *)
Inductive op : Type :=
| Publish (vs : list T) | TryPop | Wait (me : nat) | WaitFor (me : nat) (limit : Z) | Close | Closed.
Inductive res : Type := RUnit | RPop (o : option T) | RBool (b : bool).

(** A step's choices: the clock, whether a sleep returns for no reason (a
    signal, a time-out, spuriously), and whom a wake-up wakes. *)
Record choice := Choice { ticks : Z; spurious : bool; woken : list nat }.

(** [lim]: the tick at which a limited wait gives up.  In [WakeBump] and
    [WakeCall], [h] is history: the number published, or [None] in [close]. *)
Inductive pc : Type :=
| PcIdle
| PcDone (r : res)
| PubPublish (vs : list T)
| NotLoad (published : Z)
| WakeBump (n : Z) (h : option Z)
| WakeCall (n : Z) (h : option Z)
| CloseStore
| ClosedLoad
| TryLook
(* wait_for *)
| ForLook (me : nat) (limit : Z)
| ForClock (me : nat) (limit : Z)
(* wait_until: spin *)
| SpinStart (me : nat) (lim : option Z)
| SpinClosed (me : nat) (lim : option Z) (start : Z)
| SpinLook (me : nat) (lim : option Z) (start : Z) (was_closed : bool)
| SpinClock (me : nat) (lim : option Z) (start : Z)
(* wait_until: park *)
| ParkClosed (me : nat) (lim : option Z)
| ParkLook (me : nat) (lim : option Z) (was_closed_before : bool)
| ParkClock (me : nat) (until : Z)
| Prepare (me : nat) (lim : option Z) (left_ns : Z)
| PrepEpoch (me : nat) (lim : option Z) (left_ns : Z)
| LastClosed (me : nat) (lim : option Z) (left_ns key kb : Z)     (* [kb]: history, [bumps] when [key] was read *)
| LastLook (me : nat) (lim : option Z) (left_ns key kb : Z) (was_closed : bool)
| ParksAdd (me : nat) (lim : option Z) (left_ns key kb : Z)
| SleepCheck (me : nat) (lim : option Z) (left_ns key kb : Z)
| SleepCall (me : nat) (lim : option Z) (left_ns key kb : Z)
| Asleep (me : nat) (lim : option Z)
| CancelLoop (me : nat) (lim : option Z)
| CancelRet (r : res).

Definition set_elems (s : waiter) (l : list T) : waiter := State l (waiters_ s) (epoch_ s) (closed_ s) (parks_ s) (asleep s) (bumps s).
Definition set_waiters (s : waiter) (n : Z) : waiter := State (elems s) n (epoch_ s) (closed_ s) (parks_ s) (asleep s) (bumps s).
Definition set_closed (s : waiter) : waiter := State (elems s) (waiters_ s) (epoch_ s) true (parks_ s) (asleep s) (bumps s).
Definition set_parks (s : waiter) (n : Z) : waiter := State (elems s) (waiters_ s) (epoch_ s) (closed_ s) n (asleep s) (bumps s).
Definition set_asleep (s : waiter) (l : list nat) : waiter := State (elems s) (waiters_ s) (epoch_ s) (closed_ s) (parks_ s) l (bumps s).
Definition bump (s : waiter) : waiter := State (elems s) (waiters_ s) (epoch_ s ⊕₃₂ 1) (closed_ s) (parks_ s) (asleep s) (bumps s + 1).

Definition waiter0 : waiter := State [] 0 0 false 0 [] 0.

Section steps.
Context (cf : config).

(** [wait_until] up to its first access. *)
Definition wait_until (me : nat) (lim : option Z) : pc :=
  if decide (policy_ cf = park) then ParkClosed me lim else SpinStart me lim.

Definition enter (o : op) : pc :=
  match o with
  | Publish vs => PubPublish vs
  | TryPop => TryLook
  | Wait me => wait_until me None
  | WaitFor me limit => ForLook me limit
  | Close => CloseStore
  | Closed => ClosedLoad
  end.

(** A call of [try_pop]: [k] continues when it finds nothing. *)
Definition look (s : waiter) (got : res → pc) (k : pc) : waiter * pc :=
  match elems s with
  | v :: l => (set_elems s l, got (RPop (Some v)))
  | [] => (s, k)
  end.

(** [notify], up to its first access. *)
Definition notify (published : Z) : pc :=
  if bool_decide (policy_ cf = spin) || (published =? 0) then PcDone RUnit else NotLoad published.

Definition notify_step (c : choice) (s : waiter) (p : pc) : option (waiter * pc) :=
  match p with
  | PubPublish vs => Some (set_elems s (elems s ++ vs), notify (Z.of_nat (length vs)))
  | NotLoad n => Some (s, if waiters_ s =? 0 then PcDone RUnit else WakeBump (if INT_MAX <? n then INT_MAX else n) (Some n))
  | _ => None
  end.

Definition close_step (s : waiter) (p : pc) : option (waiter * pc) :=
  match p with
  | CloseStore => Some (set_closed s, WakeBump INT_MAX None)
  | ClosedLoad => Some (s, PcDone (RBool (closed_ s)))
  | _ => None
  end.

(** [wake]: the epoch, then the system call, which wakes [n] of the threads
    asleep, or all of them if they are fewer. *)
Definition wake_step (c : choice) (s : waiter) (p : pc) : option (waiter * pc) :=
  match p with
  | WakeBump n h => Some (bump s, WakeCall n h)
  | WakeCall n h =>
      if decide (NoDup (woken c) ∧ Forall (λ t, t ∈ asleep s) (woken c) ∧ Z.of_nat (length (woken c)) = Z.min n (Z.of_nat (length (asleep s))))
      then Some (set_asleep s (filter (λ t, t ∉ woken c) (asleep s)), PcDone RUnit) else None
  | _ => None
  end.

Definition wait_for_step (c : choice) (s : waiter) (p : pc) : option (waiter * pc) :=
  match p with
  | ForLook me limit =>
      Some (look s PcDone (if limit <=? 0 then PcDone (RPop None)
                           else if kForeverNs <? limit then wait_until me None else ForClock me limit))
  | ForClock me limit => Some (s, wait_until me (Some (ticks c ⊕₆₄ to_ticks cf limit)))
  | _ => None
  end.

Definition limited_passed (lim : option Z) (now : Z) : bool :=
  match lim with Some until => passed until now | None => false end.

Definition spin_step (c : choice) (s : waiter) (p : pc) : option (waiter * pc) :=
  match p with
  | SpinStart me lim => Some (s, SpinClosed me lim (ticks c))
  | SpinClosed me lim start => Some (s, SpinLook me lim start (closed_ s))
  | SpinLook me lim start wc => Some (look s PcDone (if wc then PcDone (RPop None) else SpinClock me lim start))
  | SpinClock me lim start =>
      Some (s, if limited_passed lim (ticks c) then PcDone (RPop None)
               else if (ticks c ⊖₆₄ start) <? to_ticks cf (spin_ns_ cf) then SpinClosed me lim start
               else if decide (policy_ cf = spin) then SpinClosed me lim start
               else ParkClosed me lim)
  | _ => None
  end.

Definition prepare_step (s : waiter) (p : pc) : option (waiter * pc) :=
  match p with
  | Prepare me lim l => Some (set_waiters s (waiters_ s ⊕₃₂ 1), PrepEpoch me lim l)
  | PrepEpoch me lim l => Some (s, LastClosed me lim l (epoch_ s) (bumps s))
  | _ => None
  end.

Definition cancel_step (s : waiter) (p : pc) : option (waiter * pc) :=
  match p with
  | CancelLoop me lim => Some (set_waiters s (waiters_ s ⊖₃₂ 1), ParkClosed me lim)
  | CancelRet r => Some (set_waiters s (waiters_ s ⊖₃₂ 1), PcDone r)
  | _ => None
  end.

(** [sleep]: the word is compared once in user space and once by the kernel,
    which then keeps the thread until it is woken or the sleep returns of
    itself. *)
Definition sleep_step (c : choice) (s : waiter) (p : pc) : option (waiter * pc) :=
  match p with
  | SleepCheck me lim l key kb => Some (s, if negb (epoch_ s =? key) then CancelLoop me lim else SleepCall me lim l key kb)
  | SleepCall me lim l key kb => Some (if negb (epoch_ s =? key) then (s, CancelLoop me lim) else (set_asleep s (me :: asleep s), Asleep me lim))
  | Asleep me lim =>
      if decide (me ∉ asleep s) then Some (s, CancelLoop me lim)
      else if spurious c then Some (set_asleep s (filter (λ t, t ≠ me) (asleep s)), CancelLoop me lim)
      else None
  | _ => None
  end.

Definition park_step (c : choice) (s : waiter) (p : pc) : option (waiter * pc) :=
  match p with
  | ParkClosed me lim => Some (s, ParkLook me lim (closed_ s))
  | ParkLook me lim wc =>
      Some (look s PcDone (if wc then PcDone (RPop None) else match lim with Some u => ParkClock me u | None => Prepare me None 0 end))
  | ParkClock me until =>
      Some (s, if passed until (ticks c) then PcDone (RPop None)
               else let left := to_ns cf (until ⊖₆₄ ticks c) in Prepare me (Some until) (if left =? 0 then 1 else left))
  | LastClosed me lim l key kb => Some (s, LastLook me lim l key kb (closed_ s))
  | LastLook me lim l key kb wc => Some (look s CancelRet (if wc then CancelRet (RPop None) else ParksAdd me lim l key kb))
  | ParksAdd me lim l key kb => Some (set_parks s (parks_ s ⊕₆₄ 1), SleepCheck me lim l key kb)
  | _ => None
  end.

Definition step (c : choice) (s : waiter) (p : pc) : option (waiter * pc) :=
  match p with
  | PcIdle | PcDone _ => None
  | PubPublish _ | NotLoad _ => notify_step c s p
  | CloseStore | ClosedLoad => close_step s p
  | WakeBump _ _ | WakeCall _ _ => wake_step c s p
  | TryLook => Some (look s PcDone (PcDone (RPop None)))
  | ForLook _ _ | ForClock _ _ => wait_for_step c s p
  | SpinStart _ _ | SpinClosed _ _ _ | SpinLook _ _ _ _ | SpinClock _ _ _ => spin_step c s p
  | Prepare _ _ _ | PrepEpoch _ _ _ => prepare_step s p
  | CancelLoop _ _ | CancelRet _ => cancel_step s p
  | SleepCheck _ _ _ _ _ | SleepCall _ _ _ _ _ | Asleep _ _ => sleep_step c s p
  | _ => park_step c s p
  end.

Definition result (p : pc) : option res := match p with PcDone r => Some r | _ => None end.
Definition is_idle (p : pc) : bool := match p with PcIdle => true | _ => false end.
End steps.
End waiter.
End Waiter.
