(* ===== verification/WaiterSpec.v ===== *)
(** * What the waiter promises

    The waiting pops are linearisable to pops of a queue that may be closed,
    no wake-up is lost, and the conversions between nanoseconds and ticks
    are exact.  The wake-up argument is a count: as long as a consumer
    sleeps, the elements in the queue are no more than the wake-ups still to
    be delivered and the consumers still to look. *)

From S2P Require Import Prelude Lts Contract Machine Waiter.

Module WaiterSpec.
Import Waiter.
Local Open Scope Z_scope.
Local Open Scope wtc_scope.

Section spec.
Context {T : Type}.

Record wqueue := WQueue { w_elems : list T; w_closed : bool }.

(** A pop without a limit answers nothing only on a closed queue. *)
Definition w_step (q : wqueue) (o : @op T) (r : @res T) (q' : wqueue) : Prop :=
  match o with
  | Publish vs => r = RUnit ∧ q' = WQueue (w_elems q ++ vs) (w_closed q)
  | TryPop | WaitFor _ _ => r = RPop (head (w_elems q)) ∧ q' = WQueue (tail (w_elems q)) (w_closed q)
  | Wait _ => r = RPop (head (w_elems q)) ∧ q' = WQueue (tail (w_elems q)) (w_closed q) ∧ (w_elems q = [] → w_closed q = true)
  | Close => r = RUnit ∧ q' = WQueue (w_elems q) true
  | Closed => r = RBool (w_closed q) ∧ q' = q
  end.

Definition closable_queue : seqspec (@op T) (@res T) := SeqSpec wqueue (WQueue [] false) w_step.

(** [N] threads, each of which may do anything. *)
Definition may (N : nat) (t : nat) (o : @op T) : bool :=
  (t <? N)%nat && match o with Wait me | WaitFor me _ => (t =? me)%nat | _ => true end.

Definition wait_machine (cf : config) (N : nat) : machine (@op T) (@res T) :=
  Machine op res waiter pc choice waiter0 PcIdle is_idle (may N) (enter cf) (step cf) result.
End spec.

Section proof.
Context {T : Type} (cf : config) (N : nat) (HN : Z.of_nat N < 2 ^ 31).
Local Abbreviation M := (@wait_machine T cf N).
Implicit Types s : @waiter T.
Implicit Types p : @pc T.

(** The epoch a program counter holds, and the wake-ups before it. *)
Definition key_of p : option (Z * Z) :=
  match p with
  | LastClosed _ _ _ k b | LastLook _ _ _ k b _ | ParksAdd _ _ _ k b | SleepCheck _ _ _ k b | SleepCall _ _ _ k b => Some (k, b)
  | _ => None
  end.

(** The runs considered: fewer than 2^32 wake-ups between a consumer's reading
    of the epoch and its sleep. *)
Definition window (m : mstate M) : Prop :=
  ∀ t k b, key_of (ms_pcs m t) = Some (k, b) → bumps (ms_shared m) - b < 2 ^ 32.

(** Wake-ups to come: before and after the epoch is bumped. *)
Definition wA p : Z := match p with NotLoad n | WakeBump _ (Some n) => n | _ => 0 end.
Definition wB p : Z := match p with WakeCall _ (Some n) => n | _ => 0 end.

(** Consumers announced in [waiters_]. *)
Definition ann p : Z :=
  match p with
  | PrepEpoch _ _ _ | LastClosed _ _ _ _ _ | LastLook _ _ _ _ _ _ | ParksAdd _ _ _ _ _ | SleepCheck _ _ _ _ _ | SleepCall _ _ _ _ _
  | Asleep _ _ | CancelLoop _ _ | CancelRet _ => 1
  | _ => 0
  end.

(** Consumers sure to look at the queue again before they sleep or return. *)
Definition live s (t : nat) p : Z :=
  match p with
  | ForLook _ _ | SpinStart _ _ | SpinClosed _ _ _ | SpinLook _ _ _ _ | SpinClock _ None _ | ParkClosed _ _ | ParkLook _ _ _ | Prepare _ _ _
  | PrepEpoch _ _ _ | LastClosed _ _ _ _ _ | LastLook _ _ _ _ _ _ | CancelLoop _ _ => 1
  | ParksAdd _ _ _ _ b | SleepCheck _ _ _ _ b | SleepCall _ _ _ _ b => if decide (b = bumps s) then 0 else 1
  | Asleep _ _ => if decide (t ∈ asleep s) then 0 else 1
  | _ => 0
  end.

(** About to sleep with nothing to stop it. *)
Definition about s p : Prop :=
  match p with ParksAdd _ _ _ _ b | SleepCheck _ _ _ _ b | SleepCall _ _ _ _ b => b = bumps s | _ => False end.
(** The same, from its last look at [closed_] on. *)
Definition cabout s p : Prop :=
  match p with LastLook _ _ _ _ b false => b = bumps s | _ => about s p end.
Definition closer p : bool := match p with WakeBump _ None | WakeCall _ None => true | _ => false end.

(** The thread a program counter names. *)
Definition me_of p : option nat :=
  match p with
  | ForLook me _ | ForClock me _ | SpinStart me _ | SpinClosed me _ _ | SpinLook me _ _ _ | SpinClock me _ _ | ParkClosed me _ | ParkLook me _ _
  | ParkClock me _ | Prepare me _ _ | PrepEpoch me _ _ | LastClosed me _ _ _ _ | LastLook me _ _ _ _ _ | ParksAdd me _ _ _ _
  | SleepCheck me _ _ _ _ | SleepCall me _ _ _ _ | Asleep me _ | CancelLoop me _ => Some me
  | _ => None
  end.
(** Past the spinning, or waking those that are. *)
Definition parking p : bool :=
  match p with
  | NotLoad _ | WakeBump _ (Some _) | WakeCall _ (Some _)
  | ParkClosed _ _ | ParkLook _ _ _ | ParkClock _ _ | Prepare _ _ _ | PrepEpoch _ _ _ | LastClosed _ _ _ _ _ | LastLook _ _ _ _ _ _
  | ParksAdd _ _ _ _ _ | SleepCheck _ _ _ _ _ | SleepCall _ _ _ _ _ | Asleep _ _ | CancelLoop _ _ | CancelRet _ => true
  | _ => false
  end.
(** The flag [was_closed] a program counter holds. *)
Definition saw_closed p : bool := match p with SpinLook _ _ _ b | ParkLook _ _ b | LastLook _ _ _ _ _ b => b | _ => false end.

Record thread_ok s (t : nat) p : Prop := {
  tk_me me : me_of p = Some me → me = t;
  tk_key k b : key_of p = Some (k, b) → k = u32 b ∧ b ≤ bumps s;
  tk_saw : saw_closed p = true → closed_ s = true;
  tk_not n : p = NotLoad n → 0 < n;
  tk_wake n m : p = WakeBump n (Some m) ∨ p = WakeCall n (Some m) → 0 < m ∧ n = Z.min m INT_MAX;
  tk_close n : p = WakeBump n None ∨ p = WakeCall n None → n = INT_MAX;
  tk_spin : policy_ cf = spin → parking p = false
}.

Definition lA (pcs : nat → @pc T) s : Z := tsum N (λ t, wA (pcs t) + live s t (pcs t)).
Definition lB (pcs : nat → @pc T) : Z := tsum N (λ t, wB (pcs t)).
Definition len s : Z := Z.of_nat (length (elems s)).

Record Inv (g : unit) s (pcs : nat → @pc T) (q : @wqueue T) : Prop := {
  iv_abs : q = WQueue (elems s) (closed_ s);
  iv_epoch : epoch_ s = u32 (bumps s);
  iv_ann : waiters_ s = tsum N (λ t, ann (pcs t));
  iv_range t : (N ≤ t)%nat → pcs t = PcIdle;
  iv_thread t : thread_ok s t (pcs t);
  iv_nodup : NoDup (asleep s);
  iv_asleep t : t ∈ asleep s → ∃ lim, pcs t = Asleep t lim;
  iv_about t : about s (pcs t) → len s ≤ lA pcs s;
  iv_sleep : asleep s ≠ [] → len s ≤ lA pcs s + lB pcs;
  iv_cabout t : closed_ s = true → cabout s (pcs t) → ∃ u n, pcs u = WakeBump n None;
  iv_csleep : closed_ s = true → asleep s ≠ [] → ∃ u, closer (pcs u) = true
}.

(** What the interval object knows of a thread. *)
Definition waiting (me : nat) (lim : option Z) (st : @istatus (@op T) (@res T)) : Prop :=
  (∃ limit ws, st = ICalled (WaitFor me limit) ws) ∨ (lim = None ∧ ∃ ws, st = ICalled (Wait me) ws).

Definition stat (g : unit) p (st : @istatus (@op T) (@res T)) : Prop :=
  match p with
  | PcIdle => st = IIdle
  | PcDone r | CancelRet r => st = IDone r
  | PubPublish vs => st = ICalled (Publish vs) []
  | NotLoad _ | WakeBump _ _ | WakeCall _ _ => st = IDone RUnit
  | CloseStore => st = ICalled Close []
  | ClosedLoad => st = ICalled Closed []
  | TryLook => st = ICalled TryPop []
  | ForLook me limit | ForClock me limit => ∃ ws, st = ICalled (WaitFor me limit) ws
  | SpinClock me (Some _) _ | ParkClock me _ => ∃ limit ws, st = ICalled (WaitFor me limit) ws ∧ RPop None ∈ ws
  | SpinStart me lim | SpinClosed me lim _ | SpinLook me lim _ _ | SpinClock me lim _ | ParkClosed me lim | ParkLook me lim _ | Prepare me lim _
  | PrepEpoch me lim _ | LastClosed me lim _ _ _ | LastLook me lim _ _ _ _ | ParksAdd me lim _ _ _ | SleepCheck me lim _ _ _
  | SleepCall me lim _ _ _ | Asleep me lim | CancelLoop me lim => waiting me lim st
  end.

(** ** The counts *)

Lemma ann_range p : 0 ≤ ann p ≤ 1.
Proof. destruct p; simpl; lia. Qed.

Lemma live_nonneg s t p : 0 ≤ live s t p.
Proof. destruct p as [| | | | | | | | | | | | | |? [?|] ?| | | | | | | | | | | | |]; simpl; repeat case_decide; lia. Qed.

Lemma wA_nonneg s t p : thread_ok s t p → 0 ≤ wA p.
Proof.
  intros [_ _ _ Hn Hw _ _]. destruct p as [| | |n|n [m|]|n h| | | | | | | | | | | | | | | | | | | | | |]; simpl; try lia.
  - pose proof (Hn n eq_refl). lia.
  - destruct (Hw n m); [by left|lia].
Qed.

Lemma wB_nonneg s t p : thread_ok s t p → 0 ≤ wB p.
Proof.
  intros [_ _ _ Hn Hw _ _]. destruct p as [| | |n|n h|n [m|]| | | | | | | | | | | | | | | | | | | | | |]; simpl; try lia. destruct (Hw n m); [by right|lia].
Qed.

Lemma about_ann s p : about s p → ann p = 1.
Proof. by destruct p. Qed.

Lemma live_same s s' t p : bumps s' = bumps s → asleep s' = asleep s → live s' t p = live s t p.
Proof. intros E1 E2. unfold live. by rewrite E1, E2. Qed.

Lemma thread_mono s s' t p : thread_ok s t p → bumps s ≤ bumps s' → (closed_ s = true → closed_ s' = true) → thread_ok s' t p.
Proof. intros [H1 H2 H3 H4 H5 H6 H7] Hb Hc. split; auto. intros k b Hk. destruct (H2 k b Hk). split; [done|lia]. Qed.

(** [thread_ok] of a program counter most fields do not apply to. *)
Ltac fresh_thread := split; simpl; try done; intros; destruct_or?; simplify_eq; try done.

Section one_step.
Context (s : @waiter T) (pcs : nat → @pc T) (q : @wqueue T) (t : nat).
Context (HI : Inv tt s pcs q).

Lemma below p : pcs t = p → is_idle p = false → (t < N)%nat.
Proof. intros Hp Hid. destruct (decide (t < N)%nat); [done|]. rewrite (iv_range _ _ _ _ HI t) in Hp by lia. by subst. Qed.

Lemma at_thread p : pcs t = p → thread_ok s t p.
Proof. intros <-. apply (iv_thread _ _ _ _ HI). Qed.

Lemma unannounced u : waiters_ s = 0 → ann (pcs u) = 0.
Proof.
  rewrite (iv_ann _ _ _ _ HI). intros H0. destruct (decide (u < N)%nat) as [Hu|]; [|by rewrite (iv_range _ _ _ _ HI) by lia].
  pose proof (tsum_one N (λ t, ann (pcs t)) u ltac:(intros; apply ann_range) Hu) as H. simpl in H. pose proof (ann_range (pcs u)). lia.
Qed.

Lemma asleep_ann u : u ∈ asleep s → ann (pcs u) = 1.
Proof. intros Hu. by destruct (iv_asleep _ _ _ _ HI u Hu) as [lim ->]. Qed.

Lemma waiters_range : 0 ≤ waiters_ s ≤ Z.of_nat N.
Proof.
  rewrite (iv_ann _ _ _ _ HI). split; [apply tsum_nonneg; intros; apply ann_range|].
  assert (∀ n, tsum n (λ _, 1) = Z.of_nat n) as E by (intros n; induction n; simpl; lia). rewrite <-E. apply tsum_le. intros; apply ann_range.
Qed.

Lemma lA_step p p' s' : pcs t = p → (t < N)%nat → bumps s' = bumps s → asleep s' = asleep s →
  lA (<[t:=p']> pcs) s' = lA pcs s - (wA p + live s t p) + (wA p' + live s t p').
Proof.
  intros <- Ht E1 E2. unfold lA. rewrite (tsum_update N (λ t, wA (pcs t) + live s t (pcs t)) _ t Ht).
  - rewrite fn_insert_eq, (live_same s s') by done. done.
  - intros u _ Hu. rewrite fn_insert_ne by done. by rewrite (live_same s s').
Qed.

Lemma lB_step p p' : pcs t = p → (t < N)%nat → lB (<[t:=p']> pcs) = lB pcs - wB p + wB p'.
Proof.
  intros <- Ht. unfold lB. rewrite (tsum_update N (λ t, wB (pcs t)) _ t Ht); [by rewrite fn_insert_eq|].
  intros u _ Hu. by rewrite fn_insert_ne.
Qed.

Lemma ann_step p p' : pcs t = p → (t < N)%nat → tsum N (λ u, ann (<[t:=p']> pcs u)) = waiters_ s - ann p + ann p'.
Proof.
  intros <- Ht. rewrite (iv_ann _ _ _ _ HI), (tsum_update N (λ t, ann (pcs t)) _ t Ht); [by rewrite fn_insert_eq|].
  intros u _ Hu. by rewrite fn_insert_ne.
Qed.

Lemma counts_nonneg s' p' : thread_ok s' t p' → 0 ≤ lA (<[t:=p']> pcs) s' ∧ 0 ≤ lB (<[t:=p']> pcs).
Proof.
  intros Hp'. split; apply tsum_nonneg; intros u _; pose proof (live_nonneg s' u (<[t:=p']> pcs u));
    (destruct (decide (u = t)) as [->|]; rewrite ?fn_insert_eq, ?fn_insert_ne in * by done).
  - pose proof (wA_nonneg _ _ _ Hp'). lia.
  - pose proof (wA_nonneg _ _ _ (iv_thread _ _ _ _ HI u)). lia.
  - by eapply wB_nonneg.
  - eapply wB_nonneg, (iv_thread _ _ _ _ HI u).
Qed.

(** A step that neither wakes nor puts to sleep: enough that it loses no
    look and no wake-up, or that it leaves the queue empty, or that nobody
    was announced. *)
Lemma inv_gen p p' s' : pcs t = p → is_idle p = false → epoch_ s' = epoch_ s → bumps s' = bumps s → asleep s' = asleep s →
  waiters_ s' = waiters_ s - ann p + ann p' → (closed_ s' = closed_ s ∧ closer p = false ∨ closed_ s' = true ∧ ∃ n, p' = WakeBump n None) →
  thread_ok s' t p' → t ∉ asleep s → wB p = 0 → wB p' = 0 →
  (len s' - len s ≤ wA p' + live s t p' - (wA p + live s t p) ∨ elems s' = [] ∨ (waiters_ s = 0 ∧ ann p' = 0)) →
  (about s p' → about s p ∨ elems s' = []) → (cabout s p' → cabout s p ∨ closed_ s' = false) →
  Inv tt s' (<[t:=p']> pcs) (WQueue (elems s') (closed_ s')).
Proof.
  intros Hp Hid E1 E2 E3 E4 Hcl Hth Has Hb Hb' Hcnt Hab Hcab. pose proof (below p Hp Hid) as Ht. pose proof HI as [I1 I2 I3 I4 I5 I6 I7 I8 I9 I10 I11].
  assert (∀ p, about s' p ↔ about s p) as Habs by (intros p0; unfold about; by rewrite E2).
  assert (∀ p, cabout s' p ↔ cabout s p) as Hcabs by (intros p0; unfold cabout, about; by rewrite E2).
  pose proof (counts_nonneg s' p' Hth) as [N1 N2]. pose proof (lA_step p p' s' Hp Ht E2 E3) as LA. pose proof (lB_step p p' Hp Ht) as LB.
  assert (elems s' = [] → len s' = 0) as Hlen by (unfold len; by intros ->).
  split; try done; rewrite ?E1, ?E2, ?E3; try done.
  - by rewrite (ann_step p p' Hp Ht).
  - intros u Hu. rewrite fn_insert_ne by lia. auto.
  - intros u. by_thread t u; [done|]. apply (thread_mono s); [done|lia|]. destruct Hcl as [[-> _]|[-> _]]; done.
  - intros u Hu. destruct (I7 u Hu) as [lim Hl]. exists lim. rewrite fn_insert_ne; [done|]. by intros ->.
  - intros u. rewrite Habs. destruct (decide (u = t)) as [->|]; rewrite ?fn_insert_eq, ?fn_insert_ne by done.
    + intros Ha. destruct (Hab Ha) as [Ha'|He]; [|rewrite Hlen by done; lia].
      destruct Hcnt as [Hle|[He|[Hw Hn]]]; [|rewrite Hlen by done; lia|apply about_ann in Ha; lia]. rewrite <-Hp in Ha'. pose proof (I8 t Ha'). lia.
    + intros Ha. destruct Hcnt as [Hle|[He|[Hw Hn]]]; [pose proof (I8 u Ha); lia|rewrite Hlen by done; lia|].
      apply about_ann in Ha. rewrite unannounced in Ha by done. lia.
  - intros Ha. destruct Hcnt as [Hle|[He|[Hw Hn]]]; [pose proof (I9 Ha); lia|rewrite Hlen by done; lia|].
    destruct (asleep s) as [|u l] eqn:El; [done|]. pose proof (asleep_ann u ltac:(rewrite El; by left)) as H. rewrite unannounced in H by done. lia.
  - intros u Hc. rewrite Hcabs. destruct Hcl as [[Ecl Hncl]|[Ecl [n ->]]]; [|intros _; exists t, n; by rewrite fn_insert_eq].
    intros Ha. assert (∃ v, cabout s (pcs v)) as [v Hv].
    { destruct (decide (u = t)) as [->|]; rewrite ?fn_insert_eq, ?fn_insert_ne in Ha by done; [|eauto].
      destruct (Hcab Ha) as [Ha'|He]; [rewrite <-Hp in Ha'; eauto|congruence]. }
    destruct (I10 v ltac:(congruence) Hv) as (w & n & Hw). exists w, n. rewrite fn_insert_ne; [done|]. intros E. by rewrite <-E, Hp in Hw; rewrite Hw in Hncl.
  - intros Hc Ha. destruct Hcl as [[Ecl Hncl]|[Ecl [n ->]]]; [|exists t; by rewrite fn_insert_eq].
    destruct (I11 ltac:(congruence) Ha) as [w Hw]. exists w. rewrite fn_insert_ne; [done|]. intros E. rewrite <-E, Hp in Hw. congruence.
Qed.
(** The epoch is bumped: nobody is about to sleep any more. *)
Lemma inv_bump n h : pcs t = WakeBump n h → Inv tt (bump s) (<[t:=WakeCall n h]> pcs) (WQueue (elems s) (closed_ s)).
Proof.
  intros Hp. pose proof (below _ Hp eq_refl) as Ht. pose proof (at_thread _ Hp) as Htk. pose proof HI as [I1 I2 I3 I4 I5 I6 I7 I8 I9 I10 I11].
  assert (thread_ok (bump s) t (WakeCall n h)) as Hth.
  { destruct Htk as [T1 T2 T3 T4 T5 T6 T7]. split; try done.
    - intros n' m [?|E]; [done|]. injection E as <- ->. apply T5. by left.
    - intros n' [?|E]; [done|]. injection E as <- ->. apply T6. by left. }
  assert (∀ u, thread_ok (bump s) u (<[t:=WakeCall n h]> pcs u)) as Hall.
  { intros u. by_thread t u; [done|]. apply (thread_mono s); simpl; [done|lia|done]. }
  assert (∀ u k b, key_of (<[t:=WakeCall n h]> pcs u) = Some (k, b) → b ≤ bumps s) as Hkey.
  { intros u k b. by_thread t u; [done|]. apply (tk_key _ _ _ (I5 u)). }
  split; simpl; try done.
  - by rewrite I2, u32_add_l.
  - rewrite (ann_step _ _ Hp Ht). simpl. lia.
  - intros u Hu. rewrite fn_insert_ne by lia. auto.
  - intros u Hu. destruct (I7 u Hu) as [lim Hl]. exists lim. rewrite fn_insert_ne; [done|]. intros E. by rewrite <-E, Hp in Hl.
  - intros u Ha. exfalso. specialize (Hkey u). destruct (<[t:=WakeCall n h]> pcs u); try done; simpl in *; specialize (Hkey _ _ eq_refl); lia.
  - intros Ha. specialize (I9 Ha). pose proof (lA_step _ (WakeCall n h) s Hp Ht eq_refl eq_refl) as LA. pose proof (lB_step _ (WakeCall n h) Hp Ht) as LB.
    assert (lA (<[t:=WakeCall n h]> pcs) s ≤ lA (<[t:=WakeCall n h]> pcs) (bump s)) as Hle.
    { apply tsum_le. intros u _. assert (live s u (<[t:=WakeCall n h]> pcs u) ≤ live (bump s) u (<[t:=WakeCall n h]> pcs u)); [|lia].
      specialize (Hkey u). destruct (<[t:=WakeCall n h]> pcs u); simpl in *; try lia; repeat case_decide; try lia; subst; specialize (Hkey _ _ eq_refl); lia. }
    change (len (bump s)) with (len s). simpl in LA, LB. destruct h; lia.
  - intros u _ Ha. exfalso. specialize (Hkey u).
    destruct (<[t:=WakeCall n h]> pcs u) as [| | | | | | | | | | | | | | | | | | | | |? ? ? ? ? []| | | | | |]; try done; simpl in *; specialize (Hkey _ _ eq_refl); lia.
  - intros Hc Ha. destruct (I11 Hc Ha) as [u Hu]. exists u. by_thread t u; [rewrite Hp in Hu; by destruct h|done].
Qed.

Lemma asleep_below u : u ∈ asleep s → (u < N)%nat.
Proof.
  intros Hu. destruct (iv_asleep _ _ _ _ HI u Hu) as [lim Hl]. destruct (decide (u < N)%nat); [done|]. by rewrite (iv_range _ _ _ _ HI) in Hl by lia.
Qed.

Lemma asleep_few : Z.of_nat (length (asleep s)) ≤ Z.of_nat N.
Proof.
  assert (length (asleep s) ≤ length (seq 0 N))%nat as H; [|rewrite length_seq in H; lia].
  apply submseteq_length, NoDup_submseteq; [apply (iv_nodup _ _ _ _ HI)|]. intros u Hu%asleep_below. apply elem_of_seq. lia.
Qed.

(** A wake-up delivered: the threads woken are sure to look. *)
Lemma inv_wake n h w : pcs t = WakeCall n h → NoDup w → Forall (λ u, u ∈ asleep s) w → Z.of_nat (length w) = Z.min n (Z.of_nat (length (asleep s))) →
  Inv tt (set_asleep s (filter (λ u, u ∉ w) (asleep s))) (<[t:=PcDone RUnit]> pcs) (WQueue (elems s) (closed_ s)).
Proof.
  intros Hp Hnd Hw Hlen. pose proof (below _ Hp eq_refl) as Ht. pose proof (at_thread _ Hp) as Htk. pose proof HI as [I1 I2 I3 I4 I5 I6 I7 I8 I9 I10 I11].
  rewrite Forall_forall in Hw. set (s' := set_asleep s (filter (λ u, u ∉ w) (asleep s))).
  assert (t ∉ asleep s) as Hta by (intros Hin; destruct (I7 t Hin) as [lim Hl]; congruence).
  assert (lA (<[t:=PcDone RUnit]> pcs) s' = lA pcs s + Z.of_nat (length w)) as LA.
  { rewrite <-(tsum_mem N w Hnd) by (intros u Hu; apply asleep_below; auto).
    pose proof (lA_step _ (PcDone RUnit) s Hp Ht eq_refl eq_refl) as E. simpl in E.
    assert (lA (<[t:=PcDone RUnit]> pcs) s = lA pcs s) as <- by (destruct h; simpl in E; lia). unfold lA. rewrite <-tsum_add. apply tsum_ext. intros u _.
    assert (live s' u (<[t:=PcDone RUnit]> pcs u) = live s u (<[t:=PcDone RUnit]> pcs u) + (if decide (u ∈ w) then 1 else 0)); [|lia].
    destruct (decide (u ∈ w)) as [Hin|Hin].
    - pose proof (Hw u Hin) as Ha. destruct (I7 u Ha) as [lim Hl]. rewrite fn_insert_ne, Hl by (intros ->; done). simpl.
      rewrite decide_False, decide_True by (done || by rewrite list_elem_of_filter; tauto). done.
    - destruct (<[t:=PcDone RUnit]> pcs u); simpl; try lia.
      destruct (decide (u ∈ asleep s)); [rewrite decide_True by (by rewrite list_elem_of_filter)|rewrite decide_False by (rewrite list_elem_of_filter; tauto)]; lia. }
  pose proof (lB_step _ (PcDone RUnit) Hp Ht) as LB. pose proof asleep_few as Hfew.
  assert (asleep s' ≠ [] → n < Z.of_nat (length (asleep s))) as Hmore.
  { intros Hne. destruct (decide (n < Z.of_nat (length (asleep s)))) as [|Hge]; [done|]. exfalso. rewrite Z.min_r in Hlen by lia.
    destruct (asleep s') as [|x l] eqn:El; [done|]. assert (x ∈ asleep s') as Hx by (rewrite El; by left). apply list_elem_of_filter in Hx as [Hx1 Hx2].
    assert (length (x :: w) ≤ length (asleep s))%nat as H; [|simpl in H; lia].
    apply submseteq_length, NoDup_submseteq; [by constructor|]. intros y [->|Hy]%elem_of_cons; auto. }
  split; simpl; try done.
  - rewrite (ann_step _ _ Hp Ht). simpl. lia.
  - intros u Hu. rewrite fn_insert_ne by lia. auto.
  - intros u. by_thread t u; [fresh_thread|]. apply (thread_mono s); simpl; [done|lia|done].
  - by apply NoDup_filter.
  - intros u [_ Hu]%list_elem_of_filter. destruct (I7 u Hu) as [lim Hl]. exists lim. rewrite fn_insert_ne; [done|]. by intros ->.
  - intros u. destruct (decide (u = t)) as [->|]; rewrite ?fn_insert_eq, ?fn_insert_ne by done; [done|]. intros Ha. change (len s') with (len s). rewrite LA. pose proof (I8 u Ha). lia.
  - intros Hne. specialize (Hmore Hne). change (len s') with (len s). rewrite LA, LB. simpl. rewrite Z.min_l in Hlen by lia.
    assert (len s ≤ lA pcs s + lB pcs) as Hle by (apply I9; intros E; rewrite E in Hmore; simpl in *; by rewrite E in Hne).
    destruct h as [m|]; simpl; [|lia]. destruct (tk_wake _ _ _ Htk n m ltac:(by right)). unfold INT_MAX in *. lia.
  - intros u Hc. destruct (decide (u = t)) as [->|]; rewrite ?fn_insert_eq, ?fn_insert_ne by done; [done|]. intros Ha. destruct (I10 u Hc Ha) as (v & m & Hv). exists v, m.
    rewrite fn_insert_ne; [done|]. intros E. by rewrite <-E, Hp in Hv.
  - intros Hc Hne. specialize (Hmore Hne). destruct (I11 Hc) as [u Hu]; [intros E; rewrite E in Hmore, Hne; by apply Hne|]. exists u.
    rewrite fn_insert_ne; [done|]. intros E. rewrite <-E, Hp in Hu. destruct h; [done|].
    pose proof (tk_close _ _ _ Htk n ltac:(by right)) as En. unfold INT_MAX in En. lia.
Qed.

(** To sleep, with the epoch as it was before the last look. *)
Lemma inv_sleep lim l key kb : pcs t = SleepCall t lim l key kb → kb = bumps s →
  Inv tt (set_asleep s (t :: asleep s)) (<[t:=Asleep t lim]> pcs) (WQueue (elems s) (closed_ s)).
Proof.
  intros Hp Hk. pose proof (below _ Hp eq_refl) as Ht. pose proof (at_thread _ Hp) as Htk. pose proof HI as [I1 I2 I3 I4 I5 I6 I7 I8 I9 I10 I11].
  set (s' := set_asleep s (t :: asleep s)). assert (t ∉ asleep s) as Hta by (intros Hin; destruct (I7 t Hin) as [lim' Hl]; congruence).
  assert (about s (pcs t)) as Hab by (by rewrite Hp).
  assert (thread_ok s' t (Asleep t lim)) as Hth.
  { destruct Htk as [T1 T2 T3 T4 T5 T6 T7]. fresh_thread. }
  assert (lA (<[t:=Asleep t lim]> pcs) s' = lA pcs s) as LA.
  { unfold lA. rewrite (tsum_update N (λ t, wA (pcs t) + live s t (pcs t)) _ t Ht).
    - rewrite fn_insert_eq, Hp. simpl. rewrite (decide_True (P := t ∈ t :: asleep s)) by (by left). rewrite decide_True by done. lia.
    - intros u _ Hu. rewrite fn_insert_ne by done. f_equal. destruct (pcs u); try done. simpl.
      destruct (decide (u ∈ asleep s)); [rewrite decide_True by (by right)|rewrite decide_False]; [done..|]. intros [?|?]%elem_of_cons; done. }
  pose proof (lB_step _ (Asleep t lim) Hp Ht) as LB. pose proof (counts_nonneg s' _ Hth) as [_ N2]. simpl in LB.
  split; simpl; try done.
  - rewrite (ann_step _ _ Hp Ht). simpl. lia.
  - intros u Hu. rewrite fn_insert_ne by lia. auto.
  - intros u. by_thread t u; [done|]. apply (thread_mono s); simpl; [done|lia|done].
  - by constructor.
  - intros u [->|Hu]%elem_of_cons; [exists lim; by rewrite fn_insert_eq|]. destruct (I7 u Hu) as [lim' Hl]. exists lim'. rewrite fn_insert_ne; [done|]. by intros ->.
  - intros u. destruct (decide (u = t)) as [->|]; rewrite ?fn_insert_eq, ?fn_insert_ne by done; [done|]. intros Ha. change (len s') with (len s). rewrite LA. by apply (I8 u).
  - intros _. change (len s') with (len s). rewrite LA. pose proof (I8 t Hab). lia.
  - intros u Hc. destruct (decide (u = t)) as [->|]; rewrite ?fn_insert_eq, ?fn_insert_ne by done; [done|]. intros Ha. destruct (I10 u Hc Ha) as (v & m & Hv). exists v, m.
    rewrite fn_insert_ne; [done|]. intros E. by rewrite <-E, Hp in Hv.
  - intros Hc _. destruct (I10 t Hc) as (v & m & Hv); [by rewrite Hp|]. exists v. rewrite fn_insert_ne; [by rewrite Hv|]. intros E. by rewrite <-E, Hp in Hv.
Qed.

(** A sleep that returns of itself. *)
Lemma inv_return lim : pcs t = Asleep t lim → t ∈ asleep s →
  Inv tt (set_asleep s (filter (λ u, u ≠ t) (asleep s))) (<[t:=CancelLoop t lim]> pcs) (WQueue (elems s) (closed_ s)).
Proof.
  intros Hp Hta. pose proof (below _ Hp eq_refl) as Ht. pose proof (at_thread _ Hp) as Htk. pose proof HI as [I1 I2 I3 I4 I5 I6 I7 I8 I9 I10 I11].
  set (s' := set_asleep s (filter (λ u, u ≠ t) (asleep s))).
  assert (asleep s ≠ []) as Hne by (intros E; rewrite E in Hta; by apply not_elem_of_nil in Hta).
  assert (lA (<[t:=CancelLoop t lim]> pcs) s' = lA pcs s + 1) as LA.
  { unfold lA. rewrite (tsum_update N (λ t, wA (pcs t) + live s t (pcs t)) _ t Ht).
    - rewrite fn_insert_eq, Hp. simpl. rewrite decide_True by done. lia.
    - intros u _ Hu. rewrite fn_insert_ne by done. f_equal. destruct (pcs u); try done. simpl.
      destruct (decide (u ∈ asleep s)); [rewrite decide_True by (by rewrite list_elem_of_filter)|rewrite decide_False by (rewrite list_elem_of_filter; tauto)]; done. }
  pose proof (lB_step _ (CancelLoop t lim) Hp Ht) as LB. simpl in LB.
  split; simpl; try done.
  - rewrite (ann_step _ _ Hp Ht). simpl. lia.
  - intros u Hu. rewrite fn_insert_ne by lia. auto.
  - intros u. by_thread t u; [|apply (thread_mono s); simpl; [done|lia|done]].
    destruct Htk as [T1 T2 T3 T4 T5 T6 T7]. fresh_thread.
  - by apply NoDup_filter.
  - intros u [Hu1 Hu]%list_elem_of_filter. destruct (I7 u Hu) as [lim' Hl]. exists lim'. by rewrite fn_insert_ne.
  - intros u. destruct (decide (u = t)) as [->|]; rewrite ?fn_insert_eq, ?fn_insert_ne by done; [done|]. intros Ha. change (len s') with (len s). rewrite LA. pose proof (I8 u Ha). lia.
  - intros _. change (len s') with (len s). rewrite LA, LB. pose proof (I9 Hne). lia.
  - intros u Hc. destruct (decide (u = t)) as [->|]; rewrite ?fn_insert_eq, ?fn_insert_ne by done; [done|]. intros Ha. destruct (I10 u Hc Ha) as (v & m & Hv). exists v, m.
    rewrite fn_insert_ne; [done|]. intros E. by rewrite <-E, Hp in Hv.
  - intros Hc _. destruct (I11 Hc Hne) as [u Hu]. exists u. rewrite fn_insert_ne; [done|]. intros E. by rewrite <-E, Hp in Hu.
Qed.
(** *** The steps *)

Definition good (st : @istatus (@op T) (@res T)) (s' : @waiter T) p' : Prop :=
  ∃ g' q' st', lmove closable_queue q st q' st' ∧ Inv g' s' (<[t:=p']> pcs) q' ∧ stat g' p' st' ∧
    (∀ u st, u ≠ t → stat tt (pcs u) st → stat g' (pcs u) st).

Lemma goodI s' p' q' st st' : lmove closable_queue q st q' st' → Inv tt s' (<[t:=p']> pcs) q' → stat tt p' st' → good st s' p'.
Proof. intros H1 H2 H3. exists tt, q', st'. done. Qed.

Lemma not_asleep p : pcs t = p → match p with Asleep _ _ => False | _ => True end → t ∉ asleep s.
Proof. intros Hp Hk Hin. destruct (iv_asleep _ _ _ _ HI t Hin) as [lim E]. rewrite Hp in E. by rewrite E in Hk. Qed.

Lemma spin_nobody : policy_ cf = spin → waiters_ s = 0.
Proof.
  intros Hsp. rewrite (iv_ann _ _ _ _ HI), (tsum_ext _ _ (λ _, 0)); [clear; induction N; simpl; lia|].
  intros u _. pose proof (tk_spin _ _ _ (iv_thread _ _ _ _ HI u) Hsp) as H. destruct (pcs u); done.
Qed.

(** A step that changes neither the queue nor who sleeps. *)
Lemma still_step p p' s' st : pcs t = p → is_idle p = false → elems s' = elems s → epoch_ s' = epoch_ s → bumps s' = bumps s → asleep s' = asleep s →
  waiters_ s' = waiters_ s - ann p + ann p' → closed_ s' = closed_ s → closer p = false → thread_ok s' t p' → t ∉ asleep s →
  wB p = 0 → wB p' = 0 → wA p + live s t p ≤ wA p' + live s t p' → (about s p' → about s p) → (cabout s p' → cabout s p ∨ closed_ s = false) →
  stat tt p' st → good st s' p'.
Proof.
  intros Hp Hid E0 E1 E2 E3 E4 E5 Hcl Hth Has Hb Hb' Hle Hab Hcab Hst. apply (goodI s' p' q st st); [constructor| |done].
  rewrite (iv_abs _ _ _ _ HI), <-E0, <-E5. eapply inv_gen; eauto; rewrite ?E5; auto.
  left. unfold len. rewrite E0. lia.
Qed.

(** What a look at the queue does to the object. *)
Definition popping (o : @op T) : Prop := match o with TryPop | Wait _ | WaitFor _ _ => True | _ => False end.

Lemma look_some v l o ws : elems s = v :: l → popping o → lmove closable_queue q (ICalled o ws) (WQueue l (closed_ s)) (IDone (RPop (Some v))).
Proof. intros E Ho. apply lmove_lin. rewrite (iv_abs _ _ _ _ HI). simpl. destruct o; try done; simpl; rewrite E; done. Qed.

Lemma look_none o : elems s = [] → popping o → ((∃ me, o = Wait me) → closed_ s = true) → sp_step closable_queue q o (RPop None) q.
Proof.
  intros E Ho Hc. rewrite (iv_abs _ _ _ _ HI). simpl. destruct o; try done; simpl; rewrite E; split_and!; try done. intros _. apply Hc. eauto.
Qed.

(** A look that finds an element. *)
Lemma got_step p p' v l st : pcs t = p → is_idle p = false → elems s = v :: l → (∃ o ws, st = ICalled o ws ∧ popping o) →
  (p' = PcDone (RPop (Some v)) ∧ ann p = 0 ∨ p' = CancelRet (RPop (Some v)) ∧ ann p = 1) → wA p = 0 → wB p = 0 → live s t p ≤ 1 → closer p = false →
  t ∉ asleep s → (parking p = false → parking p' = false) → good st (set_elems s l) p'.
Proof.
  intros Hp Hid He (o & ws & -> & Ho) Hp' Hwa Hwb Hli Hcl Has Hpk. pose proof (at_thread _ Hp) as Htk.
  apply (goodI _ _ (WQueue l (closed_ s)) _ (IDone (RPop (Some v)))); [by apply look_some| |by destruct Hp' as [[-> _]|[-> _]]].
  apply (inv_gen p p' (set_elems s l)); try done; try (by destruct Hp' as [[-> _]|[-> _]]).
  - destruct Hp' as [[-> ->]|[-> ->]]; simpl; lia.
  - by left.
  - assert (policy_ cf = spin → parking p' = false) as Hsp by (intros E; apply Hpk, (tk_spin _ _ _ Htk E)).
    clear Hp. destruct Hp' as [[-> _]|[-> _]]; fresh_thread; by apply Hsp.
  - left. unfold len. simpl. rewrite He. simpl. destruct Hp' as [[-> _]|[-> _]]; simpl; lia.
Qed.

(** A look that finds nothing. *)
Lemma empty_step p p' st st' : pcs t = p → is_idle p = false → elems s = [] → lmove closable_queue q st q st' → ann p' = ann p → wA p = 0 → wB p = 0 → wB p' = 0 →
  closer p = false → t ∉ asleep s → thread_ok s t p' → (cabout s p' → cabout s p ∨ closed_ s = false) → stat tt p' st' → good st s p'.
Proof.
  intros Hp Hid He Hm Han Hwa Hwb Hwb' Hcl Has Hth Hcab Hst. apply (goodI _ _ q _ st'); [done| |done].
  rewrite (iv_abs _ _ _ _ HI). eapply inv_gen; eauto; lia.
Qed.
Lemma step_notify c p s' p' st : pcs t = p → match p with PubPublish _ | NotLoad _ => True | _ => False end → stat tt p st →
  notify_step cf c s p = Some (s', p') → good st s' p'.
Proof.
  intros Hp Hk Hst Hstep. pose proof (at_thread _ Hp) as Htk. destruct p as [| |vs|n| | | | | | | | | | | | | | | | | | | | | | | |]; try done; simpl in Hstep, Hst; injection Hstep as <- <-.
  - assert (t ∉ asleep s) as Has by (by eapply not_asleep). subst st.
    apply (goodI _ _ (WQueue (elems s ++ vs) (closed_ s)) _ (IDone RUnit)); [apply lmove_lin; by rewrite (iv_abs _ _ _ _ HI)| |].
    2:{ unfold notify. by destruct (bool_decide _ || _). }
    assert (len (set_elems s (elems s ++ vs)) = len s + Z.of_nat (length vs)) as El by (unfold len; simpl; rewrite length_app; lia).
    unfold notify. destruct (bool_decide (policy_ cf = spin)) eqn:Es; [|destruct (Z.eqb_spec (Z.of_nat (length vs)) 0)]; simpl.
    all: apply (inv_gen _ _ (set_elems s (elems s ++ vs)) Hp); simpl; try done; try lia; try (by left); try fresh_thread; try lia.
    + apply bool_decide_eq_true in Es. right; right. split; [by apply spin_nobody|done].
    + by apply bool_decide_eq_false in Es.
  - assert (t ∉ asleep s) as Has by (by eapply not_asleep). pose proof (tk_not _ _ _ Htk n eq_refl) as Hn.
    destruct (Z.eqb_spec (waiters_ s) 0) as [E|E].
    + apply (goodI _ _ q st st); [constructor| |done]. rewrite (iv_abs _ _ _ _ HI).
      apply (inv_gen _ _ s Hp); simpl; try done; try lia; try (by left); fresh_thread.
    + apply (still_step _ _ _ _ Hp); simpl; try done; try lia. pose proof (tk_spin _ _ _ Htk). fresh_thread; auto. split; [done|]. destruct (Z.ltb_spec INT_MAX m); lia.
Qed.

Lemma step_close p s' p' st : pcs t = p → match p with CloseStore | ClosedLoad => True | _ => False end → stat tt p st →
  close_step s p = Some (s', p') → good st s' p'.
Proof.
  intros Hp Hk Hst Hstep. assert (t ∉ asleep s) as Has by (eapply not_asleep; [done|by destruct p]).
  destruct p; try done; simpl in Hstep, Hst; injection Hstep as <- <-; subst st.
  - apply (goodI _ _ (WQueue (elems s) true) _ (IDone RUnit)); [apply lmove_lin; by rewrite (iv_abs _ _ _ _ HI)| |done].
    apply (inv_gen _ _ (set_closed s) Hp); simpl; try done; try lia; try fresh_thread; [right; eauto|left; unfold len; simpl; lia].
  - apply (goodI _ _ q _ (IDone (RBool (closed_ s)))); [apply lmove_lin; by rewrite (iv_abs _ _ _ _ HI)| |done].
    rewrite (iv_abs _ _ _ _ HI). apply (inv_gen _ _ s Hp); simpl; try done; try lia; try fresh_thread; by left.
Qed.

Lemma step_wake c p s' p' st : pcs t = p → match p with WakeBump _ _ | WakeCall _ _ => True | _ => False end → stat tt p st →
  wake_step c s p = Some (s', p') → good st s' p'.
Proof.
  intros Hp Hk Hst Hstep. destruct p as [| | | |n h|n h| | | | | | | | | | | | | | | | | | | | | |]; try done; simpl in Hstep, Hst.
  - injection Hstep as <- <-. apply (goodI _ _ q st st); [constructor| |done]. rewrite (iv_abs _ _ _ _ HI). by apply inv_bump.
  - case_decide as E; [|done]. injection Hstep as <- <-. destruct E as (E1 & E2 & E3). apply (goodI _ _ q st st); [constructor| |done].
    rewrite (iv_abs _ _ _ _ HI). by eapply inv_wake.
Qed.

(** The status of a waiting pop, and its answers. *)
Lemma waiting_popping me lim st : waiting me lim st → ∃ o ws, st = ICalled o ws ∧ popping o.
Proof. intros [(l & ws & ->)|(_ & ws & ->)]; eexists _, _; done. Qed.

Lemma waiting_closed me lim st : waiting me lim st → elems s = [] → closed_ s = true → lmove closable_queue q st q (IDone (RPop None)).
Proof. intros Hw He Hc. destruct (waiting_popping _ _ _ Hw) as (o & ws & -> & Ho). apply lmove_lin. by apply look_none. Qed.

Lemma waiting_see me u st : waiting me (Some u) st → elems s = [] →
  ∃ limit ws, lmove closable_queue q st q (ICalled (WaitFor me limit) ws) ∧ RPop None ∈ ws.
Proof.
  intros [(l & ws & ->)|(? & _)] He; [|done]. exists l, (RPop None :: ws). split; [|by left].
  eapply lmove_see; [|constructor]. apply look_none; try done. by intros [? ?].
Qed.

(** The waiting pops' program counters. *)
Definition looking p : Prop := match p with TryLook | ForLook _ _ | SpinLook _ _ _ _ | ParkLook _ _ _ | LastLook _ _ _ _ _ _ => True | _ => False end.

Lemma step_look_got c p v l s' p' st : pcs t = p → looking p → stat tt p st → elems s = v :: l → step cf c s p = Some (s', p') → good st s' p'.
Proof.
  intros Hp Hk Hst He Hstep. assert (t ∉ asleep s) as Has by (eapply not_asleep; [done|by destruct p]).
  assert (∃ o ws, st = ICalled o ws ∧ popping o) as Ho.
  { destruct p as [| | | | | | | | | | | | | |? [?|] ?| | | | | | | | | | | | |]; try done; simpl in Hst; try (by eapply waiting_popping).
    - subst. eexists _, _. done.
    - destruct Hst as [ws ->]. eexists _, _. done. }
  assert (s' = set_elems s l ∧ (p' = PcDone (RPop (Some v)) ∧ ann p = 0 ∨ p' = CancelRet (RPop (Some v)) ∧ ann p = 1)) as [-> Hp'].
  { destruct p; try done; simpl in Hstep; unfold look in Hstep; rewrite He in Hstep; injection Hstep as <- <-; split; auto. }
  eapply got_step; eauto; try (by destruct p).
  intros Hpk. destruct Hp' as [[-> _]|[-> Ha]]; [done|]. by destruct p.
Qed.

Lemma step_look_empty c p s' p' st : pcs t = p → looking p → stat tt p st → elems s = [] → step cf c s p = Some (s', p') → good st s' p'.
Proof.
  intros Hp Hk Hst He Hstep. assert (t ∉ asleep s) as Has by (eapply not_asleep; [done|by destruct p]). pose proof (at_thread _ Hp) as Htk.
  assert (∀ p' st', s' = s → lmove closable_queue q st q st' → ann p' = ann p → wB p' = 0 → thread_ok s t p' → (cabout s p' → cabout s p ∨ closed_ s = false) →
    stat tt p' st' → good st s' p') as Hgo.
  { intros p2 st' -> Hm H1 H2 H3 H4 H5. eapply empty_step; eauto; by destruct p. }
  pose proof (tk_saw _ _ _ Htk) as Hsaw. pose proof (tk_me _ _ _ Htk) as Hme. pose proof (tk_spin _ _ _ Htk) as Hsp.
  destruct p as [ | | | | | | | | |me limit| | | |me lim start wc| | |me lim wc| | | | |me lim l key kb wc| | | | | | ]; try done;
    simpl in Hstep, Hst, Hsaw, Hme, Hsp; unfold look in Hstep; rewrite He in Hstep; injection Hstep as <- <-.
  - subst st. apply (Hgo _ (IDone (RPop None))); try done; [|fresh_thread]. apply lmove_lin. apply look_none; try done. by intros [? ?].
  - destruct Hst as [ws ->]. assert (me = t) as -> by auto. destruct (limit <=? 0); [|destruct (kForeverNs <? limit); [unfold wait_until; case_decide|]].
    + apply (Hgo _ (IDone (RPop None))); try done; [|fresh_thread]. apply lmove_lin. apply look_none; try done. by intros [? ?].
    + eapply Hgo; [done|constructor|done|done|fresh_thread; congruence|done|]. left. eauto.
    + eapply Hgo; [done|constructor|done|done|fresh_thread|done|]. left. eauto.
    + eapply Hgo; [done|constructor|done|done|fresh_thread|done|]. simpl. eauto.
  - assert (me = t) as -> by auto. destruct wc.
    + apply (Hgo _ (IDone (RPop None))); try done; [|fresh_thread]. eapply waiting_closed; eauto.
    + destruct lim as [u|].
      * destruct (waiting_see _ _ _ Hst He) as (lt & ws & Hm & Hin). eapply Hgo; [done|exact Hm|done|done|fresh_thread|done|]. simpl. eauto.
      * eapply Hgo; [done|constructor|done|done|fresh_thread|done|done].
  - assert (me = t) as -> by auto. destruct wc.
    + apply (Hgo _ (IDone (RPop None))); try done; [|fresh_thread]. eapply waiting_closed; eauto.
    + destruct lim as [u|].
      * destruct (waiting_see _ _ _ Hst He) as (lt & ws & Hm & Hin). eapply Hgo; [done|exact Hm|done|done|fresh_thread|done|]. simpl. eauto.
      * eapply Hgo; [done|constructor|done|done|fresh_thread|done|done].
  - assert (me = t) as -> by auto. destruct wc.
    + apply (Hgo _ (IDone (RPop None))); try done; [|fresh_thread]. eapply waiting_closed; eauto.
    + eapply Hgo; [done|constructor|done|done| |by left|done]. destruct Htk as [T1 T2 T3 T4 T5 T6 T7]. fresh_thread.
Qed.
(** The program counters of a waiting pop that do not look at the queue. *)
Definition between p : Prop :=
  match p with
  | ForClock _ _ | SpinStart _ _ | SpinClosed _ _ _ | SpinClock _ _ _ | ParkClosed _ _ | ParkClock _ _ | Prepare _ _ _ | PrepEpoch _ _ _
  | LastClosed _ _ _ _ _ | ParksAdd _ _ _ _ _ | SleepCheck _ _ _ _ _ | CancelLoop _ _ | CancelRet _ => True
  | _ => False
  end.

Ltac finish := solve [simpl; lia|simpl; rewrite ?u32_small; lia|fresh_thread; auto; first [congruence|split; [done|lia]]|left; eauto|simpl; case_decide; lia].

Lemma step_between c p s' p' st : pcs t = p → between p → stat tt p st → step cf c s p = Some (s', p') → good st s' p'.
Proof.
  intros Hp Hk Hst Hstep. assert (t ∉ asleep s) as Has by (eapply not_asleep; [done|by destruct p]). pose proof (at_thread _ Hp) as Htk.
  pose proof waiters_range as Hwr. pose proof (tk_me _ _ _ Htk) as Hme. pose proof (tk_spin _ _ _ Htk) as Hsp. pose proof (tk_key _ _ _ Htk) as Hkey.
  assert (ann p ≤ waiters_ s) as Hann.
  { rewrite (iv_ann _ _ _ _ HI), <-Hp. apply (tsum_one N (λ u, ann (pcs u))); [intros; apply ann_range|]. apply (below p Hp). by destruct p. }
  assert (∀ p', s' = s → ann p' = ann p → wB p' = 0 → live s t p ≤ live s t p' → wA p' = 0 → (about s p' → about s p) → (cabout s p' → cabout s p ∨ closed_ s = false) →
    thread_ok s t p' → stat tt p' st → good st s' p') as Hgo.
  { intros p2 -> H1 H2 H3 H4 H5 H6 H7 H8. eapply still_step; eauto; try (by destruct p); [lia|]. rewrite H4. destruct p; try done; lia. }
  assert (∀ st', s' = s → lmove closable_queue q st q st' → st' = IDone (RPop None) → ann p = 0 → live s t p = 0 → good st s' (PcDone (RPop None))) as Hend.
  { intros st' -> Hm -> Ha Hl. apply (goodI _ _ q _ (IDone (RPop None))); [done| |done]. rewrite (iv_abs _ _ _ _ HI).
    eapply inv_gen; eauto; try (by destruct p); [simpl; lia|left; split; [done|by destruct p]|clear Hp; fresh_thread|].
    left. simpl. assert (wA p = 0) by (by destruct p). lia. }
  destruct p as [ | | | | | | | | | |me limit|me lim|me lim start| |me lim start|me lim| |me u|me lim l|me lim l|me lim l key kb| |me lim l key kb|me lim l key kb| | |me lim|r]; try done;
    simpl in Hstep, Hst, Hme, Hsp, Hkey, Hann; injection Hstep as <- <-; try (assert (me = t) as -> by auto).
  - destruct Hst as [ws ->]. unfold wait_until. case_decide; (apply Hgo; try done; finish).
  - apply Hgo; try done; finish.
  - apply Hgo; try done; finish.
  - destruct lim as [u|]; simpl.
    + destruct Hst as (lt & ws & -> & Hin). destruct (passed u (ticks c)); [eapply Hend; [done|by apply lmove_commit|done|done|done]|].
      repeat (case_match || case_decide); (apply Hgo; try done; finish).
    + repeat (case_match || case_decide); (apply Hgo; try done; finish).
  - apply Hgo; try done; finish.
  - destruct Hst as (lt & ws & -> & Hin). destruct (passed u (ticks c)); [eapply Hend; [done|by apply lmove_commit|done|done|done]|].
    apply Hgo; try done; finish.
  - eapply (still_step _ _ (set_waiters s (waiters_ s ⊕₃₂ 1))); eauto; simpl; try done; try lia; finish.
  - pose proof (iv_epoch _ _ _ _ HI). apply Hgo; try done; finish.
  - apply Hgo; try done; solve [finish|simpl; destruct (closed_ s); [done|by right]].
  - eapply (still_step _ _ (set_parks s (parks_ s ⊕₆₄ 1))); eauto; simpl; try done; try lia; finish.
  - destruct (negb (epoch_ s =? key)).
    + apply Hgo; try done; finish.
    + apply Hgo; try done; solve [finish|auto].
  - eapply (still_step _ _ (set_waiters s (waiters_ s ⊖₃₂ 1))); eauto; simpl; try done; try lia; finish.
  - eapply (still_step _ _ (set_waiters s (waiters_ s ⊖₃₂ 1))); eauto; simpl; try done; try lia; finish.
Qed.

Lemma step_sleep c p s' p' st : (∀ k b, key_of p = Some (k, b) → bumps s - b < 2 ^ 32) → pcs t = p → match p with SleepCall _ _ _ _ _ | Asleep _ _ => True | _ => False end →
  stat tt p st → sleep_step c s p = Some (s', p') → good st s' p'.
Proof.
  intros Hw Hp Hk Hst Hstep. pose proof (at_thread _ Hp) as Htk. pose proof (tk_me _ _ _ Htk) as Hme. pose proof (tk_key _ _ _ Htk) as Hkey. pose proof (tk_spin _ _ _ Htk) as Hsp.
  destruct p as [ | | | | | | | | | | | | | | | | | | | | | | | |me lim l key kb|me lim| |]; try done; simpl in Hstep, Hst, Hkey, Hsp; (assert (me = t) as -> by auto).
  - destruct (Z.eqb_spec (epoch_ s) key) as [E|E]; simpl in Hstep; injection Hstep as <- <-.
    + apply (goodI _ _ q st st); [constructor| |done]. rewrite (iv_abs _ _ _ _ HI). eapply inv_sleep; eauto.
      destruct (Hkey key kb eq_refl) as [E1 E2]. rewrite (iv_epoch _ _ _ _ HI) in E. symmetry. apply u32_inj_near; [|congruence].
      specialize (Hw _ _ eq_refl). lia.
    + eapply (still_step _ _ s); eauto; simpl; try done; try lia; [fresh_thread; auto|by eapply not_asleep|case_decide; lia].
  - case_decide as E.
    + injection Hstep as <- <-. eapply (still_step _ _ s); eauto; simpl; try done; try lia; [fresh_thread; auto|case_decide; lia].
    + destruct (spurious c); [|done]. injection Hstep as <- <-. apply (goodI _ _ q st st); [constructor| |done]. rewrite (iv_abs _ _ _ _ HI).
      apply inv_return; [done|]. destruct (decide (t ∈ asleep s)); done.
Qed.

Lemma wait_step_good c st s' p' : (∀ k b, key_of (pcs t) = Some (k, b) → bumps s - b < 2 ^ 32) → stat tt (pcs t) st → step cf c s (pcs t) = Some (s', p') → good st s' p'.
Proof.
  intros Hw Hst Hstep. remember (pcs t) as p eqn:Hp. symmetry in Hp.
  assert (looking p ∨ ¬ looking p) as [Hl|Hl] by (destruct p; simpl; tauto).
  - destruct (elems s) as [|v l] eqn:He; [by eapply step_look_empty|by eapply step_look_got].
  - destruct p; try done; try (by destruct Hl); try (by eapply step_between); simpl in Hstep;
      first [by eapply (step_notify c)|by eapply step_close|by eapply (step_wake c)|by eapply (step_sleep c)].
Qed.
End one_step.

Lemma wait_inv_init : Inv tt waiter0 (λ _, PcIdle) (WQueue [] false).
Proof.
  split; simpl; try done; solve [clear; induction N; simpl; lia|intros u; fresh_thread|apply NoDup_nil_2|by intros u ?%not_elem_of_nil].
Qed.

(** An operation begins or returns. *)
Lemma inv_entry s pcs q t p' : Inv tt s pcs q → (pcs t = PcIdle ∧ (t < N)%nat ∨ ∃ r, pcs t = PcDone r ∧ p' = PcIdle) → ann p' = 0 → wA p' = 0 → wB p' = 0 →
  thread_ok s t p' → Inv tt s (<[t:=p']> pcs) q.
Proof.
  intros HI Hp Ha HA HB Hth. pose proof HI as [I1 I2 I3 I4 I5 I6 I7 I8 I9 I10 I11].
  assert (t < N)%nat as Ht by (destruct Hp as [[_ ?]|(r & Hp & _)]; [done|by eapply below]).
  assert (wA (pcs t) = 0 ∧ wB (pcs t) = 0 ∧ live s t (pcs t) = 0 ∧ ann (pcs t) = 0 ∧ closer (pcs t) = false) as (P1 & P2 & P3 & P4 & P5)
    by (by destruct Hp as [[-> _]|(r & -> & _)]).
  pose proof (live_nonneg s t p'). pose proof (lA_step s pcs t (pcs t) p' s eq_refl Ht eq_refl eq_refl) as LA. pose proof (lB_step pcs t (pcs t) p' eq_refl Ht) as LB.
  assert (∀ u, <[t:=p']> pcs u = pcs u ∨ (u = t ∧ <[t:=p']> pcs u = p')) as Hcase.
  { intros u. destruct (decide (u = t)) as [->|]; rewrite ?fn_insert_eq, ?fn_insert_ne by done; auto. }
  split; try done.
  - rewrite (ann_step s pcs q t HI (pcs t) p' eq_refl Ht). lia.
  - intros u Hu. rewrite fn_insert_ne by lia. auto.
  - intros u. by_thread t u; done.
  - intros u Hu. destruct (I7 u Hu) as [lim Hl]. exists lim. rewrite fn_insert_ne; [done|]. intros ->. rewrite Hl in P4. done.
  - intros u. destruct (Hcase u) as [->|[-> ->]]; [intros Hab; pose proof (I8 u Hab); lia|intros Hab%about_ann; lia].
  - intros Hne. pose proof (I9 Hne). lia.
  - intros u Hc Hab. assert (cabout s (pcs u)) as Hab'.
    { destruct (Hcase u) as [E|[-> E]]; rewrite E in Hab; [done|]. destruct p'; done. }
    destruct (I10 u Hc Hab') as (v & n & Hv). exists v, n. rewrite fn_insert_ne; [done|]. intros ->. by rewrite Hv in P5.
  - intros Hc Hne. destruct (I11 Hc Hne) as [v Hv]. exists v. rewrite fn_insert_ne; [done|]. intros ->. congruence.
Qed.

Lemma wait_lin_proof : lin_proof M closable_queue window Inv stat.
Proof.
  split.
  - exists tt. split; [apply wait_inv_init|done].
  - intros [] s pcs q t o HI Hid Hm. simpl in *. destruct (pcs t) eqn:Hp; try done. split; [by intros st ->|].
    apply andb_prop in Hm as [Ht%Nat.ltb_lt Hm].
    assert (thread_ok s t (enter cf o)) as Hth.
    { destruct o; simpl; unfold wait_until; repeat case_decide; try (apply Nat.eqb_eq in Hm); fresh_thread; congruence. }
    split.
    + apply inv_entry; try done; [by left| | |]; unfold enter, wait_until; destruct o; repeat case_decide; done.
    + destruct o; simpl; try done; [|by eexists]. unfold wait_until. case_decide; right; eauto.
  - intros [] s pcs q t r HI Hr. simpl in *. destruct (pcs t) eqn:Hp; simplify_eq/=. split; [by intros st ->|]. split; [|done].
    apply inv_entry; try done; [by right; eauto|]. fresh_thread.
  - intros [] s pcs q t c s' p' st HP HI Hst Hstep. exact (wait_step_good s pcs q t HI c st s' p' (HP t) Hst Hstep).
Qed.
Local Abbreviation runs := (restrict (mlts M) window).

Lemma wait_reach m : reachable runs m → ∃ q, Inv tt (ms_shared m) (ms_pcs m) q.
Proof. intros H. destruct (lin_reachable _ _ _ _ _ wait_lin_proof m H) as ([] & q & HI). eauto. Qed.

(** ** The properties *)

(** C24: A waiting pop is a pop: every history of publishes, non-blocking pops,
    waiting pops with and without a limit, and closes, is a history of the
    atomic queue that may be closed, in which a pop without a limit answers
    nothing only when the queue is closed and empty, and one with a limit
    only when it is empty at an instant of the call. *)
Theorem wait_linearisable tr : history runs tr → history (atomic closable_queue) tr.
Proof. apply (linearisable _ _ _ _ _ wait_lin_proof). Qed.

(** At every instant at which a consumer sleeps, the elements in the queue
    are at most the wake-ups publishers have still to deliver plus the
    consumers sure to look at the queue before they sleep or return; and if
    the waiter is closed, a close has still to wake the sleepers. *)
Theorem wakeups_cover m : reachable runs m → asleep (ms_shared m) ≠ [] →
  len (ms_shared m) ≤ tsum N (λ t, wA (ms_pcs m t) + wB (ms_pcs m t) + live (ms_shared m) t (ms_pcs m t)) ∧
  (closed_ (ms_shared m) = true → ∃ u, closer (ms_pcs m u) = true).
Proof.
  intros (q & HI)%wait_reach Hne. split; [|intros Hc; by apply (iv_csleep _ _ _ _ HI)].
  pose proof (iv_sleep _ _ _ _ HI Hne) as H. unfold lA, lB in H. rewrite <-tsum_add in H. etrans; [exact H|]. apply tsum_le. intros; lia.
Qed.

(** C25: No wake-up is lost: when every thread has returned or sleeps in the
    kernel, and one sleeps, the queue is empty and not closed. *)
Theorem no_lost_wakeup m : reachable runs m → (∀ t, ms_pcs m t = PcIdle ∨ t ∈ asleep (ms_shared m)) → asleep (ms_shared m) ≠ [] →
  elems (ms_shared m) = [] ∧ closed_ (ms_shared m) = false.
Proof.
  intros (q & HI)%wait_reach Hq Hne.
  assert (∀ t, wA (ms_pcs m t) = 0 ∧ wB (ms_pcs m t) = 0 ∧ live (ms_shared m) t (ms_pcs m t) = 0 ∧ closer (ms_pcs m t) = false) as Hz.
  { intros t. destruct (Hq t) as [->|Ht]; [done|]. destruct (iv_asleep _ _ _ _ HI t Ht) as [lim ->]. simpl. by rewrite decide_True. }
  split.
  - pose proof (iv_sleep _ _ _ _ HI Hne) as H. unfold lA, lB in H.
    assert (∀ f, (∀ t, f t = 0) → tsum N f = 0) as E by (intros f Hf; clear -Hf; induction N as [|n IH]; simpl; [done|]; rewrite IH, Hf; done).
    rewrite !E in H by (intros t; destruct (Hz t) as (? & ? & ? & _); lia). unfold len in H. destruct (elems (ms_shared m)); [done|simpl in H; lia].
  - destruct (closed_ (ms_shared m)) eqn:Hc; [|done]. destruct (iv_csleep _ _ _ _ HI Hc Hne) as [u Hu]. destruct (Hz u) as (_ & _ & _ & E). congruence.
Qed.

(** [waiters_] is the number of consumers announced, never wraps, and is
    zero once all have returned; on a queue whose policy is [spin] no
    consumer is ever announced, sleeps or is woken. *)
Theorem announced m : reachable runs m →
  waiters_ (ms_shared m) = tsum N (λ t, ann (ms_pcs m t)) ∧ 0 ≤ waiters_ (ms_shared m) ≤ Z.of_nat N ∧
  (policy_ cf = spin → waiters_ (ms_shared m) = 0 ∧ asleep (ms_shared m) = [] ∧ ∀ t n k, ms_pcs m t ≠ WakeBump n (Some k)).
Proof.
  intros (q & HI)%wait_reach. split_and!; try apply (waiters_range _ _ _ HI); [apply (iv_ann _ _ _ _ HI)|].
  intros Hsp. pose proof (spin_nobody _ _ _ HI Hsp) as H0. split_and!; [done| |].
  - destruct (asleep (ms_shared m)) as [|u l] eqn:El; [done|]. pose proof (asleep_ann _ _ _ HI u ltac:(rewrite El; by left)) as H.
    rewrite (unannounced _ _ _ HI) in H by done. lia.
  - intros t n k E. pose proof (tk_spin _ _ _ (iv_thread _ _ _ _ HI t) Hsp) as H. by rewrite E in H.
Qed.
End proof.

(** The conversion of a limit to ticks is exact and does not wrap, for any
    limit up to [kForeverNs] on a processor of up to 10 GHz, and the limit
    has passed, in the wrapped arithmetic of the tick counter, exactly when
    that many ticks have: for as long as the counter has not gone 2^62 past. *)
Theorem limit_exact cf ns now now' : 0 < ticks_per_ms cf ≤ 10000000 → 0 ≤ ns ≤ kForeverNs → now ≤ now' < now + 2 ^ 62 →
  to_ticks cf ns = ns * ticks_per_ms cf / 1000000 ∧
  (passed (u64 now ⊕₆₄ to_ticks cf ns) (u64 now') = true ↔ now + ns * ticks_per_ms cf / 1000000 ≤ now').
Proof.
  intros Hp Hns Hnow. unfold kForeverNs in Hns. pose proof (Z.div_mod ns 1000000 ltac:(lia)) as Hdm. pose proof (Z.mod_pos_bound ns 1000000 ltac:(lia)) as Hmb.
  set (a := ns / 1000000) in *. set (b := ns mod 1000000) in *. set (p := ticks_per_ms cf) in *.
  assert (ns * p / 1000000 = a * p + b * p / 1000000) as E.
  { replace (ns * p) with (b * p + a * p * 1000000) by nia. rewrite Z.div_add by lia. lia. }
  assert (0 ≤ a ≤ 100000000000) as Ha by lia. assert (0 ≤ a * p ≤ 1000000000000000000) as Hap by nia. assert (0 ≤ b * p < 10000000000000) as Hbp by nia.
  assert (0 ≤ b * p / 1000000 < 10000000) as Hq by (split; [apply Z.div_pos; lia|apply Z.div_lt_upper_bound; lia]).
  assert (to_ticks cf ns = ns * p / 1000000) as Et.
  { unfold to_ticks. fold a b p. rewrite E, !(u64_small (_ * _)) by lia. apply u64_small. lia. }
  split; [done|]. rewrite Et, E. set (d := a * p + b * p / 1000000) in *. unfold passed.
  assert (i64 (u64 (u64 now + d) - u64 now') = now + d - now') as ->; [|rewrite Z.leb_le; lia].
  unfold i64. assert (u64 (u64 (u64 now + d) - u64 now') = u64 (now + d - now')) as ->.
  { unfold u64. rewrite Zminus_mod_idemp_l, Zminus_mod_idemp_r. rewrite <-(Zminus_mod_idemp_l (_ + d)), Zplus_mod_idemp_l, Zminus_mod_idemp_l. done. }
  unfold u64. destruct (decide (0 ≤ now + d - now')).
  - rewrite Z.mod_small by lia. destruct (Z.ltb_spec (now + d - now') (2 ^ 63)); lia.
  - rewrite <-(Z_mod_plus_full _ 1), Z.mod_small by lia. destruct (Z.ltb_spec (now + d - now' + 1 * 2 ^ 64) (2 ^ 63)); lia.
Qed.

(** At 10 GHz a limit of sixty years wraps: the bound the comment of
    [to_ticks] gives, five hundred years, is that of a 1 GHz counter. *)
Example to_ticks_wraps : let cf := Config park 4000 10000000 in let ns := 60 * 365 * 86400 * 1000000000 in
  ns < 2 ^ 64 ∧ to_ticks cf ns < ns * ticks_per_ms cf / 1000000.
Proof. vm_compute. done. Qed.

(** ** A run the theorems apply to

    A queue that parks; threads 1 and 2 wait and fall asleep; thread 0
    publishes 7, which wakes thread 1; thread 1 takes it and returns. *)

Definition demo_cf : config := Config park kSpinNs 3000000.
Abbreviation demo_machine := (@wait_machine Z demo_cf 3).
Definition go (t n : nat) (w : list nat) : list (action (@op Z) choice) := replicate n (AStep t (Choice 100 false w)).
Definition demo_part : list (action (@op Z) choice) :=
  [ACall 1 (Wait 1)] ++ go 1 9 [] ++ [ACall 2 (Wait 2)] ++ go 2 9 [] ++ [ACall 0 (Publish [7])] ++ go 0 3 [].
Definition demo : list (action (@op Z) choice) := demo_part ++ go 0 1 [1%nat] ++ [ARet 0%nat] ++ go 1 4 [] ++ [ARet 1%nat].
Definition demo_history : list (event (@op Z) (@res Z)) :=
  [Call 1 (Wait 1); Call 2 (Wait 2); Call 0 (Publish [7]); Ret 0 RUnit; Ret 1 (RPop (Some 7))].

Definition windowb (sh : @waiter Z) (p : @pc Z) : bool := match key_of p with Some (_, b) => bumps sh - b <? 2 ^ 32 | None => true end.

Lemma demo_along l : alongb demo_machine 3 windowb l (m_start demo_machine) = true → along demo_machine (window demo_cf 3) l (m_start demo_machine).
Proof.
  apply alongb_along; [|done..]. intros m H t k b Hk. specialize (H t). unfold windowb in H. simpl in *. rewrite Hk in H. lia.
Qed.

Lemma demo_state l e : exec_events demo_machine l = Some e → alongb demo_machine 3 windowb l (m_start demo_machine) = true →
  reachable (restrict (mlts demo_machine) (window demo_cf 3)) (exec_final demo_machine l).
Proof.
  intros He Ha. exists (m_start demo_machine), e. split; [split; [done|by intros t k b ?]|]. apply exec_final_along; [done|by apply demo_along].
Qed.

Lemma wait_linearisable_witness : history (atomic closable_queue) demo_history.
Proof.
  apply (wait_linearisable demo_cf 3 ltac:(lia)).
  apply (exec_history_along demo_machine _ demo); [vm_compute; reflexivity|]. apply demo_along. vm_compute. reflexivity.
Defined.

(** Between the bump of the epoch and the system call both consumers sleep
    and the element waits for the wake-up. *)
Lemma wakeups_cover_witness :
  len (ms_shared (exec_final demo_machine demo_part)) = 1 ∧ asleep (ms_shared (exec_final demo_machine demo_part)) = [2; 1]%nat ∧
  len (ms_shared (exec_final demo_machine demo_part)) ≤
    tsum 3 (λ t, wA (ms_pcs (exec_final demo_machine demo_part) t) + wB (ms_pcs (exec_final demo_machine demo_part) t) +
                 live (ms_shared (exec_final demo_machine demo_part)) t (ms_pcs (exec_final demo_machine demo_part) t)).
Proof.
  split; [vm_compute; reflexivity|]. split; [vm_compute; reflexivity|].
  apply (wakeups_cover demo_cf 3 ltac:(lia) (exec_final demo_machine demo_part)).
  - eapply demo_state; vm_compute; reflexivity.
  - vm_compute. discriminate.
Defined.

Lemma no_lost_wakeup_witness : asleep (ms_shared (exec_final demo_machine demo)) = [2%nat] ∧ elems (ms_shared (exec_final demo_machine demo)) = [].
Proof.
  split; [vm_compute; reflexivity|]. apply (no_lost_wakeup demo_cf 3 ltac:(lia) (exec_final demo_machine demo)).
  - eapply demo_state; vm_compute; reflexivity.
  - intros t. destruct (decide (t = 2%nat)) as [->|Ht]; [right; vm_compute; by left|left].
    destruct t as [|[|[|t]]]; [vm_compute; reflexivity|vm_compute; reflexivity|done|vm_compute; reflexivity].
  - vm_compute. discriminate.
Defined.

Lemma announced_witness : waiters_ (ms_shared (exec_final demo_machine demo_part)) = 2.
Proof.
  rewrite (proj1 (announced demo_cf 3 ltac:(lia) (exec_final demo_machine demo_part) ltac:(eapply demo_state; vm_compute; reflexivity))).
  vm_compute. reflexivity.
Defined.

Lemma limit_exact_witness : to_ticks demo_cf 1000000000 = 3000000000 ∧ passed (5 ⊕₆₄ to_ticks demo_cf 1000000000) 3000000004 = false.
Proof.
  destruct (limit_exact demo_cf 1000000000 5 3000000004) as [E1 E2]; [simpl; lia|unfold kForeverNs; lia|lia|].
  split; [rewrite E1; reflexivity|]. destruct (passed _ _) eqn:E; [|done]. exfalso.
  assert (5 + 1000000000 * ticks_per_ms demo_cf / 1000000 ≤ 3000000004) as H by (by apply E2). vm_compute in H. by apply H.
Defined.
End WaiterSpec.
