(* ===== verification/Text.v ===== *)
(** * Text: the string operations of the compiler's analyses

    What the passes use of [llvm::StringRef], [llvm::StringSet] and
    [llvm::Regex]: prefixes, suffixes, substrings, trimming, splitting at
    the first separator, lower-casing, membership in a fixed set of names,
    and POSIX extended regular expressions anchored at both ends.

    Names are [string]s.  Texts that are scanned character by character
    (inline assembly) are [list ascii].  Regular expressions are matched
    by derivatives, and [matches_correct] shows the matcher decides
    membership in the inductively defined language. *)

From stdpp Require Import base tactics list strings.
From Stdlib Require Import Ascii String Lia.
From S2P Require Import Prelude.

Abbreviation text := (list ascii).

Definition text_of (s : string) : text := list_ascii_of_string s.

#[export] Instance ascii_eq_dec : EqDecision ascii := ascii_dec.

(** ** Names *)

(** [StringRef::starts_with] *)
Definition starts_with (s p : string) : bool := String.prefix p s.

(** [StringRef::contains] of a substring *)
Fixpoint contains (s p : string) : bool :=
  String.prefix p s || match s with EmptyString => false | String _ s' => contains s' p end.

(** [StringRef::drop_front] *)
Fixpoint drop_front (n : nat) (s : string) : string :=
  match n, s with
  | S n', String _ s' => drop_front n' s'
  | _, _ => s
  end.

(** [StringRef::ends_with] *)
Definition ends_with (s p : string) : bool :=
  (String.length p <=? String.length s)
  && String.eqb (drop_front (String.length s - String.length p) s) p.

(** [StringSet::contains], and [llvm::is_contained] on an array of names *)
Definition in_set (names : list string) (s : string) : bool := existsb (String.eqb s) names.

Lemma in_set_spec names s : in_set names s = true ↔ s ∈ names.
Proof.
  unfold in_set. rewrite existsb_exists. split.
  - intros (x & Hx & ->%String.eqb_eq). by apply list_elem_of_In.
  - intros H%list_elem_of_In. exists s. split; [done|]. apply String.eqb_refl.
Qed.

Lemma starts_with_app p s : starts_with (p ++ s)%string p = true.
Proof.
  unfold starts_with. induction p as [|a p IH]; [by destruct s|]. simpl.
  destruct (ascii_dec a a); [exact IH|congruence].
Qed.

Lemma starts_with_inv s p : starts_with s p = true → ∃ r, s = (p ++ r)%string.
Proof.
  unfold starts_with. revert s. induction p as [|a p IH]; intros s H; [by exists s|].
  destruct s as [|b s]; [done|]. simpl in H. destruct (ascii_dec a b) as [->|]; [|done].
  destruct (IH s H) as [r ->]. by exists r.
Qed.

(** Two prefixes of one name: the shorter is a prefix of the longer. *)
Lemma starts_with_comparable s p q :
  starts_with s p = true → starts_with s q = true → starts_with p q = true ∨ starts_with q p = true.
Proof.
  unfold starts_with. revert s q.
  induction p as [|a p IH]; intros s q Hp Hq; [right; by destruct q|].
  destruct q as [|b q]; [left; reflexivity|]. destruct s as [|c s]; [done|]. simpl in *.
  destruct (ascii_dec a c) as [->|]; [|done]. destruct (ascii_dec b c) as [->|]; [|done].
  destruct (ascii_dec c c); [|done]. by apply (IH s).
Qed.

(** ** Texts *)

(** [StringRef::trim]'s default set: blank, tab, newline, vertical tab,
    form feed, carriage return *)
Definition is_space (c : ascii) : bool :=
  let n := nat_of_ascii c in (n =? 32) || ((9 <=? n) && (n <=? 13)).

Fixpoint ltrim (t : text) : text :=
  match t with
  | c :: t' => if is_space c then ltrim t' else t
  | [] => []
  end.

Definition rtrim (t : text) : text := rev (ltrim (rev t)).
Definition trim (t : text) : text := rtrim (ltrim t).

(** [llvm::toLower], character by character *)
Definition to_lower (c : ascii) : ascii :=
  let n := nat_of_ascii c in if (65 <=? n) && (n <=? 90) then ascii_of_nat (n + 32) else c.
Definition lowered (t : text) : text := map to_lower t.

Fixpoint prefix_of (p t : text) : bool :=
  match p, t with
  | [], _ => true
  | a :: p', b :: t' => Ascii.eqb a b && prefix_of p' t'
  | _ :: _, [] => false
  end.

Fixpoint text_contains (t p : text) : bool :=
  prefix_of p t || match t with [] => false | _ :: t' => text_contains t' p end.

(** [StringRef::split]: before and after the first occurrence of the
    separator; the whole text and nothing when there is none. *)
Fixpoint split (t sep : text) : text * text :=
  if prefix_of sep t then ([], drop (length sep) t) else
  match t with
  | [] => ([], [])
  | c :: t' => let '(a, b) := split t' sep in (c :: a, b)
  end.

Definition text_in (names : list string) (t : text) : bool :=
  in_set names (string_of_list_ascii t).

Definition text_is (t : text) (s : string) : bool := bool_decide (t = text_of s).

(** ** Regular expressions *)

Inductive regex :=
| RNone                       (* no text *)
| REps                        (* the empty text *)
| RSet (p : ascii → bool)     (* one character: a letter, or a bracket expression *)
| RCat (r1 r2 : regex)
| RAlt (r1 r2 : regex)
| RStar (r : regex).

(** The language of an expression. *)
Inductive lang : regex → text → Prop :=
| lang_eps : lang REps []
| lang_set p c : p c = true → lang (RSet p) [c]
| lang_cat r1 r2 t1 t2 : lang r1 t1 → lang r2 t2 → lang (RCat r1 r2) (t1 ++ t2)
| lang_alt_l r1 r2 t : lang r1 t → lang (RAlt r1 r2) t
| lang_alt_r r1 r2 t : lang r2 t → lang (RAlt r1 r2) t
| lang_star_nil r : lang (RStar r) []
| lang_star_app r t1 t2 : lang r t1 → lang (RStar r) t2 → lang (RStar r) (t1 ++ t2).

Fixpoint nullable (r : regex) : bool :=
  match r with
  | RNone | RSet _ => false
  | REps | RStar _ => true
  | RCat r1 r2 => nullable r1 && nullable r2
  | RAlt r1 r2 => nullable r1 || nullable r2
  end.

Fixpoint deriv (c : ascii) (r : regex) : regex :=
  match r with
  | RNone | REps => RNone
  | RSet p => if p c then REps else RNone
  | RCat r1 r2 =>
      let d := RCat (deriv c r1) r2 in if nullable r1 then RAlt d (deriv c r2) else d
  | RAlt r1 r2 => RAlt (deriv c r1) (deriv c r2)
  | RStar r1 => RCat (deriv c r1) (RStar r1)
  end.

(** [llvm::Regex::match] of an expression anchored at both ends. *)
Fixpoint matches (r : regex) (t : text) : bool :=
  match t with
  | [] => nullable r
  | c :: t' => matches (deriv c r) t'
  end.

Lemma nullable_correct r : nullable r = true ↔ lang r [].
Proof.
  induction r as [| |p|r1 IH1 r2 IH2|r1 IH1 r2 IH2|r IH]; cbn.
  - split; [done|inversion 1].
  - split; [constructor|done].
  - split; [done|inversion 1].
  - rewrite andb_true_iff, IH1, IH2. split.
    + intros [? ?]. by apply (lang_cat _ _ [] []).
    + inversion 1 as [| |? ? t1 t2 ? ? Hr Ht| | | |]; subst.
      by apply app_eq_nil in Ht as [-> ->].
  - rewrite orb_true_iff, IH1, IH2. split; [intros []; by constructor|inversion 1; auto].
  - split; [constructor|done].
Qed.

Lemma deriv_correct c r t : lang (deriv c r) t ↔ lang r (c :: t).
Proof.
  revert t. induction r as [| |p|r1 IH1 r2 IH2|r1 IH1 r2 IH2|r IH]; intros t; cbn.
  - split; inversion 1.
  - split; inversion 1.
  - destruct (p c) eqn:E; split; inversion 1; subst; by constructor || congruence.
  - assert (lang (RCat r1 r2) (c :: t) ↔
      lang (RCat (deriv c r1) r2) t ∨ (nullable r1 = true ∧ lang (deriv c r2) t)) as ->.
    { split.
      - inversion 1 as [| |? ? t1 t2 H1 H2 Hr Ht| | | |]; subst.
        destruct t1 as [|c' t1]; cbn in *; simplify_eq.
        + right. rewrite nullable_correct, IH2. done.
        + left. constructor; [by apply IH1|done].
      - intros [H|[Hn H]].
        + inversion H as [| |? ? t1 t2 H1 H2 Hr Ht| | | |]; subst.
          apply (lang_cat _ _ (c :: t1)); [by apply IH1|done].
        + apply nullable_correct in Hn. apply IH2 in H. by apply (lang_cat _ _ []). }
    destruct (nullable r1); split.
    + inversion 1; auto.
    + intros [?|[_ ?]]; [by apply lang_alt_l|by apply lang_alt_r].
    + by left.
    + by intros [?|[? _]].
  - split; inversion 1; subst; constructor; by apply IH1 || by apply IH2.
  - split.
    + inversion 1 as [| |? ? t1 t2 H1 H2 Hr Ht| | | |]; subst.
      apply (lang_star_app _ (c :: t1)); [by apply IH|done].
    + intros H. remember (RStar r) as s eqn:Es. remember (c :: t) as u eqn:Eu.
      revert t c IH Es Eu. induction H as [| | | | | |s t1 t2 H1 _ H2 IHs]; intros; simplify_eq.
      destruct t1 as [|a t1]; cbn in *; simplify_eq; [by apply IHs|].
      constructor; [by apply IH|done].
Qed.

(** The derivative matcher decides the language. *)
Lemma matches_correct r t : matches r t = true ↔ lang r t.
Proof.
  revert r. induction t as [|c t IH]; intros r; cbn; [apply nullable_correct|].
  by rewrite IH, deriv_correct.
Qed.

(** *** The constructs the expressions of the source use *)

Definition rchar (c : ascii) : regex := RSet (Ascii.eqb c).
Fixpoint rtext (t : text) : regex :=
  match t with [] => REps | c :: t' => RCat (rchar c) (rtext t') end.
Definition rlit (s : string) : regex := rtext (text_of s).
Definition ropt (r : regex) : regex := RAlt r REps.
Definition rplus (r : regex) : regex := RCat r (RStar r).
Definition ralts (rs : list regex) : regex := fold_right RAlt RNone rs.
Definition rseq (rs : list regex) : regex := fold_right RCat REps rs.
Definition rany (s : string) : regex := RSet (λ c, existsb (Ascii.eqb c) (text_of s)).
Definition between (a b : ascii) (c : ascii) : bool :=
  (nat_of_ascii a <=? nat_of_ascii c) && (nat_of_ascii c <=? nat_of_ascii b).
Definition digit : regex := RSet (between "0" "9").
Definition lower_letter : regex := RSet (between "a" "z").
Definition alnum : regex := RSet (λ c, between "a" "z" c || between "0" "9" c).
Definition tab : ascii := ascii_of_nat 9.
Definition newline : ascii := ascii_of_nat 10.
Definition carriage : ascii := ascii_of_nat 13.
Definition blank : regex := RSet (λ c, Ascii.eqb c " " || Ascii.eqb c tab).

Lemma lang_rtext t u : lang (rtext t) u ↔ u = t.
Proof.
  revert u. induction t as [|c t IH]; intros u; cbn; split.
  - by inversion 1.
  - intros ->. constructor.
  - inversion 1 as [| |? ? t1 t2 H1 H2| | | |]; subst. apply IH in H2 as ->.
    inversion H1 as [|? ? Hc| | | | |]; subst. by apply Ascii.eqb_eq in Hc as ->.
  - intros ->. apply (lang_cat _ _ [c]); [constructor; apply Ascii.eqb_refl|by apply IH].
Qed.

Lemma lang_ralts rs t : lang (ralts rs) t ↔ ∃ r, r ∈ rs ∧ lang r t.
Proof.
  induction rs as [|r rs IH]; cbn; split.
  - inversion 1.
  - intros (? & ?%elem_of_nil & _). done.
  - inversion 1; subst; [exists r; split; [left|done]|].
    match goal with H : lang (fold_right _ _ _) _ |- _ => apply IH in H as (r' & ? & ?) end.
    exists r'. split; [by right|done].
  - intros (r' & Hr & Ht). apply elem_of_cons in Hr as [->|Hr]; [by apply lang_alt_l|].
    apply lang_alt_r, IH. eauto.
Qed.

(** A text in a sequence that begins with a literal begins with it. *)
Lemma lang_cat_lit s r t : lang (RCat (rlit s) r) t → ∃ u, t = text_of s ++ u ∧ lang r u.
Proof.
  inversion 1 as [| |? ? t1 t2 H1 H2| | | |]; subst. apply lang_rtext in H1 as ->. eauto.
Qed.
