(* ===== verification/Cir.v ===== *)
(** * Cir: the intermediate representation the passes read

    The compiler's passes read and rewrite ClangIR: a module of functions
    and globals, each function a region of blocks of operations, an
    operation with operands, results, attributes and nested regions.  This
    file is that data, with the queries of the MLIR API the passes are
    written in: [getDefiningOp], [getUsers], [getParentOp], [getBlock],
    [isAncestor], [walk], symbol lookup, and [dyn_cast] as a match on
    [op_kind].

    An operation is known by a number, [op_id], as [Operation *] knows it
    in the source; a value is a result of an operation or an argument of a
    block.  Queries about linkage that ClangIR answers
    ([isInterposableLinkage], [isLocalLinkage]) are fields of the function:
    the answers are data, not a definition of ours.  [walk] visits what is
    nested in an operation before the operation, MLIR's default order. *)

From stdpp Require Import base tactics list strings gmap.
From Stdlib Require Import String ZArith Lia.
From S2P Require Import Prelude Text.

(** ** Types and constants *)

Inductive ty :=
| IntTy (width : Z) (signed : bool)
| PtrTy (pointee : ty)
| ArrayTy (elt : ty) (n : Z)
| RecordTy (name : string)
| VoidTy
| FuncTy
| MutexTy                     (* !wtc.mutex *)
| QueueTy (obj : ty)          (* !wtc.queue<obj> *)
| OtherTy (name : string).

#[export] Instance ty_eq_dec : EqDecision ty.
Proof. solve_decision. Defined.

(** [cir::IntAttr] with its width and its bits, [cir::ConstPtrAttr],
    anything else. *)
Inductive const :=
| CInt (width bits : Z)
| CPtr (addr : Z)
| COther.

(** ** The verdicts and implementations of the wtc dialect (WTCAttrs.td) *)

Inductive topology := Tunknown | Tspsc | Tmpsc | Tspmc | Tmpmc.
Inductive impl := Igeneric | Ispsc | Ispsc_inline | Impsc | Ispmc.
Inductive progress := blocking | lock_free | wait_free.

#[export] Instance topology_eq_dec : EqDecision topology.
Proof. solve_decision. Defined.
#[export] Instance impl_eq_dec : EqDecision impl.
Proof. solve_decision. Defined.
#[export] Instance progress_eq_dec : EqDecision progress.
Proof. solve_decision. Defined.

(** ** Operations *)

Inductive value :=
| VRes (op idx : nat)         (* a result of an operation *)
| VArg (blk idx : nat).       (* an argument of a block *)

#[export] Instance value_eq_dec : EqDecision value.
Proof. solve_decision. Defined.

(** An argument's attribute dictionary, as its list of keys. *)
Abbreviation arg_dict := (list string).
Abbreviation arg_attr_list := (option (list arg_dict)).

(** An entry of a function's annotation array: a [cir::AnnotationAttr]
    with its name, or another attribute. *)
Inductive annot := Annotation (name : string) | OtherAnnot.

Record func := Func {
  sym_name : string;
  interposable : bool;        (* cir::isInterposableLinkage(getLinkage()) *)
  local_linkage : bool;       (* cir::isLocalLinkage(getLinkage()) *)
  aliasee : option string;
  annotations : option (list annot);
  func_arg_attrs : arg_attr_list;
  num_arguments : nat;
}.

Record global := Global {
  global_name : string;
  global_type : ty;           (* getSymType *)
  global_constant : bool;
  initial_value : option const;
}.

Record call_attrs := CallAttrs {
  callee : option string;     (* none: the call is indirect, its target operand 0 *)
  nothrow : bool;
  arg_attrs : arg_attr_list;
}.

(** The attributes every lifted operation carries (WTCOps.td). *)
Record wtc_attrs := WtcAttrs {
  fallback_impl : option string;
  source_type : option ty;    (* source_mutex_type or source_queue_type *)
  source_arg_attrs : arg_attr_list;
  wtc_topology : option topology;
  queue_id : option Z;
  wtc_impl : option impl;
}.

(** Operands: [lock], [unlock]: the mutex; the lock-batch operations: the
    mutex and the batch; [queue_push]: the queue, the value and [more];
    [queue_pop]: the queue and [args]; the queue-batch operations: the
    queue, the batch, and [queue_push_deferred]'s value. *)
Inductive wtc_op :=
| LockOp | UnlockOp
| LockBatchBeginOp | LockBatchStepOp | LockBatchEndOp
| QueuePushOp (bounded wait overrun batch : bool)
| QueuePopOp (borrowed transfer wait bounded batch : bool)
| QueueBatchBeginOp | QueuePushDeferredOp | QueueBatchEndOp.

Inductive cast_kind := Cbitcast | Carray_to_ptrdecay | Cintegral | Cptr_to_bool
  | Cint_to_float | Cfloat_to_int | Cfloating | Cbool_to_float | Cother.
Inductive cmp_kind := Clt | Cle | Cgt | Cge | Ceq | Cne.

#[export] Instance cast_kind_eq_dec : EqDecision cast_kind.
Proof. solve_decision. Defined.
#[export] Instance cmp_kind_eq_dec : EqDecision cmp_kind.
Proof. solve_decision. Defined.

(** Operands of the ClangIR operations: load: address; store: value,
    address; cmp, add, sub: left, right; copy: destination, source;
    memset: destination, byte, length; memcpy, memmove: destination,
    source, length; the atomics: pointer, then the value (a
    compare-exchange: expected, desired).  Regions: for: condition, body,
    step; while and do: condition, body; if, ternary: the two arms. *)
Inductive kind :=
| KFunc (f : func) | KGlobal (g : global)
| KConstant (c : const) | KAlloca | KLoad (volatile : bool) | KStore
| KCast (k : cast_kind) | KUcc | KGetGlobal (name : string)
| KCall (c : call_attrs)
| KFor | KLoop | KIf | KTernary | KScope | KCleanupScope
| KCmp (k : cmp_kind) | KInc | KDec | KAdd | KSub | KCondition | KReturn
| KThrow | KAllocException | KInlineAsm (asm : string) | KIntrinsic (name : string)
| KLifetimeStart | KLifetimeEnd
| KBaseClassAddr | KGetMember | KGetElement | KPtrStride
| KAtomicFetch | KAtomicXchg | KAtomicCmpXchg | KAtomicTestAndSet | KAtomicClear
| KSetBitfield | KGetBitfield | KCopy | KMemSet | KMemCpy | KMemMove
| KWtc (w : wtc_op) (a : wtc_attrs)
| KOther.

(** Attributes other than those of the kind; [ASym] names a symbol (a
    global's initialiser, a v-table), [ATypes] is a list of types (the
    arguments of a function's type). *)
Inductive attr := AUnit | AInt (n : Z) | AInts (l : list Z) | AStr (s : string) | ASym (s : string) | ATypes (l : list ty)
  | ATopology (t : topology) | AImpl (i : impl).

Inductive operation :=
| Op (id : nat) (name : string) (loc : string) (k : kind) (args : list value)
     (results : list ty) (attrs : list (string * attr)) (rs : list (list block))
with block :=
| Block (bid : nat) (bargs : list ty) (ops : list operation).

Definition op_id (o : operation) : nat := let 'Op i _ _ _ _ _ _ _ := o in i.
Definition op_name (o : operation) : string := let 'Op _ n _ _ _ _ _ _ := o in n.
Definition op_loc (o : operation) : string := let 'Op _ _ l _ _ _ _ _ := o in l.
Definition op_kind (o : operation) : kind := let 'Op _ _ _ k _ _ _ _ := o in k.
Definition operands (o : operation) : list value := let 'Op _ _ _ _ a _ _ _ := o in a.
Definition result_types (o : operation) : list ty := let 'Op _ _ _ _ _ r _ _ := o in r.
Definition op_attrs (o : operation) : list (string * attr) := let 'Op _ _ _ _ _ _ a _ := o in a.
Definition regions (o : operation) : list (list block) := let 'Op _ _ _ _ _ _ _ rs := o in rs.
Definition block_id (b : block) : nat := let 'Block i _ _ := b in i.
Definition block_args (b : block) : list ty := let 'Block _ a _ := b in a.
Definition block_ops (b : block) : list operation := let 'Block _ _ l := b in l.

(** A module: its top-level operations. *)
Abbreviation module := (list operation).

(** The operations directly nested in an operation, in order. *)
Definition children (o : operation) : list operation :=
  concat (map block_ops (concat (regions o))).

(** [Operation::walk]: what is nested first, then the operation. *)
Fixpoint walk (o : operation) : list operation :=
  match o with
  | Op _ _ _ _ _ _ _ rs =>
      flat_map (λ r, flat_map (λ b, match b with Block _ _ l => flat_map walk l end) r) rs ++ [o]
  end.

(** [ModuleOp::walk], the module itself aside. *)
Definition walk_module (m : module) : list operation := flat_map walk m.

Lemma walk_children o : walk o = flat_map walk (children o) ++ [o].
Proof.
  destruct o as [? ? ? ? ? ? ? rs]. cbn [walk]. f_equal. unfold children. cbn [regions].
  induction rs as [|r rs IH]; [done|]. cbn. rewrite map_app, concat_app, flat_map_app, <-IH. f_equal.
  clear IH. induction r as [|[? ? l] r IH]; [done|]. cbn. by rewrite flat_map_app, <-IH.
Qed.

Lemma walk_self o : o ∈ walk o.
Proof. rewrite walk_children. apply elem_of_app. right. by left. Qed.

Lemma elem_of_flat_map {A B} (f : A → list B) l y : y ∈ flat_map f l ↔ ∃ x, x ∈ l ∧ y ∈ f x.
Proof.
  rewrite list_elem_of_In, in_flat_map. by setoid_rewrite <-list_elem_of_In.
Qed.

Lemma elem_of_concat {A} (ls : list (list A)) x : x ∈ concat ls ↔ ∃ l, x ∈ l ∧ l ∈ ls.
Proof.
  rewrite list_elem_of_In, in_concat. setoid_rewrite <-list_elem_of_In. naive_solver.
Qed.

(** Induction over the nesting of operations. *)
Section nesting.
Variable P : operation → Prop.
Hypothesis step : ∀ o, Forall P (children o) → P o.

Fixpoint operation_nested_ind (o : operation) : P o.
Proof.
  apply step. unfold children.
  destruct o as [? ? ? ? ? ? ? rs]. cbn [regions].
  induction rs as [|r rs IH]; [constructor|]. cbn. rewrite map_app, concat_app.
  apply Forall_app. split; [|exact IH]. clear IH.
  induction r as [|[? ? l] r IH]; [constructor|]. cbn. apply Forall_app. split; [|exact IH].
  clear IH. induction l as [|o l IH]; constructor; [apply operation_nested_ind|exact IH].
Defined.
End nesting.

(** Walking from anything met on a walk meets nothing new. *)
Lemma walk_trans o p q : p ∈ walk o → q ∈ walk p → q ∈ walk o.
Proof.
  revert p q. induction o as [o IH] using operation_nested_ind. intros p q Hp Hq.
  rewrite walk_children in Hp |- *. apply elem_of_app in Hp as [Hp|Hp].
  - apply elem_of_app. left. apply elem_of_flat_map in Hp as (c & Hc & Hp).
    apply elem_of_flat_map. exists c. split; [done|]. rewrite Forall_forall in IH. eauto.
  - apply list_elem_of_singleton in Hp as ->. by rewrite walk_children in Hq.
Qed.

Lemma walk_module_trans m p q : p ∈ walk_module m → q ∈ walk p → q ∈ walk_module m.
Proof.
  unfold walk_module. rewrite !elem_of_flat_map. intros (o & Ho & Hp) Hq.
  exists o. split; [done|]. by eapply walk_trans.
Qed.

Lemma module_in_walk (m : module) g : g ∈ m → g ∈ walk_module m.
Proof. intros. apply elem_of_flat_map. exists g. split; [done|apply walk_self]. Qed.

(** ** Casts to an operation's class *)

Definition as_func (o : operation) : option func :=
  match op_kind o with KFunc f => Some f | _ => None end.
Definition as_call (o : operation) : option call_attrs :=
  match op_kind o with KCall c => Some c | _ => None end.
Definition is_store (o : operation) : bool := match op_kind o with KStore => true | _ => false end.
Definition is_load (o : operation) : bool := match op_kind o with KLoad _ => true | _ => false end.
Definition is_alloca (o : operation) : bool := match op_kind o with KAlloca => true | _ => false end.
Definition is_lifetime (o : operation) : bool :=
  match op_kind o with KLifetimeStart | KLifetimeEnd => true | _ => false end.
Definition is_scope (o : operation) : bool :=
  match op_kind o with KScope | KCleanupScope => true | _ => false end.

(** [FuncOp::getBody] is a region with no block when the function is only
    declared here. *)
Definition body (o : operation) : list block :=
  match regions o with r :: _ => r | [] => [] end.
Definition body_empty (o : operation) : bool := match body o with [] => true | _ => false end.

Definition name_of_func (o : operation) : string :=
  match as_func o with Some f => sym_name f | None => EmptyString end.
Definition is_interposable (o : operation) : bool :=
  match as_func o with Some f => interposable f | None => false end.
Definition is_local_linkage (o : operation) : bool :=
  match as_func o with Some f => local_linkage f | None => false end.

Definition symbol (o : operation) : option string :=
  match op_kind o with
  | KFunc f => Some (sym_name f)
  | KGlobal g => Some (global_name g)
  | _ => None
  end.

(** [Operation::getAttr] of a discardable attribute. *)
Fixpoint get_attr (l : list (string * attr)) (name : string) : option attr :=
  match l with
  | [] => None
  | (n, a) :: l' => if String.eqb n name then Some a else get_attr l' name
  end.
Definition has_attr (o : operation) (name : string) : bool :=
  match get_attr (op_attrs o) name with Some _ => true | None => false end.

(** [Operation::setAttr]. *)
Fixpoint set_attr (l : list (string * attr)) (name : string) (a : attr) : list (string * attr) :=
  match l with
  | [] => [(name, a)]
  | (n, b) :: l' => if String.eqb n name then (n, a) :: l' else (n, b) :: set_attr l' name a
  end.

Lemma get_set_attr l n n' a : get_attr (set_attr l n a) n' = if String.eqb n n' then Some a else get_attr l n'.
Proof.
  induction l as [|[k b] l IH]; cbn; [done|]. destruct (String.eqb_spec k n) as [->|]; cbn.
  - by destruct (String.eqb n n').
  - rewrite IH. destruct (String.eqb_spec k n') as [->|]; [|done]. by destruct (String.eqb_spec n n').
Qed.

(** A rewriting in place: kinds and attributes change, nothing moves. *)
Fixpoint map_op (f : operation → kind * list (string * attr)) (o : operation) : operation :=
  match o with
  | Op i n loc k args results attrs rs =>
      Op i n loc (fst (f o)) args results (snd (f o))
        (map (map (λ b, match b with Block bid bargs ops => Block bid bargs (map (map_op f) ops) end)) rs)
  end.
Definition map_module (f : operation → kind * list (string * attr)) (m : module) : module := map (map_op f) m.

Lemma walk_map_op f o : walk (map_op f o) = map (map_op f) (walk o).
Proof.
  induction o as [o IH] using operation_nested_ind. rewrite !walk_children, map_app. cbn [map]. f_equal.
  assert (children (map_op f o) = map (map_op f) (children o)) as ->.
  { destruct o as [i n loc k args results attrs rs]. unfold children. cbn [map_op regions].
    clear IH. induction rs as [|r rs IHr]; [done|]. cbn. rewrite !map_app, !concat_app, map_app, IHr. f_equal.
    clear. induction r as [|[b ba ops] r IHr]; [done|]. cbn. by rewrite map_app, IHr. }
  induction (children o) as [|c cs IHc]; [done|]. inversion_clear IH as [|? ? Hc Hcs]. cbn. by rewrite map_app, Hc, IHc.
Qed.
Lemma walk_map_module f m : walk_module (map_module f m) = map (map_op f) (walk_module m).
Proof.
  unfold walk_module, map_module. induction m as [|o m IH]; [done|]. cbn. by rewrite map_app, walk_map_op, IH.
Qed.

(** ** Queries over a module *)
Section queries.
Variable m : module.

Definition find_op (i : nat) : option operation :=
  List.find (λ o, op_id o =? i) (walk_module m).

(** [Value::getDefiningOp]: nothing for a block's argument. *)
Definition defining_op (v : value) : option operation :=
  match v with VRes i _ => find_op i | VArg _ _ => None end.

(** [Operation::getResult(0)], as the value it is. *)
Definition result (o : operation) : value := VRes (op_id o) 0.

(** [Value::getUsers]: one entry for each use. *)
Definition users (v : value) : list operation :=
  flat_map (λ o, map (λ _, o) (List.filter (λ x, bool_decide (x = v)) (operands o))) (walk_module m).

(** [Value::getUses]: the same, with the number of the operand.  MLIR keeps
    a value's uses in no order a pass may rely on; here they are in the
    order of the walk. *)
Definition uses (v : value) : list (operation * nat) :=
  flat_map (λ o, omap (λ p, if bool_decide (snd p = v) then Some (o, fst p) else None) (imap pair (operands o)))
    (walk_module m).

(** [SymbolTable::lookupNearestSymbolFrom]: the module is the only
    symbol table. *)
Definition lookup_symbol (n : string) : option operation :=
  List.find (λ o, match symbol o with Some s => String.eqb s n | None => false end) m.

(** The same, cast to a function. *)
Definition lookup_func (n : string) : option operation :=
  match lookup_symbol n with
  | Some o => if as_func o is Some _ then Some o else None
  | None => None
  end.

(** The same, cast to a global. *)
Definition lookup_global (n : string) : option operation :=
  match lookup_symbol n with
  | Some o => match op_kind o with KGlobal _ => Some o | _ => None end
  | None => None
  end.
End queries.

Lemma find_op_in m i o : find_op m i = Some o → o ∈ walk_module m ∧ op_id o = i.
Proof.
  intros [Ho Hi]%find_some. by rewrite list_elem_of_In, <-Nat.eqb_eq.
Qed.

Lemma elem_of_uses m v o i : (o, i) ∈ uses m v ↔ o ∈ walk_module m ∧ operands o !! i = Some v.
Proof.
  unfold uses. rewrite elem_of_flat_map. split.
  - intros (o' & Ho & H). apply list_elem_of_omap in H as ([j x] & Hx & H). apply elem_of_lookup_imap in Hx as (k & y & [= -> ->] & Hk).
    cbn in H. destruct (bool_decide (y = v)) eqn:E; [|done]. injection H as -> ->. by apply bool_decide_eq_true in E as ->.
  - intros [Ho Hi]. exists o. split; [done|]. apply list_elem_of_omap. exists (i, v). split.
    + apply elem_of_lookup_imap. eauto.
    + cbn. by rewrite bool_decide_eq_true_2.
Qed.

Lemma lookup_symbol_in m n o : lookup_symbol m n = Some o → o ∈ m ∧ symbol o = Some n.
Proof.
  intros [Ho Hn]%find_some. apply list_elem_of_In in Ho. destruct (symbol o); [|done].
  by apply String.eqb_eq in Hn as ->.
Qed.

Lemma lookup_func_in m n o :
  lookup_func m n = Some o → o ∈ m ∧ symbol o = Some n ∧ ∃ f, as_func o = Some f.
Proof.
  unfold lookup_func. destruct (lookup_symbol m n) as [p|] eqn:E; [|done].
  apply lookup_symbol_in in E as [? ?]. destruct (as_func p) eqn:F; [|done].
  intros [= <-]. eauto.
Qed.

Lemma lookup_func_walk m n o : lookup_func m n = Some o → o ∈ walk_module m.
Proof.
  intros (Ho & _)%lookup_func_in. apply elem_of_flat_map. exists o. split; [done|apply walk_self].
Qed.

(** ** Where an operation sits

    A frame is an operation, the index of one of its regions and a block
    of that region. *)

Record frame := Frame { fr_op : operation; fr_region : nat; fr_block : block }.

Fixpoint first_some {A B} (f : A → option B) (l : list A) : option B :=
  match l with
  | [] => None
  | x :: l' => match f x with Some y => Some y | None => first_some f l' end
  end.

(** The frames from an operation down to the one numbered [i], outermost
    first; empty for the operation itself. *)
Fixpoint path_to (i : nat) (o : operation) : option (list frame) :=
  if op_id o =? i then Some [] else
  match o with
  | Op _ _ _ _ _ _ _ rs =>
      (fix in_regions (k : nat) (l : list (list block)) : option (list frame) :=
         match l with
         | [] => None
         | r :: l' =>
             match first_some (λ b, match b with
               | Block _ _ ops =>
                   option_map (cons (Frame o k b)) (first_some (path_to i) ops)
               end) r with
             | Some p => Some p
             | None => in_regions (S k) l'
             end
         end) 0 rs
  end.

Section where_.
Variable m : module.

Definition frames_of (i : nat) : list frame :=
  match first_some (path_to i) m with Some p => p | None => [] end.

(** The operations an operation sits in, outermost first. *)
Definition ancestors (i : nat) : list operation := map fr_op (frames_of i).

(** [Operation::getParentOp] *)
Definition parent_op (i : nat) : option operation := last (ancestors i).

(** [Operation::getBlock]: its number and its operations; nothing for a
    top-level operation. *)
Definition block_of (i : nat) : option block := option_map fr_block (last (frames_of i)).

(** [Operation::getParentOfType<cir::FuncOp>] *)
Definition enclosing_func (i : nat) : option operation :=
  List.find (λ o, if as_func o is Some _ then true else false) (rev (ancestors i)).

(** [Operation::isAncestor]: itself counts. *)
Definition is_ancestor (o : operation) (i : nat) : bool :=
  (op_id o =? i) || existsb (λ a, op_id a =? op_id o) (ancestors i).

(** [Region::isAncestor] of the region operation [i] is in. *)
Definition region_holds (o : operation) (k : nat) (i : nat) : bool :=
  existsb (λ fr, (op_id (fr_op fr) =? op_id o) && (fr_region fr =? k)) (frames_of i).

(** The operation holding block number [b], with whether it is that
    operation's entry block: [BlockArgument::getOwner]. *)
Definition block_owner (b : nat) : option (operation * bool) :=
  first_some (λ o,
    if existsb (λ bl, block_id bl =? b) (concat (regions o))
    then Some (o, match regions o with
                  | (bl :: _) :: _ => block_id bl =? b
                  | _ => false
                  end)
    else None) (walk_module m).

(** [Value::getType] *)
Definition type_of (v : value) : option ty :=
  match v with
  | VRes i k => match find_op m i with Some o => result_types o !! k | None => None end
  | VArg b k =>
      match List.find (λ bl, block_id bl =? b) (flat_map (λ o, concat (regions o)) (walk_module m)) with
      | Some bl => block_args bl !! k
      | None => None
      end
  end.
End where_.

(** Distinct operations have distinct numbers. *)
Definition wf_ids (m : module) : bool := bool_decide (NoDup (map op_id (walk_module m))).

Lemma wf_ids_inj m o p :
  wf_ids m = true → o ∈ walk_module m → p ∈ walk_module m → op_id o = op_id p → o = p.
Proof.
  unfold wf_ids. rewrite bool_decide_eq_true. revert o p.
  induction (walk_module m) as [|q l IH]; cbn; intros o p Hn Ho Hp E; [by apply elem_of_nil in Ho|].
  apply NoDup_cons in Hn as [Hq Hn].
  apply elem_of_cons in Ho as [->|Ho]; apply elem_of_cons in Hp as [->|Hp]; try done.
  - destruct Hq. rewrite E. by apply list_elem_of_fmap_2.
  - destruct Hq. rewrite <-E. by apply list_elem_of_fmap_2.
  - by apply IH.
Qed.

Lemma find_op_wf m o : wf_ids m = true → o ∈ walk_module m → find_op m (op_id o) = Some o.
Proof.
  intros Hwf Ho. destruct (find_op m (op_id o)) as [p|] eqn:E.
  - apply find_op_in in E as [Hp E]. f_equal. by eapply wf_ids_inj.
  - unfold find_op in E. eapply find_none in E; [|by apply list_elem_of_In].
    cbn in E. by rewrite Nat.eqb_refl in E.
Qed.
