(* ===== verification/WtcOps.v ===== *)
(** * WtcOps: the operations of the wtc dialect (mlir/lib/WTC/WTCOps.cpp)

    The dialect's verifiers, which say when an operation is well formed and
    when the function it names can stand for it, and its progress table
    (decisions/0004): what each operation's algorithm can wait for and
    whether it may call the allocator, under the implementation recorded on
    it.  [silent_iff_harmless] ties the table's three columns together. *)

From stdpp Require Import base tactics list strings.
From Stdlib Require Import String ZArith Lia.
From S2P Require Import Prelude Text Cir.
Local Open Scope string_scope.

(** ** Verification *)

(** The diagnostics of the verifiers. *)
Inductive verify_error :=
| NotACirFunc (impl : string)
| NotAnnotated (impl shim operation : string)
| WrongArguments (impl : string) (takes passes : nat)
| NotPointerToQueue (source : ty)
| BatchPushShape
| OperandsWithoutBatch
| SeveralPushForms
| FormNeedsBound
| BatchPopShape
| TooManyPopOperands
| TimeoutWithoutWait
| WaitWithoutTransfer
| TransferWithoutOut
| NeedsOutOrResult.

(** [LogicalResult]: nothing is success. *)
Abbreviation verdict := (option verify_error).

Definition implementsOperation (f : func) (shimAnnotation operation : string) : bool :=
  match annotations f with
  | None => false
  | Some l =>
      existsb (λ a, match a with
        | Annotation name =>
            String.eqb name shimAnnotation
            || (starts_with name "wtc_impl_" && ends_with name ("_" ++ operation))
        | OtherAnnot => false
        end) l
  end.

Definition verifyFallbackImpl (m : module) (impl : option string) (shimAnnotation operation : string)
    (expectedArgs : nat) : verdict :=
  match impl with
  | None => None
  | Some name =>
      match lookup_func m name with
      | None => Some (NotACirFunc name)
      | Some o =>
          match as_func o with
          | None => Some (NotACirFunc name)
          | Some f =>
              if negb (implementsOperation f shimAnnotation operation)
              then Some (NotAnnotated name shimAnnotation operation)
              else if negb (num_arguments f =? expectedArgs)%nat
              then Some (WrongArguments name (num_arguments f) expectedArgs)
              else None
          end
      end
  end.

Definition verifySourceQueueType (queue : option ty) (source : option ty) : verdict :=
  match source with
  | None => None
  | Some s =>
      match s, queue with
      | PtrTy p, Some (QueueTy e) => if bool_decide (p = e) then None else Some (NotPointerToQueue s)
      | _, _ => Some (NotPointerToQueue s)
      end
  end.

(** *** Accessors *)

(** [QueuePopOp::getArgs], and the operands of [QueuePushOp] after the
    value *)
Definition getArgs (o : operation) : list value := drop 1 (operands o).
Definition getMore (o : operation) : list value := drop 2 (operands o).
(** [getPushed], [getValue]: whether the operation has a result *)
Definition has_result (o : operation) : bool := match result_types o with [] => false | _ => true end.
Definition getOut (o : operation) : option value := head (getArgs o).
Definition getTimeout (o : operation) (batch : bool) : option value :=
  if negb batch then getArgs o !! 1 else None.

Definition is_some {A} (x : option A) : bool := match x with Some _ => true | None => false end.

(** The annotation, the operation's name and the number of arguments the
    fallback is checked against: every [verifySymbolUses]. *)
Definition fallback_shape (o : operation) (w : wtc_op) : string * string * nat :=
  match w with
  | LockOp => ("wtc_mutex_lock", "lock", 1)
  | UnlockOp => ("wtc_mutex_unlock", "unlock", 1)
  | LockBatchBeginOp => ("wtc_mutex_batch_begin", "batch_begin", 2)
  | LockBatchStepOp => ("wtc_mutex_batch_step", "batch_step", 2)
  | LockBatchEndOp => ("wtc_mutex_batch_end", "batch_end", 2)
  | QueuePushOp bounded wait overrun batch =>
      if batch then ("wtc_queue_push_batch", "push_batch", 2 + List.length (getMore o))
      else if wait then ("wtc_queue_push_wait", "push_wait", 2)
      else if overrun then ("wtc_queue_push_overrun", "push_overrun", 2)
      else if has_result o then ("wtc_queue_try_push", "try_push", 2)
      else ("wtc_queue_push", "push", 2)
  | QueuePopOp borrowed transfer wait bounded batch =>
      let expectedArgs := 1 + List.length (getArgs o) in
      if batch then ("wtc_queue_pop_batch", "pop_batch", expectedArgs)
      else if wait then
        if is_some (getTimeout o batch) then ("wtc_queue_pop_wait_for", "pop_wait_for", expectedArgs)
        else ("wtc_queue_pop_wait", "pop_wait", expectedArgs)
      else if transfer then ("wtc_queue_try_pop_into", "try_pop", expectedArgs)
      else ("wtc_queue_try_pop", "try_pop", expectedArgs)
  | QueueBatchBeginOp => ("wtc_queue_batch_begin", "batch_begin", 2)
  | QueuePushDeferredOp => ("wtc_queue_push_deferred", "push_deferred", 3)
  | QueueBatchEndOp => ("wtc_queue_batch_end", "batch_end", 2)
  end.

Definition verifySymbolUses (m : module) (o : operation) (w : wtc_op) (a : wtc_attrs) : verdict :=
  let '(ann, operation, n) := fallback_shape o w in
  verifyFallbackImpl m (fallback_impl a) ann operation n.

Definition queue_type (m : module) (o : operation) : option ty :=
  match operands o with q :: _ => type_of m q | [] => None end.

(** [QueuePushOp::verify] *)
Definition verify_push (m : module) (o : operation) (a : wtc_attrs)
    (bounded wait overrun batch : bool) : verdict :=
  if batch then
    if negb bounded || negb wait || overrun || negb (has_result o) then Some BatchPushShape
    else verifySourceQueueType (queue_type m o) (source_type a)
  else match getMore o with
  | _ :: _ => Some OperandsWithoutBatch
  | [] =>
      let forms := (Nat.b2n wait + Nat.b2n overrun + Nat.b2n (has_result o))%nat in
      if (1 <? forms)%nat then Some SeveralPushForms
      else if negb (forms =? 0)%nat && negb bounded then Some FormNeedsBound
      else verifySourceQueueType (queue_type m o) (source_type a)
  end.

(** [QueuePopOp::verify] *)
Definition verify_pop (m : module) (o : operation) (a : wtc_attrs)
    (borrowed transfer wait bounded batch : bool) : verdict :=
  let hasOut := is_some (getOut o) in
  let hasValue := has_result o in
  if batch && (negb wait || negb transfer || negb bounded) then Some BatchPopShape
  else if (2 <? List.length (getArgs o))%nat && negb batch then Some TooManyPopOperands
  else if is_some (getTimeout o batch) && negb wait then Some TimeoutWithoutWait
  else if wait && negb transfer then Some WaitWithoutTransfer
  else if transfer && negb hasOut then Some TransferWithoutOut
  else if negb transfer && eqb hasOut hasValue then Some NeedsOutOrResult
  else verifySourceQueueType (queue_type m o) (source_type a).

Definition verify (m : module) (o : operation) (w : wtc_op) (a : wtc_attrs) : verdict :=
  match w with
  | LockOp | UnlockOp | LockBatchBeginOp | LockBatchStepOp | LockBatchEndOp => None
  | QueuePushOp b w' v n => verify_push m o a b w' v n
  | QueuePopOp r t w' b n => verify_pop m o a r t w' b n
  | QueueBatchBeginOp | QueuePushDeferredOp | QueueBatchEndOp =>
      verifySourceQueueType (queue_type m o) (source_type a)
  end.

(** ** Progress *)

Definition implOf (i : option impl) : impl := default Igeneric i.

Definition segmented (i : impl) : bool :=
  match i with Igeneric | Impsc => true | _ => false end.

Definition getProgress (w : wtc_op) (a : wtc_attrs) : progress :=
  let i := implOf (wtc_impl a) in
  match w with
  | LockOp | UnlockOp | LockBatchBeginOp | LockBatchStepOp | LockBatchEndOp => blocking
  | QueuePushOp bounded _ _ _ =>
      if bounded then blocking else if segmented i then lock_free else wait_free
  | QueuePopOp _ _ wait bounded _ =>
      if wait || bounded then blocking
      else match i with Igeneric => blocking | Ispmc => lock_free | _ => wait_free end
  | QueueBatchBeginOp => wait_free
  | QueuePushDeferredOp | QueueBatchEndOp => if segmented i then lock_free else wait_free
  end.

Definition mayCallAllocator (w : wtc_op) (a : wtc_attrs) : bool :=
  let i := implOf (wtc_impl a) in
  match w with
  | LockOp | UnlockOp | LockBatchBeginOp | LockBatchStepOp | LockBatchEndOp => false
  | QueuePushOp bounded _ _ _ => negb bounded
  | QueuePopOp _ transfer _ bounded _ =>
      if bounded then negb transfer
      else if transfer then segmented i || bool_decide (i = Ispmc)
      else negb (bool_decide (i = Ispsc_inline))
  | QueueBatchBeginOp => false
  | QueuePushDeferredOp => true
  | QueueBatchEndOp => segmented i
  end.

(** [QueuePushOp::getBlockingReason] *)
Definition push_reason (i : impl) (bounded wait : bool) : string :=
  if bounded then
    let why := "may wait for the pop that last held its cell to finish moving the item out" in
    if wait then "waits while the queue is full, as its wait policy says; and " ++ why else why
  else match i with
  | Ispsc | Ispsc_inline =>
      "allocates a new block when the current one is full: the queue is unbounded"
  | _ => "allocates a new segment when the current one is full: the queue is unbounded"
  end.

(** [QueuePopOp::getBlockingReason] *)
Definition pop_reason (i : impl) (transfer wait bounded timeout : bool) : string :=
  if bounded then
    let why := "may wait for the push that took its cell to fill it" in
    if wait then
      (if timeout then "waits for a push, for the queue to be closed, or for its time limit"
       else "waits for a push or for the queue to be closed")
      ++ ", as its wait policy says; and " ++ why
    else why
  else if wait then
    let why := if timeout
      then "waits for a push, for the queue to be closed, or for its time limit, as its wait policy says: spinning, or asleep in the kernel"
      else "waits for a push or for the queue to be closed, as its wait policy says: spinning, or asleep in the kernel" in
    match i with
    | Igeneric => why ++ "; and frees the segments it moves past"
    | Impsc => why ++ "; and frees the segments it moves past, and may allocate to note the cells it passes that a push has taken and not filled"
    | Ispmc => why ++ "; and frees the segments it moves past"
    | _ => why
    end
  else
    let shares := negb transfer in
    let tail := if shares then ", and allocates the shared_ptr it returns" else "" in
    match i with
    | Igeneric => "waits for a push that has taken the cell it reads to fill it, and frees the segments it moves past" ++ tail
    | Impsc => "frees the segments it moves past, and may allocate to note the cells it passes that a push has taken and not filled" ++ tail
    | Ispmc => "frees the segments it moves past" ++ tail
    | Ispsc => if shares then "allocates the shared_ptr it returns" else ""
    | Ispsc_inline => ""
    end.

(** [QueuePushDeferredOp::getBlockingReason] *)
Definition deferred_reason (i : impl) : string :=
  match i with
  | Ispsc | Ispsc_inline =>
      "allocates a new block when the current one is full: the queue is unbounded"
  | Ispmc => "allocates a new segment when the current one is full: the queue is unbounded"
  | _ => "allocates a new segment when it publishes into a full one: the queue is unbounded"
  end.

Definition getBlockingReason (o : operation) (w : wtc_op) (a : wtc_attrs) : string :=
  let i := implOf (wtc_impl a) in
  match w with
  | LockOp | LockBatchBeginOp => "takes a mutex"
  | UnlockOp | LockBatchEndOp => "releases a mutex, which is half of a blocking protocol"
  | LockBatchStepOp => "lets a mutex go and takes it again every WTC_LOCK_BATCH_K sections"
  | QueuePushOp bounded wait _ _ => push_reason i bounded wait
  | QueuePopOp _ transfer wait bounded batch =>
      pop_reason i transfer wait bounded (is_some (getTimeout o batch))
  | QueueBatchBeginOp => ""
  | QueuePushDeferredOp => deferred_reason i
  | QueueBatchEndOp =>
      if segmented i then "allocates a new segment when it publishes the run into a full one" else ""
  end.

(** ** The table's columns agree *)

Definition waits_or_allocates (w : wtc_op) (a : wtc_attrs) : bool :=
  bool_decide (getProgress w a = blocking) || mayCallAllocator w a.

Lemma reason_table o w a :
  String.eqb (getBlockingReason o w a) "" = negb (waits_or_allocates w a).
Proof.
  unfold getBlockingReason, waits_or_allocates, getProgress, mayCallAllocator.
  destruct w as [| | | | |bo wt ov ba|br tr wt bo ba| | |]; generalize (implOf (wtc_impl a)); intros i.
  all: try (destruct i; vm_compute; reflexivity).
  - destruct bo, wt, i; vm_compute; reflexivity.
  - generalize (is_some (getTimeout o ba)). intros tm.
    destruct bo, wt, tr, tm, i; vm_compute; reflexivity.
Qed.

(** An operation of the dialect has nothing to say about blocking
    exactly when its algorithm waits for no one and it never calls the
    allocator: every operation the progress check can refuse comes with a
    reason, and no harmless one does, whatever its implementation and
    form. *)
Theorem silent_iff_harmless (o : operation) (w : wtc_op) (a : wtc_attrs) :
  getBlockingReason o w a = "" ↔ getProgress w a ≠ blocking ∧ mayCallAllocator w a = false.
Proof.
  rewrite <-String.eqb_eq, reason_table. unfold waits_or_allocates.
  rewrite negb_true_iff, orb_false_iff, bool_decide_eq_false. done.
Qed.

(** A push that verifies is in exactly one of the five forms, and only the
    plain one is allowed on a queue with no bound. *)
Lemma verify_push_forms m o a bounded wait overrun batch :
  verify_push m o a bounded wait overrun batch = None →
  (batch = true ∧ bounded = true ∧ wait = true ∧ overrun = false ∧ has_result o = true) ∨
  (batch = false ∧ getMore o = [] ∧
   ((wait = false ∧ overrun = false ∧ has_result o = false) ∨
    (bounded = true ∧
     (Nat.b2n wait + Nat.b2n overrun + Nat.b2n (has_result o) = 1)%nat))).
Proof.
  unfold verify_push. generalize (verifySourceQueueType (queue_type m o) (source_type a)). intros v.
  destruct batch; [left; destruct bounded, wait, overrun, (has_result o); naive_solver|].
  destruct (getMore o); [|done]. right. destruct wait, overrun, (has_result o), bounded; cbn in *;
    naive_solver.
Qed.
