(* ===== verification/Utils.v ===== *)
(** * Utils: what the passes share (mlir/lib/WTC/Transforms/Utils.cpp)

    Who a call reaches ([lookupCallee], [indirectCallees]), what a call
    means ([getSemanticKind]), what a value stands for ([traceToLocalRoot],
    [traceToRoot] through a stack slot written once).

    Loops over def-use chains carry fuel: the number of operations of the
    module, which [traceToLocalRoot_stops] shows is enough when every value
    is made from values defined before it. *)

From stdpp Require Import base tactics list strings.
From Stdlib Require Import String ZArith Lia.
From S2P Require Import Prelude Text Cir.
Local Open Scope string_scope.

(** ** Callees *)

Section callees.
Variable m : module.

(** One hop of an alias that the link cannot replace. *)
Fixpoint follow_alias (hops : nat) (f : option operation) : option operation :=
  match hops, f with
  | S hops', Some o =>
      match as_func o with
      | Some g =>
          match aliasee g with
          | Some a => if interposable g then f else follow_alias hops' (lookup_func m a)
          | None => f
          end
      | None => f
      end
  | _, _ => f
  end.

Definition lookupCallee (o : operation) : option operation :=
  match as_call o with
  | Some c =>
      match callee c with
      | Some n => follow_alias 8 (lookup_func m n)
      | None => None
      end
  | None => None
  end.

Lemma follow_alias_in hops f o :
  follow_alias hops f = Some o → f = Some o ∨ ∃ n, lookup_func m n = Some o.
Proof.
  revert f. induction hops as [|hops IH]; intros [g|] H; cbn in H; eauto.
  destruct (as_func g) as [gf|]; [|by left]. destruct (aliasee gf) as [a|]; [|by left].
  destruct (interposable gf); [by left|]. apply IH in H as [H|H]; eauto.
Qed.

(** A callee is a function of the module. *)
Lemma lookupCallee_in o f : lookupCallee o = Some f → f ∈ m ∧ ∃ g, as_func f = Some g.
Proof.
  unfold lookupCallee. destruct (as_call o) as [c|]; [|done]. destruct (callee c) as [n|]; [|done].
  intros H. assert (∃ n, lookup_func m n = Some f) as [k Hk].
  { apply follow_alias_in in H as [H|H]; eauto. }
  apply lookup_func_in in Hk as (? & _ & ?). eauto.
Qed.

(** *** Hidden return slots *)

Definition dictHasSret (d : arg_dict) : bool := in_set d "llvm.sret".

Definition sret_at (l : arg_attr_list) (idx : nat) : bool :=
  match l with
  | Some ds => match ds !! idx with Some d => dictHasSret d | None => false end
  | None => false
  end.

Definition hasSretArg (o : operation) (idx : nat) : bool :=
  match as_call o with Some c => sret_at (arg_attrs c) idx | None => false end
  || match lookupCallee o with
     | Some f => match as_func f with Some g => sret_at (func_arg_attrs g) idx | None => false end
     | None => false
     end.

Definition firstRealOperand (o : operation) : nat :=
  if (0 <? List.length (operands o))%nat && hasSretArg o 0 then 1 else 0.
End callees.

(** ** What a function means *)

Definition hasAnnotation (f : option operation) (name : string) : bool :=
  match f with
  | Some o =>
      match as_func o with
      | Some g =>
          match annotations g with
          | Some l => existsb (λ a, match a with Annotation n => String.eqb n name | OtherAnnot => false end) l
          | None => false
          end
      | None => false
      end
  | None => false
  end.

Definition isWTCAnnotatedCall (m : module) (o : operation) (name : string) : bool :=
  hasAnnotation (lookupCallee m o) name.

Definition liftedRuntimeFunction (f : option operation) : bool :=
  match f with
  | Some o =>
      match as_func o with
      | Some g =>
          match annotations g with
          | Some l => existsb (λ a, match a with
              | Annotation n => starts_with n "wtc_lifted_"
              | OtherAnnot => false
              end) l
          | None => false
          end
      | None => false
      end
  | None => false
  end.

Definition insideLiftedRuntime (m : module) (o : operation) : bool :=
  liftedRuntimeFunction (enclosing_func m (op_id o)) && negb (liftedRuntimeFunction (lookupCallee m o)).

Inductive semantic_kind :=
| Unknown | ThreadSpawn | QueueConstruction | QueuePush | QueuePushWait | QueueTryPush
| QueuePushOverrun | QueuePushBatch | QueuePopBatch | QueueTryPop | QueueTryPopInto
| QueuePopWait | QueuePopWaitFor | QueueBatchBegin | QueuePushDeferred | QueueBatchEnd
| MutexLock | MutexUnlock | MutexBatchBegin | MutexBatchStep | MutexBatchEnd.

#[export] Instance semantic_kind_eq_dec : EqDecision semantic_kind.
Proof. solve_decision. Defined.

Definition kindByName (name : string) : semantic_kind :=
  if in_set ["pthread_create"; "thrd_create"] name then ThreadSpawn
  else if String.eqb name "rte_eal_remote_launch" then ThreadSpawn
  else if String.eqb name "rte_eal_mp_remote_launch" then ThreadSpawn
  else if contains name "6thread15_M_start_thread" then ThreadSpawn
  else Unknown.

(** The annotations [getSemanticKind] compares with, in its order. *)
Definition annotation_kinds : list (string * semantic_kind) :=
  [("wtc_thread_spawn", ThreadSpawn); ("wtc_queue_construction", QueueConstruction);
   ("wtc_queue_push", QueuePush); ("wtc_queue_push_wait", QueuePushWait);
   ("wtc_queue_try_push", QueueTryPush); ("wtc_queue_push_overrun", QueuePushOverrun);
   ("wtc_queue_push_batch", QueuePushBatch); ("wtc_queue_pop_batch", QueuePopBatch);
   ("wtc_queue_try_pop", QueueTryPop); ("wtc_queue_try_pop_into", QueueTryPopInto);
   ("wtc_queue_pop_wait", QueuePopWait); ("wtc_queue_pop_wait_for", QueuePopWaitFor);
   ("wtc_queue_batch_begin", QueueBatchBegin); ("wtc_queue_push_deferred", QueuePushDeferred);
   ("wtc_queue_batch_end", QueueBatchEnd); ("wtc_mutex_lock", MutexLock);
   ("wtc_mutex_unlock", MutexUnlock); ("wtc_mutex_batch_begin", MutexBatchBegin);
   ("wtc_mutex_batch_step", MutexBatchStep); ("wtc_mutex_batch_end", MutexBatchEnd)].

Fixpoint assoc_kind (l : list (string * semantic_kind)) (n : string) : option semantic_kind :=
  match l with
  | [] => None
  | (s, k) :: l' => if String.eqb n s then Some k else assoc_kind l' n
  end.

Definition annotation_kind (a : annot) : option semantic_kind :=
  match a with Annotation n => assoc_kind annotation_kinds n | OtherAnnot => None end.

Definition getSemanticKind (f : option operation) : semantic_kind :=
  match f with
  | None => Unknown
  | Some o =>
      match as_func o with
      | None => Unknown
      | Some g =>
          match kindByName (sym_name g) with
          | Unknown =>
              match annotations g with
              | None => Unknown
              | Some l => default Unknown (first_some annotation_kind l)
              end
          | k => k
          end
      end
  end.

Lemma first_some_spec {A B} (f : A → option B) l y :
  first_some f l = Some y → ∃ x, x ∈ l ∧ f x = Some y.
Proof.
  induction l as [|x l IH]; [done|]. cbn. destruct (f x) eqn:E.
  - intros [= <-]. exists x. split; [left|done].
  - intros H. destruct (IH H) as (x' & ? & ?). exists x'. split; [by right|done].
Qed.

Lemma assoc_kind_in l n k : assoc_kind l n = Some k → (n, k) ∈ l.
Proof.
  induction l as [|[s q] l IH]; [done|]. cbn. destruct (String.eqb n s) eqn:E.
  - apply String.eqb_eq in E as ->. intros [= ->]. left.
  - right. by apply IH.
Qed.

(** A kind other than a spawn was read from the annotation that names it. *)
Lemma getSemanticKind_annotation o f k :
  as_func o = Some f → getSemanticKind (Some o) = k → k ≠ Unknown → k ≠ ThreadSpawn →
  ∃ n, (n, k) ∈ annotation_kinds ∧ hasAnnotation (Some o) n = true.
Proof.
  intros Hf Hk Hu Hs. unfold getSemanticKind in Hk. rewrite Hf in Hk.
  assert (kindByName (sym_name f) = Unknown ∨ kindByName (sym_name f) = ThreadSpawn) as [E|E].
  { unfold kindByName. destruct (in_set _ _); [by right|].
    destruct (String.eqb _ _); [by right|]. destruct (String.eqb _ _); [by right|].
    destruct (contains _ _); [by right|by left]. }
  all: rewrite E in Hk.
  2: { by subst. }
  unfold hasAnnotation. rewrite Hf. destruct (annotations f) as [l|]; [|by subst].
  destruct (first_some annotation_kind l) as [k'|] eqn:Ef; cbn in Hk; [|by subst]. subst k'.
  apply first_some_spec in Ef as (a & Ha & Ek). destruct a as [n|]; [|done].
  cbn in Ek. exists n. split; [by apply assoc_kind_in|].
  apply existsb_exists. exists (Annotation n). split; [by apply list_elem_of_In|]. apply String.eqb_refl.
Qed.

(** ** Values *)

Section values.
Variable m : module.

(** How far [traceToLocalRoot] goes in one turn of its loop. *)
Definition local_step (v : value) : option value :=
  match defining_op m v with
  | None => None
  | Some d =>
      match op_kind d with
      | KCast Cbitcast | KCast Carray_to_ptrdecay => head (operands d)
      | KUcc => match operands d with [x] => Some x | _ => None end
      | _ => None
      end
  end.

Fixpoint local_root (fuel : nat) (v : value) : value :=
  match fuel with
  | 0 => v
  | S n => match local_step v with Some w => local_root n w | None => v end
  end.

Definition traceToLocalRoot (v : value) : value := local_root (List.length (walk_module m)) v.

Lemma local_root_stops (rank : value → nat) fuel v :
  (∀ v w, local_step v = Some w → rank w < rank v)%nat → (rank v ≤ fuel)%nat →
  local_step (local_root fuel v) = None.
Proof.
  intros Hr. revert v. induction fuel as [|fuel IH]; intros v Hv; cbn.
  - destruct (local_step v) as [w|] eqn:E; [|done]. apply Hr in E. lia.
  - destruct (local_step v) as [w|] eqn:E; [|done]. apply IH. apply Hr in E. lia.
Qed.

(** Where each value is numbered by a place in the module before which what
    it is made from is numbered, the trace ends at a root. *)
Lemma traceToLocalRoot_stops (rank : value → nat) v :
  (∀ v w, local_step v = Some w → rank w < rank v)%nat → (∀ v, rank v ≤ List.length (walk_module m))%nat →
  local_step (traceToLocalRoot v) = None.
Proof. intros Hr Hb. by apply (local_root_stops rank). Qed.

Definition resolveFunctionOperand (v : value) : option operation :=
  match defining_op m (traceToLocalRoot v) with
  | Some d => match op_kind d with KGetGlobal n => lookup_func m n | _ => None end
  | None => None
  end.

(** [Block::findAncestorOpInBlock]: the operation or the one it sits in
    that is in block [b] itself. *)
Definition findAncestorOpInBlock (b : nat) (o : operation) : option operation :=
  List.find (λ a, match block_of m (op_id a) with Some bl => block_id bl =? b | None => false end)%nat
    (o :: rev (ancestors m (op_id o))).

(** [Operation::isBeforeInBlock] *)
Fixpoint before_in (l : list operation) (i j : nat) : bool :=
  match l with
  | [] => false
  | o :: l' =>
      if (op_id o =? i)%nat then existsb (λ p, op_id p =? j)%nat l'
      else if (op_id o =? j)%nat then false else before_in l' i j
  end.
Definition isBeforeInBlock (o p : operation) : bool :=
  match block_of m (op_id o) with
  | Some bl => before_in (block_ops bl) (op_id o) (op_id p)
  | None => false
  end.

(** The store, then each scope it sits in, up to the one in block
    [top]; nothing when something other than a scope is in between. *)
Fixpoint scope_chain (fuel : nat) (o : operation) (top : nat) : option (list operation) :=
  match fuel with
  | 0 => None
  | S n =>
      if match block_of m (op_id o) with Some bl => block_id bl =? top | None => false end%nat
      then Some [o]
      else match parent_op m (op_id o) with
      | Some p => if is_scope p then option_map (cons o) (scope_chain n p top) else None
      | None => None
      end
  end.

(** The loop of [storeDominatesLoad], outermost scope first. *)
Fixpoint chain_dominates (chain : list operation) (ld : operation) : bool :=
  match chain with
  | [] => false
  | c :: chain' =>
      match block_of m (op_id c) with
      | None => false
      | Some bl =>
          match findAncestorOpInBlock (block_id bl) ld with
          | None => false
          | Some anc =>
              if negb (op_id anc =? op_id c)%nat then isBeforeInBlock c anc
              else chain_dominates chain' ld
          end
      end
  end.

Definition storeDominatesLoad (st ld : operation) (top : nat) : bool :=
  match scope_chain (S (List.length (frames_of m (op_id st)))) st top with
  | None => false
  | Some chain => chain_dominates (rev chain) ld
  end.

Definition store_value (st : operation) : option value := operands st !! 0.
Definition store_addr (st : operation) : option value := operands st !! 1.
Definition load_addr (ld : operation) : option value := operands ld !! 0.

(** A constant null pointer. *)
Definition is_null (v : option value) : bool :=
  match v with
  | Some x =>
      match defining_op m x with
      | Some d => match op_kind d with KConstant (CPtr a) => (a =? 0)%Z | _ => false end
      | None => false
      end
  | None => false
  end.

(** The loop of [singleStoredValue] over the slot's users: the one store
    that is not of a null, and the loads. *)
Fixpoint slot_uses (slot : value) (us : list operation) (theStore : option operation)
    (loads : list operation) : option (option operation * list operation) :=
  match us with
  | [] => Some (theStore, loads)
  | u :: us' =>
      if is_lifetime u then slot_uses slot us' theStore loads
      else if is_store u then
        if negb (bool_decide (store_addr u = Some slot)) then None
        else if is_null (store_value u) then slot_uses slot us' theStore loads
        else match theStore with
        | Some _ => None
        | None => slot_uses slot us' (Some u) loads
        end
      else if is_load u then slot_uses slot us' theStore (u :: loads)
      else None
  end.

Definition singleStoredValue (alloca : operation) : option value :=
  match slot_uses (result alloca) (users m (result alloca)) None [] with
  | Some (Some st, loads) =>
      match block_of m (op_id alloca) with
      | Some bl =>
          if forallb (λ ld, storeDominatesLoad st ld (block_id bl)) loads then store_value st else None
      | None => None
      end
  | _ => None
  end.

(** One turn of [traceToRoot]'s loop: the value stored in the slot that
    [v] was loaded from. *)
Definition root_step (v : value) : option value :=
  match defining_op m v with
  | Some ld =>
      if is_load ld then
        match load_addr ld with
        | Some a =>
            match defining_op m a with
            | Some slot => if is_alloca slot then singleStoredValue slot else None
            | None => None
            end
        | None => None
        end
      else None
  | None => None
  end.

Fixpoint root (fuel : nat) (v : value) : value :=
  let l := traceToLocalRoot v in
  match fuel with
  | 0 => l
  | S n => match root_step l with Some w => root n w | None => l end
  end.

Definition traceToRoot (v : value) : value := root (List.length (walk_module m)) v.

(** ** Indirect calls *)

(** The symbols an operation's attributes name, one entry for each. *)
Definition symbol_refs (o : operation) : list string :=
  match op_kind o with
  | KCall c => match callee c with Some n => [n] | None => [] end
  | KGetGlobal n => [n]
  | KFunc f => match aliasee f with Some n => [n] | None => [] end
  | KWtc _ a => match fallback_impl a with Some n => [n] | None => [] end
  | _ => []
  end ++ flat_map (λ '(_, a), match a with ASym s => [s] | _ => [] end) (op_attrs o).

(** [SymbolTable::getSymbolUses] within the module *)
Definition symbol_uses (n : string) : list operation :=
  flat_map (λ o, map (λ _, o) (List.filter (String.eqb n) (symbol_refs o))) (walk_module m).

Definition is_indirect (o : operation) : bool :=
  match as_call o with Some c => negb (match callee c with Some _ => true | None => false end) | None => false end.

(** The function whose address an operand is. *)
Definition function_behind (v : option value) : option operation :=
  match v with
  | Some x =>
      match defining_op m (traceToRoot x) with
      | Some d => match op_kind d with KGetGlobal n => lookup_func m n | _ => None end
      | None => None
      end
  | None => None
  end.

Definition op_in (o : operation) (l : list operation) : bool :=
  existsb (λ p, op_id p =? op_id o)%nat l.

(** The loop over the uses of the enclosing function. *)
Fixpoint actuals (idx : nat) (us : list operation) (out : list operation) : list operation :=
  match us with
  | [] => out
  | site :: us' =>
      if negb (match as_call site with Some _ => true | None => false end) || is_indirect site then []
      else
        let k := (firstRealOperand m site + idx)%nat in
        if (List.length (operands site) <=? k)%nat then []
        else match function_behind (operands site !! k) with
        | None => []
        | Some f => actuals idx us' (if op_in f out then out else out ++ [f])
        end
  end.

Definition indirectCallees (o : operation) : list operation :=
  if negb (is_indirect o) then [] else
  match operands o with
  | [] => []
  | target :: _ =>
      let fnv := traceToRoot target in
      let direct := match defining_op m fnv with
        | Some d => match op_kind d with KGetGlobal n => Some (lookup_func m n) | _ => None end
        | None => None
        end in
      match direct with
      | Some f => match f with Some x => [x] | None => [] end
      | None =>
          match fnv with
          | VRes _ _ => []
          | VArg b idx =>
              match block_owner m b with
              | Some (owner, entry) =>
                  match as_func owner with
                  | Some g =>
                      if body_empty owner || negb entry || negb (local_linkage g) then []
                      else actuals idx (symbol_uses (sym_name g)) []
                  | None => []
                  end
              | None => []
              end
          end
      end
  end.
End values.

(** ** Functions known by name *)

Definition isCQueueRuntime (f : option operation) : bool :=
  match f with Some o => starts_with (name_of_func o) "wtc_c_queue_" | None => false end.

Definition argument_functions : list string :=
  ["memcpy"; "memmove"; "memset"; "memcmp"; "memchr"; "strlen"; "strcmp"; "strncmp";
   "abs"; "labs"; "llabs"; "sqrt"; "sqrtf"; "fabs"; "fabsf"].

Definition touchesOnlyItsArguments (f : operation) : bool :=
  body_empty f && in_set argument_functions (name_of_func f).

Definition allocator_names : list string :=
  ["malloc"; "calloc"; "aligned_alloc"; "memalign"; "posix_memalign"; "_Znwm"; "_Znam";
   "_ZnwmSt11align_val_t"; "_ZnamSt11align_val_t";
   "rte_malloc"; "rte_zmalloc"; "rte_calloc"; "rte_malloc_socket"; "rte_zmalloc_socket";
   "rte_calloc_socket"; "rte_ring_create"; "rte_ring_create_elem"; "rte_stack_create";
   "rte_mempool_create"; "rte_mempool_create_empty"; "rte_pktmbuf_pool_create";
   "rte_pktmbuf_pool_create_by_ops"; "rte_pktmbuf_pool_create_extbuf"].

Definition isAllocator (f : operation) : bool := in_set allocator_names (name_of_func f).

(** ** Callees are functions of the module *)

Lemma function_behind_in m v f : function_behind m v = Some f → f ∈ m ∧ ∃ g, as_func f = Some g.
Proof.
  unfold function_behind. destruct v as [x|]; [|done]. destruct (defining_op m _) as [d|]; [|done].
  destruct (op_kind d); try done. intros H%lookup_func_in. naive_solver.
Qed.

Lemma actuals_in m idx us out f :
  Forall (λ g, g ∈ m ∧ ∃ h, as_func g = Some h) out →
  f ∈ actuals m idx us out → f ∈ m ∧ ∃ g, as_func f = Some g.
Proof.
  revert out. induction us as [|u us IH]; cbn; intros out Hout.
  { rewrite Forall_forall in Hout. apply Hout. }
  destruct (_ || _); [by intros ?%elem_of_nil|].
  destruct (_ <=? _)%nat; [by intros ?%elem_of_nil|].
  destruct (function_behind m _) as [g|] eqn:E; [|by intros ?%elem_of_nil].
  apply IH. destruct (op_in g out); [done|]. apply Forall_app. split; [done|].
  apply Forall_singleton. by eapply function_behind_in.
Qed.

Lemma indirectCallees_in m o f : f ∈ indirectCallees m o → f ∈ m ∧ ∃ g, as_func f = Some g.
Proof.
  unfold indirectCallees. destruct (negb _); [by intros ?%elem_of_nil|].
  destruct (operands o) as [|tg ?]; [by intros ?%elem_of_nil|].
  set (fnv := traceToRoot m tg).
  destruct (match defining_op m fnv with Some _ => _ | None => _ end) as [[x|]|] eqn:E;
    [|by intros ?%elem_of_nil|].
  - intros ->%list_elem_of_singleton. destruct (defining_op m fnv) as [d|]; [|done].
    destruct (op_kind d); try done. injection E as E. apply lookup_func_in in E. naive_solver.
  - destruct fnv as [|b idx]; [by intros ?%elem_of_nil|].
    destruct (block_owner m b) as [[ow en]|]; [|by intros ?%elem_of_nil].
    destruct (as_func ow) as [g|]; [|by intros ?%elem_of_nil].
    destruct (_ || _); [by intros ?%elem_of_nil|]. apply actuals_in. constructor.
Qed.
