(* ===== verification/Asm.v ===== *)
(** * Asm: inline assembly that cannot wait (Blocking.cpp)

    [onlyNonBlockingInstructions] reads an inline assembly string and
    clears it when it is made only of instructions that cannot wait:
    prefetches, the spin-wait hint, fences, the time-stamp counter, no-ops,
    or nothing at all; with [inert], only of those that order no memory
    either.

    [statement_ok] is the per-statement judgement, [logical] the statements
    the loop reads (a prefix standing alone is joined to the next one), and
    [only_statements] shows the loop is their conjunction.  On that rest the
    three properties: the narrower reading accepts less, accepted strings
    compose, and an accepted string names no instruction outside a fixed
    list. *)

From stdpp Require Import base tactics list strings.
From Stdlib Require Import Ascii String ZArith Lia.
From S2P Require Import Prelude Text.

Local Open Scope string_scope.
Local Open Scope list_scope.

Definition bare : list string :=
  ["pause"; "lfence"; "mfence"; "sfence"; "rdtsc"; "rdtscp"; "nop"; "yield"; "isb"].
Definition bareInert : list string := ["rdtsc"; "rdtscp"; "nop"].

(** A compiler operand: [$0], [${0}], [${0:a}]. *)
Definition rdollar : regex := RCat (rlit "$") (rplus digit).
Definition rbraced : regex :=
  rseq [rlit "${"; rplus digit; ropt (RCat (rlit ":") (rplus lower_letter)); rlit "}"].

Definition x86Prefetch : regex :=
  RCat (rlit "prefetch")
    (rseq [ropt (ralts [rlit "t0"; rlit "t1"; rlit "t2"; rlit "nta"; rlit "w"]);
           rplus blank;
           ralts [rdollar; rbraced;
             rseq [ropt (rlit "-"); RStar digit; rlit "(%"; rplus alnum;
                   ropt (rseq [rlit ","; RStar blank; rlit "%"; rplus alnum;
                               ropt (rseq [rlit ","; RStar blank; rany "1248"])]);
                   rlit ")"]]]).

Definition armPrefetch : regex :=
  RCat (rlit "prfm")
    (rseq [rplus blank; rlit "p"; ralts [rlit "ld"; rlit "li"; rlit "st"]; rlit "l"; rany "123";
           ralts [rlit "keep"; rlit "strm"]; rlit ","; RStar blank;
           ralts [rseq [rlit "["; rplus alnum;
                        ropt (rseq [rlit ","; RStar blank; rlit "#"; ropt (rlit "-"); rplus digit]);
                        rlit "]"];
                  rseq [rlit "["; rdollar; rlit "]"];
                  rseq [rlit "["; rbraced; rlit "]"];
                  rdollar; rbraced]]).

Definition barrier_kinds : list string :=
  ["sy"; "ld"; "st"; "ish"; "ishld"; "ishst"; "osh"; "oshld"; "oshst"; "nsh"; "nshld"; "nshst"].
Definition armBarrier : regex :=
  RCat (RAlt (rlit "dmb") (rlit "dsb")) (rseq [rplus blank; ralts (map rlit barrier_kinds)]).

Definition stackFence : regex :=
  RCat (rlit "lock")
    (rseq [rplus blank; rlit "add"; ropt (rany "bwlq"); rplus blank; rlit "$$0,"; RStar blank;
           rlit "-"; rplus digit; rlit "(%rsp)"]).

(** A control character other than a newline, a carriage return or a tab. *)
Definition control (c : ascii) : bool :=
  let n := nat_of_ascii c in
  ((n <? 32) && negb ((n =? 10) || (n =? 13) || (n =? 9)) || (n =? 127))%nat.

Definition ends_statement (c : ascii) : bool :=
  Ascii.eqb c newline || Ascii.eqb c carriage || Ascii.eqb c ";".

(** The pieces between statement ends, empty ones included. *)
Fixpoint stmts (t : text) : list text :=
  match t with
  | [] => [[]]
  | c :: t' =>
      if ends_statement c then [] :: stmts t'
      else match stmts t' with
           | s :: ss => (c :: s) :: ss
           | [] => [[c]]
           end
  end.

(** What is left of a statement once a comment is cut off. *)
Definition cut_comment (t : text) : text := rtrim (fst (split t (text_of "//"))).

(** A bare instruction, optionally followed by a comment; [only] when it
    must be one in particular. *)
Definition bareAlone (inert : bool) (stmt : text) (only : string) : bool :=
  let '(mn0, rest0) := split stmt (text_of " ") in
  let '(mnemonic, rest1) :=
    if text_contains mn0 [tab] then split stmt [tab] else (mn0, rest0) in
  let rest := trim rest1 in
  text_in bare mnemonic
  && (String.eqb only "" || text_is mnemonic only)
  && (negb inert || text_in bareInert mnemonic)
  && (match rest with [] => true | _ => false end || prefix_of (text_of "#") rest).

(** One statement, comments and blanks around it cut off. *)
Definition statement_ok (inert : bool) (stmt : text) : bool :=
  bareAlone inert stmt ""
  || if prefix_of (text_of "rep ") stmt || prefix_of (text_of "rep" ++ [tab]) stmt
     then negb inert && bareAlone inert (ltrim (drop 4 stmt)) "nop"
     else (matches x86Prefetch stmt || matches armPrefetch stmt)
          || (negb inert && (matches armBarrier stmt || matches stackFence stmt)).

(** The loop over the statements.  [any] records that one was met. *)
Fixpoint check_statements (inert : bool) (ss : list text) (any : bool) : bool :=
  match ss with
  | [] => any || negb inert
  | s :: ss' =>
      let stmt := cut_comment (lowered (trim s)) in
      match stmt with
      | [] => check_statements inert ss' any
      | c :: _ =>
          if Ascii.eqb c "#" then check_statements inert ss' any
          else if text_is stmt "rep" || text_is stmt "lock" then
            match ss' with
            | next :: ss'' =>
                let joined := cut_comment (stmt ++ text_of " " ++ lowered (trim next)) in
                if statement_ok inert joined then check_statements inert ss'' true else false
            | [] => if statement_ok inert stmt then check_statements inert ss' true else false
            end
          else if statement_ok inert stmt then check_statements inert ss' true else false
      end
  end.

Definition onlyNonBlockingInstructions (t : text) (inert : bool) : bool :=
  if text_contains t (text_of "%%") then false
  else if existsb control t then false
  else check_statements inert (stmts t) false.

(** ** The loop as a conjunction over the statements it reads *)

(** The statements as the loop reads them: comments and blanks cut off,
    empty ones and comments left out, a prefix joined to what follows. *)
Fixpoint logical (ss : list text) : list text :=
  match ss with
  | [] => []
  | s :: ss' =>
      let stmt := cut_comment (lowered (trim s)) in
      match stmt with
      | [] => logical ss'
      | c :: _ =>
          if Ascii.eqb c "#" then logical ss'
          else if text_is stmt "rep" || text_is stmt "lock" then
            match ss' with
            | next :: ss'' => cut_comment (stmt ++ text_of " " ++ lowered (trim next)) :: logical ss''
            | [] => [stmt]
            end
          else stmt :: logical ss'
      end
  end.

Definition nonempty {A} (l : list A) : bool := match l with [] => false | _ => true end.

(** Induction two statements at a time, as the loop consumes them. *)
Lemma statements_ind (P : list text → Prop) :
  P [] → (∀ s, P [] → P [s]) →
  (∀ s n ss, P (n :: ss) → P ss → P (s :: n :: ss)) → ∀ ss, P ss.
Proof.
  intros H0 H1 H2 ss. enough (P ss ∧ ∀ s, P (s :: ss)) by tauto.
  induction ss as [|a ss [IH IH']]; split; auto.
Qed.

Lemma check_statements_cons inert s n ss any :
  check_statements inert (s :: n :: ss) any =
  match cut_comment (lowered (trim s)) with
  | [] => check_statements inert (n :: ss) any
  | c :: t =>
     if Ascii.eqb c "#" then check_statements inert (n :: ss) any
     else if text_is (c :: t) "rep" || text_is (c :: t) "lock" then
       if statement_ok inert (cut_comment ((c :: t) ++ text_of " " ++ lowered (trim n)))
       then check_statements inert ss true else false
     else if statement_ok inert (c :: t) then check_statements inert (n :: ss) true else false
  end.
Proof.
  remember (n :: ss) as l eqn:El. cbn [check_statements].
  destruct (cut_comment (lowered (trim s))); [done|]. by rewrite El.
Qed.

Lemma logical_cons s n ss :
  logical (s :: n :: ss) =
  match cut_comment (lowered (trim s)) with
  | [] => logical (n :: ss)
  | c :: t =>
     if Ascii.eqb c "#" then logical (n :: ss)
     else if text_is (c :: t) "rep" || text_is (c :: t) "lock" then
       cut_comment ((c :: t) ++ text_of " " ++ lowered (trim n)) :: logical ss
     else (c :: t) :: logical (n :: ss)
  end.
Proof.
  remember (n :: ss) as l eqn:El. cbn [logical].
  destruct (cut_comment (lowered (trim s))); [done|]. by rewrite El.
Qed.

Lemma check_statements_logical inert ss any :
  check_statements inert ss any =
  forallb (statement_ok inert) (logical ss) && (any || nonempty (logical ss) || negb inert).
Proof.
  revert any. induction ss as [|s IH0|s n ss IH1 IH2] using statements_ind; intros any.
  - cbn. by destruct any.
  - cbn -[statement_ok cut_comment lowered trim text_is].
    destruct (cut_comment (lowered (trim s))) as [|c t] eqn:E; [by destruct any|].
    destruct (Ascii.eqb c "#"); [by destruct any|].
    destruct (text_is _ "rep" || text_is _ "lock"); cbn -[statement_ok cut_comment lowered trim];
      destruct (statement_ok inert (c :: t)); by destruct any.
  - rewrite check_statements_cons, logical_cons.
    destruct (cut_comment (lowered (trim s))) as [|c t]; [apply IH1|].
    destruct (Ascii.eqb c "#"); [apply IH1|].
    destruct (text_is (c :: t) "rep" || text_is (c :: t) "lock"); cbn [forallb nonempty].
    + destruct (statement_ok _ _); [|done]. rewrite IH2. by destruct any.
    + destruct (statement_ok _ _); [|done]. rewrite IH1. by destruct any.
Qed.

Lemma only_statements t inert :
  onlyNonBlockingInstructions t inert = true ↔
  text_contains t (text_of "%%") = false ∧ existsb control t = false ∧
  Forall (λ s, statement_ok inert s = true) (logical (stmts t)) ∧
  (inert = true → logical (stmts t) ≠ []).
Proof.
  unfold onlyNonBlockingInstructions. destruct (text_contains t _); [by split; [|intros []]|].
  destruct (existsb control t); [by split; [|intros (? & ? & ?)]|].
  rewrite check_statements_logical, andb_true_iff, forallb_forall, Forall_forall.
  setoid_rewrite list_elem_of_In. split.
  - intros [Hs Hn]. repeat split; auto. by intros ->; destruct (logical (stmts t)).
  - intros (_ & _ & Hs & Hn). split; [done|]. destruct inert; [|by rewrite orb_true_r].
    specialize (Hn eq_refl). by destruct (logical (stmts t)).
Qed.

(** ** The grammar of statements that cannot wait *)

(** Nothing, or a blank or a tab and then only a comment. *)
Definition only_comment (rest : text) : Prop :=
  rest = [] ∨ ∃ sep r, rest = sep :: r ∧ (sep = " "%char ∨ sep = tab) ∧
    (trim r = [] ∨ prefix_of (text_of "#") (trim r) = true).

(** A bare instruction of the list, and nothing but a comment after it. *)
Definition bare_form (inert : bool) (ok : string → Prop) (stmt : text) : Prop :=
  ∃ mn rest, stmt = text_of mn ++ rest ∧ mn ∈ bare ∧ ok mn ∧ (inert = true → mn ∈ bareInert) ∧
    only_comment rest.

Inductive cannot_wait (inert : bool) : text → Prop :=
| cw_bare stmt : bare_form inert (λ _, True) stmt → cannot_wait inert stmt
| cw_rep_nop sep stmt :
    inert = false → (sep = " "%char ∨ sep = tab) →
    bare_form false (λ mn, mn = "nop") (ltrim stmt) →
    cannot_wait inert (text_of "rep" ++ sep :: stmt)
| cw_prefetch stmt :
    lang x86Prefetch stmt ∨ lang armPrefetch stmt → cannot_wait inert stmt
| cw_fence stmt :
    inert = false → lang armBarrier stmt ∨ lang stackFence stmt → cannot_wait inert stmt.

Lemma split_char_here c a b : c ∉ a → split (a ++ c :: b) [c] = (a, b).
Proof.
  induction a as [|x a IH]; intros Hc; cbn.
  - rewrite Ascii.eqb_refl. cbn. by rewrite drop_0.
  - apply not_elem_of_cons in Hc as [Hx Hc]. apply Ascii.eqb_neq in Hx as ->. cbn. by rewrite IH.
Qed.

Lemma split_char_none c a : c ∉ a → split a [c] = (a, []).
Proof.
  induction a as [|x a IH]; intros Hc; [done|]. cbn.
  apply not_elem_of_cons in Hc as [Hx Hc]. apply Ascii.eqb_neq in Hx as ->. cbn. by rewrite IH.
Qed.

Lemma text_contains_char t c : text_contains t [c] = true ↔ c ∈ t.
Proof.
  induction t as [|x t IH]; cbn; [split; [done|by intros ?%elem_of_nil]|].
  rewrite elem_of_cons, orb_true_iff, IH, andb_true_r, Ascii.eqb_eq. done.
Qed.

(** A text up to its first character [c], if it has one. *)
Lemma at_first_char c (t : text) : c ∉ t ∨ ∃ a b, t = a ++ c :: b ∧ c ∉ a.
Proof.
  destruct (decide (c ∈ t)) as [H|H]; [right|by left].
  apply list_elem_of_split_l in H as (a & b & -> & Ha). eauto.
Qed.

(** The mnemonic [bareAlone] reads ends at the first blank or tab. *)
Lemma mnemonic_split stmt mn0 rest0 mn rest :
  split stmt (text_of " ") = (mn0, rest0) →
  (if text_contains mn0 [tab] then split stmt [tab] else (mn0, rest0)) = (mn, rest) →
  (stmt = mn ∧ rest = []) ∨
  ∃ sep, stmt = mn ++ sep :: rest ∧ (sep = " "%char ∨ sep = tab).
Proof.
  change (text_of " ") with [" "%char]. intros H0.
  destruct (text_contains mn0 [tab]) eqn:Et; intros H1.
  - destruct (at_first_char tab stmt) as [Ht|(a & b & -> & Ht)].
    + rewrite split_char_none in H1 by done. simplify_eq. by left.
    + rewrite split_char_here in H1 by done. simplify_eq. right. eauto.
  - simplify_eq. destruct (at_first_char " "%char stmt) as [Ht|(a & b & -> & Ht)].
    + rewrite split_char_none in H0 by done. simplify_eq. by left.
    + rewrite split_char_here in H0 by done. simplify_eq. right. eauto.
Qed.

Lemma bare_no_blank mn : mn ∈ bare → (" "%char ∉ text_of mn) ∧ (tab ∉ text_of mn).
Proof.
  intros H%list_elem_of_In.
  assert (forallb (λ s, negb (text_contains (text_of s) [" "%char])
                        && negb (text_contains (text_of s) [tab])) bare = true) as HF by done.
  rewrite forallb_forall in HF. specialize (HF mn H).
  apply andb_true_iff in HF as [H1%negb_true_iff H2%negb_true_iff].
  rewrite <-!text_contains_char, H1, H2. done.
Qed.

Lemma text_of_string t : text_of (string_of_list_ascii t) = t.
Proof. apply list_ascii_of_string_of_list_ascii. Qed.

Lemma string_of_text s : string_of_list_ascii (text_of s) = s.
Proof. apply string_of_list_ascii_of_string. Qed.

Lemma rest_ok_spec rest :
  (match rest with [] => true | _ => false end || prefix_of (text_of "#") rest) = true ↔
  rest = [] ∨ prefix_of (text_of "#") rest = true.
Proof. rewrite orb_true_iff. destruct rest; split; intros [|]; auto; done. Qed.

Lemma bareAlone_form inert stmt only (ok : string → Prop) :
  (∀ mn, ok mn ↔ only = "" ∨ mn = only) →
  bareAlone inert stmt only = true ↔ bare_form inert ok stmt.
Proof.
  intros Hok. unfold bareAlone, bare_form.
  destruct (split stmt (text_of " ")) as [mn0 rest0] eqn:E0.
  destruct (if text_contains mn0 [tab] then _ else _) as [mn rest] eqn:E1.
  rewrite !andb_true_iff, rest_ok_spec. unfold text_in. rewrite in_set_spec.
  split.
  - intros [[[Hb Ho] Hi] Hr]. exists (string_of_list_ascii mn).
    rewrite text_of_string.
    assert (only = "" ∨ string_of_list_ascii mn = only) as Hok'%Hok.
    { apply orb_true_iff in Ho as [Ho|Ho]; [left; by apply String.eqb_eq|right].
      apply bool_decide_eq_true in Ho as ->. apply string_of_text. }
    assert (inert = true → string_of_list_ascii mn ∈ bareInert).
    { intros ->. by apply in_set_spec. }
    destruct (mnemonic_split _ _ _ _ _ E0 E1) as [[-> ->]|(sep & -> & Hs)].
    + exists []. rewrite app_nil_r. repeat split; auto. by left.
    + exists (sep :: rest). repeat split; auto. right. eauto 10.
  - intros (mn' & rest' & -> & Hb & Ho & Hi & Hc).
    apply Hok in Ho. destruct (bare_no_blank _ Hb) as [Hsp Htab].
    assert (mn = text_of mn' ∧ (trim rest = [] ∨ prefix_of (text_of "#") (trim rest) = true))
      as [-> Hr].
    { change (text_of " ") with [" "%char] in E0.
      destruct Hc as [->|(sep & r & -> & [->| ->] & Hr)].
      - rewrite app_nil_r in *. rewrite split_char_none in E0 by done. simplify_eq.
        destruct (text_contains _ [tab]) eqn:Et; [by apply text_contains_char in Et|].
        simplify_eq. split; [done|]. by left.
      - rewrite split_char_here in E0 by done. simplify_eq.
        destruct (text_contains _ [tab]) eqn:Et; [by apply text_contains_char in Et|].
        by simplify_eq.
      - assert (tab ∈ mn0) as Ht.
        { destruct (at_first_char " "%char r) as [Hn|(a & b & -> & Hn)].
          - rewrite split_char_none in E0; [simplify_eq; set_solver|].
            rewrite elem_of_app, elem_of_cons. intros [?|[?|?]]; done.
          - rewrite app_comm_cons, app_assoc in E0. rewrite split_char_here in E0;
              [simplify_eq; set_solver|].
            rewrite elem_of_app, elem_of_cons. intros [?|[?|?]]; done. }
        apply text_contains_char in Ht. rewrite Ht in E1. rewrite split_char_here in E1 by done.
        by simplify_eq. }
    rewrite string_of_text. repeat split; auto.
    + apply orb_true_iff. destruct Ho as [->| ->]; [by left|right].
      by apply bool_decide_eq_true.
    + apply orb_true_iff. destruct inert; [right|by left]. apply in_set_spec. auto.
Qed.

Lemma prefix_of_spec p t : prefix_of p t = true ↔ ∃ r, t = p ++ r.
Proof.
  revert t. induction p as [|a p IH]; intros t; cbn.
  { split; [by exists t|done]. }
  destruct t as [|b t]; [by split; [|intros []]|]. rewrite andb_true_iff, Ascii.eqb_eq, IH. split.
  - intros [-> [r ->]]. by exists r.
  - intros [r [= -> ->]]. eauto.
Qed.

(** What the operand patterns match starts with their mnemonic. *)
Lemma pattern_heads t :
  lang x86Prefetch t ∨ lang armPrefetch t ∨ lang armBarrier t ∨ lang stackFence t →
  ∃ mn u, t = text_of mn ++ u ∧ mn ∈ ["prefetch"; "prfm"; "dmb"; "dsb"; "lock"].
Proof.
  assert (∀ mn r, lang (RCat (rlit mn) r) t → mn ∈ ["prefetch"; "prfm"; "dmb"; "dsb"; "lock"] →
    ∃ mn u, t = text_of mn ++ u ∧ mn ∈ ["prefetch"; "prfm"; "dmb"; "dsb"; "lock"]) as Hlit.
  { intros mn r (u & -> & _)%lang_cat_lit ?. eauto. }
  intros [H|[H|[H|H]]]; [eapply Hlit; [exact H|set_solver]..| |eapply Hlit; [exact H|set_solver]].
  unfold armBarrier in H. remember (rseq _) as r eqn:Er. clear Er.
  inversion H as [| |? ? t1 t2 H1 H2| | | |]; subst.
  inversion H1 as [| | |? ? ? H3|? ? ? H3| |]; subst; apply lang_rtext in H3 as ->.
  - exists "dmb", t2. split; [done|set_solver].
  - exists "dsb", t2. split; [done|set_solver].
Qed.

Lemma rep_prefix_spec stmt :
  prefix_of (text_of "rep ") stmt || prefix_of (text_of "rep" ++ [tab]) stmt = true ↔
  ∃ sep r, stmt = text_of "rep" ++ sep :: r ∧ (sep = " "%char ∨ sep = tab).
Proof.
  rewrite orb_true_iff, !prefix_of_spec. split.
  - intros [[r ->]|[r ->]]; [by exists " "%char, r; auto|].
    exists tab, r. rewrite <-app_assoc. auto.
  - intros (sep & r & -> & [->| ->]); [left|right]; exists r; [done|].
    by rewrite <-app_assoc.
Qed.

Lemma statement_ok_spec inert stmt : statement_ok inert stmt = true ↔ cannot_wait inert stmt.
Proof.
  unfold statement_ok.
  assert (bareAlone inert stmt "" = true ↔ bare_form inert (λ _, True) stmt) as Hb.
  { apply bareAlone_form. intros mn. split; auto. }
  assert (∀ st, bareAlone false st "nop" = true ↔ bare_form false (λ mn, mn = "nop") st) as Hn.
  { intros st. apply bareAlone_form. intros mn. split; [auto|by intros [|]]. }
  rewrite orb_true_iff, Hb.
  destruct (prefix_of (text_of "rep ") stmt || _) eqn:Er.
  - apply rep_prefix_spec in Er as (sep & r & Es & Hsep).
    assert (drop 4 stmt = r) as -> by by rewrite Es.
    rewrite andb_true_iff, negb_true_iff.
    split.
    + intros [H|[-> H]]; [by apply cw_bare|]. subst stmt. apply cw_rep_nop; [done..|]. by apply Hn.
    + inversion 1 as [? H1|sep' r' H0 Hs' H1 E|? H1|? H0 H1]; subst.
      * by left.
      * right. apply (inj (app _)) in E. simplify_eq. split; [done|]. by apply Hn.
      * destruct (pattern_heads (text_of "rep" ++ sep :: r)) as (mn & u & E & Hm); [tauto|].
        exfalso. repeat (apply elem_of_cons in Hm as [->|Hm]; [done|]). by apply elem_of_nil in Hm.
      * destruct (pattern_heads (text_of "rep" ++ sep :: r)) as (mn & u & E & Hm); [tauto|].
        exfalso. repeat (apply elem_of_cons in Hm as [->|Hm]; [done|]). by apply elem_of_nil in Hm.
  - rewrite orb_true_iff, andb_true_iff, !orb_true_iff, negb_true_iff, !matches_correct. split.
    + intros [?|[?|[? ?]]]; [by apply cw_bare|by apply cw_prefetch|by apply cw_fence].
    + inversion 1 as [? H1|sep' r' H0 Hs' H1 E|? H1|? H0 H1]; subst; [by left| |auto..].
      exfalso. apply not_true_iff_false in Er. apply Er, rep_prefix_spec. eauto.
Qed.

(** ** The properties *)

(** C31: The reader clears a string exactly when it holds no percent pair and
    no stray control character and every statement of it, once comments are
    cut off and a lone prefix is joined to what it prefixes, is in the
    grammar of instructions that cannot wait ([cannot_wait]: the bare
    instructions of the list followed at most by a comment, rep nop, a
    prefetch, and, unless asked for inert code, a barrier or the locked add
    of zero below the stack pointer); asked for inert code it also wants at
    least one statement. *)
Theorem asm_cleared_iff (t : text) (inert : bool) :
  onlyNonBlockingInstructions t inert = true ↔
  text_contains t (text_of "%%") = false ∧ existsb control t = false ∧
  Forall (cannot_wait inert) (logical (stmts t)) ∧
  (inert = true → logical (stmts t) ≠ []).
Proof.
  rewrite only_statements. by setoid_rewrite statement_ok_spec.
Qed.

Lemma cannot_wait_inert stmt : cannot_wait true stmt → cannot_wait false stmt.
Proof.
  intros [? (mn & rest & H)|? ? ?|? ?|? ?]; [|done|by apply cw_prefetch|done].
  apply cw_bare. exists mn, rest. naive_solver.
Qed.

(** The inert reading is the narrower one: a pass that asks the stronger
    question accepts nothing the shared facts would count as blocking. *)
Lemma asm_inert_narrower t :
  onlyNonBlockingInstructions t true = true → onlyNonBlockingInstructions t false = true.
Proof.
  rewrite !only_statements. setoid_rewrite statement_ok_spec. intros (? & ? & HF & _).
  repeat split; [done..| |done]. eapply Forall_impl; [done|]. apply cannot_wait_inert.
Qed.

(** *** Composition *)

Lemma stmts_app a b c : ends_statement c = true → stmts (a ++ c :: b) = stmts a ++ stmts b.
Proof.
  intros Hc. induction a as [|x a IH]; cbn; [by rewrite Hc|].
  destruct (ends_statement x); [by rewrite IH|]. rewrite IH.
  destruct (stmts a) eqn:E; [|done]. exfalso. clear -E. destruct a as [|y a]; [done|]. cbn in E.
  destruct (ends_statement y); [done|]. by destruct (stmts a).
Qed.

(** A lone prefix with nothing to join is not accepted. *)
Lemma lone_prefix_refused inert stmt :
  text_is stmt "rep" || text_is stmt "lock" = true → statement_ok inert stmt = false.
Proof.
  rewrite orb_true_iff. unfold text_is. rewrite !bool_decide_eq_true.
  intros [->| ->]; destruct inert; by vm_compute.
Qed.

Lemma logical_app inert sa sb :
  Forall (λ s, statement_ok inert s = true) (logical sa) → logical (sa ++ sb) = logical sa ++ logical sb.
Proof.
  induction sa as [|s IH0|s n ss IH1 IH2] using statements_ind; [done| |].
  - destruct sb as [|n sb]; [by rewrite !app_nil_r|].
    change ([s] ++ n :: sb) with (s :: n :: sb). rewrite logical_cons. cbn [logical].
    destruct (cut_comment (lowered (trim s))) as [|c t]; [done|].
    destruct (Ascii.eqb c "#"); [done|].
    destruct (text_is (c :: t) "rep" || text_is (c :: t) "lock") eqn:E; [|done].
    intros [H _]%Forall_cons. by rewrite (lone_prefix_refused _ _ E) in H.
  - change ((s :: n :: ss) ++ sb) with (s :: n :: (ss ++ sb)). rewrite !logical_cons.
    destruct (cut_comment (lowered (trim s))) as [|c t]; [apply IH1|].
    destruct (Ascii.eqb c "#"); [apply IH1|].
    destruct (text_is (c :: t) "rep" || text_is (c :: t) "lock").
    + intros [_ H]%Forall_cons. cbn [app]. by rewrite IH2.
    + intros [_ H]%Forall_cons. specialize (IH1 H). cbn [app] in *. by rewrite IH1.
Qed.

(** A pair of characters does not arise across a third. *)
Lemma no_pair_app x c a b :
  x ≠ c → text_contains a [x; x] = false → text_contains b [x; x] = false →
  text_contains (a ++ c :: b) [x; x] = false.
Proof.
  intros Hx Ha Hb. induction a as [|y a IH]; cbn.
  - apply Ascii.eqb_neq in Hx as ->. cbn. done.
  - cbn in Ha. apply orb_false_iff in Ha as [Ha1 Ha2]. rewrite IH by done.
    destruct (Ascii.eqb x y); [|done]. cbn in *. destruct a as [|z a]; cbn in *; [|by rewrite Ha1].
    by apply Ascii.eqb_neq in Hx as ->.
Qed.

(** Strings the reader clears compose: run one after the other, on
    separate lines, they are cleared too.  No statement of the second can
    be swallowed by the first, a prefix left hanging at its end being
    refused already. *)
Theorem asm_compose (a b : text) (inert : bool) :
  onlyNonBlockingInstructions a inert = true →
  onlyNonBlockingInstructions b inert = true →
  onlyNonBlockingInstructions (a ++ newline :: b) inert = true.
Proof.
  rewrite !only_statements. intros (Pa & Ca & Fa & Na) (Pb & Cb & Fb & Nb).
  rewrite stmts_app, (logical_app inert) by done. repeat split.
  - by apply no_pair_app.
  - rewrite existsb_app, Ca. cbn. by rewrite Cb.
  - by apply Forall_app.
  - intros Hi. specialize (Na Hi). by destruct (logical (stmts a)).
Qed.

Lemma asm_compose_witness :
  onlyNonBlockingInstructions (text_of "rep; nop" ++ newline :: text_of "lock addl $$0, -128(%rsp)") false = true.
Proof. apply (asm_compose (text_of "rep; nop")); by vm_compute. Defined.

(** The strings the comments of the source name, and some it refuses. *)
Example asm_cleared :
  map (λ s, onlyNonBlockingInstructions (text_of s) false)
    ["prefetcht0 $0"; "pause"; ""; "lock addl $$0, -128(%rsp)"; "dmb ish"; "isb # sy";
     "prfm pldl1keep, [$0]"; "MFENCE // full"; "lock; addl $$0, -128(%rsp)"]
  = [true; true; true; true; true; true; true; true; true].
Proof. by vm_compute. Qed.

Example asm_refused :
  map (λ s, onlyNonBlockingInstructions (text_of s) false)
    ["syscall"; "lock cmpxchgl $1, ($0)"; "nop %%eax"; "rep"; "rep stosb"; "hlt"; "lock addl $$1, -128(%rsp)";
     "nop; jmp 1b"]
  = [false; false; false; false; false; false; false; false].
Proof. by vm_compute. Qed.

Example asm_inert_refused :
  map (λ s, onlyNonBlockingInstructions (text_of s) true) [""; "pause"; "mfence"; "rdtsc"; "nop"]
  = [false; false; false; true; true].
Proof. by vm_compute. Qed.
