(* ===== verification/Blocking.v ===== *)
(** * Blocking: may this operation wait? (mlir/lib/WTC/Transforms/Blocking.cpp)

    The shared answer to the one question the progress check and the
    batching passes ask: what a function without a body does, by its name
    ([externalBlocking]), what an operation does by itself, and what it
    reaches through calls ([BlockingQuery]: a walk of the call graph with a
    memo, a set of functions being walked, and a mark for answers that are
    only provisional).  And the progress check itself
    (WTCCheckProgress.cpp), which holds a function declared lock-free to
    its promise.

    The demangler is LLVM's: a parameter.  The walk of the call graph is
    state passing with fuel; BlockingSpec.v shows the fuel given is
    enough. *)

From stdpp Require Import base tactics list strings gmap.
From Stdlib Require Import String ZArith Lia.
From S2P Require Import Prelude Text Cir WtcOps Utils Asm.
Local Open Scope string_scope.

Inductive blocking_kind :=
| Allocates | Waits | Threading | InputOutput | Sleeps | Throws | MayThrow | Opaque
| UnknownTarget | Assembly | Refused.

#[export] Instance blocking_kind_eq_dec : EqDecision blocking_kind.
Proof. solve_decision. Defined.

(** [static_cast<unsigned>] of a kind. *)
Definition kind_index (k : blocking_kind) : Z :=
  match k with
  | Allocates => 0 | Waits => 1 | Threading => 2 | InputOutput => 3 | Sleeps => 4 | Throws => 5
  | MayThrow => 6 | Opaque => 7 | UnknownTarget => 8 | Assembly => 9 | Refused => 10
  end%Z.

(** [BlockingKinds]: a set of kinds as the bits of a word. *)
Definition BlockingKinds (kinds : list blocking_kind) : Z :=
  fold_left (λ bits k, Z.lor bits (Z.shiftl 1 (kind_index k))) kinds 0%Z.
Definition accepts (bits : Z) (k : blocking_kind) : bool :=
  negb (Z.land bits (Z.shiftl 1 (kind_index k)) =? 0)%Z.

Record ExternalBlocking := External {
  ext_kind : blocking_kind;
  ext_what : string;
  ext_threading : bool;
}.

Definition registering : list string :=
  ["rte_ring_create"; "rte_ring_create_elem"; "rte_stack_create"; "rte_mempool_create";
   "rte_mempool_create_empty"; "rte_pktmbuf_pool_create"; "rte_pktmbuf_pool_create_by_ops";
   "rte_pktmbuf_pool_create_extbuf"].
Definition freeing : list string := ["realloc"; "free"; "rte_free"].
Definition newDelete : regex :=
  RCat (rlit "_Z")
    (RAlt (rseq [rlit "n"; rany "wa"; rany "mj"; ropt (rlit "St11align_val_t"); ropt (rlit "RKSt9nothrow_t")])
          (rseq [rlit "d"; rany "la"; rlit "Pv"; ropt (rany "mj"); ropt (rlit "St11align_val_t");
                 ropt (rlit "RKSt9nothrow_t")])).
Definition lock_prefixes : list string :=
  ["pthread_mutex_"; "pthread_cond_"; "pthread_rwlock_"; "pthread_spin_"; "pthread_barrier_"; "sem_";
   "mtx_"; "cnd_"].
Definition waits : list string :=
  ["pthread_join"; "pthread_timedjoin_np"; "pthread_tryjoin_np"; "pthread_once"; "thrd_join";
   "call_once"; "syscall"].
Definition otherWaits : list string :=
  ["semop"; "semtimedop"; "flock"; "lockf"; "poll"; "ppoll"; "epoll_wait"; "epoll_pwait"; "select";
   "pselect"; "recv"; "recvfrom"; "recvmsg"; "recvmmsg"; "accept"; "accept4"; "wait"; "waitpid";
   "wait3"; "wait4"; "waitid"; "pause"; "sigwait"; "sigwaitinfo"; "sigtimedwait"; "sigsuspend";
   "rte_eal_wait_lcore"; "rte_eal_mp_wait_lcore"; "rte_thread_join"].

Section blocking.
Variable demangle : string → string.

(** [externalBlocking]'s lambda [is] *)
Definition ext_is (name : string) (k : blocking_kind) (what : string) (threading : bool)
    : option ExternalBlocking :=
  Some (External k (what ++ " (" ++ name ++ ")") threading).

Definition externalBlocking (f : operation) : option ExternalBlocking :=
  if touchesOnlyItsArguments f then None else
  let mangled := name_of_func f in
  let demangled := demangle mangled in
  let ext := ext_is demangled in
  if in_set registering mangled
  then ext Waits "takes a DPDK library lock (the EAL tail-queue lock)" false
  else if isAllocator f || in_set freeing mangled || matches newDelete (text_of mangled)
  then ext Allocates "calls the allocator" false
  else if existsb (starts_with mangled) lock_prefixes
  then ext Waits "waits in the threading library" true
  else if in_set waits mangled || contains mangled "futex" || starts_with demangled "std::call_once"
       || starts_with demangled "std::thread::join"
       || starts_with demangled "std::condition_variable::wait"
       || contains demangled "condition_variable_any::wait"
  then ext Waits "waits in the threading library" true
  else if in_set ["sched_yield"; "thrd_yield"; "pthread_yield"] mangled
  then ext Waits "sleeps or yields" true
  else if starts_with mangled "pthread_" || starts_with mangled "thrd_"
  then ext Threading "calls into the threading library" true
  else if in_set otherWaits mangled
  then ext Waits "waits for another thread or process" false
  else if starts_with mangled "__cxa_guard_acquire"
  then ext Waits "takes a static-initialisation lock" false
  else if in_set ["printf"; "fprintf"; "puts"; "fputs"; "write"; "read"; "fwrite"; "fflush"] mangled
       || starts_with demangled "std::basic_ostream" || starts_with demangled "std::operator<<"
  then ext InputOutput "does input or output" false
  else if in_set ["sleep"; "usleep"; "nanosleep"] mangled
  then ext Sleeps "sleeps or yields" false
  else if starts_with mangled "__cxa_throw" || starts_with mangled "__cxa_allocate_exception"
       || starts_with mangled "__cxa_rethrow"
  then ext Throws "throws" false
  else if negb (body_empty f)
  then Some (External Opaque ("calls " ++ demangled ++
               ", whose body here may be replaced at link time, so it is counted as blocking") false)
  else Some (External Opaque ("calls " ++ demangled ++
               ", whose body is not visible here, so it is counted as blocking") false).

(** [allocatorCallbackRegistration]: the first registration met. *)
Definition callback_names : list string :=
  ["rte_mem_event_callback_register"; "rte_mem_alloc_validator_register"; "__malloc_hook";
   "__free_hook"; "__realloc_hook"; "__memalign_hook"; "__after_morecore_hook"].
Definition registers (sym : string) : bool :=
  in_set callback_names sym || starts_with (demangle sym) "std::set_new_handler".
Definition allocatorCallbackRegistration (m : module) : option string :=
  first_some (λ o,
    let sym := match op_kind o with
      | KCall c => default "" (callee c)
      | KGetGlobal n => n
      | _ => ""
      end in
    if String.eqb sym "" || negb (registers sym) then None else Some (demangle sym)) (walk_module m).

(** ** The query *)

Record site := Site {
  leaf : operation;
  site_kind : blocking_kind;
  why : string;
  site_callee : option operation;
  site_threading : bool;
  chain : list operation;
  via : list operation;
}.

Record query := Query {
  memo : gmap nat (option site);
  inProgress : gset nat;
  metCycle : bool;
}.

Definition query0 : query := Query ∅ ∅ false.

(** A computation of the query: it may run out of fuel. *)
Definition M (A : Type) : Type := query → option (A * query).
Definition ret {A} (x : A) : M A := λ q, Some (x, q).
Definition bind {A B} (p : M A) (k : A → M B) : M B :=
  λ q, match p q with Some (x, q') => k x q' | None => None end.

Section on_module.
Variable m : module.
Variable accepted : Z.
Variable extra : option (operation → bool → option site).

(** The constructor: stack slots holding the [shared_ptr] of a
    borrowed pop of an inline queue. *)
Definition ownerlessSlots : list value :=
  flat_map (λ o, match op_kind o with
    | KWtc (QueuePopOp true _ _ _ _) a =>
        if bool_decide (wtc_impl a = Some Ispsc_inline)
        then match getOut o with Some v => [v] | None => [] end else []
    | _ => []
    end) (walk_module m).

Fixpoint base_object (fuel : nat) (v : value) : value :=
  match fuel with
  | 0 => v
  | S n =>
      match defining_op m v with
      | Some d => match op_kind d, operands d with
                  | KBaseClassAddr, w :: _ => base_object n w
                  | _, _ => v
                  end
      | None => v
      end
  end.

Definition ownerless (v : value) : bool :=
  bool_decide (base_object (List.length (walk_module m)) v ∈ ownerlessSlots).

(** [BlockingQuery::site] *)
Definition site_of (o : operation) (k : blocking_kind) (reason : string) : option site :=
  if accepts accepted k then None else Some (Site o k reason None false [] []).

(** A target that is not entered: it has no body here, or one the link
    may replace. *)
Definition not_followed (t : operation) : bool := body_empty t || is_interposable t.

(** What a call of such a target is, if it blocks in a way not
    accepted. *)
Definition external_site (call t : operation) (call_nothrow : bool) : option site :=
  let ext := externalBlocking t in
  let make k reason :=
    Some (Site call k reason (Some t)
            (match ext with Some e => ext_threading e | None => false end) [] []) in
  let refused := match ext with
    | Some e => if accepts accepted (ext_kind e) then None else make (ext_kind e) (ext_what e)
    | None => None
    end in
  let waits := match ext with
    | Some e => match ext_kind e with Waits | Threading => true | _ => false end
    | None => false
    end in
  match (if waits then refused else None) with
  | Some s => Some s
  | None =>
      if negb call_nothrow && negb (accepts accepted MayThrow)
      then make MayThrow ("may throw (" ++ demangle (name_of_func t) ++ ")")
      else refused
  end.

(** The targets of a call, or the answer when they need not or cannot
    be looked at: the first half of [callSite]. *)
Definition callTargets (call : operation) : option site + list operation :=
  match lookupCallee m call with
  | Some t =>
      if match operands call with v :: _ => ownerless v | [] => false end
      then inl None else inr [t]
  | None =>
      match indirectCallees m call with
      | [] => inl (site_of call UnknownTarget "makes an indirect call whose target is not known here")
      | ts => inr ts
      end
  end.

Definition prepend (call t : operation) (s : site) : site :=
  Site (leaf s) (site_kind s) (why s) (site_callee s) (site_threading s)
    (call :: chain s) (t :: via s).

(** The loop over the targets: the second half of [callSite]. *)
Fixpoint over_targets (firstIn : operation → M (option site)) (call : operation)
    (call_nothrow : bool) (ts : list operation) : M (option site) :=
  match ts with
  | [] => ret None
  | t :: ts' =>
      if not_followed t then
        match external_site call t call_nothrow with
        | Some s => ret (Some s)
        | None => over_targets firstIn call call_nothrow ts'
        end
      else bind (firstIn t) (λ r, match r with
        | Some s => ret (Some (prepend call t s))
        | None => over_targets firstIn call call_nothrow ts'
        end)
  end.

Definition callSite (firstIn : operation → M (option site)) (call : operation)
    (call_nothrow : bool) : M (option site) :=
  match callTargets call with
  | inl s => ret s
  | inr ts => over_targets firstIn call call_nothrow ts
  end.

Definition asm_reason : string := "runs inline assembly, which is not looked into".

(** What an operation that is not a call is, by itself; nothing for a
    call. *)
Definition own_site (o : operation) : option (option site) :=
  match op_kind o with
  | KWtc w a =>
      Some (if bool_decide (getProgress w a = blocking)
            then site_of o Waits (getBlockingReason o w a)
            else if mayCallAllocator w a then site_of o Allocates (getBlockingReason o w a)
            else None)
  | KInlineAsm t =>
      Some (if onlyNonBlockingInstructions (text_of t) false then None
            else site_of o Assembly asm_reason)
  | k =>
      if contains (op_name o) "asm" then Some (site_of o Assembly asm_reason)
      else match k with
      | KThrow | KAllocException =>
          Some (site_of o Throws "throws: the C++ runtime allocates the exception and unwinds the stack")
      | KCall _ => None
      | _ => Some None
      end
  end.

Definition extra_site (o : operation) (inCallee : bool) : option site :=
  match extra with Some e => e o inCallee | None => None end.

Definition call_nothrow (o : operation) : bool :=
  match as_call o with Some c => nothrow c | None => false end.

Definition siteAt (firstIn : operation → M (option site)) (o : operation) (inCallee : bool)
    : M (option site) :=
  match extra_site o inCallee with
  | Some s => ret (Some s)
  | None =>
      match own_site o with
      | Some s => ret s
      | None => callSite firstIn o (call_nothrow o)
      end
  end.

(** The walk of a body, interrupted at the first site. *)
Fixpoint walk_first (firstIn : operation → M (option site)) (l : list operation) : M (option site) :=
  match l with
  | [] => ret None
  | o :: l' =>
      bind (siteAt firstIn o true) (λ r, match r with
        | Some s => ret (Some s)
        | None => walk_first firstIn l'
        end)
  end.

Fixpoint firstIn (fuel : nat) (f : operation) : M (option site) :=
  match fuel with
  | 0 => λ _, None
  | S n => λ q,
      match memo q !! op_id f with
      | Some r => Some (r, q)
      | None =>
          if decide (op_id f ∈ inProgress q)
          then Some (None, Query (memo q) (inProgress q) true)
          else
            match walk_first (firstIn n) (walk f)
                    (Query (memo q) ({[op_id f]} ∪ inProgress q) false) with
            | None => None
            | Some (found, q1) =>
                let memo' := match found, metCycle q1 with
                  | None, true => memo q1
                  | _, _ => <[op_id f := found]> (memo q1)
                  end in
                Some (found, Query memo' (inProgress q1 ∖ {[op_id f]}) (metCycle q || metCycle q1))
            end
      end
  end.

(** Fuel: one for each operation of the module, and one. *)
Definition fuel_of : nat := S (List.length m).

(** [BlockingQuery::at] *)
Definition at_op (o : operation) : M (option site) := siteAt (firstIn fuel_of) o false.

(** The key a site is reported once under. *)
Definition site_key (s : site) : string :=
  String.concat "" (map (λ c, op_loc c ++ ";") (chain s)) ++ op_loc (leaf s) ++ ";" ++ why s.

(** The walk of [sitesIn]: every operation, sites already seen left
    out. *)
Fixpoint collect_sites (l : list operation) (seen : list string) (out : list site) : M (list site) :=
  match l with
  | [] => ret out
  | o :: l' =>
      bind (siteAt (firstIn fuel_of) o false) (λ r, match r with
        | None => collect_sites l' seen out
        | Some s =>
            if in_set seen (site_key s) then collect_sites l' seen out
            else collect_sites l' (site_key s :: seen) (out ++ [s])%list
        end)
  end.

Definition sitesIn (f : operation) : M (list site) := λ q,
  match collect_sites (walk f) [] [] (Query (memo q) ({[op_id f]} ∪ inProgress q) (metCycle q)) with
  | None => None
  | Some (sites, q1) => Some (sites, Query (memo q1) (inProgress q1 ∖ {[op_id f]}) false)
  end.
End on_module.

(** ** The progress check (WTCCheckProgress.cpp) *)

Inductive note :=
| NCalls (call target : operation) (indirect : bool)
| NWhich (at_leaf : operation) (reason : string)
| NMore (n : nat).

Inductive diagnostic :=
| Remark (f : operation)
| Error (f : operation) (notes : list note).

Definition kMaxSites : nat := 8.

Definition site_notes (m : module) (s : site) : list note :=
  (map (λ '(call, target), NCalls call target (negb (is_some (lookupCallee m call)))) (zip (chain s) (via s))
   ++ [NWhich (leaf s) (why s)])%list.

Definition error_notes (m : module) (sites : list site) : list note :=
  (flat_map (site_notes m) (take kMaxSites sites)
   ++ if (kMaxSites <? List.length sites)%nat then [NMore (List.length sites - kMaxSites)] else [])%list.

Definition declared_lock_free (f : operation) : bool :=
  hasAnnotation (Some f) "wtc_progress_lock_free" && negb (body_empty f).

Fixpoint check_functions (m : module) (l : list operation) (out : list diagnostic) (failed : bool)
    : M (list diagnostic * bool) :=
  match l with
  | [] => ret (out, failed)
  | f :: l' =>
      if declared_lock_free f then
        bind (sitesIn m (BlockingKinds [MayThrow]) None f) (λ sites, match sites with
          | [] => check_functions m l' (out ++ [Remark f])%list failed
          | _ => check_functions m l' (out ++ [Error f (error_notes m sites)])%list true
          end)
      else check_functions m l' out failed
  end.

(** [runOnOperation]: the diagnostics, and whether the pass failed. *)
Definition runOnOperation (m : module) : option (list diagnostic * bool) :=
  option_map fst
    (check_functions m (List.filter (λ o, is_some (as_func o)) (walk_module m)) [] false query0).
End blocking.
