(* ===== verification/BlockingSpec.v ===== *)
(** * BlockingSpec: the blocking query is exact

    [can_block] is the reference: an operation may block when it does so by
    itself, or when it calls a body that holds one that may.  The query
    finds a site exactly when that holds ([query_exact]), whatever the
    cycles of the call graph, the memo left by earlier queries and the
    order the functions were asked about; every chain it reports is a path
    of calls that ends at a blocking operation ([query_chains]); and the
    fuel given to the walk is enough.  The progress check inherits it:
    [progress_check_exact].

    The heart is the treatment of cycles.  While the functions in [S] are
    being walked, an answer "nothing found" for [g] means only that no
    path from [g] that avoids [S] blocks ([blocks_avoiding]); a path from
    [g] can be cut after its last visit to [g] ([cut_path]), so the walk of
    [g], under [S] and [g], sees every one of them; and when no function of
    [S] was met the answer holds outright, and is remembered. *)

From stdpp Require Import base tactics list strings gmap.
From Stdlib Require Import String ZArith Lia.
From S2P Require Import Prelude Text Cir WtcOps Utils Asm Blocking.

Section spec.
Context (demangle : string → string) (m : module) (accepted : Z)
        (extra : option (operation → bool → option site)).

Abbreviation external_site := (external_site demangle accepted).
Abbreviation callTargets := (callTargets m accepted).
Abbreviation own_site := (own_site accepted).
Abbreviation extra_site := (extra_site extra).
Abbreviation siteAt := (siteAt demangle m accepted extra).
Abbreviation over_targets := (over_targets demangle accepted).
Abbreviation walk_first := (walk_first demangle m accepted extra).
Abbreviation firstIn := (firstIn demangle m accepted extra).
Abbreviation sitesIn := (sitesIn demangle m accepted extra).
Abbreviation collect_sites := (collect_sites demangle m accepted extra).

(** ** The reference *)

(** The site an operation is by itself, no body entered. *)
Definition direct_site (inCallee : bool) (o : operation) : option site :=
  match extra_site o inCallee with
  | Some s => Some s
  | None =>
      match own_site o with
      | Some s => s
      | None =>
          match callTargets o with
          | inl s => s
          | inr ts =>
              first_some (λ t, external_site o t (call_nothrow o)) (List.filter not_followed ts)
          end
      end
  end.

(** The bodies an operation enters. *)
Definition enters (o : operation) : list operation :=
  match own_site o with
  | Some _ => []
  | None => match callTargets o with
            | inl _ => []
            | inr ts => List.filter (λ t, negb (not_followed t)) ts
            end
  end.

Inductive can_block : bool → operation → Prop :=
| cb_here b o : direct_site b o ≠ None → can_block b o
| cb_call b o t o' : t ∈ enters o → o' ∈ walk t → can_block true o' → can_block b o.

(** A site and the calls that lead to it. *)
Inductive genuine : bool → operation → site → Prop :=
| gen_here b o s : direct_site b o = Some s → genuine b o s
| gen_call b o t o' s :
    t ∈ enters o → o' ∈ walk t → genuine true o' s → genuine b o (prepend o t s).

Lemma genuine_blocks b o s : genuine b o s → can_block b o.
Proof.
  induction 1 as [b o s H|b o t o' s Ht Ho _ IH]; [apply cb_here; by rewrite H|by eapply cb_call].
Qed.

(** ** Blocking paths that avoid a set of functions *)

Inductive blocks_avoiding (S : gset nat) : operation → Prop :=
| ba_here g o :
    op_id g ∉ S → o ∈ walk g → direct_site true o ≠ None → blocks_avoiding S g
| ba_call g o t :
    op_id g ∉ S → o ∈ walk g → t ∈ enters o → blocks_avoiding S t → blocks_avoiding S g.

Lemma blocks_avoiding_none g :
  blocks_avoiding ∅ g ↔ ∃ o, o ∈ walk g ∧ can_block true o.
Proof.
  split.
  - induction 1 as [g o _ Ho Hd|g o t _ Ho Ht _ (o' & Ho' & Hb)].
    + exists o. split; [done|by constructor].
    + exists o. split; [done|]. by eapply cb_call.
  - intros (o & Ho & Hb). revert g Ho. remember true as b eqn:Eb. revert Eb.
    induction Hb as [b o Hd|b o t o' Ht Ho' _ IH]; intros -> g Ho.
    + eapply ba_here; [set_solver|done..].
    + eapply ba_call; [set_solver|done..|]. by apply IH.
Qed.

Lemma enters_in o t : t ∈ enters o → t ∈ m.
Proof.
  unfold enters. destruct (own_site o); [by intros ?%elem_of_nil|].
  unfold Blocking.callTargets. destruct (lookupCallee m o) as [c|] eqn:E.
  - destruct (match operands o with [] => _ | _ :: _ => _ end); [by intros ?%elem_of_nil|].
    cbn. destruct (negb _); [|by intros ?%elem_of_nil].
    intros ->%list_elem_of_singleton. by apply lookupCallee_in in E as [? _].
  - destruct (indirectCallees m o) as [|t0 ts0] eqn:Ei; [by intros ?%elem_of_nil|].
    rewrite <-Ei. intros Ht%list_elem_of_In. apply filter_In in Ht as [Ht _].
    apply list_elem_of_In in Ht. by apply indirectCallees_in in Ht as [? _].
Qed.

Hypothesis wf : wf_ids m = true.

(** A blocking path from [g] that avoids [S], cut after its last visit
    to [g]. *)
Lemma cut_path S g h :
  g ∈ walk_module m → h ∈ walk_module m → op_id g ∉ S → blocks_avoiding S h →
  blocks_avoiding ({[op_id g]} ∪ S) h ∨
  ∃ o, o ∈ walk g ∧ (direct_site true o ≠ None ∨
                     ∃ t, t ∈ enters o ∧ blocks_avoiding ({[op_id g]} ∪ S) t).
Proof.
  intros Hg Hh Hgs Hb. revert Hh.
  induction Hb as [h o Hs Ho Hd|h o t Hs Ho Ht _ IH]; intros Hh.
  - destruct (decide (op_id h = op_id g)) as [E|E].
    + apply (wf_ids_inj m) in E; [|done..]. subst h. right. eauto.
    + left. eapply ba_here; [set_solver|done..].
  - destruct IH as [IH|IH]; [apply module_in_walk; by eapply enters_in| |by right].
    destruct (decide (op_id h = op_id g)) as [E|E].
    + apply (wf_ids_inj m) in E; [|done..]. subst h. right. exists o. eauto.
    + left. eapply ba_call; [set_solver|done..].
Qed.

(** A walk of [g] under [S] and [g] that finds nothing leaves no path
    from [g] avoiding [S]. *)
Lemma nothing_found S g :
  g ∈ walk_module m → op_id g ∉ S →
  (∀ o, o ∈ walk g → direct_site true o = None ∧
     ∀ t, t ∈ enters o → ¬ blocks_avoiding ({[op_id g]} ∪ S) t) →
  ¬ blocks_avoiding S g.
Proof.
  intros Hg Hs Hw Hb. destruct (cut_path S g g) as [H|(o & Ho & H)]; [done..| |].
  - inversion H; set_solver.
  - destruct (Hw o Ho) as [Hd Ht]. destruct H as [H|(t & Hin & H)]; [done|]. by apply (Ht t).
Qed.

(** ** What the state of the query means *)

Definition memo_ok (q : query) : Prop :=
  ∀ i r, memo q !! i = Some r →
    ∃ g, g ∈ walk_module m ∧ op_id g = i ∧
      match r with
      | Some s => ∃ o, o ∈ walk g ∧ genuine true o s
      | None => ¬ blocks_avoiding ∅ g
      end.

(** What a search of a body promises, the functions of [S] being
    walked. *)
Definition finds (S : gset nat) (q : query) (r : option site) (q' : query)
    (found : site → Prop) (none : gset nat → Prop) : Prop :=
  inProgress q' = S ∧ memo_ok q' ∧ (metCycle q = true → metCycle q' = true) ∧
  match r with
  | Some s => found s
  | None => none S ∧ (metCycle q' = false → none ∅)
  end.

Definition rec_ok (S : gset nat) (rec : operation → M (option site)) : Prop :=
  ∀ t q r q', t ∈ m → inProgress q = S → memo_ok q → rec t q = Some (r, q') →
    finds S q r q' (λ s, ∃ o, o ∈ walk t ∧ genuine true o s) (λ A, ¬ blocks_avoiding A t).

(** ** One operation *)

(** Nothing among these targets blocks, paths through [A] aside. *)
Definition targets_clear (o : operation) (ts : list operation) (A : gset nat) : Prop :=
  first_some (λ t, external_site o t (call_nothrow o)) (List.filter not_followed ts) = None ∧
  ∀ t, t ∈ List.filter (λ t, negb (not_followed t)) ts → ¬ blocks_avoiding A t.

Lemma over_targets_ok S rec o ts q r q' :
  rec_ok S rec → (∀ t, t ∈ List.filter (λ t, negb (not_followed t)) ts → t ∈ m) →
  inProgress q = S → memo_ok q →
  over_targets rec o (call_nothrow o) ts q = Some (r, q') →
  finds S q r q'
    (λ s, first_some (λ t, external_site o t (call_nothrow o)) (List.filter not_followed ts) = Some s ∨
          ∃ t o' s', t ∈ List.filter (λ t, negb (not_followed t)) ts ∧ o' ∈ walk t ∧
            genuine true o' s' ∧ s = prepend o t s')
    (targets_clear o ts).
Proof.
  intros Hrec. revert q. induction ts as [|t ts IH]; intros q Hin Hq Hm Hrun; cbn in Hrun.
  { injection Hrun as <- <-. repeat split; auto; by intros ? ?%elem_of_nil. }
  destruct (not_followed t) eqn:Hf.
  - destruct (external_site o t (call_nothrow o)) as [s|] eqn:He.
    + injection Hrun as <- <-. repeat split; auto. cbn. rewrite Hf. cbn. rewrite He. auto.
    + eapply IH in Hrun; [|intros t' Ht'; apply Hin; cbn; by rewrite Hf|done..].
      unfold finds, targets_clear in *. cbn. rewrite Hf. cbn. by rewrite He.
  - unfold bind in Hrun. destruct (rec t q) as [[rt q1]|] eqn:Ht; [|done].
    assert (t ∈ m) as Htm by (apply Hin; cbn; rewrite Hf; left).
    destruct (Hrec _ _ _ _ Htm Hq Hm Ht) as (Hq1 & Hm1 & Hc1 & H1).
    destruct rt as [s|].
    + injection Hrun as <- <-. repeat split; auto. right. destruct H1 as (o' & ? & ?).
      exists t, o', s. split; [cbn; rewrite Hf; left|done].
    + eapply IH in Hrun; [|intros t' Ht'; apply Hin; cbn; rewrite Hf; by right|done..].
      destruct Hrun as (? & ? & Hc & Hr). repeat split; auto. cbn. rewrite Hf. cbn.
      destruct r as [s|].
      * destruct Hr as [?|(t' & o' & s' & ? & ?)]; [by left|right].
        exists t', o', s'. split; [by right|done].
      * destruct Hr as [[He Hn] Hr]. destruct H1 as [H1 H1'].
        assert (∀ A, targets_clear o ts A → ¬ blocks_avoiding A t → targets_clear o (t :: ts) A) as Hcons.
        { intros A [? HA] ?. split; cbn; rewrite Hf; [done|].
          intros t' [->|?]%elem_of_cons; [done|by apply HA]. }
        split; [by apply Hcons|]. intros Hq'. apply Hcons; [by apply Hr|].
        apply H1'. destruct (metCycle q1) eqn:?; [|done]. rewrite Hc in Hq'; done.
Qed.

(** Nothing at [o] blocks, paths through [A] aside. *)
Definition op_clear (b : bool) (o : operation) (A : gset nat) : Prop :=
  direct_site b o = None ∧ ∀ t, t ∈ enters o → ¬ blocks_avoiding A t.

Lemma siteAt_ok S rec b o q r q' :
  rec_ok S rec → inProgress q = S → memo_ok q → siteAt rec o b q = Some (r, q') →
  finds S q r q' (genuine b o) (op_clear b o).
Proof.
  intros Hrec Hq Hm Hrun. unfold Blocking.siteAt in Hrun.
  destruct (extra_site o b) as [s|] eqn:He.
  { injection Hrun as <- <-. repeat split; auto. apply gen_here. unfold direct_site. by rewrite He. }
  destruct (own_site o) as [s|] eqn:Ho.
  { injection Hrun as <- <-. repeat split; auto. destruct s as [s|].
    - apply gen_here. unfold direct_site. by rewrite He, Ho.
    - assert (∀ A, op_clear b o A); [|auto]. intros A. unfold op_clear, direct_site, enters.
      rewrite He, Ho. split; [done|]. by intros ? ?%elem_of_nil. }
  unfold callSite in Hrun. destruct (callTargets o) as [s|ts] eqn:Ht.
  { injection Hrun as <- <-. repeat split; auto. destruct s as [s|].
    - apply gen_here. unfold direct_site. by rewrite He, Ho, Ht.
    - assert (∀ A, op_clear b o A); [|auto]. intros A. unfold op_clear, direct_site, enters.
      rewrite He, Ho, Ht. split; [done|]. by intros ? ?%elem_of_nil. }
  assert (enters o = List.filter (λ t, negb (not_followed t)) ts) as Hent.
  { unfold enters. by rewrite Ho, Ht. }
  eapply over_targets_ok in Hrun; [|done| |done..];
    [|intros t Hin; rewrite <-Hent in Hin; by eapply enters_in].
  destruct Hrun as (? & ? & ? & Hr). repeat split; auto. destruct r as [s|].
  - destruct Hr as [Hr|(t & o' & s' & Hin & ? & ? & ->)].
    + apply gen_here. unfold direct_site. by rewrite He, Ho, Ht.
    + eapply gen_call; [by rewrite Hent|done..].
  - unfold op_clear, direct_site. rewrite He, Ho, Ht, Hent. exact Hr.
Qed.

(** ** One body *)

Lemma walk_first_ok S rec l q r q' :
  rec_ok S rec → inProgress q = S → memo_ok q → walk_first rec l q = Some (r, q') →
  finds S q r q' (λ s, ∃ o, o ∈ l ∧ genuine true o s) (λ A, ∀ o, o ∈ l → op_clear true o A).
Proof.
  intros Hrec. revert q. induction l as [|o l IH]; intros q Hq Hm Hrun; cbn in Hrun.
  { injection Hrun as <- <-. split; [done|split; [done|split; [done|]]].
    split; [|intros _]; by intros ? ?%elem_of_nil. }
  unfold bind in Hrun. destruct (siteAt rec o true q) as [[r1 q1]|] eqn:H1; [|done].
  eapply siteAt_ok in H1 as (Hq1 & Hm1 & Hc1 & Hr1); [|done..]. destruct r1 as [s|].
  { injection Hrun as <- <-. repeat split; auto. exists o. split; [left|done]. }
  eapply IH in Hrun as (? & ? & Hc & Hr); [|done..]. repeat split; auto.
  destruct r as [s|].
  { destruct Hr as (o' & ? & ?). exists o'. split; [by right|done]. }
  destruct Hr as [Hr Hr'], Hr1 as [Hr1 Hr1']. split.
  - intros o' [->|?]%elem_of_cons; [done|by apply Hr].
  - intros Hq'. intros o' [->|?]%elem_of_cons; [|by apply Hr'].
    apply Hr1'. destruct (metCycle q1); [|done]. rewrite Hc in Hq'; done.
Qed.

Lemma memo_ok_insert q i g r mc ip :
  memo_ok q → g ∈ walk_module m → op_id g = i →
  match r with
  | Some s => ∃ o, o ∈ walk g ∧ genuine true o s
  | None => ¬ blocks_avoiding ∅ g
  end → memo_ok (Query (<[i:=r]> (memo q)) ip mc).
Proof.
  intros Hm Hg Hi Hr j r' Hj. cbn in Hj.
  apply lookup_insert_Some in Hj as [[<- <-]|[_ Hj]]; [eauto|by apply Hm].
Qed.

Lemma clear_all g :
  (∀ o, o ∈ walk g → op_clear true o ∅) → ¬ blocks_avoiding ∅ g.
Proof.
  intros Hc Hb. inversion Hb as [? o _ Ho Hd|? o t _ Ho Ht Hb']; subst.
  - by destruct (Hc o Ho).
  - destruct (Hc o Ho) as [_ Hn]. by apply (Hn t).
Qed.

Lemma firstIn_ok fuel S : rec_ok S (firstIn fuel).
Proof.
  revert S. induction fuel as [|n IH]; intros S t q r q' Htm Hq Hm Hrun; [done|].
  cbn in Hrun. destruct (memo q !! op_id t) as [r0|] eqn:Hmemo.
  { injection Hrun as <- <-. destruct (Hm _ _ Hmemo) as (g & Hg & Hgi & Hr).
    apply (wf_ids_inj m) in Hgi; [|done|done|by apply module_in_walk]. subst g.
    repeat split; auto. destruct r0; [done|]. split; [|done].
    intros Hb. apply Hr. clear -Hb. induction Hb; [by eapply ba_here|by eapply ba_call]. }
  destruct (decide (op_id t ∈ inProgress q)) as [Hin|Hnin].
  { injection Hrun as <- <-. repeat split; auto; cbn; [|done].
    intros Hb. rewrite Hq in Hin. by inversion Hb. }
  destruct (walk_first _ _ _) as [[found q1]|] eqn:Hw; [|done]. injection Hrun as <- <-.
  rewrite Hq in *. assert (t ∈ walk_module m) as Htw by by apply module_in_walk.
  eapply walk_first_ok in Hw as (Hq1 & Hm1 & _ & Hr); [|apply IH|done|done].
  unfold finds. cbn. split; [rewrite Hq1; set_solver|]. repeat split.
  - destruct found as [s|].
    + by eapply memo_ok_insert.
    + destruct (metCycle q1) eqn:Hc; [done|]. eapply memo_ok_insert; [done..|].
      apply clear_all. by apply Hr.
  - by intros ->.
  - destruct found as [s|]; [done|]. destruct Hr as [Hr Hr']. split.
    + apply nothing_found; [done..|]. exact Hr.
    + intros Hc. apply orb_false_iff in Hc as [_ Hc]. by apply clear_all, Hr'.
Qed.

(** ** The fuel is enough *)

Definition module_ids : gset nat := list_to_set (map op_id m).

(** Runs to an answer, and leaves the set being walked as it was. *)
Definition answers {A} (S : gset nat) (p : M A) : Prop :=
  ∀ q, inProgress q = S → ∃ r q', p q = Some (r, q') ∧ inProgress q' = S.

Lemma ret_answers {A} S (x : A) : answers S (ret x).
Proof. intros q Hq. by exists x, q. Qed.

Lemma bind_answers {A B} S (p : M A) (k : A → M B) :
  answers S p → (∀ x, answers S (k x)) → answers S (bind p k).
Proof.
  intros Hp Hk q Hq. destruct (Hp q Hq) as (x & q1 & Hx & Hq1). unfold bind. rewrite Hx.
  by apply Hk.
Qed.

Lemma siteAt_answers S rec o b :
  (∀ t, t ∈ m → answers S (rec t)) → answers S (siteAt rec o b).
Proof.
  intros Hrec. unfold Blocking.siteAt. destruct (extra_site o b); [apply ret_answers|].
  destruct (own_site o) as [|] eqn:Ho; [apply ret_answers|].
  unfold callSite. destruct (callTargets o) as [|ts] eqn:Ht; [apply ret_answers|].
  assert (∀ t, t ∈ ts → not_followed t = false → t ∈ m) as Hts.
  { intros t Hin Hf. apply (enters_in o). unfold enters. rewrite Ho, Ht.
    apply list_elem_of_In, filter_In. split; [by apply list_elem_of_In|by rewrite Hf]. }
  clear Ht. induction ts as [|t ts IH]; [apply ret_answers|]. cbn.
  destruct (not_followed t) eqn:Hf.
  - destruct (external_site o t _); [apply ret_answers|]. apply IH. intros t' ? ?.
    apply Hts; [by right|done].
  - apply bind_answers; [apply Hrec, Hts; [left|done]|]. intros [s|]; [apply ret_answers|].
    apply IH. intros t' ? ?. apply Hts; [by right|done].
Qed.

Lemma firstIn_answers fuel S t :
  t ∈ m → size (module_ids ∖ S) < fuel → answers S (firstIn fuel t).
Proof.
  revert S t. induction fuel as [|n IH]; intros S t Ht Hn q Hq; [lia|]. cbn.
  destruct (memo q !! op_id t) as [r|]; [by eexists _, _|].
  destruct (decide _) as [|Hnin]; [by eexists _, _|].
  assert (answers ({[op_id t]} ∪ S) (walk_first (firstIn n) (walk t))) as Hw.
  { assert (∀ u, u ∈ m → answers ({[op_id t]} ∪ S) (firstIn n u)) as Hrec.
    { intros u Hu. apply IH; [done|]. rewrite Hq in Hnin.
      apply Nat.lt_le_trans with (size (module_ids ∖ S)); [|lia].
      apply subset_size. split; [set_solver|]. intros Hsub.
      assert (op_id t ∈ module_ids) as Hid.
      { apply elem_of_list_to_set. by apply list_elem_of_fmap_2. }
      set_solver. }
    induction (walk t) as [|o l IHl]; [apply ret_answers|]. cbn.
    apply bind_answers; [by apply siteAt_answers|]. intros [s|]; [apply ret_answers|done]. }
  destruct (Hw (Query (memo q) ({[op_id t]} ∪ inProgress q) false)) as (r & q' & -> & Hq');
    [by rewrite <-Hq|].
  eexists _, _. split; [done|]. cbn. rewrite Hq', <-Hq. set_solver.
Qed.

Lemma fuel_enough S t : t ∈ m → answers S (firstIn (fuel_of m) t).
Proof.
  intros Ht. apply firstIn_answers; [done|]. unfold fuel_of.
  apply Nat.le_lt_trans with (size module_ids); [apply subseteq_size; set_solver|].
  unfold module_ids. rewrite <-(length_map op_id m). apply Nat.lt_succ_r.
  generalize (map op_id m). intros l. induction l as [|x l IHl]; cbn; [by rewrite size_empty|].
  rewrite size_union_alt, size_singleton. apply le_n_S. etransitivity; [|exact IHl].
  apply subseteq_size. set_solver.
Qed.

(** ** The queries *)

(** The state of a query after any sequence of questions. *)
Inductive asked : query → Prop :=
| asked_none : asked query0
| asked_sites q f sites q' :
    asked q → f ∈ walk_module m → sitesIn f q = Some (sites, q') → asked q'
| asked_at q o r q' :
    asked q → at_op demangle m accepted extra o q = Some (r, q') → asked q'.

Lemma collect_sites_ok S l seen out q sites q' :
  inProgress q = S → memo_ok q → collect_sites l seen out q = Some (sites, q') →
  inProgress q' = S ∧ memo_ok q' ∧
  (∃ new, sites = out ++ new ∧ ∀ s, s ∈ new → ∃ o, o ∈ l ∧ genuine false o s) ∧
  (seen = [] ∨ out ≠ [] → sites = [] → ∀ o, o ∈ l → op_clear false o S).
Proof.
  revert seen out q. induction l as [|o l IH]; intros seen out q Hq Hm Hrun; cbn [Blocking.collect_sites] in Hrun.
  { injection Hrun as <- <-. split; [done|split; [done|split]]; [|by intros ? ? ? ?%elem_of_nil].
    exists []. rewrite app_nil_r. split; [done|by intros ? ?%elem_of_nil]. }
  unfold bind in Hrun. destruct (siteAt _ o false q) as [[r1 q1]|] eqn:H1; [|done].
  eapply siteAt_ok in H1 as (Hq1 & Hm1 & _ & Hr1); [|apply firstIn_ok|done..].
  destruct r1 as [s|]; [destruct (in_set seen (site_key s)) eqn:Hin|].
  - eapply IH in Hrun as (? & ? & (new & Hs & Hnew) & Hcl); [|done..].
    split; [done|split; [done|split]].
    + exists new. split; [done|]. intros s' (o' & ? & ?)%Hnew. exists o'. split; [by right|done].
    + intros [->|Hout] Hnil; [done|]. subst sites. by apply app_eq_nil in Hnil as [-> _].
  - eapply IH in Hrun as (? & ? & (new & Hs & Hnew) & Hcl); [|done..].
    split; [done|split; [done|split]].
    + exists (s :: new). rewrite Hs, <-app_assoc. split; [done|].
      intros s' [->|(o' & ? & ?)%Hnew]%elem_of_cons.
      * exists o. split; [left|done].
      * exists o'. split; [by right|done].
    + intros _ Hnil. subst sites. apply app_eq_nil in Hnil as [Hnil _].
      by destruct out.
  - eapply IH in Hrun as (? & ? & (new & Hs & Hnew) & Hcl); [|done..].
    split; [done|split; [done|split]].
    + exists new. split; [done|]. intros s' (o' & ? & ?)%Hnew. exists o'. split; [by right|done].
    + intros Hs0 Hnil o' [->|?]%elem_of_cons; [by apply Hr1|]. by apply Hcl.
Qed.

Lemma sitesIn_ok f q sites q' :
  inProgress q = ∅ → memo_ok q → sitesIn f q = Some (sites, q') →
  inProgress q' = ∅ ∧ memo_ok q' ∧
  (∀ s, s ∈ sites → ∃ o, o ∈ walk f ∧ genuine false o s) ∧
  (sites = [] → ∀ o, o ∈ walk f → op_clear false o {[op_id f]}).
Proof.
  intros Hq Hm Hrun. unfold Blocking.sitesIn in Hrun.
  destruct (collect_sites _ _ _ _) as [[sites' q1]|] eqn:Hc; [|done]. injection Hrun as <- <-.
  eapply collect_sites_ok in Hc as (Hq1 & Hm1 & (new & -> & Hnew) & Hcl); [|done|done]. cbn in *.
  rewrite Hq1, Hq. split; [set_solver|split; [done|split; [done|]]]. rewrite Hq, (right_id_L ∅ (∪)) in Hcl. auto.
Qed.

Lemma op_clear_none b o : op_clear b o ∅ → ¬ can_block b o.
Proof.
  intros [Hd Ht] Hcb. inversion Hcb as [? ? H|? ? t o' Hin Ho Hb]; subst; [done|].
  apply (Ht t Hin), blocks_avoiding_none. eauto.
Qed.

Lemma asked_ok q : asked q → inProgress q = ∅ ∧ memo_ok q.
Proof.
  induction 1 as [|q f sites q' _ [IH1 IH2] _ H|q o r q' _ [IH1 IH2] H].
  - split; [done|]. intros i r. cbn. by rewrite lookup_empty.
  - eapply sitesIn_ok in H; naive_solver.
  - eapply siteAt_ok in H as (? & ? & _); [done|apply firstIn_ok|done..].
Qed.

(** What the asking pass refuses in a callee it refuses in the code it
    asked about. *)
Hypothesis extra_mono : ∀ o, extra_site o true ≠ None → extra_site o false ≠ None.

Lemma direct_site_mono o : direct_site true o ≠ None → direct_site false o ≠ None.
Proof.
  unfold direct_site. specialize (extra_mono o).
  destruct (extra_site o true), (extra_site o false); try done. by intros _; destruct extra_mono.
Qed.

(** A function walked with itself marked: nothing left to find. *)
Lemma self_marked_clear f :
  f ∈ walk_module m → (∀ o, o ∈ walk f → op_clear false o {[op_id f]}) →
  ∀ o, o ∈ walk f → ¬ can_block false o.
Proof.
  intros Hf Hcl o Ho Hcb. inversion Hcb as [? ? H|? ? t o' Hin Ho' Hb]; subst; [by destruct (Hcl o Ho)|].
  destruct (cut_path ∅ f t) as [H|(o2 & Ho2 & [H|(t2 & Ht2 & H)])]; [done| |set_solver| | | |].
  - apply module_in_walk. by eapply enters_in.
  - apply blocks_avoiding_none. eauto.
  - rewrite (right_id_L ∅ (∪)) in H. by destruct (Hcl o Ho) as [_ ?%(λ H, H t Hin)].
  - apply direct_site_mono in H. by destruct (Hcl o2 Ho2).
  - rewrite (right_id_L ∅ (∪)) in H. by destruct (Hcl o2 Ho2) as [_ ?%(λ H, H t2 Ht2)].
Qed.

Lemma sitesIn_answers f q : inProgress q = ∅ → ∃ sites q', sitesIn f q = Some (sites, q').
Proof.
  intros Hq. unfold Blocking.sitesIn.
  assert (∀ l seen out, answers ({[op_id f]} ∪ ∅) (collect_sites l seen out)) as Hc.
  { induction l as [|o l IH]; intros seen out; cbn [Blocking.collect_sites]; [apply ret_answers|].
    apply bind_answers; [apply siteAt_answers; intros t Ht; by apply fuel_enough|].
    intros [s|]; [destruct (in_set _ _)|]; apply IH. }
  destruct (Hc (walk f) [] [] (Query (memo q) ({[op_id f]} ∪ inProgress q) (metCycle q)))
    as (sites & q1 & -> & _); [cbn; by rewrite Hq|eauto].
Qed.
End spec.

Lemma sitesIn_exact (demangle : string → string) (m : module) (accepted : Z)
    (extra : option (operation → bool → option site)) (q : query) (f : operation) :
  wf_ids m = true →
  (∀ o, extra_site extra o true ≠ None → extra_site extra o false ≠ None) →
  asked demangle m accepted extra q → f ∈ walk_module m →
  ∃ sites q', sitesIn demangle m accepted extra f q = Some (sites, q') ∧
    (sites = [] ↔ ∀ o, o ∈ walk f → ¬ can_block demangle m accepted extra false o).
Proof.
  intros Hwf Hmono Hq Hf. apply asked_ok in Hq as [Hp Hm]; [|done].
  destruct (sitesIn_answers demangle m accepted extra Hwf f q Hp) as (sites & q' & Hrun).
  exists sites, q'. split; [done|].
  eapply sitesIn_ok in Hrun as (_ & _ & Hgen & Hnone); [|done..]. split.
  - intros Hs. by apply self_marked_clear; [| | |apply Hnone].
  - intros Hc. destruct sites as [|s sites]; [done|]. exfalso.
    destruct (Hgen s) as (o & Ho & Hg); [left|]. eapply Hc; [done|]. by eapply genuine_blocks.
Qed.

(** C26: The blocking query is exact and always answers.  Whatever was
    asked of it before, and whatever cycles the calls of the module make,
    asking for the sites of a function returns, and returns none exactly
    when no operation of the function may block: by itself, or through any
    chain of calls into bodies of the module.  (The asking pass's own
    refusal, where there is one, must not refuse in a callee what it
    allows in the code asked about.) *)
Theorem query_exact (demangle : string → string) (m : module) (accepted : Z)
    (extra : option (operation → bool → option site)) (q : query) (f : operation) :
  wf_ids m = true →
  (∀ o, extra_site extra o true ≠ None → extra_site extra o false ≠ None) →
  asked demangle m accepted extra q → f ∈ walk_module m →
  ∃ sites q', sitesIn demangle m accepted extra f q = Some (sites, q') ∧
    (sites = [] ↔ ∀ o, o ∈ walk f → ¬ can_block demangle m accepted extra false o).
Proof. apply sitesIn_exact. Qed.

(** ** Chains *)

(** [calls] and [bodies] lead from operation [o] to [target]: each call is
    an operation of the body entered before it. *)
Inductive call_path (m : module) (accepted : Z) : operation → list operation → list operation → operation → Prop :=
| path_end o : call_path m accepted o [] [] o
| path_call o t o' calls bodies target :
    t ∈ enters m accepted o → o' ∈ walk t → call_path m accepted o' calls bodies target →
    call_path m accepted o (o :: calls) (t :: bodies) target.

Lemma site_of_leaf accepted o k reason s :
  site_of accepted o k reason = Some s →
  leaf s = o ∧ chain s = [] ∧ via s = [] ∧ accepts accepted (site_kind s) = false.
Proof. unfold site_of. destruct (accepts accepted k) eqn:E; [done|]. by intros [= <-]. Qed.

Lemma own_site_leaf accepted o s :
  own_site accepted o = Some (Some s) →
  leaf s = o ∧ chain s = [] ∧ via s = [] ∧ accepts accepted (site_kind s) = false.
Proof.
  intros H. assert (∃ k reason, site_of accepted o k reason = Some s) as (k & reason & Hs);
    [|by eapply site_of_leaf].
  unfold own_site in H.
  destruct (op_kind o); try destruct (contains (op_name o) "asm"); try discriminate H;
    repeat match type of H with
    | context [if ?c then _ else _] => destruct c
    end; simplify_eq; eauto.
Qed.

Lemma external_site_leaf demangle accepted call t nt s :
  external_site demangle accepted call t nt = Some s →
  leaf s = call ∧ chain s = [] ∧ via s = [] ∧ accepts accepted (site_kind s) = false.
Proof.
  unfold external_site. destruct (externalBlocking demangle t) as [[k what th]|]; cbn.
  - destruct k eqn:Ek, (accepts accepted k) eqn:Ea, nt; subst k; rewrite ?Ea; cbn;
      destruct (accepts accepted MayThrow) eqn:Em; cbn; intros; simplify_eq/=; done.
  - destruct nt, (accepts accepted MayThrow) eqn:Em; cbn; intros; simplify_eq/=; done.
Qed.

Lemma direct_site_leaf demangle m accepted b o s :
  direct_site demangle m accepted None b o = Some s →
  leaf s = o ∧ chain s = [] ∧ via s = [] ∧ accepts accepted (site_kind s) = false.
Proof.
  unfold direct_site. cbn. destruct (own_site accepted o) as [os|] eqn:Eo.
  { intros ->. by apply own_site_leaf. }
  destruct (callTargets m accepted o) as [os|ts] eqn:Et.
  - intros ->. unfold callTargets in Et. destruct (lookupCallee m o).
    + by destruct (match operands o with [] => _ | _ => _ end).
    + destruct (indirectCallees m o); simplify_eq. by eapply site_of_leaf.
  - intros (t & _ & H)%first_some_spec. by eapply external_site_leaf.
Qed.

Lemma genuine_path demangle m accepted b o s :
  genuine demangle m accepted None b o s →
  call_path m accepted o (chain s) (via s) (leaf s) ∧ accepts accepted (site_kind s) = false ∧
  ∃ s0, direct_site demangle m accepted None true (leaf s) = Some s0 ∧
        site_kind s = site_kind s0 ∧ why s = why s0.
Proof.
  induction 1 as [b o s H|b o t o' s Ht Ho _ (IH1 & IH2 & IH3)].
  - pose proof (direct_site_leaf _ _ _ _ _ _ H) as (-> & -> & -> & ?).
    split; [constructor|]. split; [done|]. eauto.
  - cbn. split; [by econstructor|]. done.
Qed.

(** Every site the query reports is a fact about the module: its chain
    is a path of calls that starts at an operation of the function asked
    about, each call an operation of the body the call before it enters,
    and it ends at an operation that blocks by itself, in the kind and for
    the reason reported, a kind the asking pass does not accept. *)
Theorem query_chains (demangle : string → string) (m : module) (accepted : Z) (q : query)
    (f : operation) (sites : list site) (q' : query) (s : site) :
  wf_ids m = true → asked demangle m accepted None q →
  sitesIn demangle m accepted None f q = Some (sites, q') → s ∈ sites →
  ∃ o, o ∈ walk f ∧ call_path m accepted o (chain s) (via s) (leaf s) ∧
    accepts accepted (site_kind s) = false ∧
    ∃ s0, direct_site demangle m accepted None true (leaf s) = Some s0 ∧
          site_kind s = site_kind s0 ∧ why s = why s0.
Proof.
  intros Hwf Hq Hrun Hs. apply asked_ok in Hq as [Hp Hm]; [|done].
  eapply sitesIn_ok in Hrun as (_ & _ & Hgen & _); [|done..].
  destruct (Hgen s Hs) as (o & Ho & Hg). exists o. split; [done|]. by eapply genuine_path.
Qed.

(** ** The progress check *)

Definition may_throw_only : Z := BlockingKinds [MayThrow].

(** What a diagnostic is about. *)
Definition diag_func (d : diagnostic) : operation := match d with Remark f => f | Error f _ => f end.
Definition is_error (d : diagnostic) : bool := match d with Remark _ => false | Error _ _ => true end.

Section progress.
Context (demangle : string → string) (m : module) (wf : wf_ids m = true).

Definition never_blocks (f : operation) : Prop :=
  ∀ o, o ∈ walk f → ¬ can_block demangle m may_throw_only None false o.

Lemma no_extra_mono (o : operation) : @extra_site None o true ≠ None → @extra_site None o false ≠ None.
Proof. done. Qed.

Lemma check_functions_ok l out failed q :
  asked demangle m may_throw_only None q → (∀ f, f ∈ l → f ∈ walk_module m) →
  ∃ diags failed' q', check_functions demangle m l out failed q = Some (out ++ diags, failed', q') ∧
    map diag_func diags = List.filter declared_lock_free l ∧
    Forall (λ d, is_error d = false ↔ never_blocks (diag_func d)) diags ∧
    failed' = failed || existsb is_error diags.
Proof.
  revert out failed q. induction l as [|f l IH]; intros out failed q Hq Hl.
  { exists [], failed, q. cbn. rewrite app_nil_r, orb_false_r. repeat split; auto. }
  cbn [check_functions List.filter]. destruct (declared_lock_free f) eqn:Ed.
  2: { apply IH; [done|]. intros g Hg. apply Hl. by right. }
  unfold bind.
  destruct (sitesIn_exact demangle m may_throw_only None q f) as (sites & q1 & Hrun & Hex);
    [done|apply no_extra_mono|done|apply Hl; left|].
  fold may_throw_only. rewrite Hrun.
  assert (asked demangle m may_throw_only None q1) as Hq1.
  { eapply asked_sites; [done|apply Hl; left|done]. }
  assert (∀ g, g ∈ l → g ∈ walk_module m) as Hl' by (intros g Hg; apply Hl; by right).
  destruct sites as [|s sites].
  - destruct (IH (out ++ [Remark f]) failed q1 Hq1 Hl') as (ds & fl & q' & -> & Hd & HF & ->).
    exists (Remark f :: ds), (failed || existsb is_error ds), q'.
    rewrite <-app_assoc. repeat split; [cbn; by rewrite Hd|].
    constructor; [|done]. cbn. rewrite <-Hex. done.
  - destruct (IH (out ++ [Error f (error_notes m (s :: sites))]) true q1 Hq1 Hl')
      as (ds & fl & q' & -> & Hd & HF & ->).
    exists (Error f (error_notes m (s :: sites)) :: ds), true, q'.
    rewrite <-app_assoc. repeat split; [cbn; by rewrite Hd| |cbn; by rewrite orb_true_r].
    constructor; [|done]. cbn. rewrite <-Hex. done.
Qed.
End progress.

(** C27: The progress check is sound and complete for its own notion of
    blocking, and always finishes: it fails the build exactly when some
    function declared lock-free can reach a blocking operation, it emits one
    diagnostic for every such function, in the order of the module, and the
    diagnostic is the reassuring remark exactly when nothing the function
    reaches blocks. *)
Theorem progress_check_exact (demangle : string → string) (m : module) :
  wf_ids m = true →
  ∃ diags failed, runOnOperation demangle m = Some (diags, failed) ∧
    map diag_func diags =
      List.filter declared_lock_free (List.filter (λ o, is_some (as_func o)) (walk_module m)) ∧
    Forall (λ d, is_error d = false ↔ never_blocks demangle m (diag_func d)) diags ∧
    (failed = false ↔
     ∀ f, f ∈ walk_module m → is_some (as_func f) = true → declared_lock_free f = true →
       never_blocks demangle m f).
Proof.
  intros Hwf. set (fs := List.filter (λ o, is_some (as_func o)) (walk_module m)).
  destruct (check_functions_ok demangle m Hwf fs [] false query0) as (ds & fl & q & Hrun & Hd & HF & ->).
  { constructor. }
  { intros f Hf%list_elem_of_In. apply filter_In in Hf as [Hf _]. by apply list_elem_of_In. }
  exists ds, (existsb is_error ds). unfold runOnOperation. fold fs. rewrite Hrun. cbn.
  repeat split; auto.
  - intros He f Hf Hfun Hdecl. rewrite Forall_forall in HF.
    assert (f ∈ map diag_func ds) as Hfd.
    { rewrite Hd. apply list_elem_of_In, filter_In. split; [|done].
      apply filter_In. split; [by apply list_elem_of_In|done]. }
    apply list_elem_of_fmap in Hfd as (d & -> & Hin). apply HF; [done|].
    destruct (is_error d) eqn:Ee; [|done]. rewrite <-not_true_iff_false, existsb_exists in He.
    destruct He. exists d. split; [by apply list_elem_of_In|done].
  - intros Hall. apply not_true_iff_false. rewrite existsb_exists. intros (d & Hin & Ee).
    apply list_elem_of_In in Hin. rewrite Forall_forall in HF.
    enough (is_error d = false) by congruence. apply HF; [done|].
    assert (diag_func d ∈ map diag_func ds) as Hfd by by apply list_elem_of_fmap_2.
    rewrite Hd in Hfd. apply list_elem_of_In, filter_In in Hfd as [Hfd ?].
    unfold fs in Hfd. apply filter_In in Hfd as [Hfd ?]. apply Hall; [by apply list_elem_of_In|done..].
Qed.

(** ** A module with a cycle of calls

    [poll], declared lock-free, calls [step], which calls [poll] back and
    then [leaf]; [leaf] pauses and, when asked to, calls the allocator. *)
Section example.
Local Open Scope string_scope.

Definition ex_func (i : nat) (n : string) (anns : list annot) (ops : list operation) : operation :=
  Op i "cir.func" n (KFunc (Func n false false None (Some anns) None 0)) [] [] [] [[Block i [] ops]].
Definition ex_call (i : nat) (n : string) : operation :=
  Op i "cir.call" n (KCall (CallAttrs (Some n) true None)) [] [] [] [].
Definition ex_extern (i : nat) (n : string) : operation :=
  Op i "cir.func" n (KFunc (Func n false false None None None 0)) [] [] [] [[]].

Definition ex_poll : operation :=
  ex_func 1 "poll" [Annotation "wtc_progress_lock_free"] [ex_call 2 "step"].
Definition ex_module (allocates : bool) : module :=
  [ex_poll;
   ex_func 3 "step" [] [ex_call 4 "poll"; ex_call 5 "leaf"];
   ex_func 6 "leaf" [] (Op 7 "cir.asm" "leaf" (KInlineAsm "pause") [] [] [] []
     :: if allocates then [ex_call 8 "malloc"] else []);
   ex_extern 9 "malloc"].

Lemma query_exact_witness :
  ∃ sites q', sitesIn id (ex_module true) 0 None ex_poll query0 = Some (sites, q') ∧
    (sites = [] ↔ ∀ o, o ∈ walk ex_poll → ¬ can_block id (ex_module true) 0 None false o).
Proof.
  apply (query_exact id (ex_module true) 0 None query0 ex_poll).
  - by vm_compute.
  - done.
  - constructor.
  - by apply (list_elem_of_lookup_2 _ 1).
Defined.

Lemma query_chains_witness :
  ∃ sites q' s, sitesIn id (ex_module true) 0 None ex_poll query0 = Some (sites, q') ∧ s ∈ sites ∧
    ∃ o, o ∈ walk ex_poll ∧ call_path (ex_module true) 0 o (chain s) (via s) (leaf s) ∧
      accepts 0 (site_kind s) = false ∧
      ∃ s0, direct_site id (ex_module true) 0 None true (leaf s) = Some s0 ∧
            site_kind s = site_kind s0 ∧ why s = why s0.
Proof.
  eexists _, _, _. split; [vm_compute; reflexivity|]. split; [left|].
  eapply (query_chains id (ex_module true) 0 query0 ex_poll);
    [by vm_compute|constructor|vm_compute; reflexivity|left].
Defined.

Lemma progress_check_exact_witness :
  ∃ diags failed, runOnOperation id (ex_module false) = Some (diags, failed) ∧
    map diag_func diags =
      List.filter declared_lock_free
        (List.filter (λ o, is_some (as_func o)) (walk_module (ex_module false))) ∧
    Forall (λ d, is_error d = false ↔ never_blocks id (ex_module false) (diag_func d)) diags ∧
    (failed = false ↔
     ∀ f, f ∈ walk_module (ex_module false) → is_some (as_func f) = true →
       declared_lock_free f = true → never_blocks id (ex_module false) f).
Proof. apply (progress_check_exact id (ex_module false)). by vm_compute. Defined.

Example ex_clean : runOnOperation id (ex_module false) = Some ([Remark ex_poll], false).
Proof. by vm_compute. Qed.

Example ex_blocks :
  option_map (λ r, (map is_error (fst r), snd r)) (runOnOperation id (ex_module true)) = Some ([true], true).
Proof. by vm_compute. Qed.
End example.
