(* ===== verification/LiftLower.v ===== *)
(** * LiftLower: calls to dialect operations and back
      (LiftCIRToWTC.cpp, LowerWTCToCIR.cpp)

    Lifting replaces a call into the shim by an operation of the dialect,
    read through the calling convention; lowering rebuilds the call from
    what lifting recorded.  The casts both leave behind are operations with
    numbers of their own, [fresh + op_id] of the operation they serve, and
    the replacement keeps the number of what it replaces, so that uses of
    its result need no rewriting.

    [lift_lower_roundtrip]: lowering what was lifted gives back the call,
    casts aside, with the same callee, operands, argument attributes and
    results; what is lost is the call's nothrow mark, which no attribute
    records.  [lift_well_formed]: when the dialect's verifiers accept what
    was lifted.  [lowered_pure]: nothing of the dialect is left after
    lowering. *)

From stdpp Require Import base tactics list strings.
From Stdlib Require Import String ZArith Lia.
From S2P Require Import Prelude Text Cir WtcOps Utils.
Local Open Scope string_scope.

Definition wtc_name (w : wtc_op) : string :=
  match w with
  | LockOp => "wtc.lock" | UnlockOp => "wtc.unlock"
  | LockBatchBeginOp => "wtc.lock_batch_begin" | LockBatchStepOp => "wtc.lock_batch_step"
  | LockBatchEndOp => "wtc.lock_batch_end"
  | QueuePushOp _ _ _ _ => "wtc.queue_push" | QueuePopOp _ _ _ _ _ => "wtc.queue_pop"
  | QueueBatchBeginOp => "wtc.queue_batch_begin" | QueuePushDeferredOp => "wtc.queue_push_deferred"
  | QueueBatchEndOp => "wtc.queue_batch_end"
  end.

(** What a pattern answers: no match, an error, an operand read out of
    range, or the casts and the new operation. *)
Inductive outcome :=
| NoMatch
| PatternError (msg : string)
| OutOfRange
| Replaced (casts : list operation) (o : operation).

Definition ucc (i : nat) (loc : string) (to : ty) (v : value) : operation :=
  Op i "builtin.unrealized_conversion_cast" loc KUcc [v] [to] [] [].

(** ** Lifting *)
Section lift.
Variable m : module.
Variable fresh : nat.

Definition castTo (o : operation) (to : ty) (v : value) : value * list operation :=
  if bool_decide (type_of m v = Some to) then (v, [])
  else (VRes (fresh + op_id o) 0, [ucc (fresh + op_id o) (op_loc o) to v]).

Definition fallbackOf (o : operation) : option string :=
  match as_call o with Some c => callee c | None => None end.
Definition call_arg_attrs (o : operation) : arg_attr_list :=
  match as_call o with Some c => arg_attrs c | None => None end.

(** The attributes lifting records; topology, number and implementation
    come later. *)
Definition lifted_attrs (o : operation) (handle : value) : wtc_attrs :=
  WtcAttrs (fallbackOf o) (type_of m handle) (call_arg_attrs o) None None None.

Definition replace (o : operation) (casts : list operation) (w : wtc_op) (a : wtc_attrs)
    (args : list value) (results : list ty) : outcome :=
  Replaced casts (Op (op_id o) (wtc_name w) (op_loc o) (KWtc w a) args results [] []).

Definition mutex_op (k : semantic_kind) : option wtc_op :=
  match k with
  | MutexLock => Some LockOp | MutexUnlock => Some UnlockOp
  | MutexBatchBegin => Some LockBatchBeginOp | MutexBatchStep => Some LockBatchStepOp
  | MutexBatchEnd => Some LockBatchEndOp
  | _ => None
  end.

(** [LiftMutexCallPattern::matchAndRewrite] *)
Definition liftMutexCall (o : operation) : outcome :=
  let kind := getSemanticKind (lookupCallee m o) in
  let batchOp := bool_decide (kind ∈ [MutexBatchBegin; MutexBatchStep; MutexBatchEnd]) in
  match mutex_op kind with
  | None => NoMatch
  | Some w =>
      let k := firstRealOperand m o in
      let want := if batchOp then 2%nat else 1%nat in
      if negb (List.length (operands o) =? k + want)%nat
      then PatternError (if batchOp then "wtc: a mutex batch operation takes the mutex and the batch"
                         else "wtc: a mutex operation takes exactly the mutex")
      else match operands o !! k with
      | None => OutOfRange
      | Some handle =>
          let '(mutex, casts) := castTo o MutexTy handle in
          replace o casts w (lifted_attrs o handle) (mutex :: drop (S k) (operands o)) []
      end
  end.

Definition queue_batch_op (k : semantic_kind) : option wtc_op :=
  match k with
  | QueueBatchBegin => Some QueueBatchBeginOp
  | QueuePushDeferred => Some QueuePushDeferredOp
  | QueueBatchEnd => Some QueueBatchEndOp
  | _ => None
  end.

Definition is_push (k : semantic_kind) : bool :=
  bool_decide (k ∈ [QueuePush; QueuePushWait; QueueTryPush; QueuePushOverrun]).
Definition is_wait (k : semantic_kind) : bool := bool_decide (k ∈ [QueuePopWait; QueuePopWaitFor]).

(** The kinds the queue pattern matches. *)
Definition queue_kinds : list semantic_kind :=
  [QueuePush; QueuePushWait; QueueTryPush; QueuePushOverrun; QueuePushBatch; QueuePopBatch;
   QueueTryPop; QueueTryPopInto; QueuePopWait; QueuePopWaitFor; QueueBatchBegin;
   QueuePushDeferred; QueueBatchEnd].

(** The pattern once the queue operand is cast: every form of push and
    pop. *)
Definition lift_queue_form (o : operation) (kind : semantic_kind) (bounded : bool) (k : nat)
    (queue : value) (casts : list operation) (a : wtc_attrs) : outcome :=
  let args := operands o in
  let n := List.length args in
  let results := result_types o in
  let nr := List.length results in
  match queue_batch_op kind with
  | Some w =>
      let want := if bool_decide (kind = QueuePushDeferred) then 3%nat else 2%nat in
      if negb (n =? k + want)%nat then PatternError "wtc: a batch operation takes the queue, the batch"
      else replace o casts w a (queue :: drop (S k) args) []
  | None =>
  if bool_decide (kind ∈ [QueuePushBatch; QueuePopBatch]) then
    if negb (k =? 0)%nat || (n <? 3)%nat || negb (nr =? 1)%nat
    then PatternError "wtc: a batch takes the queue and the caller's ring, and answers how many"
    else if bool_decide (kind = QueuePushBatch)
    then replace o casts (QueuePushOp true true false true) a (queue :: drop 1 args) results
    else replace o casts (QueuePopOp false true true true true) a (queue :: drop 1 args) results
  else if is_push kind then
    if negb (n =? k + 2)%nat then PatternError "wtc: push takes the queue and one value"
    else
      let tryForm := bool_decide (kind = QueueTryPush) in
      if negb (Bool.eqb tryForm (nr =? 1)%nat)
      then PatternError (if tryForm then "wtc: a try_push answers whether it appended"
                         else "wtc: a push returns nothing")
      else replace o casts
             (QueuePushOp bounded (bool_decide (kind = QueuePushWait))
                (bool_decide (kind = QueuePushOverrun)) false) a
             (queue :: drop (S k) args) (if tryForm then results else [])
  else if bool_decide (kind = QueueTryPopInto) then
    if negb (k =? 0)%nat || negb (n =? 2)%nat || (1 <? nr)%nat
    then PatternError "wtc: try_pop into an object takes the queue and the object"
    else replace o casts (QueuePopOp false true false bounded false) a (queue :: drop 1 args) results
  else if is_wait kind then
    let want := if bool_decide (kind = QueuePopWaitFor) then 3%nat else 2%nat in
    if negb (k =? 0)%nat || negb (n =? want)%nat || (1 <? nr)%nat
    then PatternError (if bool_decide (kind = QueuePopWaitFor)
                       then "wtc: pop_wait_for takes the queue, the object and the limit"
                       else "wtc: pop_wait takes the queue and the object")
    else replace o casts (QueuePopOp false true true bounded false) a (queue :: drop 1 args) results
  else if (k =? 1)%nat then
    if negb (n =? 2)%nat || negb (nr =? 0)%nat
    then PatternError "wtc: try_pop with a return slot must have two operands and no result"
    else replace o casts (QueuePopOp false false false bounded false) a (queue :: take 1 args) []
  else
    if negb (n =? 1)%nat || negb (nr =? 1)%nat
    then PatternError "wtc: try_pop without a return slot must have one operand and one result"
    else replace o casts (QueuePopOp false false false bounded false) a [queue] results
  end.

(** [LiftQueueCallPattern::matchAndRewrite] *)
Definition liftQueueCall (o : operation) : outcome :=
  let kind := getSemanticKind (lookupCallee m o) in
  if negb (bool_decide (kind ∈ queue_kinds)) then NoMatch else
  let bounded := hasAnnotation (lookupCallee m o) "wtc_queue_bounded" in
  let k := firstRealOperand m o in
  match operands o !! k with
  | None => OutOfRange
  | Some handle =>
      match type_of m handle with
      | Some (PtrTy pointee) =>
          let '(queue, casts) := castTo o (QueueTy pointee) handle in
          lift_queue_form o kind bounded k queue casts (lifted_attrs o handle)
      | _ => PatternError "wtc: the queue operand is not a pointer"
      end
  end.

(** [CirToWTCConversionTarget]: the calls that must be lifted. *)
Definition illegal (o : operation) : bool :=
  match as_call o with
  | None => false
  | Some _ =>
      negb (insideLiftedRuntime m o)
      && bool_decide (getSemanticKind (lookupCallee m o) ∈
           [MutexLock; MutexUnlock; MutexBatchBegin; MutexBatchStep; MutexBatchEnd] ++ queue_kinds)%list
  end.

(** The two patterns, tried in order. *)
Definition lift_call (o : operation) : outcome :=
  match liftMutexCall o with
  | NoMatch => liftQueueCall o
  | r => r
  end.

(** A legal operation stays; one that must be lifted and cannot fails the
    conversion. *)
Definition lift_op (o : operation) : option (list operation) :=
  if illegal o then
    match lift_call o with
    | Replaced casts w => Some (casts ++ [w])%list
    | _ => None
    end
  else Some [o].
End lift.

(** ** Lowering *)
Section lower.
Variable fresh : nat.

Definition rebuildCall (o : operation) (callee : string) (results : list ty) (args : list value)
    (attrs : arg_attr_list) : operation :=
  Op (op_id o) "cir.call" (op_loc o) (KCall (CallAttrs (Some callee) false attrs)) args results [] [].

(** Every lowering pattern: the handle cast back to its source type, and
    the call with its operands in the source's order. *)
Definition lower_op (o : operation) (w : wtc_op) (a : wtc_attrs) : outcome :=
  match fallback_impl a, source_type a with
  | Some callee, Some source =>
      match operands o with
      | [] => OutOfRange
      | handle :: rest =>
          let cid := (fresh + op_id o)%nat in
          let h := VRes cid 0 in
          let casts := [ucc cid (op_loc o) source handle] in
          let call results args := Replaced casts (rebuildCall o callee results args (source_arg_attrs a)) in
          match w with
          | LockOp | UnlockOp => call [] [h]
          | LockBatchBeginOp | LockBatchStepOp | LockBatchEndOp | QueueBatchBeginOp | QueueBatchEndOp =>
              match rest with batch :: _ => call [] [h; batch] | [] => OutOfRange end
          | QueuePushDeferredOp =>
              match rest with batch :: v :: _ => call [] [h; batch; v] | _ => OutOfRange end
          | QueuePushOp _ _ _ _ =>
              match rest with
              | v :: more => call (take 1 (result_types o)) (h :: v :: more)
              | [] => OutOfRange
              end
          | QueuePopOp _ transfer _ _ _ =>
              match rest with
              | out :: _ =>
                  if transfer then call (take 1 (result_types o)) (h :: rest) else call [] [out; h]
              | [] =>
                  match result_types o with
                  | t :: _ => call [t] [h]
                  | [] => OutOfRange
                  end
              end
          end
      end
  | _, _ => PatternError "wtc: cannot lower an operation that carries no fallback implementation; it was not produced by lifting"
  end.

(** Attributes of the dialect, dropped once every operation is lowered. *)
Definition of_dialect (name : string) : bool :=
  starts_with name "wtc" && starts_with (drop_front 3 name) ".".
Definition strip_attrs (o : operation) : operation :=
  match o with
  | Op i n l k a r at_ rs => Op i n l k a r (List.filter (λ p, negb (of_dialect (fst p))) at_) rs
  end.

Definition lower_one (o : operation) : option (list operation) :=
  match op_kind o with
  | KWtc w a =>
      match lower_op o w a with
      | Replaced casts c => Some (map strip_attrs (casts ++ [c]))%list
      | _ => None
      end
  | _ => Some [strip_attrs o]
  end.
End lower.

(** ** Conversion of a module: every operation, innermost first *)

Fixpoint map_opt {A B} (f : A → option B) (l : list A) : option (list B) :=
  match l with
  | [] => Some []
  | x :: l' =>
      match f x, map_opt f l' with
      | Some y, Some ys => Some (y :: ys)
      | _, _ => None
      end
  end.

Fixpoint convert_op (f : operation → option (list operation)) (o : operation) : option (list operation) :=
  match o with
  | Op i n l k a r at_ rs =>
      match map_opt (map_opt (λ b, match b with
              | Block bi bargs ops =>
                  match map_opt (convert_op f) ops with
                  | Some ls => Some (Block bi bargs (concat ls))
                  | None => None
                  end
              end)) rs with
      | Some rs' => f (Op i n l k a r at_ rs')
      | None => None
      end
  end.

Definition convert (f : operation → option (list operation)) (m : module) : option module :=
  option_map (@concat _) (map_opt (convert_op f) m).

(** [LiftToWTCPass] and [LowerWTCToCIRPass] *)
Definition lift_pass (m : module) (fresh : nat) : option module := convert (lift_op m fresh) m.
Definition lower_pass (m : module) (fresh : nat) : option module := convert (lower_one fresh) m.

(** ** What was lifted, in one shape *)

Definition kind_of (m : module) (o : operation) : semantic_kind := getSemanticKind (lookupCallee m o).

(** The operation [w] lifting made of call [o]: its handle is operand [k]
    of the call, cast to [to]. *)
Record lifted_shape (m : module) (fresh : nat) (o : operation) (casts : list operation) (w : operation)
    (k : nat) (handle : value) (to : ty) (wop : wtc_op) (rest : list value) : Prop := LiftedShape {
  ls_k : k = firstRealOperand m o;
  ls_handle : operands o !! k = Some handle;
  ls_casts : casts = snd (castTo m fresh o to handle);
  ls_op : w = Op (op_id o) (wtc_name wop) (op_loc o) (KWtc wop (lifted_attrs m o handle))
                (fst (castTo m fresh o to handle) :: rest) (result_types w) [] [];
  ls_rest : rest = match wop with
    | QueuePopOp _ false _ _ _ => take k (operands o)
    | _ => drop (S k) (operands o)
    end;
  ls_results : result_types w = [] ∨ result_types w = result_types o;
}.

(** The form an operation takes, by the kind of the call it came from. *)
Definition form_of (m : module) (o : operation) (wop : wtc_op) (n nr : nat) (w_has_result : bool) : Prop :=
  let k := firstRealOperand m o in
  let bounded := hasAnnotation (lookupCallee m o) "wtc_queue_bounded" in
  match kind_of m o with
  | MutexLock => wop = LockOp ∧ n = (k + 1)%nat ∧ w_has_result = false
  | MutexUnlock => wop = UnlockOp ∧ n = (k + 1)%nat ∧ w_has_result = false
  | MutexBatchBegin => wop = LockBatchBeginOp ∧ n = (k + 2)%nat ∧ w_has_result = false
  | MutexBatchStep => wop = LockBatchStepOp ∧ n = (k + 2)%nat ∧ w_has_result = false
  | MutexBatchEnd => wop = LockBatchEndOp ∧ n = (k + 2)%nat ∧ w_has_result = false
  | QueueBatchBegin => wop = QueueBatchBeginOp ∧ n = (k + 2)%nat ∧ w_has_result = false
  | QueueBatchEnd => wop = QueueBatchEndOp ∧ n = (k + 2)%nat ∧ w_has_result = false
  | QueuePushDeferred => wop = QueuePushDeferredOp ∧ n = (k + 3)%nat ∧ w_has_result = false
  | QueuePushBatch => wop = QueuePushOp true true false true ∧ k = 0%nat ∧ (3 ≤ n)%nat ∧ w_has_result = true
  | QueuePopBatch => wop = QueuePopOp false true true true true ∧ k = 0%nat ∧ (3 ≤ n)%nat
  | QueuePush => wop = QueuePushOp bounded false false false ∧ n = (k + 2)%nat ∧ w_has_result = false
  | QueuePushWait => wop = QueuePushOp bounded true false false ∧ n = (k + 2)%nat ∧ w_has_result = false
  | QueuePushOverrun => wop = QueuePushOp bounded false true false ∧ n = (k + 2)%nat ∧ w_has_result = false
  | QueueTryPush => wop = QueuePushOp bounded false false false ∧ n = (k + 2)%nat ∧ w_has_result = true
  | QueueTryPopInto => wop = QueuePopOp false true false bounded false ∧ k = 0%nat ∧ n = 2%nat
  | QueuePopWait => wop = QueuePopOp false true true bounded false ∧ k = 0%nat ∧ n = 2%nat
  | QueuePopWaitFor => wop = QueuePopOp false true true bounded false ∧ k = 0%nat ∧ n = 3%nat
  | QueueTryPop => wop = QueuePopOp false false false bounded false ∧
                   ((k = 1%nat ∧ n = 2%nat ∧ w_has_result = false) ∨
                    (k = 0%nat ∧ n = 1%nat ∧ w_has_result = true))
  | _ => False
  end.

Lemma firstRealOperand_01 m o : firstRealOperand m o = 0%nat ∨ firstRealOperand m o = 1%nat.
Proof. unfold firstRealOperand. destruct (_ && _); auto. Qed.

Lemma drop_nil_or {A} (l : list A) n : (List.length l ≤ n)%nat → drop n l = [].
Proof. intros. by apply skipn_all2. Qed.

(** Evaluates the decisions about a known kind. *)
Ltac decide_kinds H :=
  unfold is_push, is_wait in H;
  repeat match type of H with
  | context [bool_decide ?P] => let b := eval vm_compute in (bool_decide P) in change (bool_decide P) with b in H
  end; cbn in H.

Ltac lift_cases H :=
  repeat match type of H with
  | context [if ?c then _ else _] => let E := fresh "E" in destruct c eqn:E; try discriminate H
  end.

Lemma lift_mutex_shape m fresh o casts w :
  liftMutexCall m fresh o = Replaced casts w →
  ∃ k handle to wop rest, lifted_shape m fresh o casts w k handle to wop rest ∧
    form_of m o wop (List.length (operands o)) (List.length (result_types o)) (has_result w).
Proof.
  unfold liftMutexCall, form_of. fold (kind_of m o). intros H.
  destruct (mutex_op (kind_of m o)) as [wop|] eqn:Ew; [|done].
  destruct (negb _) eqn:En; [done|]. apply negb_false_iff, Nat.eqb_eq in En.
  destruct (operands o !! _) as [handle|] eqn:Eh; [|done].
  destruct (castTo m fresh o MutexTy handle) as [mu cs] eqn:Ec. unfold replace in H.
  injection H as <- <-. eexists _, handle, MutexTy, wop, _. split.
  - split; cbn; rewrite ?Ec; auto. by destruct (kind_of m o); simplify_eq/=.
  - destruct (kind_of m o); simplify_eq/=; done.
Qed.

Lemma lift_queue_shape m fresh o casts w :
  liftQueueCall m fresh o = Replaced casts w →
  ∃ k handle to wop rest, lifted_shape m fresh o casts w k handle (QueueTy to) wop rest ∧
    type_of m handle = Some (PtrTy to) ∧
    form_of m o wop (List.length (operands o)) (List.length (result_types o)) (has_result w).
Proof.
  unfold liftQueueCall. fold (kind_of m o). intros H.
  destruct (negb _) eqn:Ek; [done|]. apply negb_false_iff in Ek.
  destruct (operands o !! _) as [handle|] eqn:Eh; [|done].
  destruct (type_of m handle) as [[|to| | | | | | |]|] eqn:Et; try done.
  destruct (castTo m fresh o (QueueTy to) handle) as [qv cs] eqn:Ec.
  exists (firstRealOperand m o), handle, to.
  assert (∀ wop rest results,
    replace o cs wop (lifted_attrs m o handle) (qv :: rest) results = Replaced casts w →
    rest = match wop with
      | QueuePopOp _ false _ _ _ => take (firstRealOperand m o) (operands o)
      | _ => drop (S (firstRealOperand m o)) (operands o)
      end → results = [] ∨ results = result_types o →
    form_of m o wop (List.length (operands o)) (List.length (result_types o))
      (match results with [] => false | _ => true end) →
    ∃ wop rest, lifted_shape m fresh o casts w (firstRealOperand m o) handle (QueueTy to) wop rest ∧
      type_of m handle = Some (PtrTy to) ∧
      form_of m o wop (List.length (operands o)) (List.length (result_types o)) (has_result w)) as Hfin.
  { intros wop rest results Hr Hrest Hres Hform. unfold replace in Hr. injection Hr as <- <-.
    exists wop, rest. split; [|done]. split; cbn; rewrite ?Ec; auto. }
  unfold lift_queue_form in H. unfold form_of in Hfin |- *.
  destruct (firstRealOperand_01 m o) as [K|K]; rewrite K in *;
    destruct (kind_of m o) eqn:Ekind; try discriminate Ek; decide_kinds H; lift_cases H;
    repeat match goal with
    | E : negb _ = false |- _ => apply negb_false_iff in E
    | E : (_ || _)%bool = false |- _ => apply orb_false_iff in E as [? E]
    | E : (_ =? _)%nat = true |- _ => apply Nat.eqb_eq in E
    | E : (_ <? _)%nat = false |- _ => apply Nat.ltb_ge in E
    end.
  all: try discriminate H; (eapply Hfin; [exact H| | |]); cbn; auto.
  all: destruct (result_types o) as [|? [|? ?]]; cbn in *; try discriminate; auto 10.
  all: match goal with E : (_ <=? _)%nat = false |- _ => apply Nat.leb_gt in E end.
  all: repeat split; auto; lia.
Qed.

Lemma lift_call_shape m fresh o casts w :
  lift_call m fresh o = Replaced casts w →
  ∃ k handle to wop rest, lifted_shape m fresh o casts w k handle to wop rest ∧
    form_of m o wop (List.length (operands o)) (List.length (result_types o)) (has_result w) ∧
    ((∃ obj, to = QueueTy obj ∧ type_of m handle = Some (PtrTy obj)) ∨ mutex_op (kind_of m o) ≠ None).
Proof.
  unfold lift_call. destruct (liftMutexCall m fresh o) eqn:E; try done; intros H.
  - apply lift_queue_shape in H as (k & h & to & wop & rest & ? & ? & ?). eauto 15.
  - rewrite H in E. pose proof E as (k & h & to & wop & rest & ? & ?)%lift_mutex_shape.
    exists k, h, to, wop, rest. split; [done|split; [done|]]. right.
    unfold liftMutexCall in E. fold (kind_of m o) in E. by destruct (mutex_op (kind_of m o)).
Qed.

(** The rebuilt call has the original's operands, the handle's cast in the
    handle's place. *)
Lemma lower_lifted m fresh fresh' o casts w k handle to wop rest fn src :
  lifted_shape m fresh o casts w k handle to wop rest →
  form_of m o wop (List.length (operands o)) (List.length (result_types o)) (has_result w) →
  List.length (result_types w) = List.length (result_types o) →
  (List.length (result_types o) ≤ 1)%nat →
  k = 0%nat ∨ kind_of m o = QueueTryPop →
  fallbackOf o = Some fn → type_of m handle = Some src →
  lower_op fresh' w wop (lifted_attrs m o handle) =
  Replaced [ucc (fresh' + op_id o) (op_loc o) src (fst (castTo m fresh o to handle))]
    (rebuildCall o fn (result_types o) (<[k := VRes (fresh' + op_id o) 0]> (operands o)) (call_arg_attrs o)).
Proof.
  intros [Hk Hh _ Hw Hrest Hres] Hform Hlen Hone Hk0 Hfn Hsrc.
  assert (result_types w = result_types o) as Hr.
  { destruct Hres as [Hr|Hr]; [|done]. rewrite Hr in *. by destruct (result_types o). }
  unfold has_result in Hform. rewrite Hr in Hform.
  unfold lower_op. cbn [lifted_attrs fallback_impl source_type source_arg_attrs]. rewrite Hfn, Hsrc.
  rewrite Hw. cbn [operands op_id op_loc result_types]. rewrite Hr.
  unfold rebuildCall. cbn [op_id op_loc].
  unfold form_of in Hform. rewrite <-Hk in Hform.
  destruct (kind_of m o) eqn:Ek; try done; destruct_and?; subst wop; cbn in Hrest;
    (destruct Hk0 as [Hk0|Hk0]; [|try discriminate Hk0]).
  all: try (rewrite Hk0 in *); destruct (operands o) as [|v0 [|v1 [|v2 vs]]]; cbn in *; try lia;
    try (destruct_or?; destruct_and?; try lia; try congruence);
    destruct (result_types o) as [|t [|t' ts]]; cbn in *; try lia; try done;
    simplify_eq/=; try done.
  all: match goal with
    | E : firstRealOperand _ _ = _ |- _ => rewrite E in *
    | E : List.length ?l = 0%nat |- _ => is_var l; destruct l; [|done]
    end; cbn in *; simplify_eq/=; done.
Qed.

(** ** Casts taken away *)

Fixpoint uncast (fuel : nat) (casts : list operation) (v : value) : value :=
  match fuel, v with
  | S n, VRes i 0 =>
      match List.find (λ c, op_id c =? i)%nat casts with
      | Some c => match op_kind c, operands c with KUcc, [w] => uncast n casts w | _, _ => v end
      | None => v
      end
  | _, _ => v
  end.

Definition below (n : nat) (v : value) : Prop := match v with VRes i _ => (i < n)%nat | VArg _ _ => True end.

Lemma uncast_below fuel casts n v :
  below n v → (∀ c, c ∈ casts → (n ≤ op_id c)%nat) → uncast fuel casts v = v.
Proof.
  intros Hv Hc. destruct fuel as [|fuel]; [done|]. destruct v as [i [|j]|]; [|done..]. cbn.
  destruct (List.find _ casts) as [c|] eqn:E; [|done]. apply find_some in E as [Hin He].
  apply list_elem_of_In, Hc in Hin. apply Nat.eqb_eq in He. cbn in Hv. lia.
Qed.

Lemma uncast_step n casts i loc to v :
  List.find (λ c, op_id c =? i)%nat casts = Some (ucc i loc to v) →
  uncast (S n) casts (VRes i 0) = uncast n casts v.
Proof. intros H. cbn [uncast]. by rewrite H. Qed.

(** The two casts of a handle cancel. *)
Lemma uncast_handle m fresh fresh' o to handle src :
  below fresh handle → (fresh + op_id o < fresh')%nat →
  uncast 2 (snd (castTo m fresh o to handle) ++
            [ucc (fresh' + op_id o) (op_loc o) src (fst (castTo m fresh o to handle))])%list
    (VRes (fresh' + op_id o) 0) = handle.
Proof.
  intros Hb Hf. unfold castTo. case_bool_decide; cbn [fst snd app].
  - erewrite uncast_step; [|cbn; by rewrite Nat.eqb_refl].
    apply (uncast_below 1 _ fresh); [done|]. intros c ->%list_elem_of_singleton. cbn. lia.
  - assert ((fresh + op_id o =? fresh' + op_id o)%nat = false) as E by (apply Nat.eqb_neq; lia).
    erewrite uncast_step; [|cbn; by rewrite E, Nat.eqb_refl].
    erewrite uncast_step; [|cbn; by rewrite Nat.eqb_refl]. done.
Qed.

(** C28: Lifting and lowering are inverse: a call lifted to an operation of
    the dialect, once the dialect's verifier has accepted its fallback, is
    lowered back to a call of the same function, at the same place, with
    the same results and argument attributes, and, the two casts around the
    queue or mutex taken away, the same operands in the same order,
    including a hidden return slot.  The one thing lost is nothrow: the
    rebuilt call never carries it.  (The call passes as many operands as
    its callee takes and the replacement has as many results as the call,
    at most one: the IR's own checks enforce all three.) *)
Theorem lift_lower_roundtrip (m : module) (fresh fresh' : nat) (o : operation) (c : call_attrs)
    (fn : string) (fo : operation) (f : func) (casts : list operation) (w : operation)
    (wop : wtc_op) (a : wtc_attrs) :
  as_call o = Some c → callee c = Some fn → lookup_func m fn = Some fo → as_func fo = Some f →
  num_arguments f = List.length (operands o) →
  Forall (below fresh) (operands o) → (fresh + op_id o < fresh')%nat →
  (∀ v, v ∈ operands o → type_of m v ≠ None) →
  lift_call m fresh o = Replaced casts w → op_kind w = KWtc wop a →
  List.length (result_types w) = List.length (result_types o) →
  (List.length (result_types o) ≤ 1)%nat →
  verifySymbolUses m w wop a = None →
  ∃ casts' o', lower_op fresh' w wop a = Replaced casts' o' ∧
    op_id o' = op_id o ∧ op_loc o' = op_loc o ∧ result_types o' = result_types o ∧
    op_kind o' = KCall (CallAttrs (callee c) false (arg_attrs c)) ∧
    map (uncast 2 (casts ++ casts')%list) (operands o') = operands o.
Proof.
  intros Hc Hfn Hfo Hf Hargs Hbelow Hfresh Hty Hlift Hkind Hlen Hone Hver.
  apply lift_call_shape in Hlift as (k & handle & to & wop' & rest & Hs & Hform & _).
  pose proof Hs as [Hk Hh Hcasts Hw Hrest Hres].
  assert (wop' = wop ∧ lifted_attrs m o handle = a) as [-> Ha].
  { rewrite Hw in Hkind. cbn in Hkind. by simplify_eq. }
  assert (fallbackOf o = Some fn) as Hfb by (unfold fallbackOf; by rewrite Hc).
  assert (k = 0%nat ∨ kind_of m o = QueueTryPop) as Hk0.
  { rewrite Hk in *. unfold verifySymbolUses in Hver. rewrite Hw in Hver.
    destruct (fallback_shape _ wop) as [[ann op] n] eqn:Esh.
    unfold verifyFallbackImpl in Hver. rewrite <-Ha in Hver. cbn [lifted_attrs fallback_impl] in Hver.
    rewrite Hfb, Hfo, Hf in Hver. destruct (negb (implementsOperation f ann op)); [done|].
    destruct (negb _) eqn:En; [done|]. apply negb_false_iff, Nat.eqb_eq in En. rewrite Hargs in En.
    destruct (firstRealOperand_01 m o) as [K|K]; [by left|].
    unfold form_of in Hform. rewrite K in *.
    destruct (kind_of m o) eqn:Ek; try done; destruct_and?; subst wop; cbn in Esh; simplify_eq/=;
      try lia; try by right.
    all: unfold has_result in *; cbn in Esh; destruct (result_types w); simplify_eq/=; try lia. }
  destruct (type_of m handle) as [src|] eqn:Hsrc; [|by eapply Hty in Hsrc; [|by eapply list_elem_of_lookup_2]].
  rewrite <-Ha. erewrite lower_lifted by done.
  eexists _, _. split; [done|]. cbn. repeat split.
  - unfold call_arg_attrs. by rewrite Hc, Hfn.
  - rewrite Hcasts. apply list_eq. intros i. rewrite list_lookup_fmap.
    destruct (decide (i = k)) as [->|Hne].
    + rewrite list_lookup_insert_eq by by eapply lookup_lt_Some. rewrite Hh. cbn [fmap option_fmap option_map].
      f_equal. apply uncast_handle; [|done]. rewrite Forall_forall in Hbelow.
      apply Hbelow. by eapply list_elem_of_lookup_2.
    + rewrite list_lookup_insert_ne by done. destruct (operands o !! i) as [v|] eqn:Ev; [|done].
      cbn [fmap option_fmap option_map]. f_equal. apply (uncast_below 2 _ fresh).
      * rewrite Forall_forall in Hbelow. apply Hbelow. by eapply list_elem_of_lookup_2.
      * intros x [Hx|Hx]%elem_of_app.
        -- unfold castTo in Hx. case_bool_decide; cbn in Hx; [by apply elem_of_nil in Hx|].
           apply list_elem_of_singleton in Hx as ->. cbn. lia.
        -- apply list_elem_of_singleton in Hx as ->. cbn. lia.
Qed.

(** ** When the verifiers accept what was lifted *)

(** The shim's annotation for each kind. *)
Definition shim_annotation (k : semantic_kind) : string :=
  match List.find (λ p, bool_decide (snd p = k)) annotation_kinds with Some (n, _) => n | None => "" end.

Lemma annotation_of_kind n k : (n, k) ∈ annotation_kinds → n = shim_annotation k.
Proof.
  assert (Forall (λ p, fst p = shim_annotation (snd p)) annotation_kinds) as HF.
  { repeat constructor. }
  intros H. rewrite Forall_forall in HF. by apply (HF (n, k)).
Qed.

Lemma annotated_implements fo f k op :
  as_func fo = Some f → getSemanticKind (Some fo) = k → k ≠ Unknown → k ≠ ThreadSpawn →
  implementsOperation f (shim_annotation k) op = true.
Proof.
  intros Hf Hk Hu Hs. destruct (getSemanticKind_annotation fo f k) as (n & Hn & Ha); [done..|].
  apply annotation_of_kind in Hn as ->. unfold hasAnnotation in Ha. rewrite Hf in Ha.
  unfold implementsOperation. destruct (annotations f) as [l|]; [|done].
  apply existsb_exists in Ha as (x & Hx & Hn). apply existsb_exists. exists x. split; [done|].
  destruct x as [n|]; [|done]. by rewrite Hn.
Qed.

Lemma verify_fallback_iff m fn fo f shim op n :
  lookup_func m fn = Some fo → as_func fo = Some f → implementsOperation f shim op = true →
  verifyFallbackImpl m (Some fn) shim op n = None ↔ num_arguments f = n.
Proof.
  intros Hfo Hf Hi. unfold verifyFallbackImpl. rewrite Hfo, Hf, Hi. cbn.
  destruct (Nat.eqb_spec (num_arguments f) n); cbn; by split.
Qed.

(** C29: When the dialect's verifiers accept what lifting made.  For a call
    whose callee is found by its own name and takes as many arguments as
    the call passes: the fallback recorded on the operation passes the
    symbol check exactly when the call has no hidden return slot or is a
    plain try_pop, the one operation whose lowering puts the slot back; and
    the operation itself passes its own check exactly when a waiting,
    trying or overrunning push is on a queue declared bounded.  Everything
    else lifting can produce is well formed as it stands. *)
Theorem lift_well_formed (m m' : module) (fresh : nat) (o : operation) (c : call_attrs) (fn : string)
    (fo : operation) (f : func) (casts : list operation) (w : operation) (wop : wtc_op) (a : wtc_attrs) :
  as_call o = Some c → callee c = Some fn →
  lookup_func m fn = Some fo → lookupCallee m o = Some fo → as_func fo = Some f →
  num_arguments f = List.length (operands o) →
  lift_call m fresh o = Replaced casts w → op_kind w = KWtc wop a →
  (∀ x, x ∈ casts → find_op m' (op_id x) = Some x) →
  (verifySymbolUses m w wop a = None ↔ firstRealOperand m o = 0%nat ∨ kind_of m o = QueueTryPop) ∧
  (verify m' w wop a = None ↔
   (kind_of m o ∈ [QueuePushWait; QueueTryPush; QueuePushOverrun] →
    hasAnnotation (Some fo) "wtc_queue_bounded" = true)).
Proof.
  intros Hc Hfn Hfo Hcallee Hf Hargs Hlift Hkind Hcasts.
  apply lift_call_shape in Hlift as (k & handle & to & wop' & rest & Hs & Hform & Hto).
  destruct Hs as [Hk Hh Hcs Hw Hrest Hres].
  assert (wop' = wop ∧ lifted_attrs m o handle = a) as [-> Ha].
  { rewrite Hw in Hkind. cbn in Hkind. by simplify_eq. }
  assert (fallback_impl a = Some fn) as Hfb.
  { rewrite <-Ha. cbn. unfold fallbackOf. by rewrite Hc. }
  assert (∀ op n, kind_of m o ≠ Unknown → kind_of m o ≠ ThreadSpawn →
    verifyFallbackImpl m (fallback_impl a) (shim_annotation (kind_of m o)) op n = None ↔
    num_arguments f = n) as Hv.
  { intros op n Hu Hsp. rewrite Hfb. apply (verify_fallback_iff m fn fo); [done..|].
    apply (annotated_implements fo); [done| |done..]. unfold kind_of. by rewrite Hcallee. }
  assert (∀ obj, to = QueueTy obj → type_of m handle = Some (PtrTy obj) →
    verifySourceQueueType (queue_type m' w) (source_type a) = None) as Hq.
  { intros obj -> Ht. rewrite <-Ha. cbn. rewrite Ht, Hw. cbn.
    unfold castTo in Hcs |- *. rewrite Ht in Hcs |- *. rewrite bool_decide_false in Hcs |- * by done.
    cbn in *. unfold type_of.
    pose proof (Hcasts (ucc (fresh + op_id o) (op_loc o) (QueueTy obj) handle)) as Hu.
    cbn in Hu. rewrite Hu by (subst casts; left). cbn. by rewrite bool_decide_true. }
  assert (∃ q, operands w = q :: rest) as [qv Hops] by (rewrite Hw; eauto).
  clear Hw Hcs Hcasts Ha Hkind Hres. unfold verifySymbolUses. rewrite Hargs in Hv.
  unfold form_of in Hform. rewrite Hcallee in Hform.
  generalize dependent (hasAnnotation (Some fo) "wtc_queue_bounded"). intros bd Hform.
  destruct (firstRealOperand_01 m o) as [K|K]; rewrite K in *; subst k;
    destruct (kind_of m o) eqn:Ek; try done; destruct_and?; subst wop; cbn in Hrest;
    destruct (operands o) as [|v0 [|v1 [|v2 vs]]]; cbn in *; try lia; subst rest.
  all: match type of Hv with
    | context [shim_annotation ?k] =>
        let n := eval vm_compute in (shim_annotation k) in change (shim_annotation k) with n in Hv
    end.
  all: try (assert (verifySourceQueueType (queue_type m' w) (source_type a) = None) as Hq'
              by (destruct Hto as [(? & ? & ?)|Hto]; [by eapply Hq|done])).
  all: destruct_or?; destruct_and?; try done; try destruct vs; cbn in *; try lia.
  all: repeat match goal with E : has_result ?x = _ |- _ => rewrite E; clear E end.
  all: unfold getMore, getOut, getArgs, getTimeout in *; rewrite ?Hops; cbn; rewrite ?Hops, ?Hq'; split.
  all: try (rewrite Hv by done; cbn; clear; intuition (congruence || lia)).
  all: rewrite !elem_of_cons, elem_of_nil; cbn; rewrite ?andb_false_r, ?Hq'; destruct bd; cbn;
    clear; intuition congruence.
Qed.

(** ** Lowering never stops half way *)

(** The operands ODS gives each operation. *)
Definition ods_arity (o : operation) (w : wtc_op) : bool :=
  let n := List.length (operands o) in
  match w with
  | LockOp | UnlockOp => n =? 1
  | LockBatchBeginOp | LockBatchStepOp | LockBatchEndOp | QueueBatchBeginOp | QueueBatchEndOp => n =? 2
  | QueuePushDeferredOp => n =? 3
  | QueuePushOp _ _ _ _ => 2 <=? n
  | QueuePopOp _ _ _ _ _ => 1 <=? n
  end%nat.

(** C30: An operation of the dialect that passes its verifier is lowered, or
    says why not: with a fallback and a source type recorded there is
    always a call, and without one of them always the error that names the
    reason; no operand or result is ever read that is not there. *)
Theorem lower_says_so (m : module) (fresh : nat) (o : operation) (w : wtc_op) (a : wtc_attrs) :
  ods_arity o w = true → verify m o w a = None →
  match fallback_impl a, source_type a with
  | Some fn, Some src =>
      ∃ casts c, lower_op fresh o w a = Replaced casts c ∧ fallbackOf c = Some fn
  | _, _ => ∃ msg, lower_op fresh o w a = PatternError msg
  end.
Proof.
  intros Har Hver. unfold lower_op.
  destruct (fallback_impl a) as [fn|]; [|eauto]. destruct (source_type a) as [src|] eqn:Es; [|eauto].
  destruct w as [| | | | |b1 b2 b3 b4|r t wt bo ba| | |]; cbn in Har;
    destruct (operands o) as [|v0 [|v1 [|v2 vs]]] eqn:Eo; try discriminate Har; eauto.
  all: cbn in Hver; unfold verify_pop, getOut, getTimeout, getArgs in Hver; rewrite Eo in Hver; cbn in Hver;
    unfold has_result in Hver; destruct t; eauto; destruct (result_types o); eauto.
  all: by destruct ba, wt, bo.
Qed.

Section pure.
(** A property of every operation of a converted module, from what the
    rewrite of one operation makes of it. *)
Context (f : operation → option (list operation)) (P : operation → Prop).
Hypothesis one : ∀ o l, f o = Some l → (∀ c d, c ∈ children o → d ∈ walk c → P d) →
  ∀ x d, x ∈ l → d ∈ walk x → P d.

Lemma map_opt_spec {A B} (g : A → option B) l l' y :
  map_opt g l = Some l' → y ∈ l' → ∃ x, x ∈ l ∧ g x = Some y.
Proof.
  revert l'. induction l as [|x l IH]; cbn; intros l'; [by intros [= <-] ?%elem_of_nil|].
  destruct (g x) as [z|] eqn:E; [|done]. destruct (map_opt g l) as [zs|]; [|done].
  intros [= <-] [->|Hy]%elem_of_cons; [exists x; split; [left|done]|].
  destruct (IH zs eq_refl Hy) as (x' & ? & ?). exists x'. split; [by right|done].
Qed.

(** Where a child of the rebuilt operation comes from. *)
Lemma rebuilt_child rs rs' c :
  map_opt (map_opt (λ b, match b with
    | Block bi bargs ops =>
        match map_opt (convert_op f) ops with
        | Some ls => Some (Block bi bargs (concat ls))
        | None => None
        end
    end)) rs = Some rs' →
  c ∈ concat (map block_ops (concat rs')) →
  ∃ c0 l, c0 ∈ concat (map block_ops (concat rs)) ∧ convert_op f c0 = Some l ∧ c ∈ l.
Proof.
  intros Hrs Hc. setoid_rewrite list_elem_of_In. rewrite list_elem_of_In, <-flat_map_concat_map in Hc.
  apply in_flat_map in Hc as (b' & Hb' & Hc). apply list_elem_of_In, elem_of_concat in Hb'
    as (r' & Hb' & Hr').
  destruct (map_opt_spec _ _ _ _ Hrs Hr') as (r & Hr & Er).
  destruct (map_opt_spec _ _ _ _ Er Hb') as ([bi ba ops] & Hb & Eb).
  destruct (map_opt (convert_op f) ops) as [ls|] eqn:El; [|done]. injection Eb as <-. cbn in Hc.
  apply list_elem_of_In, elem_of_concat in Hc as (l & Hc & Hl).
  destruct (map_opt_spec _ _ _ _ El Hl) as (c0 & Hc0 & Ec0). exists c0, l.
  split; [|split; [done|by apply list_elem_of_In]]. rewrite <-flat_map_concat_map. apply in_flat_map.
  exists (Block bi ba ops). split; [|by apply list_elem_of_In].
  apply list_elem_of_In, elem_of_concat. eauto.
Qed.

Lemma convert_op_all o l x d : convert_op f o = Some l → x ∈ l → d ∈ walk x → P d.
Proof.
  revert l x d. induction o as [o IH] using operation_nested_ind. intros l x d Hc Hx Hd.
  destruct o as [i n lo k a r at_ rs]. cbn in Hc.
  destruct (map_opt _ rs) as [rs'|] eqn:Ers; [|done].
  eapply one; [exact Hc| |exact Hx|exact Hd]. intros c e Hcc He. unfold children in Hcc. cbn in Hcc.
  destruct (rebuilt_child _ _ _ Ers Hcc) as (c0 & l0 & Hc0 & El0 & Hcl).
  rewrite Forall_forall in IH. by eapply (IH c0).
Qed.

Lemma convert_all m m' d : convert f m = Some m' → d ∈ walk_module m' → P d.
Proof.
  unfold convert. destruct (map_opt _ m) as [ls|] eqn:E; [|done]. intros [= <-] Hd.
  apply elem_of_flat_map in Hd as (x & Hx & Hd). apply elem_of_concat in Hx as (l & Hx & Hl).
  destruct (map_opt_spec _ _ _ _ E Hl) as (o & _ & Ho). by eapply convert_op_all.
Qed.
End pure.

(** Nothing of the dialect: no operation of it, no attribute of it. *)
Definition pure_cir (o : operation) : bool :=
  match op_kind o with KWtc _ _ => false | _ => true end
  && forallb (λ p, negb (of_dialect (fst p))) (op_attrs o).

(** What lowering leaves is pure CIR: a module that was lowered holds,
    at any depth, no operation of the wtc dialect and no attribute whose
    name is the dialect's. *)
Theorem lowered_pure (m m' : module) (fresh : nat) :
  lower_pass m fresh = Some m' → Forall (λ o, pure_cir o = true) (walk_module m').
Proof.
  intros H. apply Forall_forall. intros d Hd. revert H Hd.
  apply (convert_all (lower_one fresh) (λ o, pure_cir o = true)). clear. intros o l Hl Hch x d Hx Hd.
  assert (∀ q, children (strip_attrs q) = children q) as Hsc by by intros [].
  assert (∀ q, forallb (λ p, negb (of_dialect (fst p))) (op_attrs (strip_attrs q)) = true) as Hsa.
  { intros [i n lo k a r at_ rs]. cbn. apply forallb_forall. intros p Hp.
    by apply filter_In in Hp as [_ Hp]. }
  unfold lower_one in Hl. destruct (op_kind o) as [] eqn:Ek.
  all: lazymatch type of Hl with
    | match lower_op _ _ _ _ with _ => _ end = _ => idtac
    | _ => injection Hl as <-; apply list_elem_of_singleton in Hx as ->;
        rewrite walk_children, Hsc in Hd; apply elem_of_app in Hd as [Hd|Hd];
        [apply elem_of_flat_map in Hd as (? & ? & Hd); by eapply Hch|];
        apply list_elem_of_singleton in Hd as ->; unfold pure_cir; rewrite Hsa;
        destruct o; cbn in *; by rewrite Ek
    end.
  destruct (lower_op fresh o w a) as [| | |casts c] eqn:Elow; try done. injection Hl as <-.
  assert (∀ q, q ∈ (casts ++ [c])%list → children q = [] ∧ match op_kind q with KWtc _ _ => False | _ => True end)
    as Hq.
  { intros q Hq. unfold lower_op in Elow.
    destruct (fallback_impl a); [|done]. destruct (source_type a); [|done].
    destruct (operands o) as [|h rest]; [done|].
    destruct w; repeat match type of Elow with
      | context [match ?e with _ => _ end] => destruct e
      end; simplify_eq/=;
      repeat (apply elem_of_cons in Hq as [->|Hq]; [done|]); by apply elem_of_nil in Hq. }
  apply list_elem_of_fmap in Hx as (q & -> & Hx). destruct (Hq q Hx) as [Hc Hk].
  rewrite walk_children, Hsc, Hc in Hd. apply list_elem_of_singleton in Hd as ->.
  unfold pure_cir. rewrite Hsa. destruct q; cbn in *. by destruct k.
Qed.

(** ** A call through a return slot

    [main] pops from a queue; the compiler passes a hidden pointer first. *)
Section example.
Definition ex_queue : ty := RecordTy "queue".
Definition ex_try_pop : operation :=
  Op 1 "cir.func" "" (KFunc (Func "try_pop" false false None (Some [OtherAnnot; Annotation "wtc_queue_try_pop"])
    (Some [["llvm.sret"]; []]) 2)) [] [] [] [[]].
Definition ex_slot : operation := Op 3 "cir.alloca" "" KAlloca [] [PtrTy (RecordTy "shared_ptr")] [] [].
Definition ex_q : operation := Op 4 "cir.alloca" "" KAlloca [] [PtrTy ex_queue] [("wtc.topology", ATopology Tspsc)] [].
Definition ex_call_attrs : call_attrs := CallAttrs (Some "try_pop") true (Some [["llvm.sret"; "llvm.align"]; []]).
Definition ex_pop_call : operation :=
  Op 5 "cir.call" "main:3" (KCall ex_call_attrs) [VRes 3 0; VRes 4 0] [] [] [].
Definition ex_main : operation :=
  Op 2 "cir.func" "" (KFunc (Func "main" false false None None None 0)) [] [] []
    [[Block 0 [] [ex_slot; ex_q; ex_pop_call]]].
Definition ex_mod : module := [ex_try_pop; ex_main].

Definition ex_cast : operation := ucc 15 "main:3" (QueueTy ex_queue) (VRes 4 0).
Definition ex_attrs : wtc_attrs :=
  WtcAttrs (Some "try_pop") (Some (PtrTy ex_queue)) (arg_attrs ex_call_attrs) None None None.
Definition ex_pop : operation :=
  Op 5 "wtc.queue_pop" "main:3" (KWtc (QueuePopOp false false false false false) ex_attrs)
    [VRes 15 0; VRes 3 0] [] [] [].

Lemma lift_lower_roundtrip_witness :
  ∃ casts' o', lower_op 20 ex_pop (QueuePopOp false false false false false) ex_attrs = Replaced casts' o' ∧
    op_id o' = op_id ex_pop_call ∧ op_loc o' = op_loc ex_pop_call ∧
    result_types o' = result_types ex_pop_call ∧
    op_kind o' = KCall (CallAttrs (callee ex_call_attrs) false (arg_attrs ex_call_attrs)) ∧
    map (uncast 2 ([ex_cast] ++ casts')%list) (operands o') = operands ex_pop_call.
Proof.
  eapply (lift_lower_roundtrip ex_mod 10 20 ex_pop_call ex_call_attrs "try_pop" ex_try_pop); try reflexivity.
  - repeat constructor.
  - cbn. lia.
  - intros v. cbn. rewrite !elem_of_cons, elem_of_nil. intros [->|[->|[]]]; vm_compute; discriminate.
  - vm_compute. lia.
Defined.

Lemma lift_well_formed_witness :
  (verifySymbolUses ex_mod ex_pop (QueuePopOp false false false false false) ex_attrs = None ↔
   firstRealOperand ex_mod ex_pop_call = 0%nat ∨ kind_of ex_mod ex_pop_call = QueueTryPop) ∧
  (verify (ex_cast :: ex_mod) ex_pop (QueuePopOp false false false false false) ex_attrs = None ↔
   (kind_of ex_mod ex_pop_call ∈ [QueuePushWait; QueueTryPush; QueuePushOverrun] →
    hasAnnotation (Some ex_try_pop) "wtc_queue_bounded" = true)).
Proof.
  eapply (lift_well_formed ex_mod (ex_cast :: ex_mod) 10 ex_pop_call ex_call_attrs "try_pop" ex_try_pop);
    try reflexivity.
  intros x. change (x ∈ [ex_cast] → find_op (ex_cast :: ex_mod) (op_id x) = Some x).
  intros ->%list_elem_of_singleton. reflexivity.
Defined.

Lemma lower_says_so_witness :
  ∃ casts c, lower_op 20 ex_pop (QueuePopOp false false false false false) ex_attrs = Replaced casts c ∧
    fallbackOf c = Some "try_pop".
Proof.
  apply (lower_says_so (ex_cast :: ex_mod) 20 ex_pop (QueuePopOp false false false false false) ex_attrs);
    reflexivity.
Defined.

Definition ex_lifted : module := match lift_pass ex_mod 10 with Some m => m | None => [] end.
Definition ex_lowered : module := match lower_pass ex_lifted 20 with Some m => m | None => [] end.

Example ex_lifted_pop : List.nth_error (walk_module ex_lifted) 4 = Some ex_pop.
Proof. reflexivity. Qed.

Lemma lowered_pure_witness : Forall (λ o, pure_cir o = true) (walk_module ex_lowered).
Proof. apply (lowered_pure ex_lifted ex_lowered 20). reflexivity. Defined.
End example.
