(* ===== verification/Mutex.v ===== *)
(** * Mutex: the shim's mutex (src/shim/mutex.hpp)

    Each operation as the calls it makes of the [std::mutex] it wraps, with
    the batch's count of sections. *)

From stdpp Require Import base tactics list.
From S2P Require Import Prelude.

Module Mutex.
Local Open Scope Z_scope.

(** The calls of [std::mutex]. *)
Inductive impl_call := ImplLock | ImplUnlock.

#[export] Instance impl_call_eq_dec : EqDecision impl_call.
Proof. solve_decision. Defined.

(** [mutex::batch] *)
Record batch := Batch { sections : Z }.

Definition lock : list impl_call := [ImplLock].
Definition unlock : list impl_call := [ImplUnlock].

Section batch.
(** WTC_LOCK_BATCH_K *)
Context (K : Z).

Definition batch_begin (b : batch) : list impl_call * batch := ([ImplLock], Batch 0).
Definition batch_step (b : batch) : list impl_call * batch :=
  let n := u32 (sections b + 1) in
  if n <? K then ([], Batch n) else ([ImplUnlock; ImplLock], Batch 0).
Definition batch_end (b : batch) : list impl_call := [ImplUnlock].
End batch.
End Mutex.
