(* ===== verification/Slots.v ===== *)
(** * Slots: stack slots, allocations and memory accesses (Utils.cpp)

    Whether a stack slot's address goes anywhere ([addressEscapes], a work
    list with a budget of 512 values), which allocation a call hands back,
    possibly through wrappers ([allocationsBehind], bounded in depth), how
    an allocation is aligned, and which memory an operation touches.

    [private_slot]: a slot found private is used, through every address
    derived from it, only to load from it, to store into it and to mark its
    lifetime. *)

From stdpp Require Import base tactics list strings.
From Stdlib Require Import String ZArith Lia.
From S2P Require Import Prelude Text Cir Utils.
Local Open Scope string_scope.
Local Open Scope list_scope.

Section slots.
Variable m : module.

(** The operations whose result is an address in the same object. *)
Definition derives (o : operation) : bool :=
  match op_kind o with KCast _ | KGetMember | KGetElement | KPtrStride => true | _ => false end.

(** One value's uses: nothing when the address is published, else the work
    and the operations seen. *)
Fixpoint escape_uses (v : value) (us : list operation) (work : list value) (seen : list nat)
    : option (list value * list nat) :=
  match us with
  | [] => Some (work, seen)
  | u :: us' =>
      if is_store u then
        if bool_decide (store_value u = Some v) then None else escape_uses v us' work seen
      else if bool_decide (op_id u ∈ seen) then escape_uses v us' work seen
      else
        let seen' := op_id u :: seen in
        if is_load u then escape_uses v us' work seen'
        else if is_lifetime u then escape_uses v us' work seen'
        else if derives u then escape_uses v us' (result u :: work) seen'
        else None
  end.

(** The work list is taken from its end, here the head; [guard] turns are
    left. *)
Fixpoint escape_loop (guard : nat) (work : list value) (seen : list nat) : bool :=
  match work with
  | [] => false
  | v :: work' =>
      match guard with
      | 0 => true
      | S n =>
          match escape_uses v (users m v) work' seen with
          | None => true
          | Some (work'', seen') => escape_loop n work'' seen'
          end
      end
  end.

Definition addressEscapes (slot : operation) : bool := escape_loop 512 [result slot] [].

(** ** Allocations *)

(** The allocation calls found, and whether something else was. *)
Abbreviation found := (list operation * bool)%type.

(** [allocationsBehindImpl], given [returnedValue] for what the callee
    hands back *)
Definition allocationsBehindImpl (returnedValue : nat → value → found → found) (call : operation)
    (depth : nat) (st : found) : found :=
  match lookupCallee m call with
  | None => (fst st, true)
  | Some f =>
      if isAllocator f then
        if op_in call (fst st) then st else ((fst st ++ [call])%list, snd st)
      else if body_empty f || (4 <? depth)%nat then (fst st, true)
      else
        fold_left (λ (st : found) (ret : operation),
          if snd st then st
          else match operands ret with
          | [v] => returnedValue depth v st
          | _ => (fst st, true)
          end)
        (List.filter (λ o, match op_kind o with KReturn => true | _ => false end) (walk f)) st
  end.

(** [returnedValue]; the depth is bounded by 8, so that ten turns are
    enough. *)
Fixpoint returnedValue (fuel : nat) (depth : nat) (v : value) (st : found) : found :=
  match fuel with
  | 0 => (fst st, true)
  | S n =>
      if snd st then st
      else if (8 <? depth)%nat then (fst st, true)
      else
        let r := traceToRoot m v in
        if is_null m (Some r) then st
        else match defining_op m r with
        | Some d =>
            match op_kind d with
            | KCall _ => allocationsBehindImpl (returnedValue n) d (S depth) st
            | KLoad _ =>
                match load_addr d with
                | Some a =>
                    match defining_op m a with
                    | Some slot =>
                        if is_alloca slot && negb (addressEscapes slot) then
                          let stores := List.filter (λ u, is_store u && bool_decide (store_addr u = Some (result slot)))
                                          (users m (result slot)) in
                          match stores with
                          | [] => (fst st, true)
                          | _ => fold_left (λ (st : found) (u : operation), match store_value u with
                                   | Some x => returnedValue n (S depth) x st
                                   | None => (fst st, true)
                                   end) stores st
                          end
                        else (fst st, true)
                    | None => (fst st, true)
                    end
                | None => (fst st, true)
                end
            | _ => (fst st, true)
            end
        | None => (fst st, true)
        end
  end.

Definition allocationsBehind (call : operation) : list operation :=
  let '(sites, bad) := allocationsBehindImpl (returnedValue 10) call 0 ([], false) in
  if bad then [] else sites.

Definition allocationBehind (call : operation) : option operation :=
  match allocationsBehind call with [c] => Some c | _ => None end.

(** A constant operand that fits 32 bits and is not zero. *)
Definition positive_constant (v : option value) : option Z :=
  match v with
  | Some x =>
      match defining_op m x with
      | Some d =>
          match op_kind d with
          | KConstant (CInt _ bits) => if ((0 <? bits) && (bits <? 2 ^ 32))%Z then Some bits else None
          | _ => None
          end
      | None => None
      end
  | None => None
  end.

Definition allocationAlignment (call : operation) : option Z :=
  match allocationBehind call with
  | None => None
  | Some c =>
      match lookupCallee m c with
      | None => None
      | Some f =>
          let n := name_of_func f in
          let k := firstRealOperand m c in
          let idx :=
            if in_set ["aligned_alloc"; "memalign"] n then Some k
            else if String.eqb n "posix_memalign" then Some (k + 1)%nat
            else if in_set ["_ZnwmSt11align_val_t"; "_ZnamSt11align_val_t"] n then Some (k + 1)%nat
            else if in_set ["rte_malloc"; "rte_zmalloc"] n then Some (k + 2)%nat
            else if String.eqb n "rte_calloc" then Some (k + 3)%nat
            else if in_set ["rte_malloc_socket"; "rte_zmalloc_socket"] n then Some (k + 2)%nat
            else if String.eqb n "rte_calloc_socket" then Some (k + 3)%nat
            else None in
          match idx with
          | Some i => positive_constant (operands c !! i)
          | None => None
          end
      end
  end.

(** ** Memory accesses *)

Record memory_access := Access { acc_addr : option value; acc_type : option ty; acc_write : bool }.

Definition pointee_of (v : option value) : option ty :=
  match v with
  | Some x => match type_of m x with Some (PtrTy t) => Some t | _ => None end
  | None => None
  end.
Definition type_of_opt (v : option value) : option ty := match v with Some x => type_of m x | None => None end.

Definition u8 : ty := IntTy 8 false.

(** [lengthType]: an array of bytes of a constant length, else what the
    pointer the program wrote points to, else a byte. *)
Definition lengthType (len ptr : option value) : option ty :=
  match positive_constant len with
  | Some n => Some (ArrayTy u8 n)
  | None =>
      match pointee_of (option_map (traceToLocalRoot m) ptr) with
      | None | Some VoidTy | Some FuncTy => Some u8
      | t => t
      end
  end.

Definition memoryAccesses (o : operation) : list memory_access :=
  let arg i := operands o !! i in
  match op_kind o with
  | KLoad _ => [Access (arg 0%nat) (result_types o !! 0%nat) false]
  | KStore => [Access (arg 1%nat) (type_of_opt (arg 0%nat)) true]
  | KAtomicFetch | KAtomicXchg => [Access (arg 0%nat) (type_of_opt (arg 1%nat)) true]
  | KAtomicCmpXchg => [Access (arg 0%nat) (type_of_opt (arg 2%nat)) true]
  | KAtomicTestAndSet | KAtomicClear | KSetBitfield => [Access (arg 0%nat) (pointee_of (arg 0%nat)) true]
  | KGetBitfield => [Access (arg 0%nat) (pointee_of (arg 0%nat)) false]
  | KCopy => [Access (arg 1%nat) (pointee_of (arg 1%nat)) false; Access (arg 0%nat) (pointee_of (arg 0%nat)) true]
  | KMemSet => [Access (arg 0%nat) (lengthType (arg 2%nat) (arg 0%nat)) true]
  | KMemCpy | KMemMove =>
      [Access (arg 1%nat) (lengthType (arg 2%nat) (arg 1%nat)) false;
       Access (arg 0%nat) (lengthType (arg 2%nat) (arg 0%nat)) true]
  | _ => []
  end.

(** ** Constructors *)

Definition spawnEntryOperand (o : operation) : nat :=
  let k := firstRealOperand m o in
  match lookupCallee m o with
  | Some f =>
      if String.eqb (name_of_func f) "pthread_create" then (k + 2)%nat
      else if String.eqb (name_of_func f) "thrd_create" then (k + 1)%nat
      else k
  | None => k
  end.
Definition spawnFirstArgOperand (o : operation) : nat := S (spawnEntryOperand o).

(** The queue a constructor call builds: a global or a stack slot. *)
Definition constructed_root (call : operation) : option operation :=
  if negb (bool_decide (getSemanticKind (lookupCallee m call) = QueueConstruction)) then None
  else if (List.length (operands call) =? 0)%nat || negb (firstRealOperand m call =? 0)%nat then None
  else if insideLiftedRuntime m call then None
  else match operands call with
  | v :: _ =>
      match defining_op m (traceToRoot m v) with
      | Some d =>
          match op_kind d with
          | KGetGlobal n => lookup_global m n
          | KAlloca => Some d
          | _ => None
          end
      | None => None
      end
  | [] => None
  end.

Fixpoint add_ctor (root : operation) (call : operation) (l : list (operation * list operation))
    : list (operation * list operation) :=
  match l with
  | [] => [(root, [call])]
  | (r, cs) :: l' =>
      if (op_id r =? op_id root)%nat then (r, cs ++ [call])%list :: l' else (r, cs) :: add_ctor root call l'
  end.

Definition collectQueueConstructors : list (operation * list operation) :=
  fold_left (λ acc call, match as_call call with
      | Some _ => match constructed_root call with Some r => add_ctor r call acc | None => acc end
      | None => acc
      end) (walk_module m) [].

Definition takesTopologyTag (ctor : operation) : bool :=
  let n := List.length (operands ctor) in
  ((2 <=? n) && (n <=? 5))%nat
  && match type_of_opt (operands ctor !! 1%nat) with Some (IntTy _ _) => true | _ => false end.

(** [IntAttr::getSInt]: the bits read as a signed number of their width. *)
Definition sint (width bits : Z) : Z := if (bits <? 2 ^ (width - 1))%Z then bits else (bits - 2 ^ width)%Z.

Definition constructorTag (ctors : list operation) : option Z :=
  match ctors with
  | [ctor] =>
      if takesTopologyTag ctor then
        match operands ctor !! 1%nat with
        | Some v =>
            match defining_op m v with
            | Some d => match op_kind d with KConstant (CInt w b) => Some (sint w b) | _ => None end
            | None => None
            end
        | None => None
        end
      else None
  | _ => None
  end.
End slots.

(** ** What a private slot means *)

(** The addresses derived from a value: it, and the results of casts,
    members, elements and strides of one. *)
Inductive derived (m : module) (v : value) : value → Prop :=
| derived_self : derived m v v
| derived_step w u : derived m v w → u ∈ users m w → derives u = true → derived m v (result u).

(** A use that publishes nothing. *)
Definition private_use (w : value) (u : operation) : Prop :=
  (is_store u = true ∧ store_value u ≠ Some w) ∨ is_load u = true ∨ is_lifetime u = true ∨ derives u = true.

Section escapes.
Context (m : module).

(** Every use of [w] is private, and what is derived is in [vs]. *)
Definition uses_ok (vs : list value) (w : value) : Prop :=
  ∀ u, u ∈ users m w → private_use w u ∧ (derives u = true → result u ∈ vs).

(** Operations marked as seen: private, and their results in [vs]. *)
Definition seen_ok (vs : list value) (seen : list nat) : Prop :=
  ∀ u, u ∈ walk_module m → op_id u ∈ seen →
    (is_load u = true ∨ is_lifetime u = true ∨ derives u = true) ∧ (derives u = true → result u ∈ vs).

Lemma users_in v u : u ∈ users m v → u ∈ walk_module m.
Proof.
  unfold users. intros (o & Ho & Hu)%elem_of_flat_map.
  apply list_elem_of_In, in_map_iff in Hu as (? & <- & _). done.
Qed.

Lemma escape_uses_ok v us work seen work' seen' done_ :
  wf_ids m = true → (∀ u, u ∈ us → u ∈ walk_module m) →
  seen_ok (done_ ++ work) seen →
  escape_uses v us work seen = Some (work', seen') →
  (∃ new, work' = new ++ work) ∧ seen_ok (done_ ++ work') seen' ∧
  ∀ u, u ∈ us → private_use v u ∧ (derives u = true → result u ∈ done_ ++ work').
Proof.
  intros Hwf. revert work seen. induction us as [|u us IH]; cbn; intros work seen Hus Hs Hrun.
  { injection Hrun as <- <-. split; [by exists []|]. split; [done|]. by intros ? ?%elem_of_nil. }
  assert (u ∈ walk_module m) as Hu by (apply Hus; left).
  assert (∀ x, x ∈ us → x ∈ walk_module m) as Hus' by (intros; apply Hus; by right).
  assert (derives u = true → is_store u = false) as Hds by (unfold derives, is_store; by destruct (op_kind u)).
  assert (∀ work1 seen1, escape_uses v us work1 seen1 = Some (work', seen') →
    (∃ new, work1 = new ++ work) → seen_ok (done_ ++ work1) seen1 →
    private_use v u → (derives u = true → result u ∈ done_ ++ work1) →
    (∃ new, work' = new ++ work) ∧ seen_ok (done_ ++ work') seen' ∧
    ∀ x, x ∈ u :: us → private_use v x ∧ (derives x = true → result x ∈ done_ ++ work')) as Hnext.
  { intros work1 seen1 Hr [new0 ->] Hs1 Hp Hd. destruct (IH _ _ Hus' Hs1 Hr) as ([new ->] & Hs' & Hall).
    split; [exists (new ++ new0); by rewrite app_assoc|]. split; [done|].
    intros x [->|Hx]%elem_of_cons; [|by apply Hall]. split; [done|]. intros Hdx. specialize (Hd Hdx). set_solver. }
  destruct (is_store u) eqn:Est.
  { destruct (bool_decide (store_value u = Some v)) eqn:Ev; [done|]. apply bool_decide_eq_false in Ev.
    eapply Hnext; [exact Hrun|by exists []|done|left; done|]. intros Hd. specialize (Hds Hd). congruence. }
  destruct (bool_decide (op_id u ∈ seen)) eqn:Eseen.
  { apply bool_decide_eq_true in Eseen. destruct (Hs u Hu Eseen) as [Hk Hd].
    eapply Hnext; [exact Hrun|by exists []|done|right; tauto|done]. }
  assert (∀ vs', (∀ x, x ∈ done_ ++ work → x ∈ vs') →
    (is_load u = true ∨ is_lifetime u = true ∨ derives u = true) →
    (derives u = true → result u ∈ vs') → seen_ok vs' (op_id u :: seen)) as Hseen'.
  { intros vs' Hsub Hk Hd x Hx [Ex|Ex]%elem_of_cons.
    - apply (wf_ids_inj m) in Ex; [|done..]. by subst x.
    - destruct (Hs x Hx Ex) as [? Hdx]. split; [done|]. auto. }
  destruct (is_load u) eqn:El; [|destruct (is_lifetime u) eqn:Ef; [|destruct (derives u) eqn:Ed; [|done]]].
  - assert (derives u = false) as Hdf by (unfold derives; unfold is_load in El; by destruct (op_kind u)).
    eapply Hnext; [exact Hrun|by exists []|apply Hseen'; [done|tauto|by rewrite Hdf]|right; tauto|by rewrite Hdf].
  - assert (derives u = false) as Hdf by (unfold derives; unfold is_lifetime in Ef; by destruct (op_kind u)).
    eapply Hnext; [exact Hrun|by exists []|apply Hseen'; [done|tauto|by rewrite Hdf]|right; tauto|by rewrite Hdf].
  - eapply Hnext; [exact Hrun|by exists [result u]|apply Hseen'; [set_solver|tauto|set_solver]|right; tauto|set_solver].
Qed.

Lemma escape_loop_ok guard work seen done_ :
  wf_ids m = true → seen_ok (done_ ++ work) seen →
  (∀ w, w ∈ done_ → uses_ok (done_ ++ work) w) →
  escape_loop m guard work seen = false →
  ∃ all, (∀ w, w ∈ done_ ++ work → w ∈ all) ∧ ∀ w, w ∈ all → uses_ok all w.
Proof.
  intros Hwf. revert work seen done_. induction guard as [|n IH]; intros [|v work] seen done_ Hs Hd Hrun;
    try done; try (exists (done_ ++ []); split; [done|]; intros w; rewrite app_nil_r in *; by apply Hd).
  cbn in Hrun. destruct (escape_uses v (users m v) work seen) as [[work' seen']|] eqn:Eu; [|done].
  destruct (escape_uses_ok v (users m v) work seen work' seen' (done_ ++ [v])) as ([new ->] & Hs' & Hv); [done| | |done|].
  - intros u. apply users_in.
  - intros u Hu Hin. destruct (Hs u Hu Hin) as [? Hdu]. split; [done|]. intros Hd'. specialize (Hdu Hd'). set_solver.
  - destruct (IH _ _ _ Hs') as (all & Hsub & Hall).
    + intros w [Hw|Hw]%elem_of_app; [|apply list_elem_of_singleton in Hw as ->; exact Hv].
      intros u Hu. destruct (Hd w Hw u Hu) as [? Hdu]. split; [done|]. intros Hd'. specialize (Hdu Hd'). set_solver.
    + done.
    + exists all. split; [|done]. intros w Hw. apply Hsub. set_solver.
Qed.
End escapes.

(** C33: A stack slot whose address is found not to escape is private: no
    address derived from it, through any chain of casts, members, elements
    and strides, is used by anything but a load, a store into it, a lifetime
    mark or another derivation; in particular none is stored, returned or
    handed to a call.  (The budget of 512 values errs on the side of
    escape.) *)
Theorem private_slot (m : module) (slot : operation) (w : value) (u : operation) :
  wf_ids m = true → addressEscapes m slot = false →
  derived m (result slot) w → u ∈ users m w → private_use w u.
Proof.
  intros Hwf Hesc Hder Hu.
  destruct (escape_loop_ok m 512 [result slot] [] []) as (all & Hsub & Hall); [done| | |done|].
  { by intros ? ? ?%elem_of_nil. }
  { by intros ? ?%elem_of_nil. }
  assert (∀ x, derived m (result slot) x → x ∈ all) as Hin.
  { induction 1 as [|x y _ IH Hy Hd]; [apply Hsub; left|]. by apply (Hall x IH y Hy). }
  by apply (Hall w (Hin w Hder)).
Qed.

(** ** A slot written, read through a member, and never published *)
Section example.
Definition ex_private : module :=
  [Op 0 "cir.func" "" (KFunc (Func "f" false false None None None 0)) [] [] []
     [[Block 0 [] [Op 1 "cir.alloca" "" KAlloca [] [PtrTy (RecordTy "pair")] [] [];
                   Op 2 "cir.get_member" "" KGetMember [VRes 1 0] [PtrTy (IntTy 32 true)] [] [];
                   Op 3 "cir.const" "" (KConstant (CInt 32 7)) [] [IntTy 32 true] [] [];
                   Op 4 "cir.store" "" KStore [VRes 3 0; VRes 2 0] [] [] [];
                   Op 5 "cir.load" "" (KLoad false) [VRes 2 0] [IntTy 32 true] [] []]]]].

Lemma private_slot_witness :
  private_use (VRes 2 0) (Op 4 "cir.store" "" KStore [VRes 3 0; VRes 2 0] [] [] []).
Proof.
  apply (private_slot ex_private (Op 1 "cir.alloca" "" KAlloca [] [PtrTy (RecordTy "pair")] [] [])).
  - by vm_compute.
  - by vm_compute.
  - apply (derived_step _ _ (VRes 1 0) (Op 2 "cir.get_member" "" KGetMember [VRes 1 0] [PtrTy (IntTy 32 true)] [] [])).
    + constructor.
    + by apply (list_elem_of_lookup_2 _ 0).
    + done.
  - by apply (list_elem_of_lookup_2 _ 0).
Defined.
End example.
