(* ===== verification/Loops.v ===== *)
(** * Loops: how often a loop runs
      (constantTripCount of WorkEstimate.cpp, countedLoop of Utils.cpp)

    [constantTripCount] answers the number of iterations of a for loop whose
    first value and bound are constants; [countedLoop] recognises a loop
    that counts up by one to a bound held in a variable.  Both read the
    same shape: a stack slot that only the step writes inside the loop.

    [trip_count_exact]: the number answered is the number of iterations of
    the loop in machine arithmetic, with the counter wrapping at its width
    and compared as its type compares. *)

From stdpp Require Import base tactics list strings.
From Stdlib Require Import String ZArith Lia.
From S2P Require Import Prelude Text Cir Utils Slots.
Local Open Scope Z_scope.

(** [llvm::APInt]: a width and the bits, read without a sign. *)
Abbreviation apint := (Z * Z)%type.

Definition sext_or_trunc (v : apint) (to : Z) : apint := (to, sint (fst v) (snd v) mod 2 ^ to).
Definition zext_or_trunc (v : apint) (to : Z) : apint := (to, snd v mod 2 ^ to).

Section loops.
Variable m : module.

Definition int_const (c : const) : option apint := match c with CInt w b => Some (w, b) | _ => None end.

(** A constant integer, through integral casts and globals declared
    constant. *)
Fixpoint constantInt (fuel : nat) (v : value) : option apint :=
  match fuel with
  | O => None
  | S n =>
      match defining_op m v with
      | None => None
      | Some d =>
          match op_kind d with
          | KConstant c => int_const c
          | KCast Cintegral =>
              match operands d with
              | src :: _ =>
                  match type_of m src, result_types d with
                  | Some (IntTy _ sgn), IntTy to _ :: _ =>
                      match constantInt n src with
                      | Some i => Some (if sgn then sext_or_trunc i to else zext_or_trunc i to)
                      | None => None
                      end
                  | _, _ => None
                  end
              | [] => None
              end
          | KLoad volatile =>
              match load_addr d with
              | Some a =>
                  match defining_op m a with
                  | Some gg =>
                      match op_kind gg with
                      | KGetGlobal name =>
                          if volatile then None else
                          match lookup_global m name with
                          | Some g =>
                              match op_kind g with
                              | KGlobal gl =>
                                  if global_constant gl then
                                    match initial_value gl with Some c => int_const c | None => None end
                                  else None
                              | _ => None
                              end
                          | None => None
                          end
                      | _ => None
                      end
                  | None => None
                  end
              | None => None
              end
          | _ => None
          end
      end
  end.

Definition constant_of (v : option value) : option apint :=
  match v with Some x => constantInt (List.length (walk_module m)) x | None => None end.

Definition def_of (v : option value) : option operation :=
  match v with Some x => defining_op m x | None => None end.

(** The comparison a for loop's condition ends in, with its kind. *)
Definition loop_compare (loop : operation) : option (operation * cmp_kind) :=
  match regions loop with
  | [bl] :: _ =>
      match last (block_ops bl) with
      | Some term =>
          match op_kind term with
          | KCondition =>
              match def_of (operands term !! 0%nat) with
              | Some cmp => match op_kind cmp with KCmp k => Some (cmp, k) | _ => None end
              | None => None
              end
          | _ => None
          end
      | None => None
      end
  | _ => None
  end.

Definition load_of (v : option value) : option operation :=
  match def_of v with Some d => if is_load d then Some d else None | None => None end.

Definition flip (k : cmp_kind) : cmp_kind :=
  match k with Clt => Cgt | Cle => Cge | Cgt => Clt | Cge => Cle | k => k end.

(** The load of the counter, the constant bound, and the comparison read
    with the counter on the left. *)
Definition counter_and_bound (cmp : operation) (k : cmp_kind) : option (operation * apint * cmp_kind) :=
  let lhs := operands cmp !! 0%nat in
  let rhs := operands cmp !! 1%nat in
  match load_of lhs, constant_of rhs with
  | Some ind, Some bound => Some (ind, bound, k)
  | _, _ =>
      match load_of rhs, constant_of lhs with
      | Some ind, Some bound => Some (ind, bound, flip k)
      | _, _ => None
      end
  end.

(** The stack slot a load reads. *)
Definition slot_of (ld : operation) : option operation :=
  match def_of (load_addr ld) with Some s => if is_alloca s then Some s else None | None => None end.

Definition loads_slot (slot : operation) (v : option value) : bool :=
  match load_of v with
  | Some l => bool_decide (load_addr l = Some (result slot))
  | None => false
  end.

Definition is_one (v : option apint) : bool := match v with Some (_, b) => b =? 1 | None => false end.
Definition is_all_ones (v : option apint) : bool :=
  match v with Some (w, b) => b =? 2 ^ w - 1 | None => false end.

(** The direction a stored value steps the counter in: up, down, or not by
    one. *)
Definition step_direction (slot : operation) (v : option value) : Z :=
  match def_of v with
  | Some d =>
      let a0 := operands d !! 0%nat in
      let a1 := operands d !! 1%nat in
      if negb (loads_slot slot a0) then 0 else
      match op_kind d with
      | KInc => 1
      | KDec => -1
      | KAdd => if is_one (constant_of a1) then 1 else if is_all_ones (constant_of a1) then -1 else 0
      | KSub => if is_one (constant_of a1) then -1 else 0
      | _ => 0
      end
  | None => 0
  end.

(** The loop over the slot's users. *)
Fixpoint trip_users (loop slot : operation) (us : list operation) (direction : Z) : option Z :=
  match us with
  | [] => Some direction
  | u :: us' =>
      if is_load u || is_lifetime u then trip_users loop slot us' direction
      else if negb (is_store u && bool_decide (store_addr u = Some (result slot))) then None
      else if negb (is_ancestor m loop (op_id u)) then trip_users loop slot us' direction
      else if negb (direction =? 0) || negb (region_holds m loop 2 (op_id u)) then None
      else
        let d := step_direction slot (store_value u) in
        if d =? 0 then None else trip_users loop slot us' d
  end.

(** The operations before one in its block, nearest first:
    [getPrevNode], again and again. *)
Fixpoint before (l : list operation) (i : nat) (acc : list operation) : list operation :=
  match l with
  | [] => []
  | o :: l' => if (op_id o =? i)%nat then acc else before l' i (o :: acc)
  end.
Definition previous (o : operation) : list operation :=
  match block_of m (op_id o) with Some bl => before (block_ops bl) (op_id o) [] | None => [] end.

Definition stores_to (slot o : operation) : bool :=
  is_store o && bool_decide (store_addr o = Some (result slot)).

(** Where the counter starts: the value of the nearest store to it. *)
Fixpoint nearest_store (slot : operation) (l : list operation) : option (option value) :=
  match l with
  | [] => None
  | o :: l' =>
      if stores_to slot o then Some (store_value o)
      else if existsb (stores_to slot) (walk o) then None
      else nearest_store slot l'
  end.

(** [wide]: the value of a constant as its type reads it. *)
Definition wide (signed : bool) (v : apint) : Z := if signed then sint (fst v) (snd v) else snd v.

(** The bounds reached only by wrapping. *)
Definition at_max (signed : bool) (v : apint) : bool :=
  if signed then snd v =? 2 ^ (fst v - 1) - 1 else snd v =? 2 ^ fst v - 1.
Definition at_min (signed : bool) (v : apint) : bool :=
  if signed then snd v =? 2 ^ (fst v - 1) else snd v =? 0.

(** The arithmetic of [constantTripCount]. *)
Definition trip_number (signed : bool) (width direction : Z) (kind : cmp_kind) (first bound : apint)
    : option Z :=
  if (64 <? fst first) || (64 <? fst bound) then None else
  if (fst bound =? width)
     && ((0 <? direction) && bool_decide (kind = Cle) && at_max signed bound
         || (direction <? 0) && bool_decide (kind = Cge) && at_min signed bound)
  then None else
  let a := wide signed first in
  let b := wide signed bound in
  let n :=
    if 0 <? direction then
      match kind with
      | Clt => Some (b - a)
      | Cle => Some (b - a + 1)
      | Cne => if b <? a then None else Some (b - a)
      | _ => None
      end
    else
      match kind with
      | Cgt => Some (a - b)
      | Cge => Some (a - b + 1)
      | Cne => if a <? b then None else Some (a - b)
      | _ => None
      end in
  match n with
  | None => None
  | Some n =>
      let n := if n <? 0 then 0 else n in
      if 2 ^ 64 - 1 <? n then None else Some n
  end.

Definition constantTripCount (loop : operation) : option Z :=
  match loop_compare loop with
  | None => None
  | Some (cmp, k0) =>
      match match operands cmp !! 0%nat with Some x => type_of m x | None => None end with
      | Some (IntTy width signed) =>
          match counter_and_bound cmp k0 with
          | None => None
          | Some (ind, bound, kind) =>
              match slot_of ind with
              | None => None
              | Some slot =>
                  match trip_users loop slot (users m (result slot)) 0 with
                  | None => None
                  | Some direction =>
                      if direction =? 0 then None else
                      match nearest_store slot (previous loop) with
                      | None => None
                      | Some v =>
                          match constant_of v with
                          | None => None
                          | Some first => trip_number signed width direction kind first bound
                          end
                      end
                  end
              end
          end
      | _ => None
      end
  end.

(** ** Counted loops *)

Record CountedLoop := Counted {
  cl_loop : operation; cl_bound : operation; cl_first : Z; cl_inclusive : bool;
}.

(** The loop over the slot's users: how many stores step it. *)
Fixpoint counted_users (loop slot : operation) (us : list operation) (steps : nat) : option nat :=
  match us with
  | [] => Some steps
  | u :: us' =>
      if is_load u || is_lifetime u then counted_users loop slot us' steps
      else if negb (is_store u && bool_decide (store_addr u = Some (result slot))) then None
      else if negb (is_ancestor m loop (op_id u)) then counted_users loop slot us' steps
      else if negb (region_holds m loop 2 (op_id u)) then None
      else
        let by_one :=
          match def_of (store_value u) with
          | Some d =>
              loads_slot slot (operands d !! 0%nat) &&
              match op_kind d with
              | KInc => true
              | KAdd =>
                  match def_of (operands d !! 1%nat) with
                  | Some c => match op_kind c with KConstant (CInt w b) => sint w b =? 1 | _ => false end
                  | None => false
                  end
              | _ => false
              end
          | None => false
          end in
        if by_one then counted_users loop slot us' (S steps) else None
  end.

(** Whether a bound is read from a variable: a global or another slot. *)
Definition variable_addr (slot : operation) (a : option value) : bool :=
  negb (bool_decide (a = Some (result slot))) &&
  match def_of a with
  | Some d => match op_kind d with KGetGlobal _ | KAlloca => true | _ => false end
  | None => false
  end.

Definition countedLoop (loop : operation) : option CountedLoop :=
  match loop_compare loop with
  | None => None
  | Some (cmp, kind) =>
      let l := operands cmp !! 0%nat in
      match match l with Some x => type_of m x | None => None end with
      | Some (IntTy _ _) =>
          match load_of l, load_of (operands cmp !! 1%nat) with
          | Some lhs, Some rhs =>
              let sides := match kind with
                | Cle => Some (lhs, rhs, true) | Clt => Some (lhs, rhs, false)
                | Cge => Some (rhs, lhs, true) | Cgt => Some (rhs, lhs, false)
                | _ => None
                end in
              match sides with
              | None => None
              | Some (ind, bound, inclusive) =>
                  match slot_of ind with
                  | None => None
                  | Some slot =>
                      if negb (variable_addr slot (load_addr bound)) then None else
                      match counted_users loop slot (users m (result slot)) 0 with
                      | Some 1%nat =>
                          match nearest_store slot (previous loop) with
                          | Some (Some v) =>
                              match defining_op m v with
                              | Some c =>
                                  match op_kind c with
                                  | KConstant (CInt w b) => Some (Counted loop bound (sint w b) inclusive)
                                  | _ => None
                                  end
                              | None => None
                              end
                          | _ => None
                          end
                      | _ => None
                      end
                  end
              end
          | _, _ => None
          end
      | _ => None
      end
  end.
End loops.

(** [spscWhenLoopsRunOnce]: the verdict when each side's threads are all
    started by a loop that runs once. *)
Definition kTopologyAttrName : string := "wtc.topology".
Definition kProducersLoopAttrName : string := "wtc.producers_loop".
Definition kConsumersLoopAttrName : string := "wtc.consumers_loop".

Definition spscWhenLoopsRunOnce (root : operation) : bool :=
  match get_attr (op_attrs root) kTopologyAttrName with
  | Some (ATopology t) =>
      let manyProducers := bool_decide (t = Tmpsc ∨ t = Tmpmc) in
      let manyConsumers := bool_decide (t = Tspmc ∨ t = Tmpmc) in
      if bool_decide (t = Tunknown) then false
      else (negb manyProducers || has_attr root kProducersLoopAttrName)
           && (negb manyConsumers || has_attr root kConsumersLoopAttrName)
  | _ => false
  end.

(** ** The loop in machine arithmetic *)

(** The counter after [j] steps, as its bits. *)
Definition counter_at (width direction first j : Z) : Z := (first + direction * j) mod 2 ^ width.

(** The comparison on the values the bits stand for. *)
Definition compare_values (kind : cmp_kind) (x y : Z) : bool :=
  match kind with
  | Clt => x <? y | Cle => x <=? y | Cgt => y <? x | Cge => y <=? x | Ceq => x =? y | Cne => negb (x =? y)
  end.

Definition goes_on (signed : bool) (width direction : Z) (kind : cmp_kind) (first bound j : Z) : bool :=
  compare_values kind (wide signed (width, counter_at width direction first j)) (wide signed (width, bound)).

(** The loop runs its body [n] times: the condition holds before each of
    them and not after. *)
Definition runs_times (signed : bool) (width direction : Z) (kind : cmp_kind) (first bound n : Z) : Prop :=
  0 ≤ n ∧ (∀ j, 0 ≤ j < n → goes_on signed width direction kind first bound j = true) ∧
  goes_on signed width direction kind first bound n = false.

(** The least and the greatest value of a type. *)
Definition type_min (signed : bool) (width : Z) : Z := if signed then - 2 ^ (width - 1) else 0.
Definition type_max (signed : bool) (width : Z) : Z := if signed then 2 ^ (width - 1) - 1 else 2 ^ width - 1.

Lemma pow_half width : 0 < width → 2 ^ width = 2 * 2 ^ (width - 1).
Proof. intros. replace width with (Z.succ (width - 1)) at 1 by lia. apply Z.pow_succ_r. lia. Qed.

Lemma wide_range signed width b :
  0 < width → 0 ≤ b < 2 ^ width → type_min signed width ≤ wide signed (width, b) ≤ type_max signed width.
Proof.
  intros Hw Hb. unfold wide, type_min, type_max, sint. cbn. pose proof (pow_half width Hw).
  destruct signed; [|lia]. destruct (Z.ltb_spec b (2 ^ (width - 1))); lia.
Qed.

(** While the true value stays in the type's range, the wrapped counter
    has it. *)
Lemma counter_value signed width direction first j :
  0 < width → 0 ≤ first < 2 ^ width →
  type_min signed width ≤ wide signed (width, first) + direction * j ≤ type_max signed width →
  wide signed (width, counter_at width direction first j) = wide signed (width, first) + direction * j.
Proof.
  intros Hw Hf Hr. unfold counter_at, wide, type_min, type_max, sint in *. cbn in *.
  pose proof (pow_half width Hw) as Hp. pose proof (Z.pow_pos_nonneg 2 (width - 1) ltac:(lia) ltac:(lia)).
  set (d := direction * j) in *. destruct signed; [|rewrite Z.mod_small; lia].
  assert ((first + d) mod 2 ^ width =
          (if first <? 2 ^ (width - 1) then first else first - 2 ^ width) + d
          + (if (if first <? 2 ^ (width - 1) then first else first - 2 ^ width) + d <? 0 then 2 ^ width else 0)) as ->.
  { symmetry. destruct (Z.ltb_spec first (2 ^ (width - 1))).
    - destruct (Z.ltb_spec (first + d) 0).
      + apply (Z.mod_unique _ _ (-1)); lia.
      + rewrite Z.mod_small; lia.
    - destruct (Z.ltb_spec (first - 2 ^ width + d) 0).
      + rewrite Z.mod_small; lia.
      + apply (Z.mod_unique _ _ 1); lia. }
  destruct (Z.ltb_spec first (2 ^ (width - 1))); repeat case_match; lia.
Qed.

Lemma goes_on_value signed width direction kind first bound j :
  0 < width → 0 ≤ first < 2 ^ width →
  type_min signed width ≤ wide signed (width, first) + direction * j ≤ type_max signed width →
  goes_on signed width direction kind first bound j =
  compare_values kind (wide signed (width, first) + direction * j) (wide signed (width, bound)).
Proof. intros. unfold goes_on. by rewrite counter_value. Qed.

Lemma at_max_spec signed width b :
  0 < width → 0 ≤ b < 2 ^ width → at_max signed (width, b) = false → wide signed (width, b) < type_max signed width.
Proof.
  intros Hw Hb H. unfold at_max, wide, type_max, sint in *. cbn in *. pose proof (pow_half width Hw).
  destruct signed; apply Z.eqb_neq in H; [destruct (Z.ltb_spec b (2 ^ (width - 1)))|]; lia.
Qed.

Lemma at_min_spec signed width b :
  0 < width → 0 ≤ b < 2 ^ width → at_min signed (width, b) = false → type_min signed width < wide signed (width, b).
Proof.
  intros Hw Hb H. unfold at_min, wide, type_min, sint in *. cbn in *. pose proof (pow_half width Hw).
  destruct signed; apply Z.eqb_neq in H; [destruct (Z.ltb_spec b (2 ^ (width - 1)))|]; lia.
Qed.

(** C34: The trip count is exact.  For a counter of any width up to 64 bits,
    signed or not, stepped up or down by one and compared with a constant
    of its own width, the number answered is the number of times the loop
    runs in machine arithmetic, the counter wrapping at its width: the
    condition holds before each of that many iterations and fails after
    them.  A bound met only by wrapping is refused, never miscounted. *)
Theorem trip_count_exact (signed : bool) (width direction : Z) (kind : cmp_kind) (first bound n : Z) :
  0 < width → 0 ≤ first < 2 ^ width → 0 ≤ bound < 2 ^ width → direction = 1 ∨ direction = -1 →
  trip_number signed width direction kind (width, first) (width, bound) = Some n →
  runs_times signed width direction kind first bound n.
Proof.
  intros Hw Hf Hb Hd Hn.
  pose proof (wide_range signed width first Hw Hf) as Ha. pose proof (wide_range signed width bound Hw Hb) as Hbb.
  unfold trip_number in Hn. cbn [fst] in Hn. rewrite Z.eqb_refl in Hn. cbn [andb] in Hn.
  destruct ((64 <? width) || (64 <? width)); [done|].
  destruct (_ || _) eqn:Ewrap; [done|]. apply orb_false_iff in Ewrap as [Emax Emin].
  assert (direction = 1 → kind = Cle → wide signed (width, bound) < type_max signed width) as Hmax.
  { intros -> ->. by apply at_max_spec. }
  assert (direction = -1 → kind = Cge → type_min signed width < wide signed (width, bound)) as Hmin.
  { intros -> ->. by apply at_min_spec. }
  clear Emax Emin.
  assert (∀ k, (∀ j, 0 ≤ j < k →
      type_min signed width ≤ wide signed (width, first) + direction * j ≤ type_max signed width ∧
      compare_values kind (wide signed (width, first) + direction * j) (wide signed (width, bound)) = true) →
    0 ≤ k → type_min signed width ≤ wide signed (width, first) + direction * k ≤ type_max signed width →
    compare_values kind (wide signed (width, first) + direction * k) (wide signed (width, bound)) = false →
    runs_times signed width direction kind first bound k) as Hrun.
  { intros k Hj Hk Hr Hc. split; [done|]. split.
    - intros j Hj'. destruct (Hj j Hj'). by rewrite goes_on_value.
    - by rewrite goes_on_value. }
  revert Hn Hmax Hmin Hrun Ha Hbb. generalize (type_min signed width), (type_max signed width).
  generalize (wide signed (width, first)), (wide signed (width, bound)). intros a b lo hi Hn Hmax Hmin Hrun Ha Hb'.
  destruct Hd as [-> | ->]; cbn [Z.ltb Z.compare] in Hn; destruct kind; try discriminate Hn;
    try specialize (Hmax eq_refl eq_refl); try specialize (Hmin eq_refl eq_refl);
    repeat match type of Hn with
    | context [if ?x <? ?y then _ else _] => destruct (Z.ltb_spec x y); try discriminate Hn
    end; injection Hn as <-; apply Hrun; cbn [compare_values]; try lia.
Qed.

Lemma trip_count_exact_witness : runs_times true 8 1 Cle 250 3 10.
Proof. apply trip_count_exact; [lia..|by left|by vm_compute]. Defined.

(** ** A step that does not always step

    [for (int i = 0; i < 10; c ? ++i : 0)]: the store that steps the counter
    sits in one arm of a ternary of the step.  [region_holds] looks at any
    depth, so the loop counts as one that always steps. *)
Section conditional_step.
Local Open Scope string_scope.
Definition i32t : ty := IntTy 32 true.
Definition ex_for : operation :=
  Op 10 "cir.for" "" KFor [] [] []
    [[Block 2 [] [Op 11 "cir.load" "" (KLoad false) [VRes 1 0] [i32t] [] [];
                  Op 12 "cir.const" "" (KConstant (CInt 32 10)) [] [i32t] [] [];
                  Op 13 "cir.cmp" "" (KCmp Clt) [VRes 11 0; VRes 12 0] [OtherTy "bool"] [] [];
                  Op 14 "cir.condition" "" KCondition [VRes 13 0] [] [] []]];
     [Block 3 [] []];
     [Block 4 [] [Op 15 "cir.ternary" "" KTernary [VRes 4 0] [i32t] []
        [[Block 5 [] [Op 16 "cir.load" "" (KLoad false) [VRes 1 0] [i32t] [] [];
                      Op 17 "cir.inc" "" KInc [VRes 16 0] [i32t] [] [];
                      Op 18 "cir.store" "" KStore [VRes 17 0; VRes 1 0] [] [] []]];
         [Block 6 [] []]]]]].
Definition ex_conditional : module :=
  [Op 0 "cir.func" "" (KFunc (Func "f" false false None None None 0)) [] [] []
     [[Block 0 [] [Op 1 "cir.alloca" "" KAlloca [] [PtrTy i32t] [] [];
                   Op 2 "cir.const" "" (KConstant (CInt 32 0)) [] [i32t] [] [];
                   Op 3 "cir.store" "" KStore [VRes 2 0; VRes 1 0] [] [] [];
                   Op 4 "cir.other" "" KOther [] [OtherTy "bool"] [] [];
                   ex_for]]]].

Example conditional_step_counted : constantTripCount ex_conditional ex_for = Some 10.
Proof. by vm_compute. Qed.
End conditional_step.
