(* ===== verification/Specialize.v ===== *)
(** * Specialize: which implementation a queue runs (WTCSpecialize.cpp)

    For each queue the analysis decided, the pass rewrites the constant its
    constructor passes: to the implementation the verdict allows, or, when a
    side is many only because one counted loop starts its threads, to a
    choice made when the queue is built, from the loop's own bound.

    The decisions are functions of the module as it stands when they are
    made: where a tag may be rewritten and to what ([static_tag]), where a
    run-time choice may be made ([runTimeChoice]: the loops, the variable
    read, the place, and why nothing writes that variable in between), and
    the choice itself as an expression over the bounds ([tag_expr]).
    Dominance is MLIR's: a parameter.

    [run_time_tag_admits]: whatever the bounds are when the queue is built,
    the implementation chosen admits the producers and consumers the loops
    then start. *)

From stdpp Require Import base tactics list strings.
From Stdlib Require Import String ZArith Lia.
From S2P Require Import Prelude Text Cir Utils Slots Loops.
Local Open Scope string_scope.

Definition kBorrowedAttrName : string := "wtc.borrowed".
Definition kQueueIdAttrName : string := "wtc.queue_id".
Definition kSpawnLoopAttrName : string := "wtc.spawn_loop".
Definition kSpawnViaAttrName : string := "wtc.spawn_via".
Definition kProducersViaAttrName : string := "wtc.producers_via".
Definition kConsumersViaAttrName : string := "wtc.consumers_via".

(** ** The implementation for a verdict *)

Definition implAt (oneProducer oneConsumer inlineOk : bool) : impl :=
  if oneProducer && oneConsumer then if inlineOk then Ispsc_inline else Ispsc
  else if oneConsumer then Impsc
  else if oneProducer then Ispmc
  else Igeneric.

(** The integer a tag is written as, and [symbolizeImpl] back. *)
Definition impl_tag (i : impl) : Z :=
  match i with Igeneric => 0 | Ispsc => 1 | Ispsc_inline => 2 | Impsc => 3 | Ispmc => 4 end%Z.
Definition symbolizeImpl (n : Z) : option impl :=
  match n with
  | 0 => Some Igeneric | 1 => Some Ispsc | 2 => Some Ispsc_inline | 3 => Some Impsc | 4 => Some Ispmc
  | _ => None
  end%Z.

(** [Impl to] of the static rewriting; [forced] and [forcedInline] are the
    negative controls. *)
Definition static_impl (verdict : topology) (forced forcedInline borrowed inlineMarked : bool) : impl :=
  let manySide := bool_decide (verdict = Tmpsc ∨ verdict = Tspmc) && negb forced && negb forcedInline in
  let to := if negb manySide then Ispsc else if bool_decide (verdict = Tmpsc) then Impsc else Ispmc in
  if forcedInline then Ispsc_inline
  else if negb manySide && borrowed then if inlineMarked then Ispsc_inline else to
  else to.

Section specialize.
Variable m : module.
Variable properlyDominates : operation → operation → bool.
Variables forceSpsc forceInline : list string.

(** [marksInlineOk]: the constructor calls the marker. *)
Definition marksInlineOk (ctor : option operation) : bool :=
  match ctor with
  | Some f =>
      negb (body_empty f)
      && existsb (λ o, match as_call o with
           | Some _ => hasAnnotation (lookupCallee m o) "wtc_queue_inline_ok"
           | None => false
           end) (walk f)
  | None => false
  end.

Definition attr_int (o : operation) (name : string) : option Z :=
  match get_attr (op_attrs o) name with Some (AInt n) => Some n | _ => None end.
Definition attr_topology (o : operation) : option topology :=
  match get_attr (op_attrs o) kTopologyAttrName with Some (ATopology t) => Some t | _ => None end.

(** The constructors of each root: those found by what they build, and a
    constructor call that is its own queue's root. *)
Definition set_ctor (root : operation) (l : list (operation * list operation)) : list (operation * list operation) :=
  if existsb (λ p, op_id (fst p) =? op_id root)%nat l
  then map (λ p, if (op_id (fst p) =? op_id root)%nat then (fst p, [root]) else p) l
  else l ++ [(root, [root])].
Definition ctorsOf : list (operation * list operation) :=
  fold_left (λ acc o, match as_call o with
      | Some _ => if has_attr o kTopologyAttrName then set_ctor o acc else acc
      | None => acc
      end) (walk_module m) (collectQueueConstructors m).
Definition ctors_at (root : operation) : list operation :=
  match List.find (λ p, op_id (fst p) =? op_id root)%nat ctorsOf with Some (_, cs) => cs | None => [] end.

(** The constant tag a constructor passes. *)
Definition constant_tag (ctor : operation) : option Z :=
  match operands ctor !! 1%nat with
  | Some v =>
      match defining_op m v with
      | Some d => match op_kind d with KConstant (CInt w b) => Some (sint w b) | _ => None end
      | None => None
      end
  | None => None
  end.

(** What the static rewriting does with a root. *)
Inductive decision :=
| Leave                                   (* not wanted: nothing is said *)
| NotSpecialised (reason : string)
| Rewrite (ctor : operation) (to : impl).

Definition is_root (o : operation) : bool :=
  match op_kind o with
  | KGlobal _ | KAlloca => true
  | KCall _ => has_attr o kTopologyAttrName
  | _ => false
  end.

Definition forced_by (names : list string) (o : operation) : bool :=
  match op_kind o with KGlobal g => in_set names (global_name g) | _ => false end.

Definition static_tag (root : operation) : decision :=
  let verdict := default Tunknown (attr_topology root) in
  let forced := forced_by forceSpsc root in
  let forcedInline := forced_by forceInline root in
  let wanted := bool_decide (verdict = Tspsc ∨ verdict = Tmpsc ∨ verdict = Tspmc) || forced || forcedInline in
  if negb wanted then Leave else
  match ctors_at root with
  | [] => NotSpecialised "no constructor call found for this queue"
  | [ctor] =>
      if negb (takesTopologyTag m ctor) then NotSpecialised "the constructor does not take a topology tag"
      else match constant_tag ctor with
      | None => NotSpecialised "the topology tag is not a constant"
      | Some t =>
          if negb (t =? 0)%Z then NotSpecialised "the program sets the tag itself"
          else Rewrite ctor (static_impl verdict forced forcedInline (has_attr root kBorrowedAttrName)
                               (marksInlineOk (lookupCallee m ctor)))
      end
  | _ => NotSpecialised "constructor calls reach this queue"
  end.

(** ** Where a run-time choice may be made *)

Inductive order_result := Before | NotBefore | InLoop.

Definition is_loop (o : operation) : bool := match op_kind o with KFor | KLoop => true | _ => false end.

(** The innermost of [after] and what it sits in, below [f], whose block
    also holds [before] or something [before] sits in. *)
Fixpoint meet (chain : list operation) (before f : operation) : option (operation * operation) :=
  match chain with
  | [] => None
  | x :: chain' =>
      if (op_id x =? op_id f)%nat then None else
      match block_of m (op_id x) with
      | Some bl =>
          match findAncestorOpInBlock m (block_id bl) before with
          | Some y => Some (x, y)
          | None => meet chain' before f
          end
      | None => None
      end
  end.

(** The operations [o] sits in, innermost first, up to and without [f]. *)
Fixpoint up_to (chain : list operation) (f : operation) : list operation :=
  match chain with
  | [] => []
  | p :: chain' => if (op_id p =? op_id f)%nat then [] else p :: up_to chain' f
  end.

Definition order (before after f : operation) : order_result :=
  match meet (after :: rev (ancestors m (op_id after))) before f with
  | None => NotBefore
  | Some (x, y) =>
      if (op_id y =? op_id x)%nat || negb (isBeforeInBlock m y x) then NotBefore
      else if existsb is_loop (up_to (rev (ancestors m (op_id x))) f) then InLoop
      else Before
  end.

Record SideBound := Side {
  sb_loop : CountedLoop;
  sb_addr : option value;
  sb_at : operation;
  sb_via : option operation;
}.

Definition same_op (a b : option operation) : bool :=
  match a, b with
  | Some x, Some y => (op_id x =? op_id y)%nat
  | None, None => true
  | _, _ => false
  end.

(** The loop of [boundThrough] over the slot's users: the parameter kept in
    it. *)
Fixpoint kept_parameter (slot loopFn : operation) (us : list operation) (param : option (nat * nat))
    : option (option (nat * nat)) :=
  match us with
  | [] => Some param
  | u :: us' =>
      if is_load u && bool_decide (load_addr u = Some (result slot)) then kept_parameter slot loopFn us' param
      else if is_lifetime u then kept_parameter slot loopFn us' param
      else
        let entry := match body loopFn with bl :: _ => Some (block_id bl) | [] => None end in
        match store_value u with
        | Some (VArg b i) =>
            if is_store u && bool_decide (store_addr u = Some (result slot))
               && negb (match param with Some _ => true | None => false end)
               && bool_decide (Some b = entry)
               && bool_decide (option_map block_id (block_of m (op_id u)) = entry)
            then kept_parameter slot loopFn us' (Some (b, i))
            else None
        | _ => None
        end
  end.

Definition boundThrough (l : CountedLoop) (via : operation) : SideBound + string :=
  let loopFn := enclosing_func m (op_id (cl_loop l)) in
  match as_call via, loopFn with
  | Some _, Some fn =>
      if negb (same_op (lookupCallee m via) loopFn)
      then inr "the call recorded for the loop does not call its function"
      else match slot_of m (cl_bound l) with
      | None => inr "the loop's bound is not a parameter of its function"
      | Some slot =>
          match kept_parameter slot fn (users m (result slot)) None with
          | None => inr "the loop's bound is not a parameter its function keeps as it is"
          | Some None => inr "the loop's bound is not a parameter of its function"
          | Some (Some (b, i)) =>
              if (List.length (operands via) <=? i)%nat then inr "the call passes no value for the loop's bound"
              else match load_of m (operands via !! i) with
              | Some ld =>
                  if bool_decide (result_types ld !! 0%nat = type_of m (VArg b i))
                  then inl (Side l (load_addr ld) via (Some via))
                  else inr "the call passes the loop's bound as something other than a variable"
              | None => inr "the call passes the loop's bound as something other than a variable"
              end
          end
      end
  | _, _ => inr "the call recorded for the loop does not call its function"
  end.

(** [storesSettled]: every use of the variable is a load, a lifetime mark,
    or a store of this function before the constructor. *)
Fixpoint storesSettled (ctor f : operation) (addr : value) (us : list operation) : option string :=
  match us with
  | [] => None
  | u :: us' =>
      if is_load u && bool_decide (load_addr u = Some addr) then storesSettled ctor f addr us'
      else if is_lifetime u then storesSettled ctor f addr us'
      else if negb (is_store u && bool_decide (store_addr u = Some addr))
      then Some "the loop's bound has its address taken"
      else if negb (same_op (enclosing_func m (op_id u)) (Some f))
      then Some "the loop's bound is written in another function"
      else match order u ctor f with
      | Before => storesSettled ctor f addr us'
      | _ => Some "the loop's bound may be written after the queue is built"
      end
  end.

(** A global the module also names in an initialiser. *)
Definition viewed (name : string) : bool :=
  existsb (λ o, existsb (λ p, match snd p with ASym s => String.eqb s name | _ => false end) (op_attrs o))
    (walk_module m).

Definition boundUnsettled (ctor : operation) (b : SideBound) : option string :=
  match enclosing_func m (op_id ctor) with
  | None => Some "the queue is built outside the function whose loop starts its threads"
  | Some f =>
      if negb (same_op (enclosing_func m (op_id (sb_at b))) (Some f))
      then Some "the queue is built outside the function whose loop starts its threads"
      else match order ctor (sb_at b) f with
      | NotBefore => Some "the queue is not built before the loop that starts its threads"
      | InLoop => Some "the queue is built in a loop around the loop that starts its threads"
      | Before =>
          match sb_addr b with
          | None => Some "the loop's bound is neither a variable nor a global"
          | Some addr =>
              match defining_op m addr with
              | Some d =>
                  match op_kind d with
                  | KAlloca =>
                      if negb (properlyDominates d ctor)
                      then Some "the loop's bound is a variable the queue's constructor cannot see"
                      else storesSettled ctor f addr (users m addr)
                  | KGetGlobal n =>
                      if viewed n then Some "the loop's bound has its address taken"
                      else first_some (λ use, match op_kind use with
                        | KGetGlobal n' =>
                            if String.eqb n' n then storesSettled ctor f (result use) (users m (result use)) else None
                        | _ => None
                        end) (walk_module m)
                  | _ => Some "the loop's bound is neither a variable nor a global"
                  end
              | None => Some "the loop's bound is neither a variable nor a global"
              end
          end
      end
  end.

(** The last loop, or call, carrying a number. *)
Definition numbered (is_kind : operation → bool) (name : string) (id : Z) : option operation :=
  last (List.filter (λ o, is_kind o && bool_decide (attr_int o name = Some id)) (walk_module m)).
Definition is_for (o : operation) : bool := match op_kind o with KFor => true | _ => false end.
Definition is_call (o : operation) : bool := match op_kind o with KCall _ => true | _ => false end.
Definition loopNumbered (id : Z) : option operation := numbered is_for kSpawnLoopAttrName id.
Definition viaNumbered (id : Z) : option operation := numbered is_call kSpawnViaAttrName id.

Definition builderCall (ctor anchor : operation) : operation + string :=
  match enclosing_func m (op_id ctor) with
  | None => inr "the queue is built outside the function whose loop starts its threads"
  | Some inner =>
      match List.filter (λ c, is_call c && same_op (lookupCallee m c) (Some inner)) (walk anchor) with
      | [] => inr "the queue is built outside the function whose loop starts its threads"
      | [found] =>
          if existsb is_loop (up_to (rev (ancestors m (op_id ctor))) inner)
          then inr "the queue is built in a loop of the function that builds it"
          else if existsb (λ c, is_call c && same_op (lookupCallee m c) (Some inner)) (walk inner)
          then inr "the function that builds the queue calls itself"
          else if match as_func inner with Some g => match aliasee g with Some _ => true | None => false end
                                         | None => false end || body_empty inner
          then inr "the function that builds the queue has no body here"
          else inl found
      | _ => inr "the function that builds the queue is called more than once by the one whose loop starts its threads"
      end
  end.

(** A side's loop and where its count is read. *)
Definition side_bound (root : operation) (loopName viaName : string) : option (option SideBound) + string :=
  match attr_int root loopName with
  | None => inl (Some None)
  | Some id =>
      match loopNumbered id with
      | None => inl None
      | Some loop =>
          match countedLoop m loop with
          | None => inl None
          | Some l =>
              match attr_int root viaName with
              | None => inl (Some (Some (Side l (load_addr (cl_bound l)) loop None)))
              | Some v =>
                  match viaNumbered v with
                  | None => inl None
                  | Some via =>
                      match boundThrough l via with
                      | inl b => inl (Some (Some b))
                      | inr why => inr why
                      end
                  end
              end
          end
      end
  end.

(** The choice a queue's tag becomes: its two sides, and where it is
    made. *)
Record choice := Choice {
  ch_ctor : operation;
  ch_producers : option SideBound;
  ch_consumers : option SideBound;
  ch_site : operation;
  ch_builder : bool;
  ch_inlineOk : bool;
}.

(** [specialiseAtRunTime] up to the rewriting: no choice, quietly or with a
    reason, or the choice. *)
Definition runTimeChoice (root : operation) : option (choice + string) :=
  match attr_int root kProducersLoopAttrName, attr_int root kConsumersLoopAttrName with
  | None, None => None
  | _, _ =>
      match ctors_at root with
      | [ctor] =>
          if negb (takesTopologyTag m ctor) || negb (bool_decide (constant_tag ctor = Some 0%Z)) then None else
          match side_bound root kProducersLoopAttrName kProducersViaAttrName with
          | inr why => Some (inr why)
          | inl None => None
          | inl (Some pl) =>
              match side_bound root kConsumersLoopAttrName kConsumersViaAttrName with
              | inr why => Some (inr why)
              | inl None => None
              | inl (Some cl) =>
                  match match pl with Some b => Some b | None => cl end with
                  | None => None
                  | Some b0 =>
                      let anchor := enclosing_func m (op_id (sb_at b0)) in
                      if match pl, cl with
                         | Some _, Some c => negb (same_op (enclosing_func m (op_id (sb_at c))) anchor)
                         | _, _ => false
                         end
                      then Some (inr "the loops that start its threads are run by different functions")
                      else
                        let place :=
                          if same_op (enclosing_func m (op_id ctor)) anchor then inl (ctor, false)
                          else match anchor with
                          | Some a => match builderCall ctor a with
                                      | inl c => inl (c, true)
                                      | inr why => inr why
                                      end
                          | None => inr "the queue is built outside the function whose loop starts its threads"
                          end in
                        match place with
                        | inr why => Some (inr why)
                        | inl (site, builder) =>
                            match first_some (λ b, match b with Some b => boundUnsettled site b | None => None end)
                                    [pl; cl] with
                            | Some why => Some (inr why)
                            | None =>
                                Some (inl (Choice ctor pl cl site builder
                                  (has_attr root kBorrowedAttrName && marksInlineOk (lookupCallee m ctor))))
                            end
                        end
                  end
              end
          end
      | _ => None
      end
  end.

(** ** The choice itself *)

(** What the constructor is passed: a constant, or a select on whether a
    side's loop runs at most once. *)
Inductive side := Producers | Consumers.
Inductive tag_expr :=
| TConst (i : impl)
| TSelect (s : side) (one many : tag_expr).

Definition tag_of (verdict : topology) (oneP oneC : bool) (inlineOk : bool) : tag_expr :=
  let manyP := bool_decide (verdict = Tmpsc ∨ verdict = Tmpmc) in
  let manyC := bool_decide (verdict = Tspmc ∨ verdict = Tmpmc) in
  let forProducers oneProducer :=
    if negb oneC then TConst (implAt oneProducer (negb manyC) inlineOk)
    else TSelect Consumers (TConst (implAt oneProducer true inlineOk)) (TConst (implAt oneProducer false inlineOk)) in
  if oneP then TSelect Producers (forProducers true) (forProducers false)
  else forProducers (negb manyP).

(** [atMostOnce]: the bound compared with the limit, in the bound's type. *)
Definition at_most_once (signed : bool) (width : Z) (l_first : Z) (inclusive : bool) (bound : Z) : bool :=
  let lim := ((l_first + (if inclusive then 0 else 1)) mod 2 ^ width)%Z in
  (wide signed (width, bound) <=? wide signed (width, lim))%Z.

Fixpoint eval_tag (e : tag_expr) (oneP oneC : bool) : impl :=
  match e with
  | TConst i => i
  | TSelect Producers a b => eval_tag (if oneP then a else b) oneP oneC
  | TSelect Consumers a b => eval_tag (if oneC then a else b) oneP oneC
  end.

(** ** What each operation records *)

Definition impls : list (Z * impl) :=
  flat_map (λ '(root, ctors), match attr_int root kQueueIdAttrName with
    | Some id =>
        [(id, match constructorTag m ctors with
              | Some t => if (0 <=? t)%Z then default Igeneric (symbolizeImpl t) else Igeneric
              | None => Igeneric
              end)]
    | None => []
    end) ctorsOf.

Definition implFor (id : option Z) : impl :=
  match id with
  | None => Igeneric
  | Some i => match List.find (λ p, fst p =? i)%Z (rev impls) with Some (_, x) => x | None => Igeneric end
  end.

Definition is_queue_op (w : wtc_op) : bool :=
  match w with
  | QueuePushOp _ _ _ _ | QueuePopOp _ _ _ _ _ | QueueBatchBeginOp | QueuePushDeferredOp | QueueBatchEndOp => true
  | _ => false
  end.

Definition record_impl (o : operation) : operation :=
  match o with
  | Op i n l (KWtc w a) args r at_ rs =>
      if is_queue_op w
      then Op i n l (KWtc w (WtcAttrs (fallback_impl a) (source_type a) (source_arg_attrs a) (wtc_topology a)
                               (queue_id a) (Some (implFor (queue_id a))))) args r at_ rs
      else o
  | _ => o
  end.
End specialize.

Lemma symbolize_tag i : symbolizeImpl (impl_tag i) = Some i.
Proof. by destruct i. Qed.

(** ** The choice suits the threads *)

(** How many producers and consumers an implementation is for. *)
Definition admits (i : impl) (producers consumers : Z) : Prop :=
  match i with
  | Igeneric => True
  | Ispsc | Ispsc_inline => (producers ≤ 1 ∧ consumers ≤ 1)%Z
  | Impsc => (consumers ≤ 1)%Z
  | Ispmc => (producers ≤ 1)%Z
  end.

(** A loop that starts one thread an iteration, counting up by one from
    [cs_first] to the bound, as the machine runs it; [cs_read] is what the
    bound's variable holds where the queue is built, [cs_bound] what it
    holds when the loop runs. *)
Record counted_side := CountedSide {
  cs_signed : bool; cs_width : Z; cs_first : Z; cs_inclusive : bool; cs_read : Z; cs_bound : Z;
}.

Definition side_wf (c : counted_side) : Prop :=
  (0 < cs_width c ∧ 0 ≤ cs_first c < 2 ^ cs_width c ∧ 0 ≤ cs_bound c < 2 ^ cs_width c)%Z.

(** The bound is not written between the two: what [boundUnsettled] looks
    for. *)
Definition settled (c : counted_side) : Prop := cs_read c = cs_bound c.

(** A loop up to and including its bound, from the largest value of its
    type: the one the test misjudges ([inclusive_at_max]). *)
Definition never_ends (c : counted_side) : bool :=
  cs_inclusive c && at_max (cs_signed c) (cs_width c, cs_first c).

(** The loop has begun its [n]th iteration, or ends before. *)
Definition started (c : counted_side) (n : Z) : Prop :=
  ∀ j, (0 ≤ j < n)%Z →
    goes_on (cs_signed c) (cs_width c) 1 (if cs_inclusive c then Cle else Clt) (cs_first c) (cs_bound c) j = true.

Definition chosen_once (c : counted_side) : bool :=
  at_most_once (cs_signed c) (cs_width c) (cs_first c) (cs_inclusive c) (cs_read c).

Lemma wide_succ signed width first :
  (0 < width → 0 ≤ first < 2 ^ width → wide signed (width, first) < type_max signed width →
   wide signed (width, (first + 1) mod 2 ^ width) = wide signed (width, first) + 1)%Z.
Proof.
  intros Hw Hf Hm. pose proof (counter_value signed width 1 first 1 Hw Hf) as H.
  unfold counter_at in H. rewrite Z.mul_1_l in H. apply H.
  pose proof (wide_range signed width first Hw Hf). lia.
Qed.

(** The test at the constructor bounds what the loop starts. *)
Lemma at_most_once_sound c n : side_wf c → settled c → never_ends c = false → chosen_once c = true → started c n → (n ≤ 1)%Z.
Proof.
  destruct c as [signed width first inclusive read bound]. unfold side_wf, settled, never_ends, chosen_once, started, at_most_once. cbn.
  intros (Hw & Hf & Hb) -> Hmax Hone Hs. destruct (Z.le_gt_cases n 1) as [|Hn]; [done|exfalso].
  apply Z.leb_le in Hone. pose proof (Hs 0%Z ltac:(lia)) as H0. pose proof (Hs 1%Z ltac:(lia)) as H1. clear Hs.
  pose proof (wide_range signed width first Hw Hf) as Ra. pose proof (wide_range signed width bound Hw Hb) as Rb.
  rewrite goes_on_value in H0 by (done || lia).
  destruct inclusive; cbn in H0.
  - rewrite Z.add_0_r, Z.mod_small in Hone by done. apply Z.leb_le in H0.
    pose proof (at_max_spec signed width first Hw Hf Hmax).
    rewrite goes_on_value in H1 by (done || lia). apply Z.leb_le in H1. lia.
  - apply Z.ltb_lt in H0. rewrite wide_succ in Hone by (done || lia).
    rewrite goes_on_value in H1 by (done || lia). apply Z.ltb_lt in H1. lia.
Qed.

(** The topology of one producer or many and one consumer or many, and the
    implementation the static rewriting gives it. *)
Definition topology_at (oneP oneC : bool) : topology :=
  match oneP, oneC with true, true => Tspsc | false, true => Tmpsc | true, false => Tspmc | false, false => Tmpmc end.
Definition static_for (t : topology) (borrowed inlineMarked : bool) : impl :=
  match t with
  | Tspsc | Tmpsc | Tspmc => static_impl t false false borrowed inlineMarked
  | _ => Igeneric
  end.

Definition many_producers (t : topology) : bool := bool_decide (t = Tmpsc ∨ t = Tmpmc).
Definition many_consumers (t : topology) : bool := bool_decide (t = Tspmc ∨ t = Tmpmc).

(** Whether a side is taken to have one thread: its loop's test, or the
    verdict. *)
Definition side_one (c : option counted_side) (many : bool) : bool :=
  match c with Some x => chosen_once x | None => negb many end.

Lemma eval_tag_of verdict p c borrowed marked :
  eval_tag (tag_of verdict (match p with Some _ => true | None => false end)
                           (match c with Some _ => true | None => false end) (borrowed && marked))
    (side_one p (many_producers verdict)) (side_one c (many_consumers verdict)) =
  static_for (topology_at (side_one p (many_producers verdict)) (side_one c (many_consumers verdict))) borrowed marked.
Proof.
  unfold tag_of. fold (many_producers verdict) (many_consumers verdict).
  generalize (many_producers verdict), (many_consumers verdict). intros mp mc.
  destruct p as [p|], c as [c|]; unfold side_one;
    try generalize (chosen_once p); try generalize (chosen_once c); intros;
    repeat match goal with b : bool |- _ => destruct b end; reflexivity.
Qed.

Lemma static_for_admits oneP oneC borrowed marked P C :
  (oneP = true → P ≤ 1)%Z → (oneC = true → C ≤ 1)%Z →
  admits (static_for (topology_at oneP oneC) borrowed marked) P C.
Proof. destruct oneP, oneC, borrowed, marked; vm_compute; intuition. Qed.

(** C35: A tag chosen at run time suits the threads the program then starts,
    where the queue is built and the loop runs with the same bound and the
    loop does not run up to and including its bound from the largest value
    of its type (there the test is wrong, [inclusive_at_max]).  For a queue
    with a decided verdict, one or both of whose sides are started by a
    counted loop, the implementation the constructor is passed is, whatever
    value that bound has, the one the static verdict gives for the sides the
    test finds single; and, the sides with no counted loop being as the
    verdict says, it admits every producer and consumer the loops start,
    however far they have run: a queue does not run an implementation for
    one thread on a side where a second is started. *)
Theorem run_time_tag_admits (verdict : topology) (p c : option counted_side) (borrowed marked : bool) (P C : Z) :
  (∀ x, p = Some x ∨ c = Some x → side_wf x ∧ settled x ∧ never_ends x = false) →
  (∀ x, p = Some x → started x P) → (∀ x, c = Some x → started x C) →
  (p = None → many_producers verdict = false → P ≤ 1)%Z →
  (c = None → many_consumers verdict = false → C ≤ 1)%Z →
  let oneP := side_one p (many_producers verdict) in
  let oneC := side_one c (many_consumers verdict) in
  let chosen := eval_tag (tag_of verdict (match p with Some _ => true | None => false end)
                            (match c with Some _ => true | None => false end) (borrowed && marked)) oneP oneC in
  chosen = static_for (topology_at oneP oneC) borrowed marked ∧ admits chosen P C.
Proof.
  intros Hwf Hp Hc Hp0 Hc0. cbn zeta. rewrite eval_tag_of. split; [done|]. apply static_for_admits.
  - destruct p as [p|]; cbn; [|intros ?%negb_true_iff; auto].
    intros Hone. destruct (Hwf p (or_introl eq_refl)) as (? & ? & ?). by eapply at_most_once_sound; [..|apply Hp].
  - destruct c as [c|]; cbn; [|intros ?%negb_true_iff; auto].
    intros Hone. destruct (Hwf c (or_intror eq_refl)) as (? & ? & ?). by eapply at_most_once_sound; [..|apply Hc].
Qed.

Lemma run_time_tag_admits_witness :
  let p := Some (CountedSide true 32 0 false 1 1) in
  let oneP := side_one p (many_producers Tmpsc) in
  let oneC := side_one None (many_consumers Tmpsc) in
  let chosen := eval_tag (tag_of Tmpsc true false (true && false)) oneP oneC in
  chosen = static_for (topology_at oneP oneC) true false ∧ admits chosen 1 1.
Proof.
  apply (run_time_tag_admits Tmpsc (Some (CountedSide true 32 0 false 1 1)) None true false 1 1).
  - intros x [[= <-]|[=]]. split; [unfold side_wf; cbn; lia|done].
  - intros x [= <-] j Hj. by assert (j = 0%Z) as -> by lia.
  - done.
  - done.
  - done.
Defined.

(** An inclusive loop that starts at the largest value of an unsigned type
    never ends, and the test says it runs at most once. *)
Example inclusive_at_max :
  chosen_once (CountedSide false 8 255 true 255 255) = true ∧ never_ends (CountedSide false 8 255 true 255 255) = true ∧
  map (λ j, goes_on false 8 1 Cle 255 255 j) [0; 1; 2; 3]%Z = [true; true; true; true].
Proof. by vm_compute. Qed.

(** The static rewriting is safe: a queue whose verdict is one producer
    or one consumer, and which is not forced by a negative control, is given
    an implementation that admits what its verdict says, the inline one only
    when the borrow analysis and the shim's marker both allow it. *)
Lemma static_impl_admits (verdict : topology) (borrowed marked : bool) (P C : Z) :
  verdict ∈ [Tspsc; Tmpsc; Tspmc] →
  (many_producers verdict = false → P ≤ 1)%Z → (many_consumers verdict = false → C ≤ 1)%Z →
  let i := static_impl verdict false false borrowed marked in
  admits i P C ∧ (i = Ispsc_inline ↔ verdict = Tspsc ∧ borrowed = true ∧ marked = true).
Proof.
  rewrite !elem_of_cons, elem_of_nil. intros [->|[->|[->|[]]]] HP HC; cbn zeta;
    destruct borrowed, marked; cbn; intuition (done || congruence).
Qed.
