(* ===== verification/LibraryQueue.v ===== *)
(** * LibraryQueue: queues of other libraries (Utils.cpp)

    What a function of a known queue library does, read from its name:
    the single-producer single-consumer classes of rigtorp, folly, Boost and
    moodycamel, DPDK's rings and DPDK's mempools and mbufs.  The partial
    demangler that splits a mangled member name is LLVM's: a parameter.

    [library_call_in_range]: the queue operand a recognised call names
    exists.  [mempool_partition]: every function of the mempool library is
    modelled, known to be inert, or taken for a put or get of unknown
    shape, and never two of these. *)

From stdpp Require Import base tactics list strings.
From Stdlib Require Import String ZArith Lia.
From S2P Require Import Prelude Text Cir Utils.
Local Open Scope string_scope.

Inductive library_role := RoleNone | RoleCreate | RoleConstruct | RolePush | RolePop.
Inductive library_sync := ByType | ByFlags | Single | Multi.
Inductive library_kind := ClassQueue | RingQueue | MempoolQueue.
Inductive mbuf_free := MbufNone | MbufOwn | MbufChain | MbufAttached.

#[export] Instance library_role_eq_dec : EqDecision library_role.
Proof. solve_decision. Defined.

Record LibraryQueueFunction := LibraryFunction {
  lf_role : library_role;
  lf_sync : library_sync;
  lf_kind : library_kind;
  lf_queueArg : nat;
  lf_flagsArg : option nat;
  lf_opsArg : option nat;
  lf_viaMbuf : mbuf_free;
  lf_returnsMbuf : bool;
  lf_unmodelled : bool;
  lf_member : bool;
}.

Definition lf0 : LibraryQueueFunction :=
  LibraryFunction RoleNone ByType ClassQueue 0 None None MbufNone false false false.

Record LibraryQueueCall := LibraryCall {
  lc_role : library_role;
  lc_sync : library_sync;
  lc_kind : library_kind;
  lc_queueOperand : nat;
  lc_flagsOperand : option nat;
  lc_opsOperand : option nat;
  lc_viaMbuf : mbuf_free;
  lc_returnsMbuf : bool;
}.

Definition lc0 : LibraryQueueCall := LibraryCall RoleNone ByType ClassQueue 0 None None MbufNone false.

(** ** Classes *)

Record LibraryClass := Class_ {
  cls_mangled : string; cls_qualified : string; cls_pushes : list string; cls_pops : list string;
}.

Definition kMoodyPush : list string := ["enqueue"; "try_enqueue"; "emplace"; "try_emplace"].
Definition kMoodyPop : list string := ["try_dequeue"; "peek"; "pop"; "wait_dequeue"; "wait_dequeue_timed"].
Definition kLibraryClasses : list LibraryClass :=
  [Class_ "7rigtorp9SPSCQueue" "rigtorp::SPSCQueue"
     ["emplace"; "try_emplace"; "push"; "try_push"] ["front"; "pop"];
   Class_ "5folly21ProducerConsumerQueue" "folly::ProducerConsumerQueue"
     ["write"] ["read"; "frontPtr"; "popFront"];
   Class_ "5boost8lockfree10spsc_queue" "boost::lockfree::spsc_queue"
     ["push"] ["pop"; "consume_one"; "consume_all"; "front"];
   Class_ "10moodycamel17ReaderWriterQueue" "moodycamel::ReaderWriterQueue" kMoodyPush kMoodyPop;
   Class_ "10moodycamel25BlockingReaderWriterQueue" "moodycamel::BlockingReaderWriterQueue" kMoodyPush kMoodyPop].

(** What [ItaniumPartialDemangler] answers about a function's name. *)
Record demangled := Demangled {
  dm_function : bool; dm_context : option string; dm_base : option string;
  dm_params : option string; dm_ctor_or_dtor : bool;
}.

Section library.
Variable partialDemangle : string → option demangled.

(** The class, the member's base name and whether it is a constructor; of
    several classes that fit, the last. *)
Definition libraryClassOf (mangled : string) : option (LibraryClass * string * bool) :=
  if negb (starts_with mangled "_Z") then None
  else if forallb (λ c, negb (contains mangled (cls_mangled c))) kLibraryClasses then None
  else match partialDemangle mangled with
  | None => None
  | Some d =>
      if negb (dm_function d) then None else
      let context := default "" (dm_context d) in
      match last (List.filter (λ k, contains mangled (cls_mangled k)
                                   && starts_with context (cls_qualified k ++ "<")) kLibraryClasses) with
      | None => None
      | Some cls =>
          let base := default "" (dm_base d) in
          Some (cls, base, dm_ctor_or_dtor d && negb (starts_with base "~"))
      end
  end.

Definition isDpdkRingFunction (n : string) : bool := starts_with n "rte_ring_" || starts_with n "__rte_ring".

Definition isDpdkMempoolFunction (n : string) : bool :=
  starts_with n "rte_mempool_" || starts_with n "__rte_mempool" || starts_with n "__mempool_"
  || starts_with n "rte_pktmbuf_" || starts_with n "__rte_pktmbuf" || starts_with n "rte_mbuf_"
  || starts_with n "__rte_mbuf".

Definition inert_names : list string :=
  [
   "rte_mempool_avail_count"; "rte_mempool_in_use_count"; "rte_mempool_full"; "rte_mempool_empty";
   "rte_mempool_count"; "rte_mempool_free_count"; "rte_mempool_get_priv"; "rte_mempool_get_ops";
   "rte_mempool_get_header"; "rte_mempool_get_trailer"; "rte_mempool_from_obj";
   "rte_mempool_virt2iova"; "rte_mempool_get_page_size"; "rte_mempool_get_mem_range";
   "rte_mempool_get_obj_alignment"; "rte_mempool_calc_obj_size"; "rte_mempool_dump";
   "rte_mempool_list_dump"; "rte_mempool_audit"; "rte_mempool_walk"; "rte_mempool_lookup";
   "rte_mempool_free"; "rte_mempool_obj_iter"; "rte_mempool_mem_iter"; "rte_mempool_cache_create";
   "rte_mempool_cache_free"; "rte_mempool_default_cache"; "rte_mempool_check_cookies";
   "rte_mempool_contig_blocks_check_cookies"; "rte_mempool_stats_reset";
   "rte_mempool_register_ops"; "rte_mempool_ops_get_info"; "rte_mempool_ops_get_count";
   "rte_mempool_ops_alloc"; "rte_mempool_ops_free"; "rte_mempool_ops_calc_mem_size";
   "rte_mempool_op_calc_mem_size_default"; "rte_mempool_op_calc_mem_size_helper";
   "rte_mempool_event_callback_register"; "rte_mempool_event_callback_unregister";
   "rte_mempool_trace_ops_alloc"; "__mempool_check_cookies";
   "__mempool_contig_blocks_check_cookies"; "rte_mbuf_refcnt_read"; "rte_mbuf_refcnt_set";
   "rte_mbuf_refcnt_update"; "__rte_mbuf_refcnt_update"; "rte_mbuf_ext_refcnt_read";
   "rte_mbuf_ext_refcnt_set"; "rte_mbuf_ext_refcnt_update"; "rte_mbuf_buf_addr";
   "rte_mbuf_data_addr_default"; "rte_mbuf_data_iova"; "rte_mbuf_data_iova_default";
   "rte_mbuf_iova_get"; "rte_mbuf_iova_set"; "rte_mbuf_to_baddr"; "rte_mbuf_to_priv";
   "rte_mbuf_from_indirect"; "rte_mbuf_prefetch_part1"; "rte_mbuf_prefetch_part2";
   "rte_mbuf_sanity_check"; "rte_mbuf_raw_sanity_check"; "__rte_mbuf_sanity_check";
   "__rte_mbuf_raw_sanity_check"; "rte_mbuf_check"; "rte_mbuf_raw_check";
   "rte_mbuf_raw_reset_bulk"; "rte_mbuf_sched_get"; "rte_mbuf_sched_set";
   "rte_mbuf_sched_queue_get"; "rte_mbuf_sched_queue_set"; "rte_mbuf_sched_color_get";
   "rte_mbuf_sched_color_set"; "rte_mbuf_sched_traffic_class_get";
   "rte_mbuf_sched_traffic_class_set"; "rte_mbuf_tx_offload"; "rte_mbuf_dynfield_copy";
   "rte_mbuf_dynfield_lookup"; "rte_mbuf_dynfield_register"; "rte_mbuf_dynfield_register_offset";
   "rte_mbuf_dynflag_lookup"; "rte_mbuf_dynflag_register"; "rte_mbuf_dynflag_register_bitnum";
   "rte_mbuf_dyn_dump"; "rte_mbuf_dyn_rx_timestamp_register"; "rte_mbuf_dyn_tx_timestamp_register";
   "rte_mbuf_history_dump"; "rte_mbuf_history_dump_all"; "rte_mbuf_history_dump_mempool";
   "rte_mbuf_history_init"; "rte_mbuf_history_mark"; "rte_mbuf_history_mark_bulk";
   "rte_mbuf_best_mempool_ops"; "rte_mbuf_platform_mempool_ops"; "rte_mbuf_user_mempool_ops";
   "rte_mbuf_set_platform_mempool_ops"; "rte_mbuf_set_user_mempool_ops"; "rte_pktmbuf_adj";
   "rte_pktmbuf_append"; "rte_pktmbuf_prepend"; "rte_pktmbuf_trim"; "rte_pktmbuf_data_len";
   "rte_pktmbuf_pkt_len"; "rte_pktmbuf_headroom"; "rte_pktmbuf_tailroom"; "rte_pktmbuf_lastseg";
   "rte_pktmbuf_reset"; "rte_pktmbuf_reset_headroom"; "rte_pktmbuf_read"; "__rte_pktmbuf_read";
   "rte_pktmbuf_dump"; "rte_pktmbuf_is_contiguous"; "rte_pktmbuf_iova"; "rte_pktmbuf_iova_offset";
   "rte_pktmbuf_priv_size"; "rte_pktmbuf_priv_flags"; "rte_pktmbuf_data_room_size";
   "rte_pktmbuf_ext_shinfo_init_helper"; "rte_pktmbuf_refcnt_update"; "rte_pktmbuf_pool_init";
   "rte_pktmbuf_init"; "__rte_pktmbuf_copy_hdr"; "rte_pktmbuf_chain"; "rte_pktmbuf_attach";
   "rte_pktmbuf_attach_extbuf"
  ].
Definition isInertMempoolFunction (n : string) : bool := in_set inert_names n.

(** ** Mempools *)

Definition mempool (role : library_role) (sync : library_sync) (queueArg : nat) (flags ops : option nat)
    (mbuf : mbuf_free) (returns unmodelled : bool) : LibraryQueueFunction :=
  LibraryFunction role sync MempoolQueue queueArg flags ops mbuf returns unmodelled true.
Definition mp_create (flags ops : option nat) : LibraryQueueFunction :=
  mempool RoleCreate ByFlags 0 flags ops MbufNone false false.
Definition mp_op (role : library_role) (arg : nat) : LibraryQueueFunction :=
  mempool role ByFlags arg None None MbufNone false false.

Definition classifyMempool (n : string) : LibraryQueueFunction :=
  let is_ s := String.eqb n s in
  if is_ "rte_mempool_create" then mp_create (Some 10%nat) None
  else if is_ "rte_mempool_create_empty" then mp_create (Some 6%nat) None
  else if is_ "rte_pktmbuf_pool_create_by_ops" then mp_create None (Some 6%nat)
  else if in_set ["rte_pktmbuf_pool_create"; "rte_pktmbuf_pool_create_extbuf"] n then mp_create None None
  else if is_ "rte_mempool_set_ops_byname"
  then mempool RoleConstruct ByFlags 0 None (Some 1%nat) MbufNone false false
  else if in_set ["rte_mempool_populate_default"; "rte_mempool_populate_anon"; "rte_mempool_populate_iova";
                  "rte_mempool_populate_virt"; "rte_mempool_ops_populate"; "rte_mempool_op_populate_default";
                  "rte_mempool_op_populate_helper"] n
  then mp_op RoleConstruct 0
  else if in_set ["rte_mempool_put"; "rte_mempool_put_bulk"; "rte_mempool_generic_put";
                  "rte_mempool_do_generic_put"; "__mempool_generic_put"; "rte_mempool_ops_enqueue_bulk";
                  "rte_mbuf_raw_free_bulk"; "rte_mempool_mp_put"; "rte_mempool_mp_put_bulk"] n
  then mp_op RolePush 0
  else if in_set ["rte_mempool_cache_flush"; "rte_mempool_cache_zc_put_bulk"] n then mp_op RolePush 1
  else if is_ "rte_mempool_cache_zc_get_bulk" then mp_op RolePop 1
  else if in_set ["rte_mempool_get"; "rte_mempool_get_bulk"; "rte_mempool_generic_get";
                  "rte_mempool_do_generic_get"; "__mempool_generic_get"; "rte_mempool_get_contig_blocks";
                  "rte_mempool_ops_dequeue_bulk"; "rte_mempool_ops_dequeue_contig_blocks";
                  "rte_pktmbuf_alloc_bulk"; "rte_mbuf_raw_alloc_bulk"; "rte_mempool_mc_get";
                  "rte_mempool_mc_get_bulk"] n
  then mp_op RolePop 0
  else if in_set ["rte_mempool_sp_put"; "rte_mempool_sp_put_bulk"] n
  then mempool RolePush Single 0 None None MbufNone false false
  else if in_set ["rte_mempool_sc_get"; "rte_mempool_sc_get_bulk"] n
  then mempool RolePop Single 0 None None MbufNone false false
  else if in_set ["rte_pktmbuf_alloc"; "rte_mbuf_raw_alloc"] n
  then mempool RolePop ByFlags 0 None None MbufNone true false
  else if in_set ["rte_pktmbuf_copy"; "rte_pktmbuf_clone"] n
  then mempool RolePop ByFlags 1 None None MbufNone true false
  else if is_ "rte_mbuf_raw_free" then mempool RolePush ByFlags 0 None None MbufOwn false false
  else if in_set ["rte_pktmbuf_free"; "rte_pktmbuf_free_seg"; "rte_pktmbuf_free_bulk"; "rte_pktmbuf_linearize";
                  "__rte_pktmbuf_linearize"] n
  then mempool RolePush ByFlags 0 None None MbufChain false false
  else if in_set ["rte_pktmbuf_detach"; "rte_pktmbuf_prefree_seg"; "__rte_pktmbuf_free_direct"] n
  then mempool RolePush ByFlags 0 None None MbufAttached false false
  else mempool RoleNone ByFlags 0 None None MbufNone false (negb (isInertMempoolFunction n)).

(** ** Rings, and everything *)

Definition classifyRing (n : string) : LibraryQueueFunction :=
  let ring role sync flags := LibraryFunction role sync RingQueue 0 flags None MbufNone false false true in
  if String.eqb n "rte_ring_create" then ring RoleCreate ByFlags (Some 3%nat)
  else if String.eqb n "rte_ring_create_elem" then ring RoleCreate ByFlags (Some 4%nat)
  else if String.eqb n "rte_ring_init" then ring RoleConstruct ByFlags (Some 3%nat)
  else if contains n "enqueue" || contains n "dequeue" then
    let push := contains n "enqueue" in
    let sync := if contains n (if push then "_sp_" else "_sc_") then Single
                else if contains n (if push then "_mp_" else "_mc_") then Multi else ByFlags in
    ring (if push then RolePush else RolePop) sync None
  else ring RoleNone ByFlags None.

Definition classify (n : string) : LibraryQueueFunction :=
  if isDpdkMempoolFunction n then classifyMempool n
  else if isDpdkRingFunction n then classifyRing n
  else match libraryClassOf n with
  | None => lf0
  | Some (cls, base, ctor) =>
      let role := if ctor then RoleConstruct
                  else if in_set (cls_pushes cls) base then RolePush
                  else if in_set (cls_pops cls) base then RolePop else RoleNone in
      LibraryFunction role ByType ClassQueue 0 None None MbufNone false false true
  end.

Definition libraryQueueFunction (f : option operation) : LibraryQueueFunction :=
  match f with Some o => classify (name_of_func o) | None => lf0 end.

Definition libraryQueueCallOf (m : module) (call : operation) (f : LibraryQueueFunction) : LibraryQueueCall :=
  if bool_decide (lf_role f = RoleNone) then lc0 else
  let k := firstRealOperand m call in
  let r := LibraryCall (lf_role f) (lf_sync f) (lf_kind f) (k + lf_queueArg f)
             (option_map (Nat.add k) (lf_flagsArg f)) (option_map (Nat.add k) (lf_opsArg f))
             (lf_viaMbuf f) (lf_returnsMbuf f) in
  if negb (bool_decide (lc_role r = RoleCreate)) && (List.length (operands call) <=? lc_queueOperand r)%nat
  then lc0 else r.

Definition libraryQueueCall (m : module) (call : operation) : LibraryQueueCall :=
  libraryQueueCallOf m call (libraryQueueFunction (lookupCallee m call)).

Definition isLibraryQueueFunction (f : option operation) : bool := lf_member (libraryQueueFunction f).
End library.

Definition isMbufLinkFunction (n : string) : bool :=
  in_set ["rte_pktmbuf_chain"; "rte_pktmbuf_attach"; "rte_pktmbuf_attach_extbuf"; "rte_pktmbuf_clone"] n.

(** ** What the tables promise *)

(** A call recognised as acting on an existing queue passes that queue. *)
Lemma library_call_in_range pd m call :
  let r := libraryQueueCall pd m call in
  lc_role r ≠ RoleNone → lc_role r ≠ RoleCreate → (lc_queueOperand r < List.length (operands call))%nat.
Proof.
  unfold libraryQueueCall, libraryQueueCallOf. cbn zeta.
  case_bool_decide; [done|]. cbn [lc_role lc_queueOperand].
  destruct (negb _ && _) eqn:E; [done|]. cbn. intros _ Hc.
  rewrite bool_decide_false in E by done. cbn in E. by apply Nat.leb_gt in E.
Qed.

Lemma eqb_known n names : existsb (String.eqb n) names = true → n ∈ names.
Proof. apply in_set_spec. Qed.

(** A function of the mempool library is modelled, inert or of unknown
    shape, and only one of these: no inert name is also modelled. *)
Lemma mempool_partition n :
  let f := classifyMempool n in
  (lf_role f ≠ RoleNone ∧ isInertMempoolFunction n = false ∧ lf_unmodelled f = false) ∨
  (lf_role f = RoleNone ∧ lf_unmodelled f = negb (isInertMempoolFunction n)).
Proof.
  cbn zeta. destruct (isInertMempoolFunction n) eqn:E.
  - right. apply eqb_known in E.
    assert (Forall (λ n, lf_role (classifyMempool n) = RoleNone ∧ lf_unmodelled (classifyMempool n) = false)
              inert_names) as HF by (vm_compute; repeat constructor).
    rewrite Forall_forall in HF. by apply HF.
  - unfold classifyMempool. rewrite E.
    repeat (match goal with |- context [if ?b then _ else _] => destruct b; [left; done|] end). by right.
Qed.
