(* ===== verification/WorkEstimate.v ===== *)
(** * WorkEstimate: how much work does this code do?
      (mlir/lib/WTC/Transforms/WorkEstimate.cpp)

    [WorkEstimator] counts the units an operation may take: a sum over
    straight-line code, the larger arm of a branch, a product for a loop of
    known trip count, and for a call the body of what it reaches, found
    with a memo, a stack of the functions being counted (recursion has no
    bound) and a limit on its depth, whose answers are not remembered.

    An estimate is a number of units or "no bound" with a reason.  The
    source counts in doubles; every amount is a multiple of one eighth, so
    units are counted here in eighths, in [Z] (a double holds them exactly
    up to 2^53 eighths; beyond that it rounds).  The size of a type and the
    demangler are parameters.

    WorkEstimateSpec.v proves what the numbers mean. *)

From stdpp Require Import base tactics list strings gmap.
From Stdlib Require Import String Ascii ZArith Lia.
From S2P Require Import Prelude Text Cir WtcOps Utils Asm Blocking Slots Loops.
Local Open Scope string_scope.
Local Open Scope list_scope.

(** ** Estimates *)

Record estimate := Estimate {
  units : Z;                 (* in eighths *)
  bounded : bool;
  est_at : option operation;
  est_why : string;
}.

Definition of_eighths (n : Z) : estimate := Estimate n true None "".
Definition of_units (n : Z) : estimate := of_eighths (8 * n).
Definition unbounded (o : operation) (reason : string) : estimate := Estimate 0 false (Some o) reason.

(** [operator+=]: both run; an unbounded estimate keeps the first reason. *)
Definition plus (a b : estimate) : estimate :=
  if negb (bounded a) then a
  else if negb (bounded b) then b
  else Estimate (units a + units b) (bounded a) (est_at a) (est_why a).

Definition larger (a b : estimate) : estimate :=
  if negb (bounded a) then a
  else if negb (bounded b) then b
  else if (units b <=? units a)%Z then a else b.

Definition times (e : estimate) (n : Z) : estimate :=
  if bounded e then Estimate (units e * n) true (est_at e) (est_why e) else e.

Definition kDivision : Z := 40.
Definition kDivisionByConstant : Z := 2.
Definition kFloatDivision : Z := 15.
Definition kTranscendental : Z := 200.
Definition kTimestamp : Z := 90.
Definition kAllocator : Z := 100.
Definition kCall : Z := 1.
Definition kMaxDepth : nat := 32.

(** ** The estimator's state *)

Record st := St { est_memo : gmap nat estimate; metDepth : bool }.
Definition st0 : st := St ∅ false.

Definition M (A : Type) : Type := st → A * st.
Definition ret {A} (x : A) : M A := λ s, (x, s).
Definition bind {A B} (p : M A) (k : A → M B) : M B := λ s, let '(x, s') := p s in k x s'.

(** ** One operation by itself *)

Definition free_names : list string :=
  ["cir.const"; "cir.alloca"; "cir.get_global"; "cir.get_member";
   "cir.yield"; "cir.condition"; "cir.return"; "cir.break";
   "cir.continue"; "cir.scope"; "cir.cleanup.scope"; "cir.case";
   "cir.switch"; "cir.lifetime.start"; "cir.lifetime.end"; "cir.assume";
   "cir.expect"; "cir.unreachable"; "cir.base_class_addr"; "cir.derived_class_addr";
   "cir.launder"; "cir.objsize"; "cir.is_constant"; "cir.freeze";
   "cir.token.none"; "cir.label"; "cir.br"; "cir.try";
   "builtin.unrealized_conversion_cast"].
Definition transcendental_names : list string :=
  ["cir.sin"; "cir.cos"; "cir.tan"; "cir.asin"; "cir.acos"; "cir.atan"; "cir.atan2"; "cir.sinh";
   "cir.cosh"; "cir.tanh"; "cir.exp"; "cir.exp2"; "cir.exp10"; "cir.log"; "cir.log2"; "cir.log10";
   "cir.pow"; "cir.fmod"].
Definition length_names : list string :=
  ["cir.libc.memcpy"; "cir.libc.memmove"; "cir.libc.memset"; "cir.libc.memchr"].

(** The statements of an assembly string: cut at newlines and semicolons. *)
Fixpoint asm_pieces (t : text) : list text :=
  match t with
  | [] => [[]]
  | c :: t' =>
      if Ascii.eqb c newline || Ascii.eqb c ";" then [] :: asm_pieces t'
      else match asm_pieces t' with
           | s :: ss => (c :: s) :: ss
           | [] => [[c]]
           end
  end.

Definition asm_units (t : text) : Z :=
  fold_right (λ piece n,
    match trim piece with
    | [] => n
    | stmt => (if text_contains (lowered stmt) (text_of "rdtsc") then kTimestamp + n else 1 + n)%Z
    end) 0%Z (asm_pieces t).

Section estimator.
Variable m : module.
Variable demangle : string → string.
Variable typeSize : option ty → Z.   (* DataLayout::getTypeSize, in bytes *)

(** [getActiveBits() <= 40], with the value. *)
Definition short_length (v : option value) : option Z :=
  match constant_of m v with
  | Some (_, bits) => if (bits <? 2 ^ 40)%Z then Some bits else None
  | None => None
  end.

(** [2 + bytes / 8] units. *)
Definition copy_cost (bytes : Z) : estimate := of_eighths (16 + bytes).

(** The fixed-length memory operations: an estimate of its own. *)
Definition memory_op (o : operation) : option estimate :=
  if in_set length_names (op_name o) then
    Some (match short_length (last (operands o)) with
          | Some len => copy_cost len
          | None => unbounded o "it copies or scans a length not known here"
          end)
  else match op_kind o with
  | KCopy =>
      Some (copy_cost (typeSize match operands o !! 0%nat with
                                | Some dst => match type_of m dst with Some (PtrTy t) => Some t | _ => None end
                                | None => None
                                end))
  | _ => None
  end.

Definition own (o : operation) : Z :=
  let n := op_name o in
  if in_set free_names n then 0 else
  match op_kind o with
  | KCast Cint_to_float | KCast Cfloat_to_int | KCast Cfloating | KCast Cbool_to_float => 1
  | KCast _ => 0
  | _ =>
      if in_set ["cir.div"; "cir.rem"] n
      then match constant_of m (operands o !! 1%nat) with Some _ => kDivisionByConstant | None => kDivision end
      else if in_set ["cir.fdiv"; "cir.frem"; "cir.sqrt"] n then kFloatDivision
      else if in_set transcendental_names n then kTranscendental
      else match op_kind o with
      | KIntrinsic name => if in_set ["x86.rdtsc"; "x86.rdtscp"] name then kTimestamp else 1
      | KInlineAsm t => asm_units (text_of t)
      | _ => 1
      end
  end%Z.

Definition nameOf (f : operation) : string := demangle (name_of_func f).

Definition arg_operands (c : operation) : list value :=
  match as_call c with
  | Some a => match callee a with Some _ => operands c | None => tail (operands c) end
  | None => operands c
  end.

(** [external]: a call of a function without a body to count. *)
Definition external (c f : operation) : estimate :=
  let n := name_of_func f in
  if negb (body_empty f)
  then unbounded c ("it calls " ++ nameOf f ++ ", whose body here may be replaced at link time")%string
  else if touchesOnlyItsArguments f then
    if in_set ["abs"; "labs"; "llabs"; "fabs"; "fabsf"] n then of_units 1
    else if in_set ["sqrt"; "sqrtf"] n then of_units kFloatDivision
    else if negb (in_set ["strlen"; "strcmp"] n) && (3 <=? List.length (arg_operands c))%nat then
      match short_length (arg_operands c !! 2%nat) with
      | Some len => copy_cost len
      | None => unbounded c ("it calls " ++ n ++ " with a length not known here")%string
      end
    else unbounded c ("it calls " ++ n ++ ", whose work depends on its argument")%string
  else match externalBlocking demangle f with
  | Some x =>
      if bool_decide (ext_kind x = Allocates) then of_units kAllocator
      else unbounded c ("it calls " ++ nameOf f ++ ", whose body is not visible here")%string
  | None => unbounded c ("it calls " ++ nameOf f ++ ", whose body is not visible here")%string
  end.

(** ** Regions and operations *)

(** [skip]: leaves an operation, and what it holds, out. *)
Definition Skip : Type := operation → bool.

(** The loop over a block, left at the first operation without a bound. *)
Definition seq_with (op : operation → M estimate) (skip : Skip) :=
  fix go (l : list operation) (e : estimate) : M estimate :=
    match l with
    | [] => ret e
    | o :: l' =>
        if skip o then go l' e
        else bind (op o) (λ x, let e' := plus e x in if bounded e' then go l' e' else ret e')
    end.

Definition region_with (op : operation → M estimate) (skip : Skip) (parent : operation) (r : list block)
    : M estimate :=
  match r with
  | [] => ret (of_eighths 0)
  | [Block _ _ ops] => seq_with op skip ops (of_eighths 0)
  | _ => ret (unbounded parent "its control flow is not structured (a goto)")
  end.

Definition regions_with (op : operation → M estimate) (skip : Skip) (parent : operation) :=
  fix go (rs : list (list block)) (e : estimate) : M estimate :=
    match rs with
    | [] => ret e
    | r :: rs' =>
        bind (region_with op skip parent r) (λ x,
          let e' := plus e x in if bounded e' then go rs' e' else ret e')
    end.

Definition iteration_with (op : operation → M estimate) (skip : Skip) (o : operation)
    (cond bdy : list block) (step : option (list block)) : M estimate :=
  bind (region_with op skip o cond) (λ e,
  bind (region_with op skip o bdy) (λ b,
  match step with
  | Some r => bind (region_with op skip o r) (λ s, ret (plus (plus e b) s))
  | None => ret (plus e b)
  end)).

Fixpoint op_with (call : operation → M estimate) (skip : Skip) (o : operation) : M estimate :=
  let op := op_with call skip in
  match o with
  | Op _ _ _ k _ _ _ rs =>
      match k with
      | KFor =>
          match constantTripCount m o, rs with
          | Some trips, cond :: bdy :: step :: _ =>
              bind (region_with op skip o cond) (λ e,
              bind (iteration_with op skip o cond bdy (Some step)) (λ i, ret (plus e (times i trips))))
          | _, _ => ret (unbounded o "it runs a loop whose trip count is not known here")
          end
      | KLoop => ret (unbounded o "it runs a loop whose trip count is not known here")
      | KIf | KTernary =>
          match rs with
          | t :: f :: _ =>
              bind (region_with op skip o t) (λ a,
              bind (region_with op skip o f) (λ b, ret (larger a b)))
          | _ => ret (unbounded o "")   (* a branch has two regions *)
          end
      | KCall _ => call o
      | KWtc _ _ => ret (unbounded o "it acts on a queue or a mutex, whose cost is not modelled")
      | _ =>
          match memory_op o with
          | Some e => ret e
          | None => regions_with op skip o rs (of_units (own o))
          end
      end
  end.

(** ** Calls and functions *)

Definition targets (c : operation) : list operation :=
  match lookupCallee m c with Some f => [f] | None => indirectCallees m c end.

(** One target of a call. *)
Definition target_with (function : operation → M estimate) (stack : list operation) (c t : operation) : M estimate :=
  if not_followed t then ret (external c t)
  else if existsb (λ g, op_id g =? op_id t)%nat stack
  then ret (unbounded c ("it makes a recursive call to " ++ nameOf t)%string)
  else if (kMaxDepth <=? List.length stack)%nat
  then λ s, (unbounded c "it calls more than 32 functions deep", St (est_memo s) true)
  else bind (function t) (λ e,
         ret (if bounded e then e
              else unbounded c ("it calls " ++ nameOf t ++ ", where " ++ est_why e)%string)).

Fixpoint targets_with (function : operation → M estimate) (stack : list operation) (c : operation)
    (ts : list operation) (worst : estimate) : M estimate :=
  match ts with
  | [] => ret (plus worst (of_units kCall))
  | t :: ts' =>
      bind (target_with function stack c t) (λ e,
        let worst' := larger worst e in
        if bounded worst' then targets_with function stack c ts' worst' else ret worst')
  end.

Definition call_with (function : operation → M estimate) (stack : list operation) (c : operation) : M estimate :=
  match targets c with
  | [] => ret (unbounded c "it makes an indirect call whose targets are not known here")
  | ts => targets_with function stack c ts (of_eighths 0)
  end.

Definition no_skip : Skip := λ _, false.

(** [function]: the memo, and the body with the function on the stack.  The
    fuel is for the call depth, which [target_with] limits. *)
Fixpoint function (fuel : nat) (stack : list operation) (f : operation) : M estimate := λ s,
  match fuel with
  | O => (unbounded f "", s)
  | S n =>
      match est_memo s !! op_id f with
      | Some e => (e, s)
      | None =>
          let stack' := f :: stack in
          let '(e, s1) :=
            region_with (op_with (call_with (function n stack') stack') no_skip) no_skip f (body f)
              (St (est_memo s) false) in
          (e, St (if metDepth s1 then est_memo s1 else <[op_id f := e]> (est_memo s1))
                 (metDepth s || metDepth s1))
      end
  end.

(** ** What the passes ask *)

Definition op (o : operation) (skip : Skip) : M estimate :=
  op_with (call_with (function (S kMaxDepth) []) []) skip o.

Definition iteration (loop : operation) (skip : Skip) : M estimate :=
  let op := op_with (call_with (function (S kMaxDepth) []) []) skip in
  match regions loop with
  | cond :: bdy :: step => iteration_with op skip loop cond bdy (head step)
  | _ => ret (of_eighths 0)
  end.
End estimator.
