(* ===== verification/WorkEstimateSpec.v ===== *)
(** * WorkEstimateSpec: what an estimate means

    [costs skip i n]: a run of [i] may take [n] eighths of a unit, in a
    semantics that takes every branch either way, may leave any sequence of
    operations early (a break, a return, an exception), goes round a loop
    any number of times up to the trip count when there is one, and follows
    every call into what it may reach.

    [known d]: the reference: the cost by recursion over the code and over
    calls nested at most [d] deep, with no memo, no stack and no mark.

    [estimate_exact]: whatever was asked before, a bounded estimate is
    exactly the greatest cost of any run, and an operation whose cost is
    known with calls at most [kMaxDepth] deep has a bounded one. *)

From stdpp Require Import base tactics list strings gmap.
From Stdlib Require Import String Ascii ZArith Lia.
From S2P Require Import Prelude Text Cir WtcOps Utils Asm Blocking Slots Loops WorkEstimate.
Local Open Scope list_scope.
Local Open Scope Z_scope.

(** ** Runs and their costs *)

Section runs.
Variable m : module.
Variable demangle : string → string.
Variable typeSize : option ty → Z.

(** What a run is of: an operation, a sequence, a region, the regions of an
    operation in order, the rounds of a loop. *)
Inductive item :=
| IOp (o : operation)
| ISeq (l : list operation)
| IRegion (r : list block)
| IRegions (rs : list (list block))
| ILoop (cond bdy step : list block) (rounds : nat).

(** The kinds [op_with] treats by themselves. *)
Definition plain (k : kind) : bool :=
  match k with KFor | KLoop | KIf | KTernary | KCall _ | KWtc _ _ => false | _ => true end.

(** What an estimate that is not a sum allows: up to its units, anything
    when it has no bound. *)
Definition within (e : estimate) (n : Z) : Prop := 0 ≤ n ∧ (bounded e = true → n ≤ units e).

Inductive costs : Skip → item → Z → Prop :=
| c_left sk l : costs sk (ISeq l) 0
| c_skip sk o l n : sk o = true → costs sk (ISeq l) n → costs sk (ISeq (o :: l)) n
| c_op sk o l a b :
    sk o = false → costs sk (IOp o) a → costs sk (ISeq l) b → costs sk (ISeq (o :: l)) (a + b)
| c_empty sk : costs sk (IRegion []) 0
| c_block sk b a ops n : costs sk (ISeq ops) n → costs sk (IRegion [Block b a ops]) n
| c_goto sk r l n n' :
    (1 < List.length r)%nat → l ∈ map block_ops r → costs sk (ISeq l) n → costs sk (IRegion r) n' →
    costs sk (IRegion r) (n + n')
| c_goto_end sk r : (1 < List.length r)%nat → costs sk (IRegion r) 0
| c_no_regions sk : costs sk (IRegions []) 0
| c_regions sk r rs a b :
    costs sk (IRegion r) a → costs sk (IRegions rs) b → costs sk (IRegions (r :: rs)) (a + b)
| c_loop_end sk c b s n : costs sk (IRegion c) n → costs sk (ILoop c b s 0) n
| c_loop_round sk c b s k x y z n :
    costs sk (IRegion c) x → costs sk (IRegion b) y → costs sk (IRegion s) z → costs sk (ILoop c b s k) n →
    costs sk (ILoop c b s (S k)) (x + y + z + n)
| c_for sk o c b s rs k n :
    op_kind o = KFor → regions o = c :: b :: s :: rs →
    (∀ t, constantTripCount m o = Some t → Z.of_nat k ≤ t) →
    costs sk (ILoop c b s k) n → costs sk (IOp o) n
| c_while sk o c b rs k n :
    op_kind o = KLoop → regions o = c :: b :: rs → costs sk (ILoop c b [] k) n → costs sk (IOp o) n
| c_branch sk o t f rs r n :
    op_kind o = KIf ∨ op_kind o = KTernary → regions o = t :: f :: rs → r = t ∨ r = f →
    costs sk (IRegion r) n → costs sk (IOp o) n
| c_call sk o ca t n :
    op_kind o = KCall ca → t ∈ targets m o → not_followed t = false →
    costs no_skip (IRegion (body t)) n → costs sk (IOp o) (n + 8 * kCall)
| c_external sk o ca t n :
    op_kind o = KCall ca → t ∈ targets m o → not_followed t = true →
    within (external m demangle o t) n → costs sk (IOp o) (n + 8 * kCall)
| c_unresolved sk o ca n : op_kind o = KCall ca → targets m o = [] → 0 ≤ n → costs sk (IOp o) n
| c_wtc sk o w a n : op_kind o = KWtc w a → 0 ≤ n → costs sk (IOp o) n
| c_memory sk o e n :
    plain (op_kind o) = true → memory_op m typeSize o = Some e → within e n → costs sk (IOp o) n
| c_plain sk o n :
    plain (op_kind o) = true → memory_op m typeSize o = None → costs sk (IRegions (regions o)) n →
    costs sk (IOp o) (8 * own m o + n).

(** The greatest cost of a run. *)
Definition greatest (sk : Skip) (i : item) (u : Z) : Prop :=
  costs sk i u ∧ ∀ n, costs sk i n → n ≤ u.

(** ** The reference *)

Definition oadd (a b : option Z) : option Z :=
  match a, b with Some x, Some y => Some (x + y) | _, _ => None end.
Definition omax (a b : option Z) : option Z :=
  match a, b with Some x, Some y => Some (Z.max x y) | _, _ => None end.
Definition otimes (a : option Z) (n : Z) : option Z :=
  match a with Some x => Some (x * n) | None => None end.
Definition known_est (e : estimate) : option Z := if bounded e then Some (units e) else None.

Definition known_seq (op : operation → option Z) (sk : Skip) : list operation → option Z :=
  fix go l := match l with
    | [] => Some 0
    | o :: l' => if sk o then go l' else oadd (op o) (go l')
    end.
Definition known_region (op : operation → option Z) (sk : Skip) (r : list block) : option Z :=
  match r with
  | [] => Some 0
  | [Block _ _ ops] => known_seq op sk ops
  | _ => None
  end.
Definition known_regions (op : operation → option Z) (sk : Skip) : list (list block) → option Z :=
  fix go rs := match rs with [] => Some 0 | r :: rs' => oadd (known_region op sk r) (go rs') end.

Fixpoint known_op (call : operation → option Z) (sk : Skip) (o : operation) : option Z :=
  let region := known_region (known_op call sk) sk in
  match o with
  | Op _ _ _ k _ _ _ rs =>
      match k with
      | KFor =>
          match constantTripCount m o, rs with
          | Some trips, c :: b :: s :: _ =>
              oadd (region c) (otimes (oadd (oadd (region c) (region b)) (region s)) trips)
          | _, _ => None
          end
      | KLoop | KWtc _ _ => None
      | KIf | KTernary =>
          match rs with t :: f :: _ => omax (region t) (region f) | _ => None end
      | KCall _ => call o
      | _ =>
          match memory_op m typeSize o with
          | Some e => known_est e
          | None => oadd (Some (8 * own m o)) (known_regions (known_op call sk) sk rs)
          end
      end
  end.

Definition known_target (body_of : operation → option Z) (c t : operation) : option Z :=
  if not_followed t then known_est (external m demangle c t) else body_of t.
Definition known_call (body_of : operation → option Z) (c : operation) : option Z :=
  match targets m c with
  | [] => None
  | ts => oadd (fold_right (λ t acc, omax (known_target body_of c t) acc) (Some 0) ts) (Some (8 * kCall))
  end.
Fixpoint known_body (d : nat) (f : operation) : option Z :=
  match d with
  | O => None
  | S d' => known_region (known_op (known_call (known_body d')) no_skip) no_skip (body f)
  end.

(** The cost of an operation with calls nested at most [d] deep. *)
Definition known (d : nat) (sk : Skip) (o : operation) : option Z := known_op (known_call (known_body d)) sk o.
End runs.

(** ** The reference gives the greatest cost *)

Lemma trip_number_nonneg signed width direction kind first bound n :
  trip_number signed width direction kind first bound = Some n → 0 ≤ n.
Proof.
  unfold trip_number. destruct (_ || _); [done|]. destruct (_ && _); [done|].
  destruct (if 0 <? direction then _ else _) as [x|]; [|done].
  destruct (_ <? _); [done|]. intros [= <-]. destruct (x <? 0) eqn:E; [done|]. apply Z.ltb_ge in E. lia.
Qed.

Lemma trip_count_nonneg m loop n : constantTripCount m loop = Some n → 0 ≤ n.
Proof.
  unfold constantTripCount. repeat (case_match; try done). apply trip_number_nonneg.
Qed.

Section greatest.
Context (m : module) (demangle : string → string) (typeSize : option ty → Z).
Hypothesis sizes : ∀ t, 0 ≤ typeSize t.
(** Every constant of the module is written with bits of its width. *)
Definition ints_ok : Prop := ∀ v w b, constant_of m v = Some (w, b) → 0 ≤ b.
Hypothesis ints : ints_ok.

Abbreviation costs := (costs m demangle typeSize).
Abbreviation greatest := (greatest m demangle typeSize).

Lemma asm_units_nonneg t : 0 ≤ asm_units t.
Proof.
  unfold asm_units. induction (asm_pieces t) as [|p ps IH]; cbn [fold_right]; [lia|].
  revert IH. generalize (fold_right (λ piece n, match trim piece with
    | [] => n
    | stmt => if text_contains (lowered stmt) (text_of "rdtsc") then kTimestamp + n else 1 + n
    end) 0 ps). intros z Hz.
  destruct (trim p) as [|c p']; [done|].
  destruct (text_contains (lowered (c :: p')) (text_of "rdtsc")); unfold kTimestamp; lia.
Qed.

Lemma own_nonneg o : 0 ≤ own m o.
Proof.
  pose proof asm_units_nonneg as Hasm. unfold own. destruct (in_set free_names _); [done|].
  generalize (in_set ["cir.div"; "cir.rem"]%string (op_name o)),
    (in_set ["cir.fdiv"; "cir.frem"; "cir.sqrt"]%string (op_name o)), (in_set transcendental_names (op_name o)),
    (constant_of m (operands o !! 1%nat)).
  intros [] [] [] [];
    destruct (op_kind o); try (match goal with k : cast_kind |- _ => destruct k end); try done;
    by destruct (in_set _ _).
Qed.

Lemma short_length_nonneg v len : short_length m v = Some len → 0 ≤ len.
Proof.
  unfold short_length. destruct (constant_of m v) as [[w b]|] eqn:E; [|done].
  destruct (_ <? _); [|done]. intros [= <-]. by eapply ints.
Qed.

Lemma copy_cost_units n : units (copy_cost n) = 16 + n.
Proof. done. Qed.

Lemma external_nonneg c f : 0 ≤ units (external m demangle c f).
Proof.
  unfold external. destruct (negb _); [done|]. destruct (touchesOnlyItsArguments f).
  - destruct (in_set _ _); [done|]. destruct (in_set _ _); [done|]. destruct (_ && _); [|done].
    destruct (short_length _ _) as [len|] eqn:E; [|done].
    apply short_length_nonneg in E. rewrite copy_cost_units. lia.
  - destruct (externalBlocking _ _); [|done]. by destruct (bool_decide _).
Qed.

Lemma memory_op_nonneg o e : memory_op m typeSize o = Some e → 0 ≤ units e.
Proof.
  unfold memory_op. destruct (in_set _ _).
  - intros [= <-]. destruct (short_length _ _) as [len|] eqn:E; [|done].
    apply short_length_nonneg in E. rewrite copy_cost_units. lia.
  - destruct (op_kind o); try done. intros [= <-]. rewrite copy_cost_units.
    match goal with |- context [typeSize ?t] => specialize (sizes t) end. lia.
Qed.

Lemma costs_nonneg sk i n : costs sk i n → 0 ≤ n.
Proof.
  induction 1; unfold kCall, within in *; try lia.
  pose proof (own_nonneg o). lia.
Qed.

Lemma greatest_nonneg sk i u : greatest sk i u → 0 ≤ u.
Proof. intros [H _]. by eapply costs_nonneg. Qed.

Lemma oadd_inv a b u : oadd a b = Some u → ∃ x y, a = Some x ∧ b = Some y ∧ u = x + y.
Proof. destruct a, b; [|done..]. intros [= <-]. eauto. Qed.
Lemma omax_inv a b u : omax a b = Some u → ∃ x y, a = Some x ∧ b = Some y ∧ u = Z.max x y.
Proof. destruct a, b; [|done..]. intros [= <-]. eauto. Qed.
Lemma otimes_inv a n u : otimes a n = Some u → ∃ x, a = Some x ∧ u = x * n.
Proof. destruct a; [|done]. intros [= <-]. eauto. Qed.

Lemma seq_greatest op sk l u :
  (∀ o v, o ∈ l → op o = Some v → greatest sk (IOp o) v) →
  known_seq op sk l = Some u → greatest sk (ISeq l) u.
Proof.
  revert u. induction l as [|o l IH]; cbn; intros u Hop Hu.
  - injection Hu as <-. split; [constructor|]. intros n H. inversion H; lia.
  - assert (∀ v, known_seq op sk l = Some v → greatest sk (ISeq l) v) as IH'.
    { intros v. apply IH. intros o' v' Ho'. apply Hop. by right. }
    clear IH. destruct (sk o) eqn:Es.
    + destruct (IH' u Hu) as [H1 H2]. split; [by constructor|].
      intros n H. inversion H; subst; [|by apply H2|congruence].
      apply greatest_nonneg with sk (ISeq l). by split.
    + apply oadd_inv in Hu as (a & b & Ha & Hb & ->).
      destruct (IH' b Hb) as [B1 B2]. destruct (Hop o a ltac:(by left) Ha) as [A1 A2].
      split; [by apply c_op|]. intros n H.
      pose proof (costs_nonneg _ _ _ A1). pose proof (costs_nonneg _ _ _ B1).
      inversion H; subst; [lia|congruence|].
      specialize (A2 a0 ltac:(done)). specialize (B2 b0 ltac:(done)). lia.
Qed.

Lemma region_greatest op sk r u :
  (∀ o v, o ∈ concat (map block_ops r) → op o = Some v → greatest sk (IOp o) v) →
  known_region op sk r = Some u → greatest sk (IRegion r) u.
Proof.
  destruct r as [|[b a ops] [|b' r]]; cbn; intros Hop Hu; [| |done].
  - injection Hu as <-. split; [constructor|]. intros n H. inversion H; subst; cbn in *; lia.
  - rewrite app_nil_r in Hop. destruct (seq_greatest op sk ops u Hop Hu) as [H1 H2].
    split; [by constructor|]. intros n H. inversion H; subst; cbn in *; try lia. by apply H2.
Qed.

Lemma regions_greatest op sk rs u :
  (∀ o v, o ∈ concat (map block_ops (concat rs)) → op o = Some v → greatest sk (IOp o) v) →
  known_regions op sk rs = Some u → greatest sk (IRegions rs) u.
Proof.
  revert u. induction rs as [|r rs IH]; cbn; intros u Hop Hu.
  - injection Hu as <-. split; [constructor|]. intros n H. inversion H; lia.
  - rewrite map_app, concat_app in Hop. setoid_rewrite elem_of_app in Hop.
    apply oadd_inv in Hu as (a & b & Ha & Hb & ->).
    apply region_greatest in Ha as [A1 A2]; [|eauto]. apply IH in Hb as [B1 B2]; [|eauto].
    split; [by constructor|]. intros n H. inversion H; subst.
    specialize (A2 a0 ltac:(done)). specialize (B2 b0 ltac:(done)). lia.
Qed.

Lemma loop_greatest sk c b s x y z k :
  greatest sk (IRegion c) x → greatest sk (IRegion b) y → greatest sk (IRegion s) z →
  greatest sk (ILoop c b s k) (x + (x + y + z) * Z.of_nat k).
Proof.
  intros [C1 C2] [B1 B2] [S1 S2]. induction k as [|k [K1 K2]].
  - replace (x + (x + y + z) * Z.of_nat 0) with x by lia. split; [by constructor|].
    intros n H. inversion H; subst. by apply C2.
  - replace (x + (x + y + z) * Z.of_nat (S k)) with (x + y + z + (x + (x + y + z) * Z.of_nat k)) by lia.
    split; [by constructor|]. intros n H. inversion H; subst.
    specialize (C2 x0 ltac:(done)). specialize (B2 y0 ltac:(done)). specialize (S2 z0 ltac:(done)).
    specialize (K2 n0 ltac:(done)). lia.
Qed.

Lemma known_op_plain call sk o :
  plain (op_kind o) = true →
  known_op m typeSize call sk o =
    match memory_op m typeSize o with
    | Some e => known_est e
    | None => oadd (Some (8 * own m o)) (known_regions (known_op m typeSize call sk) sk (regions o))
    end.
Proof. by destruct o as [? ? ? [] ? ? ? ?]. Qed.

(** Only the rules for its kind give an operation a cost. *)
Definition cost_form (sk : Skip) (o : operation) (n : Z) : Prop :=
  match op_kind o with
  | KFor => ∃ c b s rs k, regions o = c :: b :: s :: rs ∧
      (∀ t, constantTripCount m o = Some t → Z.of_nat k ≤ t) ∧ costs sk (ILoop c b s k) n
  | KLoop | KWtc _ _ => True
  | KIf | KTernary => ∃ t f rs r, regions o = t :: f :: rs ∧ (r = t ∨ r = f) ∧ costs sk (IRegion r) n
  | KCall _ => targets m o = [] ∨ ∃ t x, t ∈ targets m o ∧ n = x + 8 * kCall ∧
      if not_followed t then within (external m demangle o t) x else costs no_skip (IRegion (body t)) x
  | _ => match memory_op m typeSize o with
         | Some e => within e n
         | None => ∃ x, n = 8 * own m o + x ∧ costs sk (IRegions (regions o)) x
         end
  end.

Lemma cost_form_plain sk o n :
  plain (op_kind o) = true →
  cost_form sk o n = match memory_op m typeSize o with
                     | Some e => within e n
                     | None => ∃ x, n = 8 * own m o + x ∧ costs sk (IRegions (regions o)) x
                     end.
Proof. unfold cost_form. by destruct (op_kind o). Qed.

Lemma costs_op_inv sk o n : costs sk (IOp o) n → cost_form sk o n.
Proof.
  intros H. inversion H as
    [| | | | | | | | | | |? ? c b s rs k ? Hk Hr Ht Hc|? ? c b rs k ? Hk Hr Hc|? ? t f rs r ? Hk Hr Hc Hn
    |? ? ca t ? Hk Ht Hf Hc|? ? ca t ? Hk Ht Hf Hw|? ? ca ? Hk Ht Hn|? ? w a ? Hk Hn|? ? e ? Hp He Hw|? ? ? Hp He Hc];
    subst; try (unfold cost_form; rewrite Hk; try done; eauto 10).
  - unfold cost_form. destruct Hk as [-> | ->]; eauto 10.
  - right. exists t, n0. by rewrite Hf.
  - right. exists t, n0. by rewrite Hf.
  - rewrite cost_form_plain by done. by rewrite He.
  - rewrite cost_form_plain by done. rewrite He. eauto.
Qed.

Lemma plain_greatest call sk o u :
  plain (op_kind o) = true →
  (∀ c v, c ∈ children o → known_op m typeSize call sk c = Some v → greatest sk (IOp c) v) →
  known_op m typeSize call sk o = Some u → greatest sk (IOp o) u.
Proof.
  intros Hp IH Hu. rewrite known_op_plain in Hu by done. destruct (memory_op m typeSize o) as [e|] eqn:Em.
  - unfold known_est in Hu. destruct (bounded e) eqn:Eb; [|done]. injection Hu as <-. split.
    + apply c_memory with e; [done..|]. split; [by apply memory_op_nonneg with o|done].
    + intros n H%costs_op_inv. rewrite cost_form_plain, Em in H by done. by apply H.
  - apply oadd_inv in Hu as (? & y & [= <-] & Hy & ->).
    apply regions_greatest in Hy as [Y1 Y2]; [|done]. split; [by apply c_plain|].
    intros n H%costs_op_inv. rewrite cost_form_plain, Em in H by done. destruct H as (x & -> & Hx).
    specialize (Y2 x Hx). lia.
Qed.

Lemma for_greatest call sk o u :
  op_kind o = KFor →
  (∀ c v, c ∈ children o → known_op m typeSize call sk c = Some v → greatest sk (IOp c) v) →
  known_op m typeSize call sk o = Some u → greatest sk (IOp o) u.
Proof.
  destruct o as [i nm l k args res ats rs]. cbn [op_kind]. intros -> IH Hu. cbn [known_op] in Hu.
  destruct (constantTripCount m _) as [t|] eqn:Et; [|done].
  destruct rs as [|c [|b [|s rs]]]; [done..|].
  unfold children in IH. cbn [regions concat] in IH. rewrite !map_app, !concat_app in IH. setoid_rewrite elem_of_app in IH.
  setoid_rewrite elem_of_app in IH. setoid_rewrite elem_of_app in IH.
  apply oadd_inv in Hu as (x & w & Hx & (w' & (xy & z & (x' & y & Hx' & Hy & ->)%oadd_inv & Hz & ->)%oadd_inv & ->)%otimes_inv & ->).
  rewrite Hx in Hx'. injection Hx' as <-.
  apply region_greatest in Hx; [|eauto]. apply region_greatest in Hy; [|eauto]. apply region_greatest in Hz; [|eauto 6].
  assert (0 ≤ t) as Ht by (by eapply trip_count_nonneg).
  split.
  - pose proof (loop_greatest sk c b s x y z (Z.to_nat t) Hx Hy Hz) as [L _]. rewrite Z2Nat.id in L by done.
    eapply c_for; [done|done| |exact L]. intros t' Ht'. rewrite Et in Ht'. injection Ht' as <-. lia.
  - intros n (c' & b' & s' & rs' & k & [= <- <- <- <-] & Hk & Hl)%costs_op_inv.
    pose proof (loop_greatest sk c b s x y z k Hx Hy Hz) as [_ L]. specialize (L n Hl). specialize (Hk t Et).
    pose proof (greatest_nonneg _ _ _ Hx). pose proof (greatest_nonneg _ _ _ Hy).
    pose proof (greatest_nonneg _ _ _ Hz). nia.
Qed.

Lemma branch_greatest call sk o u :
  op_kind o = KIf ∨ op_kind o = KTernary →
  (∀ c v, c ∈ children o → known_op m typeSize call sk c = Some v → greatest sk (IOp c) v) →
  known_op m typeSize call sk o = Some u → greatest sk (IOp o) u.
Proof.
  destruct o as [i nm l k args res ats rs]. cbn [op_kind]. intros Hk IH Hu.
  unfold children in IH. cbn [regions] in IH.
  assert (match rs with t :: f :: _ => omax (known_region (known_op m typeSize call sk) sk t)
            (known_region (known_op m typeSize call sk) sk f) | _ => None end = Some u) as Hu'.
  { by destruct Hk as [-> | ->]. }
  clear Hu. destruct rs as [|t [|f rs]]; [done..|].
  cbn [concat] in IH. rewrite !map_app, !concat_app in IH. setoid_rewrite elem_of_app in IH. setoid_rewrite elem_of_app in IH.
  apply omax_inv in Hu' as (x & y & Hx & Hy & ->).
  apply region_greatest in Hx as [X1 X2]; [|eauto]. apply region_greatest in Hy as [Y1 Y2]; [|eauto].
  split.
  - destruct (Z.max_spec x y) as [[_ ->]|[_ ->]]; (eapply c_branch; [done|done| |eassumption]); eauto.
  - intros n H%costs_op_inv.
    assert (∃ t' f' rs' r, t :: f :: rs = t' :: f' :: rs' ∧ (r = t' ∨ r = f') ∧ costs sk (IRegion r) n)
      as (t' & f' & rs' & r & [= <- <- <-] & [-> | ->] & Hr).
    { unfold cost_form in H. cbn [op_kind regions] in H. by destruct Hk as [-> | ->]. }
    + specialize (X2 n Hr). lia.
    + specialize (Y2 n Hr). lia.
Qed.

Lemma op_greatest call sk o u :
  (∀ c ca v, op_kind c = KCall ca → call c = Some v → greatest sk (IOp c) v) →
  known_op m typeSize call sk o = Some u → greatest sk (IOp o) u.
Proof.
  intros Hcall. revert u. induction o as [o IH] using operation_nested_ind. intros u Hu.
  rewrite Forall_forall in IH.
  assert (∀ c v, c ∈ children o → known_op m typeSize call sk c = Some v → greatest sk (IOp c) v) as IH'
    by (intros c v Hc; by apply IH).
  destruct (plain (op_kind o)) eqn:Hp; [by eapply plain_greatest|].
  destruct (op_kind o) eqn:Hk; try done.
  - destruct o as [? ? ? k ? ? ? ?]. cbn in Hk. subst k. by eapply Hcall.
  - by eapply for_greatest.
  - destruct o as [? ? ? k ? ? ? ?]. cbn in Hk. by subst k.
  - eapply branch_greatest; eauto.
  - eapply branch_greatest; eauto.
  - destruct o as [? ? ? k ? ? ? ?]. cbn in Hk. by subst k.
Qed.

Lemma targets_greatest body_of c ca ts v :
  op_kind c = KCall ca →
  (∀ t u, t ∈ ts → not_followed t = false → body_of t = Some u → greatest no_skip (IRegion (body t)) u) →
  fold_right (λ t acc, omax (known_target m demangle body_of c t) acc) (Some 0) ts = Some v →
  0 ≤ v ∧ (∀ t x, t ∈ ts →
    (if not_followed t then within (external m demangle c t) x else costs no_skip (IRegion (body t)) x) → x ≤ v) ∧
  ((ts = [] ∧ v = 0) ∨ ∃ t, t ∈ ts ∧
    if not_followed t then within (external m demangle c t) v else costs no_skip (IRegion (body t)) v).
Proof.
  intros Hk Hb. revert v. induction ts as [|t ts IH]; cbn; intros v Hv.
  - injection Hv as <-. split; [done|]. split; [by intros t x ?%elem_of_nil|by left].
  - apply omax_inv in Hv as (x & y & Hx & Hy & ->).
    destruct (IH ltac:(intros t' u' Ht'; apply Hb; by right) y Hy) as (Y0 & Y1 & Y2).
    assert (0 ≤ x ∧ (∀ z, (if not_followed t then within (external m demangle c t) z
                     else costs no_skip (IRegion (body t)) z) → z ≤ x) ∧
            if not_followed t then within (external m demangle c t) x else costs no_skip (IRegion (body t)) x)
      as (X0 & X1 & X2).
    { unfold known_target in Hx. destruct (not_followed t) eqn:En.
      - unfold known_est in Hx. destruct (bounded _) eqn:Eb; [|done]. injection Hx as <-.
        pose proof (external_nonneg c t). split; [done|]. split; [|by split].
        intros z [_ Hz]. by apply Hz.
      - apply Hb in Hx as [B1 B2]; [|by left|done]. split; [by eapply costs_nonneg|]. by split. }
    split; [lia|]. split.
    + intros t' z [->|Ht']%elem_of_cons Hz; [specialize (X1 z Hz)|specialize (Y1 t' z Ht' Hz)]; lia.
    + destruct (Z.max_spec x y) as [[Hxy ->]|[_ ->]].
      * destruct Y2 as [[_ ->]|(t' & Ht' & H')]; [lia|]. right. exists t'. split; [by right|done].
      * right. exists t. split; [by left|done].
Qed.

Lemma call_greatest body_of sk c ca v :
  op_kind c = KCall ca →
  (∀ t u, not_followed t = false → body_of t = Some u → greatest no_skip (IRegion (body t)) u) →
  known_call m demangle body_of c = Some v → greatest sk (IOp c) v.
Proof.
  intros Hk Hb. unfold known_call. destruct (targets m c) as [|t0 ts0] eqn:Et; [done|]. rewrite <-Et.
  intros (x & ? & Hx & [= <-] & ->)%oadd_inv.
  destruct (targets_greatest body_of c ca (targets m c) x Hk) as (H0 & H1 & H2); [naive_solver|done|].
  split.
  - assert (∃ t, t ∈ targets m c ∧ if not_followed t then within (external m demangle c t) x
                                  else costs no_skip (IRegion (body t)) x) as (t & Ht & Hc).
    { destruct H2 as [[H2 _]|?]; [by rewrite Et in H2|done]. }
    destruct (not_followed t) eqn:En; [by eapply c_external|by eapply c_call].
  - intros n H%costs_op_inv. unfold cost_form in H. rewrite Hk in H.
    destruct H as [H|(t & y & Ht & -> & Hy)]; [by rewrite Et in H|]. specialize (H1 t y Ht Hy). lia.
Qed.

Lemma body_greatest d f u : known_body m demangle typeSize d f = Some u → greatest no_skip (IRegion (body f)) u.
Proof.
  revert f u. induction d as [|d IH]; [done|]. intros f u. cbn [known_body].
  apply region_greatest. intros o v _. apply op_greatest. intros c ca v' Hk.
  apply (call_greatest _ _ _ _ _ Hk). intros t u' _. apply IH.
Qed.

Lemma known_greatest d sk o u : known m demangle typeSize d sk o = Some u → greatest sk (IOp o) u.
Proof.
  apply op_greatest. intros c ca v Hk. apply (call_greatest _ _ _ _ _ Hk). intros t u' _. apply body_greatest.
Qed.
End greatest.

(** ** A deeper limit knows no less *)

Section monotone.
Context (m : module) (demangle : string → string) (typeSize : option ty → Z).

(** [b] knows whatever [a] does, and the same. *)
Definition knows {A} (a b : A → option Z) : Prop := ∀ x u, a x = Some u → b x = Some u.

Lemma oadd_knows a b a' b' u :
  (∀ v, a = Some v → a' = Some v) → (∀ v, b = Some v → b' = Some v) → oadd a b = Some u → oadd a' b' = Some u.
Proof. intros Ha Hb (x & y & -> & -> & ->)%oadd_inv. by rewrite (Ha x), (Hb y). Qed.
Lemma omax_knows a b a' b' u :
  (∀ v, a = Some v → a' = Some v) → (∀ v, b = Some v → b' = Some v) → omax a b = Some u → omax a' b' = Some u.
Proof. intros Ha Hb (x & y & -> & -> & ->)%omax_inv. by rewrite (Ha x), (Hb y). Qed.
Lemma otimes_knows a a' n u : (∀ v, a = Some v → a' = Some v) → otimes a n = Some u → otimes a' n = Some u.
Proof. intros Ha (x & -> & ->)%otimes_inv. by rewrite (Ha x). Qed.

Lemma region_knows op op' sk r u :
  (∀ o v, o ∈ concat (map block_ops r) → op o = Some v → op' o = Some v) →
  known_region op sk r = Some u → known_region op' sk r = Some u.
Proof.
  destruct r as [|[b a ops] [|b' r]]; cbn; [done| |done]. rewrite app_nil_r. revert u.
  induction ops as [|o ops IH]; cbn; [done|]. intros u Hop. destruct (sk o).
  - apply IH. intros o' v Ho'. apply Hop. by right.
  - apply oadd_knows; intros v; [apply Hop; by left|]. apply IH. intros o' v' Ho'. apply Hop. by right.
Qed.

Lemma regions_knows op op' sk rs u :
  (∀ o v, o ∈ concat (map block_ops (concat rs)) → op o = Some v → op' o = Some v) →
  known_regions op sk rs = Some u → known_regions op' sk rs = Some u.
Proof.
  revert u. induction rs as [|r rs IH]; cbn; [done|]. intros u Hop.
  rewrite map_app, concat_app in Hop. setoid_rewrite elem_of_app in Hop.
  apply oadd_knows; intros v; [apply region_knows; eauto|apply IH; eauto].
Qed.

Lemma op_knows call call' sk : knows call call' → knows (known_op m typeSize call sk) (known_op m typeSize call' sk).
Proof.
  intros Hc o. induction o as [o IH] using operation_nested_ind. intros u. rewrite Forall_forall in IH.
  destruct (plain (op_kind o)) eqn:Hp.
  { rewrite !known_op_plain by done. destruct (memory_op m typeSize o); [done|].
    apply oadd_knows; [done|]. intros v. apply regions_knows. intros o' v' Ho'. by apply IH. }
  destruct o as [? ? ? k ? ? ? rs]. cbn [op_kind] in Hp. unfold children in IH. cbn [regions] in IH.
  destruct k; try done; cbn [known_op]; [by apply Hc|..].
  - destruct (constantTripCount m _); [|done]. destruct rs as [|c [|b [|s rs]]]; [done..|].
    cbn [concat] in IH. rewrite !map_app, !concat_app in IH. setoid_rewrite elem_of_app in IH.
    setoid_rewrite elem_of_app in IH. setoid_rewrite elem_of_app in IH.
    apply oadd_knows; intros v; [|apply otimes_knows; intros ?; apply oadd_knows; intros ?; [apply oadd_knows; intros ?|]];
      apply region_knows; intros o' v' Ho'; apply IH; eauto.
  - destruct rs as [|t [|f rs]]; [done..|].
    cbn [concat] in IH. rewrite !map_app, !concat_app in IH. setoid_rewrite elem_of_app in IH. setoid_rewrite elem_of_app in IH.
    apply omax_knows; intros v; apply region_knows; intros o' v' Ho'; apply IH; eauto.
  - destruct rs as [|t [|f rs]]; [done..|].
    cbn [concat] in IH. rewrite !map_app, !concat_app in IH. setoid_rewrite elem_of_app in IH. setoid_rewrite elem_of_app in IH.
    apply omax_knows; intros v; apply region_knows; intros o' v' Ho'; apply IH; eauto.
Qed.

Lemma call_knows f g : knows f g → knows (known_call m demangle f) (known_call m demangle g).
Proof.
  intros H c u. unfold known_call. destruct (targets m c) as [|t ts]; [done|].
  apply oadd_knows; [|done]. generalize (t :: ts). clear t ts. intros ts v. revert v.
  induction ts as [|t ts IH]; cbn; [done|]. intros v. apply omax_knows; [|apply IH].
  intros w. unfold known_target. destruct (not_followed t); [done|apply H].
Qed.

Lemma body_knows d d' : (d ≤ d')%nat → knows (known_body m demangle typeSize d) (known_body m demangle typeSize d').
Proof.
  revert d'. induction d as [|d IH]; intros d' Hd f u; [done|]. destruct d' as [|d']; [lia|]. cbn [known_body].
  apply region_knows. intros o v _. apply op_knows, call_knows, IH. lia.
Qed.

Lemma known_calls d d' : (d ≤ d')%nat →
  knows (known_call m demangle (known_body m demangle typeSize d)) (known_call m demangle (known_body m demangle typeSize d')).
Proof. intros H. by apply call_knows, body_knows. Qed.
End monotone.

(** ** The estimator against the reference *)

Section estimator.
Context (m : module) (demangle : string → string) (typeSize : option ty → Z).
Hypothesis wf : wf_ids m = true.

Abbreviation known_body := (known_body m demangle typeSize).
Abbreviation kcall d := (known_call m demangle (known_body d)).
Abbreviation kop sk d := (known_op m typeSize (kcall d) sk).

(** A cost at each depth, deeper knowing no less. *)
Definition family := nat → option Z.
Definition mono (R : family) : Prop := ∀ d d' u, (d ≤ d')%nat → R d = Some u → R d' = Some u.
Definition both (f : option Z → option Z → option Z) (R R' : family) : family := λ d, f (R d) (R' d).

(** What an estimate [e] says of a family with room for [n] calls: a bound
    is the cost at some depth; no bound means there is none at any depth,
    unless the depth limit was met; and what is known with the room there
    is has a bound. *)
Definition says (n : nat) (R : family) (e : estimate) (met : bool) : Prop :=
  (bounded e = true → ∃ d, R d = Some (units e)) ∧
  (bounded e = false → met = true ∨ ∀ d, R d = None) ∧
  (R n ≠ None → bounded e = true).

(** The memo holds answers that do not depend on where they were asked. *)
Definition valid (s : st) : Prop := ∀ f e, f ∈ m → est_memo s !! op_id f = Some e →
  (bounded e = true → ∃ d, known_body d f = Some (units e)) ∧
  (bounded e = false → ∀ d, known_body d f = None).

(** What the functions being counted know, they know of what is being
    counted inside them. *)
Definition demands (stack : list operation) (R : family) : Prop :=
  ∀ g k, g ∈ stack → known_body (S k) g ≠ None → R k ≠ None.

Definition ok (stack : list operation) (n : nat) (p : M estimate) (R : family) : Prop :=
  demands stack R → ∀ s, valid s →
  let '(e, s') := p s in
  valid s' ∧ (metDepth s = true → metDepth s' = true) ∧ says n R e (metDepth s').

Lemma says_met n R e met met' : (met = true → met' = true) → says n R e met → says n R e met'.
Proof. intros H (A & B & C). split; [done|]. split; [|done]. intros E. destruct (B E); auto. Qed.

Lemma says_cong n (R R' : family) e met : (∀ d, R d = R' d) → says n R e met → says n R' e met.
Proof.
  intros H (A & B & C). split; [intros E; destruct (A E) as [d Hd]; exists d; by rewrite <-H|].
  split; [|by rewrite <-H]. intros E. destruct (B E) as [?|N]; [by left|]. right. intros d. by rewrite <-H.
Qed.

(** An estimate without a bound stands for whatever needs what it is of. *)
Lemma says_stop n (R R' : family) e met :
  bounded e = false → (∀ d, R' d ≠ None → R d ≠ None) → says n R e met → says n R' e met.
Proof.
  intros Hb H (A & B & C). split; [by rewrite Hb|]. split; [|auto].
  intros E. destruct (B E) as [?|N]; [by left|]. right. intros d. destruct (R' d) eqn:Ed; [|done].
  destruct (H d); [by rewrite Ed|done].
Qed.

Lemma says_known n R e met : (∀ d, R d = known_est e) → says n R e met.
Proof.
  unfold known_est. intros H. split; [intros Hb; exists n; by rewrite H, Hb|].
  split; [intros Hb; right; intros d; by rewrite H, Hb|]. rewrite H. by destruct (bounded e).
Qed.

Lemma plus_bounded a b : bounded (plus a b) = bounded a && bounded b.
Proof. unfold plus. destruct (bounded a) eqn:A, (bounded b) eqn:B; cbn; by rewrite ?A, ?B. Qed.
Lemma plus_units a b : bounded a = true → bounded b = true → units (plus a b) = units a + units b.
Proof. unfold plus. by intros -> ->. Qed.
Lemma larger_bounded a b : bounded (larger a b) = bounded a && bounded b.
Proof.
  unfold larger. destruct (bounded a) eqn:A, (bounded b) eqn:B; cbn; rewrite ?A, ?B; try done.
  destruct (_ <=? _); by rewrite ?A, ?B.
Qed.
Lemma larger_units a b : bounded a = true → bounded b = true → units (larger a b) = Z.max (units a) (units b).
Proof. unfold larger. intros -> ->. cbn [negb]. destruct (Z.leb_spec (units b) (units a)); lia. Qed.

(** Two estimates combined, when both are needed. *)
Lemma says_both n (f : option Z → option Z → option Z) (g : Z → Z → Z) R1 R2 e1 e2 e met :
  (∀ x y, f (Some x) (Some y) = Some (g x y)) → (∀ a b, f a b ≠ None → a ≠ None ∧ b ≠ None) →
  bounded e = bounded e1 && bounded e2 →
  (bounded e1 = true → bounded e2 = true → units e = g (units e1) (units e2)) →
  mono R1 → mono R2 → says n R1 e1 met → says n R2 e2 met → says n (both f R1 R2) e met.
Proof.
  intros Hf Hn Hb Hu M1 M2 (A1 & B1 & C1) (A2 & B2 & C2). unfold both.
  assert (∀ d, R1 d = None ∨ R2 d = None → f (R1 d) (R2 d) = None) as Hnone.
  { intros d Hd. destruct (f (R1 d) (R2 d)) eqn:Ef; [|done].
    destruct (Hn (R1 d) (R2 d)) as [? ?]; [by rewrite Ef|naive_solver]. }
  split; [|split].
  - rewrite Hb. intros [E1 E2]%andb_true_iff. destruct (A1 E1) as [d1 D1], (A2 E2) as [d2 D2].
    exists (Nat.max d1 d2). rewrite (M1 d1 (Nat.max d1 d2) (units e1)), (M2 d2 (Nat.max d1 d2) (units e2)) by (done || lia).
    by rewrite Hf, Hu.
  - rewrite Hb. intros [E|E]%andb_false_iff.
    + destruct (B1 E) as [?|N]; [by left|]. right. intros d. apply Hnone. by left.
    + destruct (B2 E) as [?|N]; [by left|]. right. intros d. apply Hnone. by right.
  - intros [H1 H2]%Hn. by rewrite Hb, C1, C2.
Qed.

Lemma oadd_needs a b : oadd a b ≠ None → a ≠ None ∧ b ≠ None.
Proof. by destruct a, b. Qed.
Lemma omax_needs a b : omax a b ≠ None → a ≠ None ∧ b ≠ None.
Proof. by destruct a, b. Qed.

Lemma says_plus n R1 R2 e1 e2 met :
  mono R1 → mono R2 → says n R1 e1 met → says n R2 e2 met → says n (both oadd R1 R2) (plus e1 e2) met.
Proof. apply (says_both _ _ Z.add); [done|apply oadd_needs|apply plus_bounded|apply plus_units]. Qed.
Lemma says_larger n R1 R2 e1 e2 met :
  mono R1 → mono R2 → says n R1 e1 met → says n R2 e2 met → says n (both omax R1 R2) (larger e1 e2) met.
Proof. apply (says_both _ _ Z.max); [done|apply omax_needs|apply larger_bounded|apply larger_units]. Qed.
Lemma says_times n R e k met : says n R e met → says n (λ d, otimes (R d) k) (times e k) met.
Proof.
  intros (A & B & C). unfold times. destruct (bounded e) eqn:E.
  - split; [|split; [done|done]]. intros _. destruct (A eq_refl) as [d Hd]. exists d. by rewrite Hd.
  - split; [by rewrite E|]. split; [|intros H; rewrite E; apply C; by destruct (R n)].
    intros _. destruct (B eq_refl) as [?|N]; [by left|]. right. intros d. by rewrite N.
Qed.

(** ** Computations *)

Lemma oadd_assoc a b c : oadd (oadd a b) c = oadd a (oadd b c).
Proof. destruct a, b, c; cbn; [|done..]. f_equal. lia. Qed.

Lemma mono_both f R R' :
  (∀ a b a' b' u, (∀ v, a = Some v → a' = Some v) → (∀ v, b = Some v → b' = Some v) →
     f a b = Some u → f a' b' = Some u) →
  mono R → mono R' → mono (both f R R').
Proof. intros H M1 M2 d d' u Hd. unfold both. apply H; intros v; [by apply M1|by apply M2]. Qed.

Lemma mono_const e : mono (λ _, e).
Proof. by intros d d' u _ ->. Qed.

Lemma mono_op sk o : mono (λ d, kop sk d o).
Proof. intros d d' u Hd. apply op_knows, known_calls, Hd. Qed.
Lemma mono_seq sk l : mono (λ d, known_seq (kop sk d) sk l).
Proof.
  intros d d' u Hd. apply (region_knows (kop sk d) (kop sk d') sk [Block 0 [] l]).
  intros o v _. by apply mono_op.
Qed.
Lemma mono_region sk r : mono (λ d, known_region (kop sk d) sk r).
Proof. intros d d' u Hd. apply region_knows. intros o v _. by apply mono_op. Qed.
Lemma mono_regions sk rs : mono (λ d, known_regions (kop sk d) sk rs).
Proof. intros d d' u Hd. apply regions_knows. intros o v _. by apply mono_op. Qed.
Lemma mono_body f : mono (λ d, known_body d f).
Proof. intros d d' u Hd. by apply body_knows. Qed.

Lemma demands_weaken stack (R R' : family) :
  (∀ d, R d ≠ None → R' d ≠ None) → demands stack R → demands stack R'.
Proof. intros H D g k Hg Hk. apply H. by eapply D. Qed.

Lemma demands_both f stack R R' :
  (∀ a b, f a b ≠ None → a ≠ None ∧ b ≠ None) → demands stack (both f R R') → demands stack R ∧ demands stack R'.
Proof. intros H D. split; intros g k Hg Hk; apply (H (R k) (R' k)), (D g k Hg Hk). Qed.

Lemma ok_known stack n e R : (∀ d, R d = known_est e) → ok stack n (ret e) R.
Proof. intros H _ s Hs. cbn. split; [done|]. split; [done|]. by apply says_known. Qed.

Lemma ok_pair stack n p q R1 R2 f c :
  (∀ a b, f a b ≠ None → a ≠ None ∧ b ≠ None) →
  (∀ e1 e2 met, says n R1 e1 met → says n R2 e2 met → says n (both f R1 R2) (c e1 e2) met) →
  ok stack n p R1 → ok stack n q R2 → ok stack n (bind p (λ a, bind q (λ b, ret (c a b)))) (both f R1 R2).
Proof.
  intros Hn Hc Hp Hq [D1 D2]%demands_both s Hs; [|done]. specialize (Hp D1 s Hs). unfold bind, ret.
  destruct (p s) as [a s1]. destruct Hp as (V1 & K1 & S1). specialize (Hq D2 s1 V1).
  destruct (q s1) as [b s2]. destruct Hq as (V2 & K2 & S2). split; [done|]. split; [auto|].
  apply Hc; [by eapply says_met|done].
Qed.

Lemma seq_ok stack n op sk l e R0 :
  (∀ o, o ∈ l → ok stack n (op o) (λ d, kop sk d o)) → mono R0 → bounded e = true →
  demands stack (λ d, known_seq (kop sk d) sk l) → ∀ s, valid s → says n R0 e (metDepth s) →
  let '(e', s') := seq_with op sk l e s in
  valid s' ∧ (metDepth s = true → metDepth s' = true) ∧
  says n (both oadd R0 (λ d, known_seq (kop sk d) sk l)) e' (metDepth s').
Proof.
  revert e R0. induction l as [|o l IH]; intros e R0 Hop M0 Hb D s Hs S0; cbn [seq_with].
  - cbn. split; [done|]. split; [done|]. eapply says_cong; [|exact S0].
    intros d. unfold both. cbn. destruct (R0 d); [cbn; f_equal; lia|done].
  - assert (∀ o', o' ∈ l → ok stack n (op o') (λ d, kop sk d o')) as Hop' by (intros ? ?; apply Hop; by right).
    cbn [known_seq] in D |- *. destruct (sk o) eqn:Es; [by apply IH|].
    apply (demands_both oadd) in D as [D1 D2]; [|apply oadd_needs].
    pose proof (Hop o ltac:(by left) D1 s Hs) as Ho. unfold bind. destruct (op o s) as [x s1].
    destruct Ho as (V1 & K1 & S1).
    pose proof (says_plus n R0 _ e x _ M0 (mono_op sk o) (says_met _ _ _ _ _ K1 S0) S1) as Sp.
    cbn zeta. destruct (bounded (plus e x)) eqn:Ep.
    + pose proof (IH (plus e x) _ Hop' ltac:(apply mono_both; [apply oadd_knows|done|apply (mono_op sk o)]) Ep D2 s1 V1 Sp) as Hl.
      destruct (seq_with op sk l (plus e x) s1) as [e' s']. destruct Hl as (V2 & K2 & S2).
      split; [done|]. split; [auto|]. eapply says_cong; [|exact S2]. intros d. apply oadd_assoc.
    + cbn. split; [done|]. split; [done|]. eapply says_stop; [done| |exact Sp].
      intros d. unfold both. rewrite <-oadd_assoc. by intros [? _]%oadd_needs.
Qed.

Lemma region_ok stack n op sk parent r :
  (∀ o, o ∈ concat (map block_ops r) → ok stack n (op o) (λ d, kop sk d o)) →
  ok stack n (region_with op sk parent r) (λ d, known_region (kop sk d) sk r).
Proof.
  destruct r as [|[b a ops] [|b' r]]; intros Hop; [by apply ok_known| |by apply ok_known].
  cbn in Hop. rewrite app_nil_r in Hop. intros D s Hs. cbn [region_with known_region] in *.
  pose proof (seq_ok stack n op sk ops (of_eighths 0) (λ _, Some 0) Hop (mono_const _) eq_refl D s Hs
    ltac:(by apply says_known)) as H.
  destruct (seq_with _ _ _ _ _) as [e s']. destruct H as (V & K & S). split; [done|]. split; [done|].
  eapply says_cong; [|exact S]. intros d. unfold both. by destruct (known_seq _ _ _).
Qed.

Lemma regions_ok stack n op sk parent rs e R0 :
  (∀ o, o ∈ concat (map block_ops (concat rs)) → ok stack n (op o) (λ d, kop sk d o)) → mono R0 → bounded e = true →
  demands stack (λ d, known_regions (kop sk d) sk rs) → ∀ s, valid s → says n R0 e (metDepth s) →
  let '(e', s') := regions_with op sk parent rs e s in
  valid s' ∧ (metDepth s = true → metDepth s' = true) ∧
  says n (both oadd R0 (λ d, known_regions (kop sk d) sk rs)) e' (metDepth s').
Proof.
  revert e R0. induction rs as [|r rs IH]; intros e R0 Hop M0 Hb D s Hs S0; cbn [regions_with].
  - cbn. split; [done|]. split; [done|]. eapply says_cong; [|exact S0].
    intros d. unfold both. cbn. destruct (R0 d); [cbn; f_equal; lia|done].
  - cbn [concat] in Hop. rewrite map_app, concat_app in Hop. setoid_rewrite elem_of_app in Hop.
    cbn [known_regions] in D |- *. apply (demands_both oadd) in D as [D1 D2]; [|apply oadd_needs].
    pose proof (region_ok stack n op sk parent r ltac:(auto) D1 s Hs) as Ho. unfold bind.
    destruct (region_with op sk parent r s) as [x s1]. destruct Ho as (V1 & K1 & S1).
    pose proof (says_plus n R0 _ e x _ M0 (mono_region sk r) (says_met _ _ _ _ _ K1 S0) S1) as Sp.
    cbn zeta. destruct (bounded (plus e x)) eqn:Ep.
    + pose proof (IH (plus e x) _ ltac:(auto) ltac:(apply mono_both; [apply oadd_knows|done|apply (mono_region sk r)]) Ep D2 s1 V1 Sp) as Hl.
      destruct (regions_with op sk parent rs (plus e x) s1) as [e' s']. destruct Hl as (V2 & K2 & S2).
      split; [done|]. split; [auto|]. eapply says_cong; [|exact S2]. intros d. apply oadd_assoc.
    + cbn. split; [done|]. split; [done|]. eapply says_stop; [done| |exact Sp].
      intros d. unfold both. rewrite <-oadd_assoc. by intros [? _]%oadd_needs.
Qed.

Lemma ok_ext stack n p p' R R' :
  (∀ s, p s = p' s) → (∀ d, R d = R' d) → ok stack n p R → ok stack n p' R'.
Proof.
  intros Hp HR H D s Hs. rewrite <-Hp. specialize (H ltac:(eapply demands_weaken; [|exact D]; intros d; by rewrite HR) s Hs).
  destruct (p s). destruct H as (? & ? & ?). split; [done|]. split; [done|]. by eapply says_cong.
Qed.

Lemma ok_plus stack n p q R1 R2 :
  mono R1 → mono R2 → ok stack n p R1 → ok stack n q R2 →
  ok stack n (bind p (λ a, bind q (λ b, ret (plus a b)))) (both oadd R1 R2).
Proof. intros M1 M2. apply ok_pair; [apply oadd_needs|]. intros. by apply says_plus. Qed.

Lemma mono_plus R1 R2 : mono R1 → mono R2 → mono (both oadd R1 R2).
Proof. apply mono_both, oadd_knows. Qed.

Lemma iteration_ok stack n op sk o c b s :
  (∀ r o', r ∈ [c; b] ∨ s = Some r → o' ∈ concat (map block_ops r) → ok stack n (op o') (λ d, kop sk d o')) →
  ok stack n (iteration_with op sk o c b s)
    (λ d, let cb := oadd (known_region (kop sk d) sk c) (known_region (kop sk d) sk b) in
          match s with Some r => oadd cb (known_region (kop sk d) sk r) | None => cb end).
Proof.
  intros H.
  pose proof (ok_plus stack n _ _ _ _ (mono_region sk c) (mono_region sk b)
    (region_ok stack n op sk o c ltac:(intros; eapply H; [left; by left|done]))
    (region_ok stack n op sk o b ltac:(intros; eapply H; [left; right; by left|done]))) as Hcb.
  destruct s as [r|]; [|done].
  eapply ok_ext; [| |refine (ok_plus stack n _ _ _ _ _ _ Hcb (region_ok stack n op sk o r _))].
  - intros s. unfold iteration_with, bind, ret. destruct (region_with op sk o c s) as [e s1].
    by destruct (region_with op sk o b s1).
  - done.
  - apply mono_plus; apply mono_region.
  - apply mono_region.
  - intros; eapply H; [by right|done].
Qed.

Lemma op_with_plain call sk o :
  plain (op_kind o) = true →
  op_with m typeSize call sk o =
    match memory_op m typeSize o with
    | Some e => ret e
    | None => regions_with (op_with m typeSize call sk) sk o (regions o) (of_units (own m o))
    end.
Proof. by destruct o as [? ? ? [] ? ? ? ?]. Qed.

Lemma op_ok stack n call sk o :
  (∀ c ca, op_kind c = KCall ca → ok stack n (call c) (λ d, kcall d c)) →
  ok stack n (op_with m typeSize call sk o) (λ d, kop sk d o).
Proof.
  intros Hc. induction o as [o IH] using operation_nested_ind. rewrite Forall_forall in IH.
  destruct (plain (op_kind o)) eqn:Hp.
  { rewrite op_with_plain by done. destruct (memory_op m typeSize o) as [e|] eqn:Em.
    - apply ok_known. intros d. by rewrite known_op_plain, Em.
    - intros D s Hs.
      assert (∀ d, kop sk d o = oadd (Some (8 * own m o)) (known_regions (kop sk d) sk (regions o))) as Hd
        by (intros d; by rewrite known_op_plain, Em).
      assert (demands stack (λ d, known_regions (kop sk d) sk (regions o))) as D'.
      { eapply demands_weaken; [|exact D]. intros d H. cbv beta in H. rewrite Hd in H. by apply oadd_needs in H as [_ H]. }
      pose proof (regions_ok stack n _ sk o (regions o) (of_units (own m o)) (λ _, Some (8 * own m o)) IH
        (mono_const _) eq_refl D' s Hs ltac:(by apply says_known)) as H.
      destruct (regions_with _ _ _ _ _ s) as [e s']. destruct H as (V & K & S). split; [done|]. split; [done|].
      eapply says_cong; [|exact S]. intros d. by rewrite Hd. }
  destruct o as [id nm l k args res ats rs]. cbn [op_kind] in Hp. unfold children in IH. cbn [regions] in IH.
  destruct k; try done; cbn [op_with known_op].
  - by eapply Hc.
  - destruct (constantTripCount m _) as [t|]; [|by apply ok_known]. destruct rs as [|c [|b [|s rs]]]; [by apply ok_known..|].
    cbn [concat] in IH. rewrite !map_app, !concat_app in IH. setoid_rewrite elem_of_app in IH.
    setoid_rewrite elem_of_app in IH. setoid_rewrite elem_of_app in IH.
    apply (ok_pair stack n _ _ (λ d, known_region (kop sk d) sk c)
      (λ d, oadd (oadd (known_region (kop sk d) sk c) (known_region (kop sk d) sk b)) (known_region (kop sk d) sk s))
      (λ a b, oadd a (otimes b t)) (λ e i, plus e (times i t))).
    + intros a b' [? H]%oadd_needs. split; [done|]. by destruct b'.
    + intros e1 e2 met S1 S2%(says_times _ _ _ t). refine (says_plus n _ _ _ _ _ (mono_region sk c) _ S1 S2).
      intros d d' u Hd. apply otimes_knows. intros v. apply (mono_plus _ _ (mono_plus _ _ (mono_region sk c) (mono_region sk b)) (mono_region sk s) d d'); done.
    + apply region_ok. eauto.
    + apply (iteration_ok stack n _ sk _ c b (Some s)). intros r o' [Hr|[= <-]] Ho'; [|eauto 6].
      rewrite !elem_of_cons, elem_of_nil in Hr. destruct Hr as [-> | [-> | []]]; eauto.
  - by apply ok_known.
  - destruct rs as [|t [|f rs]]; [by apply ok_known..|].
    cbn [concat] in IH. rewrite !map_app, !concat_app in IH. setoid_rewrite elem_of_app in IH. setoid_rewrite elem_of_app in IH.
    apply ok_pair; [apply omax_needs| |apply region_ok; eauto..].
    intros e1 e2 met. by apply (says_larger n _ _ _ _ _ (mono_region sk t) (mono_region sk f)).
  - destruct rs as [|t [|f rs]]; [by apply ok_known..|].
    cbn [concat] in IH. rewrite !map_app, !concat_app in IH. setoid_rewrite elem_of_app in IH. setoid_rewrite elem_of_app in IH.
    apply ok_pair; [apply omax_needs| |apply region_ok; eauto..].
    intros e1 e2 met. by apply (says_larger n _ _ _ _ _ (mono_region sk t) (mono_region sk f)).
  - by apply ok_known.
Qed.

(** ** Calls *)

(** The stack while there is room for [n] more calls. *)
Definition stack_ok (stack : list operation) (n : nat) : Prop :=
  (n + List.length stack)%nat = kMaxDepth ∧ ∀ g, g ∈ stack → g ∈ m.

Abbreviation ktarget d c t := (known_target m demangle (known_body d) c t).

Lemma ok_none stack n e R :
  bounded e = false → (∀ d, R d = None) → ok stack n (ret e) R.
Proof. intros He HR. apply ok_known. intros d. unfold known_est. by rewrite HR, He. Qed.

(** A function on the stack cannot be known: it would have to be known with
    ever fewer calls. *)
Lemma recursion_unknown stack t : t ∈ stack → demands stack (λ d, known_body d t) → ∀ d, known_body d t = None.
Proof.
  intros Ht D d. induction d as [|d IH]; [done|].
  destruct (known_body (S d) t) eqn:E; [|done]. destruct (D t d Ht); [by rewrite E|done].
Qed.

Lemma target_ok stack n function c t :
  stack_ok stack n → t ∈ m →
  (∀ n', n = S n' → not_followed t = false → ok stack n (function t) (λ d, known_body d t)) →
  ok stack n (target_with m demangle function stack c t) (λ d, ktarget d c t).
Proof.
  intros [Hn Hm] Ht Hf. unfold target_with, known_target. destruct (not_followed t) eqn:Enf; [by apply ok_known|].
  destruct (existsb _ stack) eqn:Es.
  { intros D. refine (ok_none stack n _ _ _ _ D); [done|]. apply (recursion_unknown stack); [|done].
    apply existsb_exists in Es as (g & Hg%list_elem_of_In & E%Nat.eqb_eq).
    assert (g = t) as <-; [|done]. apply (wf_ids_inj m); auto using module_in_walk. }
  destruct (Nat.leb_spec kMaxDepth (List.length stack)).
  { intros _ s Hs. cbn. split; [done|]. split; [done|]. split; [done|]. split; [by left|].
    by replace n with 0%nat by lia. }
  destruct n as [|n]; [lia|]. intros D s Hs. specialize (Hf n eq_refl eq_refl D s Hs). unfold bind, ret.
  destruct (function t s) as [e s']. destruct Hf as (V & K & S). split; [done|]. split; [done|].
  destruct (bounded e) eqn:Eb; [done|]. destruct S as (A & B & C). split; [done|]. split; [by intros _; apply B|].
  intros Hr. by rewrite <-C.
Qed.

Lemma omax_assoc a b c : omax (omax a b) c = omax a (omax b c).
Proof. destruct a, b, c; cbn; [|done..]. f_equal. lia. Qed.

Lemma mono_target c t : mono (λ d, ktarget d c t).
Proof. intros d d' u Hd. unfold known_target. destruct (not_followed t); [done|]. by apply mono_body. Qed.

Definition ktargets (c : operation) (ts : list operation) : family :=
  λ d, fold_right (λ t acc, omax (ktarget d c t) acc) (Some 0) ts.

Lemma targets_ok stack n function c ts e R0 :
  (∀ t, t ∈ ts → ok stack n (target_with m demangle function stack c t) (λ d, ktarget d c t)) →
  mono R0 → bounded e = true → 0 ≤ units e → demands stack (ktargets c ts) → ∀ s, valid s → says n R0 e (metDepth s) →
  let '(e', s') := targets_with m demangle function stack c ts e s in
  valid s' ∧ (metDepth s = true → metDepth s' = true) ∧
  says n (both oadd (both omax R0 (ktargets c ts)) (λ _, Some (8 * kCall))) e' (metDepth s').
Proof.
  revert e R0. induction ts as [|t ts IH]; intros e R0 Hop M0 Hb H0 D s Hs S0; cbn [targets_with].
  - cbn [ret]. unfold ret. split; [done|]. split; [done|].
    assert (says n (both omax R0 (ktargets c [])) e (metDepth s)) as S1.
    { destruct S0 as (A & B & C). unfold both. split; [|split; [congruence|done]].
      intros E. destruct (A E) as [d Hd]. exists d. rewrite Hd. cbn. f_equal. lia. }
    apply says_plus; [apply mono_both; [apply omax_knows|done|apply mono_const]|apply mono_const|done|by apply says_known].
  - cbn in D. apply (demands_both omax) in D as [D1 D2]; [|apply omax_needs].
    pose proof (Hop t ltac:(by left) D1 s Hs) as Ht. unfold bind.
    destruct (target_with m demangle function stack c t s) as [x s1]. destruct Ht as (V1 & K1 & S1).
    pose proof (says_larger n R0 _ e x _ M0 (mono_target c t) (says_met _ _ _ _ _ K1 S0) S1) as Sp.
    cbn zeta. destruct (bounded (larger e x)) eqn:Ep.
    + assert (0 ≤ units (larger e x)).
      { rewrite larger_bounded in Ep. apply andb_true_iff in Ep as [_ Ex]. rewrite larger_units by done. lia. }
      pose proof (IH (larger e x) _ ltac:(intros; apply Hop; by right)
        ltac:(apply mono_both; [apply omax_knows|done|apply (mono_target c t)]) Ep H D2 s1 V1 Sp) as Hl.
      destruct (targets_with _ _ _ _ _ ts (larger e x) s1) as [e' s']. destruct Hl as (V2 & K2 & S2).
      split; [done|]. split; [auto|]. eapply says_cong; [|exact S2]. intros d. unfold both. cbn. by rewrite omax_assoc.
    + cbn. split; [done|]. split; [done|]. eapply says_stop; [done| |exact Sp].
      intros d. unfold both. cbn. rewrite <-omax_assoc. by intros [[? _]%omax_needs _]%oadd_needs.
Qed.

Lemma targets_in c t : t ∈ targets m c → t ∈ m.
Proof.
  unfold targets. destruct (lookupCallee m c) as [f|] eqn:E.
  - intros ->%list_elem_of_singleton. by apply lookupCallee_in in E as [? _].
  - intros Ht. by apply indirectCallees_in in Ht as [? _].
Qed.

Lemma call_ok stack n function c :
  stack_ok stack n →
  (∀ t n', t ∈ m → n = S n' → not_followed t = false → ok stack n (function t) (λ d, known_body d t)) →
  ok stack n (call_with m demangle function stack c) (λ d, kcall d c).
Proof.
  intros Hst Hf. unfold call_with, known_call. destruct (targets m c) as [|t0 ts0] eqn:Et; [by apply ok_known|].
  rewrite <-Et. intros D s Hs.
  assert (demands stack (ktargets c (targets m c))) as D'.
  { eapply demands_weaken; [|exact D]. intros d H. by apply oadd_needs in H as [? _]. }
  pose proof (targets_ok stack n function c (targets m c) (of_eighths 0) (λ _, Some 0)
    ltac:(intros t Ht%targets_in; apply target_ok; eauto) (mono_const _) eq_refl ltac:(done) D' s Hs
    ltac:(by apply says_known)) as H.
  destruct (targets_with _ _ _ _ _ _ _ _) as [e s']. destruct H as (V & K & S). split; [done|]. split; [done|].
  eapply says_cong; [|exact S]. intros d. unfold both, ktargets.
  assert (∀ ts, omax (Some 0) (fold_right (λ t acc, omax (ktarget d c t) acc) (Some 0) ts) =
                fold_right (λ t acc, omax (ktarget d c t) acc) (Some 0) ts) as E; [|by rewrite E].
  induction ts as [|t ts IH]; [done|]. cbn. rewrite <-IH at 2.
  destruct (ktarget d c t), (fold_right _ _ ts); cbn; try done. f_equal. lia.
Qed.

Lemma valid_insert s f e :
  f ∈ m → valid s → (bounded e = true → ∃ d, known_body d f = Some (units e)) →
  (bounded e = false → ∀ d, known_body d f = None) → ∀ md, valid (St (<[op_id f := e]> (est_memo s)) md).
Proof.
  intros Hf Hs H1 H2 md g e' Hg. cbn. destruct (decide (op_id g = op_id f)) as [E|E].
  - assert (g = f) as -> by (apply (wf_ids_inj m); auto using module_in_walk).
    rewrite lookup_insert_eq. by intros [= <-].
  - rewrite lookup_insert_ne by done. by apply Hs.
Qed.

Lemma function_ok fuel stack n f :
  stack_ok stack (S n) → f ∈ m → (n < fuel)%nat →
  ok stack (S n) (function m demangle typeSize fuel stack f) (λ d, known_body d f).
Proof.
  revert stack n f. induction fuel as [|fuel IH]; intros stack n f [Hn Hm] Hf Hfuel; [lia|]. intros D s Hs.
  cbn [function]. destruct (est_memo s !! op_id f) as [e|] eqn:Em.
  { destruct (Hs f e Hf Em) as [A B]. split; [done|]. split; [done|]. split; [done|]. split; [by right; apply B|].
    intros H. destruct (bounded e) eqn:Eb; [done|]. by rewrite B in H. }
  assert (demands (f :: stack) (λ d, known_body (S d) f)) as D'.
  { intros g k [->|Hg]%elem_of_cons Hk; [done|]. specialize (D g k Hg Hk).
    destruct (known_body k f) as [u|] eqn:E; [|done]. by rewrite (mono_body f k (S k) u) by (done || lia). }
  assert (stack_ok (f :: stack) n) as Hst.
  { split; [cbn; lia|]. intros g [->|Hg]%elem_of_cons; auto. }
  pose proof (region_ok (f :: stack) n
    (op_with m typeSize (call_with m demangle (function m demangle typeSize fuel (f :: stack)) (f :: stack)) no_skip)
    no_skip f (body f)) as H.
  assert (∀ o, ok (f :: stack) n
    (op_with m typeSize (call_with m demangle (function m demangle typeSize fuel (f :: stack)) (f :: stack)) no_skip o)
    (λ d, kop no_skip d o)) as Hop.
  { intros o. apply op_ok. intros c ca _. apply call_ok; [done|]. intros t n' Ht -> _. apply IH; [done|done|lia]. }
  specialize (H ltac:(auto) D' (St (est_memo s) false) Hs).
  destruct (region_with _ _ _ _ _) as [e s1]. destruct H as (V & _ & A & B & C).
  split; [|split; [by cbn; intros ->|]].
  - destruct (metDepth s1) eqn:Ed; [done|]. apply valid_insert; [done|done| |].
    + intros Hb. destruct (A Hb) as [d Hd]. by exists (S d).
    + intros Hb. destruct (B Hb) as [?|N]; [done|]. intros [|d]; [done|apply N].
  - cbn [metDepth]. split; [|split; [|exact C]].
    + intros Hb. destruct (A Hb) as [d Hd]. by exists (S d).
    + intros Hb. destruct (B Hb) as [-> |N]; [left; by rewrite orb_true_r|].
      right. intros [|d]; [done|apply N].
Qed.

Lemma top_ok sk o : ok [] kMaxDepth (op m demangle typeSize o sk) (λ d, kop sk d o).
Proof.
  apply op_ok. intros c ca _. assert (stack_ok [] kMaxDepth) as Hst by (split; [done|by intros g ?%elem_of_nil]).
  apply call_ok; [done|]. intros t n' Ht Hn _. rewrite Hn in *. apply function_ok; [done|done|].
  unfold kMaxDepth in Hn. unfold kMaxDepth. lia.
Qed.

(** The estimator after any questions. *)
Inductive asked : st → Prop :=
| asked_first : asked st0
| asked_op s o sk : asked s → asked (snd (op m demangle typeSize o sk s))
| asked_iteration s o sk : asked s → asked (snd (iteration m demangle typeSize o sk s)).

Lemma nothing_demanded R : demands [] R.
Proof. intros g k Hg. by apply elem_of_nil in Hg. Qed.

Lemma asked_valid s : asked s → valid s.
Proof.
  induction 1 as [|s o sk _ IH|s o sk _ IH].
  - intros f e _ H. cbn [st0 est_memo] in H. by rewrite lookup_empty in H.
  - pose proof (top_ok sk o (nothing_demanded _) s IH) as H. destruct (op _ _ _ _ _ _). by destruct H.
  - unfold iteration. destruct (regions o) as [|c [|b r]]; [done..|].
    pose proof (iteration_ok [] kMaxDepth (λ o, op m demangle typeSize o sk) sk o c b (head r)
      ltac:(intros; apply top_ok) (nothing_demanded _) s IH) as H.
    unfold op in H. destruct (iteration_with _ _ _ _ _ _ _). by destruct H.
Qed.
End estimator.

(** ** Constants written with the bits of their width *)

Definition int_written (c : const) : bool := match c with CInt _ b => 0 <=? b | _ => true end.
Definition ints_written (m : module) : bool :=
  forallb (λ o, match op_kind o with
    | KConstant c => int_written c
    | KGlobal g => match initial_value g with Some c => int_written c | None => true end
    | KCast _ => forallb (λ t, match t with IntTy w _ => 0 <=? w | _ => true end) (result_types o)
    | _ => true
    end) (walk_module m).

Lemma int_const_written c w b : int_written c = true → int_const c = Some (w, b) → 0 ≤ b.
Proof. destruct c; [|done..]. cbn. intros H%Z.leb_le [= <- <-]. done. Qed.

Lemma ints_written_ok m : ints_written m = true → ints_ok m.
Proof.
  unfold ints_written. rewrite forallb_forall. setoid_rewrite <-list_elem_of_In. intros Hm v w b.
  destruct v as [v|]; [|done]. cbn [constant_of]. generalize (List.length (walk_module m)). intros fuel.
  revert v w b. induction fuel as [|fuel IH]; intros v w b; [done|]. cbn [constantInt].
  destruct (defining_op m v) as [d|] eqn:Ed; [|done]. destruct v as [i ?|]; [|done]. cbn in Ed.
  apply find_op_in in Ed as [Hd _]. specialize (Hm d Hd) as Hdm. destruct (op_kind d) eqn:Hk; try done.
  - by apply int_const_written.
  - destruct (load_addr d) as [a|]; [|done]. destruct (defining_op m a) as [gg|]; [|done].
    destruct (op_kind gg); try done. destruct volatile; [done|]. destruct (lookup_global m name) as [g|] eqn:Eg; [|done].
    unfold lookup_global in Eg. destruct (lookup_symbol m name) as [g'|] eqn:El; [|done].
    destruct (op_kind g') eqn:Hk'; try done.
    injection Eg as <-. rewrite Hk'. apply lookup_symbol_in in El as [Hg _]. specialize (Hm g' (module_in_walk m g' Hg)).
    rewrite Hk' in Hm. destruct (global_constant _); [|done]. destruct (initial_value _); [|done]. by apply int_const_written.
  - match goal with ck : cast_kind |- _ => destruct ck end; try done. destruct (operands d) as [|src ?]; [done|].
    destruct (type_of m src) as [[]|]; try done. destruct (result_types d) as [|[] ?]; try done.
    cbn in Hdm. apply andb_true_iff in Hdm as [Hw%Z.leb_le _].
    destruct (constantInt m fuel src) as [[w' b']|]; [|done].
    destruct signed; intros [= <- <-]; apply Z.mod_pos_bound; lia.
Qed.

(** ** The estimate is the greatest cost *)

(** C32: What the work estimate is.  Whatever was asked of the estimator
    before, an estimate with a bound is exactly the greatest number of units
    any run of the operation takes: over both arms of every branch, every
    early exit, every number of rounds up to a loop's trip count, and every
    function each call may reach, however calls nest; and an operation whose
    cost follows from trip counts, lengths and bodies known in the module,
    with calls nested at most [kMaxDepth] deep, always gets a bound, and
    that cost. *)
Theorem estimate_exact (m : module) (demangle : string → string) (typeSize : option ty → Z)
    (s s' : st) (o : operation) (sk : Skip) (e : estimate) :
  wf_ids m = true → ints_written m = true → (∀ t, 0 ≤ typeSize t) → asked m demangle typeSize s →
  op m demangle typeSize o sk s = (e, s') →
  (bounded e = true → greatest m demangle typeSize sk (IOp o) (units e)) ∧
  (∀ u, known m demangle typeSize kMaxDepth sk o = Some u → bounded e = true ∧ units e = u).
Proof.
  intros Hwf Hi Hsize Hs Ho. apply ints_written_ok in Hi.
  pose proof (top_ok m demangle typeSize Hwf sk o (nothing_demanded _ _ _ _) s (asked_valid _ _ _ Hwf s Hs)) as H.
  rewrite Ho in H. destruct H as (_ & _ & A & _ & C).
  assert (bounded e = true → greatest m demangle typeSize sk (IOp o) (units e)) as G.
  { intros Hb. destruct (A Hb) as [d Hd]. by eapply known_greatest. }
  split; [done|]. intros u Hu. assert (bounded e = true) as Hb by (apply C; unfold known in Hu; by rewrite Hu).
  split; [done|]. destruct (G Hb) as [G1 G2]. apply known_greatest in Hu as [U1 U2]; [|done..].
  apply Z.le_antisymm; auto.
Qed.

(** A function that divides, called from both arms of a branch in another
    which is called twice. *)
Section example.
Local Open Scope string_scope.
Definition i32 : ty := IntTy 32 true.
Definition ex_div : func := Func "divide" false true None None None 2.
Definition ex_branch : func := Func "branch" false true None None None 0.
Definition ex_main : func := Func "main" false true None None None 0.
Definition ex_call_of (id : nat) (f : string) : operation :=
  Op id "cir.call" "" (KCall (CallAttrs (Some f) false None)) [] [] [] [].
Definition ex_work : module :=
  [Op 0 "cir.func" "" (KFunc ex_div) [] [] []
     [[Block 0 [i32; i32] [Op 1 "cir.div" "" KOther [VArg 0 0; VArg 0 1] [i32] [] [];
                           Op 2 "cir.return" "" KReturn [VRes 1 0] [] [] []]]];
   Op 3 "cir.func" "" (KFunc ex_branch) [] [] []
     [[Block 1 [] [Op 4 "cir.if" "" KIf [] [] [] [[Block 2 [] [ex_call_of 5 "divide"; ex_call_of 6 "divide"]];
                                                  [Block 3 [] [ex_call_of 7 "divide"]]]]]];
   Op 8 "cir.func" "" (KFunc ex_main) [] [] [] [[Block 4 [] [ex_call_of 9 "branch"]]]].
End example.

Lemma estimate_exact_witness :
  greatest ex_work (λ n, n) (λ _, 0) no_skip (IOp (ex_call_of 9 "branch")) (8 * 83).
Proof.
  refine (proj1 (estimate_exact ex_work (λ n, n) (λ _, 0) st0 _ (ex_call_of 9 "branch") no_skip
    (Estimate (8 * 83) true None "") _ _ _ _ _) _).
  - vm_compute. reflexivity.
  - vm_compute. reflexivity.
  - intros _. reflexivity.
  - constructor.
  - vm_compute. reflexivity.
  - reflexivity.
Defined.
