(* ===== verification/Batch.v ===== *)
(** * Batch: runs of pushes and of critical sections
      (mlir/lib/WTC/Transforms/WTCBatchPushes.cpp)

    In a function marked WTC_BATCH, a loop that pushes to one queue on every
    iteration becomes one batched run, and a loop that takes and lets go of
    one mutex on every iteration holds it across the loop.  Both passes read
    the loop ([check]), decide, and rewrite: a begin before the loop, a
    deferred push or a step in it, an end after it.

    What a loop calls is judged by the blocking query (Blocking.v) with the
    batching's own refusals; the work between two sections by the estimate
    (WorkEstimate.v).  Parameters: the demangler's two answers, the ABI
    alignment of a type, and how many threads take a mutex (the thread
    walk's count).  Times are in thousandths of a nanosecond, where the code
    has doubles. *)

From stdpp Require Import base tactics list strings gmap.
From Stdlib Require Import String ZArith Lia.
From S2P Require Import Prelude Text Cir WtcOps Utils Asm Blocking Slots Loops LiftLower WorkEstimate.
Local Open Scope string_scope.
Local Open Scope nat_scope.

Module Batch.

(** ** Editing a module *)

(** Every operation replaced by a list of operations, what is nested in it
    first. *)
Fixpoint edit (f : operation → list operation) (o : operation) : operation :=
  match o with
  | Op i n loc k args results attrs rs =>
      Op i n loc k args results attrs
        (map (map (λ b, match b with Block bi ba ops => Block bi ba (flat_map (λ c, f (edit f c)) ops) end)) rs)
  end.

(** An operation at the top of a function's entry block. *)
Definition insert_top (slot o : operation) : operation :=
  match o with
  | Op i n loc k args results attrs ((Block bi ba ops :: bs) :: rs) =>
      Op i n loc k args results attrs ((Block bi ba (slot :: ops) :: bs) :: rs)
  | _ => o
  end.

(** A number no operation has. *)
Definition next_id (m : module) : nat := S (max_list (map op_id (walk_module m))).

(** ** What both passes read *)

(** [named]: an operation the representation has no kind of its own for. *)
Definition is_wtc (o : operation) : bool := match op_kind o with KWtc _ _ => true | _ => false end.
Definition isLoop (o : operation) : bool := match op_kind o with KFor | KLoop => true | _ => false end.
Definition named (n : string) (o : operation) : bool := match op_kind o with KOther => String.eqb (op_name o) n | _ => false end.
Definition is_scope (o : operation) : bool := match op_kind o with KScope | KCleanupScope => true | _ => false end.

Definition synchronises (o : operation) : bool :=
  if starts_with (op_name o) "cir.atomic" then true
  else match op_kind o with
  | KInlineAsm t =>
      match get_attr (op_attrs o) "constraints" with Some (AStr c) => contains c "~{memory}" | _ => false end
      || negb (onlyNonBlockingInstructions (text_of t) true)
  | KLoad volatile => volatile || has_attr o "mem_order"
  | KStore => has_attr o "is_volatile" || has_attr o "mem_order"
  | _ => false
  end.

(** Why an operation keeps its loop from being batched. *)
Record Refusal := Refuse { ref_at : operation; ref_why : string }.

Section batch.
Variable demangle : string → string.
(** [ItaniumPartialDemangler::getFunctionParameters]; nothing when the name
    is not a function's mangled name. *)
Variable functionParameters : string → option string.
Variable typeABIAlignment : ty → Z.

(** ** The legality of what a loop runs *)

Definition accepted_kinds (strict allocatorRunsCode : bool) : Z :=
  BlockingKinds (if allocatorRunsCode then (if strict then [] else [Sleeps])
                 else if strict then [Allocates] else [Allocates; Sleeps]).

(** The lambda [LegalityChecker] passes to the query. *)
Definition refuse_extra (o : operation) (inCallee : bool) : option site :=
  let refuse why := Some (Site o Refused why None false [] []) in
  if inCallee && is_wtc o then refuse "it acts on a queue or a mutex"
  else if synchronises o then refuse ("it synchronises (" ++ op_name o ++ ")")
  else None.

Definition site_words (registration : option string) (s : site) : string :=
  let name := match site_callee s with Some c => demangle (name_of_func c) | None => "" end in
  let default_words :=
    match site_callee s with
    | Some _ => if site_threading s then "it calls into the threading library (" ++ name ++ ")"
                else "it calls " ++ name ++ ", which may wait for another thread"
    | None => "it " ++ why s
    end in
  let words := match site_kind s with
    | Refused => why s
    | Throws => "it may throw"
    | MayThrow => "it calls " ++ name ++ ", which may throw"
    | UnknownTarget => "it makes an indirect call"
    | Allocates =>
        match registration with
        | Some reg =>
            "it calls " ++ (match site_callee s with Some _ => name | None => "the allocator" end) ++
            ", and the program registers code for the allocator to run (" ++ reg ++ ")"
        | None => default_words
        end
    | _ => default_words
    end in
  fold_right (λ f w, "it calls " ++ demangle (name_of_func f) ++ ", where " ++ w) words (via s).

Section on_module.
Variable m : module.

Definition registration : option string := allocatorCallbackRegistration demangle m.
Definition legal_kinds (strict : bool) : Z := accepted_kinds strict (is_some registration).

(** [LegalityChecker::op] *)
Definition legal_op (strict : bool) (o : operation) : Blocking.M (option Refusal) :=
  Blocking.bind (at_op demangle m (legal_kinds strict) (Some refuse_extra) o) (λ r, Blocking.ret (match r with
    | None => None
    | Some s => Some (Refuse (match chain s with c :: _ => c | [] => leaf s end) (site_words registration s))
    end)).

Definition enclosingLoop (o : operation) : option operation := List.find isLoop (rev (ancestors m (op_id o))).
Definition same (a : option operation) (b : operation) : bool :=
  match a with Some x => op_id x =? op_id b | None => false end.

(** The operations between [o] and the loop, innermost first. *)
Fixpoint up_to_loop (l : list operation) (loop : operation) : list operation :=
  match l with
  | [] => []
  | p :: l' => if op_id p =? op_id loop then [] else p :: up_to_loop l' loop
  end.
Definition between (loop o : operation) : list operation := up_to_loop (rev (ancestors m (op_id o))) loop.

(** The value a handle was cast from. *)
Definition handleSource (v : value) : value :=
  match defining_op m v with
  | Some c => match op_kind c, operands c with KUcc, s :: _ => s | _, _ => v end
  | None => v
  end.

Definition parent_of_def (v : value) : option operation :=
  match v with VRes i _ => parent_op m i | VArg b _ => option_map fst (block_owner m b) end.
Definition defined_in (loop : operation) (v : value) : bool :=
  match parent_of_def v with Some p => is_ancestor m loop (op_id p) | None => false end.
Definition get_global (v : value) : option string :=
  match defining_op m v with
  | Some d => match op_kind d with KGetGlobal n => Some n | _ => None end
  | None => None
  end.

Definition handleInvariant (loop : operation) (v : value) : bool :=
  let s := handleSource v in if negb (defined_in loop s) then true else is_some (get_global s).

Definition sameMutex (a b : value) : bool :=
  let a := handleSource a in
  let b := handleSource b in
  if bool_decide (a = b) then true
  else match get_global a, get_global b with Some x, Some y => String.eqb x y | _, _ => false end.

(** The operations that leave an iteration other than at its end or by a
    break. *)
Definition leaves_loop (o : operation) : bool :=
  match op_kind o with KReturn => true | _ => named "cir.goto" o || named "cir.label" o end.

(** The walk of a loop's body, interrupted at the first refusal; [own] is
    the pass's own refusal of an operation, tried first. *)
Fixpoint scan (strict : bool) (own : operation → option Refusal) (l : list operation) : Blocking.M (option Refusal) :=
  match l with
  | [] => Blocking.ret None
  | o :: l' =>
      match own o with
      | Some r => Blocking.ret (Some r)
      | None =>
          if is_wtc o || named "cir.break" o && strict then scan strict own l'
          else Blocking.bind (legal_op strict o) (λ r, match r with Some r => Blocking.ret (Some r) | None => scan strict own l' end)
      end
  end.

(** ** Batched pushes *)

Definition continue_refusal (what : string) (o : operation) : option Refusal :=
  if named "cir.continue" o then Some (Refuse o ("a continue skips " ++ what ++ " on some iterations"))
  else if leaves_loop o then Some (Refuse o "control can leave the loop other than at its end or a break")
  else None.

Definition not_a_scope (what : string) (l : list operation) : option Refusal :=
  match List.find (λ p, negb (is_scope p)) l with
  | Some p => Some (Refuse p (what ++ " on every iteration"))
  | None => None
  end.

(** [WTCBatchPushesPass::check], before its walk: the refusal, or the push. *)
Definition check_push (loop : operation) (wtcOps : list operation) : Refusal + operation :=
  match wtcOps with
  | [p] =>
      match op_kind p with
      | KWtc (QueuePushOp bounded _ _ _) _ =>
          if bounded then inl (Refuse p "the queue is bounded, and a run of pushes is not")
          else match not_a_scope "the push is not made" (between loop p) with
          | Some r => inl r
          | None =>
              if negb (match operands p with q :: _ => handleInvariant loop q | [] => false end)
              then inl (Refuse p "the loop may change which queue it pushes to")
              else match registration with
              | Some reg => inl (Refuse p ("a push may allocate, and the program registers code for the allocator to run (" ++ reg ++ ")"))
              | None => inr p
              end
          end
      | _ => inl (Refuse p "the loop acts on queues or mutexes other than through one push")
      end
  | _ => inl (Refuse (match wtcOps with _ :: o :: _ => o | _ => loop end) "the loop acts on queues or mutexes other than through one push")
  end.

Definition check (loop : operation) (wtcOps : list operation) : Blocking.M (Refusal + operation) :=
  match check_push loop wtcOps with
  | inl r => Blocking.ret (inl r)
  | inr p => Blocking.bind (scan false (continue_refusal "the push") (walk loop)) (λ r, Blocking.ret (match r with Some r => inl r | None => inr p end))
  end.

Inductive remark :=
| NotBatched (loop : operation) (why : string) (at_ : option operation)
| Batched (loop : operation).

Definition wtc_ops (loop : operation) : list operation := List.filter is_wtc (walk loop).

(** The loops of the marked functions, in the order of the walk. *)
Definition candidate_loops : list operation :=
  flat_map (λ f, if hasAnnotation (Some f) "wtc_batch" && negb (body_empty f) then List.filter isLoop (walk f) else [])
    (List.filter (λ o, is_some (as_func o)) (walk_module m)).

Definition refused (loop : operation) (r : Refusal) : remark :=
  NotBatched loop (ref_why r) (if op_id (ref_at r) =? op_id loop then None else Some (ref_at r)).

Definition is_push_op (o : operation) : bool := match op_kind o with KWtc (QueuePushOp _ _ _ _) _ => true | _ => false end.

(** The loops to batch, each with its push, and the remarks on the others. *)
Fixpoint collect (loops : list operation) : Blocking.M (list remark * list (operation * operation)) :=
  match loops with
  | [] => Blocking.ret ([], [])
  | loop :: loops' =>
      match wtc_ops loop with
      | [] => collect loops'
      | w :: ws =>
          if is_push_op w && negb (same (enclosingLoop w) loop) then collect loops'
          else Blocking.bind (check loop (w :: ws)) (λ r, Blocking.bind (collect loops') (λ '(rs, todo), Blocking.ret (match r with
            | inl r => (refused loop r :: rs, todo)
            | inr p => (rs, (loop, p) :: todo)
            end)))
      end
  end.

Definition takesRvalue (f : operation) : bool :=
  match functionParameters (name_of_func f) with Some p => ends_with p "&&)" | None => false end.

Definition argument_types (f : operation) : list ty :=
  match get_attr (op_attrs f) "function_type" with Some (ATypes l) => l | _ => [] end.
Definition getNumArguments (f : operation) : nat := match as_func f with Some x => num_arguments x | None => 0 end.

Definition shimFunction (annotation : string) (queuePtr : ty) (rvalue : option bool) : option operation :=
  List.find (λ f, is_some (as_func f) && hasAnnotation (Some f) annotation && negb (getNumArguments f =? 0)
      && bool_decide (head (argument_types f) = Some queuePtr)
      && match rvalue with Some b => Bool.eqb (takesRvalue f) b | None => true end)
    (walk_module m).

(** ** The rewriting *)

(** Where a loop's handle can be used outside it: the operations before
    the loop that bring it there, numbered from [n], and the handle.
    [None]: the handle's source is in the loop and is no global's address,
    and the code dereferences null. *)
Definition outer_handle (loop : operation) (inner : value) (n : nat) : option (list operation * value) :=
  match defining_op m inner with
  | Some c =>
      match op_kind c, operands c with
      | KUcc, src :: _ =>
          if is_ancestor m loop (op_id c) then
            let cast src' := ucc (S n) (op_loc loop) (default VoidTy (type_of m inner)) src' in
            match defining_op m src with
            | Some d =>
                if is_ancestor m loop (op_id d) then
                  match op_kind d with
                  | KGetGlobal g => Some ([Op n (op_name d) (op_loc d) (KGetGlobal g) (operands d) (result_types d) (op_attrs d) []; cast (VRes n 0)], VRes (S n) 0)
                  | _ => None
                  end
                else Some ([cast src], VRes (S n) 0)
            | None => Some ([cast src], VRes (S n) 0)
            end
          else Some ([], inner)
      | _, _ => Some ([], inner)
      end
  | None => Some ([], inner)
  end.

(** A new operation of the dialect. *)
Definition create (i : nat) (loc : string) (w : wtc_op) (args : list value) (fallback : operation) (sourceType : ty) : operation :=
  Op i (wtc_name w) loc (KWtc w (WtcAttrs (Some (name_of_func fallback)) (Some sourceType) None None None None)) args [] [] [].

Definition alloca (i : nat) (loc : string) (t : ty) (name : string) (align : Z) : operation :=
  Op i "cir.alloca" loc KAlloca [] [t] [("name", AStr name); ("alignment", AInt align)] [].

(** Around the loop, and in place of [replaced] and [erased]. *)
Definition around (loop : operation) (pre post : list operation) (replaced : operation) (by_ : list operation)
    (erased : list nat) (o : operation) : list operation :=
  if op_id o =? op_id loop then (pre ++ [o] ++ post)%list
  else if op_id o =? op_id replaced then by_
  else if bool_decide (op_id o ∈ erased) then [] else [o].

Definition rewritten (loop slot : operation) (f : operation → list operation) : module :=
  map (λ o, let o' := edit f o in if same (enclosing_func m (op_id loop)) o then insert_top slot o' else o') m.

Inductive result_of :=
| Failed (why : string)
| NullDereference
| Unchanged (why : string)
| Changed (m' : module).

Definition batch_align (batchPtr : ty) : Z :=
  match batchPtr with PtrTy (RecordTy n) => Z.max 8 (typeABIAlignment (RecordTy n)) | _ => 8 end.

(** [WTCBatchPushesPass::rewrite] *)
Definition rewrite (loop push : operation) : result_of :=
  match op_kind push, operands push with
  | KWtc _ a, inner :: v :: _ =>
      match source_type a with
      | None => Failed "wtc: a push to batch carries no source type"
      | Some queuePtr =>
          let pushFn := match fallback_impl a with Some n => lookup_func m n | None => None end in
          let byRvalue := match pushFn with Some f => takesRvalue f | None => false end in
          match shimFunction "wtc_queue_batch_begin" queuePtr None, shimFunction "wtc_queue_push_deferred" queuePtr (Some byRvalue),
                shimFunction "wtc_queue_batch_end" queuePtr None with
          | Some begin, Some deferred, Some end_ =>
              match argument_types begin with
              | [_; batchPtr] =>
                  let n := next_id m in
                  let slot := alloca n (op_loc loop) batchPtr "wtc.batch" (batch_align batchPtr) in
                  match outer_handle loop inner (n + 1) with
                  | None => NullDereference
                  | Some (pre, outer) =>
                  let make i loc w args f := create (n + i) loc w args f queuePtr in
                  let begin_op := make 3 (op_loc loop) QueueBatchBeginOp [outer; result slot] begin in
                  let deferred_op := make 4 (op_loc push) QueuePushDeferredOp [inner; result slot; v] deferred in
                  let end_op := make 5 (op_loc loop) QueueBatchEndOp [outer; result slot] end_ in
                  Changed (rewritten loop slot (around loop (pre ++ [begin_op])%list [end_op] push [deferred_op] []))
                  end
              | _ => Unchanged "the shim's batch functions for this queue are not in the module"
              end
          | _, _, _ => Unchanged "the shim's batch functions for this queue are not in the module"
          end
      end
  | _, _ => Failed ""
  end.

(** ** Batched critical sections *)

Definition is_lock (o : operation) : bool := match op_kind o with KWtc LockOp _ => true | _ => false end.
Definition is_unlock (o : operation) : bool := match op_kind o with KWtc UnlockOp _ => true | _ => false end.

(** The lock and the unlock of a loop, when it has no other operation of
    the dialect; [lock] and [unlock] are those met so far. *)
Fixpoint lock_and_unlock (l : list operation) (lock unlock : option operation) : Refusal + (option operation * option operation) :=
  match l with
  | [] => inr (lock, unlock)
  | o :: l' =>
      if is_lock o && negb (is_some lock) then lock_and_unlock l' (Some o) unlock
      else if is_unlock o && negb (is_some unlock) then lock_and_unlock l' lock (Some o)
      else inl (Refuse o "the loop acts on queues or mutexes other than through one lock and one unlock")
  end.

Definition mutex_of (o : operation) : option value := head (operands o).
Definition block_number (o : operation) : option nat := option_map block_id (block_of m (op_id o)).

(** A break inside the critical section. *)
Definition breaks_section (lock unlock : operation) (o : operation) : option Refusal :=
  if negb (named "cir.break" o) then None
  else match block_number lock with
  | None => None
  | Some b =>
      match findAncestorOpInBlock m b o with
      | Some at_ => if isBeforeInBlock m lock at_ && isBeforeInBlock m at_ unlock
                    then Some (Refuse o "a break between the lock and the unlock leaves with the mutex held") else None
      | None => None
      end
  end.

(** [WTCBatchLocksPass::check], before its walk. *)
Definition check_section (loop : operation) (wtcOps : list operation) : Refusal + (operation * operation) :=
  match lock_and_unlock wtcOps None None with
  | inl r => inl r
  | inr (None, _) => inl (Refuse loop "")
  | inr (Some lock, None) => inl (Refuse lock "the loop takes the mutex and does not let it go")
  | inr (Some lock, Some unlock) =>
      match mutex_of lock, mutex_of unlock with
      | Some a, Some b =>
          if negb (sameMutex a b) then inl (Refuse unlock "the loop lets go of a different mutex than it takes")
          else if negb (handleInvariant loop a) then inl (Refuse lock "the loop may change which mutex it takes")
          else if negb (bool_decide (block_number lock = block_number unlock)) || negb (isBeforeInBlock m lock unlock)
          then inl (Refuse unlock "the unlock does not follow the lock in the same block")
          else match not_a_scope "the critical section is not entered" (between loop lock) with
          | Some r => inl r
          | None => inr (lock, unlock)
          end
      | _, _ => inl (Refuse lock "")
      end
  end.

Definition own_refusal (lock unlock : operation) (o : operation) : option Refusal :=
  match continue_refusal "the critical section" o with
  | Some r => Some r
  | None => breaks_section lock unlock o
  end.

Definition check_locks (loop : operation) (wtcOps : list operation) : Blocking.M (Refusal + operation * operation) :=
  match check_section loop wtcOps with
  | inl r => Blocking.ret (inl r)
  | inr (lock, unlock) =>
      Blocking.bind (scan true (own_refusal lock unlock) (walk loop)) (λ r,
        Blocking.ret (match r with Some r => inl r | None => inr (lock, unlock) end))
  end.

(** *** The cost model

    Times in thousandths of a nanosecond. *)

Record HostClass := Host { host_name : string; nsPerUnit : Z; twoThreadsNs : Z; fourToEightNs : Z }.
Definition kHosts : list HostClass :=
  [Host "sapphire-rapids" 148 180000 275000; Host "cascade-lake" 122 200000 70000]%Z.

(** The pass's options; zero for those not given. *)
Record options := Options { cost : string; host : string; ns_per_unit : Z; threshold_ns : Z }.

(** The words a verdict ends with: the threshold it was held against. *)
Inductive against :=
| GivenThreshold (t : Z)
| AnyThreads (t : Z)
| OneThread
| NotCounted (t : Z)
| Counted (t : Z) (threads : nat)
| NotMeasured (t : Z) (threads : nat).
Record CostVerdict := Cost { cv_batch : bool; cv_words : against; cv_at : option operation }.

Definition in_section (lock unlock : operation) (o : operation) : bool :=
  bool_decide (block_number o = block_number lock) && negb (isBeforeInBlock m o lock) && negb (isBeforeInBlock m unlock o).

(** Whether the estimate is at most [t]: a unit is eight eighths. *)
Definition under (e : estimate) (per_unit t : Z) : bool := bounded e && (units e * per_unit <=? 8 * t)%Z.

(** [WTCBatchLocksPass::decide], from the estimate of an iteration without
    its section; [threads]: how many take the mutex. *)
Definition decide_cost (h : HostClass) (opt : options) (e : estimate) (threads : option nat) : CostVerdict :=
  let per_unit := if (0 <? ns_per_unit opt)%Z then ns_per_unit opt else nsPerUnit h in
  let verdict t words := if under e per_unit t then Cost true words None else Cost false words (est_at e) in
  if (0 <? threshold_ns opt)%Z then verdict (threshold_ns opt) (GivenThreshold (threshold_ns opt))
  else
    let lowest := Z.min (twoThreadsNs h) (fourToEightNs h) in
    if under e per_unit lowest then Cost true (AnyThreads lowest) None
    else match threads with
    | None => verdict lowest (NotCounted lowest)
    | Some n =>
        if n <=? 1 then Cost true OneThread None
        else if n =? 2 then verdict (twoThreadsNs h) (Counted (twoThreadsNs h) n)
        else if (4 <=? n) && (n <=? 8) then verdict (fourToEightNs h) (Counted (fourToEightNs h) n)
        else verdict lowest (NotMeasured lowest n)
    end.

(** [WTCBatchLocksPass::rewrite] *)
Definition rewrite_locks (loop lock unlock : operation) : result_of :=
  match op_kind lock, mutex_of lock, mutex_of unlock with
  | KWtc _ a, Some inner, Some inner' =>
      match source_type a with
      | None => Failed "wtc: a lock to batch carries no source type"
      | Some mutexPtr =>
          match shimFunction "wtc_mutex_batch_begin" mutexPtr None, shimFunction "wtc_mutex_batch_step" mutexPtr None,
                shimFunction "wtc_mutex_batch_end" mutexPtr None with
          | Some begin, Some step, Some end_ =>
              match argument_types begin with
              | [_; batchPtr] =>
                  let n := next_id m in
                  let slot := alloca n (op_loc loop) batchPtr "wtc.lock_batch" 4 in
                  match outer_handle loop inner (n + 1) with
                  | None => NullDereference
                  | Some (pre, outer) =>
                  let make i loc w args f := create (n + i) loc w args f mutexPtr in
                  let begin_op := make 3 (op_loc loop) LockBatchBeginOp [outer; result slot] begin in
                  let step_op := make 4 (op_loc unlock) LockBatchStepOp [inner'; result slot] step in
                  let end_op := make 5 (op_loc loop) LockBatchEndOp [outer; result slot] end_ in
                  Changed (rewritten loop slot (around loop (pre ++ [begin_op])%list [end_op] unlock [step_op] [op_id lock]))
                  end
              | _ => Unchanged "the shim's batch functions for this mutex are not in the module"
              end
          | _, _, _ => Unchanged "the shim's batch functions for this mutex are not in the module"
          end
      end
  | _, _, _ => Failed ""
  end.

(** [threads]: the count for a mutex that is a global of this name. *)
Definition decide (typeSize : option ty → Z) (threads : string → option nat) (h : HostClass) (opt : options) (loop lock unlock : operation)
    : WorkEstimate.M CostVerdict :=
  WorkEstimate.bind (iteration m demangle typeSize loop (in_section lock unlock)) (λ e,
    WorkEstimate.ret (decide_cost h opt e
      (match option_map handleSource (mutex_of lock) with
       | Some s => match get_global s with Some n => threads n | None => None end
       | None => None
       end))).

Inductive lock_remark :=
| NotBatchedLocks (loop : operation) (why : string) (at_ : option operation)
| TooCostly (loop : operation) (words : against) (at_ : option operation).

Definition locks_refused (loop : operation) (r : Refusal) : lock_remark :=
  NotBatchedLocks loop (ref_why r) (if op_id (ref_at r) =? op_id loop then None else Some (ref_at r)).

(** The loops to batch, each with its lock, its unlock and the verdict on
    its cost, and the remarks on the others. *)
Fixpoint collect_locks (typeSize : option ty → Z) (threads : string → option nat) (h : HostClass) (opt : options)
    (loops : list operation) (q : query) (w : WorkEstimate.st)
    : option (list lock_remark * list (operation * operation * operation * option against)) :=
  match loops with
  | [] => Some ([], [])
  | loop :: loops' =>
      let ops := wtc_ops loop in
      let next := collect_locks typeSize threads h opt loops' in
      let remark r l := match l with Some (rs, todo) => Some (r :: rs, todo) | None => None end in
      match List.find is_lock ops with
      | None => next q w
      | Some lock =>
          if negb (same (enclosingLoop lock) loop) then next q w
          else match check_locks loop ops q with
          | None => None
          | Some (inl r, q') => remark (locks_refused loop r) (next q' w)
          | Some (inr (lock, unlock), q') =>
              let add v l := match l with Some (rs, todo) => Some (rs, (loop, lock, unlock, v) :: todo) | None => None end in
              if String.eqb (cost opt) "estimate" then
                let '(v, w') := decide typeSize threads h opt loop lock unlock w in
                if cv_batch v then add (Some (cv_words v)) (next q' w')
                else remark (TooCostly loop (cv_words v)
                       (match cv_at v with Some o => if op_id o =? op_id loop then None else Some o | None => None end)) (next q' w')
              else add None (next q' w)
          end
      end
  end.
End on_module.

(** ** The passes: the module they leave, and whether they fail *)

(** The rewritings, one loop after another. *)
Fixpoint rewrite_all {A} (rw : module → A → result_of) (todo : list A) (m : module) : module * bool :=
  match todo with
  | [] => (m, false)
  | x :: todo' =>
      match rw m x with
      | Failed _ | NullDereference => (m, true)
      | Unchanged _ => rewrite_all rw todo' m
      | Changed m' => rewrite_all rw todo' m'
      end
  end.

Definition batch_pushes (m : module) : option (list remark * module * bool) :=
  match collect m (candidate_loops m) query0 with
  | Some ((rs, todo), _) =>
      let '(m', failed) := rewrite_all (λ m' '(loop, push), rewrite m' loop push) todo m in Some (rs, m', failed)
  | None => None
  end.

(** An option the pass does not know is an error. *)
Definition batch_locks (typeSize : option ty → Z) (threads : string → option nat) (opt : options) (m : module)
    : option (list lock_remark * module * bool) :=
  if negb (String.eqb (cost opt) "estimate" || String.eqb (cost opt) "off") then Some ([], m, true)
  else match List.find (λ h, String.eqb (host opt) (host_name h)) kHosts with
  | None => Some ([], m, true)
  | Some h =>
      match collect_locks m typeSize threads h opt (candidate_loops m) query0 st0 with
      | Some (rs, todo) =>
          let '(m', failed) := rewrite_all (λ m' '(loop, lock, unlock, _), rewrite_locks m' loop lock unlock) todo m in Some (rs, m', failed)
      | None => None
      end
  end.
End batch.
End Batch.
