(* ===== verification/Frames.v ===== *)
(** * Frames: where an operation sits

    [path_to] and [frames_of] compute the frames from the top of a module
    down to an operation; [sits] is the relation they decide, when distinct
    operations have distinct numbers.  Then the queries made of them:
    [block_of], [findAncestorOpInBlock], [isBeforeInBlock]. *)

From stdpp Require Import base tactics list strings.
From Stdlib Require Import String ZArith Lia.
From S2P Require Import Prelude Text Cir Utils.
Local Open Scope list_scope.

Module Frames.

(** The frames from an operation down to one nested in it. *)
Inductive sits : operation → list frame → operation → Prop :=
| sits_here o : sits o [] o
| sits_in o k r b c fs p :
    regions o !! k = Some r → b ∈ r → c ∈ block_ops b → sits c fs p → sits o (Frame o k b :: fs) p.

Lemma in_children o k r b c : regions o !! k = Some r → b ∈ r → c ∈ block_ops b → c ∈ children o.
Proof.
  intros Hr Hb Hc. unfold children. apply elem_of_concat. exists (block_ops b). split; [done|]. apply list_elem_of_fmap_2.
  apply elem_of_concat. exists r. split; [done|]. by eapply list_elem_of_lookup_2.
Qed.

Lemma children_in o c : c ∈ children o → ∃ k r b, regions o !! k = Some r ∧ b ∈ r ∧ c ∈ block_ops b.
Proof.
  unfold children. intros (l & Hc & (b & -> & Hb)%list_elem_of_fmap)%elem_of_concat. apply elem_of_concat in Hb as (r & Hb & [k Hr]%list_elem_of_lookup). eauto 6.
Qed.

Lemma sits_walk o fs p : sits o fs p → p ∈ walk o.
Proof.
  induction 1 as [o|o k r b c fs p Hr Hb Hc _ IH]; [apply walk_self|]. rewrite walk_children. apply elem_of_app. left.
  apply elem_of_flat_map. exists c. split; [by eapply in_children|done].
Qed.

Lemma walk_sits o : ∀ p, p ∈ walk o → ∃ fs, sits o fs p.
Proof.
  induction o as [o IH] using operation_nested_ind. intros p Hp. rewrite walk_children in Hp. apply elem_of_app in Hp as [Hp|Hp].
  - apply elem_of_flat_map in Hp as (c & Hc & Hp). rewrite Forall_forall in IH. destruct (IH c Hc p Hp) as [fs Hfs].
    apply children_in in Hc as (k & r & b & Hr & Hb & Hc). exists (Frame o k b :: fs). by econstructor.
  - apply list_elem_of_singleton in Hp as ->. exists []. constructor.
Qed.

Lemma sits_app o fs p fs' q : sits o fs p → sits p fs' q → sits o (fs ++ fs') q.
Proof. induction 1 as [o|o k r b c fs p Hr Hb Hc _ IH]; intros H; simpl; [done|]. econstructor; eauto. Qed.

(** ** The computed path *)

Lemma first_some_in {A B} (f : A → option B) l y : first_some f l = Some y → ∃ x, x ∈ l ∧ f x = Some y.
Proof.
  induction l as [|x l IH]; simpl; [done|]. destruct (f x) eqn:E; [intros [= ->]; exists x; split; [left|done]|].
  intros H. destruct (IH H) as (x' & Hx & Hf). exists x'. split; [by right|done].
Qed.

Lemma first_some_all {A B} (f : A → option B) l : first_some f l = None → ∀ x, x ∈ l → f x = None.
Proof.
  induction l as [|y l IH]; simpl; [intros _ x Hx; by apply elem_of_nil in Hx|]. destruct (f y) eqn:E; [done|].
  intros H x [->|Hx]%elem_of_cons; auto.
Qed.

(** What [path_to] looks for in the regions from number [k] on. *)
Fixpoint path_in (i : nat) (o : operation) (k : nat) (l : list (list block)) : option (list frame) :=
  match l with
  | [] => None
  | r :: l' =>
      match first_some (λ b, option_map (cons (Frame o k b)) (first_some (path_to i) (block_ops b))) r with
      | Some p => Some p
      | None => path_in i o (S k) l'
      end
  end.

Lemma path_to_unfold i o : path_to i o = if (op_id o =? i)%nat then Some [] else path_in i o 0 (regions o).
Proof.
  destruct o as [j n loc k args results attrs rs]. cbn [path_to op_id regions]. destruct (j =? i)%nat; [done|]. generalize 0%nat as z.
  set (o := Op j n loc k args results attrs rs). clearbody o. induction rs as [|r rs IH]; intros z; cbn [path_in]; [done|].
  assert (∀ g h, (∀ b : block, g b = h b) → first_some g r = first_some h r :> option (list frame)) as Hext.
  { intros g h Hgh. induction r as [|b r IHr]; simpl; [done|]. by rewrite Hgh, IHr. }
  rewrite (Hext _ (λ b, option_map (cons (Frame o z b)) (first_some (path_to i) (block_ops b)))); [|by intros []]. by rewrite IH.
Qed.

Lemma path_in_some i o k l fs : path_in i o k l = Some fs → ∃ j r b fs' c, l !! j = Some r ∧ b ∈ r ∧ c ∈ block_ops b ∧ path_to i c = Some fs' ∧ fs = Frame o (k + j) b :: fs'.
Proof.
  revert k. induction l as [|r l IH]; intros k; cbn [path_in]; [done|].
  destruct (first_some _ r) as [p|] eqn:E; [intros [= ->]|intros H].
  - apply first_some_in in E as (b & Hb & E). destruct (first_some (path_to i) (block_ops b)) as [fs'|] eqn:E'; [|done]. injection E as <-.
    apply first_some_in in E' as (c & Hc & E'). exists 0%nat, r, b, fs', c. rewrite Nat.add_0_r. done.
  - destruct (IH _ H) as (j & r' & b & fs' & c & Hj & ?). exists (S j), r', b, fs', c. by rewrite <-Nat.add_succ_comm.
Qed.

Lemma path_in_none i o k l : path_in i o k l = None → ∀ r b c, r ∈ l → b ∈ r → c ∈ block_ops b → path_to i c = None.
Proof.
  revert k. induction l as [|r l IH]; intros k; cbn [path_in]; [intros _ r b c Hr; by apply elem_of_nil in Hr|].
  destruct (first_some _ r) as [p|] eqn:E; [done|]. intros H r' b c [->|Hr]%elem_of_cons Hb Hc; [|by eapply IH].
  pose proof (first_some_all _ _ E b Hb) as Eb. simpl in Eb. destruct (first_some (path_to i) (block_ops b)) eqn:E'; [done|]. by eapply first_some_all.
Qed.

Lemma path_to_sits i o : ∀ fs, path_to i o = Some fs → ∃ p, sits o fs p ∧ op_id p = i.
Proof.
  induction o as [o IH] using operation_nested_ind. intros fs. rewrite path_to_unfold. destruct (Nat.eqb_spec (op_id o) i) as [E|].
  - intros [= <-]. exists o. split; [constructor|done].
  - intros (j & r & b & fs' & c & Hj & Hb & Hc & Hp & ->)%path_in_some. rewrite Forall_forall in IH.
    destruct (IH c (in_children _ _ _ _ _ Hj Hb Hc) _ Hp) as (p & Hs & Hi). exists p. split; [|done]. by econstructor.
Qed.

Lemma path_to_found i o : ∀ p, p ∈ walk o → op_id p = i → path_to i o ≠ None.
Proof.
  induction o as [o IH] using operation_nested_ind. intros p Hp Hi. rewrite path_to_unfold. destruct (Nat.eqb_spec (op_id o) i) as [|Hne]; [done|].
  rewrite walk_children in Hp. apply elem_of_app in Hp as [Hp|Hp]; [|by apply list_elem_of_singleton in Hp as ->].
  apply elem_of_flat_map in Hp as (c & Hc & Hp). rewrite Forall_forall in IH. intros E. apply (IH c Hc p Hp Hi).
  apply children_in in Hc as (k & r & b & Hr & Hb & Hc). eapply path_in_none; [done|by eapply list_elem_of_lookup_2|done|done].
Qed.

(** ** Distinct numbers: one path *)

Definition ids (o : operation) : list nat := map op_id (walk o).
Definition block_ids (b : block) : list nat := flat_map ids (block_ops b).
Definition region_ids (r : list block) : list nat := flat_map block_ids r.

Lemma ids_unfold o : ids o = flat_map region_ids (regions o) ++ [op_id o].
Proof.
  unfold ids. rewrite walk_children, map_app. f_equal. unfold children. induction (regions o) as [|r rs IH]; simpl; [done|].
  rewrite map_app, concat_app, flat_map_app, map_app, IH. f_equal. clear IH. unfold region_ids. induction r as [|b r IH]; simpl; [done|].
  rewrite flat_map_app, map_app, IH. f_equal. unfold block_ids. induction (block_ops b) as [|c l IHl]; simpl; [done|]. by rewrite map_app, IHl.
Qed.

Lemma in_ids o p : p ∈ walk o → op_id p ∈ ids o.
Proof. apply list_elem_of_fmap_2. Qed.

Lemma nodup_index {A} (f : A → list nat) l : NoDup (flat_map f l) → ∀ i j a b x, l !! i = Some a → l !! j = Some b → x ∈ f a → x ∈ f b → i = j.
Proof.
  induction l as [|c l IH]; intros Hnd i j a b x Hi Hj Ha Hb; [done|]. simpl in Hnd. apply NoDup_app in Hnd as (_ & Hd & Hnd).
  assert (∀ k y, l !! k = Some y → x ∈ f y → x ∈ flat_map f l) as Hin.
  { intros k y Hk Hy. apply elem_of_flat_map. exists y. split; [by eapply list_elem_of_lookup_2|done]. }
  destruct i as [|i], j as [|j]; simpl in *; simplify_eq; [done| | |f_equal; by eapply IH].
  - by destruct (Hd x Ha); eapply Hin.
  - by destruct (Hd x Hb); eapply Hin.
Qed.

Lemma nodup_elem {A} (f : A → list nat) l a b x : NoDup (flat_map f l) → a ∈ l → b ∈ l → x ∈ f a → x ∈ f b → a = b.
Proof.
  intros Hnd [i Hi]%list_elem_of_lookup [j Hj]%list_elem_of_lookup Ha Hb. pose proof (nodup_index f l Hnd i j a b x Hi Hj Ha Hb) as ->. congruence.
Qed.

Lemma nodup_part {A} (f : A → list nat) l a : NoDup (flat_map f l) → a ∈ l → NoDup (f a).
Proof.
  induction l as [|c l IH]; intros Hnd Ha; [by apply elem_of_nil in Ha|]. simpl in Hnd. apply NoDup_app in Hnd as (H1 & _ & H2).
  apply elem_of_cons in Ha as [->|Ha]; auto.
Qed.

Lemma sits_unique o fs p fs' p' : NoDup (ids o) → sits o fs p → sits o fs' p' → op_id p = op_id p' → fs = fs' ∧ p = p'.
Proof.
  intros Hnd H. revert fs' p' Hnd. induction H as [o|o k r b c fs p Hr Hb Hc Hs IH]; intros fs' p' Hnd H' E; rewrite ids_unfold in Hnd;
    apply NoDup_app in Hnd as (Hnd & Hd & _).
  - inversion H' as [|? k r b c fs p Hr Hb Hc Hs]; subst; [done|]. exfalso. apply (Hd (op_id p')); [|rewrite <-E; left].
    apply elem_of_flat_map. exists r. split; [by eapply list_elem_of_lookup_2|]. apply elem_of_flat_map. exists b. split; [done|].
    apply elem_of_flat_map. exists c. split; [done|]. by eapply in_ids, sits_walk.
  - inversion H' as [|? k' r' b' c' fs1 p1 Hr' Hb' Hc' Hs']; subst.
    + exfalso. apply (Hd (op_id p)); [|rewrite E; left]. apply elem_of_flat_map. exists r. split; [by eapply list_elem_of_lookup_2|].
      apply elem_of_flat_map. exists b. split; [done|]. apply elem_of_flat_map. exists c. split; [done|]. by eapply in_ids, sits_walk.
    + assert (op_id p ∈ ids c) as Hpc by by eapply in_ids, sits_walk. assert (op_id p ∈ ids c') as Hpc' by (rewrite E; by eapply in_ids, sits_walk).
      assert (op_id p ∈ block_ids b) as Hpb by (apply elem_of_flat_map; by exists c). assert (op_id p ∈ block_ids b') as Hpb' by (apply elem_of_flat_map; by exists c').
      assert (op_id p ∈ region_ids r) as Hpr by (apply elem_of_flat_map; by exists b). assert (op_id p ∈ region_ids r') as Hpr' by (apply elem_of_flat_map; by exists b').
      pose proof (nodup_index region_ids _ Hnd k k' r r' _ Hr Hr' Hpr Hpr') as <-. assert (r' = r) as -> by congruence.
      assert (NoDup (region_ids r)) as Hnr by (eapply nodup_part; [exact Hnd|by eapply list_elem_of_lookup_2]).
      pose proof (nodup_elem block_ids r b b' _ Hnr Hb Hb' Hpb Hpb') as <-. pose proof (nodup_part block_ids r b Hnr Hb) as Hnb.
      pose proof (nodup_elem ids _ c c' _ Hnb Hc Hc' Hpc Hpc') as <-. destruct (IH fs1 p') as [-> ->]; [by eapply nodup_part|done..].
Qed.

Section module.
Context (m : module) (Hwf : wf_ids m = true).

Lemma module_ids : NoDup (flat_map ids m).
Proof.
  assert (∀ l, flat_map ids l = map op_id (flat_map walk l)) as ->.
  { induction l as [|o l IH]; simpl; [done|]. by rewrite map_app, IH. }
  unfold wf_ids in Hwf. by rewrite bool_decide_eq_true in Hwf.
Qed.

(** The frames of an operation of the module are those it sits under. *)
Lemma frames_of_sits g fs p : g ∈ m → sits g fs p → frames_of m (op_id p) = fs.
Proof.
  intros Hg Hs. unfold frames_of. pose proof module_ids as Hnd.
  destruct (first_some (path_to (op_id p)) m) as [fs'|] eqn:E.
  - apply first_some_in in E as (g' & Hg' & E). apply path_to_sits in E as (p' & Hs' & Hi).
    assert (g = g') as <- by (eapply (nodup_elem ids m); [exact Hnd|done|done|by eapply in_ids, sits_walk|rewrite <-Hi; by eapply in_ids, sits_walk]).
    destruct (sits_unique g fs p fs' p') as [-> _]; [by eapply nodup_part|done..].
  - exfalso. pose proof (first_some_all _ _ E g Hg) as En. by apply (path_to_found (op_id p) g p (sits_walk _ _ _ Hs)) in En.
Qed.

Lemma in_module_sits p : p ∈ walk_module m → ∃ g fs, g ∈ m ∧ sits g fs p.
Proof. intros (g & Hg & Hp)%elem_of_flat_map. destruct (walk_sits g p Hp) as [fs Hs]. eauto. Qed.

(** An operation nested in another: the frames of the one begin with those
    of the other. *)
Lemma frames_nested o fs p : o ∈ walk_module m → sits o fs p → frames_of m (op_id p) = frames_of m (op_id o) ++ fs.
Proof.
  intros (g & fs0 & Hg & Hs0)%in_module_sits Hs. rewrite (frames_of_sits g fs0 o Hg Hs0). by apply (frames_of_sits g), (sits_app _ _ o).
Qed.

(** ** The block of an operation *)

Lemma block_of_in o k r b c : o ∈ walk_module m → regions o !! k = Some r → b ∈ r → c ∈ block_ops b → block_of m (op_id c) = Some b.
Proof.
  intros Ho Hr Hb Hc. unfold block_of. rewrite (frames_nested o [Frame o k b] c Ho), last_snoc; [done|]. econstructor; [done..|constructor].
Qed.

Lemma walk_module_child o c : o ∈ walk_module m → c ∈ children o → c ∈ walk_module m.
Proof. intros Ho Hc. eapply walk_module_trans; [done|]. rewrite walk_children. apply elem_of_app. left. apply elem_of_flat_map. exists c. split; [done|apply walk_self]. Qed.

Lemma op_nodup o : o ∈ walk_module m → NoDup (ids o).
Proof.
  intros (g & fs & Hg & Hs)%in_module_sits. pose proof (nodup_part ids m g module_ids Hg) as Hnd. clear Hg. revert Hnd.
  induction Hs as [o|g k r b c fs p Hr Hb Hc _ IH]; intros Hnd; [done|]. rewrite ids_unfold in Hnd. apply NoDup_app in Hnd as (Hnd & _ & _).
  assert (NoDup (region_ids r)) as Hnr by (eapply nodup_part; [exact Hnd|by eapply list_elem_of_lookup_2]).
  apply IH. eapply (nodup_part ids); [|exact Hc]. by apply (nodup_part block_ids r).
Qed.

Lemma block_ids_nodup o k r b : o ∈ walk_module m → regions o !! k = Some r → b ∈ r → NoDup (block_ids b).
Proof.
  intros Ho%op_nodup Hr Hb. rewrite ids_unfold in Ho. apply NoDup_app in Ho as (Ho & _ & _).
  eapply (nodup_part block_ids r); [|done]. eapply (nodup_part region_ids); [exact Ho|by eapply list_elem_of_lookup_2].
Qed.

(** The operations of a block that hold one operation are one. *)
Lemma block_elem o k r b c d p : o ∈ walk_module m → regions o !! k = Some r → b ∈ r → c ∈ block_ops b → d ∈ block_ops b → p ∈ walk c → p ∈ walk d → c = d.
Proof.
  intros Ho Hr Hb Hc Hd Hpc Hpd. apply (nodup_elem ids (block_ops b) c d (op_id p)); [by eapply block_ids_nodup|done|done|by apply in_ids..].
Qed.

Lemma block_nodup o k r b : o ∈ walk_module m → regions o !! k = Some r → b ∈ r → NoDup (map op_id (block_ops b)).
Proof.
  intros Ho Hr Hb. pose proof (block_ids_nodup o k r b Ho Hr Hb) as Hnd. unfold block_ids in Hnd. revert Hnd.
  induction (block_ops b) as [|c l IH]; simpl; intros Hnd; [constructor|]. apply NoDup_app in Hnd as (_ & Hd & Hnd). constructor; [|by apply IH].
  intros (d & E & Hd')%list_elem_of_fmap. apply (Hd (op_id c)); [apply in_ids, walk_self|]. apply elem_of_flat_map. exists d. split; [done|]. rewrite E. apply in_ids, walk_self.
Qed.

(** One operation before another in a list. *)
Lemma before_in_split l i j : before_in l i j = true → ∃ l1 o l2 p l3, l = l1 ++ o :: l2 ++ p :: l3 ∧ op_id o = i ∧ op_id p = j.
Proof.
  induction l as [|o l IH]; simpl; [done|]. destruct (Nat.eqb_spec (op_id o) i) as [E|].
  - intros (p & Hp & Ej%Nat.eqb_eq)%existsb_exists. apply list_elem_of_In, list_elem_of_split in Hp as (l2 & l3 & ->). by exists [], o, l2, p, l3.
  - destruct (op_id o =? j)%nat; [done|]. intros H. destruct (IH H) as (l1 & o' & l2 & p & l3 & -> & ? & ?). by exists (o :: l1), o', l2, p, l3.
Qed.

Lemma before_in_intro l1 o l2 p l3 : NoDup (map op_id (l1 ++ o :: l2 ++ p :: l3)) → before_in (l1 ++ o :: l2 ++ p :: l3) (op_id o) (op_id p) = true.
Proof.
  induction l1 as [|c l1 IH]; simpl; intros Hnd.
  - rewrite Nat.eqb_refl. apply existsb_exists. exists p. split; [|by rewrite Nat.eqb_refl]. apply list_elem_of_In, elem_of_app. right. left.
  - apply NoDup_cons in Hnd as [Hc Hnd]. rewrite !(proj2 (Nat.eqb_neq _ _)); [by apply IH| |]; intros E; apply Hc; rewrite E.
    + apply list_elem_of_fmap_2, elem_of_app. right. right. apply elem_of_app. right. left.
    + apply list_elem_of_fmap_2, elem_of_app. right. left.
Qed.

(** The last frame holds the operation; every frame's operation holds it. *)
Lemma sits_last o fs p : sits o fs p → (fs = [] ∧ p = o) ∨
  ∃ fs' q k r b, fs = fs' ++ [Frame q k b] ∧ sits o fs' q ∧ regions q !! k = Some r ∧ b ∈ r ∧ p ∈ block_ops b.
Proof.
  induction 1 as [o|o k r b c fs p Hr Hb Hc Hs IH]; [by left|]. right. destruct IH as [[-> ->]|(fs' & q & k' & r' & b' & -> & Hs' & Hr' & Hb' & Hp)].
  - exists [], o, k, r, b. split_and!; try done. constructor.
  - exists (Frame o k b :: fs'), q, k', r', b'. split_and!; try done. by econstructor.
Qed.

Lemma sits_frame o fs p fr : sits o fs p → fr ∈ fs → p ∈ walk (fr_op fr) ∧ fr_op fr ∈ walk o.
Proof.
  induction 1 as [o|o k r b c fs p Hr Hb Hc Hs IH]; intros Hfr; [by apply elem_of_nil in Hfr|]. apply elem_of_cons in Hfr as [->|Hfr]; simpl.
  - split; [|apply walk_self]. eapply sits_walk. by econstructor.
  - destruct (IH Hfr) as [H1 H2]. split; [done|]. rewrite walk_children. apply elem_of_app. left. apply elem_of_flat_map. exists c. split; [by eapply in_children|done].
Qed.

Lemma block_of_holds p b : p ∈ walk_module m → block_of m (op_id p) = Some b →
  ∃ o k r, o ∈ walk_module m ∧ regions o !! k = Some r ∧ b ∈ r ∧ p ∈ block_ops b.
Proof.
  intros (g & fs & Hg & Hs)%in_module_sits Hb. unfold block_of in Hb. rewrite (frames_of_sits g fs p Hg Hs) in Hb.
  destruct (sits_last _ _ _ Hs) as [[-> _]|(fs' & q & k & r & b' & -> & Hq & Hr & Hb' & Hp)]; [done|]. rewrite last_snoc in Hb. injection Hb as <-.
  exists q, k, r. split_and!; try done. apply elem_of_flat_map. exists g. split; [done|]. by eapply sits_walk.
Qed.

Lemma ancestor_holds p a : p ∈ walk_module m → a ∈ ancestors m (op_id p) → p ∈ walk a ∧ a ∈ walk_module m.
Proof.
  intros (g & fs & Hg & Hs)%in_module_sits Ha. unfold ancestors in Ha. rewrite (frames_of_sits g fs p Hg Hs) in Ha.
  apply list_elem_of_fmap in Ha as (fr & -> & Hfr). destruct (sits_frame _ _ _ _ Hs Hfr) as [H1 H2]. split; [done|]. apply elem_of_flat_map. eauto.
Qed.

Lemma holds_ancestor p a : a ∈ walk_module m → p ∈ walk a → p = a ∨ a ∈ ancestors m (op_id p).
Proof.
  intros Ha Hp. destruct (walk_sits a p Hp) as [fs Hs]. unfold ancestors. rewrite (frames_nested a fs p Ha Hs), map_app.
  inversion Hs as [|? k r b c fs' ? Hr Hb Hc Hs']; subst; [by left|]. right. apply elem_of_app. right. left.
Qed.
End module.
End Frames.
