(* ===== verification/Exec.v ===== *)
(** * Exec: the operations a call of a function executes

    A semantics of a function's body as far as the thread walk reads it: the
    trace of operations a call executes, each before what is nested in it,
    and how it ends.  Conditions are not evaluated.  A loop runs its regions
    any number of times in any order; an if or a ternary runs one region at
    most; any other operation runs each of its regions at most once, in
    order, and may go from one left early to a later one (a handler, a
    cleanup).  Any operation may leave the function (an exception, a call that
    does not return).  A function whose regions do not show its control flow
    is not given a meaning here; see [Threads.isUnstructured].

    The theorem the walk rests on is [exec_order]: along a trace an operation
    comes before those that follow it in the text, unless a loop holds both. *)

From stdpp Require Import base tactics list strings.
From Stdlib Require Import String ZArith Lia.
From S2P Require Import Prelude Text Cir Utils Frames.
Local Open Scope string_scope.
Local Open Scope list_scope.

Module Exec.

(** An operation the representation has no kind of its own for. *)
Definition is_named (n : string) (o : operation) : bool := match op_kind o with KOther => String.eqb (op_name o) n | _ => false end.
Definition is_loop (o : operation) : bool := match op_kind o with KFor | KLoop => true | _ => false end.
Definition is_branch (o : operation) : bool := match op_kind o with KIf | KTernary => true | _ => false end.

Inductive exit := Fall | Break | Continue | Leave.

#[export] Instance exit_eq_dec : EqDecision exit.
Proof. solve_decision. Defined.

Definition jump_of (o : operation) : option exit :=
  match op_kind o with
  | KReturn => Some Leave
  | _ => if is_named "cir.break" o then Some Break else if is_named "cir.continue" o then Some Continue else None
  end.

(** A region's first block, the only one structured control flow reaches. *)
Definition entry (r : list block) : list operation := match r with b :: _ => block_ops b | [] => [] end.

Inductive item :=
| IOp (o : operation)
| ISeq (l : list operation)
| ILoop (rs : list (list block))
| ISome (rs : list (list block)).

Inductive exec : item → list operation → exit → Prop :=
| e_nil : exec (ISeq []) [] Fall
| e_cons o l t t' x : exec (IOp o) t Fall → exec (ISeq l) t' x → exec (ISeq (o :: l)) (t ++ t') x
| e_cut o l t x : exec (IOp o) t x → x ≠ Fall → exec (ISeq (o :: l)) t x
| e_leave o : exec (IOp o) [o] Leave
| e_jump o x : jump_of o = Some x → exec (IOp o) [o] x
| e_branch o r t x : is_branch o = true → r ∈ regions o → exec (ISeq (entry r)) t x → exec (IOp o) (o :: t) x
| e_skip o : is_branch o = true → exec (IOp o) [o] Fall
| e_loop o t x : is_loop o = true → exec (ILoop (regions o)) t x → exec (IOp o) (o :: t) x
| e_switch o t x : is_named "cir.switch" o = true → exec (ISome (regions o)) t x → exec (IOp o) (o :: t) (if decide (x = Break) then Fall else x)
| e_other o t x : is_branch o = false → is_loop o = false → is_named "cir.switch" o = false → jump_of o = None →
    exec (ISome (regions o)) t x → exec (IOp o) (o :: t) x
| e_round_end rs : exec (ILoop rs) [] Fall
| e_round rs r t t' x y : r ∈ rs → exec (ISeq (entry r)) t y → y = Fall ∨ y = Continue → exec (ILoop rs) t' x → exec (ILoop rs) (t ++ t') x
| e_break rs r t : r ∈ rs → exec (ISeq (entry r)) t Break → exec (ILoop rs) t Fall
| e_out rs r t : r ∈ rs → exec (ISeq (entry r)) t Leave → exec (ILoop rs) t Leave
| e_some_end rs : exec (ISome rs) [] Fall
| e_some r r' rs t t' x y z : exec (ISeq (entry r)) t y → exec (ISome (r' :: rs)) t' x → z = x ∨ z = y → exec (ISome (r :: r' :: rs)) (t ++ t') z
| e_some_last r rs t x : exec (ISeq (entry r)) t x → exec (ISome (r :: rs)) t x
| e_some_skip r rs t x : exec (ISome rs) t x → exec (ISome (r :: rs)) t x.

(** ** The text in its order *)

(** [walk<WalkOrder::PreOrder>]: an operation, then what is nested in it. *)
Fixpoint walk_pre (o : operation) : list operation :=
  match o with
  | Op _ _ _ _ _ _ _ rs => o :: flat_map (λ r, flat_map (λ b, match b with Block _ _ l => flat_map walk_pre l end) r) rs
  end.

Lemma walk_pre_children o : walk_pre o = o :: flat_map walk_pre (children o).
Proof.
  destruct o as [? ? ? ? ? ? ? rs]. cbn [walk_pre]. f_equal. unfold children. cbn [regions].
  induction rs as [|r rs IH]; [done|]. cbn. rewrite map_app, concat_app, flat_map_app, <-IH. f_equal.
  clear IH. induction r as [|[? ? l] r IH]; [done|]. cbn. by rewrite flat_map_app, <-IH.
Qed.

(** The two walks meet the same operations. *)
Lemma walk_pre_walk o : walk_pre o ≡ₚ walk o.
Proof.
  induction o as [o IH] using operation_nested_ind. rewrite walk_pre_children, walk_children, Permutation_app_comm. cbn. apply perm_skip.
  induction (children o) as [|c cs IHc]; [done|]. apply Forall_cons in IH as [Hc Hcs]. cbn. by rewrite Hc, IHc.
Qed.

Lemma elem_of_walk_pre o p : p ∈ walk_pre o ↔ p ∈ walk o.
Proof. by rewrite walk_pre_walk. Qed.

Definition region_pre (r : list block) : list operation := flat_map walk_pre (concat (map block_ops r)).
Definition regions_pre (rs : list (list block)) : list operation := flat_map region_pre rs.
Definition item_pre (i : item) : list operation :=
  match i with
  | IOp o => walk_pre o
  | ISeq l => flat_map walk_pre l
  | ILoop rs | ISome rs => regions_pre rs
  end.

Lemma regions_pre_children o : regions_pre (regions o) = flat_map walk_pre (children o).
Proof.
  unfold regions_pre, region_pre, children. induction (regions o) as [|r rs IH]; [done|]. cbn. by rewrite IH, map_app, concat_app, flat_map_app.
Qed.

Lemma entry_pre r : ∃ l, region_pre r = flat_map walk_pre (entry r) ++ l.
Proof. destruct r as [|b r]; [by exists []|]. exists (region_pre r). unfold region_pre. cbn. by rewrite flat_map_app. Qed.

Lemma entry_in r o : o ∈ flat_map walk_pre (entry r) → o ∈ region_pre r.
Proof. destruct (entry_pre r) as [l ->]. intros. apply elem_of_app. by left. Qed.

Lemma region_in r rs o : r ∈ rs → o ∈ region_pre r → o ∈ regions_pre rs.
Proof. intros Hr Ho. apply elem_of_flat_map. by exists r. Qed.

(** Nothing outside the text is executed. *)
Lemma exec_in i t x : exec i t x → ∀ o, o ∈ t → o ∈ item_pre i.
Proof.
  induction 1 as [|o l t t' x _ IH1 _ IH2|o l t x _ IH|o|o x|o r t x _ Hr _ IH|o|o t x _ _ IH|o t x _ _ IH|o t x _ _ _ _ _ IH
    |rs|rs r t t' x y Hr _ IH1 _ _ IH2|rs r t Hr _ IH|rs r t Hr _ IH|rs|r r' rs t t' x y z _ IH1 _ IH2 _|r rs t x _ IH|r rs t x _ IH]; intros p Hp; cbn [item_pre] in *.
  - by apply elem_of_nil in Hp.
  - apply elem_of_app in Hp as [Hp|Hp]; cbn; apply elem_of_app; auto.
  - cbn. apply elem_of_app. auto.
  - apply list_elem_of_singleton in Hp as ->. rewrite walk_pre_children. left.
  - apply list_elem_of_singleton in Hp as ->. rewrite walk_pre_children. left.
  - rewrite walk_pre_children. apply elem_of_cons in Hp as [->|Hp]; [left|right]. rewrite <-regions_pre_children. eapply region_in; [done|]. auto using entry_in.
  - apply list_elem_of_singleton in Hp as ->. rewrite walk_pre_children. left.
  - rewrite walk_pre_children, <-regions_pre_children. apply elem_of_cons in Hp as [->|Hp]; [left|right]. auto.
  - rewrite walk_pre_children, <-regions_pre_children. apply elem_of_cons in Hp as [->|Hp]; [left|right]. auto.
  - rewrite walk_pre_children, <-regions_pre_children. apply elem_of_cons in Hp as [->|Hp]; [left|right]. auto.
  - by apply elem_of_nil in Hp.
  - apply elem_of_app in Hp as [Hp|Hp]; [|auto]. eapply region_in; [done|]. auto using entry_in.
  - eapply region_in; [done|]. auto using entry_in.
  - eapply region_in; [done|]. auto using entry_in.
  - by apply elem_of_nil in Hp.
  - unfold regions_pre. cbn. apply elem_of_app in Hp as [Hp|Hp]; apply elem_of_app; [left|right]; auto using entry_in.
  - unfold regions_pre. cbn. apply elem_of_app. left. auto using entry_in.
  - unfold regions_pre. cbn. apply elem_of_app. right. auto.
Qed.

(** ** The order of a trace *)

(** [a] comes before [b] in a list. *)
Definition before (l : list operation) (a b : operation) : Prop := ∃ l1 l2, l = l1 ++ a :: l2 ∧ b ∈ l2.

Lemma before_app_l l l' a b : before l a b → before (l ++ l') a b.
Proof. intros (l1 & l2 & -> & Hb). exists l1, (l2 ++ l'). rewrite <-app_assoc. split; [done|]. apply elem_of_app. by left. Qed.
Lemma before_app_r l l' a b : before l a b → before (l' ++ l) a b.
Proof. intros (l1 & l2 & -> & Hb). exists (l' ++ l1), l2. by rewrite <-app_assoc. Qed.
Lemma before_across l l' a b : a ∈ l → b ∈ l' → before (l ++ l') a b.
Proof.
  intros (l1 & l2 & ->)%list_elem_of_split Hb. exists l1, (l2 ++ l'). rewrite <-app_assoc. split; [done|]. apply elem_of_app. by right.
Qed.
Lemma before_nodup l a : NoDup l → ¬ before l a a.
Proof. intros Hnd (l1 & l2 & -> & Ha). apply NoDup_app in Hnd as (_ & _ & Hnd). by apply NoDup_cons in Hnd as [? _]. Qed.

(** A loop of [l] holds both. *)
Definition same_loop (l : list operation) (a b : operation) : Prop :=
  ∃ p, p ∈ l ∧ is_loop p = true ∧ a ∈ flat_map walk_pre (children p) ∧ b ∈ flat_map walk_pre (children p).

Definition follows (l : list operation) (a b : operation) : Prop := before l a b ∨ same_loop l a b.

Lemma same_loop_sub l l' a b : (∀ o, o ∈ l → o ∈ l') → same_loop l a b → same_loop l' a b.
Proof. intros Hs (p & Hp & H). exists p. auto. Qed.
Lemma follows_app_l l l' a b : follows l a b → follows (l ++ l') a b.
Proof. intros [H|H]; [left; by apply before_app_l|right; eapply same_loop_sub; [|done]]. intros. apply elem_of_app. by left. Qed.
Lemma follows_app_r l l' a b : follows l a b → follows (l' ++ l) a b.
Proof. intros [H|H]; [left; by apply before_app_r|right; eapply same_loop_sub; [|done]]. intros. apply elem_of_app. by right. Qed.

(** Every pair of a trace, in its order, is related. *)
Definition ordered (R : operation → operation → Prop) (t : list operation) : Prop :=
  ∀ i j a b, t !! i = Some a → t !! j = Some b → (i < j)%nat → R a b.

Lemma ordered_nil R : ordered R [].
Proof. intros i j a b H. by rewrite lookup_nil in H. Qed.
Lemma ordered_app R t t' : ordered R t → ordered R t' → (∀ a b, a ∈ t → b ∈ t' → R a b) → ordered R (t ++ t').
Proof.
  intros H1 H2 H12 i j a b Hi Hj Hij. apply lookup_app_Some in Hi as [Hi|[Hli Hi]]; apply lookup_app_Some in Hj as [Hj|[Hlj Hj]].
  - by eapply H1.
  - apply H12; by eapply list_elem_of_lookup_2.
  - apply lookup_lt_Some in Hj. lia.
  - eapply H2; [done|done|lia].
Qed.
Lemma ordered_cons (R : operation → operation → Prop) o t : ordered R t → (∀ b, b ∈ t → R o b) → ordered R (o :: t).
Proof.
  intros H1 H2. apply (ordered_app R [o] t); [|done|].
  - intros [|i] [|j] a b Hi Hj Hij; simplify_eq/=; lia.
  - intros a b ->%list_elem_of_singleton. auto.
Qed.
Lemma ordered_mono (R R' : operation → operation → Prop) t : (∀ a b, R a b → R' a b) → ordered R t → ordered R' t.
Proof. intros HR H i j a b Hi Hj Hij. eauto. Qed.

Lemma follows_entry r a b : follows (flat_map walk_pre (entry r)) a b → follows (region_pre r) a b.
Proof. destruct (entry_pre r) as [l ->]. apply follows_app_l. Qed.

Lemma follows_region r rs a b : r ∈ rs → follows (region_pre r) a b → follows (regions_pre rs) a b.
Proof.
  intros (l1 & l2 & ->)%list_elem_of_split H. unfold regions_pre. rewrite flat_map_app. cbn. by apply follows_app_r, follows_app_l.
Qed.

(** An operation and what its regions execute. *)
Lemma ordered_op o t R : ordered R t → (∀ b, b ∈ t → b ∈ flat_map walk_pre (children o)) →
  (∀ a b, R a b → follows (flat_map walk_pre (children o)) a b) → ordered (follows (walk_pre o)) (o :: t).
Proof.
  intros Ht Hin HR. rewrite walk_pre_children. apply ordered_cons.
  - eapply ordered_mono; [|done]. intros a b Hab. apply (follows_app_r _ [o]). auto.
  - intros b Hb. left. apply (before_across [o]); [left|auto].
Qed.

(** Whatever is executed after an operation follows it in the text, or a
    loop holds both. *)
Lemma exec_order i t x : exec i t x → match i with ILoop _ => True | _ => ordered (follows (item_pre i)) t end.
Proof.
  induction 1 as [|o l t t' x H1 IH1 H2 IH2|o l t x H IH|o|o x|o r t x _ Hr H IH|o|o t x Hl H IH|o t x _ H IH|o t x _ _ _ _ H IH
    |rs|rs r t t' x y Hr _ IH1 _ _ IH2|rs r t Hr _ IH|rs r t Hr _ IH|rs|r r' rs t t' x y z H1 IH1 H2 IH2 _|r rs t x H IH|r rs t x H IH]; cbn [item_pre] in *.
  - apply ordered_nil.
  - cbn. apply ordered_app.
    + eapply ordered_mono; [|done]. intros a b. apply follows_app_l.
    + eapply ordered_mono; [|done]. intros a b. apply follows_app_r.
    + intros a b Ha Hb. left. apply before_across; [apply (exec_in _ _ _ H1 _ Ha)|apply (exec_in _ _ _ H2 _ Hb)].
  - cbn. eapply ordered_mono; [|done]. intros a b. apply follows_app_l.
  - apply ordered_cons; [apply ordered_nil|intros b Hb; by apply elem_of_nil in Hb].
  - apply ordered_cons; [apply ordered_nil|intros b Hb; by apply elem_of_nil in Hb].
  - assert (∀ b, b ∈ t → b ∈ flat_map walk_pre (children o)) as Hin.
    { intros b Hb. rewrite <-regions_pre_children. eapply region_in; [done|]. by apply entry_in, (exec_in _ _ _ H). }
    eapply ordered_op; [exact IH|done|]. intros a b Hab. rewrite <-regions_pre_children. eapply follows_region; [done|]. by apply follows_entry.
  - apply ordered_cons; [apply ordered_nil|intros b Hb; by apply elem_of_nil in Hb].
  - pose proof (exec_in _ _ _ H) as Hin. cbn [item_pre] in Hin. rewrite regions_pre_children in Hin. rewrite walk_pre_children. apply ordered_cons.
    + intros i j a b Hi Hj _. right. exists o. split; [left|]. split; [done|]. split; apply Hin; by eapply list_elem_of_lookup_2.
    + intros b Hb. left. apply (before_across [o]); [left|auto].
  - pose proof (exec_in _ _ _ H) as Hin. cbn [item_pre] in Hin. rewrite regions_pre_children in Hin, IH. by eapply ordered_op.
  - pose proof (exec_in _ _ _ H) as Hin. cbn [item_pre] in Hin. rewrite regions_pre_children in Hin, IH. by eapply ordered_op.
  - done.
  - done.
  - done.
  - done.
  - apply ordered_nil.
  - unfold regions_pre. cbn. apply ordered_app.
    + eapply ordered_mono; [|done]. intros a b Hab. apply follows_app_l. by apply follows_entry.
    + eapply ordered_mono; [|done]. intros a b. apply follows_app_r.
    + intros a b Ha Hb. left. apply before_across; [apply entry_in, (exec_in _ _ _ H1 _ Ha)|apply (exec_in _ _ _ H2 _ Hb)].
  - unfold regions_pre. cbn. eapply ordered_mono; [|done]. intros a b Hab. apply follows_app_l. by apply follows_entry.
  - unfold regions_pre. cbn. eapply ordered_mono; [|done]. intros a b. apply follows_app_r.
Qed.
End Exec.
