(* ===== verification/Graph.v ===== *)
(** * Graph: work lists over the call graph

    The two loops the thread walk explores the module with: [propagate],
    which marks what it pushes and answers what can be reached, and
    [reaches], which marks what it pops and looks for one node.  Both are
    exact when their fuel covers what is left to do. *)

From stdpp Require Import base tactics list gmap relations.
From Stdlib Require Import Lia.
From S2P Require Import Prelude.

Module Graph.
Section graph.
Context (next : nat → list nat).
Abbreviation edge := (λ a b, b ∈ next a).

Fixpoint push_new (cs : list nat) (marked : gset nat) (work : list nat) : gset nat * list nat :=
  match cs with
  | [] => (marked, work)
  | c :: cs => if decide (c ∈ marked) then push_new cs marked work else push_new cs ({[c]} ∪ marked) (c :: work)
  end.

(** The nodes marked once the work list is empty. *)
Fixpoint propagate (fuel : nat) (marked : gset nat) (work : list nat) : gset nat :=
  match fuel, work with
  | S n, g :: work => let '(marked', work') := push_new (next g) marked work in propagate n marked' work'
  | _, _ => marked
  end.

(** Whether [target] is met. *)
Fixpoint reaches (fuel : nat) (target : nat) (seen : gset nat) (work : list nat) : bool :=
  match fuel, work with
  | S n, g :: work =>
      if decide (g = target) then true
      else if decide (g ∈ seen) then reaches n target seen work
      else reaches n target ({[g]} ∪ seen) (rev (next g) ++ work)
  | _, _ => false
  end.

(** ** The nodes marked *)

Lemma push_new_spec cs marked work : let '(marked', work') := push_new cs marked work in
  marked' = marked ∪ list_to_set cs ∧ (∀ x, x ∈ work' ↔ x ∈ work ∨ x ∈ marked' ∧ x ∉ marked) ∧
  length work' + size marked = length work + size marked'.
Proof.
  revert marked work. induction cs as [|c cs IH]; intros marked work; cbn [push_new].
  - split; [set_solver|]. split; [set_solver|]. done.
  - destruct (decide (c ∈ marked)) as [Hc|Hc].
    + specialize (IH marked work). destruct (push_new cs marked work) as [m' w']. destruct IH as (-> & Hw & Hl). split; [set_solver|]. done.
    + specialize (IH ({[c]} ∪ marked) (c :: work)). destruct (push_new cs ({[c]} ∪ marked) (c :: work)) as [m' w']. destruct IH as (-> & Hw & Hl).
      split; [set_solver|]. split.
      * intros x. rewrite Hw, elem_of_cons. destruct (decide (x = c)); set_solver.
      * rewrite size_union, size_singleton in Hl by set_solver. cbn in Hl. lia.
Qed.

Section nodes.
Context (nodes : gset nat) (Hnext : ∀ g c, g ∈ nodes → c ∈ next g → c ∈ nodes).

(** Everything reached from what was marked, and nothing else. *)
Lemma propagate_spec fuel marked work :
  marked ⊆ nodes → (∀ g, g ∈ work → g ∈ marked) → (∀ g c, g ∈ marked → g ∉ work → c ∈ next g → c ∈ marked) →
  length work + size nodes ≤ fuel + size marked →
  ∀ x, x ∈ propagate fuel marked work ↔ ∃ w, w ∈ marked ∧ rtc edge w x.
Proof.
  revert marked work. induction fuel as [|fuel IH]; intros marked work Hm Hw Hc Hf x.
  - cbn. assert (size marked ≤ size nodes) as Hsz by by apply subseteq_size. assert (work = []) as -> by (destruct work; [done|cbn in *; lia]).
    split; [intros; by exists x|]. intros (w & Hin & H). induction H as [v|v y z Hy _ IHr]; [done|]. apply IHr, (Hc v); [done|set_solver|done].
  - destruct work as [|g work].
    { cbn. split; [intros; by exists x|]. intros (w & Hin & H). induction H as [v|v y z Hy _ IHr]; [done|]. apply IHr, (Hc v); [done|set_solver|done]. }
    cbn [propagate]. pose proof (push_new_spec (next g) marked work) as Hp. destruct (push_new (next g) marked work) as [m' w']. destruct Hp as (-> & Hw' & Hl).
    assert (g ∈ marked) as Hg by (apply Hw; left). rewrite IH.
    + split; intros (w & Hin & H).
      * apply elem_of_union in Hin as [Hin|Hin]; [by exists w|]. exists g. split; [done|]. econstructor; [|done]. by apply elem_of_list_to_set in Hin.
      * exists w. split; [set_solver|done].
    + apply union_least; [done|]. intros c Hin%elem_of_list_to_set. eapply Hnext; [|done]. by apply Hm.
    + intros c [Hin|[Hin _]]%Hw'; [|done]. apply elem_of_union_l, Hw. by right.
    + intros a c Ha Hna Hin. destruct (decide (a = g)) as [->|Hne]; [apply elem_of_union_r; by apply elem_of_list_to_set|].
      destruct (decide (a ∈ marked)) as [Ham|Ham]; [|destruct Hna; apply Hw'; by right].
      apply elem_of_union_l. eapply Hc; [done| |done]. intros [->|Hin']%elem_of_cons; [done|]. apply Hna, Hw'. by left.
    + cbn in Hf. lia.
Qed.

(** ** The node looked for *)

(** What is left to push. *)
Definition left_of (seen : gset nat) : nat := sum_list_with (λ g, length (next g)) (elements (nodes ∖ seen)).

Lemma left_of_add g seen : g ∈ nodes → g ∉ seen → left_of seen = length (next g) + left_of ({[g]} ∪ seen).
Proof.
  intros Hg Hs. unfold left_of. assert (nodes ∖ seen = {[g]} ∪ nodes ∖ ({[g]} ∪ seen)) as E.
  { apply set_eq. intros x. destruct (decide (x = g)); set_solver. }
  rewrite E, elements_union_singleton by set_solver. done.
Qed.

Lemma reaches_spec fuel target seen work :
  (∀ g, g ∈ work → g ∈ nodes) → target ∉ seen → (∀ g c, g ∈ seen → c ∈ next g → c ∈ seen ∨ c ∈ work) →
  length work + left_of seen < fuel →
  reaches fuel target seen work = true ↔ ∃ w, w ∈ work ∧ rtc edge w target.
Proof.
  revert seen work. induction fuel as [|fuel IH]; intros seen work Hn Ht Hc Hf; [lia|]. destruct work as [|g work]; cbn [reaches].
  { split; [done|]. intros (w & Hw & _). by apply elem_of_nil in Hw. }
  assert (g ∈ nodes) as Hg by (apply Hn; left). destruct (decide (g = target)) as [->|Hgt].
  { split; [|done]. intros _. exists target. split; [left|constructor]. }
  assert (∀ (Q : gset nat) (W : list nat), (∀ a c, a ∈ Q → c ∈ next a → c ∈ Q ∨ c ∈ W) → target ∉ Q → ∀ a, a ∈ Q → rtc edge a target → ∃ w, w ∈ W ∧ rtc edge w target) as Hout.
  { clear. intros Q W HQ HtQ a Ha H. induction H as [z|a b z Hb H IH]; [done|]. destruct (HQ a b Ha Hb); [auto|eauto]. }
  destruct (decide (g ∈ seen)) as [Hgs|Hgs].
  - rewrite IH; [|intros; apply Hn; by right|done| |cbn in Hf; lia].
    + split; intros (w & Hw & H); [exists w; split; [by right|done]|]. apply elem_of_cons in Hw as [->|Hw]; [|by exists w].
      (* what a seen node reaches is reached from the rest of the work, or from [g] again *)
      assert (∀ a c, a ∈ seen → c ∈ next a → c ∈ seen ∨ c ∈ work) as Hc'.
      { intros a c Ha Hac. destruct (Hc a c Ha Hac) as [?|[->|?]%elem_of_cons]; auto. }
      eapply Hout; eauto.
    + intros a c Ha Hac. destruct (Hc a c Ha Hac) as [?|[->|?]%elem_of_cons]; auto.
  - rewrite IH.
    + split; intros (w & Hw & H).
      * apply elem_of_app in Hw as [Hw|Hw]; [|exists w; split; [by right|done]]. rewrite list_elem_of_In, <-in_rev, <-list_elem_of_In in Hw.
        exists g. split; [left|]. by econstructor.
      * apply elem_of_cons in Hw as [->|Hw]; [|exists w; split; [apply elem_of_app; by right|done]].
        inversion H as [|a b c Hb Hr]; subst; [done|]. exists b. split; [|done]. apply elem_of_app. left. by rewrite list_elem_of_In, <-in_rev, <-list_elem_of_In.
    + intros a [Ha|Ha]%elem_of_app; [|apply Hn; by right]. rewrite list_elem_of_In, <-in_rev, <-list_elem_of_In in Ha. by eapply Hnext.
    + set_solver.
    + intros a c Ha Hac. destruct (decide (a = g)) as [->|Hne].
      * right. apply elem_of_app. left. by rewrite list_elem_of_In, <-in_rev, <-list_elem_of_In.
      * destruct (Hc a c) as [?|[->|?]%elem_of_cons]; [set_solver|done|set_solver|set_solver|]. right. apply elem_of_app. by right.
    + rewrite length_app, length_rev. rewrite (left_of_add g) in Hf by done. cbn in Hf. lia.
Qed.
End nodes.
End graph.
End Graph.
