(* ===== verification/Threads.v ===== *)
(** * Threads: which thread runs an operation, and how many it stands for
      (mlir/lib/WTC/Transforms/ThreadInstances.cpp)

    The walk every analysis of threads is made from: from main, the global
    constructors and the functions another thread may call, through calls
    and spawns, to function instances, each with the thread it runs on, how
    many threads that stands for and how many times the function runs in
    it.

    An instance's number is its place in [instances_], which stands for its
    address; its parent is the parent as it was when the instance was made,
    and the code changes an instance only before it makes children of it.
    Parameters: which functions a client cares about ([relevant]), the
    module's global constructors, and the readings of values the walk rests
    on -- the functions whose address is taken, the callables of a
    std::thread, the functions held in entry fields. *)

From stdpp Require Import base tactics list strings gmap.
From Stdlib Require Import String ZArith Lia.
From S2P Require Import Prelude Text Cir Utils Slots Loops Graph Exec.
Local Open Scope string_scope.
Local Open Scope list_scope.

Module Threads.

Inductive Mult := One | Many.
#[export] Instance mult_eq_dec : EqDecision Mult.
Proof. solve_decision. Defined.
Definition join (a b : Mult) : Mult := match a, b with One, One => One | _, _ => Many end.

(** [Instance] *)
Inductive instance := Inst {
  i_number : nat;
  i_func : operation;
  i_thread : nat;
  threadMult : Mult;
  execMult : Mult;
  i_site : option operation;
  i_parent : option instance;
  speculative : bool;
  startup : bool;
  execUnknown : bool;
  recurring : bool;
  startupUnknown : bool;
  truncated : bool;
  manyRoot : option string;
  countLoop : option operation;
  countLoopInst : option instance
}.

(** ** What the call graph says of a function *)

Definition calls_in (f : operation) : list operation := List.filter (λ o, match as_call o with Some _ => true | None => false end) (walk f).
Definition functions (m : module) : list operation := List.filter (λ o, match as_func o with Some _ => true | None => false end) (walk_module m).

Section graph.
Variable m : module.

Definition has_body (f : operation) : bool := negb (body_empty f).
Definition is_spawn (callee : operation) : bool := bool_decide (getSemanticKind (Some callee) = ThreadSpawn).
Definition fuel_of : nat := S (List.length (walk_module m)).

(** The functions with a body that [f] calls by name. *)
Definition direct_callees (f : operation) : list operation :=
  if body_empty f then [] else List.filter has_body (omap (lookupCallee m) (calls_in f)).
Definition callee_ids (i : nat) : list nat :=
  match find_op m i with Some f => map op_id (direct_callees f) | None => [] end.

Definition isRecursive (f : operation) : bool :=
  if body_empty f then false else Graph.reaches callee_ids fuel_of (op_id f) ∅ (rev (callee_ids (op_id f))).

Definition hasIndirectCall (f : operation) : bool := existsb (λ c, negb (match lookupCallee m c with Some _ => true | None => false end)) (calls_in f).

Definition returnsTwice (call : operation) : bool :=
  if has_attr call "returns_twice" then true
  else match lookupCallee m call with
  | None => false
  | Some f => has_attr f "returns_twice" || in_set ["setjmp"; "_setjmp"; "__setjmp"; "sigsetjmp"; "__sigsetjmp"; "savectx"; "vfork"; "getcontext"; "qsetjmp"] (name_of_func f)
  end.

Definition unstructured_ops : list string :=
  ["cir.goto"; "cir.label"; "cir.br"; "cir.brcond"; "cir.indirect_br"; "cir.switch.flat"; "cir.eh.setjmp"].
Definition isUnstructured (f : operation) : bool :=
  existsb (λ o, match op_kind o with
    | KOther => in_set unstructured_ops (op_name o)
    | KCall _ => returnsTwice o
    | _ => false
    end) (walk f).

(** The operations [o] sits in, innermost first, below [f]. *)
Fixpoint up_to (f : operation) (l : list operation) : list operation :=
  match l with
  | [] => []
  | p :: l => if (op_id p =? op_id f)%nat then [] else p :: up_to f l
  end.
Definition parents_below (f o : operation) : list operation := up_to f (rev (ancestors m (op_id o))).

Definition enclosingLoop (o f : operation) : option operation := List.find Exec.is_loop (parents_below f o).

Definition remote_launch (call : operation) : bool :=
  match lookupCallee m call with Some f => String.eqb (name_of_func f) "rte_eal_mp_remote_launch" | None => false end.

(** How often an operation runs in a run of its function, and whether that
    is known. *)
Definition siteMult (o f : operation) : Mult * bool :=
  if remote_launch o then (Many, true)
  else if existsb Exec.is_loop (parents_below f o) then (Many, true)
  else if isUnstructured f then (Many, false)
  else (One, true).

(** ** Which functions can start a thread *)

(** The functions whose address is taken; for the invokers of std::thread,
    by number, the callables their indirect calls run, and whether some of
    them could not be read. *)
Variable isAddressTaken : operation → bool.
Variable invokeTargets : nat → option (list operation * bool).

Definition invokers : list operation := List.filter (λ f, match invokeTargets (op_id f) with Some _ => true | None => false end) (functions m).
Definition invoke_funcs (g : nat) : list operation := match invokeTargets g with Some (l, _) => l | None => [] end.

(** The spawning calls aside, who calls a function, or may run it from
    inside std::thread. *)
Definition spawn_callers (g : nat) : list nat :=
  map op_id (List.filter (λ fn, has_body fn &&
    existsb (λ c, match lookupCallee m c with
      | Some callee => negb (is_spawn callee) && has_body callee && (op_id callee =? g)%nat
      | None => false
      end) (calls_in fn)) (functions m)) ++
  map op_id (List.filter (λ f, existsb (λ c, (op_id c =? g)%nat) (invoke_funcs (op_id f))) invokers).

Definition spawns_directly (fn : operation) : bool :=
  has_body fn && existsb (λ c, match lookupCallee m c with Some callee => is_spawn callee | None => false end) (calls_in fn).
Definition calls_indirectly (fn : operation) : bool := has_body fn && hasIndirectCall fn.

Definition mark (marked : gset nat) (l : list operation) : gset nat :=
  let new := List.filter (λ f, negb (bool_decide (op_id f ∈ marked))) l in
  Graph.propagate spawn_callers fuel_of (list_to_set (map op_id new) ∪ marked) (map op_id new).

Definition spawns_first : gset nat := mark ∅ (List.filter spawns_directly (functions m)).

Definition indirectCallCanSpawn : bool :=
  existsb (λ fn, has_body fn && bool_decide (op_id fn ∈ spawns_first) && isAddressTaken fn) (functions m).

(** [computeSpawns] *)
Definition spawns : gset nat :=
  if indirectCallCanSpawn then mark spawns_first (List.filter calls_indirectly (functions m)) else spawns_first.

Definition canSpawn (f : operation) : bool := bool_decide (op_id f ∈ spawns).

(** A call that may start a thread. *)
Definition spawning_call (call : operation) : bool :=
  match lookupCallee m call with
  | None => indirectCallCanSpawn
  | Some callee => is_spawn callee || has_body callee && canSpawn callee
  end.
Definition is_call (o : operation) : bool := match as_call o with Some _ => true | None => false end.
Definition canSpawnIn (o : operation) : bool := existsb spawning_call (calls_in o).
Definition canSpawnIn_region (r : list block) : bool := existsb canSpawnIn (concat (map block_ops r)).

(** ** What comes before the first spawn *)

Fixpoint until_spawn (l : list operation) : list operation :=
  match l with
  | [] => []
  | o :: l =>
      if Exec.is_loop o && canSpawnIn o then []
      else if is_call o && spawning_call o then [o]
      else o :: until_spawn l
  end.

Definition preSpawnOps (f : operation) : list operation :=
  if isUnstructured f then
    (if negb (canSpawn f) && negb (indirectCallCanSpawn && hasIndirectCall f) then walk f else [])
  else until_spawn (Exec.walk_pre f).

Definition spawnPrecedes (o f : operation) : bool := negb (existsb (λ p, op_id p =? op_id o)%nat (preSpawnOps f)).

Definition inStartupPhase (o : operation) (inst : instance) : bool := startup inst && negb (spawnPrecedes o (i_func inst)).
Definition startupUncertain (inst : instance) : bool :=
  startupUnknown inst || startup inst && isUnstructured (i_func inst) && canSpawn (i_func inst).

(** ** At most one thread per iteration of a counted loop *)

(** Only scopes between the operation and the loop, and nothing in the body
    that jumps. *)
Fixpoint only_scopes (loop : operation) (child : operation) (l : list operation) : bool :=
  match l with
  | [] => false
  | p :: l =>
      if (op_id p =? op_id loop)%nat then true
      else match op_kind p with
      | KScope => only_scopes loop p l
      | KCleanupScope => region_holds m p 0 (op_id child) && only_scopes loop p l
      | _ => false
      end
  end.

Definition loop_body (loop : operation) : list block := nth 1 (regions loop) [].

Definition unconditionalInBody (o loop : operation) (exits : bool) : bool :=
  only_scopes loop o (rev (ancestors m (op_id o))) && region_holds m loop 1 (op_id o)
  && negb (existsb (λ p, Exec.is_named "cir.goto" p
       || negb exits && (Exec.is_named "cir.continue" p || Exec.is_named "cir.break" p || match op_kind p with KReturn => true | _ => false end))
     (flat_map walk (concat (map block_ops (loop_body loop))))).

(** The memo of [spawnsOncePerCall]. *)
Abbreviation once_memo := (gmap nat bool).
Definition count_memo (A : Type) : Type := once_memo → A * once_memo.
Definition stop {A} : count_memo (option A) := λ s, (None, s).
Definition keep {A} (a : A) : count_memo (option A) := λ s, (Some a, s).
Definition andthen {A B} (x : count_memo (option A)) (k : A → count_memo (option B)) : count_memo (option B) :=
  λ s, match x s with (Some a, s') => k a s' | (None, s') => (None, s') end.

Section once.
(** [spawnsOncePerCall], one level of calls further down. *)
Variable per_call : operation → count_memo bool.

Definition once_if (b : bool) : count_memo (option nat) := if b then keep 1%nat else stop.

(** What an operation of the region adds to the count; nothing when the
    region may start more than one thread. *)
Fixpoint once_op (o : operation) : count_memo (option nat) :=
  let seq := fix seq (l : list operation) : count_memo (option nat) :=
    match l with
    | [] => keep 0%nat
    | c :: l => andthen (once_op c) (λ n, andthen (seq l) (λ k, keep (n + k)%nat))
    end in
  let once ops := andthen (seq ops) (λ n, once_if (n =? 1)%nat) in
  match o with
  | Op _ _ _ k _ _ _ rs =>
      match k with
      | KCall _ =>
          match lookupCallee m o with
          | None => if indirectCallCanSpawn then stop else keep 0%nat
          | Some callee =>
              if is_spawn callee then keep 1%nat
              else if body_empty callee || negb (canSpawn callee) then keep 0%nat
              else λ s, let '(b, s') := per_call callee s in once_if b s'
          end
      | _ =>
          match rs with
          | [] => keep 0%nat
          | _ =>
              if negb (canSpawnIn o) then
                (if existsb (Exec.is_named "cir.goto") (walk o) then stop else keep 0%nat)
              else match k, rs with
              | KScope, [Block _ _ ops] :: _ => once ops
              | KCleanupScope, [Block _ _ ops] :: cleanup :: _ => if canSpawnIn_region cleanup then stop else once ops
              | KIf, [Block _ _ ops1] :: [Block _ _ ops2] :: _ => andthen (once ops1) (λ _, once ops2)
              | KOther, [Block _ _ ops] :: handlers =>
                  if Exec.is_named "cir.try" o && negb (existsb canSpawnIn_region handlers) then once ops else stop
              | _, _ => stop
              end
          end
      end
  end.

Fixpoint once_seq (l : list operation) : count_memo (option nat) :=
  match l with
  | [] => keep 0%nat
  | c :: l => andthen (once_op c) (λ n, andthen (once_seq l) (λ k, keep (n + k)%nat))
  end.

(** [spawnsOnce] of a region *)
Definition once_region (r : list block) : count_memo bool :=
  match r with
  | [b] => λ s, let '(n, s') := once_seq (block_ops b) s in (match n with Some n => (n =? 1)%nat | None => false end, s')
  | _ => λ s, (false, s)
  end.
End once.

(** [levels]: how many more levels of calls [spawnsOnce] may go down. *)
Fixpoint spawnsOncePerCall (levels : nat) (f : operation) : count_memo bool := λ s,
  if body_empty f then (false, s)
  else match s !! op_id f with
  | Some b => (b, s)
  | None =>
      let s1 := <[op_id f := false]> s in
      let '(once, s2) :=
        if isUnstructured f || isRecursive f then (false, s1)
        else match levels with
        | O => (false, s1)
        | S n => once_region (spawnsOncePerCall n) (body f) s1
        end in
      (once, <[op_id f := once]> s2)
  end.
Definition spawnsOnce (r : list block) : count_memo bool := once_region (spawnsOncePerCall 8) r.

(** ** Where a thread's entry comes from *)

(** The number of an entry block's argument [v] is. *)
Definition argument_of (f : operation) (v : value) : option nat :=
  match v, body f with VArg b k, e :: _ => if (b =? block_id e)%nat then Some k else None | _, _ => None end.

(** [resolveEntry], from [depth] on. *)
Fixpoint resolve_entry (fuel depth : nat) (v : value) (inst : option instance) : option operation :=
  match fuel, inst with
  | S fuel, Some i =>
      if (64 <? depth)%nat then None
      else match resolveFunctionOperand m v with
      | Some f => Some f
      | None =>
          let t := traceToRoot m v in
          match resolveFunctionOperand m t with
          | Some f => Some f
          | None =>
              match argument_of (i_func i) t, i_site i with
              | Some k, Some site =>
                  let idx := (if bool_decide (getSemanticKind (lookupCallee m site) = ThreadSpawn) then k + spawnFirstArgOperand m site else k)%nat in
                  match operands site !! idx with
                  | Some w => resolve_entry fuel (S depth) w (i_parent i)
                  | None => None
                  end
              | _, _ => None
              end
          end
      end
  | _, _ => None
  end.
Definition resolveEntry (v : value) (inst : instance) : option operation := resolve_entry 66 0 v (Some inst).

(** The functions an entry loaded from an entry field may be, for an
    instance ([resolveEntries] where [resolveEntry] finds none). *)
Variable fieldEntries : value → instance → list operation.

Definition resolveEntries (v : value) (inst : instance) : list operation :=
  match resolveEntry v inst with Some f => [f] | None => fieldEntries v inst end.

(** ** The counted loop that starts a thread *)

Fixpoint counting_loop (hops : nat) (site : operation) (cur : instance) : count_memo (option (operation * instance)) :=
  match hops with
  | O => stop
  | S hops =>
      if bool_decide (threadMult cur = Many) || execUnknown cur || speculative cur || recurring cur || isUnstructured (i_func cur) then stop
      else match enclosingLoop site (i_func cur) with
      | Some loop =>
          if negb (match op_kind loop with KFor => true | _ => false end) || bool_decide (execMult cur = Many)
             || (match enclosingLoop loop (i_func cur) with Some _ => true | None => false end)
             || negb (unconditionalInBody site loop true)
             || negb (match countedLoop m loop with Some _ => true | None => false end) then stop
          else λ s, let '(b, s') := spawnsOnce (loop_body loop) s in ((if b then Some (loop, cur) else None), s')
      | None =>
          match i_parent cur, i_site cur with
          | Some p, Some via => if bool_decide (getSemanticKind (lookupCallee m via) = ThreadSpawn) then stop else counting_loop hops via p
          | _, _ => stop
          end
      end
  end.
Definition countingLoop (spawn : operation) (inst : instance) : count_memo (option (operation * instance)) := counting_loop 8 spawn inst.

(** ** The walk *)

Variable relevant : operation → bool.
Variable cap : nat.
Variable callableElsewhere : operation → bool.
Variable global_ctors : list string.
(** The instance at which the callable of a std::thread is read, and the
    function it resolves to ([resolveCallable]). *)
Variable resolveCallable : instance → option operation.
Variable stdThreadEntry : operation → option operation.
(** The entries some constructor of std::thread resolved to, by number. *)
Variable resolvedRuns : list nat.

Record state := State {
  instances : list instance;
  nextThread : nat;
  capExceeded : bool;
  expandedRecurrence : list (nat * Z);
  recursions : list operation;       (* what [onRecursion] was called with *)
  pendingRemarks : list (operation * string);
  onceMemo : once_memo
}.
Definition state0 : state := State [] 0 false [] [] [] ∅.

Definition with_instances l st := State l (nextThread st) (capExceeded st) (expandedRecurrence st) (recursions st) (pendingRemarks st) (onceMemo st).
Definition with_next n st := State (instances st) n (capExceeded st) (expandedRecurrence st) (recursions st) (pendingRemarks st) (onceMemo st).
Definition with_exceeded st := State (instances st) (nextThread st) true (expandedRecurrence st) (recursions st) (pendingRemarks st) (onceMemo st).
Definition with_memo c st := State (instances st) (nextThread st) (capExceeded st) (expandedRecurrence st) (recursions st) (pendingRemarks st) c.
Definition with_recurrence k st := State (instances st) (nextThread st) (capExceeded st) (k :: expandedRecurrence st) (recursions st) (pendingRemarks st) (onceMemo st).
Definition with_recursion f st := State (instances st) (nextThread st) (capExceeded st) (expandedRecurrence st) (recursions st ++ [f]) (pendingRemarks st) (onceMemo st).

Definition noteRemark (at_ : operation) (msg : string) (st : state) : state :=
  if existsb (λ r, op_id (fst r) =? op_id at_)%nat (pendingRemarks st) then st
  else State (instances st) (nextThread st) (capExceeded st) (expandedRecurrence st) (recursions st) (pendingRemarks st ++ [(at_, msg)]) (onceMemo st).

(** [addIfRoom] and [addInstance]: the instance gets its number, and a
    function on a cycle of calls runs many times. *)
Definition numbered (n : nat) (i : instance) : instance :=
  Inst n (i_func i) (i_thread i) (threadMult i) (if isRecursive (i_func i) then Many else execMult i) (i_site i) (i_parent i) (speculative i) (startup i)
    (execUnknown i) (recurring i) (startupUnknown i) (truncated i) (manyRoot i) (countLoop i) (countLoopInst i).
Definition addIfRoom (i : instance) (st : state) : state :=
  if (cap <=? List.length (instances st))%nat then with_exceeded st
  else with_instances (instances st ++ [numbered (List.length (instances st)) i]) st.

Definition root_instance (f : operation) (th : nat) (mult : Mult) (spec start : bool) (why : option string) : instance :=
  Inst 0 f th mult mult None None spec start false false false false why None None.

Definition take_thread (st : state) : nat * state := (nextThread st, with_next (S (nextThread st)) st).

Definition ctor_functions : list operation := List.filter has_body (omap (lookup_func m) global_ctors).

(** [addRootsForModule] *)
Definition addRootsForModule (st : state) : state :=
  let ctorSpawns := existsb canSpawn ctor_functions in
  let st1 := match lookup_func m "main" with
    | Some mainFn => if has_body mainFn then let '(th, st) := take_thread st in addIfRoom (root_instance mainFn th One false (negb ctorSpawns) None) st else st
    | None => st
    end in
  let '(mainThread, st2) := if (nextThread st1 =? 0)%nat then take_thread st1 else (0%nat, st1) in
  let st3 := fold_left (λ st f, addIfRoom (root_instance f mainThread One false (negb ctorSpawns) None) st) ctor_functions st2 in
  fold_left (λ st f,
    if has_body f && bool_decide (getSemanticKind (Some f) = Unknown) && isAddressTaken f && relevant f then
      let '(th, st) := take_thread st in
      let room := (List.length (instances st) <? cap)%nat in
      let st := addIfRoom (root_instance f th Many true false (Some "its address is taken, so it may run on any thread")) st in
      if room then noteRemark f "wtc: address of this function is taken; it is treated as callable from any thread, any number of times" st else st
    else st) (functions m) st3.

(** What a site in [inst] gives what it calls: how often, and whether that
    is a guess. *)
Definition site_exec (inst : instance) (call : operation) : Mult * bool :=
  let '(site, known) := siteMult call (i_func inst) in
  let certainlyMany := bool_decide (execMult inst = Many) && negb (execUnknown inst) || known && bool_decide (site = Many) in
  (join (execMult inst) site, negb certainlyMany && (negb known || execUnknown inst)).

Definition callee_instance (inst : instance) (call callee : operation) : instance :=
  let '(mult, unknown) := site_exec inst call in
  Inst 0 callee (i_thread inst) (threadMult inst) mult (Some call) (Some inst) (speculative inst)
    (startup inst && negb (spawnPrecedes call (i_func inst))) unknown false
    (startupUnknown inst || startup inst && isUnstructured (i_func inst) && canSpawn (i_func inst)) false None (countLoop inst) (countLoopInst inst).
Definition addCallee (inst : instance) (call callee : operation) (st : state) : state := addIfRoom (callee_instance inst call callee) st.

Definition entry_instance (inst : instance) (call entry : operation) (th : nat) (loop : option (operation * instance)) : instance :=
  let '(mult, unknown) := site_exec inst call in
  Inst 0 entry th mult mult (Some call) (Some inst) (speculative inst) false unknown false false false None (option_map fst loop) (option_map snd loop).

Definition unresolved_spawn : string := "wtc: spawn target could not be resolved to a function in this module".

(** The instance a thread began with. *)
Fixpoint thread_start (inst : instance) : instance :=
  match inst with
  | Inst _ _ th _ _ _ (Some p) _ _ _ _ _ _ _ _ _ => if (i_thread p =? th)%nat then thread_start p else inst
  | _ => inst
  end.

(** The functions an indirect call in an invoker of std::thread runs. *)
Definition invoked (inst : instance) (l : list operation) (unresolved : bool) : list operation :=
  let start := thread_start inst in
  let one := match i_site start, i_parent start with
    | Some site, Some p =>
        if (match lookupCallee m site with Some c => contains (name_of_func c) "6thread15_M_start_thread" | None => false end)
           && (1 <? match as_func (i_func p) with Some g => num_arguments g | None => 0 end)%nat
        then resolveCallable p else None
    | _, _ => None
    end in
  match one with Some f => [f] | None => if unresolved then [] else l end.

(** rte_eal_mp_remote_launch told to leave the calling lcore out. *)
Definition skips_main (call : operation) : bool :=
  match operands call !! (firstRealOperand m call + 2)%nat with
  | Some v => match defining_op m v with
      | Some c => match op_kind c with KConstant (CInt w b) => (sint w b =? 0)%Z | _ => false end
      | None => false
      end
  | None => false
  end.

Definition add_entry (inst : instance) (call : operation) (st : state) (entry : operation) : state :=
  if negb (relevant entry) then st
  else
    let '(th, st) := take_thread st in
    let room := (List.length (instances st) <? cap)%nat in
    let '(loop, memo) := if room then countingLoop call inst (onceMemo st) else (None, onceMemo st) in
    let st := addIfRoom (entry_instance inst call entry th loop) (with_memo memo st) in
    if remote_launch call then
      if skips_main call then st else addCallee inst call entry st
    else st.

Definition spawn_entries (inst : instance) (call callee : operation) : option (list operation) :=
  if contains (name_of_func callee) "6thread15_M_start_thread" then
    Some (match stdThreadEntry call with Some e => [e] | None => [] end)
  else match operands call !! spawnEntryOperand m call with
  | None => None
  | Some v => Some (resolveEntries v inst)
  end.

(** One call of [expand]'s walk. *)
Definition expand_call (inst : instance) (st : state) (call : operation) : state :=
  match lookupCallee m call with
  | None =>
      match invokeTargets (op_id (i_func inst)) with
      | None => st
      | Some (l, unresolved) =>
          match invoked inst l unresolved with
          | [] => noteRemark call unresolved_spawn st
          | targets => fold_left (λ st t, if has_body t && relevant t then addCallee inst call t st else st) targets st
          end
      end
  | Some callee =>
      if is_spawn callee then
        match spawn_entries inst call callee with
        | None => st
        | Some entries =>
            if match entries with [] => true | _ => existsb body_empty entries end then noteRemark call unresolved_spawn st
            else fold_left (add_entry inst call) entries st
        end
      else if negb (bool_decide (getSemanticKind (Some callee) = Unknown)) || body_empty callee || negb (relevant callee) then st
      else addCallee inst call callee st
  end.
Definition expand (inst : instance) (st : state) : state := fold_left (expand_call inst) (calls_in (i_func inst)) st.

(** The functions the walk has an instance of, or whose instance it made. *)
Definition reachedFuncs (st : state) : list nat := map (λ i, op_id (i_func i)) (instances st).

(** [isStdThreadCtor]: a template constructor of std::thread. *)
Definition isStdThreadCtor (f : operation) : bool :=
  has_body f && (starts_with (name_of_func f) "_ZNSt6threadC1I" || starts_with (name_of_func f) "_ZNSt6threadC2I").

(** [addOrphanRoots] *)
Definition accounted (st : state) : gset nat :=
  let first := list_to_set (reachedFuncs st) ∪
    list_to_set (map op_id (List.filter (λ f, isStdThreadCtor f || has_body f && existsb (Nat.eqb (op_id f)) resolvedRuns) (functions m))) in
  Graph.propagate callee_ids fuel_of first (elements first).

Definition addOrphanRoots (st : state) : state :=
  let accounted := accounted st in
  fold_left (λ st f,
    let orphan := bool_decide (op_id f ∉ accounted) in
    if has_body f && bool_decide (getSemanticKind (Some f) = Unknown) && negb (is_local_linkage f)
       && (orphan || callableElsewhere f) && relevant f then
      let '(th, st) := take_thread st in
      addIfRoom (root_instance f th Many true false
        (Some (if orphan then "nothing in this translation unit calls it" else "another translation unit may call it"))) st
    else st) (functions m) st.

(** Whether an instance or one it descends from is of a function. *)
Fixpoint on_chain (f : operation) (i : instance) : bool :=
  match i with
  | Inst _ g _ _ _ _ p _ _ _ _ _ _ _ _ _ => (op_id g =? op_id f)%nat || match p with Some p => on_chain f p | None => false end
  end.
Definition recurs (inst : instance) : bool := match i_parent inst with Some p => on_chain (i_func inst) p | None => false end.

Definition via_spawn (inst : instance) : bool :=
  match i_site inst with Some c => bool_decide (getSemanticKind (lookupCallee m c) = ThreadSpawn) | None => false end.

(** The recurrence of a function: it stands for many runs, or many
    threads. *)
Definition recur (inst : instance) : instance :=
  Inst (i_number inst) (i_func inst) (i_thread inst) (if via_spawn inst then Many else threadMult inst) Many (i_site inst) (i_parent inst) (speculative inst)
    (startup inst) (execUnknown inst) true (startupUnknown inst) (truncated inst) (manyRoot inst)
    (if via_spawn inst then None else countLoop inst) (if via_spawn inst then None else countLoopInst inst).
Definition truncate (inst : instance) : instance :=
  Inst (i_number inst) (i_func inst) (i_thread inst) (threadMult inst) (execMult inst) (i_site inst) (i_parent inst) (speculative inst)
    (startup inst) (execUnknown inst) (recurring inst) (startupUnknown inst) true (manyRoot inst) (countLoop inst) (countLoopInst inst).

(** What a recurrence is expanded once for, at 64 bits. *)
Definition recurrence_key (inst : instance) : Z :=
  if via_spawn inst then (2 ^ 64 - 1)%Z
  else Z.lor (Z.shiftl (Z.of_nat (i_thread inst)) 2) (Z.lor (if startup inst then 2 else 0) (if startupUnknown inst then 1 else 0)).

(** One instance visited, and expanded unless its function recurs. *)
Definition step (n : nat) (st : state) : state :=
  match instances st !! n with
  | None => st
  | Some inst =>
      if recurs inst then
        let st := with_recursion (i_func inst) st in
        let inst := recur inst in
        let key := (op_id (i_func inst), recurrence_key inst) in
        if existsb (λ k, (fst k =? fst key)%nat && (snd k =? snd key)%Z) (expandedRecurrence st)
        then with_instances (<[n := truncate inst]> (instances st)) st
        else expand inst (with_recurrence key (with_instances (<[n := inst]> (instances st)) st))
      else expand inst st
  end.

(** The instances from number [n] on, those added on the way included. *)
Fixpoint wave (fuel n : nat) (st : state) : nat * state :=
  match fuel with
  | O => (n, st)
  | S fuel => if (n <? List.length (instances st))%nat then wave fuel (S n) (step n st) else (n, st)
  end.

Definition run : state :=
  let '(n, st) := wave (S cap) 0 (addRootsForModule state0) in
  snd (wave (S cap) n (addOrphanRoots st)).

(** ** What is asked of a finished walk *)

Definition instancesOf (st : state) (f : operation) : list instance := List.filter (λ i, op_id (i_func i) =? op_id f)%nat (instances st).
Definition instanceCount (st : state) (f : operation) : nat := List.length (instancesOf st f).
Definition runsOnce (st : state) (f : operation) : bool :=
  match instancesOf st f with
  | [i] => bool_decide (execMult i = One) && bool_decide (threadMult i = One) && negb (execUnknown i)
  | _ => false
  end.

(** [multWithinThread] *)
Fixpoint multWithinThread (inst : instance) : Mult * bool :=
  match inst with
  | Inst _ _ _ _ _ site parent _ _ _ rec _ _ _ _ _ =>
      let here := if rec then Many else One in
      match site, parent with
      | Some c, Some p =>
          if bool_decide (getSemanticKind (lookupCallee m c) = ThreadSpawn) then (here, true)
          else
            let '(site, known) := siteMult c (i_func p) in
            let '(above, known') := multWithinThread p in
            (match here, above with Many, _ => Many | _, a => join site a end, known && known')
      | _, _ => (here, true)
      end
  end.

(** [siteRunsOnce], from [depth] on. *)
Fixpoint site_runs_once (fuel depth : nat) (st : state) (o : operation) : bool :=
  match fuel with
  | O => false
  | S fuel =>
      match enclosing_func m (op_id o) with
      | None => false
      | Some f =>
          if (16 <? depth)%nat then false
          else
            let '(mult, known) := siteMult o f in
            if bool_decide (mult = Many) || negb known then false
            else if runsOnce st f then true
            else if String.eqb (name_of_func f) "main" then true
            else if (0 <? instanceCount st f)%nat then false
            else if isAddressTaken f then false
            else match List.filter (λ c, match lookupCallee m c with Some g => (op_id g =? op_id f)%nat | None => false end)
                         (List.filter is_call (walk_module m)) with
            | [c] => site_runs_once fuel (S depth) st c
            | _ => false
            end
      end
  end.
Definition siteRunsOnce (st : state) (o : operation) : bool := site_runs_once 18 0 st o.

(** *** Two threads that cannot both exist *)

Definition threadRoot (st : state) (th : nat) : option instance := List.find (λ i, i_thread i =? th)%nat (instances st).

(** An instance's ancestors, each with its child on the chain, innermost
    first. *)
Fixpoint up (i : instance) : list (instance * instance) :=
  match i with
  | Inst _ _ _ _ _ _ (Some p) _ _ _ _ _ _ _ _ _ => (p, i) :: up p
  | _ => []
  end.
Definition child_below (chain : list (instance * instance)) (p : instance) : option instance :=
  option_map snd (List.find (λ x, i_number (fst x) =? i_number p)%nat chain).

(** [regionPath] *)
Definition regionPath (o f : operation) : list (operation * nat) :=
  map (λ fr, (fr_op fr, fr_region fr)) (List.filter (λ fr, negb (op_id (fr_op fr) =? op_id f)%nat) (frames_of m (op_id o))).

Definition under_loop (path : list (operation * nat)) (upto : nat) : bool := existsb (λ h, Exec.is_loop (fst h)) (take (S upto) path).

Definition last_of (holder : operation) (region : nat) : option operation :=
  match regions holder !! region with
  | Some (b :: _) => last (block_ops b)
  | _ => None
  end.
Definition ends_case (o : option operation) : bool :=
  match o with Some e => Exec.is_named "cir.break" e || match op_kind e with KReturn => true | _ => false end | None => false end.
Definition is_return (o : option operation) : bool := match o with Some e => match op_kind e with KReturn => true | _ => false end | None => false end.

(** The ancestor of an operation in the block of another. *)
Definition siblingOf (o anchor : operation) : option operation :=
  match block_of m (op_id anchor) with Some b => findAncestorOpInBlock m (block_id b) o | None => None end.

(** Whether the arm the longer path takes returns before the other site. *)
Definition arm_returns (path : list (operation * nat)) (i : nat) (other : operation) : bool :=
  match path !! i with
  | Some (holder, region) =>
      match op_kind holder with
      | KIf =>
          if under_loop path i then false
          else is_return (last_of holder region) &&
            match siblingOf other holder with
            | Some after => negb (op_id after =? op_id holder)%nat && isBeforeInBlock m holder after
            | None => false
            end
      | _ => false
      end
  | None => false
  end.

(** Two paths in one function, from their [i]th step on. *)
Fixpoint paths_exclude (pa pb qa qb : list (operation * nat)) (i : nat) (ca cb : operation) : bool :=
  match qa, qb with
  | (ha, ra) :: qa', (hb, rb) :: qb' =>
      if negb (op_id ha =? op_id hb)%nat then
        match parent_op m (op_id ha), parent_op m (op_id hb) with
        | Some sa, Some sb =>
            Exec.is_named "cir.case" ha && Exec.is_named "cir.case" hb && (op_id sa =? op_id sb)%nat && Exec.is_named "cir.switch" sa
            && ends_case (last_of ha 0) && ends_case (last_of hb 0) && negb (under_loop pa i)
        | _, _ => false
        end
      else if (ra =? rb)%nat then paths_exclude pa pb qa' qb' (S i) ca cb
      else Exec.is_branch ha && negb (under_loop pa i)
  | _, _ =>
      if (List.length pb <? List.length pa)%nat then arm_returns pa i cb else arm_returns pb i ca
  end.

Definition exclusive (st : state) (threadA threadB : nat) : bool :=
  match threadRoot st threadA, threadRoot st threadB with
  | Some a, Some b =>
      match i_site a, i_site b with
      | Some _, Some _ =>
          match List.find (λ x, match child_below (up a) (fst x) with Some _ => true | None => false end) (up b) with
          | None => false
          | Some (common, childB) =>
              if bool_decide (execMult common = Many) || bool_decide (threadMult common = Many) || execUnknown common then false
              else if existsb isUnstructured (i_func common :: map (λ x, i_func (fst x)) (up common)) then false
              else match child_below (up a) common with
              | None => false
              | Some childA =>
                  match i_site childA, i_site childB with
                  | Some ca, Some cb =>
                      if (op_id ca =? op_id cb)%nat then false
                      else let pa := regionPath ca (i_func common) in let pb := regionPath cb (i_func common) in paths_exclude pa pb pa pb 0 ca cb
                  | _, _ => false
                  end
              end
          end
      | _, _ => false
      end
  | _, _ => false
  end.
End graph.
End Threads.
