(* ===== verification/ThreadsSpec.v ===== *)
(** * ThreadsSpec: what the walk's answers mean

    Within one run of a function ([Exec.exec]): an operation whose
    multiplicity is known and one is executed at most once
    ([executes_once]), and nothing [preSpawnOps] keeps is executed after a
    call that may start a thread ([spawn_seen]). *)

From stdpp Require Import base tactics list strings gmap.
From Stdlib Require Import String ZArith Lia.
From S2P Require Import Prelude Text Cir Utils Slots Loops Frames Graph Exec Threads.
Local Open Scope list_scope.

Module ThreadsSpec.
Import Threads Frames.

(** ** One run of a function *)

Section once.
Context (m : module) (Hwf : wf_ids m = true).

(** A prefix of the path to an operation leads to what its next frame is
    in. *)
Lemma sits_prefix o fs p : sits o fs p → ∀ l1 fr l2, fs = l1 ++ fr :: l2 → sits o l1 (fr_op fr).
Proof.
  induction 1 as [o|o k r b c fs p Hr Hb Hc _ IH]; intros l1 fr l2 E; [by destruct l1|].
  destruct l1 as [|fr' l1]; injection E as <- E; [constructor|]. econstructor; eauto.
Qed.

Lemma nested_frames p c : c ∈ flat_map walk (children p) → ∃ fr fs, sits p (fr :: fs) c ∧ fr_op fr = p.
Proof.
  intros (d & Hd & Hc)%elem_of_flat_map. apply children_in in Hd as (k & r & b & Hr & Hb & Hd). destruct (walk_sits d c Hc) as [fs Hfs].
  exists (Frame p k b), fs. split; [by econstructor|done].
Qed.

Lemma up_to_in f l : (∀ o, o ∈ l → op_id o ≠ op_id f) → up_to f (l ++ [f]) = l.
Proof.
  induction l as [|o l IH]; intros Hl; cbn; [by rewrite Nat.eqb_refl|]. rewrite (proj2 (Nat.eqb_neq _ _)) by (apply Hl; left).
  f_equal. apply IH. intros p Hp. apply Hl. by right.
Qed.

(** The operations strictly between a function and something in it. *)
Lemma in_parents_below f p c : f ∈ m → p ∈ flat_map walk (children f) → c ∈ flat_map walk (children p) → p ∈ parents_below m f c.
Proof.
  intros Hf Hp Hc. destruct (nested_frames f p Hp) as (fr1 & fs1 & H1 & E1). destruct (nested_frames p c Hc) as (fr2 & fs2 & H2 & E2).
  pose proof (sits_app _ _ _ _ _ H1 H2) as Hs. assert (f ∈ walk_module m) as Hfm by by apply module_in_walk.
  assert (frames_of m (op_id c) = (fr1 :: fs1) ++ fr2 :: fs2) as Efr by (by apply (frames_of_sits m Hwf f)).
  unfold parents_below, ancestors. rewrite Efr. cbn [app map rev]. rewrite E1. rewrite up_to_in.
  - rewrite <-E2. rewrite list_elem_of_In, <-in_rev, <-list_elem_of_In, map_app. apply elem_of_app. right. left.
  - intros o Ho E. rewrite list_elem_of_In, <-in_rev, <-list_elem_of_In in Ho. apply list_elem_of_fmap in Ho as (fr & -> & (l1 & l2 & El)%list_elem_of_split).
    assert (sits f (fr1 :: l1) (fr_op fr)) as Hs' by (eapply (sits_prefix _ _ _ Hs); cbn; by rewrite El).
    destruct (sits_unique f _ _ _ _ (op_nodup m Hwf f Hfm) Hs' (sits_here f) E) as [E' _]. done.
Qed.

Lemma entry_of_body f o : o ∈ Exec.entry (body f) → o ∈ children f.
Proof.
  unfold body, children. destruct (regions f) as [|[|b r] rs]; cbn; [by intros ?%elem_of_nil..|]. intros Ho. apply elem_of_app. by left.
Qed.
Lemma entry_in_children f o : o ∈ flat_map Exec.walk_pre (Exec.entry (body f)) → o ∈ flat_map walk (children f).
Proof.
  intros (c & Hc & Ho)%elem_of_flat_map. apply elem_of_flat_map. exists c. split; [by apply entry_of_body|by apply Exec.elem_of_walk_pre].
Qed.

Lemma entry_nodup f : f ∈ m → NoDup (flat_map Exec.walk_pre (Exec.entry (body f))).
Proof.
  intros Hf. assert (NoDup (map op_id (Exec.walk_pre f))) as Hnd.
  { rewrite (Exec.walk_pre_walk f). apply (op_nodup m Hwf f). by apply module_in_walk. }
  apply NoDup_fmap_1 in Hnd. rewrite Exec.walk_pre_children in Hnd. apply NoDup_cons in Hnd as [_ Hnd].
  unfold children, body in *. destruct (regions f) as [|[|b r] rs]; cbn in *; [constructor..|]. rewrite flat_map_app in Hnd. by apply NoDup_app in Hnd as (Hnd & _).
Qed.

(** A loop of the function that holds an operation makes it run many
    times. *)
Lemma loop_is_many f o p : f ∈ m → p ∈ flat_map Exec.walk_pre (Exec.entry (body f)) → Exec.is_loop p = true → o ∈ flat_map Exec.walk_pre (children p) →
  fst (siteMult m o f) = Many.
Proof.
  intros Hf Hp Hl Ho. unfold siteMult. destruct (remote_launch m o); [done|].
  assert (p ∈ parents_below m f o) as Hin.
  { apply in_parents_below; [done|by apply entry_in_children|]. apply elem_of_flat_map in Ho as (c & Hc & Ho). apply elem_of_flat_map.
    exists c. split; [done|]. by apply Exec.elem_of_walk_pre. }
  assert (existsb Exec.is_loop (parents_below m f o) = true) as ->; [|done]. apply existsb_exists. exists p. split; [by apply list_elem_of_In|done].
Qed.

(** Where [siteMult] answers that an operation runs once, and knows, no run
    of the function executes it twice. *)
Lemma executes_once f o t x i j : f ∈ m → siteMult m o f = (One, true) →
  Exec.exec (Exec.ISeq (Exec.entry (body f))) t x → t !! i = Some o → t !! j = Some o → i = j.
Proof.
  intros Hf Hs Ht Hi Hj. pose proof (Exec.exec_order _ _ _ Ht) as Ho. cbn [Exec.item_pre] in Ho.
  assert (∀ i j, t !! i = Some o → t !! j = Some o → i < j → False)%nat as Hno.
  { intros a b Ha Hb Hab. destruct (Ho a b o o Ha Hb Hab) as [H|(p & Hp & Hl & Hin & _)].
    - by eapply Exec.before_nodup, H; apply entry_nodup.
    - pose proof (loop_is_many f o p Hf Hp Hl Hin) as E. by rewrite Hs in E. }
  destruct (lt_eq_lt_dec i j) as [[H| ->]|H]; [exfalso; eauto|done|exfalso; eauto].
Qed.

(** ** The start-up phase within one run *)

Lemma before_pre f p o : p ∈ Exec.walk_pre f → o ∈ flat_map Exec.walk_pre (children p) → Exec.before (Exec.walk_pre f) p o.
Proof.
  revert p o. induction f as [f IH] using operation_nested_ind. intros p o Hp Ho. rewrite Exec.walk_pre_children in Hp |- *. apply elem_of_cons in Hp as [->|Hp].
  - apply (Exec.before_across [f]); [left|done].
  - apply (Exec.before_app_r _ [f]). apply elem_of_flat_map in Hp as (c & Hc & Hp). rewrite Forall_forall in IH. pose proof (IH c Hc p o Hp Ho) as Hb.
    apply list_elem_of_split in Hc as (l1 & l2 & ->). rewrite flat_map_app. cbn. by apply Exec.before_app_r, Exec.before_app_l.
Qed.

Lemma follows_pre f a b : Exec.follows (flat_map Exec.walk_pre (Exec.entry (body f))) a b → Exec.follows (Exec.walk_pre f) a b.
Proof.
  intros H. rewrite Exec.walk_pre_children, <-Exec.regions_pre_children. apply (Exec.follows_app_r _ [f]). unfold body in H.
  destruct (regions f) as [|r rs]; [|unfold Exec.regions_pre; cbn; apply Exec.follows_app_l; by apply Exec.follows_entry].
  exfalso. destruct H as [([|] & ? & ? & _)|(p & Hp & _)]; [done..|]. by apply elem_of_nil in Hp.
Qed.

Section spawns.
Context (isAddressTaken : operation → bool) (invokeTargets : nat → option (list operation * bool)).
Abbreviation canSpawnIn := (Threads.canSpawnIn m isAddressTaken invokeTargets).
Abbreviation spawning_call := (Threads.spawning_call m isAddressTaken invokeTargets).
Abbreviation until_spawn := (Threads.until_spawn m isAddressTaken invokeTargets).

Definition trigger (o : operation) : bool := Exec.is_loop o && canSpawnIn o || is_call o && spawning_call o.

Lemma until_trigger l c o : NoDup l → trigger c = true → Exec.before l c o → o ∉ until_spawn l.
Proof.
  unfold trigger. induction l as [|a l IH]; intros Hnd Hc (l1 & l2 & E & Ho); [by destruct l1|]. apply NoDup_cons in Hnd as [Ha Hnd]. cbn.
  destruct (Exec.is_loop a && canSpawnIn a) eqn:E1; [by intros ?%elem_of_nil|].
  assert (o ∈ l) as Hol. { destruct l1 as [|a' l1]; injection E as <- ->; [done|]. apply elem_of_app. right. by right. }
  destruct (is_call a && spawning_call a) eqn:E2.
  - intros ->%list_elem_of_singleton. done.
  - intros [->|Hin]%elem_of_cons; [done|]. revert Hin. apply IH; [done|done|].
    destruct l1 as [|a' l1]; injection E as <- ->; [|by exists l1, l2]. rewrite E1, E2 in Hc. done.
Qed.

Lemma until_sub l o : o ∈ until_spawn l → o ∈ l.
Proof.
  induction l as [|a l IH]; cbn; [done|]. destruct (_ && _); [by intros ?%elem_of_nil|]. destruct (_ && _).
  - intros ->%list_elem_of_singleton. left.
  - intros [->|Hin]%elem_of_cons; [left|right; auto].
Qed.

(** An operation of a structured function that comes after a call that may
    start a thread is known to. *)
Lemma spawn_seen f t x i j c o : f ∈ m → isUnstructured m f = false → Exec.exec (Exec.ISeq (Exec.entry (body f))) t x →
  t !! i = Some c → t !! j = Some o → (i < j)%nat → is_call c = true → spawning_call c = true →
  spawnPrecedes m isAddressTaken invokeTargets o f = true.
Proof.
  intros Hf Hu Ht Hi Hj Hij Hcall Hc. pose proof (Exec.exec_order _ _ _ Ht i j c o Hi Hj Hij) as Hfo. cbn [Exec.item_pre] in Hfo. apply follows_pre in Hfo.
  assert (NoDup (map op_id (Exec.walk_pre f))) as Hnd.
  { rewrite (Exec.walk_pre_walk f). apply (op_nodup m Hwf f). by apply module_in_walk. }
  assert (o ∉ until_spawn (Exec.walk_pre f)) as Hno.
  { destruct Hfo as [Hb|(p & Hp & Hl & Hcp & Hop)].
    - apply (until_trigger _ c); [by apply NoDup_fmap_1 in Hnd| |done]. unfold trigger. rewrite Hcall, Hc. apply orb_true_r.
    - apply (until_trigger _ p); [by apply NoDup_fmap_1 in Hnd| |by apply before_pre]. unfold trigger. rewrite Hl. apply orb_true_iff. left. cbn.
      apply existsb_exists. exists c. split; [|done]. apply filter_In. split; [|done]. apply list_elem_of_In. rewrite walk_children. apply elem_of_app. left.
      apply elem_of_flat_map in Hcp as (d & Hd & Hcd). apply elem_of_flat_map. exists d. split; [done|]. by apply Exec.elem_of_walk_pre. }
  assert (o ∈ Exec.walk_pre f) as Ho.
  { pose proof (Exec.exec_in _ _ _ Ht o (list_elem_of_lookup_2 _ _ _ Hj)) as Hin. cbn in Hin. rewrite Exec.walk_pre_children. right.
    apply entry_in_children in Hin as (d & Hd & Hod)%elem_of_flat_map. apply elem_of_flat_map. exists d. split; [done|]. by apply Exec.elem_of_walk_pre. }
  unfold spawnPrecedes, preSpawnOps. rewrite Hu. apply negb_true_iff. destruct (existsb _ _) eqn:E; [|done].
  apply existsb_exists in E as (p & Hp%list_elem_of_In & Hid%Nat.eqb_eq). exfalso. apply Hno.
  assert (p = o) as <-; [|done]. apply until_sub in Hp. apply list_elem_of_lookup in Hp as [a Ha], Ho as [b Hb].
  assert (a = b) as ->; [|congruence]. eapply (NoDup_lookup _ a b (op_id p) Hnd).
  - by rewrite list_lookup_fmap, Ha.
  - rewrite list_lookup_fmap, Hb. cbn. by rewrite Hid.
Qed.
End spawns.
End once.
End ThreadsSpec.
