(* ===== verification/Exclusive.v ===== *)
(** * Exclusive: two sites of one function that one run does not execute both

    What [ThreadInstanceWalk::exclusive] reads off the region paths of two
    call sites, against the runs of [Exec]: sites on the two arms of a
    branch, in two cases of a switch that each end in a break or a return,
    or in an arm that returns and after the branch, outside any loop, are
    not both executed by one run of the function ([paths_exclude_sound]). *)

From stdpp Require Import base tactics list strings gmap.
From Stdlib Require Import String ZArith Lia.
From S2P Require Import Prelude Text Cir Utils Slots Loops Frames Graph Exec Threads ThreadsSpec.
Local Open Scope list_scope.

Module Exclusive.
Import Threads Frames ThreadsSpec.

(** The first match of a search, and what it passed over. *)
Lemma find_some_split {A} (f : A → bool) l x : List.find f l = Some x → ∃ l1 l2, l = l1 ++ x :: l2 ∧ ∀ y, y ∈ l1 → f y = false.
Proof.
  induction l as [|y l IH]; cbn; [done|]. destruct (f y) eqn:E.
  - intros [= ->]. exists [], l. split; [done|]. by intros y ?%elem_of_nil.
  - intros (l1 & l2 & -> & H)%IH. exists (y :: l1), l2. split; [done|]. intros z [->|Hz]%elem_of_cons; auto.
Qed.

(** ** What one run of a list of operations, or of an operation, contains *)

Lemma pre_ids c o : o ∈ Exec.walk_pre c → op_id o ∈ ids c.
Proof. intros H. by apply in_ids, Exec.elem_of_walk_pre. Qed.

Lemma seq_pre_ids l o : o ∈ flat_map Exec.walk_pre l → op_id o ∈ flat_map ids l.
Proof. intros (c & Hc & Ho)%elem_of_flat_map. apply elem_of_flat_map. exists c. split; [done|by apply pre_ids]. Qed.

(** The part of a run that belongs to one operation of a sequence. *)
Lemma seq_run l1 c l2 t x : NoDup (flat_map ids (l1 ++ c :: l2)) → Exec.exec (Exec.ISeq (l1 ++ c :: l2)) t x → (∃ o, o ∈ t ∧ o ∈ Exec.walk_pre c) →
  ∃ t1 x1, Exec.exec (Exec.IOp c) t1 x1 ∧ (∀ p, p ∈ t → p ∈ Exec.walk_pre c → p ∈ t1) ∧ ((∃ p, p ∈ t ∧ p ∈ flat_map Exec.walk_pre l2) → x1 = Exec.Fall).
Proof.
  revert t x. induction l1 as [|d l1 IH]; intros t x Hnd Ht (o & Ho & Hoc); cbn in Hnd, Ht.
  - apply NoDup_app in Hnd as (_ & Hd & _). assert (∀ p, p ∈ Exec.walk_pre c → p ∈ flat_map Exec.walk_pre l2 → False) as Hdis.
    { intros p Hp Hp2. apply (Hd (op_id p)); [by apply pre_ids|by apply seq_pre_ids]. }
    inversion Ht as [|o' l t1 t2 y H1 H2| o' l t1 y H1 Hy| | | | | | | | | | | | | | |]; subst.
    + exists t1, Exec.Fall. split; [done|]. split; [|done]. intros p [Hp|Hp]%elem_of_app Hpc; [done|]. exfalso. eapply (Hdis p); [done|]. apply (Exec.exec_in _ _ _ H2 p Hp).
    + exists t, x. split; [done|]. split; [done|]. intros (p & Hp & Hp2). exfalso. eapply (Hdis p); [|done]. apply (Exec.exec_in _ _ _ H1 p Hp).
  - apply NoDup_app in Hnd as (_ & Hd & Hnd). assert (∀ p, p ∈ Exec.walk_pre d → p ∈ flat_map Exec.walk_pre (l1 ++ c :: l2) → False) as Hdis.
    { intros p Hp Hp2. apply (Hd (op_id p)); [by apply pre_ids|by apply seq_pre_ids]. }
    assert (∀ p, p ∈ Exec.walk_pre c → p ∈ flat_map Exec.walk_pre (l1 ++ c :: l2)) as Hc by (intros p Hp; rewrite flat_map_app; cbn; apply elem_of_app; right; apply elem_of_app; by left).
    assert (∀ p, p ∈ flat_map Exec.walk_pre l2 → p ∈ flat_map Exec.walk_pre (l1 ++ c :: l2)) as Hl2 by (intros p Hp; rewrite flat_map_app; cbn; apply elem_of_app; right; apply elem_of_app; by right).
    inversion Ht as [|o' l t1 t2 y H1 H2| o' l t1 y H1 Hy| | | | | | | | | | | | | | |]; subst.
    + assert (∀ p, p ∈ t1 ++ t2 → p ∈ flat_map Exec.walk_pre (l1 ++ c :: l2) → p ∈ t2) as Hin.
      { intros p [Hp|Hp]%elem_of_app Hpl; [|done]. exfalso. eapply (Hdis p); [|done]. apply (Exec.exec_in _ _ _ H1 p Hp). }
      destruct (IH t2 x Hnd H2) as (t3 & y & H3 & H4 & H5); [exists o; auto|]. exists t3, y. split; [done|]. split; [auto|].
      intros (p & Hp & Hp2). apply H5. exists p. auto.
    + exfalso. eapply (Hdis o); [apply (Exec.exec_in _ _ _ H1 o Ho)|auto].
Qed.

(** A sequence that ends in a jump does not fall through. *)
Lemma seq_no_fall l e t : last l = Some e → Exec.jump_of e ≠ None → Exec.exec (Exec.ISeq l) t Exec.Fall → False.
Proof.
  revert t. induction l as [|c l IH]; intros t Hl Hj Ht; [done|].
  inversion Ht as [|o' l' t1 t2 y H1 H2| o' l' t1 y H1 Hy| | | | | | | | | | | | | | |]; subst; [|done]. destruct l as [|d l].
  - injection Hl as ->. inversion H1 as [| | | |o' y H| o' r t' y Hb| |o' t' y Hb|o' t' y Hb|o' t' y _ _ _ Hn| | | | | | | |]; subst; [|..|done].
    + unfold Exec.jump_of in H. repeat case_match; done.
    + unfold Exec.is_branch, Exec.jump_of, Exec.is_named in *. destruct (op_kind e); done.
    + unfold Exec.is_branch, Exec.jump_of, Exec.is_named in *. destruct (op_kind e); done.
    + unfold Exec.is_loop, Exec.jump_of, Exec.is_named in *. destruct (op_kind e); done.
    + unfold Exec.jump_of, Exec.is_named in *. destruct (op_kind e); try done. destruct (String.eqb_spec (op_name e) "cir.switch"); [|done]. by rewrite e0 in Hj.
  - eapply IH; [exact Hl|done|exact H2].
Qed.

Lemma region_pre_ids r o : o ∈ Exec.region_pre r → op_id o ∈ region_ids r.
Proof.
  intros (c & Hc & Ho)%elem_of_flat_map. apply elem_of_concat in Hc as (l & Hc & (b & -> & Hb)%list_elem_of_fmap).
  apply elem_of_flat_map. exists b. split; [done|]. apply elem_of_flat_map. exists c. split; [done|by apply pre_ids].
Qed.
Lemma regions_pre_ids rs o : o ∈ Exec.regions_pre rs → op_id o ∈ flat_map region_ids rs.
Proof. intros (r & Hr & Ho)%elem_of_flat_map. apply elem_of_flat_map. exists r. split; [done|by apply region_pre_ids]. Qed.

Lemma entry_run_region r t x o : Exec.exec (Exec.ISeq (Exec.entry r)) t x → o ∈ t → o ∈ Exec.region_pre r.
Proof. intros H Ho. apply Exec.entry_in. apply (Exec.exec_in _ _ _ H o Ho). Qed.

(** The part of a run that belongs to one region, each run once at most. *)
Lemma some_run rs k r t x : NoDup (flat_map region_ids rs) → Exec.exec (Exec.ISome rs) t x → rs !! k = Some r → (∃ o, o ∈ t ∧ o ∈ Exec.region_pre r) →
  ∃ t1 x1, Exec.exec (Exec.ISeq (Exec.entry r)) t1 x1 ∧ (∀ p, p ∈ t → p ∈ Exec.region_pre r → p ∈ t1) ∧ (length rs = 1%nat → x1 = x).
Proof.
  revert k t x. induction rs as [|r0 rs IH]; intros k t x Hnd Ht Hr Hex; [done|]. cbn in Hnd. apply NoDup_app in Hnd as (_ & Hd & Hnd).
  assert (∀ p, p ∈ Exec.region_pre r0 → p ∈ Exec.regions_pre rs → False) as Hdis.
  { intros p Hp Hp2. apply (Hd (op_id p)); [by apply region_pre_ids|by apply regions_pre_ids]. }
  destruct k as [|k]; cbn in Hr.
  - injection Hr as ->. destruct Hex as (o & Ho & Hor).
    inversion Ht as [| | | | | | | | | | | | | | |r1 r' rs' t1 t2 y z w H1 H2 Hw|r1 rs' t1 y H1|r1 rs' t1 y H1]; subst; [by apply elem_of_nil in Ho|..].
    + exists t1, z. split; [done|]. split; [|done]. intros p [Hp|Hp]%elem_of_app Hpr; [done|]. exfalso. eapply (Hdis p); [done|]. apply (Exec.exec_in _ _ _ H2 p Hp).
    + exists t, x. done.
    + exfalso. eapply (Hdis o); [done|]. apply (Exec.exec_in _ _ _ H1 o Ho).
  - assert (∀ p, p ∈ Exec.region_pre r → p ∈ Exec.regions_pre rs) as Hin by (intros p Hp; eapply Exec.region_in; [by eapply list_elem_of_lookup_2|done]).
    destruct Hex as (o & Ho & Hor).
    inversion Ht as [| | | | | | | | | | | | | | |r1 r' rs' t1 t2 y z w H1 H2 Hw|r1 rs' t1 y H1|r1 rs' t1 y H1]; subst; [by apply elem_of_nil in Ho|..].
    + assert (∀ p, p ∈ t1 ++ t2 → p ∈ Exec.region_pre r → p ∈ t2) as Hin2.
      { intros p [Hp|Hp]%elem_of_app Hpl; [|done]. exfalso. eapply (Hdis p); [|eauto]. eapply entry_run_region; eauto. }
      destruct (IH k t2 _ Hnd H2 Hr) as (t3 & y' & H3 & H4 & H5); [exists o; auto|]. exists t3, y'. split; [done|]. split; [auto|]. cbn. lia.
    + exfalso. eapply (Hdis o); [eapply entry_run_region; eauto|auto].
    + destruct (IH k t x Hnd H1 Hr) as (t3 & y' & H3 & H4 & H5); [by exists o|]. exists t3, y'. split; [done|]. split; [done|]. cbn. destruct rs; [done|cbn; lia].
Qed.

(** The part of an operation's run that belongs to one of its regions, where
    the operation is no loop. *)
Lemma region_run h k r t x : NoDup (ids h) → Exec.is_loop h = false → regions h !! k = Some r → Exec.exec (Exec.IOp h) t x →
  (∃ o, o ∈ t ∧ o ∈ Exec.region_pre r) →
  ∃ t1 x1, Exec.exec (Exec.ISeq (Exec.entry r)) t1 x1 ∧ (∀ p, p ∈ t → p ∈ Exec.region_pre r → p ∈ t1) ∧
    (Exec.is_branch h = true → x1 = x ∧ ∀ p, p ∈ t → p = h ∨ p ∈ t1) ∧ (length (regions h) = 1%nat → Exec.is_named "cir.switch" h = false → x1 = x).
Proof.
  intros Hnd Hl Hr Ht (o & Ho & Hor). rewrite ids_unfold in Hnd. apply NoDup_app in Hnd as (Hnd & Hd & _).
  assert (∀ q, q ∈ regions h → ∀ p, p ∈ Exec.region_pre q → p ≠ h) as Hself.
  { intros q Hq p Hp ->. apply (Hd (op_id h)); [|left]. apply elem_of_flat_map. exists q. split; [done|by apply region_pre_ids]. }
  assert (r ∈ regions h) as Hrin by by eapply list_elem_of_lookup_2.
  inversion Ht as [| | |o' |o' y H|o' q t1 y Hb Hq H|o' Hb|o' t1 y Hb|o' t1 y Hb H|o' t1 y Hb Hlo Hs Hj H| | | | | | | |]; subst; try congruence.
  - apply list_elem_of_singleton in Ho as ->. by destruct (Hself r Hrin _ Hor).
  - apply list_elem_of_singleton in Ho as ->. by destruct (Hself r Hrin _ Hor).
  - apply elem_of_cons in Ho as [->|Ho]; [by destruct (Hself r Hrin _ Hor)|].
    assert (q = r) as ->.
    { eapply (nodup_elem region_ids); [exact Hnd|done|done| |by apply region_pre_ids]. apply region_pre_ids. by eapply entry_run_region. }
    exists t1, x. split; [done|]. split; [|split; [|done]].
    + intros p [->|Hp]%elem_of_cons Hpr; [by destruct (Hself r Hrin _ Hpr)|done].
    + intros _. split; [done|]. intros p [->|Hp]%elem_of_cons; auto.
  - apply list_elem_of_singleton in Ho as ->. by destruct (Hself r Hrin _ Hor).
  - apply elem_of_cons in Ho as [->|Ho]; [by destruct (Hself r Hrin _ Hor)|].
    destruct (some_run _ k r _ _ Hnd H Hr) as (t2 & y' & H1 & H2 & H3); [by exists o|]. exists t2, y'. split; [done|].
    split; [intros p [->|Hp]%elem_of_cons Hpr; [by destruct (Hself r Hrin _ Hpr)|auto]|]. split; [|intros; congruence].
    intros Hbr. unfold Exec.is_branch, Exec.is_named in *. by destruct (op_kind h).
  - apply elem_of_cons in Ho as [->|Ho]; [by destruct (Hself r Hrin _ Hor)|].
    destruct (some_run _ k r _ _ Hnd H Hr) as (t2 & y' & H1 & H2 & H3); [by exists o|]. exists t2, y'. split; [done|].
    split; [intros p [->|Hp]%elem_of_cons Hpr; [by destruct (Hself r Hrin _ Hpr)|auto]|]. split; [intros; congruence|auto].
Qed.
(** ** The paths *)

Definition hops (fs : list frame) : list (operation * nat) := map (λ fr, (fr_op fr, fr_region fr)) fs.
(** From a region's first block, the path leads to the operation. *)
Definition placed (r : list block) (o : operation) (path : list (operation * nat)) : Prop := ∀ e fs, e ∈ Exec.entry r → sits e fs o → hops fs = path.

Lemma placed_run r t x o path : Exec.exec (Exec.ISeq (Exec.entry r)) t x → o ∈ t → placed r o path → ∃ e fs, e ∈ Exec.entry r ∧ sits e fs o ∧ hops fs = path.
Proof.
  intros Ht Ho Hp. pose proof (Exec.exec_in _ _ _ Ht o Ho) as Hin. cbn in Hin. apply elem_of_flat_map in Hin as (e & He & Hin).
  apply Exec.elem_of_walk_pre, walk_sits in Hin as [fs Hfs]. exists e, fs. split; [done|]. split; [done|]. by apply (Hp e).
Qed.

Lemma placed_nil r t x o : Exec.exec (Exec.ISeq (Exec.entry r)) t x → o ∈ t → placed r o [] → o ∈ Exec.entry r.
Proof. intros Ht Ho Hp. destruct (placed_run _ _ _ _ _ Ht Ho Hp) as (e & fs & He & Hs & Hh). destruct fs; [|done]. by inversion Hs; subst. Qed.

Lemma placed_cons r t x o h k path : Exec.exec (Exec.ISeq (Exec.entry r)) t x → o ∈ t → placed r o ((h, k) :: path) →
  h ∈ Exec.entry r ∧ o ∈ Exec.walk_pre h ∧ ∃ r', regions h !! k = Some r' ∧ o ∈ Exec.region_pre r' ∧ placed r' o path.
Proof.
  intros Ht Ho Hp. destruct (placed_run _ _ _ _ _ Ht Ho Hp) as (e & fs & He & Hs & Hh). destruct fs as [|fr fs]; [done|]. injection Hh as E1 E2 E3.
  inversion Hs as [|? k' r' b c fs' p' Hr Hb Hc Hs']; subst; cbn in *. split; [done|]. split; [by apply Exec.elem_of_walk_pre, (sits_walk _ _ _ Hs)|].
  exists r'. split; [done|]. split.
  - apply elem_of_flat_map. exists c. split; [apply elem_of_concat; exists (block_ops b); split; [done|by apply list_elem_of_fmap_2]|].
    by apply Exec.elem_of_walk_pre, (sits_walk _ _ _ Hs').
  - intros e' fs' He' Hse. destruct r' as [|b0 r']; [by apply elem_of_nil in He'|].
    assert (hops (Frame e k' b0 :: fs') = (e, k') :: hops fs) as H' by (apply Hp with e; [done|]; econstructor; [done|left|done|done]).
    by injection H' as H'.
Qed.

(** An operation whose region a run executed, and whose region ends in a
    jump, did not fall through. *)
Lemma no_fall h k t o e r' : NoDup (ids h) → Exec.is_loop h = false → regions h !! k = Some r' → Exec.exec (Exec.IOp h) t Exec.Fall → o ∈ t →
  o ∈ Exec.region_pre r' → last_of h k = Some e → Exec.jump_of e ≠ None →
  Exec.is_branch h = true ∨ length (regions h) = 1 ∧ Exec.is_named "cir.switch" h = false → False.
Proof.
  intros Hnd Hl Hr Ht Ho Hor He Hj Hk. destruct (region_run h k r' t _ Hnd Hl Hr Ht) as (t1 & x1 & H1 & _ & H2 & H3); [by exists o|].
  assert (x1 = Exec.Fall) as -> by (destruct Hk as [Hb|[Hn Hs]]; [by apply H2|by apply H3]).
  unfold last_of in He. rewrite Hr in He. destruct r' as [|b r']; [done|]. by eapply seq_no_fall.
Qed.

Lemma jump_case e : ends_case (Some e) = true → Exec.jump_of e ≠ None.
Proof.
  unfold ends_case, Exec.jump_of. destruct (Exec.is_named "cir.break" e); [by destruct (op_kind e)|]. cbn. by destruct (op_kind e).
Qed.
Lemma jump_return e : is_return (Some e) = true → Exec.jump_of e ≠ None.
Proof. unfold is_return, Exec.jump_of. by destruct (op_kind e). Qed.

Lemma if_branch h : (match op_kind h with KIf => true | _ => false end) = true → Exec.is_branch h = true.
Proof. unfold Exec.is_branch. by destruct (op_kind h). Qed.

(** Every case has one region. *)
Definition cases_ok (m : module) : bool := forallb (λ o, negb (Exec.is_named "cir.case" o) || (length (regions o) =? 1)%nat) (walk_module m).

Section paths.
Context (m : module) (Hwf : wf_ids m = true) (Hok : cases_ok m = true).

Lemma case_regions o : o ∈ walk_module m → Exec.is_named "cir.case" o = true → length (regions o) = 1%nat.
Proof.
  intros Ho Hn. unfold cases_ok in Hok. pose proof (proj1 (forallb_forall _ _) Hok o (proj1 (list_elem_of_In _ _) Ho)) as H. cbn beta in H. rewrite Hn in H. by apply Nat.eqb_eq.
Qed.

(** What the paths share holds no loop. *)
Lemma no_loop ca cb qa : ∀ qb pre pa pb, pa = pre ++ qa → pb = pre ++ qb →
  (∀ x y, x ∈ qa → y ∈ qb → op_id (fst x) = op_id (fst y) → fst x = fst y) →
  paths_exclude m pa pb qa qb (length pre) ca cb = true → ∀ h, h ∈ pre → Exec.is_loop (fst h) = false.
Proof.
  assert (∀ p pre q, p = pre ++ q → under_loop p (length pre) = false → ∀ h, h ∈ pre → Exec.is_loop (fst h) = false) as Hul.
  { intros p pre q -> H h Hh. unfold under_loop in H. apply not_true_iff_false. intros Hl. apply not_true_iff_false in H. apply H, existsb_exists.
    exists h. split; [|done]. apply list_elem_of_In. rewrite take_app_ge by lia. apply elem_of_app. by left. }
  assert (∀ p pre q c, p = pre ++ q → arm_returns m p (length pre) c = true → ∀ h, h ∈ pre → Exec.is_loop (fst h) = false) as Har.
  { intros p pre q c E H. unfold arm_returns in H. destruct (p !! length pre) as [[ho re]|]; [|done]. destruct (op_kind ho); try done.
    destruct (under_loop p (length pre)) eqn:Eu; [done|]. by eapply Hul. }
  induction qa as [|[ha ra] qa IH]; intros qb pre pa pb Epa Epb Heq H h Hh; cbn in H; [match type of H with (if ?c then _ else _) = _ => destruct c end; (eapply Har; [|exact H|done]; done)|].
  destruct qb as [|[hb rb] qb]; [match type of H with (if ?c then _ else _) = _ => destruct c end; (eapply Har; [|exact H|done]; done)|]. destruct (Nat.eqb_spec (op_id ha) (op_id hb)) as [E|E]; cbn in H.
  - assert (ha = hb) as <- by (apply (Heq (ha, ra) (hb, rb)); [left|left|done]). destruct (Nat.eqb_spec ra rb) as [<-|Hr].
    + apply (IH qb (pre ++ [(ha, ra)]) pa pb); [by rewrite <-app_assoc|by rewrite <-app_assoc|..].
      * intros x y Hx Hy. apply Heq; by right.
      * rewrite length_app, Nat.add_1_r. done.
      * apply elem_of_app. by left.
    + apply andb_true_iff in H as [_ H%negb_true_iff]. (eapply Hul; [|exact H|done]; done).
  - destruct (parent_op m (op_id ha)), (parent_op m (op_id hb)); try done. apply andb_true_iff in H as [_ H%negb_true_iff]. (eapply Hul; [|exact H|done]; done).
Qed.

Lemma same_id a b : a ∈ walk_module m → b ∈ walk_module m → op_id a = op_id b → a = b.
Proof. intros Ha Hb E. pose proof (find_op_wf m a Hwf Ha). pose proof (find_op_wf m b Hwf Hb). rewrite E in *. congruence. Qed.

(** One run of one region, its first block in the module. *)
Section region.
Context (ho : operation) (ko : nat) (r : list block) (Hho : ho ∈ walk_module m) (Hr : regions ho !! ko = Some r).

Lemma entry_in_module h : h ∈ Exec.entry r → h ∈ walk_module m.
Proof. intros Hh. destruct r as [|b r']; [by apply elem_of_nil in Hh|]. eapply (walk_module_child m ho); [done|]. eapply in_children; [exact Hr|left|done]. Qed.

Lemma entry_ids_nodup : NoDup (flat_map ids (Exec.entry r)).
Proof. destruct r as [|b r']; [constructor|]. eapply (block_ids_nodup m Hwf ho ko); [done|exact Hr|left]. Qed.

Lemma path_in_module t x o path y : Exec.exec (Exec.ISeq (Exec.entry r)) t x → o ∈ t → placed r o path → y ∈ path → fst y ∈ walk_module m.
Proof.
  intros Ht Ho Hp Hy. destruct (placed_run _ _ _ _ _ Ht Ho Hp) as (e & fs & He & Hs & <-). apply list_elem_of_fmap in Hy as (fr & -> & Hfr). cbn.
  destruct (sits_frame _ _ _ _ Hs Hfr) as [_ Hin]. eapply walk_module_trans; [by apply entry_in_module|done].
Qed.

(** What follows an operation of the region was reached by falling through
    it. *)
Lemma fell_through t x h h' c d : Exec.exec (Exec.ISeq (Exec.entry r)) t x → before_in (Exec.entry r) (op_id h) (op_id h') = true →
  h ∈ Exec.entry r → h' ∈ Exec.entry r → c ∈ t → c ∈ Exec.walk_pre h → d ∈ t → d ∈ Exec.walk_pre h' →
  ∃ t1, Exec.exec (Exec.IOp h) t1 Exec.Fall ∧ c ∈ t1.
Proof.
  intros Ht Hb Hh Hh' Hc Hch Hd Hdh. apply before_in_split in Hb as (l1 & o & l2 & o' & l3 & E & Eo & Eo').
  assert (o = h) as ->. { apply same_id; [apply entry_in_module; rewrite E; apply elem_of_app; right; left|by apply entry_in_module|done]. }
  assert (o' = h') as ->. { apply same_id; [apply entry_in_module; rewrite E; apply elem_of_app; right; right; apply elem_of_app; right; left|by apply entry_in_module|done]. }
  pose proof entry_ids_nodup as Hnd. rewrite E in Hnd, Ht. destruct (seq_run _ _ _ _ _ Hnd Ht) as (t1 & x1 & H1 & H2 & H3); [by exists c|].
  exists t1. split; [|auto]. rewrite H3 in H1; [done|]. exists d. split; [done|]. rewrite flat_map_app. apply elem_of_app. right. cbn. apply elem_of_app. by left.
Qed.

Lemma entry_block h : h ∈ Exec.entry r → ∃ b, block_ops b = Exec.entry r ∧ ∀ e, e ∈ Exec.entry r → block_of m (op_id e) = Some b.
Proof.
  intros Hh. destruct r as [|b rb]; [by apply elem_of_nil in Hh|]. exists b. split; [done|]. intros e He. eapply (block_of_in m Hwf ho ko); [done|exact Hr|left|done].
Qed.

(** The arm that returns, and what comes after the branch. *)
Lemma arm_false p i h k path c other t x : arm_returns m p i other = true → p !! i = Some (h, k) → Exec.exec (Exec.ISeq (Exec.entry r)) t x →
  c ∈ t → placed r c ((h, k) :: path) → other ∈ t → placed r other [] → False.
Proof.
  unfold arm_returns. intros H Hp Ht Hc Hpc Ho Hpo. rewrite Hp in H. destruct (placed_cons _ _ _ _ _ _ _ Ht Hc Hpc) as (Hh & Hch & r' & Hr' & Hcr & _).
  pose proof (placed_nil _ _ _ _ Ht Ho Hpo) as Hoe. destruct (op_kind h) eqn:Ek; try done. destruct (under_loop p i); [done|].
  apply andb_true_iff in H as [Hret H]. destruct (entry_block h Hh) as (b & Eb & Hblk).
  unfold siblingOf, findAncestorOpInBlock in H. rewrite (Hblk h Hh) in H. cbn [List.find] in H. rewrite (Hblk other Hoe), Nat.eqb_refl in H.
  apply andb_true_iff in H as [_ H]. unfold isBeforeInBlock in H. rewrite (Hblk h Hh), Eb in H.
  destruct (last_of h k) as [e|] eqn:El; [|done]. apply jump_return in Hret.
  destruct (fell_through t x h other c other Ht H Hh Hoe Hc Hch Ho) as (t1 & Ht1 & Hc1); [rewrite Exec.walk_pre_children; left|].
  eapply (no_fall h k t1 c e r'); [|by unfold Exec.is_loop; rewrite Ek|done|done|done|done|done|done|left; unfold Exec.is_branch; by rewrite Ek].
  apply (op_nodup m Hwf). by apply entry_in_module.
Qed.

(** A case that ends in a jump, and a case after it. *)
Lemma case_false ha ra pa hb rb pb ca cb t x : before_in (Exec.entry r) (op_id ha) (op_id hb) = true → Exec.is_named "cir.case" ha = true → ends_case (last_of ha 0) = true →
  Exec.exec (Exec.ISeq (Exec.entry r)) t x → ca ∈ t → placed r ca ((ha, ra) :: pa) → cb ∈ t → placed r cb ((hb, rb) :: pb) → False.
Proof.
  intros Hb Hn He Ht Ha Hpa Hcb Hpb. destruct (placed_cons _ _ _ _ _ _ _ Ht Ha Hpa) as (Hh & Hch & r' & Hr' & Hcr & _).
  destruct (placed_cons _ _ _ _ _ _ _ Ht Hcb Hpb) as (Hh' & Hch' & _). pose proof (case_regions ha (entry_in_module ha Hh) Hn) as Hlen.
  assert (ra = 0%nat) as -> by (apply lookup_lt_Some in Hr'; lia). destruct (fell_through t x ha hb ca cb Ht Hb Hh Hh' Ha Hch Hcb Hch') as (t1 & Ht1 & Hc1).
  destruct (last_of ha 0) as [e|] eqn:El; [|done]. apply jump_case in He. unfold Exec.is_named in Hn. destruct (op_kind ha) eqn:Ek; try done.
  eapply (no_fall ha 0 t1 ca e r'); [apply (op_nodup m Hwf), entry_in_module, Hh|by unfold Exec.is_loop; rewrite Ek|done|done|done|done|done|done|].
  right. split; [done|]. unfold Exec.is_named. rewrite Ek. apply String.eqb_eq in Hn. by rewrite Hn.
Qed.

Lemma before_total l a b : a ∈ l → b ∈ l → op_id a ≠ op_id b → before_in l (op_id a) (op_id b) = true ∨ before_in l (op_id b) (op_id a) = true.
Proof.
  induction l as [|o l IH]; intros Ha Hb Hne; [by apply elem_of_nil in Ha|]. cbn.
  destruct (Nat.eqb_spec (op_id o) (op_id a)) as [E|E], (Nat.eqb_spec (op_id o) (op_id b)) as [E'|E']; [congruence|left|right|].
  - apply existsb_exists. exists b. split; [|apply Nat.eqb_refl]. apply list_elem_of_In. apply elem_of_cons in Hb as [->|Hb]; [done|done].
  - apply existsb_exists. exists a. split; [|apply Nat.eqb_refl]. apply list_elem_of_In. apply elem_of_cons in Ha as [->|Ha]; [done|done].
  - apply IH; [|..|done]; [apply elem_of_cons in Ha as [->|Ha]; done|apply elem_of_cons in Hb as [->|Hb]; done].
Qed.
End region.

(** Two paths that exclude each other do not both lead to what one run of a
    region executed. *)
Lemma exclude_run ca cb qa : ∀ qb pre pa pb ho ko r t x, ho ∈ walk_module m → regions ho !! ko = Some r → Exec.exec (Exec.ISeq (Exec.entry r)) t x →
  ca ∈ t → cb ∈ t → placed r ca qa → placed r cb qb → pa = pre ++ qa → pb = pre ++ qb → paths_exclude m pa pb qa qb (length pre) ca cb = true → False.
Proof.
  induction qa as [|[ha ra] qa IH]; intros qb pre pa pb ho ko r t x Hho Hr Ht Ha Hb Hpa Hpb Ea Eb H.
  - assert (arm_returns m pb (length pre) ca = true) as H'.
    { destruct qb; cbn [paths_exclude] in H; rewrite Ea, Eb, !length_app in H; cbn [length] in H; rewrite (proj2 (Nat.ltb_ge _ _)) in H by lia; by rewrite Eb. }
    destruct qb as [|[hb rb] qb].
    { unfold arm_returns in H'. by rewrite Eb, app_nil_r, lookup_ge_None_2 in H'. }
    eapply (arm_false ho ko r Hho Hr); [exact H'|rewrite Eb; by apply list_lookup_middle|exact Ht|exact Hb|exact Hpb|exact Ha|exact Hpa].
  - destruct qb as [|[hb rb] qb].
    { cbn [paths_exclude] in H. rewrite Ea, Eb, !length_app in H. cbn [length] in H. rewrite (proj2 (Nat.ltb_lt _ _)) in H by lia.
      eapply (arm_false ho ko r Hho Hr); [exact H|by apply list_lookup_middle|exact Ht|exact Ha|exact Hpa|exact Hb|exact Hpb]. }
    destruct (placed_cons _ _ _ _ _ _ _ Ht Ha Hpa) as (Hh & Hch & ra' & Hra & Hcra & Hpa'). destruct (placed_cons _ _ _ _ _ _ _ Ht Hb Hpb) as (Hh' & Hch' & rb' & Hrb & Hcrb & Hpb').
    assert (∀ y z, y ∈ (ha, ra) :: qa → z ∈ (hb, rb) :: qb → op_id (fst y) = op_id (fst z) → fst y = fst z) as Heq.
    { intros y z Hy Hz. apply same_id; [exact (path_in_module ho ko r Hho Hr _ _ _ _ _ Ht Ha Hpa Hy)|exact (path_in_module ho ko r Hho Hr _ _ _ _ _ Ht Hb Hpb Hz)]. }
    cbn [paths_exclude] in H. destruct (Nat.eqb_spec (op_id ha) (op_id hb)) as [E|E]; cbn [negb] in H.
    + assert (ha = hb) as <- by (apply (Heq (ha, ra) (hb, rb)); [left|left|done]).
      assert (ha ∈ walk_module m) as Hham by by eapply (entry_in_module ho ko r). pose proof (op_nodup m Hwf ha Hham) as Hnd.
      destruct (list_elem_of_split _ _ Hh) as (l1 & l2 & El). pose proof (entry_ids_nodup ho ko r Hho Hr) as Hndr. rewrite El in Hndr. pose proof Ht as Ht'. rewrite El in Ht'.
      destruct (seq_run _ _ _ _ _ Hndr Ht') as (t1 & x1 & H1 & H2 & _); [by exists ca|].
      destruct (Nat.eqb_spec ra rb) as [<-|Hne].
      * assert (ra' = rb') as <- by congruence.
        assert (Exec.is_loop ha = false) as Hl.
        { apply (no_loop ca cb qa qb (pre ++ [(ha, ra)]) pa pb) with (h := (ha, ra)); [by rewrite <-app_assoc|by rewrite <-app_assoc|intros y z Hy Hz; apply Heq; by right| |apply elem_of_app; right; left].
          rewrite length_app, Nat.add_1_r. done. }
        destruct (region_run ha ra ra' t1 x1 Hnd Hl Hra H1) as (t2 & x2 & H3 & H4 & _); [exists ca; auto|].
        eapply (IH qb (pre ++ [(ha, ra)]) pa pb ha ra ra' t2 x2); [done|done|done|auto|auto|done|done|by rewrite <-app_assoc|by rewrite <-app_assoc|].
        rewrite length_app, Nat.add_1_r. done.
      * apply andb_true_iff in H as [Hbr _]. assert (Exec.is_loop ha = false) as Hl by (unfold Exec.is_branch, Exec.is_loop in *; by destruct (op_kind ha)).
        destruct (region_run ha ra ra' t1 x1 Hnd Hl Hra H1) as (t2 & x2 & H3 & _ & H4 & _); [exists ca; auto|]. destruct (H4 Hbr) as [_ H5].
        rewrite ids_unfold in Hnd. apply NoDup_app in Hnd as (Hnd & Hd & _). destruct (H5 cb) as [->|Hin]; [auto| |].
        -- apply (Hd (op_id ha)); [|left]. apply elem_of_flat_map. exists rb'. split; [by eapply list_elem_of_lookup_2|by apply region_pre_ids].
        -- apply Hne. eapply (nodup_index region_ids); [exact Hnd|exact Hra|exact Hrb| |by apply region_pre_ids]. apply region_pre_ids. by eapply entry_run_region.
    + destruct (parent_op m (op_id ha)) as [sa|], (parent_op m (op_id hb)) as [sb|]; try done.
      apply andb_true_iff in H as [[[[[[Hca Hcb]%andb_true_iff _]%andb_true_iff _]%andb_true_iff Hea]%andb_true_iff Heb]%andb_true_iff _].
      destruct (before_total (Exec.entry r) ha hb Hh Hh' E) as [Hbf|Hbf]; [eapply (case_false ho ko r Hho Hr ha ra qa hb rb qb ca cb)|eapply (case_false ho ko r Hho Hr hb rb qb ha ra qa cb ca)]; eauto.
Qed.

Lemma body_placed f o : f ∈ m → placed (body f) o (regionPath m o f).
Proof.
  intros Hf e fs He Hs. unfold body in He. destruct (regions f) as [|[|b r] rs] eqn:Er; [by apply elem_of_nil in He|by apply elem_of_nil in He|]. cbn in He.
  assert (sits f (Frame f 0 b :: fs) o) as Hsf by (eapply (sits_in f 0 (b :: r) b e); [by rewrite Er|left|done|done]).
  unfold regionPath, hops. rewrite (frames_of_sits m Hwf f _ o Hf Hsf). cbn. rewrite Nat.eqb_refl. cbn. f_equal. symmetry. apply forallb_filter_id, forallb_forall.
  intros fr Hfr%list_elem_of_In. apply negb_true_iff, Nat.eqb_neq. intros E. destruct (sits_frame _ _ _ _ Hs Hfr) as [_ Hin].
  pose proof (op_nodup m Hwf f (module_in_walk m f Hf)) as Hnd. rewrite ids_unfold in Hnd. apply NoDup_app in Hnd as (_ & Hd & _).
  apply (Hd (op_id f)); [|left]. rewrite <-E. apply elem_of_flat_map. exists (b :: r). split; [rewrite Er; left|]. apply elem_of_flat_map. exists b. split; [left|].
  apply elem_of_flat_map. exists e. split; [done|by apply in_ids].
Qed.

(** What [exclusive] reads off the paths of two sites: no run of the
    function executes both. *)
Lemma sites_exclude f ca cb t x : f ∈ m → paths_exclude m (regionPath m ca f) (regionPath m cb f) (regionPath m ca f) (regionPath m cb f) 0 ca cb = true →
  Exec.exec (Exec.ISeq (Exec.entry (body f))) t x → ca ∈ t → cb ∈ t → False.
Proof.
  intros Hf H Ht Ha Hb. destruct (regions f) as [|r rs] eqn:Er.
  { unfold body in Ht. rewrite Er in Ht. pose proof (Exec.exec_in _ _ _ Ht ca Ha) as Hin. by apply elem_of_nil in Hin. }
  eapply (exclude_run ca cb _ _ [] _ _ f 0 (body f) t x (module_in_walk m f Hf)); [unfold body; by rewrite Er|exact Ht|exact Ha|exact Hb|by apply body_placed|by apply body_placed|done|done|exact H].
Qed.
End paths.
End Exclusive.
