(* ===== verification/ThreadRuns.v ===== *)
(** * ThreadRuns: what the walk's multiplicities say of a run of the program

    A run of the program is a list of activations of functions, each started
    by the program itself or by a call that an earlier activation executed,
    on that activation's thread or on a new one.  Where the walk met no
    recursion and was not cut short, every activation of a relevant function
    is covered by an instance; an instance that runs once covers one
    activation ([cover_unique], [runs_once_sound]), the instances of a thread
    that stands for one cover activations of one thread ([cover_thread]), and
    threads that exclude each other are never both there
    ([exclusive_sound]).  The walk ends with every instance visited
    ([walk_visits_all]). *)

From stdpp Require Import base tactics list strings gmap.
From Stdlib Require Import String ZArith Lia.
From S2P Require Import Prelude Text Cir Utils Slots Loops Frames Graph Exec Threads ThreadsSpec Exclusive.
Local Open Scope list_scope.

Module ThreadRuns.
Import Threads Frames ThreadsSpec Exclusive.

Section walk.
Context (m : module) (Hwf : wf_ids m = true).
Context (isAddressTaken : operation → bool) (invokeTargets : nat → option (list operation * bool)) (fieldEntries : value → instance → list operation).
Context (relevant : operation → bool) (cap : nat) (callableElsewhere : operation → bool) (global_ctors : list string).
Context (resolveCallable : instance → option operation) (stdThreadEntry : operation → option operation) (resolvedRuns : list nat).

Abbreviation addIfRoom := (Threads.addIfRoom m cap).
Abbreviation addRootsForModule := (Threads.addRootsForModule m isAddressTaken invokeTargets relevant cap global_ctors).
Abbreviation ctor_functions := (Threads.ctor_functions m global_ctors).
Abbreviation addCallee := (Threads.addCallee m isAddressTaken invokeTargets cap).
Abbreviation callee_instance := (Threads.callee_instance m isAddressTaken invokeTargets).
Abbreviation add_entry := (Threads.add_entry m isAddressTaken invokeTargets relevant cap).
Abbreviation spawn_entries := (Threads.spawn_entries m fieldEntries stdThreadEntry).
Abbreviation invoked := (Threads.invoked m resolveCallable).
Abbreviation expand_call := (Threads.expand_call m isAddressTaken invokeTargets fieldEntries relevant cap resolveCallable stdThreadEntry).
Abbreviation expand := (Threads.expand m isAddressTaken invokeTargets fieldEntries relevant cap resolveCallable stdThreadEntry).
Abbreviation step := (Threads.step m isAddressTaken invokeTargets fieldEntries relevant cap resolveCallable stdThreadEntry).
Abbreviation wave := (Threads.wave m isAddressTaken invokeTargets fieldEntries relevant cap resolveCallable stdThreadEntry).
Abbreviation addOrphanRoots := (Threads.addOrphanRoots m relevant cap callableElsewhere resolvedRuns).
Abbreviation run := (Threads.run m isAddressTaken invokeTargets fieldEntries relevant cap callableElsewhere global_ctors resolveCallable stdThreadEntry resolvedRuns).

(** ** What holds of every instance *)

(** An instance began its thread. *)
Definition begins (K : instance) : Prop := match i_parent K with Some P => i_thread K ≠ i_thread P | None => True end.

(** An instance against the one that made it. *)
Definition lawful (K : instance) : Prop :=
  match i_parent K, i_site K with
  | Some P, Some c =>
      (execMult K = One → execMult P = One ∧ siteMult m c (i_func P) = (One, true)) ∧
      (if decide (i_thread K = i_thread P) then threadMult K = threadMult P
       else threadMult K = One → execMult P = One ∧ siteMult m c (i_func P) = (One, true))
  | None, None => True
  | _, _ => False
  end ∧ (execMult K = One → threadMult K = One).

Record good (st : state) : Prop := {
  good_number : ∀ n K, instances st !! n = Some K → i_number K = n;
  good_lawful : ∀ K, K ∈ instances st → lawful K;
  good_parent : ∀ n K P, instances st !! n = Some K → i_parent K = Some P → ∃ p, p < n ∧ instances st !! p = Some P;
  good_fresh : ∀ K, K ∈ instances st → i_thread K < nextThread st;
  good_cap : length (instances st) ≤ cap;
  good_thread : ∀ K K', K ∈ instances st → K' ∈ instances st → begins K → begins K' → i_thread K = i_thread K' →
    K = K' ∨ i_parent K = None ∧ i_parent K' = None;
}.

(** Instances added, and nothing lost. *)
Record extends (st st' : state) : Prop := {
  ext_prefix : instances st `prefix_of` instances st';
  ext_cap : capExceeded st' = false → capExceeded st = false;
  ext_rec : recursions st' = recursions st;
  ext_next : nextThread st ≤ nextThread st';
  ext_good : good st → good st';
}.
#[global] Instance extends_preorder : PreOrder extends.
Proof.
  split; [split; auto; done|]. intros a b c [] []. split; [by etrans|auto|congruence|lia|auto].
Qed.

Lemma ext_in st st' K : extends st st' → K ∈ instances st → K ∈ instances st'.
Proof. intros [[l E] _ _ _ _] Hin. rewrite E. apply elem_of_app. by left. Qed.
Lemma ext_at st st' n K : extends st st' → instances st !! n = Some K → instances st' !! n = Some K.
Proof. intros [Hp _ _ _ _] Hn. by eapply prefix_lookup_Some. Qed.

(** Folds of what only adds: [I] is what the step needs of the state. *)
Section fold.
Context {A : Type} (f : state → A → state) (I : state → Prop) (Q : A → state → Prop).
Context (HI : ∀ st st', extends st st' → I st → I st') (HQ : ∀ x st st', extends st st' → Q x st → Q x st').

Lemma ext_fold l st : (∀ st x, x ∈ l → I st → extends st (f st x)) → I st → extends st (fold_left f l st).
Proof.
  revert st. induction l as [|x l IH]; intros st Hf Hst; [done|]. cbn. assert (extends st (f st x)) as Hx by (apply Hf; [left|done]).
  etrans; [done|]. apply IH; [intros; apply Hf; [by right|done]|eauto].
Qed.

(** What one step of a fold establishes holds after it. *)
Lemma fold_est l st : (∀ st x, x ∈ l → I st → extends st (f st x)) →
  (∀ st x, x ∈ l → I st → capExceeded (f st x) = false → Q x (f st x)) →
  I st → capExceeded (fold_left f l st) = false → ∀ x, x ∈ l → Q x (fold_left f l st).
Proof.
  intros Hf Hest. revert st. induction l as [|y l IH]; intros st Hst Hc x Hx; [by apply elem_of_nil in Hx|]. cbn in Hc |- *.
  assert (extends st (f st y)) as Hy by (apply Hf; [left|done]).
  assert (extends (f st y) (fold_left f l (f st y))) as Hext by (apply ext_fold; [intros; apply Hf; [by right|done]|eauto]).
  apply elem_of_cons in Hx as [->|Hx].
  - eapply HQ; [done|]. apply Hest; [left|done|]. by apply (ext_cap _ _ Hext).
  - apply IH; [intros; apply Hf; [by right|done]| |eauto|done|done]. intros z w Hw. apply Hest. by right.
Qed.
End fold.

Lemma ext_remark at_ msg st : extends st (noteRemark at_ msg st).
Proof. unfold noteRemark. case_match; [done|]. split; [done|done|done|done|]. by intros []. Qed.
Lemma ext_memo c st : extends st (with_memo c st).
Proof. split; [done|done|done|done|]. by intros []. Qed.
Lemma ext_take st : extends st (with_next (S (nextThread st)) st).
Proof. split; [done|done|done|cbn; lia|]. intros []. split; [done|done|done| |done|done]. intros K HK. cbn. specialize (good_fresh0 K HK). lia. Qed.

(** ** One instance added *)

Lemma numbered_lawful n i : lawful i → lawful (numbered m n i).
Proof.
  destruct i as [? f t tm em s p ? ? ? ? ? ? ? ? ?]. unfold lawful, numbered. cbn. intros [H1 H2].
  destruct (isRecursive m f); [|done]. split; [|done]. destruct p as [P|], s as [c|]; [|done..]. destruct H1 as [_ H1]. split; [done|]. done.
Qed.

(** A thread of its own, unless it runs on its parent's or is a root among
    roots. *)
Definition own_thread (i : instance) (st : state) : Prop :=
  begins i → ∀ K, K ∈ instances st → begins K → i_thread K = i_thread i → i_parent i = None ∧ i_parent K = None.

Lemma addIfRoom_ext i st : (∀ P, i_parent i = Some P → P ∈ instances st) → lawful i → i_thread i < nextThread st → own_thread i st → extends st (addIfRoom i st).
Proof.
  intros Hp Hl Ht Ho. unfold Threads.addIfRoom. destruct (Nat.leb_spec cap (length (instances st))) as [Hc|Hc].
  { split; [done|done|done|done|]. by intros []. }
  split; [by eexists|done|done|done|]. intros []. split; cbn.
  - intros n K [Hn|[Hn Hk]]%lookup_app_Some; [by apply good_number0|].
    apply list_lookup_singleton_Some in Hk as [Hk <-]. cbn. lia.
  - intros K [HK|HK]%elem_of_app; [auto|]. apply list_elem_of_singleton in HK as ->. by apply numbered_lawful.
  - intros n K P HK HP. assert (∃ p, p < n ∧ instances st !! p = Some P) as (p & Hlt & HPp).
    { apply lookup_app_Some in HK as [HK|[Hle [_ <-]%list_lookup_singleton_Some]]; [eauto|].
      destruct (list_elem_of_lookup_1 _ _ (Hp P HP)) as [p HPp]. exists p. split; [apply lookup_lt_Some in HPp; lia|done]. }
    exists p. split; [done|]. by apply lookup_app_l_Some.
  - intros K [HK|HK]%elem_of_app; [auto|]. by apply list_elem_of_singleton in HK as ->.
  - rewrite length_app. cbn. lia.
  - intros K K' [HK|HK]%elem_of_app [HK'|HK']%elem_of_app Hb Hb' E; [by apply good_thread0| | |].
    + apply list_elem_of_singleton in HK' as ->. right. cbn. destruct (Ho Hb' K HK Hb E) as [? ?]. done.
    + apply list_elem_of_singleton in HK as ->. right. cbn. by destruct (Ho Hb K' HK' Hb' (eq_sym E)) as [? ?].
    + apply list_elem_of_singleton in HK as ->, HK' as ->. by left.
Qed.

Lemma addIfRoom_in i st : capExceeded (addIfRoom i st) = false → instances (addIfRoom i st) = instances st ++ [numbered m (length (instances st)) i].
Proof. unfold Threads.addIfRoom. by destruct (_ <=? _). Qed.
(** ** What an instance is expanded to *)

(** A call of [P]'s function starts [g], on a thread of its own or not, as
    the walk reads it through the chain of [P]. *)
Definition starts_in (P : instance) (c : operation) (spawned : bool) (g : operation) : Prop :=
  match lookupCallee m c with
  | None => spawned = false ∧ has_body g = true ∧ ∃ l u, invokeTargets (op_id (i_func P)) = Some (l, u) ∧ g ∈ invoked P l u
  | Some callee =>
      if is_spawn callee then
        ∃ es, spawn_entries P c callee = Some es ∧ existsb body_empty es = false ∧ g ∈ es ∧
              (spawned = true ∨ remote_launch m c = true ∧ skips_main m c = false)
      else spawned = false ∧ getSemanticKind (Some callee) = Unknown ∧ body_empty callee = false ∧ g = callee
  end.

(** [K] is the instance of [g] that [P]'s call made. *)
Definition made (st : state) (P : instance) (c : operation) (spawned : bool) (g : operation) (K : instance) : Prop :=
  K ∈ instances st ∧ i_parent K = Some P ∧ i_site K = Some c ∧ i_func K = g ∧
  if spawned then i_thread K ≠ i_thread P else i_thread K = i_thread P.
Definition closed_at (P : instance) (c : operation) (st : state) : Prop :=
  ∀ spawned g, starts_in P c spawned g → relevant g = true → ∃ K, made st P c spawned g K.
Definition closed (st : state) (P : instance) : Prop := ∀ c, c ∈ calls_in (i_func P) → closed_at P c st.

Definition usable (P : instance) (st : state) : Prop := P ∈ instances st ∧ good st.
Lemma usable_ext P st st' : extends st st' → usable P st → usable P st'.
Proof. intros He [HP Hg]. split; [by eapply ext_in|by apply (ext_good _ _ He)]. Qed.

Lemma made_ext st st' P c sp g K : extends st st' → made st P c sp g K → made st' P c sp g K.
Proof. intros He (HK & H). split; [by eapply ext_in|done]. Qed.

Lemma siteMult_one o f : fst (siteMult m o f) = One → siteMult m o f = (One, true).
Proof. unfold siteMult. repeat case_match; done. Qed.
Lemma join_one a b : join a b = One ↔ a = One ∧ b = One.
Proof. destruct a, b; cbn; naive_solver. Qed.

Lemma site_exec_one P c : fst (site_exec m P c) = One ↔ execMult P = One ∧ siteMult m c (i_func P) = (One, true).
Proof.
  unfold site_exec. destruct (siteMult m c (i_func P)) as [s k] eqn:E. cbn. rewrite join_one. split; [|naive_solver].
  intros [-> ->]. split; [done|]. rewrite <-E. apply siteMult_one. by rewrite E.
Qed.

Lemma addCallee_spec P c g st : usable P st → extends st (addCallee P c g st) ∧
  (capExceeded (addCallee P c g st) = false → ∃ K, made (addCallee P c g st) P c false g K).
Proof.
  intros [HP Hg]. unfold Threads.addCallee, Threads.callee_instance. pose proof (site_exec_one P c) as H1. destruct (site_exec m P c) as [mult unknown]. cbn in H1. split.
  - apply addIfRoom_ext; cbn; [by intros Q [= <-]| |by apply (good_fresh _ Hg)|by intros Hb; destruct Hb]. unfold lawful. cbn. destruct (good_lawful _ Hg P HP) as [_ Hl].
    rewrite decide_True by done. split; [split; [by rewrite H1|done]|]. intros [H _]%H1. by apply Hl.
  - intros Hc. unfold made. rewrite (addIfRoom_in _ _ Hc). eexists. split; [apply elem_of_app; right; apply list_elem_of_singleton; done|]. done.
Qed.

Lemma add_entry_spec P c g st : usable P st → extends st (add_entry P c st g) ∧
  (capExceeded (add_entry P c st g) = false → relevant g = true →
   (∃ K, made (add_entry P c st g) P c true g K) ∧
   (remote_launch m c = true → skips_main m c = false → ∃ K, made (add_entry P c st g) P c false g K)).
Proof.
  intros Hu. unfold Threads.add_entry. destruct (relevant g); cbn [negb]; [|done]. cbn [take_thread].
  match goal with |- context [match ?x with (_, _) => _ end] => destruct x as [loop memo] end.
  set (st1 := with_memo memo _). assert (extends st st1) as H1 by (etrans; [apply ext_take|apply ext_memo]).
  assert (usable P st1) as Hu1 by by eapply usable_ext. pose proof Hu1 as [HP1 Hg1].
  assert (i_thread P < nextThread st) as Ht by (destruct Hu as [HP Hg]; by apply (good_fresh _ Hg)).
  set (K := entry_instance _ _ _ _ _ _). assert (i_parent K = Some P ∧ i_site K = Some c ∧ i_func K = g ∧ i_thread K = nextThread st) as (E1 & E2 & E3 & E4).
  { subst K. unfold entry_instance. by destruct (site_exec m P c). }
  assert (extends st1 (addIfRoom K st1)) as H2.
  { apply addIfRoom_ext; [by rewrite E1; intros Q [= <-]| |rewrite E4; cbn; lia|].
    2: { intros _ K' HK' _ E. rewrite E4 in E. destruct Hu as [_ Hg]. pose proof (good_fresh _ Hg K' HK'). lia. }
    unfold lawful. rewrite E1, E2, E4, decide_False by lia.
    subst K. unfold entry_instance. pose proof (site_exec_one P c) as H. destruct (site_exec m P c) as [mult unknown]. cbn in H |- *. by rewrite H. }
  assert (capExceeded (addIfRoom K st1) = false → made (addIfRoom K st1) P c true g (numbered m (length (instances st1)) K)) as H3.
  { intros Hc. unfold made. rewrite (addIfRoom_in _ _ Hc). cbn. rewrite E1, E2, E3, E4. split; [apply elem_of_app; right; by apply list_elem_of_singleton|].
    split; [done|]. split; [done|]. split; [done|]. lia. }
  destruct (remote_launch m c) eqn:Er; [destruct (skips_main m c) eqn:Es|].
  - split; [by do 2 (etrans; [done|])|]. intros Hc _. split; [eauto|done].
  - destruct (addCallee_spec P c g (addIfRoom K st1)) as [H4 H5]; [by eapply usable_ext|]. split; [by do 3 (etrans; [done|])|].
    intros Hc _. split; [|auto]. eexists. eapply made_ext; [done|]. apply H3. by apply (ext_cap _ _ H4).
  - split; [by do 2 (etrans; [done|])|]. intros Hc _. split; [eauto|done].
Qed.

Lemma closed_at_ext P c st st' : extends st st' → closed_at P c st → closed_at P c st'.
Proof. intros He Hc sp g Hs Hr. destruct (Hc sp g Hs Hr) as [K HK]. exists K. by eapply made_ext. Qed.

Lemma expand_call_spec P c st : usable P st → extends st (expand_call P st c) ∧ (capExceeded (expand_call P st c) = false → closed_at P c (expand_call P st c)).
Proof.
  intros Hu. unfold Threads.expand_call, closed_at, starts_in. destruct (lookupCallee m c) as [callee|].
  - destruct (is_spawn callee).
    + destruct (spawn_entries P c callee) as [es|] eqn:Ee; [|split; [done|by intros _ sp g (es & ? & _)]].
      destruct (existsb body_empty es) eqn:Eb.
      { assert (match es with [] => true | _ => true end = true) as -> by by destruct es.
        split; [apply ext_remark|]. intros _ sp g (es' & [= <-] & Hb & _). by rewrite Eb in Hb. }
      destruct (match es with [] => true | _ => false end) eqn:En.
      { split; [apply ext_remark|]. destruct es; [|done]. by intros _ sp g (es' & [= <-] & _ & Hg%elem_of_nil & _). }
      set (Q g st' := relevant g = true → (∃ K, made st' P c true g K) ∧ (remote_launch m c = true → skips_main m c = false → ∃ K, made st' P c false g K)).
      assert (∀ x st st', extends st st' → Q x st → Q x st') as HQ.
      { intros x s1 s2 He H Hr. destruct (H Hr) as [(K & HK) H2]. split; [exists K; by eapply made_ext|]. intros Hl Hs. destruct (H2 Hl Hs) as [K' HK']. exists K'. by eapply made_ext. }
      split; [apply (ext_fold _ (usable P) (usable_ext P)); [|done]; intros s g _ Hs; by apply add_entry_spec|].
      intros Hc sp g (es' & [= <-] & _ & Hg & Hsp) Hr.
      assert (Q g (fold_left (add_entry P c) es st)) as Hq.
      { apply (fold_est _ (usable P) Q (usable_ext P) HQ); [intros s x _ Hs; by apply add_entry_spec| |done|done|done].
        intros s x _ Hs Hcx Hrx. by apply add_entry_spec. }
      destruct (Hq Hr) as [H1 H2]. destruct sp; [done|]. destruct Hsp as [?|[? ?]]; [done|]. by apply H2.
    + destruct (bool_decide_reflect (getSemanticKind (Some callee) = Unknown)) as [Hk|Hk]; cbn [negb orb]; [|split; [done|by intros _ sp g (_ & ? & _)]].
      destruct (body_empty callee) eqn:Eb; cbn [orb]; [split; [done|by intros _ sp g (_ & _ & ? & _)]|].
      destruct (relevant callee) eqn:Er; cbn [negb]; [|split; [done|]; intros _ sp g (_ & _ & _ & ->) Hr; congruence].
      destruct (addCallee_spec P c callee st Hu) as [H1 H2]. split; [done|]. intros Hc sp g (-> & _ & _ & ->) _. auto.
  - destruct (invokeTargets (op_id (i_func P))) as [[l u]|] eqn:Ei; [|split; [done|by intros _ sp g (_ & _ & l & u & ? & _)]].
    destruct (invoked P l u) as [|t ts] eqn:Et; [split; [apply ext_remark|]; intros _ sp g (_ & _ & l' & u' & [= <- <-] & Hg) _; rewrite Et in Hg; by apply elem_of_nil in Hg|].
    set (f := λ st t, if has_body t && relevant t then addCallee P c t st else st).
    assert (∀ st x, usable P st → extends st (f st x) ∧ (capExceeded (f st x) = false → has_body x = true → relevant x = true → ∃ K, made (f st x) P c false x K)) as Hf.
    { intros s x Hs. unfold f. destruct (has_body x), (relevant x); [|by split..]. destruct (addCallee_spec P c x s Hs) as [H1 H2]. split; [done|auto]. }
    set (Q g st' := has_body g = true → relevant g = true → ∃ K, made st' P c false g K).
    assert (∀ x st st', extends st st' → Q x st → Q x st') as HQ.
    { intros x s1 s2 He H Hb Hr. destruct (H Hb Hr) as [K HK]. exists K. by eapply made_ext. }
    split; [apply (ext_fold _ (usable P) (usable_ext P)); [|done]; intros s g _ Hs; exact (proj1 (Hf s g Hs))|].
    intros Hc sp g (-> & Hb & l' & u' & [= <- <-] & Hg) Hr. rewrite Et in Hg.
    apply (fold_est f (usable P) Q (usable_ext P) HQ (t :: ts) st); [intros s x _ Hs; exact (proj1 (Hf s x Hs))|intros s x _ Hs Hcx; exact (proj2 (Hf s x Hs) Hcx)|done..].
Qed.

Lemma expand_spec P st : usable P st → extends st (expand P st) ∧ (capExceeded (expand P st) = false → closed (expand P st) P).
Proof.
  intros Hu. unfold Threads.expand. split.
  - apply (ext_fold _ (usable P) (usable_ext P)); [|done]. intros s c _ Hs. by apply expand_call_spec.
  - intros Hc c Hin. apply (fold_est _ (usable P) (λ c st, closed_at P c st) (usable_ext P)); [|intros s x _ Hs; by apply expand_call_spec..|done|done|done].
    intros x s s' He H. by eapply closed_at_ext.
Qed.

(** ** The walk *)

(** Whatever is expanded, recursions are only noted by a step, and the cap
    holds. *)
Record steady (st st' : state) : Prop := {
  steady_rec : recursions st' = recursions st;
  steady_len : length (instances st) ≤ length (instances st');
  steady_cap : length (instances st) ≤ cap → length (instances st') ≤ cap;
}.
#[local] Instance steady_preorder : PreOrder steady.
Proof. split; [by split|]. intros a b c [] []. split; [congruence|lia|auto]. Qed.

Lemma steady_fold {A} (f : state → A → state) l st : (∀ st x, steady st (f st x)) → steady st (fold_left f l st).
Proof. intros Hf. revert st. induction l as [|x l IH]; intros st; [done|]. cbn. by etrans; [apply Hf|]. Qed.
Lemma steady_room i st : steady st (addIfRoom i st).
Proof.
  unfold Threads.addIfRoom. destruct (Nat.leb_spec cap (length (instances st))); split; [done..|cbn; rewrite ?length_app; cbn; lia|cbn; rewrite ?length_app; cbn; lia].
Qed.
Lemma steady_remark at_ msg st : steady st (noteRemark at_ msg st).
Proof. unfold noteRemark. by case_match. Qed.
Lemma steady_entry P c st g : steady st (add_entry P c st g).
Proof.
  unfold Threads.add_entry. destruct (negb _); [done|]. cbn [take_thread].
  match goal with |- context [match ?x with (_, _) => _ end] => destruct x as [loop memo] end.
  match goal with |- context [addIfRoom ?i ?s] => assert (steady st (addIfRoom i s)) as H by (etrans; [|apply steady_room]; by split) end.
  destruct (remote_launch m c), (skips_main m c); [done| |done..]. etrans; [exact H|]. apply steady_room.
Qed.
Lemma steady_expand P st : steady st (expand P st).
Proof.
  apply steady_fold. intros s c. unfold Threads.expand_call. repeat case_match; try done; try apply steady_remark; try apply steady_room.
  - apply steady_fold. intros. apply steady_entry.
  - change (steady s (fold_left (λ st t, if has_body t && relevant t then addCallee P c t st else st) (o :: l0) s)).
    apply steady_fold. intros. case_match; [apply steady_room|done].
Qed.

(** A step that met no recursion expands. *)
Lemma step_spec n P st : good st → instances st !! n = Some P → recursions (step n st) = [] →
  recursions st = [] ∧ extends st (step n st) ∧ (capExceeded (step n st) = false → closed (step n st) P).
Proof.
  intros Hg Hn. unfold Threads.step. rewrite Hn. destruct (recurs P).
  - intros H. exfalso. match type of H with recursions (if ?b then _ else _) = _ => destruct b end; [|rewrite (steady_rec _ _ (steady_expand _ _)) in H]; cbn in H; by destruct (recursions st).
  - intros H. assert (usable P st) as Hu by (split; [by eapply list_elem_of_lookup_2|done]). destruct (expand_spec P st Hu) as [H1 H2].
    split; [by rewrite <-(ext_rec _ _ H1)|done].
Qed.

Lemma closed_ext st st' P : extends st st' → closed st P → closed st' P.
Proof. intros He H c Hc. eapply closed_at_ext; eauto. Qed.

(** A step loses no instance, keeps the cap and forgets no recursion. *)
Lemma step_steady n st : length (instances st) ≤ length (instances (step n st)) ∧ (length (instances st) ≤ cap → length (instances (step n st)) ≤ cap) ∧
  (recursions (step n st) = [] → recursions st = []).
Proof.
  unfold Threads.step. destruct (instances st !! n) as [P|]; [|done]. destruct (recurs P).
  - match goal with |- context [if ?b then _ else _] => destruct b end; [cbn; rewrite length_insert; by destruct (recursions st)|].
    match goal with |- context [expand ?P ?s] => destruct (steady_expand P s) as [H1 H2 H3] end. cbn in *. rewrite length_insert in *. rewrite H1. by destruct (recursions st).
  - destruct (steady_expand P st) as [H1 H2 H3]. by rewrite H1.
Qed.

(** The walk ends with every instance visited. *)
Lemma wave_finishes fuel n st : n ≤ length (instances st) ≤ cap → cap < n + fuel →
  let '(n', st') := wave fuel n st in n' = length (instances st') ∧ length (instances st) ≤ n' ≤ cap.
Proof.
  revert n st. induction fuel as [|fuel IH]; intros n st Hn Hf; [lia|]. cbn [Threads.wave].
  destruct (Nat.ltb_spec n (length (instances st))) as [Hl|Hl]; [|lia].
  destruct (step_steady n st) as (H1 & H2 & _). specialize (IH (S n) (step n st)). destruct (wave fuel (S n) (step n st)) as [n' st'].
  destruct IH as [-> IH]; [lia..|]. lia.
Qed.

Lemma wave_rec fuel n st : recursions (snd (wave fuel n st)) = [] → recursions st = [].
Proof.
  revert n st. induction fuel as [|fuel IH]; intros n st; [done|]. cbn [Threads.wave]. destruct (_ <? _); [|done]. intros H%IH. by apply (step_steady n).
Qed.

Lemma wave_spec fuel n st n' st' : wave fuel n st = (n', st') → good st → recursions st' = [] →
  extends st st' ∧ (capExceeded st' = false → ∀ k P, n ≤ k < n' → instances st' !! k = Some P → closed st' P).
Proof.
  revert n st. induction fuel as [|fuel IH]; intros n st E Hg Hr; cbn [Threads.wave] in E; [injection E as <- <-; split; [done|lia]|].
  destruct (Nat.ltb_spec n (length (instances st))) as [Hl|Hl]; [|injection E as <- <-; split; [done|lia]].
  destruct (lookup_lt_is_Some_2 _ _ Hl) as [P HP].
  assert (recursions (step n st) = []) as Hrs by (apply (wave_rec fuel (S n)); by rewrite E).
  destruct (step_spec n P st Hg HP Hrs) as (_ & H1 & H2). destruct (IH _ _ E) as [H3 H4]; [by apply (ext_good _ _ H1)|done|].
  split; [by etrans|]. intros Hc k Q Hk HQ. destruct (decide (k = n)) as [->|Hne]; [|apply (H4 Hc k); [lia|done]].
  assert (Q = P) as ->. { pose proof (ext_at _ _ _ _ H1 HP) as H. apply (ext_at _ _ _ _ H3) in H. congruence. }
  eapply closed_ext; [done|]. apply H2. by apply (ext_cap _ _ H3).
Qed.

(** ** The roots *)

Definition accounted_roots : list operation :=
  match lookup_func m "main" with Some f => if has_body f then [f] else [] | None => [] end ++ ctor_functions.

(** [K] is a root, of [g]. *)
Definition root_of (g : operation) (th : nat) (K : instance) : Prop := i_func K = g ∧ i_parent K = None ∧ i_site K = None ∧ i_thread K = th.
Definition rooted (st : state) : Prop := good st ∧ ∀ K, K ∈ instances st → i_parent K = None.

Lemma root_lawful g th mult sp su why : lawful (root_instance g th mult sp su why).
Proof. done. Qed.

Lemma add_root_spec g th mult sp su why st (i := root_instance g th mult sp su why) : rooted st → th < nextThread st →
  extends st (addIfRoom i st) ∧ rooted (addIfRoom i st) ∧
  (capExceeded (addIfRoom i st) = false → instances (addIfRoom i st) = instances st ++ [numbered m (length (instances st)) i]).
Proof.
  intros [Hg Hr] Ht. assert (extends st (addIfRoom i st)) as He.
  { apply addIfRoom_ext; [done|done|done|]. intros _ K HK _ _. split; [done|by apply Hr]. }
  split; [done|]. split; [|apply addIfRoom_in]. split; [by apply (ext_good _ _ He)|].
  unfold Threads.addIfRoom. destruct (_ <=? _); [done|]. cbn. intros K [HK|HK]%elem_of_app; [by apply Hr|]. by apply list_elem_of_singleton in HK as ->.
Qed.

Lemma ctors_spec th su l st (st' := fold_left (λ st f, addIfRoom (root_instance f th One false su None) st) l st) : rooted st → th < nextThread st →
  extends st st' ∧ rooted st' ∧
  (capExceeded st' = false → ∀ r g, l !! r = Some g → ∃ K, instances st' !! (length (instances st) + r)%nat = Some K ∧ root_of g th K).
Proof.
  subst st'. revert st. induction l as [|f l IH]; intros st Hr Ht; [by split_and!; [| |intros _ r g; rewrite lookup_nil]|]. cbn [fold_left].
  destruct (add_root_spec f th One false su None st Hr Ht) as (H1 & H2 & H3). set (s1 := addIfRoom _ st) in *.
  destruct (IH s1 H2) as (H4 & H5 & H6); [pose proof (ext_next _ _ H1); lia|]. split; [by etrans|]. split; [done|]. intros Hc r g Hl.
  specialize (H3 (ext_cap _ _ H4 Hc)). destruct r as [|r]; cbn in Hl.
  - injection Hl as ->. eexists. split; [|].
    + eapply ext_at; [exact H4|]. rewrite H3, Nat.add_0_r. by apply list_lookup_middle.
    + done.
  - destruct (H6 Hc r g Hl) as (K & HK & Hro). exists K. split; [|done]. rewrite H3, length_app in HK. cbn in HK. by rewrite <-HK, <-Nat.add_assoc.
Qed.

(** A root on a thread of its own, standing for any number of threads. *)
Definition many_root (st : state) (g : operation) (K : instance) : Prop :=
  K ∈ instances st ∧ i_func K = g ∧ i_parent K = None ∧ i_site K = None ∧ execMult K = Many ∧ threadMult K = Many.

Lemma add_free_spec g sp su why st : good st → let st' := addIfRoom (root_instance g (nextThread st) Many sp su why) (with_next (S (nextThread st)) st) in
  extends st st' ∧ (capExceeded st' = false → ∃ K, many_root st' g K).
Proof.
  intros Hg st'. assert (extends st (with_next (S (nextThread st)) st)) as H1 by apply ext_take. split.
  - etrans; [exact H1|]. apply addIfRoom_ext; [done|done|cbn; lia|]. intros _ K HK _ E. cbn in E. pose proof (good_fresh _ Hg K HK). lia.
  - intros Hc. unfold many_root, st'. rewrite (addIfRoom_in _ _ Hc). eexists. split; [apply elem_of_app; right; by apply list_elem_of_singleton|].
    cbn. by destruct (isRecursive m g).
Qed.

Definition taken (g : operation) : bool := has_body g && bool_decide (getSemanticKind (Some g) = Unknown) && isAddressTaken g.

Lemma roots_spec (st := addRootsForModule state0) : good st ∧ recursions st = [] ∧ (capExceeded st = false →
  (∀ r g, accounted_roots !! r = Some g → ∃ K, instances st !! r = Some K ∧ root_of g 0 K) ∧
  (∀ g, g ∈ functions m → taken g = true → relevant g = true → ∃ K, many_root st g K)).
Proof.
  subst st. unfold Threads.addRootsForModule. set (su := negb _).
  set (st1 := match lookup_func m "main" with Some _ => _ | None => _ end).
  set (mains := match lookup_func m "main" with Some f => if has_body f then [f] else [] | None => [] end).
  assert (rooted state0) as H0. { split; [|intros K HK; by apply elem_of_nil in HK]. split; [done|by intros K ?%elem_of_nil|done|by intros K ?%elem_of_nil|cbn; lia|by intros K K' ?%elem_of_nil]. }
  assert (rooted st1 ∧ recursions st1 = [] ∧ nextThread st1 = length mains ∧ (capExceeded st1 = false → length (instances st1) = length mains ∧
    ∀ r g, mains !! r = Some g → ∃ K, instances st1 !! r = Some K ∧ root_of g 0 K)) as (R1 & Rr1 & N1 & M1).
  { subst st1 mains. destruct (lookup_func m "main") as [f|]; [|by split_and!]. destruct (has_body f); [|by split_and!]. cbn [take_thread].
    destruct (add_root_spec f (nextThread state0) One false su None (with_next (S (nextThread state0)) state0)) as (H1 & H2 & H3); [|cbn; lia|].
    { destruct H0 as [Hg Hr]. split; [|done]. apply (ext_good state0); [apply ext_take|done]. }
    split; [done|]. split; [by rewrite (ext_rec _ _ H1)|]. split; [unfold Threads.addIfRoom; by destruct (_ <=? _)|]. intros Hc. rewrite (H3 Hc). split; [done|].
    intros r g [-> <-]%list_lookup_singleton_Some. by eexists. }
  set (tst2 := if nextThread st1 =? 0 then take_thread st1 else (0, st1)).
  assert (fst tst2 = 0 ∧ extends st1 (snd tst2) ∧ rooted (snd tst2) ∧ 0 < nextThread (snd tst2) ∧ instances (snd tst2) = instances st1) as (T2 & E2 & R2 & N2 & I2).
  { subst tst2. destruct (Nat.eqb_spec (nextThread st1) 0) as [E|E]; cbn; [|split; [done|]; split; [done|]; split; [done|]; split; [lia|done]].
    split; [done|]. split; [apply ext_take|]. split; [|split; [lia|done]]. destruct R1 as [Hg Hr]. split; [|done]. apply (ext_good st1); [apply ext_take|done]. }
  destruct tst2 as [th st2]. cbn in T2, E2, R2, N2, I2. subst th.
  destruct (ctors_spec 0 su ctor_functions st2 R2 N2) as (E3 & R3 & M3). set (st3 := fold_left _ ctor_functions st2) in *.
  match goal with |- context [fold_left ?h (functions m) st3] => set (f := h) end.
  set (Q g st := taken g = true → relevant g = true → ∃ K, many_root st g K).
  assert (∀ x st st', extends st st' → Q x st → Q x st') as HQ.
  { intros x s1 s2 He H H1 H2. destruct (H H1 H2) as (K & HK & HK'). exists K. split; [by eapply ext_in|done]. }
  assert (∀ st g, good st → extends st (f st g) ∧ (capExceeded (f st g) = false → Q g (f st g))) as Hf.
  { intros s g Hg. unfold f, Q, taken. destruct (has_body g && _ && _) eqn:Et; cbn [andb]; [|split; [done|by intros _ ?]].
    destruct (relevant g); [|split; [done|by intros _ _ ?]]. cbn [take_thread].
    destruct (add_free_spec g true false (Some "its address is taken, so it may run on any thread"%string) s Hg) as [H1 H2].
    destruct (_ <? cap); [|split; [done|auto]]. split; [etrans; [exact H1|apply ext_remark]|]. intros Hc _ _.
    match type of Hc with capExceeded (noteRemark ?a ?b ?c) = _ => assert (extends c (noteRemark a b c)) as H3 by apply ext_remark end.
    destruct (H2 (ext_cap _ _ H3 Hc)) as (K & HK & HK'). exists K. split; [by eapply ext_in|done]. }
  assert (extends st3 (fold_left f (functions m) st3)) as E4.
  { apply (ext_fold f good (λ s s' He, ext_good s s' He)); [|apply R3]. intros s g _ Hs. by apply Hf. }
  split; [apply (ext_good _ _ E4), R3|]. split; [by rewrite (ext_rec _ _ E4), (ext_rec _ _ E3), (ext_rec _ _ E2)|]. intros Hc. split.
  - intros r g Hr. unfold accounted_roots in Hr. fold mains in Hr. pose proof (ext_cap _ _ E4 Hc) as Hc3. destruct (M1 (ext_cap _ _ E2 (ext_cap _ _ E3 Hc3))) as [Hl M1'].
    apply lookup_app_Some in Hr as [Hr|[Hge Hr]].
    + destruct (M1' r g Hr) as (K & HK & Hro). exists K. split; [|done]. eapply ext_at; [exact E4|]. eapply ext_at; [exact E3|]. by rewrite I2.
    + destruct (M3 Hc3 _ g Hr) as (K & HK & Hro). exists K. split; [|done]. eapply ext_at; [exact E4|]. rewrite <-HK. f_equal. rewrite I2. lia.
  - intros g Hg. apply (fold_est f good Q (λ s s' He, ext_good s s' He) HQ); [intros s x _ Hs; by apply Hf|intros s x _ Hs Hcx; by apply Hf|apply R3|done|done].
Qed.

(** A function another translation unit may call, as the walk has it when it
    looks for orphans. *)
Definition elsewhere (st : state) (g : operation) : bool :=
  has_body g && bool_decide (getSemanticKind (Some g) = Unknown) && negb (is_local_linkage g)
  && (bool_decide (op_id g ∉ accounted m resolvedRuns st) || callableElsewhere g).

Lemma orphans_spec st : good st → extends st (addOrphanRoots st) ∧
  (capExceeded (addOrphanRoots st) = false → ∀ g, g ∈ functions m → elsewhere st g = true → relevant g = true → ∃ K, many_root (addOrphanRoots st) g K).
Proof.
  intros Hg. unfold Threads.addOrphanRoots. cbv zeta. match goal with |- context [fold_left ?h (functions m) st] => set (f := h) end.
  set (Q g st' := elsewhere st g = true → relevant g = true → ∃ K, many_root st' g K).
  assert (∀ x st st', extends st st' → Q x st → Q x st') as HQ.
  { intros x s1 s2 He H H1 H2. destruct (H H1 H2) as (K & HK & HK'). exists K. split; [by eapply ext_in|done]. }
  assert (∀ s g, good s → extends s (f s g) ∧ (capExceeded (f s g) = false → Q g (f s g))) as Hf.
  { intros s g Hs. unfold f, Q, elsewhere. destruct (has_body g && _ && _ && _) eqn:Ee; cbn [andb]; [|split; [done|by intros _ ?]].
    destruct (relevant g); [|split; [done|by intros _ _ ?]]. cbn [take_thread].
    match goal with |- context [root_instance g _ Many true false ?why] => destruct (add_free_spec g true false why s Hs) as [H1 H2] end. split; [done|auto]. }
  split; [apply (ext_fold f good (λ s s' He, ext_good s s' He)); [|done]; intros s g _ Hs; exact (proj1 (Hf s g Hs))|].
  intros Hc g Hin. apply (fold_est f good Q (λ s s' He, ext_good s s' He) HQ); [intros s x _ Hs; exact (proj1 (Hf s x Hs))|intros s x _ Hs; exact (proj2 (Hf s x Hs))|done..].
Qed.

(** ** The walk as a whole *)

Lemma steady_root g th mult sp su why st : steady st (addIfRoom (root_instance g th mult sp su why) (with_next (S (nextThread st)) st)).
Proof. etrans; [|apply steady_room]. by split. Qed.

Lemma steady_orphans st : steady st (addOrphanRoots st).
Proof. apply steady_fold. intros s g. cbv zeta. case_match; [|done]. apply steady_root. Qed.

(** The walk visits every instance it makes, and makes no more than its cap
    allows. *)
Lemma walk_finishes : let '(n, st) := wave (S cap) 0 (addRootsForModule state0) in
  n = length (instances st) ∧ let '(n', st') := wave (S cap) n (addOrphanRoots st) in run = st' ∧ n' = length (instances st') ∧ n' ≤ cap.
Proof.
  unfold Threads.run. destruct roots_spec as [Hg _]. pose proof (good_cap _ Hg) as Hc.
  pose proof (wave_finishes (S cap) 0 (addRootsForModule state0)) as H1. destruct (wave (S cap) 0 _) as [n st]. destruct H1 as [-> H1]; [lia..|]. split; [done|].
  destruct (steady_orphans st) as [_ Hl Hb].
  pose proof (wave_finishes (S cap) (length (instances st)) (addOrphanRoots st)) as H2. destruct (wave (S cap) _ (addOrphanRoots st)) as [n' st']. cbn.
  destruct H2 as [-> H2]; [lia..|]. split; [done|]. split; [done|lia].
Qed.

(** The walk before it looks for orphans. *)
Definition first_wave : state := snd (wave (S cap) 0 (addRootsForModule state0)).

(** Without recursion, and not cut short, the walk is closed under calls. *)
Lemma run_spec : recursions run = [] → capExceeded run = false → good run ∧ (∀ P, P ∈ instances run → closed run P) ∧
  (∀ r g, accounted_roots !! r = Some g → ∃ K, instances run !! r = Some K ∧ root_of g 0 K) ∧
  (∀ g, g ∈ functions m → taken g || elsewhere first_wave g = true → relevant g = true → ∃ K, many_root run g K).
Proof.
  unfold first_wave. pose proof walk_finishes as Hf. destruct roots_spec as (Hg0 & _ & Hroots).
  destruct (wave (S cap) 0 (addRootsForModule state0)) as [n st] eqn:E1. destruct Hf as [-> Hf].
  destruct (wave (S cap) _ (addOrphanRoots st)) as [n' st'] eqn:E2. destruct Hf as (-> & -> & _). intros Hr Hc.
  assert (recursions (addOrphanRoots st) = []) as Hro by (apply (wave_rec (S cap) (length (instances st))); by rewrite E2).
  assert (recursions st = []) as Hrs by by rewrite <-(steady_rec _ _ (steady_orphans st)).
  destruct (wave_spec _ _ _ _ _ E1 Hg0 Hrs) as [H1 C1]. pose proof (ext_good _ _ H1 Hg0) as Hgs.
  destruct (orphans_spec st Hgs) as [H2 R3]. pose proof (ext_good _ _ H2 Hgs) as Hgo.
  destruct (wave_spec _ _ _ _ _ E2 Hgo Hr) as [H3 C2]. specialize (C2 Hc). pose proof (ext_cap _ _ H3 Hc) as Hco. pose proof (ext_cap _ _ H2 Hco) as Hcs.
  specialize (C1 Hcs). specialize (Hroots (ext_cap _ _ H1 Hcs)) as [R1 R2].
  assert (extends (addRootsForModule state0) st') as H13 by (etrans; [exact H1|]; etrans; [exact H2|exact H3]).
  split; [by apply (ext_good _ _ H3)|]. split; [|split].
  - intros P (k & Hk)%list_elem_of_lookup. destruct (decide (k < length (instances st))) as [Hlt|Hlt].
    + destruct (lookup_lt_is_Some_2 _ _ Hlt) as [Q HQ]. assert (extends st st') as H23 by by etrans.
      assert (Q = P) as <- by (pose proof (ext_at _ _ _ _ H23 HQ); congruence). eapply closed_ext; [done|]. apply (C1 k); [lia|done].
    + apply (C2 k); [|done]. apply lookup_lt_Some in Hk. lia.
  - intros r g Hg. destruct (R1 r g Hg) as (K & HK & Hro'). exists K. split; [by eapply ext_at|done].
  - intros g Hg Ht Hrel. apply orb_true_iff in Ht as [Ht|Ht].
    + destruct (R2 g Hg Ht Hrel) as (K & HK & HK'). exists K. split; [by eapply ext_in|done].
    + destruct (R3 Hco g Hg Ht Hrel) as (K & HK & HK'). exists K. split; [by apply (ext_in _ _ _ H3)|done].
Qed.

(** ** Runs of the program *)

(** What started an activation: the program (main, a global constructor, by
    its place among them), code outside the module, or a call that the [p]th
    activation executed as the [k]th operation of its trace. *)
Inductive origin := Root (r : nat) | Outside | Called (p k : nat) | Spawned (p k : nat).
Record activation := Activation { a_func : operation; a_from : origin; a_trace : list operation }.

Definition from_call (o : origin) : option (nat * nat * bool) :=
  match o with Called p k => Some (p, k, false) | Spawned p k => Some (p, k, true) | _ => None end.

(** The operations a call of [f] may execute. *)
Definition ran (f : operation) (t : list operation) : Prop :=
  if isUnstructured m f then ∀ o, o ∈ t → o ∈ walk f else ∃ x, Exec.exec (Exec.ISeq (Exec.entry (body f))) t x.

Section execution.
Context (E : list activation).

Definition event (p k : nat) (pn : activation) (c : operation) : Prop := E !! p = Some pn ∧ a_trace pn !! k = Some c ∧ is_call c = true.
(** An indirect call the walk does not read: what it runs has its address
    taken. *)
Definition unread (pn : activation) (c : operation) : Prop := lookupCallee m c = None ∧ invokeTargets (op_id (a_func pn)) = None.

(** [K] is an instance the walk made for the activation [i]: the one at the
    end of its chain of calls, from a root on. *)
Inductive covers : nat → instance → Prop :=
| covers_root i n r K : E !! i = Some n → a_from n = Root r → instances run !! r = Some K → root_of (a_func n) 0 K → covers i K
| covers_outside i n K : E !! i = Some n → a_from n = Outside → many_root run (a_func n) K → covers i K
| covers_unread i n p k pn c K : E !! i = Some n → a_from n = Called p k → event p k pn c → unread pn c → many_root run (a_func n) K → covers i K
| covers_made i n p k sp pn c P K : E !! i = Some n → from_call (a_from n) = Some (p, k, sp) → event p k pn c → ¬ unread pn c →
    covers p P → made run P c sp (a_func n) K → covers i K.

(** A run of the program: what each activation executes, what it was started
    by, and that a call starts one activation (a remote launch, several).
    What a call starts is what the walk reads it to start. *)
Record execution : Prop := {
  ex_ran : ∀ i n, E !! i = Some n → a_func n ∈ m ∧ ran (a_func n) (a_trace n);
  ex_root : ∀ i n r, E !! i = Some n → a_from n = Root r → accounted_roots !! r = Some (a_func n);
  ex_outside : ∀ i n, E !! i = Some n → a_from n = Outside → a_func n ∈ functions m ∧ taken (a_func n) || elsewhere first_wave (a_func n) = true;
  ex_call : ∀ i n p k sp, E !! i = Some n → from_call (a_from n) = Some (p, k, sp) → p < i ∧ ∃ pn c, event p k pn c ∧
    (unread pn c ∧ sp = false ∧ a_func n ∈ functions m ∧ taken (a_func n) = true ∨
     ¬ unread pn c ∧ ∀ P, covers p P → starts_in P c sp (a_func n));
  ex_once : ∀ i j n n', E !! i = Some n → E !! j = Some n' → a_from n = a_from n' → a_from n ≠ Outside →
    i = j ∨ ∃ p k sp pn c, from_call (a_from n) = Some (p, k, sp) ∧ event p k pn c ∧ remote_launch m c = true;
}.

Lemma covers_in i K : covers i K → K ∈ instances run ∧ ∃ n, E !! i = Some n ∧ i_func K = a_func n.
Proof.
  intros [i' n r K' H1 H2 H3 H4|i' n K' H1 _ H|i' n p k pn c K' H1 _ _ _ H|i' n p k sp pn c P K' H1 _ _ _ _ H].
  - split; [by eapply list_elem_of_lookup_2|]. exists n. split; [done|apply H4].
  - split; [apply H|]. exists n. split; [done|apply H].
  - split; [apply H|]. exists n. split; [done|apply H].
  - split; [apply H|]. exists n. split; [done|apply H].
Qed.

Context (HE : execution) (Hrec : recursions run = []) (Hcap : capExceeded run = false).
(** Whoever starts a relevant function is relevant. *)
Context (Hrel : ∀ i n p k sp pn, E !! i = Some n → from_call (a_from n) = Some (p, k, sp) → E !! p = Some pn → relevant (a_func n) = true → relevant (a_func pn) = true).

Lemma ran_walk f t o : ran f t → o ∈ t → o ∈ walk f.
Proof.
  unfold ran. destruct (isUnstructured m f); [by auto|]. intros [x Hx] Ho. pose proof (Exec.exec_in _ _ _ Hx o Ho) as H.
  apply entry_in_children in H. rewrite walk_children. apply elem_of_app. by left.
Qed.

Lemma event_called p k pn c : event p k pn c → c ∈ calls_in (a_func pn).
Proof.
  intros (Hp & Hk & Hc). unfold calls_in. rewrite list_elem_of_In. apply filter_In. rewrite <-list_elem_of_In. split; [|done].
  eapply ran_walk; [by eapply HE|by eapply list_elem_of_lookup_2].
Qed.

(** Every activation of a relevant function is covered. *)
Lemma covered i n : E !! i = Some n → relevant (a_func n) = true → ∃ K, covers i K.
Proof.
  destruct (run_spec Hrec Hcap) as (Hg & Hcl & Hr & Hm). revert n. induction i as [i IH] using lt_wf_ind. intros n Hi Hf.
  destruct (from_call (a_from n)) as [[[p k] sp]|] eqn:Ef.
  - destruct (ex_call HE i n p k sp Hi Ef) as (Hp & pn & c & He & [(Hu & -> & Hin & Ht)|[Hu Hs]]).
    + destruct (Hm (a_func n) Hin) as [K HK]; [by rewrite Ht|done|]. exists K. eapply covers_unread; eauto. by destruct (a_from n); simplify_eq/=.
    + destruct (IH p Hp pn) as [P HP]; [apply He|eapply Hrel; eauto; apply He|]. destruct (covers_in p P HP) as (HPi & pn' & Hpn & HPf).
      assert (pn' = pn) as -> by (destruct He; congruence).
      destruct (Hcl P HPi c) with (spawned := sp) (g := a_func n) as [K HK]; [rewrite HPf; by eapply event_called|by apply Hs|done|]. exists K. by eapply covers_made.
  - destruct (a_from n) as [r| |p k|p k] eqn:Eo; [| |done..].
    + destruct (Hr r _ (ex_root HE i n r Hi Eo)) as (K & HK & Hro). exists K. by eapply covers_root.
    + destruct (ex_outside HE i n Hi Eo) as [Hin Ht]. destruct (Hm _ Hin Ht Hf) as [K HK]. exists K. by eapply covers_outside.
Qed.

Lemma siteMult_structured o f : siteMult m o f = (One, true) → isUnstructured m f = false ∧ remote_launch m o = false.
Proof. unfold siteMult. destruct (remote_launch m o); [done|]. destruct (existsb _ _); [done|]. by destruct (isUnstructured m f). Qed.

(** The activations one site that runs once starts, one on the thread and
    one beside it at most, in a function that is activated once. *)
Lemma same_site i j n n' p p' k k' sp pn pn' c :
  E !! i = Some n → E !! j = Some n' → from_call (a_from n) = Some (p, k, sp) → from_call (a_from n') = Some (p', k', sp) →
  event p k pn c → event p' k' pn' c → p = p' → siteMult m c (a_func pn) = (One, true) → i = j.
Proof.
  intros Hi Hj Hf Hf' He He' <- Hs. destruct (siteMult_structured _ _ Hs) as [Hu Hnr]. assert (pn' = pn) as -> by (destruct He, He'; congruence).
  destruct (ex_ran HE p pn (proj1 He)) as [Hin Hran]. unfold ran in Hran. rewrite Hu in Hran. destruct Hran as [x Hx].
  assert (k = k') as <- by (eapply (executes_once m Hwf (a_func pn) c); [done|done|done|apply He|apply He']).
  assert (a_from n = a_from n') as Eo by (destruct (a_from n), (a_from n'); simplify_eq/=; done).
  destruct (ex_once HE i j n n' Hi Hj Eo) as [?|(q & l & sp' & qn & d & Hq & Hd & Hl)]; [by destruct (a_from n)|done|].
  assert (d = c) as -> by (destruct He as (? & ? & _), Hd as (? & ? & _); congruence). congruence.
Qed.

Lemma covers_child i K P : covers i K → i_parent K = Some P → ∃ n p k sp pn c, E !! i = Some n ∧ from_call (a_from n) = Some (p, k, sp) ∧ event p k pn c ∧
  covers p P ∧ i_site K = Some c ∧ (if sp then i_thread K ≠ i_thread P else i_thread K = i_thread P) ∧ i_func P = a_func pn.
Proof.
  intros [i' n r K' H1 H2 H3 H4|i' n K' H1 _ H|i' n p k pn c K' H1 _ _ _ H|i' n p k sp pn c Q K' H1 H2 He Hu HQ H] HP.
  - destruct H4 as (_ & H4 & _). congruence.
  - destruct H as (_ & _ & H & _). congruence.
  - destruct H as (_ & _ & H & _). congruence.
  - destruct H as (HK & HpK & Hs & _ & Ht). assert (Q = P) as -> by congruence. exists n, p, k, sp, pn, c. do 5 (split; [done|]). split; [done|].
    destruct (covers_in p P HQ) as (_ & pn' & Hpn & ->). destruct He. congruence.
Qed.

(** An instance whose parent covers one activation, and whose site runs
    once, covers one. *)
Lemma child_unique K P c : i_parent K = Some P → i_site K = Some c → siteMult m c (i_func P) = (One, true) →
  (∀ p p', covers p P → covers p' P → p = p') → ∀ i j, covers i K → covers j K → i = j.
Proof.
  intros HP Hc Hs Hu i j Hi Hj. destruct (covers_child i K P Hi HP) as (n & p & k & sp & pn & d & H1 & H2 & H3 & H4 & H5 & H6 & H7).
  destruct (covers_child j K P Hj HP) as (n' & p' & k' & sp' & pn' & d' & H1' & H2' & H3' & H4' & H5' & H6' & H7').
  assert (d = c) as -> by congruence. assert (d' = c) as -> by congruence. assert (sp = sp') as <- by (destruct sp, sp'; congruence).
  eapply (same_site i j n n' p p' k k' sp pn pn' c); eauto. by rewrite <-H7.
Qed.

(** An instance that runs once covers one activation. *)
Lemma cover_unique i j K : covers i K → covers j K → execMult K = One → i = j.
Proof.
  destruct (run_spec Hrec Hcap) as (Hg & _ & _ & _). intros Hi. revert j. induction Hi as [i n r K H1 H2 H3 H4|i n K H1 _ H|i n p k pn c K H1 _ _ _ H|i n p k sp pn c P K H1 H2 He Hu HP IH H]; intros j Hj Hone.
  - destruct H4 as (_ & H4 & _). destruct Hj as [j n' r' K H1' H2' H3' H4'|j n' K H1' _ H|j n' p k pn c K H1' _ _ _ H|j n' p k sp pn c P K H1' H2' He Hu HP H].
    + assert (r' = r) as -> by (pose proof (good_number _ Hg r' K H3'); pose proof (good_number _ Hg r K H3); congruence).
      destruct (ex_once HE i j n n' H1 H1') as [?|(q & l & sp & qn & d & Hq & _)]; [congruence|by rewrite H2|done|]. by rewrite H2 in Hq.
    + destruct H as (_ & _ & _ & _ & H & _). congruence.
    + destruct H as (_ & _ & _ & _ & H & _). congruence.
    + destruct H as (_ & H & _). congruence.
  - destruct H as (_ & _ & _ & _ & H & _). congruence.
  - destruct H as (_ & _ & _ & _ & H & _). congruence.
  - pose proof H as (HK & HpK & Hs & _ & _). destruct (good_lawful _ Hg K HK) as [Hl _]. rewrite HpK, Hs in Hl. destruct Hl as [[HPone Hsm]%(λ f, f Hone) _].
    apply (child_unique K P c); [done|done|done| |by eapply covers_made|done]. intros q q' Hq Hq'. transitivity p; [symmetry|]; auto.
Qed.

(** ** Threads *)

(** The thread an activation runs on: the main thread, or the one a spawn
    started with an activation.  What code outside the module calls may be
    on any. *)
Inductive on_thread : nat → option nat → Prop :=
| on_main i n r : E !! i = Some n → a_from n = Root r → on_thread i None
| on_started i n p k : E !! i = Some n → a_from n = Spawned p k → on_thread i (Some i)
| on_same i n p k τ : E !! i = Some n → a_from n = Called p k → on_thread p τ → on_thread i τ.

Lemma on_thread_det i τ τ' : on_thread i τ → on_thread i τ' → τ = τ'.
Proof.
  intros H. revert τ'. induction H as [i n r H1 H2|i n p k H1 H2|i n p k τ H1 H2 H3 IH]; intros τ' H'; destruct H' as [i n' r' H1' H2'|i n' p' k' H1' H2'|i n' p' k' τ' H1' H2' H3']; try congruence.
  apply IH. by replace p with p' by congruence.
Qed.

(** Where a thread that stands for one begins. *)
Lemma thread_begins i K : covers i K → threadMult K = One → ∃ τ S, on_thread i τ ∧ S ∈ instances run ∧ begins S ∧ i_thread S = i_thread K ∧
  match τ with None => i_parent S = None | Some s => covers s S ∧ threadMult S = One ∧ i_parent S ≠ None end.
Proof.
  destruct (run_spec Hrec Hcap) as (Hg & _ & _ & _). induction 1 as [i n r K H1 H2 H3 H4|i n K H1 _ H|i n p k pn c K H1 _ _ _ H|i n p k sp pn c P K H1 H2 He Hu HP IH H]; intros Hone.
  - exists None, K. destruct H4 as (_ & H4 & _). split; [by eapply on_main|]. split; [by eapply list_elem_of_lookup_2|]. split; [|done]. unfold begins. by rewrite H4.
  - destruct H as (_ & _ & _ & _ & _ & H). congruence.
  - destruct H as (_ & _ & _ & _ & _ & H). congruence.
  - pose proof H as (HK & HpK & Hs & _ & Ht). destruct sp.
    + exists (Some i), K. split; [destruct (a_from n) eqn:Eo; simplify_eq/=; by eapply on_started|]. split; [done|]. split; [unfold begins; by rewrite HpK|].
      split; [done|]. split; [by eapply covers_made|]. split; [done|congruence].
    + destruct (good_lawful _ Hg K HK) as [Hl _]. rewrite HpK, Hs, decide_True in Hl by done. destruct Hl as [_ Hl].
      destruct IH as (τ & S & Hτ & HS & Hb & HtS & Hm); [congruence|]. exists τ, S. split; [destruct (a_from n) eqn:Eo; simplify_eq/=; by eapply on_same|].
      split; [done|]. split; [done|]. split; [congruence|done].
Qed.

(** The instances of a thread that stands for one cover activations of one
    thread. *)
Lemma cover_thread i j K K' : covers i K → covers j K' → i_thread K = i_thread K' → threadMult K = One → threadMult K' = One →
  ∃ τ, on_thread i τ ∧ on_thread j τ.
Proof.
  destruct (run_spec Hrec Hcap) as (Hg & _ & _ & _). intros Hi Hj Ht Hone Hone'.
  destruct (thread_begins i K Hi Hone) as (τ & S & Hτ & HS & Hb & HtS & Hm). destruct (thread_begins j K' Hj Hone') as (τ' & S' & Hτ' & HS' & Hb' & HtS' & Hm').
  exists τ. split; [done|]. assert (τ = τ') as ->; [|done].
  destruct (good_thread _ Hg S S' HS HS' Hb Hb') as [<-|[Hn Hn']]; [congruence| |].
  - destruct τ as [s|], τ' as [s'|]; [|by destruct Hm as (_ & _ & ?)|by destruct Hm' as (_ & _ & ?)|done]. f_equal.
    destruct Hm as (Hc & Hmult & Hp), Hm' as (Hc' & _ & _). destruct (i_parent S) as [P|] eqn:EP; [|done].
    destruct (good_lawful _ Hg S HS) as [Hl _]. unfold begins in Hb. rewrite EP in Hb, Hl. destruct (i_site S) as [c|] eqn:Ec; [|done].
    rewrite decide_False in Hl by done. destruct Hl as [_ [HPone Hsm]%(λ f, f Hmult)].
    eapply (child_unique S P c); [done|done|done| |done|done]. intros q q' Hq Hq'. by eapply cover_unique.
  - destruct τ as [s|], τ' as [s'|]; [by destruct Hm as (_ & _ & ?)|by destruct Hm as (_ & _ & ?)|by destruct Hm' as (_ & _ & ?)|done].
Qed.

(** ** Threads that cannot both exist *)

(** The instances a covering instance descends from are covered too, each by
    the activation that executed the site of the one below it. *)
Lemma cover_up i K : covers i K → ∀ P C, (P, C) ∈ up K →
  ∃ p k pn c, covers p P ∧ event p k pn c ∧ i_site C = Some c ∧ i_func P = a_func pn.
Proof.
  induction 1 as [i n r K H1 H2 H3 H4|i n K H1 _ H|i n p k pn c K H1 _ _ _ H|i n p k sp pn c Q K H1 H2 He Hu HQ IH H]; intros P C HPC.
  - destruct H4 as (_ & H4 & _). destruct K as [? ? ? ? ? ? [?|]]; [done|]. by apply elem_of_nil in HPC.
  - destruct H as (_ & _ & H & _). destruct K as [? ? ? ? ? ? [?|]]; [done|]. by apply elem_of_nil in HPC.
  - destruct H as (_ & _ & H & _). destruct K as [? ? ? ? ? ? [?|]]; [done|]. by apply elem_of_nil in HPC.
  - pose proof H as (_ & HpK & Hs & _). assert (up K = (Q, K) :: up Q) as EK by (destruct K as [? ? ? ? ? ? [?|]]; cbn in *; congruence).
    rewrite EK in HPC. apply elem_of_cons in HPC as [[= -> ->]|HPC]; [|by apply IH].
    exists p, k, pn, c. split; [done|]. split; [done|]. split; [done|]. destruct (covers_in p Q HQ) as (_ & pn' & Hpn & ->). destruct He. congruence.
Qed.

(** The instance a thread is found by began it. *)
Lemma root_begins t a : threadRoot run t = Some a → a ∈ instances run ∧ i_thread a = t ∧ begins a.
Proof.
  destruct (run_spec Hrec Hcap) as (Hg & _). intros H. unfold threadRoot in H. pose proof H as H'. apply List.find_some in H' as [Hin Ht%Nat.eqb_eq].
  apply list_elem_of_In in Hin. split; [done|]. split; [done|]. unfold begins. destruct (i_parent a) as [P|] eqn:EP; [|done]. intros Eth.
  apply find_some_split in H as (l1 & l2 & El & Hl). destruct (good_parent _ Hg (length l1) a P) as (p & Hp & HP); [rewrite El; by apply list_lookup_middle|done|].
  rewrite El, lookup_app_l in HP by done. apply list_elem_of_lookup_2 in HP. pose proof (Hl P HP) as Hne. apply Nat.eqb_neq in Hne. congruence.
Qed.

(** Threads that [exclusive] tells apart are not both in one run. *)
Lemma cover_exclusive i j K K' (Hcases : cases_ok m = true) :
  exclusive m run (i_thread K) (i_thread K') = true → covers i K → covers j K' → threadMult K = One → threadMult K' = One → False.
Proof.
  destruct (run_spec Hrec Hcap) as (Hg & _). intros Hex Hi Hj Hone Hone'. unfold exclusive in Hex.
  assert (∀ l Q a c, covers l Q → threadMult Q = One → threadRoot run (i_thread Q) = Some a → i_site a = Some c → ∃ s, covers s a) as Hroot.
  { intros l Q a c HQ Hq Ha Hc. destruct (root_begins _ _ Ha) as (Hain & Hat & Hab). destruct (thread_begins l Q HQ Hq) as (τ & S & _ & HS & Hb & HtS & Hm).
    destruct (good_lawful _ Hg a Hain) as [Hl _]. rewrite Hc in Hl. destruct (i_parent a) as [P|] eqn:EP; [|done].
    destruct (good_thread _ Hg S a HS Hain Hb Hab) as [->|[_ ?]]; [congruence| |congruence]. destruct τ as [s|]; [by exists s; apply Hm|congruence]. }
  destruct (threadRoot run (i_thread K)) as [a|] eqn:Ea; [|done]. destruct (threadRoot run (i_thread K')) as [b|] eqn:Eb; [|done].
  destruct (i_site a) as [sa|] eqn:Esa; [|done]. destruct (i_site b) as [sb|] eqn:Esb; [|done].
  destruct (Hroot i K a sa Hi Hone Ea Esa) as [s Hs]. destruct (Hroot j K' b sb Hj Hone' Eb Esb) as [s' Hs'].
  destruct (List.find _ (up b)) as [[common childB]|] eqn:Ef; [|done]. apply List.find_some in Ef as [HB%list_elem_of_In _].
  destruct (bool_decide_reflect (execMult common = Many)) as [|Hcm]; [done|]. cbn [orb] in Hex.
  destruct (bool_decide (threadMult common = Many)); [done|]. cbn [orb] in Hex. destruct (execUnknown common); [done|].
  destruct (existsb _ _) eqn:Eu; [done|]. cbn [existsb] in Eu. apply orb_false_iff in Eu as [Hu _].
  destruct (child_below (up a) common) as [childA|] eqn:Ec; [|done]. unfold child_below in Ec.
  destruct (List.find _ (up a)) as [[common' childA']|] eqn:Ef; [|done]. injection Ec as ->. apply List.find_some in Ef as [HA%list_elem_of_In En%Nat.eqb_eq].
  cbn in En. destruct (cover_up s a Hs _ _ HA) as (p & k & pn & ca & Hcp & He & Hca & Hf). destruct (cover_up s' b Hs' _ _ HB) as (p' & k' & pn' & cb & Hcp' & He' & Hcb & Hf').
  assert (common' = common) as ->.
  { destruct (covers_in _ _ Hcp) as [[n Hn]%list_elem_of_lookup _], (covers_in _ _ Hcp') as [[n' Hn']%list_elem_of_lookup _].
    pose proof (good_number _ Hg _ _ Hn). pose proof (good_number _ Hg _ _ Hn'). congruence. }
  rewrite Hca, Hcb in Hex. destruct (op_id ca =? op_id cb); [done|].
  assert (p = p') as <- by (apply (cover_unique p p' common); [done|done|]; destruct (execMult common); done). assert (pn' = pn) as -> by (destruct He, He'; congruence).
  destruct (ex_ran HE p pn (proj1 He)) as [Hin Hran]. unfold ran in Hran. rewrite Hf in Hu. rewrite Hu in Hran. destruct Hran as [x Hx]. rewrite Hf in Hex.
  eapply (sites_exclude m Hwf Hcases (a_func pn) ca cb); [done|exact Hex|exact Hx|eapply list_elem_of_lookup_2; apply He|eapply list_elem_of_lookup_2; apply He'].
Qed.
End execution.

(** ** What the walk's answers mean *)

Definition upward (E : list activation) : Prop :=
  ∀ i n p k sp pn, E !! i = Some n → from_call (a_from n) = Some (p, k, sp) → E !! p = Some pn → relevant (a_func n) = true → relevant (a_func pn) = true.

(** C7: A function the walk answers runs once ([runsOnce]) is activated at
    most once in any run of the program -- through every chain of calls and
    spawns from main, the constructors and code outside the module -- when
    the walk met no recursion and was not cut short. *)
Theorem runs_once_sound E f i j n n' : recursions run = [] → capExceeded run = false → execution E → upward E → relevant f = true → runsOnce run f = true →
  E !! i = Some n → E !! j = Some n' → a_func n = f → a_func n' = f → i = j.
Proof.
  intros Hrec Hcap HE Hup Hf Hro Hi Hj <- Hf'.
  destruct (covered E HE Hrec Hcap Hup i n Hi Hf) as [K HK]. destruct (covered E HE Hrec Hcap Hup j n' Hj) as [K' HK']; [by rewrite Hf'|].
  assert (∀ l x Q, covers E l Q → E !! l = Some x → a_func x = a_func n → Q ∈ instancesOf run (a_func n)) as Hin.
  { intros l x Q HQ Hl Hx. destruct (covers_in E l Q HQ) as (HQi & x' & Hl' & HQf). unfold instancesOf. rewrite list_elem_of_In. apply filter_In. rewrite <-list_elem_of_In.
    split; [done|]. assert (x' = x) as -> by congruence. rewrite HQf, Hx. apply Nat.eqb_refl. }
  pose proof (Hin i n K HK Hi eq_refl) as H1. pose proof (Hin j n' K' HK' Hj Hf') as H2. unfold runsOnce in Hro.
  destruct (instancesOf run (a_func n)) as [|Q [|Q' l]]; [done| |done]. apply list_elem_of_singleton in H1 as ->, H2 as ->.
  apply andb_true_iff in Hro as [[Hone _]%andb_true_iff _]. apply bool_decide_eq_true in Hone. by eapply (cover_unique E HE Hrec Hcap).
Qed.

(** C8: Two threads the walk calls exclusive never both exist, where the
    walk met no recursion and was not cut short, every case of a switch has
    its one region ([cases_ok]), and each of the threads is one, not a thread
    that stands for many: no run of the program has an activation on each
    -- their spawns sit on the two arms of a branch, in two cases of a
    switch, or in an arm that returns and after the branch, in a function
    that is activated once, outside any loop.  (The passes that ask
    [exclusive] do not all ask for the conditions: the layout passes go on
    when the walk has met recursion.) *)
Theorem exclusive_sound E t t' : cases_ok m = true → recursions run = [] → capExceeded run = false → execution E → exclusive m run t t' = true →
  ¬ ∃ i j K K', covers E i K ∧ covers E j K' ∧ i_thread K = t ∧ i_thread K' = t' ∧ threadMult K = One ∧ threadMult K' = One.
Proof.
  intros Hok Hrec Hcap HE Hex (i & j & K & K' & Hi & Hj & <- & <- & Hm & Hm'). by eapply (cover_exclusive E HE Hrec Hcap i j K K').
Qed.

(** C9: The walk ends by itself: its waves stop because every instance, the
    ones of the orphan roots included, has been visited, never because the
    fuel of the definition ran out, and it makes no more instances than its
    cap. *)
Theorem walk_visits_all : let '(n, st) := wave (S cap) 0 (addRootsForModule state0) in
  n = length (instances st) ∧ let '(n', st') := wave (S cap) n (addOrphanRoots st) in run = st' ∧ n' = length (instances st') ∧ n' ≤ cap.
Proof. exact walk_finishes. Qed.
End walk.

(** ** An example: main starts a worker, which calls a helper *)

Section example.
Local Open Scope string_scope.
Local Open Scope list_scope.

Definition tr_func (i : nat) (name : string) (b : list operation) : operation :=
  Op i "cir.func" "" (KFunc (Func name false false None None None 0)) [] [] [] [match b with [] => [] | _ => [Block i [] b] end].
Definition tr_call (i : nat) (name : string) (args : list value) : operation :=
  Op i "cir.call" "" (KCall (CallAttrs (Some name) false None)) args [] [] [].
Definition tr_return (i : nat) : operation := Op i "cir.return" "" KReturn [] [] [] [].
Definition tr_entry : operation := Op 11 "cir.get_global" "" (KGetGlobal "worker") [] [OtherTy "ptr"] [] [].
Definition tr_spawn : operation := tr_call 12 "pthread_create" (replicate 4 (VRes 11 0)).
Definition tr_main : operation := tr_func 10 "main" [tr_entry; tr_spawn; tr_return 13].
Definition tr_helper : operation := tr_func 30 "helper" [tr_return 31].
Definition tr_worker : operation := tr_func 20 "worker" [tr_call 21 "helper" []; tr_return 22].
Definition tr_module : module := [tr_func 1 "pthread_create" []; tr_main; tr_worker; tr_helper].

Definition tr_run : state :=
  Threads.run tr_module (λ _, false) (λ _, None) (λ _ _, []) (λ _, true) 10 (λ _, false) [] (λ _, None) (λ _, None) [].

Example tr_walk : map (λ K, (name_of_func (i_func K), i_thread K, threadMult K, execMult K)) (instances tr_run) =
  [("main", 0, One, One); ("worker", 1, One, One); ("helper", 1, One, One)].
Proof. vm_compute. reflexivity. Qed.

Definition tr_execution : list activation :=
  [Activation tr_main (Root 0) [tr_entry; tr_spawn; tr_return 13];
   Activation tr_worker (Spawned 0 1) [tr_call 21 "helper" []; tr_return 22];
   Activation tr_helper (Called 1 0) [tr_return 31]].

Lemma tr_ran mo f t : isUnstructured mo f = false → Forall (λ o, Exec.exec (Exec.IOp o) [o] Exec.Fall) (removelast t) →
  (∃ l o, t = l ++ [o] ∧ Exec.jump_of o = Some Exec.Leave) → Exec.entry (body f) = t → ran mo f t.
Proof.
  intros Hu Ht (l & o & -> & Ho) Hb. unfold ran. rewrite Hu, Hb. exists Exec.Leave. rewrite removelast_last in Ht. clear Hb Hu.
  induction Ht as [|c l Hc _ IH]; cbn.
  - apply Exec.e_cut; [by apply Exec.e_jump|done].
  - by apply (Exec.e_cons c _ [c]).
Qed.

Lemma tr_plain o : regions o = [] → Exec.is_branch o = false → Exec.is_loop o = false → Exec.is_named "cir.switch" o = false → Exec.jump_of o = None →
  Exec.exec (Exec.IOp o) [o] Exec.Fall.
Proof. intros Hr H1 H2 H3 H4. apply Exec.e_other; [done..|]. rewrite Hr. apply Exec.e_some_end. Qed.

Lemma tr_execution_ok : execution tr_module (λ _, false) (λ _, None) (λ _ _, []) (λ _, true) 10 (λ _, false) [] (λ _, None) (λ _, None) [] tr_execution.
Proof.
  split.
  - intros i n Hi. assert (n ∈ tr_execution) as Hin by (by eapply list_elem_of_lookup_2). unfold tr_execution in Hin.
    repeat (apply elem_of_cons in Hin as [->|Hin]); [..|by apply elem_of_nil in Hin]; cbn [a_func a_trace].
    + split; [apply list_elem_of_In; right; by left|]. apply tr_ran; [by vm_compute| |by exists [tr_entry; tr_spawn], (tr_return 13)|done].
      repeat constructor; by apply tr_plain.
    + split; [apply list_elem_of_In; right; right; by left|]. apply tr_ran; [by vm_compute| |by exists [tr_call 21 "helper" []], (tr_return 22)|done].
      repeat constructor; by apply tr_plain.
    + split; [apply list_elem_of_In; do 3 right; by left|]. apply tr_ran; [by vm_compute| |by exists [], (tr_return 31)|done]. constructor.
  - intros [|[|[|i]]] n r Hi Hr; cbn in Hi; simplify_eq/=. by vm_compute.
  - intros [|[|[|i]]] n Hi Hr; cbn in Hi; simplify_eq/=.
  - intros [|[|[|i]]] n p k sp Hi Hr; cbn in Hi; simplify_eq/=.
    + split; [lia|]. eexists _, tr_spawn. split; [by split|]. right. split; [by intros [? _]|]. intros P _. unfold starts_in.
      assert (lookupCallee tr_module tr_spawn = Some (tr_func 1 "pthread_create" [])) as -> by by vm_compute. cbn.
      exists [tr_worker]. split; [by vm_compute|]. split; [done|]. split; [left|by left].
    + split; [lia|]. eexists _, (tr_call 21 "helper" []). split; [by split|]. right. split; [by intros [? _]|]. intros P _. unfold starts_in.
      assert (lookupCallee tr_module (tr_call 21 "helper" []) = Some tr_helper) as -> by by vm_compute. done.
  - intros [|[|[|i]]] [|[|[|j]]] n n' Hi Hj He; cbn in Hi, Hj; simplify_eq/=; by left.
Qed.

Lemma runs_once_sound_witness :
  runsOnce tr_run tr_helper = true ∧ ∀ i n, tr_execution !! i = Some n → a_func n = tr_helper → i = 2.
Proof.
  split; [vm_compute; reflexivity|]. intros i n Hi Hn.
  apply (runs_once_sound tr_module ltac:(by vm_compute) (λ _, false) (λ _, None) (λ _ _, []) (λ _, true) 10 (λ _, false) [] (λ _, None) (λ _, None) [] tr_execution tr_helper
    i 2 n (Activation tr_helper (Called 1 0) [tr_return 31])); [by vm_compute|by vm_compute|exact tr_execution_ok|done|done|by vm_compute|done|done|done|done].
Defined.

(** One of two workers: [if (c) spawn(left); else spawn(right);]. *)
Definition ex_get (i : nat) (name : string) : operation := Op i "cir.get_global" "" (KGetGlobal name) [] [OtherTy "ptr"] [] [].
Definition ex_spawn (i g : nat) : operation := tr_call i "pthread_create" (replicate 4 (VRes g 0)).
Definition ex_if : operation := Op 14 "cir.if" "" KIf [] [] [] [[Block 15 [] [ex_spawn 16 11]]; [Block 17 [] [ex_spawn 18 12]]].
Definition ex_main : operation := tr_func 10 "main" [ex_get 11 "left"; ex_get 12 "right"; ex_if; tr_return 19].
Definition ex_left : operation := tr_func 20 "left" [tr_return 21].
Definition ex_module : module := [tr_func 1 "pthread_create" []; ex_main; ex_left; tr_func 30 "right" [tr_return 31]].
Definition ex_run : list activation :=
  [Activation ex_main (Root 0) [ex_get 11 "left"; ex_get 12 "right"; ex_if; ex_spawn 16 11; tr_return 19]; Activation ex_left (Spawned 0 3) [tr_return 21]].

Lemma ex_run_ok : execution ex_module (λ _, false) (λ _, None) (λ _ _, []) (λ _, true) 10 (λ _, false) [] (λ _, None) (λ _, None) [] ex_run.
Proof.
  split.
  - intros [|[|i]] n Hi; cbn in Hi; simplify_eq/=.
    + split; [apply list_elem_of_In; right; by left|]. unfold ran. assert (isUnstructured ex_module ex_main = false) as -> by by vm_compute. exists Exec.Leave.
      apply (Exec.e_cons _ _ [ex_get 11 "left"]); [by apply tr_plain|]. apply (Exec.e_cons _ _ [ex_get 12 "right"]); [by apply tr_plain|].
      apply (Exec.e_cons _ _ [ex_if; ex_spawn 16 11]); [|apply Exec.e_cut; [by apply Exec.e_jump|done]].
      apply (Exec.e_branch _ [Block 15 [] [ex_spawn 16 11]]); [done|left|]. apply (Exec.e_cons _ _ [ex_spawn 16 11]); [by apply tr_plain|constructor].
    + split; [apply list_elem_of_In; do 2 right; by left|]. apply tr_ran; [by vm_compute| |by exists [], (tr_return 21)|done]. constructor.
  - intros [|[|i]] n r Hi Hr; cbn in Hi; simplify_eq/=. by vm_compute.
  - intros [|[|i]] n Hi Hr; cbn in Hi; simplify_eq/=.
  - intros [|[|i]] n p k sp Hi Hr; cbn in Hi; simplify_eq/=.
    split; [lia|]. eexists _, (ex_spawn 16 11). split; [by split|]. right. split; [by intros [? _]|]. intros P _. unfold starts_in.
    assert (lookupCallee ex_module (ex_spawn 16 11) = Some (tr_func 1 "pthread_create" [])) as -> by by vm_compute. cbn.
    exists [ex_left]. split; [by vm_compute|]. split; [done|]. split; [left|by left].
  - intros [|[|i]] [|[|j]] n n' Hi Hj He; cbn in Hi, Hj; simplify_eq/=; by left.
Qed.

Abbreviation ex_walk := (Threads.run ex_module (λ _, false) (λ _, None) (λ _ _, []) (λ _, true) 10 (λ _, false) [] (λ _, None) (λ _, None) []).

Lemma exclusive_sound_witness :
  exclusive ex_module ex_walk 1 2 = true ∧
  ¬ ∃ i j K K', covers ex_module (λ _, false) (λ _, None) (λ _ _, []) (λ _, true) 10 (λ _, false) [] (λ _, None) (λ _, None) [] ex_run i K ∧
      covers ex_module (λ _, false) (λ _, None) (λ _ _, []) (λ _, true) 10 (λ _, false) [] (λ _, None) (λ _, None) [] ex_run j K' ∧
      i_thread K = 1 ∧ i_thread K' = 2 ∧ threadMult K = One ∧ threadMult K' = One.
Proof.
  split; [vm_compute; reflexivity|].
  apply (exclusive_sound ex_module ltac:(by vm_compute) (λ _, false) (λ _, None) (λ _ _, []) (λ _, true) 10 (λ _, false) [] (λ _, None) (λ _, None) [] ex_run 1 2);
    [by vm_compute|by vm_compute|by vm_compute|exact ex_run_ok|by vm_compute].
Defined.

(** Why a recursion is excluded.  [again] spawns its first argument and
    calls itself with its arguments shifted, so its third call starts
    [last], which main starts once as well; the walk does not expand the
    second recurrence, has one instance of [last] and answers that it runs
    once. *)
Definition rec_null (i : nat) : operation := Op i "cir.const" "" (KConstant (CPtr 0)) [] [OtherTy "ptr"] [] [].
Definition rec_get (i : nat) (name : string) : operation := Op i "cir.get_global" "" (KGetGlobal name) [] [OtherTy "ptr"] [] [].
Definition rec_module : module :=
  [tr_func 1 "pthread_create" [];
   tr_func 10 "main" [rec_null 17; rec_get 11 "first"; rec_get 12 "second"; rec_get 13 "last"; tr_call 14 "again" [VRes 11 0; VRes 12 0; VRes 13 0];
     tr_call 15 "pthread_create" [VRes 17 0; VRes 17 0; VRes 13 0; VRes 17 0]; tr_return 16];
   tr_func 20 "again" [rec_null 27; tr_call 21 "pthread_create" [VRes 27 0; VRes 27 0; VArg 20 0; VRes 27 0]; rec_get 22 "first";
     Op 23 "cir.if" "" KIf [] [] [] [[Block 24 [] [tr_call 25 "again" [VArg 20 1; VArg 20 2; VRes 22 0]]]; []]; tr_return 26];
   tr_func 30 "first" [tr_return 31]; tr_func 40 "second" [tr_return 41]; tr_func 50 "last" [tr_return 51]].
Definition rec_run : state :=
  Threads.run rec_module (λ _, false) (λ _, None) (λ _ _, []) (λ _, true) 50 (λ _, false) [] (λ _, None) (λ _, None) [].

Example recursion_unseen :
  map (λ K, (name_of_func (i_func K), execMult K, truncated K)) (instances rec_run) =
  [("main", One, false); ("again", Many, false); ("last", One, false); ("first", Many, false); ("again", Many, false); ("second", Many, false);
   ("again", Many, true)] ∧
  map name_of_func (recursions rec_run) = ["again"; "again"] ∧ runsOnce rec_run (tr_func 50 "last" [tr_return 51]) = true.
Proof. vm_compute. done. Qed.
End example.
End ThreadRuns.
