(* ===== verification/Ownership.v ===== *)
(** * Ownership: how many threads use a queue
      (mlir/lib/WTC/Transforms/QueueOwnershipAnalysis.cpp)

    The counting at the heart of the queue ownership analysis: every queue
    operation under every instance of the thread walk is recorded on the
    queues it may act on, on the producers' or the consumers' side; a side
    counts none, one or many threads, threads that exclude each other
    counting as one; and the two counts are the queue's verdict.  An
    operation whose queue is not known poisons every queue of its type.

    Parameters: which queues an operation may act on under an instance
    ([keysOf], over the places the walk names), the constructors seen of a
    queue, and the two readings the credit to a loop rests on
    ([sameObject], [ctorRunBy]). *)

From stdpp Require Import base tactics list strings gmap.
From Stdlib Require Import String ZArith Lia.
From S2P Require Import Prelude Text Cir Utils Slots Loops LibraryQueue Graph Exec Threads.
Local Open Scope string_scope.
Local Open Scope list_scope.

Module Ownership.
Import Threads.

(** A queue: the root the walk names, and the queue's offset in it. *)
Abbreviation key := (operation * Z)%type.
Definition kAbstractOffset : Z := 2 ^ 64 - 1.
Definition kElementsOffset : Z := 2 ^ 64 - 2.
Definition same_key (a b : key) : bool := (op_id (fst a) =? op_id (fst b))%nat && (snd a =? snd b)%Z.
Definition has_key (k : key) (l : list key) : bool := existsb (same_key k) l.
Definition add_key (k : key) (l : list key) : list key := if has_key k l then l else l ++ [k].

Record Access := AccessOf {
  a_op : operation;
  a_thread : nat;
  many : bool;
  a_speculative : bool;
  a_entry : string;
  started : string;
  spawned : bool;
  oneOf : bool;
  a_inst : instance;
  a_countLoop : option operation;
  a_countVia : option operation;
  poolWhy : string
}.

Record SideInfo := Side { threads : list nat; accesses : list Access; anyMany : bool }.
Record RootInfo := Sides { producers : SideInfo; consumers : SideInfo }.
Definition side0 : SideInfo := Side [] [] false.
Definition root0 : RootInfo := Sides side0 side0.

(** 0 if nobody touches this side, 2 for "many", else 1. *)
Definition count (s : SideInfo) : nat :=
  match threads s with [] => 0 | [_] => if anyMany s then 2 else 1 | _ => 2 end.

(** The one loop, and the one call that runs it, that every access is
    credited to. *)
Fixpoint count_loop (l : list Access) (cur : option (operation * option operation)) : option (operation * option operation) :=
  match l with
  | [] => cur
  | a :: l =>
      match a_countLoop a with
      | None => None
      | Some loop =>
          if a_speculative a || oneOf a then None
          else match cur with
          | Some (loop', via') =>
              if negb (op_id loop' =? op_id loop)%nat || negb (bool_decide (option_map op_id via' = option_map op_id (a_countVia a))) then None
              else count_loop l (Some (loop, a_countVia a))
          | None => count_loop l (Some (loop, a_countVia a))
          end
      end
  end.
Definition side_countLoop (s : SideInfo) : option operation := option_map fst (count_loop (accesses s) None).
Definition side_countVia (s : SideInfo) : option operation :=
  match side_countLoop s, accesses s with Some _, a :: _ => a_countVia a | _, _ => None end.

(** An access added to a side. *)
Definition touch (inst : instance) (a : Access) (s : SideInfo) : SideInfo :=
  Side (if existsb (Nat.eqb (i_thread inst)) (threads s) then threads s else threads s ++ [i_thread inst])
    (accesses s ++ [a]) (anyMany s || bool_decide (threadMult inst = Many)).
Definition on_producers (f : SideInfo → SideInfo) (r : RootInfo) : RootInfo := Sides (f (producers r)) (consumers r).
Definition on_consumers (f : SideInfo → SideInfo) (r : RootInfo) : RootInfo := Sides (producers r) (f (consumers r)).

(** [roots[k]], made when it is not there, in discovery order. *)
Fixpoint at_root (k : key) (f : RootInfo → RootInfo) (l : list (key * RootInfo)) : list (key * RootInfo) :=
  match l with
  | [] => [(k, f root0)]
  | (k', r) :: l => if same_key k k' then (k', f r) :: l else (k', r) :: at_root k f l
  end.

Section pass.
Variable m : module.
Variable demangle : string → string.
Variable partialDemangle : string → option demangled.

(** ** Operations on queues *)

Definition libraryCall (o : operation) : LibraryQueueCall := if is_call o then libraryQueueCall partialDemangle m o else lc0.
Definition is_library (l : LibraryQueueCall) : bool := negb (bool_decide (lc_role l = RoleNone)).
Definition libraryOp (o : operation) : LibraryQueueCall :=
  let l := libraryCall o in
  if bool_decide (lc_role l = RolePush) || bool_decide (lc_role l = RolePop) then l else lc0.
Definition inLibraryBody (o : operation) : bool :=
  is_library (libraryCall o) && isLibraryQueueFunction partialDemangle (enclosing_func m (op_id o)).

Definition isQueueOp (o : operation) : bool :=
  match op_kind o with
  | KWtc (QueuePushOp _ _ _ _ | QueuePopOp _ _ _ _ _ | QueueBatchBeginOp | QueuePushDeferredOp | QueueBatchEndOp) _ => true
  | _ => is_library (libraryOp o)
  end.
Definition isConsumerOp (o : operation) : bool :=
  match op_kind o with
  | KWtc (QueuePopOp _ _ _ _ _) _ => true
  | _ => bool_decide (lc_role (libraryOp o) = RolePop)
  end.
(** An overrunning push takes the oldest item out when the queue is full. *)
Definition is_overrun (o : operation) : bool := match op_kind o with KWtc (QueuePushOp _ _ overrun _) _ => overrun | _ => false end.
(** The operation's thread is a producer's; a consumer's. *)
Definition produces (o : operation) : bool := isQueueOp o && negb (isConsumerOp o).
Definition consumes (o : operation) : bool := isConsumerOp o || is_overrun o.

Definition accessOf (o : operation) (inst : instance) : Access :=
  let r := thread_start inst in
  AccessOf o (i_thread inst) (bool_decide (threadMult inst = Many) && negb (execUnknown inst)) (speculative inst)
    (demangle (name_of_func (i_func r))) (match i_site r with Some c => op_loc c | None => op_loc (i_func r) end)
    (match i_site r with Some _ => true | None => false end) false inst None None "".
Definition with_oneOf (b : bool) (a : Access) : Access :=
  AccessOf (a_op a) (a_thread a) (many a) (a_speculative a) (a_entry a) (started a) (spawned a) b (a_inst a) (a_countLoop a) (a_countVia a) (poolWhy a).
Definition with_credit (c : option (operation * option operation)) (a : Access) : Access :=
  AccessOf (a_op a) (a_thread a) (many a) (a_speculative a) (a_entry a) (started a) (spawned a) (oneOf a) (a_inst a)
    (option_map fst c) (match c with Some (_, v) => v | None => None end) (poolWhy a).
Definition with_poolWhy (w : string) (a : Access) : Access :=
  AccessOf (a_op a) (a_thread a) (many a) (a_speculative a) (a_entry a) (started a) (spawned a) (oneOf a) (a_inst a) (a_countLoop a) (a_countVia a) w.

(** Every queue operation under every instance. *)
Definition visits (st : state) : list (operation * instance) :=
  flat_map (λ i, map (λ o, (o, i)) (List.filter (λ o, negb (inLibraryBody o) && isQueueOp o) (walk (i_func i)))) (instances st).

(** ** Credit to the loop that starts a thread *)

(** Queues named by type; the constructor calls seen to build a queue; the
    instance that built it, [Some None] when several did. *)
Variable abstractKeys : key → bool.
Variable keyCtors : key → list operation.
Variable keyCtorInst : key → option (option instance).
Variable sameObject : operation → instance → option instance → operation → bool.
Variable ctorRunBy : operation → option instance → bool.

Definition same_inst (a b : option instance) : bool := bool_decide (option_map i_number a = option_map i_number b).
Definition func_id (o : operation) : option nat := option_map op_id (enclosing_func m (op_id o)).

Definition credit (o : operation) (inst : instance) (root : key) : option (operation * option operation) :=
  match countLoop inst with
  | None => None
  | Some loop =>
      let holder := countLoopInst inst in
      if abstractKeys root then (if sameObject o inst holder (fst root) then Some (loop, None) else None)
      else
        let loopFn := func_id loop in
        let ctors := keyCtors root in
        let ctorInLoopFn := existsb (λ c, bool_decide (func_id c = loopFn)) ctors in
        let built := match keyCtorInst root with Some b => b | None => None end in
        let builtOnce := match built with Some _ => true | None => false end in
        let below := last (List.filter (λ c, negb (bool_decide (func_id c = loopFn)) &&
          match enclosing_func m (op_id loop) with
          | Some f => existsb (λ call, bool_decide (option_map op_id (lookupCallee m call) = func_id c)) (calls_in f)
          | None => false
          end) ctors) in
        let otherwise := match below with
          | Some b => if (List.length ctors =? 1)%nat && builtOnce && ctorRunBy b holder then Some (loop, None) else None
          | None => Some (loop, None)
          end in
        if ctorInLoopFn then (if builtOnce && same_inst built holder then Some (loop, None) else None)
        else match (if builtOnce then holder else None) with
        | Some h =>
            match i_site h with
            | Some site => if same_inst built (i_parent h) then Some (loop, Some site) else otherwise
            | None => otherwise
            end
        | None => otherwise
        end
  end.

(** ** The record *)

(** The queues an operation may act on under an instance, or why one of them
    could not be told. *)
Variable keysOf : operation → instance → list key + string.
(** Where a queue went that another stands for. *)
Variable folded : key → option key.

Definition into (k : key) : key := default k (folded k).
Definition final_keys (l : list key) : list key := fold_left (λ rs k, add_key (into k) rs) l [].

(** One operation on one of its queues, [several] when it may act on
    another. *)
Definition record_on (o : operation) (inst : instance) (several : bool) (k : key) (r : RootInfo) : RootInfo :=
  let a := with_oneOf several (accessOf o inst) in
  let r := if is_overrun o then on_consumers (touch inst a) r else r in
  let b := with_credit (credit o inst k) a in
  if isConsumerOp o then on_consumers (touch inst b) r else on_producers (touch inst b) r.
Definition record_op (roots : list (key * RootInfo)) (v : operation * instance) : list (key * RootInfo) :=
  match keysOf (fst v) (snd v) with
  | inr _ => roots
  | inl l =>
      let rs := final_keys l in
      fold_left (λ roots k, at_root k (record_on (fst v) (snd v) (1 <? List.length rs)%nat k) roots) rs roots
  end.

(** A free whose pool could not be named, with why: a put into one of the
    pools that may hold mbufs. *)
Variable mbufPoolWhy : operation → option string.
Definition unresolved (o : operation) : option string :=
  match lc_viaMbuf (libraryOp o) with MbufNone => None | _ => mbufPoolWhy o end.
Definition kept (vs : list (operation * instance)) : list (operation * instance) := List.filter (λ v, match unresolved (fst v) with None => true | Some _ => false end) vs.
Definition puts (vs : list (operation * instance)) : list (operation * instance * string) :=
  omap (λ v, option_map (λ w, (v, w)) (unresolved (fst v))) vs.
Definition unresolved_put (pools : list key) (roots : list (key * RootInfo)) (u : operation * instance * string) : list (key * RootInfo) :=
  let '(o, inst, why) := u in
  fold_left (λ roots k, at_root k (on_producers (touch inst (with_poolWhy why (with_oneOf true (accessOf o inst))))) roots) pools roots.

Definition roots_of (pools : list key) (vs : list (operation * instance)) : list (key * RootInfo) :=
  fold_left (unresolved_put pools) (puts vs) (fold_left record_op (kept vs) []).

(** ** Poison *)

Variable queueObjectTypeOfOp : operation → option ty.
Record poisoned := Poisoned { poisonedOps : list nat; globalPoison : bool; poisonedTypes : list (ty * string) }.
Definition type_poisoned (t : ty) (p : poisoned) : bool := existsb (λ x, bool_decide (fst x = t)) (poisonedTypes p).
Definition poison (o : operation) (why : string) (p : poisoned) : poisoned :=
  if existsb (Nat.eqb (op_id o)) (poisonedOps p) then p
  else match queueObjectTypeOfOp o with
  | None => Poisoned (op_id o :: poisonedOps p) true (poisonedTypes p)
  | Some t => Poisoned (op_id o :: poisonedOps p) (globalPoison p) (if type_poisoned t p then poisonedTypes p else poisonedTypes p ++ [(t, why)])
  end.
(** The operations whose queue could not be told. *)
Definition poison_visits (vs : list (operation * instance)) (p : poisoned) : poisoned :=
  fold_left (λ p v, match keysOf (fst v) (snd v) with inr why => poison (fst v) why p | inl _ => p end) (kept vs) p.

(** ** The verdict *)

(** Threads started on different arms of one branch are one. *)
Fixpoint all_exclusive (st : state) (l : list nat) : bool :=
  match l with [] => true | t :: l => forallb (exclusive m st t) l && all_exclusive st l end.
Definition countOf (st : state) (s : SideInfo) : nat :=
  let n := count s in
  if negb (n =? 2)%nat || anyMany s || (List.length (threads s) <? 2)%nat then n
  else if all_exclusive st (threads s) then 1 else n.

Variable queueTypeOf : key → option ty.

Definition topology_of (p c : nat) : topology :=
  if (p <=? 1)%nat && (c <=? 1)%nat then Tspsc
  else if (2 <=? p)%nat && (c <=? 1)%nat then Tmpsc
  else if (p <=? 1)%nat && (2 <=? c)%nat then Tspmc
  else Tmpmc.
Definition verdict (st : state) (p : poisoned) (k : key) (r : RootInfo) : topology :=
  if globalPoison p || capExceeded st || match queueTypeOf k with Some t => type_poisoned t p | None => false end
     || (snd k =? kElementsOffset)%Z && match queueTypeOf k with None => true | Some _ => false end
  then Tunknown else topology_of (countOf st (producers r)) (countOf st (consumers r)).
Definition verdicts (st : state) (p : poisoned) (roots : list (key * RootInfo)) : list (key * topology) := map (λ x, (fst x, verdict st p (fst x) (snd x))) roots.

(** The meet over every queue an operation may act on. *)
Definition verdictOf (vs : list (key * topology)) (k : key) : topology :=
  match List.find (λ x, same_key k (fst x)) vs with Some (_, t) => t | None => Tunknown end.
Definition meet (vs : list (key * topology)) (ks : list key) : topology :=
  match ks with
  | [] => Tunknown
  | k :: ks => fold_left (λ t k, if bool_decide (verdictOf vs k = t) then t else Tunknown) ks (verdictOf vs k)
  end.
(** The queues an operation may act on, under every instance. *)
Definition opRoots (vs : list (operation * instance)) (o : operation) : list key :=
  fold_left (λ ks v, if (op_id (fst v) =? op_id o)%nat then
    match keysOf (fst v) (snd v) with inl l => fold_left (λ ks k, add_key k ks) (final_keys l) ks | inr _ => ks end else ks) vs [].
End pass.
End Ownership.
