(* ===== verification/OwnershipSpec.v ===== *)
(** * OwnershipSpec: a verdict on a queue against the runs of the program

    The queue ownership analysis composed with what the thread walk's
    multiplicities mean ([ThreadRuns]): where the verdict names a single
    producer, one thread at most executes the operations that produce, in
    any run of a program in which the walk met no recursion; the same for
    the consumer ([verdict_sound]). *)

From stdpp Require Import base tactics list strings gmap.
From Stdlib Require Import String ZArith Lia.
From S2P Require Import Prelude Text Cir Utils Slots Loops LibraryQueue Frames Graph Exec Threads ThreadsSpec Exclusive ThreadRuns Ownership.
Local Open Scope list_scope.

Module OwnershipSpec.
Import Threads ThreadRuns Ownership.
Open Scope nat_scope.

(** ** The record *)

(** An instance's thread is counted on a side. *)
Definition counted (K : instance) (s : SideInfo) : Prop := i_thread K ∈ threads s ∧ (threadMult K = Many → anyMany s = true).
Definition side_grows (s s' : SideInfo) : Prop := ∀ K, counted K s → counted K s'.
Definition grows (r r' : RootInfo) : Prop := side_grows (producers r) (producers r') ∧ side_grows (consumers r) (consumers r').
#[local] Instance grows_preorder : PreOrder grows.
Proof. split; [by intros r; split; intros K|]. intros a b c [H1 H2] [H3 H4]. split; intros K HK; auto. Qed.

Lemma touch_grows i a s : side_grows s (touch i a s).
Proof.
  intros K [Ht Hm]. unfold touch, counted. cbn. split; [destruct (existsb _ _); [done|apply elem_of_app; by left]|]. intros H. by rewrite (Hm H).
Qed.
Lemma touch_counts i a s : counted i (touch i a s).
Proof.
  unfold touch, counted. cbn. split.
  - destruct (existsb _ _) eqn:E; [|apply elem_of_app; right; by apply list_elem_of_singleton]. apply existsb_exists in E as (t & Ht & ->%Nat.eqb_eq). by apply list_elem_of_In.
  - intros ->. apply orb_true_r.
Qed.

Lemma same_key_refl k : same_key k k = true.
Proof. unfold same_key. by rewrite Nat.eqb_refl, Z.eqb_refl. Qed.
Lemma same_key_trans a b c : same_key a b = true → same_key a c = same_key b c.
Proof.
  unfold same_key. intros [H1%Nat.eqb_eq H2%Z.eqb_eq]%andb_true_iff. by rewrite H1, H2.
Qed.

Definition lookup_root (k : key) (l : list (key * RootInfo)) : option RootInfo := option_map snd (List.find (λ x, same_key k (fst x)) l).

Lemma lookup_at_root q k f l : lookup_root q (at_root k f l) = if same_key q k then Some (f (default root0 (lookup_root k l))) else lookup_root q l.
Proof.
  unfold lookup_root. induction l as [|[k' r] l IH]; cbn; [by destruct (same_key q k)|].
  destruct (same_key k k') eqn:E; cbn.
  - destruct (same_key q k) eqn:Eq; [by rewrite (same_key_trans _ _ _ Eq), E|]. 
    assert (same_key q k' = false) as ->; [|done]. apply not_true_iff_false. intros Hq. unfold same_key in *.
    apply andb_true_iff in Hq as [Hq1%Nat.eqb_eq Hq2%Z.eqb_eq], E as [E1%Nat.eqb_eq E2%Z.eqb_eq]. rewrite Hq1, Hq2, E1, E2, Nat.eqb_refl, Z.eqb_refl in Eq. done.
  - destruct (same_key q k') eqn:Eq; cbn; [|done]. assert (same_key q k = false) as ->; [|done]. apply not_true_iff_false. intros Hq.
    rewrite (same_key_trans _ _ _ Hq) in Eq. congruence.
Qed.

(** What has been recorded of a queue stays. *)
Definition has (P : RootInfo → Prop) (q : key) (l : list (key * RootInfo)) : Prop := ∃ r, lookup_root q l = Some r ∧ P r.
Definition stable (P : RootInfo → Prop) : Prop := ∀ r r', grows r r' → P r → P r'.

Lemma has_at_root P q k f l : stable P → (∀ r, grows r (f r)) → has P q l → has P q (at_root k f l).
Proof.
  intros HP Hf (r & Hr & H). unfold has. rewrite lookup_at_root. destruct (same_key q k) eqn:E; [|by exists r].
  assert (lookup_root k l = Some r) as ->. { rewrite <-Hr. unfold lookup_root. f_equal. clear -E. induction l as [|[k' r'] l IH]; cbn; [done|]. rewrite (same_key_trans _ _ _ E). by rewrite IH. }
  eexists. split; [done|]. cbn. by apply (HP r).
Qed.
Lemma at_root_has P q k f l : same_key q k = true → (∀ r, P (f r)) → has P q (at_root k f l).
Proof. intros E Hf. unfold has. rewrite lookup_at_root, E. eauto. Qed.

Lemma has_fold {A} P q (f : list (key * RootInfo) → A → list (key * RootInfo)) xs l : (∀ l x, has P q l → has P q (f l x)) → has P q l → has P q (fold_left f xs l).
Proof. intros Hf. revert l. induction xs as [|x xs IH]; intros l Hl; cbn; auto. Qed.
Lemma fold_has {A} P q (f : list (key * RootInfo) → A → list (key * RootInfo)) xs l x : (∀ l x, has P q l → has P q (f l x)) → x ∈ xs → (∀ l, has P q (f l x)) →
  has P q (fold_left f xs l).
Proof.
  intros Hf Hx Hfx. revert l. induction xs as [|y xs IH]; intros l; [by apply elem_of_nil in Hx|]. cbn. apply elem_of_cons in Hx as [->|Hx]; [|auto].
  apply has_fold; auto.
Qed.

Lemma on_producers_grows f r : side_grows (producers r) (f (producers r)) → grows r (on_producers f r).
Proof. intros H. split; [done|by intros K]. Qed.
Lemma on_consumers_grows f r : side_grows (consumers r) (f (consumers r)) → grows r (on_consumers f r).
Proof. intros H. split; [by intros K|done]. Qed.

Section pass.
Context (m : module) (demangle : string → string) (pd : string → option demangled).
Context (abstractKeys : key → bool) (keyCtors : key → list operation) (keyCtorInst : key → option (option instance)).
Context (sameObject : operation → instance → option instance → operation → bool) (ctorRunBy : operation → option instance → bool).
Context (keysOf : operation → instance → list key + string) (folded : key → option key) (mbufPoolWhy : operation → option string).

Abbreviation record_on := (Ownership.record_on m demangle pd abstractKeys keyCtors keyCtorInst sameObject ctorRunBy).
Abbreviation record_op := (Ownership.record_op m demangle pd abstractKeys keyCtors keyCtorInst sameObject ctorRunBy keysOf folded).
Abbreviation roots_of := (Ownership.roots_of m demangle pd abstractKeys keyCtors keyCtorInst sameObject ctorRunBy keysOf folded mbufPoolWhy).
Abbreviation unresolved := (Ownership.unresolved m pd mbufPoolWhy).
Abbreviation kept := (Ownership.kept m pd mbufPoolWhy).
Abbreviation puts := (Ownership.puts m pd mbufPoolWhy).
Abbreviation isConsumerOp := (Ownership.isConsumerOp m pd).
Abbreviation consumes := (Ownership.consumes m pd).

Lemma record_grows o i several k r : grows r (record_on o i several k r).
Proof.
  unfold Ownership.record_on. etrans; [|destruct (isConsumerOp o); [apply on_consumers_grows|apply on_producers_grows]; apply touch_grows].
  destruct (is_overrun o); [|done]. apply on_consumers_grows, touch_grows.
Qed.

Lemma record_counts o i several k r : (isConsumerOp o = false → counted i (producers (record_on o i several k r))) ∧ (consumes o = true → counted i (consumers (record_on o i several k r))).
Proof.
  unfold Ownership.record_on, Ownership.consumes. destruct (isConsumerOp o); cbn [orb].
  - split; [done|]. intros _. apply touch_counts.
  - split; [intros _; apply touch_counts|]. intros ->. cbn. apply touch_counts.
Qed.

Lemma has_key_in q l : has_key q l = true → ∃ k, k ∈ l ∧ same_key q k = true.
Proof. unfold has_key. intros (k & Hk & H)%existsb_exists. exists k. split; [by apply list_elem_of_In|done]. Qed.

(** A visit is counted on the queues it may act on, a free whose pool is not
    known on every pool. *)
Lemma roots_counted pools vs q o i : (o, i) ∈ vs →
  match unresolved o with Some _ => has_key q pools = true | None => ∃ l, keysOf o i = inl l ∧ has_key q (final_keys folded l) = true end →
  ∃ r, lookup_root q (roots_of pools vs) = Some r ∧
    (isConsumerOp o = false ∨ unresolved o ≠ None → counted i (producers r)) ∧ (unresolved o = None → consumes o = true → counted i (consumers r)).
Proof.
  intros Hv Ho. set (P r := (isConsumerOp o = false ∨ unresolved o ≠ None → counted i (producers r)) ∧ (unresolved o = None → consumes o = true → counted i (consumers r))).
  assert (stable P) as HP by (intros r r' [H1 H2] [H3 H4]; split; auto).
  assert (∀ l v, has P q l → has P q (record_op l v)) as Hrec.
  { intros l v Hl. unfold Ownership.record_op. destruct (keysOf v.1 v.2) as [ks|]; [|done]. apply has_fold; [|done]. intros l' k. apply has_at_root; [done|]. intros r. apply record_grows. }
  assert (∀ l u, has P q l → has P q (unresolved_put demangle pools l u)) as Hput.
  { intros l [[o' i'] w] Hl. apply has_fold; [|done]. intros l' k. apply has_at_root; [done|]. intros r. apply on_producers_grows, touch_grows. }
  change (has P q (roots_of pools vs)). unfold Ownership.roots_of. destruct (unresolved o) as [w|] eqn:Eu.
  - apply (fold_has P q _ _ _ (o, i, w) Hput).
    + unfold Ownership.puts. apply list_elem_of_omap. exists (o, i). split; [done|]. cbn. by rewrite Eu.
    + intros l. cbn. apply has_key_in in Ho as (k & Hk & Hq). apply (fold_has P q _ _ _ k); [|done|].
      * intros l' k' Hl'. apply has_at_root; [done| |done]. intros r. apply on_producers_grows, touch_grows.
      * intros l'. apply at_root_has; [done|]. intros r. split; [intros _; apply touch_counts|done].
  - apply has_fold; [done|]. apply (fold_has P q _ _ _ (o, i) Hrec).
    + unfold Ownership.kept. apply list_elem_of_In, filter_In. rewrite <-list_elem_of_In. cbn. by rewrite Eu.
    + intros l. destruct Ho as (ks & Hks & Hq). unfold Ownership.record_op. cbn [fst snd]. rewrite Hks. apply has_key_in in Hq as (k & Hk & Hq). apply (fold_has P q _ _ _ k); [|done|].
      * intros l' k' Hl'. apply has_at_root; [done| |done]. intros r. apply record_grows.
      * intros l'. apply at_root_has; [done|]. intros r. destruct (record_counts o i (1 <? List.length (final_keys folded ks))%nat k r) as [H1 H2].
        split; [intros [H|H]; [auto|done]|auto].
Qed.

(** ** Poison *)

Section poison.
Context (queueObjectTypeOfOp : operation → option ty).

(** Whatever poisons [p] poisons [p']. *)
Definition poisons (p p' : poisoned) : Prop := (globalPoison p = true → globalPoison p' = true) ∧ ∀ t, type_poisoned t p = true → type_poisoned t p' = true.
(** The operation's queue, whichever it is, gets no verdict. *)
Definition unknown_op (o : operation) (p : poisoned) : Prop :=
  match queueObjectTypeOfOp o with None => globalPoison p = true | Some t => type_poisoned t p = true end.

Lemma poison_poisons o why p : poisons p (poison queueObjectTypeOfOp o why p).
Proof.
  unfold poison. destruct (existsb _ _); [by split|]. destruct (queueObjectTypeOfOp o) as [t|]; [|by split]. split; [done|]. intros t' Ht'. unfold type_poisoned. cbn.
  destruct (existsb _ (poisonedTypes p)) eqn:E; [done|]. rewrite existsb_app. unfold type_poisoned in Ht'. by rewrite Ht'.
Qed.

(** [p] remembers why each of its operations is in it; operations with one
    number are one. *)
Context (ops : list operation) (Hops : ∀ a b, a ∈ ops → b ∈ ops → op_id a = op_id b → a = b).
Definition remembers (p : poisoned) : Prop := ∀ o, o ∈ ops → op_id o ∈ poisonedOps p → unknown_op o p.

Lemma poison_unknown o why p : o ∈ ops → remembers p → unknown_op o (poison queueObjectTypeOfOp o why p) ∧ remembers (poison queueObjectTypeOfOp o why p).
Proof.
  intros Ho Hp. pose proof (poison_poisons o why p) as [Hg Ht].
  assert (unknown_op o (poison queueObjectTypeOfOp o why p)) as Hu.
  { unfold poison. destruct (existsb (Nat.eqb (op_id o)) (poisonedOps p)) eqn:E.
    - apply Hp; [done|]. apply existsb_exists in E as (i & Hi & ->%Nat.eqb_eq). by apply list_elem_of_In.
    - unfold unknown_op. destruct (queueObjectTypeOfOp o) as [t|]; [|done]. unfold type_poisoned. cbn. destruct (existsb _ (poisonedTypes p)) eqn:Et; [done|].
      rewrite existsb_app. cbn. rewrite bool_decide_true by done. apply orb_true_iff. by right. }
  split; [done|]. intros o' Ho' Hin. assert (op_id o' ∈ poisonedOps p ∨ op_id o' = op_id o) as [Hin'|E].
  { unfold poison in Hin. destruct (existsb _ _); [by left|]. destruct (queueObjectTypeOfOp o); cbn in Hin; apply elem_of_cons in Hin as [?|?]; auto. }
  - specialize (Hp o' Ho' Hin'). unfold unknown_op in *. destruct (queueObjectTypeOfOp o'); auto.
  - by rewrite (Hops o' o).
Qed.

Lemma visits_poisoned vs p o i why : (∀ v, v ∈ kept vs → fst v ∈ ops) → remembers p → (o, i) ∈ kept vs → keysOf o i = inr why →
  unknown_op o (poison_visits m pd keysOf mbufPoolWhy queueObjectTypeOfOp vs p).
Proof.
  unfold poison_visits. match goal with |- context [fold_left ?h] => set (f := h) end. intros Hv Hp Ho Hk. revert p Hp.
  induction (kept vs) as [|v l IH]; intros p Hp; [by apply elem_of_nil in Ho|]. cbn [fold_left].
  assert (∀ l p, poisons p (fold_left f l p)) as Hmono.
  { clear. induction l as [|v l IH]; intros p; [by split|]. cbn. assert (poisons p (f p v)) as [H1 H2] by (unfold f; destruct (keysOf _ _); [by split|apply poison_poisons]).
    destruct (IH (f p v)) as [H3 H4]. split; auto. }
  apply elem_of_cons in Ho as [<-|Ho].
  - assert (f p (o, i) = poison queueObjectTypeOfOp o why p) as -> by (unfold f; cbn; by rewrite Hk). destruct (poison_unknown o why p) as [Hu _]; [apply (Hv (o, i)); left|done|].
    destruct (Hmono l (poison queueObjectTypeOfOp o why p)) as [H1 H2]. unfold unknown_op in *. destruct (queueObjectTypeOfOp o); auto.
  - apply IH; [intros; apply Hv; by right|done|]. unfold f. destruct (keysOf v.1 v.2) as [|w]; [done|]. apply (proj2 (poison_unknown v.1 w p (Hv v (list_elem_of_here _ _)) Hp)).
Qed.
End poison.
End pass.

(** ** The verdict *)

Lemma exclusive_pair m st l t t' : all_exclusive m st l = true → t ∈ l → t' ∈ l → t ≠ t' → exclusive m st t t' = true ∨ exclusive m st t' t = true.
Proof.
  induction l as [|u l IH]; intros H Ht Ht' Hne; [by apply elem_of_nil in Ht|]. cbn in H. apply andb_true_iff in H as [H1 H2]. pose proof (proj1 (forallb_forall _ _) H1) as H3.
  apply elem_of_cons in Ht as [->|Ht]; apply elem_of_cons in Ht' as [->|Ht']; [done|left|right|by apply IH]; apply H3; by apply list_elem_of_In.
Qed.

(** A side counted as one at most: its threads are one, or exclude each
    other. *)
Lemma countOf_one m st s K K' : countOf m st s ≤ 1 → counted K s → counted K' s →
  threadMult K = One ∧ threadMult K' = One ∧ (i_thread K = i_thread K' ∨ exclusive m st (i_thread K) (i_thread K') = true ∨ exclusive m st (i_thread K') (i_thread K) = true).
Proof.
  intros Hc [Ht Hm] [Ht' Hm']. unfold countOf, count in Hc. destruct (threads s) as [|t [|u l]] eqn:El.
  - by apply elem_of_nil in Ht.
  - apply list_elem_of_singleton in Ht, Ht'. destruct (anyMany s); cbn in Hc; [lia|]. destruct (threadMult K); [|by specialize (Hm eq_refl)]. destruct (threadMult K'); [|by specialize (Hm' eq_refl)].
    split; [done|]. split; [done|]. left. congruence.
  - cbn -[all_exclusive] in Hc. destruct (anyMany s); cbn -[all_exclusive] in Hc; [lia|]. destruct (threadMult K); [|by specialize (Hm eq_refl)]. destruct (threadMult K'); [|by specialize (Hm' eq_refl)].
    split; [done|]. split; [done|]. destruct (all_exclusive m st (t :: u :: l)) eqn:E; [|lia]. destruct (decide (i_thread K = i_thread K')) as [?|Hne]; [by left|right].
    by apply (exclusive_pair m st (t :: u :: l)).
Qed.

Section verdict.
Context (m : module) (Hwf : wf_ids m = true) (Hcases : Exclusive.cases_ok m = true).
(* the walk *)
Context (isAddressTaken : operation → bool) (invokeTargets : nat → option (list operation * bool)) (fieldEntries : value → instance → list operation).
Context (relevant : operation → bool) (cap : nat) (callableElsewhere : operation → bool) (global_ctors : list string).
Context (resolveCallable : instance → option operation) (stdThreadEntry : operation → option operation) (resolvedRuns : list nat).
(* the analysis *)
Context (demangle : string → string) (pd : string → option demangled).
Context (abstractKeys : key → bool) (keyCtors : key → list operation) (keyCtorInst : key → option (option instance)).
Context (sameObject : operation → instance → option instance → operation → bool) (ctorRunBy : operation → option instance → bool).
Context (keysOf : operation → instance → list key + string) (folded : key → option key) (mbufPoolWhy : operation → option string).
Context (queueObjectTypeOfOp : operation → option ty) (queueTypeOf : key → option ty) (pools : list key).

Abbreviation st := (Threads.run m isAddressTaken invokeTargets fieldEntries relevant cap callableElsewhere global_ctors resolveCallable stdThreadEntry resolvedRuns).
Abbreviation covers := (ThreadRuns.covers m isAddressTaken invokeTargets fieldEntries relevant cap callableElsewhere global_ctors resolveCallable stdThreadEntry resolvedRuns).
Abbreviation execution := (ThreadRuns.execution m isAddressTaken invokeTargets fieldEntries relevant cap callableElsewhere global_ctors resolveCallable stdThreadEntry resolvedRuns).
Abbreviation vs := (visits m pd st).
Abbreviation roots := (Ownership.roots_of m demangle pd abstractKeys keyCtors keyCtorInst sameObject ctorRunBy keysOf folded mbufPoolWhy pools vs).
Abbreviation unresolved := (Ownership.unresolved m pd mbufPoolWhy).

(** What a run's queue operations act on: [acts i k] is the queue the [k]th
    operation of the [i]th activation acts on, when it is an operation the
    analysis counts.  Its queue is among those read for it under every
    instance that covers the activation, or has the type its handle says. *)
Record attributed (E : list activation) (acts : nat → nat → option key) : Prop := {
  at_op : ∀ i k q n o, acts i k = Some q → E !! i = Some n → a_trace n !! k = Some o →
    negb (inLibraryBody m pd o) && isQueueOp m pd o = true ∧ relevant (a_func n) = true;
  at_keys : ∀ i k q n o K, acts i k = Some q → E !! i = Some n → a_trace n !! k = Some o → covers E i K →
    match unresolved o with
    | Some _ => has_key q pools = true
    | None =>
        match keysOf o K with
        | inl l => has_key q (final_keys folded l) = true
        | inr _ => queueObjectTypeOfOp o = None ∨ queueTypeOf q = queueObjectTypeOfOp o
        end
    end;
}.

(** One thread at most executes the operations on [q] that [pick] chooses. *)
Definition single (E : list activation) (acts : nat → nat → option key) (q : key) (pick : operation → bool) : Prop :=
  ∀ i j k l n n' o o', acts i k = Some q → acts j l = Some q → E !! i = Some n → E !! j = Some n' →
    a_trace n !! k = Some o → a_trace n' !! l = Some o' → pick o = true → pick o' = true → ∃ τ, on_thread E i τ ∧ on_thread E j τ.

(** A free whose pool is not known is a push. *)
Lemma via_mbuf_push o : lc_viaMbuf (libraryQueueCall pd m o) ≠ MbufNone → lc_role (libraryQueueCall pd m o) = RolePush.
Proof.
  unfold libraryQueueCall, libraryQueueCallOf. set (f := libraryQueueFunction pd (lookupCallee m o)).
  assert (lf_viaMbuf f ≠ MbufNone → lf_role f = RolePush) as Hf.
  { unfold f, libraryQueueFunction, classify, classifyMempool, classifyRing, mp_create, mp_op, mempool. repeat case_match; done. }
  case_bool_decide; [done|]. cbn zeta. destruct (negb _ && _); [done|]. cbn. auto.
Qed.

Lemma unresolved_pushes o : unresolved o ≠ None → Ownership.consumes m pd o = false.
Proof.
  unfold Ownership.unresolved, Ownership.consumes, isConsumerOp, is_overrun, libraryOp, libraryCall, is_call, as_call. destruct (op_kind o) eqn:Ek; try done.
  destruct (bool_decide_reflect (lc_role (libraryQueueCall pd m o) = RolePush)) as [E|E]; cbn [orb].
  - intros _. by rewrite E.
  - case_bool_decide as E'; [|done]. intros H. exfalso. apply E, via_mbuf_push. intros H'. by rewrite H' in H.
Qed.

Abbreviation poison_visits := (Ownership.poison_visits m pd keysOf mbufPoolWhy queueObjectTypeOfOp vs).
Definition clean : poisoned := Poisoned [] false [].

Section sides.
Context (Hrec : recursions st = []) (E : list activation) (acts : nat → nat → option key) (q : key) (r : RootInfo) (p : poisoned).
Context (HE : execution E) (Hup : upward relevant E) (Hfun : ∀ K, K ∈ instances st → i_func K ∈ m) (Hat : attributed E acts).
Context (Hp : poisons (poison_visits clean) p) (Hr : lookup_root q roots = Some r) (Hv : verdict m queueTypeOf st p q r ≠ Tunknown).

Lemma verdict_clean : globalPoison p = false ∧ capExceeded st = false ∧ ∀ t, queueTypeOf q = Some t → type_poisoned t p = false.
Proof.
  unfold verdict in Hv. destruct (globalPoison p); [done|]. destruct (capExceeded st); [done|]. cbn [orb] in Hv. split; [done|]. split; [done|].
  intros t Ht. rewrite Ht in Hv. by destruct (type_poisoned t p).
Qed.

(** What the activation [i] does on [q] was counted, under an instance that
    covers it. *)
Lemma act_counted i k n o : acts i k = Some q → E !! i = Some n → a_trace n !! k = Some o →
  ∃ K, covers E i K ∧ (produces m pd o = true → counted K (producers r)) ∧ (Ownership.consumes m pd o = true → counted K (consumers r)).
Proof.
  intros Ha Hi Ho. destruct verdict_clean as (Hg & Hcap & Ht). destruct (at_op _ _ Hat i k q n o Ha Hi Ho) as [Hq Hrel].
  destruct (covered m isAddressTaken invokeTargets fieldEntries relevant cap callableElsewhere global_ctors resolveCallable stdThreadEntry resolvedRuns E HE Hrec Hcap Hup i n Hi Hrel) as [K HK].
  exists K. split; [done|]. destruct (covers_in m isAddressTaken invokeTargets fieldEntries relevant cap callableElsewhere global_ctors resolveCallable stdThreadEntry resolvedRuns E i K HK) as (HKi & n' & Hn' & HKf).
  assert (n' = n) as -> by congruence. assert (o ∈ walk (a_func n)) as Hw by (eapply ran_walk; [by eapply HE|by eapply list_elem_of_lookup_2]).
  assert ((o, K) ∈ vs) as Hvs.
  { unfold visits. apply elem_of_flat_map. exists K. split; [done|]. apply list_elem_of_fmap. exists o. split; [done|]. apply list_elem_of_In, filter_In. split; [|done]. apply list_elem_of_In. by rewrite HKf. }
  pose proof (at_keys _ _ Hat i k q n o K Ha Hi Ho HK) as Hkeys.
  assert (match unresolved o with Some _ => has_key q pools = true | None => ∃ l, keysOf o K = inl l ∧ has_key q (final_keys folded l) = true end) as Hkeys'.
  { destruct (unresolved o) eqn:Eu; [done|]. destruct (keysOf o K) as [l|why] eqn:Ek; [eauto|]. exfalso.
    assert (unknown_op queueObjectTypeOfOp o (poison_visits clean)) as Hu.
    { apply (visits_poisoned m pd keysOf mbufPoolWhy queueObjectTypeOfOp (map fst (Ownership.kept m pd mbufPoolWhy vs))) with K why; [| | | |done].
      - intros a b (v & -> & Hv1)%list_elem_of_fmap (w & -> & Hw1)%list_elem_of_fmap. apply (Exclusive.same_id m Hwf).
        + apply list_elem_of_In, filter_In in Hv1 as [Hv1 _]. apply list_elem_of_In in Hv1. unfold visits in Hv1. apply elem_of_flat_map in Hv1 as (Q & HQ & (o1 & -> & Ho1)%list_elem_of_fmap).
          apply list_elem_of_In, filter_In in Ho1 as [Ho1%list_elem_of_In _]. apply elem_of_flat_map. exists (i_func Q). auto.
        + apply list_elem_of_In, filter_In in Hw1 as [Hw1 _]. apply list_elem_of_In in Hw1. unfold visits in Hw1. apply elem_of_flat_map in Hw1 as (Q & HQ & (o1 & -> & Ho1)%list_elem_of_fmap).
          apply list_elem_of_In, filter_In in Ho1 as [Ho1%list_elem_of_In _]. apply elem_of_flat_map. exists (i_func Q). auto.
      - intros v Hv1. by apply list_elem_of_fmap_2.
      - intros o1 _ H1. by apply elem_of_nil in H1.
      - apply list_elem_of_In, filter_In. rewrite <-list_elem_of_In. cbn. by rewrite Eu. }
    destruct Hp as [Hp1 Hp2]. unfold unknown_op in Hu. destruct (queueObjectTypeOfOp o) as [t|] eqn:Et; [|rewrite Hp1 in Hg; done].
    destruct Hkeys as [?|Hqt]; [done|]. specialize (Ht t Hqt). rewrite (Hp2 t Hu) in Ht. done. }
  destruct (roots_counted m demangle pd abstractKeys keyCtors keyCtorInst sameObject ctorRunBy keysOf folded mbufPoolWhy pools vs q o K Hvs Hkeys') as (r' & Hr' & H1 & H2).
  assert (r' = r) as -> by congruence. split.
  - intros H. apply H1. left. unfold produces in H. apply andb_true_iff in H as [_ H%negb_true_iff]. done.
  - intros H. apply H2; [|done]. destruct (unresolved o) eqn:Eu; [|done]. rewrite unresolved_pushes in H; [done|by rewrite Eu].
Qed.

(** A side counted as one at most is one thread's in any run. *)
Lemma side_single (pick : operation → bool) (side : RootInfo → SideInfo) : countOf m st (side r) ≤ 1 →
  (∀ i k n o, acts i k = Some q → E !! i = Some n → a_trace n !! k = Some o → pick o = true → ∃ K, covers E i K ∧ counted K (side r)) →
  single E acts q pick.
Proof.
  intros Hc Hcount i j k l n n' o o' Ha Hb Hi Hj Ho Ho' Hpo Hpo'. destruct verdict_clean as (_ & Hcap & _).
  destruct (Hcount i k n o Ha Hi Ho Hpo) as (K & HK & HKc). destruct (Hcount j l n' o' Hb Hj Ho' Hpo') as (K' & HK' & HKc').
  destruct (countOf_one m st (side r) K K' Hc HKc HKc') as (H1 & H2 & [He|[He|He]]).
  - eapply (cover_thread m Hwf); [exact HE|exact Hrec|exact Hcap|exact HK|exact HK'|done|done|done].
  - exfalso. eapply (cover_exclusive m Hwf); [exact HE|exact Hrec|exact Hcap|exact Hcases|exact He|exact HK|exact HK'|done|done].
  - exfalso. eapply (cover_exclusive m Hwf); [exact HE|exact Hrec|exact Hcap|exact Hcases|exact He|exact HK'|exact HK|done|done].
Qed.
End sides.

Lemma verdict_one p q r : let t := verdict m queueTypeOf st p q r in
  (t = Tspsc ∨ t = Tspmc → countOf m st (producers r) ≤ 1) ∧ (t = Tspsc ∨ t = Tmpsc → countOf m st (consumers r) ≤ 1).
Proof.
  unfold verdict, topology_of. cbv zeta. destruct (_ || _); [split; intros [?|?]; done|].
  destruct (Nat.leb_spec (countOf m st (producers r)) 1), (Nat.leb_spec (countOf m st (consumers r)) 1); cbn [andb];
    repeat match goal with |- context [(2 <=? ?n)%nat] => destruct (Nat.leb_spec 2 n) end; cbn [andb]; split; intros [?|?]; try done; lia.
Qed.

(** C1: A verdict is what it says, where the walk met no recursion: if the
    analysis calls a queue spsc or spmc, one thread at most executes the
    operations that push to it, in any run of the program, and if it calls it
    spsc or mpsc, one thread at most executes the ones that pop.  The run
    calls functions through any chain of calls and spawns, from main, the
    constructors and outside; an operation whose queue could not be told is
    either counted on every queue it may act on or has poisoned the queue's
    type; threads counted as one because they exclude each other never both
    run.  Each operation of the run acts on a queue among those the code
    reads for it, or on one of the type it poisons when it can read none
    ([attributed]: which queues those are is a parameter), poisoning has been
    carried to its end, and every case of a switch has its one region.  Without the first condition the statement
    fails: a recurrence past the first is not expanded, and what it starts
    is not counted ([ThreadRuns.rec_module]). *)
Theorem verdict_sound E acts q r p : recursions st = [] → execution E → upward relevant E → (∀ K, K ∈ instances st → i_func K ∈ m) → attributed E acts →
  poisons (poison_visits clean) p → lookup_root q roots = Some r →
  (verdict m queueTypeOf st p q r = Tspsc ∨ verdict m queueTypeOf st p q r = Tspmc → single E acts q (produces m pd)) ∧
  (verdict m queueTypeOf st p q r = Tspsc ∨ verdict m queueTypeOf st p q r = Tmpsc → single E acts q (Ownership.consumes m pd)).
Proof.
  intros Hrec HE Hup Hfun Hat Hp Hr. split; intros Hv.
  - assert (verdict m queueTypeOf st p q r ≠ Tunknown) as Hn by (by destruct Hv as [->| ->]).
    apply (side_single Hrec E acts q r p HE Hn (produces m pd) producers); [exact (proj1 (verdict_one p q r) Hv)|].
    intros i k n o Ha Hi Ho Hpo. destruct (act_counted Hrec E acts q r p HE Hup Hfun Hat Hp Hr Hn i k n o Ha Hi Ho) as (K & HK & H1 & _). exists K. auto.
  - assert (verdict m queueTypeOf st p q r ≠ Tunknown) as Hn by (by destruct Hv as [->| ->]).
    apply (side_single Hrec E acts q r p HE Hn (Ownership.consumes m pd) consumers); [exact (proj2 (verdict_one p q r) Hv)|].
    intros i k n o Ha Hi Ho Hpo. destruct (act_counted Hrec E acts q r p HE Hup Hfun Hat Hp Hr Hn i k n o Ha Hi Ho) as (K & HK & _ & H2). exists K. auto.
Qed.
End verdict.

(** ** An example: a worker pushes, main pops *)

Section example.
Local Open Scope string_scope.
Local Open Scope list_scope.

Definition ow_attrs : wtc_attrs := WtcAttrs None None None None None None.
Definition ow_queue : operation := Op 5 "cir.global" "" (KGlobal (Global "q" (RecordTy "queue") false None)) [] [] [] [].
Definition ow_push : operation := Op 21 "wtc.queue_push" "" (KWtc (QueuePushOp false false false false) ow_attrs) [] [] [] [].
Definition ow_pop : operation := Op 14 "wtc.queue_pop" "" (KWtc (QueuePopOp false false false false false) ow_attrs) [] [] [] [].
Definition ow_main : operation := tr_func 10 "main" [tr_entry; tr_spawn; ow_pop; tr_return 13].
Definition ow_worker : operation := tr_func 20 "worker" [ow_push; tr_return 22].
Definition ow_module : module := [tr_func 1 "pthread_create" []; ow_queue; ow_main; ow_worker].

Abbreviation ow_run := (Threads.run ow_module (λ _, false) (λ _, None) (λ _ _, []) (λ _, true) 10 (λ _, false) [] (λ _, None) (λ _, None) []).
Definition ow_execution : list activation :=
  [Activation ow_main (Root 0) [tr_entry; tr_spawn; ow_pop; tr_return 13]; Activation ow_worker (Spawned 0 1) [ow_push; tr_return 22]].
Definition ow_key : key := (ow_queue, 0%Z).
Definition ow_keysOf (o : operation) (i : instance) : list key + string := inl [ow_key].
Abbreviation ow_roots := (Ownership.roots_of ow_module id (λ _, None) (λ _, false) (λ _, []) (λ _, None) (λ _ _ _ _, false) (λ _ _, false) ow_keysOf (λ _, None) (λ _, None) []
    (visits ow_module (λ _, None) ow_run)).
Definition ow_acts (i k : nat) : option key := if (i =? 0)%nat && (k =? 2)%nat || (i =? 1)%nat && (k =? 0)%nat then Some ow_key else None.

Lemma ow_execution_ok : ThreadRuns.execution ow_module (λ _, false) (λ _, None) (λ _ _, []) (λ _, true) 10 (λ _, false) [] (λ _, None) (λ _, None) [] ow_execution.
Proof.
  split.
  - intros [|[|i]] n Hi; cbn in Hi; simplify_eq/=.
    + split; [apply list_elem_of_In; do 2 right; by left|]. apply tr_ran; [by vm_compute| |by exists [tr_entry; tr_spawn; ow_pop], (tr_return 13)|done].
      repeat constructor; by apply tr_plain.
    + split; [apply list_elem_of_In; do 3 right; by left|]. apply tr_ran; [by vm_compute| |by exists [ow_push], (tr_return 22)|done].
      repeat constructor; by apply tr_plain.
  - intros [|[|i]] n r Hi Hr; cbn in Hi; simplify_eq/=. by vm_compute.
  - intros [|[|i]] n Hi Hr; cbn in Hi; simplify_eq/=.
  - intros [|[|i]] n p k sp Hi Hr; cbn in Hi; simplify_eq/=.
    split; [lia|]. eexists _, tr_spawn. split; [by split|]. right. split; [by intros [? _]|]. intros P _. unfold starts_in.
    assert (lookupCallee ow_module tr_spawn = Some (tr_func 1 "pthread_create" [])) as -> by by vm_compute. cbn.
    exists [ow_worker]. split; [by vm_compute|]. split; [done|]. split; [left|by left].
  - intros [|[|i]] [|[|j]] n n' Hi Hj He; cbn in Hi, Hj; simplify_eq/=; by left.
Qed.

Definition ow_root : RootInfo := default root0 (lookup_root ow_key ow_roots).

Lemma ow_functions K : K ∈ instances ow_run → i_func K ∈ ow_module.
Proof.
  intros HK. assert (i_func <$> instances ow_run = [ow_main; ow_worker]) as H by by vm_compute.
  pose proof (list_elem_of_fmap_2 i_func _ _ HK) as Hin. rewrite H in Hin. apply list_elem_of_In. right. right. by apply list_elem_of_In.
Qed.

Lemma ow_attributed : attributed ow_module (λ _, false) (λ _, None) (λ _ _, []) (λ _, true) 10 (λ _, false) [] (λ _, None) (λ _, None) []
  (λ _, None) ow_keysOf (λ _, None) (λ _, None) (λ _, None) (λ _, None) [] ow_execution ow_acts.
Proof.
  split.
  - intros [|[|i]] [|[|[|k]]] q n o Ha Hi Ho; cbn in Ha, Hi; simplify_eq/=; by vm_compute.
  - intros [|[|i]] [|[|[|k]]] q n o K Ha Hi Ho HK; cbn in Ha, Hi; simplify_eq/=; by vm_compute.
Qed.

Lemma verdict_sound_witness :
  lookup_root ow_key ow_roots = Some ow_root ∧ verdict ow_module (λ _, None) ow_run clean ow_key ow_root = Tspsc ∧
  single ow_execution ow_acts ow_key (produces ow_module (λ _, None)) ∧ single ow_execution ow_acts ow_key (Ownership.consumes ow_module (λ _, None)).
Proof.
  assert (verdict ow_module (λ _, None) ow_run clean ow_key ow_root = Tspsc) as Hv by (vm_compute; reflexivity).
  split; [vm_compute; reflexivity|]. split; [exact Hv|].
  destruct (verdict_sound ow_module ltac:(by vm_compute) ltac:(by vm_compute) (λ _, false) (λ _, None) (λ _ _, []) (λ _, true) 10 (λ _, false) [] (λ _, None) (λ _, None) []
    id (λ _, None) (λ _, false) (λ _, []) (λ _, None) (λ _ _ _ _, false) (λ _ _, false) ow_keysOf (λ _, None) (λ _, None) (λ _, None) (λ _, None) []
    ow_execution ow_acts ow_key ow_root clean) as [H1 H2].
  - by vm_compute.
  - exact ow_execution_ok.
  - intros i n p k sp pn _ _ _ _. reflexivity.
  - exact ow_functions.
  - exact ow_attributed.
  - by split.
  - by vm_compute.
  - split; [apply H1|apply H2]; left; exact Hv.
Defined.
End example.
End OwnershipSpec.
