(* ===== verification/Runs.v ===== *)
(** * Runs: what structured code does

    A semantics of the code inside a function, as far as control goes: the
    events of a run are the operations it executes (those of the dialect
    with their operands), and it ends by falling through, by a break or a
    continue, by leaving otherwise (a return, a goto), or by an exception.
    A queue operation that moves elements may raise one too (an allocation
    fails, or the element's copy throws): its event is then its failure.
    Conditions are not evaluated: a branch goes either way, a loop any
    number of rounds, an operation with regions it does not interpret runs
    them any number of times in any order.

    Then how runs change under [edit]: [runs_edit] for a rewriting that
    replaces the dialect's operations and keeps the rest. *)

From stdpp Require Import base tactics list strings.
From Stdlib Require Import String ZArith Lia.
From S2P Require Import Prelude Text Cir Batch.

Local Open Scope string_scope.
Local Open Scope list_scope.

Module Runs.

Inductive event := EOp (o : nat) | EWtc (w : wtc_op) (args : list value) | EFail (w : wtc_op) (args : list value).

(** The operations of the dialect that may fail: those that move elements,
    which may allocate, and copy or move what the program defines. *)
Definition may_fail (w : wtc_op) : bool :=
  match w with
  | QueuePushOp _ _ _ _ | QueuePopOp _ _ _ _ _ | QueuePushDeferredOp | QueueBatchEndOp => true
  | QueueBatchBeginOp | LockOp | UnlockOp | LockBatchBeginOp | LockBatchStepOp | LockBatchEndOp => false
  end.
Inductive exit := Fall | Break | Continue | Leave | Raise.

#[export] Instance exit_eq_dec : EqDecision exit.
Proof. solve_decision. Defined.

(** The parts of a loop: its condition, its body, its step. *)
Inductive phase := Cond | Body | Step.
Definition next_phase (p : phase) : phase := match p with Cond => Body | Body => Step | Step => Cond end.
Definition part (o : operation) (p : phase) : list block :=
  nth (match p with Cond => 0 | Body => 1 | Step => 2 end)%nat (regions o) [].

(** What a run is of: an operation, a sequence, a region, the rest of a
    block of a region, a loop from one of its parts on, regions in any
    order. *)
Inductive item :=
| IOp (o : operation)
| ISeq (l : list operation)
| IRegion (r : list block)
| IBlocks (r : list block) (l : list operation)
| ILoop (o : operation) (p : phase)
| IAny (rs : list (list block)).

Definition jump_of (o : operation) : option exit :=
  match op_kind o with
  | KReturn => Some Leave
  | _ => if Batch.named "cir.continue" o then Some Continue
         else if Batch.named "cir.break" o then Some Break
         else if Batch.named "cir.goto" o then Some Leave
         else None
  end.

(** The operations whose regions the semantics does not interpret. *)
Definition other (k : kind) : bool :=
  match k with KWtc _ _ | KFor | KLoop | KIf | KTernary | KScope | KCleanupScope => false | _ => true end.

Section runs.
(** The operations not of the dialect that may raise an exception, by
    their numbers. *)
Context (raises : nat → Prop).

Inductive runs : item → list event → exit → Prop :=
| r_nil : runs (ISeq []) [] Fall
| r_cons o l t t' x : runs (IOp o) t Fall → runs (ISeq l) t' x → runs (ISeq (o :: l)) (t ++ t') x
| r_cut o l t x : runs (IOp o) t x → x ≠ Fall → runs (ISeq (o :: l)) t x
| r_empty : runs (IRegion []) [] Fall
| r_region b r t x : runs (IBlocks (b :: r) (block_ops b)) t x → runs (IRegion (b :: r)) t x
| r_block r l t x : runs (ISeq l) t x → runs (IBlocks r l) t x
| r_goto r l b t t' x :
    (1 < List.length r)%nat → b ∈ r → runs (ISeq l) t Fall → runs (IBlocks r (block_ops b)) t' x → runs (IBlocks r l) (t ++ t') x
| r_wtc o w a : op_kind o = KWtc w a → runs (IOp o) [EWtc w (operands o)] Fall
| r_fail o w a : op_kind o = KWtc w a → may_fail w = true → runs (IOp o) [EFail w (operands o)] Raise
| r_raise o : Batch.is_wtc o = false → raises (op_id o) → runs (IOp o) [EOp (op_id o)] Raise
| r_jump o x : jump_of o = Some x → runs (IOp o) [EOp (op_id o)] x
| r_loop o p t x : Batch.isLoop o = true → p = Cond ∨ op_kind o = KLoop ∧ p = Body → runs (ILoop o p) t x → runs (IOp o) t x
| r_end o t : runs (IRegion (part o Cond)) t Fall → runs (ILoop o Cond) t Fall
| r_round o p t t' x y :
    runs (IRegion (part o p)) t y → y = Fall ∨ y = Continue → runs (ILoop o (next_phase p)) t' x → runs (ILoop o p) (t ++ t') x
| r_break o p t : runs (IRegion (part o p)) t Break → runs (ILoop o p) t Fall
| r_leave o p t x : runs (IRegion (part o p)) t x → x = Leave ∨ x = Raise → runs (ILoop o p) t x
| r_branch o r t x :
    op_kind o = KIf ∨ op_kind o = KTernary ∨ op_kind o = KScope → r ∈ regions o → runs (IRegion r) t x → runs (IOp o) t x
| r_no_branch o : op_kind o = KIf → runs (IOp o) [] Fall
| r_cleanup o t x : op_kind o = KCleanupScope → runs (IRegion (part o Cond)) t x → runs (IOp o) t x
| r_cleaned o t t' x y :
    op_kind o = KCleanupScope → runs (IRegion (part o Cond)) t x → runs (IRegion (part o Body)) t' y →
    runs (IOp o) (t ++ t') (if decide (y = Fall) then x else y)
| r_other o t x : other (op_kind o) = true → jump_of o = None → runs (IAny (regions o)) t x → runs (IOp o) (EOp (op_id o) :: t) x
| r_any_end rs : runs (IAny rs) [] Fall
| r_any rs r t t' x y :
    r ∈ rs → runs (IRegion r) t y → y = Fall ∨ y = Break ∨ y = Raise → runs (IAny rs) t' x → runs (IAny rs) (t ++ t') x
| r_any_leave rs r t x : r ∈ rs → runs (IRegion r) t x → x ≠ Fall → runs (IAny rs) t x.

(** ** What a run can meet *)

(** Every operation of the item, and what is nested in it. *)
Definition region_ops (r : list block) : list operation := flat_map walk (concat (map block_ops r)).
Definition regions_ops (rs : list (list block)) : list operation := flat_map walk (concat (map block_ops (concat rs))).
Definition item_ops (i : item) : list operation :=
  match i with
  | IOp o => walk o
  | ISeq l => flat_map walk l
  | IRegion r => region_ops r
  | IBlocks r l => flat_map walk l ++ region_ops r
  | ILoop o _ => flat_map walk (children o)
  | IAny rs => regions_ops rs
  end.

Lemma region_in_regions r rs o : r ∈ rs → o ∈ region_ops r → o ∈ regions_ops rs.
Proof.
  unfold region_ops, regions_ops. intros Hr (c & Hc & Ho)%elem_of_flat_map. apply elem_of_flat_map. exists c. split; [|done].
  apply elem_of_concat in Hc as (l & Hc & (b & -> & Hb)%list_elem_of_fmap). apply elem_of_concat. exists (block_ops b). split; [done|].
  apply list_elem_of_fmap. exists b. split; [done|]. apply elem_of_concat. by exists r.
Qed.

Lemma block_in_region b r o : b ∈ r → o ∈ flat_map walk (block_ops b) → o ∈ region_ops r.
Proof.
  unfold region_ops. intros Hb (c & Hc & Ho)%elem_of_flat_map. apply elem_of_flat_map. exists c. split; [|done].
  apply elem_of_concat. exists (block_ops b). split; [done|]. by apply list_elem_of_fmap_2.
Qed.

Lemma region_in_op r o p : r ∈ regions o → p ∈ region_ops r → p ∈ flat_map walk (children o).
Proof. apply region_in_regions. Qed.

Lemma part_in_op o ph p : p ∈ region_ops (part o ph) → p ∈ flat_map walk (children o).
Proof.
  unfold part. destruct (regions o !! (match ph with Cond => 0 | Body => 1 | Step => 2 end)%nat) as [r|] eqn:E.
  - rewrite (nth_lookup_Some _ _ _ _ E). apply region_in_op. by eapply list_elem_of_lookup_2.
  - rewrite nth_lookup, E. by intros ?%elem_of_nil.
Qed.

Lemma children_in_walk o p : p ∈ flat_map walk (children o) → p ∈ walk o.
Proof. intros H. rewrite walk_children. apply elem_of_app. by left. Qed.

(** Nothing in the item jumps out of it but a break, and nothing but the
    dialect's operations raises. *)
Definition tame (o : operation) : Prop :=
  (jump_of o = None ∨ jump_of o = Some Break) ∧ (Batch.is_wtc o = false → ¬ raises (op_id o)).

(** How a run may end: as its operations jump and raise. *)
Lemma exit_among (S : exit → Prop) i t x : runs i t x → S Fall →
  (∀ o, o ∈ item_ops i → (∀ y, jump_of o = Some y → S y) ∧ (Batch.is_wtc o = false → raises (op_id o) → S Raise) ∧
    (∀ w a, op_kind o = KWtc w a → may_fail w = true → S Raise)) → S x.
Proof.
  intros H HF. induction H as
    [|o l t t' x _ _ _ IH2|o l t x _ IH|  |b r t x _ IH|r l t x _ IH|r l b t t' x _ Hb _ _ _ IH2|o w a|o w a Hk Hm|o Hw Hr|o x Hj
    |o p t x Hl Hp _ IH|o t|o p t t' x y _ _ _ _ IH2|o p t _ IH|o p t x _ IH Hx|o r t x Hk Hr _ IH|o Hk|o t x Hk _ IH
    |o t t' x y Hk _ IH1 _ IH2|o t x Hk _ _ IH|rs|rs r t t' x y Hr _ _ _ _ IH2|rs r t x Hr _ IH Hx]; intros Ht; auto.
  - apply IH2. intros p Hp. apply Ht. simpl. apply elem_of_app. by right.
  - apply IH. intros p Hp. apply Ht. simpl. apply elem_of_app. by left.
  - apply IH. intros p Hp. apply Ht. simpl in *. apply elem_of_app in Hp as [Hp|Hp]; [|done]. eapply block_in_region; [|done]. left.
  - apply IH. intros p Hp. apply Ht. simpl. apply elem_of_app. by left.
  - apply IH2. intros p Hp. apply Ht. simpl in *. apply elem_of_app. right. apply elem_of_app in Hp as [Hp|Hp]; [|done]. by eapply block_in_region.
  - by apply (proj2 (proj2 (Ht o (walk_self o))) w a).
  - by apply (proj1 (proj2 (Ht o (walk_self o)))).
  - by apply (proj1 (Ht o (walk_self o))).
  - apply IH. intros q Hq. by apply Ht, children_in_walk.
  - apply IH. intros q Hq. apply Ht. by eapply part_in_op.
  - apply IH. intros q Hq. by eapply Ht, children_in_walk, region_in_op.
  - apply IH. intros q Hq. by eapply Ht, children_in_walk, part_in_op.
  - destruct (decide (y = Fall)); [apply IH1|apply IH2]; intros q Hq; by eapply Ht, children_in_walk, part_in_op.
  - apply IH. intros q Hq. by eapply Ht, children_in_walk.
  - apply IH. intros q Hq. apply Ht. by eapply region_in_regions.
Qed.

(** No operation of the dialect here may fail. *)
Definition steady (o : operation) : Prop := ∀ w a, op_kind o = KWtc w a → may_fail w = false.

Lemma tame_exit i t x : runs i t x → (∀ o, o ∈ item_ops i → tame o) → x = Fall ∨ x = Break ∨ x = Raise.
Proof.
  intros H Ht. eapply (exit_among (λ x, x = Fall ∨ x = Break ∨ x = Raise)); [exact H|by left|]. intros o Ho. destruct (Ht o Ho) as [Hj Hr]. split; [|by auto].
  intros y Hy. destruct Hj as [E|E]; rewrite Hy in E; [done|injection E as ->; by right; left].
Qed.

Lemma steady_exit i t x : runs i t x → (∀ o, o ∈ item_ops i → tame o ∧ steady o) → x = Fall ∨ x = Break.
Proof.
  intros H Ht. eapply (exit_among (λ x, x = Fall ∨ x = Break)); [exact H|by left|]. intros o Ho. destruct (Ht o Ho) as [[Hj Hr] Hs]. split_and!.
  - intros y Hy. destruct Hj as [E|E]; rewrite Hy in E; [done|injection E as ->; by right].
  - intros Hw Hra. by destruct (Hr Hw).
  - intros w a Hk Hm. by rewrite (Hs w a Hk) in Hm.
Qed.

(** The events of a run are of operations of the item. *)
Definition made (i : item) (e : event) : Prop :=
  match e with
  | EOp _ => True
  | EWtc w args => ∃ o a, o ∈ item_ops i ∧ op_kind o = KWtc w a ∧ operands o = args
  | EFail w args => ∃ o a, o ∈ item_ops i ∧ op_kind o = KWtc w a ∧ operands o = args ∧ may_fail w = true
  end.

Lemma made_mono i j e : (∀ o, o ∈ item_ops i → o ∈ item_ops j) → made i e → made j e.
Proof. intros Hl. destruct e as [n|w args|w args]; simpl; [done|..]; intros (o & a & Ho & Hk); exists o, a; (split; [by apply Hl|done]). Qed.

Lemma event_in i t x e : runs i t x → e ∈ t → made i e.
Proof.
  intros H. induction H as
    [|o l t t' x _ IH1 _ IH2|o l t x _ IH|  |b r t x _ IH|r l t x _ IH|r l b t t' x _ Hb _ IH1 _ IH2|o w' a Hk|o w' a Hk Hm|o Hw Hr|o x Hj
    |o p t x Hl Hp _ IH|o t _ IH|o p t t' x y _ IH1 _ _ IH2|o p t _ IH|o p t x _ IH Hx|o r t x Hk Hr _ IH|o Hk|o t x Hk _ IH
    |o t t' x y Hk _ IH1 _ IH2|o t x Hk _ _ IH|rs|rs r t t' x y Hr _ IH1 _ _ IH2|rs r t x Hr _ IH Hx]; intros Hin;
    try (by apply elem_of_nil in Hin);  try apply elem_of_app in Hin as [Hin|Hin];
    try (eapply made_mono; [|by auto]; simpl; intros q Hq; rewrite ?elem_of_app in *; auto using children_in_walk; by eauto using children_in_walk, part_in_op, region_in_op, region_in_regions).
  - eapply made_mono; [|by apply IH]. simpl. intros q [Hq|Hq]%elem_of_app; [|done]. eapply block_in_region; [left|done].
  - eapply made_mono; [|by apply IH2]. simpl. intros q [Hq|Hq]%elem_of_app; apply elem_of_app; right; [by eapply block_in_region|done].
  - apply list_elem_of_singleton in Hin as ->. exists o, a. split; [apply walk_self|done].
  - apply list_elem_of_singleton in Hin as ->. exists o, a. split; [apply walk_self|done].
  - by apply list_elem_of_singleton in Hin as ->.
  - by apply list_elem_of_singleton in Hin as ->.
  - apply elem_of_cons in Hin as [->|Hin]; [done|]. eapply made_mono; [|by apply IH]. intros q Hq. by apply children_in_walk.
Qed.

(** Nothing but a failed operation of the dialect raises. *)
Lemma raise_fails i t x : runs i t x → x = Raise → (∀ o, o ∈ item_ops i → tame o) → ∃ w args, EFail w args ∈ t.
Proof.
  assert (∀ t t', (∃ w args, EFail w args ∈ t) → ∃ w args, EFail w args ∈ t ++ t') as Hl.
  { intros t0 t1 (w & args & H). exists w, args. apply elem_of_app. by left. }
  assert (∀ t t', (∃ w args, EFail w args ∈ t') → ∃ w args, EFail w args ∈ t ++ t') as Hr'.
  { intros t0 t1 (w & args & H). exists w, args. apply elem_of_app. by right. }
  intros H. induction H as
    [|o l t t' x _ _ _ IH2|o l t x _ IH|  |b r t x _ IH|r l t x _ IH|r l b t t' x _ Hb _ _ _ IH2|o w a|o w a Hk Hm|o Hw Hr|o x Hj
    |o p t x Hl' Hp _ IH|o t|o p t t' x y _ _ _ _ IH2|o p t _ IH|o p t x _ IH Hx|o r t x Hk Hr _ IH|o Hk|o t x Hk _ IH
    |o t t' x y Hk _ IH1 _ IH2|o t x Hk _ _ IH|rs|rs r t t' x y Hr _ _ _ _ IH2|rs r t x Hr _ IH Hx]; intros E Ht; try done.
  - apply Hr', IH2; [done|]. intros p Hp. apply Ht. simpl. apply elem_of_app. by right.
  - apply IH; [done|]. intros p Hp. apply Ht. simpl. apply elem_of_app. by left.
  - apply IH; [done|]. intros p Hp. apply Ht. simpl in *. apply elem_of_app in Hp as [Hp|Hp]; [|done]. eapply block_in_region; [|done]. left.
  - apply IH; [done|]. intros p Hp. apply Ht. simpl. apply elem_of_app. by left.
  - apply Hr', IH2; [done|]. intros p Hp. apply Ht. simpl in *. apply elem_of_app. right. apply elem_of_app in Hp as [Hp|Hp]; [|done]. by eapply block_in_region.
  - exists w, (operands o). left.
  - destruct (Ht o (walk_self o)) as [_ Hn]. by destruct (Hn Hw).
  - destruct (Ht o (walk_self o)) as [[Hn|Hn] _]; congruence.
  - apply IH; [done|]. intros q Hq. by apply Ht, children_in_walk.
  - by apply Hr', IH2.
  - apply IH; [done|]. intros q Hq. apply Ht. by eapply part_in_op.
  - apply IH; [done|]. intros q Hq. by eapply Ht, children_in_walk, region_in_op.
  - apply IH; [done|]. intros q Hq. by eapply Ht, children_in_walk, part_in_op.
  - destruct (decide (y = Fall)); [apply Hl, IH1|apply Hr', IH2]; try done; intros q Hq; by eapply Ht, children_in_walk, part_in_op.
  - destruct IH as (w & args & Hin); [done|intros q Hq; by eapply Ht, children_in_walk|]. exists w, args. by right.
  - by apply Hr', IH2.
  - apply IH; [done|]. intros q Hq. apply Ht. by eapply region_in_regions.
Qed.

(** A loop catches its breaks. *)
Lemma loop_exit o p t x : runs (ILoop o p) t x → x ≠ Break ∧ x ≠ Continue.
Proof.
  remember (ILoop o p) as i eqn:E. intros H. revert o p E.
  induction H as [| | | | | | | | | | | |o t H _|o p t t' x y _ _ _ _ IH|o p t _ _|o p t x _ _ Hx| | | | | | | |]; intros o' p' E; try discriminate E; try (split; discriminate).
  - by eapply IH.
  - by destruct Hx as [-> | ->].
Qed.

Lemma loop_no_break o t : Batch.isLoop o = true → ¬ runs (IOp o) t Break.
Proof.
  unfold Batch.isLoop. intros Hl H.
  inversion H; try match goal with R : runs (ILoop _ _) _ _ |- _ => by apply loop_exit in R as [] end;
    unfold jump_of, Batch.named in *; subst; destruct (op_kind o); repeat match goal with D : _ ∨ _ |- _ => destruct D end; done.
Qed.

Lemma tame_loop o t x : Batch.isLoop o = true → (∀ p, p ∈ walk o → tame p) → runs (IOp o) t x → x = Fall ∨ x = Raise.
Proof.
  intros Hl Ht H. destruct (tame_exit _ _ _ H Ht) as [?|[->|?]]; [by left| |by right]. by apply loop_no_break in H.
Qed.

Lemma steady_loop o t x : Batch.isLoop o = true → (∀ p, p ∈ walk o → tame p ∧ steady p) → runs (IOp o) t x → x = Fall.
Proof.
  intros Hl Ht H. destruct (steady_exit _ _ _ H Ht) as [?| ->]; [done|]. by apply loop_no_break in H.
Qed.

(** ** Sequences *)

Lemma seq_one o t x : runs (IOp o) t x → runs (ISeq [o]) t x.
Proof.
  intros H. destruct (decide (x = Fall)) as [->|]; [|by apply r_cut]. rewrite <-(app_nil_r t). apply r_cons; [done|constructor].
Qed.

Lemma seq_app l l' t t' x : runs (ISeq l) t Fall → runs (ISeq l') t' x → runs (ISeq (l ++ l')) (t ++ t') x.
Proof.
  revert t. induction l as [|o l IH]; intros t H H'; inversion H; subst; [done| |done]. simpl. rewrite <-app_assoc. apply r_cons; auto.
Qed.

Lemma seq_app_cut l l' t x : runs (ISeq l) t x → x ≠ Fall → runs (ISeq (l ++ l')) t x.
Proof.
  revert t. induction l as [|o l IH]; intros t H Hx; inversion H; subst; simpl; [done| |by apply r_cut]. apply r_cons; auto.
Qed.

Lemma seq_app_inv l l' t x : runs (ISeq (l ++ l')) t x →
  (∃ t1 t2, t = t1 ++ t2 ∧ runs (ISeq l) t1 Fall ∧ runs (ISeq l') t2 x) ∨ (x ≠ Fall ∧ runs (ISeq l) t x).
Proof.
  revert t. induction l as [|o l IH]; simpl; intros t H; [left; exists [], t; split_and!; [done|constructor|done]|].
  inversion H as [|o' l0 t1 t2 x' H1 H2| | | | | | | | | | | | | | | | | | | | | |]; subst.
  - destruct (IH _ H2) as [(u1 & u2 & -> & Hu1 & Hu2)|[Hx Hu]]; [left|right].
    + exists (t1 ++ u1), u2. rewrite app_assoc. split_and!; [done|by apply r_cons|done].
    + split; [done|]. by apply r_cons.
  - right. split; [done|]. by apply r_cut.
Qed.

Lemma wtc_runs o w a t x : op_kind o = KWtc w a → runs (IOp o) t x →
  (t = [EWtc w (operands o)] ∧ x = Fall) ∨ (may_fail w = true ∧ t = [EFail w (operands o)] ∧ x = Raise).
Proof.
  intros Hk H. inversion H; subst; unfold Batch.is_wtc, Batch.isLoop, jump_of, Batch.named, other in *; rewrite ?Hk in *;
    repeat match goal with D : _ ∨ _ |- _ => destruct D end; try discriminate; [left|right]; split_and!; congruence.
Qed.

Lemma wtc_falls o w a t : op_kind o = KWtc w a → runs (IOp o) t Fall → t = [EWtc w (operands o)].
Proof. intros Hk H. by destruct (wtc_runs _ _ _ _ _ Hk H) as [[-> _]|(_ & _ & ?)]. Qed.

Lemma steady_runs o w a t x : op_kind o = KWtc w a → may_fail w = false → runs (IOp o) t x → t = [EWtc w (operands o)] ∧ x = Fall.
Proof. intros Hk Hm H. destruct (wtc_runs _ _ _ _ _ Hk H) as [?|(Hm' & _)]; [done|]. by rewrite Hm in Hm'. Qed.
End runs.

(** ** Runs of a rewritten item *)

Section edited.
Context (raises : nat → Prop) (f : operation → list operation) (sub : event → list event) (P : operation → Prop).
Abbreviation runs := (runs raises).

Definition replaced (o : operation) : list operation := f (Batch.edit f o).
Definition edit_block (b : block) : block := Block (block_id b) (block_args b) (flat_map replaced (block_ops b)).

(** The operations of the item are in [P], where the rewriting keeps what
    is not of the dialect and puts one operation of the dialect, or none,
    in place of one. *)
Context (sub_op : ∀ n, sub (EOp n) = [EOp n]).
Context (kept : ∀ o, P o → Batch.is_wtc o = false → replaced o = [Batch.edit f o]).
Context (swapped : ∀ o w a, P o → op_kind o = KWtc w a →
  (replaced o = [] ∧ sub (EWtc w (operands o)) = [] ∧ may_fail w = false) ∨
  (∃ d w' a', replaced o = [d] ∧ op_kind d = KWtc w' a' ∧ sub (EWtc w (operands o)) = [EWtc w' (operands d)] ∧
    may_fail w' = may_fail w ∧ (may_fail w = true → sub (EFail w (operands o)) = [EFail w' (operands d)]))).

Lemma edit_kind o : op_kind (Batch.edit f o) = op_kind o.
Proof. by destruct o. Qed.
Lemma edit_id o : op_id (Batch.edit f o) = op_id o.
Proof. by destruct o. Qed.
Lemma edit_regions o : regions (Batch.edit f o) = map (map edit_block) (regions o).
Proof.
  destruct o as [i n loc k args results attrs rs]. simpl. apply map_ext. intros r. apply map_ext. by intros [].
Qed.
Lemma edit_jump o : jump_of (Batch.edit f o) = jump_of o.
Proof. by destruct o. Qed.
Lemma edit_part o ph : part (Batch.edit f o) ph = map edit_block (part o ph).
Proof. unfold part. rewrite edit_regions. apply (map_nth (map edit_block) _ []). Qed.
Lemma edit_wtc o : Batch.is_wtc (Batch.edit f o) = Batch.is_wtc o.
Proof. unfold Batch.is_wtc. by rewrite edit_kind. Qed.

Definition edit_item (i : item) : item :=
  match i with
  | IOp o => ISeq (replaced o)
  | ISeq l => ISeq (flat_map replaced l)
  | IRegion r => IRegion (map edit_block r)
  | IBlocks r l => IBlocks (map edit_block r) (flat_map replaced l)
  | ILoop o p => ILoop (Batch.edit f o) p
  | IAny rs => IAny (map (map edit_block) rs)
  end.

Lemma not_wtc o : (∀ w a, op_kind o ≠ KWtc w a) → Batch.is_wtc o = false.
Proof. unfold Batch.is_wtc. intros H. destruct (op_kind o); try done. by destruct (H w a). Qed.

Lemma wtc_kind o : Batch.is_wtc o = true → ∃ w a, op_kind o = KWtc w a.
Proof. unfold Batch.is_wtc. intros H. destruct (op_kind o); try discriminate H. eauto. Qed.

(** An operation that is kept runs as it did. *)
Lemma kept_runs o t x : P o → Batch.is_wtc o = false → runs (IOp (Batch.edit f o)) t x → runs (edit_item (IOp o)) t x.
Proof. intros Ho Hw H. simpl. rewrite (kept o Ho Hw). by apply seq_one. Qed.

(** Every run has its counterpart after the rewriting. *)
Lemma runs_edit i t x : runs i t x → (∀ o, o ∈ item_ops i → P o) → runs (edit_item i) (flat_map sub t) x.
Proof.
  intros H. induction H as
    [|o l t t' x _ IH1 _ IH2|o l t x _ IH Hx| |b r t x _ IH|r l t x _ IH|r l b t t' x Hr Hb _ IH1 _ IH2|o w a Hk|o w a Hk Hm|o Hw Hr|o x Hj
    |o p t x Hl Hp _ IH|o t _ IH|o p t t' x y _ IH1 Hy _ IH2|o p t _ IH|o p t x _ IH Hx|o r t x Hk Hr _ IH|o Hk|o t x Hk _ IH
    |o t t' x y Hk _ IH1 _ IH2|o t x Hk Hj _ IH|rs|rs r t t' x y Hr _ IH1 Hy _ IH2|rs r t x Hr _ IH Hx]; intros HP; cbn [edit_item flat_map map].
  - constructor.
  - rewrite flat_map_app. apply seq_app; [apply IH1|apply IH2]; intros p Hp; apply HP; simpl; apply elem_of_app; auto.
  - apply seq_app_cut; [|done]. apply IH. intros p Hp. apply HP. simpl. apply elem_of_app. by left.
  - constructor.
  - apply r_region. apply IH. intros p Hp. apply HP. simpl in *. apply elem_of_app in Hp as [Hp|Hp]; [|done]. eapply block_in_region; [|done]. left.
  - apply r_block. apply IH. intros p Hp. apply HP. simpl. apply elem_of_app. by left.
  - rewrite flat_map_app. eapply (r_goto _ _ _ (edit_block b)); [by rewrite length_map|by apply list_elem_of_fmap_2| |].
    + apply IH1. intros p Hp. apply HP. simpl. apply elem_of_app. by left.
    + apply IH2. intros p Hp. apply HP. simpl in *. apply elem_of_app. right. apply elem_of_app in Hp as [Hp|Hp]; [|done]. by eapply block_in_region.
  - destruct (swapped o w a (HP o (walk_self o)) Hk) as [(-> & -> & _)|(d & w' & a' & -> & Hd & -> & _)]; [constructor|]. by eapply seq_one, r_wtc.
  - destruct (swapped o w a (HP o (walk_self o)) Hk) as [(_ & _ & E)|(d & w' & a' & -> & Hd & _ & E & Hs)]; [congruence|]. rewrite Hs by done.
    apply seq_one. eapply r_fail; [done|congruence].
  - rewrite sub_op. apply kept_runs; [apply HP, walk_self|done|]. rewrite <-(edit_id o). apply r_raise; [by rewrite edit_wtc|by rewrite edit_id].
  - rewrite sub_op. apply kept_runs; [apply HP, walk_self| |]; [apply not_wtc; intros w a Hk; unfold jump_of, Batch.named in Hj; by rewrite Hk in Hj|].
    rewrite <-(edit_id o). apply r_jump. by rewrite edit_jump.
  - apply kept_runs; [apply HP, walk_self| |]; [apply not_wtc; intros w a Hk; unfold Batch.isLoop in Hl; by rewrite Hk in Hl|].
    eapply (r_loop _ _ p); [unfold Batch.isLoop; by rewrite edit_kind|by rewrite edit_kind|]. apply IH. intros q Hq. by apply HP, children_in_walk.
  - apply r_end. rewrite edit_part. apply IH. intros q Hq. apply HP. by eapply part_in_op.
  - rewrite flat_map_app. eapply r_round; [rewrite edit_part; apply IH1; intros q Hq; apply HP; by eapply part_in_op|done|by apply IH2].
  - apply r_break. rewrite edit_part. apply IH. intros q Hq. apply HP. by eapply part_in_op.
  - apply r_leave; [|done]. rewrite edit_part. apply IH. intros q Hq. apply HP. by eapply part_in_op.
  - apply kept_runs; [apply HP, walk_self| |]; [apply not_wtc; intros w a E; rewrite E in Hk; by destruct Hk as [|[|]]|].
    apply (r_branch _ _ (map edit_block r)); [by rewrite edit_kind|rewrite edit_regions; by apply list_elem_of_fmap_2|].
    apply IH. intros q Hq. by eapply HP, children_in_walk, region_in_op.
  - apply kept_runs; [apply HP, walk_self| |]; [apply not_wtc; intros w a E; by rewrite E in Hk|]. apply r_no_branch. by rewrite edit_kind.
  - apply kept_runs; [apply HP, walk_self| |]; [apply not_wtc; intros w a E; by rewrite E in Hk|]. apply r_cleanup; [by rewrite edit_kind|].
    rewrite edit_part. apply IH. intros q Hq. by eapply HP, children_in_walk, part_in_op.
  - apply kept_runs; [apply HP, walk_self| |]; [apply not_wtc; intros w a E; by rewrite E in Hk|]. rewrite flat_map_app.
    apply r_cleaned; [by rewrite edit_kind|rewrite edit_part; apply IH1|rewrite edit_part; apply IH2]; intros q Hq; by eapply HP, children_in_walk, part_in_op.
  - rewrite sub_op. apply kept_runs; [apply HP, walk_self| |]; [apply not_wtc; intros w a E; by rewrite E in Hk|]. simpl. rewrite <-(edit_id o).
    apply r_other; [by rewrite edit_kind|by rewrite edit_jump|]. rewrite edit_regions. apply IH. intros q Hq. by eapply HP, children_in_walk.
  - constructor.
  - rewrite flat_map_app. eapply (r_any _ _ (map edit_block r)); [by apply list_elem_of_fmap_2| |done|by apply IH2].
    apply IH1. intros q Hq. apply HP. by eapply region_in_regions.
  - eapply (r_any_leave _ _ (map edit_block r)); [by apply list_elem_of_fmap_2| |done]. apply IH. intros q Hq. apply HP. by eapply region_in_regions.
Qed.

(** Operations of the dialect that vanish. *)
Lemma vanished l : (∀ o, o ∈ flat_map walk l → P o) → flat_map replaced l = [] → ∃ t, flat_map sub t = [] ∧ runs (ISeq l) t Fall.
Proof.
  induction l as [|o l IH]; intros HP E; [exists []; split; [done|constructor]|]. simpl in E. apply app_eq_nil in E as [Eo El].
  destruct IH as (t & Ht & Hr); [intros p Hp; apply HP; simpl; apply elem_of_app; by right|done|].
  assert (P o) as Ho by (apply HP; simpl; apply elem_of_app; left; apply walk_self).
  destruct (Batch.is_wtc o) eqn:Hw; [|by rewrite (kept o Ho Hw) in Eo]. destruct (wtc_kind o Hw) as (w & a & Hk).
  destruct (swapped o w a Ho Hk) as [(_ & Hs & _)|(d & w' & a' & Hd & _)]; [|by rewrite Eo in Hd].
  exists ([EWtc w (operands o)] ++ t). split; [by rewrite flat_map_app; simpl; rewrite Hs|]. apply r_cons; [by apply (r_wtc _ o w a)|done].
Qed.

Lemma first_replaced l o' l' : flat_map replaced l = o' :: l' → ∃ l1 c l2 r, l = l1 ++ c :: l2 ∧ flat_map replaced l1 = [] ∧ replaced c = o' :: r ∧ l' = r ++ flat_map replaced l2.
Proof.
  induction l as [|c l IH]; simpl; [done|]. destruct (replaced c) as [|d r] eqn:E; simpl.
  - intros H. destruct (IH H) as (l1 & c' & l2 & r & -> & H1 & H2 & H3). exists (c :: l1), c', l2, r. split_and!; try done. simpl. by rewrite E.
  - intros [= -> <-]. exists [], c, l, r. done.
Qed.

(** One operation of a rewritten sequence. *)
Lemma one_edited c o r t x : P c → replaced c = o :: r → runs (IOp o) t x →
  (Batch.is_wtc c = false → o = Batch.edit f c → ∃ u, t = flat_map sub u ∧ runs (IOp c) u x) → r = [] ∧ ∃ u, t = flat_map sub u ∧ runs (IOp c) u x.
Proof.
  intros Hc Ho Hr Hk. destruct (Batch.is_wtc c) eqn:Hw.
  - destruct (wtc_kind c Hw) as (w & a & Hk'). destruct (swapped c w a Hc Hk') as [(E & _)|(d & w' & a' & E & Hd & Hs & Hm & Hf)]; rewrite E in Ho; [done|].
    injection Ho as -> <-. split; [done|]. destruct (wtc_runs _ _ _ _ _ _ Hd Hr) as [[-> ->]|(Hm' & -> & ->)]; rewrite ?Hm in *.
    + exists [EWtc w (operands c)]. simpl. rewrite Hs. split; [done|]. by apply (r_wtc _ c w a).
    + exists [EFail w (operands c)]. simpl. rewrite Hf by done. split; [done|]. by apply (r_fail _ c w a).
  - rewrite (kept c Hc Hw) in Ho. injection Ho as <- <-. split; [done|]. auto.
Qed.

(** What an item and the item it was rewritten to have in common. *)
Definition shape (j i : item) : Prop :=
  match j, i with
  | IOp o', IOp o => o' = Batch.edit f o ∧ Batch.is_wtc o = false
  | ISeq l', ISeq l => l' = flat_map replaced l
  | IRegion r', IRegion r => r' = map edit_block r
  | IBlocks r' l', IBlocks r l => r' = map edit_block r ∧ l' = flat_map replaced l
  | ILoop o' p', ILoop o p => o' = Batch.edit f o ∧ p' = p
  | IAny rs', IAny rs => rs' = map (map edit_block) rs
  | _, _ => False
  end.

(** Every run after the rewriting is the counterpart of one before it. *)
Lemma runs_edited j t' x : runs j t' x → ∀ i, shape j i → (∀ o, o ∈ item_ops i → P o) → ∃ t, t' = flat_map sub t ∧ runs i t x.
Proof.
  intros H. induction H as
    [|o l t t' x H1 IH1 _ IH2|o l t x H1 IH Hx| |b r t x _ IH|r l t x _ IH|r l b t t' x Hr Hb _ IH1 _ IH2|o w a Hk|o w a Hk Hm|o Hw Hr|o x Hj
    |o p t x Hl Hp _ IH|o t _ IH|o p t t' x y _ IH1 Hy _ IH2|o p t _ IH|o p t x _ IH Hx|o r t x Hk Hr _ IH|o Hk|o t x Hk _ IH
    |o t t' x y Hk _ IH1 _ IH2|o t x Hk Hj _ IH|rs|rs r t t' x y Hr _ IH1 Hy _ IH2|rs r t x Hr _ IH Hx]; intros i Hs HP;
    destruct i as [c|c|c|c cl|c cp|c]; try done; simpl in Hs.
  - destruct (vanished c HP) as (t & Ht & Hr); [done|]. by exists t.
  - symmetry in Hs. apply first_replaced in Hs as (l1 & c' & l2 & r & -> & Hv & Hc & Hl). simpl in HP. rewrite flat_map_app in HP. simpl in HP.
    destruct (vanished l1) as (t1 & Ht1 & Hr1); [intros p Hp; apply HP; apply elem_of_app; by left|done|].
    destruct (one_edited c' o r t Fall) as (-> & t2 & -> & Hr2); [apply HP, elem_of_app; right; apply elem_of_app; left; apply walk_self|done|done| |].
    { intros Hw ->. apply (IH1 (IOp c')); [done|]. intros p Hp. apply HP, elem_of_app. right. apply elem_of_app. by left. }
    destruct (IH2 (ISeq l2)) as (t3 & -> & Hr3); [done|intros p Hp; apply HP, elem_of_app; right; apply elem_of_app; by right|].
    exists (t1 ++ t2 ++ t3). rewrite !flat_map_app, Ht1. split; [done|]. apply seq_app; [done|]. by apply r_cons.
  - symmetry in Hs. apply first_replaced in Hs as (l1 & c' & l2 & r & -> & Hv & Hc & Hl). simpl in HP. rewrite flat_map_app in HP. simpl in HP.
    destruct (vanished l1) as (t1 & Ht1 & Hr1); [intros p Hp; apply HP; apply elem_of_app; by left|done|].
    destruct (one_edited c' o r t x) as (-> & t2 & -> & Hr2); [apply HP, elem_of_app; right; apply elem_of_app; left; apply walk_self|done|done| |].
    { intros Hw ->. apply (IH (IOp c')); [done|]. intros p Hp. apply HP, elem_of_app. right. apply elem_of_app. by left. }
    exists (t1 ++ t2). rewrite !flat_map_app, Ht1. split; [done|]. apply seq_app; [done|]. by apply r_cut.
  - destruct c; [|done]. exists []. split; [done|constructor].
  - destruct c as [|b0 r0]; [done|]. injection Hs as -> ->. destruct (IH (IBlocks (b0 :: r0) (block_ops b0))) as (u & -> & Hu); [done| |].
    + intros p Hp. apply HP. simpl in *. apply elem_of_app in Hp as [Hp|Hp]; [|done]. eapply block_in_region; [|done]. left.
    + exists u. split; [done|]. by apply r_region.
  - destruct Hs as [-> ->]. destruct (IH (ISeq cl)) as (u & -> & Hu); [done|intros p Hp; apply HP; simpl; apply elem_of_app; by left|].
    exists u. split; [done|]. by apply r_block.
  - destruct Hs as [-> ->]. apply list_elem_of_fmap in Hb as (b0 & -> & Hb).
    destruct (IH1 (ISeq cl)) as (u & -> & Hu); [done|intros p Hp; apply HP; simpl; apply elem_of_app; by left|].
    destruct (IH2 (IBlocks c (block_ops b0))) as (v & -> & Hv); [done| |].
    { intros p Hp. apply HP. simpl in *. apply elem_of_app. right. apply elem_of_app in Hp as [Hp|Hp]; [|done]. by eapply block_in_region. }
    exists (u ++ v). rewrite flat_map_app. split; [done|]. rewrite length_map in Hr. by eapply r_goto.
  - destruct Hs as [-> Hw]. rewrite edit_kind in Hk. unfold Batch.is_wtc in Hw. by rewrite Hk in Hw.
  - destruct Hs as [-> Hw]. rewrite edit_kind in Hk. unfold Batch.is_wtc in Hw. by rewrite Hk in Hw.
  - destruct Hs as [-> Hc]. rewrite edit_id in Hr |- *. exists [EOp (op_id c)]. simpl. rewrite sub_op. split; [done|]. by apply r_raise.
  - destruct Hs as [-> Hc]. rewrite edit_jump in Hj. rewrite edit_id. exists [EOp (op_id c)]. simpl. rewrite sub_op. split; [done|]. by apply r_jump.
  - destruct Hs as [-> Hc]. unfold Batch.isLoop in Hl. rewrite edit_kind in Hl, Hp. destruct (IH (ILoop c p)) as (u & -> & Hu); [done|intros q Hq; by apply HP, children_in_walk|].
    exists u. split; [done|]. by apply (r_loop _ c p).
  - destruct Hs as [-> <-]. rewrite edit_part in IH. destruct (IH (IRegion (part c Cond))) as (u & -> & Hu); [done|intros q Hq; apply HP; by eapply part_in_op|].
    exists u. split; [done|]. by apply r_end.
  - destruct Hs as [-> <-]. rewrite edit_part in IH1. destruct (IH1 (IRegion (part c p))) as (u & -> & Hu); [done|intros q Hq; apply HP; by eapply part_in_op|].
    destruct (IH2 (ILoop c (next_phase p))) as (v & -> & Hv); [done|done|]. exists (u ++ v). rewrite flat_map_app. split; [done|]. by eapply r_round.
  - destruct Hs as [-> <-]. rewrite edit_part in IH. destruct (IH (IRegion (part c p))) as (u & -> & Hu); [done|intros q Hq; apply HP; by eapply part_in_op|].
    exists u. split; [done|]. by apply r_break.
  - destruct Hs as [-> <-]. rewrite edit_part in IH. destruct (IH (IRegion (part c p))) as (u & -> & Hu); [done|intros q Hq; apply HP; by eapply part_in_op|].
    exists u. split; [done|]. by apply r_leave.
  - destruct Hs as [-> Hc]. rewrite edit_kind in Hk. rewrite edit_regions in Hr. apply list_elem_of_fmap in Hr as (r0 & -> & Hr).
    destruct (IH (IRegion r0)) as (u & -> & Hu); [done|intros q Hq; by eapply HP, children_in_walk, region_in_op|]. exists u. split; [done|]. by eapply r_branch.
  - destruct Hs as [-> Hc]. rewrite edit_kind in Hk. exists []. split; [done|]. by apply r_no_branch.
  - destruct Hs as [-> Hc]. rewrite edit_kind in Hk. rewrite edit_part in IH. destruct (IH (IRegion (part c Cond))) as (u & -> & Hu); [done|intros q Hq; by eapply HP, children_in_walk, part_in_op|].
    exists u. split; [done|]. by apply r_cleanup.
  - destruct Hs as [-> Hc]. rewrite edit_kind in Hk. rewrite edit_part in IH1, IH2.
    destruct (IH1 (IRegion (part c Cond))) as (u & -> & Hu); [done|intros q Hq; by eapply HP, children_in_walk, part_in_op|].
    destruct (IH2 (IRegion (part c Body))) as (v & -> & Hv); [done|intros q Hq; by eapply HP, children_in_walk, part_in_op|].
    exists (u ++ v). rewrite flat_map_app. split; [done|]. by apply r_cleaned.
  - destruct Hs as [-> Hc]. rewrite edit_kind in Hk. rewrite edit_jump in Hj. rewrite edit_regions in IH. rewrite edit_id.
    destruct (IH (IAny (regions c))) as (u & -> & Hu); [done|intros q Hq; by eapply HP, children_in_walk|].
    exists (EOp (op_id c) :: u). simpl. rewrite sub_op. split; [done|]. by apply r_other.
  - exists []. split; [done|constructor].
  - rewrite Hs in Hr. apply list_elem_of_fmap in Hr as (r0 & -> & Hr). destruct (IH1 (IRegion r0)) as (u & -> & Hu); [done|intros q Hq; apply HP; by eapply region_in_regions|].
    destruct (IH2 (IAny c)) as (v & -> & Hv); [done|done|]. exists (u ++ v). rewrite flat_map_app. split; [done|]. by eapply r_any.
  - rewrite Hs in Hr. apply list_elem_of_fmap in Hr as (r0 & -> & Hr). destruct (IH (IRegion r0)) as (u & -> & Hu); [done|intros q Hq; apply HP; by eapply region_in_regions|].
    exists u. split; [done|]. by eapply r_any_leave.
Qed.
End edited.
End Runs.
