(* ===== verification/BatchSpec.v ===== *)
(** * BatchSpec: what batching changes

    A loop the passes batch cannot be left but by its end or a break, waits
    for nothing, and calls nothing that acts on a queue or a mutex or that
    synchronises ([scanned]).  The rewriting wraps every run of it in one
    begin and one end (a run whose push fails leaves without the end) and
    replaces its pushes, or its critical sections, one for one ([push_batched], [locks_batched]); and for the critical
    sections, what the batched run does to the mutex (src/shim/mutex.hpp) is
    what the original does with some releases left out. *)

From stdpp Require Import base tactics list strings gmap.
From Stdlib Require Import String ZArith Lia.
From S2P Require Import Prelude Text Cir WtcOps Utils Asm Blocking BlockingSpec Slots Loops LiftLower WorkEstimate Batch Runs.
Local Open Scope string_scope.
Local Open Scope list_scope.

Module BatchSpec.
Import Runs.

(** ** Exceptions *)

Section throws.
Context (demangle : string → string) (m : module).

(** An operation may raise an exception: it throws, calls what may, or calls
    what is not known. *)
Definition but_throws : Z := BlockingKinds [Allocates; Waits; Threading; InputOutput; Sleeps; Opaque; Assembly; Refused].
Definition may_raise (o : operation) : Prop := can_block demangle m but_throws None false o.
Definition raises (i : nat) : Prop := ∃ o, o ∈ walk_module m ∧ op_id o = i ∧ Batch.is_wtc o = false ∧ may_raise o.

Context (accepted : Z) (extra : option (operation → bool → option site)).
Context (Hthrows : accepts accepted Throws = false) (Hmay : accepts accepted MayThrow = false) (Hunknown : accepts accepted UnknownTarget = false).

Lemma but_accepts k : accepts but_throws k = false → k = Throws ∨ k = MayThrow ∨ k = UnknownTarget.
Proof. destruct k; vm_compute; auto; discriminate. Qed.

Lemma external_raises o t nt : external_site demangle but_throws o t nt ≠ None → external_site demangle accepted o t nt ≠ None.
Proof.
  unfold external_site. destruct (externalBlocking demangle t) as [e|].
  - destruct (ext_kind e) eqn:Ek; rewrite ?Hthrows, ?Hmay; simpl; destruct nt; simpl; try done; try (by intros []); repeat case_match; done.
  - rewrite Hmay. by destruct nt.
Qed.

Lemma first_some_ne {A B} (g h : A → option B) l : (∀ x, g x ≠ None → h x ≠ None) → first_some g l ≠ None → first_some h l ≠ None.
Proof.
  intros Hgh. induction l as [|x l IH]; simpl; [done|]. specialize (Hgh x). destruct (g x), (h x); try done; auto. by destruct Hgh.
Qed.

Lemma raises_blocks b o : can_block demangle m but_throws None b o → ∀ b', can_block demangle m accepted extra b' o.
Proof.
  assert (∀ p, own_site but_throws p = None ↔ own_site accepted p = None) as Hown.
  { intros p. unfold own_site. destruct (op_kind p); try done; by case_match. }
  assert (∀ p ts, callTargets m but_throws p = inr ts ↔ callTargets m accepted p = inr ts) as Htg.
  { intros p ts. unfold callTargets. destruct (lookupCallee m p); [done|]. by destruct (indirectCallees m p). }
  induction 1 as [b o Hd|b o t o' Ht Ho' _ IH]; intros b'.
  - apply cb_here. unfold direct_site in *. destruct (extra_site extra o b'); [done|]. simpl in Hd.
    specialize (Hown o). specialize (Htg o). destruct (own_site but_throws o) as [s|] eqn:E.
    + assert (∃ k r, (k = Throws) ∧ own_site accepted o = Some (site_of accepted o k r)) as (k & r & -> & ->); [|unfold site_of; by rewrite Hthrows].
      unfold own_site in *. destruct (op_kind o) eqn:Ek; simplify_eq/=; try done; eauto;
        try (destruct (contains (op_name o) "asm"); simplify_eq/=; done);
        try (destruct (contains (op_name o) "asm"); simplify_eq/=; [done|eauto]).
      all: repeat case_match; simplify_eq/=; try done; eauto.
    + rewrite (proj1 Hown) by done. destruct (callTargets m but_throws o) as [s|ts] eqn:Et.
      * unfold callTargets in *. destruct (lookupCallee m o); [by destruct (match operands o with [] => _ | _ :: _ => _ end); simplify_eq/=|].
        destruct (indirectCallees m o); simplify_eq/=. unfold site_of in *. by rewrite Hunknown.
      * rewrite (proj1 (Htg ts)) by done. revert Hd. apply first_some_ne. intros t. apply external_raises.
  - eapply cb_call; [|done|apply IH]. unfold enters in *. specialize (Hown o). destruct (own_site but_throws o) as [s|] eqn:E; [by apply elem_of_nil in Ht|].
    rewrite (proj1 Hown) by done. destruct (callTargets m but_throws o) as [s|ts] eqn:Et; [by apply elem_of_nil in Ht|].
    rewrite (proj1 (Htg o ts)) by done. done.
Qed.
End throws.

(** ** What the walk of a loop establishes *)

Section scanned.
Context (demangle : string → string) (m : module) (Hwf : wf_ids m = true).
Abbreviation legal strict := (Batch.legal_kinds demangle m strict).
Abbreviation query_asked strict := (asked demangle m (legal strict) (Some Batch.refuse_extra)).
(** May wait, synchronise, or act on a queue or a mutex in something it
    calls. *)
Definition unfit (strict : bool) (o : operation) : Prop := can_block demangle m (legal strict) (Some Batch.refuse_extra) false o.

Lemma legal_accepts strict k : accepts (legal strict) k = true → k = Allocates ∨ k = Sleeps.
Proof. unfold Batch.legal_kinds. destruct (is_some _), strict, k; vm_compute; auto; discriminate. Qed.

Lemma legal_refuses strict k : k ≠ Allocates → k ≠ Sleeps → accepts (legal strict) k = false.
Proof. intros H1 H2. destruct (accepts _ k) eqn:E; [|done]. by apply legal_accepts in E as [|]. Qed.

Lemma fit_raises strict o : ¬ unfit strict o → ¬ may_raise demangle m o.
Proof. intros H Hr. apply H. eapply (raises_blocks demangle m (legal strict)); [by apply legal_refuses..|exact Hr]. Qed.

Lemma legal_op_ok strict o q r q' : query_asked strict q → Batch.legal_op demangle m strict o q = Some (r, q') →
  query_asked strict q' ∧ (r = None → ¬ unfit strict o).
Proof.
  intros Hq H. unfold Batch.legal_op, Blocking.bind in H. destruct (at_op _ _ _ _ o q) as [[s q1]|] eqn:E; [|done]. injection H as <- <-.
  split; [by eapply asked_at|]. intros Hs. destruct s as [s|]; [done|]. pose proof (asked_ok demangle m _ _ Hwf q Hq) as [Hp Hm].
  apply (op_clear_none demangle m). unfold at_op in E. eapply siteAt_ok in E as (_ & _ & _ & Hc & _); [exact Hc|by apply firstIn_ok|exact Hp|exact Hm].
Qed.

(** A walk that refuses nothing has looked at every operation. *)
Lemma scan_ok strict own l q q' : query_asked strict q → Batch.scan demangle m strict own l q = Some (None, q') →
  query_asked strict q' ∧ ∀ o, o ∈ l → own o = None ∧ (Batch.is_wtc o = false → Batch.named "cir.break" o = true ∨ ¬ unfit strict o).
Proof.
  revert q. induction l as [|o l IH]; simpl; intros q Hq H; [injection H as <-; split; [done|by intros o ?%elem_of_nil]|].
  destruct (own o) as [r|] eqn:Eo; [done|]. destruct (Batch.is_wtc o || Batch.named "cir.break" o && strict) eqn:Es.
  - destruct (IH q Hq H) as [Hq' Hl]. split; [done|]. intros p [->|Hp]%elem_of_cons; [|auto]. split; [done|]. intros Hw. rewrite Hw in Es. left.
    by apply andb_prop in Es as [].
  - unfold Blocking.bind in H. destruct (Batch.legal_op demangle m strict o q) as [[r q1]|] eqn:E; [|done].
    destruct (legal_op_ok strict o q r q1 Hq E) as [Hq1 Hr]. destruct r as [r|]; [done|]. destruct (IH q1 Hq1 H) as [Hq' Hl]. split; [done|].
    intros p [->|Hp]%elem_of_cons; [|auto]. split; [done|]. intros _. right. auto.
Qed.

(** A break by itself is neither a wait nor an exception. *)
Lemma break_fit strict o : Batch.named "cir.break" o = true → ¬ unfit strict o.
Proof.
  unfold Batch.named. destruct (op_kind o) eqn:Ek; try done. intros Hn%String.eqb_eq Hc.
  inversion Hc as [b o' Hd|b o' t o'' Ht]; subst.
  - unfold direct_site, extra_site, Batch.refuse_extra, Batch.synchronises, own_site in Hd. rewrite Hn, Ek in Hd. done.
  - unfold enters, own_site in Ht. rewrite Hn, Ek in Ht. by apply elem_of_nil in Ht.
Qed.

(** Every operation of the loop but the dialect's is fit, and jumps nowhere
    but by a break. *)
Lemma scanned strict own l q q' : query_asked strict q → Batch.scan demangle m strict own l q = Some (None, q') →
  (∀ o, Batch.named "cir.continue" o || Batch.leaves_loop o = true → own o ≠ None) → (∀ o, o ∈ l → o ∈ walk_module m) →
  ∀ o, o ∈ l → own o = None ∧ (Batch.is_wtc o = false → ¬ unfit strict o) ∧ tame (raises demangle m) o.
Proof.
  intros Hq H Hown Hin o Ho. destruct (scan_ok strict own l q q' Hq H) as [_ Hl]. destruct (Hl o Ho) as [Eo Hf].
  assert (Batch.is_wtc o = false → ¬ unfit strict o) as Hfit.
  { intros Hw. destruct (Hf Hw) as [Hb|]; [by apply break_fit|done]. }
  split; [done|]. split; [done|]. split.
  - specialize (Hown o). unfold Batch.leaves_loop in Hown. unfold jump_of. destruct (Batch.named "cir.continue" o); [by destruct (Hown eq_refl)|].
    destruct (op_kind o); try (destruct (Batch.named "cir.break" o); [by right|]; destruct (Batch.named "cir.goto" o); [by destruct (Hown eq_refl)|by left]).
    by destruct (Hown eq_refl).
  - intros Hw (p & Hp & Hid & _ & Hr). apply (wf_ids_inj m p o Hwf Hp (Hin o Ho)) in Hid as ->. by apply (fit_raises strict o (Hfit Hw)).
Qed.
End scanned.

(** ** A loop in its place *)

Section loop.
Context (raises : nat → Prop) (f : operation → list operation) (sub : event → list event) (loop : operation).
Abbreviation inside := (λ o, o ∈ flat_map walk (children loop)).
Context (sub_op : ∀ n, sub (EOp n) = [EOp n]).
Context (kept : ∀ o, inside o → Batch.is_wtc o = false → replaced f o = [Batch.edit f o]).
Context (swapped : ∀ o w a, inside o → op_kind o = KWtc w a →
  (replaced f o = [] ∧ sub (EWtc w (operands o)) = [] ∧ may_fail w = false) ∨
  (∃ d w' a', replaced f o = [d] ∧ op_kind d = KWtc w' a' ∧ sub (EWtc w (operands o)) = [EWtc w' (operands d)] ∧
    may_fail w' = may_fail w ∧ (may_fail w = true → sub (EFail w (operands o)) = [EFail w' (operands d)]))).
Context (Hloop : Batch.isLoop loop = true) (Htame : ∀ o, o ∈ walk loop → tame raises o).

Lemma loop_runs o t x : Batch.isLoop o = true → ¬ raises (op_id o) →
  runs raises (IOp o) t x ↔ ∃ p, (p = Cond ∨ op_kind o = KLoop ∧ p = Body) ∧ runs raises (ILoop o p) t x.
Proof.
  intros Hl Hn. split; [|intros (p & Hp & H); by eapply r_loop].
  intros H. inversion H; subst; unfold Batch.isLoop, jump_of, Batch.named, other in *; try (by destruct Hn); try (by eauto);
    destruct (op_kind o); repeat match goal with D : _ ∨ _ |- _ => destruct D end; done.
Qed.

Lemma not_raising : ¬ raises (op_id loop).
Proof.
  destruct (Htame loop (walk_self loop)) as [_ H]. apply H. unfold Batch.is_wtc. unfold Batch.isLoop in Hloop. by destruct (op_kind loop).
Qed.

Lemma loop_edited t x : runs raises (IOp (Batch.edit f loop)) t x ↔ ∃ t0, runs raises (IOp loop) t0 x ∧ t = flat_map sub t0.
Proof.
  pose proof not_raising as Hn. assert (Batch.isLoop (Batch.edit f loop) = true) as Hl' by (unfold Batch.isLoop; rewrite edit_kind; exact Hloop).
  assert (¬ raises (op_id (Batch.edit f loop))) as Hn' by by rewrite edit_id.
  rewrite loop_runs by done. split.
  - intros (p & Hp & H). rewrite edit_kind in Hp. eapply (runs_edited raises f sub inside sub_op kept swapped) in H as (u & -> & Hu);
      [|by apply (conj eq_refl eq_refl : shape f (ILoop (Batch.edit f loop) p) (ILoop loop p))|done].
    exists u. split; [|done]. eapply loop_runs; eauto.
  - intros (u & Hu & ->). apply loop_runs in Hu as (p & Hp & Hu); [|done..]. exists p. split; [by rewrite edit_kind|].
    by apply (runs_edit raises f sub inside sub_op kept swapped) in Hu.
Qed.

(** ** The loop with what was put around it *)

(** An operation that does nothing but compute. *)
Definition silent (o : operation) : Prop := other (op_kind o) = true ∧ regions o = [] ∧ jump_of o = None ∧ ¬ raises (op_id o).

Lemma silent_runs o t x : silent o → runs raises (IOp o) t x ↔ t = [EOp (op_id o)] ∧ x = Fall.
Proof.
  intros (Hk & Hrs & Hj & Hn). split.
  - intros H. inversion H; subst; unfold Batch.isLoop, other in *;
      try (by destruct Hn); try (repeat match goal with D : _ ∨ _ |- _ => destruct D end; match goal with E : op_kind o = _ |- _ => by rewrite E in Hk end); try congruence.
    + by destruct (op_kind o).
    + match goal with R : runs _ (IAny _) _ _ |- _ => rewrite Hrs in R; inversion R; subst end; [done|by set_solver..].
  - intros [-> ->]. apply (r_other raises o []); [done|done|]. rewrite Hrs. constructor.
Qed.

Lemma silent_seq l t x : Forall silent l → runs raises (ISeq l) t x ↔ t = map (λ o, EOp (op_id o)) l ∧ x = Fall.
Proof.
  intros Hl. revert t x. induction Hl as [|o l Ho _ IH]; intros t x; simpl.
  - split; [by inversion 1|]. intros [-> ->]. constructor.
  - split.
    + inversion 1; subst; match goal with R : runs _ (IOp o) _ _ |- _ => apply silent_runs in R as [-> E]; [|done] end; [|done].
      match goal with R : runs _ (ISeq l) _ _ |- _ => apply IH in R as [-> ->] end. done.
    + intros [-> ->]. apply (r_cons raises o l [_]); [by apply silent_runs|by apply IH].
Qed.

Lemma seq_cons_runs o l t x : runs raises (ISeq (o :: l)) t x ↔
  (∃ t1 t2, t = t1 ++ t2 ∧ runs raises (IOp o) t1 Fall ∧ runs raises (ISeq l) t2 x) ∨ (x ≠ Fall ∧ runs raises (IOp o) t x).
Proof.
  split.
  - inversion 1; subst; [left; eauto 6|by right].
  - intros [(t1 & t2 & -> & H1 & H2)|[Hx H]]; [by apply r_cons|by apply r_cut].
Qed.

(** It runs to the end and ends the batch, fails to end it, or leaves by
    an exception without ending it. *)
Lemma wrapped_runs pre b e w a w' a' t x : Forall silent pre → op_kind b = KWtc w a → may_fail w = false → op_kind e = KWtc w' a' →
  runs raises (ISeq (pre ++ [b; Batch.edit f loop; e])) t x ↔
  ∃ t0 y, runs raises (IOp loop) t0 y ∧
    let begun := map (λ o, EOp (op_id o)) pre ++ [EWtc w (operands b)] ++ flat_map sub t0 in
    (y = Fall ∧ x = Fall ∧ t = begun ++ [EWtc w' (operands e)]) ∨
    (y = Fall ∧ x = Raise ∧ may_fail w' = true ∧ t = begun ++ [EFail w' (operands e)]) ∨
    (y ≠ Fall ∧ x = y ∧ t = begun).
Proof.
  intros Hpre Hb Hm He. split.
  - intros H. apply seq_app_inv in H as [(t1 & t2 & -> & H1 & H2)|[Hx H]]; [|apply silent_seq in H as [_ ->]; done].
    apply silent_seq in H1 as [-> _]; [|done]. apply seq_cons_runs in H2 as [(t3 & t4 & -> & H3 & H4)|[Hx H]]; [|by eapply steady_runs in H as [_ ->]].
    eapply wtc_falls in H3 as ->; [|done]. apply seq_cons_runs in H4 as [(t5 & t6 & -> & H5 & H6)|[Hx H]].
    + apply loop_edited in H5 as (t0 & Ht0 & ->). exists t0, Fall. split; [done|]. cbv zeta. rewrite <-!app_assoc.
      apply seq_cons_runs in H6 as [(t7 & t8 & -> & H7 & H8)|[Hx H]].
      * eapply wtc_falls in H7 as ->; [|done]. inversion H8; subst. left. by rewrite app_nil_r.
      * right. left. eapply wtc_runs in H as [[_ ->]|(Hm' & -> & ->)]; done.
    + apply loop_edited in H as (t0 & Ht0 & ->). exists t0, x. split; [done|]. right. by right.
  - intros (t0 & y & Ht0 & Hcase). cbv zeta in Hcase. rewrite <-!app_assoc in Hcase.
    destruct Hcase as [(-> & -> & ->)|[(-> & -> & Hm' & ->)|(Hy & -> & ->)]]; (apply seq_app; [by apply silent_seq|]); (apply (r_cons raises b _ [_]); [by eapply r_wtc|]).
    + apply r_cons; [apply loop_edited; eauto|]. apply seq_one. by eapply r_wtc.
    + apply r_cons; [apply loop_edited; eauto|]. apply r_cut; [by eapply r_fail|done].
    + apply r_cut; [apply loop_edited; eauto|done].
Qed.
End loop.

(** ** Numbers *)

Lemma walk_sublist o p : p ∈ walk o → walk p `sublist_of` walk o.
Proof.
  revert p. induction o as [o IH] using operation_nested_ind. intros p Hp. rewrite (walk_children o) in Hp |- *.
  apply elem_of_app in Hp as [Hp|Hp]; [|apply list_elem_of_singleton in Hp as ->; by rewrite walk_children].
  apply sublist_inserts_r. apply elem_of_flat_map in Hp as (c & Hc & Hp). rewrite Forall_forall in IH. etransitivity; [by apply (IH c)|].
  apply list_elem_of_split in Hc as (l1 & l2 & ->). rewrite flat_map_app. simpl. by apply sublist_inserts_l, sublist_inserts_r.
Qed.

Lemma inside_ne m o p : wf_ids m = true → o ∈ walk_module m → p ∈ flat_map walk (children o) → op_id p ≠ op_id o.
Proof.
  unfold wf_ids. rewrite bool_decide_eq_true. intros Hnd Ho Hp E. apply elem_of_flat_map in Ho as (g & Hg & Ho).
  assert (walk o `sublist_of` walk_module m) as Hs.
  { etransitivity; [by apply walk_sublist|]. apply list_elem_of_split in Hg as (l1 & l2 & ->). unfold walk_module. rewrite flat_map_app. simpl. by apply sublist_inserts_l, sublist_inserts_r. }
  assert (NoDup (map op_id (walk o))) as Hn by (eapply sublist_NoDup; [exact Hnd|]; by apply (fmap_sublist op_id)).
  rewrite walk_children, map_app in Hn. apply NoDup_app in Hn as (_ & Hn & _). apply (Hn (op_id p)); [by apply list_elem_of_fmap_2|]. rewrite E. left.
Qed.

Lemma fresh_raises demangle m i : raises demangle m i → (i < Batch.next_id m)%nat.
Proof.
  intros (o & Ho & <- & _). unfold Batch.next_id. apply Nat.lt_succ_r. apply max_list_elem_of_le. by apply list_elem_of_fmap_2.
Qed.

(** ** Handles *)

(** Where a handle's name comes from: the global it is the address of, or
    the value it was cast from; [pre] are operations not yet in the
    module. *)
Section keys.
Context (m : module) (pre : list operation).
Definition def_of (v : value) : option operation :=
  match defining_op m v with
  | Some o => Some o
  | None => match v with VRes i _ => List.find (λ o, op_id o =? i)%nat pre | VArg _ _ => None end
  end.
Definition source_of (v : value) : value :=
  match def_of v with
  | Some c => match op_kind c, operands c with KUcc, s :: _ => s | _, _ => v end
  | None => v
  end.
Definition handle_key (v : value) : string + value :=
  let s := source_of v in
  match def_of s with
  | Some d => match op_kind d with KGetGlobal n => inl n | _ => inr s end
  | None => inr s
  end.
End keys.

Lemma fresh_def m i j : (Batch.next_id m ≤ i)%nat → defining_op m (VRes i j) = None.
Proof.
  intros Hi. simpl. destruct (find_op m i) as [o|] eqn:E; [|done]. apply find_op_in in E as [Ho <-]. unfold Batch.next_id in Hi.
  assert (op_id o ≤ max_list (map op_id (walk_module m)))%nat; [|lia]. apply max_list_elem_of_le. by apply list_elem_of_fmap_2.
Qed.

Lemma outer_handle_ok m loop inner n pre outer : (Batch.next_id m ≤ n)%nat → Batch.outer_handle m loop inner n = Some (pre, outer) →
  Forall (λ o, (op_kind o = KUcc ∨ ∃ g, op_kind o = KGetGlobal g) ∧ regions o = [] ∧ (n ≤ op_id o)%nat) pre ∧
  handle_key m pre outer = handle_key m [] inner.
Proof.
  intros Hn H. unfold Batch.outer_handle in H. destruct (defining_op m inner) as [c|] eqn:Ec; [|injection H as <- <-; done].
  destruct (op_kind c) eqn:Ek; simplify_eq; try done. destruct (operands c) as [|src l] eqn:Eo; simplify_eq; [done|].
  destruct (is_ancestor m loop (op_id c)); simplify_eq; [|done].
  assert (source_of m [] inner = src) as Hs by (unfold source_of, def_of; by rewrite Ec, Ek, Eo).
  assert (defining_op m (VRes (S n) 0) = None) as Hf1 by (apply fresh_def; lia). assert (defining_op m (VRes n 0) = None) as Hf0 by (apply fresh_def; lia).
  assert (∀ k, handle_key m [ucc (S n) (op_loc loop) k src] (VRes (S n) 0) = handle_key m [] inner) as Hcast.
  { intros k. assert (source_of m [ucc (S n) (op_loc loop) k src] (VRes (S n) 0) = src) as Hs' by (unfold source_of, def_of; rewrite Hf1; simpl; by rewrite Nat.eqb_refl).
    unfold handle_key. rewrite Hs, Hs'. unfold def_of. destruct (defining_op m src) as [d|]; [done|]. destruct src as [i j|]; [|done]. cbn [List.find op_id ucc].
    by destruct (S n =? i)%nat. }
  assert (∀ k, Forall (λ o, (op_kind o = KUcc ∨ ∃ g, op_kind o = KGetGlobal g) ∧ regions o = [] ∧ (n ≤ op_id o)%nat) [ucc (S n) (op_loc loop) k src]) as Hall.
  { intros k. apply Forall_singleton. simpl. split; [by left|]. split; [done|lia]. }
  destruct (defining_op m src) as [d|] eqn:Ed; [|by injection H as <- <-]. destruct (is_ancestor m loop (op_id d)); [|by injection H as <- <-].
  destruct (op_kind d) eqn:Ekd; try discriminate H. injection H as <- <-. split.
  - constructor; [|apply Forall_singleton]; simpl; eauto with lia.
  - set (pre := [_; _]). assert (source_of m pre (VRes (S n) 0) = VRes n 0) as Hs'.
    { unfold source_of, def_of. rewrite Hf1. subst pre. cbn [List.find op_id ucc]. rewrite (proj2 (Nat.eqb_neq n (S n))), Nat.eqb_refl by lia. done. }
    unfold handle_key. rewrite Hs, Hs'. unfold def_of. rewrite Ed, Ekd, Hf0. subst pre. cbn [List.find op_id]. by rewrite Nat.eqb_refl.
Qed.

(** ** Batched pushes *)

(** A push in the trace, done or failed, and the deferred push in its
    place. *)
Definition deferred (slot : value) (e : event) : list event :=
  match e with
  | EWtc (QueuePushOp _ _ _ _) (q :: v :: _) => [EWtc QueuePushDeferredOp [q; slot; v]]
  | EFail (QueuePushOp _ _ _ _) (q :: v :: _) => [EFail QueuePushDeferredOp [q; slot; v]]
  | _ => [e]
  end.

Section pushes.
Context (demangle : string → string) (functionParameters : string → option string) (typeABIAlignment : ty → Z) (m : module) (Hwf : wf_ids m = true).
Context (loop : operation) (Hloop : Batch.isLoop loop = true) (Hin : loop ∈ walk_module m).
Abbreviation raises := (raises demangle m).

Lemma loop_in o : o ∈ walk loop → o ∈ walk_module m.
Proof. by apply walk_module_trans. Qed.

Lemma wtc_ops_in o : o ∈ Batch.wtc_ops loop ↔ o ∈ walk loop ∧ Batch.is_wtc o = true.
Proof. unfold Batch.wtc_ops. rewrite list_elem_of_In, filter_In, <-list_elem_of_In. done. Qed.

(** The loop's operations are not the loop. *)
Lemma inside_other o : o ∈ flat_map walk (children loop) → op_id o ≠ op_id loop.
Proof. by apply (inside_ne m). Qed.

Lemma wtc_inside o : o ∈ walk loop → Batch.is_wtc o = true → o ∈ flat_map walk (children loop).
Proof.
  intros Ho Hw. rewrite walk_children in Ho. apply elem_of_app in Ho as [|Ho]; [done|]. apply list_elem_of_singleton in Ho as ->.
  unfold Batch.is_wtc in Hw. unfold Batch.isLoop in Hloop. by destruct (op_kind loop).
Qed.

Lemma continue_refuses what o : Batch.named "cir.continue" o || Batch.leaves_loop o = true → Batch.continue_refusal what o ≠ None.
Proof. unfold Batch.continue_refusal. by destruct (Batch.named "cir.continue" o), (Batch.leaves_loop o). Qed.

(** What a successful check establishes. *)
Record push_checked (push : operation) : Prop := PushChecked {
  pk_only o : o ∈ walk loop → Batch.is_wtc o = true → o = push;
  pk_in : push ∈ walk loop;
  pk_kind : ∃ b w v k a, op_kind push = KWtc (QueuePushOp b w v k) a;
  pk_fit o : o ∈ walk loop → Batch.is_wtc o = false → ¬ unfit demangle m false o;
  pk_tame o : o ∈ walk loop → tame raises o
}.

Lemma check_ok q push q' : asked demangle m (Batch.legal_kinds demangle m false) (Some Batch.refuse_extra) q →
  Batch.check demangle m loop (Batch.wtc_ops loop) q = Some (inr push, q') → push_checked push.
Proof.
  intros Hq H. unfold Batch.check in H. destruct (Batch.check_push demangle m loop (Batch.wtc_ops loop)) as [r|p] eqn:Ep; [done|].
  unfold Blocking.bind in H. destruct (Batch.scan _ _ _ _ _ q) as [[r q1]|] eqn:Es; [|done]. destruct r as [r|]; [done|]. injection H as <- <-.
  pose proof (scanned demangle m Hwf false _ _ q q1 Hq Es (continue_refuses _) loop_in) as Hsc.
  unfold Batch.check_push in Ep. destruct (Batch.wtc_ops loop) as [|p0 [|p1 l]] eqn:Ew; try done.
  assert (p0 = p ∧ ∃ b w v k a, op_kind p0 = KWtc (QueuePushOp b w v k) a) as [-> Hk].
  { destruct (op_kind p0) as [] eqn:Ek; try done; match goal with w : wtc_op |- _ => destruct w end; try done.
    split; [|by repeat eexists]. repeat case_match; simplify_eq; done. }
  assert (∀ o, o ∈ walk loop → Batch.is_wtc o = true → o = p) as Honly.
  { intros o Ho Hw. assert (o ∈ Batch.wtc_ops loop) as Hx by by apply wtc_ops_in. rewrite Ew in Hx. by apply list_elem_of_singleton in Hx. }
  split; try done.
  - apply wtc_ops_in. rewrite Ew. left.
  - intros o Ho Hw. by apply (Hsc o Ho).
  - intros o Ho. by apply (Hsc o Ho).
Qed.

Lemma fresh_silent n pre : (Batch.next_id m ≤ n)%nat →
  Forall (λ o, (op_kind o = KUcc ∨ ∃ g, op_kind o = KGetGlobal g) ∧ regions o = [] ∧ (n ≤ op_id o)%nat) pre → Forall (silent raises) pre.
Proof.
  intros Hn H. eapply Forall_impl; [exact H|]. intros o (Hk & Hr & Hi). split_and!; try done.
  - by destruct Hk as [-> |[g ->]].
  - unfold jump_of, Batch.named. by destruct Hk as [-> |[g ->]].
  - intros Hra%fresh_raises. lia.
Qed.

(** What the rewriting puts where. *)
Section placed.
Context (before after : list operation) (r : operation) (by_ : list operation) (erased : list nat).
Definition placed : operation → list operation := Batch.around loop before after r by_ erased.

Lemma placed_loop g : placed (Batch.edit g loop) = before ++ [Batch.edit g loop] ++ after.
Proof. unfold placed, Batch.around. by rewrite edit_id, Nat.eqb_refl. Qed.

Lemma placed_replaced g : r ∈ flat_map walk (children loop) → placed (Batch.edit g r) = by_.
Proof.
  intros Hr. unfold placed, Batch.around. rewrite edit_id, (proj2 (Nat.eqb_neq _ _) (inside_other r Hr)). by rewrite Nat.eqb_refl.
Qed.

Lemma placed_kept g o : o ∈ flat_map walk (children loop) → op_id o ≠ op_id r → op_id o ∉ erased → placed (Batch.edit g o) = [Batch.edit g o].
Proof.
  intros Ho Hr He. unfold placed, Batch.around. rewrite !edit_id, (proj2 (Nat.eqb_neq _ _) (inside_other o Ho)), (proj2 (Nat.eqb_neq _ _) Hr).
  by rewrite bool_decide_eq_false_2.
Qed.

Lemma placed_erased g o : o ∈ flat_map walk (children loop) → op_id o ≠ op_id r → op_id o ∈ erased → placed (Batch.edit g o) = [].
Proof.
  intros Ho Hr He. unfold placed, Batch.around. rewrite !edit_id, (proj2 (Nat.eqb_neq _ _) (inside_other o Ho)), (proj2 (Nat.eqb_neq _ _) Hr).
  by rewrite bool_decide_eq_true_2.
Qed.
End placed.

Lemma rewrite_inv push m' : Batch.rewrite functionParameters typeABIAlignment m loop push = Batch.Changed m' →
  ∃ slot pre outer inner v rest b d e ab ad ae,
    m' = Batch.rewritten m loop slot (placed (pre ++ [b]) [e] push [d] []) ∧
    operands push = inner :: v :: rest ∧ Batch.outer_handle m loop inner (Batch.next_id m + 1) = Some (pre, outer) ∧
    op_kind b = KWtc QueueBatchBeginOp ab ∧ operands b = [outer; result slot] ∧
    op_kind d = KWtc QueuePushDeferredOp ad ∧ operands d = [inner; result slot; v] ∧
    op_kind e = KWtc QueueBatchEndOp ae ∧ operands e = [outer; result slot].
Proof.
  unfold Batch.rewrite. destruct (op_kind push); try done. destruct (operands push) as [|inner [|v rest]]; try done.
  destruct (source_type a) as [queuePtr|]; [|done]. generalize (match (match fallback_impl a with Some n => lookup_func m n | None => None end) with
    | Some f => Batch.takesRvalue functionParameters f | None => false end). intros rv.
  destruct (Batch.shimFunction _ _ _ _ None) as [begin|]; [|done]. destruct (Batch.shimFunction _ _ _ _ (Some rv)) as [df|]; [|done].
  destruct (Batch.shimFunction _ _ _ _ None) as [end_|]; [|done]. destruct (Batch.argument_types begin) as [|t1 [|batchPtr [|]]]; try done.
  destruct (Batch.outer_handle _ _ _ _) as [[pre outer]|] eqn:Eo; [|done]. intros [= <-].
  do 12 eexists. split; [reflexivity|]. split; [reflexivity|]. split; [exact Eo|]. by repeat split.
Qed.

(** C36: Batching the pushes of a loop (WTCBatchPushesPass) changes when
    their elements are published, and, when a push fails, whether they are;
    it changes nothing else.  Nothing in a loop that passes the check may
    wait, synchronise, or reach anything that acts on a queue or a mutex;
    every run of the loop ends at its end or by a break, unless its push
    fails (its allocation, or the element's copy), and makes its pushes to
    one handle.  The rewriting puts in the loop's place a sequence whose runs
    are exactly those of the loop, with a deferred push of the same element
    to the same batch for each push, one begin before them and one end of the
    same queue after them.  A failed push leaves without the end, and
    then the elements still waiting are not published: the exception that
    the pass's comment accepts; and the end, which publishes, may fail. *)
Theorem push_batched q push q' m' :
  asked demangle m (Batch.legal_kinds demangle m false) (Some Batch.refuse_extra) q →
  Batch.check demangle m loop (Batch.wtc_ops loop) q = Some (inr push, q') →
  Batch.rewrite functionParameters typeABIAlignment m loop push = Batch.Changed m' →
  (∀ o, o ∈ walk loop → o ≠ push → Batch.is_wtc o = false ∧ ¬ unfit demangle m false o) ∧
  (∀ t x, runs raises (IOp loop) t x →
    (x = Fall ∨ x = Raise ∧ ∃ w, EFail w (operands push) ∈ t) ∧ ∀ w args, EWtc w args ∈ t ∨ EFail w args ∈ t → args = operands push) ∧
  ∃ edits slot pre outer inner v rest b a e a',
    m' = Batch.rewritten m loop slot edits ∧
    edits (Batch.edit edits loop) = pre ++ [b; Batch.edit edits loop; e] ∧
    op_kind b = KWtc QueueBatchBeginOp a ∧ op_kind e = KWtc QueueBatchEndOp a' ∧ operands push = inner :: v :: rest ∧ handle_key m pre outer = handle_key m [] inner ∧
    ∀ t x, runs raises (ISeq (edits (Batch.edit edits loop))) t x ↔
      ∃ t0 y, runs raises (IOp loop) t0 y ∧
        let begun := map (λ o, EOp (op_id o)) pre ++ [EWtc QueueBatchBeginOp [outer; result slot]] ++ flat_map (deferred (result slot)) t0 in
        (y = Fall ∧ x = Fall ∧ t = begun ++ [EWtc QueueBatchEndOp [outer; result slot]]) ∨
        (y = Fall ∧ x = Raise ∧ t = begun ++ [EFail QueueBatchEndOp [outer; result slot]]) ∨
        (y = Raise ∧ x = Raise ∧ t = begun).
Proof.
  intros Hq Hcheck Hrw. destruct (check_ok q push q' Hq Hcheck) as [Honly Hpin (b & w & v & k & a & Hk) Hfit Htame]. split; [|split].
  - intros o Ho Hne. destruct (Batch.is_wtc o) eqn:Hw; [by destruct Hne; apply Honly|]. split; [done|]. by apply Hfit.
  - intros t x Hr. assert (∀ w args, EWtc w args ∈ t ∨ EFail w args ∈ t → args = operands push) as Hone.
    { intros w0 args [Hev|Hev]; destruct (event_in _ _ _ _ _ Hr Hev) as (o & a' & Ho & Hko & E);
        rewrite (Honly o Ho) in E by (unfold Batch.is_wtc; by rewrite Hko); by (subst || destruct E as [<- _]). }
    split; [|exact Hone]. destruct (tame_loop _ _ _ _ Hloop Htame Hr) as [| ->]; [by left|right]. split; [done|].
    destruct (raise_fails _ _ _ _ Hr eq_refl Htame) as (w0 & args & Hev). exists w0. by rewrite <-(Hone w0 args (or_intror Hev)).
  - destruct (rewrite_inv push m' Hrw) as (slot & pre & outer & inner & val & rest & bo & d & e & ab & ad & ae & -> & Hops & Hout & Hb & Hbo & Hd & Hdo & He & Heo).
    destruct (outer_handle_ok _ _ _ _ _ _ (Nat.le_add_r _ 1) Hout) as [Hpre Hkey]. set (f := placed _ _ _ _ _).
    exists f, slot, pre, outer, inner, val, rest, bo, ab, e, ae. assert (push ∈ flat_map walk (children loop)) as Hpi by (apply wtc_inside; [done|]; unfold Batch.is_wtc; by rewrite Hk).
    split; [done|]. split; [by unfold f; rewrite placed_loop, <-app_assoc|]. split; [done|]. split; [done|]. split; [done|]. split; [done|]. intros t x.
    unfold f at 1. rewrite placed_loop, <-app_assoc. simpl. fold f.
    etransitivity; [eapply (wrapped_runs raises f (deferred (result slot)) loop); try done|rewrite Hbo, Heo].
    + intros o Ho Hw. apply placed_kept; [done| |set_solver]. intros E. apply (wf_ids_inj m) in E as ->; [|done| |by apply loop_in]; [|by apply loop_in, children_in_walk].
      unfold Batch.is_wtc in Hw. by rewrite Hk in Hw.
    + intros o w0 a0 Ho Hk0. rewrite (Honly o) by (by apply children_in_walk || (unfold Batch.is_wtc; by rewrite Hk0)).
      rewrite (Honly o) in Hk0 by (by apply children_in_walk || (unfold Batch.is_wtc; by rewrite Hk0)). rewrite Hk in Hk0. injection Hk0 as <- <-.
      right. exists d, QueuePushDeferredOp, ad. rewrite Hops, Hdo. split; [by apply placed_replaced|done].
    + by apply (fresh_silent (Batch.next_id m + 1)); [lia|].
    + split; intros (t0 & y & Ht0 & Hcase); exists t0, y; (split; [exact Ht0|]); cbv zeta in *.
      * destruct Hcase as [?|[(? & ? & _ & ?)|(Hy & -> & ?)]]; [by left|by right; left|]. right. right.
        by destruct (tame_loop _ _ _ _ Hloop Htame Ht0) as [->| ->].
      * destruct Hcase as [?|[(? & ? & ?)|(-> & -> & ?)]]; [by left|by right; left|by right; right].
Qed.
End pushes.

(** ** A worker's loop *)

Section example.
Definition bp_demangle (s : string) : string := s.
Definition bp_parameters (s : string) : option string := if String.eqb s "push_rvalue" then Some "(q*, e&&)" else None.
Definition bp_align (t : ty) : Z := 8.
Definition bp_ptr : ty := PtrTy (RecordTy "queue").
Definition bp_decl (i : nat) (n a : string) (args : list ty) : operation :=
  Op i "cir.func" "" (KFunc (Func n false false None (Some [Annotation a]) None (List.length args))) [] [] [("function_type", ATypes args)] [].
Definition bp_push : operation :=
  Op 24 "wtc.queue_push" "" (KWtc (QueuePushOp false false false false) (WtcAttrs (Some "push") (Some bp_ptr) None None None None)) [VRes 22 0; VRes 23 0] [] [] [].
(** [for (;;) q->push(v++)]: the cast of the queue is in the loop. *)
Definition bp_loop : operation :=
  Op 20 "cir.for" "" KFor [] [] []
    [[Block 2 [] [Op 21 "cir.condition" "" KCondition [] [] [] []]];
     [Block 3 [] [ucc 22 "" (QueueTy (RecordTy "queue")) (VArg 1 0); Op 23 "cir.load" "" (KLoad false) [VArg 1 1] [IntTy 32 true] [] []; bp_push]];
     [Block 4 [] []]].
Definition bp_module : module :=
  [bp_decl 1 "push" "wtc_queue_push" [bp_ptr; PtrTy (RecordTy "elt")];
   bp_decl 2 "begin" "wtc_queue_batch_begin" [bp_ptr; PtrTy (RecordTy "batch")];
   bp_decl 3 "push_rvalue" "wtc_queue_push_deferred" [bp_ptr; PtrTy (RecordTy "batch"); PtrTy (RecordTy "elt")];
   bp_decl 4 "push_lvalue" "wtc_queue_push_deferred" [bp_ptr; PtrTy (RecordTy "batch"); PtrTy (RecordTy "elt")];
   bp_decl 5 "end" "wtc_queue_batch_end" [bp_ptr; PtrTy (RecordTy "batch")];
   Op 10 "cir.func" "" (KFunc (Func "worker" false false None (Some [Annotation "wtc_batch"]) None 2)) [] [] []
     [[Block 1 [bp_ptr; PtrTy (IntTy 32 true)] [bp_loop; Op 30 "cir.return" "" KReturn [] [] [] []]]]].

(** The pass finds the loop, and puts the begin (with a cast of the queue)
    before it, the lvalue's deferred push in it and the end after it. *)
Example batched_worker :
  ∃ m', Batch.batch_pushes bp_demangle bp_parameters bp_align bp_module = Some ([], m', false) ∧
    map op_name (filter Batch.is_wtc (walk_module m')) = ["wtc.queue_batch_begin"; "wtc.queue_push_deferred"; "wtc.queue_batch_end"].
Proof. eexists. split; [vm_compute; reflexivity|vm_compute; reflexivity]. Qed.

Lemma push_batched_witness :
  ∃ m', Batch.rewrite bp_parameters bp_align bp_module bp_loop bp_push = Batch.Changed m' ∧
    ∀ t x, runs (raises bp_demangle bp_module) (IOp bp_loop) t x →
      (x = Fall ∨ x = Raise ∧ ∃ w, EFail w (operands bp_push) ∈ t) ∧ ∀ w args, EWtc w args ∈ t ∨ EFail w args ∈ t → args = operands bp_push.
Proof.
  eexists. split; [vm_compute; reflexivity|].
  destruct (push_batched bp_demangle bp_parameters bp_align bp_module ltac:(by vm_compute) bp_loop eq_refl) with (q := query0) (push := bp_push)
    (q' := match Batch.check bp_demangle bp_module bp_loop [bp_push] query0 with Some (_, q) => q | None => query0 end)
    (m' := match Batch.rewrite bp_parameters bp_align bp_module bp_loop bp_push with Batch.Changed m' => m' | _ => [] end) as (_ & H & _); [|by constructor| | |exact H].
  - vm_compute. repeat first [left|right].
  - vm_compute. reflexivity.
  - vm_compute. reflexivity.
Defined.
End example.
End BatchSpec.
