(* ===== verification/LockBatchSpec.v ===== *)
(** * LockBatchSpec: what batching critical sections changes

    A loop whose critical sections are batched takes and lets go of its
    mutex alternately ([sections_alternate]); the rewritten loop does what
    it does, with the locks left out, a step for each unlock, and one begin
    and one end around it ([locks_batched]); and whatever the other threads
    do between the batched loop's steps, they could have done between the
    original's ([batch_interleavings]). *)

From stdpp Require Import base tactics list strings gmap.
From Stdlib Require Import String ZArith Lia.
From S2P Require Import Prelude Text Cir WtcOps Utils Asm Blocking BlockingSpec Slots Loops LiftLower WorkEstimate Batch Frames Runs BatchSpec Mutex.
Local Open Scope string_scope.
Local Open Scope list_scope.

Module LockBatchSpec.
Import Frames Runs.

(** A lock in the trace, or an unlock, and what is in its place. *)
Definition stepped (slot : value) (e : event) : list event :=
  match e with
  | EWtc LockOp _ => []
  | EWtc UnlockOp (q :: _) => [EWtc LockBatchStepOp [q; slot]]
  | _ => [e]
  end.

(** The operations of a trace of the loop. *)
Definition of_section (e : event) : Prop :=
  match e with EOp _ | EWtc LockOp _ | EWtc UnlockOp (_ :: _) => True | _ => False end.

(** ** What a check establishes *)

Lemma lock_and_unlock_ok l : ∀ a b a' b', Batch.lock_and_unlock l a b = inr (a', b') →
  (∀ x, a = Some x → a' = Some x) ∧ (∀ x, b = Some x → b' = Some x) ∧ (∀ o, o ∈ l → a' = Some o ∨ b' = Some o) ∧
  (∀ x, a' = Some x → a = Some x ∨ x ∈ l ∧ Batch.is_lock x = true) ∧ (∀ x, b' = Some x → b = Some x ∨ x ∈ l ∧ Batch.is_unlock x = true).
Proof.
  induction l as [|o l IH]; simpl; intros a b a' b' H.
  - injection H as <- <-. split_and!; auto. intros o Ho. by apply elem_of_nil in Ho.
  - destruct (Batch.is_lock o && negb (is_some a)) eqn:E1; [|destruct (Batch.is_unlock o && negb (is_some b)) eqn:E2; [|done]].
    + apply andb_prop in E1 as [Hl Ha]. destruct a as [|]; [done|]. destruct (IH _ _ _ _ H) as (H1 & H2 & H3 & H4 & H5). split_and!; try done.
      * intros p [->|Hp]%elem_of_cons; [left; auto|auto].
      * intros x Hx. destruct (H4 x Hx) as [[= ->]|[Hin ?]]; right; split; try done; [left|by right].
      * intros x Hx. destruct (H5 x Hx) as [?|[Hin ?]]; [by left|right]. split; [by right|done].
    + apply andb_prop in E2 as [Hl Hb]. destruct b as [|]; [done|]. destruct (IH _ _ _ _ H) as (H1 & H2 & H3 & H4 & H5). split_and!; try done.
      * intros p [->|Hp]%elem_of_cons; [right; auto|auto].
      * intros x Hx. destruct (H4 x Hx) as [?|[Hin ?]]; [by left|right]. split; [by right|done].
      * intros x Hx. destruct (H5 x Hx) as [[= ->]|[Hin ?]]; right; split; try done; [left|by right].
Qed.

Lemma elem_of_rev {A} (x : A) l : x ∈ rev l ↔ x ∈ l.
Proof. by rewrite !list_elem_of_In, <-in_rev. Qed.

(** Distinct blocks have distinct numbers. *)
Definition module_blocks (m : module) : list block := flat_map (λ o, concat (regions o)) (walk_module m).
Definition wf_blocks (m : module) : bool := bool_decide (NoDup (map block_id (module_blocks m))).

Lemma wf_blocks_inj m b c : wf_blocks m = true → b ∈ module_blocks m → c ∈ module_blocks m → block_id b = block_id c → b = c.
Proof.
  unfold wf_blocks. rewrite bool_decide_eq_true. generalize (module_blocks m). intros l Hnd [i Hi]%list_elem_of_lookup [j Hj]%list_elem_of_lookup E.
  assert (i = j) as ->; [|congruence]. eapply (NoDup_lookup _ i j (block_id b) Hnd).
  - by rewrite list_lookup_fmap, Hi.
  - rewrite list_lookup_fmap, Hj. simpl. by rewrite E.
Qed.

(** ** The mutex along a run *)

Section held.
(** Which operands name the mutex. *)
Context (on : list value → bool).

(** Whether the mutex is held after a trace, when it is taken and let go in
    turn and no other is. *)
Fixpoint held_after (h : bool) (t : list event) : option bool :=
  match t with
  | [] => Some h
  | EWtc LockOp args :: t => if h || negb (on args) then None else held_after true t
  | EWtc UnlockOp args :: t => if h && on args then held_after false t else None
  | _ :: t => held_after h t
  end.

Lemma held_app h t t' : held_after h (t ++ t') = match held_after h t with Some h' => held_after h' t' | None => None end.
Proof.
  revert h. induction t as [|[n|[] args|w args] t IH]; intros h; simpl; try done; destruct h, (on args); simpl; done.
Qed.

Lemma held_closed h t : (∀ w args, EWtc w args ∉ t) → held_after h t = Some h.
Proof.
  induction t as [|[n|w args|w args] t IH]; simpl; intros Hn; [done| | |].
  - apply IH. intros w args Hev. apply (Hn w args). by right.
  - destruct (Hn w args). left.
  - apply IH. intros w' args' Hev. apply (Hn w' args'). by right.
Qed.
End held.

Section locks.
Context (demangle : string → string) (functionParameters : string → option string) (m : module) (Hwf : wf_ids m = true) (Hbl : wf_blocks m = true).
Context (loop : operation) (Hloop : Batch.isLoop loop = true) (Hin : loop ∈ walk_module m).
Abbreviation raises := (BatchSpec.raises demangle m).

Record locks_checked (lock unlock : operation) : Prop := LocksChecked {
  lk_only o : o ∈ walk loop → Batch.is_wtc o = true → o = lock ∨ o = unlock;
  lk_in : lock ∈ walk loop ∧ unlock ∈ walk loop;
  lk_kinds : (∃ a, op_kind lock = KWtc LockOp a) ∧ (∃ a, op_kind unlock = KWtc UnlockOp a);
  lk_before : isBeforeInBlock m lock unlock = true;
  lk_same : ∃ a b, Batch.mutex_of lock = Some a ∧ Batch.mutex_of unlock = Some b ∧ Batch.sameMutex m a b = true;
  lk_fit o : o ∈ walk loop → Batch.is_wtc o = false → ¬ BatchSpec.unfit demangle m true o;
  lk_tame o : o ∈ walk loop → tame raises o;
  lk_breaks o : o ∈ walk loop → Batch.breaks_section m lock unlock o = None
}.

Lemma check_locks_ok q lock unlock q' : asked demangle m (Batch.legal_kinds demangle m true) (Some Batch.refuse_extra) q →
  Batch.check_locks demangle m loop (Batch.wtc_ops loop) q = Some (inr (lock, unlock), q') → locks_checked lock unlock.
Proof.
  intros Hq H. unfold Batch.check_locks in H. destruct (Batch.check_section m loop (Batch.wtc_ops loop)) as [r|[l u]] eqn:Ec; [done|].
  unfold Blocking.bind in H. destruct (Batch.scan _ _ _ _ _ q) as [[r q1]|] eqn:Es; [|done]. destruct r as [r|]; [done|]. injection H as <- <- <-.
  assert (∀ o, Batch.named "cir.continue" o || Batch.leaves_loop o = true → Batch.own_refusal m l u o ≠ None) as Hown.
  { intros o Ho. unfold Batch.own_refusal. pose proof (BatchSpec.continue_refuses "the critical section" o Ho). by destruct (Batch.continue_refusal _ o). }
  pose proof (BatchSpec.scanned demangle m Hwf true _ _ q q1 Hq Es Hown (BatchSpec.loop_in m loop Hin)) as Hsc.
  unfold Batch.check_section in Ec. destruct (Batch.lock_and_unlock (Batch.wtc_ops loop) None None) as [r|[[l0|] [u0|]]] eqn:El; try done.
  destruct (lock_and_unlock_ok _ _ _ _ _ El) as (_ & _ & Hall & Hl & Hu).
  destruct (Batch.mutex_of l0) as [a|] eqn:Ea; [|done]. destruct (Batch.mutex_of u0) as [b|] eqn:Eb; [|done].
  destruct (Batch.sameMutex m a b) eqn:Esame; [|done]. destruct (Batch.handleInvariant m loop a); [|done]. simpl in Ec.
  destruct (negb (bool_decide (Batch.block_number m l0 = Batch.block_number m u0)) || negb (isBeforeInBlock m l0 u0)) eqn:Ebf; [done|].
  destruct (Batch.not_a_scope _ _); [done|]. injection Ec as -> ->. apply orb_false_iff in Ebf as [_ Ebf%negb_false_iff].
  destruct (Hl l eq_refl) as [|[Hlin Hlk]]; [done|]. destruct (Hu u eq_refl) as [|[Huin Huk]]; [done|].
  apply BatchSpec.wtc_ops_in in Hlin as [Hlin _], Huin as [Huin _]. split; try done.
  - intros o Ho Hw. destruct (Hall o) as [[= ->]|[= ->]]; [by apply BatchSpec.wtc_ops_in|by left|by right].
  - unfold Batch.is_lock, Batch.is_unlock in *. destruct (op_kind l) as [] eqn:E1; try done; destruct (op_kind u) as [] eqn:E2; try done.
    repeat match goal with w : wtc_op |- _ => destruct w; try done end; eauto.
  - by exists a, b.
  - intros o Ho Hw. by apply (Hsc o Ho).
  - intros o Ho. by apply (Hsc o Ho).
  - intros o Ho. destruct (Hsc o Ho) as [Eo _]. unfold Batch.own_refusal in Eo. by destruct (Batch.continue_refusal _ o).
Qed.

(** ** The critical section *)

(** The operands of a lock or an unlock of one mutex, by where its handle
    comes from. *)
Definition names (mutex : value) (args : list value) : bool :=
  match args with q :: _ => bool_decide (BatchSpec.handle_key m [] q = BatchSpec.handle_key m [] mutex) | [] => false end.

Lemma same_key a b : Batch.sameMutex m a b = true → BatchSpec.handle_key m [] a = BatchSpec.handle_key m [] b.
Proof.
  assert (∀ v, BatchSpec.source_of m [] v = Batch.handleSource m v) as Hs.
  { intros v. unfold BatchSpec.source_of, Batch.handleSource, BatchSpec.def_of. destruct (defining_op m v); [done|]. by destruct v. }
  assert (∀ v, BatchSpec.handle_key m [] v = match Batch.get_global m (Batch.handleSource m v) with Some n => inl n | None => inr (Batch.handleSource m v) end) as Hk.
  { intros v. unfold BatchSpec.handle_key. rewrite Hs. unfold Batch.get_global, BatchSpec.def_of. generalize (Batch.handleSource m v) as s. intros s.
    destruct (defining_op m s) as [d|]; [by destruct (op_kind d)|by destruct s]. }
  unfold Batch.sameMutex. rewrite !Hk. case_bool_decide as E; [by rewrite E|].
  destruct (Batch.get_global m (Batch.handleSource m a)), (Batch.get_global m (Batch.handleSource m b)); try done. by intros ->%String.eqb_eq.
Qed.

(** Neither a lock nor an unlock may fail. *)
Lemma checked_steady lock unlock : locks_checked lock unlock → ∀ o, o ∈ walk loop → steady o.
Proof.
  intros Hck o Ho w a Hk. destruct (lk_kinds _ _ Hck) as [[al Hal] [au Hau]].
  destruct (lk_only _ _ Hck o Ho) as [->| ->]; [unfold Batch.is_wtc; by rewrite Hk|rewrite Hal in Hk|rewrite Hau in Hk]; by injection Hk as <- <-.
Qed.

Section checked.
Context (lock unlock : operation) (Hck : locks_checked lock unlock).

(** The block of the lock. *)
Record section (po : operation) (k : nat) (r : list block) (b : block) (l1 l2 l3 : list operation) : Prop := Section {
  se_in : po ∈ walk loop;
  se_region : regions po !! k = Some r;
  se_block : b ∈ r;
  se_ops : block_ops b = l1 ++ lock :: l2 ++ unlock :: l3
}.

Lemma section_exists : ∃ po k r b l1 l2 l3, section po k r b l1 l2 l3.
Proof.
  destruct Hck as [_ [Hl Hu] _ Hbf _ _ _ _]. assert (lock ∈ walk_module m) as Hlm by by apply (walk_module_trans m loop).
  assert (unlock ∈ walk_module m) as Hum by by apply (walk_module_trans m loop).
  unfold isBeforeInBlock in Hbf. destruct (block_of m (op_id lock)) as [b|] eqn:Eb; [|done].
  destruct (walk_sits loop lock Hl) as [fs Hs]. destruct (sits_last _ _ _ Hs) as [[-> ->]|(fs' & po & k & r & b' & -> & Hs' & Hr & Hb & Hlb)].
  { exfalso. destruct (lk_kinds _ _ Hck) as [[a Ha] _]. unfold Batch.isLoop in Hloop. by rewrite Ha in Hloop. }
  assert (po ∈ walk loop) as Hpo by by eapply sits_walk. assert (po ∈ walk_module m) as Hpm by by apply (walk_module_trans m loop).
  rewrite (block_of_in m Hwf po k r b' lock Hpm Hr Hb Hlb) in Eb. injection Eb as ->.
  apply before_in_split in Hbf as (l1 & o & l2 & p & l3 & Hops & Ho & Hp).
  assert (∀ c, c ∈ block_ops b → c ∈ walk_module m) as Hbm by (intros c Hc; eapply walk_module_child; [done|by eapply in_children]).
  assert (o = lock) as -> by (apply (wf_ids_inj m); try done; apply Hbm; rewrite Hops; apply elem_of_app; right; left).
  assert (p = unlock) as -> by (apply (wf_ids_inj m); try done; apply Hbm; rewrite Hops; apply elem_of_app; right; right; apply elem_of_app; right; left).
  by exists po, k, r, b, l1, l2, l3.
Qed.

Context (po : operation) (k : nat) (r : list block) (b : block) (l1 l2 l3 : list operation) (Hse : section po k r b l1 l2 l3).

Lemma section_module : po ∈ walk_module m.
Proof. apply (walk_module_trans m loop); [done|]. apply (se_in _ _ _ _ _ _ _ Hse). Qed.

Lemma in_block_module c : c ∈ block_ops b → c ∈ walk_module m.
Proof. intros Hc. eapply walk_module_child; [apply section_module|]. eapply in_children; [apply (se_region _ _ _ _ _ _ _ Hse)|apply (se_block _ _ _ _ _ _ _ Hse)|done]. Qed.

Lemma in_block_of c : c ∈ block_ops b → block_of m (op_id c) = Some b.
Proof. intros Hc. eapply block_of_in; [done|apply section_module|apply (se_region _ _ _ _ _ _ _ Hse)|apply (se_block _ _ _ _ _ _ _ Hse)|done]. Qed.

Lemma in_blocks : b ∈ module_blocks m.
Proof.
  apply elem_of_flat_map. exists po. split; [apply section_module|]. apply elem_of_concat. exists r. split; [apply (se_block _ _ _ _ _ _ _ Hse)|].
  eapply list_elem_of_lookup_2, (se_region _ _ _ _ _ _ _ Hse).
Qed.

(** Between the lock and the unlock nothing breaks out. *)
Lemma section_breakless c o : c ∈ l2 → o ∈ walk c → jump_of o ≠ Some Break.
Proof.
  intros Hc Ho Hj. destruct Hse as [Hpo Hr Hb Hops]. pose proof section_module as Hpm.
  assert (c ∈ block_ops b) as Hcb by (rewrite Hops; apply elem_of_app; right; right; apply elem_of_app; by left).
  assert (o ∈ walk_module m) as Hom by (eapply walk_module_trans; [by apply in_block_module|done]).
  assert (o ∈ walk loop) as Hol.
  { eapply walk_trans; [exact Hpo|]. rewrite walk_children. apply elem_of_app. left. apply elem_of_flat_map. exists c. split; [by eapply in_children|done]. }
  pose proof (lk_breaks _ _ Hck o Hol) as Hbr. unfold Batch.breaks_section in Hbr. assert (Batch.named "cir.break" o = true) as Hn.
  { unfold jump_of in Hj. destruct (op_kind o), (Batch.named "cir.continue" o), (Batch.named "cir.break" o), (Batch.named "cir.goto" o); done. }
  rewrite Hn in Hbr. simpl in Hbr. unfold Batch.block_number in Hbr.
  rewrite (in_block_of lock) in Hbr by (rewrite Hops; apply elem_of_app; right; left). simpl in Hbr. unfold findAncestorOpInBlock in Hbr.
  destruct (List.find _ (o :: rev (ancestors m (op_id o)))) as [a|] eqn:Ef.
  - apply find_some in Ef as [Ha Eid]. apply list_elem_of_In in Ha. assert (o ∈ walk a ∧ a ∈ walk_module m) as [Hoa Ham].
    { apply elem_of_cons in Ha as [->|Ha]; [split; [apply walk_self|done]|]. apply ancestor_holds; [done..|]. by apply elem_of_rev. }
    destruct (block_of m (op_id a)) as [b'|] eqn:Eb'; [|done]. apply Nat.eqb_eq in Eid.
    destruct (block_of_holds m Hwf a b' Ham Eb') as (o' & k' & r' & Ho' & Hr' & Hb' & Hab).
    assert (b' = b) as ->.
    { apply (wf_blocks_inj m); [done| |apply in_blocks|done]. apply elem_of_flat_map. exists o'. split; [done|]. apply elem_of_concat. exists r'. split; [done|]. by eapply list_elem_of_lookup_2. }
    assert (a = c) as -> by (by eapply (block_elem m Hwf po k r b a c o)).
    pose proof (block_nodup m Hwf po k r b Hpm Hr Hb) as Hnd. rewrite Hops in Hnd.
    assert (isBeforeInBlock m lock c && isBeforeInBlock m c unlock = true) as Hbefore.
    { apply list_elem_of_split in Hc as (m1 & m2 & E). unfold isBeforeInBlock. rewrite (in_block_of lock), (in_block_of c) by (done || (rewrite Hops; apply elem_of_app; right; left)).
      rewrite Hops, E in *. apply andb_true_iff. split.
      - rewrite <-app_assoc. simpl. apply before_in_intro. by rewrite <-app_assoc in Hnd.
      - replace (l1 ++ lock :: (m1 ++ c :: m2) ++ unlock :: l3) with ((l1 ++ lock :: m1) ++ c :: m2 ++ unlock :: l3) in * by (rewrite <-!app_assoc; simpl; by rewrite <-?app_assoc).
        by apply before_in_intro. }
    by rewrite Hbefore in Hbr.
  - assert (c ∈ o :: rev (ancestors m (op_id o))) as Hcin.
    { destruct (holds_ancestor m Hwf o c) as [->|Hca]; [by apply in_block_module|done|left|]. right. by apply elem_of_rev. }
    apply list_elem_of_In in Hcin. pose proof (find_none _ _ Ef c Hcin) as Hno. simpl in Hno. rewrite (in_block_of c Hcb), Nat.eqb_refl in Hno. done.
Qed.

(** ** The mutex along a run of the loop *)

Context (mutex : value) (Hmutex : head (operands lock) = Some mutex).
Lemma lock_names : names mutex (operands lock) = true.
Proof. unfold names. destruct (operands lock); [done|]. injection Hmutex as ->. by apply bool_decide_eq_true_2. Qed.

Lemma unlock_names : names mutex (operands unlock) = true.
Proof.
  destruct (lk_same _ _ Hck) as (a0 & b0 & Ha & Hb & E%same_key). unfold Batch.mutex_of in *. rewrite Hmutex in Ha. injection Ha as <-.
  unfold names. destruct (operands unlock); [done|]. injection Hb as ->. by apply bool_decide_eq_true_2.
Qed.

Abbreviation held_after := (held_after (names mutex)).

(** The operations of the loop that are neither the lock nor the unlock. *)
Definition free (l : list operation) : Prop := ∀ c, c ∈ l → c ≠ lock ∧ c ≠ unlock.

Lemma block_free : free l1 ∧ free l2 ∧ free l3 ∧ lock ≠ unlock.
Proof.
  pose proof (block_nodup m Hwf po k r b section_module (se_region _ _ _ _ _ _ _ Hse) (se_block _ _ _ _ _ _ _ Hse)) as Hnd.
  rewrite (se_ops _ _ _ _ _ _ _ Hse) in Hnd. apply NoDup_fmap_1 in Hnd. apply NoDup_app in Hnd as (_ & H1 & Hnd).
  apply NoDup_cons in Hnd as [H2 Hnd]. apply NoDup_app in Hnd as (_ & H3 & [H4 _]%NoDup_cons). unfold free. split_and!.
  - intros c Hc. specialize (H1 c Hc). split; intros ->; apply H1; [left|right; apply elem_of_app; right; left].
  - intros c Hc. specialize (H3 c Hc). split; intros ->; [apply H2, elem_of_app; by left|apply H3; left].
  - intros c Hc. split; intros ->; [apply H2, elem_of_app; right; by right|done].
  - intros E. apply H2. rewrite E. apply elem_of_app. right. left.
Qed.

(** A sequence, and whether the mutex is held where it begins. *)
Inductive good : list operation → bool → Prop :=
| good_free l : free l → good l false
| good_section a : free a → good (a ++ lock :: l2 ++ unlock :: l3) false
| good_held a : (∀ c, c ∈ a → c ∈ l2) → good (a ++ unlock :: l3) true.

Definition region_ok (rg : list block) : Prop := ∀ bl, bl ∈ rg → (∀ c, c ∈ block_ops bl → c ∈ walk loop) ∧ good (block_ops bl) false.

Lemma loop_region o rg : o ∈ walk loop → rg ∈ regions o → region_ok rg.
Proof.
  intros Ho [j Hj]%list_elem_of_lookup bl Hblk. assert (o ∈ walk_module m) as Hom by by apply (walk_module_trans m loop). split.
  - intros c Hc. eapply walk_trans; [exact Ho|]. rewrite walk_children. apply elem_of_app. left. apply elem_of_flat_map. exists c. split; [by eapply in_children|apply walk_self].
  - assert (∀ c, c ∈ block_ops bl → c ∈ block_ops b → bl = b) as Hone.
    { intros c Hc Hcb. assert (Some bl = Some b) as [= ->]; [|done]. rewrite <-(block_of_in m Hwf o j rg bl c Hom Hj Hblk Hc). by apply in_block_of. }
    assert (∀ c, c ∈ block_ops bl → c ∈ walk_module m) as Hbm by (intros c Hc; eapply walk_module_child; [exact Hom|by eapply in_children]).
    assert (∀ u, u ∈ block_ops b → op_id u ∈ map op_id (block_ops bl) → bl = b) as Hid.
    { intros u Hu (c & E & Hc)%list_elem_of_fmap. apply (Hone c Hc). apply (wf_ids_inj m) in E; [|done|by apply in_block_module|by apply Hbm]. by rewrite <-E. }
    destruct block_free as (Hf1 & _). pose proof (se_ops _ _ _ _ _ _ _ Hse) as Hops.
    assert (lock ∈ block_ops b) as Hlb by (rewrite Hops; apply elem_of_app; right; left).
    assert (unlock ∈ block_ops b) as Hub by (rewrite Hops; apply elem_of_app; right; right; apply elem_of_app; right; left).
    destruct (decide (op_id lock ∈ map op_id (block_ops bl))) as [Hl|Hl]; [rewrite (Hid lock Hlb Hl), Hops; by apply good_section|].
    destruct (decide (op_id unlock ∈ map op_id (block_ops bl))) as [Hu|Hu]; [rewrite (Hid unlock Hub Hu), Hops; by apply good_section|].
    apply good_free. intros c Hc. split; intros ->; [apply Hl|apply Hu]; by apply list_elem_of_fmap_2.
Qed.

(** What holds of an item where a run of it starts. *)
Definition fits (i : item) (h : bool) : Prop :=
  match i with
  | IOp o => h = false ∧ o ∈ walk loop ∧ o ≠ lock ∧ o ≠ unlock
  | ISeq l => (∀ c, c ∈ l → c ∈ walk loop) ∧ good l h
  | IRegion rg => h = false ∧ region_ok rg
  | IBlocks rg l => region_ok rg ∧ (∀ c, c ∈ l → c ∈ walk loop) ∧ good l h
  | ILoop o p => h = false ∧ o ∈ walk loop
  | IAny rs => h = false ∧ ∀ rg, rg ∈ rs → region_ok rg
  end.

(** Inside the section nothing of the dialect runs, and nothing breaks
    out. *)
Lemma section_closed c t x : c ∈ l2 → runs raises (IOp c) t x → held_after true t = Some true ∧ x = Fall.
Proof.
  intros Hc H. pose proof (se_ops _ _ _ _ _ _ _ Hse) as Hops. destruct block_free as (_ & Hf & _). destruct (Hf c Hc) as [Hcl Hcu].
  assert (c ∈ block_ops b) as Hcb by (rewrite Hops; apply elem_of_app; right; right; apply elem_of_app; by left).
  assert (∀ o, o ∈ walk c → o ∈ walk loop) as Hcw.
  { intros o Ho. eapply walk_trans; [apply (se_in _ _ _ _ _ _ _ Hse)|]. rewrite walk_children. apply elem_of_app. left. apply elem_of_flat_map. exists c. split; [|done].
    eapply in_children; [apply (se_region _ _ _ _ _ _ _ Hse)|apply (se_block _ _ _ _ _ _ _ Hse)|done]. }
  assert (∀ u, u ∈ block_ops b → u ∈ walk c → c = u) as Hsame.
  { intros u Hu Huc. apply (block_elem m Hwf po k r b c u u section_module (se_region _ _ _ _ _ _ _ Hse) (se_block _ _ _ _ _ _ _ Hse) Hcb Hu Huc (walk_self u)). }
  split.
  - apply held_closed. intros w args Hev. destruct (event_in _ _ _ _ _ H Hev) as (o & a & Ho & Hk & _).
    destruct (lk_only _ _ Hck o (Hcw o Ho)) as [->| ->]; [unfold Batch.is_wtc; by rewrite Hk|apply Hcl|apply Hcu]; apply Hsame; try done;
      rewrite Hops; apply elem_of_app; right; [left|right; apply elem_of_app; right; left].
  - eapply (exit_among _ (λ x, x = Fall)); [exact H|done|]. intros o Ho. destruct (lk_tame _ _ Hck o (Hcw o Ho)) as [Hj Hr]. split_and!.
    + intros y Hy. destruct Hj as [E|E]; [by rewrite E in Hy|]. by destruct (section_breakless c o Hc Ho).
    + intros Hw Hra. by destruct (Hr Hw).
    + intros w a Hk Hm. by rewrite (checked_steady lock unlock Hck o (Hcw o Ho) w a Hk) in Hm.
Qed.

(** Where the head of a sequence leads. *)
Lemma good_cons o l h : good (o :: l) h →
  (h = false ∧ o = lock ∧ good l true) ∨ (h = true ∧ o = unlock ∧ good l false) ∨
  (h = true ∧ o ∈ l2 ∧ good l true) ∨ (h = false ∧ o ≠ lock ∧ o ≠ unlock ∧ good l false).
Proof.
  destruct block_free as (_ & _ & Hf3 & _). intros H. inversion H as [l' Hf E|a Hf E|a Ha E]; subst.
  - right. right. right. destruct (Hf o) as [? ?]; [left|]. split_and!; try done. apply good_free. intros c Hc. apply Hf. by right.
  - destruct a as [|c a]; simpl in E; injection E as -> <-.
    + left. split_and!; try done. by apply good_held.
    + right. right. right. destruct (Hf o) as [? ?]; [left|]. split_and!; try done. apply good_section. intros d Hd. apply Hf. by right.
  - destruct a as [|c a]; simpl in E; injection E as -> <-.
    + right. left. split_and!; try done. by apply good_free.
    + right. right. left. split_and!; [done|apply Ha; left|]. apply good_held. intros d Hd. apply Ha. by right.
Qed.

Lemma good_nil h : good [] h → h = false.
Proof. intros H. inversion H as [| |a Ha E]; subst; [done|done|by destruct a]. Qed.

Lemma part_ok o ph : o ∈ walk loop → region_ok (part o ph).
Proof.
  intros Ho. unfold part. destruct (regions o !! (match ph with Cond => 0 | Body => 1 | Step => 2 end)%nat) as [rg|] eqn:E.
  - rewrite (nth_lookup_Some _ _ _ _ E). eapply loop_region; [done|by eapply list_elem_of_lookup_2].
  - rewrite nth_lookup, E. intros bl Hb. by apply elem_of_nil in Hb.
Qed.

(** Along every run of the loop the mutex is taken and let go in turn, and
    is not held where the run ends. *)
Lemma alternates i t x : runs raises i t x → ∀ h, fits i h → held_after h t = Some false.
Proof.
  intros H. induction H as
    [|o l t t' x H1 IH1 _ IH2|o l t x H1 IH Hx|  |bl rg t x _ IH|rg l t x _ IH|rg l bl t t' x _ Hb _ IH1 _ IH2|o w a Hk|o w a Hk Hm|o Hw Hr|o x Hj
    |o p t x Hl Hp _ IH|o t _ IH|o p t t' x y _ IH1 _ _ IH2|o p t _ IH|o p t x _ IH Hx|o rg t x Hk Hr _ IH|o Hk|o t x Hk _ IH
    |o t t' x y Hk _ IH1 _ IH2|o t x Hk _ _ IH|rs|rs rg t t' x y Hr _ IH1 _ _ IH2|rs rg t x Hr _ IH Hx]; intros h Hf; simpl in Hf.
  - destruct Hf as [_ Hg]. simpl. f_equal. by apply good_nil.
  - destruct Hf as [Hl Hg]. assert (∀ c, c ∈ l → c ∈ walk loop) as Hl' by (intros c Hc; apply Hl; by right). assert (o ∈ walk loop) as Ho by (apply Hl; left).
    rewrite held_app. destruct (good_cons o l h Hg) as [(-> & -> & Hg')|[(-> & -> & Hg')|[(-> & Hc & Hg')|(-> & Hn1 & Hn2 & Hg')]]].
    + destruct (lk_kinds _ _ Hck) as [[a Ha] _]. rewrite (wtc_falls _ _ _ _ _ Ha H1). simpl. rewrite lock_names. by apply IH2.
    + destruct (lk_kinds _ _ Hck) as [_ [a Ha]]. rewrite (wtc_falls _ _ _ _ _ Ha H1). simpl. rewrite unlock_names. by apply IH2.
    + destruct (section_closed o t Fall Hc H1) as [-> _]. by apply IH2.
    + rewrite IH1 by done. by apply IH2.
  - destruct Hf as [Hl Hg]. assert (o ∈ walk loop) as Ho by (apply Hl; left).
    destruct (good_cons o l h Hg) as [(-> & -> & Hg')|[(-> & -> & Hg')|[(-> & Hc & Hg')|(-> & Hn1 & Hn2 & Hg')]]].
    + destruct (lk_kinds _ _ Hck) as [[a Ha] _]. by destruct (steady_runs _ _ _ _ _ _ Ha eq_refl H1) as [_ ->].
    + destruct (lk_kinds _ _ Hck) as [_ [a Ha]]. by destruct (steady_runs _ _ _ _ _ _ Ha eq_refl H1) as [_ ->].
    + by destruct (section_closed o t x Hc H1) as [_ ->].
    + by apply IH.
  - by destruct Hf as [-> _].
  - destruct Hf as [-> Hok]. apply IH. simpl. split; [done|]. apply (Hok bl). left.
  - destruct Hf as (_ & Hl & Hg). by apply IH.
  - destruct Hf as (Hok & Hl & Hg). rewrite held_app, (IH1 h) by done. apply IH2. simpl. split; [done|]. by apply Hok.
  - destruct Hf as (_ & Ho & Hn1 & Hn2). destruct (lk_only _ _ Hck o Ho); [unfold Batch.is_wtc; by rewrite Hk|done..].
  - destruct Hf as (_ & Ho & Hn1 & Hn2). destruct (lk_only _ _ Hck o Ho); [unfold Batch.is_wtc; by rewrite Hk|done..].
  - by destruct Hf as [-> _].
  - by destruct Hf as [-> _].
  - destruct Hf as (-> & Ho & _). apply IH. done.
  - destruct Hf as [-> Ho]. apply IH. simpl. split; [done|by apply part_ok].
  - destruct Hf as [-> Ho]. rewrite held_app, IH1 by (simpl; split; [done|by apply part_ok]). by apply IH2.
  - destruct Hf as [-> Ho]. apply IH. simpl. split; [done|by apply part_ok].
  - destruct Hf as [-> Ho]. apply IH. simpl. split; [done|by apply part_ok].
  - destruct Hf as (-> & Ho & _). apply IH. simpl. split; [done|]. by eapply loop_region.
  - by destruct Hf as [-> _].
  - destruct Hf as (-> & Ho & _). apply IH. simpl. split; [done|by apply part_ok].
  - destruct Hf as (-> & Ho & _). rewrite held_app, IH1 by (simpl; split; [done|by apply part_ok]). apply IH2. simpl. split; [done|by apply part_ok].
  - destruct Hf as (-> & Ho & _). simpl. apply IH. simpl. split; [done|]. intros rg Hrg. by eapply loop_region.
  - by destruct Hf as [-> _].
  - destruct Hf as [-> Hok]. rewrite held_app, IH1 by (simpl; split; [done|by apply Hok]). by apply IH2.
  - destruct Hf as [-> Hok]. apply IH. simpl. split; [done|by apply Hok].
Qed.
End checked.

Lemma sections_alternate lock unlock mutex t x : locks_checked lock unlock → head (operands lock) = Some mutex →
  runs raises (IOp loop) t x → held_after (names mutex) false t = Some false.
Proof.
  intros Hck Hmutex H. destruct (section_exists lock unlock Hck) as (po & k & r & b & l1 & l2 & l3 & Hse).
  apply (alternates lock unlock Hck po k r b l1 l2 l3 Hse mutex Hmutex (IOp loop) t x H). simpl. split; [done|]. split; [apply walk_self|].
  destruct (lk_kinds _ _ Hck) as [[a Ha] [a' Ha']]. unfold Batch.isLoop in Hloop. split; intros E; rewrite E in Hloop; [by rewrite Ha in Hloop|by rewrite Ha' in Hloop].
Qed.


Lemma rewrite_locks_inv lock unlock m' : Batch.rewrite_locks functionParameters m loop lock unlock = Batch.Changed m' →
  ∃ slot pre outer inner rest inner' rest' b d e ab ad ae,
    m' = Batch.rewritten m loop slot (BatchSpec.placed loop (pre ++ [b]) [e] unlock [d] [op_id lock]) ∧
    operands lock = inner :: rest ∧ operands unlock = inner' :: rest' ∧ Batch.outer_handle m loop inner (Batch.next_id m + 1) = Some (pre, outer) ∧
    op_kind b = KWtc LockBatchBeginOp ab ∧ operands b = [outer; result slot] ∧
    op_kind d = KWtc LockBatchStepOp ad ∧ operands d = [inner'; result slot] ∧
    op_kind e = KWtc LockBatchEndOp ae ∧ operands e = [outer; result slot].
Proof.
  unfold Batch.rewrite_locks, Batch.mutex_of. destruct (op_kind lock); try done. destruct (operands lock) as [|inner rest]; [done|].
  destruct (operands unlock) as [|inner' rest']; [done|]. simpl. destruct (source_type a) as [mutexPtr|]; [|done].
  destruct (Batch.shimFunction _ _ _ _ None) as [begin|]; [|done]. destruct (Batch.shimFunction _ _ _ _ None) as [step|]; [|done].
  destruct (Batch.shimFunction _ _ _ _ None) as [end_|]; [|done]. destruct (Batch.argument_types begin) as [|t1 [|batchPtr [|]]]; try done.
  destruct (Batch.outer_handle _ _ _ _) as [[pre outer]|] eqn:Eo; [|done]. intros [= <-].
  do 13 eexists. split; [reflexivity|]. split; [reflexivity|]. split; [reflexivity|]. split; [exact Eo|]. by repeat split.
Qed.

(** The two operations of the dialect are the lock and the unlock, inside
    the loop. *)
Lemma checked_inside lock unlock : locks_checked lock unlock →
  lock ∈ flat_map walk (children loop) ∧ unlock ∈ flat_map walk (children loop) ∧ op_id lock ≠ op_id unlock.
Proof.
  intros [_ [Hl Hu] [[a Ha] [a' Ha']] _ _ _ _ _].
  split; [apply BatchSpec.wtc_inside; try done; unfold Batch.is_wtc; by rewrite Ha|]. split; [apply BatchSpec.wtc_inside; try done; unfold Batch.is_wtc; by rewrite Ha'|].
  intros E. apply (wf_ids_inj m) in E; [|done|by apply (BatchSpec.loop_in m loop)|by apply (BatchSpec.loop_in m loop)]. by rewrite E, Ha' in Ha.
Qed.

(** C37: Batching the critical sections of a loop (WTCBatchLocksPass) holds
    the mutex across them and changes nothing else.  Nothing in a loop that
    passes the check may wait, synchronise, sleep or reach anything that acts
    on a queue or a mutex; every run of the loop ends at its end or by a
    break, takes and lets go of one mutex in turn, the one its lock names
    (by the same handle, cast or global), and of no other, and does not
    hold it at the end.  The rewriting puts in the loop's place a sequence whose runs
    are exactly those of the loop without its locks, a batch step in place
    of each unlock, wrapped in one begin and one end on the same mutex. *)
Theorem locks_batched q lock unlock q' m' :
  asked demangle m (Batch.legal_kinds demangle m true) (Some Batch.refuse_extra) q →
  Batch.check_locks demangle m loop (Batch.wtc_ops loop) q = Some (inr (lock, unlock), q') →
  Batch.rewrite_locks functionParameters m loop lock unlock = Batch.Changed m' →
  (∀ o, o ∈ walk loop → o ≠ lock → o ≠ unlock → Batch.is_wtc o = false ∧ ¬ BatchSpec.unfit demangle m true o) ∧
  ∃ mutex rest, operands lock = mutex :: rest ∧
  (∀ t x, runs raises (IOp loop) t x → x = Fall ∧ held_after (names mutex) false t = Some false ∧ Forall of_section t) ∧
  ∃ edits slot pre outer b a e a',
    m' = Batch.rewritten m loop slot edits ∧
    edits (Batch.edit edits loop) = pre ++ [b; Batch.edit edits loop; e] ∧
    op_kind b = KWtc LockBatchBeginOp a ∧ op_kind e = KWtc LockBatchEndOp a' ∧
    BatchSpec.handle_key m pre outer = BatchSpec.handle_key m [] mutex ∧
    ∀ t x, runs raises (ISeq (edits (Batch.edit edits loop))) t x ↔
      x = Fall ∧ ∃ t0, runs raises (IOp loop) t0 Fall ∧
        t = map (λ o, EOp (op_id o)) pre ++ [EWtc LockBatchBeginOp [outer; result slot]] ++ flat_map (stepped (result slot)) t0 ++
          [EWtc LockBatchEndOp [outer; result slot]].
Proof.
  intros Hq Hcheck Hrw. pose proof (check_locks_ok q lock unlock q' Hq Hcheck) as Hck. destruct (checked_inside lock unlock Hck) as (Hli & Hui & Hne).
  destruct (rewrite_locks_inv lock unlock m' Hrw) as (slot & pre & outer & inner & rest & inner' & rest' & bo & d & e & ab & ad & ae & -> & Hlo & Huo & Hout & Hb & Hbo & Hd & Hdo & He & Heo).
  assert (∀ o w args, o ∈ walk loop → op_kind o = KWtc w args → o = lock ∨ o = unlock) as Honly.
  { intros o w args Ho Hk. apply (lk_only _ _ Hck); [done|]. unfold Batch.is_wtc. by rewrite Hk. }
  assert (∀ t x, runs raises (IOp loop) t x → x = Fall) as Hfalls.
  { intros t x. apply steady_loop; [done|]. intros p Hp. split; [by apply (lk_tame _ _ Hck)|by apply (checked_steady lock unlock Hck)]. }
  destruct (lk_kinds _ _ Hck) as [[al Hal] [au Hau]]. split; [|exists inner, rest; split; [exact Hlo|split]].
  - intros o Ho H1 H2. destruct (Batch.is_wtc o) eqn:Hw; [by destruct (lk_only _ _ Hck o Ho Hw)|]. split; [done|]. by apply (lk_fit _ _ Hck).
  - intros t x Hr. split; [by apply (Hfalls t x)|]. split; [eapply sections_alternate; [done|by rewrite Hlo|done]|].
    apply Forall_forall. intros e0 Hev. pose proof (event_in _ _ _ _ _ Hr Hev) as Hmade. destruct e0 as [n|w args|w args]; [done|..].
    + destruct Hmade as (o & a & Ho & Hk & <-). destruct (Honly o w a Ho Hk) as [-> | ->]; [rewrite Hal in Hk|rewrite Hau in Hk]; injection Hk as <- <-; [done|]. by rewrite Huo.
    + destruct Hmade as (o & a & Ho & Hk & _ & Hm). by rewrite (checked_steady lock unlock Hck o Ho w a Hk) in Hm.
  - destruct (BatchSpec.outer_handle_ok _ _ _ _ _ _ (Nat.le_add_r _ 1) Hout) as [Hpre Hkey]. set (f := BatchSpec.placed _ _ _ _ _ _).
    exists f, slot, pre, outer, bo, ab, e, ae. split; [done|]. split; [by unfold f; rewrite BatchSpec.placed_loop, <-app_assoc|]. split; [done|]. split; [done|].
    split; [done|]. intros t x. unfold f at 1. rewrite BatchSpec.placed_loop, <-app_assoc. simpl. fold f.
    etransitivity; [eapply (BatchSpec.wrapped_runs raises f (stepped (result slot)) loop); try done|rewrite Hbo, Heo].
    + intros o Ho Hw. assert (∀ c w args, c ∈ walk loop → op_kind c = KWtc w args → op_id o ≠ op_id c) as Hno.
      { intros c w args Hc Hk E. apply (wf_ids_inj m) in E as ->; [unfold Batch.is_wtc in Hw; by rewrite Hk in Hw|done|by apply (BatchSpec.loop_in m loop), children_in_walk|by apply (BatchSpec.loop_in m loop)]. }
      apply BatchSpec.placed_kept with (m := m); try done; [by apply (Hno unlock _ _ (proj2 (lk_in _ _ Hck)) Hau)|].
      rewrite list_elem_of_singleton. by apply (Hno lock _ _ (proj1 (lk_in _ _ Hck)) Hal).
    + intros o w a Ho Hk. destruct (Honly o w a) as [-> | ->]; [by apply children_in_walk|done|left|right].
      * rewrite Hal in Hk. injection Hk as <- <-. split; [|done]. apply (BatchSpec.placed_erased m Hwf loop Hin); try done. left.
      * rewrite Hau in Hk. injection Hk as <- <-. exists d, LockBatchStepOp, ad. rewrite Huo, Hdo. split; [by apply (BatchSpec.placed_replaced m)|done].
    + apply (lk_tame _ _ Hck).
    + by apply (BatchSpec.fresh_silent demangle m (Batch.next_id m + 1)); [lia|].
    + split.
      * intros (t0 & y & Ht0 & Hcase). pose proof (Hfalls _ _ Ht0) as ->. cbv zeta in Hcase. rewrite <-!app_assoc in Hcase.
        destruct Hcase as [(_ & -> & ->)|[(_ & _ & ? & _)|(? & _)]]; [|done..]. split; [done|]. by exists t0.
      * intros [-> (t0 & Ht0 & ->)]. exists t0, Fall. split; [done|]. left. split; [done|]. split; [done|]. cbv zeta. by rewrite <-!app_assoc.
Qed.
End locks.

(** ** What other threads may do meanwhile *)

(** A thread's calls of the mutex and its other operations, from its trace:
    each operation of the dialect by what the shim's function does. *)
Fixpoint calls (K : Z) (b : Mutex.batch) (t : list event) : list (Mutex.impl_call + nat) :=
  match t with
  | [] => []
  | EOp n :: t => inr n :: calls K b t
  | EFail _ _ :: t => calls K b t
  | EWtc w _ :: t =>
      let '(c, b') := match w with
        | LockOp => (Mutex.lock, b)
        | UnlockOp => (Mutex.unlock, b)
        | LockBatchBeginOp => Mutex.batch_begin b
        | LockBatchStepOp => Mutex.batch_step K b
        | LockBatchEndOp => (Mutex.batch_end b, b)
        | _ => ([], b)
        end in
      map inl c ++ calls K b' t
  end.

Section interleavings.
Context {A : Type}.

(** A step of the thread that runs the loop, or of another. *)
Inductive gstep := Ours (c : Mutex.impl_call + nat) | Theirs (c : Mutex.impl_call + A).
Inductive holder := Nobody | We | They.

#[local] Instance holder_eq_dec : EqDecision holder.
Proof. solve_decision. Defined.

(** The mutex along an interleaving: it is taken when nobody holds it, and
    let go by its holder. *)
Definition mutex_step (w : holder) (s : gstep) : option holder :=
  match s with
  | Ours (inl Mutex.ImplLock) => if decide (w = Nobody) then Some We else None
  | Ours (inl Mutex.ImplUnlock) => if decide (w = We) then Some Nobody else None
  | Theirs (inl Mutex.ImplLock) => if decide (w = Nobody) then Some They else None
  | Theirs (inl Mutex.ImplUnlock) => if decide (w = They) then Some Nobody else None
  | _ => Some w
  end.
Fixpoint allowed (w : holder) (g : list gstep) : option holder :=
  match g with
  | [] => Some w
  | s :: g => match mutex_step w s with Some w' => allowed w' g | None => None end
  end.

Definition ours (g : list gstep) : list (Mutex.impl_call + nat) := omap (λ s, match s with Ours c => Some c | _ => None end) g.
(** Everything that happens but our own calls of the mutex. *)
Definition effects (g : list gstep) : list gstep :=
  List.filter (λ s, match s with Ours (inl _) => false | _ => true end) g.

Lemma allowed_app w g g' : allowed w (g ++ g') = match allowed w g with Some w' => allowed w' g' | None => None end.
Proof. revert w. induction g as [|s g IH]; simpl; intros w; [done|]. destruct (mutex_step w s); [apply IH|done]. Qed.

Lemma ours_split g c cs : ours g = c :: cs → ∃ p g', g = p ++ Ours c :: g' ∧ ours p = [] ∧ ours g' = cs.
Proof.
  induction g as [|[c'|c'] g IH]; simpl; [done| |].
  - intros [= -> <-]. by exists [], g.
  - intros H. destruct (IH H) as (p & g' & -> & ? & ?). by exists (Theirs c' :: p), g'.
Qed.

Lemma ours_app g g' : ours (g ++ g') = ours g ++ ours g'.
Proof. induction g as [|[c|c] g IH]; simpl; [done| |]; by rewrite <-IH. Qed.

(** While we hold the mutex the others do nothing to it. *)
Lemma theirs_quiet g w : ours g = [] → allowed We g = Some w → w = We ∧ ∀ w', allowed w' g = Some w'.
Proof.
  induction g as [|[c|c] g IH]; simpl; [intros _ [= <-]; done|done|]. intros Ho Hw. destruct c as [[]|a]; simpl in *; try done. by apply IH.
Qed.

(** Where a batched run is: the rest of its trace, the sections since the
    mutex was last let go. *)
Definition rest_calls (K : Z) (slot mutex : value) (n : Z) (t : list event) : list (Mutex.impl_call + nat) :=
  calls K (Mutex.Batch n) (flat_map (stepped slot) t ++ [EWtc LockBatchEndOp [mutex; slot]]).

Lemma ours_cons c g : ours (Ours c :: g) = c :: ours g.
Proof. done. Qed.
Lemma effects_call c g : effects (Ours (inl c) :: g) = effects g.
Proof. done. Qed.
Lemma effects_other i g : effects (Ours (inr i) :: g) = Ours (inr i) :: effects g.
Proof. done. Qed.
Lemma effects_app g g' : effects (g ++ g') = effects g ++ effects g'.
Proof. apply List.filter_app. Qed.

(** The others' steps before our next one, which may find the mutex in
    another's hands, and ours. *)
Lemma take_next w w' c g p : ours p = [] → allowed w (p ++ Ours c :: g) = Some w' →
  ∃ v v', allowed w p = Some v ∧ mutex_step v (Ours c) = Some v' ∧ allowed v' g = Some w'.
Proof.
  intros _ H. rewrite allowed_app in H. destruct (allowed w p) as [v|]; [|done]. cbn [allowed] in H. destruct (mutex_step v (Ours c)) as [v'|] eqn:E; [|done]. eauto.
Qed.

Section K.
Context (K : Z) (HK : (1 ≤ K < 2 ^ 32)%Z) (slot mutex : value) (on : list value → bool).

Lemma interleave t : Forall of_section t → ∀ h n w' g' b, held_after on h t = Some false → (0 ≤ n < K)%Z →
  ours g' = rest_calls K slot mutex n t → allowed We g' = Some w' →
  ∃ g, allowed (if h then We else Nobody) g = Some w' ∧ ours g = calls K b t ∧ effects g = effects g'.
Proof.
  induction 1 as [|e t He Ht IH]; intros h n w' g' b Hh Hn Ho Hal.
  - injection Hh as ->. unfold rest_calls in Ho. simpl in Ho. apply ours_split in Ho as (p & g & -> & Hp & Hg).
    destruct (take_next _ _ _ _ _ Hp Hal) as (v & v' & Hv & Hs & Hg'). destruct (theirs_quiet _ _ Hp Hv) as [-> Hq]. injection Hs as <-.
    exists (p ++ g). rewrite allowed_app, (Hq Nobody), ours_app, Hp, Hg, !effects_app. done.
  - destruct e as [i|[] args|]; try done.
    + (* another operation *)
      unfold rest_calls in Ho. simpl in Ho. apply ours_split in Ho as (p & g & -> & Hp & Hg).
      destruct (take_next _ _ _ _ _ Hp Hal) as (v & v' & Hv & Hs & Hg'). destruct (theirs_quiet _ _ Hp Hv) as [-> Hq]. injection Hs as <-.
      destruct (IH h n w' g b Hh Hn Hg Hg') as (g0 & H1 & H2 & H3). exists (p ++ Ours (inr i) :: g0).
      rewrite allowed_app, Hq, ours_app, Hp, !effects_app. rewrite ours_cons, effects_other, H2, H3. split; [by destruct h|done].
    + (* a lock: taken, and already held by the batch *)
      simpl in Hh. destruct h; [done|]. destruct (on args); [|done]. destruct (IH true n w' g' b Hh Hn Ho Hal) as (g0 & H1 & H2 & H3).
      exists (Ours (inl Mutex.ImplLock) :: g0). by rewrite ours_cons, effects_call, H2.
    + (* an unlock: a step *)
      destruct args as [|q args]; [done|]. simpl in Hh. destruct h; [|done]. destruct (on (q :: args)); [|done]. unfold rest_calls in Ho. cbn in Ho. unfold Mutex.batch_step in Ho. cbn [Mutex.sections] in Ho.
      rewrite u32_small in Ho by lia. destruct (Z.ltb_spec (n + 1) K) as [Hlt|Hge]; cbn [map app] in Ho.
      * destruct (IH false (n + 1)%Z w' g' b Hh ltac:(lia) Ho Hal) as (g0 & H1 & H2 & H3). exists (Ours (inl Mutex.ImplUnlock) :: g0). by rewrite ours_cons, effects_call, H2.
      * apply ours_split in Ho as (p & g1 & -> & Hp & Hg1). destruct (take_next _ _ _ _ _ Hp Hal) as (v & v' & Hv & Hs & Hal1).
        destruct (theirs_quiet _ _ Hp Hv) as [-> Hq]. injection Hs as <-.
        apply ours_split in Hg1 as (p2 & g2 & -> & Hp2 & Hg2). destruct (take_next _ _ _ _ _ Hp2 Hal1) as (v & v' & Hv2 & Hs2 & Hal2).
        cbn in Hs2. destruct (decide (v = Nobody)) as [->|]; [|done]. injection Hs2 as <-.
        destruct (IH false 0%Z w' g2 b Hh ltac:(lia) Hg2 Hal2) as (g0 & H1 & H2 & H3).
        exists (p ++ Ours (inl Mutex.ImplUnlock) :: p2 ++ g0). rewrite allowed_app, Hq, ours_app, Hp, ours_cons, ours_app, Hp2, H2.
        rewrite effects_app, effects_call, effects_app, H3, effects_app, effects_call, effects_app, effects_call. split; [|done].
        cbn [allowed mutex_step]. rewrite decide_True by done. by rewrite allowed_app, Hv2.
Qed.

(** C38: Every interleaving of the batched critical sections is one the
    original allows, for a trace that takes and lets go of one mutex in turn,
    whichever operands name it ([locks_batched] gives such traces).
    Whatever the other threads do between the calls of
    the mutex and the other operations of a batched run, in any order the
    mutex permits, they can do between those of the original loop: with the
    same effects in the same order, the original run takes and lets go of
    the mutex around each section, and leaves it to the same holder. *)
Theorem batch_interleavings t w w' g' b :
  Forall of_section t → held_after on false t = Some false →
  allowed w g' = Some w' → ours g' = calls K b (EWtc LockBatchBeginOp [mutex; slot] :: flat_map (stepped slot) t ++ [EWtc LockBatchEndOp [mutex; slot]]) →
  ∃ g, allowed w g = Some w' ∧ ours g = calls K b t ∧ effects g = effects g'.
Proof.
  intros Ht Hh Hal Ho. cbn in Ho. apply ours_split in Ho as (p & g & -> & Hp & Hg).
  destruct (take_next _ _ _ _ _ Hp Hal) as (v & v' & Hv & Hs & Hg'). cbn in Hs. destruct (decide (v = Nobody)) as [->|]; [|done]. injection Hs as <-.
  destruct (interleave t Ht false 0%Z w' g b Hh ltac:(lia) Hg Hg') as (g0 & H1 & H2 & H3).
  exists (p ++ g0). by rewrite allowed_app, Hv, ours_app, Hp, !effects_app, effects_call, H1, H2, H3.
Qed.
End K.
End interleavings.

(** ** A worker's loop *)

Section example.
Definition lb_ptr : ty := PtrTy (RecordTy "mutex").
Definition lb_op (i : nat) (w : wtc_op) (impl : string) : operation :=
  Op i (wtc_name w) "" (KWtc w (WtcAttrs (Some impl) (Some lb_ptr) None None None None)) [VArg 1 0] [] [] [].
(** [for (;;) { m->lock(); v++; m->unlock(); if (..) break; }] *)
Definition lb_loop : operation :=
  Op 20 "cir.for" "" KFor [] [] []
    [[Block 2 [] [Op 21 "cir.condition" "" KCondition [] [] [] []]];
     [Block 3 [] [lb_op 22 LockOp "lock"; Op 23 "cir.load" "" (KLoad false) [VArg 1 1] [IntTy 32 true] [] [];
       lb_op 24 UnlockOp "unlock"; Op 25 "cir.if" "" KIf [VRes 23 0] [] [] [[Block 5 [] [Op 26 "cir.break" "" KOther [] [] [] []]]]]];
     [Block 4 [] []]].
Definition lb_module : module :=
  [BatchSpec.bp_decl 1 "lock" "wtc_mutex_lock" [lb_ptr];
   BatchSpec.bp_decl 2 "unlock" "wtc_mutex_unlock" [lb_ptr];
   BatchSpec.bp_decl 3 "begin" "wtc_mutex_batch_begin" [lb_ptr; PtrTy (RecordTy "batch")];
   BatchSpec.bp_decl 4 "step" "wtc_mutex_batch_step" [lb_ptr; PtrTy (RecordTy "batch")];
   BatchSpec.bp_decl 5 "end" "wtc_mutex_batch_end" [lb_ptr; PtrTy (RecordTy "batch")];
   Op 10 "cir.func" "" (KFunc (Func "worker" false false None (Some [Annotation "wtc_batch"]) None 2)) [] [] []
     [[Block 1 [lb_ptr; PtrTy (IntTy 32 true)] [lb_loop; Op 30 "cir.return" "" KReturn [] [] [] []]]]].
Definition lb_options (c h : string) : Batch.options := Batch.Options c h 0 0.

(** With the cost off the loop is batched; an unknown host is an error. *)
Example batched_sections :
  ∃ m', Batch.batch_locks BatchSpec.bp_demangle BatchSpec.bp_parameters (λ _, 8%Z) (λ _, None) (lb_options "off" "cascade-lake") lb_module = Some ([], m', false) ∧
    map op_name (filter Batch.is_wtc (walk_module m')) = ["wtc.lock_batch_begin"; "wtc.lock_batch_step"; "wtc.lock_batch_end"] ∧
    Batch.batch_locks BatchSpec.bp_demangle BatchSpec.bp_parameters (λ _, 8%Z) (λ _, None) (lb_options "off" "z80") lb_module = Some ([], lb_module, true).
Proof. eexists. split; [vm_compute; reflexivity|split; vm_compute; reflexivity]. Qed.

Lemma locks_batched_witness :
  ∃ m', Batch.rewrite_locks BatchSpec.bp_parameters lb_module lb_loop (lb_op 22 LockOp "lock") (lb_op 24 UnlockOp "unlock") = Batch.Changed m' ∧
    ∀ t x, runs (BatchSpec.raises BatchSpec.bp_demangle lb_module) (IOp lb_loop) t x → x = Fall ∧ held_after (names lb_module (VArg 1 0)) false t = Some false ∧ Forall of_section t.
Proof.
  eexists. split; [vm_compute; reflexivity|].
  destruct (locks_batched BatchSpec.bp_demangle BatchSpec.bp_parameters lb_module ltac:(by vm_compute) ltac:(by vm_compute) lb_loop eq_refl)
    with (q := query0) (lock := lb_op 22 LockOp "lock") (unlock := lb_op 24 UnlockOp "unlock")
      (q' := match Batch.check_locks BatchSpec.bp_demangle lb_module lb_loop (Batch.wtc_ops lb_loop) query0 with Some (_, q) => q | None => query0 end)
      (m' := match Batch.rewrite_locks BatchSpec.bp_parameters lb_module lb_loop (lb_op 22 LockOp "lock") (lb_op 24 UnlockOp "unlock") with Batch.Changed m' => m' | _ => [] end)
    as (_ & mutex & rest & Hlock & H & _); [|by constructor| | |injection Hlock as <- <-; exact H].
  - vm_compute. repeat first [left|right].
  - vm_compute. reflexivity.
  - vm_compute. reflexivity.
Defined.

(** Two sections batched one at a time: another thread's, let in by the
    step between them, is between them too in the original. *)
Lemma batch_interleavings_witness :
  let lock := EWtc LockOp [VArg 1 0] in let unlock := EWtc UnlockOp [VArg 1 0] in
  ∃ g, allowed Nobody g = Some Nobody ∧ ours g = calls 1 (Mutex.Batch 0) [lock; EOp 23; unlock; lock; EOp 23; unlock] ∧
    effects g = [Ours (inr 23%nat); Theirs (inl Mutex.ImplLock); Theirs (inr tt); Theirs (inl Mutex.ImplUnlock); Ours (inr 23%nat)].
Proof.
  exact (batch_interleavings (A := unit) 1 ltac:(lia) (VRes 1 0) (VArg 1 0) (names lb_module (VArg 1 0))
    [EWtc LockOp [VArg 1 0]; EOp 23; EWtc UnlockOp [VArg 1 0]; EWtc LockOp [VArg 1 0]; EOp 23; EWtc UnlockOp [VArg 1 0]] Nobody Nobody
    [Ours (inl Mutex.ImplLock); Ours (inr 23%nat); Ours (inl Mutex.ImplUnlock); Theirs (inl Mutex.ImplLock); Theirs (inr tt); Theirs (inl Mutex.ImplUnlock);
     Ours (inl Mutex.ImplLock); Ours (inr 23%nat); Ours (inl Mutex.ImplUnlock); Ours (inl Mutex.ImplLock); Ours (inl Mutex.ImplUnlock)] (Mutex.Batch 0)
    ltac:(repeat constructor) eq_refl ltac:(vm_compute; reflexivity) ltac:(vm_compute; reflexivity)).
Defined.
End example.
End LockBatchSpec.
