(* ===== verification/Borrow.v ===== *)
(** * Borrow: does the consumer only borrow what it pops?
      (mlir/lib/WTC/Transforms/WTCBorrowAnalysis.cpp)

    For each pop of a queue: the shared_ptr it fills is used only by members
    that neither copy nor share it; a pointer into the element is only read
    and written through, stepped, compared, kept in a private slot, pushed
    on, or passed to functions that treat it the same way ([checkPointer],
    with a memo over parameters); and nothing in the shared_ptr's scope pops
    the same queue ([checkScope], with a memo over functions).

    The recursions carry fuel and answer nothing when it runs out: the code
    has no bound on [checkPointer], and BorrowSpec.v shows it needs one.
    The demangler is a parameter. *)

From stdpp Require Import base tactics list strings gmap.
From Stdlib Require Import String Ascii ZArith Lia.
From S2P Require Import Prelude Text Cir WtcOps Utils Slots Loops LibraryQueue Specialize.
Local Open Scope string_scope.
Local Open Scope list_scope.

Inductive shared_ptr_member := SPNone | SPBool | SPGet | SPDeref | SPArrow | SPDtor | SPCompareNull.

#[export] Instance shared_ptr_member_eq_dec : EqDecision shared_ptr_member.
Proof. solve_decision. Defined.

(** [std::string::resize] at the first [c], if there is one. *)
Fixpoint cut_at (c : ascii) (s : string) : string :=
  match s with
  | EmptyString => EmptyString
  | String a s' => if Ascii.eqb a c then EmptyString else String a (cut_at c s')
  end.

Record refusal := Refusal { ref_at : option operation; ref_why : string }.

(** The memos of the checker: by function and parameter, and by function. *)
Abbreviation param_memo := (gmap (nat * nat) bool).
Abbreviation pop_memo := (gmap nat bool).

Definition kQueueIdsAttrName : string := "wtc.queue_ids".

Section borrow.
Variable m : module.
Variable partialDemangle : string → option demangled.
Variable demangle : string → string.

Definition classifySharedPtrCall (f : option operation) : shared_ptr_member :=
  match f with
  | None => SPNone
  | Some f =>
      match partialDemangle (name_of_func f) with
      | None => SPNone
      | Some d =>
          let ctx := cut_at "<" (default "" (dm_context d)) in
          let base0 := cut_at "[" (default "" (dm_base d)) in
          let base := if starts_with base0 "operator" then base0 else cut_at "<" base0 in
          let params := default "" (dm_params d) in
          if in_set ["std::shared_ptr"; "std::__1::shared_ptr"; "std::__shared_ptr"; "std::__shared_ptr_access"] ctx then
            if dm_ctor_or_dtor d && starts_with base "~" then SPDtor
            else if String.eqb base "operator bool" then SPBool
            else if String.eqb base "get" then SPGet
            else if String.eqb base "operator*" then SPDeref
            else if String.eqb base "operator->" then SPArrow
            else SPNone
          else if in_set ["std"; "std::__1"] ctx && in_set ["operator=="; "operator!="] base
                  && contains params "shared_ptr"
                  && (contains params "decltype(nullptr)" || contains params "nullptr_t")
          then SPCompareNull
          else SPNone
      end
  end.

Definition calleeName (call : operation) : string :=
  match lookupCallee m call with Some f => demangle (name_of_func f) | None => "an indirect callee" end.

(** ** May a call pop the queue? *)

Section one_queue.
Variable curId : Z.
Variable curType : option ty.

Definition popsSameQueue (o : operation) (a : wtc_attrs) : bool :=
  match queue_id a with
  | Some id => (id =? curId)%Z
  | None =>
      match get_attr (op_attrs o) kQueueIdsAttrName with
      | Some (AInts ids) => bool_decide (curId ∈ ids)
      | _ =>
          match queue_type m o with
          | Some (QueueTy t) => bool_decide (Some t = curType)
          | _ => true
          end
      end
  end.


(** Every target is asked, whatever the others answer. *)
Fixpoint any_target (mayPop : operation → pop_memo → option (bool * pop_memo)) (ts : list operation)
    (s : pop_memo) : option (bool * pop_memo) :=
  match ts with
  | [] => Some (false, s)
  | t :: ts' =>
      '(a, s1) ← mayPop t s;
      '(b, s2) ← any_target mayPop ts' s1;
      Some (a || b, s2)
  end.

(** A call: its callee, or everything an indirect one may reach. *)
Definition call_pops (mayPop : operation → pop_memo → option (bool * pop_memo)) (call : operation)
    (s : pop_memo) : option (bool * pop_memo) :=
  match lookupCallee m call with
  | Some f => mayPop f s
  | None =>
      match indirectCallees m call with
      | [] => Some (true, s)
      | ts => any_target mayPop ts s
      end
  end.

(** The walk of a body, interrupted at the first pop. *)
Fixpoint walk_pops (mayPop : operation → pop_memo → option (bool * pop_memo)) (l : list operation)
    (s : pop_memo) : option (bool * pop_memo) :=
  match l with
  | [] => Some (false, s)
  | o :: l' =>
      '(r, s1) ← match op_kind o with
        | KWtc (QueuePopOp _ _ _ _ _) a => Some (popsSameQueue o a, s)
        | KCall _ => call_pops mayPop o s
        | _ => Some (false, s)
        end;
      if (r : bool) then Some (true, s1) else walk_pops mayPop l' s1
  end.

Fixpoint mayPop (fuel : nat) (f : operation) (s : pop_memo) : option (bool * pop_memo) :=
  match fuel with
  | O => None
  | S n =>
      if body_empty f then Some (false, s) else
      match s !! op_id f with
      | Some r => Some (r, s)
      | None =>
          '(r, s1) ← walk_pops (mayPop n) (walk f) (<[op_id f := false]> s);
          Some (r, <[op_id f := r]> s1)
      end
  end.

(** [checkScope]: the walk of the slot's region. *)
Fixpoint scope_walk (fuel : nat) (pop : operation) (l : list operation) (s : pop_memo)
    : option (option refusal * pop_memo) :=
  match l with
  | [] => Some (None, s)
  | o :: l' =>
      match op_kind o with
      | KWtc (QueuePopOp _ _ _ _ _) a =>
          if negb (op_id o =? op_id pop)%nat && popsSameQueue o a
          then Some (Some (Refusal (Some o) "the same queue is popped again while the element is borrowed"), s)
          else scope_walk fuel pop l' s
      | KCall _ =>
          if match lookupCallee m o with
             | Some f => negb (bool_decide (classifySharedPtrCall (Some f) = SPNone))
             | None => false
             end
          then scope_walk fuel pop l' s
          else
            '(may, s1) ← call_pops (mayPop fuel) o s;
            if (may : bool)
            then Some (Some (Refusal (Some o) ("a call to " ++ calleeName o ++
                               " may pop the same queue while the element is borrowed")%string), s1)
            else scope_walk fuel pop l' s1
      | _ => scope_walk fuel pop l' s
      end
  end.
End one_queue.

(** ** Where a pointer into the element goes *)


(** The result of a check: a refusal, or none; nothing when out of fuel. *)
Definition checked : Type := option (option refusal * param_memo).

(** One check after another, up to the first refusal. *)
Fixpoint check_all {A} (f : A → param_memo → checked) (l : list A) (s : param_memo) : checked :=
  match l with
  | [] => Some (None, s)
  | x :: l' =>
      '(r, s1) ← f x s;
      match r : option refusal with Some w => Some (Some w, s1) | None => check_all f l' s1 end
  end.

Definition refuse (o : operation) (why : string) (s : param_memo) : checked := Some (Some (Refusal (Some o) why), s).
Definition fine (s : param_memo) : checked := Some (None, s).

Definition is_alloca_value (v : option value) : option operation :=
  match v with
  | Some v => match defining_op m v with Some d => if is_alloca d then Some d else None | None => None end
  | None => None
  end.

(** The loads directly from a slot. *)
Definition slot_loads (slot : operation) : list operation := List.filter is_load (users m (result slot)).

(** [getValue] of a push. *)
Definition pushed_value (w : wtc_op) (o : operation) : option value :=
  match w with
  | QueuePushOp _ _ _ _ => operands o !! 1%nat
  | QueuePushDeferredOp => operands o !! 2%nat
  | _ => None
  end.

(** One use of a pointer into the element; [go] follows another value at
    the same depth, [param] asks about a parameter. *)
Definition check_use (go : value → param_memo → checked)
    (param : operation → nat → param_memo → option (bool * param_memo)) (p : value)
    (use : operation * nat) (s : param_memo) : checked :=
  let '(user, idx) := use in
  match op_kind user with
  | KLoad _ | KCmp _ | KCopy => fine s
  | KStore =>
      if negb (bool_decide (store_value user = Some p)) then fine s
      else match is_alloca_value (store_addr user) with
      | Some slot =>
          if addressEscapes m slot
          then refuse user "a pointer into the element is stored where it may outlive the borrow" s
          else check_all (λ ld, go (result ld)) (slot_loads slot) s
      | None => refuse user "a pointer into the element is stored where it may outlive the borrow" s
      end
  | KGetMember => go (result user) s
  | KGetElement =>
      if negb (idx =? 0)%nat then refuse user "a pointer into the element is used as an index" s
      else go (result user) s
  | KPtrStride =>
      if negb (idx =? 0)%nat then refuse user "a pointer into the element is used as a stride" s
      else go (result user) s
  | KCast Cbitcast | KCast Carray_to_ptrdecay => go (result user) s
  | KCast Cptr_to_bool => fine s
  | KCast _ => refuse user "a pointer into the element is converted to an integer" s
  | KCall _ =>
      match lookupCallee m user with
      | None => refuse user "a pointer into the element is passed to an indirect call" s
      | Some callee =>
          if body_empty callee
          then refuse user ("a pointer into the element is passed to " ++ calleeName user ++
                            ", whose body is not visible here")%string s
          else
            '(ok, s1) ← param callee idx s;
            if (ok : bool) then fine s1
            else refuse user ("a pointer into the element is passed to " ++ calleeName user ++
                              ", which keeps it or passes it on")%string s1
      end
  | KWtc w _ =>
      if bool_decide (pushed_value w user = Some p) then fine s
      else refuse user ("a pointer into the element is used by " ++ op_name user)%string s
  | KReturn => refuse user "a pointer into the element is returned" s
  | _ => refuse user ("a pointer into the element is used by " ++ op_name user)%string s
  end.

Definition kFollow : nat := 8.

(** [checkPointer] and [paramOnlyBorrows], which call each other. *)
Fixpoint checkPointer (fuel : nat) (p : value) (depth : nat) (s : param_memo) : checked :=
  match fuel with
  | O => None
  | S n =>
      if (kFollow <? depth)%nat
      then Some (Some (Refusal (match defining_op m p with
                                | Some d => Some d
                                | None => match p with
                                          | VArg b _ => option_map fst (block_owner m b)
                                          | VRes _ _ => None
                                          end
                                end)
                         "a pointer into the element is followed through too many calls"), s)
      else
        let param (f : operation) (idx : nat) (s : param_memo) : option (bool * param_memo) :=
          match s !! (op_id f, idx) with
          | Some r => Some (r, s)
          | None =>
              match body f with
              | [] => None   (* a callee with a body has an entry block *)
              | entry :: _ =>
                  let s1 := <[(op_id f, idx) := true]> s in
                  if (idx <? List.length (block_args entry))%nat then
                    '(r, s2) ← checkPointer n (VArg (block_id entry) idx) (S depth) s1;
                    let ok := negb (is_some r) in
                    Some (ok, <[(op_id f, idx) := ok]> s2)
                  else Some (false, <[(op_id f, idx) := false]> s1)
              end
          end in
        check_all (check_use (λ v, checkPointer n v depth) param p) (uses m p) s
  end.

(** ** The shared_ptr's slot *)

Fixpoint checkSlotUses (fuel : nat) (v : value) (pop : operation) (s : param_memo) : checked :=
  match fuel with
  | O => None
  | S n =>
      check_all (λ use s,
        let user := fst use in
        if (op_id user =? op_id pop)%nat then fine s
        else match op_kind user with
        | KLifetimeStart | KLifetimeEnd => fine s
        | KBaseClassAddr | KCast Cbitcast => checkSlotUses n (result user) pop s
        | KCall _ =>
            match classifySharedPtrCall (lookupCallee m user) with
            | SPBool | SPDtor | SPCompareNull => fine s
            | SPGet | SPDeref | SPArrow =>
                if negb (List.length (result_types user) =? 1)%nat
                then refuse user "an access to the element returns nothing to follow" s
                else checkPointer n (result user) 0 s
            | SPNone => refuse user ("the popped shared_ptr is passed to " ++ calleeName user)%string s
            end
        | _ => refuse user ("the popped shared_ptr is used by " ++ op_name user)%string s
        end) (uses m v) s
  end.

(** The operations of the region a slot is in, as [Region::walk] meets
    them. *)
Definition slot_region (slot : operation) : option (operation * nat) :=
  match last (frames_of m (op_id slot)) with Some fr => Some (fr_op fr, fr_region fr) | None => None end.
Definition region_walk (o : operation) (k : nat) : list operation :=
  match regions o !! k with Some r => flat_map walk (concat (map block_ops r)) | None => [] end.

Definition pop_is_transfer (pop : operation) : bool :=
  match op_kind pop with KWtc (QueuePopOp _ transfer _ _ _) _ => transfer | _ => false end.

Definition checkPop (fuel : nat) (pop : operation) (id : Z) (queueType : option ty) (s : param_memo) : checked :=
  if pop_is_transfer pop then fine s else
  match getOut pop with
  | None => refuse pop "the popped value is not returned through a slot" s
  | Some out =>
      match is_alloca_value (Some out) with
      | None => refuse pop "the popped value is written somewhere other than a local slot" s
      | Some slot =>
          match slot_region slot with
          | None => refuse pop "the pop is outside the scope of its slot" s
          | Some (o, k) =>
              if negb (region_holds m o k (op_id pop)) then refuse pop "the pop is outside the scope of its slot" s
              else
                '(r, s1) ← checkSlotUses fuel (result slot) pop s;
                match r : option refusal with
                | Some w => Some (Some w, s1)
                | None =>
                    '(r', _) ← scope_walk id queueType fuel pop (region_walk o k) ∅;
                    Some (r', s1)
                end
          end
      end
  end.

(** ** The pass *)

Definition is_pop (o : operation) : bool :=
  match op_kind o with KWtc (QueuePopOp _ _ _ _ _) _ => true | _ => false end.
Definition wtc_attrs_of (o : operation) : option wtc_attrs :=
  match op_kind o with KWtc _ a => Some a | _ => None end.

(** The queues a pop is recorded to act on. *)
Definition pop_ids (o : operation) : list Z :=
  match wtc_attrs_of o with
  | Some a =>
      match queue_id a with
      | Some id => [id]
      | None => match get_attr (op_attrs o) kQueueIdsAttrName with Some (AInts ids) => ids | _ => [] end
      end
  | None => []
  end.
Definition pops_of (id : Z) : list operation :=
  flat_map (λ o, if is_pop o then map (λ _, o) (List.filter (Z.eqb id) (pop_ids o)) else []) (walk_module m).

(** A pop that names no queue, with the type of queue it acts on. *)
Definition anonymous_pop_types : list ty :=
  flat_map (λ o,
    if is_pop o then
      match wtc_attrs_of o, get_attr (op_attrs o) kQueueIdsAttrName with
      | Some a, ids =>
          match queue_id a, ids with
          | None, Some (AInts _) | Some _, _ => []
          | None, _ => match queue_type m o with Some (QueueTy t) => [t] | _ => [] end
          end
      | None, _ => []
      end
    else []) (walk_module m).

Definition queue_type_of_root (root : operation) : option ty :=
  match op_kind root with
  | KGlobal g => Some (global_type g)
  | KAlloca => match result_types root with PtrTy t :: _ => Some t | _ => None end
  | _ => match operands root with
         | v :: _ => match type_of m v with Some (PtrTy t) => Some t | _ => None end
         | [] => None
         end
  end.

Inductive verdict := NotAsked | NotBorrowed (why : string) (at_ : option operation) | Borrowed (pops : list operation).

Definition borrow_root (fuel : nat) (root : operation) (s : param_memo) : option (verdict * param_memo) :=
  if negb (is_root root) then Some (NotAsked, s) else
  match attr_int root kQueueIdAttrName, attr_topology root with
  | Some id, Some _ =>
      if negb (spscWhenLoopsRunOnce root) then Some (NotAsked, s) else
      let queueType := queue_type_of_root root in
      if match queueType with Some t => bool_decide (t ∈ anonymous_pop_types) | None => false end
      then Some (NotBorrowed "a pop of its type that the analysis could not place was not checked" None, s)
      else match pops_of id with
      | [] => Some (NotBorrowed "nothing pops it" None, s)
      | pops =>
          '(r, s1) ← check_all (λ pop, checkPop fuel pop id queueType) pops s;
          Some (match r with
                | Some w => NotBorrowed (ref_why w) (ref_at w)
                | None => Borrowed pops
                end, s1)
      end
  | _, _ => Some (NotAsked, s)
  end.

(** The walk of the module: one checker, so one parameter memo, for all. *)
Fixpoint borrow_roots (fuel : nat) (l : list operation) (s : param_memo)
    : option (list (operation * verdict) * param_memo) :=
  match l with
  | [] => Some ([], s)
  | root :: l' =>
      '(v, s1) ← borrow_root fuel root s;
      '(vs, s2) ← borrow_roots fuel l' s1;
      Some ((root, v) :: vs, s2)
  end.

Definition borrow_pass (fuel : nat) : option (list (operation * verdict)) :=
  '(vs, _) ← borrow_roots fuel (walk_module m) ∅; Some vs.

(** What the pass writes: the root's attribute and each pop's flag. *)
Definition set_borrowed (k : kind) : kind :=
  match k with
  | KWtc (QueuePopOp _ transfer wait bounded batch) a => KWtc (QueuePopOp true transfer wait bounded batch) a
  | k => k
  end.
Definition mark (vs : list (operation * verdict)) (o : operation) : kind * list (string * attr) :=
  (if existsb (λ p, match snd p with
                    | Borrowed pops => existsb (λ q, op_id q =? op_id o)%nat pops
                    | _ => false
                    end) vs
   then set_borrowed (op_kind o) else op_kind o,
   if existsb (λ p, match snd p with Borrowed _ => (op_id (fst p) =? op_id o)%nat | _ => false end) vs
   then set_attr (op_attrs o) kBorrowedAttrName AUnit else op_attrs o).

Definition borrow_run (fuel : nat) : option module :=
  vs ← borrow_pass fuel; Some (map_module (mark vs) m).
End borrow.
