(* ===== verification/BorrowSpec.v ===== *)
(** * BorrowSpec: what a borrowed pop promises

    [into m p]: the values that may point into the element [p] points into,
    through members, elements, strides, casts, private slots and the
    parameters of the functions it is passed to, over any chain of calls.
    [reaches_pop]: an operation that may pop the queue, by itself or through
    any chain of calls.

    [borrow_sound]: when a pop is accepted by a checker whose memo is right,
    no value that may point into the element is used in any way that keeps
    it, and nothing in the shared_ptr's scope but its own members reaches
    another pop of the queue; provided that the slots the pointer is kept in
    are read back at their own address only ([elements_read_whole];
    [cast_slot_accepts] is a module where one is not, and the element is
    kept).  The heart is the optimism of the two memos: a parameter (a
    function) being checked is taken to be fine when it is met again, and
    this is right because any refusal anywhere ends the whole check.

    What the memo says after a refusal is another matter:
    [stale_memo_accepts] is a module in which a refused pop leaves an entry
    that makes the checker accept a pop whose element is stored in a global.
    And [pointer_loop_diverges]: stepping a pointer into the element in a
    loop makes the check recurse for ever. *)

From stdpp Require Import base tactics list strings gmap relations.
From Stdlib Require Import String Ascii ZArith Lia.
From S2P Require Import Prelude Text Cir WtcOps Utils Slots Loops LibraryQueue Specialize Borrow.
Local Open Scope string_scope.
Local Open Scope list_scope.

(** ** Where a pointer goes *)

Section flow.
Variable m : module.

(** A use that hands the pointer on as its result. *)
Definition steps_on (o : operation) (i : nat) : bool :=
  match op_kind o with
  | KGetMember | KCast Cbitcast | KCast Carray_to_ptrdecay => true
  | KGetElement | KPtrStride => (i =? 0)%nat
  | _ => false
  end.

Inductive flows (v : value) : value → Prop :=
| flow_step o i : (o, i) ∈ uses m v → steps_on o i = true → flows v (result o)
| flow_slot o i slot ld :
    (o, i) ∈ uses m v → op_kind o = KStore → store_value o = Some v →
    is_alloca_value m (store_addr o) = Some slot → ld ∈ slot_loads m slot → flows v (result ld).

(** What the code follows: a pointer kept in a private slot is followed to
    the loads of the slot's own address. *)
Inductive followed (p : value) : value → Prop :=
| followed_self : followed p p
| followed_flow v w : followed p v → flows v w → followed p w
| followed_param v o i c f entry rest :
    followed p v → (o, i) ∈ uses m v → op_kind o = KCall c → lookupCallee m o = Some f →
    body f = entry :: rest → followed p (VArg (block_id entry) i).

(** Where the pointer goes: kept in a slot, it may be read back at any
    address computed from the slot's. *)
Inductive into (p : value) : value → Prop :=
| into_self : into p p
| into_step v o i : into p v → (o, i) ∈ uses m v → steps_on o i = true → into p (result o)
| into_slot v o i slot a ld :
    into p v → (o, i) ∈ uses m v → op_kind o = KStore → store_value o = Some v →
    is_alloca_value m (store_addr o) = Some slot → derived m (result slot) a → ld ∈ users m a → is_load ld = true →
    into p (result ld)
| into_param v o i c f entry rest :
    into p v → (o, i) ∈ uses m v → op_kind o = KCall c → lookupCallee m o = Some f →
    body f = entry :: rest → into p (VArg (block_id entry) i).

(** The slots the pointer is kept in are read back by loads of their own
    address only, as the code takes for granted. *)
Definition slots_read_whole (p : value) : Prop := ∀ v o i slot a ld,
  into p v → (o, i) ∈ uses m v → op_kind o = KStore → store_value o = Some v →
  is_alloca_value m (store_addr o) = Some slot → derived m (result slot) a → ld ∈ users m a → is_load ld = true →
  ld ∈ slot_loads m slot.

Lemma into_followed p w : slots_read_whole p → into p w → followed p w.
Proof.
  intros Hs. induction 1 as [|v o i Hv IH Ho Hst|v o i slot a ld Hv IH Ho Hk Hst Ha Hd Hl Hld|v o i c f entry rest Hv IH Ho Hk Hf Hb].
  - constructor.
  - eapply followed_flow; [exact IH|]. by eapply flow_step.
  - eapply followed_flow; [exact IH|]. eapply flow_slot; [done..|]. by eapply (Hs v o i slot a ld).
  - by eapply followed_param.
Qed.

(** It holds where no address is computed from a slot a pointer is kept
    in. *)
Definition plain_slot (slot : operation) : bool := forallb (λ u, negb (derives u)) (users m (result slot)).
Definition slots_plain : bool :=
  forallb (λ o, match (if is_store o then is_alloca_value m (store_addr o) else None) with Some slot => plain_slot slot | None => true end) (walk_module m).

Lemma plain_read_whole p : slots_plain = true → slots_read_whole p.
Proof.
  unfold slots_plain. rewrite forallb_forall. intros Hp v o i slot a ld _ Ho Hk _ Ha Hd Hl Hld. apply elem_of_uses in Ho as [Ho _].
  specialize (Hp o (proj1 (list_elem_of_In _ _) Ho)). unfold is_store in Hp. rewrite Hk, Ha in Hp. unfold plain_slot in Hp. rewrite forallb_forall in Hp.
  assert (a = result slot) as ->.
  { clear Hl. induction Hd as [|w u _ -> Hu Hder]; [done|]. specialize (Hp u (proj1 (list_elem_of_In _ _) Hu)). by rewrite Hder in Hp. }
  unfold slot_loads. apply list_elem_of_In, filter_In. split; [by apply list_elem_of_In|done].
Qed.

(** A use that keeps nothing of the pointer beyond what [into] follows. *)
Definition harmless (v : value) (o : operation) (i : nat) : Prop :=
  match op_kind o with
  | KLoad _ | KCmp _ | KCopy | KGetMember => True
  | KStore => store_value o = Some v →
      ∃ slot, is_alloca_value m (store_addr o) = Some slot ∧ addressEscapes m slot = false
  | KGetElement | KPtrStride => i = 0%nat
  | KCast Cbitcast | KCast Carray_to_ptrdecay | KCast Cptr_to_bool => True
  | KCall _ => ∃ f, lookupCallee m o = Some f ∧ body_empty f = false
  | KWtc w _ => pushed_value w o = Some v
  | _ => False
  end.

(** The uses of a value and of all that flows from it, calls aside, are
    harmless, and the parameters it is passed as are in the memo. *)
Definition closed_at (v : value) (s : param_memo) : Prop :=
  ∀ w o i, rtc flows v w → (o, i) ∈ uses m w →
    harmless w o i ∧ ∀ c f, op_kind o = KCall c → lookupCallee m o = Some f → s !! (op_id f, i) = Some true.
Definition closed_key (k : nat * nat) (s : param_memo) : Prop :=
  ∀ f, f ∈ m → op_id f = fst k → ∃ entry rest, body f = entry :: rest ∧ (snd k < List.length (block_args entry))%nat ∧
    closed_at (VArg (block_id entry) (snd k)) s.

(** Every entry that says "only borrows" is borne out by the others. *)
Definition trusted (s : param_memo) : Prop := ∀ k, s !! k = Some true → closed_key k s.

(** What an accepted check does to the memo. *)
Definition extends (s s' : param_memo) : Prop :=
  (∀ k, s !! k = Some true → s' !! k = Some true) ∧
  (∀ k, s' !! k = Some true → s !! k = Some true ∨ closed_key k s').

Lemma closed_at_mono (v : value) (s s' : param_memo) :
  (∀ k, s !! k = Some true → s' !! k = Some true) → closed_at v s → closed_at v s'.
Proof. intros H Hc w o i Hw Ho. destruct (Hc w o i Hw Ho) as [Hh Hk]. split; [done|]. eauto. Qed.
Lemma closed_key_mono (k : nat * nat) (s s' : param_memo) :
  (∀ k, s !! k = Some true → s' !! k = Some true) → closed_key k s → closed_key k s'.
Proof.
  intros H Hc f Hf Hk. destruct (Hc f Hf Hk) as (entry & rest & ? & ? & Hcl).
  exists entry, rest. split; [done|]. split; [done|]. by eapply closed_at_mono.
Qed.

Lemma extends_refl (s : param_memo) : extends s s.
Proof. split; auto. Qed.
Lemma extends_trans (s1 s2 s3 : param_memo) : extends s1 s2 → extends s2 s3 → extends s1 s3.
Proof.
  intros [A1 B1] [A2 B2]. split; [auto|]. intros k Hk. destruct (B2 k Hk) as [H2|]; [|by right].
  destruct (B1 k H2) as [|H]; [by left|]. right. by eapply closed_key_mono.
Qed.

Lemma closed_at_intro (v : value) (s : param_memo) :
  (∀ o i, (o, i) ∈ uses m v → harmless v o i ∧
     ∀ c f, op_kind o = KCall c → lookupCallee m o = Some f → s !! (op_id f, i) = Some true) →
  (∀ w, flows v w → closed_at w s) → closed_at v s.
Proof.
  intros Hu Hf w o i Hw Ho. destruct (rtc_inv _ _ Hw) as [<-|(x & Hx & Hxw)]; [by apply Hu|]. by eapply (Hf x).
Qed.
End flow.

(** A list of checks, each extending the memo, all accepted. *)
Lemma check_all_accepts {A : Type} (m : module) (f : A → param_memo → checked) (Q : A → param_memo → Prop) (l : list A) (s s' : param_memo) :
  (∀ x s1 s2, Q x s1 → extends m s1 s2 → Q x s2) →
  (∀ x s1 s2, x ∈ l → f x s1 = Some (None, s2) → extends m s1 s2 ∧ Q x s2) →
  check_all f l s = Some (None, s') → extends m s s' ∧ ∀ x, x ∈ l → Q x s'.
Proof.
  intros Hq. revert s. induction l as [|x l IH]; intros s Hf; cbn.
  - intros [= <-]. split; [apply extends_refl|]. by intros x ?%elem_of_nil.
  - destruct (f x s) as [[[w|] s1]|] eqn:E; cbn; [done| |done]. intros H.
    destruct (Hf x s s1 ltac:(by left) E) as [X1 X2].
    destruct (IH s1 ltac:(intros; apply Hf; [by right|done]) H) as [L1 L2].
    split; [by eapply extends_trans|]. intros y [->|Hy]%elem_of_cons; [by eapply Hq|auto].
Qed.

Section pointers.
Variable m : module.
Variable demangle : string → string.
Hypothesis wf : wf_ids m = true.

(** What an accepted use has been shown to be. *)
Definition use_ok (p : value) (u : operation * nat) (s : param_memo) : Prop :=
  let '(o, i) := u in
  harmless m p o i ∧
  (∀ c f, op_kind o = KCall c → lookupCallee m o = Some f → s !! (op_id f, i) = Some true) ∧
  (steps_on o i = true → closed_at m (result o) s) ∧
  (∀ slot ld, op_kind o = KStore → store_value o = Some p → is_alloca_value m (store_addr o) = Some slot →
     ld ∈ slot_loads m slot → closed_at m (result ld) s).

Lemma use_ok_mono (p : value) (u : operation * nat) (s s' : param_memo) : use_ok p u s → extends m s s' → use_ok p u s'.
Proof.
  destruct u as [o i]. intros (A & B & C & D) [E _]. split; [done|]. split; [eauto|]. split.
  - intros H. eapply closed_at_mono; eauto.
  - intros slot ld H1 H2 H3 H4. eapply closed_at_mono; eauto.
Qed.

Lemma use_ok_closed (p : value) (s : param_memo) : (∀ u, u ∈ uses m p → use_ok p u s) → closed_at m p s.
Proof.
  intros H. apply closed_at_intro.
  - intros o i Ho. destruct (H (o, i) Ho) as (A & B & _). done.
  - intros w Hw. destruct Hw as [o i Ho Hs|o i slot ld Ho Hk Hv Ha Hl].
    + destruct (H (o, i) Ho) as (_ & _ & C & _). auto.
    + destruct (H (o, i) Ho) as (_ & _ & _ & D). eauto.
Qed.

Lemma check_use_accepts (go : value → param_memo → checked)
    (param : operation → nat → param_memo → option (bool * param_memo)) (p : value) (u : operation * nat) (s s' : param_memo) :
  (∀ v s1 s2, go v s1 = Some (None, s2) → extends m s1 s2 ∧ closed_at m v s2) →
  (∀ f i s1 s2, f ∈ m → body_empty f = false → param f i s1 = Some (true, s2) →
     extends m s1 s2 ∧ s2 !! (op_id f, i) = Some true) →
  u ∈ uses m p → check_use m demangle go param p u s = Some (None, s') → extends m s s' ∧ use_ok p u s'.
Proof.
  destruct u as [o i]. intros Hgo Hparam Hu. unfold check_use, use_ok, harmless, steps_on, refuse, fine.
  destruct (op_kind o) eqn:Hk; try done.
  all: try (intros [= <-]; split; [apply extends_refl|]; split; [done|]; split; [done|]; split; done).
  - (* store *)
    destruct (bool_decide (store_value o = Some p)) eqn:Ev; cbn [negb].
    + destruct (is_alloca_value m (store_addr o)) as [slot|] eqn:Es; [|done].
      destruct (addressEscapes m slot) eqn:Ee; [done|]. intros H.
      apply (check_all_accepts m _ (λ ld s, closed_at m (result ld) s)) in H as [H1 H2].
      * split; [done|]. split; [by exists slot|]. split; [done|]. split; [done|].
        intros slot' ld _ _ [= <-] Hl. by apply H2.
      * intros ld s1 s2 Hc [He _]. by eapply closed_at_mono.
      * intros ld s1 s2 _. apply Hgo.
    + intros [= <-]. apply bool_decide_eq_false in Ev. split; [apply extends_refl|].
      split; [done|]. split; [done|]. split; [done|]. done.
  - (* cast *)
    match goal with ck : cast_kind |- _ => destruct ck end; try done.
    all: try (intros H; apply Hgo in H as [H1 H2]; split; [done|]; split; [done|]; split; [done|]; split; done).
    intros [= <-]. split; [apply extends_refl|]. split; [done|]. split; [done|]. done.
  - (* call *)
    destruct (lookupCallee m o) as [f|] eqn:Ef; [|done]. destruct (body_empty f) eqn:Eb; [done|].
    destruct (param f i s) as [[ok s1]|] eqn:Ep; cbn; [|done]. destruct ok; [|done]. intros [= <-].
    pose proof (lookupCallee_in _ _ _ Ef) as [Hf _].
    destruct (Hparam f i s s1 Hf Eb Ep) as [H1 H2]. split; [done|]. split; [by exists f|]. split; [|done].
    intros ? f' _ [= <-]. done.
  - (* get_member *)
    intros H. apply Hgo in H as [H1 H2]. split; [done|]. split; [done|]. split; [done|]. split; done.
  - (* get_element *)
    destruct (Nat.eqb_spec i 0); [|done]. cbn [negb]. intros H. apply Hgo in H as [H1 H2].
    split; [done|]. split; [done|]. split; [done|]. split; done.
  - destruct (Nat.eqb_spec i 0); [|done]. cbn [negb]. intros H. apply Hgo in H as [H1 H2].
    split; [done|]. split; [done|]. split; [done|]. split; done.
  - (* the dialect *)
    destruct (bool_decide (pushed_value w o = Some p)) eqn:Ew; [|done]. apply bool_decide_eq_true in Ew.
    intros [= <-]. split; [apply extends_refl|]. split; [done|]. split; [done|]. split; done.
Qed.

Lemma checkPointer_accepts (fuel : nat) (p : value) (depth : nat) (s s' : param_memo) :
  checkPointer m demangle fuel p depth s = Some (None, s') → extends m s s' ∧ closed_at m p s'.
Proof.
  revert p depth s s'. induction fuel as [|fuel IH]; intros p depth s s'; [done|]. cbn [checkPointer].
  destruct (kFollow <? depth)%nat; [done|]. intros H.
  eapply (check_all_accepts m _ (use_ok p)) in H as [H1 H2].
  - split; [done|]. by apply use_ok_closed.
  - intros u s1 s2. apply use_ok_mono.
  - intros u s1 s2 Hu. apply check_use_accepts; [by intros; eapply IH| |done].
    clear -IH wf. intros f i s s' Hf Hb. destruct (s !! (op_id f, i)) as [r|] eqn:Es.
    { intros [= -> ->]. split; [apply extends_refl|done]. }
    destruct (body f) as [|entry rest] eqn:Ebody; [done|].
    destruct (Nat.ltb_spec i (List.length (block_args entry))) as [Hi|]; [|done].
    destruct (checkPointer m demangle fuel _ _ _) as [[[w|] s2]|] eqn:Ec; cbn; [done| |done].
    intros [= <-]. apply IH in Ec as [[E1 E2] Ec].
    assert (s2 !! (op_id f, i) = Some true) as Hk by (apply E1, lookup_insert_eq).
    rewrite (insert_id s2) by done. split; [|done]. split.
    + intros k Hs. apply E1. destruct (decide (k = (op_id f, i))) as [->|]; [by rewrite lookup_insert_eq|].
      by rewrite lookup_insert_ne.
    + intros k Hs. destruct (decide (k = (op_id f, i))) as [->|Hne].
      * right. intros g Hg Eg. cbn in Eg. assert (g = f) as ->.
        { apply (wf_ids_inj m); auto using module_in_walk. }
        exists entry, rest. done.
      * destruct (E2 k Hs) as [H|H]; [left; by rewrite lookup_insert_ne in H|by right].
Qed.

(** An accepted pointer, from a memo that is right. *)
Lemma pointer_sound (fuel : nat) (p : value) (depth : nat) (s s' : param_memo) :
  trusted m s → checkPointer m demangle fuel p depth s = Some (None, s') →
  trusted m s' ∧ ∀ w o i, followed m p w → (o, i) ∈ uses m w → harmless m w o i.
Proof.
  intros Ht H. apply checkPointer_accepts in H as [[E1 E2] Hp].
  assert (trusted m s') as Ht'.
  { intros k Hk. destruct (E2 k Hk) as [Hs|]; [|done]. eapply closed_key_mono; [exact E1|by apply Ht]. }
  split; [done|].
  assert (∀ w, followed m p w → closed_at m w s') as Hall.
  { induction 1 as [|v w Hv IHv Hf|v o i c f entry rest Hv IHv Ho Hk Hf Hb]; [done| |].
    - intros x o i Hx. apply IHv. by eapply rtc_l.
    - destruct (IHv v o i (rtc_refl _ _) Ho) as [_ Hs]. specialize (Hs c f Hk Hf).
      pose proof (lookupCallee_in _ _ _ Hf) as [Hm _].
      destruct (Ht' _ Hs f Hm eq_refl) as (entry' & rest' & Hb' & _ & Hc). cbn in Hc.
      rewrite Hb in Hb'. by injection Hb' as <- <-. }
  intros w o i Hw Ho. by apply (Hall w Hw w o i (rtc_refl _ _) Ho).
Qed.
End pointers.

(** A list of checks that keep an invariant of the memo, all accepted. *)
Lemma check_all_keeps {A : Type} (I : param_memo → Prop) (f : A → param_memo → checked) (Q : A → Prop) (l : list A)
    (s s' : param_memo) :
  (∀ x s1 s2, x ∈ l → I s1 → f x s1 = Some (None, s2) → I s2 ∧ Q x) →
  I s → check_all f l s = Some (None, s') → I s' ∧ ∀ x, x ∈ l → Q x.
Proof.
  revert s. induction l as [|x l IH]; intros s Hf Hi; cbn.
  - intros [= <-]. split; [done|]. by intros x ?%elem_of_nil.
  - destruct (f x s) as [[[w|] s1]|] eqn:E; cbn; [done| |done]. intros H.
    destruct (Hf x s s1 ltac:(by left) Hi E) as [X1 X2].
    destruct (IH s1 ltac:(intros; eapply Hf; [by right|done..]) X1 H) as [L1 L2].
    split; [done|]. intros y [->|Hy]%elem_of_cons; auto.
Qed.

(** ** The shared_ptr *)

Section slot.
Variable m : module.
Variable partialDemangle : string → option demangled.
Variable demangle : string → string.
Hypothesis wf : wf_ids m = true.
Variable pop : operation.

(** The values that name the shared_ptr: its slot, its bases, casts of
    them. *)
Inductive names_slot (v : value) : value → Prop :=
| names_self : names_slot v v
| names_step w o i :
    names_slot v w → (o, i) ∈ uses m w → op_id o ≠ op_id pop →
    op_kind o = KBaseClassAddr ∨ op_kind o = KCast Cbitcast → names_slot v (result o).

(** Nothing a pointer into the element may be used for keeps it. *)
Definition only_borrowed (p : value) : Prop := ∀ w o i, into m p w → (o, i) ∈ uses m w → harmless m w o i.

(** The calls that hand out a pointer into the element. *)
Definition accessor (o : operation) : bool :=
  match op_kind o with
  | KCall _ => match classifySharedPtrCall partialDemangle (lookupCallee m o) with SPGet | SPDeref | SPArrow => true | _ => false end
  | _ => false
  end.
Definition elements_read_whole : Prop := ∀ o, o ∈ walk_module m → accessor o = true → slots_read_whole m (result o).
Hypothesis whole : elements_read_whole.

Definition slot_use_ok (o : operation) : Prop :=
  op_id o = op_id pop ∨
  match op_kind o with
  | KLifetimeStart | KLifetimeEnd | KBaseClassAddr | KCast Cbitcast => True
  | KCall _ =>
      match classifySharedPtrCall partialDemangle (lookupCallee m o) with
      | SPBool | SPDtor | SPCompareNull => True
      | SPGet | SPDeref | SPArrow => only_borrowed (result o)
      | SPNone => False
      end
  | _ => False
  end.

Lemma slot_sound (fuel : nat) (v : value) (s s' : param_memo) :
  trusted m s → checkSlotUses m partialDemangle demangle fuel v pop s = Some (None, s') →
  trusted m s' ∧ ∀ w o i, names_slot v w → (o, i) ∈ uses m w → slot_use_ok o.
Proof.
  revert v s s'. induction fuel as [|fuel IH]; intros v s s' Ht; [done|]. cbn [checkSlotUses]. intros H.
  eapply (check_all_keeps (trusted m) _ (λ u, slot_use_ok (fst u) ∧
    (op_id (fst u) ≠ op_id pop → op_kind (fst u) = KBaseClassAddr ∨ op_kind (fst u) = KCast Cbitcast →
     ∀ w o i, names_slot (result (fst u)) w → (o, i) ∈ uses m w → slot_use_ok o))) in H as [H1 H2]; [| |done].
  - split; [done|]. intros w o i Hn Ho.
    assert (w = v ∨ ∃ o' i', (o', i') ∈ uses m v ∧ op_id o' ≠ op_id pop ∧
      (op_kind o' = KBaseClassAddr ∨ op_kind o' = KCast Cbitcast) ∧ names_slot (result o') w) as Hc.
    { clear Ho. induction Hn as [|w o' i' Hn IHn Ho' Hp Hk]; [by left|]. right.
      destruct IHn as [->|(o'' & i'' & A & B & C & D)].
      - exists o', i'. split; [done|]. split; [done|]. split; [done|constructor].
      - exists o'', i''. split; [done|]. split; [done|]. split; [done|]. by econstructor. }
    destruct Hc as [->|(o' & i' & A & B & C & D)].
    + by apply (H2 (o, i)).
    + apply (H2 (o', i') A) with w i; done.
  - intros [o i] s1 s2 Hu Ht1. cbn [fst]. unfold slot_use_ok at 1, fine, refuse.
    destruct (Nat.eqb_spec (op_id o) (op_id pop)) as [E|E].
    { intros [= <-]. split; [done|]. split; [by left|done]. }
    destruct (op_kind o) eqn:Hk; try done.
    + match goal with ck : cast_kind |- _ => destruct ck end; try done. intros Hs.
      apply IH in Hs as [H3 H4]; [|done]. split; [done|]. split; [by right|done].
    + destruct (classifySharedPtrCall partialDemangle (lookupCallee m o)) eqn:Ec; try done.
      all: try (intros [= <-]; split; [done|]; split; [by right|]; intros _ [?|?]; congruence).
      all: destruct (negb _); [done|]; intros Hs; apply pointer_sound in Hs as [H3 H4]; [|done|done];
        split; [done|]; split; [right|by intros _ [?|?]; congruence]; intros w o' i' Hw; apply H4, into_followed; [|done];
        apply whole; [by apply elem_of_uses in Hu as [Hu _]|unfold accessor; by rewrite Hk, Ec].
    + intros [= <-]. split; [done|]. split; [by right|]. intros _ [?|?]; congruence.
    + intros [= <-]. split; [done|]. split; [by right|]. intros _ [?|?]; congruence.
    + intros Hs. apply IH in Hs as [H3 H4]; [|done]. split; [done|]. split; [by right|done].
Qed.
End slot.

(** ** Pops of the same queue *)

Section scope.
Variable m : module.
Variable partialDemangle : string → option demangled.
Variable demangle : string → string.
Hypothesis wf : wf_ids m = true.
Variable curId : Z.
Variable curType : option ty.

Definition call_targets (o : operation) : list operation :=
  match lookupCallee m o with Some f => [f] | None => indirectCallees m o end.

(** A pop of the queue, or a call that could be of anything. *)
Definition pops_here (o : operation) : bool :=
  match op_kind o with
  | KWtc (QueuePopOp _ _ _ _ _) a => popsSameQueue m curId curType o a
  | KCall _ => match call_targets o with [] => true | _ => false end
  | _ => false
  end.

Inductive reaches_pop : operation → Prop :=
| rp_here o : pops_here o = true → reaches_pop o
| rp_call o c f o' :
    op_kind o = KCall c → f ∈ call_targets o → body_empty f = false → o' ∈ walk f → reaches_pop o' → reaches_pop o.

Definition answered (f : operation) (s : pop_memo) : Prop := body_empty f = true ∨ s !! op_id f = Some false.
Definition op_cleared (o : operation) (s : pop_memo) : Prop :=
  pops_here o = false ∧ ∀ c f, op_kind o = KCall c → f ∈ call_targets o → answered f s.
Definition cleared (f : operation) (s : pop_memo) : Prop := ∀ o, o ∈ walk f → op_cleared o s.

Definition grows (s s' : pop_memo) : Prop :=
  (∀ k, s !! k = Some false → s' !! k = Some false) ∧
  (∀ f, f ∈ m → s' !! op_id f = Some false → s !! op_id f = Some false ∨ cleared f s').

Lemma op_cleared_mono (o : operation) (s s' : pop_memo) :
  (∀ k, s !! k = Some false → s' !! k = Some false) → op_cleared o s → op_cleared o s'.
Proof.
  intros H [A B]. split; [done|]. intros c f Hk Hf. destruct (B c f Hk Hf); [by left|right; auto].
Qed.

Lemma grows_refl (s : pop_memo) : grows s s.
Proof. split; auto. Qed.
Lemma grows_trans (s1 s2 s3 : pop_memo) : grows s1 s2 → grows s2 s3 → grows s1 s3.
Proof.
  intros [A1 B1] [A2 B2]. split; [auto|]. intros f Hf Hk. destruct (B2 f Hf Hk) as [H2|]; [|by right].
  destruct (B1 f Hf H2) as [|H]; [by left|]. right. intros o Ho. eapply op_cleared_mono; [exact A2|by apply H].
Qed.

Lemma call_targets_in (o f : operation) : f ∈ call_targets o → f ∈ m.
Proof.
  unfold call_targets. destruct (lookupCallee m o) as [g|] eqn:E.
  - intros ->%list_elem_of_singleton. by apply lookupCallee_in in E as [? _].
  - intros Hf. by apply indirectCallees_in in Hf as [? _].
Qed.

(** A recursion that clears what it answers false about. *)
Definition clears (rec : operation → pop_memo → option (bool * pop_memo)) : Prop :=
  ∀ f s s', f ∈ m → rec f s = Some (false, s') → grows s s' ∧ answered f s'.

Lemma any_target_clears rec (ts : list operation) (s s' : pop_memo) :
  clears rec → (∀ t, t ∈ ts → t ∈ m) → any_target rec ts s = Some (false, s') →
  grows s s' ∧ ∀ t, t ∈ ts → answered t s'.
Proof.
  intros Hr. revert s. induction ts as [|t ts IH]; intros s Hm; cbn.
  - intros [= <-]. split; [apply grows_refl|]. by intros t ?%elem_of_nil.
  - destruct (rec t s) as [[a s1]|] eqn:E1; cbn; [|done].
    destruct (any_target rec ts s1) as [[b s2]|] eqn:E2; cbn; [|done].
    intros [= E ->]. apply orb_false_iff in E as [-> ->].
    apply Hr in E1 as [G1 A1]; [|apply Hm; by left].
    apply IH in E2 as [G2 A2]; [|intros; apply Hm; by right].
    split; [by eapply grows_trans|]. intros x [->|Hx]%elem_of_cons; [|auto].
    destruct A1; [by left|right; by apply G2].
Qed.

Lemma call_pops_clears rec (o : operation) c (s s' : pop_memo) :
  clears rec → op_kind o = KCall c → call_pops m rec o s = Some (false, s') → grows s s' ∧ op_cleared o s'.
Proof.
  intros Hr Hk. unfold call_pops, op_cleared, pops_here, call_targets. rewrite Hk.
  destruct (lookupCallee m o) as [f|] eqn:Ef.
  - intros H. apply Hr in H as [G A]; [|by apply lookupCallee_in in Ef as [? _]].
    split; [done|]. split; [done|]. by intros ? f' _ ->%list_elem_of_singleton.
  - destruct (indirectCallees m o) as [|t ts] eqn:Ei; [done|]. rewrite <-Ei. intros H.
    apply any_target_clears in H as [G A]; [|done|].
    + split; [done|]. split; [by rewrite ?Ei|]. intros; auto.
    + intros x Hx. by apply indirectCallees_in in Hx as [? _].
Qed.

Lemma walk_pops_clears rec (l : list operation) (s s' : pop_memo) :
  clears rec → walk_pops m curId curType rec l s = Some (false, s') →
  grows s s' ∧ ∀ o, o ∈ l → op_cleared o s'.
Proof.
  intros Hr. revert s. induction l as [|o l IH]; intros s; cbn [walk_pops].
  - intros [= <-]. split; [apply grows_refl|]. by intros o ?%elem_of_nil.
  - match goal with |- context [mbind _ ?x] => destruct x as [[r s1]|] eqn:E end; cbn; [|done].
    destruct r; [done|]. intros H. apply IH in H as [G2 A2].
    assert (grows s s1 ∧ op_cleared o s1) as [G1 A1].
    { unfold op_cleared, pops_here. destruct (op_kind o) eqn:Hk;
        try (injection E as <-; split; [apply grows_refl|]; split; done).
      - destruct (call_pops_clears rec o c s s1 Hr Hk E) as [G C]. unfold op_cleared, pops_here in C.
        rewrite Hk in C. done.
      - destruct w; injection E; intros; subst; (split; [apply grows_refl|]); split; done. }
    split; [by eapply grows_trans|]. intros x [->|Hx]%elem_of_cons; [|auto].
    eapply op_cleared_mono; [apply G2|done].
Qed.

Lemma mayPop_clears (fuel : nat) : clears (mayPop m curId curType fuel).
Proof.
  induction fuel as [|fuel IH]; intros f s s' Hf; [done|]. cbn [mayPop].
  destruct (body_empty f) eqn:Eb.
  { intros [= <-]. split; [apply grows_refl|by left]. }
  destruct (s !! op_id f) as [r|] eqn:Es.
  { intros [= -> <-]. split; [apply grows_refl|by right]. }
  destruct (walk_pops _ _ _ _ _ _) as [[r s1]|] eqn:Ew; cbn; [|done]. intros [= -> <-].
  apply walk_pops_clears in Ew as [[G1 G2] A]; [|done].
  assert (s1 !! op_id f = Some false) as Hk by (apply G1, lookup_insert_eq).
  rewrite (insert_id s1) by done. split; [|by right]. split.
  - intros k Hs. apply G1. destruct (decide (k = op_id f)) as [->|]; [by rewrite lookup_insert_eq|].
    by rewrite lookup_insert_ne.
  - intros g Hg Hs. destruct (decide (op_id g = op_id f)) as [E|Hne].
    + assert (g = f) as -> by (apply (wf_ids_inj m); auto using module_in_walk). by right.
    + destruct (G2 g Hg Hs) as [H|H]; [left; by rewrite lookup_insert_ne in H|by right].
Qed.

(** A memo that has grown from nothing is right. *)
Lemma grown_sound (s : pop_memo) (o : operation) : grows ∅ s → op_cleared o s → ¬ reaches_pop o.
Proof.
  intros [_ G] Ho Hr. induction Hr as [o Hh|o c f o' Hk Hf Hb Ho' Hr IH].
  - destruct Ho as [Ho _]. congruence.
  - destruct Ho as [_ Ho]. destruct (Ho c f Hk Hf) as [?|Hs]; [congruence|].
    destruct (G f (call_targets_in _ _ Hf) Hs) as [H|Hc]; [by rewrite lookup_empty in H|]. by apply IH, Hc.
Qed.

Lemma scope_sound (fuel : nat) (pop : operation) (l : list operation) (s s' : pop_memo) :
  grows ∅ s → scope_walk m partialDemangle demangle curId curType fuel pop l s = Some (None, s') →
  ∀ o, o ∈ l → op_id o = op_id pop ∨
    (∃ f, lookupCallee m o = Some f ∧ classifySharedPtrCall partialDemangle (Some f) ≠ SPNone) ∨ ¬ reaches_pop o.
Proof.
  revert s. induction l as [|x l IH]; intros s Hg; cbn [scope_walk]; [by intros _ o ?%elem_of_nil|].
  intros H. assert (∃ s1, grows ∅ s1 ∧
      scope_walk m partialDemangle demangle curId curType fuel pop l s1 = Some (None, s') ∧
      (op_id x = op_id pop ∨ (∃ f, lookupCallee m x = Some f ∧ classifySharedPtrCall partialDemangle (Some f) ≠ SPNone) ∨
       ¬ reaches_pop x)) as (s1 & G1 & Hl & Hx).
  { assert (pops_here x = false → (∀ c, op_kind x ≠ KCall c) → ¬ reaches_pop x) as Hno.
    { intros Hp Hc Hr. inversion Hr; [congruence|]. by eapply Hc. }
    unfold pops_here in Hno. destruct (op_kind x) eqn:Hk; try (exists s; split; [done|]; split; [done|]; right; right; by apply Hno).
    - destruct (match lookupCallee m x with Some f => _ | None => _ end) eqn:Es.
      + exists s. split; [done|]. split; [done|]. right. left. destruct (lookupCallee m x) as [f|]; [|done].
        exists f. split; [done|]. by apply negb_true_iff, bool_decide_eq_false in Es.
      + destruct (call_pops m _ x s) as [[may s1]|] eqn:Ec; cbn in H; [|done]. destruct may; [done|].
        apply (call_pops_clears _ _ c) in Ec as [G C]; [|apply mayPop_clears|done].
        pose proof (grows_trans _ _ _ Hg G) as G1. exists s1. split; [done|]. split; [done|]. right. right.
        by eapply grown_sound.
    - destruct w; try (exists s; split; [done|]; split; [done|]; right; right; by apply Hno).
      destruct (Nat.eqb_spec (op_id x) (op_id pop)).
      + exists s. split; [done|]. split; [done|]. by left.
      + cbn [negb andb] in H. destruct (popsSameQueue m curId curType x a) eqn:Ep; [done|].
        exists s. split; [done|]. split; [done|]. right. right. by apply Hno. }
  intros o [->|Ho]%elem_of_cons; [done|]. by eapply IH.
Qed.
End scope.

(** ** The checks answer *)

Section answers.
Variable m : module.
Variable partialDemangle : string → option demangled.
Variable demangle : string → string.

(** *** Pops: each call marks a function not asked about before *)

Definition unasked (s : pop_memo) : nat := List.length (List.filter (λ f, negb (is_some (s !! op_id f))) m).

Definition knows_more (s s' : pop_memo) : Prop := ∀ k, is_some (s !! k) = true → is_some (s' !! k) = true.

Lemma filter_length_le {A : Type} (p q : A → bool) (l : list A) :
  (∀ x, x ∈ l → p x = true → q x = true) → (List.length (List.filter p l) ≤ List.length (List.filter q l))%nat.
Proof.
  induction l as [|x l IH]; intros H; cbn; [done|].
  pose proof (IH ltac:(intros; apply H; [by right|done])). pose proof (H x ltac:(by left)).
  destruct (p x), (q x); cbn; lia || naive_solver.
Qed.

Lemma filter_length_lt {A : Type} (p q : A → bool) (l : list A) y :
  (∀ x, x ∈ l → p x = true → q x = true) → y ∈ l → p y = false → q y = true →
  (List.length (List.filter p l) < List.length (List.filter q l))%nat.
Proof.
  induction l as [|x l IH]; intros H Hy Hp Hq; [by apply elem_of_nil in Hy|]. cbn.
  assert (∀ x, x ∈ l → p x = true → q x = true) as H' by (intros; apply H; [by right|done]).
  apply elem_of_cons in Hy as [->|Hy].
  - rewrite Hp, Hq. cbn. pose proof (filter_length_le p q l H'). lia.
  - pose proof (IH H' Hy Hp Hq). pose proof (H x ltac:(by left)). destruct (p x), (q x); cbn; lia || naive_solver.
Qed.

Lemma unasked_le (s s' : pop_memo) : knows_more s s' → (unasked s' ≤ unasked s)%nat.
Proof.
  intros H. apply filter_length_le. intros f _ Hf%negb_true_iff. apply negb_true_iff.
  destruct (is_some (s !! op_id f)) eqn:E; [|done]. by rewrite H in Hf.
Qed.

Lemma knows_more_insert k (r : bool) (s : pop_memo) : knows_more s (<[k := r]> s).
Proof. intros j Hj. destruct (decide (j = k)) as [->|]; [by rewrite lookup_insert_eq|by rewrite lookup_insert_ne]. Qed.

Section one_queue.
Variable curId : Z.
Variable curType : option ty.

(** An answer that leaves the memo as it is. *)
Local Ltac same_memo := eexists _, _; split; [reflexivity|intros ? H; exact H].

(** A recursion that answers while fewer than [n] functions are unasked. *)
Definition pop_answers (n : nat) (rec : operation → pop_memo → option (bool * pop_memo)) : Prop :=
  ∀ f s, f ∈ m → (unasked s < n)%nat → ∃ r s', rec f s = Some (r, s') ∧ knows_more s s'.

Lemma any_target_answers n rec (ts : list operation) (s : pop_memo) :
  pop_answers n rec → (∀ t, t ∈ ts → t ∈ m) → (unasked s < n)%nat →
  ∃ r s', any_target rec ts s = Some (r, s') ∧ knows_more s s'.
Proof.
  intros Hr. revert s. induction ts as [|t ts IH]; intros s Hm Hs; cbn; [same_memo|].
  destruct (Hr t s ltac:(apply Hm; by left) Hs) as (a & s1 & -> & K1). cbn.
  pose proof (unasked_le _ _ K1).
  destruct (IH s1 ltac:(intros; apply Hm; by right) ltac:(lia)) as (b & s2 & -> & K2). cbn.
  eexists _, _. split; [done|]. intros k Hk. auto.
Qed.

Lemma call_pops_answers n rec (o : operation) (s : pop_memo) :
  pop_answers n rec → (unasked s < n)%nat → ∃ r s', call_pops m rec o s = Some (r, s') ∧ knows_more s s'.
Proof.
  intros Hr Hs. unfold call_pops. destruct (lookupCallee m o) as [f|] eqn:Ef.
  - apply Hr; [by apply lookupCallee_in in Ef as [? _]|done].
  - destruct (indirectCallees m o) as [|t ts] eqn:Ei; [same_memo|]. rewrite <-Ei.
    apply (any_target_answers n); [done| |done]. intros x Hx. by apply indirectCallees_in in Hx as [? _].
Qed.

Lemma walk_pops_answers n rec (l : list operation) (s : pop_memo) :
  pop_answers n rec → (unasked s < n)%nat → ∃ r s', walk_pops m curId curType rec l s = Some (r, s') ∧ knows_more s s'.
Proof.
  intros Hr. revert s. induction l as [|o l IH]; intros s Hs; cbn [walk_pops]; [same_memo|].
  match goal with |- context [mbind _ ?x] => assert (∃ r s1, x = Some (r, s1) ∧ knows_more s s1) as (r & s1 & -> & K1) end.
  { destruct (op_kind o); try (same_memo); [by apply (call_pops_answers n)|]. destruct w; same_memo. }
  cbn. destruct r; [by eexists _, _|]. pose proof (unasked_le _ _ K1).
  destruct (IH s1 ltac:(lia)) as (r & s2 & -> & K2). eexists _, _. split; [done|]. intros k Hk. auto.
Qed.

Lemma mayPop_answers (fuel : nat) : pop_answers fuel (mayPop m curId curType fuel).
Proof.
  induction fuel as [|fuel IH]; intros f s Hf Hs; [lia|]. cbn [mayPop].
  destruct (body_empty f); [same_memo|]. destruct (s !! op_id f) as [r|] eqn:Es; [same_memo|].
  assert (unasked (<[op_id f := false]> s) < unasked s)%nat as Hlt.
  { apply (filter_length_lt _ _ _ f); [|done|by rewrite lookup_insert_eq|by rewrite Es].
    intros g _ Hg%negb_true_iff. apply negb_true_iff. destruct (is_some (s !! op_id g)) eqn:E; [|done].
    by rewrite knows_more_insert in Hg. }
  destruct (walk_pops_answers fuel _ (walk f) (<[op_id f := false]> s) IH ltac:(lia)) as (r & s1 & -> & K). cbn.
  eexists _, _. split; [done|]. intros k Hk. apply knows_more_insert, K, knows_more_insert, Hk.
Qed.

Lemma scope_walk_answers (fuel : nat) (pop : operation) (l : list operation) (s : pop_memo) :
  (unasked s < fuel)%nat →
  ∃ r s', scope_walk m partialDemangle demangle curId curType fuel pop l s = Some (r, s').
Proof.
  revert s. induction l as [|o l IH]; intros s Hs; cbn [scope_walk]; [by eexists _, _|].
  destruct (op_kind o); try by apply IH.
  - destruct (match lookupCallee m o with Some f => _ | None => _ end); [by apply IH|].
    destruct (call_pops_answers fuel _ o s (mayPop_answers fuel) Hs) as (may & s1 & -> & K). cbn.
    pose proof (unasked_le _ _ K). destruct may; [by eexists _, _|]. apply IH. lia.
  - destruct w; try by apply IH. destruct (_ && _); [by eexists _, _|by apply IH].
Qed.
End one_queue.

(** *** Pointers: what flows from a value ranks below it *)

Variable rank : value → nat.
Variable N : nat.
Hypothesis ranked : ∀ v, (rank v ≤ N)%nat.
Hypothesis flows_down : ∀ v w, flows m v w → (rank w < rank v)%nat.
Hypothesis bases_down : ∀ v o i, (o, i) ∈ uses m v → op_kind o = KBaseClassAddr → (rank (result o) < rank v)%nat.

Lemma check_all_answers {A : Type} (f : A → param_memo → checked) (l : list A) (s : param_memo) :
  (∀ x s1, x ∈ l → ∃ r s2, f x s1 = Some (r, s2)) → ∃ r s', check_all f l s = Some (r, s').
Proof.
  revert s. induction l as [|x l IH]; intros s Hf; cbn; [by eexists _, _|].
  destruct (Hf x s ltac:(by left)) as ([w|] & s1 & ->); cbn; [by eexists _, _|].
  apply IH. intros; apply Hf; by right.
Qed.

(** Fuel for a pointer at a depth: the calls still allowed, each over a
    descending chain of values. *)
Definition enough (depth : nat) (p : value) : nat := (S kFollow - depth) * S N + rank p.

Lemma checkPointer_answers (fuel : nat) (p : value) (depth : nat) (s : param_memo) :
  (enough depth p < fuel)%nat → ∃ r s', checkPointer m demangle fuel p depth s = Some (r, s').
Proof.
  revert p depth s. induction fuel as [|fuel IH]; intros p depth s Hf; [lia|]. cbn [checkPointer].
  destruct (Nat.ltb_spec kFollow depth) as [|Hd]; [by eexists _, _|].
  assert (∀ v s1, flows m p v → ∃ r s', checkPointer m demangle fuel v depth s1 = Some (r, s')) as Hgo.
  { intros v s1 Hv. apply IH. apply flows_down in Hv. unfold enough in *. lia. }
  apply check_all_answers. intros [o i] s1 Hu. unfold check_use, refuse, fine.
  assert (steps_on o i = true → ∃ r s2, checkPointer m demangle fuel (result o) depth s1 = Some (r, s2)) as Hstep.
  { intros Hs. apply Hgo. by eapply flow_step. }
  unfold steps_on in Hstep. destruct (op_kind o) eqn:Hk; try (by eexists _, _); try by apply Hstep.
  - destruct (bool_decide (store_value o = Some p)) eqn:Ev; cbn [negb]; [|by eexists _, _].
    apply bool_decide_eq_true in Ev. destruct (is_alloca_value m (store_addr o)) as [slot|] eqn:Es; [|by eexists _, _].
    destruct (addressEscapes m slot); [by eexists _, _|]. apply check_all_answers. intros ld s2 Hl.
    apply Hgo. by eapply flow_slot.
  - match goal with ck : cast_kind |- _ => destruct ck end; try (by eexists _, _); by apply Hstep.
  - destruct (lookupCallee m o) as [f|]; [|by eexists _, _].
    destruct (body_empty f) eqn:Eb; [by eexists _, _|].
    match goal with |- context [mbind _ ?x] => assert (∃ b s2, x = Some (b, s2)) as (b & s2 & ->) end.
    { destruct (s1 !! (op_id f, i)); [by eexists _, _|]. unfold body_empty in Eb.
      destruct (body f) as [|entry rest]; [done|]. destruct (_ <? _)%nat; [|by eexists _, _].
      destruct (IH (VArg (block_id entry) i) (S depth) (<[(op_id f, i) := true]> s1)) as (r & s2 & ->); [|by eexists _, _].
      unfold enough in *. pose proof (ranked (VArg (block_id entry) i)).
      replace (S kFollow - depth)%nat with (S (S kFollow - S depth)) in Hf by lia. lia. }
    cbn. destruct b; by eexists _, _.
  - destruct (Nat.eqb_spec i 0); cbn [negb]; [by apply Hstep|by eexists _, _].
  - destruct (Nat.eqb_spec i 0); cbn [negb]; [by apply Hstep|by eexists _, _].
  - destruct (bool_decide _); by eexists _, _.
Qed.

Lemma checkSlotUses_answers (fuel : nat) (v : value) (pop : operation) (s : param_memo) :
  (rank v + enough 0 v + S N < fuel)%nat →
  ∃ r s', checkSlotUses m partialDemangle demangle fuel v pop s = Some (r, s').
Proof.
  revert v s. induction fuel as [|fuel IH]; intros v s Hf; [lia|]. cbn [checkSlotUses].
  apply check_all_answers. intros [o i] s1 Hu. cbn [fst]. unfold fine, refuse.
  destruct (op_id o =? op_id pop)%nat; [by eexists _, _|].
  destruct (op_kind o) eqn:Hk; try (by eexists _, _).
  - match goal with ck : cast_kind |- _ => destruct ck end; try (by eexists _, _). apply IH.
    assert (rank (result o) < rank v)%nat; [|unfold enough in *; lia].
    apply flows_down, (flow_step m v o i); [done|]. unfold steps_on. by rewrite Hk.
  - destruct (classifySharedPtrCall _ _); try (by eexists _, _);
      (destruct (negb _); [by eexists _, _|]); apply checkPointer_answers;
      pose proof (ranked (result o)); unfold enough in *; lia.
  - apply IH. pose proof (bases_down v o i Hu Hk). unfold enough in *. lia.
Qed.
End answers.

(** ** A borrowed queue *)

Section pass.
Variable m : module.
Variable partialDemangle : string → option demangled.
Variable demangle : string → string.

(** What the check of one pop establishes. *)
Definition pop_borrows (pop : operation) (id : Z) (qt : option ty) : Prop :=
  pop_is_transfer pop = true ∨
  ∃ out slot o k,
    getOut pop = Some out ∧ is_alloca_value m (Some out) = Some slot ∧ slot_region m slot = Some (o, k) ∧
    region_holds m o k (op_id pop) = true ∧
    (∀ w u i, names_slot m pop (result slot) w → (u, i) ∈ uses m w → slot_use_ok m partialDemangle pop u) ∧
    (∀ u, u ∈ region_walk o k → op_id u = op_id pop ∨
       (∃ f, lookupCallee m u = Some f ∧ classifySharedPtrCall partialDemangle (Some f) ≠ SPNone) ∨
       ¬ reaches_pop m id qt u).

Lemma checkPop_sound (fuel : nat) (pop : operation) (id : Z) (qt : option ty) (s s' : param_memo) :
  wf_ids m = true → elements_read_whole m partialDemangle → trusted m s →
  checkPop m partialDemangle demangle fuel pop id qt s = Some (None, s') →
  trusted m s' ∧ pop_borrows pop id qt.
Proof.
  intros Hwf Hwh Ht. unfold checkPop. destruct (pop_is_transfer pop) eqn:Et.
  { intros [= <-]. split; [done|by left]. }
  destruct (getOut pop) as [out|] eqn:Eo; [|done].
  destruct (is_alloca_value m (Some out)) as [slot|] eqn:Es; [|done].
  destruct (slot_region m slot) as [[o k]|] eqn:Er; [|done].
  destruct (region_holds m o k (op_id pop)) eqn:Eh; cbn [negb]; [|done].
  destruct (checkSlotUses m partialDemangle demangle fuel (result slot) pop s) as [[[w|] s1]|] eqn:Ec; cbn; [done| |done].
  destruct (scope_walk m partialDemangle demangle id qt fuel pop (region_walk o k) ∅) as [[r' s2]|] eqn:Ew; cbn; [|done].
  intros [= -> <-]. apply slot_sound in Ec as [T S]; [|done..]. split; [done|]. right.
  exists out, slot, o, k. split; [done|]. split; [done|]. split; [done|]. split; [done|]. split; [done|].
  eapply (scope_sound m partialDemangle demangle Hwf); [|exact Ew]. apply grows_refl.
Qed.

Lemma borrow_root_sound (fuel : nat) (root : operation) (v : verdict) (s s' : param_memo) :
  wf_ids m = true → elements_read_whole m partialDemangle → trusted m s → borrow_root m partialDemangle demangle fuel root s = Some (v, s') →
  (∀ why at_, v ≠ NotBorrowed why at_) →
  trusted m s' ∧ (∀ pops, v = Borrowed pops → ∃ id, attr_int root kQueueIdAttrName = Some id ∧
    pops = pops_of m id ∧ ∀ pop, pop ∈ pops → pop_borrows pop id (queue_type_of_root m root)).
Proof.
  intros Hwf Hwh Ht. unfold borrow_root. destruct (negb (is_root root)); [by intros [= <- <-]|].
  destruct (attr_int root kQueueIdAttrName) as [id|]; [|by intros [= <- <-]].
  destruct (attr_topology root); [|by intros [= <- <-]].
  destruct (negb _); [by intros [= <- <-]|].
  destruct (match queue_type_of_root m root with Some t => _ | None => _ end).
  { intros [= <- <-] Hv. by destruct (Hv _ _ eq_refl). }
  destruct (pops_of m id) as [|p0 ps] eqn:Ep.
  { intros [= <- <-] Hv. by destruct (Hv _ _ eq_refl). }
  rewrite <-Ep. destruct (check_all _ (pops_of m id) s) as [[[w|] s1]|] eqn:Ec; cbn; [| |done]; intros [= <- <-] Hv.
  { by destruct (Hv _ _ eq_refl). }
  apply (check_all_keeps (trusted m) _ (λ pop, pop_borrows pop id (queue_type_of_root m root))) in Ec as [T H]; [| |done].
  - split; [done|]. intros pops [= <-]. eauto.
  - intros pop s2 s3 _ H2 H3. by eapply checkPop_sound.
Qed.

Lemma borrow_roots_sound (fuel : nat) (l : list operation) (s s' : param_memo) vs pre root pops post :
  wf_ids m = true → elements_read_whole m partialDemangle → trusted m s → borrow_roots m partialDemangle demangle fuel l s = Some (vs, s') →
  vs = pre ++ (root, Borrowed pops) :: post → (∀ r why at_, (r, NotBorrowed why at_) ∉ pre) →
  ∃ id, attr_int root kQueueIdAttrName = Some id ∧ pops = pops_of m id ∧
    ∀ pop, pop ∈ pops → pop_borrows pop id (queue_type_of_root m root).
Proof.
  intros Hwf Hwh. revert s vs pre. induction l as [|r l IH]; intros s vs pre Ht; cbn.
  { intros [= <- <-] E. by destruct pre. }
  destruct (borrow_root m partialDemangle demangle fuel r s) as [[v s1]|] eqn:E1; cbn; [|done].
  destruct (borrow_roots m partialDemangle demangle fuel l s1) as [[vs' s2]|] eqn:E2; cbn; [|done].
  intros [= <- <-] E Hpre. destruct pre as [|[r' v'] pre]; injection E as -> -> ->.
  - apply borrow_root_sound in E1 as [_ H]; [|done..]. by apply H.
  - apply borrow_root_sound in E1 as [T _]; [|done|done|done|].
    + eapply IH; [exact T|exact E2|done|]. intros r why at_ H. apply (Hpre r why at_). by right.
    + intros why at_ ->. apply (Hpre r' why at_). by left.
Qed.
End pass.

(** What the pass writes is what it decided: a pop that comes out borrowed
    and did not go in so is a pop of a queue with that verdict, and nothing
    but the flag changes in it. *)
Definition borrowed_flag (o : operation) : bool :=
  match op_kind o with KWtc (QueuePopOp b _ _ _ _) _ => b | _ => false end.

Lemma borrow_run_marks (m : module) (partialDemangle : string → option demangled) (demangle : string → string)
    (fuel : nat) (m' : module) :
  borrow_run m partialDemangle demangle fuel = Some m' →
  ∃ vs, borrow_pass m partialDemangle demangle fuel = Some vs ∧
    walk_module m' = map (map_op (mark vs)) (walk_module m) ∧
    ∀ o, o ∈ walk_module m →
      operands (map_op (mark vs) o) = operands o ∧ op_id (map_op (mark vs) o) = op_id o ∧
      (borrowed_flag (map_op (mark vs) o) = true → borrowed_flag o = true ∨
         ∃ root pops q, (root, Borrowed pops) ∈ vs ∧ q ∈ pops ∧ op_id q = op_id o).
Proof.
  unfold borrow_run. destruct (borrow_pass _ _ _ _) as [vs|] eqn:E; cbn; [|done]. intros [= <-].
  exists vs. split; [done|]. split; [apply walk_map_module|]. intros o _.
  destruct o as [i n loc k args results attrs rs]. split; [done|]. split; [done|].
  unfold borrowed_flag, mark. cbn [map_op op_kind fst op_id].
  destruct (existsb _ vs) eqn:Ex; [|by left]. intros _. right.
  apply existsb_exists in Ex as ([root v] & Hin%list_elem_of_In & Hv). cbn in Hv. destruct v as [| |pops]; try done.
  apply existsb_exists in Hv as (q & Hq%list_elem_of_In & Hid%Nat.eqb_eq). by exists root, pops, q.
Qed.

Lemma trusted_empty m : trusted m ∅.
Proof. intros k H. by rewrite lookup_empty in H. Qed.

(** C39: What a borrowed queue promises, in a module where the local slots
    a pointer into an element is kept in are read back by loads of the slot
    only, and not at addresses computed from it (a case the code does not
    follow).  When the pass marks a queue borrowed, with no queue refused
    before it, then for every recorded pop of the queue that is not a
    transfer: its shared_ptr lives in a local slot, the pop is in the slot's
    scope, the shared_ptr is used only by its lifetime marks and by members
    that neither copy nor share it; no value that may point into the element,
    through members, strides, casts, private slots or the parameters of any
    chain of calls, is stored elsewhere, returned, converted to an integer or
    handed to code not seen; and nothing in the scope but the shared_ptr's
    own members, which are not looked into, reaches another pop of the queue
    through any chain of calls. *)
Theorem borrow_sound (m : module) (partialDemangle : string → option demangled) (demangle : string → string)
    (fuel : nat) (vs pre post : list (operation * verdict)) (root : operation) (pops : list operation) :
  wf_ids m = true → elements_read_whole m partialDemangle → borrow_pass m partialDemangle demangle fuel = Some vs →
  vs = pre ++ (root, Borrowed pops) :: post → (∀ r why at_, (r, NotBorrowed why at_) ∉ pre) →
  ∃ id, attr_int root kQueueIdAttrName = Some id ∧ pops = pops_of m id ∧
    ∀ pop, pop ∈ pops → pop_borrows m partialDemangle pop id (queue_type_of_root m root).
Proof.
  intros Hwf Hwh. unfold borrow_pass. destruct (borrow_roots _ _ _ _ _ _) as [[vs' s']|] eqn:E; cbn; [|done].
  intros [= ->]. eapply borrow_roots_sound; [done|done|apply trusted_empty|exact E].
Qed.

(** C40: The borrow check answers.  In a module where what a pointer flows
    into, through steps, casts and private slots, can be ranked below it,
    the check of a pop answers, accepting or refusing, with fuel for the
    calls it may follow and one step for each function. *)
Theorem borrow_answers (m : module) (partialDemangle : string → option demangled) (demangle : string → string)
    (rank : value → nat) (N fuel : nat) (pop : operation) (id : Z) (qt : option ty) (s : param_memo) :
  (∀ v, (rank v ≤ N)%nat) → (∀ v w, flows m v w → (rank w < rank v)%nat) →
  (∀ v o i, (o, i) ∈ uses m v → op_kind o = KBaseClassAddr → (rank (result o) < rank v)%nat) →
  (S (S (S kFollow)) * S N + N < fuel)%nat → (List.length m < fuel)%nat →
  ∃ r s', checkPop m partialDemangle demangle fuel pop id qt s = Some (r, s').
Proof.
  intros Hr Hf Hb Hfuel Hm. unfold checkPop, refuse, fine. destruct (pop_is_transfer pop); [by eexists _, _|].
  destruct (getOut pop) as [out|]; [|by eexists _, _]. destruct (is_alloca_value m (Some out)) as [slot|]; [|by eexists _, _].
  destruct (slot_region m slot) as [[o k]|]; [|by eexists _, _]. destruct (negb _); [by eexists _, _|].
  destruct (checkSlotUses_answers m partialDemangle demangle rank N Hr Hf Hb fuel (result slot) pop s) as (r & s1 & ->).
  { pose proof (Hr (result slot)). unfold enough. lia. }
  cbn. destruct r; [by eexists _, _|].
  destruct (scope_walk_answers m partialDemangle demangle id qt fuel pop (region_walk o k) ∅) as (r' & s2 & ->).
  { unfold unasked. pose proof (filter_length_le (λ f, negb (is_some ((∅ : pop_memo) !! op_id f))) (λ _, true) m ltac:(done)) as H.
    replace (List.filter (λ _, true) m) with m in H; [lia|]. clear. induction m as [|x l IH]; [done|]. cbn. by f_equal. }
  by eexists _, _.
Qed.

(** ** Modules *)
Section example.

Definition bx_func (i : nat) (n : string) (params : list ty) (ops : list operation) : operation :=
  Op i "cir.func" n (KFunc (Func n false false None None None (List.length params))) [] [] []
    [[Block i params ops]].
Definition bx_decl (i : nat) (n : string) : operation :=
  Op i "cir.func" n (KFunc (Func n false false None None None 1)) [] [] [] [[]].
Definition bx_call (i : nat) (n : string) (args : list value) (results : list ty) : operation :=
  Op i "cir.call" n (KCall (CallAttrs (Some n) true None)) args results [] [].
Definition elt_ty : ty := PtrTy (RecordTy "element").
Definition bx_queue (i : nat) (n : string) (id : Z) : operation :=
  Op i "cir.global" n (KGlobal (Global n (RecordTy n) false None)) [] []
    [(kQueueIdAttrName, AInt id); (kTopologyAttrName, ATopology Tspsc)] [].
Definition bx_global (i : nat) (n : string) : operation :=
  Op i "cir.global" n (KGlobal (Global n elt_ty false None)) [] [] [] [].
Definition bx_get_global (i : nat) (n : string) : operation :=
  Op i "cir.get_global" n (KGetGlobal n) [] [PtrTy elt_ty] [] [].
Definition bx_alloca (i : nat) (t : ty) : operation := Op i "cir.alloca" "slot" KAlloca [] [PtrTy t] [] [].
Definition bx_load (i : nat) (v : value) : operation := Op i "cir.load" "load" (KLoad false) [v] [elt_ty] [] [].
Definition bx_store (i : nat) (v a : value) : operation := Op i "cir.store" "store" KStore [v; a] [] [] [].
Definition bx_stride (i : nat) (v n : value) : operation :=
  Op i "cir.ptr_stride" "stride" KPtrStride [v; n] [elt_ty] [] [].
Definition bx_pop (i : nat) (id : Z) (q out : value) : operation :=
  Op i "wtc.queue_pop" "pop" (KWtc (QueuePopOp false false false false false)
    (WtcAttrs None None None None (Some id) None)) [q; out] [IntTy 1 false] [] [].

(** A consumer: a slot for the shared_ptr, a pop into it, the pointer. *)
Definition bx_consumer (i : nat) (n queue : string) (id : Z) (next : value → list operation) : operation :=
  bx_func i n []
    ([bx_alloca (i + 1) (RecordTy "shared_ptr"); bx_get_global (i + 2) queue;
      bx_pop (i + 3) id (VRes (i + 2) 0) (VRes (i + 1) 0);
      bx_call (i + 4) "get" [VRes (i + 1) 0] [elt_ty]] ++ next (VRes (i + 4) 0)).

Definition bx_demangle (n : string) : option demangled :=
  if String.eqb n "get" then Some (Demangled true (Some "std::shared_ptr<element>") (Some "get") (Some "()") false)
  else None.

(** The pointer is kept in a private slot, read back, and passed to [read],
    which reads through it and passes it to itself. *)
Definition bx_good : module :=
  [bx_queue 1 "q" 7; bx_decl 2 "get";
   bx_func 3 "read" [elt_ty] [bx_load 4 (VArg 3 0); bx_call 5 "read" [VArg 3 0] []];
   bx_consumer 10 "consumer" "q" 7 (λ p,
     [bx_alloca 20 elt_ty; bx_store 21 p (VRes 20 0); bx_load 22 (VRes 20 0); bx_call 23 "read" [VRes 22 0] []])].

Definition verdicts (m : module) (fuel : nat) : option (list (string * bool)) :=
  option_map (omap (λ p, match snd p with
      | Borrowed _ => Some (default "" (symbol (fst p)), true)
      | NotBorrowed _ _ => Some (default "" (symbol (fst p)), false)
      | NotAsked => None
      end)) (borrow_pass m bx_demangle id fuel).

Example bx_good_borrowed : verdicts bx_good 40 = Some [("q", true)].
Proof. by vm_compute. Qed.

(** [f] and [g] call each other with the pointer, and [f] stores it in a
    global.  The check of the first queue's pop asks [f], which asks [g]:
    [g] meets [f] in the memo, taken to be fine, and is recorded as fine
    itself; then [f] is refused.  The second queue's pop asks [g]: the
    record stands, and the queue is marked borrowed. *)
Definition bx_f : operation :=
  bx_func 5 "f" [elt_ty]
    [bx_call 6 "g" [VArg 5 0] []; bx_get_global 7 "kept"; bx_store 8 (VArg 5 0) (VRes 7 0)].
Definition bx_g : operation := bx_func 9 "g" [elt_ty] [bx_call 10 "f" [VArg 9 0] []].
Definition bx_stale : module :=
  [bx_queue 1 "q1" 1; bx_queue 2 "q2" 2; bx_global 3 "kept"; bx_decl 4 "get"; bx_f; bx_g;
   bx_consumer 20 "c1" "q1" 1 (λ p, [bx_call 30 "f" [p] []]);
   bx_consumer 40 "c2" "q2" 2 (λ p, [bx_call 50 "g" [p] []])].

Lemma into_call (m : module) (p v : value) (o : operation) (i b : nat) (f : operation) :
  into m p v → (o, i) ∈ uses m v → is_some (as_call o) = true → lookupCallee m o = Some f →
  option_map block_id (head (body f)) = Some b → into m p (VArg b i).
Proof.
  unfold as_call. destruct (op_kind o) eqn:Hk; try done. intros Hv Ho _ Hf.
  destruct (body f) eqn:Hb; [done|]. intros [= <-]. by eapply into_param.
Qed.

Example stale_memo_accepts :
  verdicts bx_stale 40 = Some [("q1", false); ("q2", true)] ∧
  into bx_stale (VRes 44 0) (VArg 5 0) ∧
  ∃ o i, (o, i) ∈ uses bx_stale (VArg 5 0) ∧ ¬ harmless bx_stale (VArg 5 0) o i.
Proof.
  split; [by vm_compute|]. split.
  - apply (into_call _ _ (VArg 9 0) (bx_call 10 "f" [VArg 9 0] []) 0 5 bx_f);
      [apply (into_call _ _ (VRes 44 0) (bx_call 50 "g" [VRes 44 0] []) 0 9 bx_g); [constructor|..]|..];
      try (vm_compute; reflexivity); vm_compute; by left.
  - exists (bx_store 8 (VArg 5 0) (VRes 7 0)), 0%nat. split; [vm_compute; by right; left|].
    intros H. destruct (H eq_refl) as (slot & Hs & _). vm_compute in Hs. done.
Qed.

(** The slot the pointer is kept in is read through a cast of its address,
    which the code does not follow, and what is read is stored in a
    global. *)
Definition bx_cast : module :=
  [bx_queue 1 "q" 7; bx_decl 2 "get"; bx_global 3 "kept";
   bx_consumer 10 "consumer" "q" 7 (λ p,
     [bx_alloca 20 elt_ty; bx_store 21 p (VRes 20 0);
      Op 22 "cir.cast" "cast" (KCast Cbitcast) [VRes 20 0] [PtrTy elt_ty] [] [];
      bx_load 23 (VRes 22 0); bx_get_global 24 "kept"; bx_store 25 (VRes 23 0) (VRes 24 0)])].

Example cast_slot_accepts :
  verdicts bx_cast 40 = Some [("q", true)] ∧ slots_plain bx_cast = false ∧
  into bx_cast (VRes 14 0) (VRes 23 0) ∧
  ∃ o i, (o, i) ∈ uses bx_cast (VRes 23 0) ∧ ¬ harmless bx_cast (VRes 23 0) o i.
Proof.
  split; [by vm_compute|]. split; [by vm_compute|]. split.
  - apply (into_slot bx_cast (VRes 14 0) (VRes 14 0) (bx_store 21 (VRes 14 0) (VRes 20 0)) 0 (bx_alloca 20 elt_ty) (VRes 22 0) (bx_load 23 (VRes 22 0)));
      [constructor|vm_compute; by left|done|done|by vm_compute| |vm_compute; by left|done].
    apply (derived_step _ _ (VRes 20 0) (Op 22 "cir.cast" "cast" (KCast Cbitcast) [VRes 20 0] [PtrTy elt_ty] [] []));
      [constructor|vm_compute; by right; left|done].
  - exists (bx_store 25 (VRes 23 0) (VRes 24 0)), 0%nat. split; [vm_compute; by left|].
    intros H. destruct (H eq_refl) as (slot & Hs & _). vm_compute in Hs. done.
Qed.

(** A pointer stepped through a slot, as a loop over an array in the
    element does: the value loaded from the slot is stepped and stored back
    to it, so following the pointer comes back to the load. *)
Definition bx_loop : module :=
  [bx_queue 1 "q" 7; bx_decl 2 "get";
   bx_consumer 10 "consumer" "q" 7 (λ p,
     [bx_alloca 20 elt_ty; bx_store 21 p (VRes 20 0);
      Op 22 "cir.for" "loop" KFor [] [] [] [[]; [Block 22 [] [
        bx_load 23 (VRes 20 0); Op 24 "cir.const" "1" (KConstant (CInt 64 1)) [] [IntTy 64 true] [] [];
        bx_stride 25 (VRes 23 0) (VRes 24 0); bx_store 26 (VRes 25 0) (VRes 20 0)]]; []]])].

Lemma loop_none (fuel : nat) (depth : nat) (s : param_memo) :
  (depth ≤ kFollow)%nat →
  checkPointer bx_loop id fuel (VRes 23 0) depth s = None ∧ checkPointer bx_loop id fuel (VRes 25 0) depth s = None.
Proof.
  intros Hd. induction fuel as [|n [IH1 IH2]]; [done|]. cbn [checkPointer].
  replace (kFollow <? depth)%nat with false by (symmetry; by apply Nat.ltb_ge).
  assert (uses bx_loop (VRes 23 0) = [(bx_stride 25 (VRes 23 0) (VRes 24 0), 0%nat)]) as -> by by vm_compute.
  assert (uses bx_loop (VRes 25 0) = [(bx_store 26 (VRes 25 0) (VRes 20 0), 0%nat)]) as -> by by vm_compute.
  split.
  - cbn [check_all check_use op_kind bx_stride Nat.eqb negb]. change (result (bx_stride _ _ _)) with (VRes 25 0).
    by rewrite IH2.
  - cbn [check_all check_use op_kind bx_store].
    assert (is_alloca_value bx_loop (store_addr (bx_store 26 (VRes 25 0) (VRes 20 0))) = Some (bx_alloca 20 elt_ty)) as ->
      by by vm_compute.
    assert (addressEscapes bx_loop (bx_alloca 20 elt_ty) = false) as -> by by vm_compute.
    assert (slot_loads bx_loop (bx_alloca 20 elt_ty) = [bx_load 23 (VRes 20 0)]) as -> by by vm_compute.
    cbn [check_all]. change (result (bx_load 23 _)) with (VRes 23 0).
    rewrite bool_decide_eq_true_2 by done. cbn [negb]. by rewrite IH1.
Qed.

Lemma loop_entry (fuel : nat) (s : param_memo) : checkPointer bx_loop id fuel (VRes 14 0) 0 s = None.
Proof.
  destruct fuel as [|n]; [done|]. cbn [checkPointer].
  assert (uses bx_loop (VRes 14 0) = [(bx_store 21 (VRes 14 0) (VRes 20 0), 0%nat)]) as -> by by vm_compute.
  rewrite (proj2 (Nat.ltb_ge kFollow 0)) by (unfold kFollow; lia).
  cbn [check_all check_use op_kind bx_store].
  assert (is_alloca_value bx_loop (store_addr (bx_store 21 (VRes 14 0) (VRes 20 0))) = Some (bx_alloca 20 elt_ty)) as ->
    by by vm_compute.
  assert (addressEscapes bx_loop (bx_alloca 20 elt_ty) = false) as -> by by vm_compute.
  assert (slot_loads bx_loop (bx_alloca 20 elt_ty) = [bx_load 23 (VRes 20 0)]) as -> by by vm_compute.
  cbn [check_all]. change (result (bx_load 23 _)) with (VRes 23 0).
  rewrite bool_decide_eq_true_2 by done. cbn [negb]. rewrite (proj1 (loop_none n 0 s ltac:(unfold kFollow; lia))). done.
Qed.

(** However much fuel: the check never answers. *)
Example pointer_loop_diverges (fuel : nat) (s : param_memo) :
  checkPop bx_loop bx_demangle id fuel (bx_pop 13 7 (VRes 12 0) (VRes 11 0)) 7 None s = None.
Proof.
  unfold checkPop. cbn [pop_is_transfer op_kind bx_pop].
  change (getOut _) with (Some (VRes 11 0)). cbn match.
  assert (is_alloca_value bx_loop (Some (VRes 11 0)) = Some (bx_alloca 11 (RecordTy "shared_ptr"))) as -> by by vm_compute.
  destruct (slot_region bx_loop (bx_alloca 11 (RecordTy "shared_ptr"))) as [[o k]|] eqn:Er; [|by vm_compute in Er].
  assert (region_holds bx_loop o k 13 = true) as Eh.
  { vm_compute in Er. injection Er as <- <-. by vm_compute. }
  change (op_id _) with 13%nat. rewrite Eh. cbn [negb].
  enough (checkSlotUses bx_loop bx_demangle id fuel (VRes 11 0) (bx_pop 13 7 (VRes 12 0) (VRes 11 0)) s = None) as E.
  { change (result (bx_alloca 11 _)) with (VRes 11 0). fold (bx_pop 13 7 (VRes 12 0) (VRes 11 0)). by rewrite E. }
  destruct fuel as [|n]; [done|]. cbn [checkSlotUses].
  assert (uses bx_loop (VRes 11 0) = [(bx_pop 13 7 (VRes 12 0) (VRes 11 0), 1%nat);
                                      (bx_call 14 "get" [VRes 11 0] [elt_ty], 0%nat)]) as -> by by vm_compute.
  cbn [check_all fst]. change (op_id (bx_pop _ _ _ _) =? _)%nat with true. cbn match. unfold fine. cbn [mbind option_bind].
  change (op_id (bx_call _ _ _ _) =? _)%nat with false. cbn match. cbn [op_kind bx_call].
  assert (classifySharedPtrCall bx_demangle (lookupCallee bx_loop (bx_call 14 "get" [VRes 11 0] [elt_ty])) = SPGet) as ->
    by by vm_compute.
  change (result (bx_call 14 _ _ _)) with (VRes 14 0). cbn [result_types List.length Nat.eqb negb]. by rewrite loop_entry.
Qed.

Lemma borrow_sound_witness :
  ∃ vs pre post root pops,
    borrow_pass bx_good bx_demangle id 40 = Some vs ∧ vs = pre ++ (root, Borrowed pops) :: post ∧
    ∃ id, attr_int root kQueueIdAttrName = Some id ∧ pops = pops_of bx_good id ∧
      ∀ pop, pop ∈ pops → pop_borrows bx_good bx_demangle pop id (queue_type_of_root bx_good root).
Proof.
  eexists _, [], _, _, _. split; [vm_compute; reflexivity|]. split; [reflexivity|].
  eapply (borrow_sound bx_good bx_demangle id 40 _ []); [by vm_compute|intros o _ _; by apply plain_read_whole|vm_compute; reflexivity|reflexivity|].
  by intros r why at_ ?%elem_of_nil.
Defined.

(** In [bx_good] the pointer flows once, through the slot. *)
Definition bx_rank (v : value) : nat := if bool_decide (v = VRes 14 0) then 1 else 0.

Lemma borrow_answers_witness :
  ∃ r s', checkPop bx_good bx_demangle id 40 (bx_pop 13 7 (VRes 12 0) (VRes 11 0)) 7 None ∅ = Some (r, s').
Proof.
  apply (borrow_answers bx_good bx_demangle id bx_rank 1 40).
  - intros v. unfold bx_rank. case_bool_decide; lia.
  - intros v w [o i Hu Hs|o i slot ld Hu Hk Hv Ha Hl]; apply elem_of_uses in Hu as [Hu Ho].
    + unfold walk_module in Hu; repeat (apply elem_of_cons in Hu as [->|Hu]; [done|]); by apply elem_of_nil in Hu.
    + repeat (apply elem_of_cons in Hu as [->|Hu];
        [first [done | cbn in Hv; injection Hv as <-; vm_compute in Ha; injection Ha as <-;
           vm_compute in Hl; apply list_elem_of_singleton in Hl as ->; by vm_compute; lia]|]).
      by apply elem_of_nil in Hu.
  - intros v o i Hu Hk. apply elem_of_uses in Hu as [Hu _].
    repeat (apply elem_of_cons in Hu as [->|Hu]; [done|]). by apply elem_of_nil in Hu.
  - unfold kFollow. lia.
  - cbn. lia.
Defined.
End example.
