(* ===== verification/Places.v ===== *)
(** * Places: which object an address points into
      (mlir/lib/WTC/Transforms/ThreadInstances.cpp)

    What the passes over the thread walk ask about memory: which functions
    are worth an instance ([reachesOp]), what a pointer kept in a global is
    ([singleStoredGlobalValue]), and the object behind an address under an
    instance, through casts, allocation wrappers, globals stored once and the
    parameters of the call chain ([resolveRoot], the form that names one
    object and no offset).

    Parameters, as in [Threads]: the callable a std::thread starts, the
    callables its invokers run, and the functions an entry field may hold. *)

From stdpp Require Import base tactics list strings gmap.
From Stdlib Require Import String ZArith Lia.
From S2P Require Import Prelude Text Cir Utils Slots Frames Graph Exec Threads.
Local Open Scope string_scope.
Local Open Scope list_scope.

Module Places.
Import Threads.

(** Insertion into a [SmallSetVector]. *)
Definition insert_new (t : nat) (l : list nat) : list nat := if existsb (Nat.eqb t) l then l else l ++ [t].
Definition or_else {A} (a b : option A) : option A := match a with Some _ => a | None => b end.

Lemma insert_new_spec t l u : u ∈ insert_new t l → u = t ∨ u ∈ l.
Proof. unfold insert_new. destruct (existsb _ _); [by right|]. rewrite elem_of_app, list_elem_of_singleton. tauto. Qed.

Section places.
Variable m : module.

(** ** The functions worth an instance *)

Variable invokeTargets : nat → option (list operation * bool).
Variable stdThreadEntry : operation → option operation.
Variable entryFieldFunctions : value → option (list operation).
Variable pred : operation → bool.

Definition isStdThreadStart (f : operation) : bool := contains (name_of_func f) "6thread15_M_start_thread".
Definition entryComesFromParameter (v : value) : bool :=
  match type_of m v with
  | Some (PtrTy FuncTy) => match traceToRoot m v with VArg _ _ => true | VRes _ _ => false end
  | _ => false
  end.

(** What a call in a function says: the functions it leads to, and whether
    it counts as the predicate itself. *)
Definition call_leads (call : operation) : list operation * bool :=
  match lookupCallee m call with
  | None => ([], false)
  | Some callee =>
      if is_spawn callee then
        if isStdThreadStart callee then (match stdThreadEntry call with Some e => [e] | None => [] end, false)
        else match operands call !! spawnEntryOperand m call with
        | None => ([], false)
        | Some k =>
            match match resolveFunctionOperand m k with Some e => Some e | None => resolveFunctionOperand m (traceToRoot m k) end with
            | Some e => ([e], false)
            | None => match entryFieldFunctions k with Some l => (l, false) | None => ([], entryComesFromParameter k) end
            end
        end
      else if has_body callee then ([callee], false) else ([], false)
  end.
Definition op_leads (o : operation) : list operation * bool :=
  if pred o then ([], true) else if is_call o then call_leads o else ([], false).

Definition directly (fn : operation) : bool := has_body fn && existsb (λ o, snd (op_leads o)) (walk fn).
Definition leads_to (fn g : operation) : bool := has_body fn && existsb (λ o, existsb (λ e, (op_id e =? op_id g)%nat) (fst (op_leads o))) (walk fn).

(** The functions one step above [g]. *)
Definition callers (g : nat) : list nat :=
  map op_id (List.filter (λ fn, match find_op m g with Some o => leads_to fn o | None => false end) (functions m)) ++
  map op_id (List.filter (λ f, existsb (λ c, (op_id c =? g)%nat) (invoke_funcs invokeTargets (op_id f))) (invokers m invokeTargets)).

Definition direct_functions : list nat := map op_id (List.filter directly (functions m)).
Definition reaching : gset nat := Graph.propagate callers (fuel_of m) (list_to_set direct_functions) direct_functions.
Definition reachesOp (f : operation) : bool := bool_decide (op_id f ∈ reaching).

(** ** What a global holds *)

Definition global_of (o : operation) : option global := match op_kind o with KGlobal g => Some g | _ => None end.
Definition aliasee_of (o : operation) : option string := match get_attr (op_attrs o) "aliasee" with Some (AStr s) => Some s | _ => None end.

(** The names of globals used anywhere but in a get_global: in another
    operation's attributes, in an initialiser, by an alias. *)
Definition names_used (o : operation) : list string :=
  match op_kind o with
  | KGetGlobal _ => []
  | _ => omap (λ a, match snd a with ASym s => Some s | _ => None end) (op_attrs o) ++ match aliasee_of o with Some s => [s] | None => [] end
  end.
Definition spoiled_name (g : operation) : bool :=
  existsb (λ o, existsb (λ n, match lookup_global m n with Some h => (op_id h =? op_id g)%nat | None => false end) (names_used o)) (walk_module m).

(** The uses of a global's address, through reinterpretations: the stores
    through it, and whether it goes anywhere else. *)
Definition address_use (p : value) (acc : list operation * list value * bool) (u : operation * nat) : list operation * list value * bool :=
  let '(stores, work, bad) := acc in
  match op_kind (fst u) with
  | KLoad _ => acc
  | KStore => if bool_decide (store_addr (fst u) = Some p) then (stores ++ [fst u], work, bad) else (stores, work, true)
  | KCast Cbitcast => (stores, work ++ [result (fst u)], bad)
  | _ => (stores, work, true)
  end.
Fixpoint address_uses (fuel : nat) (work : list value) (stores : list operation) (bad : bool) : list operation * bool :=
  match fuel, rev work with
  | S fuel, p :: rest =>
      let '(stores, work, bad) := fold_left (address_use p) (uses m p) (stores, rev rest, bad) in
      address_uses fuel work stores bad
  | _, _ => (stores, bad)
  end.

Definition get_globals (g : operation) : list operation :=
  List.filter (λ o, match op_kind o with
    | KGetGlobal n => match lookup_global m n with Some h => (op_id h =? op_id g)%nat | None => false end
    | _ => false
    end) (walk_module m).
Definition is_pointer (t : ty) : bool := match t with PtrTy _ => true | _ => false end.

(** The stores into a global, none if its address is used otherwise. *)
Definition globalMultiStores (g : operation) : list operation :=
  match global_of g with
  | Some d =>
      if negb (is_pointer (global_type d)) then []
      else
        let r := map (λ gg, address_uses (S (List.length (walk_module m))) [result gg] [] false) (get_globals g) in
        if spoiled_name g || existsb snd r then [] else concat (map fst r)
  | None => []
  end.

Definition null_or_none (c : option const) : bool := match c with None => true | Some (CPtr a) => (a =? 0)%Z | Some _ => false end.
Definition singleStoredGlobalValue (g : operation) : option value :=
  match global_of g with
  | Some d =>
      if negb (null_or_none (initial_value d)) then None
      else match globalMultiStores g with [st] => store_value st | _ => None end
  | None => None
  end.

(** ** The object behind an address *)

(** The call in a std::thread constructor that builds the state object. *)
Definition builds_state (call : operation) : bool :=
  match lookupCallee m call, operands call with
  | Some callee, v :: _ =>
      let n := name_of_func callee in
      String.prefix "_ZNSt6thread11_State_impl" n && (contains n "EC2I" || contains n "EC1I") &&
      match type_of m v with Some (PtrTy (RecordTy _)) => true | _ => false end
  | _, _ => false
  end.
Definition stateConstructorCall (threadCtor : operation) : option operation :=
  if body_empty threadCtor then None else List.find builds_state (calls_in threadCtor).

(** Eight aliases are followed. *)
Fixpoint aliased (hops : nat) (g : option operation) : option operation :=
  match hops, g with
  | S hops, Some o => match aliasee_of o with Some n => aliased hops (lookup_global m n) | None => g end
  | _, _ => g
  end.

Definition one_site (sites : list operation) : option operation := match sites with [s] => Some s | _ => None end.

(** A pointer loaded: from a global stored once, what was stored there. *)
Definition root_of_load (ld : operation) : option operation :=
  match load_addr ld with
  | None => None
  | Some a =>
      match defining_op m (traceToLocalRoot m a) with
      | Some at_ =>
          match op_kind at_ with
          | KGetGlobal n =>
              match match lookup_global m n with Some g => singleStoredGlobalValue g | None => None end with
              | None => None
              | Some stored =>
                  match defining_op m (traceToRoot m stored) with
                  | Some s =>
                      match op_kind s with
                      | KCall _ => one_site (allocationsBehind m s)
                      | KGetGlobal k => lookup_global m k
                      | _ => None
                      end
                  | None => None
                  end
              end
          | _ => None
          end
      | None => None
      end
  end.

(** The value a parameter of an instance stands for in the caller. *)
Definition passed (inst : instance) (i : nat) : option value :=
  match i_site inst with
  | None => None
  | Some site =>
      match lookupCallee m site with
      | Some callee =>
          if is_spawn callee then
            if isStdThreadStart callee then
              if (i =? 0)%nat then
                match enclosing_func m (op_id site) with
                | Some ctor => match stateConstructorCall ctor with Some sc => operands sc !! 0%nat | None => None end
                | None => None
                end
              else None
            else operands site !! (spawnFirstArgOperand m site + i)%nat
          else operands site !! i
      | None => operands site !! i
      end
  end.

(** [resolveRoot], from [depth] on: [resolveRootImpl] asked for no place and
    no set of places. *)
Fixpoint resolve_root (fuel depth : nat) (v : value) (inst : option instance) : option operation :=
  match fuel with
  | O => None
  | S fuel =>
      if (64 <? depth)%nat then None
      else
        let t := traceToRoot m v in
        match defining_op m t with
        | Some d =>
            match op_kind d with
            | KCall _ => one_site (allocationsBehind m d)
            | KLoad _ => root_of_load d
            | KGetGlobal n => aliased 8 (lookup_global m n)
            | KAlloca => Some d
            | _ => None
            end
        | None =>
            match inst with
            | None => None
            | Some i =>
                match argument_of (i_func i) t with
                | Some k => match passed i k with Some w => resolve_root fuel (S depth) w (i_parent i) | None => None end
                | None => None
                end
            end
        end
  end.
Definition resolveRoot (v : value) (inst : instance) : option operation := resolve_root 66 0 v (Some inst).
End places.

(** ** Roots are operations of the module *)

Section roots.
Variable m : module.

Definition all_calls (st : list operation * bool) : Prop := Forall (λ c, is_call c = true) (fst st).
Lemma fold_left_keeps {A B} (P : B → Prop) (f : B → A → B) l b : (∀ b a, P b → P (f b a)) → P b → P (fold_left f l b).
Proof. intros Hf. revert b. induction l as [|a l IH]; cbn; auto. Qed.
Lemma allocations_step rv call depth st : (∀ d v st, all_calls st → all_calls (rv d v st)) → is_call call = true → all_calls st →
  all_calls (allocationsBehindImpl m rv call depth st).
Proof.
  intros Hrv Hc Hs. unfold allocationsBehindImpl. destruct (lookupCallee m call) as [f|]; [|exact Hs].
  destruct (isAllocator f).
  - destruct (op_in _ _); [done|]. apply Forall_app. split; [exact Hs|]. by constructor.
  - destruct (_ || _); [exact Hs|]. apply fold_left_keeps; [|done]. intros b r Hb. destruct (snd b); [done|]. destruct (operands r) as [|v [|? ?]]; [exact Hb|by apply Hrv|exact Hb].
Qed.
Lemma returned_calls fuel : ∀ depth v st, all_calls st → all_calls (returnedValue m fuel depth v st).
Proof.
  induction fuel as [|fuel IH]; intros depth v st Hs; cbn [returnedValue]; [exact Hs|].
  destruct (snd st); [done|]. destruct (_ <? _)%nat; [exact Hs|]. destruct (is_null _ _); [done|]. destruct (defining_op m _) as [d|]; [|exact Hs].
  destruct (op_kind d) eqn:E; try exact Hs.
  - destruct (load_addr d) as [a|]; [|exact Hs]. destruct (defining_op m a) as [slot|]; [|exact Hs]. destruct (_ && _); [|exact Hs].
    destruct (List.filter _ _) as [|u us]; [exact Hs|]. apply fold_left_keeps; [|done]. intros b x Hb. destruct (store_value x); [by apply IH|exact Hb].
  - apply allocations_step; [done| |done]. unfold is_call, as_call. by rewrite E.
Qed.
Lemma one_site_call d s : is_call d = true → one_site (allocationsBehind m d) = Some s → is_call s = true.
Proof.
  intros Hd. unfold allocationsBehind. pose proof (allocations_step (returnedValue m 10) d 0 ([], false) (returned_calls 10) Hd (Forall_nil_2 _)) as Hc.
  destruct (allocationsBehindImpl m (returnedValue m 10) d 0 ([], false)) as [sites bad]. unfold all_calls in Hc. cbn in Hc. destruct bad; [done|].
  destruct sites as [|x [|? ?]]; cbn; [done| |done]. intros [= ->]. by inversion Hc.
Qed.

Lemma lookup_global_in n g : lookup_global m n = Some g → g ∈ walk_module m.
Proof.
  unfold lookup_global, lookup_symbol. destruct (List.find _ m) as [o|] eqn:E; [|done]. apply find_some in E as [Ho _].
  intros Hg. assert (o = g) as -> by (destruct (op_kind o); congruence). unfold walk_module. apply list_elem_of_In, in_flat_map. exists g. split; [done|].
  rewrite walk_children. apply in_app_iff. right. by left.
Qed.
Lemma aliased_in hops g r : aliased m hops g = Some r → (∀ o, g = Some o → o ∈ walk_module m) → r ∈ walk_module m.
Proof.
  revert g. induction hops as [|hops IH]; intros [o|] H Hg; cbn in H; simplify_eq; [by apply Hg|].
  destruct (aliasee_of o) as [n|]; [|simplify_eq; by apply Hg]. apply (IH _ H). intros x Hx. by eapply lookup_global_in.
Qed.
Lemma defining_op_in v d : defining_op m v = Some d → d ∈ walk_module m.
Proof. destruct v as [i k|]; [|done]. intros H. by apply find_op_in in H as [H _]. Qed.
Lemma root_of_load_in ld r : root_of_load m ld = Some r → is_call r = true ∨ r ∈ walk_module m.
Proof.
  unfold root_of_load. destruct (load_addr ld); [|done]. destruct (defining_op m _) as [a|]; [|done]. destruct (op_kind a); try done.
  destruct (lookup_global m name); [|done]. destruct (singleStoredGlobalValue m o) as [v'|]; [|done]. destruct (defining_op m (traceToRoot m v')) as [s|]; [|done].
  destruct (op_kind s) eqn:E; try done.
  - intros H%lookup_global_in. by right.
  - intros H. left. eapply one_site_call; [|exact H]. unfold is_call, as_call. by rewrite E.
Qed.
Lemma resolve_root_in fuel : ∀ depth v inst r, resolve_root m fuel depth v inst = Some r → is_call r = true ∨ r ∈ walk_module m.
Proof.
  induction fuel as [|fuel IH]; intros depth v inst r; cbn [resolve_root]; [done|]. destruct (_ <? _)%nat; [done|].
  destruct (defining_op m (traceToRoot m v)) as [d|] eqn:Ed.
  - destruct (op_kind d) eqn:E; try done.
    + intros [= <-]. right. by eapply defining_op_in.
    + apply root_of_load_in.
    + intros H. right. eapply aliased_in; [exact H|]. intros o. apply lookup_global_in.
    + intros H. left. eapply one_site_call; [|exact H]. unfold is_call, as_call. by rewrite E.
  - destruct inst as [i|]; [|done]. destruct (argument_of _ _); [|done]. destruct (passed _ _ _); [|done]. apply IH.
Qed.
(** A global an address is resolved to is one of the module. *)
Lemma resolveRoot_global v inst r : resolveRoot m v inst = Some r → global_of r ≠ None → r ∈ walk_module m.
Proof.
  intros [Hc|]%resolve_root_in; [|done]. unfold is_call, as_call, global_of in *. by destruct (op_kind r).
Qed.
End roots.

(** ** [reachesOp] against paths in the call graph *)

Section reaches.
Variable m : module.
Variable invokeTargets : nat → option (list operation * bool).
Variable stdThreadEntry : operation → option operation.
Variable entryFieldFunctions : value → option (list operation).
Variable pred : operation → bool.
Abbreviation directly := (directly m stdThreadEntry entryFieldFunctions pred).
Abbreviation leads_to := (leads_to m stdThreadEntry entryFieldFunctions pred).
Abbreviation callers := (callers m invokeTargets stdThreadEntry entryFieldFunctions pred).
Abbreviation reachesOp := (reachesOp m invokeTargets stdThreadEntry entryFieldFunctions pred).

(** A function that has such an operation, or leads to one that may reach
    it: by a call, a spawn, or from inside std::thread. *)
Inductive may_reach : operation → Prop :=
| reach_here f : f ∈ functions m → directly f = true → may_reach f
| reach_call f g : f ∈ functions m → g ∈ functions m → leads_to f g = true → may_reach g → may_reach f
| reach_invoke f g c : f ∈ functions m → g ∈ functions m → f ∈ invokers m invokeTargets →
    c ∈ invoke_funcs invokeTargets (op_id f) → op_id c = op_id g → may_reach g → may_reach f.

Context (Hwf : wf_ids m = true).

Lemma functions_in f : f ∈ functions m → f ∈ walk_module m.
Proof. unfold functions. rewrite !list_elem_of_In, filter_In. tauto. Qed.
Lemma find_op_self f : f ∈ walk_module m → find_op m (op_id f) = Some f.
Proof. by apply find_op_wf. Qed.
Lemma elem_of_ids (p : operation → bool) l a : a ∈ map op_id (List.filter p l) ↔ ∃ f, f ∈ l ∧ p f = true ∧ op_id f = a.
Proof.
  rewrite list_elem_of_In, in_map_iff. setoid_rewrite filter_In. setoid_rewrite <-list_elem_of_In. naive_solver.
Qed.
Lemma invokers_in f : f ∈ invokers m invokeTargets → f ∈ functions m.
Proof. unfold invokers. rewrite !list_elem_of_In, filter_In. tauto. Qed.
Lemma callers_spec f g : f ∈ functions m → g ∈ functions m →
  op_id f ∈ callers (op_id g) ↔ leads_to f g = true ∨ f ∈ invokers m invokeTargets ∧ ∃ c, c ∈ invoke_funcs invokeTargets (op_id f) ∧ op_id c = op_id g.
Proof.
  intros Hf Hg. assert (Hsame : ∀ h, h ∈ functions m → op_id h = op_id f → h = f).
  { intros h Hh E. assert (Some h = Some f) as [= ->]; [|done]. rewrite <-(find_op_self h), <-(find_op_self f), E by by apply functions_in. done. }
  unfold Places.callers. rewrite (find_op_self g) by by apply functions_in. rewrite elem_of_app, !elem_of_ids. split.
  - intros [(h & Hh & Hl & E)|(h & Hh & Hl & E)].
    + apply Hsame in E as ->; [|done]. by left.
    + right. assert (h = f) as -> by (apply Hsame; [by apply invokers_in|done]). split; [done|].
      apply existsb_exists in Hl as (c & Hc & E'%Nat.eqb_eq). exists c. split; [by apply list_elem_of_In|done].
  - intros [Hl|(Hi & c & Hc & E)]; [left|right]; exists f; (split; [done|]); [done|]. split; [|done].
    apply existsb_exists. exists c. split; [by apply list_elem_of_In|by apply Nat.eqb_eq].
Qed.
Lemma callers_functions g : ∀ a, a ∈ callers g → ∃ f, f ∈ functions m ∧ op_id f = a.
Proof.
  intros a. unfold Places.callers. rewrite elem_of_app, !elem_of_ids.
  intros [(f & Hf & _ & <-)|(f & Hf & _ & <-)]; exists f; (split; [|done]); [done|by apply invokers_in].
Qed.
Lemma direct_functions_spec a : a ∈ direct_functions m stdThreadEntry entryFieldFunctions pred ↔ ∃ f, f ∈ functions m ∧ directly f = true ∧ op_id f = a.
Proof. apply elem_of_ids. Qed.
Lemma direct_functions_nodup : NoDup (direct_functions m stdThreadEntry entryFieldFunctions pred).
Proof.
  pose proof Hwf as Hids. apply bool_decide_eq_true in Hids. unfold direct_functions, functions. revert Hids. generalize (walk_module m). intros l.
  induction l as [|o l IH]; [done|]. cbn [map]. rewrite NoDup_cons. intros [Hn Hl]. specialize (IH Hl). cbn. destruct (as_func o); cbn; [|done].
  destruct (Places.directly _ _ _ _ o); cbn; [|done]. apply NoDup_cons. split; [|done]. rewrite elem_of_ids. intros (x & Hx & _ & E). apply Hn. rewrite <-E.
  apply list_elem_of_In, in_map. apply list_elem_of_In, filter_In in Hx. apply Hx.
Qed.

Lemma up_may_reach a b : rtc (λ x y, y ∈ callers x) a b → ∀ f g, f ∈ functions m → g ∈ functions m → op_id g = a → op_id f = b → may_reach g → may_reach f.
Proof.
  induction 1 as [a|a x b Hx _ IH]; intros f g Hf Hg Ea Eb Hr.
  - assert (Some f = Some g) as [= ->]; [|done]. rewrite <-(find_op_self f), <-(find_op_self g) by by apply functions_in. congruence.
  - destruct (callers_functions _ _ Hx) as (h & Hh & Eh). apply (IH f h Hf Hh Eh Eb).
    rewrite <-Ea, <-Eh in Hx. destruct (proj1 (callers_spec h g Hh Hg) Hx) as [Hl|(Hi & c & Hc & E)].
    + exact (reach_call h g Hh Hg Hl Hr).
    + exact (reach_invoke h g c Hh Hg Hi Hc E Hr).
Qed.

(** The set the walk is pruned with is what the call graph says: no
    function that may reach such an operation is left out, and no other is
    kept. *)
Theorem reachesOp_exact f : f ∈ functions m → reachesOp f = true ↔ may_reach f.
Proof.
  intros Hf. unfold Places.reachesOp, reaching. rewrite bool_decide_eq_true.
  rewrite (Graph.propagate_spec callers (list_to_set (map op_id (walk_module m)))).
  - split.
    + intros (w & Hw & Hr). apply elem_of_list_to_set, direct_functions_spec in Hw as (g & Hg & Hd & E). eapply up_may_reach; eauto using reach_here.
    + induction 1 as [f Hf' Hd|f g Hf' Hg Hl _ IH|f g c Hf' Hg Hi Hc E _ IH].
      * exists (op_id f). split; [|done]. apply elem_of_list_to_set, direct_functions_spec. by exists f.
      * destruct (IH Hg) as (w & Hw & Hr). exists w. split; [done|]. eapply rtc_r; [done|]. apply callers_spec; auto.
      * destruct (IH Hg) as (w & Hw & Hr). exists w. split; [done|]. eapply rtc_r; [done|]. apply callers_spec; [done|done|]. right. split; [done|]. by exists c.
  - intros g c _ Hc. apply callers_functions in Hc as (h & Hh & <-). apply elem_of_list_to_set, list_elem_of_In, in_map, list_elem_of_In. by apply functions_in.
  - intros a Ha%elem_of_list_to_set. apply direct_functions_spec in Ha as (h & Hh & _ & <-). apply elem_of_list_to_set, list_elem_of_In, in_map, list_elem_of_In. by apply functions_in.
  - intros g Hg. by apply elem_of_list_to_set.
  - intros g c Hg Hn. by apply elem_of_list_to_set in Hg.
  - pose proof direct_functions_nodup as Hnd. pose proof Hwf as Hids. apply bool_decide_eq_true in Hids.
    rewrite (size_list_to_set (C := gset nat)) by done. rewrite (size_list_to_set (C := gset nat)) by done. unfold fuel_of. rewrite List.length_map. lia.
Qed.
End reaches.

(** ** An alias stored in a global

    [resolveRootImpl] follows an alias named by a get_global to the object
    it stands for, so that two names for one storage are one root; the
    value stored in a global is not followed so. *)

Definition al_real : operation := Op 1 "cir.global" "" (KGlobal (Global "real" (RecordTy "r") false None)) [] [] [] [].
Definition al_other : operation := Op 2 "cir.global" "" (KGlobal (Global "other" (RecordTy "r") false None)) [] [] [("aliasee", AStr "real")] [].
Definition al_handle : operation := Op 3 "cir.global" "" (KGlobal (Global "handle" (PtrTy (RecordTy "r")) false (Some (CPtr 0)))) [] [] [] [].
Definition al_ops : list operation :=
  [Op 11 "cir.get_global" "" (KGetGlobal "other") [] [PtrTy (RecordTy "r")] [] [];
   Op 12 "cir.get_global" "" (KGetGlobal "handle") [] [PtrTy (PtrTy (RecordTy "r"))] [] [];
   Op 13 "cir.store" "" KStore [VRes 11 0; VRes 12 0] [] [] [];
   Op 14 "cir.load" "" (KLoad false) [VRes 12 0] [PtrTy (RecordTy "r")] [] []].
Definition al_main : operation := Op 10 "cir.func" "" (KFunc (Func "main" false false None None None 0)) [] [] [] [[Block 100 [] al_ops]].
Definition al_module : module := [al_real; al_other; al_handle; al_main].

Example alias_split :
  resolveRoot al_module (VRes 11 0) (root_instance al_main 0 One false true None) = Some al_real ∧
  resolveRoot al_module (VRes 14 0) (root_instance al_main 0 One false true None) = Some al_other.
Proof. by vm_compute. Qed.
End Places.
