(* ===== verification/AlignByOwner.v ===== *)
(** * AlignByOwner: globals of different threads on lines of their own
      (mlir/lib/WTC/Transforms/WTCAlignByOwner.cpp)

    The pass: what it records of each global under the instances of the
    thread walk, which pairs of globals contend, and which alignments it
    raises.  The theorem is about memory: in any layout the linker may
    choose afterwards, a raised global shares no line with the partner the
    remark names, and two threads that may both exist touch the two
    repeatedly. *)

From stdpp Require Import base tactics list strings gmap.
From Stdlib Require Import String ZArith Lia.
From S2P Require Import Prelude Text Cir Utils Slots Threads Places.
Local Open Scope string_scope.
Local Open Scope list_scope.

Module AlignByOwner.
Import Threads Places.

(** What ClangIR answers about a global. *)
Inductive linkage := ExternalLinkage | InternalLinkage | PrivateLinkage | ReplaceableLinkage.
Record global_facts := GlobalFacts {
  isDeclaration : bool;
  hasSection : bool;
  hasTlsModel : bool;
  hasComdat : bool;
  getLinkage : linkage
}.

Record RootInfo := Info {
  hotWriters : list nat;
  hotReaders : list nat;
  certain : list nat;
  firstHotWrite : option operation;
  firstHotAccess : option operation
}.
Definition info0 : RootInfo := Info [] [] [] None None.

(** [globals[root]], made when it is not there, in discovery order. *)
Fixpoint at_global (g : operation) (f : RootInfo → RootInfo) (l : list (operation * RootInfo)) : list (operation * RootInfo) :=
  match l with
  | [] => [(g, f info0)]
  | (h, r) :: l => if (op_id g =? op_id h)%nat then (h, f r) :: l else (h, r) :: at_global g f l
  end.

(** The alignment an operation carries. *)
Definition getAlignment (g : operation) : option Z := match get_attr (op_attrs g) "alignment" with Some (AInt n) => Some n | _ => None end.
Definition sym_type (g : operation) : option ty := option_map global_type (global_of g).
Definition is_global (o : operation) : bool := match global_of o with Some _ => true | None => false end.
Definition getConstant (g : operation) : bool := match global_of g with Some d => global_constant d | None => false end.
Definition same_op (a b : operation) : bool := (op_id a =? op_id b)%nat.
Definition insert_op (g : operation) (l : list operation) : list operation := if existsb (same_op g) l then l else l ++ [g].

Inductive outcome :=
| RefusedConst | RefusedFixed (why : string) | RefusedAligned | RefusedPartner
| Raise (other : operation) (have : Z).

Inductive remark :=
| GaveUp (cap : nat)
| LeftAlone (g : operation) (why : string)
| RaisedTo (g other : operation) (have size : Z) (would : bool) (touched : option operation)
| Summary (raised consts aligned partner fixed : nat) (bytesAdded : Z) (would : bool).

Section pass.
Variable m : module.
Variable isAddressTaken : operation → bool.
Variable invokeTargets : nat → option (list operation * bool).
Variable st : state.                          (* the finished walk *)
Variable cap : nat.
Variable facts : nat → global_facts.
Variable isIncomplete : ty → bool.
Variable typeABIAlignment : ty → Z.
Variable typeSize : ty → Z.
Variable line : Z.
Variable dryRun : bool.

(** ** What may move *)

Definition cannotMove (g : operation) : option string :=
  let d := facts (op_id g) in
  if isDeclaration d then Some "it is only declared here"
  else if hasSection d then Some "it sits in a named section"
  else if hasTlsModel d then Some "it is thread-local"
  else if hasComdat d then Some "it is in a comdat the linker may replace"
  else if match aliasee_of g with Some _ => true | None => false end then Some "it is an alias; the storage is the aliasee's"
  else match getLinkage d with
  | ReplaceableLinkage => Some "its linkage lets the linker pick another module's copy"
  | _ => match sym_type g with
      | Some t => if isIncomplete t then Some "its type is incomplete" else None
      | None => None
      end
  end.
Definition stays (g : operation) : bool := match cannotMove g with Some _ => true | None => false end.

(** The address of an access, stripped of member and cast steps. *)
Fixpoint object_address (fuel : nat) (cur : option value) : option value :=
  match fuel, cur with
  | S fuel, Some v =>
      match defining_op m v with
      | Some d => match op_kind d with
          | KGetMember => object_address fuel (option_map (traceToLocalRoot m) (operands d !! 0%nat))
          | _ => cur
          end
      | None => cur
      end
  | _, _ => None
  end.
Definition objectAddress (addr : value) : option value := object_address 64 (Some (traceToLocalRoot m addr)).

(** ** The record *)

(** A function that reaches no access to memory needs no instance. *)
Definition touchesMemory (o : operation) : bool := match memoryAccesses m o with [] => false | _ => true end.
Definition relevant (stdThreadEntry : operation → option operation) (entryFieldFunctions : value → option (list operation)) (f : operation) : bool :=
  reachesOp m invokeTargets stdThreadEntry entryFieldFunctions touchesMemory f.

(** Whether an access is known to repeat once threads exist. *)
Definition repeated (o : operation) (inst : instance) : bool :=
  let '(site, known) := siteMult m o (i_func inst) in
  negb (startupUncertain m isAddressTaken invokeTargets inst) && negb (inStartupPhase m isAddressTaken invokeTargets o inst) &&
  ((bool_decide (threadMult inst = Many) || bool_decide (execMult inst = Many)) && negb (execUnknown inst) || known && bool_decide (site = Many)).

(** The global an access is on. *)
Definition accessed (inst : instance) (ma : memory_access) : option operation :=
  match match acc_addr ma with Some a => objectAddress a | None => None end with
  | Some obj => match resolveRoot m obj inst with Some root => if is_global root then Some root else None | None => None end
  | None => None
  end.

Definition touch (o : operation) (inst : instance) (write : bool) (r : RootInfo) : RootInfo :=
  let certain' := if speculative inst then certain r else insert_new (i_thread inst) (certain r) in
  let first' := or_else (firstHotAccess r) (Some o) in
  if write then Info (insert_new (i_thread inst) (hotWriters r)) (hotReaders r) certain' (or_else (firstHotWrite r) (Some o)) first'
  else Info (hotWriters r) (insert_new (i_thread inst) (hotReaders r)) certain' (firstHotWrite r) first'.

Definition record (gs : list (operation * RootInfo)) (v : instance * operation * memory_access) : list (operation * RootInfo) :=
  let '(inst, o, ma) := v in
  match accessed inst ma with
  | Some root => if repeated o inst then at_global root (touch o inst (acc_write ma)) gs else gs
  | None => gs
  end.
Definition visits : list (instance * operation * memory_access) :=
  flat_map (λ i, flat_map (λ o, map (λ a, (i, o, a)) (memoryAccesses m o)) (walk (i_func i))) (instances st).
Definition globals : list (operation * RootInfo) := fold_left record visits [].

(** ** Pairs *)

Definition contends (x y : RootInfo) : bool :=
  existsb (λ w, existsb (Nat.eqb w) (certain x) &&
    existsb (λ u, negb (u =? w)%nat && existsb (Nat.eqb u) (certain y) && negb (exclusive m st w u)) (hotWriters y ++ hotReaders y)) (hotWriters x).

Fixpoint pairs (l : list (operation * RootInfo)) : list (operation * operation) :=
  match l with
  | [] => []
  | x :: l => map (λ y, (fst x, fst y)) (List.filter (λ y, contends (snd x) (snd y) || contends (snd y) (snd x)) l) ++ pairs l
  end.
Definition candidates (ps : list (operation * operation)) : list operation := fold_left (λ l p, insert_op (snd p) (insert_op (fst p) l)) ps [].
Definition partners (ps : list (operation * operation)) (g : operation) : list operation :=
  fold_left (λ l p, let l := if same_op (fst p) g then insert_op (snd p) l else l in if same_op (snd p) g then insert_op (fst p) l else l) ps [].

(** ** What is raised *)

Definition alignment_of (g : operation) : Z :=
  match getAlignment g with Some n => n | None => match sym_type g with Some t => typeABIAlignment t | None => 0%Z end end.
Definition size_of (g : operation) : Z := match sym_type g with Some t => typeSize t | None => 0%Z end.

(** A partner that will start a line of its own too. *)
Definition other_of (ps : list (operation * operation)) (g : operation) : option operation :=
  List.find (λ p, negb (getConstant p || stays p)) (partners ps g).

Definition decide_global (ps : list (operation * operation)) (g : operation) : outcome :=
  if getConstant g then RefusedConst
  else match cannotMove g with
  | Some why => RefusedFixed why
  | None =>
      let have := alignment_of g in
      if (line <=? have)%Z then RefusedAligned
      else match other_of ps g with None => RefusedPartner | Some other => Raise other have end
  end.

Definition remark_of (gs : list (operation * RootInfo)) (ps : list (operation * operation)) (g : operation) : list remark :=
  match decide_global ps g with
  | RefusedFixed why => [LeftAlone g why]
  | Raise other have =>
      let r := match List.find (λ x, same_op g (fst x)) gs with Some (_, r) => r | None => info0 end in
      [RaisedTo g other have (size_of g) dryRun (or_else (firstHotWrite r) (firstHotAccess r))]
  | _ => []
  end.
Definition how_many (p : outcome → bool) (os : list outcome) : nat := List.length (List.filter p os).
Definition bytes_added (os : list outcome) : Z :=
  fold_left (λ n o, match o with Raise _ have => u64 (n + (if (have <? line)%Z then line - have else 0))%Z | _ => n end) os 0%Z.
Definition summary (gs : list (operation * RootInfo)) (os : list outcome) : list remark :=
  match gs with
  | [] => []
  | _ => [Summary (how_many (λ o, match o with Raise _ _ => true | _ => false end) os) (how_many (λ o, match o with RefusedConst => true | _ => false end) os)
            (how_many (λ o, match o with RefusedAligned => true | _ => false end) os) (how_many (λ o, match o with RefusedPartner => true | _ => false end) os)
            (how_many (λ o, match o with RefusedFixed _ => true | _ => false end) os) (bytes_added os) dryRun]
  end.

Definition is_raised (ps : list (operation * operation)) (o : operation) : bool :=
  existsb (same_op o) (List.filter (λ g, match decide_global ps g with Raise _ _ => true | _ => false end) (candidates ps)).
Definition setAlignment (ps : list (operation * operation)) (o : operation) : kind * list (string * attr) :=
  (op_kind o, if is_raised ps o then set_attr (op_attrs o) "alignment" (AInt line) else op_attrs o).

(** The pass: the module after it, and what it says. *)
Definition runOnOperation : module * list remark :=
  if capExceeded st then (m, [GaveUp cap])
  else
    let gs := globals in
    let ps := pairs gs in
    let cs := candidates ps in
    (if dryRun then m else map_module (setAlignment ps) m, flat_map (remark_of gs ps) cs ++ summary gs (map (decide_global ps) cs)).
End pass.

(** ** What was recorded *)

Section sound.
Variable m : module.
Variable isAddressTaken : operation → bool.
Variable invokeTargets : nat → option (list operation * bool).
Variable st : state.
Variable cap : nat.
Variable facts : nat → global_facts.
Variable isIncomplete : ty → bool.
Variable typeABIAlignment : ty → Z.
Variable typeSize : ty → Z.
Variable line : Z.
Variable dryRun : bool.
Abbreviation globals := (globals m isAddressTaken invokeTargets st).
Abbreviation ps := (pairs m st globals).
Abbreviation alignment_of := (alignment_of typeABIAlignment).
Abbreviation decide_global := (decide_global facts isIncomplete typeABIAlignment line).

(** An instance of the thread makes this access, on the global, and it
    repeats. *)
Definition hot_access (g : operation) (t : nat) (write : bool) : Prop :=
  ∃ inst o ma, inst ∈ instances st ∧ o ∈ walk (i_func inst) ∧ ma ∈ memoryAccesses m o ∧ i_thread inst = t ∧ acc_write ma = write ∧
    repeated m isAddressTaken invokeTargets o inst = true ∧ ∃ g', accessed m inst ma = Some g' ∧ op_id g' = op_id g.
(** The thread descends from the program's own start. *)
Definition accounted_for (g : operation) (t : nat) : Prop := ∃ inst, inst ∈ instances st ∧ i_thread inst = t ∧ speculative inst = false.

Definition told (g : operation) (r : RootInfo) : Prop :=
  (∀ t, t ∈ hotWriters r → hot_access g t true) ∧ (∀ t, t ∈ hotReaders r → hot_access g t false) ∧
  (∀ t, t ∈ certain r → accounted_for g t).
Definition good_globals (l : list (operation * RootInfo)) : Prop :=
  NoDup (map (λ x, op_id (fst x)) l) ∧ ∀ g r, (g, r) ∈ l → told g r ∧ g ∈ walk_module m ∧ is_global g = true.

Lemma touch_told g inst o ma r :
  inst ∈ instances st → o ∈ walk (i_func inst) → ma ∈ memoryAccesses m o → repeated m isAddressTaken invokeTargets o inst = true →
  (∃ g', accessed m inst ma = Some g' ∧ op_id g' = op_id g) → told g r → told g (touch o inst (acc_write ma) r).
Proof.
  intros Hi Ho Ha Hr Hg (Hw & Hd & Hc).
  assert (∀ t, t ∈ (if speculative inst then certain r else insert_new (i_thread inst) (certain r)) → accounted_for g t) as Hc'.
  { intros t. destruct (speculative inst) eqn:E; [apply Hc|]. intros [->|H]%insert_new_spec; [by exists inst|by apply Hc]. }
  assert (hot_access g (i_thread inst) (acc_write ma)) as Hh by (exists inst, o, ma; eauto 10).
  unfold touch. destruct (acc_write ma); (split; [|split]); cbn; auto; intros t [->|H]%insert_new_spec; auto.
Qed.

Lemma at_global_told g (f : RootInfo → RootInfo) l :
  g ∈ walk_module m → is_global g = true → (∀ h r, op_id h = op_id g → told h r → told h (f r)) →
  good_globals l → good_globals (at_global g f l).
Proof.
  intros Hg Hgl Hf [Hnd Hl].
  assert (map (λ x, op_id (fst x)) (at_global g f l) = map (λ x, op_id (fst x)) l ∨
    map (λ x, op_id (fst x)) (at_global g f l) = map (λ x, op_id (fst x)) l ++ [op_id g] ∧ op_id g ∉ map (λ x, op_id (fst x)) l) as Hids.
  { clear. induction l as [|[h r] l IH]; cbn; [right; split; [done|apply not_elem_of_nil]|]. destruct (Nat.eqb_spec (op_id g) (op_id h)) as [E|E]; cbn; [by left|].
    destruct IH as [->|[-> Hn]]; [by left|]. right. split; [done|]. by apply not_elem_of_cons. }
  split.
  - destruct Hids as [->|[-> Hn]]; [done|]. apply NoDup_app. split; [done|]. split; [|apply NoDup_singleton]. intros x Hx ->%list_elem_of_singleton. done.
  - clear Hnd Hids. induction l as [|[h r] l IH]; cbn [at_global]; intros g' r'.
    + intros [= -> ->]%list_elem_of_singleton. split; [|done]. apply Hf; [done|]. split; [|split]; cbn; intros t []%not_elem_of_nil.
    + destruct (Nat.eqb_spec (op_id g) (op_id h)) as [E|E]; rewrite elem_of_cons; intros [[= -> ->]|Hin].
      * destruct (Hl h r) as (Ht & Hm & Hi); [by left|]. split; [by apply Hf|done].
      * apply Hl. by right.
      * apply Hl. by left.
      * apply IH; [|done]. intros ? ? H. apply Hl. by right.
Qed.

Lemma globals_good : good_globals globals.
Proof.
  unfold AlignByOwner.globals.
  assert (∀ vs l, (∀ i o a, (i, o, a) ∈ vs → i ∈ instances st ∧ o ∈ walk (i_func i) ∧ a ∈ memoryAccesses m o) → good_globals l →
    good_globals (fold_left (record m isAddressTaken invokeTargets) vs l)) as H.
  { induction vs as [|[[i o] a] vs IH]; intros l Hv Hl; cbn [fold_left]; [done|]. apply IH; [intros; apply Hv; by right|].
    destruct (Hv i o a) as (Hi & Ho & Ha); [by left|]. unfold record. destruct (accessed m i a) as [g|] eqn:Eg; [|done]. destruct (repeated _ _ _ _ _) eqn:Er; [|done].
    assert (g ∈ walk_module m ∧ is_global g = true) as [Hg Hgl].
    { unfold accessed in Eg. destruct (match acc_addr a with Some _ => _ | None => _ end); [|done]. destruct (resolveRoot m _ i) as [r|] eqn:Eroot; [|done].
      destruct (is_global r) eqn:E; [|done]. simplify_eq. split; [|done]. eapply resolveRoot_global; [done|]. unfold is_global in E. by destruct (global_of g). }
    apply at_global_told; try done. intros h r E Ht. apply touch_told; try done. exists g. by rewrite E. }
  apply H; [|split; [constructor|intros ? ? []%not_elem_of_nil]].
  intros i o a. unfold visits. rewrite list_elem_of_In, in_flat_map. intros (i' & Hi & Hin). apply in_flat_map in Hin as (o' & Ho & Hin).
  apply in_map_iff in Hin as (a' & [= -> -> ->] & Ha). by rewrite !list_elem_of_In.
Qed.

(** ** Pairs, and what is raised *)

(** One global is written repeatedly by a thread, the other touched
    repeatedly by another that may exist beside it. *)
Definition contended (a b : operation) : Prop := ∃ w u write, w ≠ u ∧ exclusive m st w u = false ∧
  hot_access a w true ∧ hot_access b u write ∧ accounted_for a w ∧ accounted_for b u.

Lemma contends_told a b ra rb : told a ra → told b rb → contends m st ra rb = true → contended a b.
Proof.
  intros (Hw & _ & Hc) (Hw' & Hr' & Hc') (w & Hin & Hx)%existsb_exists. apply andb_true_iff in Hx as [Hcw (u & Hu & Hy)%existsb_exists].
  apply andb_true_iff in Hy as [Hy Hex%negb_true_iff]. apply andb_true_iff in Hy as [Hne%negb_true_iff%Nat.eqb_neq Hcu].
  apply existsb_exists in Hcw as (w' & Hw1 & <-%Nat.eqb_eq). apply existsb_exists in Hcu as (u' & Hu1 & <-%Nat.eqb_eq).
  assert (∃ write, hot_access b u write) as [write Hb].
  { apply in_app_iff in Hu as [Hu|Hu]; [exists true; apply Hw'|exists false; apply Hr']; by apply list_elem_of_In. }
  exists w, u, write. repeat split; [congruence|done|apply Hw; by apply list_elem_of_In|done|apply Hc; by apply list_elem_of_In|apply Hc'; by apply list_elem_of_In].
Qed.

Definition pair_ok (a b : operation) : Prop :=
  a ∈ walk_module m ∧ b ∈ walk_module m ∧ is_global a = true ∧ is_global b = true ∧ op_id a ≠ op_id b ∧ (contended a b ∨ contended b a).
Lemma pair_ok_sym a b : pair_ok a b → pair_ok b a.
Proof. unfold pair_ok. intros (? & ? & ? & ? & ? & H). repeat split; try done. tauto. Qed.

Lemma pairs_good l : good_globals l → ∀ a b, (a, b) ∈ pairs m st l → pair_ok a b.
Proof.
  intros [Hnd Hl]. induction l as [|[g r] l IH]; intros a b; cbn; [by intros ?%not_elem_of_nil|].
  cbn in Hnd. apply NoDup_cons in Hnd as [Hn Hnd]. rewrite elem_of_app. intros [Hin|Hin]; [|apply IH; [done| |done]; intros; apply Hl; by right].
  apply list_elem_of_In, in_map_iff in Hin as ([h r'] & [= <- <-] & Hf). apply filter_In in Hf as [Hh Hc]. apply list_elem_of_In in Hh.
  destruct (Hl g r) as (Ht & Hg & Hgl); [by left|]. destruct (Hl h r') as (Ht' & Hg' & Hgl'); [by right|]. cbn in *. repeat split; try done.
  - intros E. apply Hn. rewrite E. apply list_elem_of_In, in_map_iff. exists (h, r'). split; [done|by apply list_elem_of_In].
  - apply orb_true_iff in Hc as [Hc|Hc]; [left|right]; by eapply contends_told.
Qed.

Lemma insert_op_spec g l h : h ∈ insert_op g l → h = g ∨ h ∈ l.
Proof. unfold insert_op. destruct (existsb _ _); [by right|]. rewrite elem_of_app, list_elem_of_singleton. tauto. Qed.
Lemma insert_op_mono g l h : h ∈ l → h ∈ insert_op g l.
Proof. unfold insert_op. destruct (existsb _ _); [done|]. rewrite elem_of_app. tauto. Qed.

Context (Hwf : wf_ids m = true).

Lemma insert_op_new g l : g ∈ walk_module m → (∀ h, h ∈ l → h ∈ walk_module m) → g ∈ insert_op g l.
Proof.
  intros Hg Hl. unfold insert_op. destruct (existsb (same_op g) l) eqn:E; [|apply elem_of_app; right; by apply list_elem_of_singleton].
  apply existsb_exists in E as (h & Hh & Eh%Nat.eqb_eq). apply list_elem_of_In in Hh. by rewrite (wf_ids_inj m g h Hwf Hg (Hl _ Hh) Eh).
Qed.

Definition pairs_in (l : list (operation * operation)) : Prop := ∀ a b, (a, b) ∈ l → pair_ok a b.

Lemma partners_spec l g h : pairs_in l → g ∈ walk_module m → h ∈ partners l g ↔ (g, h) ∈ l ∨ (h, g) ∈ l.
Proof.
  intros Hl Hg. unfold partners.
  assert (∀ acc, (∀ x, x ∈ acc → x ∈ walk_module m) →
    h ∈ fold_left (λ l p, let l := if same_op (fst p) g then insert_op (snd p) l else l in if same_op (snd p) g then insert_op (fst p) l else l) l acc ↔
    h ∈ acc ∨ (g, h) ∈ l ∨ (h, g) ∈ l) as H; [|rewrite H; [rewrite elem_of_nil; tauto|by intros ? ?%not_elem_of_nil]].
  induction l as [|[a b] l IH]; intros acc Hacc; cbn [fold_left fst snd]; [rewrite !elem_of_nil; tauto|].
  destruct (Hl a b) as (Ha & Hb & _ & _ & Hne & _); [by left|]. specialize (IH ltac:(intros ? ? ?; apply Hl; by right)).
  unfold same_op. destruct (Nat.eqb_spec (op_id a) (op_id g)) as [E|E]; destruct (Nat.eqb_spec (op_id b) (op_id g)) as [E'|E']; [congruence|..].
  - assert (a = g) as -> by by apply (wf_ids_inj m). rewrite IH.
    + split; [intros [[->|H]%insert_op_spec|[H|H]]|intros [H|[[[= ->]|H]%elem_of_cons|[[= -> ->]|H]%elem_of_cons]]];
        rewrite ?elem_of_cons; auto 7; try (by destruct Hne); left; [by apply insert_op_mono|by apply insert_op_new].
    + intros x [->|H]%insert_op_spec; auto.
  - assert (b = g) as -> by by apply (wf_ids_inj m). rewrite IH.
    + split; [intros [[->|H]%insert_op_spec|[H|H]]|intros [H|[[[= -> ->]|H]%elem_of_cons|[[= ->]|H]%elem_of_cons]]];
        rewrite ?elem_of_cons; auto 7; try (by destruct Hne); left; [by apply insert_op_mono|by apply insert_op_new].
    + intros x [->|H]%insert_op_spec; auto.
  - rewrite IH by done. rewrite !elem_of_cons. split; [tauto|]. intros [H|[[[= -> ->]|H]|[[= -> ->]|H]]]; auto; done.
Qed.

Lemma candidates_spec l : pairs_in l →
  (∀ h, h ∈ candidates l → ∃ k, (h, k) ∈ l ∨ (k, h) ∈ l) ∧ (∀ a b, (a, b) ∈ l → a ∈ candidates l ∧ b ∈ candidates l).
Proof.
  intros Hl. unfold candidates.
  assert (∀ acc, (∀ x, x ∈ acc → x ∈ walk_module m) → let r := fold_left (λ l p, insert_op (snd p) (insert_op (fst p) l)) l acc in
    (∀ h, h ∈ r → h ∈ acc ∨ ∃ k, (h, k) ∈ l ∨ (k, h) ∈ l) ∧ (∀ h, h ∈ acc → h ∈ r) ∧ (∀ a b, (a, b) ∈ l → a ∈ r ∧ b ∈ r)) as H.
  2: { destruct (H []) as (H1 & _ & H3); [by intros ? ?%not_elem_of_nil|]. split; [|exact H3]. intros h Hh. destruct (H1 h Hh) as [?%not_elem_of_nil|?]; done. }
  induction l as [|[a b] l IH]; intros acc Hacc; cbn [fold_left fst snd].
  - split; [auto|]. split; [done|]. by intros ? ? ?%not_elem_of_nil.
  - destruct (Hl a b) as (Ha & Hb & _); [by left|].
    assert (∀ x, x ∈ insert_op a acc → x ∈ walk_module m) as Hacc1 by (intros x [->|H]%insert_op_spec; auto).
    assert (∀ x, x ∈ insert_op b (insert_op a acc) → x ∈ walk_module m) as Hacc2 by (intros x [->|H]%insert_op_spec; auto).
    destruct (IH ltac:(intros ? ? ?; apply Hl; by right) _ Hacc2) as (H1 & H2 & H3). split; [|split].
    + intros h [[->|[->|H]%insert_op_spec]%insert_op_spec|(k & Hk)]%H1; [right; exists a; right; by left|right; exists b; left; by left|by left|].
      right. exists k. rewrite !elem_of_cons. tauto.
    + intros h H. apply H2. by do 2 apply insert_op_mono.
    + intros a' b' [[= -> ->]|H]%elem_of_cons; [|by apply H3].
      split; apply H2; [apply insert_op_mono|]; by apply insert_op_new.
Qed.

Lemma ps_in : pairs_in ps.
Proof. intros a b. apply pairs_good, globals_good. Qed.

Abbreviation cannotMove := (cannotMove facts isIncomplete).
Abbreviation after := (map_op (setAlignment facts isIncomplete typeABIAlignment line ps)).

(** What raising a global means for the pair: the other end may move too,
    and is on a line of its own already or raised as well. *)
Lemma raised_partner g other have : g ∈ walk_module m → decide_global ps g = Raise other have →
  getConstant g = false ∧ cannotMove g = None ∧ have = alignment_of g ∧ (have < line)%Z ∧ pair_ok g other ∧ cannotMove other = None ∧
  ((line ≤ alignment_of other)%Z ∨ ∃ o h, decide_global ps other = Raise o h).
Proof.
  intros Hg. unfold AlignByOwner.decide_global. destruct (getConstant g) eqn:Ec; [done|]. destruct (cannotMove g) eqn:Em; [done|].
  destruct (Z.leb_spec line (alignment_of g)) as [|Hlt]; [done|]. destruct (other_of facts isIncomplete ps g) as [o|] eqn:Eo; [|done]. intros [= <- <-].
  apply find_some in Eo as [Ho Hok%negb_true_iff]. apply list_elem_of_In, (partners_spec ps) in Ho; [|apply ps_in|done].
  assert (pair_ok g o) as Hpair by (destruct Ho as [Ho|Ho]; [|apply pair_ok_sym]; by apply ps_in).
  apply orb_false_iff in Hok as [Hoc Hos]. unfold stays in Hos. destruct (cannotMove o) eqn:Emo; [done|]. 
  do 4 (split; [done|]). split; [exact Hpair|]. split; [done|].
  destruct (Z.leb_spec line (alignment_of o)) as [Hle|Hlt']; [by left|right]. rewrite Hoc.
  destruct (other_of facts isIncomplete ps o) as [x|] eqn:Ex; [by eexists _, _|]. exfalso.
  unfold other_of in Ex. eapply find_none with (x := g) in Ex.
  - unfold stays in Ex. rewrite Ec, Em in Ex. done.
  - apply list_elem_of_In, partners_spec; [apply ps_in|apply Hpair|]. tauto.
Qed.

Lemma is_raised_spec o : o ∈ walk_module m →
  is_raised facts isIncomplete typeABIAlignment line ps o = true ↔ o ∈ candidates ps ∧ ∃ p h, decide_global ps o = Raise p h.
Proof.
  intros Ho. pose proof (candidates_spec ps ps_in) as [Hc _]. unfold is_raised. rewrite existsb_exists. split.
  - intros (g & Hg & E%Nat.eqb_eq). apply filter_In in Hg as [Hg Hd]. apply list_elem_of_In in Hg.
    assert (g ∈ walk_module m) as Hin by (destruct (Hc g Hg) as (k & [Hk|Hk]); apply ps_in in Hk; apply Hk).
    assert (o = g) as -> by by apply (wf_ids_inj m). split; [done|]. destruct (decide_global ps g); try done. by eexists _, _.
  - intros (Hin & p & h & E). exists o. split; [|by apply Nat.eqb_eq]. apply filter_In. split; [by apply list_elem_of_In|by rewrite E].
Qed.

Lemma after_same o : op_id (after o) = op_id o ∧ op_kind (after o) = op_kind o.
Proof. by destruct o. Qed.
Lemma after_alignment o : alignment_of (after o) = if is_raised facts isIncomplete typeABIAlignment line ps o then line else alignment_of o.
Proof.
  unfold AlignByOwner.alignment_of, getAlignment, sym_type, global_of. destruct o as [i n l k a r at_ rs]. cbn.
  unfold setAlignment. destruct (is_raised _ _ _ _ _ _); cbn; [|done]. by rewrite get_set_attr.
Qed.
Lemma after_cannotMove o : cannotMove (after o) = cannotMove o.
Proof.
  unfold AlignByOwner.cannotMove, aliasee_of, sym_type, global_of. destruct o as [i n l k a r at_ rs]. cbn.
  unfold setAlignment. destruct (is_raised _ _ _ _ _ _); cbn; [|done]. by rewrite get_set_attr.
Qed.

(** Where the objects a module owns may lie: each at its alignment, no two
    over one another. *)
Record layout (m' : module) (addr : nat → Z) : Prop := {
  lay_aligned g : g ∈ walk_module m' → is_global g = true → cannotMove g = None → (alignment_of g | addr (op_id g))%Z;
  lay_apart g h : g ∈ walk_module m' → h ∈ walk_module m' → is_global g = true → is_global h = true → cannotMove g = None → cannotMove h = None →
    op_id g ≠ op_id h → (addr (op_id g) + size_of typeSize g ≤ addr (op_id h) ∨ addr (op_id h) + size_of typeSize h ≤ addr (op_id g))%Z
}.

(** Two objects on lines of their own share none. *)
Lemma lines_apart a b sa sb x y : (0 < line)%Z → (line | a)%Z → (line | b)%Z → (a + sa ≤ b ∨ b + sb ≤ a)%Z →
  (a ≤ x < a + sa)%Z → (b ≤ y < b + sb)%Z → (x / line ≠ y / line)%Z.
Proof.
  intros Hl [i ->] [j ->] Hd Hx Hy E.
  assert (∀ p q z w, (p * line ≤ z → z < q * line → q * line ≤ w → z / line ≠ w / line)%Z) as Hlt.
  { intros p q z w _ H1 H2 E'. assert (z / line < q)%Z by (apply Z.div_lt_upper_bound; lia). assert (q ≤ w / line)%Z by (apply Z.div_le_lower_bound; lia). lia. }
  destruct Hd as [Hd|Hd]; [apply (Hlt i j x y)|apply (Hlt j i y x)]; lia.
Qed.

Lemma power_divides (a b : nat) : (2 ^ Z.of_nat a ≤ 2 ^ Z.of_nat b → (2 ^ Z.of_nat a | 2 ^ Z.of_nat b))%Z.
Proof.
  intros H. apply Z.pow_le_mono_r_iff in H; [|lia..]. exists (2 ^ (Z.of_nat b - Z.of_nat a))%Z. rewrite <-Z.pow_add_r by lia. f_equal. lia.
Qed.

Definition power_of_two (n : Z) : Prop := ∃ k : nat, n = (2 ^ Z.of_nat k)%Z.

(** A global the pass raised starts a line after it, and so does the partner
    it names, in every layout: where a raised global's own line ends is not
    where another's begins. *)
Lemma raised_starts_line g other have addr : power_of_two line →
  (∀ g, g ∈ walk_module m → is_global g = true → power_of_two (alignment_of g)) →
  g ∈ candidates ps → decide_global ps g = Raise other have →
  layout (map_module (setAlignment facts isIncomplete typeABIAlignment line ps) m) addr → g ∈ walk_module m →
  (line | addr (op_id g))%Z ∧ (line | addr (op_id other))%Z ∧
  (addr (op_id g) + size_of typeSize g ≤ addr (op_id other) ∨ addr (op_id other) + size_of typeSize other ≤ addr (op_id g))%Z.
Proof.
  intros [kl Hline] Hpow Hcand Hd Hlay Hg. destruct (raised_partner _ _ _ Hg Hd) as (_ & Hmg & _ & Hlt & Hpair & Hmo & Hother).
  pose proof Hpair as (_ & Ho & Hgg & Hgo & Hne & _).
  assert (∀ o, o ∈ walk_module m → after o ∈ walk_module (map_module (setAlignment facts isIncomplete typeABIAlignment line ps) m)) as Hin.
  { intros o Hin. rewrite walk_map_module. apply list_elem_of_In, in_map. by apply list_elem_of_In. }
  assert (∀ o, is_global o = true → is_global (after o) = true) as Hgl by by intros [].
  assert (other ∈ candidates ps) as Hcando.
  { destruct (candidates_spec ps ps_in) as [_ Hc].
    assert (other ∈ partners ps g) as Hp.
    { unfold AlignByOwner.decide_global in Hd. destruct (getConstant g); [done|]. destruct (cannotMove g); [done|]. destruct (_ <=? _)%Z; [done|].
      destruct (other_of _ _ _ _) eqn:E; [|done]. simplify_eq. apply find_some in E as [E _]. by apply list_elem_of_In. }
    apply partners_spec in Hp; [|apply ps_in|done]. destruct Hp as [Hp|Hp]; apply Hc in Hp; apply Hp. }
  assert (∀ o, o ∈ walk_module m → is_global o = true → cannotMove o = None → (line ≤ alignment_of (after o))%Z → (line | addr (op_id o))%Z) as Hal.
  { intros o Hi Hio Hmo' Hle. pose proof (lay_aligned _ _ Hlay (after o) (Hin _ Hi) (Hgl _ Hio) ltac:(by rewrite after_cannotMove)) as Hdv.
    destruct (after_same o) as [Eid _]. rewrite Eid in Hdv. etrans; [|exact Hdv]. rewrite after_alignment in Hle |- *.
    destruct (is_raised _ _ _ _ _ _); [done|]. destruct (Hpow o Hi Hio) as [k Hk]. rewrite Hk, Hline in *. by apply power_divides. }
  split; [|split].
  - apply Hal; try done. rewrite after_alignment. assert (is_raised facts isIncomplete typeABIAlignment line ps g = true) as ->; [|lia].
    apply is_raised_spec; [done|]. split; [done|]. by eexists _, _.
  - apply Hal; try done. rewrite after_alignment. destruct (is_raised _ _ _ _ _ _) eqn:E; [lia|]. destruct Hother as [Hle|Hr]; [done|].
    exfalso. rewrite (proj2 (is_raised_spec other Ho)) in E; [done|]. done.
  - pose proof (lay_apart _ _ Hlay (after g) (after other) (Hin _ Hg) (Hin _ Ho) (Hgl _ Hgg) (Hgl _ Hgo)) as Ha.
    rewrite !after_cannotMove in Ha. rewrite (proj1 (after_same g)), (proj1 (after_same other)) in Ha.
    assert (∀ o, size_of typeSize (after o) = size_of typeSize o) as Hs by by intros []. rewrite !Hs in Ha. by apply Ha.
Qed.

(** C4: After the pass, in any layout the linker may choose, a global whose alignment was raised shares no cache line with the partner the remark names; a thread writes the one repeatedly and another thread that may exist beside it touches the other repeatedly; and no alignment was lowered, no other operation changed. *)
Theorem align_separates m' rs g other have size would touched : power_of_two line →
  (∀ g, g ∈ walk_module m → is_global g = true → power_of_two (alignment_of g)) → dryRun = false →
  runOnOperation m isAddressTaken invokeTargets st cap facts isIncomplete typeABIAlignment typeSize line dryRun = (m', rs) →
  RaisedTo g other have size would touched ∈ rs →
  (∀ addr, layout m' addr → ∀ x y, (addr (op_id g) ≤ x < addr (op_id g) + size_of typeSize g)%Z →
    (addr (op_id other) ≤ y < addr (op_id other) + size_of typeSize other)%Z → (x / line ≠ y / line)%Z) ∧
  (contended g other ∨ contended other g) ∧
  ∀ o, o ∈ walk_module m → ∃ o', o' ∈ walk_module m' ∧ op_id o' = op_id o ∧ op_kind o' = op_kind o ∧ (alignment_of o ≤ alignment_of o')%Z ∧
    (op_attrs o' ≠ op_attrs o → is_global o = true ∧ alignment_of o' = line).
Proof.
  intros Hline Hpow Hdry. unfold runOnOperation. destruct (capExceeded st); [intros [= <- <-] Hin; by apply list_elem_of_singleton in Hin|].
  rewrite Hdry. intros [= <- <-] Hin. apply elem_of_app in Hin as [Hin|Hin].
  2: { unfold summary in Hin. destruct globals; [by apply not_elem_of_nil in Hin|]. by apply list_elem_of_singleton in Hin. }
  apply list_elem_of_In, in_flat_map in Hin as (g' & Hcand & Hin). apply list_elem_of_In in Hcand. unfold remark_of in Hin.
  destruct (decide_global ps g') eqn:Ed; cbn in Hin; try tauto; destruct Hin as [[= -> -> -> _ _ _]|[]].
  assert (g ∈ walk_module m) as Hg by (destruct (candidates_spec ps ps_in) as [Hc _]; destruct (Hc g Hcand) as (k & [Hk|Hk]); apply ps_in in Hk; apply Hk).
  destruct (raised_partner _ _ _ Hg Ed) as (_ & _ & _ & _ & Hpair & _). split; [|split; [apply Hpair|]].
  - intros addr Hlay x y Hx Hy. destruct (raised_starts_line _ _ _ _ Hline Hpow Hcand Ed Hlay Hg) as (H1 & H2 & H3).
    destruct Hline as [k Hk]. apply (lines_apart _ _ _ _ _ _ ltac:(lia) H1 H2 H3 Hx Hy).
  - intros o Ho. exists (after o). destruct (after_same o) as [Hi Hk]. rewrite after_alignment. split; [|split; [done|split; [done|]]].
    { rewrite walk_map_module. apply list_elem_of_In, in_map. by apply list_elem_of_In. }
    destruct (is_raised _ _ _ _ _ _) eqn:Er.
    + apply is_raised_spec in Er as (Hc & p & h & Er); [|done]. destruct (raised_partner _ _ _ Ho Er) as (_ & _ & -> & Hlt & Hp & _).
      split; [lia|]. intros _. split; [apply Hp|done].
    + split; [lia|]. intros Hne. destruct Hne. destruct o as [i n l k a r at_ rs]. cbn. unfold setAlignment. by rewrite Er.
Qed.
End sound.

(** ** Two counters, one a thread *)

Section example.
Definition ab_func (i : nat) (name : string) (b : list operation) : operation :=
  Op i "cir.func" "" (KFunc (Func name false false None None None 0)) [] [] [] [match b with [] => [] | _ => [Block i [] b] end].
Definition ab_global (i : nat) (name : string) : operation :=
  Op i "cir.global" "" (KGlobal (Global name (IntTy 64 true) false None)) [] [] [("alignment", AInt 8)] [].
Definition ab_get (i : nat) (name : string) (t : ty) : operation := Op i "cir.get_global" "" (KGetGlobal name) [] [PtrTy t] [] [].
Definition ab_loop (i : nat) (b : list operation) : operation := Op i "cir.while" "" KLoop [] [] [] [[Block (S i) [] b]].
Definition ab_store (i : nat) (v p : nat) : operation := Op i "cir.store" "" KStore [VRes v 0; VRes p 0] [] [] [].
Definition ab_const (i : nat) : operation := Op i "cir.const" "" (KConstant (CInt 64 1)) [] [IntTy 64 true] [] [].
Definition ab_return (i : nat) : operation := Op i "cir.return" "" KReturn [] [] [] [].
Definition ab_spawn : operation := Op 12 "cir.call" "" (KCall (CallAttrs (Some "pthread_create") false None)) (replicate 4 (VRes 11 0)) [] [] [].
Definition ab_main : operation :=
  ab_func 10 "main" [ab_get 11 "worker" FuncTy; ab_spawn; ab_get 13 "mine" (IntTy 64 true); ab_const 14; ab_loop 15 [ab_store 17 14 13]; ab_return 18].
Definition ab_worker : operation :=
  ab_func 20 "worker" [ab_get 21 "theirs" (IntTy 64 true); ab_const 22; ab_loop 23 [ab_store 25 22 21]; ab_return 26].
Definition ab_mine : operation := ab_global 2 "mine".
Definition ab_theirs : operation := ab_global 3 "theirs".
Definition ab_module : module := [ab_func 1 "pthread_create" []; ab_mine; ab_theirs; ab_main; ab_worker].
Definition ab_facts : nat → global_facts := λ _, GlobalFacts false false false false InternalLinkage.
Abbreviation ab_run := (Threads.run ab_module (λ _, false) (λ _, None) (λ _ _, []) (relevant ab_module (λ _, None) (λ _, None) (λ _, None)) 10 (λ _, false) [] (λ _, None) (λ _, None) []).
Abbreviation ab_pass := (runOnOperation ab_module (λ _, false) (λ _, None) ab_run 10 ab_facts (λ _, false) (λ _, 8%Z) (λ _, 8%Z) 64 false).

Definition ab_after (g : operation) : operation := Op (op_id g) "cir.global" "" (op_kind g) [] [] [("alignment", AInt 64)] [].

Example ab_says : ab_pass =
  ([ab_func 1 "pthread_create" []; ab_after ab_mine; ab_after ab_theirs; ab_main; ab_worker],
   [RaisedTo ab_mine ab_theirs 8 8 false (Some (ab_store 17 14 13)); RaisedTo ab_theirs ab_mine 8 8 false (Some (ab_store 25 22 21)); Summary 2 0 0 0 0 112 false]).
Proof. vm_compute. reflexivity. Qed.

Lemma align_separates_witness :
  ∃ m' rs, ab_pass = (m', rs) ∧ RaisedTo ab_mine ab_theirs 8 8 false (Some (ab_store 17 14 13)) ∈ rs ∧
  (∀ addr, layout ab_facts (λ _, false) (λ _, 8%Z) (λ _, 8%Z) m' addr → ∀ x y, (addr 2%nat ≤ x < addr 2%nat + 8)%Z → (addr 3%nat ≤ y < addr 3%nat + 8)%Z → (x / 64 ≠ y / 64)%Z).
Proof.
  eexists _, _. split; [exact ab_says|]. split; [by left|].
  refine (proj1 (align_separates ab_module (λ _, false) (λ _, None) ab_run 10 ab_facts (λ _, false) (λ _, 8%Z) (λ _, 8%Z) 64 false _
    _ _ ab_mine ab_theirs 8 8 false (Some (ab_store 17 14 13)) _ _ _ _ _)).
  - vm_compute. reflexivity.
  - by exists 6%nat.
  - intros g Hg Hgl. exists 3%nat. assert (Forall (λ o, is_global o = true → alignment_of (λ _, 8%Z) o = 8%Z) (walk_module ab_module)) as H.
    { vm_compute. repeat constructor; done. }
    rewrite Forall_forall in H. by apply H.
  - reflexivity.
  - exact ab_says.
  - by left.
Defined.
End example.
End AlignByOwner.
