(* ===== verification/FalseSharing.v ===== *)
(** * FalseSharing: fields of different threads on one line
      (mlir/lib/WTC/Transforms/WTCFalseSharingDiagnose.cpp)

    The diagnosis: where each access to memory lands (an object, an offset,
    perhaps an element nobody can name), how often each thread makes it, the
    folding of the elements a spawn loop hands out, and the judgement of
    every pair of fields: definite, possible and why, cold.  The pass changes
    nothing; its remarks are values here.

    Parameters: the places a pointer may name ([resolvePlaces] of
    ThreadInstances.cpp, in its form that gives several), and what the data
    layout answers. *)

From stdpp Require Import base tactics list strings gmap pretty sorting.
From Stdlib Require Import String Ascii ZArith Lia.
From S2P Require Import Prelude Text Cir Utils Slots Threads Places.
Local Open Scope string_scope.
Local Open Scope list_scope.

Module FalseSharing.
Import Threads Places.

Inductive Unplaced := UNone | LoadedField | LoadedGlobal | LoadedSlot | RootParameter | CallResult | Integer | ManySources | Other.
#[export] Instance unplaced_eq_dec : EqDecision Unplaced.
Proof. solve_decision. Defined.

(** [Place] of ThreadInstances.h *)
Record Place := PlaceOf {
  root : option operation;
  cause : Unplaced;
  offset : Z;
  loop : option operation;
  elem : option ty;
  owner : bool;
  unknownIndex : bool;
  oneOf : bool
}.

Inductive PlaceKind := Absolute | Relative | UnknownElement.
#[export] Instance place_kind_eq_dec : EqDecision PlaceKind.
Proof. solve_decision. Defined.
Abbreviation PlaceKey := (operation * PlaceKind)%type.
Definition same_place (a b : PlaceKey) : bool := (op_id (fst a) =? op_id (fst b))%nat && bool_decide (snd a = snd b).

(** ** What is known of a field *)

Record FieldInfo := Field {
  size : Z;
  name : string;
  readers : list nat;
  writers : list nat;
  hotReaders : list nat;
  hotWriters : list nat;
  unknownRateReaders : list nat;
  unknownRateWriters : list nat;
  hotSize : gmap nat Z;
  onceSize : gmap nat Z;
  writeAt : gmap nat operation;
  certain : list nat;
  hotWriteAt : gmap nat operation;
  hotReadAt : gmap nat operation;
  manyHotWriters : list nat;
  oneOfHotWriters : list nat;
  oneOfHotReaders : list nat;
  oneOfWriteAt : gmap nat operation;
  oneOfReadAt : gmap nat operation;
  oneOfSize : gmap nat Z;
  firstWrite : option operation;
  firstAccess : option operation
}.
Definition field0 : FieldInfo := Field 0 "" [] [] [] [] [] [] ∅ ∅ ∅ [] ∅ ∅ [] [] [] ∅ ∅ ∅ None None.

Definition in_list (t : nat) (l : list nat) : bool := existsb (Nat.eqb t) l.

(** The access of a thread that a report names. *)
Definition at_ (f : FieldInfo) (t : nat) (asWriter : bool) : option operation :=
  or_else (hotWriteAt f !! t)
    (or_else (if asWriter then oneOfWriteAt f !! t else None)
      (or_else (hotReadAt f !! t) (or_else (oneOfWriteAt f !! t) (oneOfReadAt f !! t)))).
Definition onlyOneOfWriter (f : FieldInfo) (t : nat) : bool :=
  negb (in_list t (hotWriters f)) && negb (in_list t (unknownRateWriters f)) && in_list t (oneOfHotWriters f).
Definition onlyOneOfToucher (f : FieldInfo) (t : nat) : bool :=
  negb (in_list t (hotWriters f)) && negb (in_list t (hotReaders f)) && negb (in_list t (unknownRateWriters f)) &&
  negb (in_list t (unknownRateReaders f)) && (in_list t (oneOfHotWriters f) || in_list t (oneOfHotReaders f)).

(** [DenseMap::try_emplace], and a map of greatest sizes. *)
Definition emplace {A} (t : nat) (a : A) (s : gmap nat A) : gmap nat A := match s !! t with Some _ => s | None => <[t := a]> s end.
Definition widen (t : nat) (n : Z) (s : gmap nat Z) : gmap nat Z := <[t := Z.max (default 0%Z (s !! t)) n]> s.
Definition union_new (a b : list nat) : list nat := fold_left (λ l t, insert_new t l) b a.
Definition keep_first {A} (a b : gmap nat A) : gmap nat A := a ∪ b.
Definition widest (a b : gmap nat Z) : gmap nat Z := union_with (λ x y, Some (Z.max x y)) a b.

(** The more specific of two names. *)
Definition better_name (mine other : string) : string :=
  if String.eqb mine "" || String.eqb mine "<whole>" || negb (String.eqb other "<whole>") && (String.length mine <? String.length other)%nat
  then other else mine.

Definition absorb (f o : FieldInfo) : FieldInfo :=
  Field (Z.max (size f) (size o)) (better_name (name f) (name o))
    (union_new (readers f) (readers o)) (union_new (writers f) (writers o))
    (union_new (hotReaders f) (hotReaders o)) (union_new (hotWriters f) (hotWriters o))
    (union_new (unknownRateReaders f) (unknownRateReaders o)) (union_new (unknownRateWriters f) (unknownRateWriters o))
    (widest (hotSize f) (hotSize o)) (widest (onceSize f) (onceSize o)) (keep_first (writeAt f) (writeAt o))
    (union_new (certain f) (certain o)) (keep_first (hotWriteAt f) (hotWriteAt o)) (keep_first (hotReadAt f) (hotReadAt o))
    (union_new (manyHotWriters f) (manyHotWriters o)) (union_new (oneOfHotWriters f) (oneOfHotWriters o))
    (union_new (oneOfHotReaders f) (oneOfHotReaders o)) (keep_first (oneOfWriteAt f) (oneOfWriteAt o))
    (keep_first (oneOfReadAt f) (oneOfReadAt o)) (widest (oneOfSize f) (oneOfSize o))
    (or_else (firstWrite f) (firstWrite o)) (or_else (firstAccess f) (firstAccess o)).

(** How often an access runs, as far as the walk can tell. *)
Inductive rate := Repeated | UnknownRate | StartUp | Once.
#[export] Instance rate_eq_dec : EqDecision rate.
Proof. solve_decision. Defined.
Definition hot (r : rate) : bool := match r with Repeated | UnknownRate => true | _ => false end.

(** What an access says of its field: its name and its thread; then, of a
    pointer to one of several objects, a set apart; else its rate, role and
    size. *)
Definition note_access (path : string) (o : operation) (spec : bool) (t : nat) (f : FieldInfo) : FieldInfo :=
  Field (size f) (better_name (name f) path) (readers f) (writers f) (hotReaders f) (hotWriters f) (unknownRateReaders f) (unknownRateWriters f)
    (hotSize f) (onceSize f) (writeAt f) (if spec then certain f else insert_new t (certain f)) (hotWriteAt f) (hotReadAt f) (manyHotWriters f)
    (oneOfHotWriters f) (oneOfHotReaders f) (oneOfWriteAt f) (oneOfReadAt f) (oneOfSize f) (firstWrite f) (or_else (firstAccess f) (Some o)).
Definition note_oneOf (o : operation) (t : nat) (write : bool) (r : rate) (sz : Z) (f : FieldInfo) : FieldInfo :=
  if negb (hot r) then f
  else Field (size f) (name f) (readers f) (writers f) (hotReaders f) (hotWriters f) (unknownRateReaders f) (unknownRateWriters f)
    (hotSize f) (onceSize f) (writeAt f) (certain f) (hotWriteAt f) (hotReadAt f) (manyHotWriters f)
    (if write then insert_new t (oneOfHotWriters f) else oneOfHotWriters f) (if write then oneOfHotReaders f else insert_new t (oneOfHotReaders f))
    (if write then emplace t o (oneOfWriteAt f) else oneOfWriteAt f) (if write then oneOfReadAt f else emplace t o (oneOfReadAt f))
    (widen t sz (oneOfSize f)) (firstWrite f) (firstAccess f).
Definition note_own (o : operation) (t : nat) (many write : bool) (r : rate) (sz : Z) (f : FieldInfo) : FieldInfo :=
  let rep := bool_decide (r = Repeated) in let unk := bool_decide (r = UnknownRate) in
  Field (Z.max (size f) sz) (name f) (if write then readers f else insert_new t (readers f)) (if write then insert_new t (writers f) else writers f)
    (if negb write && rep then insert_new t (hotReaders f) else hotReaders f) (if write && rep then insert_new t (hotWriters f) else hotWriters f)
    (if negb write && unk then insert_new t (unknownRateReaders f) else unknownRateReaders f)
    (if write && unk then insert_new t (unknownRateWriters f) else unknownRateWriters f)
    (if hot r then widen t sz (hotSize f) else hotSize f) (if negb (hot r) && write then widen t sz (onceSize f) else onceSize f)
    (if write then emplace t o (writeAt f) else writeAt f) (certain f)
    (if write && hot r then emplace t o (hotWriteAt f) else hotWriteAt f) (if negb write && hot r then emplace t o (hotReadAt f) else hotReadAt f)
    (if write && rep && many then insert_new t (manyHotWriters f) else manyHotWriters f)
    (oneOfHotWriters f) (oneOfHotReaders f) (oneOfWriteAt f) (oneOfReadAt f) (oneOfSize f)
    (if write then or_else (firstWrite f) (Some o) else firstWrite f) (firstAccess f).

Abbreviation FieldMap := (list (Z * FieldInfo)).
Definition key_field (k : PlaceKey) (l : list (PlaceKey * FieldMap)) : option FieldMap := option_map snd (List.find (λ x, same_place k (fst x)) l).
Fixpoint at_offset (off : Z) (f : FieldInfo → FieldInfo) (l : FieldMap) : FieldMap :=
  match l with
  | [] => [(off, f field0)]
  | (o, i) :: l => if (o =? off)%Z then (o, f i) :: l else (o, i) :: at_offset off f l
  end.
Fixpoint at_place (k : PlaceKey) (f : FieldMap → FieldMap) (l : list (PlaceKey * FieldMap)) : list (PlaceKey * FieldMap) :=
  match l with
  | [] => [(k, f [])]
  | (k', fs) :: l => if same_place k k' then (k', f fs) :: l else (k', fs) :: at_place k f l
  end.
Definition erase (k : PlaceKey) (l : list (PlaceKey * FieldMap)) : list (PlaceKey * FieldMap) := List.filter (λ x, negb (same_place k (fst x))) l.

(** What is known of a root whose elements a spawn loop handed out. *)
Record PerThread := Elements { p_root : operation; elemSize : Z; conflict : bool; owners : list nat }.

Section pass.
Variable m : module.
Variable isIncomplete : ty → bool.
Variable typeSize : ty → Z.
Variable typeABIAlignment : ty → Z.
Variable elementOffset : ty → Z → Z.

(** ** What an address is *)

Definition pointee (v : value) : option ty := match type_of m v with Some (PtrTy t) => Some t | _ => None end.
Definition kind_of (v : value) : option kind := option_map op_kind (defining_op m v).

Fixpoint decays_array (fuel : nat) (v : value) : bool :=
  match fuel, defining_op m v with
  | S fuel, Some c =>
      match op_kind c, operands c with
      | KCast Carray_to_ptrdecay, _ => true
      | KCast Cbitcast, w :: _ => decays_array fuel w
      | _, _ => false
      end
  | _, _ => false
  end.
Definition decaysArray (addr : value) : bool := decays_array 16 addr.

Inductive shape := ShNone | ShMember | ShArray | ShWhole.

(** The base of an element step, its index and its element's type. *)
Definition step_of (v : value) : option (value * option value * option ty) :=
  match defining_op m v with
  | Some d =>
      match op_kind d, operands d with
      | KPtrStride, b :: rest => Some (b, head rest, pointee b)
      | KGetElement, b :: rest => Some (b, head rest, match pointee b with Some (ArrayTy t _) => Some t | _ => None end)
      | _, _ => None
      end
  | None => None
  end.

Fixpoint shape_steps (fuel : nat) (v : value) (array : bool) : bool * bool :=     (* a member; an array *)
  match fuel with
  | O => (false, array)
  | S fuel =>
      match kind_of v with
      | Some KGetMember => (true, array)
      | _ => match step_of v with Some (b, _, _) => shape_steps fuel (traceToLocalRoot m b) true | None => (false, array) end
      end
  end.

Definition scalar_or_record (t : ty) : bool :=
  match t with RecordTy _ | IntTy _ _ | PtrTy _ => true | OtherTy n => in_set ["!cir.float"; "!cir.double"] n | _ => false end.
Definition is_record (t : ty) : bool := match t with RecordTy _ => true | _ => false end.

Definition shapeOf (addr : value) : shape :=
  let '(member, array) := shape_steps 64 (traceToLocalRoot m addr) (decaysArray addr) in
  if member then ShMember
  else if array then ShArray
  else
    let t := traceToRoot m addr in
    match match t with VArg _ _ => Some true | _ => match kind_of t with Some (KLoad _ | KCall _) => Some true | _ => None end end with
    | Some _ => match pointee t with Some pe => if scalar_or_record pe then ShWhole else ShNone | None => ShNone end
    | None =>
        let ty := match kind_of t with
          | Some (KGetGlobal n) => match aliased m 8 (lookup_global m n) with Some g => option_map global_type (global_of g) | None => pointee t end
          | Some KAlloca => pointee t
          | _ => None
          end in
        match ty with Some ty => if is_record ty then ShWhole else ShNone | None => ShNone end
    end.

Fixpoint array_base (fuel : nat) (v : value) : value :=
  match fuel with
  | O => v
  | S fuel =>
      match step_of v with
      | Some (b, _, _) => array_base fuel (traceToLocalRoot m b)
      | None => match defining_op m v with
          | Some d => match op_kind d, operands d with KGetMember, b :: _ => array_base fuel (traceToLocalRoot m b) | _, _ => v end
          | None => v
          end
      end
  end.
Definition arrayBase (addr : value) : value := array_base 64 (traceToLocalRoot m addr).

Definition rootType (r : operation) : option ty :=
  match op_kind r with KGlobal g => Some (global_type g) | KAlloca => pointee (result r) | _ => None end.
Definition isHeapRoot (r : operation) : bool := is_call r.
Definition hasLayout (r : operation) : bool :=
  isHeapRoot r || match rootType r with Some t => negb (is_record t && isIncomplete t) | None => false end.

(** ** Where a member chain leads *)

(** An index: a constant that is not negative and fits 32 bits. *)
Definition constant_index (i : option value) : option Z :=
  match i with
  | Some v => match kind_of (traceToLocalRoot m v) with
      | Some (KConstant (CInt w bits)) => if ((bits <? 2 ^ (w - 1)) && (bits <? 2 ^ 32))%Z then Some bits else None
      | _ => None
      end
  | None => None
  end.

Record chain := Chain { c_offset : Z; c_parts : list string; c_unknown : bool; c_unknownElem : Z; c_stepped : bool }.
Definition chain0 : chain := Chain 0 [] false 0 false.
Definition least (n sz : Z) : Z := if (n =? 0)%Z then sz else Z.min n sz.

(** One element step. *)
Definition take_step (c : chain) (index : option value) (t : ty) : chain :=
  match constant_index index with
  | Some k => Chain (u64 (c_offset c + k * typeSize t)) (c_parts c ++ ["[" ++ pretty k ++ "]"]%string) (c_unknown c) (c_unknownElem c) true
  | None => Chain (c_offset c) (c_parts c ++ ["[?]"]) true (least (c_unknownElem c) (typeSize t)) true
  end.
Definition steppable (t : ty) : bool := match t with VoidTy | FuncTy => false | _ => true end.
Fixpoint step_elements (fuel : nat) (c : chain) (base : value) : option (chain * value) :=
  match fuel with
  | O => None
  | S fuel =>
      match step_of base with
      | None => Some (c, base)
      | Some (next, index, Some t) => if steppable t then step_elements fuel (take_step c index t) (traceToLocalRoot m next) else None
      | Some (_, _, None) => None
      end
  end.

Definition starts_bracket (s : string) : bool := String.prefix "[" s.
Definition finish (parts : list string) : string :=
  let path := fold_left (λ path p, (path ++ (if negb (String.eqb path "") && negb (starts_bracket p) then "." else "") ++ p)%string) (rev parts) "" in
  if String.eqb path "" then "[0]" else if String.eqb path "[?]" then "<element>" else path.

Definition member_index (gm : operation) : Z := match get_attr (op_attrs gm) "index" with Some (AInt n) => n | _ => 0%Z end.
Definition member_name (gm : operation) : string := match get_attr (op_attrs gm) "name" with Some (AStr s) => s | _ => "" end.

Fixpoint member_chain (fuel : nat) (c : chain) (gm : operation) : option (chain * value) :=
  match fuel, operands gm with
  | S fuel, a :: _ =>
      match pointee a with
      | Some t =>
          if is_record t && negb (isIncomplete t) then
            let c := Chain (u64 (c_offset c + elementOffset t (member_index gm))) (c_parts c ++ [member_name gm]) (c_unknown c) (c_unknownElem c) (c_stepped c) in
            match step_elements 16 c (traceToLocalRoot m a) with
            | None => None
            | Some (c, base) =>
                match defining_op m base with
                | Some d => match op_kind d with KGetMember => member_chain fuel c d | _ => Some (c, base) end
                | None => Some (c, base)
                end
            end
          else None
      | None => None
      end
  | _, _ => None
  end.

(** The base of an access, with the offset and the name of the field. *)
Definition resolveMember (addr : value) : option (chain * value) :=
  match step_elements 16 chain0 (traceToLocalRoot m addr) with
  | None => None
  | Some (c, cur) =>
      match defining_op m cur with
      | Some d =>
          match op_kind d with
          | KGetMember => member_chain 64 c d
          | _ => if negb (c_stepped c) && negb (decaysArray addr) then None else Some (c, cur)
          end
      | None => if negb (c_stepped c) && negb (decaysArray addr) then None else Some (c, cur)
      end
  end.

(** ** The record *)

Variable isAddressTaken : operation → bool.
Variable invokeTargets : nat → option (list operation * bool).
Variable st : state.                                        (* the finished walk *)
Variable resolvePlaces : value → instance → list Place.
Variable hasTlsModel : nat → bool.

(** A function that touches no field needs no instance. *)
Definition touchesMember (o : operation) : bool :=
  existsb (λ a, match acc_addr a with Some v => match shapeOf v with ShNone => false | _ => true end | None => false end) (memoryAccesses m o).

Record found := Found {
  byRoot : list (PlaceKey * FieldMap);
  perThread : list PerThread;
  unknownElem : gmap nat Z;
  unknownIndexThreads : gmap nat (list nat);
  unknownIndexOps : gset nat;
  oneOfOps : gset nat;
  oneOfThreads : gmap nat (list nat);
  unresolvedOps : gset nat;
  unresolvedWhy : gmap nat Unplaced;
  unresolvedThreads : gset nat;
  truncatedThreads : gset nat;
  stackLocalOps : gset nat;
  threadLocalOps : gset nat
}.
Definition found0 : found := Found [] [] ∅ ∅ ∅ ∅ ∅ ∅ ∅ ∅ ∅ ∅ ∅.
Definition insert_thread (r t : nat) (s : gmap nat (list nat)) : gmap nat (list nat) := <[r := insert_new t (default [] (s !! r))]> s.

Definition with_byRoot f (s : found) := Found (f (byRoot s)) (perThread s) (unknownElem s) (unknownIndexThreads s) (unknownIndexOps s) (oneOfOps s) (oneOfThreads s)
  (unresolvedOps s) (unresolvedWhy s) (unresolvedThreads s) (truncatedThreads s) (stackLocalOps s) (threadLocalOps s).
Definition with_perThread f (s : found) := Found (byRoot s) (f (perThread s)) (unknownElem s) (unknownIndexThreads s) (unknownIndexOps s) (oneOfOps s) (oneOfThreads s)
  (unresolvedOps s) (unresolvedWhy s) (unresolvedThreads s) (truncatedThreads s) (stackLocalOps s) (threadLocalOps s).
Definition with_unknown (o r t : nat) (h : bool) (sz : option Z) (s : found) := Found (byRoot s) (perThread s)
  match sz with
  | Some n => <[r := if (n =? 0)%Z then default 0%Z (unknownElem s !! r) else least (default 0%Z (unknownElem s !! r)) n]> (unknownElem s)
  | None => unknownElem s
  end
  (if h then insert_thread r t (unknownIndexThreads s) else unknownIndexThreads s) ({[o]} ∪ unknownIndexOps s) (oneOfOps s) (oneOfThreads s)
  (unresolvedOps s) (unresolvedWhy s) (unresolvedThreads s) (truncatedThreads s) (stackLocalOps s) (threadLocalOps s).
Definition with_oneOf (o r t : nat) (h : bool) (s : found) := Found (byRoot s) (perThread s) (unknownElem s) (unknownIndexThreads s) (unknownIndexOps s) ({[o]} ∪ oneOfOps s)
  (if h then insert_thread r t (oneOfThreads s) else oneOfThreads s)
  (unresolvedOps s) (unresolvedWhy s) (unresolvedThreads s) (truncatedThreads s) (stackLocalOps s) (threadLocalOps s).
Definition with_unresolved (o t : nat) (h : bool) (why : Unplaced) (s : found) := Found (byRoot s) (perThread s) (unknownElem s) (unknownIndexThreads s) (unknownIndexOps s) (oneOfOps s) (oneOfThreads s)
  ({[o]} ∪ unresolvedOps s) (match unresolvedWhy s !! o with Some _ => unresolvedWhy s | None => <[o := why]> (unresolvedWhy s) end)
  (if h then {[t]} ∪ unresolvedThreads s else unresolvedThreads s) (truncatedThreads s) (stackLocalOps s) (threadLocalOps s).
Definition with_truncated (t : nat) (s : found) := Found (byRoot s) (perThread s) (unknownElem s) (unknownIndexThreads s) (unknownIndexOps s) (oneOfOps s) (oneOfThreads s)
  (unresolvedOps s) (unresolvedWhy s) ({[t]} ∪ unresolvedThreads s) ({[t]} ∪ truncatedThreads s) (stackLocalOps s) (threadLocalOps s).
Definition with_stackLocal (o : nat) (s : found) := Found (byRoot s) (perThread s) (unknownElem s) (unknownIndexThreads s) (unknownIndexOps s) (oneOfOps s) (oneOfThreads s)
  (unresolvedOps s) (unresolvedWhy s) (unresolvedThreads s) (truncatedThreads s) ({[o]} ∪ stackLocalOps s) (threadLocalOps s).
Definition with_threadLocal (o : nat) (s : found) := Found (byRoot s) (perThread s) (unknownElem s) (unknownIndexThreads s) (unknownIndexOps s) (oneOfOps s) (oneOfThreads s)
  (unresolvedOps s) (unresolvedWhy s) (unresolvedThreads s) (truncatedThreads s) (stackLocalOps s) ({[o]} ∪ threadLocalOps s).

(** How often an access of an instance runs. *)
Definition startup_of (o : operation) (inst : instance) : bool :=
  negb (startupUncertain m isAddressTaken invokeTargets inst) && inStartupPhase m isAddressTaken invokeTargets o inst.
Definition rateHere (o : operation) (inst : instance) : rate :=
  let guess := startupUncertain m isAddressTaken invokeTargets inst in
  let startup := startup_of o inst in
  let many := (bool_decide (threadMult inst = Many) || bool_decide (execMult inst = Many)) && negb (execUnknown inst) in
  let '(site, known) := siteMult m o (i_func inst) in
  if negb startup && negb guess && (many || known && bool_decide (site = Many)) then Repeated
  else if negb startup && (guess || negb known || execUnknown inst) then UnknownRate
  else if startup then StartUp else Once.

(** On an element the thread owns, what repeats is what repeats inside the
    thread. *)
Definition rateOn (o : operation) (inst : instance) (p : Place) : rate :=
  match loop p with
  | Some _ =>
      if owner p && negb (startup_of o inst) && negb (startupUncertain m isAddressTaken invokeTargets inst) then
        let '(site, known) := siteMult m o (i_func inst) in
        let '(wt, wtKnown) := multWithinThread m inst in
        if known && bool_decide (site = Many) || wtKnown && bool_decide (wt = Many) then Repeated
        else if negb known || negb wtKnown then UnknownRate
        else Once
      else rateHere o inst
  | None => rateHere o inst
  end.

Definition access_size (t : option ty) : Z := match t with Some t => if steppable t then typeSize t else 1%Z | None => 1%Z end.
Definition elem_size (t : option ty) : Z := match t with Some t => if steppable t then typeSize t else 0%Z | None => 0%Z end.

(** [perThread[root]] with one more handle. *)
Fixpoint at_elements (r : operation) (sz : Z) (own : option nat) (l : list PerThread) : list PerThread :=
  let upd p :=
    let bad := (sz =? 0)%Z || negb (elemSize p =? 0)%Z && negb (elemSize p =? sz)%Z in
    Elements (p_root p) (if bad then elemSize p else sz) (conflict p || bad) (match own with Some t => insert_new t (owners p) | None => owners p end) in
  match l with
  | [] => [upd (Elements r 0 false [])]
  | p :: l => if (op_id (p_root p) =? op_id r)%nat then upd p :: l else p :: at_elements r sz own l
  end.

(** An access under an instance, at one of its places. *)
Record visit := Visit { v_op : operation; v_inst : instance; v_acc : memory_access }.
Definition place_key (r : operation) (unknownIdx : bool) (p : Place) : PlaceKey :=
  (r, if unknownIdx then UnknownElement else match loop p with Some _ => Relative | None => Absolute end).

Definition record_at (v : visit) (c : chain) (path : string) (s : found) (p : Place) : found :=
  let o := v_op v in let inst := v_inst v in let t := i_thread inst in let write := acc_write (v_acc v) in
  match root p with
  | None => s
  | Some r =>
      if String.eqb path "<whole>" && negb (isHeapRoot r) && match loop p with None => true | Some _ => false end && negb (unknownIndex p)
         && negb (match rootType r with Some t => is_record t | None => false end) then s
      else
        let off := u64 (c_offset c + offset p) in
        let unknownIdx := c_unknown c || unknownIndex p in
        let unknownSize := if unknownIndex p then match elem p with Some t => least (c_unknownElem c) (typeSize t) | None => c_unknownElem c end else c_unknownElem c in
        let r8 := rateOn o inst p in
        if negb (hasLayout r) then with_unresolved (op_id o) t (hot (rateHere o inst)) Other s
        else if match op_kind r with KGlobal _ => hasTlsModel (op_id r) | _ => false end then with_threadLocal (op_id o) s
        else if is_alloca r && negb (addressEscapes m r) then with_stackLocal (op_id o) s
        else
          let s := if unknownIdx then with_unknown (op_id o) (op_id r) t false None s else s in
          let k := place_key r unknownIdx p in
          let sz := access_size (acc_type (v_acc v)) in
          let note f := let f := note_access path o (speculative inst) t f in
            if oneOf p then note_oneOf o t write r8 sz f else note_own o t (bool_decide (threadMult inst = Many)) write r8 sz f in
          let s := with_byRoot (at_place k (at_offset off note)) s in
          if oneOf p then with_oneOf (op_id o) (op_id r) t (hot r8) s
          else if unknownIdx then with_unknown (op_id o) (op_id r) t (hot r8) (Some unknownSize) s
          else match loop p with
          | Some _ => with_perThread (at_elements r (elem_size (elem p)) (if owner p then Some t else None)) s
          | None => s
          end
  end.

Definition record_visit (s : found) (v : visit) : found :=
  let o := v_op v in let inst := v_inst v in
  match acc_addr (v_acc v) with
  | None => s
  | Some addr =>
      let unplaced why := with_unresolved (op_id o) (i_thread inst) (hot (rateHere o inst)) why s in
      let placed c path ps :=
        match ps with
        | [p] => match root p with None => unplaced (cause p) | Some _ => record_at v c path s p end
        | _ => fold_left (record_at v c path) ps s
        end in
      let member := match resolveMember addr with
        | None => unplaced Other
        | Some (c, base) => placed c (finish (c_parts c)) (resolvePlaces base inst)
        end in
      match shapeOf addr with
      | ShNone => s
      | ShMember => member
      | ShArray =>
          match resolveRoot m (arrayBase addr) inst with
          | Some slot => if is_alloca slot && negb (addressEscapes m slot) then with_stackLocal (op_id o) s else member
          | None => member
          end
      | ShWhole => placed chain0 "<whole>" (resolvePlaces addr inst)
      end
  end.

Definition record_instance (s : found) (inst : instance) : found :=
  let s := if truncated inst then with_truncated (i_thread inst) s else s in
  fold_left record_visit (flat_map (λ o, map (Visit o inst) (memoryAccesses m o)) (walk (i_func inst))) s.
Definition recorded : found := fold_left record_instance (instances st) found0.

(** Roots that may be several objects: a slot of a function that runs more
    than once, an allocation made more than once. *)
Definition multiInvocation (r : operation) : bool :=
  match op_kind r with
  | KAlloca => match enclosing_func m (op_id r) with Some f => negb (runsOnce st f) | None => true end
  | KCall _ => negb (siteRunsOnce m isAddressTaken st r)
  | _ => false
  end.

(** ** One frame of reference for each root *)

(** The element's index leaves the name of a field folded into it. *)
Definition after_bracket (n : string) : option string :=
  match String.index 0 "]" n with Some i => Some (String.substring (S i) (String.length n) n) | None => None end.
Definition element_name (n : string) : string :=
  if starts_bracket n then
    match after_bracket n with
    | Some rest =>
        let rest := match rest with String c r => if Ascii.eqb c "."%char then r else rest | _ => rest end in
        if String.eqb rest "" then "<whole>" else rest
    | None => n
    end
  else n.
Definition renamed (n : string) (f : FieldInfo) : FieldInfo :=
  Field (size f) n (readers f) (writers f) (hotReaders f) (hotWriters f) (unknownRateReaders f) (unknownRateWriters f)
    (hotSize f) (onceSize f) (writeAt f) (certain f) (hotWriteAt f) (hotReadAt f) (manyHotWriters f)
    (oneOfHotWriters f) (oneOfHotReaders f) (oneOfWriteAt f) (oneOfReadAt f) (oneOfSize f) (firstWrite f) (firstAccess f).

Definition absorb_at (dst : FieldMap) (x : Z * FieldInfo) : FieldMap := at_offset (fst x) (λ g, absorb g (snd x)) dst.
Definition fold_root (l : list (PlaceKey * FieldMap)) (p : PerThread) : list (PlaceKey * FieldMap) :=
  let r := p_root p in
  match key_field (r, Relative) l with
  | None => l
  | Some rel =>
      if conflict p || (elemSize p =? 0)%Z then
        erase (r, Relative) (at_place (r, UnknownElement) (λ dst, fold_left absorb_at rel dst) l)
      else match key_field (r, Absolute) l with
      | None => l
      | Some abs =>
          erase (r, Absolute) (at_place (r, Relative)
            (λ dst, fold_left (λ dst x, absorb_at dst (fst x mod elemSize p, renamed (element_name (name (snd x))) (snd x))%Z) abs dst) l)
      end
  end.
Definition foldPlaces (s : found) : list (PlaceKey * FieldMap) := fold_left fold_root (perThread s) (byRoot s).

(** ** Geometry *)

Variable line : Z.
Variable heapAlign : Z.

Definition sharesAt (oa sa ob sb shift : Z) : bool :=
  let a0 := ((oa + shift) / line)%Z in let a1 := ((oa + shift + Z.max sa 1 - 1) / line)%Z in
  let b0 := ((ob + shift) / line)%Z in let b1 := ((ob + shift + Z.max sb 1 - 1) / line)%Z in
  ((a0 <=? b1) && (b0 <=? a1))%Z.
Fixpoint shifts (fuel : nat) (shift step : Z) : list Z :=
  match fuel with
  | O => []
  | S fuel => if (shift <? line)%Z then shift :: shifts fuel (shift + step)%Z step else []
  end.
Definition overlap (ox sx oy sy : Z) : bool := ((ox <? oy + sy) && (oy <? ox + sx))%Z.
(** The positions an object may start at, and in how many of them the two
    share a line. *)
Definition geometry (startStep ox sx oy sy : Z) : nat * nat :=
  let ps := shifts (Z.to_nat line) 0 (Z.min startStep line) in
  (List.length ps, List.length (List.filter (sharesAt ox sx oy sy) ps)).

Definition alignment (r : operation) : Z :=
  let attr := match get_attr (op_attrs r) "alignment" with Some (AInt n) => Some n | _ => None end in
  Z.max 1 (match op_kind r with
    | KGlobal g => match attr with Some n => n | None => typeABIAlignment (global_type g) end
    | KAlloca => match attr with Some n => if (n =? 0)%Z then match rootType r with Some t => typeABIAlignment t | None => 1%Z end else n
                              | None => match rootType r with Some t => typeABIAlignment t | None => 1%Z end end
    | KCall _ => match allocationAlignment m r with Some n => n | None => heapAlign end
    | _ => 1%Z
    end).

Definition sizeOf (f : FieldInfo) (t : nat) (isHot : bool) : Z :=
  match (if isHot then hotSize f else onceSize f) !! t with
  | Some n => Z.max n 1
  | None => match oneOfSize f !! t with Some n => if isHot then Z.max n 1 else 1%Z | None => 1%Z end
  end.

(** ** The judgement of a pair *)

Section judge.
Variable s : found.
Variable r : operation.
Variable kind_ : PlaceKind.
Variable elements : Z.                      (* elemSize of the root, 0 where it has none *)
Variable own : list nat.                    (* the threads that own an element alone *)

Definition isUnknown : bool := bool_decide (kind_ = UnknownElement).
Definition unknownSize : Z := if isUnknown then default 0%Z (unknownElem s !! op_id r) else 0%Z.
Definition startStep : Z :=
  if bool_decide (kind_ = Relative) && negb (elements =? 0)%Z then Z.gcd (alignment r) elements
  else if isUnknown && negb (unknownSize =? 0)%Z then Z.gcd (alignment r) unknownSize
  else alignment r.
Definition hasUnknownIndex (t : nat) : bool := in_list t (default [] (unknownIndexThreads s !! op_id r)).
Definition hasOneOf (t : nat) : bool := in_list t (default [] (oneOfThreads s !! op_id r)).

(** Whether two accesses are two pieces of data on one line: in how many
    positions of how many. *)
Definition lands (x : FieldInfo) (ox : Z) (w : nat) (wHot : bool) (y : FieldInfo) (oy : Z) (u : nat) : option (nat * nat) :=
  let sx := sizeOf x w wHot in let sy := sizeOf y u true in
  let '(positions, sharing) := geometry startStep ox sx oy sy in
  if negb (overlap ox sx oy sy) && (0 <? sharing)%nat then Some (positions, sharing)
  else if negb isUnknown || (unknownSize =? 0)%Z then None
  else if (0 <? snd (geometry startStep ox sx (oy + unknownSize) sy))%nat || (0 <? snd (geometry startStep oy sy (ox + unknownSize) sx))%nat
  then Some (0, 0)%nat else None.

(** Two accesses that make a verdict, and where. *)
Record witness := Wit { w_thread : nat; u_thread : nat; w_at : option operation; u_at : option operation; w_pos : nat; w_sharing : nat }.
Definition wit (x y : FieldInfo) (w u : nat) (p : nat * nat) : witness := Wit w u (at_ x w true) (at_ y u false) (fst p) (snd p).

Definition tryPair (x : FieldInfo) (ox : Z) (y : FieldInfo) (oy : Z) : option witness :=
  first_some (λ w, if in_list w (certain x) then
    first_some (λ u, if negb (u =? w)%nat && in_list u (certain y) && negb (exclusive m st w u)
      then option_map (wit x y w u) (lands x ox w true y oy u) else None) (hotWriters y ++ hotReaders y) else None) (hotWriters x).

Inductive reason := ThroughSet | OneThreadManyTimes | Unaccounted | MayExclude | RateUnknown | ElementUnknown.
Definition reason_of (x y : FieldInfo) (w u : nat) : reason :=
  if onlyOneOfWriter x w || onlyOneOfToucher y u then ThroughSet
  else if (u =? w)%nat then OneThreadManyTimes
  else if negb (in_list w (certain x)) || negb (in_list u (certain y)) then Unaccounted
  else if exclusive m st w u then MayExclude
  else RateUnknown.
Definition mayContend (x : FieldInfo) (ox : Z) (y : FieldInfo) (oy : Z) : option (witness * reason) :=
  first_some (λ allowSame : bool,
    first_some (λ w,
      first_some (λ u,
        if (u =? w)%nat && negb allowSame || (u =? w)%nat && (negb (in_list w (manyHotWriters x)) || in_list w own) then None
        else option_map (λ p, (wit x y w u p, reason_of x y w u)) (lands x ox w true y oy u))
        (hotWriters y ++ hotReaders y ++ unknownRateWriters y ++ unknownRateReaders y ++ oneOfHotWriters y ++ oneOfHotReaders y))
      (hotWriters x ++ unknownRateWriters x ++ oneOfHotWriters x))
    [false; true].

(** A once-writer against a repeated access: what was found, whether a
    thread has accesses that could not be placed, and the witness, from the
    first field to the second. *)
Record cold_state := Cold { any : bool; unplaced_ : bool; chosen : option (witness * bool) }.
Definition cold_one (swapped : bool) (x : FieldInfo) (ox : Z) (y : FieldInfo) (oy : Z) (c : cold_state) (wu : nat * nat) : cold_state :=
  let '(w, u) := wu in
  if (u =? w)%nat || negb (in_list u (certain y)) then c
  else match lands x ox w false y oy u with
  | None => c
  | Some p =>
      let here := bool_decide (w ∈ unresolvedThreads s) || hasUnknownIndex w || hasOneOf w || negb (bool_decide (truncatedThreads s ⊆ {[w]})) in
      let take := here && negb (unplaced_ c) || negb here && negb (any c) && negb (unplaced_ c) in
      Cold (any c || negb here) (unplaced_ c || here)
        (if take then Some (Wit w u (writeAt x !! w) (at_ y u false) (fst p) (snd p), swapped) else chosen c)
  end.
Definition coldAgainst (swapped : bool) (x : FieldInfo) (ox : Z) (y : FieldInfo) (oy : Z) (c : cold_state) : cold_state :=
  fold_left (cold_one swapped x ox y oy)
    (flat_map (λ w, if in_list w (certain x) && negb (in_list w (hotWriters x)) && negb (in_list w (unknownRateWriters x))
      then map (pair w) (hotWriters y ++ hotReaders y) else []) (writers x)) (Cold false (unplaced_ c) (chosen c)).

Inductive verdict :=
| NoPair
| Definite (w : witness) (swapped : bool)
| PossibleObjects (w : witness) (swapped : bool)      (* two invocations, or two allocations *)
| Possible (w : witness) (swapped : bool) (why : reason)
| PossibleUnplaced (w : witness) (swapped : bool)
| ColdPair.

(** Whether the root is several objects. *)
Definition onStack : bool := (is_alloca r || isHeapRoot r) && multiInvocation r.

Definition judge (a : FieldInfo) (oa : Z) (b : FieldInfo) (ob : Z) : verdict :=
  let hit := match tryPair a oa b ob with Some w => Some (w, false) | None => option_map (λ w, (w, true)) (tryPair b ob a oa) end in
  match hit with
  | Some (w, sw) =>
      if onStack then PossibleObjects w sw
      else if isUnknown then Possible w sw ElementUnknown else Definite w sw
  | None =>
      let contend := match mayContend a oa b ob with Some (w, why) => Some (w, why, false) | None => option_map (λ x, (fst x, snd x, true)) (mayContend b ob a oa) end in
      match contend with
      | Some (w, why, sw) =>
          if onStack then (if (w_thread w =? u_thread w)%nat then NoPair else PossibleObjects w sw)
          else Possible w sw (if isUnknown then ElementUnknown else why)
      | None =>
          if isUnknown then NoPair
          else
            let c1 := coldAgainst false a oa b ob (Cold false false None) in
            let c2 := coldAgainst true b ob a oa c1 in
            match unplaced_ c2, chosen c2 with
            | true, Some (w, sw) => if onStack then PossibleObjects w sw else PossibleUnplaced w sw
            | _, _ => if any c1 || any c2 then ColdPair else NoPair
            end
      end
  end.

(** The elements of neighbouring threads. *)
Inductive across := NoneAcross | ColdAcross | DefiniteAcross (w : nat) (positions sharing : nat).
Fixpoint first_writer (a b : FieldInfo) (once : option nat) (l : list nat) : option (nat * bool) :=
  match l with
  | [] => option_map (λ t, (t, false)) once
  | t :: l =>
      if negb (in_list t own) || negb (in_list t (certain a)) || negb (in_list t (certain b)) then first_writer a b once l
      else if negb (in_list t (hotWriters b)) && negb (in_list t (hotReaders b)) then first_writer a b once l
      else if in_list t (hotWriters a) then Some (t, true)
      else if in_list t (unknownRateWriters a) then first_writer a b once l
      else if bool_decide (t ∈ unresolvedThreads s) || hasUnknownIndex t || hasOneOf t then first_writer a b once l
      else first_writer a b (match once with Some _ => once | None => Some t end) l
  end.
Definition judge_across (a : FieldInfo) (oa : Z) (b : FieldInfo) (ob : Z) : across :=
  match first_writer a b None (writers a) with
  | None => NoneAcross
  | Some (w, isHot) =>
      let sa := sizeOf a w isHot in let sb := sizeOf b w true in
      if overlap oa sa (elements + ob) sb then NoneAcross
      else
        let '(positions, sharing) := geometry startStep oa sa (elements + ob) sb in
        if (sharing =? 0)%nat then NoneAcross
        else if isHot then DefiniteAcross w positions sharing else ColdAcross
  end.
End judge.

(** ** The report *)

Inductive finding :=
| Pair (r : operation) (k : PlaceKind) (oa ob : Z) (v : verdict)
| Across (r : operation) (oa ob : Z) (v : across).

Definition sorted_offsets (fs : FieldMap) : list Z := merge_sort Z.le (map fst fs).
Definition field_at (fs : FieldMap) (o : Z) : FieldInfo := match List.find (λ x, (fst x =? o)%Z) fs with Some (_, f) => f | None => field0 end.
Fixpoint pairs_of (self : bool) (l : list Z) : list (Z * Z) :=
  match l with [] => [] | x :: l => map (pair x) (if self then x :: l else l) ++ pairs_of self l end.
Definition elements_of (s : found) (r : operation) : option PerThread := List.find (λ p, (op_id (p_root p) =? op_id r)%nat) (perThread s).

Definition report_root (s : found) (x : PlaceKey * FieldMap) : list finding :=
  let '((r, k), fs) := x in
  let relative := bool_decide (k = Relative) in
  let sz := if relative then match elements_of s r with Some p => elemSize p | None => 0%Z end else 0%Z in
  let own := if relative then match elements_of s r with Some p => owners p | None => [] end else [] in
  let offsets := sorted_offsets fs in
  map (λ o, Pair r k (fst o) (snd o) (judge s r k sz own (field_at fs (fst o)) (fst o) (field_at fs (snd o)) (snd o))) (pairs_of (bool_decide (k = UnknownElement)) offsets) ++
  if relative && negb (sz =? 0)%Z && match own with [] => false | _ => true end
  then map (λ o, Across r (fst o) (snd o) (judge_across s r k sz own (field_at fs (fst o)) (fst o) (field_at fs (snd o)) (snd o)))
         (flat_map (λ a, map (pair a) offsets) offsets)
  else [].
Definition report (s : found) : list finding := flat_map (report_root s) (foldPlaces s).

(** The counts of the summary. *)
Definition is_definite (f : finding) : bool := match f with Pair _ _ _ _ (Definite _ _) | Across _ _ _ (DefiniteAcross _ _ _) => true | _ => false end.
Definition is_possible (f : finding) : bool := match f with Pair _ _ _ _ (PossibleObjects _ _ | Possible _ _ _ | PossibleUnplaced _ _) => true | _ => false end.
Definition is_cold (f : finding) : bool := match f with Pair _ _ _ _ ColdPair | Across _ _ _ ColdAcross => true | _ => false end.
Definition is_unplaced (f : finding) : bool := match f with Pair _ _ _ _ (PossibleUnplaced _ _) => true | _ => false end.
Definition on_slot (f : finding) : bool := match f with Pair r _ _ _ (PossibleObjects _ _) => is_alloca r | _ => false end.

Record summary := Summary {
  definite : nat; possible : nat; coldPairs : nat; unresolved : nat; stackLocals : nat; threadLocals : nat;
  unknownIndices : nat; s_instances : nat; unplacedPairs : nat; oneOfs : nat; possibleOnSlots : nat;
  causes : Unplaced → nat
}.
Definition how_many {A} (p : A → bool) (l : list A) : nat := List.length (List.filter p l).
Definition cause_count (s : found) (u : Unplaced) : nat :=
  let n w := List.length (List.filter (λ o, bool_decide (default UNone (unresolvedWhy s !! o) = w)) (elements (unresolvedOps s))) in
  if bool_decide (u = Other) then (n Other + n UNone)%nat else n u.
Definition summary_of (s : found) (fs : list finding) : option summary :=
  if match byRoot s with [] => false | _ => true end || negb (bool_decide (unresolvedOps s = ∅)) || negb (bool_decide (stackLocalOps s = ∅)) || negb (bool_decide (threadLocalOps s = ∅))
     || negb (bool_decide (unknownIndexOps s = ∅)) || negb (bool_decide (oneOfOps s = ∅))
  then Some (Summary (how_many is_definite fs) (how_many is_possible fs) (how_many is_cold fs) (base.size (unresolvedOps s))
    (base.size (stackLocalOps s ∖ (unresolvedOps s ∪ oneOfOps s ∪ unknownIndexOps s)))
    (base.size (threadLocalOps s ∖ (unresolvedOps s ∪ oneOfOps s ∪ unknownIndexOps s ∪ stackLocalOps s)))
    (base.size (unknownIndexOps s ∖ (unresolvedOps s ∪ oneOfOps s))) (List.length (instances st)) (how_many is_unplaced fs)
    (base.size (oneOfOps s ∖ unresolvedOps s)) (how_many on_slot fs) (cause_count s))
  else None.

(** The pass, which gives no verdict on a walk that was cut short. *)
Definition runOnOperation : option (list finding * option summary) :=
  if capExceeded st then None
  else
    let s := recorded in
    let fs := report s in
    Some (fs, summary_of s fs).
End pass.
End FalseSharing.
