(* ===== verification/FalseSharingSpec.v ===== *)
(** * FalseSharingSpec: what a verdict on two fields means

    The geometry is exact: the positions the pass counts are those an object
    or an element may start at, and it counts the ones where two bytes of
    the two accesses are on one line ([geometry_exact]).  A definite pair is
    two threads that may both exist, one writing and one touching two pieces
    of data of one object repeatedly ([definite_sound]); a pair passed over
    or called cold has no two such threads on a line, unless their accesses
    overlap ([quiet_sound], [no_pair_missed]). *)

From stdpp Require Import base tactics list strings gmap sorting.
From Stdlib Require Import String ZArith Lia.
From S2P Require Import Prelude Text Cir Utils Slots Threads Places FalseSharing.
Local Open Scope list_scope.

Module FalseSharingSpec.
Import Threads Places FalseSharing.
Open Scope Z_scope.

(** ** Lines *)

Section geometry.
Variable line : Z.

(** A byte of the one access and a byte of the other are on one line, the
    object starting at [start]. *)
Definition meets (start ox sx oy sy : Z) : Prop :=
  ∃ x y, start + ox ≤ x < start + ox + Z.max sx 1 ∧ start + oy ≤ y < start + oy + Z.max sy 1 ∧ x / line = y / line.

Context (Hline : 0 < line).

Lemma byte_of_line a n l : 0 < n → a / line ≤ l ≤ (a + n - 1) / line → ∃ x, a ≤ x < a + n ∧ x / line = l.
Proof.
  intros Hn [H1 H2]. destruct (Z.eq_dec l (a / line)) as [->|Hne]; [exists a; split; [lia|done]|].
  exists (l * line). rewrite Z.div_mul by lia. split; [|done].
  assert (a / line + 1 ≤ l) by lia. pose proof (Z.mul_succ_div_gt a line Hline). pose proof (Z.mul_div_le (a + n - 1) line Hline). nia.
Qed.

Lemma sharesAt_spec oa sa ob sb shift : sharesAt line oa sa ob sb shift = true ↔ meets shift oa sa ob sb.
Proof.
  unfold sharesAt, meets. rewrite andb_true_iff, !Z.leb_le. split.
  - intros [H1 H2]. set (l := Z.max ((oa + shift) / line) ((ob + shift) / line)).
    assert ((oa + shift) / line ≤ (oa + shift + Z.max sa 1 - 1) / line) by (apply Z.div_le_mono; lia).
    assert ((ob + shift) / line ≤ (ob + shift + Z.max sb 1 - 1) / line) by (apply Z.div_le_mono; lia).
    destruct (byte_of_line (oa + shift) (Z.max sa 1) l) as (x & Hx & Ex); [lia|lia|].
    destruct (byte_of_line (ob + shift) (Z.max sb 1) l) as (y & Hy & Ey); [lia|lia|].
    exists x, y. repeat split; [lia..|congruence].
  - intros (x & y & Hx & Hy & E).
    assert ((oa + shift) / line ≤ x / line) by (apply Z.div_le_mono; lia). assert (x / line ≤ (oa + shift + Z.max sa 1 - 1) / line) by (apply Z.div_le_mono; lia).
    assert ((ob + shift) / line ≤ y / line) by (apply Z.div_le_mono; lia). assert (y / line ≤ (ob + shift + Z.max sb 1 - 1) / line) by (apply Z.div_le_mono; lia).
    lia.
Qed.

(** Lines repeat. *)
Lemma meets_shift start k ox sx oy sy : meets start ox sx oy sy ↔ meets (start + k * line) ox sx oy sy.
Proof.
  assert (∀ start k, meets start ox sx oy sy → meets (start + k * line) ox sx oy sy) as H.
  { intros s j (x & y & Hx & Hy & E). exists (x + j * line), (y + j * line). rewrite !Z.div_add by lia. repeat split; lia. }
  split; [apply H|]. intros Hm%(H _ (- k)). by replace (start + k * line + - k * line) with start in Hm by lia.
Qed.
Lemma meets_mod start ox sx oy sy : meets start ox sx oy sy ↔ meets (start mod line) ox sx oy sy.
Proof.
  rewrite (meets_shift (start mod line) (start / line)). assert (start mod line + start / line * line = start) as ->; [|done].
  pose proof (Z.div_mod start line ltac:(lia)). lia.
Qed.

Lemma shifts_spec fuel : ∀ from step x, 0 < step → line - from ≤ Z.of_nat fuel →
  x ∈ shifts line fuel from step ↔ from ≤ x < line ∧ (step | x - from).
Proof.
  induction fuel as [|fuel IH]; intros from step x Hs Hf; cbn [shifts].
  - rewrite elem_of_nil. split; [done|]. lia.
  - destruct (Z.ltb_spec from line) as [Hlt|Hge]; [|rewrite elem_of_nil; split; [done|lia]].
    rewrite elem_of_cons, IH by lia. split.
    + intros [->|[Hr [q Hq]]]; [split; [lia|exists 0; lia]|split; [lia|exists (q + 1); lia]].
    + intros [Hr [q Hq]]. destruct (Z.eq_dec x from) as [->|Hne]; [by left|right]. assert (0 < q) by nia. split; [nia|exists (q - 1); lia].
Qed.
End geometry.

(** ** Powers of two *)

Definition power_of_two (n : Z) : Prop := ∃ k : nat, n = 2 ^ Z.of_nat k.
Lemma power_pos n : power_of_two n → 0 < n.
Proof. intros [k ->]. lia. Qed.
Lemma power_le_divides a b : power_of_two a → power_of_two b → a ≤ b → (a | b).
Proof.
  intros [i ->] [j ->] H. apply Z.pow_le_mono_r_iff in H; [|lia..]. exists (2 ^ (Z.of_nat j - Z.of_nat i)). rewrite <-Z.pow_add_r by lia. f_equal. lia.
Qed.
Lemma power_divisor n d : 0 ≤ d → power_of_two n → (d | n) → power_of_two d.
Proof.
  intros Hd [k ->]. revert d Hd. induction k as [|k IH]; intros d Hd Hdiv.
  - exists 0%nat. cbn in *. destruct (Z.divide_1_r _ Hdiv); lia.
  - destruct (Z.Even_or_Odd d) as [[e ->]|Hodd].
    + assert ((e | 2 ^ Z.of_nat k)) as He. { rewrite Nat2Z.inj_succ, Z.pow_succ_r in Hdiv by lia. exact (proj1 (Z.mul_divide_cancel_l e _ 2 ltac:(lia)) Hdiv). }
      destruct (IH e ltac:(lia) He) as [j ->]. exists (S j). rewrite Nat2Z.inj_succ, Z.pow_succ_r by lia. done.
    + apply IH; [done|]. rewrite Nat2Z.inj_succ, Z.pow_succ_r in Hdiv by lia. eapply Z.gauss; [exact Hdiv|]. destruct Hodd as [o ->]. apply Z.bezout_1_gcd. exists 1, (- o). lia.
Qed.

(** Every multiple of the greatest common divisor of an alignment and an
    element's size is, up to whole lines, where some element starts in some
    allowed array. *)
Lemma element_starts align elem line start : 0 < align → 0 < elem → 0 < line → (Z.gcd align elem | start) →
  ∃ base i, 0 ≤ base ∧ 0 ≤ i ∧ (align | base) ∧ (base + i * elem) mod line = start mod line.
Proof.
  intros Ha He Hl [q Hq]. destruct (Z.gcd_bezout align elem _ eq_refl) as (u & v & Huv).
  set (t := Z.abs (q * v) + 1). set (i := q * v + t * align). set (b := q * u * align - t * align * elem). set (k := Z.abs b + 1).
  assert (k * 1 ≤ k * (line * align)) as Hk by (apply Z.mul_le_mono_nonneg_l; unfold k; nia).
  assert (t * 1 ≤ t * align) as Ht by (apply Z.mul_le_mono_nonneg_l; unfold t; lia).
  exists (b + k * (line * align)), i. split; [unfold k in *; lia|]. split; [unfold i, t in *; lia|]. split.
  - unfold b. exists (q * u - t * elem + k * line). lia.
  - replace (b + k * (line * align) + i * elem) with (start + k * align * line); [by rewrite Z.mod_add by lia|]. unfold b, i. rewrite Hq, <-Huv. lia.
Qed.

Section positions.
Variable line : Z.
Context (Hl : power_of_two line).

Lemma positions_spec step x : power_of_two step → x ∈ shifts line (Z.to_nat line) 0 (Z.min step line) ↔ 0 ≤ x < line ∧ (Z.min step line | x).
Proof.
  intros Hs. pose proof (power_pos _ Hs). pose proof (power_pos _ Hl). rewrite shifts_spec by lia. by rewrite Z.sub_0_r.
Qed.
(** A start the alignment allows is, up to whole lines, one that is counted. *)
Lemma start_counted step start : power_of_two step → (step | start) → start mod line ∈ shifts line (Z.to_nat line) 0 (Z.min step line).
Proof.
  intros Hs Hd. pose proof (power_pos _ Hs). pose proof (power_pos _ Hl). apply positions_spec; [done|]. split; [apply Z.mod_pos_bound; lia|].
  assert ((Z.min step line | line)) as H1. { destruct (Z.min_spec step line) as [[? ->]|[? ->]]; [|done]. apply power_le_divides; [done|done|lia]. }
  assert ((Z.min step line | step)) as H2. { destruct (Z.min_spec step line) as [[? ->]|[? ->]]; [done|]. apply power_le_divides; done. }
  rewrite Z.mod_eq by lia. apply Z.divide_sub_r; [by etrans|]. apply Z.divide_mul_l, H1.
Qed.

Lemma filter_count {A} (p : A → bool) l : (0 < length (List.filter p l))%nat ↔ ∃ x, x ∈ l ∧ p x = true.
Proof.
  induction l as [|a l IH]; cbn; [split; [lia|intros (x & ?%not_elem_of_nil & _); done]|]. destruct (p a) eqn:E; cbn.
  - split; [intros _; exists a; split; [by left|done]|lia].
  - rewrite IH. split; intros (x & Hx & Hp); exists x; (split; [|done]); [by right|]. apply elem_of_cons in Hx as [->|Hx]; [congruence|done].
Qed.
Lemma filter_all {A} (p : A → bool) l : length (List.filter p l) = length l ↔ ∀ x, x ∈ l → p x = true.
Proof.
  induction l as [|a l IH]; cbn; [split; [intros _ x ?%not_elem_of_nil; done|done]|]. destruct (p a) eqn:E; cbn.
  - split; [intros [= H] x [->|Hx]%elem_of_cons; [done|by apply IH]|intros H; f_equal; apply IH; intros; apply H; by right].
  - split; [|intros H; rewrite (H a) in E by (by left); done]. intros H. assert (length (List.filter p l) ≤ length l)%nat; [|lia].
    clear. induction l as [|b l IH]; cbn; [lia|]. destruct (p b); cbn; lia.
Qed.

(** The geometry is exact: with the starts an alignment allows (and, where a spawn loop hands out elements, those of the elements), the two accesses share a line in none of the counted positions exactly when no start puts a byte of each on one line, and in all of them exactly when every start does. *)
Theorem geometry_exact align elem startStep ox sx oy sy positions sharing : power_of_two align → 0 ≤ elem →
  startStep = (if elem =? 0 then align else Z.gcd align elem) → geometry line startStep ox sx oy sy = (positions, sharing) →
  let starts start := ∃ base i, 0 ≤ base ∧ 0 ≤ i ∧ (align | base) ∧ start = base + i * elem in
  Z.of_nat positions = line / Z.min startStep line ∧
  ((0 < sharing)%nat ↔ ∃ start, starts start ∧ meets line start ox sx oy sy) ∧
  (sharing = positions ↔ ∀ start, starts start → meets line start ox sx oy sy).
Proof.
  intros Ha He Hstep Hg starts. pose proof (power_pos _ Ha) as Ha'. pose proof (power_pos _ Hl) as Hl'.
  assert (power_of_two startStep) as Hs.
  { rewrite Hstep. destruct (Z.eqb_spec elem 0) as [->|]; [done|]. apply (power_divisor align); [apply Z.gcd_nonneg|done|apply Z.gcd_divide_l]. }
  assert (∀ start, starts start → (startStep | start)) as Hd.
  { intros start (base & i & _ & _ & Hb & ->). rewrite Hstep. destruct (Z.eqb_spec elem 0) as [->|]; [by rewrite Z.mul_0_r, Z.add_0_r|].
    apply Z.divide_add_r; [etrans; [apply Z.gcd_divide_l|done]|apply Z.divide_mul_r, Z.gcd_divide_r]. }
  assert (∀ start, 0 ≤ start → (startStep | start) → ∃ start', starts start' ∧ start' mod line = start mod line) as Hr.
  { intros start H0 Hdiv. rewrite Hstep in Hdiv. destruct (Z.eqb_spec elem 0) as [->|Hne]; [exists start; split; [|done]; exists start, 0; repeat split; [lia..|done|lia]|].
    destruct (element_starts align elem line start) as (base & i & Hb & Hi & Hal & E); [lia..|done|]. exists (base + i * elem). split; [|done]. by exists base, i. }
  pose proof (power_pos _ Hs) as Hs'. unfold geometry in Hg. injection Hg as <- <-. split; [|split].
  - assert (∀ fuel from k, 0 < k → line - from ≤ Z.of_nat fuel → (k | line - from) → 0 ≤ line - from → Z.of_nat (length (shifts line fuel from k)) = (line - from) / k) as H.
    { induction fuel as [|fuel IH]; intros from k Hk Hf [q Hq] H0; cbn [shifts]; [rewrite Hq, Z.div_mul by lia; cbn; nia|].
      destruct (Z.ltb_spec from line) as [Hlt|]; [|replace (line - from) with 0 by lia; rewrite Z.div_0_l by lia; done].
      assert (line - (from + k) = (q - 1) * k) as Eq by (rewrite Z.mul_sub_distr_r; lia). assert (1 ≤ q) as Hq1 by nia.
      cbn [length]. rewrite Nat2Z.inj_succ, IH; [|lia|lia|by exists (q - 1)|rewrite Eq; nia]. rewrite Eq. rewrite Hq, !Z.div_mul by lia. lia. }
    rewrite H; [f_equal; lia|lia|lia| |lia]. rewrite Z.sub_0_r. destruct (Z.min_spec startStep line) as [[? ->]|[? ->]]; [|done]. apply power_le_divides; [done|done|lia].
  - rewrite filter_count. setoid_rewrite sharesAt_spec; [|done]. split.
    + intros (x & Hx & Hm). apply positions_spec in Hx as [Hx Hdx]; [|done].
      destruct (Z.min_spec startStep line) as [[Hm1 Em]|[Hm1 Em]]; rewrite Em in Hdx.
      * destruct (Hr x ltac:(lia) Hdx) as (start & Hst & E). exists start. split; [done|]. apply (proj2 (meets_mod line Hl' _ _ _ _ _)). rewrite E. by apply (proj1 (meets_mod line Hl' _ _ _ _ _)).
      * apply Z.mod_divide in Hdx; [|lia]. rewrite Z.mod_small in Hdx by lia. subst x. destruct (Hr 0 ltac:(lia) ltac:(apply Z.divide_0_r)) as (start & Hst & E). exists start. split; [done|].
        apply (proj2 (meets_mod line Hl' _ _ _ _ _)). rewrite E. by apply (proj1 (meets_mod line Hl' _ _ _ _ _)).
    + intros (start & Hst & Hm). exists (start mod line). split; [by apply start_counted, Hd|]. by apply (meets_mod line Hl') in Hm.
  - rewrite filter_all. setoid_rewrite sharesAt_spec; [|done]. split.
    + intros H start Hst. apply (proj2 (meets_mod line Hl' _ _ _ _ _)), H. by apply start_counted, Hd.
    + intros H x Hx. apply positions_spec in Hx as [Hx Hdx]; [|done].
      assert ((startStep | x)) as Hdiv. { destruct (Z.min_spec startStep line) as [[Hm1 Em]|[Hm1 Em]]; rewrite Em in Hdx; [done|]. apply Z.mod_divide in Hdx; [|lia]. rewrite Z.mod_small in Hdx by lia. subst x. apply Z.divide_0_r. }
      destruct (Hr x ltac:(lia) Hdiv) as (start & Hst & E). apply (proj2 (meets_mod line Hl' _ _ _ _ _)). rewrite <-E. apply (proj1 (meets_mod line Hl' _ _ _ _ _)). by apply H.
Qed.
End positions.

(** ** What a field's record says of the accesses *)

(** [P]: a thread, whether it writes, how often, how many bytes. *)
Section told.
Variable P : nat → bool → rate → Z → Prop.
Variable Q : nat → Prop.

Record told (f : FieldInfo) : Prop := {
  told_writes t : t ∈ hotWriters f → ∃ sz, P t true Repeated sz;
  told_reads t : t ∈ hotReaders f → ∃ sz, P t false Repeated sz;
  told_certain t : t ∈ certain f → Q t;
  told_size t n : hotSize f !! t = Some n → ∃ write rt sz, hot rt = true ∧ P t write rt sz ∧ Z.max n 1 = Z.max sz 1;
  told_sized t : t ∈ hotWriters f ∨ t ∈ hotReaders f → is_Some (hotSize f !! t)
}.

Lemma told_field0 : told field0.
Proof. split; cbn; try (by intros ? ?%not_elem_of_nil); [by intros t n; rewrite lookup_empty|]. by intros t [?%not_elem_of_nil|?%not_elem_of_nil]. Qed.

Lemma union_new_spec a b t : t ∈ union_new a b → t ∈ a ∨ t ∈ b.
Proof.
  unfold union_new. revert a. induction b as [|x b IH]; intros a; cbn; [by left|]. intros [[->|H]%insert_new_spec|H]%IH.
  - right. by left.
  - by left.
  - right. by right.
Qed.
Lemma widest_spec a b t n : widest a b !! t = Some n →
  (∃ x, a !! t = Some x ∧ n = x) ∨ (∃ y, b !! t = Some y ∧ n = y).
Proof.
  unfold widest. rewrite lookup_union_with. destruct (a !! t) as [x|], (b !! t) as [y|]; cbn; intros [= <-]; [|by left; exists x|by right; exists y].
  destruct (Z.max_spec x y) as [[_ ->]|[_ ->]]; [right; by exists y|left; by exists x].
Qed.
Lemma widest_some a b t : is_Some (a !! t) ∨ is_Some (b !! t) → is_Some (widest a b !! t).
Proof. unfold widest. rewrite lookup_union_with. destruct (a !! t), (b !! t); cbn; [done..|]. intros [[? ?]|[? ?]]; done. Qed.

Lemma absorb_told f g : told f → told g → told (absorb f g).
Proof.
  intros Hf Hg. split; cbn.
  - intros t [H|H]%union_new_spec; [by apply (told_writes f)|by apply (told_writes g)].
  - intros t [H|H]%union_new_spec; [by apply (told_reads f)|by apply (told_reads g)].
  - intros t [H|H]%union_new_spec; [by apply (told_certain f)|by apply (told_certain g)].
  - intros t n [(x & H & ->)|(y & H & ->)]%widest_spec; [by apply (told_size f)|by apply (told_size g)].
  - intros t H. apply widest_some. destruct H as [[H|H]%union_new_spec|[H|H]%union_new_spec];
      [left; apply (told_sized f)|right; apply (told_sized g)|left; apply (told_sized f)|right; apply (told_sized g)]; auto.
Qed.
Lemma renamed_told n f : told f → told (renamed n f).
Proof. intros Hf. split; apply Hf. Qed.

Lemma note_access_told path o spec t f : (spec = false → Q t) → told f → told (note_access path o spec t f).
Proof.
  intros Hq Hf. split; try apply Hf. cbn. intros u. destruct spec; [apply Hf|]. intros [->|H]%insert_new_spec; [by apply Hq|by apply Hf].
Qed.
Lemma note_oneOf_told o t write r sz f : told f → told (note_oneOf o t write r sz f).
Proof. intros Hf. unfold note_oneOf. destruct (hot r); [|done]. split; apply Hf. Qed.
Lemma widen_spec t n s u x : widen t n s !! u = Some x → (u = t ∧ Z.max (default 0 (s !! t)) n = x) ∨ s !! u = Some x.
Proof. unfold widen. destruct (decide (t = u)) as [->|Hne]; [rewrite lookup_insert_eq; intros [= <-]; by left|rewrite lookup_insert_ne by done; by right]. Qed.
Lemma widen_some t n s u : u = t ∨ is_Some (s !! u) → is_Some (widen t n s !! u).
Proof. unfold widen. destruct (decide (t = u)) as [->|Hne]; [by rewrite lookup_insert_eq|rewrite lookup_insert_ne by done]. by intros [->|H]. Qed.

Lemma note_own_told o t many write r sz f : P t write r sz → told f → told (note_own o t many write r sz f).
Proof.
  intros Hp Hf. unfold note_own. split; cbn.
  - intros u. destruct write; cbn; [|apply Hf]. case_bool_decide as Er; [|apply Hf]. intros [->|H]%insert_new_spec; [|by apply Hf]. exists sz. by rewrite <-Er.
  - intros u. destruct write; cbn; [apply Hf|]. case_bool_decide as Er; [|apply Hf]. intros [->|H]%insert_new_spec; [|by apply Hf]. exists sz. by rewrite <-Er.
  - apply Hf.
  - intros u n. destruct (hot r) eqn:Eh; [|apply Hf]. intros [[-> <-]|H]%widen_spec; [|by apply Hf].
    destruct (hotSize f !! t) as [x|] eqn:Ex; cbn; [|exists write, r, sz; repeat split; [done|done|lia]].
    destruct (Z.max_spec x sz) as [[_ ->]|[_ ->]]; [by exists write, r, sz|]. by apply (told_size f Hf t).
  - assert (∀ u, u = t ∧ r = Repeated ∨ is_Some (hotSize f !! u) → is_Some ((if hot r then widen t sz (hotSize f) else hotSize f) !! u)) as Hs.
    { intros u [[-> ->]|H]; [apply widen_some; by left|]. destruct (hot r); [apply widen_some; by right|done]. }
    intros u H. apply Hs. destruct write; cbn in H; case_bool_decide as Er; destruct H as [H|H];
      try (apply insert_new_spec in H as [->|H]; [by left|]); right; apply (told_sized f Hf); auto.
Qed.
End told.

Lemma told_mono (P P' : nat → bool → rate → Z → Prop) Q f : (∀ t w r s, P t w r s → P' t w r s) → told P Q f → told P' Q f.
Proof.
  intros H Hf. split.
  - intros t Ht. destruct (told_writes _ _ _ Hf t Ht) as [sz Hsz]. exists sz. by apply H.
  - intros t Ht. destruct (told_reads _ _ _ Hf t Ht) as [sz Hsz]. exists sz. by apply H.
  - apply Hf.
  - intros t n Ht. destruct (told_size _ _ _ Hf t n Ht) as (w & r & sz & Hh & Hp & E). exists w, r, sz. auto.
  - apply Hf.
Qed.

(** ** The record of the accesses *)

Section record.
Variable m : module.
Variable isIncomplete : ty → bool.
Variable typeSize : ty → Z.
Variable typeABIAlignment : ty → Z.
Variable elementOffset : ty → Z → Z.
Variable isAddressTaken : operation → bool.
Variable invokeTargets : nat → option (list operation * bool).
Variable st : state.
Variable resolvePlaces : value → instance → list Place.
Variable hasTlsModel : nat → bool.
Abbreviation resolveMember := (resolveMember m isIncomplete typeSize elementOffset).
Abbreviation rateOn := (rateOn m isAddressTaken invokeTargets).

(** An element of a local array whose address stays in its invocation. *)
Definition local_array (addr : value) (inst : instance) : bool :=
  match resolveRoot m (arrayBase m addr) inst with Some slot => is_alloca slot && negb (addressEscapes m slot) | None => false end.
(** An access is at a place: through a member chain or an element step, or
    whole. *)
Definition located (v : visit) (c : chain) (path : string) (p : Place) : Prop := ∃ addr, acc_addr (v_acc v) = Some addr ∧
  ((shapeOf m addr = ShMember ∨ shapeOf m addr = ShArray ∧ local_array addr (v_inst v) = false) ∧ path = finish (c_parts c) ∧
     (∃ base, resolveMember addr = Some (c, base) ∧ p ∈ resolvePlaces base (v_inst v)) ∨
   shapeOf m addr = ShWhole ∧ c = chain0 ∧ path = "<whole>"%string ∧ p ∈ resolvePlaces addr (v_inst v)).
(** Of a global or a slot only a record is of interest as a whole. *)
Definition only_scalar (path : string) (r : operation) (p : Place) : bool :=
  String.eqb path "<whole>" && negb (isHeapRoot r) && match loop p with None => true | Some _ => false end && negb (unknownIndex p)
  && negb (match rootType m r with Some t => is_record t | None => false end).

(** A root other threads can reach: neither thread-local nor a slot that
    stays in its invocation. *)
Definition shared_root (r : operation) : Prop :=
  match op_kind r with KGlobal _ => hasTlsModel (op_id r) = false | KAlloca => addressEscapes m r = true | _ => True end.

(** Thread [t] makes an access on the root numbered [i], at an offset of the
    root or of an element of it. *)
Definition access_at (i : nat) (k : PlaceKind) (off : Z) (t : nat) (write : bool) (rt : rate) (sz : Z) : Prop :=
  ∃ v c path p r, v_inst v ∈ instances st ∧ v_op v ∈ walk (i_func (v_inst v)) ∧ v_acc v ∈ memoryAccesses m (v_op v) ∧ located v c path p ∧
    root p = Some r ∧ op_id r = i ∧ shared_root r ∧ hasLayout m isIncomplete r = true ∧ only_scalar path r p = false ∧ oneOf p = false ∧ off = u64 (c_offset c + offset p) ∧
    k = snd (place_key r (c_unknown c || unknownIndex p) p) ∧ t = i_thread (v_inst v) ∧ write = acc_write (v_acc v) ∧
    rt = rateOn (v_op v) (v_inst v) p ∧ sz = access_size typeSize (acc_type (v_acc v)).
Definition accounted_for (t : nat) : Prop := ∃ inst, inst ∈ instances st ∧ i_thread inst = t ∧ speculative inst = false.

Definition good_fields (P : nat → PlaceKind → Z → nat → bool → rate → Z → Prop) (l : list (PlaceKey * FieldMap)) : Prop :=
  ∀ k fs off f, (k, fs) ∈ l → (off, f) ∈ fs → told (P (op_id (fst k)) (snd k) off) accounted_for f.

Lemma at_offset_good (P : Z → FieldInfo → Prop) off g fs : (∀ f, P off f → P off (g f)) → P off field0 → (∀ o f, (o, f) ∈ fs → P o f) →
  ∀ o f, (o, f) ∈ at_offset off g fs → P o f.
Proof.
  intros Hg H0. induction fs as [|[o' f'] fs IH]; intros Hfs o f; cbn [at_offset].
  - intros [= -> ->]%list_elem_of_singleton. by apply Hg.
  - destruct (Z.eqb_spec o' off) as [->|Hne]; rewrite elem_of_cons; intros [[= -> ->]|H].
    + apply Hg, Hfs. by left.
    + apply Hfs. by right.
    + apply Hfs. by left.
    + apply IH; [|done]. intros. apply Hfs. by right.
Qed.
Lemma at_place_good (P : PlaceKey → FieldMap → Prop) k g l : (∀ k', same_place k k' = true → ∀ fs, P k' fs → P k' (g fs)) → P k (g []) →
  (∀ k' fs, (k', fs) ∈ l → P k' fs) → ∀ k' fs, (k', fs) ∈ at_place k g l → P k' fs.
Proof.
  intros Hg H0. induction l as [|[k1 f1] l IH]; intros Hl k' fs; cbn [at_place].
  - by intros [= -> ->]%list_elem_of_singleton.
  - destruct (same_place k k1) eqn:E; rewrite elem_of_cons; intros [[= -> ->]|H].
    + apply Hg; [done|]. apply Hl. by left.
    + apply Hl. by right.
    + apply Hl. by left.
    + apply IH; [|done]. intros. apply Hl. by right.
Qed.
Lemma same_place_spec a b : same_place a b = true → op_id (fst a) = op_id (fst b) ∧ snd a = snd b.
Proof. unfold same_place. by intros [?%Nat.eqb_eq ?%bool_decide_eq_true]%andb_true_iff. Qed.

(** One access noted where it lands. *)
Lemma good_note P l k off g : good_fields P l →
  (∀ f, told (P (op_id (fst k)) (snd k) off) accounted_for f → told (P (op_id (fst k)) (snd k) off) accounted_for (g f)) →
  good_fields P (at_place k (at_offset off g) l).
Proof.
  intros Hl Hg. intros k' fs off' f Hin. revert off' f.
  revert k' fs Hin. apply (at_place_good (λ k' fs, ∀ off' f, (off', f) ∈ fs → told (P (op_id (fst k')) (snd k') off') accounted_for f)).
  - intros k' [E1 E2]%same_place_spec fs Hfs. rewrite <-E1, <-E2 in *.
    apply (at_offset_good (λ o f, told (P (op_id (fst k)) (snd k) o) accounted_for f)); [exact Hg|apply told_field0|exact Hfs].
  - apply (at_offset_good (λ o f, told (P (op_id (fst k)) (snd k) o) accounted_for f)); [exact Hg|apply told_field0|by intros ? ? ?%not_elem_of_nil].
  - intros k' fs Hin off' f. by apply Hl.
Qed.

Context (Hsize : ∀ t, 0 ≤ typeSize t).
Definition sizes_ok (l : list PerThread) : Prop := ∀ p, p ∈ l → 0 ≤ elemSize p.
Definition good (s : found) : Prop := good_fields access_at (byRoot s) ∧ sizes_ok (perThread s).
Lemma at_elements_ok r sz t l : 0 ≤ sz → sizes_ok l → sizes_ok (at_elements r sz t l).
Proof.
  intros Hsz. induction l as [|p l IH]; intros Hl q; cbn [at_elements].
  - intros ->%list_elem_of_singleton. cbn. by destruct (_ || _).
  - destruct (_ =? _)%nat; rewrite elem_of_cons; intros [->|H]; [cbn; destruct (_ || _); [apply Hl; by left|done]|apply Hl; by right|apply Hl; by left|].
    apply IH; [|done]. intros ? ?. apply Hl. by right.
Qed.

Abbreviation record_at := (record_at m isIncomplete typeSize isAddressTaken invokeTargets hasTlsModel).
Abbreviation record_visit := (record_visit m isIncomplete typeSize elementOffset isAddressTaken invokeTargets resolvePlaces hasTlsModel).
Abbreviation recorded := (recorded m isIncomplete typeSize elementOffset isAddressTaken invokeTargets st resolvePlaces hasTlsModel).

Definition in_walk (v : visit) : Prop := v_inst v ∈ instances st ∧ v_op v ∈ walk (i_func (v_inst v)) ∧ v_acc v ∈ memoryAccesses m (v_op v).

Lemma record_at_good v c path s p : in_walk v → located v c path p → good s → good (record_at v c path s p).
Proof.
  intros (Hi & Ho & Ha) Hloc Hs. unfold FalseSharing.record_at. destruct (root p) as [r|] eqn:Er; [|done].
  fold (only_scalar path r p). destruct (only_scalar path r p) eqn:Esc; [done|]. destruct (hasLayout m isIncomplete r) eqn:Elay; [|done]. cbn [negb].
  destruct (match op_kind r with KGlobal _ => hasTlsModel (op_id r) | _ => false end) eqn:Etls; [done|].
  destruct (is_alloca r && negb (addressEscapes m r)) eqn:Eal; [done|].
  assert (shared_root r) as Hsh.
  { unfold shared_root, is_alloca in *. destruct (op_kind r); try done. by destruct (addressEscapes m r). }
  set (k := place_key r (c_unknown c || unknownIndex p) p).
  match goal with |- context [at_offset ?o ?g] => set (off := o); set (note := g) end.
  match goal with |- context [with_byRoot _ ?x] => set (s1 := x) end.
  assert (good (with_byRoot (at_place k (at_offset off note)) s1)) as Hgood.
  { assert (byRoot s1 = byRoot s ∧ perThread s1 = perThread s) as [Eb Ep] by by unfold s1; destruct (_ || _). destruct Hs as [Hs Hsz].
    split; [|by rewrite <-Ep in Hsz]. cbn [byRoot with_byRoot]. rewrite Eb. apply good_note; [done|].
    intros f Hf. unfold note.
    assert (told (access_at (op_id (fst k)) (snd k) off) accounted_for (note_access path (v_op v) (speculative (v_inst v)) (i_thread (v_inst v)) f)) as Hn.
    { apply note_access_told; [|done]. intros E. by exists (v_inst v). }
    destruct (oneOf p) eqn:Eo; [by apply note_oneOf_told|]. apply note_own_told; [|done].
    exists v, c, path, p, r. repeat split; done. }
  destruct (oneOf p); [exact Hgood|]. destruct (_ || _); [exact Hgood|]. destruct (loop p); [|exact Hgood].
  split; [apply Hgood|]. cbn. apply at_elements_ok; [|apply Hgood]. unfold elem_size. destruct (elem p) as [t|]; [|done]. by destruct (steppable t).
Qed.

Lemma record_visit_good s v : in_walk v → good s → good (record_visit s v).
Proof.
  intros Hv Hs. unfold FalseSharing.record_visit. destruct (acc_addr (v_acc v)) as [addr|] eqn:Ea; [|done].
  assert (∀ c path ps, (∀ p, p ∈ ps → located v c path p) → good (match ps with
    | [p] => match root p with None => with_unresolved (op_id (v_op v)) (i_thread (v_inst v)) (hot (rateHere m isAddressTaken invokeTargets (v_op v) (v_inst v))) (cause p) s | Some _ => record_at v c path s p end
    | _ => fold_left (record_at v c path) ps s end)) as Hplaced.
  { intros c path ps Hps. assert (good (fold_left (record_at v c path) ps s)) as Hfold.
    { clear Ea. revert s Hs. induction ps as [|p ps IH]; intros s Hs; cbn [fold_left]; [done|]. apply IH; [intros; apply Hps; by right|].
      apply record_at_good; [done| |done]. apply Hps. by left. }
    destruct ps as [|p [|q ps]]; [done| |done]. destruct (root p); [|done]. apply record_at_good; [done| |done]. apply Hps. by left. }
  assert (shapeOf m addr = ShMember ∨ shapeOf m addr = ShArray ∧ local_array addr (v_inst v) = false → good (match resolveMember addr with
     | None => with_unresolved (op_id (v_op v)) (i_thread (v_inst v)) (hot (rateHere m isAddressTaken invokeTargets (v_op v) (v_inst v))) Other s
     | Some (c, base) => match resolvePlaces base (v_inst v) with
        | [p] => match root p with None => with_unresolved (op_id (v_op v)) (i_thread (v_inst v)) (hot (rateHere m isAddressTaken invokeTargets (v_op v) (v_inst v))) (cause p) s | Some _ => record_at v c (finish (c_parts c)) s p end
        | _ => fold_left (record_at v c (finish (c_parts c))) (resolvePlaces base (v_inst v)) s end
     end)) as Hmember.
  { intros Hsh. destruct (resolveMember addr) as [[c base]|] eqn:Em; [|done].
    specialize (Hplaced c (finish (c_parts c)) (resolvePlaces base (v_inst v))). assert (∀ p, p ∈ resolvePlaces base (v_inst v) → located v c (finish (c_parts c)) p) as Hl.
    { intros p Hp. exists addr. split; [done|]. left. split; [done|]. split; [done|]. by exists base. }
    exact (Hplaced Hl). }
  destruct (shapeOf m addr) eqn:Esh.
  - done.
  - apply Hmember. by left.
  - assert (local_array addr (v_inst v) = match resolveRoot m (arrayBase m addr) (v_inst v) with Some slot => is_alloca slot && negb (addressEscapes m slot) | None => false end) as El by done.
    destruct (resolveRoot m _ _) as [slot|]; [|apply Hmember; by right]. destruct (_ && _); [done|apply Hmember; by right].
  - specialize (Hplaced chain0 "<whole>"%string (resolvePlaces addr (v_inst v))). assert (∀ p, p ∈ resolvePlaces addr (v_inst v) → located v chain0 "<whole>"%string p) as Hl.
    { intros p Hp. exists addr. split; [done|]. by right. }
    exact (Hplaced Hl).
Qed.

Lemma recorded_good : good recorded.
Proof.
  unfold FalseSharing.recorded.
  assert (∀ js s, (∀ i, i ∈ js → i ∈ instances st) → good s → good (fold_left (record_instance m isIncomplete typeSize elementOffset isAddressTaken invokeTargets resolvePlaces hasTlsModel) js s)) as H.
  { induction js as [|i js IH]; intros s His Hs; cbn [fold_left]; [done|]. apply IH; [intros; apply His; by right|].
    unfold record_instance. set (s1 := if truncated i then with_truncated (i_thread i) s else s). assert (good s1) as Hs1 by (by unfold s1; destruct (truncated i)).
    assert (∀ vs s, (∀ v, v ∈ vs → in_walk v) → good s → good (fold_left record_visit vs s)) as Hvs.
    { induction vs as [|v vs IHv]; intros s2 Hv Hs2; cbn [fold_left]; [done|]. apply IHv; [intros; apply Hv; by right|]. apply record_visit_good; [|done]. apply Hv. by left. }
    apply Hvs; [|done]. intros v. rewrite list_elem_of_In, in_flat_map. intros (o & Ho & Hin). apply in_map_iff in Hin as (a & <- & Ha).
    split; [apply His; by left|]. split; by apply list_elem_of_In. }
  apply H; [done|]. split; [by intros ? ? ? ? ?%not_elem_of_nil|by intros ? ?%not_elem_of_nil].
Qed.

(** ** One frame of reference *)

(** Where an access lies once the elements a spawn loop handed out are
    folded: in an element, at its offset from the start of it. *)
Inductive lies (i : nat) : PlaceKind → Z → nat → bool → rate → Z → Prop :=
| lies_here k off t w rt sz : access_at i k off t w rt sz → lies i k off t w rt sz
| lies_element p off t w rt sz : p ∈ perThread recorded → op_id (p_root p) = i → elemSize p ≠ 0 → lies i Absolute off t w rt sz →
    lies i Relative (off mod elemSize p) t w rt sz
| lies_some off t w rt sz : lies i Relative off t w rt sz → lies i UnknownElement off t w rt sz.

Lemma good_fields_mono P P' l : (∀ i k o t w r z, P i k o t w r z → P' i k o t w r z) → good_fields P l → good_fields P' l.
Proof. intros H Hl k fs off f Hk Hf. eapply told_mono; [|by eapply Hl]. intros. by apply H. Qed.

Lemma key_field_in k l fs : key_field k l = Some fs → ∃ k', (k', fs) ∈ l ∧ same_place k k' = true.
Proof.
  unfold key_field. destruct (List.find _ l) as [[k' fs']|] eqn:E; [|done]. intros [= <-]. apply find_some in E as [E ?]. exists k'. split; [by apply list_elem_of_In|done].
Qed.
Lemma erase_good P k l : good_fields P l → good_fields P (erase k l).
Proof. intros Hl k' fs off f Hin. apply Hl. apply list_elem_of_In in Hin. apply filter_In in Hin as [Hin _]. by apply list_elem_of_In. Qed.

(** Fields absorbed at new offsets keep telling the truth. *)
Lemma absorb_all_good (P : Z → FieldInfo → Prop) (g : Z * FieldInfo → Z * FieldInfo) src dst :
  (∀ o f, (o, f) ∈ src → P (fst (g (o, f))) (snd (g (o, f)))) → (∀ o a b, P o a → P o b → P o (absorb a b)) → (∀ o, P o field0) →
  (∀ o f, (o, f) ∈ dst → P o f) → ∀ o f, (o, f) ∈ fold_left (λ dst x, absorb_at dst (g x)) src dst → P o f.
Proof.
  intros Hs Ha H0. revert dst. induction src as [|[o1 f1] src IH]; intros dst Hd; cbn [fold_left]; [done|].
  apply IH; [intros; apply Hs; by right|]. unfold absorb_at. apply at_offset_good; [|apply H0|done].
  intros f Hf. apply Ha; [done|]. apply Hs. by left.
Qed.

Lemma fold_root_good l p : p ∈ perThread recorded → good_fields lies l → good_fields lies (fold_root l p).
Proof.
  intros Hp Hl. unfold fold_root. destruct (key_field _ l) as [rel|] eqn:Er; [|done]. apply key_field_in in Er as (kr & Hkr & [Er1 Er2]%same_place_spec). cbn in Er1, Er2.
  set (T i k := λ o f, told (lies i k o) accounted_for f).
  assert (∀ i k o a b, T i k o a → T i k o b → T i k o (absorb a b)) as Habs by (intros; by apply absorb_told).
  assert (∀ i k o, T i k o field0) as H0 by (intros; apply told_field0).
  destruct (conflict p || (elemSize p =? 0)) eqn:Ec.
  - apply erase_good. intros k fs off f Hin. revert off f. revert k fs Hin.
    apply (at_place_good (λ k fs, ∀ off f, (off, f) ∈ fs → T (op_id (fst k)) (snd k) off f)).
    + intros k' [E1 E2]%same_place_spec fs Hfs. cbn in E1, E2. rewrite <-E1, <-E2 in *.
      apply (absorb_all_good (T (op_id (p_root p)) UnknownElement) id); [|apply Habs|apply H0|done].
      intros o f Hf. unfold T. eapply told_mono; [|eapply (Hl kr rel o f); [exact Hkr|exact Hf]]. rewrite <-Er1, <-Er2. intros. by apply lies_some.
    + apply (absorb_all_good (T (op_id (p_root p)) UnknownElement) id); [|apply Habs|apply H0|by intros ? ? ?%not_elem_of_nil].
      intros o f Hf. unfold T. eapply told_mono; [|eapply (Hl kr rel o f); [exact Hkr|exact Hf]]. rewrite <-Er1, <-Er2. intros. by apply lies_some.
    + intros k fs Hin off f. by apply Hl.
  - apply orb_false_iff in Ec as [_ Ec%Z.eqb_neq]. destruct (key_field (p_root p, Absolute) l) as [abs|] eqn:Ea; [|done].
    apply key_field_in in Ea as (ka & Hka & [Ea1 Ea2]%same_place_spec). cbn in Ea1, Ea2.
    apply erase_good. intros k fs off f Hin. revert off f. revert k fs Hin.
    assert (∀ o f, (o, f) ∈ abs → T (op_id (p_root p)) Relative (o mod elemSize p) (renamed (element_name (name f)) f)) as Hmoved.
    { intros o f Hf. apply renamed_told. eapply told_mono; [|eapply (Hl ka abs o f); [exact Hka|exact Hf]]. rewrite <-Ea1, <-Ea2. intros. by apply lies_element. }
    apply (at_place_good (λ k fs, ∀ off f, (off, f) ∈ fs → T (op_id (fst k)) (snd k) off f)).
    + intros k' [E1 E2]%same_place_spec fs Hfs. cbn in E1, E2. rewrite <-E1, <-E2 in *.
      apply (absorb_all_good (T (op_id (p_root p)) Relative) (λ x, (fst x mod elemSize p, renamed (element_name (name (snd x))) (snd x)))); [exact Hmoved|apply Habs|apply H0|done].
    + apply (absorb_all_good (T (op_id (p_root p)) Relative) (λ x, (fst x mod elemSize p, renamed (element_name (name (snd x))) (snd x)))); [exact Hmoved|apply Habs|apply H0|].
      by intros ? ? ?%not_elem_of_nil.
    + intros k fs Hin off f. by apply Hl.
Qed.
Lemma foldPlaces_good : good_fields lies (foldPlaces recorded).
Proof.
  unfold foldPlaces. assert (∀ ps l, (∀ p, p ∈ ps → p ∈ perThread recorded) → good_fields lies l → good_fields lies (fold_left fold_root ps l)) as H.
  { induction ps as [|p ps IH]; intros l Hps Hl; cbn [fold_left]; [done|]. apply IH; [intros; apply Hps; by right|]. apply fold_root_good; [|done]. apply Hps. by left. }
  apply H; [done|]. eapply good_fields_mono; [|apply recorded_good]. intros. by apply lies_here.
Qed.
End record.

(** ** Verdicts *)

Lemma first_some_Some {A B} (f : A → option B) l y : first_some f l = Some y → ∃ x, x ∈ l ∧ f x = Some y.
Proof.
  induction l as [|a l IH]; cbn; [done|]. destruct (f a) eqn:E; [intros [= ->]; exists a; split; [by left|done]|].
  intros (x & Hx & H)%IH. exists x. split; [by right|done].
Qed.
Lemma first_some_None {A B} (f : A → option B) l : first_some f l = None → ∀ x, x ∈ l → f x = None.
Proof.
  induction l as [|a l IH]; cbn; [by intros _ x ?%not_elem_of_nil|]. destruct (f a) eqn:E; [done|]. intros H x [->|Hx]%elem_of_cons; [done|by apply IH].
Qed.
Lemma in_list_spec t l : in_list t l = true ↔ t ∈ l.
Proof.
  unfold in_list. rewrite existsb_exists. split; [intros (x & Hx & ->%Nat.eqb_eq); by apply list_elem_of_In|]. intros H. exists t. split; [by apply list_elem_of_In|by apply Nat.eqb_eq].
Qed.

Section verdicts.
Variable m : module.
Variable typeABIAlignment : ty → Z.
Variable isAddressTaken : operation → bool.
Variable st : state.
Variable line : Z.
Variable heapAlign : Z.
Variable s : found.
Variable r : operation.
Variable k : PlaceKind.
Variable elements : Z.
Variable own : list nat.
Abbreviation lands := (lands m typeABIAlignment line heapAlign s r k elements).
Abbreviation judge := (judge m typeABIAlignment isAddressTaken st line heapAlign s r k elements own).
Abbreviation step := (startStep m typeABIAlignment heapAlign s r k elements).
Abbreviation onStack := (onStack m isAddressTaken st r).

(** The two accesses share no line wherever the object starts, or are of
    the same bytes. *)
Definition apart (x : FieldInfo) (ox : Z) (w : nat) (y : FieldInfo) (oy : Z) (u : nat) : Prop :=
  let sx := sizeOf x w true in let sy := sizeOf y u true in
  overlap ox sx oy sy = true ∨ snd (geometry line step ox sx oy sy) = 0%nat.

Lemma lands_none x ox w y oy u : k ≠ UnknownElement → lands x ox w true y oy u = None → apart x ox w y oy u.
Proof.
  intros Hk. unfold FalseSharing.lands, apart. destruct (geometry _ _ _ _ _ _) as [p n] eqn:E. destruct (overlap _ _ _ _); cbn; [by left|].
  destruct n as [|n]; [by right|]. by cbn.
Qed.
Lemma lands_some x ox w y oy u p : k ≠ UnknownElement → lands x ox w true y oy u = Some p →
  overlap ox (sizeOf x w true) oy (sizeOf y u true) = false ∧ geometry line step ox (sizeOf x w true) oy (sizeOf y u true) = p ∧ (0 < snd p)%nat.
Proof.
  intros Hk. unfold FalseSharing.lands. destruct (geometry _ _ _ _ _ _) as [q n] eqn:E.
  assert (isUnknown k = false) as -> by by unfold isUnknown; rewrite bool_decide_eq_false_2. cbn.
  destruct (overlap _ _ _ _); cbn; [done|]. destruct n as [|n]; [done|]. intros [= <-]. split; [done|]. split; [done|]. cbn. lia.
Qed.

Lemma tryPair_spec x ox y oy w : tryPair m typeABIAlignment st line heapAlign s r k elements x ox y oy = Some w →
  w_thread w ∈ hotWriters x ∧ w_thread w ∈ certain x ∧ (u_thread w ∈ hotWriters y ∨ u_thread w ∈ hotReaders y) ∧ u_thread w ∈ certain y ∧
  w_thread w ≠ u_thread w ∧ exclusive m st (w_thread w) (u_thread w) = false ∧ ∃ p, lands x ox (w_thread w) true y oy (u_thread w) = Some p.
Proof.
  unfold tryPair. intros (t & Ht & H)%first_some_Some. destruct (in_list t (certain x)) eqn:Ec; [|done]. apply in_list_spec in Ec.
  apply first_some_Some in H as (u & Hu & H). destruct (_ && _ && _) eqn:E; [|done]. apply andb_true_iff in E as [E Hex%negb_true_iff].
  apply andb_true_iff in E as [Hne%negb_true_iff%Nat.eqb_neq Hcu%in_list_spec]. destruct (lands x ox t true y oy u) as [p|] eqn:El; [|done]. injection H as <-. cbn.
  apply elem_of_app in Hu. repeat split; try done. by exists p.
Qed.

(** The threads that touch a field again and again, or may. *)
Definition busy_writers (f : FieldInfo) : list nat := hotWriters f ++ unknownRateWriters f ++ oneOfHotWriters f.
Definition busy_touchers (f : FieldInfo) : list nat := hotWriters f ++ hotReaders f ++ unknownRateWriters f ++ unknownRateReaders f ++ oneOfHotWriters f ++ oneOfHotReaders f.
Lemma mayContend_none x ox y oy : mayContend m typeABIAlignment st line heapAlign s r k elements own x ox y oy = None →
  ∀ w u, w ∈ busy_writers x → u ∈ busy_touchers y → w ≠ u → lands x ox w true y oy u = None.
Proof.
  unfold mayContend. intros H w u Hw Hu Hne. pose proof (first_some_None _ _ H false ltac:(by left)) as H1. cbv beta in H1.
  pose proof (first_some_None _ _ H1 w Hw) as H2. cbv beta in H2. pose proof (first_some_None _ _ H2 u Hu) as H3. cbv beta in H3.
  assert ((u =? w)%nat = false) as E by (apply Nat.eqb_neq; congruence). rewrite E in H3. cbn [andb orb negb] in H3. by destruct (lands x ox w true y oy u).
Qed.

(** No two threads at these two fields, one of them writing, on a line. *)
Definition no_traffic (x : FieldInfo) (ox : Z) (y : FieldInfo) (oy : Z) : Prop :=
  ∀ w u, w ∈ busy_writers x → u ∈ busy_touchers y → w ≠ u → apart x ox w y oy u.

Lemma judge_quiet a oa b ob : k ≠ UnknownElement → judge a oa b ob = ColdPair ∨ onStack = false ∧ judge a oa b ob = NoPair →
  no_traffic a oa b ob ∧ no_traffic b ob a oa.
Proof.
  intros Hk H. unfold FalseSharing.judge in H. assert (isUnknown k = false) as Eu by by unfold isUnknown; rewrite bool_decide_eq_false_2. rewrite !Eu in H.
  destruct (tryPair m typeABIAlignment st line heapAlign s r k elements a oa b ob) eqn:E1.
  { destruct onStack; destruct H as [H|[? H]]; done. }
  destruct (tryPair m typeABIAlignment st line heapAlign s r k elements b ob a oa) eqn:E2; cbn [option_map] in H.
  { destruct onStack; destruct H as [H|[? H]]; done. }
  destruct (mayContend m typeABIAlignment st line heapAlign s r k elements own a oa b ob) as [[w why]|] eqn:E3.
  { destruct onStack; [destruct (_ =? _)%nat|]; destruct H as [H|[? H]]; done. }
  destruct (mayContend m typeABIAlignment st line heapAlign s r k elements own b ob a oa) as [[w why]|] eqn:E4; cbn [option_map] in H.
  { destruct onStack; [destruct (_ =? _)%nat|]; destruct H as [H|[? H]]; done. }
  split; intros w u Hw Hu Hne; (apply lands_none; [done|]).
  - by apply (mayContend_none _ _ _ _ E3).
  - by apply (mayContend_none _ _ _ _ E4).
Qed.

Lemma judge_definite a oa b ob w (sw : bool) : judge a oa b ob = Definite w sw →
  k ≠ UnknownElement ∧ onStack = false ∧
  tryPair m typeABIAlignment st line heapAlign s r k elements (if sw then b else a) (if sw then ob else oa) (if sw then a else b) (if sw then oa else ob) = Some w.
Proof.
  unfold FalseSharing.judge. destruct (tryPair m typeABIAlignment st line heapAlign s r k elements a oa b ob) eqn:E1.
  - destruct onStack; [done|]. destruct (isUnknown k) eqn:Eu; [done|]. intros [= <- <-]. apply bool_decide_eq_false in Eu. done.
  - destruct (tryPair m typeABIAlignment st line heapAlign s r k elements b ob a oa) eqn:E2; cbn [option_map].
    + destruct onStack; [done|]. destruct (isUnknown k) eqn:Eu; [done|]. intros [= <- <-]. apply bool_decide_eq_false in Eu. done.
    + cbv zeta. repeat (case_match; try done).
Qed.
End verdicts.

Section sound.
Variable m : module.
Variable isIncomplete : ty → bool.
Variable typeSize : ty → Z.
Variable typeABIAlignment : ty → Z.
Variable elementOffset : ty → Z → Z.
Variable isAddressTaken : operation → bool.
Variable invokeTargets : nat → option (list operation * bool).
Variable st : state.
Variable resolvePlaces : value → instance → list Place.
Variable hasTlsModel : nat → bool.
Variable line : Z.
Variable heapAlign : Z.
Abbreviation recorded := (recorded m isIncomplete typeSize elementOffset isAddressTaken invokeTargets st resolvePlaces hasTlsModel).
Abbreviation lies := (lies m isIncomplete typeSize elementOffset isAddressTaken invokeTargets st resolvePlaces hasTlsModel).
Abbreviation report := (report m typeABIAlignment isAddressTaken st line heapAlign).
Context (Hsize : ∀ t, 0 ≤ typeSize t).

(** The size of an element, where a spawn loop hands them out. *)
Definition element_size (r : operation) (k : PlaceKind) : Z :=
  if bool_decide (k = Relative) then match elements_of recorded r with Some p => elemSize p | None => 0 end else 0.
Definition element_owners (r : operation) (k : PlaceKind) : list nat :=
  if bool_decide (k = Relative) then match elements_of recorded r with Some p => owners p | None => [] end else [].

Lemma field_at_told r k fs o : (r, k, fs) ∈ foldPlaces recorded → told (lies (op_id r) k o) (accounted_for st) (field_at fs o).
Proof.
  intros Hin. unfold field_at. destruct (List.find _ fs) as [[o' f]|] eqn:E; [|apply told_field0].
  apply find_some in E as [E Eo%Z.eqb_eq]. cbn in Eo. subst o'. apply list_elem_of_In in E. by apply (foldPlaces_good _ _ _ _ _ _ _ _ _ Hsize (r, k) fs o f).
Qed.

Lemma report_pair r k oa ob v : Pair r k oa ob v ∈ report recorded → ∃ fs, (r, k, fs) ∈ foldPlaces recorded ∧
  v = judge m typeABIAlignment isAddressTaken st line heapAlign recorded r k (element_size r k) (element_owners r k) (field_at fs oa) oa (field_at fs ob) ob.
Proof.
  unfold FalseSharing.report. rewrite list_elem_of_In, in_flat_map. intros ([[r' k'] fs] & Hx & Hin). apply list_elem_of_In in Hx.
  unfold report_root in Hin. apply in_app_iff in Hin as [Hin|Hin].
  - apply in_map_iff in Hin as ([o1 o2] & [= -> -> -> -> <-] & _). exists fs. split; [done|]. unfold element_size, element_owners. done.
  - destruct (_ && _ && _); [|done]. apply in_map_iff in Hin as (? & ? & _). done.
Qed.

Lemma element_size_nonneg r k : 0 ≤ element_size r k.
Proof.
  unfold element_size. case_bool_decide; [|done]. unfold elements_of. destruct (List.find _ _) as [p|] eqn:E; [|done].
  apply find_some in E as [E _]. destruct (recorded_good m isIncomplete typeSize elementOffset isAddressTaken invokeTargets st resolvePlaces hasTlsModel Hsize) as [_ Hok]. by apply Hok, list_elem_of_In.
Qed.
Lemma startStep_elements r k : k ≠ UnknownElement →
  startStep m typeABIAlignment heapAlign recorded r k (element_size r k) =
  if element_size r k =? 0 then alignment m typeABIAlignment heapAlign r else Z.gcd (alignment m typeABIAlignment heapAlign r) (element_size r k).
Proof.
  intros Hk. unfold startStep, isUnknown. rewrite (bool_decide_eq_false_2 (k = UnknownElement)) by done. cbn [andb].
  destruct (element_size r k =? 0) eqn:E; [by rewrite andb_false_r|]. rewrite andb_true_r. case_bool_decide as Ek; [done|].
  unfold element_size in E. by rewrite bool_decide_eq_false_2 in E.
Qed.

Lemma sizeOf_told r k o fs t : (r, k, fs) ∈ foldPlaces recorded → t ∈ hotWriters (field_at fs o) ∨ t ∈ hotReaders (field_at fs o) →
  ∃ sz write rt, hot rt = true ∧ lies (op_id r) k o t write rt sz ∧ sizeOf (field_at fs o) t true = Z.max sz 1.
Proof.
  intros Hin Ht. pose proof (field_at_told r k fs o Hin) as Htold. destruct (told_sized _ _ _ Htold t Ht) as [n Hn].
  destruct (told_size _ _ _ Htold t n Hn) as (w & rt & sz & Hh & Hl & E). exists sz, w, rt. split; [done|]. split; [done|]. unfold sizeOf. by rewrite Hn.
Qed.

(** Thread [t] touches the root repeatedly, or at a rate nobody can tell,
    [sz] bytes from [off] at its widest. *)
Definition widest_access (r : operation) (k : PlaceKind) (off : Z) (t : nat) (sz : Z) : Prop :=
  ∃ write rt, hot rt = true ∧ lies (op_id r) k off t write rt sz.

(** C2: A definite verdict is two threads the program accounts for, which may both exist: one writes one field of the object repeatedly, the other touches the other field repeatedly, their widest accesses there are two pieces of data, and from some start the object's alignment allows (in an array of elements, some element's) a byte of each is on one line; the object is one object, which both reach. *)
Theorem definite_sound r k oa ob w (sw : bool) : power_of_two line → power_of_two (alignment m typeABIAlignment heapAlign r) →
  Pair r k oa ob (Definite w sw) ∈ report recorded →
  let ox := if sw then ob else oa in let oy := if sw then oa else ob in
  w_thread w ≠ u_thread w ∧ exclusive m st (w_thread w) (u_thread w) = false ∧ accounted_for st (w_thread w) ∧ accounted_for st (u_thread w) ∧
  ((is_alloca r || isHeapRoot r) && multiInvocation m isAddressTaken st r = false) ∧
  (∃ sz, lies (op_id r) k ox (w_thread w) true Repeated sz) ∧ (∃ write sz, lies (op_id r) k oy (u_thread w) write Repeated sz) ∧
  ∃ sx sy, widest_access r k ox (w_thread w) sx ∧ widest_access r k oy (u_thread w) sy ∧
    (ox + Z.max sx 1 ≤ oy ∨ oy + Z.max sy 1 ≤ ox) ∧
    ∃ base i, 0 ≤ base ∧ 0 ≤ i ∧ (alignment m typeABIAlignment heapAlign r | base) ∧ meets line (base + i * element_size r k) ox sx oy sy.
Proof.
  intros Hline Halign (fs & Hfs & Hj)%report_pair ox oy. symmetry in Hj. apply judge_definite in Hj as (Hk & Hst & Ht).
  pose proof (field_at_told r k fs oa Hfs) as Ha. pose proof (field_at_told r k fs ob Hfs) as Hb.
  set (x := field_at fs ox). set (y := field_at fs oy).
  assert (tryPair m typeABIAlignment st line heapAlign recorded r k (element_size r k) x ox y oy = Some w) as Htry by (unfold x, y, ox, oy; by destruct sw).
  assert (told (lies (op_id r) k ox) (accounted_for st) x) as Hx by by apply field_at_told.
  assert (told (lies (op_id r) k oy) (accounted_for st) y) as Hy by by apply field_at_told.
  apply tryPair_spec in Htry as (Hw & Hwc & Hu & Huc & Hne & Hex & p & Hp). apply lands_some in Hp as (Ho & Hg & Hpos); [|done].
  split; [done|]. split; [done|]. split; [by apply Hx|]. split; [by apply Hy|]. split; [exact Hst|]. split; [by apply (told_writes _ _ _ Hx)|]. split.
  { destruct Hu as [Hu|Hu]; [exists true; by apply (told_writes _ _ _ Hy)|exists false; by apply (told_reads _ _ _ Hy)]. }
  destruct (sizeOf_told r k ox fs (w_thread w) Hfs (or_introl Hw)) as (sx & wx & rx & Hhx & Hlx & Esx).
  destruct (sizeOf_told r k oy fs (u_thread w) Hfs Hu) as (sy & wy & ry & Hhy & Hly & Esy).
  exists sx, sy. split; [by exists wx, rx|]. split; [by exists wy, ry|]. fold x in Esx. fold y in Esy. rewrite Esx, Esy in *. split.
  { unfold overlap in Ho. apply andb_false_iff in Ho as [Ho%Z.ltb_ge|Ho%Z.ltb_ge]; lia. }
  destruct p as [positions sharing]. destruct (geometry_exact line Hline (alignment m typeABIAlignment heapAlign r) (element_size r k) _ _ _ _ _ _ _ Halign
    (element_size_nonneg r k) (startStep_elements r k Hk) Hg) as (_ & H1 & _). destruct (proj1 H1 Hpos) as (start & (base & i & Hb0 & Hi0 & Hal & ->) & Hm).
  exists base, i. repeat split; try done. unfold meets in *. destruct Hm as (bx & by_ & H). exists bx, by_. assert (∀ z, Z.max (Z.max z 1) 1 = Z.max z 1) as Emax by lia. rewrite !Emax in H. exact H.
Qed.
End sound.

(** ** No access is lost *)

(** What one record says of another: more threads, wider accesses. *)
Record grows (f g : FieldInfo) : Prop := {
  grows_hw : hotWriters f ⊆ hotWriters g;
  grows_hr : hotReaders f ⊆ hotReaders g;
  grows_uw : unknownRateWriters f ⊆ unknownRateWriters g;
  grows_ur : unknownRateReaders f ⊆ unknownRateReaders g;
  grows_size t n : hotSize f !! t = Some n → ∃ n', hotSize g !! t = Some n' ∧ n ≤ n'
}.
#[local] Instance grows_preorder : PreOrder grows.
Proof.
  split; [intros f; split; try done; intros t n H; by exists n|].
  intros a b c [H1 H2 H3 H4 H5] [G1 G2 G3 G4 G5]. split; [by etrans..|]. intros t n (n' & H & ?)%H5. destruct (G5 _ _ H) as (n'' & H' & ?). exists n''. split; [done|lia].
Qed.

Lemma insert_new_mono t l : l ⊆ insert_new t l.
Proof. intros u Hu. unfold insert_new. destruct (existsb _ _); [done|]. apply elem_of_app. by left. Qed.
Lemma insert_new_in t l : t ∈ insert_new t l.
Proof.
  unfold insert_new. destruct (existsb _ _) eqn:E; [|apply elem_of_app; right; by apply list_elem_of_singleton].
  apply existsb_exists in E as (x & Hx & ->%Nat.eqb_eq). by apply list_elem_of_In.
Qed.
Lemma note_access_grows path o spec t f : grows f (note_access path o spec t f).
Proof. split; try done. intros u n H. by exists n. Qed.
Lemma note_oneOf_grows o t write r sz f : grows f (note_oneOf o t write r sz f).
Proof. unfold note_oneOf. destruct (hot r); cbn; [|done]. split; try done. intros u n H. by exists n. Qed.
Lemma note_own_grows o t many write r sz f : grows f (note_own o t many write r sz f).
Proof.
  split; cbn; repeat case_match; try done; try apply insert_new_mono; try (intros u n Hn; by exists n).
  intros u n Hn. unfold widen. destruct (decide (t = u)) as [->|Hne]; [|rewrite lookup_insert_ne by done; by exists n].
  rewrite lookup_insert_eq. eexists. split; [done|]. rewrite Hn. cbn. lia.
Qed.

(** A hot access of [t] is in the record, no narrower than it was. *)
Definition noted (t : nat) (write : bool) (sz : Z) (f : FieldInfo) : Prop :=
  (write = true → t ∈ hotWriters f ++ unknownRateWriters f) ∧ t ∈ hotWriters f ++ hotReaders f ++ unknownRateWriters f ++ unknownRateReaders f ∧
  ∃ n, hotSize f !! t = Some n ∧ sz ≤ n.
Lemma noted_grows t w sz f g : grows f g → noted t w sz f → noted t w sz g.
Proof.
  intros [H1 H2 H3 H4 H5] (Hw & Ht & n & Hn & Hle). split; [|split].
  - intros E. specialize (Hw E). rewrite !elem_of_app in *. set_solver.
  - rewrite !elem_of_app in *. set_solver.
  - destruct (H5 _ _ Hn) as (n' & ? & ?). exists n'. split; [done|lia].
Qed.
Lemma note_own_noted o t many write r sz f : hot r = true → noted t write sz (note_own o t many write r sz f).
Proof.
  intros Hr. unfold noted, note_own. cbn. rewrite Hr. split; [|split].
  - intros ->. cbn. rewrite elem_of_app. destruct r; try done; cbn; [left|right]; apply insert_new_in.
  - rewrite !elem_of_app. destruct r, write; try done; cbn; [left|right; left|right; right; left|right; right; right]; apply insert_new_in.
  - eexists. unfold widen. rewrite lookup_insert_eq. split; [done|lia].
Qed.
Lemma noted_field0 t w sz : ¬ noted t w sz field0.
Proof. intros (_ & H & _). cbn in H. by apply not_elem_of_nil in H. Qed.

(** The record of a field of a place. *)
Definition note_of (l : list (PlaceKey * FieldMap)) (k : PlaceKey) (off : Z) : FieldInfo := field_at (default [] (key_field k l)) off.
Lemma field_at_offset off g fs o : field_at (at_offset off g fs) o = if (o =? off) then g (field_at fs off) else field_at fs o.
Proof.
  unfold field_at. induction fs as [|[o' f'] fs IH]; cbn [at_offset List.find fst].
  - rewrite Z.eqb_sym. by destruct (o =? off).
  - destruct (Z.eqb_spec o' off) as [->|Hne]; cbn [List.find fst].
    + destruct (Z.eqb_spec off o), (Z.eqb_spec o off); congruence.
    + destruct (Z.eqb_spec o' o) as [E|Hno]; [|exact IH]. destruct (Z.eqb_spec o off); congruence.
Qed.
Lemma same_place_refl k : same_place k k = true.
Proof. unfold same_place. by rewrite Nat.eqb_refl, bool_decide_eq_true_2. Qed.
Lemma same_place_eq a b c : same_place a b = true → same_place a c = same_place b c ∧ same_place c a = same_place c b.
Proof. intros [E1 E2]%same_place_spec. unfold same_place. by rewrite E1, E2. Qed.
Lemma key_field_at k g l q : key_field q (at_place k g l) = if same_place q k then Some (g (default [] (key_field k l))) else key_field q l.
Proof.
  unfold key_field. induction l as [|[k' fs] l IH]; cbn [at_place List.find fst].
  - by destruct (same_place q k).
  - destruct (same_place k k') eqn:E; cbn [List.find fst].
    + rewrite <-(proj2 (same_place_eq _ _ q E)). by destruct (same_place q k).
    + destruct (same_place q k') eqn:Eq; [|exact IH]. destruct (same_place q k) eqn:Eqk; [|done].
      rewrite (proj1 (same_place_eq _ _ k' Eqk)) in Eq. congruence.
Qed.
Lemma note_of_at k off g l q o : note_of (at_place k (at_offset off g) l) q o =
  if same_place q k && (o =? off) then g (note_of l k off) else note_of l q o.
Proof.
  unfold note_of. rewrite key_field_at. destruct (same_place q k) eqn:E; cbn; [|done]. rewrite field_at_offset.
  destruct (o =? off); [done|]. f_equal. f_equal. unfold key_field. f_equal.
  induction l as [|x l IH]; cbn; [done|]. rewrite <-(proj1 (same_place_eq _ _ (fst x) E)). by destruct (same_place q (fst x)).
Qed.

Section complete.
Variable m : module.
Variable isIncomplete : ty → bool.
Variable typeSize : ty → Z.
Variable typeABIAlignment : ty → Z.
Variable elementOffset : ty → Z → Z.
Variable isAddressTaken : operation → bool.
Variable invokeTargets : nat → option (list operation * bool).
Variable st : state.
Variable resolvePlaces : value → instance → list Place.
Variable hasTlsModel : nat → bool.
Variable line : Z.
Variable heapAlign : Z.
Abbreviation record_at := (record_at m isIncomplete typeSize isAddressTaken invokeTargets hasTlsModel).
Abbreviation record_visit := (record_visit m isIncomplete typeSize elementOffset isAddressTaken invokeTargets resolvePlaces hasTlsModel).
Abbreviation record_instance := (record_instance m isIncomplete typeSize elementOffset isAddressTaken invokeTargets resolvePlaces hasTlsModel).
Abbreviation recorded := (recorded m isIncomplete typeSize elementOffset isAddressTaken invokeTargets st resolvePlaces hasTlsModel).
Abbreviation access_at := (access_at m isIncomplete typeSize elementOffset isAddressTaken invokeTargets st resolvePlaces hasTlsModel).
Abbreviation located := (located m isIncomplete typeSize elementOffset resolvePlaces).
Abbreviation report := (report m typeABIAlignment isAddressTaken st line heapAlign).
Context (Hwf : wf_ids m = true).
Context (Hroots : ∀ v inst p r, p ∈ resolvePlaces v inst → root p = Some r → r ∈ walk_module m).

(** Roots are operations of the module, and what is known only grows. *)
Definition keys_in (l : list (PlaceKey * FieldMap)) : Prop := ∀ k fs, (k, fs) ∈ l → fst k ∈ walk_module m.
Definition kept (s s' : found) : Prop := (keys_in (byRoot s) → keys_in (byRoot s')) ∧ ∀ k off, grows (note_of (byRoot s) k off) (note_of (byRoot s') k off).
#[local] Instance kept_preorder : PreOrder kept.
Proof. split; [by intros s|]. intros a b c [H1 H2] [G1 G2]. split; [auto|]. intros k off. etrans; [apply H2|apply G2]. Qed.
Lemma kept_same s s' : byRoot s' = byRoot s → kept s s'.
Proof. intros E. unfold kept. by rewrite E. Qed.

Lemma located_root v c path p r : located v c path p → root p = Some r → r ∈ walk_module m.
Proof. intros (addr & _ & [(_ & _ & base & _ & Hp)|(_ & _ & _ & Hp)]) Hr; by eapply Hroots. Qed.

Lemma record_at_kept v c path s p : located v c path p → kept s (record_at v c path s p) ∧
  (∀ i k off t write rt sz, root p = Some i → shared_root m hasTlsModel i → hasLayout m isIncomplete i = true → only_scalar m path i p = false → oneOf p = false →
    off = u64 (c_offset c + offset p) → k = place_key i (c_unknown c || unknownIndex p) p → t = i_thread (v_inst v) → write = acc_write (v_acc v) →
    rt = FalseSharing.rateOn m isAddressTaken invokeTargets (v_op v) (v_inst v) p → sz = access_size typeSize (acc_type (v_acc v)) → hot rt = true →
    noted t write sz (note_of (byRoot (record_at v c path s p)) k off)).
Proof.
  intros Hloc. unfold FalseSharing.record_at. destruct (root p) as [r|] eqn:Er; [|split; [done|by intros]].
  assert (r ∈ walk_module m) as Hr by by eapply located_root. fold (only_scalar m path r p).
  destruct (only_scalar m path r p) eqn:Esc; [split; [done|intros ? ? ? ? ? ? ? [= <-]; congruence]|].
  destruct (hasLayout m isIncomplete r) eqn:Elay; [|split; [by apply kept_same|intros ? ? ? ? ? ? ? [= <-]; congruence]]. cbn [negb].
  destruct (match op_kind r with KGlobal _ => hasTlsModel (op_id r) | _ => false end) eqn:Etls.
  { split; [by apply kept_same|]. intros i k off t w rt sz [= <-] Hsh. unfold shared_root in Hsh. destruct (op_kind r); congruence. }
  destruct (is_alloca r && negb (addressEscapes m r)) eqn:Eal.
  { split; [by apply kept_same|]. intros i k off t w rt sz [= <-] Hsh. unfold shared_root, is_alloca in *. destruct (op_kind r); try done. by rewrite Hsh in Eal. }
  set (k := place_key r (c_unknown c || unknownIndex p) p).
  match goal with |- context [at_offset ?o ?g] => set (off := o); set (note := g) end.
  match goal with |- context [with_byRoot _ ?x] => set (s1 := x) end.
  match goal with |- kept _ ?x ∧ _ => set (s2 := x) end.
  assert (byRoot s1 = byRoot s) as Es1 by by unfold s1; destruct (_ || _).
  assert (byRoot s2 = at_place k (at_offset off note) (byRoot s)) as Es2.
  { rewrite <-Es1. unfold s2. destruct (oneOf p); [done|]. destruct (_ || _); [done|]. by destruct (loop p). }
  assert (∀ f, grows f (note f)) as Hnote.
  { intros f. unfold note. etrans; [apply note_access_grows|]. destruct (oneOf p); [apply note_oneOf_grows|apply note_own_grows]. }
  split.
  - split; rewrite Es2.
    + intros Hk q fs. apply (at_place_good (λ k0 _, fst k0 ∈ walk_module m) k (at_offset off note)); [auto|exact Hr|exact Hk].
    + intros q o. rewrite note_of_at. destruct (same_place q k) eqn:Eq; cbn; [|done]. destruct (Z.eqb_spec o off) as [->|]; [|done].
      etrans; [|apply Hnote]. unfold note_of. assert (key_field q (byRoot s) = key_field k (byRoot s)) as ->; [|done].
      unfold key_field. f_equal. clear -Eq. induction (byRoot s) as [|x l IH]; cbn; [done|]. rewrite <-(proj1 (same_place_eq _ _ (fst x) Eq)). by destruct (same_place q (fst x)).
  - intros i k' off' t w rt sz [= <-] _ _ _ Hone -> -> -> -> -> -> Hhot. rewrite Es2, note_of_at. fold k off. rewrite same_place_refl, Z.eqb_refl. cbn.
    unfold note. rewrite Hone. by apply note_own_noted.
Qed.
Lemma record_fold_kept v c path ps s : (∀ p, p ∈ ps → located v c path p) → kept s (fold_left (record_at v c path) ps s).
Proof.
  revert s. induction ps as [|p ps IH]; intros s Hps; cbn [fold_left]; [done|]. etrans; [|apply IH; intros; apply Hps; by right].
  apply record_at_kept, Hps. by left.
Qed.

(** A visit records every place of its access. *)
Lemma record_visit_kept v s : kept s (record_visit s v) ∧
  ∀ c path p, located v c path p → root p ≠ None → ∃ s1, kept s s1 ∧ kept (record_at v c path s1 p) (record_visit s v).
Proof.
  unfold FalseSharing.record_visit. destruct (acc_addr (v_acc v)) as [addr|] eqn:Ea; [|split; [done|intros c path p (a & Ha & _); congruence]].
  set (un := λ why, with_unresolved (op_id (v_op v)) (i_thread (v_inst v)) (hot (FalseSharing.rateHere m isAddressTaken invokeTargets (v_op v) (v_inst v))) why s).
  set (placed := λ c path ps, match ps with [p] => match root p with None => un (cause p) | Some _ => record_at v c path s p end | _ => fold_left (record_at v c path) ps s end).
  assert (∀ why, kept s (un why)) as Hun by (intros; by apply kept_same).
  assert (∀ c path ps, (∀ p, p ∈ ps → located v c path p) → kept s (placed c path ps) ∧
    ∀ p, p ∈ ps → root p ≠ None → ∃ s1, kept s s1 ∧ kept (record_at v c path s1 p) (placed c path ps)) as Hplaced.
  { intros c path ps Hps. assert (kept s (fold_left (record_at v c path) ps s) ∧ ∀ p, p ∈ ps → root p ≠ None → ∃ s1, kept s s1 ∧ kept (record_at v c path s1 p) (fold_left (record_at v c path) ps s)) as [Hf1 Hf2].
    { split; [by apply record_fold_kept|]. intros p (l1 & l2 & ->)%list_elem_of_split _. rewrite fold_left_app. cbn [fold_left]. exists (fold_left (record_at v c path) l1 s). split.
      - apply record_fold_kept. intros; apply Hps. apply elem_of_app. by left.
      - apply record_fold_kept. intros; apply Hps. apply elem_of_app. right. by right. }
    destruct ps as [|p [|q ps]]; [by split| |by split]. unfold placed. destruct (root p) eqn:Ep.
    - split; [by apply record_at_kept, Hps; left|]. intros q ->%list_elem_of_singleton _. by exists s.
    - split; [apply Hun|]. intros q ->%list_elem_of_singleton. by rewrite Ep. }
  assert (∀ c base, FalseSharing.resolveMember m isIncomplete typeSize elementOffset addr = Some (c, base) → shapeOf m addr = ShMember ∨ shapeOf m addr = ShArray ∧ local_array m addr (v_inst v) = false →
    kept s (placed c (finish (c_parts c)) (resolvePlaces base (v_inst v))) ∧
    ∀ p, p ∈ resolvePlaces base (v_inst v) → root p ≠ None → ∃ s1, kept s s1 ∧ kept (record_at v c (finish (c_parts c)) s1 p) (placed c (finish (c_parts c)) (resolvePlaces base (v_inst v)))) as Hmember.
  { intros c base Em Hsh. apply Hplaced. intros p Hp. exists addr. split; [done|]. left. split; [done|]. split; [done|]. by exists base. }
  assert (shapeOf m addr = ShMember ∨ shapeOf m addr = ShArray ∧ local_array m addr (v_inst v) = false →
    let s' := match FalseSharing.resolveMember m isIncomplete typeSize elementOffset addr with None => un Other | Some (c, base) => placed c (finish (c_parts c)) (resolvePlaces base (v_inst v)) end in
    kept s s' ∧ ∀ c path p, located v c path p → root p ≠ None → ∃ s1, kept s s1 ∧ kept (record_at v c path s1 p) s') as Hall.
  { intros Hsh. cbv zeta. destruct (FalseSharing.resolveMember m isIncomplete typeSize elementOffset addr) as [[c base]|] eqn:Em.
    - destruct (Hmember c base eq_refl Hsh) as [H1 H2]. split; [exact H1|]. intros c' path p (a & Ha & Hl) Hr. rewrite Ea in Ha. injection Ha as <-.
      destruct Hl as [(_ & -> & b & Hb & Hp)|(Hw & _)]; [|destruct Hsh as [E|[E _]]; congruence]. rewrite Em in Hb. injection Hb as <- <-. by apply H2.
    - split; [apply Hun|]. intros c path p (a & Ha & Hl) _. rewrite Ea in Ha. injection Ha as <-.
      destruct Hl as [(_ & _ & b & Hb & Hp)|(Hw & _)]; [congruence|destruct Hsh as [E|[E _]]; congruence]. }
  destruct (shapeOf m addr) eqn:Esh.
  - split; [done|]. intros c path p (a & Ha & Hl) _. rewrite Ea in Ha. injection Ha as <-. destruct Hl as [([E|[E _]] & _)|(Hw & _)]; congruence.
  - apply Hall. by left.
  - assert (local_array m addr (v_inst v) = match resolveRoot m (arrayBase m addr) (v_inst v) with Some slot => is_alloca slot && negb (addressEscapes m slot) | None => false end) as El by done.
    destruct (resolveRoot m _ _) as [slot|]; [|apply Hall; by right]. destruct (is_alloca slot && negb (addressEscapes m slot)); [|apply Hall; by right].
    split; [by apply kept_same|]. intros c path p (a & Ha & Hl) _. rewrite Ea in Ha. injection Ha as <-. destruct Hl as [([E|[_ E]] & _)|(Hw & _)]; congruence.
  - assert (∀ p, p ∈ resolvePlaces addr (v_inst v) → located v chain0 "<whole>"%string p) as Hl. { intros p Hp. exists addr. split; [done|]. by right. }
    destruct (Hplaced chain0 "<whole>"%string (resolvePlaces addr (v_inst v)) Hl) as [H1 H2]. split; [exact H1|].
    intros c path p (a & Ha & Hloc) Hr. rewrite Ea in Ha. injection Ha as <-. destruct Hloc as [([E|[E _]] & _)|(_ & -> & -> & Hp)]; [congruence..|]. by apply H2.
Qed.

Lemma visits_kept vs s : kept s (fold_left record_visit vs s).
Proof. revert s. induction vs as [|v vs IH]; intros s; cbn [fold_left]; [done|]. etrans; [apply record_visit_kept|apply IH]. Qed.
Lemma instance_kept i s : kept s (record_instance s i).
Proof. unfold FalseSharing.record_instance. etrans; [|apply visits_kept]. destruct (truncated i); [by apply kept_same|done]. Qed.
Lemma instances_kept l s : kept s (fold_left record_instance l s).
Proof. revert s. induction l as [|i l IH]; intros s; cbn [fold_left]; [done|]. etrans; [apply instance_kept|apply IH]. Qed.

(** Every repeated access is in the record of its place. *)
Lemma recorded_noted i k off t write rt sz : access_at i k off t write rt sz → hot rt = true →
  ∃ r, r ∈ walk_module m ∧ op_id r = i ∧ noted t write sz (note_of (byRoot recorded) (r, k) off).
Proof.
  intros (v & c & path & p & r & Hi & Ho & Ha & Hloc & Hr & Eid & Hsh & Hlay & Hsc & Hone & Eoff & Ek & Et & Ew & Ert & Esz) Hhot.
  exists r. split; [by eapply located_root|]. split; [done|].
  apply list_elem_of_split in Hi as (i1 & i2 & Ei). unfold FalseSharing.recorded. rewrite Ei, fold_left_app. cbn [fold_left].
  set (s0 := fold_left record_instance i1 found0). unfold FalseSharing.record_instance at 2. fold record_instance.
  set (s1 := if truncated (v_inst v) then _ else s0). set (vs := flat_map _ _).
  assert (v ∈ vs) as Hv.
  { unfold vs. apply list_elem_of_In, in_flat_map. exists (v_op v). split; [by apply list_elem_of_In|]. apply in_map_iff. exists (v_acc v). split; [by destruct v|by apply list_elem_of_In]. }
  apply list_elem_of_split in Hv as (v1 & v2 & ->). rewrite fold_left_app. cbn [fold_left].
  destruct (record_visit_kept v (fold_left record_visit v1 s1)) as [_ Hvis]. destruct (Hvis c path p Hloc) as (s2 & _ & Hk2); [by rewrite Hr|].
  destruct (record_at_kept v c path s2 p Hloc) as [_ Hnote].
  assert (snd (place_key r (c_unknown c || unknownIndex p) p) = k) as Ek' by done.
  assert ((r, k) = place_key r (c_unknown c || unknownIndex p) p) as Ekey by (unfold place_key in *; cbn in Ek'; by rewrite Ek').
  specialize (Hnote r (r, k) off t write rt sz Hr Hsh Hlay Hsc Hone Eoff Ekey Et Ew Ert Esz Hhot).
  eapply noted_grows; [|exact Hnote].
  assert (kept (record_at v c path s2 p) (fold_left record_instance i2 (fold_left record_visit v2 (record_visit (fold_left record_visit v1 s1) v)))) as [_ Hg]; [|apply Hg].
  etrans; [exact Hk2|]. etrans; [apply visits_kept|apply instances_kept].
Qed.
Lemma recorded_keys : keys_in (byRoot recorded).
Proof.
  assert (keys_in (byRoot found0)) as H0 by by intros ? ? ?%not_elem_of_nil.
  unfold FalseSharing.recorded. by apply (instances_kept (instances st) found0).
Qed.

(** A root whose elements nobody hands out is left as it is. *)
Lemma key_field_erase k q l : same_place q k = false → key_field q (erase k l) = key_field q l.
Proof.
  intros Hq. unfold key_field, erase. f_equal. induction l as [|x l IH]; cbn; [done|]. destruct (same_place k (fst x)) eqn:E; cbn.
  - rewrite IH. destruct (same_place q (fst x)) eqn:Eq; [|done]. rewrite (proj2 (same_place_eq _ _ q E)) in Hq. congruence.
  - by rewrite IH.
Qed.
Lemma fold_root_other l p q : op_id (fst q) ≠ op_id (p_root p) → key_field q (fold_root l p) = key_field q l.
Proof.
  intros Hne. assert (∀ k, same_place q (p_root p, k) = false) as Hq. { intros k. unfold same_place. cbn. apply andb_false_iff. left. by apply Nat.eqb_neq. }
  unfold fold_root. destruct (key_field _ l); [|done]. destruct (_ || _).
  - rewrite key_field_erase, key_field_at, Hq by apply Hq. done.
  - destruct (key_field _ l); [|done]. rewrite key_field_erase, key_field_at, Hq by apply Hq. done.
Qed.
Lemma foldPlaces_other q : (∀ p, p ∈ perThread recorded → op_id (p_root p) ≠ op_id (fst q)) → key_field q (foldPlaces recorded) = key_field q (byRoot recorded).
Proof.
  unfold foldPlaces. generalize (byRoot recorded). induction (perThread recorded) as [|p ps IH]; intros l Hp; cbn [fold_left]; [done|].
  rewrite IH by (intros; apply Hp; by right). apply fold_root_other. assert (op_id (p_root p) ≠ op_id (fst q)) by (apply Hp; by left). done.
Qed.

Lemma fold_root_in l p q gs : (q, gs) ∈ fold_root l p → op_id (fst q) ≠ op_id (p_root p) → (q, gs) ∈ l.
Proof.
  intros Hin Hne. assert (∀ k g, (q, gs) ∈ at_place (p_root p, k) g l → (q, gs) ∈ l) as Hat.
  { intros k g. clear -Hne. induction l as [|[k1 f1] l IH]; cbn [at_place]; [by intros [= -> ->]%list_elem_of_singleton|].
    destruct (same_place (p_root p, k) k1) eqn:E; rewrite !elem_of_cons; [|tauto]. apply same_place_spec in E as [E _]. intros [[= -> ->]|H]; [done|by right]. }
  assert (∀ k l', (q, gs) ∈ erase k l' → (q, gs) ∈ l') as Her. { intros k l' H. apply list_elem_of_In, filter_In in H as [H _]. by apply list_elem_of_In. }
  revert Hin. unfold fold_root. destruct (key_field _ l); [|done]. destruct (_ || _); [by intros ?%Her%Hat|]. destruct (key_field _ l); [by intros ?%Her%Hat|done].
Qed.
Lemma foldPlaces_in q gs : (∀ p, p ∈ perThread recorded → op_id (p_root p) ≠ op_id (fst q)) → (q, gs) ∈ foldPlaces recorded → (q, gs) ∈ byRoot recorded.
Proof.
  unfold foldPlaces. generalize (byRoot recorded). induction (perThread recorded) as [|p ps IH]; intros l Hp; cbn [fold_left]; [done|].
  intros H%IH; [|intros; apply Hp; by right]. eapply fold_root_in; [exact H|]. assert (op_id (p_root p) ≠ op_id (fst q)) by (apply Hp; by left). done.
Qed.

Lemma field_at_in fs o t w sz : noted t w sz (field_at fs o) → o ∈ map fst fs.
Proof.
  unfold field_at. destruct (List.find _ fs) as [[o' f]|] eqn:E; [|by intros ?%noted_field0]. intros _. apply find_some in E as [E Eo%Z.eqb_eq]. cbn in Eo. subst o'.
  apply list_elem_of_In, in_map_iff. by exists (o, f).
Qed.
Lemma pairs_of_both (l : list Z) x y : x ∈ l → y ∈ l → x ≠ y → (x, y) ∈ pairs_of false l ∨ (y, x) ∈ pairs_of false l.
Proof.
  induction l as [|a l IH]; intros Hx Hy Hne; [by apply not_elem_of_nil in Hx|]. cbn [pairs_of]. rewrite !elem_of_app.
  apply elem_of_cons in Hx as [->|Hx]; apply elem_of_cons in Hy as [->|Hy]; [done|..].
  - left. left. by apply list_elem_of_fmap_2.
  - right. left. by apply list_elem_of_fmap_2.
  - destruct (IH Hx Hy Hne); auto.
Qed.

Lemma meets_wider start ox sx oy sy sx' sy' : sx ≤ sx' → sy ≤ sy' → meets line start ox sx oy sy → meets line start ox sx' oy sy'.
Proof. intros H1 H2 (x & y & Hx & Hy & E). exists x, y. repeat split; [lia..|done]. Qed.

Context (Hsize : ∀ t, 0 ≤ typeSize t).

(** The record of a root left as it is, in the report: its fields tell the
    truth, and nothing of them was lost. *)
Lemma report_field r k ox w write sz : r ∈ walk_module m → (∀ p, p ∈ perThread recorded → op_id (p_root p) ≠ op_id r) →
  noted w write sz (note_of (byRoot recorded) (r, k) ox) →
  ∃ fs, key_field (r, k) (byRoot recorded) = Some fs ∧ ((r, k), fs) ∈ foldPlaces recorded ∧ noted w write sz (field_at fs ox) ∧
    ∀ o, told (access_at (op_id r) k o) (accounted_for st) (field_at fs o).
Proof.
  intros Hr Hp Hn. unfold note_of in Hn. destruct (key_field (r, k) (byRoot recorded)) as [fs|] eqn:Ek; [|by apply noted_field0 in Hn]. cbn in Hn.
  exists fs. split; [done|]. pose proof Ek as Ek'. rewrite <-(foldPlaces_other (r, k)) in Ek' by done.
  assert (∀ l, keys_in l → key_field (r, k) l = Some fs → ((r, k), fs) ∈ l) as Hin.
  { intros l Hl E. apply key_field_in in E as (k' & Hk' & [E1 E2]%same_place_spec). cbn in E1, E2.
    assert (k' = (r, k)) as <-; [|done]. destruct k' as [r' k']. cbn in *. rewrite <-E2. f_equal. apply (wf_ids_inj m); [done| |done|done]. by apply (Hl (r', k') fs). }
  pose proof (recorded_good m isIncomplete typeSize elementOffset isAddressTaken invokeTargets st resolvePlaces hasTlsModel Hsize) as [Hgood _].
  split.
  - unfold key_field in Ek'. destruct (List.find _ (foldPlaces recorded)) as [[k' fs']|] eqn:E; [|done]. injection Ek' as ->.
    apply find_some in E as [E [E1 E2]%same_place_spec]. cbn in E1, E2. apply list_elem_of_In in E. destruct k' as [r' k']. cbn in *. subst k'.
    assert (r' = r) as ->; [|done]. apply (wf_ids_inj m); [done| |done|done].
    apply (recorded_keys (r', k) fs). apply foldPlaces_in; [|done]. intros p Hpp. cbn. rewrite <-E1. by apply Hp.
  - split; [done|]. intros o. unfold field_at. destruct (List.find _ fs) as [[o' f]|] eqn:Ef; [|apply told_field0].
    apply find_some in Ef as [Ef Eo%Z.eqb_eq]. cbn in Eo. subst o'. apply list_elem_of_In in Ef. apply (Hgood (r, k) fs o f); [|done]. apply Hin; [apply recorded_keys|done].
Qed.

(** A repeated access of [t], at an offset of the root numbered [i]. *)
Definition repeated_at (i : nat) (off : Z) (t : nat) (write : bool) (sz : Z) : Prop := ∃ rt, hot rt = true ∧ access_at i Absolute off t write rt sz.

(** C3: No pair is missed among those the pass is made for.  The object is
    not one per thread, nor a stack slot or an allocation that several
    invocations make, its recorded offsets are absolute, and the line and its
    alignment are powers of two.  One thread writes it repeatedly (or at a
    rate nobody can tell) at one offset, and another touches it so at
    another; and whatever the two access repeatedly at these two offsets, in
    either direction and at any width, does not overlap (an overlap hides
    the pair: [wide_read_hides]).  Then, if some start the alignment allows
    puts a byte of each access on one line, the report has a verdict on the
    two offsets that is neither silence nor cold. *)
Theorem no_pair_missed r ox oy w u write szw szu start : power_of_two line → power_of_two (alignment m typeABIAlignment heapAlign r) →
  r ∈ walk_module m → (∀ p, p ∈ perThread recorded → op_id (p_root p) ≠ op_id r) →
  (is_alloca r || isHeapRoot r) && multiInvocation m isAddressTaken st r = false →
  repeated_at (op_id r) ox w true szw → repeated_at (op_id r) oy u write szu → w ≠ u → ox ≠ oy →
  (∀ wx sx wy sy, repeated_at (op_id r) ox w wx sx → repeated_at (op_id r) oy u wy sy → ox + Z.max sx 1 ≤ oy ∨ oy + Z.max sy 1 ≤ ox) →
  0 ≤ start → (alignment m typeABIAlignment heapAlign r | start) → meets line start ox szw oy szu →
  ∃ oa ob v, Pair r Absolute oa ob v ∈ report recorded ∧ (oa = ox ∧ ob = oy ∨ oa = oy ∧ ob = ox) ∧ v ≠ NoPair ∧ v ≠ ColdPair.
Proof.
  intros Hline Hal Hr Hp Hst (rw & Hrw & Hw) (ru & Hru & Hu) Hne Ho Hdis Hs0 Hs Hm.
  assert (∀ o t wr rt sz, access_at (op_id r) Absolute o t wr rt sz → hot rt = true → noted t wr sz (note_of (byRoot recorded) (r, Absolute) o)) as Hnoted.
  { intros o t wr rt sz Ha Hh. destruct (recorded_noted _ _ _ _ _ _ _ Ha Hh) as (r' & Hr' & E & Hn). by rewrite (wf_ids_inj m r r'). }
  destruct (report_field r Absolute ox w true szw Hr Hp (Hnoted _ _ _ _ _ Hw Hrw)) as (fs & Ek & Hfs & Hnw & Htold).
  destruct (report_field r Absolute oy u write szu Hr Hp (Hnoted _ _ _ _ _ Hu Hru)) as (fs' & Ek' & _ & Hnu & _). rewrite Ek in Ek'. injection Ek' as <-.
  assert (∀ o t wr sz, noted t wr sz (field_at fs o) → ∃ n wr', repeated_at (op_id r) o t wr' n ∧ sizeOf (field_at fs o) t true = Z.max n 1 ∧ sz ≤ Z.max n 1) as Hsz.
  { intros o t wr sz (_ & _ & n & Hn & Hle). destruct (told_size _ _ _ (Htold o) t n Hn) as (wr' & rt & sz' & Hh & Ha & E). exists sz', wr'.
    split; [by exists rt|]. unfold sizeOf. rewrite Hn. split; [done|lia]. }
  assert (∀ v, (ox, oy) ∈ pairs_of false (sorted_offsets fs) ∨ (oy, ox) ∈ pairs_of false (sorted_offsets fs) →
    (∀ oa ob, v oa ob = judge m typeABIAlignment isAddressTaken st line heapAlign recorded r Absolute 0 [] (field_at fs oa) oa (field_at fs ob) ob) →
    ∃ oa ob, Pair r Absolute oa ob (v oa ob) ∈ report recorded ∧ (oa = ox ∧ ob = oy ∨ oa = oy ∧ ob = ox)) as Hrep.
  { intros v Hin Hv. assert (∀ oa ob, (oa, ob) ∈ pairs_of false (sorted_offsets fs) → Pair r Absolute oa ob (v oa ob) ∈ report recorded) as H.
    { intros oa ob H. unfold FalseSharing.report. apply list_elem_of_In, in_flat_map. exists ((r, Absolute), fs). split; [by apply list_elem_of_In|].
      unfold report_root. apply in_app_iff. left. apply in_map_iff. exists (oa, ob). cbn [fst snd]. rewrite Hv. split; [done|by apply list_elem_of_In]. }
    destruct Hin as [Hin|Hin]; apply H in Hin; [exists ox, oy|exists oy, ox]; auto. }
  destruct (Hrep _ ltac:(apply pairs_of_both; [..|done]; unfold sorted_offsets; rewrite (merge_sort_Permutation _); by eapply field_at_in) ltac:(done)) as (oa & ob & Hin & Hob).
  exists oa, ob. eexists. split; [exact Hin|]. split; [exact Hob|].
  assert (¬ no_traffic m typeABIAlignment line heapAlign recorded r Absolute 0 (field_at fs ox) ox (field_at fs oy) oy) as Htraffic.
  { intros Hq. destruct (Hsz ox w true szw Hnw) as (n & wr & Hn & En & Hle). destruct (Hsz oy u write szu Hnu) as (n' & wr' & Hn' & En' & Hle').
    assert (w ∈ busy_writers (field_at fs ox)) as Hbw.
    { destruct Hnw as (Hbw & _). specialize (Hbw eq_refl). unfold busy_writers. rewrite !elem_of_app in *. tauto. }
    assert (u ∈ busy_touchers (field_at fs oy)) as Hbu.
    { destruct Hnu as (_ & Hbu & _). unfold busy_touchers. rewrite !elem_of_app in *. tauto. }
    specialize (Hq w u Hbw Hbu Hne). unfold apart in Hq. rewrite En, En' in Hq. destruct Hq as [Hq|Hq].
    - unfold overlap in Hq. apply andb_true_iff in Hq as [H1%Z.ltb_lt H2%Z.ltb_lt]. destruct (Hdis wr n wr' n' Hn Hn'); lia.
    - destruct (geometry _ _ _ _ _ _) as [p sh] eqn:Eg in Hq. cbn in Hq. subst sh.
      destruct (geometry_exact line Hline (alignment m typeABIAlignment heapAlign r) 0 _ _ _ _ _ _ _ Hal ltac:(done) eq_refl Eg) as (_ & [_ H] & _).
      apply (Nat.lt_irrefl 0), H. exists start. split; [exists start, 0; repeat split; [done..|lia]|].
      eapply meets_wider; [..|exact Hm]; lia. }
  assert (∀ v, v = judge m typeABIAlignment isAddressTaken st line heapAlign recorded r Absolute 0 [] (field_at fs oa) oa (field_at fs ob) ob → v = ColdPair ∨ v = NoPair → False) as Hquiet.
  { intros v -> Hv. destruct (judge_quiet m typeABIAlignment isAddressTaken st line heapAlign recorded r Absolute 0 [] (field_at fs oa) oa (field_at fs ob) ob) as [H1 H2]; [done| |].
    - destruct Hv as [Hv|Hv]; [by left|right]. split; [exact Hst|exact Hv].
    - destruct Hob as [[-> ->]|[-> ->]]; by apply Htraffic. }
  split; intros E; (eapply Hquiet; [reflexivity|]); [by right|by left].
Qed.
End complete.

(** ** Two counters in one record *)

Section example.
Definition fs_func (i : nat) (n : string) (b : list operation) : operation :=
  Op i "cir.func" "" (KFunc (Func n false false None None None 0)) [] [] [] [match b with [] => [] | _ => [Block i [] b] end].
Definition fs_rec : ty := RecordTy "stats".
Definition fs_word : ty := IntTy 64 true.
Definition fs_global : operation := Op 2 "cir.global" "" (KGlobal (Global "stats" fs_rec false None)) [] [] [("alignment"%string, AInt 8)] [].
Definition fs_get (i : nat) (n : string) (t : ty) : operation := Op i "cir.get_global" "" (KGetGlobal n) [] [PtrTy t] [] [].
Definition fs_member (i g : nat) (k : Z) (n : string) : operation :=
  Op i "cir.get_member" "" KGetMember [VRes g 0] [PtrTy fs_word] [("index"%string, AInt k); ("name"%string, AStr n)] [].
Definition fs_loop (i : nat) (b : list operation) : operation := Op i "cir.while" "" KLoop [] [] [] [[Block (S i) [] b]].
Definition fs_store (i v p : nat) : operation := Op i "cir.store" "" KStore [VRes v 0; VRes p 0] [] [] [].
Definition fs_const (i : nat) : operation := Op i "cir.const" "" (KConstant (CInt 64 1)) [] [fs_word] [] [].
Definition fs_return (i : nat) : operation := Op i "cir.return" "" KReturn [] [] [] [].
Definition fs_spawn : operation := Op 12 "cir.call" "" (KCall (CallAttrs (Some "pthread_create"%string) false None)) (replicate 4 (VRes 11 0)) [] [] [].
Definition fs_main : operation :=
  fs_func 10 "main" [fs_get 11 "worker" FuncTy; fs_spawn; fs_get 13 "stats" fs_rec; fs_member 14 13 0 "sent"; fs_const 15; fs_loop 16 [fs_store 18 15 14]; fs_return 19].
Definition fs_worker : operation :=
  fs_func 20 "worker" [fs_get 21 "stats" fs_rec; fs_member 22 21 1 "received"; fs_const 23; fs_loop 24 [fs_store 26 23 22]; fs_return 27].
Definition fs_module : module := [fs_func 1 "pthread_create" []; fs_global; fs_main; fs_worker].
Definition fs_places (v : value) (inst : instance) : list Place :=
  match resolveRoot fs_module v inst with
  | Some r => if (op_id r =? 2)%nat then [PlaceOf (Some fs_global) UNone 0 None None false false false] else []
  | None => [PlaceOf None Other 0 None None false false false]
  end.
Definition fs_size (t : ty) : Z := match t with RecordTy _ => 16 | _ => 8 end.
Abbreviation fs_walk := (Threads.run fs_module (λ _, false) (λ _, None) (λ _ _, [])
  (reachesOp fs_module (λ _, None) (λ _, None) (λ _, None) (touchesMember fs_module)) 10 (λ _, false) [] (λ _, None) (λ _, None) []).
Abbreviation fs_recorded := (recorded fs_module (λ _, false) fs_size (λ _ k, 8 * k) (λ _, false) (λ _, None) fs_walk fs_places (λ _, false)).
Abbreviation fs_report := (report fs_module (λ _, 8) (λ _, false) fs_walk 64 16 fs_recorded).
Definition fs_wit : witness := Wit 0 1 (Some (fs_store 18 15 14)) (Some (fs_store 26 23 22)) 8 7.

Example fs_says : fs_report = [Pair fs_global Absolute 0 8 (Definite fs_wit false)].
Proof. vm_compute. reflexivity. Qed.

Lemma definite_sound_witness : Pair fs_global Absolute 0 8 (Definite fs_wit false) ∈ fs_report ∧
  0%nat ≠ 1%nat ∧ exclusive fs_module fs_walk 0 1 = false ∧ accounted_for fs_walk 0 ∧ accounted_for fs_walk 1.
Proof.
  assert (Pair fs_global Absolute 0 8 (Definite fs_wit false) ∈ fs_report) as Hin by (rewrite fs_says; by left). split; [exact Hin|].
  destruct (definite_sound fs_module (λ _, false) fs_size (λ _, 8) (λ _ k, 8 * k) (λ _, false) (λ _, None) fs_walk fs_places (λ _, false) 64 16
    ltac:(by intros []) fs_global Absolute 0 8 fs_wit false) as (H1 & H2 & H3 & H4 & _).
  - by exists 6%nat.
  - exists 3%nat. vm_compute. reflexivity.
  - exact Hin.
  - split; [exact H1|]. split; [exact H2|]. split; [exact H3|exact H4].
Defined.

Abbreviation fs_instance n f := (default (root_instance f n One false true None) (instances fs_walk !! n%nat)).
Abbreviation fs_access_at := (access_at fs_module (λ _, false) fs_size (λ _ k, 8 * k) (λ _, false) (λ _, None) fs_walk fs_places (λ _, false)).
Definition fs_place : Place := PlaceOf (Some fs_global) UNone 0 None None false false false.

Lemma fs_sent : fs_access_at 2 Absolute 0 0 true Repeated 8.
Proof.
  exists (Visit (fs_store 18 15 14) (fs_instance 0%nat fs_main) (Access (Some (VRes 14 0)) (Some fs_word) true)), (Chain 0 ["sent"%string] false 0 false), "sent"%string, fs_place, fs_global.
  split; [apply list_elem_of_lookup_2 with 0%nat; vm_compute; reflexivity|]. split; [apply list_elem_of_lookup_2 with 5%nat; vm_compute; reflexivity|]. split; [vm_compute; by left|].
  split; [|repeat split; vm_compute; reflexivity].
  exists (VRes 14 0). split; [reflexivity|]. left. split; [left; vm_compute; reflexivity|]. split; [vm_compute; reflexivity|]. exists (VRes 13 0). split; [vm_compute; reflexivity|]. vm_compute. by left.
Qed.
Lemma fs_received : fs_access_at 2 Absolute 8 1 true Repeated 8.
Proof.
  exists (Visit (fs_store 26 23 22) (fs_instance 1%nat fs_worker) (Access (Some (VRes 22 0)) (Some fs_word) true)), (Chain 8 ["received"%string] false 0 false), "received"%string, fs_place, fs_global.
  split; [apply list_elem_of_lookup_2 with 1%nat; vm_compute; reflexivity|]. split; [apply list_elem_of_lookup_2 with 3%nat; vm_compute; reflexivity|]. split; [vm_compute; by left|].
  split; [|repeat split; vm_compute; reflexivity].
  exists (VRes 22 0). split; [reflexivity|]. left. split; [left; vm_compute; reflexivity|]. split; [vm_compute; reflexivity|]. exists (VRes 21 0). split; [vm_compute; reflexivity|]. vm_compute. by left.
Qed.

(** What any access of the program is: the fields' stores. *)
Lemma fs_only i off t write rt sz : fs_access_at i Absolute off t write rt sz → sz = 8.
Proof.
  intros (v & c & path & p & r & Hi & Ho & Ha & _ & _ & _ & _ & _ & _ & _ & _ & _ & _ & _ & _ & ->).
  assert (forallb (λ j, forallb (λ o, forallb (λ a, access_size fs_size (acc_type a) =? 8) (memoryAccesses fs_module o)) (walk (i_func j))) (instances fs_walk) = true) as H by (vm_compute; reflexivity).
  pose proof (proj1 (forallb_forall _ _) H _ (proj1 (list_elem_of_In _ _) Hi)) as H1. pose proof (proj1 (forallb_forall _ _) H1 _ (proj1 (list_elem_of_In _ _) Ho)) as H2.
  by apply Z.eqb_eq, (proj1 (forallb_forall _ _) H2 _ (proj1 (list_elem_of_In _ _) Ha)).
Qed.

Lemma no_pair_missed_witness : ∃ oa ob v, Pair fs_global Absolute oa ob v ∈ fs_report ∧ (oa = 0 ∧ ob = 8 ∨ oa = 8 ∧ ob = 0) ∧ v ≠ NoPair ∧ v ≠ ColdPair.
Proof.
  apply (no_pair_missed fs_module (λ _, false) fs_size (λ _, 8) (λ _ k, 8 * k) (λ _, false) (λ _, None) fs_walk fs_places (λ _, false) 64 16) with (w := 0%nat) (u := 1%nat) (write := true) (szw := 8) (szu := 8) (start := 0).
  - vm_compute. reflexivity.
  - intros v inst p r Hp Hr. unfold fs_places in Hp. destruct (resolveRoot fs_module v inst) as [q|]; [|apply list_elem_of_singleton in Hp as ->; done].
    destruct (_ =? _)%nat; [|by apply not_elem_of_nil in Hp]. apply list_elem_of_singleton in Hp as ->. injection Hr as <-. apply list_elem_of_lookup_2 with 1%nat. vm_compute. reflexivity.
  - by intros [].
  - by exists 6%nat.
  - exists 3%nat. vm_compute. reflexivity.
  - apply list_elem_of_lookup_2 with 1%nat. vm_compute. reflexivity.
  - assert (perThread fs_recorded = []) as -> by (vm_compute; reflexivity). by intros p ?%not_elem_of_nil.
  - vm_compute. reflexivity.
  - exists Repeated. split; [done|]. exact fs_sent.
  - exists Repeated. split; [done|]. exact fs_received.
  - done.
  - done.
  - intros wx sx wy sy (rx & _ & ->%fs_only) (ry & _ & ->%fs_only). left. lia.
  - done.
  - exists 0. reflexivity.
  - exists 0, 8. split; [lia|]. split; [lia|]. reflexivity.
Defined.

(** ** What the widths of a thread's accesses hide

    [hotSize] is the widest repeated access a thread makes at an offset, a
    read as well as a write. *)

Definition by_thread_ (t : nat) (write : bool) (r : rate) (sz : Z) (f : FieldInfo) : FieldInfo :=
  note_own fs_spawn t false write r sz (note_access "f"%string fs_spawn false t f).
Abbreviation fs_judge := (judge fs_module (λ _, 64) (λ _, false) (Threads.State [] 0 false [] [] [] ∅) 64 16 found0).
Definition fs_aligned : operation := Op 2 "cir.global" "" (KGlobal (Global "stats" fs_rec false None)) [] [] [("alignment"%string, AInt 64)] [].

(** Thread 0 writes 8 bytes at 48 and reads 32 there; thread 1 reads 8 bytes
    at 96: the only write and that read are on two lines wherever the object
    starts, and the verdict is definite. *)
Example wide_read_judged :
  match fs_judge fs_aligned Absolute 0 [] (by_thread_ 0 false Repeated 32 (by_thread_ 0 true Repeated 8 field0)) 48 (by_thread_ 1 false Repeated 8 field0) 96 with
  | Definite w _ => w_thread w = 0%nat ∧ u_thread w = 1%nat
  | _ => False
  end ∧ geometry 64 64 48 8 96 8 = (1%nat, 0%nat).
Proof. by vm_compute. Qed.

(** Thread 0 writes 8 bytes at 0 and reads all 64; thread 1 reads 8 bytes at
    32, always on the line of that write: no pair. *)
Example wide_read_hides :
  fs_judge fs_aligned Absolute 0 [] (by_thread_ 0 false Repeated 64 (by_thread_ 0 true Repeated 8 field0)) 0 (by_thread_ 1 false Repeated 8 field0) 32 = NoPair ∧
  geometry 64 64 0 8 32 8 = (1%nat, 1%nat).
Proof. by vm_compute. Qed.

(** On a slot that may be several objects, a pair whose first witness is one
    thread standing for many is dropped before the other direction, which has
    two threads, is looked at: thread 0, which stands for many, writes both
    fields, and thread 1 may read the first again and again. *)
Definition fs_slot : operation := Op 3 "cir.alloca" "" KAlloca [] [PtrTy fs_rec] [("alignment"%string, AInt 64)] [].
Definition many_writes (f : FieldInfo) : FieldInfo := note_own fs_spawn 0 true true Repeated 8 (note_access "f"%string fs_spawn false 0 f).
Example one_thread_hides_two :
  fs_judge fs_slot Absolute 0 [] (by_thread_ 1 false UnknownRate 8 (many_writes field0)) 0 (many_writes field0) 8 = NoPair ∧
  (match fs_judge fs_slot Absolute 0 [] (many_writes field0) 0 (by_thread_ 1 false UnknownRate 8 (many_writes field0)) 8 with PossibleObjects _ _ => True | _ => False end).
Proof. by vm_compute. Qed.
End example.
End FalseSharingSpec.
