(* ===== verification/Shim.v ===== *)
(** * Shim: the queue a program is written against (src/shim/queue.hpp,
      src/shim/bounded.hpp, src/shim/lifted.hpp, src/shim/topology.hpp)

    [wtc::queue] holds one implementation, named by its tag, and a waiter;
    each of its operations is here the calls it makes of the two, in their
    order.  What an implementation promises the shim is an interface,
    [Implementation], stated on the sequential objects of the contracts and
    discharged for each of them, so that the theorems about the shim hold
    over any.  [wtc::bounded] and the functions of [wtc::lifted] and
    [wtc::lifted_bounded] are given the same way.

    The element type is known by two facts the code asks of it: whether it is
    trivially destructible, and whether it can be copied. *)

From stdpp Require Import relations strings.
From Stdlib Require Import String.
From S2P Require Import Prelude Lts Contract Machine Text Cir Utils BoundedRing BoundedRingLin SpscRing SpscRingLin Spmc SpmcLin Segment SegmentLin CQueue.

Module Shim.
Local Open Scope list_scope.
Local Open Scope Z_scope.
Local Open Scope wtc_scope.

(** ** Tags and implementations *)

Definition generic : Z := 0.
Definition spsc : Z := 1.
Definition spsc_inline : Z := 2.
Definition mpsc : Z := 3.
Definition spmc : Z := 4.

(** The members of the union. *)
Inductive member := GenericImpl | RingImpl | MpscImpl | SpmcImpl.
#[export] Instance member_eq_dec : EqDecision member.
Proof. solve_decision. Defined.

(** The member an operation's switch on the tag comes to. *)
Definition member_of (tag : Z) : member :=
  if (tag =? spsc_inline) || (tag =? spsc) then RingImpl
  else if tag =? mpsc then MpscImpl
  else if tag =? spmc then SpmcImpl
  else GenericImpl.

Section queue.
Context {T : Type}.
(** [WTC_BATCH_K] *)
Variable K : Z.

Inductive call :=
| New (i : member) | Delete (i : member)
| Push (i : member) (v : T) | PushDeferred (i : member) (v : T) | Publish (i : member) | PushRun (i : member) (vs : list T)
| Consume (i : member) | TryPopBorrow
| Wait (i : member) | WaitFor (i : member) (limit : Z)        (* on the waiter, whose look consumes *)
| Notify (n : Z) | Close.

(** [construct]: the tag the queue keeps, and what it builds. *)
Definition construct (inlineOk : bool) (tag : Z) : Z * list call :=
  if tag =? spsc_inline then (if inlineOk then spsc_inline else spsc, [New RingImpl])
  else if tag =? spsc then (spsc, [New RingImpl])
  else if tag =? mpsc then (mpsc, [New MpscImpl])
  else if tag =? spmc then (spmc, [New SpmcImpl])
  else (generic, [New GenericImpl]).
Definition destroy (tag : Z) : list call := [Delete (member_of tag)].

(** [batch::state] *)
Record batch := Batch { run : list T; pending : Z }.
Definition batch_begin : batch := Batch [] 0.

Definition publish (tag : Z) (b : batch) : list call * batch :=
  let n := pending b in
  match member_of tag with
  | RingImpl => ([Publish RingImpl; Notify n], Batch (run b) 0)
  | SpmcImpl => ([Publish SpmcImpl; Notify n], Batch (run b) 0)
  | i => if n =? 0 then ([], Batch (run b) 0)
         else ([PushRun i (take (Z.to_nat n) (run b)); Notify n], Batch [] 0)
  end.

(** The element made ready: in a ring's cell, or in the run. *)
Definition defer (tag : Z) (v : T) (b : batch) : list call * batch :=
  match member_of tag with
  | RingImpl => ([PushDeferred RingImpl v], b)
  | SpmcImpl => ([PushDeferred SpmcImpl v], b)
  | _ => ([], Batch (take (Z.to_nat (pending b)) (run b) ++ [v]) (pending b))
  end.
Definition push_deferred (tag : Z) (v : T) (b : batch) : list call * batch :=
  let '(cs, b) := defer tag v b in
  let b := Batch (run b) (u32 (pending b + 1)) in
  if pending b =? K then let '(cs', b) := publish tag b in (cs ++ cs', b) else (cs, b).
(** The overload that copies: of a type that cannot be copied it ends the
    program. *)
Definition push_deferred_copy (copyable : bool) (tag : Z) (v : T) (b : batch) : option (list call * batch) :=
  if copyable then Some (push_deferred tag v b) else None.
Definition batch_end (tag : Z) (b : batch) : list call := fst (publish tag b).

Definition push (tag : Z) (v : T) : list call := [Push (member_of tag) v; Notify 1].
Definition consume (tag : Z) : call := Consume (member_of tag).
(** [try_pop()]: lent under [spsc_inline], else moved into a new object. *)
Definition try_pop (tag : Z) : list call := [if tag =? spsc_inline then TryPopBorrow else consume tag].
Definition try_pop_into (tag : Z) : list call := [consume tag].
Definition pop_wait (tag : Z) : list call := [Wait (member_of tag)].
Definition pop_wait_for (tag timeout : Z) : list call := [WaitFor (member_of tag) timeout].
Definition close : list call := [Close].

(** A producer's run of pushes, one by one and as a batch. *)
Definition pushes (tag : Z) (vs : list T) : list call := concat (map (push tag) vs).
Fixpoint defers (tag : Z) (vs : list T) (b : batch) : list call * batch :=
  match vs with
  | [] => ([], b)
  | v :: vs =>
      let '(cs, b) := push_deferred tag v b in
      let '(cs', b) := defers tag vs b in (cs ++ cs', b)
  end.
Definition batched (tag : Z) (vs : list T) : list call :=
  let '(cs, b) := defers tag vs batch_begin in cs ++ batch_end tag b.
End queue.
Arguments call : clear implicits.
Arguments batch : clear implicits.

(** ** [wtc::bounded] *)

Section bounded.
Context {T : Type}.

(** The calls on the ring and on the two waiters; a wait's look is the
    ring's operation. *)
Inductive bounded_call :=
| RingTryPush (v : T) | RingPushOverrun (v : T) | RingConsume | RingSize | RingOverrunCounter | RingResetOverrunCounter
| FullWait (v : T)                   (* [not_full_.wait], looking with [try_push] *)
| EmptyWait | EmptyWaitFor (limit : Z)
| NotEmptyNotify (n : Z) | NotFullNotify (n : Z)
| NotEmptyClose | NotFullClose.

Definition bounded_config (tag capacity : Z) (overrun : bool) : BoundedRing.config :=
  BoundedRing.config_of capacity (CQueue.manyProducers tag) (CQueue.manyConsumers tag) overrun false.

(** An operation: its first call, what follows when that answered yes, and
    what follows in any case. *)
Record bounded_op := BoundedOp { b_first : bounded_call; b_yes : list bounded_call; b_always : list bounded_call }.
Definition made_room : list bounded_call := [NotFullNotify 1].
Definition bounded_try_push (v : T) := BoundedOp (RingTryPush v) [NotEmptyNotify 1] [].
Definition bounded_push_wait (v : T) := BoundedOp (FullWait v) [NotEmptyNotify 1] [].
Definition bounded_push_overrun (v : T) := BoundedOp (RingPushOverrun v) [] [NotEmptyNotify 1].
Definition bounded_try_pop := BoundedOp RingConsume made_room [].
Definition bounded_pop_wait := BoundedOp EmptyWait made_room [].
Definition bounded_pop_wait_for (limit : Z) := BoundedOp (EmptyWaitFor limit) made_room [].
Definition bounded_close := BoundedOp NotEmptyClose [] [NotFullClose].
Definition bounded_size := BoundedOp RingSize [] [].
Definition bounded_overrun_counter := BoundedOp RingOverrunCounter [] [].
Definition bounded_reset_overrun_counter := BoundedOp RingResetOverrunCounter [] [].

Definition bounded_calls (o : bounded_op) (yes : bool) : list bounded_call := b_first o :: (if yes then b_yes o else []) ++ b_always o.

(** The operation on the ring a first call comes to, and the answer as a
    boolean. *)
Definition ring_call (c : bounded_call) : option (@BoundedRing.op T) :=
  match c with
  | RingTryPush v | FullWait v => Some (BoundedRing.TryPush v)
  | RingPushOverrun v => Some (BoundedRing.PushOverrun v)
  | RingConsume | EmptyWait | EmptyWaitFor _ => Some BoundedRing.Consume
  | RingSize => Some BoundedRing.Size
  | RingOverrunCounter => Some BoundedRing.OverrunCounter
  | RingResetOverrunCounter => Some BoundedRing.ResetOverrunCounter
  | _ => None
  end.
Definition yes (r : @BoundedRing.res T) : bool :=
  match r with BoundedRing.RBool b => b | BoundedRing.RPop o => match o with Some _ => true | None => false end | _ => false end.
Definition not_empty_told (cs : list bounded_call) : Z := fold_right (λ c n, match c with NotEmptyNotify k => k + n | _ => n end) 0 cs.
Definition not_full_told (cs : list bounded_call) : Z := fold_right (λ c n, match c with NotFullNotify k => k + n | _ => n end) 0 cs.

End bounded.
Arguments bounded_call : clear implicits.
Arguments bounded_op : clear implicits.

(** ** [wtc::lifted] and [wtc::lifted_bounded] *)

Section lifted.
Context {T : Type}.

(** The functions with a body that calls the queue, and the copying forms
    of a push, which end the program for a type that cannot be copied. *)
Inductive lifted_fn :=
| LConstruct (tag : Z) | LDestroy | LPush (v : T) | LPushCopy (v : T) | LTryPop | LPopWait | LClose.
Definition copy_ok (triviallyCopyable : bool) : bool := triviallyCopyable.
Definition lifted_annotation (f : lifted_fn) : list string :=
  match f with
  | LConstruct _ => ["wtc_queue_construction"; "wtc_lifted_construct"]
  | LDestroy => ["wtc_lifted_destroy"]
  | LPush _ => ["wtc_queue_push"; "wtc_lifted_push_move"]
  | LPushCopy _ => ["wtc_queue_push"; "wtc_lifted_push_copy"]
  | LTryPop => ["wtc_queue_try_pop_into"; "wtc_lifted_try_pop_move"]
  | LPopWait => ["wtc_queue_pop_wait"; "wtc_lifted_pop_wait_move"]
  | LClose => ["wtc_lifted_close"]
  end%string.
(** The calls on the queue, whose tag is [tag]; [None]: the program ends. *)
Definition lifted_calls (inlineOk copyable : bool) (tag : Z) (f : lifted_fn) : option (list (call T)) :=
  match f with
  | LConstruct t => Some (snd (construct inlineOk t))
  | LDestroy => Some (destroy tag)
  | LPush v => Some (push tag v)
  | LPushCopy v => if copyable then Some (push tag v) else None
  | LTryPop => Some (try_pop_into tag)
  | LPopWait => Some (pop_wait tag)
  | LClose => Some close
  end.

Inductive lifted_push := PushWaits | TryPushes | Overruns | OverrunUnreachable.
Inductive unit_of_time := Ns | Us | Ms | S.
Inductive bounded_fn :=
| BPush (how : lifted_push) (copied : bool) (v : T) | BTryPop | BPopWait | BPopWaitFor (u : unit_of_time) (d : Z)
| BClose | BSize | BOverrunCounter | BResetOverrunCounter.
Definition nanoseconds (u : unit_of_time) (d : Z) : Z := match u with Ns => d | Us => d * 1000 | Ms => d * 1000000 | S => d * 1000000000 end.
Definition bounded_annotation (f : bounded_fn) : list string :=
  match f with
  | BPush PushWaits c _ => ["wtc_queue_push_wait"; "wtc_queue_bounded"; if c then "wtc_lifted_push_wait_copy" else "wtc_lifted_push_wait_move"]
  | BPush TryPushes c _ => ["wtc_queue_try_push"; "wtc_queue_bounded"; if c then "wtc_lifted_try_push_copy" else "wtc_lifted_try_push_move"]
  | BPush Overruns c _ => ["wtc_queue_push_overrun"; "wtc_queue_bounded"; if c then "wtc_lifted_push_overrun_copy" else "wtc_lifted_push_overrun_move"]
  | BPush OverrunUnreachable c _ => ["wtc_queue_push"; "wtc_queue_bounded"; if c then "wtc_lifted_push_overrun_unreachable_copy" else "wtc_lifted_push_overrun_unreachable_move"]
  | BTryPop => ["wtc_queue_try_pop_into"; "wtc_queue_bounded"; "wtc_lifted_try_pop_move"]
  | BPopWait => ["wtc_queue_pop_wait"; "wtc_queue_bounded"; "wtc_lifted_pop_wait_move"]
  | BPopWaitFor u _ => ["wtc_queue_pop_wait_for"; "wtc_queue_bounded";
      match u with Ns => "wtc_lifted_pop_wait_for_ns" | Us => "wtc_lifted_pop_wait_for_us" | Ms => "wtc_lifted_pop_wait_for_ms" | S => "wtc_lifted_pop_wait_for_s" end]
  | BClose => ["wtc_lifted_close"]
  | BSize => ["wtc_lifted_size"]
  | BOverrunCounter => ["wtc_lifted_overrun_counter"]
  | BResetOverrunCounter => ["wtc_lifted_reset_overrun_counter"]
  end%string.
Definition bounded_fn_op (copyable : bool) (f : bounded_fn) : option (bounded_op T) :=
  match f with
  | BPush how c v =>
      if c && negb copyable then None
      else Some match how with PushWaits => bounded_push_wait v | TryPushes => bounded_try_push v | Overruns | OverrunUnreachable => bounded_push_overrun v end
  | BTryPop => Some bounded_try_pop
  | BPopWait => Some bounded_pop_wait
  | BPopWaitFor u d => Some (bounded_pop_wait_for (nanoseconds u d))
  | BClose => Some bounded_close
  | BSize => Some bounded_size
  | BOverrunCounter => Some bounded_overrun_counter
  | BResetOverrunCounter => Some bounded_reset_overrun_counter
  end.

(** Who waits for an element hears of each that comes in, and who waits for
    room of each that goes out and is not replaced. *)
Lemma bounded_tells copyable f cap q o op r q' : bounded_fn_op copyable f = Some o →
  ring_call (b_first o) = Some op → BoundedRingLin.bq_step cap q op = Some (r, q') →
  let cs := bounded_calls o (yes r) in
  (∀ l v, q' = l ++ [v] → (length q ≤ length q')%nat → q' ≠ q → not_empty_told cs = 1) ∧
  ((length q' < length q)%nat → not_full_told cs = 1) ∧
  (q' = q → not_full_told cs = 0).
Proof.
  intros Ho Hop Hs.
  assert (∀ (l : list T), length (tail l) = pred (length l)) as Htl by by intros [].
  assert (∀ (l : list T), tail l = l → l = []) as Hne by (intros [|x l] H; [done|]; apply (f_equal length) in H; cbn in H; lia).
  destruct f as [how c v| | |u d| | | |]; cbn in Ho; [destruct (c && negb copyable); [done|]; destruct how|..]; injection Ho as <-; cbn in Hop; try done;
    injection Hop as <-; cbn in Hs; try done; repeat case_match; simplify_eq; cbn; repeat split; intros; subst; rewrite ?length_app, ?Htl in *; cbn in *; try lia; try done;
    try (by rewrite (Hne q) by done); destruct q; cbn in *; try lia; try done.
Qed.

(** *** The annotations say which side a function is on *)

Definition kind_of (annots : list string) : semantic_kind := default Unknown (first_some (λ a, annotation_kind (Annotation a)) annots).
(** Of the pushing side; of the popping side. *)
Definition kind_sides (k : semantic_kind) : bool * bool :=
  match k with
  | QueuePush | QueuePushWait | QueueTryPush | QueuePushDeferred | QueueBatchBegin | QueueBatchEnd => (true, false)
  | QueuePushOverrun => (true, true)
  | QueueTryPop | QueueTryPopInto | QueuePopWait | QueuePopWaitFor => (false, true)
  | _ => (false, false)
  end.
Definition either (a b : bool * bool) : bool * bool := (fst a || fst b, snd a || snd b).
Definition call_sides (c : call T) : bool * bool :=
  match c with
  | Push _ _ | PushDeferred _ _ | Publish _ | PushRun _ _ => (true, false)
  | Consume _ | TryPopBorrow | Wait _ | WaitFor _ _ => (false, true)
  | _ => (false, false)
  end.
Definition bounded_call_sides (overrun : bool) (c : bounded_call T) : bool * bool :=
  match c with
  | RingTryPush _ | FullWait _ => (true, false)
  | RingPushOverrun _ => (true, overrun)
  | RingConsume | EmptyWait | EmptyWaitFor _ => (false, true)
  | _ => (false, false)
  end.
Definition sides {A} (f : A → bool * bool) (cs : list A) : bool * bool := fold_right (λ c s, either (f c) s) (false, false) cs.

(** What the analyses count a call of the function as is what its body does:
    no function consumes that is taken for a producer's, nor produces that
    is taken for a consumer's.  The queue is built for overruns exactly where
    a function that overruns is called. *)
Lemma lifted_sides inlineOk copyable tag f cs : lifted_calls inlineOk copyable tag f = Some cs → sides call_sides cs = kind_sides (kind_of (lifted_annotation f)).
Proof.
  destruct f; cbn [lifted_calls]; try (destruct copyable; [|done]); intros [= <-]; try reflexivity.
  unfold construct. by repeat case_match.
Qed.
Lemma bounded_sides copyable f o overrun answer : bounded_fn_op copyable f = Some o →
  (∀ c v, f = BPush Overruns c v → overrun = true) → (∀ c v, f = BPush OverrunUnreachable c v → overrun = false) →
  sides (bounded_call_sides overrun) (bounded_calls o answer) = kind_sides (kind_of (bounded_annotation f)).
Proof.
  destruct f as [how c v| | |u d| | | |]; cbn [bounded_fn_op].
  - destruct (c && negb copyable); [done|]. intros [= <-] H1 H2. destruct how; [| |rewrite (H1 c v eq_refl)|rewrite (H2 c v eq_refl)]; by destruct c, answer.
  - intros [= <-] _ _. by destruct answer.
  - intros [= <-] _ _. by destruct answer.
  - intros [= <-] _ _. by destruct u, answer.
  - intros [= <-] _ _. by destruct answer.
  - intros [= <-] _ _. by destruct answer.
  - intros [= <-] _ _. by destruct answer.
  - intros [= <-] _ _. by destruct answer.
Qed.
End lifted.
Arguments lifted_fn : clear implicits.
Arguments bounded_fn : clear implicits.

(** ** What an implementation promises

    The object behind a member, with the elements a consumer may find and
    those its producer holds back.  A call takes effect in parts and at its
    end; between them other threads may pop, and push where the member
    allows several producers ([env]: what they take, what they add). *)

Section promises.
Context {T : Type}.

(** What a call still adds. *)
Definition elems (c : call T) : list T :=
  match c with Push _ v | PushDeferred _ v => [v] | PushRun _ vs => vs | _ => [] end.
Definition effect (c : call T) (q : list T * list T) : list T * list T :=
  let '(vis, held) := q in
  match c with
  | Push _ v => (vis ++ held ++ [v], [])
  | PushDeferred _ v => (vis, held ++ [v])
  | Publish _ => (vis ++ held, [])
  | _ => q
  end.
(** The producer's calls a member has. *)
Definition supports (i : member) (c : call T) : Prop :=
  match i, c with
  | RingImpl, (Push RingImpl _ | PushDeferred RingImpl _ | Publish RingImpl) => True
  | SpmcImpl, (Push SpmcImpl _ | PushDeferred SpmcImpl _ | Publish SpmcImpl) => True
  | GenericImpl, (Push GenericImpl _ | PushRun GenericImpl _) => True
  | MpscImpl, (Push MpscImpl _ | PushRun MpscImpl _) => True
  | _, _ => False
  end.

(** A member for several producers ends a call once every element of its
    run is in. *)
Definition many_producers (i : member) (c : call T) : Prop :=
  match i with GenericImpl | MpscImpl => c = PushRun i [] | _ => True end.

Class Implementation (i : member) := {
  object : Type;
  fresh : object;
  visible : object → list T;
  withheld : object → list T;
  part : call T → object → call T → object → Prop;
  finish : call T → object → object → Prop;
  env : object → list T → list T → object → Prop;
  fresh_empty : visible fresh = [] ∧ withheld fresh = [];
  part_effect c s c' s' : part c s c' s' → ∃ v vs, (c = PushRun i (v :: vs) ∨ c = Push i v ∧ vs = []) ∧ c' = PushRun i vs ∧ supports i c' ∧ visible s' = visible s ++ [v] ∧ withheld s = [] ∧ withheld s' = [];
  finish_effect c s s' : finish c s s' → (visible s', withheld s') = effect c (visible s, withheld s) ∧ supports i c ∧ many_producers i c;
  env_effect s p q s' : env s p q s' → ∃ d, withheld s = d ++ withheld s' ∧ p ++ visible s' = visible s ++ d ++ q;
  call_moves c s : supports i c → (∃ c' s', part c s c' s') ∨ ∃ s', finish c s s'
}.
End promises.

(** ** The sequential objects of the contracts keep it *)

Section contracts.
Context {T : Type}.

(** Of the ring. *)
Definition ring_op (c : call T) : option (@SpscRing.op T) :=
  match c with
  | Push RingImpl v => Some (SpscRing.Push v)
  | PushDeferred RingImpl v => Some (SpscRing.PushDeferred v)
  | Publish RingImpl => Some SpscRing.Publish
  | _ => None
  end.
#[export] Program Instance ring_implementation : Implementation (T := T) RingImpl := {
  object := SpscRingLin.squeue;
  fresh := sp_init SpscRingLin.spsc_queue;
  visible := SpscRingLin.vis;
  withheld := SpscRingLin.dfr;
  part _ _ _ _ := False;
  finish c s s' := ∃ o r, ring_op c = Some o ∧ sp_step SpscRingLin.spsc_queue s o r s';
  env s p q s' := q = [] ∧ p = option_list (head (SpscRingLin.vis s)) ∧
    ∃ o r, (o = SpscRing.Consume ∨ o = SpscRing.TryPopBorrow) ∧ sp_step SpscRingLin.spsc_queue s o r s'
}.
Next Obligation. done. Qed.
Next Obligation. done. Qed.
Next Obligation.
  intros c s s' (o & r & Ho & Hs). destruct c as [| |[]|[]|[]| | | | | | |]; cbn in Ho; simplify_eq; cbn in Hs; by destruct Hs as [_ ->].
Qed.
Next Obligation.
  intros s p q s' (-> & -> & o & r & Ho & Hs). exists []. destruct Ho as [-> | ->]; cbn in Hs; destruct Hs as [_ ->]; cbn; (split; [done|]); rewrite app_nil_r; by destruct (SpscRingLin.vis s).
Qed.
Next Obligation.
  intros c s Hc. right. destruct c as [| |[]|[]|[]|[]| | | | | |]; cbn in Hc; try done; eexists _, _, SpscRing.RUnit; (split; [reflexivity|by split]).
Qed.

(** Of the queue of one producer and many consumers. *)
Definition spmc_op (c : call T) : option (@Spmc.op T) :=
  match c with
  | Push SpmcImpl v => Some (Spmc.Push v)
  | PushDeferred SpmcImpl v => Some (Spmc.PushDeferred v)
  | Publish SpmcImpl => Some Spmc.Publish
  | _ => None
  end.
Definition spmc_popped (r : @Spmc.res T) : list T := match r with Spmc.RPop o => option_list o | _ => [] end.
#[export] Program Instance spmc_implementation : Implementation (T := T) SpmcImpl := {
  object := SpmcLin.mqueue;
  fresh := sp_init SpmcLin.spmc_spec;
  visible := SpmcLin.vis;
  withheld := SpmcLin.dfr;
  part _ _ _ _ := False;
  finish c s s' := ∃ o r, spmc_op c = Some o ∧ sp_step SpmcLin.spmc_spec s o r s';
  env s p q s' := q = [] ∧ ∃ me o r, (o = Spmc.Pop me ∨ o = Spmc.Exit me) ∧ sp_step SpmcLin.spmc_spec s o r s' ∧ p = spmc_popped r
}.
Next Obligation. done. Qed.
Next Obligation. done. Qed.
Next Obligation.
  intros c s s' (o & r & Ho & Hs). destruct c as [| |[]|[]|[]| | | | | | |]; cbn in Ho; simplify_eq; cbn in Hs; by destruct Hs as [_ ->].
Qed.
Next Obligation.
  intros s p q s' (-> & me & o & r & [-> | ->] & Hs & ->); cbn in Hs.
  - destruct Hs as (d & d' & Hd & -> & ->). exists d. cbn. split; [done|]. rewrite app_nil_r. by destruct (SpmcLin.vis s ++ d).
  - destruct Hs as [-> ->]. exists []. by rewrite app_nil_r.
Qed.
Next Obligation.
  intros c s Hc. right. destruct c as [| |[]|[]|[]|[]| | | | | |]; cbn in Hc; try done; eexists _, _, Spmc.RUnit; (split; [reflexivity|by split]).
Qed.

(** Of the segmented queue: one element of a run at a time, other producers'
    in between. *)
Definition segment_op (i : member) (me : nat) (c : call T) : option (@Segment.op T) :=
  match c with
  | Push j v => if decide (j = i) then Some (Segment.Push me v) else None
  | PushRun j vs => if decide (j = i) then Some (Segment.PushRun me vs) else None
  | _ => None
  end.
Definition segment_popped (r : @Segment.res T) : list T := match r with Segment.RPop o => option_list o | _ => [] end.
#[export] Program Instance segment_implementation (i : member) (Hi : i = GenericImpl ∨ i = MpscImpl) : Implementation (T := T) i := {
  object := list T;
  fresh := sp_init SegmentLin.segment_spec;
  visible s := s;
  withheld _ := [];
  part c s c' s' := ∃ me o vs, segment_op i me c = Some o ∧ c' = PushRun i vs ∧ sp_part SegmentLin.segment_spec s o (Segment.PushRun me vs) s';
  finish c s s' := ∃ me r, segment_op i me c = Some (Segment.PushRun me []) ∧ sp_step SegmentLin.segment_spec s (Segment.PushRun me []) r s';
  env s p q s' := q = [] ∧ (∃ me o r, (o = Segment.Pop me ∨ o = Segment.Exit me) ∧ sp_step SegmentLin.segment_spec s o r s' ∧ p = segment_popped r) ∨
    p = [] ∧ ∃ me v vs, q = [v] ∧ sp_part SegmentLin.segment_spec s (Segment.PushRun me (v :: vs)) (Segment.PushRun me vs) s'
}.
Next Obligation. done. Qed.
Next Obligation.
  intros i Hi c s c' s' (me & o & vs & Ho & -> & me' & v & vs' & -> & [= <- <-] & ->). exists v, vs. split; [|split; [done|]; split; [by destruct Hi as [-> | ->]|done]].
  destruct c as [| |j w| | |j ws| | | | | |]; cbn in Ho; try done; destruct (decide (j = i)) as [->|]; simplify_eq; unfold Segment.Push in *; simplify_eq; auto.
Qed.
Next Obligation.
  intros i Hi c s s' (me & r & Ho & _ & _ & ->). cbn. destruct c as [| |j w| | |j ws| | | | | |]; cbn in Ho; try done; destruct (decide (j = i)) as [->|]; unfold Segment.Push in *; simplify_eq.
  by destruct Hi as [-> | ->].
Qed.
Next Obligation.
  intros i Hi s p q s' [(-> & me & o & r & [-> | ->] & Hs & ->)|(-> & me & v & vs & -> & me' & v' & vs' & [= <- <- <-] & _ & ->)]; exists []; cbn in *; (split; [done|]); try done.
  - destruct Hs as [-> ->]. rewrite app_nil_r. by destruct s.
  - destruct Hs as [-> ->]. by rewrite app_nil_r.
Qed.
Next Obligation.
  intros i Hi c s Hc. destruct c as [| |j w| | |j [|w ws]| | | | | |], Hi as [-> | ->]; cbn in Hc; try done; destruct j; try done;
    first [right; eexists s, 0%nat, Segment.RUnit; split; [reflexivity|by split; [|split]]
          |left; eexists (PushRun _ _), (s ++ [w]); exists 0%nat, (Segment.PushRun 0 [w]), []; split; [reflexivity|]; split; [reflexivity|]; by exists 0%nat, w, []
          |left; eexists (PushRun _ ws), (s ++ [w]); exists 0%nat, (Segment.PushRun 0 (w :: ws)), ws; split; [reflexivity|]; split; [reflexivity|]; by exists 0%nat, w, ws].
Qed.

(** The one a queue holds. *)
Definition implementation (i : member) : Implementation (T := T) i :=
  match i with
  | RingImpl => ring_implementation
  | SpmcImpl => spmc_implementation
  | GenericImpl => segment_implementation GenericImpl (or_introl eq_refl)
  | MpscImpl => segment_implementation MpscImpl (or_intror eq_refl)
  end.
End contracts.

(** ** A batch arrives as its pushes do *)

Section batches.
Context {T : Type} (K : Z) (HK : 0 < K < 2 ^ 32) (tag : Z).
Context {I : Implementation (T := T) (member_of tag)}.
(** The elements this producer pushes, and no other thread does. *)
Variable mine : T → bool.

(** The producer's calls still to make, the object, what consumers have
    taken, and how many elements waiting consumers were told of. *)
Record config := Config { todo : list (call T); obj : object; taken : list T; told : Z }.
Inductive move : config → config → Prop :=
| move_part c s c' s' cs p n : part c s c' s' → move (Config (c :: cs) s p n) (Config (c' :: cs) s' p n)
| move_finish c s s' cs p n : finish c s s' → move (Config (c :: cs) s p n) (Config cs s' p n)
| move_notify k cs s p n : move (Config (Notify k :: cs) s p n) (Config cs s p (n + k))
| move_env cs s p q s' p0 n : env s p q s' → Forall (λ v, mine v = false) q → move (Config cs s p0 n) (Config cs s' (p0 ++ p) n).

Definition adds (cs : list (call T)) : list T := flat_map elems cs.
Definition own (l : list T) : list T := List.filter mine l.
Definition size (l : list T) : Z := Z.of_nat (length l).

(** Calls that tell of every element once it is visible, with [w] held back
    and [n] visible and not told of. *)
Fixpoint announces (w n : Z) (cs : list (call T)) : Prop :=
  match cs with
  | [] => w = 0 ∧ n = 0
  | c :: cs =>
      match c with
      | Push _ _ => announces 0 (n + w + 1) cs
      | PushDeferred _ _ => announces (w + 1) n cs
      | Publish _ => announces 0 (n + w) cs
      | PushRun _ vs => announces w (n + size vs) cs
      | Notify k => k = n ∧ announces w 0 cs
      | _ => False
      end
  end.
Definition producers_calls (cs : list (call T)) : Prop := Forall (λ c, supports (member_of tag) c ∨ ∃ k, c = Notify k) cs.

(** *** Along any interleaving *)

Lemma own_app l l' : own (l ++ l') = own l ++ own l'.
Proof. apply List.filter_app. Qed.
Lemma own_mine l : Forall (λ v, mine v = true) l → own l = l.
Proof. induction 1 as [|v l Hv _ IH]; [done|]. unfold own in *. cbn. by rewrite Hv, IH. Qed.
Lemma own_foreign l : Forall (λ v, mine v = false) l → own l = [].
Proof. induction 1 as [|v l Hv _ IH]; [done|]. cbn. by rewrite Hv. Qed.
Lemma size_app l l' : size (l ++ l') = size l + size l'.
Proof. unfold size. rewrite length_app. lia. Qed.

(** [all]: the producer's elements there were and there will be. *)
Record along (all : list T) (base : Z) (c : config) : Prop := {
  al_order : own (taken c ++ visible (obj c) ++ withheld (obj c)) ++ adds (todo c) = all;
  al_mine : Forall (λ v, mine v = true) (adds (todo c));
  al_calls : producers_calls (todo c);
  al_held : Forall (λ v, mine v = true) (withheld (obj c));
  al_told : ∃ w n, 0 ≤ w ∧ 0 ≤ n ∧ announces w n (todo c) ∧
    size (own (taken c ++ visible (obj c) ++ withheld (obj c))) = base + told c + n + w ∧
    size (withheld (obj c)) ≤ w
}.

Lemma finished i (c : call T) : supports i c → many_producers i c →
  match c with Push _ _ | PushDeferred _ _ | Publish _ => True | PushRun _ vs => vs = [] | _ => False end.
Proof. destruct i, c as [| |[]|[]|[]|[]| | | | | |]; cbn; try done; by intros _ [= ->]. Qed.

Lemma along_move all base c c' : move c c' → along all base c → along all base c'.
Proof.
  intros Hm [Ho Hi Hc Hh (w & n & Hw & Hn & Ha & Ht & Hs)].
  destruct Hm as [x s x' s' cs p k Hp|x s s' cs p k Hf|k cs s p j|cs s p q s' p0 k He Hq]; cbn [todo obj taken told] in *.
  - destruct (part_effect _ _ _ _ Hp) as (v & vs & Hx & -> & Hsup & Hv & H0 & H1).
    assert (adds (x :: cs) = v :: adds (PushRun (member_of tag) vs :: cs)) as Ex by (destruct Hx as [->|[-> ->]]; done).
    rewrite Ex in *. apply Forall_cons in Hi as [Hmv Hi]. rewrite H0, app_nil_r in *.
    assert (own (p ++ visible s') = own (p ++ visible s) ++ [v]) as Eo.
    { rewrite Hv, app_assoc, (own_app _ [v]), (own_mine [v]); [done|by repeat constructor]. }
    constructor; cbn [todo obj taken told]; rewrite ?H1, ?app_nil_r, ?Eo.
    + rewrite <-app_assoc. exact Ho.
    + exact Hi.
    + apply Forall_cons in Hc as [_ Hc]. constructor; [by left|done].
    + by constructor.
    + destruct Hx as [->|[-> ->]]; cbn [announces] in *.
      * exists w, (n + 1). split; [lia|]. split; [lia|]. split; [|rewrite size_app; unfold size in *; cbn in *; split; lia].
        unfold size in *. cbn in Ha. by replace (n + 1 + Z.of_nat (length vs)) with (n + Z.pos (Pos.of_succ_nat (length vs))) by lia.
      * exists 0, (n + w + 1). split; [lia|]. split; [lia|]. split; [by rewrite Z.add_0_r|]. rewrite size_app. unfold size in *. cbn. split; lia.
  - destruct (finish_effect _ _ _ Hf) as (He & Hsup & Hmany). apply Forall_cons in Hc as [_ Hc].
    assert (visible s' ++ withheld s' = visible s ++ withheld s ++ elems x ∧ adds (x :: cs) = elems x ++ adds cs) as [Ev Ea].
    { split; [|done]. pose proof (finished _ _ Hsup Hmany) as Hx. destruct x; cbn in He, Hx; try done; injection He as -> ->; cbn; rewrite ?Hx, ?app_nil_r, <-?app_assoc; done. }
    rewrite Ea in *. apply Forall_app in Hi as [Hix Hi].
    assert (own (p ++ visible s' ++ withheld s') = own (p ++ visible s ++ withheld s) ++ elems x) as Eo.
    { rewrite Ev, !own_app, (own_mine (elems x)), <-!app_assoc by done. done. }
    constructor; cbn [todo obj taken told]; rewrite ?Eo.
    + by rewrite <-app_assoc.
    + done.
    + done.
    + destruct x; cbn in He; injection He as _ ->; try done. apply Forall_app. by split.
    + rewrite size_app. cbn [announces] in Ha. destruct x as [|i|i v|i v|i|i vs| | | | | |]; cbn in He, Ha; try done; injection He as E1 E2; unfold size in *; cbn [elems length] in *;
        try (by pose proof (finished _ _ Hsup Hmany)).
      * exists 0, (n + w + 1). rewrite E2. cbn. repeat split; try lia; done.
      * exists (w + 1), n. rewrite E2, length_app. cbn. repeat split; try lia; done.
      * exists 0, (n + w). rewrite E2. cbn. repeat split; try lia; done.
      * exists w, (n + size vs). rewrite E2. unfold size. repeat split; try lia; done.
  - cbn [announces] in Ha. destruct Ha as [-> Ha]. constructor; cbn [todo obj taken told]; try done; [by apply Forall_cons in Hc as [_ ?]|]. exists w, 0. repeat split; try lia; done.
  - destruct (env_effect _ _ _ _ He) as (d & Hd & Ev).
    assert (own ((p0 ++ p) ++ visible s' ++ withheld s') = own (p0 ++ visible s ++ withheld s)) as Eo.
    { rewrite <-app_assoc. rewrite (app_assoc p), Ev, Hd, !own_app, (own_foreign q) by done. cbn. by rewrite app_nil_r, <-!app_assoc. }
    constructor; cbn [todo obj taken told]; rewrite ?Eo; try done.
    + rewrite Hd in Hh. by apply Forall_app in Hh as [_ ?].
    + exists w, n. repeat split; try done. rewrite Hd in Hs. rewrite size_app in Hs. unfold size in *. lia.
Qed.

(** *** The calls of a batch *)

(** The elements of a batch the object does not have yet. *)
Definition kept (b : batch T) : list T := match member_of tag with RingImpl | SpmcImpl => [] | _ => run b end.
Definition ok (b : batch T) (w : Z) : Prop :=
  0 ≤ pending b < K ∧ match member_of tag with RingImpl | SpmcImpl => w = pending b | _ => w = 0 ∧ size (run b) = pending b end.

Lemma publish_ok b w : 0 ≤ pending b → match member_of tag with RingImpl | SpmcImpl => w = pending b | _ => w = 0 ∧ size (run b) = pending b end →
  let '(cs, b') := publish tag b in
  ok b' 0 ∧ pending b' = 0 ∧ adds cs ++ kept b' = kept b ∧ producers_calls cs ∧ ∀ rest, announces 0 0 rest → announces w 0 (cs ++ rest).
Proof.
  assert (producers_calls []) as Hnil by constructor.
  assert (∀ c n, supports (member_of tag) c → producers_calls [c; Notify n]) as Htwo by (intros; constructor; [by left|constructor; [right; by eexists|constructor]]).
  intros Hp Hm. unfold publish, kept, ok, adds in *. destruct (member_of tag) eqn:E; cbn [flat_map elems app].
  1, 3: destruct Hm as [-> Hs]; destruct (Z.eqb_spec (pending b) 0) as [Hz|Hz]; rewrite ?E; cbn;
    [assert (run b = []) as -> by (apply length_zero_iff_nil; unfold size in Hs; lia); repeat split; try lia; done
    |assert (take (Z.to_nat (pending b)) (run b) = run b) as -> by (rewrite <-Hs; unfold size; rewrite Nat2Z.id; apply firstn_all);
     rewrite !app_nil_r; repeat split; try lia; try done; by apply Htwo].
  all: subst w; rewrite ?E; cbn; repeat split; try lia; try done; by apply Htwo.
Qed.

Lemma push_deferred_ok v b w : ok b w →
  let '(cs, b') := push_deferred K tag v b in
  ∃ w', ok b' w' ∧ adds cs ++ kept b' = kept b ++ [v] ∧ producers_calls cs ∧ ∀ rest, announces w' 0 rest → announces w 0 (cs ++ rest).
Proof.
  intros [Hp Hm]. unfold push_deferred.
  destruct (defer tag v b) as [c1 b1] eqn:Ed.
  assert (pending b1 = pending b ∧ adds c1 ++ kept b1 = kept b ++ [v] ∧ producers_calls c1 ∧
    ∃ w', match member_of tag with RingImpl | SpmcImpl => w' = pending b + 1 | _ => w' = 0 ∧ size (run b1) = pending b + 1 end ∧
      ∀ rest, announces w' 0 rest → announces w 0 (c1 ++ rest)) as (Ep & Ea & Hc & w' & Hw & Hann).
  { unfold defer, kept, producers_calls in *. destruct (member_of tag) eqn:E; injection Ed as <- <-; cbn.
    1, 3: destruct Hm as [-> Hs]; assert (take (Z.to_nat (pending b)) (run b) = run b) as -> by (rewrite <-Hs; unfold size; rewrite Nat2Z.id; apply firstn_all);
      split; [done|]; split; [done|]; split; [constructor|]; exists 0; split; [rewrite size_app; unfold size in *; cbn; lia|done].
    all: subst w; split; [done|]; split; [by rewrite ?E|]; split; [repeat constructor; by left|]; exists (pending b + 1); done. }
  cbn [pending run]. rewrite Ep, u32_small by lia. destruct (Z.eqb_spec (pending b + 1) K) as [HK'|HK'].
  - pose proof (publish_ok (Batch (run b1) (pending b + 1)) w' ltac:(cbn; lia) Hw) as Hpub.
    destruct (publish tag (Batch (run b1) (pending b + 1))) as [c2 b2]. destruct Hpub as (Hok & _ & Ea2 & Hc2 & Hann2).
    exists 0. split; [done|]. split; [|split].
    + unfold adds in *. rewrite flat_map_app, <-app_assoc, Ea2. exact Ea.
    + by apply Forall_app.
    + intros rest Hr. rewrite <-app_assoc. auto.
  - exists w'. split; [|done]. split; cbn; [lia|done].
Qed.

Lemma defers_ok vs : ∀ b w, ok b w →
  let '(cs, b') := defers K tag vs b in
  ∃ w', ok b' w' ∧ adds cs ++ kept b' = kept b ++ vs ∧ producers_calls cs ∧ ∀ rest, announces w' 0 rest → announces w 0 (cs ++ rest).
Proof.
  induction vs as [|v vs IH]; intros b w Hb; cbn [defers].
  - exists w. split; [done|]. split; [by rewrite app_nil_r|]. split; [constructor|done].
  - pose proof (push_deferred_ok v b w Hb) as H1. destruct (push_deferred K tag v b) as [c1 b1]. destruct H1 as (w1 & Hb1 & E1 & Hc1 & Ha1).
    specialize (IH b1 w1 Hb1). destruct (defers K tag vs b1) as [c2 b2]. destruct IH as (w2 & Hb2 & E2 & Hc2 & Ha2).
    exists w2. split; [done|]. split; [|split].
    + unfold adds in *. rewrite flat_map_app, <-app_assoc, E2, app_assoc, E1, <-app_assoc. done.
    + by apply Forall_app.
    + intros rest Hr. rewrite <-app_assoc. auto.
Qed.

Lemma batched_ok vs : adds (batched K tag vs) = vs ∧ producers_calls (batched K tag vs) ∧ announces 0 0 (batched K tag vs).
Proof.
  unfold batched. pose proof (defers_ok vs batch_begin 0) as Hd. destruct (defers K tag vs batch_begin) as [cs b].
  destruct Hd as (w & [Hp Hm] & Ea & Hc & Hann); [split; cbn; [lia|by destruct (member_of tag)]|].
  pose proof (publish_ok b w ltac:(lia) Hm) as Hpub. unfold batch_end. destruct (publish tag b) as [c2 b2]. destruct Hpub as ([_ Hok] & Hz & E2 & Hc2 & Ha2). cbn [fst].
  assert (kept b2 = []) as Ek.
  { unfold kept. destruct (member_of tag); try done; destruct Hok as [_ Hs]; apply length_zero_iff_nil; unfold size in Hs; lia. }
  rewrite Ek, app_nil_r in E2. split; [|split].
  - unfold adds in *. rewrite flat_map_app, E2, Ea. unfold kept. by destruct (member_of tag).
  - by apply Forall_app.
  - apply Hann. specialize (Ha2 [] (conj eq_refl eq_refl)). by rewrite app_nil_r in Ha2.
Qed.

(** Whatever is left to do, it can be done. *)
Definition finishes (cs : list (call T)) : Prop := ∀ s p n, ∃ s' n', rtc move (Config cs s p n) (Config [] s' p n').
Lemma call_finishes cs : finishes cs → ∀ k c, length (elems c) = k → supports (member_of tag) c → finishes (c :: cs).
Proof.
  intros Hcs k. induction k as [k IH] using lt_wf_ind. intros c Hk Hc s p n.
  destruct (call_moves c s Hc) as [(c' & s1 & Hp)|(s1 & Hf)].
  - destruct (part_effect _ _ _ _ Hp) as (v & vs & Hx & Ec' & Hsup & _).
    destruct (IH (length vs)) with (c := c') (s := s1) (p := p) (n := n) as (s' & n' & H); [|by subst c'|done|].
    { destruct Hx as [->|[-> ->]]; cbn in Hk; subst k; cbn; lia. }
    exists s', n'. eapply rtc_l; [by apply move_part|done].
  - destruct (Hcs s1 p n) as (s' & n' & H). exists s', n'. eapply rtc_l; [by apply move_finish|done].
Qed.
Lemma calls_finish cs : producers_calls cs → finishes cs.
Proof.
  induction 1 as [|c cs [Hc|(k & ->)] _ IH].
  - intros s p n. by exists s, n.
  - by eapply call_finishes.
  - intros s p n. destruct (IH s p (n + k)) as (s' & n' & H). exists s', n'. eapply rtc_l; [by apply move_notify|done].
Qed.

(** C23: A batch arrives as its pushes would, whatever implementation the
    tag names and however consumers, and other producers where the
    implementation allows them, run in between: the elements come out in
    their order behind those that were there; waiting consumers are told of
    no element that is not visible yet, and once the batch has ended of
    every one, none being held back; and a batch can always be ended. *)
Theorem batch_arrives vs s0 c : withheld s0 = [] → Forall (λ v, mine v = true) vs →
  rtc move (Config (batched K tag vs) s0 [] 0) c →
  own (taken c ++ visible (obj c) ++ withheld (obj c)) ++ adds (todo c) = own (visible s0) ++ vs ∧
  size (own (visible s0)) + told c ≤ size (own (taken c ++ visible (obj c))) ∧
  (todo c = [] → withheld (obj c) = [] ∧ told c = size vs) ∧
  ∃ c', rtc move c c' ∧ todo c' = [] ∧ taken c' = taken c.
Proof.
  intros H0 Hvs Hrun. destruct (batched_ok vs) as (Ea & Hc & Hann).
  assert (along (own (visible s0) ++ vs) (size (own (visible s0))) (Config (batched K tag vs) s0 [] 0)) as Hal.
  { constructor; cbn [todo obj taken told]; rewrite ?H0, ?app_nil_r, ?Ea; try done. exists 0, 0. split; [lia|]. split; [lia|]. split; [done|]. split; [rewrite app_nil_l; lia|done]. }
  assert (along (own (visible s0) ++ vs) (size (own (visible s0))) c) as [Ho _ Hcs Hheld (w & n & Hw & Hn & Ha & Ht & Hs)].
  { clear Hann Hc Ea. induction Hrun; [done|]. by eapply IHHrun, along_move. }
  split; [done|]. split; [|split].
  - rewrite app_assoc, own_app, size_app in Ht. rewrite (own_mine (withheld (obj c))) in Ht by done. lia.
  - intros Ec. rewrite Ec in Ho, Ha. cbn in Ha. destruct Ha as [-> ->]. rewrite app_nil_r in Ho.
    assert (withheld (obj c) = []) as E by (apply length_zero_iff_nil; unfold size in Hs; lia). split; [done|].
    apply (f_equal size) in Ho. rewrite size_app in Ho. lia.
  - destruct c as [cs s p k]. destruct (calls_finish cs Hcs s p k) as (s' & k' & H). exists (Config [] s' p k'). done.
Qed.
End batches.

(** Three pushes batched by two on the ring. *)
Definition ring1 : Implementation (T := nat) (member_of spsc) := ring_implementation.
Abbreviation three := [1; 2; 3]%nat.
Abbreviation start3 := (Config (I := ring1) spsc (batched 2 spsc three) (fresh (Implementation := ring1)) [] 0).
Lemma batch_arrives_witness :
  ∃ c, rtc (move spsc (λ _, true)) start3 c ∧ todo spsc c = [] ∧ told spsc c = 3 ∧
  own (λ _, true) (taken spsc c ++ visible (obj spsc c) ++ withheld (obj spsc c)) = three.
Proof.
  destruct (batch_arrives 2 ltac:(lia) spsc (λ _, true) three (fresh (Implementation := ring1)) start3) as (_ & _ & _ & c & Hr & Ht & _);
    [reflexivity|by repeat constructor|constructor|].
  destruct (batch_arrives 2 ltac:(lia) spsc (λ _, true) three (fresh (Implementation := ring1)) c) as (H & _ & Hd & _); [reflexivity|by repeat constructor|exact Hr|].
  exists c. split; [exact Hr|]. split; [exact Ht|]. split; [apply (Hd Ht)|]. rewrite Ht, app_nil_r in H. exact H.
Defined.
End Shim.
